(* ===== verification/_CoqProject ===== *)
-Q . S2P
Prelude.v
BaseUtils.v
Dsaa.v
Str.v
StrFloat.v
Path.v
Log.v
LogFile.v
Os.v
ArrayList.v
Stack.v
Heap.v
Sort.v
BytesBuffer.v
MemoryPool.v
NodeMem.v
DList.v
LinkedList.v
Queue.v
HashTable.v
Trie.v
AvlTree.v
AvlTreeRotate.v
AvlTreeOps.v
AvlTreeRemove.v
Threads.v
Ring.v
Monitor.v
ArrayBlockingQueue.v
DoubleBuffer.v
Channel.v
AsyncLogger.v
RingBuffer.v
TsMemoryPool.v
SowrMemoryPool.v
SocketPeer.v
SocketUtils.v
SocketMemmgr.v
SocketEvent.v
SocketEventPoll.v
SocketEventSelect.v
SocketEventEpoll.v
SocketEventLoop.v
PointerSlot.v
Bits.v
CryptUtils.v
CryptOutput.v
Parity.v
OpensslDes.v
InternalDes.v
BlockModes.v
Des.v
Tdes.v
InternalAes.v
OpensslAesSub.v
OpensslAes.v
Aes.v
