(* ===== verification/Prelude.v ===== *)
(** * A verification library for mugglec

    mugglec (src/muggle/c) is a C library of utilities: base helpers, data
    structures and algorithms (dsaa), memory managers (memory), block ciphers
    (crypt), structures for threads (sync), and wrappers of the operating
    system (os, net, time, log).  This development translates the parts that
    carry logic of their own into executable definitions and proves what makes
    them correct.

    ** Conventions of the model

    A C function is a Rocq function that returns the new state.  An operation
    that can leave its memory is a function into [outcome] (below): [Done],
    [Undef] for an access outside the allocated cells or through a pointer
    that is not valid, [NoFuel] for a loop beyond its bound.  Theorems about such
    operations show that they are [Done]; [wp] is the weakest precondition they
    are proved with.  Loops with a counter are [for_up] and [for_down]; other
    loops take a bound that the theorems show to be enough: the length of the
    array or string, the number of nodes of a store, or the height of a tree.

    Integers are [Z] with the width of the C type written out: [u8], [u32],
    [u64] wrap, [i32] is two's complement, as on the compilers the library is
    built with.  Pointers of clients ([void*]) are numbers with [NULL] = 0.
    Arrays are lists read and written by [aget] and [aset], which are undefined
    outside the array.  Nodes of linked structures are cells of a store indexed
    by address (NodeMem.v), with the allocator and the memory pool that the
    structure uses; code over it is in a state monad with its own weakest
    precondition [wpm].

    Threads are lists of program states; a step relation moves one thread by
    one access to a shared field, so that every interleaving is a sequence of
    steps (Threads.v, Monitor.v, Channel.v, RingBuffer.v, TsMemoryPool.v,
    SocketPeer.v), and theorems hold in every reachable configuration.  Calls of
    clients, returns of waits without a wake, and failures of weak
    compare-and-swaps without a cause are steps of the environment.  The last are
    excluded from the executions ([reachable false]) where the code fails with
    them, and only there: see Assumptions.

    ** Files

    - BaseUtils.v: base/utils.{h,c}, base/err.h, the ring index of base/macro.h.
      next_pow_of_2 is the least power of two that is not smaller.
    - Str.v: base/str.{h,c}.  find and count against the occurrences in the
      range, termination of count, affixes, strip, and the conversion of
      printed numbers back to themselves.  StrFloat.v: its conversions to floating
      point, over the conversion of the C library.
    - Path.v: os/path.{h,c}.  normpath against its specification on components,
      the round trip of dirname, basename and join, and buffer bounds.
    - Log.v: log/log_level, log_fmt, log_handler, log_console_handler, log_logger,
      log_sync_logger, log_async_logger.  A message reaches exactly the handlers
      whose level it reaches, in order.
    - LogFile.v: log/log_file_handler, log_file_rotate_handler,
      log_file_time_rot_handler and log.c over a map of files.  What the files
      hold after any sequence of messages, with rotation by size and by time.
    - AsyncLogger.v: the asynchronous logger of Log.v over the channel of Channel.v
      with the messages in memory.  Under every interleaving the handlers get what
      entered the channel, in order, and no message is used after it is freed.
    - Os.v: os/os.  Creating a directory and those above it, for any file system
      with the laws of mkdir.
    - Dsaa.v: dsaa/dsaa_utils.h and the callbacks and allocators of clients.
    - ArrayList.v, Stack.v, Heap.v, Sort.v: dsaa/array_list, stack, heap, sort.
      Refinements to lists, the heap order and the bag of elements, and for each
      of the sorts a sorted permutation.
    - NodeMem.v, DList.v: stores of nodes and doubly linked chains.
    - LinkedList.v, Queue.v, HashTable.v, Trie.v: dsaa/linked_list, queue,
      hash_table, trie.  Refinements to a list, a queue, a finite map and a map
      from strings, with the nodes taken and given back and the callbacks made.
    - AvlTree.v (code, shapes and zippers), AvlTreeRotate.v (rotations),
      AvlTreeOps.v (find, insert), AvlTreeRemove.v (remove, clear):
      dsaa/avl_tree.  The tree is a sorted sequence, stays balanced with the
      right balance factors, and a search takes at most its height.
    - BytesBuffer.v, MemoryPool.v, PointerSlot.v: memory/bytes_buffer,
      memory_pool, pointer_slot.  A queue of bytes, exclusive ownership of the
      blocks, and a table of used slots.
    - TsMemoryPool.v, SowrMemoryPool.v: memory/threadsafe_memory_pool,
      sowr_memory_pool.  Exclusive ownership under interleaving, and a queue of
      blocks for one taker and one giver.
    - Threads.v, Ring.v: what the concurrent structures share, threads and ring
      positions with cursors that wrap at 32 bits.
    - Monitor.v: operations of the form lock, wait, act, notify, unlock, for any
      structure that satisfies the laws of the interface; ArrayBlockingQueue.v
      and DoubleBuffer.v: sync/array_blocking_queue, double_buffer as its
      instances.  First in first out, mutual exclusion, and no lost wakeup.
    - Channel.v, RingBuffer.v: sync/channel, ring_buffer.  First in first out
      for every kind of channel; for every kind of ring buffer, a read returns
      its message unless the writers are more than a ring ahead; no lost wakeup.
    - SocketPeer.v: net/socket_peer.  The reference count under interleaving, and
      receiving and sending over the results of the system calls.
    - SocketUtils.v: net/socket, socket_utils.  Functions are trees of system calls;
      whatever these answer, sockets are closed and address lists freed once, and
      what is left is the descriptor that is returned, but for a join of a source
      group, which may leave its socket open.
    - SocketMemmgr.v: net/event/socket_event_memmgr.  The peers of an event loop
      in two lists over a pool; a refinement to a pair of lists.  destroy waits for
      the peers that other threads hold: the counts it sees are an argument.
    - SocketEvent.v: net/event/socket_event_utils and what the event loops share:
      callbacks, accepting and refusing, the timer, the end of a round.
      SocketEventPoll.v, SocketEventSelect.v, SocketEventEpoll.v:
      net/event/socket_event_poll, _select, _epoll.  A round serves each ready
      peer once and keeps its arrays, set or registrations in step with the
      active peers.  SocketEventLoop.v: net/socket_event.  A loop that was set up
      and told to end comes back with every node given back.
    - Bits.v, CryptUtils.v, Parity.v: words and bytes, crypt/crypt_utils, the
      Feistel scheme, crypt/parity.  CryptOutput.v: the printers of crypt_utils.
    - OpensslDes.v: crypt/openssl/openssl_des.  Decryption undoes encryption,
      and triple DES is three DES.
    - InternalDes.v: crypt/internal/internal_des and the branches of des.c and
      tdes.c that use it.  Decryption undoes encryption.
    - InternalAes.v, OpensslAesSub.v, OpensslAes.v: crypt/internal/internal_aes,
      crypt/openssl/openssl_aes.  The constant-time code computes the same
      cipher as the code in the terms of FIPS 197, and decryption undoes it.
    - BlockModes.v: the modes ECB, CBC, CFB, OFB and CTR over an interface for
      block ciphers; Des.v, Tdes.v, Aes.v: crypt/des, tdes, aes as instances.
      Each mode is undone by its decryption; the two builds of AES agree.

    ** Interfaces

    [Malloc] (Dsaa.v) and [NodeMalloc] (NodeMem.v) state what malloc and free
    promise: a call fails or returns that many cells with arbitrary contents,
    not in use.  [CmpOrder] (Dsaa.v) and [HashKeys] (HashTable.v) state what the
    callbacks of clients promise.  [DNode] (DList.v) is a node with prev and
    next; [BlockCipher] (BlockModes.v) a block function with its inverse;
    [MonitorOps] and [MonitorLaws] (Monitor.v) a structure behind a lock;
    [client_ok] (SocketEvent.v) what callbacks may do to the peers, [input_ok] what
    accept and recv come to; [DirLaws]
    (Os.v) what mkdir promises, [may] (SocketUtils.v) what the calls on sockets
    need and may answer.  Each
    has instances, and the theorems witnesses that use them.

    ** Assumptions

    Machines are little endian with 64-bit size_t and long, and 32-bit int.
    Buffers that a function reads and writes do not overlap, and checks of
    arguments for NULL are passed.  Memory accesses of threads are
    sequentially consistent.  Mutexes, condition variables and futexes behave as
    documented, with spurious wakeups; locking a mutex does not fail.  A weak
    compare-and-swap fails only when the value is not as expected in three places,
    where the code goes wrong otherwise: the futex lock of a channel, the busy loop
    of ring buffer writers and alloc of the thread-safe pool; the other modes of
    channel and ring buffer and the socket peer are free of the condition.

    Results of accept, recv, select, poll and epoll_wait are arguments of the event
    loops.  What the theorems ask of them: the count of ready entries is right;
    the calls of accept on a listener come to one that would block (refusing
    connections ends with nothing else), and without on_message the calls of recv
    come to one that reads nothing; over select, descriptors are below FD_SETSIZE;
    the timeout is not 0; and for the loop to come back, some round ends it and the
    count of each peer comes to 0 while destroy waits.  Callbacks change only the
    status and the counts of peers; on_close is told and changes none.  When
    another thread releases a peer last, the closing is its own and is not among
    the events of the loop.

    Assertions fail as an undefined operation ([Undef]) in AvlTree.v, HashTable.v,
    the recycling of SocketMemmgr.v and PointerSlot.v (there for both builds);
    elsewhere the build without them is modelled.  Characters are classified as in the C locale.

    ** Bounds

    The hypotheses on sizes are those under which the machine arithmetic of the
    code is exact: capacities of at most 2^30 where a ring index is an int,
    blocks times size below 2^32 or 2^31 where the product is unsigned or int,
    and fewer than 2^31 operations in the thread-safe pool, whose cursors are
    compared by size, and of retains in a socket peer.  The cursors of channel,
    ring buffer, pointer slot and single-writer pool may wrap.  Loops run with
    fuel that the theorems show to be enough: the number of nodes for walks along
    links, the number of results for loops over a system call.  A loop that asks
    for more results than there are is [NoFuel]: theorems that it ends name what
    the results must hold.

    ** Where the code does not do what it means to

    Examples at the end of the files show inputs on which the code misbehaves:
    among them bytes returned twice by the bytes buffer, a block handed out
    twice by the memory pool, loops on weak compare-and-swaps that end without
    the lock or the cursor (channel, ring buffer, thread-safe pool), arrays of a
    pointer slot that are smaller than its capacity, number conversions that
    truncate, path functions that leave results without a terminating zero, log
    messages written from beyond their buffer, event loops that read
    variables which were not written, index a set beyond its end or refuse
    connections without end, a peer that is free to be given back while it is being
    closed, a socket left
    open when a multicast source is not found, and an asynchronous logger that
    never ends when its channel is full at destroy.

    ** Not modelled

    Mutexes, condition variables, futexes, atomics and threads (sync/mutex,
    condition_variable, futex, base/atomic, thread, sleep), and dl, stacktrace,
    time, version and memory_detect are calls of the operating system, the
    compiler or a platform with no logic of their own; what the rest relies on is
    under Assumptions.  Of code with branches for several platforms the one for
    Linux is modelled.  Log messages about errors, the text of addresses and the
    errors of socket.c's send and receive wrappers are left out, and so are the
    examples, benchmarks and tests. *)

From stdpp Require Import base list numbers option.
From Stdlib Require Import ZArith Lia.

Open Scope Z_scope.

(** ** Outcomes

    A C function that runs on concrete memory either returns, performs an
    undefined operation (an access outside the allocated cells), or, for a
    loop modelled with a bound on its iterations, exceeds that bound.  Every
    operation that can do one of the last two is a function into [outcome];
    its theorems show that it is [Done]. *)
Inductive outcome (A : Type) : Type :=
| Done (a : A)
| Undef
| NoFuel.
Arguments Done {A} a.
Arguments Undef {A}.
Arguments NoFuel {A}.

#[export] Instance outcome_ret : MRet outcome := fun A a => Done a.
#[export] Instance outcome_bind : MBind outcome := fun A B f m =>
  match m with
  | Done a => f a
  | Undef => Undef
  | NoFuel => NoFuel
  end.

(** Compute the binds of the goal. *)
Ltac mcompute := cbv beta iota zeta delta [mbind outcome_bind mret outcome_ret].

(** [wp m Q]: the computation [m] terminates without undefined behaviour and
    its result satisfies [Q]. *)
Definition wp {A : Type} (m : outcome A) (Q : A -> Prop) : Prop :=
  match m with
  | Done a => Q a
  | _ => False
  end.

Lemma wp_Done {A} (m : outcome A) (Q : A -> Prop) :
  wp m Q <-> exists a, m = Done a /\ Q a.
Proof. destruct m; simpl; naive_solver. Qed.

Lemma wp_ret {A} (a : A) (Q : A -> Prop) : Q a -> wp (mret a) Q.
Proof. done. Qed.

Lemma wp_bind {A B} (m : outcome A) (f : A -> outcome B) (Q : B -> Prop) :
  wp m (fun a => wp (f a) Q) -> wp (m ≫= f) Q.
Proof. by destruct m. Qed.

Lemma wp_mono {A} (m : outcome A) (P Q : A -> Prop) :
  wp m P -> (forall a, P a -> Q a) -> wp m Q.
Proof. destruct m; simpl; auto. Qed.

Lemma wp_conj {A} (m : outcome A) (P Q : A -> Prop) :
  wp m P -> wp m Q -> wp m (fun a => P a /\ Q a).
Proof. destruct m; simpl; auto. Qed.

Lemma bind_done {A B} (m : outcome A) a (f : A -> outcome B) : m = Done a -> (m ≫= f) = f a.
Proof. by intros ->. Qed.

(** ** Loops

    [loop fuel body s] iterates [body] from the loop state [s]: [inl s']
    continues with [s'], [inr r] leaves the loop with [r]. *)
Fixpoint loop {S R : Type} (fuel : nat) (body : S -> outcome (S + R)) (s : S)
  : outcome R :=
  match fuel with
  | O => NoFuel
  | Datatypes.S fuel' =>
      r ← body s;
      match r with
      | inl s' => loop fuel' body s'
      | inr x => mret x
      end
  end.

(** The total-correctness rule of [loop]: an invariant that every iteration
    keeps, a measure that every iteration decreases, and fuel above the
    measure give a result that satisfies the exit condition. *)
Lemma wp_loop {S R} (body : S -> outcome (S + R)) (Inv : S -> Prop)
    (measure : S -> nat) (Q : R -> Prop) :
  (forall s, Inv s ->
     wp (body s) (fun r => match r with
                           | inl s' => Inv s' /\ (measure s' < measure s)%nat
                           | inr x => Q x
                           end)) ->
  forall fuel s, Inv s -> (measure s < fuel)%nat -> wp (loop fuel body s) Q.
Proof.
  intros Hbody fuel. induction fuel as [|fuel IH]; intros s Hs Hm; [lia|].
  simpl. apply wp_bind. eapply wp_mono; [by apply Hbody|].
  intros [s'|x]; [|done]. intros [Hs' Hlt]. apply IH; [done|lia].
Qed.

(** [for_up lo hi body s] is [for (i = lo; i < hi; i++)], [for_down hi lo body s]
    is [for (i = hi; i >= lo; i--)], with the rest of the state threaded. *)
Fixpoint for_up_iter {S : Type} (n : nat) (i : Z) (body : Z -> S -> outcome S) (s : S)
  : outcome S :=
  match n with
  | O => mret s
  | Datatypes.S n' => s' ← body i s; for_up_iter n' (i + 1) body s'
  end.

Definition for_up {S} (lo hi : Z) (body : Z -> S -> outcome S) (s : S) : outcome S :=
  for_up_iter (Z.to_nat (hi - lo)) lo body s.

Fixpoint for_down_iter {S : Type} (n : nat) (i : Z) (body : Z -> S -> outcome S) (s : S)
  : outcome S :=
  match n with
  | O => mret s
  | Datatypes.S n' => s' ← body i s; for_down_iter n' (i - 1) body s'
  end.

Definition for_down {S} (hi lo : Z) (body : Z -> S -> outcome S) (s : S) : outcome S :=
  for_down_iter (Z.to_nat (hi - lo + 1)) hi body s.

Lemma wp_for_up {S} (Inv : Z -> S -> Prop) lo hi (body : Z -> S -> outcome S) s Q :
  Inv lo s ->
  (forall i s, lo <= i < hi -> Inv i s -> wp (body i s) (Inv (i + 1))) ->
  (forall s, Inv (Z.max lo hi) s -> Q s) ->
  wp (for_up lo hi body s) Q.
Proof.
  intros H0 Hstep HQ. unfold for_up.
  assert (forall n i s, lo <= i -> i + Z.of_nat n = Z.max lo hi -> Inv i s ->
    wp (for_up_iter n i body s) Q) as Hgen.
  { induction n as [|n IH]; intros i s' Hi Hn HI; simpl.
    - apply HQ. by replace (Z.max lo hi) with i by lia.
    - apply wp_bind. eapply wp_mono; [apply Hstep; [lia|done]|].
      intros s'' Hs''. apply IH; [lia|lia|done]. }
  apply Hgen; [lia|lia|done].
Qed.

Lemma wp_for_down {S} (Inv : Z -> S -> Prop) hi lo (body : Z -> S -> outcome S) s Q :
  Inv hi s ->
  (forall i s, lo <= i <= hi -> Inv i s -> wp (body i s) (Inv (i - 1))) ->
  (forall s, Inv (Z.min hi (lo - 1)) s -> Q s) ->
  wp (for_down hi lo body s) Q.
Proof.
  intros H0 Hstep HQ. unfold for_down.
  assert (forall n i s, i <= hi -> i - Z.of_nat n = Z.min hi (lo - 1) -> Inv i s ->
    wp (for_down_iter n i body s) Q) as Hgen.
  { induction n as [|n IH]; intros i s' Hi Hn HI; simpl.
    - apply HQ. by replace (Z.min hi (lo - 1)) with i by lia.
    - apply wp_bind. eapply wp_mono; [apply Hstep; [lia|done]|].
      intros s'' Hs''. apply IH; [lia|lia|done]. }
  apply Hgen; [lia|lia|done].
Qed.

(** ** Machine integers *)
Definition wrap (w x : Z) : Z := x mod 2 ^ w.
Definition swrap (w x : Z) : Z :=
  let y := x mod 2 ^ w in if y <? 2 ^ (w - 1) then y else y - 2 ^ w.

Abbreviation u8 := (wrap 8).
Abbreviation u32 := (wrap 32).
Abbreviation u64 := (wrap 64).
Abbreviation i32 := (swrap 32).
Abbreviation i64 := (swrap 64).

Lemma wrap_small w x : 0 <= x < 2 ^ w -> wrap w x = x.
Proof. apply Z.mod_small. Qed.

Lemma wrap_range w x : 0 <= w -> 0 <= wrap w x < 2 ^ w.
Proof. intros. apply Z.mod_pos_bound, Z.pow_pos_nonneg; lia. Qed.

Lemma swrap_small w x : 0 < w -> - 2 ^ (w - 1) <= x < 2 ^ (w - 1) -> swrap w x = x.
Proof.
  intros Hw Hx. unfold swrap.
  assert (2 ^ w = 2 * 2 ^ (w - 1)) as E
    by (rewrite <- Z.pow_succ_r by lia; f_equal; lia).
  destruct (decide (0 <= x)).
  - rewrite Z.mod_small by lia. destruct (Z.ltb_spec x (2 ^ (w - 1))); lia.
  - replace (x mod 2 ^ w) with (x + 2 ^ w).
    + destruct (Z.ltb_spec (x + 2 ^ w) (2 ^ (w - 1))); lia.
    + rewrite <- (Z.mod_small (x + 2 ^ w) (2 ^ w)) by lia.
      rewrite <- (Z.mod_add x 1 (2 ^ w)) by lia. f_equal; lia.
Qed.

Lemma swrap_range w x : 0 < w -> - 2 ^ (w - 1) <= swrap w x < 2 ^ (w - 1).
Proof.
  intros Hw. unfold swrap.
  assert (2 ^ w = 2 * 2 ^ (w - 1)) as E
    by (rewrite <- Z.pow_succ_r by lia; f_equal; lia).
  pose proof (Z.mod_pos_bound x (2 ^ w)).
  destruct (Z.ltb_spec (x mod 2 ^ w) (2 ^ (w - 1))); lia.
Qed.

(** [solve_width]: replace the wrap-arounds of the goal whose argument is in
    range, with the side conditions proved by [lia]. *)
Ltac solve_width :=
  repeat match goal with
  | |- context [wrap ?w ?x] => rewrite (wrap_small w x) by lia
  | |- context [swrap ?w ?x] => rewrite (swrap_small w x) by lia
  end.

(** ** Arrays

    An array of cells indexed by a C integer: an access outside [0, length)
    is undefined. *)
Definition zlen {A} (l : list A) : Z := Z.of_nat (length l).

Definition aget {A} (l : list A) (i : Z) : outcome A :=
  if bool_decide (0 <= i) then
    match l !! Z.to_nat i with Some x => Done x | None => Undef end
  else Undef.

Definition aset {A} (l : list A) (i : Z) (x : A) : outcome (list A) :=
  if bool_decide (0 <= i < zlen l) then Done (<[Z.to_nat i := x]> l) else Undef.

(** The cell at index [i], in specifications. *)
Definition zlookup {A} (l : list A) (i : Z) : option A :=
  if bool_decide (0 <= i) then l !! Z.to_nat i else None.
Notation "l @@ i" := (zlookup l i) (at level 20).

Definition zinsert {A} (i : Z) (x : A) (l : list A) : list A :=
  <[Z.to_nat i := x]> l.

Section arrays.
Context {A : Type}.
Implicit Types (l : list A) (i j : Z) (x y : A).

Lemma zlen_nonneg l : 0 <= zlen l.
Proof. unfold zlen. lia. Qed.

Lemma zlookup_lt l i x : l @@ i = Some x -> 0 <= i < zlen l.
Proof.
  unfold zlookup, zlen. case_bool_decide; [|done].
  intros Hl%lookup_lt_Some. lia.
Qed.

Lemma zlookup_is_Some l i : 0 <= i < zlen l -> exists x, l @@ i = Some x.
Proof.
  unfold zlookup, zlen. intros Hi. rewrite bool_decide_true by lia.
  apply lookup_lt_is_Some. lia.
Qed.

Lemma zlookup_None l i : ~ (0 <= i < zlen l) -> l @@ i = None.
Proof.
  unfold zlookup, zlen. intros Hi. case_bool_decide; [|done].
  apply lookup_ge_None. lia.
Qed.

Lemma wp_aget l i (Q : A -> Prop) :
  0 <= i < zlen l -> (forall x, l @@ i = Some x -> Q x) -> wp (aget l i) Q.
Proof.
  intros Hi HQ. destruct (zlookup_is_Some l i Hi) as [x Hx].
  unfold aget. unfold zlookup in *. case_bool_decide; [|lia].
  rewrite Hx. simpl. auto.
Qed.

Lemma aget_Some l i x : l @@ i = Some x -> aget l i = Done x.
Proof. unfold aget, zlookup. case_bool_decide; [|done]. by intros ->. Qed.

Lemma aset_zinsert l i x : 0 <= i < zlen l -> aset l i x = Done (zinsert i x l).
Proof. intros. unfold aset. by rewrite bool_decide_true by lia. Qed.

Lemma wp_aset l i x (Q : list A -> Prop) :
  0 <= i < zlen l -> Q (zinsert i x l) -> wp (aset l i x) Q.
Proof. intros Hi HQ. by rewrite aset_zinsert. Qed.

Lemma zlen_zinsert l i x : zlen (zinsert i x l) = zlen l.
Proof. unfold zlen, zinsert. by rewrite length_insert. Qed.

Lemma zlookup_zinsert_eq l i x : 0 <= i < zlen l -> zinsert i x l @@ i = Some x.
Proof.
  unfold zlookup, zinsert, zlen. intros. rewrite bool_decide_true by lia.
  apply list_lookup_insert_eq. lia.
Qed.

Lemma zlookup_zinsert_ne l i j x :
  0 <= i -> i <> j -> zinsert i x l @@ j = l @@ j.
Proof.
  unfold zlookup, zinsert. intros. case_bool_decide; [|done].
  apply list_lookup_insert_ne. lia.
Qed.

Lemma zlookup_zinsert l i j x :
  0 <= i < zlen l -> zinsert i x l @@ j = if decide (i = j) then Some x else l @@ j.
Proof.
  intros. case_decide as E; [subst; by apply zlookup_zinsert_eq|].
  apply zlookup_zinsert_ne; lia.
Qed.

Lemma zinsert_id l i x : l @@ i = Some x -> zinsert i x l = l.
Proof.
  unfold zlookup, zinsert. case_bool_decide; [|done]. apply list_insert_id.
Qed.

Lemma zinsert_zinsert_eq l i x y : zinsert i x (zinsert i y l) = zinsert i x l.
Proof. unfold zinsert. apply list_insert_insert_eq. Qed.

Lemma zinsert_commute l i j x y :
  0 <= i -> 0 <= j -> i <> j ->
  zinsert i x (zinsert j y l) = zinsert j y (zinsert i x l).
Proof. unfold zinsert. intros. apply list_insert_insert_ne. lia. Qed.

Lemma zlookup_ext l1 l2 :
  zlen l1 = zlen l2 -> (forall i, 0 <= i < zlen l1 -> l1 @@ i = l2 @@ i) -> l1 = l2.
Proof.
  intros Hlen H. apply list_eq. intros k.
  specialize (H (Z.of_nat k)). unfold zlookup, zlen in *.
  rewrite bool_decide_true, Nat2Z.id in H by lia.
  destruct (decide (k < length l1)%nat); [apply H; lia|].
  rewrite !lookup_ge_None_2 by lia. done.
Qed.

Lemma zlookup_app_l l1 l2 i : i < zlen l1 -> (l1 ++ l2) @@ i = l1 @@ i.
Proof.
  unfold zlookup, zlen. intros. case_bool_decide; [|done]. apply lookup_app_l. lia.
Qed.

Lemma zlookup_app_r l1 l2 i : zlen l1 <= i -> (l1 ++ l2) @@ i = l2 @@ (i - zlen l1).
Proof.
  unfold zlookup, zlen. intros. rewrite !bool_decide_true by lia.
  rewrite lookup_app_r by lia. f_equal. lia.
Qed.

Lemma zlen_app l1 l2 : zlen (l1 ++ l2) = zlen l1 + zlen l2.
Proof. unfold zlen. rewrite length_app. lia. Qed.

Lemma zlookup_nonneg l i : 0 <= i -> l @@ i = l !! Z.to_nat i.
Proof. unfold zlookup. intros. by rewrite bool_decide_true. Qed.

Lemma zlookup_neg l i : i < 0 -> l @@ i = None.
Proof. unfold zlookup. intros. by rewrite bool_decide_false by lia. Qed.

Lemma zlookup_take l n i :
  take (Z.to_nat n) l @@ i = if decide (i < n) then l @@ i else None.
Proof.
  destruct (decide (0 <= i)) as [Hi|Hi].
  - rewrite !zlookup_nonneg by done. rewrite lookup_take.
    repeat case_decide; try done; lia.
  - rewrite !zlookup_neg by lia. by case_decide.
Qed.

Lemma zlookup_drop l n i : 0 <= n -> 0 <= i -> drop (Z.to_nat n) l @@ i = l @@ (n + i).
Proof.
  intros. rewrite !zlookup_nonneg by lia. rewrite lookup_drop. f_equal. lia.
Qed.

Lemma zlen_take l n : 0 <= n <= zlen l -> zlen (take (Z.to_nat n) l) = n.
Proof. unfold zlen. intros. rewrite length_take. lia. Qed.

Lemma zlen_drop l n : 0 <= n <= zlen l -> zlen (drop (Z.to_nat n) l) = zlen l - n.
Proof. unfold zlen. intros. rewrite length_drop. lia. Qed.

Lemma zlen_cons x l : zlen (x :: l) = 1 + zlen l.
Proof. unfold zlen. simpl. lia. Qed.

Lemma zlookup_cons x l i :
  (x :: l) @@ i = if decide (i = 0) then Some x else l @@ (i - 1).
Proof.
  case_decide as E; [by subst|]. destruct (decide (0 <= i)).
  - rewrite !zlookup_nonneg by lia.
    replace (Z.to_nat i) with (S (Z.to_nat (i - 1))) by lia. done.
  - rewrite !zlookup_neg by lia. done.
Qed.

(** Inserting before position [k], and deleting position [k]. *)
Definition insert_at (k : Z) x l : list A :=
  take (Z.to_nat k) l ++ x :: drop (Z.to_nat k) l.
Definition delete_at (k : Z) l : list A :=
  take (Z.to_nat k) l ++ drop (Z.to_nat (k + 1)) l.

Lemma zlen_insert_at k x l : 0 <= k <= zlen l -> zlen (insert_at k x l) = zlen l + 1.
Proof.
  intros. unfold insert_at. rewrite zlen_app, zlen_take, zlen_cons, zlen_drop by lia. lia.
Qed.

Lemma zlookup_insert_at k x l i :
  0 <= k <= zlen l ->
  insert_at k x l @@ i =
    if decide (i < k) then l @@ i else if decide (i = k) then Some x else l @@ (i - 1).
Proof.
  intros Hk. unfold insert_at.
  destruct (decide (i < k)).
  - rewrite zlookup_app_l by (rewrite zlen_take; lia). rewrite zlookup_take.
    by rewrite decide_True by lia.
  - rewrite zlookup_app_r by (rewrite zlen_take; lia).
    rewrite zlookup_cons, zlen_take by lia. repeat case_decide; try done; try lia.
    rewrite zlookup_drop by lia. f_equal. lia.
Qed.

Lemma zlen_delete_at k l : 0 <= k < zlen l -> zlen (delete_at k l) = zlen l - 1.
Proof.
  intros. unfold delete_at. rewrite zlen_app, zlen_take, zlen_drop by lia. lia.
Qed.

Lemma zlookup_delete_at k l i :
  0 <= k < zlen l ->
  delete_at k l @@ i = if decide (i < k) then l @@ i else l @@ (i + 1).
Proof.
  intros Hk. unfold delete_at. case_decide.
  - rewrite zlookup_app_l by (rewrite zlen_take; lia). rewrite zlookup_take.
    by rewrite decide_True by lia.
  - rewrite zlookup_app_r by (rewrite zlen_take; lia).
    rewrite zlen_take, zlookup_drop by lia. f_equal. lia.
Qed.

(** Two arrays agree on the cells [lo <= i < hi]. *)
Definition agree (lo hi : Z) (l1 l2 : list A) : Prop :=
  forall i, lo <= i < hi -> l1 @@ i = l2 @@ i.
(** ** Permutations of array segments *)

(** The cells [lo <= i < hi]. *)
Definition seg (lo hi : Z) l : list A :=
  take (Z.to_nat (hi - lo)) (drop (Z.to_nat lo) l).

Lemma seg_split lo hi l :
  0 <= lo <= hi ->
  l = take (Z.to_nat lo) l ++ seg lo hi l ++ drop (Z.to_nat hi) l.
Proof.
  intros. unfold seg. rewrite <- (take_drop (Z.to_nat lo) l) at 1. f_equal.
  rewrite <- (take_drop (Z.to_nat (hi - lo)) (drop (Z.to_nat lo) l)) at 1.
  rewrite drop_drop. do 2 f_equal. lia.
Qed.

Lemma zlen_seg lo hi l : 0 <= lo <= hi -> hi <= zlen l -> zlen (seg lo hi l) = hi - lo.
Proof. unfold seg, zlen. intros. rewrite length_take, length_drop. lia. Qed.

Lemma zlookup_seg lo hi l i :
  0 <= lo -> 0 <= i -> seg lo hi l @@ i = if decide (i < hi - lo) then l @@ (lo + i) else None.
Proof. intros. unfold seg. rewrite zlookup_take, zlookup_drop by lia. done. Qed.

Lemma seg_ext lo hi l1 l2 :
  0 <= lo <= hi -> hi <= zlen l1 -> hi <= zlen l2 -> agree lo hi l1 l2 ->
  seg lo hi l1 = seg lo hi l2.
Proof.
  intros ??? Hag. apply zlookup_ext; rewrite !zlen_seg by lia; [done|].
  intros i Hi. rewrite !zlookup_seg, !decide_True by lia. apply Hag. lia.
Qed.

Lemma seg_app lo mid hi l :
  0 <= lo <= mid -> mid <= hi -> seg lo hi l = seg lo mid l ++ seg mid hi l.
Proof.
  intros. unfold seg.
  rewrite <- (take_drop (Z.to_nat (mid - lo)) (take (Z.to_nat (hi - lo)) _)).
  rewrite take_take, skipn_firstn_comm, drop_drop.
  f_equal; [f_equal; lia|]. f_equal; [lia|f_equal; lia].
Qed.

Lemma seg_single lo l x : l @@ lo = Some x -> seg lo (lo + 1) l = [x].
Proof.
  intros Hx. pose proof (zlookup_lt _ _ _ Hx). apply zlookup_ext.
  - rewrite zlen_seg by lia. unfold zlen. simpl. lia.
  - intros i Hi. rewrite zlen_seg in Hi by lia. replace i with 0 by lia.
    rewrite zlookup_seg, decide_True, Z.add_0_r by lia. done.
Qed.

Lemma seg_empty lo l : seg lo lo l = [].
Proof. unfold seg. by rewrite Z.sub_diag. Qed.

(** Arrays that are permutations of each other and agree outside a segment
    have permuted segments. *)
Lemma seg_perm lo hi l1 l2 :
  0 <= lo <= hi -> hi <= zlen l1 -> l1 ≡ₚ l2 ->
  agree 0 lo l1 l2 -> agree hi (zlen l1) l1 l2 ->
  seg lo hi l1 ≡ₚ seg lo hi l2.
Proof.
  intros Hlo Hhi Hp Hl Hr.
  assert (zlen l1 = zlen l2) as Hlen by (unfold zlen; by rewrite Hp).
  assert (take (Z.to_nat lo) l1 = take (Z.to_nat lo) l2) as Et.
  { apply zlookup_ext; rewrite !zlen_take by lia; [done|]. intros i Hi.
    rewrite !zlookup_take, !decide_True by lia. by apply Hl. }
  assert (drop (Z.to_nat hi) l1 = drop (Z.to_nat hi) l2) as Ed.
  { apply zlookup_ext; rewrite !zlen_drop by lia; [lia|]. intros i Hi.
    rewrite !zlookup_drop by lia. apply Hr. lia. }
  rewrite (seg_split lo hi l1), (seg_split lo hi l2) in Hp by lia.
  rewrite Et, Ed in Hp. by apply Permutation_app_inv_l, Permutation_app_inv_r in Hp.
Qed.

Lemma insert_perm_cons (l : list A) k x y :
  l !! k = Some y -> y :: <[k:=x]> l ≡ₚ x :: l.
Proof.
  revert k. induction l as [|z l IH]; intros [|k] Hk; simplify_eq/=; [apply perm_swap|].
  rewrite perm_swap, (IH _ Hk). apply perm_swap.
Qed.

(** Exchanging two cells. *)
Lemma swap_perm l i j x y :
  l @@ i = Some x -> l @@ j = Some y -> i <> j -> zinsert j x (zinsert i y l) ≡ₚ l.
Proof.
  intros Hx Hy Hne.
  pose proof (zlookup_lt _ _ _ Hx). pose proof (zlookup_lt _ _ _ Hy).
  assert (zinsert i y l @@ j = Some y) as Hy' by (by rewrite zlookup_zinsert_ne by lia).
  assert (zinsert i y l @@ i = Some y) by (apply zlookup_zinsert_eq; lia).
  rewrite zlookup_nonneg in Hx, Hy' by lia.
  apply (Permutation_cons_inv (a := y)). unfold zinsert at 1.
  rewrite (insert_perm_cons _ _ x y Hy'). unfold zinsert.
  by rewrite (insert_perm_cons _ _ y x Hx).
Qed.

Lemma seg_full l : seg 0 (zlen l) l = l.
Proof. unfold seg, zlen. rewrite Z.sub_0_r, Nat2Z.id. simpl. by rewrite firstn_all. Qed.

(** ** memcpy

    [mem_read l off n] are the [n] cells from [off] on, [mem_write l off xs]
    overwrites the cells from [off] on with [xs]; a range that is not inside the
    array, or a negative count, is undefined. *)
Definition mem_read l (off n : Z) : outcome (list A) :=
  if bool_decide (0 <= off /\ 0 <= n /\ off + n <= zlen l)
  then Done (seg off (off + n) l) else Undef.

Definition overwrite (off : Z) (xs l : list A) : list A :=
  take (Z.to_nat off) l ++ xs ++ drop (Z.to_nat (off + zlen xs)) l.

Definition mem_write l (off : Z) (xs : list A) : outcome (list A) :=
  if bool_decide (0 <= off /\ off + zlen xs <= zlen l)
  then Done (overwrite off xs l) else Undef.

Lemma mem_read_ok l off n :
  0 <= off -> 0 <= n -> off + n <= zlen l -> mem_read l off n = Done (seg off (off + n) l).
Proof. intros. unfold mem_read. by rewrite bool_decide_true. Qed.

Lemma mem_write_ok l off xs :
  0 <= off -> off + zlen xs <= zlen l -> mem_write l off xs = Done (overwrite off xs l).
Proof. intros. unfold mem_write. by rewrite bool_decide_true. Qed.

Lemma zlen_overwrite off xs l :
  0 <= off -> off + zlen xs <= zlen l -> zlen (overwrite off xs l) = zlen l.
Proof.
  intros. pose proof (zlen_nonneg xs). unfold overwrite.
  rewrite !zlen_app, zlen_take, zlen_drop by lia. lia.
Qed.

Lemma zlookup_overwrite off xs l i :
  0 <= off -> off + zlen xs <= zlen l -> 0 <= i ->
  overwrite off xs l @@ i =
    if decide (off <= i < off + zlen xs) then xs @@ (i - off) else l @@ i.
Proof.
  intros Ho Hl Hi. pose proof (zlen_nonneg xs). unfold overwrite.
  destruct (decide (i < off)).
  - rewrite zlookup_app_l by (rewrite zlen_take; lia).
    rewrite zlookup_take, decide_True, decide_False by lia. done.
  - rewrite zlookup_app_r by (rewrite zlen_take; lia). rewrite zlen_take by lia.
    destruct (decide (i < off + zlen xs)).
    + rewrite decide_True by lia. apply zlookup_app_l. lia.
    + rewrite decide_False, zlookup_app_r, zlookup_drop by lia. f_equal. lia.
Qed.

Lemma seg_overwrite_eq off xs l :
  0 <= off -> off + zlen xs <= zlen l -> seg off (off + zlen xs) (overwrite off xs l) = xs.
Proof.
  intros Ho Hl. pose proof (zlen_nonneg xs).
  apply zlookup_ext; rewrite zlen_seg by (rewrite ?zlen_overwrite; lia); [lia|].
  intros i Hi. rewrite zlookup_seg, decide_True, zlookup_overwrite, decide_True by lia.
  f_equal. lia.
Qed.

Lemma seg_overwrite_ne off xs l lo hi :
  0 <= off -> off + zlen xs <= zlen l -> 0 <= lo <= hi -> hi <= zlen l ->
  hi <= off \/ off + zlen xs <= lo -> seg lo hi (overwrite off xs l) = seg lo hi l.
Proof.
  intros. apply seg_ext; rewrite ?zlen_overwrite by lia; try lia.
  intros i Hi. rewrite zlookup_overwrite, decide_False by lia. done.
Qed.

Lemma seg_overwrite_snoc off xs l lo :
  0 <= lo <= off -> off + zlen xs <= zlen l ->
  seg lo (off + zlen xs) (overwrite off xs l) = seg lo off l ++ xs.
Proof.
  intros. pose proof (zlen_nonneg xs). rewrite (seg_app lo off) by lia.
  by rewrite seg_overwrite_ne, seg_overwrite_eq by lia.
Qed.

Lemma take_seg lo hi l n :
  0 <= n <= hi - lo -> take (Z.to_nat n) (seg lo hi l) = seg lo (lo + n) l.
Proof. intros. unfold seg. rewrite take_take. f_equal. lia. Qed.

Lemma drop_seg lo hi l n :
  0 <= n -> 0 <= lo -> drop (Z.to_nat n) (seg lo hi l) = seg (lo + n) hi l.
Proof.
  intros. unfold seg. rewrite skipn_firstn_comm, drop_drop. f_equal; [lia|f_equal; lia].
Qed.

Lemma take_app_zle l1 l2 n :
  0 <= n <= zlen l1 -> take (Z.to_nat n) (l1 ++ l2) = take (Z.to_nat n) l1.
Proof. unfold zlen. intros. apply take_app_le. lia. Qed.

Lemma take_app_zge l1 l2 n :
  zlen l1 <= n -> take (Z.to_nat n) (l1 ++ l2) = l1 ++ take (Z.to_nat (n - zlen l1)) l2.
Proof. unfold zlen. intros. rewrite take_app_ge by lia. do 2 f_equal. lia. Qed.

Lemma drop_app_zle l1 l2 n :
  0 <= n <= zlen l1 -> drop (Z.to_nat n) (l1 ++ l2) = drop (Z.to_nat n) l1 ++ l2.
Proof. unfold zlen. intros. apply drop_app_le. lia. Qed.

Lemma drop_app_zge l1 l2 n :
  zlen l1 <= n -> drop (Z.to_nat n) (l1 ++ l2) = drop (Z.to_nat (n - zlen l1)) l2.
Proof. unfold zlen. intros. rewrite drop_app_ge by lia. f_equal. lia. Qed.

Lemma take_seg0 n l : take (Z.to_nat n) l = seg 0 n l.
Proof. unfold seg. by rewrite Z.sub_0_r. Qed.

End arrays.

Create HintDb arr.
#[export] Hint Rewrite @zlen_zinsert @zlen_app : arr.

(** Pointers: an address, with the null pointer 0.  The data structures store
    [void*] values and never look behind them except through the client's
    callbacks. *)
Abbreviation ptr := Z.
Definition NULL : ptr := 0.
