(* ===== verification/BaseUtils.v ===== *)
(** Base utilities: the error codes of muggle/c/base/err.h, the power-of-two
    helpers of muggle/c/base/utils.{h,c} and the ring index of
    muggle/c/base/macro.h, with the arithmetic facts the ring structures need. *)

From stdpp Require Import base numbers.
From Stdlib Require Import ZArith Lia Zpow_facts.
From S2P Require Import Prelude.

Open Scope Z_scope.

(** The anonymous enum of err.h. *)
Definition MUGGLE_OK : Z := 0.
Definition MUGGLE_ERR_UNKNOWN : Z := 1.
Definition MUGGLE_ERR_TODO : Z := 2.
Definition MUGGLE_ERR_MEM_ALLOC : Z := 3.
Definition MUGGLE_ERR_MEM_DUPLICATE_FREE : Z := 4.
Definition MUGGLE_ERR_NULL_PARAM : Z := 5.
Definition MUGGLE_ERR_INVALID_PARAM : Z := 6.
Definition MUGGLE_ERR_ACQ_LOCK : Z := 7.
Definition MUGGLE_ERR_SYS_CALL : Z := 8.
Definition MUGGLE_ERR_INTERRUPT : Z := 9.
Definition MUGGLE_ERR_BEYOND_RANGE : Z := 10.
Definition MUGGLE_ERR_FULL : Z := 11.
Definition MUGGLE_ERR_CRYPT_PLAINTEXT_SIZE : Z := 12.
Definition MUGGLE_ERR_CRYPT_KEY_SIZE : Z := 13.

(** [IS_POW_OF_2] at width 64 (all its uses). *)
Definition IS_POW_OF_2 (x : Z) : bool := Z.land x (u64 (x - 1)) =? 0.

(** [ROUND_UP_POW_OF_2_MUL] on [unsigned int]; the mask is [~(n - 1)]. *)
Definition ROUND_UP_POW_OF_2_MUL (x n : Z) : Z :=
  Z.land (u32 (u32 (x + n) - 1)) (u32 (Z.lnot (n - 1))).

(** [IDX_IN_POW_OF_2_RING]; on a signed index the mask [capacity - 1] is
    non-negative, so [&] on the two's complement value is [Z.land]. *)
Definition IDX_IN_POW_OF_2_RING (idx capacity : Z) : Z := Z.land idx (capacity - 1).

(** utils.c, one definition per statement sequence. *)
Definition next_pow_of_2 (x : Z) : Z :=
  if IS_POW_OF_2 x then x
  else
    let x := Z.lor x (Z.shiftr x 1) in
    let x := Z.lor x (Z.shiftr x 2) in
    let x := Z.lor x (Z.shiftr x 4) in
    let x := Z.lor x (Z.shiftr x 8) in
    let x := Z.lor x (Z.shiftr x 16) in
    u64 (x + 1).

(** ** Powers of two *)
Lemma is_pow_of_2_pow n : 0 <= n < 64 -> IS_POW_OF_2 (2 ^ n) = true.
Proof.
  intros Hn. unfold IS_POW_OF_2.
  assert (0 < 2 ^ n < 2 ^ 64)
    by (split; [apply Z.pow_pos_nonneg | apply Z.pow_lt_mono_r]; lia).
  rewrite wrap_small by lia. replace (2 ^ n - 1) with (Z.ones n) by (rewrite Z.ones_equiv; lia).
  rewrite Z.land_ones, Z.mod_same by lia. done.
Qed.

Lemma is_pow_of_2_log2 x :
  0 < x < 2 ^ 64 -> IS_POW_OF_2 x = true -> x = 2 ^ Z.log2 x.
Proof.
  intros Hx. unfold IS_POW_OF_2. rewrite wrap_small, Z.eqb_eq by lia. intros Hland.
  destruct (Z.log2_spec x) as [Hlo Hhi]; [lia|].
  destruct (decide (x = 2 ^ Z.log2 x)) as [|Hne]; [done|]. exfalso.
  assert (Z.log2 (x - 1) = Z.log2 x) as E.
  { apply Z.log2_unique; [apply Z.log2_nonneg|lia]. }
  pose proof (f_equal (fun v => Z.testbit v (Z.log2 x)) Hland) as Hbit. simpl in Hbit.
  rewrite Z.land_spec, Z.bit_log2, Z.bits_0, <- E, Z.bit_log2 in Hbit
    by (rewrite ?E; pose proof (Z.pow_pos_nonneg 2 (Z.log2 x)); pose proof (Z.log2_nonneg x); lia).
  done.
Qed.

(** [covers x m y]: bit [i] of [y] is set exactly when one of the bits
    [i .. i + m - 1] of [x] is. *)
Definition covers (x m y : Z) : Prop :=
  forall i, 0 <= i ->
    (Z.testbit y i = true <-> exists d, 0 <= d < m /\ Z.testbit x (i + d) = true).

Lemma covers_step x m y :
  0 < m -> covers x m y -> covers x (2 * m) (Z.lor y (Z.shiftr y m)).
Proof.
  intros Hm Hc i Hi. rewrite Z.lor_spec, Z.shiftr_spec, orb_true_iff by lia.
  rewrite (Hc i), (Hc (i + m)) by lia. split.
  - intros [(d & ? & Hd)|(d & ? & Hd)]; [exists d|exists (m + d)]; split; try lia; auto.
    by replace (i + (m + d)) with (i + m + d) by lia.
  - intros (d & ? & Hd). destruct (decide (d < m)); [left; exists d; split; [lia|done]|].
    right. exists (d - m). split; [lia|]. by replace (i + m + (d - m)) with (i + d) by lia.
Qed.

Lemma covers_ones x y :
  0 < x < 2 ^ 32 -> covers x 32 y -> 0 <= y -> y = Z.ones (Z.log2 x + 1).
Proof.
  intros Hx Hc Hy. apply Z.bits_inj'. intros i Hi.
  pose proof (Z.log2_nonneg x).
  assert (Z.log2 x < 32) by (apply Z.log2_lt_pow2; lia).
  apply eq_true_iff_eq. rewrite (Hc i Hi). destruct (decide (i <= Z.log2 x)).
  - rewrite Z.ones_spec_low by lia. split; [done|]. intros _.
    exists (Z.log2 x - i). split; [lia|]. replace (i + _) with (Z.log2 x) by lia.
    apply Z.bit_log2. lia.
  - rewrite Z.ones_spec_high by lia. split; [|done]. intros (d & ? & Hd).
    rewrite Z.bits_above_log2 in Hd by lia. done.
Qed.

(** The power of two the ring structures get: [2 ^ ceil(log2 x)]. *)
Lemma next_pow_of_2_log2_up x :
  1 <= x <= 2 ^ 32 -> next_pow_of_2 x = 2 ^ Z.log2_up x.
Proof.
  intros Hx. unfold next_pow_of_2. destruct (IS_POW_OF_2 x) eqn:Hp.
  - apply is_pow_of_2_log2 in Hp; [|lia]. rewrite Hp at 2.
    rewrite Z.log2_up_pow2 by apply Z.log2_nonneg. done.
  - assert (x <> 2 ^ Z.log2 x) as Hne.
    { intros E. rewrite E, is_pow_of_2_pow in Hp; [done|].
      split; [apply Z.log2_nonneg|apply Z.log2_lt_pow2; lia]. }
    assert (x <> 2 ^ 32) by (intros ->; vm_compute in Hp; done).
    assert (covers x 1 x) as Hc.
    { intros i Hi. split; [intros; exists 0; by rewrite Z.add_0_r|].
      intros (d & ? & Hd). by replace (i + d) with i in Hd by lia. }
    apply (covers_step x 1) in Hc; [|lia]. apply (covers_step x 2) in Hc; [|lia].
    apply (covers_step x 4) in Hc; [|lia]. apply (covers_step x 8) in Hc; [|lia].
    apply (covers_step x 16) in Hc; [|lia].
    apply covers_ones in Hc; [rewrite Hc| lia |].
    2: { repeat (rewrite Z.lor_nonneg || rewrite Z.shiftr_nonneg). lia. }
    destruct (Z.log2_spec x) as [Hlo Hhi]; [lia|].
    pose proof (Z.log2_nonneg x).
    assert (Z.log2 x < 32) by (apply Z.log2_lt_pow2; lia).
    assert (2 ^ (Z.log2 x + 1) <= 2 ^ 32) by (apply Z.pow_le_mono_r; lia).
    pose proof (Z.pow_pos_nonneg 2 (Z.log2 x + 1)).
    rewrite Z.ones_equiv, wrap_small by lia.
    rewrite (Z.log2_up_unique x (Z.log2 x + 1)); [lia|lia|].
    replace (Z.pred (Z.log2 x + 1)) with (Z.log2 x) by lia. lia.
Qed.

(** For every request up to 2^32, [next_pow_of_2] is the least power of
    two that is at least the request. *)
Theorem next_pow_of_2_least x :
  1 <= x <= 2 ^ 32 ->
  exists n, 0 <= n <= 32 /\ next_pow_of_2 x = 2 ^ n /\ x <= 2 ^ n /\
    forall m, 0 <= m -> x <= 2 ^ m -> 2 ^ n <= 2 ^ m.
Proof.
  intros Hx. exists (Z.log2_up x). pose proof (Z.log2_up_nonneg x).
  assert (Z.log2_up x <= 32) by (apply Z.log2_up_le_pow2; lia).
  repeat split; [lia|lia|by apply next_pow_of_2_log2_up| |].
  - destruct (decide (x = 1)) as [->|]; [done|].
    pose proof (Z.log2_up_spec x). lia.
  - intros m Hm Hle. apply Z.pow_le_mono_r; [lia|]. apply Z.log2_up_le_pow2; lia.
Qed.

Lemma next_pow_of_2_least_witness :
  1 <= 1000 <= 2 ^ 32 /\
  exists n, 0 <= n <= 32 /\ next_pow_of_2 1000 = 2 ^ n /\ 1000 <= 2 ^ n /\
    forall m, 0 <= m -> 1000 <= 2 ^ m -> 2 ^ n <= 2 ^ m.
Proof. split; [lia|]. apply (next_pow_of_2_least 1000). lia. Defined.

(** Above 2^32 the smearing stops 32 bits below the leading one, and the
    result need not be a power of two. *)
Example next_pow_of_2_above_range : next_pow_of_2 (2 ^ 33 + 1) = 2 ^ 34 - 2.
Proof. vm_compute. done. Qed.

(** ** Ring indices *)
Lemma ring_index_mod idx n :
  0 <= n -> IDX_IN_POW_OF_2_RING idx (2 ^ n) = idx mod 2 ^ n.
Proof.
  intros. unfold IDX_IN_POW_OF_2_RING.
  rewrite <- Z.land_ones by done. f_equal. rewrite Z.ones_equiv. lia.
Qed.

(** The length check of the block ciphers accepts exactly the multiples of the
    block size. *)
Lemma round_up_multiple x n :
  0 <= n < 32 -> 0 <= x < 2 ^ 32 ->
  ROUND_UP_POW_OF_2_MUL x (2 ^ n) = x <-> x mod 2 ^ n = 0.
Proof.
  intros Hn Hx. unfold ROUND_UP_POW_OF_2_MUL.
  assert (0 < 2 ^ n < 2 ^ 32)
    by (split; [apply Z.pow_pos_nonneg | apply Z.pow_lt_mono_r]; lia).
  assert (2 ^ 32 = 2 ^ n * 2 ^ (32 - n)) as E
    by (rewrite <- Z.pow_add_r by lia; f_equal; lia).
  assert (0 < 2 ^ (32 - n)) by (apply Z.pow_pos_nonneg; lia).
  assert (u32 (Z.lnot (2 ^ n - 1)) = 2 ^ 32 - 2 ^ n) as ->.
  { unfold wrap. unfold Z.lnot.
    rewrite <- (Z.mod_small (2 ^ 32 - 2 ^ n) (2 ^ 32)) by lia.
    rewrite <- (Z.mod_add (Z.pred _) 1) by lia. f_equal. lia. }
  assert (forall v, 0 <= v < 2 ^ 32 -> Z.land v (2 ^ 32 - 2 ^ n) = v - v mod 2 ^ n) as Hland.
  { intros v Hv.
    assert (Z.land v (2 ^ 32 - 2 ^ n) = Z.ldiff v (Z.ones n)) as ->.
    { replace (2 ^ 32 - 2 ^ n) with (Z.ldiff (Z.ones 32) (Z.ones n)).
      - apply Z.bits_inj'. intros i Hi.
        rewrite Z.land_spec, !Z.ldiff_spec.
        destruct (decide (i < 32)); [rewrite (Z.ones_spec_low 32) by lia; by rewrite andb_true_l|].
        rewrite (Z.bits_above_log2 v i); [done|lia|].
        destruct (decide (v = 0)) as [->|]; [simpl; lia|].
        apply Z.log2_lt_pow2; [lia|]. pose proof (Z.pow_le_mono_r 2 32 i). lia.
      - symmetry. rewrite <- Z.sub_nocarry_ldiff; [rewrite !Z.ones_equiv; lia|].
        apply Z.bits_inj'. intros i Hi. rewrite Z.ldiff_spec, Z.bits_0.
        destruct (decide (i < n)).
        + rewrite !Z.ones_spec_low by lia. done.
        + rewrite (Z.ones_spec_high n) by lia. done. }
    rewrite Z.ldiff_ones_r by lia. rewrite Z.shiftl_mul_pow2, Z.shiftr_div_pow2 by lia.
    pose proof (Z.div_mod v (2 ^ n)). lia. }
  pose proof (wrap_range 32 (u32 (x + 2 ^ n) - 1)).
  rewrite Hland by lia. set (y := u32 (u32 (x + 2 ^ n) - 1)).
  assert (y = (x + 2 ^ n - 1) mod 2 ^ 32) as Hy.
  { unfold y, wrap. rewrite Zminus_mod_idemp_l. done. }
  pose proof (Z.div_mod x (2 ^ n)). pose proof (Z.mod_pos_bound x (2 ^ n)).
  pose proof (Z.div_mod y (2 ^ n)). pose proof (Z.mod_pos_bound y (2 ^ n)).
  split; intros Heq.
  - rewrite <- Heq. replace (y - y mod 2 ^ n) with (y / 2 ^ n * 2 ^ n) by lia.
    apply Z.mod_mul. lia.
  - assert (x / 2 ^ n < 2 ^ (32 - n)) by (apply Z.div_lt_upper_bound; lia).
    assert (2 ^ n * (x / 2 ^ n + 1) <= 2 ^ n * 2 ^ (32 - n)) by (apply Z.mul_le_mono_nonneg_l; lia).
    rewrite Hy, Z.mod_small by lia.
    replace (x + 2 ^ n - 1) with (2 ^ n - 1 + (x / 2 ^ n) * 2 ^ n) by lia.
    rewrite Z.mod_add, Z.mod_small by lia. lia.
Qed.
