(* ===== verification/Dsaa.v ===== *)
(** What the data structures of muggle/c/dsaa share: the capacity check of
    dsaa_utils.h, the client callbacks (compare, free) and the allocator. *)

From stdpp Require Import base list numbers.
From Stdlib Require Import ZArith Lia.
From S2P Require Import Prelude.

Open Scope Z_scope.

(** [MUGGLE_DS_CAP_IS_VALID].  The literal [1<<31] is an [int]: on the two's
    complement targets of the library it is [INT_MIN], and the conversion to
    [uint64_t] sign-extends it. *)
Definition MUGGLE_DS_CAP_IS_VALID (capacity : Z) : bool :=
  if u64 (i32 (Z.shiftl 1 31)) <=? u64 capacity then false else true.

(** The check admits every capacity below 2^64 - 2^31, not only those below
    2^31. *)
Lemma cap_is_valid_spec capacity :
  0 <= capacity < 2 ^ 64 ->
  MUGGLE_DS_CAP_IS_VALID capacity = true <-> capacity < 2 ^ 64 - 2 ^ 31.
Proof.
  intros Hc. unfold MUGGLE_DS_CAP_IS_VALID. rewrite (wrap_small 64 capacity) by lia.
  replace (u64 (i32 (Z.shiftl 1 31))) with (2 ^ 64 - 2 ^ 31) by reflexivity.
  destruct (Z.leb_spec (2 ^ 64 - 2 ^ 31) capacity); split; intros; try done; lia.
Qed.

(** [malloc]: a call either fails or returns a block with room for the
    requested cells, whose contents are arbitrary. *)
Class Malloc (A : Type) := {
  malloc_cells : Z -> option (list A);
  malloc_cells_len : forall n l, malloc_cells n = Some l -> zlen l = Z.max 0 n
}.

(** [malloc(sizeof(elt) * n)]: the product wraps at the width of [size_t], and
    the block has room for as many elements as fit. *)
Definition malloc_array {A} `{Malloc A} (elt n : Z) : option (list A) :=
  malloc_cells (u64 (elt * n) / elt).

Lemma malloc_array_len {A} `{Malloc A} elt n l :
  0 < elt -> 0 <= n -> elt * n < 2 ^ 64 ->
  malloc_array elt n = Some l -> zlen l = n.
Proof.
  unfold malloc_array. intros He Hn Hlt Hm%malloc_cells_len.
  rewrite wrap_small, Z.mul_comm, Z.div_mul in Hm by lia. lia.
Qed.

(** An allocator that never fails and one that always fails, to evaluate
    operations. *)
Definition malloc_zeroed {A} (d : A) : Malloc A.
Proof.
  refine {| malloc_cells n := Some (replicate (Z.to_nat n) d) |}.
  abstract (intros n l [= <-]; unfold zlen; rewrite length_replicate; lia).
Defined.

Definition malloc_fails {A} : Malloc A.
Proof. refine {| malloc_cells _ := None |}. abstract done. Defined.

(** The compare callback [muggle_dsaa_data_cmp] orders the data it is called
    on: its sign is antisymmetric and its non-positive part transitive. *)
Class CmpOrder (cmp : ptr -> ptr -> Z) : Prop := {
  cmp_sym : forall x y, cmp x y < 0 <-> 0 < cmp y x;
  cmp_trans : forall x y z, cmp x y <= 0 -> cmp y z <= 0 -> cmp x z <= 0
}.

Section cmp_order.
Context (cmp : ptr -> ptr -> Z) `{!CmpOrder cmp}.

Lemma cmp_refl x : cmp x x <= 0.
Proof. pose proof (cmp_sym x x). lia. Qed.

Lemma cmp_total x y : cmp x y <= 0 \/ cmp y x <= 0.
Proof. pose proof (cmp_sym x y). lia. Qed.

Lemma cmp_flip x y : 0 < cmp x y -> cmp y x <= 0.
Proof. pose proof (cmp_sym y x). lia. Qed.

Lemma cmp_flip_ge x y : 0 <= cmp x y -> cmp y x <= 0.
Proof. pose proof (cmp_sym x y). lia. Qed.
End cmp_order.

(** Comparing the addresses themselves. *)
Definition cmp_addr (x y : ptr) : Z := x - y.
#[export] Instance cmp_addr_order : CmpOrder cmp_addr.
Proof. unfold cmp_addr. split; lia. Qed.

(** The copy loop of the growing arrays: the live cells move to the new block. *)
Lemma copy_nodes {A} (src dst : list A) n Q :
  0 <= n <= zlen src -> n <= zlen dst ->
  (forall l, zlen l = zlen dst -> agree 0 n l src -> Q l) ->
  wp (for_up 0 n (fun i new_nodes => d ← aget src i; aset new_nodes i d) dst) Q.
Proof.
  intros Hn Hd HQ. apply (wp_for_up (fun i l => zlen l = zlen dst /\ agree 0 i l src)).
  - split; [done|]. intros i ?. lia.
  - intros i l Hi [Hlen Hag]. apply wp_bind, wp_aget; [lia|]. intros x Hx.
    apply wp_aset; [lia|]. split; [by rewrite zlen_zinsert|].
    intros j Hj. rewrite zlookup_zinsert by lia. case_decide; [by subst|].
    apply Hag. lia.
  - intros l [Hlen Hag]. apply HQ; [done|]. by replace n with (Z.max 0 n) by lia.
Qed.
