(* ===== verification/Str.v ===== *)
(** muggle/c/base/str.{h,c}: predicates, searches and conversions of C strings.
    A string is the list of its characters without the terminating zero; a
    pointer into it is an index, and reading past the zero is undefined. *)

From stdpp Require Import base list numbers.
From Stdlib Require Import ZArith Lia.
From S2P Require Import Prelude.

Open Scope Z_scope.

Module Str.

(** [str[i]]. *)
Definition char_at (str : list Z) (i : Z) : outcome Z := aget (str ++ [0]) i.

(** ** The functions of the C library the code calls *)

(** [isspace], in the C locale. *)
Definition isspace (c : Z) : bool := (c =? 32) || ((9 <=? c) && (c <=? 13)).

(** [strstr]: the index of the first occurrence, [None] for NULL. *)
Fixpoint strstr (s sub : list Z) : option Z :=
  if bool_decide (sub `prefix_of` s) then Some 0
  else match s with
       | [] => None
       | _ :: s' => match strstr s' sub with Some i => Some (1 + i) | None => None end
       end.

Definition LONG_MAX : Z := 2 ^ 63 - 1.
Definition LONG_MIN : Z := - 2 ^ 63.
Definition ULONG_MAX : Z := 2 ^ 64 - 1.
Definition INT_MAX : Z := 2 ^ 31 - 1.
Definition INT_MIN : Z := - 2 ^ 31.

(** The value of a digit, and what a run of digits stands for, with the rest of
    the string. *)
Definition digit_val (c : Z) : option Z :=
  if (48 <=? c) && (c <=? 57) then Some (c - 48)
  else if (97 <=? c) && (c <=? 122) then Some (c - 87)
  else if (65 <=? c) && (c <=? 90) then Some (c - 55)
  else None.
Definition is_digit (base c : Z) : bool :=
  match digit_val c with Some d => d <? base | None => false end.
Fixpoint scan_digits (base acc : Z) (s : list Z) : Z * list Z :=
  match s with
  | c :: s' =>
      match digit_val c with
      | Some d => if d <? base then scan_digits base (acc * base + d) s' else (acc, s)
      | None => (acc, s)
      end
  | [] => (acc, [])
  end.

Fixpoint skip_space (s : list Z) : list Z :=
  match s with c :: s' => if isspace c then skip_space s' else s | [] => [] end.
(** An optional sign: 45 is '-', 43 is '+'. *)
Definition take_sign (s : list Z) : bool * list Z :=
  match s with
  | c :: s' => if c =? 45 then (true, s') else if c =? 43 then (false, s') else (false, s)
  | [] => (false, [])
  end.
(** The base, and the string behind a prefix 0x or 0X. *)
Definition take_base (base : Z) (s : list Z) : Z * list Z :=
  match s with
  | 48 :: x :: d :: s' =>
      if ((base =? 0) || (base =? 16)) && ((x =? 120) || (x =? 88)) && is_digit 16 d
      then (16, d :: s')
      else (if base =? 0 then 8 else base, s)
  | 48 :: _ => (if base =? 0 then 8 else base, s)
  | _ => (if base =? 0 then 10 else base, s)
  end.

(** What [strtol] and its kin read: the sign, the magnitude and the index behind
    it, 0 when there is no number.  Other bases are undefined. *)
Definition strto (s : list Z) (base : Z) : outcome (bool * Z * Z) :=
  if (base =? 0) || ((2 <=? base) && (base <=? 36)) then
    let '(neg, s1) := take_sign (skip_space s) in
    let '(b, s2) := take_base base s1 in
    match s2 with
    | c :: _ =>
        if is_digit b c then
          let '(m, rest) := scan_digits b 0 s2 in mret (neg, m, zlen s - zlen rest)
        else mret (false, 0, 0)
    | [] => mret (false, 0, 0)
    end
  else Undef.

(** The value, the index of [*endptr] and whether errno is ERANGE. *)
Definition strtol (s : list Z) (base : Z) : outcome (Z * Z * bool) :=
  r ← strto s base;
  let '(neg, m, e) := (r : bool * Z * Z) in
  let v := if neg then - m else m in
  mret (if v <? LONG_MIN then (LONG_MIN, e, true) else if LONG_MAX <? v then (LONG_MAX, e, true) else (v, e, false)).
Definition strtoul (s : list Z) (base : Z) : outcome (Z * Z * bool) :=
  r ← strto s base;
  let '(neg, m, e) := (r : bool * Z * Z) in
  mret (if ULONG_MAX <? m then (ULONG_MAX, e, true) else (if neg then u64 (- m) else m, e, false)).

(** ** The functions of str.c; [None] is a NULL pointer *)

Definition muggle_str_startswith (str prefix : option (list Z)) : outcome Z :=
  match str, prefix with
  | Some str, Some prefix =>
      let str_len := zlen str in
      let prefix_len := zlen prefix in
      if str_len <? prefix_len then mret 0
      else
        differs ← loop (S (length prefix)) (fun i =>
          if i <? prefix_len then
            a ← char_at str i; b ← char_at prefix i;
            mret (if a =? b then inl (i + 1) else inr true)
          else mret (inr false)) 0;
        if (differs : bool) then mret 0
        else if negb (str_len =? 0) && (prefix_len =? 0) then mret 0
        else mret 1
  | _, _ => mret 0
  end.

Definition muggle_str_endswith (str suffix : option (list Z)) : outcome Z :=
  match str, suffix with
  | Some str, Some suffix =>
      let str_len := zlen str in
      let suffix_len := zlen suffix in
      if str_len <? suffix_len then mret 0
      else
        differs ← loop (S (length suffix)) (fun i =>
          if i <? suffix_len then
            a ← char_at str (str_len - 1 - i); b ← char_at suffix (suffix_len - 1 - i);
            mret (if a =? b then inl (i + 1) else inr true)
          else mret (inr false)) 0;
        if (differs : bool) then mret 0
        else if negb (str_len =? 0) && (suffix_len =? 0) then mret 0
        else mret 1
  | _, _ => mret 0
  end.

(** The checks of [start] and [end] that count and find begin with: the end of
    the range, [None] when there is nothing to search. *)
Definition search_end (str : list Z) (start end_ : Z) : option Z :=
  let str_len := zlen str in
  if (start <? 0) || (end_ <? 0) then None
  else if start >=? str_len then None
  else
    let end_ := if end_ =? 0 then i32 str_len else end_ in
    let end_ := if end_ >? i32 str_len then i32 str_len else end_ in
    if end_ <=? start then None else Some end_.

(** One turn of the loop of count: [pos] and [cnt]. *)
Definition count_step (str sub : list Z) (end_ : Z) (st : Z * Z) : outcome (Z * Z + Z) :=
  let '(pos, cnt) := st in
  match strstr (drop (Z.to_nat pos) str) sub with
  | Some k =>
      let pos := pos + k in
      if pos + zlen sub >? end_ then mret (inr cnt)
      else
        let cnt := i32 (cnt + 1) in
        let pos := pos + zlen sub in
        mret (if pos >=? end_ then inr cnt else inl (pos, cnt))
  | None => mret (inr cnt)
  end.

Definition muggle_str_count (fuel : nat) (str sub : option (list Z)) (start end_ : Z) : outcome Z :=
  match str, sub with
  | Some str, Some sub =>
      match search_end str start end_ with
      | None => mret 0
      | Some end_ => loop fuel (count_step str sub end_) (start, 0)
      end
  | _, _ => mret 0
  end.

Definition muggle_str_find (str sub : option (list Z)) (start end_ : Z) : outcome Z :=
  match str, sub with
  | Some str, Some sub =>
      match search_end str start end_ with
      | None => mret (-1)
      | Some end_ =>
          match strstr (drop (Z.to_nat start) str) sub with
          | None => mret (-1)
          | Some k =>
              let pos := start + k in
              if pos + zlen sub >? end_ then mret (-1) else mret (i32 pos)
          end
      end
  | _, _ => mret (-1)
  end.

Definition muggle_str_lstrip_idx (str : option (list Z)) : outcome Z :=
  match str with
  | None => mret (-1)
  | Some str =>
      let str_len := i32 (zlen str) in
      loop (S (length str)) (fun idx =>
        c ← char_at str idx;
        if isspace c then
          let idx := i32 (idx + 1) in
          mret (if idx >=? str_len then inr (-1) else inl idx)
        else mret (inr idx)) 0
  end.

Definition muggle_str_rstrip_idx (str : option (list Z)) : outcome Z :=
  match str with
  | None => mret (-1)
  | Some str =>
      let str_len := i32 (zlen str) in
      loop (S (length str)) (fun idx =>
        c ← char_at str idx;
        if isspace c then
          let idx := i32 (idx - 1) in
          mret (if idx <? 0 then inr (-1) else inl idx)
        else mret (inr idx)) (str_len - 1)
  end.

(** [endptr == str], then [*endptr != '\0'] and the test for trailing blanks:
    whether the conversion read one word, and whether it read the whole string. *)
Definition one_word (str : list Z) (endptr : Z) : outcome (bool * bool) :=
  if endptr =? 0 then mret (false, false)
  else
    c ← char_at str endptr;
    if negb (c =? 0) then
      i ← muggle_str_lstrip_idx (Some (drop (Z.to_nat endptr) str));
      mret (i =? -1, false)
    else mret (true, true).

(** [pval] is the cell behind the pointer; the result is the value returned and
    the cell. *)
Definition muggle_str_toi (str : option (list Z)) (pval : option Z) (base : Z) : outcome (Z * option Z) :=
  match str, pval with
  | Some str, Some old =>
      r ← strtol str base;
      let '(ret, endptr, erange) := (r : Z * Z * bool) in
      w ← one_word str endptr;
      let '(word, whole) := (w : bool * bool) in
      if negb word then mret (0, Some old)
      else if whole && ((ret =? LONG_MAX) || (ret =? LONG_MIN)) && erange then mret (0, Some old)
      else if whole && ((ret >? INT_MAX) || (ret <? INT_MIN)) then mret (0, Some old)
      else mret (1, Some (i32 ret))
  | _, _ => mret (0, pval)
  end.

Definition muggle_str_tou (str : option (list Z)) (pval : option Z) (base : Z) : outcome (Z * option Z) :=
  match str, pval with
  | Some str, Some old =>
      r ← strtoul str base;
      let '(v, endptr, _) := (r : Z * Z * bool) in
      let ret := i64 v in
      w ← one_word str endptr;
      if negb w.1 then mret (0, Some old)
      else if u64 ret =? ULONG_MAX then mret (0, Some old)
      else mret (1, Some (u32 ret))
  | _, _ => mret (0, pval)
  end.

(** [muggle_str_toll] is the same on this platform, where long and long long have
    64 bits, and [muggle_str_toull] is [muggle_str_toul]. *)
Definition muggle_str_tol (str : option (list Z)) (pval : option Z) (base : Z) : outcome (Z * option Z) :=
  match str, pval with
  | Some str, Some _ =>
      r ← strtol str base;
      let '(v, endptr, _) := (r : Z * Z * bool) in
      w ← one_word str endptr;
      if negb w.1 then mret (0, Some v)
      else if (v =? LONG_MAX) || (v =? LONG_MIN) then mret (0, Some v)
      else mret (1, Some v)
  | _, _ => mret (0, pval)
  end.

Definition muggle_str_toul (str : option (list Z)) (pval : option Z) (base : Z) : outcome (Z * option Z) :=
  match str, pval with
  | Some str, Some _ =>
      r ← strtoul str base;
      let '(v, endptr, _) := (r : Z * Z * bool) in
      w ← one_word str endptr;
      if negb w.1 then mret (0, Some v)
      else if v =? ULONG_MAX then mret (0, Some v)
      else mret (1, Some v)
  | _, _ => mret (0, pval)
  end.

Definition muggle_str_toll := muggle_str_tol.
Definition muggle_str_toull := muggle_str_toul.

(** ** Searching *)

(** [sub] occurs in [s] at index [i]. *)
Definition occurs (s sub : list Z) (i : Z) : Prop := 0 <= i /\ sub `prefix_of` drop (Z.to_nat i) s.

Lemma occurs_cons c s sub i : 0 <= i -> occurs (c :: s) sub (1 + i) <-> occurs s sub i.
Proof.
  intros Hi. unfold occurs. replace (Z.to_nat (1 + i)) with (S (Z.to_nat i)) by lia. simpl.
  split; intros [_ ?]; (split; [lia|done]).
Qed.

Lemma occurs_drop s sub n i : 0 <= n -> 0 <= i -> occurs (drop (Z.to_nat n) s) sub i <-> occurs s sub (n + i).
Proof.
  intros Hn Hi. unfold occurs. rewrite drop_drop. replace (Z.to_nat n + Z.to_nat i)%nat with (Z.to_nat (n + i)) by lia.
  split; intros [_ ?]; (split; [lia|done]).
Qed.

Lemma occurs_bound s sub i : occurs s sub i -> i <= zlen s -> i + zlen sub <= zlen s.
Proof. intros [Hi Hp%prefix_length] Hle. rewrite length_drop in Hp. unfold zlen in *. lia. Qed.

(** The first occurrence. *)
Definition first_occurrence (s sub : list Z) (r : option Z) : Prop :=
  match r with
  | Some i => occurs s sub i /\ forall j, j < i -> ~ occurs s sub j
  | None => forall j, j <= zlen s -> ~ occurs s sub j
  end.

Lemma strstr_first s sub : first_occurrence s sub (strstr s sub).
Proof.
  induction s as [|c s IH]; simpl; case_bool_decide as Hp.
  - split; [by split|]. intros j Hj [? _]. lia.
  - intros j Hj [? Hj']. unfold zlen in Hj. simpl in Hj. replace j with 0 in Hj' by lia. done.
  - split; [by split|]. intros j Hj [? _]. lia.
  - destruct (strstr s sub) as [i|]; simpl in *.
    + destruct IH as [Ho Hmin]. split; [apply occurs_cons; [by destruct Ho|done]|].
      intros j Hj Hoj. destruct (decide (j = 0)) as [->|Hne]; [by destruct Hoj|].
      apply (Hmin (j - 1)); [lia|]. apply (occurs_cons c); [destruct Hoj; lia|]. by replace (1 + (j - 1)) with j by lia.
    + intros j Hj Hoj. destruct (decide (j = 0)) as [->|Hne]; [by destruct Hoj|]. rewrite zlen_cons in Hj.
      apply (IH (j - 1)); [lia|]. apply (occurs_cons c); [destruct Hoj; lia|]. by replace (1 + (j - 1)) with j by lia.
Qed.

(** The same for a search from index [n] on. *)
Lemma strstr_from s sub n : 0 <= n <= zlen s ->
  match strstr (drop (Z.to_nat n) s) sub with
  | Some k => 0 <= k /\ occurs s sub (n + k) /\ n + k + zlen sub <= zlen s /\
      forall j, n <= j < n + k -> ~ occurs s sub j
  | None => forall j, n <= j <= zlen s -> ~ occurs s sub j
  end.
Proof.
  intros Hn. pose proof (strstr_first (drop (Z.to_nat n) s) sub) as Hf.
  destruct (strstr _ sub) as [k|]; simpl in Hf.
  - destruct Hf as [Ho Hmin]. assert (0 <= k) as Hk by (by destruct Ho). split; [done|].
    assert (k <= zlen (drop (Z.to_nat n) s)) as Hle.
    { destruct (decide (k <= zlen (drop (Z.to_nat n) s))) as [|Hgt]; [done|].
      destruct (Hmin (zlen (drop (Z.to_nat n) s))); [lia|]. destruct Ho as [_ Ho].
      rewrite drop_ge in Ho by (unfold zlen in *; lia). apply prefix_nil_inv in Ho as ->.
      split; [apply zlen_nonneg|apply prefix_nil]. }
    pose proof (occurs_bound _ _ _ Ho Hle) as Hb. rewrite zlen_drop in * by lia.
    split; [by apply occurs_drop; [lia..|]|]. split; [lia|].
    intros j Hj Hoj. apply (Hmin (j - n)); [lia|]. apply occurs_drop; [lia..|]. by replace (n + (j - n)) with j by lia.
  - intros j Hj Hoj. rewrite zlen_drop in Hf by lia. apply (Hf (j - n)); [lia|].
    apply occurs_drop; [lia..|]. by replace (n + (j - n)) with j by lia.
Qed.

(** The end of the range that [start] and [end_] name. *)
Definition range_end (s : list Z) (end_ : Z) : Z := if end_ =? 0 then zlen s else Z.min end_ (zlen s).

Lemma search_end_eq s start end_ :
  zlen s < 2 ^ 31 -> 0 <= start -> 0 <= end_ ->
  search_end s start end_ = if start <? range_end s end_ then Some (range_end s end_) else None.
Proof.
  intros Hl Hs He. unfold search_end, range_end. pose proof (zlen_nonneg s). rewrite (swrap_small 32) by lia.
  destruct (Z.ltb_spec start 0), (Z.ltb_spec end_ 0); try lia. simpl. rewrite Z.geb_leb, Z.gtb_ltb.
  destruct (Z.eqb_spec end_ 0) as [->|]; rewrite ?Z.gtb_ltb;
    repeat (match goal with |- context [?a <? ?b] => destruct (Z.ltb_spec a b) | |- context [?a <=? ?b] => destruct (Z.leb_spec a b) end);
    try lia; try done; f_equal; lia.
Qed.

(** Find returns the lowest index at which the substring occurs inside the
    range [start, end), and -1 when it does not; it reads nothing outside the
    string. *)
Theorem str_find_spec s sub start end_ :
  zlen s < 2 ^ 31 -> 0 <= start -> 0 <= end_ ->
  exists r, muggle_str_find (Some s) (Some sub) start end_ = Done r /\
    ((r = -1 /\ forall i, start <= i < range_end s end_ -> i + zlen sub <= range_end s end_ -> ~ occurs s sub i) \/
     (start <= r /\ r + zlen sub <= range_end s end_ /\ occurs s sub r /\ forall i, start <= i < r -> ~ occurs s sub i)).
Proof.
  intros Hl Hs He. unfold muggle_str_find. rewrite search_end_eq by done. pose proof (zlen_nonneg sub).
  assert (range_end s end_ <= zlen s) by (unfold range_end; destruct (_ =? _); lia).
  destruct (Z.ltb_spec start (range_end s end_)); [|exists (-1); split; [done|left; split; [done|lia]]].
  pose proof (strstr_from s sub start ltac:(lia)) as Hf.
  destruct (strstr _ sub) as [k|].
  - destruct Hf as (Hk & Ho & Hb & Hmin). rewrite Z.gtb_ltb.
    destruct (Z.ltb_spec (range_end s end_) (start + k + zlen sub)).
    + exists (-1). split; [done|]. left. split; [done|]. intros i Hi Hie. apply Hmin. lia.
    + eexists. split; [reflexivity|]. right. rewrite (swrap_small 32) by lia.
      split_and!; [lia|lia|done|done].
  - exists (-1). split; [done|]. left. split; [done|]. intros i Hi _. apply Hf. lia.
Qed.

(** Occurrences that do not overlap, from [lo] on and inside [hi]. *)
Fixpoint matches (s sub : list Z) (lo hi : Z) (l : list Z) : Prop :=
  match l with
  | [] => True
  | i :: l' => lo <= i /\ i + zlen sub <= hi /\ occurs s sub i /\ matches s sub (i + zlen sub) hi l'
  end.

Lemma matches_weaken s sub lo lo' hi l : lo' <= lo -> matches s sub lo hi l -> matches s sub lo' hi l.
Proof. destruct l; simpl; intuition lia. Qed.

Lemma matches_none s sub lo hi l :
  (forall i, lo <= i -> i + zlen sub <= hi -> ~ occurs s sub i) -> matches s sub lo hi l -> l = [].
Proof. destruct l as [|i l]; [done|]. simpl. intros Hn (? & ? & Ho & _). by destruct (Hn i). Qed.

Definition best (s sub : list Z) (lo hi : Z) (l : list Z) : Prop :=
  matches s sub lo hi l /\ forall l', matches s sub lo hi l' -> zlen l' <= zlen l.

Lemma best_nil s sub lo hi :
  (forall i, lo <= i -> i + zlen sub <= hi -> ~ occurs s sub i) -> best s sub lo hi [].
Proof. intros Hn. split; [done|]. by intros l' ->%matches_none. Qed.

(** Taking the first occurrence is best. *)
Lemma best_cons s sub lo hi i l :
  lo <= i -> i + zlen sub <= hi -> occurs s sub i -> (forall j, lo <= j < i -> ~ occurs s sub j) ->
  best s sub (i + zlen sub) hi l -> best s sub lo hi (i :: l).
Proof.
  intros Hlo Hhi Ho Hmin [Hm Hbest]. split; [done|]. intros [|j l'] Hl'; rewrite ?zlen_cons.
  - pose proof (zlen_nonneg l). unfold zlen at 1. simpl. lia.
  - destruct Hl' as (? & ? & Hj & Hl'). assert (i <= j) by (destruct (decide (i <= j)); [done|by destruct (Hmin j); [lia|]]).
    assert (zlen l' <= zlen l); [|lia]. apply Hbest. by apply (matches_weaken _ _ (j + zlen sub)); [lia|].
Qed.

Lemma count_loop s sub hi : sub <> [] -> hi <= zlen s -> zlen s < 2 ^ 31 ->
  forall fuel pos cnt, 0 <= pos < hi -> 0 <= cnt -> cnt + (hi - pos) < 2 ^ 31 -> hi - pos < Z.of_nat fuel ->
  wp (loop fuel (count_step s sub hi) (pos, cnt)) (fun r => exists l, best s sub pos hi l /\ r = cnt + zlen l).
Proof.
  intros Hsub Hhi Hs. assert (0 < zlen sub) as Hpos by (destruct sub; [done|rewrite zlen_cons; pose proof (zlen_nonneg sub); lia]).
  assert (forall cnt, cnt = cnt + zlen ([] : list Z)) as Hz by (unfold zlen; simpl; lia).
  induction fuel as [|fuel IH]; intros pos cnt Hp Hc Hov Hf; [lia|]. simpl loop. apply wp_bind. unfold count_step.
  pose proof (strstr_from s sub pos ltac:(lia)) as Hfst. destruct (strstr _ sub) as [k|]; simpl.
  - destruct Hfst as (Hk & Ho & Hb & Hmin). rewrite Z.gtb_ltb, Z.geb_leb.
    destruct (Z.ltb_spec hi (pos + k + zlen sub)); simpl.
    + exists []. split; [|done]. apply best_nil. intros i ? ?. apply Hmin. lia.
    + rewrite (swrap_small 32) by lia. destruct (Z.leb_spec hi (pos + k + zlen sub)); simpl.
      * exists [pos + k]. split; [|unfold zlen; simpl; lia]. apply best_cons; [lia|lia|done|done|].
        apply best_nil. intros i ? ?. lia.
      * eapply wp_mono; [apply IH; lia|]. intros r (l & Hbest & ->). exists (pos + k :: l). rewrite zlen_cons.
        split; [|lia]. by apply best_cons; [lia|lia|..].
  - exists []. split; [|done]. apply best_nil. intros i ? ?. apply Hfst. lia.
Qed.

(** C29: for a substring that is not empty, count ends after at most one turn per
    character and returns the largest number of occurrences inside the range
    [start, end) that do not overlap. *)
Theorem str_count_spec fuel s sub start end_ :
  zlen s < 2 ^ 31 -> sub <> [] -> 0 <= start -> 0 <= end_ -> zlen s < Z.of_nat fuel ->
  exists l, muggle_str_count fuel (Some s) (Some sub) start end_ = Done (zlen l) /\
    matches s sub start (range_end s end_) l /\
    forall l', matches s sub start (range_end s end_) l' -> zlen l' <= zlen l.
Proof.
  intros Hl Hsub Hs He Hf. unfold muggle_str_count. rewrite search_end_eq by done.
  assert (range_end s end_ <= zlen s) by (unfold range_end; destruct (_ =? _); lia).
  destruct (Z.ltb_spec start (range_end s end_)).
  - pose proof (count_loop s sub (range_end s end_) Hsub ltac:(lia) Hl fuel start 0
      ltac:(lia) ltac:(lia) ltac:(lia) ltac:(lia)) as Hw.
    apply wp_Done in Hw as (r & -> & l & [Hm Hb] & ->). by exists l.
  - exists []. split; [done|]. apply best_nil. intros i ? ?. pose proof (zlen_nonneg sub).
    destruct sub; [done|]. rewrite zlen_cons in *. pose proof (zlen_nonneg sub). lia.
Qed.

(** An empty substring is found at the same place for ever. *)
Lemma str_count_empty fuel : muggle_str_count fuel (Some [97]) (Some []) 0 0 = NoFuel.
Proof.
  unfold muggle_str_count. change (search_end [97] 0 0) with (Some 1). simpl. generalize 0 at 2 as cnt.
  induction fuel as [|fuel IH]; intros cnt; [done|]. simpl. mcompute. apply IH.
Qed.

(** ** Prefixes, suffixes and blanks *)

Lemma compare_loop (getA getB : Z -> outcome Z) (a b : Z -> Z) n :
  (forall i, 0 <= i < Z.of_nat n -> getA i = Done (a i) /\ getB i = Done (b i)) ->
  exists d, loop (S n) (fun i => if i <? Z.of_nat n then x ← getA i; y ← getB i;
      mret (if x =? y then inl (i + 1) else inr true) else mret (inr false)) 0 = Done d /\
    (d = false <-> forall i, 0 <= i < Z.of_nat n -> a i = b i).
Proof.
  intros Hget. apply wp_Done, (wp_loop _ (fun i => 0 <= i <= Z.of_nat n /\ forall j, 0 <= j < i -> a j = b j)
    (fun i => n - Z.to_nat i)%nat).
  - intros i [Hi Hj]. destruct (Z.ltb_spec i (Z.of_nat n)); simpl; [|split; [intros _ j Hj'; apply Hj; lia|done]].
    destruct (Hget i ltac:(lia)) as [-> ->]. mcompute. destruct (Z.eqb_spec (a i) (b i)) as [E|E]; simpl.
    + split; [|lia]. split; [lia|]. intros j Hj'. destruct (decide (j = i)) as [->|]; [done|]. apply Hj. lia.
    + split; [done|]. intros Hall. destruct E. apply Hall. lia.
  - split; [lia|]. lia.
  - lia.
Qed.

Lemma char_at_lt s i : 0 <= i < zlen s -> char_at s i = Done (s !!! Z.to_nat i).
Proof.
  intros Hi. apply aget_Some. rewrite zlookup_app_l, zlookup_nonneg by lia.
  apply list_lookup_lookup_total_lt. unfold zlen in Hi. lia.
Qed.

Lemma char_at_end s : char_at s (zlen s) = Done 0.
Proof. apply aget_Some. by rewrite zlookup_app_r, Z.sub_diag by lia. Qed.

Lemma prefix_lookup (p s : list Z) : (length p <= length s)%nat ->
  (forall i, 0 <= i < zlen p -> s !!! Z.to_nat i = p !!! Z.to_nat i) <-> p `prefix_of` s.
Proof.
  intros Hlen. split.
  - intros Heq. exists (drop (length p) s). rewrite <- (take_drop (length p) s) at 1. f_equal.
    apply list_eq. intros i. destruct (decide (i < length p)%nat) as [Hi|Hi].
    + rewrite lookup_take_lt by done. specialize (Heq (Z.of_nat i)). unfold zlen in Heq. rewrite Nat2Z.id in Heq.
      rewrite !list_lookup_lookup_total_lt by lia. f_equal. apply Heq. lia.
    + rewrite !lookup_ge_None_2; [done|lia|rewrite length_take; lia].
  - intros [k ->] i Hi. apply lookup_total_app_l. unfold zlen in Hi. lia.
Qed.

(** Startswith and endswith decide whether the string begins or ends with the
    other one, an empty one counting only for the empty string; NULL matches
    nothing. *)
Lemma str_affix_spec (s p : list Z) :
  muggle_str_startswith (Some s) (Some p) =
    Done (if bool_decide (p `prefix_of` s /\ (p = [] -> s = [])) then 1 else 0) /\
  muggle_str_endswith (Some s) (Some p) =
    Done (if bool_decide (p `suffix_of` s /\ (p = [] -> s = [])) then 1 else 0) /\
  forall x, muggle_str_startswith None x = Done 0 /\ muggle_str_startswith x None = Done 0 /\
    muggle_str_endswith None x = Done 0 /\ muggle_str_endswith x None = Done 0.
Proof.
  assert (forall P Q : Prop, forall d : bool, forall z n : Z, (d = false <-> P) -> (negb (z =? 0) && (n =? 0) = false <-> Q) ->
    forall D : Decision (P /\ Q),
    (if d then mret 0 else if negb (z =? 0) && (n =? 0) then mret 0 else mret 1) =
    Done (if bool_decide (P /\ Q) then 1 else 0)) as Hfin.
  { intros P Q d z n HP HQ D. destruct d; [rewrite bool_decide_false by (intros [HP' _]; by apply HP in HP'); done|].
    destruct (negb (z =? 0) && (n =? 0)); [rewrite bool_decide_false by (intros [_ HQ']; by apply HQ in HQ'); done|].
    rewrite bool_decide_true by (split; [by apply HP|by apply HQ]). done. }
  assert (negb (zlen s =? 0) && (zlen p =? 0) = false <-> (p = [] -> s = [])) as Hempty.
  { destruct s, p; unfold zlen; simpl; naive_solver. }
  split_and!; [..|by intros [x|]].
  - unfold muggle_str_startswith. destruct (Z.ltb_spec (zlen s) (zlen p)) as [Hlt|Hge].
    { rewrite bool_decide_false; [done|]. intros [Hp%prefix_length _]. unfold zlen in Hlt. lia. }
    destruct (compare_loop (char_at s) (char_at p) (fun i => s !!! Z.to_nat i) (fun i => p !!! Z.to_nat i)
      (length p)) as (d & Hl & Hd); [intros i Hi; unfold zlen in Hge; split; apply char_at_lt; unfold zlen; lia|].
    change (Z.of_nat (length p)) with (zlen p) in Hl, Hd. rewrite Hl. mcompute. apply Hfin; [|done].
    rewrite Hd. apply prefix_lookup. unfold zlen in Hge. lia.
  - unfold muggle_str_endswith. destruct (Z.ltb_spec (zlen s) (zlen p)) as [Hlt|Hge].
    { rewrite bool_decide_false; [done|]. intros [Hp%suffix_length _]. unfold zlen in Hlt. lia. }
    destruct (compare_loop (fun i => char_at s (zlen s - 1 - i)) (fun i => char_at p (zlen p - 1 - i))
      (fun i => reverse s !!! Z.to_nat i) (fun i => reverse p !!! Z.to_nat i) (length p)) as (d & Hl & Hd).
    { assert (forall l i, 0 <= i < zlen l -> char_at l (zlen l - 1 - i) = Done (reverse l !!! Z.to_nat i)) as Hrev.
      { intros l i Hi. rewrite char_at_lt by lia. f_equal. unfold zlen in *.
        rewrite !list_lookup_total_alt, reverse_lookup by lia. do 2 f_equal. lia. }
      intros i Hi. unfold zlen in Hge. split; apply Hrev; unfold zlen; lia. }
    change (Z.of_nat (length p)) with (zlen p) in Hl. rewrite Hl. mcompute. apply Hfin; [|done].
    rewrite Hd, suffix_prefix_reverse. rewrite <- prefix_lookup by (rewrite !length_reverse; unfold zlen in Hge; lia).
    unfold zlen. by rewrite length_reverse.
Qed.

Definition blank (l : list Z) : Prop := Forall (fun c => isspace c = true) l.

Lemma skip_space_blank l s : blank l -> skip_space (l ++ s) = skip_space s.
Proof. induction 1 as [|c l Hc _ IH]; [done|]. simpl. by rewrite Hc. Qed.

Lemma drop_char (s : list Z) idx : 0 <= idx < zlen s ->
  drop (Z.to_nat idx) s = s !!! Z.to_nat idx :: drop (Z.to_nat (idx + 1)) s.
Proof.
  intros Hi. replace (Z.to_nat (idx + 1)) with (S (Z.to_nat idx)) by lia. apply drop_S.
  apply list_lookup_lookup_total_lt. unfold zlen in Hi. lia.
Qed.

(** The number of leading blanks; -1 for a string of nothing else. *)
Lemma str_lstrip_spec s : zlen s < 2 ^ 31 ->
  muggle_str_lstrip_idx (Some s) =
    Done (match skip_space s with [] => if decide (s = []) then 0 else -1 | s' => zlen s - zlen s' end).
Proof.
  intros Hl. unfold muggle_str_lstrip_idx. pose proof (zlen_nonneg s). rewrite (swrap_small 32 (zlen s)) by lia.
  match goal with |- loop ?f ?b ?s0 = Done ?r => enough (wp (loop f b s0) (fun x => x = r)) as Hw end.
  { by apply wp_Done in Hw as (a & -> & ->). }
  destruct (decide (s = [])) as [->|Hne]; [done|].
  assert (0 < zlen s) by (destruct s; [done|rewrite zlen_cons; pose proof (zlen_nonneg s); lia]).
  apply (wp_loop _ (fun idx => 0 <= idx < zlen s /\ skip_space s = skip_space (drop (Z.to_nat idx) s))
    (fun idx => Z.to_nat (zlen s - idx))).
  - intros idx [Hi Hsk]. rewrite char_at_lt by done. mcompute. rewrite (drop_char s idx Hi) in Hsk. simpl in Hsk.
    destruct (isspace _) eqn:Hb.
    + rewrite (swrap_small 32), Z.geb_leb by lia. destruct (Z.leb_spec (zlen s) (idx + 1)); simpl.
      * by rewrite Hsk, drop_ge by (unfold zlen in *; lia).
      * split; [split; [lia|done]|lia].
    + simpl. rewrite Hsk, <- (drop_char s idx Hi), zlen_drop by lia. lia.
  - split; [lia|done].
  - unfold zlen. lia.
Qed.

(** The last character that is not a blank; -1 when there is none. *)
Lemma str_rstrip_spec s : s <> [] -> zlen s < 2 ^ 31 ->
  exists r, muggle_str_rstrip_idx (Some s) = Done r /\ -1 <= r < zlen s /\
    (0 <= r -> isspace (s !!! Z.to_nat r) = false) /\ forall j, r < j < zlen s -> isspace (s !!! Z.to_nat j) = true.
Proof.
  intros Hne Hl. assert (0 < zlen s) by (destruct s; [done|rewrite zlen_cons; pose proof (zlen_nonneg s); lia]).
  unfold muggle_str_rstrip_idx. rewrite (swrap_small 32 (zlen s)) by lia. apply wp_Done.
  apply (wp_loop _ (fun idx => 0 <= idx < zlen s /\ forall j, idx < j < zlen s -> isspace (s !!! Z.to_nat j) = true)
    (fun idx => Z.to_nat idx)).
  - intros idx [Hi Hj]. rewrite char_at_lt by done. mcompute. destruct (isspace _) eqn:Hb; simpl; [|by split_and!; [lia|lia|..]].
    assert (forall j, idx - 1 < j < zlen s -> isspace (s !!! Z.to_nat j) = true) as Hj'.
    { intros j Hj'. destruct (decide (j = idx)) as [->|]; [done|]. apply Hj. lia. }
    rewrite (swrap_small 32) by lia. destruct (Z.ltb_spec (idx - 1) 0); simpl; [|by split; [split; [lia|done]|lia]].
    split; [lia|]. split; [lia|]. by replace (-1) with (idx - 1) by lia.
  - split; [lia|]. lia.
  - unfold zlen. lia.
Qed.

(** On the empty string rstrip reads the character before the string. *)
Example str_rstrip_empty : muggle_str_rstrip_idx (Some []) = Undef.
Proof. reflexivity. Qed.

(** ** Numbers *)

(** The digits of a number, most significant first, and a number as it is
    printed. *)
Definition digit_char (d : Z) : Z := if d <? 10 then 48 + d else 87 + d.
Fixpoint print_digits (fuel : nat) (base n : Z) : list Z :=
  match fuel with
  | O => []
  | S fuel' => if n <? base then [digit_char n] else print_digits fuel' base (n / base) ++ [digit_char (n mod base)]
  end.
Definition print_int (base n : Z) : list Z :=
  if n <? 0 then 45 :: print_digits 64 base (- n) else print_digits 64 base n.

(** A number below 10^k has at most k digits. *)
Lemma print_len fuel : forall n k, 0 <= n < 10 ^ Z.of_nat k -> (0 < k)%nat -> zlen (print_digits fuel 10 n) <= Z.of_nat k.
Proof.
  induction fuel as [|fuel IH]; intros n k Hn Hk; [unfold zlen; simpl; lia|]. simpl.
  destruct (Z.ltb_spec n 10); [unfold zlen; simpl; lia|]. rewrite zlen_app. unfold zlen at 2. simpl.
  destruct k as [|[|k]]; [lia|simpl in Hn; lia|].
  assert (zlen (print_digits fuel 10 (n / 10)) <= Z.of_nat (S k)); [|lia]. apply IH; [|lia].
  split; [apply Z.div_pos; lia|]. apply Z.div_lt_upper_bound; [lia|].
  rewrite <- Z.pow_succ_r by lia. replace (Z.succ (Z.of_nat (S k))) with (Z.of_nat (S (S k))) by lia. apply Hn.
Qed.

Lemma digit_val_char d : 0 <= d < 36 -> digit_val (digit_char d) = Some d.
Proof.
  intros Hd. unfold digit_val, digit_char. destruct (Z.ltb_spec d 10);
    repeat (match goal with |- context [?a <=? ?b] => destruct (Z.leb_spec a b); try lia end); simpl; f_equal; lia.
Qed.

Lemma digit_char_range d : 0 <= d < 36 -> 48 <= digit_char d <= 57 \/ 97 <= digit_char d <= 122.
Proof. unfold digit_char. destruct (Z.ltb_spec d 10); lia. Qed.

Lemma digit_char_zero d : 0 <= d < 36 -> digit_char d = 48 -> d = 0.
Proof. unfold digit_char. destruct (Z.ltb_spec d 10); lia. Qed.

Section numbers.
Context (base : Z) (Hbase : 2 <= base <= 36).

Lemma scan_print fuel : forall n acc rest, 0 <= n < base ^ Z.of_nat fuel -> (0 < fuel)%nat ->
  exists k, scan_digits base acc (print_digits fuel base n ++ rest) = scan_digits base (acc * k + n) rest.
Proof.
  induction fuel as [|fuel IH]; intros n acc rest Hn Hf; [lia|]. simpl.
  assert (forall d acc, 0 <= d < base -> scan_digits base acc (digit_char d :: rest) = scan_digits base (acc * base + d) rest) as Hd.
  { intros d a Hd. simpl. rewrite digit_val_char by lia. by destruct (Z.ltb_spec d base); [|lia]. }
  destruct (Z.ltb_spec n base); [exists base; by apply Hd; lia|].
  pose proof (Z.div_mod n base ltac:(lia)). pose proof (Z.mod_pos_bound n base ltac:(lia)).
  destruct fuel as [|fuel]; [simpl in Hn; lia|].
  destruct (IH (n / base) acc ([digit_char (n mod base)] ++ rest)) as [k Hk]; [|lia|].
  { split; [apply Z.div_pos; lia|]. apply Z.div_lt_upper_bound; [lia|].
    rewrite <- Z.pow_succ_r by lia. replace (Z.succ (Z.of_nat (S fuel))) with (Z.of_nat (S (S fuel))) by lia. apply Hn. }
  exists (k * base). rewrite <- (assoc_L (++)), Hk. cbn [app]. rewrite Hd by lia. f_equal. lia.
Qed.

(** The first digit: only zero begins with a zero. *)
Lemma print_head fuel : forall n, 0 <= n < base ^ Z.of_nat fuel -> (0 < fuel)%nat ->
  exists d l, print_digits fuel base n = digit_char d :: l /\ 0 <= d < base /\ (d = 0 -> n = 0 /\ l = []).
Proof.
  induction fuel as [|fuel IH]; intros n Hn Hf; [lia|]. simpl.
  destruct (Z.ltb_spec n base).
  { exists n, []. split; [done|]. split; [lia|done]. }
  destruct fuel as [|fuel]; [simpl in Hn; lia|].
  destruct (IH (n / base)) as (d & l & -> & Hd & Hz); [|lia|].
  { split; [apply Z.div_pos; lia|]. apply Z.div_lt_upper_bound; [lia|].
    rewrite <- Z.pow_succ_r by lia. replace (Z.succ (Z.of_nat (S fuel))) with (Z.of_nat (S (S fuel))) by lia. apply Hn. }
  exists d, (l ++ [digit_char (n mod base)]). split; [done|]. split; [done|].
  intros [Hz' _]%Hz. assert (1 <= n / base) by (apply Z.div_le_lower_bound; lia). lia.
Qed.

(** What follows a number: nothing, or blanks. *)
Lemma blank_no_digit post : blank post -> scan_digits base 0 post = (0, post) /\
  forall acc, scan_digits base acc post = (acc, post).
Proof.
  intros Hp. enough (forall acc, scan_digits base acc post = (acc, post)) by auto. intros acc.
  destruct Hp as [|c post Hc _]; [done|]. simpl. unfold isspace in Hc. unfold digit_val.
  apply orb_true_iff in Hc. rewrite Z.eqb_eq, andb_true_iff, !Z.leb_le in Hc.
  repeat (match goal with |- context [?a <=? ?b] => destruct (Z.leb_spec a b); try lia end); done.
Qed.

Lemma take_base_digits d l post : 0 <= d < base -> (d = 0 -> l = []) -> blank post ->
  take_base base (digit_char d :: l ++ post) = (base, digit_char d :: l ++ post).
Proof.
  intros Hd Hz Hp. unfold take_base. destruct (Z.eqb_spec base 0); [lia|].
  destruct (decide (digit_char d = 48)) as [E|E].
  - rewrite E, Hz by (apply digit_char_zero; [lia|done]). simpl. destruct Hp as [|x post Hx Hp]; [done|].
    destruct Hp as [|y post Hy Hp]; [done|].
    replace ((x =? 120) || (x =? 88)) with false; [by rewrite andb_false_r|].
    unfold isspace in Hx. destruct (Z.eqb_spec x 120); [by subst|].
    destruct (Z.eqb_spec x 88); [by subst|done].
  - pose proof (digit_char_range d ltac:(lia)) as Hr. set (c := digit_char d) in *. clearbody c.
    destruct c as [|c|c]; try done. repeat (destruct c as [c|c|]; try done).
Qed.

(** 64 digits are enough. *)
Lemma fits_64 m : 0 <= m < 2 ^ 64 -> 0 <= m < base ^ Z.of_nat 64.
Proof.
  assert (2 ^ 64 <= base ^ Z.of_nat 64) as Hpow by (apply (Z.pow_le_mono_l 2 base 64); lia).
  revert Hpow. generalize (base ^ Z.of_nat 64). lia.
Qed.

Lemma strto_print pre n post : blank pre -> blank post -> - 2 ^ 64 < n < 2 ^ 64 ->
  strto (pre ++ print_int base n ++ post) base =
    Done (n <? 0, Z.abs n, zlen pre + zlen (print_int base n)).
Proof.
  intros Hpre Hpost Hn. unfold strto.
  destruct (Z.eqb_spec base 0), (Z.leb_spec 2 base), (Z.leb_spec base 36); try lia. cbn [orb andb].
  pose proof fits_64 as Hm64.
  assert (forall m, 0 <= m < 2 ^ 64 -> exists d l, print_digits 64 base m = digit_char d :: l /\ 0 <= d < base /\
    (d = 0 -> l = []) /\ scan_digits base 0 (digit_char d :: l ++ post) = (m, post)) as Hdig.
  { intros m Hm. destruct (print_head 64 m (Hm64 m Hm) ltac:(lia)) as (d & l & E & Hd & Hz).
    destruct (scan_print 64 m 0 post (Hm64 m Hm) ltac:(lia)) as [k Hk]. exists d, l.
    split; [done|]. split; [done|]. split; [by intros [_ ->]%Hz|].
    change (digit_char d :: l ++ post) with ((digit_char d :: l) ++ post).
    rewrite <- E, Hk. rewrite (proj2 (blank_no_digit post Hpost)). f_equal. }
  rewrite skip_space_blank by done. destruct (Hdig (Z.abs n)) as (d & l & E & Hd & Hz & Hscan); [lia|].
  pose proof (digit_char_range d ltac:(lia)) as Hr.
  assert (take_sign (skip_space (print_int base n ++ post)) = (n <? 0, digit_char d :: l ++ post)) as Hsign.
  { unfold print_int. destruct (Z.ltb_spec n 0).
    - rewrite Z.abs_neq in E by lia. rewrite E. done.
    - rewrite Z.abs_eq in E by lia. rewrite E. simpl. unfold isspace.
      destruct (Z.eqb_spec (digit_char d) 32), (Z.leb_spec 9 (digit_char d)), (Z.leb_spec (digit_char d) 13); try lia.
      simpl. by destruct (Z.eqb_spec (digit_char d) 45), (Z.eqb_spec (digit_char d) 43); try lia. }
  rewrite Hsign. rewrite take_base_digits by done.
  assert (is_digit base (digit_char d) = true) as ->.
  { unfold is_digit. rewrite digit_val_char by lia. apply Z.ltb_lt. lia. }
  rewrite Hscan. unfold mret, outcome_ret. do 2 f_equal. rewrite !zlen_app. lia.
Qed.

Lemma print_nonempty n : - 2 ^ 64 < n < 2 ^ 64 -> 0 < zlen (print_int base n).
Proof.
  intros Hn. unfold print_int. destruct (Z.ltb_spec n 0); [rewrite zlen_cons; pose proof (zlen_nonneg (print_digits 64 base (- n))); lia|].
  destruct (print_head 64 n (fits_64 n ltac:(lia)) ltac:(lia)) as (d & l & -> & _). rewrite zlen_cons.
  pose proof (zlen_nonneg l). lia.
Qed.

(** The number is the only word of the string. *)
Lemma one_word_print pre n post : blank pre -> blank post -> - 2 ^ 64 < n < 2 ^ 64 ->
  zlen (pre ++ print_int base n ++ post) < 2 ^ 31 ->
  one_word (pre ++ print_int base n ++ post) (zlen pre + zlen (print_int base n)) = Done (true, bool_decide (post = [])).
Proof.
  intros Hpre Hpost Hn Hl. pose proof (print_nonempty n Hn). pose proof (zlen_nonneg pre). unfold one_word.
  destruct (Z.eqb_spec (zlen pre + zlen (print_int base n)) 0); [lia|].
  rewrite (assoc_L (++)) in *. rewrite <- zlen_app. set (w := pre ++ print_int base n) in *.
  destruct Hpost as [|c post Hc Hpost].
  - rewrite app_nil_r, char_at_end. done.
  - rewrite zlen_app, zlen_cons in Hl. pose proof (zlen_nonneg post). pose proof (zlen_nonneg w).
    rewrite char_at_lt by (rewrite zlen_app, zlen_cons; lia).
    replace (Z.to_nat (zlen w)) with (length w) by (unfold zlen; lia).
    rewrite lookup_total_app_r, Nat.sub_diag by lia. change ((c :: post) !!! 0%nat) with c. mcompute.
    replace (c =? 0) with false by (by destruct (Z.eqb_spec c 0) as [->|]).
    cbn [negb]. rewrite drop_app_length, str_lstrip_spec by (rewrite zlen_cons; lia).
    rewrite <- (app_nil_r (c :: post)), skip_space_blank by (by constructor). by rewrite app_nil_r.
Qed.

Lemma u64_i64 x : 0 <= x < 2 ^ 64 -> u64 (i64 x) = x.
Proof.
  intros Hx. unfold swrap. rewrite (Z.mod_small x) by lia. destruct (Z.ltb_spec x (2 ^ (64 - 1))); unfold wrap.
  - apply Z.mod_small. lia.
  - replace (x - 2 ^ 64) with (x + (-1) * 2 ^ 64) by lia. rewrite Z.mod_add by lia. apply Z.mod_small. lia.
Qed.

(** Every number that fits the type, printed in any base from 2 to 36 with
    blanks around it, is converted back to itself by the function for the type
    (tol and toll all but the two ends of the range, toul and toull all but the
    last); toi refuses a number outside the range of int and leaves the cell, if
    nothing follows the number. *)
Theorem str_to_number_roundtrip pre n post old :
  blank pre -> blank post -> - 2 ^ 64 < n < 2 ^ 64 -> zlen (pre ++ print_int base n ++ post) < 2 ^ 31 ->
  let s := Some (pre ++ print_int base n ++ post) in
  (INT_MIN <= n <= INT_MAX -> muggle_str_toi s (Some old) base = Done (1, Some n)) /\
  (n < INT_MIN \/ INT_MAX < n -> post = [] -> muggle_str_toi s (Some old) base = Done (0, Some old)) /\
  (0 <= n < 2 ^ 32 -> muggle_str_tou s (Some old) base = Done (1, Some n)) /\
  (LONG_MIN < n < LONG_MAX -> muggle_str_tol s (Some old) base = Done (1, Some n) /\
     muggle_str_toll s (Some old) base = Done (1, Some n)) /\
  (0 <= n < ULONG_MAX -> muggle_str_toul s (Some old) base = Done (1, Some n) /\
     muggle_str_toull s (Some old) base = Done (1, Some n)).
Proof.
  intros Hpre Hpost Hn Hl s. unfold INT_MIN, INT_MAX, LONG_MIN, LONG_MAX, ULONG_MAX.
  pose proof (strto_print pre n post Hpre Hpost Hn) as Hs. pose proof (one_word_print pre n post Hpre Hpost Hn Hl) as Hw.
  assert ((if n <? 0 then - Z.abs n else Z.abs n) = n) as Habs by (destruct (Z.ltb_spec n 0); lia).
  assert (- 2 ^ 63 <= n <= 2 ^ 63 - 1 ->
    strtol (pre ++ print_int base n ++ post) base = Done (n, zlen pre + zlen (print_int base n), false)) as Hsl.
  { intros Hr. unfold strtol. rewrite Hs. mcompute. rewrite Habs. unfold LONG_MIN, LONG_MAX.
    destruct (Z.ltb_spec n (- 2 ^ 63)), (Z.ltb_spec (2 ^ 63 - 1) n); try lia. done. }
  assert (0 <= n ->
    strtoul (pre ++ print_int base n ++ post) base = Done (n, zlen pre + zlen (print_int base n), false)) as Hsu.
  { intros Hr. unfold strtoul. rewrite Hs. mcompute. unfold ULONG_MAX.
    destruct (Z.ltb_spec (2 ^ 64 - 1) (Z.abs n)), (Z.ltb_spec n 0); try lia. do 3 f_equal. lia. }
  assert (- 2 ^ 63 < n < 2 ^ 63 - 1 -> muggle_str_tol s (Some old) base = Done (1, Some n)) as Htol.
  { intros Hr. unfold muggle_str_tol, s. rewrite Hsl by lia. mcompute. rewrite Hw. cbn.
    unfold LONG_MAX, LONG_MIN. by destruct (Z.eqb_spec n (2 ^ 63 - 1)), (Z.eqb_spec n (- 2 ^ 63)); try lia. }
  assert (0 <= n < 2 ^ 64 - 1 -> muggle_str_toul s (Some old) base = Done (1, Some n)) as Htoul.
  { intros Hr. unfold muggle_str_toul, s. rewrite Hsu by lia. mcompute. rewrite Hw. cbn.
    unfold ULONG_MAX. by destruct (Z.eqb_spec n (2 ^ 64 - 1)); try lia. }
  split_and!; [| | |by intros ?; split; apply Htol|by intros ?; split; apply Htoul].
  - intros Hr. unfold muggle_str_toi, s. rewrite Hsl by lia. mcompute. rewrite Hw. cbn. rewrite andb_false_r.
    unfold INT_MIN, INT_MAX. rewrite Z.gtb_ltb. destruct (Z.ltb_spec (2 ^ 31 - 1) n), (Z.ltb_spec n (- 2 ^ 31)); try lia.
    cbn. rewrite andb_false_r, (swrap_small 32) by lia. done.
  - intros Hr Hnil. unfold muggle_str_toi, s. unfold strtol. rewrite Hs. mcompute. rewrite Habs. unfold LONG_MIN, LONG_MAX.
    rewrite bool_decide_true in Hw by done.
    destruct (Z.ltb_spec n (- 2 ^ 63)); [rewrite Hw; done|]. destruct (Z.ltb_spec (2 ^ 63 - 1) n); [rewrite Hw; done|].
    rewrite Hw. cbn. rewrite andb_false_r. unfold INT_MIN, INT_MAX. rewrite Z.gtb_ltb.
    by destruct (Z.ltb_spec (2 ^ 31 - 1) n), (Z.ltb_spec n (- 2 ^ 31)); try lia.
  - intros Hr. unfold muggle_str_tou, s. rewrite Hsu by lia. mcompute. rewrite Hw. cbn. rewrite u64_i64 by lia.
    unfold ULONG_MAX. destruct (Z.eqb_spec n (2 ^ 64 - 1)); [lia|]. rewrite (swrap_small 64), wrap_small by lia. done.
Qed.
End numbers.

(** With blanks behind the number toi checks no range: 2^32 + 1 is read as 1; tou
    never does. *)
Example str_toi_blank_wraps :
  muggle_str_toi (Some (print_int 10 (2 ^ 32 + 1) ++ [32])) (Some 7) 10 = Done (1, Some 1) /\
  muggle_str_tou (Some (print_int 10 (2 ^ 32 + 1))) (Some 7) 10 = Done (1, Some 1) /\
  muggle_str_tol (Some (print_int 10 LONG_MAX)) (Some 7) 10 = Done (0, Some LONG_MAX).
Proof. vm_compute. done. Qed.

(** ** Witnesses: "abcab" and "ab", and the number -42 between blanks. *)

Lemma str_find_spec_witness :
  exists r, muggle_str_find (Some [97; 98; 99; 97; 98]) (Some [97; 98]) 1 0 = Done r /\ r = 3.
Proof.
  destruct (str_find_spec [97; 98; 99; 97; 98] [97; 98] 1 0 ltac:(done) ltac:(done) ltac:(done)) as (r & Hr & _).
  exists r. split; [exact Hr|]. vm_compute in Hr. congruence.
Defined.

Lemma str_count_spec_witness :
  exists l : list Z, muggle_str_count 6 (Some [97; 98; 99; 97; 98]) (Some [97; 98]) 0 0 = Done (zlen l) /\ zlen l = 2.
Proof.
  destruct (str_count_spec 6 [97; 98; 99; 97; 98] [97; 98] 0 0 ltac:(done) ltac:(done) ltac:(done) ltac:(done) ltac:(done))
    as (l & Hl & _).
  exists l. split; [exact Hl|]. assert (Done 2 = Done (zlen l)) as E by (rewrite <- Hl; vm_compute; reflexivity). congruence.
Defined.

Lemma str_to_number_roundtrip_witness :
  muggle_str_toi (Some ([32] ++ print_int 10 (-42) ++ [10])) (Some 7) 10 = Done (1, Some (-42)).
Proof.
  destruct (str_to_number_roundtrip 10 ltac:(lia) [32] (-42) [10] 7 ltac:(by repeat constructor)
    ltac:(by repeat constructor) ltac:(lia) ltac:(done)) as [Htoi _].
  apply Htoi. by split.
Defined.
End Str.
