(* ===== verification/StrFloat.v ===== *)
(** muggle/c/base/str.c: the conversions to floating point.  The numbers and the
    conversion of the C library, strtof, strtod or strtold, are arguments. *)

From stdpp Require Import base list numbers.
From Stdlib Require Import ZArith Lia.
From S2P Require Import Prelude Str.
Import Str(char_at, char_at_lt, char_at_end, isspace, skip_space, skip_space_blank, blank, one_word, str_lstrip_spec, strtol, print_int, LONG_MAX).

Open Scope Z_scope.

Module StrFloat.

Section floats.
(** The value read, the index behind it, 0 when there is no number, and whether
    errno is ERANGE; [huge v] is [v == HUGE_VAL || v == HUGE_VALF || v == HUGE_VALL]. *)
Context {V : Type} (strtod : list Z -> V * Z * bool) (huge : V -> bool).

(** [pval] is the cell behind the pointer. *)
Definition muggle_str_tof (str : option (list Z)) (pval : option V) : outcome (Z * option V) :=
  match str, pval with
  | Some str, Some _ =>
      let '(v, endptr, _) := strtod str in
      w ← one_word str endptr;
      if negb w.1 then mret (0, Some v)
      else if huge v then mret (0, Some v)
      else mret (1, Some v)
  | _, _ => mret (0, pval)
  end.

(** Here the range is tested only when nothing is behind the number. *)
Definition muggle_str_tod (str : option (list Z)) (pval : option V) : outcome (Z * option V) :=
  match str, pval with
  | Some str, Some _ =>
      let '(v, endptr, erange) := strtod str in
      w ← one_word str endptr;
      let '(word, whole) := (w : bool * bool) in
      if negb word then mret (0, Some v)
      else if whole && (huge v && erange) then mret (0, Some v)
      else mret (1, Some v)
  | _, _ => mret (0, pval)
  end.
Definition muggle_str_told := muggle_str_tod.

(** The string is one number with blanks around it. *)
Definition is_word (str : list Z) (endptr : Z) : Prop := 0 < endptr /\ blank (drop (Z.to_nat endptr) str).
#[global] Instance is_word_dec str endptr : Decision (is_word str endptr).
Proof. unfold is_word, blank. apply _. Defined.

Lemma skip_space_nil s : skip_space s = [] <-> blank s.
Proof.
  split.
  - induction s as [|c s IH]; [by constructor|]. simpl. destruct (isspace c) eqn:E; [|done]. intros H. constructor; [done|]. by apply IH.
  - intros H. by rewrite <- (app_nil_r s), skip_space_blank.
Qed.

Lemma one_word_spec str endptr : Forall (fun c => c <> 0) str -> zlen str < 2 ^ 31 -> 0 <= endptr <= zlen str ->
  one_word str endptr = Done (bool_decide (is_word str endptr), bool_decide (0 < endptr /\ endptr = zlen str)).
Proof.
  intros Hz Hl He. unfold one_word. destruct (Z.eqb_spec endptr 0) as [->|].
  { by rewrite !bool_decide_false by (unfold is_word; lia). }
  destruct (decide (endptr = zlen str)) as [->|Hne].
  { rewrite char_at_end. simpl. rewrite !bool_decide_true; [done|lia|]. split; [lia|]. rewrite drop_ge by (unfold zlen; lia). constructor. }
  rewrite char_at_lt by lia. mcompute. rewrite (bool_decide_false (_ /\ _)) by lia.
  destruct (lookup_lt_is_Some_2 str (Z.to_nat endptr)) as [c Hc]; [unfold zlen in *; lia|].
  rewrite (list_lookup_total_correct _ _ _ Hc). destruct (Z.eqb_spec c 0) as [->|]; [by eapply Forall_lookup_1 in Hz|]. cbn [negb].
  rewrite str_lstrip_spec by (unfold zlen in *; rewrite length_drop; lia). simpl.
  destruct (decide (drop (Z.to_nat endptr) str = [])) as [E|_].
  { apply (f_equal length) in E. rewrite length_drop in E. unfold zlen in *. simpl in E. lia. }
  pose proof (skip_space_nil (drop (Z.to_nat endptr) str)) as Hs. destruct (skip_space _) as [|d s'] eqn:E.
  - rewrite bool_decide_true; [done|]. split; [lia|]. by apply Hs.
  - rewrite bool_decide_false by (intros [_ H]; by apply Hs in H).
    assert (zlen (d :: s') <= zlen (drop (Z.to_nat endptr) str)) as Hle.
    { rewrite <- E. generalize (drop (Z.to_nat endptr) str). intros l. induction l as [|x l IH]; simpl; [done|].
      destruct (isspace x); rewrite zlen_cons; lia || (rewrite ?zlen_cons; lia). }
    by destruct (Z.eqb_spec (zlen (drop (Z.to_nat endptr) str) - zlen (d :: s')) (-1)); [lia|].
Qed.

(** The value is stored whenever the pointers are valid; 1 is returned for one
    number with blanks around it that is not huge, where tod and told refuse a huge
    one only if it is out of range and nothing is behind it. *)
Lemma str_to_float_spec str old v endptr erange :
  Forall (fun c => c <> 0) str -> zlen str < 2 ^ 31 -> strtod str = (v, endptr, erange) -> 0 <= endptr <= zlen str ->
  muggle_str_tof (Some str) (Some old) =
    Done (if bool_decide (is_word str endptr /\ huge v = false) then 1 else 0, Some v) /\
  muggle_str_tod (Some str) (Some old) =
    Done (if bool_decide (is_word str endptr /\ ~ (endptr = zlen str /\ huge v = true /\ erange = true)) then 1 else 0, Some v) /\
  muggle_str_told (Some str) (Some old) = muggle_str_tod (Some str) (Some old).
Proof.
  intros Hz Hl Hs He. unfold muggle_str_told, muggle_str_tof, muggle_str_tod. rewrite Hs, !one_word_spec by done. mcompute. cbn [fst snd].
  destruct (decide (is_word str endptr)) as [Hw|Hw].
  - rewrite (bool_decide_true (is_word _ _)) by done. cbn [negb]. split_and!; [| |done].
    + destruct (huge v); [by rewrite bool_decide_false by naive_solver|by rewrite bool_decide_true].
    + destruct Hw as [Hw1 Hw2]. destruct (decide (endptr = zlen str)) as [E|E].
      * rewrite (bool_decide_true (0 < endptr /\ _)) by done. destruct (huge v), erange; simpl; [rewrite bool_decide_false by tauto; done|rewrite bool_decide_true by (unfold is_word; intuition congruence); done..].
      * rewrite (bool_decide_false (0 < endptr /\ _)) by tauto. by rewrite bool_decide_true by (unfold is_word; tauto).
  - rewrite (bool_decide_false (is_word _ _)) by done. cbn [negb]. by rewrite !bool_decide_false by tauto.
Qed.
End floats.

(** A conversion for natural numbers, of which the largest long stands for what is
    out of range. *)
Definition sample_strtod (s : list Z) : Z * Z * bool :=
  match strtol s 10 with Done r => r | _ => (0, 0, false) end.

(** With a blank behind it tod takes a number that is out of range, which it
    refuses without; tof refuses both. *)
Example str_tod_blank :
  let big := print_int 10 (2 ^ 70) in
  let huge v := v =? LONG_MAX in
  muggle_str_tod sample_strtod huge (Some big) (Some 0) = Done (0, Some LONG_MAX) /\
  muggle_str_tod sample_strtod huge (Some (big ++ [32])) (Some 0) = Done (1, Some LONG_MAX) /\
  muggle_str_tof sample_strtod huge (Some (big ++ [32])) (Some 0) = Done (0, Some LONG_MAX).
Proof. vm_compute. done. Qed.
End StrFloat.
