(* ===== verification/Path.v ===== *)
(** muggle/c/os/path.{h,c}: file names, on C strings and on the buffer the result
    is written to.  A buffer is the list of its cells; an access outside it is
    undefined. *)

From stdpp Require Import base list numbers.
From Stdlib Require Import ZArith Lia.
From S2P Require Import Prelude BaseUtils Str.
Import Str.

Open Scope Z_scope.

Module Path.

(** The characters '.', '/', ':' and '\'. *)
Definition DOT : Z := 46.
Definition SLASH : Z := 47.
Definition COLON : Z := 58.
Definition BACKSLASH : Z := 92.
Definition is_sep (c : Z) : bool := (c =? SLASH) || (c =? BACKSLASH).

(** The string in a buffer, up to the first zero; undefined without one. *)
Fixpoint cstring (buf : list Z) : outcome (list Z) :=
  match buf with
  | [] => Undef
  | c :: buf' => if c =? 0 then mret [] else s ← cstring buf'; mret (c :: s)
  end.

(** [strncpy(buf + off, src, n)]: at most [n] characters, and zeros up to [n]. *)
Definition strncpy (buf : list Z) (off : Z) (src : list Z) (n : Z) : outcome (list Z) :=
  mem_write buf off (take (Z.to_nat n) src ++ replicate (Z.to_nat n - length src) 0).

(** [while (pos >= 0) { if (sep) break; --pos; }] on the cells of [get]. *)
Definition last_sep (get : Z -> outcome Z) (fuel : nat) (pos : Z) : outcome Z :=
  loop fuel (fun pos =>
    if pos >=? 0 then
      c ← get pos;
      mret (if is_sep c then inr pos else inl (pos - 1))
    else mret (inr pos)) pos.

Definition muggle_path_isabs (path : list Z) : outcome Z :=
  let len := zlen path in
  root ← (if len >? 1 then c ← char_at path 0; mret (c =? SLASH) else mret false);
  if (root : bool) then mret 1
  else
    drive ← (if len >? 2 then
        c0 ← char_at path 0; c1 ← char_at path 1; c2 ← char_at path 2;
        mret ((((97 <=? c0) && (c0 <=? 122)) || ((65 <=? c0) && (c0 <=? 90))) && (c1 =? COLON) && is_sep c2)
      else mret false);
    if (drive : bool) then mret 1 else mret 0.

Definition muggle_path_basename (path ret : list Z) (size : Z) : outcome (Z * list Z) :=
  if size <=? 1 then mret (MUGGLE_ERR_INVALID_PARAM, ret)
  else
    let total_len := i32 (zlen path) in
    if total_len <=? 0 then mret (MUGGLE_ERR_INVALID_PARAM, ret)
    else
      pos ← last_sep (char_at path) (S (length path)) (total_len - 1);
      if pos <? 0 then
        if u32 total_len >? u32 (size - 1) then mret (MUGGLE_ERR_INVALID_PARAM, ret)
        else ret ← strncpy ret 0 path (u32 (size - 1)); mret (MUGGLE_OK, ret)
      else
        let len := total_len - 1 - pos in
        if len <=? 0 then mret (MUGGLE_ERR_INVALID_PARAM, ret)
        else
          let len := if u32 len >=? size then i32 (size - 1) else len in
          s ← mem_read (path ++ [0]) (pos + 1) len;
          ret ← mem_write ret 0 s;
          ret ← aset ret len 0;
          mret (MUGGLE_OK, ret).

Definition muggle_path_dirname (path ret : list Z) (size : Z) : outcome (Z * list Z) :=
  if size <=? 1 then mret (MUGGLE_ERR_INVALID_PARAM, ret)
  else
    let total_len := i32 (zlen path) in
    if total_len <=? 0 then mret (MUGGLE_ERR_INVALID_PARAM, ret)
    else
      pos ← last_sep (char_at path) (S (length path)) (total_len - 1);
      if pos <? 0 then mret (MUGGLE_ERR_INVALID_PARAM, ret)
      else
        let pos := if pos =? 0 then 1 else pos in
        drive ← (if pos - 1 >? 0 then c ← char_at path (pos - 1); mret (c =? COLON) else mret false);
        let pos := if (drive : bool) then pos + 1 else pos in
        if pos >=? i32 size then mret (MUGGLE_ERR_INVALID_PARAM, ret)
        else
          s ← mem_read (path ++ [0]) 0 pos;
          ret ← mem_write ret 0 s;
          ret ← aset ret pos 0;
          mret (MUGGLE_OK, ret).

Definition muggle_path_join (path1 path2 ret : list Z) (size : Z) : outcome (Z * list Z) :=
  let max_len := u32 (size - 1) in
  if max_len <=? 0 then mret (MUGGLE_ERR_INVALID_PARAM, ret)
  else
    let len_path1 := i32 (zlen path1) in
    let len_path2 := i32 (zlen path2) in
    if (len_path1 <=? 0) || (len_path2 <=? 0) then mret (MUGGLE_ERR_INVALID_PARAM, ret)
    else if u32 len_path1 >? max_len then mret (MUGGLE_ERR_INVALID_PARAM, ret)
    else
      ret ← strncpy ret 0 path1 max_len;
      c ← char_at path2 0;
      if c =? 0 then ret ← aset ret len_path1 0; mret (MUGGLE_OK, ret)
      else
        let pos := len_path1 in
        s ← cstring ret;
        slash ← muggle_str_endswith (Some s) (Some [SLASH]);
        backslash ← (if slash =? 0 then muggle_str_endswith (Some s) (Some [BACKSLASH]) else mret 0);
        if (slash =? 0) && (backslash =? 0) && (u32 pos >=? size) then mret (MUGGLE_ERR_INVALID_PARAM, ret)
        else
          r ← (if (slash =? 0) && (backslash =? 0)
               then ret ← aset ret pos SLASH; mret (ret, pos + 1, len_path1 + 1)
               else mret (ret, pos, len_path1));
          let '(ret, pos, len_path1) := (r : list Z * Z * Z) in
          if (c =? SLASH) && (len_path2 =? 1) then mret (MUGGLE_ERR_INVALID_PARAM, ret)
          else
            let p := if c =? SLASH then 1 else 0 in
            let len_path2 := len_path2 - p in
            if u32 (len_path1 + len_path2) >? max_len then mret (MUGGLE_ERR_INVALID_PARAM, ret)
            else
              ret ← strncpy ret pos (drop (Z.to_nat p) path2) len_path2;
              ret ← aset ret (len_path1 + len_path2) 0;
              mret (MUGGLE_OK, ret).

(** [ret[pos++] = '.'; ret[pos++] = '.'; ret[pos++] = c;] *)
Definition put_up (ret : list Z) (pos c : Z) : outcome (Z * list Z) :=
  ret ← aset ret pos DOT;
  ret ← aset ret (pos + 1) DOT;
  ret ← aset ret (pos + 2) c;
  mret (pos + 3, ret).

(** [pos >= 3 && ret[pos-3] == '.' && ret[pos-2] == '.' && (ret[pos-1] is a
    separator)]. *)
Definition ends_up (ret : list Z) (pos : Z) : outcome bool :=
  if pos >=? 3 then
    a ← aget ret (pos - 3);
    if a =? DOT then
      b ← aget ret (pos - 2);
      if b =? DOT then c ← aget ret (pos - 1); mret (is_sep c) else mret false
    else mret false
  else mret false.

(** The component [..] before the character [c]: the new position, [None] for an
    error. *)
Definition go_up (ret : list Z) (pos c : Z) : outcome (option Z * list Z) :=
  up ← (if pos =? 0 then mret true else ends_up ret pos);
  if (up : bool) then r ← put_up ret pos c; mret (Some r.1, r.2)
  else
    d ← aget ret (pos - 1);
    if negb (is_sep d) then mret (None, ret)
    else
      let pos := pos - 2 in
      if pos <? 0 then mret (None, ret)
      else i ← last_sep (aget ret) (S (Z.to_nat pos + 1)) pos; mret (Some (i + 1), ret).

(** One turn of the loop of normpath: the cursor, the position and the buffer;
    [None] for an error. *)
Definition norm_step (path : list Z) (st : Z * Z * list Z)
  : outcome (Z * Z * list Z + option Z * list Z) :=
  let '(cursor, pos, ret) := st in
  c ← char_at path cursor;
  if c =? 0 then mret (inr (Some pos, ret))
  else
    up ← (if c =? DOT then c1 ← char_at path (cursor + 1); mret (c1 =? DOT) else mret false);
    if (up : bool) then
      c2 ← char_at path (cursor + 2);
      if negb (c2 =? 0) && negb (is_sep c2) then mret (inr (None, ret))
      else
        r ← go_up ret pos c2;
        match (r : option Z * list Z) with
        | (None, ret) => mret (inr (None, ret))
        | (Some pos, ret) => mret (inl (if c2 =? 0 then cursor + 2 else cursor + 3, pos, ret))
        end
    else
      ret ← aset ret pos c;
      mret (inl (cursor + 1, pos + 1, ret)).

Definition muggle_path_normpath (path ret : list Z) (size : Z) : outcome (Z * list Z) :=
  let len := i32 (zlen path) in
  if u32 len >=? size then mret (MUGGLE_ERR_INVALID_PARAM, ret)
  else
    abs ← muggle_path_isabs path;
    cursor ← (if abs =? 0 then
        a ← muggle_str_startswith (Some path) (Some [DOT; SLASH]);
        b ← (if a =? 0 then muggle_str_startswith (Some path) (Some [DOT; BACKSLASH]) else mret 1);
        mret (if b =? 0 then 0 else 2)
      else mret 0);
    r ← loop (S (length path)) (norm_step path) (cursor, 0, ret);
    match (r : option Z * list Z) with
    | (None, ret) => mret (MUGGLE_ERR_INVALID_PARAM, ret)
    | (Some pos, ret) =>
        if (pos =? 0) && (size <=? 2) then mret (MUGGLE_ERR_INVALID_PARAM, ret)
        else
          r ← (if pos =? 0 then ret ← aset ret 0 DOT; ret ← aset ret 1 SLASH; mret (2, ret) else mret (pos, ret));
          let '(pos, ret) := (r : Z * list Z) in
          ret ← aset ret pos 0;
          mret (MUGGLE_OK, ret)
    end.

(** [curdir] is the result of muggle_os_curdir with the string it writes, and
    [full_path] what the local buffer holds at first. *)
Definition muggle_path_abspath (curdir : Z * list Z) (full_path path ret : list Z) (size : Z)
  : outcome (Z * list Z) :=
  if size <=? 1 then mret (MUGGLE_ERR_INVALID_PARAM, ret)
  else
    abs ← muggle_path_isabs path;
    if negb (abs =? 0) then
      if zlen path >? u32 (size - 1) then mret (MUGGLE_ERR_INVALID_PARAM, ret)
      else ret ← strncpy ret 0 path (u32 (size - 1)); mret (MUGGLE_OK, ret)
    else if negb (curdir.1 =? MUGGLE_OK) then mret (curdir.1, ret)
    else
      j ← muggle_path_join curdir.2 path full_path (zlen full_path);
      let '(r, full_path) := (j : Z * list Z) in
      if negb (r =? MUGGLE_OK) then mret (r, ret)
      else s ← cstring full_path; muggle_path_normpath s ret size.

(** ** The reference: a path as a stack of names *)

Definition UP : list Z := [DOT; DOT].

(** No two dots in a row. *)
Fixpoint plain (n : list Z) : Prop :=
  match n with
  | c :: n' => ~ (c = DOT /\ head n' = Some DOT) /\ plain n'
  | [] => True
  end.

(** A name between separators: the parent, or a name that does not look like it. *)
Definition comp (n : list Z) : Prop :=
  Forall (fun c => c <> 0 /\ is_sep c = false) n /\ (n = UP \/ plain n).

Definition flat (cs : list (list Z)) : list Z := concat (map (fun n => n ++ [SLASH]) cs).

(** The stack after the parent: an empty stack and one that ends in parents keep
    it, the root has none, and any other loses its last name. *)
Definition up (out : list (list Z)) : option (list (list Z) + unit) :=
  match out with
  | [] => Some (inr tt)
  | t :: out' =>
      if decide (t = UP) then Some (inr tt) else if decide (out = [[]]) then None else Some (inl out')
  end.

(** The names [cs], each followed by a separator, on the stack [out] (last name
    first), then the name [last]. *)
Fixpoint normal (out cs : list (list Z)) (last : list Z) : option (list Z) :=
  match cs with
  | n :: cs' =>
      if decide (n = UP) then
        match up out with
        | None => None
        | Some (inr _) => normal (UP :: out) cs' last
        | Some (inl out') => normal out' cs' last
        end
      else normal (n :: out) cs' last
  | [] =>
      if decide (last = UP) then
        match up out with
        | None => None
        | Some (inr _) => Some (flat (rev out) ++ UP)
        | Some (inl out') => Some (flat (rev out'))
        end
      else Some (flat (rev out) ++ last)
  end.

Lemma flat_snoc cs n : flat (cs ++ [n]) = flat cs ++ n ++ [SLASH].
Proof. unfold flat. rewrite map_app, concat_app. simpl. by rewrite app_nil_r. Qed.

Lemma flat_rev_cons n out : flat (rev (n :: out)) = flat (rev out) ++ n ++ [SLASH].
Proof. simpl. apply flat_snoc. Qed.

Lemma cstring_app w t : Forall (fun c => c <> 0) w -> cstring (w ++ 0 :: t) = Done w.
Proof.
  induction 1 as [|c w Hc _ IH]; [done|]. simpl. destruct (Z.eqb_spec c 0); [done|]. by rewrite IH.
Qed.

(** The scan for a separator finds the last one. *)
Lemma last_sep_spec get fuel pos q :
  -1 <= q <= pos -> pos + 1 < Z.of_nat fuel ->
  (0 <= q -> exists c, get q = Done c /\ is_sep c = true) ->
  (forall j, q < j <= pos -> exists c, get j = Done c /\ is_sep c = false) ->
  last_sep get fuel pos = Done q.
Proof.
  revert pos. induction fuel as [|fuel IH]; intros pos Hq Hf Hsep Hno; [lia|]. unfold last_sep in *. simpl.
  rewrite Z.geb_leb. destruct (Z.leb_spec 0 pos).
  - destruct (decide (q = pos)) as [->|Hne].
    + destruct Hsep as (c & -> & Hc); [lia|]. mcompute. by rewrite Hc.
    + destruct (Hno pos) as (c & -> & Hc); [lia|]. mcompute. rewrite Hc. apply IH; [lia|lia|done|].
      intros j Hj. apply Hno. lia.
  - replace q with pos by lia. done.
Qed.

Lemma plain_no_up t x y : plain (t ++ [x; y]) -> ~ (x = DOT /\ y = DOT).
Proof. induction t as [|c t IH]; simpl; [intros [Hn _] [-> ->]; auto|]. intros [_ Hp]. by apply IH. Qed.

Lemma flat_last n out : exists X, flat (rev (n :: out)) = X ++ [SLASH].
Proof. rewrite flat_rev_cons. exists (flat (rev out) ++ n). by rewrite (assoc_L (++)). Qed.

Lemma get_take (ret S : list Z) pos i x :
  take (Z.to_nat pos) ret = S -> S @@ i = Some x -> aget ret i = Done x.
Proof. intros <- Hi. apply aget_Some. rewrite zlookup_take in Hi. by case_decide. Qed.

Lemma zlookup_end (l : list Z) x k : k = zlen l -> (l ++ [x]) @@ k = Some x.
Proof. intros ->. by rewrite zlookup_app_r, Z.sub_diag by lia. Qed.

Lemma take_aset (ret : list Z) pos c S :
  pos = zlen S -> take (Z.to_nat pos) ret = S -> 0 <= pos < zlen ret ->
  aset ret pos c = Done (zinsert pos c ret) /\ zlen (zinsert pos c ret) = zlen ret /\
  take (Z.to_nat (pos + 1)) (zinsert pos c ret) = S ++ [c].
Proof.
  intros -> HS Hp. rewrite aset_zinsert, zlen_zinsert by lia. split; [done|]. split; [done|].
  unfold zinsert. replace (Z.to_nat (zlen S + 1)) with (Datatypes.S (Z.to_nat (zlen S))) by lia.
  unfold zlen in *. rewrite (take_S_r _ _ c) by (apply list_lookup_insert_eq; lia). f_equal. by rewrite take_insert_ge by lia.
Qed.

Lemma zlookup_last (l : list Z) x : l @@ (zlen l - 1) = Some x -> exists l', l = l' ++ [x].
Proof.
  destruct l as [|y l _] using rev_ind; [done|]. rewrite zlookup_end by (rewrite zlen_app; unfold zlen; simpl; lia).
  intros [= ->]. by exists l.
Qed.

(** Two dots at the end, behind a separator or the beginning. *)
Lemma up_chars F t : (F = [] \/ exists X, F = X ++ [SLASH]) -> comp t ->
  (F ++ t) @@ (zlen (F ++ t) - 2) = Some DOT -> (F ++ t) @@ (zlen (F ++ t) - 1) = Some DOT -> t = UP.
Proof.
  intros HF [_ Ht] H2 H1. apply zlookup_last in H1 as [L1 E1]. rewrite E1, zlen_app in H2. change (zlen [DOT]) with 1 in H2.
  replace (zlen L1 + 1 - 2) with (zlen L1 - 1) in H2 by lia. rewrite zlookup_app_l in H2 by lia.
  apply zlookup_last in H2 as [L2 ->].
  assert (forall L, F = L ++ [DOT] -> False) as HnF.
  { intros L EL. destruct HF as [->|[X ->]]; [by destruct L|]. by apply app_inj_tail in EL as [_ ?]. }
  destruct t as [|y t _] using rev_ind; [rewrite app_nil_r in E1; by apply HnF in E1|].
  rewrite (assoc_L (++)) in E1. apply app_inj_tail in E1 as [E1 ->].
  destruct t as [|x t _] using rev_ind; [rewrite app_nil_r in E1; by apply HnF in E1|].
  rewrite (assoc_L (++)) in E1. apply app_inj_tail in E1 as [E1 ->].
  destruct Ht as [Ht|Ht]; [done|]. rewrite <- (assoc_L (++)) in Ht. by apply plain_no_up in Ht as [].
Qed.

(** ** The parent *)

Section go_up.
Context (ret : list Z) (out : list (list Z)).
Notation S := (flat (rev out)).
Notation pos := (zlen S).
Context (Hcomp : Forall comp out) (HS : take (Z.to_nat pos) ret = S) (Hroom : pos + 3 <= zlen ret).

Lemma put_up_spec c : exists ret', put_up ret pos c = Done (pos + 3, ret') /\ zlen ret' = zlen ret /\
  take (Z.to_nat (pos + 3)) ret' = S ++ UP ++ [c].
Proof.
  pose proof (zlen_nonneg S). unfold put_up.
  destruct (take_aset ret pos DOT S eq_refl HS ltac:(lia)) as (-> & E1 & T1). mcompute.
  destruct (take_aset _ (pos + 1) DOT (S ++ [DOT]) ltac:(by rewrite zlen_app) T1 ltac:(lia)) as (-> & E2 & T2). mcompute.
  replace (pos + 1 + 1) with (pos + 2) in T2 by lia.
  destruct (take_aset _ (pos + 2) c ((S ++ [DOT]) ++ [DOT]) ltac:(rewrite !zlen_app; unfold zlen; simpl; lia) T2 ltac:(lia)) as (-> & E3 & T3).
  mcompute. eexists. split; [reflexivity|]. split; [lia|]. replace (pos + 3) with (pos + 2 + 1) by lia.
  rewrite T3, <- !(assoc_L (++)). done.
Qed.

Lemma ends_up_spec : out <> [] -> ends_up ret pos = Done (bool_decide (head out = Some UP)).
Proof.
  destruct out as [|t o]; [done|]. intros _. apply list.Forall_cons_1 in Hcomp as [Ht _].
  pose proof (up_chars (flat (rev o)) t) as Huc. rewrite flat_rev_cons in *. rewrite (assoc_L (++)) in *.
  set (L := flat (rev o) ++ t) in *. pose proof (zlen_nonneg L). rewrite zlen_app in *. change (zlen [SLASH]) with 1 in *.
  assert (forall i x, L @@ i = Some x -> aget ret i = Done x) as Hget.
  { intros i x Hi. pose proof (zlookup_lt _ _ _ Hi). apply (get_take _ _ _ _ _ HS). by rewrite zlookup_app_l by lia. }
  assert (aget ret (zlen L) = Done SLASH) as Hlast by (apply (get_take _ _ _ _ _ HS); by apply zlookup_end).
  unfold ends_up. rewrite Z.geb_leb. destruct (Z.leb_spec 3 (zlen L + 1)).
  - destruct (zlookup_is_Some L (zlen L - 2) ltac:(lia)) as [a Ha]. destruct (zlookup_is_Some L (zlen L - 1) ltac:(lia)) as [b Hb].
    replace (zlen L + 1 - 3) with (zlen L - 2) by lia. replace (zlen L + 1 - 2) with (zlen L - 1) by lia.
    replace (zlen L + 1 - 1) with (zlen L) by lia. rewrite (Hget _ _ Ha), (Hget _ _ Hb), Hlast. mcompute.
    rewrite Ha, Hb in Huc. destruct (decide (t = UP)) as [->|Hne].
    + rewrite bool_decide_true by done. subst L. unfold UP in *. rewrite zlen_app in *. change (zlen [DOT; DOT]) with 2 in *.
      replace (zlen (flat (rev o)) + 2 - 2) with (zlen (flat (rev o)) + 0) in Ha by lia.
      replace (zlen (flat (rev o)) + 2 - 1) with (zlen (flat (rev o)) + 1) in Hb by lia.
      rewrite zlookup_app_r, Z.add_simpl_l in Ha, Hb by lia. injection Ha as <-. injection Hb as <-. done.
    + rewrite bool_decide_false by (intros [= ?]; done).
      destruct (Z.eqb_spec a DOT) as [->|]; [|done]. destruct (Z.eqb_spec b DOT) as [->|]; [|done].
      destruct Hne. by apply Huc; [destruct o as [|n o']; [by left|right; apply flat_last]|..].
  - rewrite bool_decide_false; [done|]. intros [= ->]. subst L. rewrite zlen_app in *. change (zlen UP) with 2 in *.
    pose proof (zlen_nonneg (flat (rev o))). lia.
Qed.

(** What the code does with a parent, for each case of [up]. *)
Lemma go_up_spec c :
  match up out with
  | None => go_up ret pos c = Done (None, ret)
  | Some (inr _) => exists ret', go_up ret pos c = Done (Some (pos + 3), ret') /\ zlen ret' = zlen ret /\
      take (Z.to_nat (pos + 3)) ret' = S ++ UP ++ [c]
  | Some (inl out') => go_up ret pos c = Done (Some (zlen (flat (rev out'))), ret)
  end.
Proof.
  destruct (put_up_spec c) as (ret' & Hput & Hlen & Htake). pose proof ends_up_spec as Hend. unfold go_up.
  destruct out as [|t o] eqn:Eo; [simpl in *; rewrite Hput; by eauto|].
  assert (0 < zlen (flat (rev (t :: o)))) as Hpos.
  { destruct (flat_last t o) as [X ->]. rewrite zlen_app. pose proof (zlen_nonneg X). unfold zlen at 2. simpl. lia. }
  destruct (Z.eqb_spec (zlen (flat (rev (t :: o)))) 0); [lia|]. rewrite Hend by done. cbn [head]. mcompute. simpl up.
  destruct (decide (t = UP)) as [->|Hne]; [rewrite bool_decide_true by done; rewrite Hput; by eauto|].
  rewrite bool_decide_false by (intros [= ?]; done).
  apply list.Forall_cons_1 in Hcomp as [[Hch _] _]. rewrite flat_rev_cons in *. set (F := flat (rev o)) in *.
  pose proof (zlen_nonneg F). pose proof (zlen_nonneg t). rewrite !zlen_app in *. change (zlen [SLASH]) with 1 in *.
  rewrite (get_take _ _ _ _ SLASH HS)
    by (rewrite (assoc_L (++)); apply zlookup_end; rewrite zlen_app; lia).
  simpl negb. cbn iota. clear Hend. case_decide as E1.
  - subst F. simplify_eq. done.
  - destruct (Z.ltb_spec (zlen F + (zlen t + 1) - 2) 0) as [Hlt|Hge].
    { destruct E1. destruct t; [|rewrite zlen_cons in *; pose proof (zlen_nonneg t); lia]. destruct o as [|m o']; [done|].
      destruct (flat_last m o') as [X EX]. subst F. rewrite EX, zlen_app in *. change (zlen [SLASH]) with 1 in *.
      pose proof (zlen_nonneg X). unfold zlen in *. simpl in *. lia. }
    rewrite (last_sep_spec _ _ _ (zlen F - 1)).
    + mcompute. by replace (zlen F - 1 + 1) with (zlen F) by lia.
    + lia.
    + lia.
    + intros Hz0. exists SLASH. split; [|done]. apply (get_take _ _ _ _ _ HS). rewrite zlookup_app_l by lia.
      destruct o as [|m o']; [subst F; unfold zlen in Hz0; simpl in Hz0; lia|]. destruct (flat_last m o') as [X EX]. subst F. rewrite EX.
      apply zlookup_end. rewrite zlen_app. change (zlen [SLASH]) with 1. lia.
    + intros j Hj. destruct (zlookup_is_Some t (j - zlen F) ltac:(lia)) as [x Hx]. exists x. split.
      * apply (get_take _ _ _ _ _ HS). rewrite zlookup_app_r, zlookup_app_l by lia. done.
      * rewrite zlookup_nonneg in Hx by lia. by apply (Forall_lookup_1 _ _ _ _ Hch) in Hx as [_ ?].
Qed.
End go_up.

(** ** The loop of normpath *)

Section norm.
Context (path : list Z) (N : Z).
Context (Hnz : Forall (fun c => c <> 0) path) (HN : zlen path + 2 <= N).

(** The buffer holds [S], and [rest] is still to be read. *)
Definition norm_at (st : Z * Z * list Z) (S rest : list Z) : Prop :=
  let '(cursor, pos, ret) := st in
  0 <= cursor <= zlen path /\ drop (Z.to_nat cursor) path = rest /\
  pos = zlen S /\ pos <= cursor /\ take (Z.to_nat pos) ret = S /\ zlen ret = N.

Definition finishes (st : Z * Z * list Z) (Q : option Z * list Z -> Prop) : Prop :=
  forall fuel, zlen path - st.1.1 < Z.of_nat fuel -> wp (loop fuel (norm_step path) st) Q.

Lemma finishes_step st st' Q :
  norm_step path st = Done (inl st') -> st.1.1 < st'.1.1 <= zlen path -> finishes st' Q -> finishes st Q.
Proof.
  intros Hs Hc Hf [|fuel] Hfuel; [lia|]. simpl. rewrite Hs. mcompute. apply Hf. lia.
Qed.

Lemma finishes_stop st r Q : norm_step path st = Done (inr r) -> st.1.1 <= zlen path -> Q r -> finishes st Q.
Proof. intros Hs Hc HQ [|fuel] Hfuel; [lia|]. simpl. by rewrite Hs. Qed.

Lemma char_at_drop i c rest : 0 <= i -> drop (Z.to_nat i) path = c :: rest -> char_at path i = Done c /\ i < zlen path.
Proof.
  intros Hi Hd. assert (path !! Z.to_nat i = Some c) as Hl.
  { rewrite <- (Nat.add_0_r (Z.to_nat i)), <- lookup_drop, Hd. done. }
  pose proof (lookup_lt_Some _ _ _ Hl). assert (i < zlen path) by (unfold zlen; lia).
  rewrite char_at_lt by lia. split; [|done]. f_equal. by apply list_lookup_total_correct.
Qed.

Lemma drop_next i c rest : 0 <= i -> drop (Z.to_nat i) path = c :: rest -> drop (Z.to_nat (i + 1)) path = rest.
Proof.
  intros Hi Hd. replace (Z.to_nat (i + 1)) with (Z.to_nat i + 1)%nat by lia. by rewrite <- drop_drop, Hd.
Qed.

Lemma char_at_nil i : 0 <= i <= zlen path -> drop (Z.to_nat i) path = [] -> char_at path i = Done 0 /\ i = zlen path.
Proof.
  intros Hi Hd. assert (i = zlen path) as ->.
  { apply (f_equal length) in Hd. rewrite length_drop in Hd. unfold zlen in *. simpl in Hd. lia. }
  split; [apply char_at_end|done].
Qed.

Lemma path_char i c rest : drop i path = c :: rest -> c <> 0.
Proof.
  intros Hd. rewrite <- (take_drop i path), Hd in Hnz. apply Forall_app in Hnz as [_ H]. by apply list.Forall_cons_1 in H as [? _].
Qed.

(** A character that does not begin a parent is copied. *)
Lemma norm_char st S c rest Q :
  norm_at st S (c :: rest) -> ~ (c = DOT /\ head rest = Some DOT) ->
  (forall st', norm_at st' (S ++ [c]) rest -> finishes st' Q) -> finishes st Q.
Proof.
  destruct st as [[cursor pos] ret]. intros (Hc & Hd & Hp & Hpc & HS & Hlen) Hnot Hnext.
  destruct (char_at_drop cursor c rest ltac:(lia) Hd) as [Hchar Hlt]. pose proof (path_char _ _ _ Hd) as Hc0.
  pose proof (drop_next cursor c rest ltac:(lia) Hd) as Hd'. pose proof (zlen_nonneg S).
  destruct (take_aset ret pos c S Hp HS ltac:(lia)) as (Ha & Hl' & Ht').
  apply (finishes_step _ (cursor + 1, pos + 1, zinsert pos c ret)); [|simpl; lia|].
  - unfold norm_step. rewrite Hchar. mcompute. destruct (Z.eqb_spec c 0); [done|].
    destruct (Z.eqb_spec c DOT) as [->|]; [|by rewrite Ha]. destruct rest as [|c1 rest].
    + destruct (char_at_nil (cursor + 1) ltac:(lia) Hd') as [-> _]. cbn. by rewrite Ha.
    + destruct (char_at_drop (cursor + 1) c1 rest ltac:(lia) Hd') as [-> _]. cbn.
      destruct (Z.eqb_spec c1 DOT) as [->|]; [by destruct Hnot|]. by rewrite Ha.
  - apply Hnext. split; [lia|]. split; [done|]. rewrite zlen_app. change (zlen [c]) with 1. split_and!; try lia. done.
Qed.

Lemma norm_name n : forall st S rest Q,
  plain n -> head rest <> Some DOT -> norm_at st S (n ++ rest) ->
  (forall st', norm_at st' (S ++ n) rest -> finishes st' Q) -> finishes st Q.
Proof.
  induction n as [|c n IH]; intros st S rest Q Hp Hr Hat Hnext; [apply Hnext; by rewrite app_nil_r|].
  destruct Hp as [Hc Hp]. eapply norm_char; [exact Hat| |].
  - intros [-> Hh]. destruct n; [by apply Hr|by apply Hc].
  - intros st' Hat'. apply (IH st' (S ++ [c]) rest); [done|done|done|]. intros st'' Hat''. apply Hnext.
    by rewrite <- (assoc_L (++)) in Hat''.
Qed.

(** Two dots before a separator or the end. *)
Lemma norm_up_step cursor pos ret out c rest :
  norm_at (cursor, pos, ret) (flat (rev out)) (DOT :: DOT :: rest) ->
  char_at path (cursor + 2) = Done c -> c = 0 \/ is_sep c = true ->
  norm_step path (cursor, pos, ret) =
    (r ← go_up ret pos c;
     match (r : option Z * list Z) with
     | (None, ret) => mret (inr (None, ret))
     | (Some pos, ret) => mret (inl (if c =? 0 then cursor + 2 else cursor + 3, pos, ret))
     end).
Proof.
  intros (Hc & Hd & _) Hc2 Hsep.
  destruct (char_at_drop cursor DOT (DOT :: rest) ltac:(lia) Hd) as [H0 _].
  pose proof (drop_next cursor _ _ ltac:(lia) Hd) as Hd1.
  destruct (char_at_drop (cursor + 1) DOT rest ltac:(lia) Hd1) as [H1 _].
  unfold norm_step. rewrite H0. mcompute. cbn. rewrite H1. cbn. rewrite Hc2.
  replace (negb (c =? 0) && negb (is_sep c)) with false; [done|]. destruct Hsep as [->|Hsep]; [done|].
  by rewrite Hsep, andb_false_r.
Qed.

(** The result of the loop for the path [w]: a path that ends in a parent may
    have its zero already. *)
Definition norm_result (w : option (list Z)) (r : option Z * list Z) : Prop :=
  zlen r.2 = N /\
  match w with
  | None => r.1 = None
  | Some w => Forall (fun c => c <> 0) w /\ exists pos, r.1 = Some pos /\ pos <= zlen path + 1 /\
      ((pos = zlen w /\ take (Z.to_nat pos) r.2 = w) \/
       (pos = zlen w + 1 /\ w <> [] /\ take (Z.to_nat pos) r.2 = w ++ [0]))
  end.

Lemma finishes_end cursor pos ret Q :
  cursor = zlen path -> Q (Some pos, ret) -> finishes (cursor, pos, ret) Q.
Proof.
  intros -> HQ. eapply finishes_stop; [|simpl; lia|exact HQ]. unfold norm_step. by rewrite char_at_end.
Qed.

Lemma comp_nonzero n : comp n -> Forall (fun c => c <> 0) n.
Proof. intros [Hn _]. eapply (list.Forall_impl _ _ _ Hn). by intros c [? _]. Qed.

Lemma flat_nonzero cs : Forall comp cs -> Forall (fun c => c <> 0) (flat cs).
Proof.
  induction 1 as [|n cs Hn _ IH]; [by constructor|]. unfold flat. simpl. fold (flat cs).
  apply Forall_app. split; [|done]. apply Forall_app. split; [by apply comp_nonzero|by constructor].
Qed.

Lemma rev_nonzero out : Forall comp out -> Forall (fun c => c <> 0) (flat (rev out)).
Proof. intros Hc. apply flat_nonzero. by apply Forall_rev. Qed.

(** The case of a parent, at the end or before a separator. *)
Lemma norm_up out st c rest Q :
  Forall comp out -> norm_at st (flat (rev out)) (UP ++ rest) ->
  (rest = [] /\ c = 0) \/ (exists rest', rest = c :: rest' /\ is_sep c = true) ->
  match up out with
  | None => forall ret, zlen ret = N -> Q (None, ret)
  | Some (inr _) => forall pos ret, zlen ret = N -> pos = zlen (flat (rev out)) + 3 -> pos <= zlen path + 1 ->
      take (Z.to_nat pos) ret = flat (rev out) ++ UP ++ [c] ->
      if decide (rest = []) then Q (Some pos, ret)
      else forall st', norm_at st' (flat (rev out) ++ UP ++ [c]) (tail rest) -> finishes st' Q
  | Some (inl out') => forall st', norm_at st' (flat (rev out')) (tail rest) -> finishes st' Q
  end -> finishes st Q.
Proof.
  destruct st as [[cursor pos] ret]. intros Hcomp Hat Hc Hcases.
  pose proof Hat as (Hcur & Hd & Hp & Hpc & HS & Hlen). simpl in Hd.
  pose proof (drop_next cursor _ _ ltac:(lia) Hd) as Hd1. pose proof (drop_next (cursor + 1) _ _ ltac:(lia) Hd1) as Hd2.
  replace (cursor + 1 + 1) with (cursor + 2) in Hd2 by lia.
  destruct (char_at_drop (cursor + 1) _ _ ltac:(lia) Hd1) as [_ Hlt].
  assert (char_at path (cursor + 2) = Done c /\ (c = 0 \/ is_sep c = true) /\
    ((rest = [] /\ c = 0 /\ cursor + 2 = zlen path) \/
     (rest <> [] /\ c <> 0 /\ cursor + 3 <= zlen path /\ drop (Z.to_nat (cursor + 3)) path = tail rest))) as (Hc2 & Hsep & Hend).
  { destruct Hc as [[-> ->]|(rest' & -> & Hs)].
    - destruct (char_at_nil (cursor + 2) ltac:(lia) Hd2) as [-> ?]. split; [done|]. split; [by left|]. by left.
    - destruct (char_at_drop (cursor + 2) c rest' ltac:(lia) Hd2) as [-> ?]. split; [done|]. split; [auto|]. right.
      split; [done|]. split; [by apply (path_char _ _ _ Hd2)|]. split; [lia|]. simpl.
      replace (cursor + 3) with (cursor + 2 + 1) by lia. apply (drop_next _ c); [lia|done]. }
  pose proof (norm_up_step cursor pos ret out c rest Hat Hc2 Hsep) as Hstep. subst pos.
  pose proof (go_up_spec ret out Hcomp HS ltac:(lia) c) as Hgo.
  destruct (up out) as [[out'|u]|] eqn:Eup.
  - rewrite Hgo in Hstep. cbv beta iota zeta delta [mbind outcome_bind mret outcome_ret] in Hstep.
    assert (exists t, out = t :: out') as [t ->].
    { destruct out as [|t o]; [done|]. simpl in Eup. repeat case_decide; simplify_eq. by exists t. }
    pose proof (zlen_nonneg (flat (rev out'))).
    assert (zlen (flat (rev out')) <= zlen (flat (rev (t :: out')))) by
      (rewrite flat_rev_cons, zlen_app; pose proof (zlen_nonneg (t ++ [SLASH])); lia).
    assert (take (Z.to_nat (zlen (flat (rev out')))) ret = flat (rev out')) as HS'.
    { rewrite flat_rev_cons in HS. apply (f_equal (take (Z.to_nat (zlen (flat (rev out')))))) in HS.
      rewrite take_take in HS. rewrite Nat.min_l in HS by (rewrite zlen_app; pose proof (zlen_nonneg (t ++ [SLASH])); lia).
      rewrite HS. unfold zlen. rewrite Nat2Z.id. apply take_app_length. }
    destruct Hend as [(-> & -> & He)|(Hne & Hc0 & He & Hdrop)].
    + change (0 =? 0) with true in Hstep. cbv iota in Hstep. eapply finishes_step; [exact Hstep|simpl; lia|]. apply Hcases. split; [lia|]. split; [done|]. split_and!; try done; lia.
    + destruct (Z.eqb_spec c 0); [done|]. eapply finishes_step; [exact Hstep|simpl; lia|]. apply Hcases.
      split; [lia|]. split; [done|]. split_and!; try done; lia.
  - destruct Hgo as (ret' & Hgo & Hl' & Ht'). rewrite Hgo in Hstep. cbv beta iota zeta delta [mbind outcome_bind mret outcome_ret] in Hstep.
    pose proof (zlen_nonneg (flat (rev out))).
    specialize (Hcases _ ret' ltac:(lia) eq_refl ltac:(lia) Ht').
    destruct Hend as [(-> & -> & He)|(Hne & Hc0 & He & Hdrop)].
    + change (0 =? 0) with true in Hstep. cbv iota in Hstep. eapply finishes_step; [exact Hstep|simpl; lia|]. by apply finishes_end; [lia|].
    + destruct (Z.eqb_spec c 0); [done|]. rewrite decide_False in Hcases by done.
      eapply finishes_step; [exact Hstep|simpl; lia|]. apply Hcases.
      split; [lia|]. split; [done|]. rewrite !zlen_app. change (zlen UP) with 2. change (zlen [c]) with 1. split_and!; try lia; done.
  - rewrite Hgo in Hstep. cbv beta iota zeta delta [mbind outcome_bind mret outcome_ret] in Hstep. eapply finishes_stop; [exact Hstep|simpl; lia|]. by apply Hcases.
Qed.

Lemma norm_comps last : comp last -> forall cs out st,
  Forall comp out -> Forall comp cs -> norm_at st (flat (rev out)) (flat cs ++ last) ->
  finishes st (norm_result (normal out cs last)).
Proof.
  intros Hlast cs. induction cs as [|n cs IH]; intros out st Hout Hcs Hat; simpl normal.
  - case_decide as E.
    + subst last. eapply (norm_up out st 0 []); [done|by rewrite app_nil_r|by left|].
      destruct (up out) as [[out'|u]|] eqn:Eup.
      * assert (Forall comp out') as Hout' by (destruct out as [|t o]; [done|]; simpl in Eup; repeat case_decide; simplify_eq;
          by apply list.Forall_cons_1 in Hout as [_ ?]).
        intros [[cursor pos] ret] (Hc & Hd & Hp & Hpc & HS & Hlen). destruct (char_at_nil cursor Hc Hd) as [_ ->].
        apply finishes_end; [done|]. split; [done|]. split; [by apply rev_nonzero|]. exists pos. split; [done|]. split; [lia|by left].
      * intros pos ret Hlen Hp Hpl Ht. rewrite decide_True by done. split; [done|].
        split; [apply Forall_app; split; [by apply rev_nonzero|by repeat constructor]|]. exists pos. split; [done|].
        split; [done|]. right. rewrite zlen_app. change (zlen UP) with 2. split; [lia|]. split; [by destruct (flat (rev out))|].
        cbn [snd]. by rewrite Ht, (assoc_L (++)).
      * by intros ret Hlen.
    + destruct Hlast as [Hl [?|Hp]]; [done|]. apply (norm_name last st (flat (rev out)) []); [done|done|by rewrite app_nil_r|].
      intros [[cursor pos] ret] (Hc & Hd & Hp' & Hpc & HS & Hlen). destruct (char_at_nil cursor Hc Hd) as [_ ->].
      apply finishes_end; [done|]. split; [done|].
      split; [apply Forall_app; split; [by apply rev_nonzero|by apply comp_nonzero; split; [|right]]|].
      exists pos. split; [done|]. split; [lia|by left].
  - apply list.Forall_cons_1 in Hcs as [Hn Hcs].
    assert (flat (n :: cs) ++ last = n ++ SLASH :: flat cs ++ last) as Ef by (unfold flat; simpl; by rewrite <- !(assoc_L (++))).
    rewrite Ef in Hat. case_decide as E.
    + subst n. eapply (norm_up out st SLASH); [done|exact Hat|right; by eexists|].
      destruct (up out) as [[out'|u]|] eqn:Eup.
      * assert (Forall comp out') as Hout' by (destruct out as [|t o]; [done|]; simpl in Eup; repeat case_decide; simplify_eq;
          by apply list.Forall_cons_1 in Hout as [_ ?]).
        intros st' Hat'. by apply IH.
      * intros pos ret Hlen Hp Hpl Ht. rewrite decide_False by done. intros st' Hat'. apply IH; [by constructor|done|].
        by rewrite flat_rev_cons.
      * by intros ret Hlen.
    + pose proof Hn as [_ [?|Hp]]; [done|]. apply (norm_name n st (flat (rev out)) (SLASH :: flat cs ++ last)); [done|done|done|].
      intros st' Hat'. eapply norm_char; [exact Hat'|by intros [? _]|]. intros st'' Hat''. apply IH; [by constructor|done|].
      by rewrite flat_rev_cons, (assoc_L (++)).
Qed.
End norm.

(** ** Where normpath begins *)

Lemma isabs_total path : exists b, muggle_path_isabs path = Done b /\ (head path = Some DOT -> b = 0).
Proof.
  assert (forall i, 0 <= i < zlen path -> char_at path i = Done (path !!! Z.to_nat i)) as Hget by (intros; by apply char_at_lt).
  unfold muggle_path_isabs. rewrite !Z.gtb_ltb.
  destruct (Z.ltb_spec 1 (zlen path)), (Z.ltb_spec 2 (zlen path)); try lia; rewrite ?Hget by lia; mcompute; rewrite ?Hget by lia;
    repeat case_match; try lia; eexists; (split; [reflexivity|]); destruct path as [|c path]; try done; intros [= ->]; by simplify_eq/=.
Qed.

Lemma no_dot_prefix cs last x : Forall comp cs -> comp last -> is_sep x = true -> (head cs = Some [DOT] -> x <> SLASH) ->
  ~ [DOT; x] `prefix_of` flat cs ++ last.
Proof.
  assert (forall n l, comp n -> is_sep x = true -> n = DOT :: x :: l -> False) as Hno.
  { intros n l [Hn _] Hx ->. do 2 apply list.Forall_cons_1 in Hn as [? Hn]. naive_solver congruence. }
  intros Hcs Hl Hx Hh [l E]. destruct cs as [|n cs]; [by apply (Hno last l)|].
  apply list.Forall_cons_1 in Hcs as [Hn _]. unfold flat in E. simpl in E. rewrite <- !(assoc_L (++)) in E.
  destruct n as [|a [|b n]]; simplify_eq/=; [by apply Hh|]. by apply (Hno (DOT :: x :: n) n).
Qed.

Lemma norm_cursor pre cs last :
  Forall comp cs -> comp last -> pre = [DOT; SLASH] \/ (pre = [] /\ head cs <> Some [DOT]) ->
  exists abs, muggle_path_isabs (pre ++ flat cs ++ last) = Done abs /\
  (if abs =? 0 then
     a ← muggle_str_startswith (Some (pre ++ flat cs ++ last)) (Some [DOT; SLASH]);
     b ← (if a =? 0 then muggle_str_startswith (Some (pre ++ flat cs ++ last)) (Some [DOT; BACKSLASH]) else mret 1);
     mret (if b =? 0 then 0 else 2)
   else mret 0) = Done (zlen pre).
Proof.
  intros Hcs Hl Hpre. destruct (isabs_total (pre ++ flat cs ++ last)) as (b & Hisabs & Hb).
  exists b. split; [exact Hisabs|].
  destruct (str_affix_spec (pre ++ flat cs ++ last) [DOT; SLASH]) as [-> _].
  destruct (str_affix_spec (pre ++ flat cs ++ last) [DOT; BACKSLASH]) as [-> _].
  destruct Hpre as [->|[-> Hh]].
  - rewrite Hb by done. rewrite (bool_decide_true ([DOT; SLASH] `prefix_of` _ /\ _)); [done|]. split; [by eexists|done].
  - simpl app. rewrite !bool_decide_false.
    + by destruct (b =? 0).
    + intros [Hp _]. by apply no_dot_prefix in Hp.
    + intros [Hp _]. by apply no_dot_prefix in Hp.
Qed.

(** The string that the last write of normpath ends. *)
Lemma cstring_terminated (ret w : list Z) pos :
  Forall (fun c => c <> 0) w -> 0 <= pos < zlen ret ->
  (pos = zlen w /\ take (Z.to_nat pos) ret = w) \/ (pos = zlen w + 1 /\ take (Z.to_nat pos) ret = w ++ [0]) ->
  cstring (zinsert pos 0 ret) = Done w.
Proof.
  intros Hw Hp Hcase. unfold zlen in *. unfold zinsert. rewrite insert_take_drop by lia.
  destruct Hcase as [[-> ->]|[-> ->]]; [by apply cstring_app|]. rewrite <- (assoc_L (++)). by apply cstring_app.
Qed.


(** ** Splitting and joining *)

Lemma take_overwrite (l xs X : list Z) off :
  0 <= off -> off + zlen xs <= zlen l -> take (Z.to_nat off) l = X ->
  mem_write l off xs = Done (overwrite off xs l) /\ zlen (overwrite off xs l) = zlen l /\
  take (Z.to_nat (off + zlen xs)) (overwrite off xs l) = X ++ xs.
Proof.
  intros Ho Hl HX. rewrite mem_write_ok, zlen_overwrite by done. split; [done|]. split; [done|].
  assert (zlen X = off) as HlX by (rewrite <- HX; apply zlen_take; pose proof (zlen_nonneg xs); lia).
  unfold overwrite. rewrite HX, (assoc_L (++)). apply take_app_length'. rewrite length_app. unfold zlen in *. lia.
Qed.

Lemma strncpy_fits (l src X : list Z) off n :
  0 <= off -> zlen src <= n -> off + n <= zlen l -> take (Z.to_nat off) l = X ->
  exists l', strncpy l off src n = Done l' /\ zlen l' = zlen l /\
    take (Z.to_nat (off + n)) l' = X ++ src ++ replicate (Z.to_nat n - length src) 0.
Proof.
  intros Ho Hs Hl HX. pose proof (zlen_nonneg src). unfold strncpy. rewrite take_ge by (unfold zlen in *; lia).
  assert (zlen (src ++ replicate (Z.to_nat n - length src) 0) = n) as Hn.
  { rewrite zlen_app. unfold zlen in *. rewrite length_replicate. lia. }
  destruct (take_overwrite l (src ++ replicate (Z.to_nat n - length src) 0) X off Ho ltac:(lia) HX) as (-> & ? & Ht).
  rewrite Hn in Ht. by eexists.
Qed.

Section split.
Context (d b ret : list Z) (size : Z).
Notation path := (d ++ SLASH :: b).
Context (Hd : d <> []) (Hb : b <> []).
Context (Hnz : Forall (fun c => c <> 0) path) (Hsep : Forall (fun c => is_sep c = false) b).
Context (Hlast : forall x, list.last d = Some x -> is_sep x = false /\ x <> COLON).
Context (Hsize : zlen path < size) (Hret : size <= zlen ret) (H31 : size < 2 ^ 31).

Lemma split_len : zlen path = zlen d + 1 + zlen b /\ 0 < zlen d /\ 0 < zlen b.
Proof.
  rewrite zlen_app, zlen_cons. split; [lia|].
  by destruct d, b.
Qed.

Lemma split_pos : last_sep (char_at path) (S (length path)) (zlen path - 1) = Done (zlen d).
Proof.
  pose proof split_len as (El & ? & ?). apply last_sep_spec; [lia|unfold zlen; lia|..].
  - intros _. exists SLASH. split; [|done]. rewrite char_at_lt by lia. f_equal. unfold zlen. rewrite Nat2Z.id.
    apply list_lookup_total_correct, list_lookup_middle. done.
  - intros j Hj. destruct (zlookup_is_Some b (j - zlen d - 1) ltac:(lia)) as [x Hx]. exists x.
    split; [|rewrite zlookup_nonneg in Hx by lia; by apply (Forall_lookup_1 _ _ _ _ Hsep) in Hx].
    unfold char_at. apply aget_Some. rewrite zlookup_app_l, zlookup_app_r, zlookup_cons, decide_False by lia. done.
Qed.

Lemma split_copy s : zlen s < size -> Forall (fun c => c <> 0) s ->
  exists ret', mem_write ret 0 s = Done ret' /\ exists ret'', aset ret' (zlen s) 0 = Done ret'' /\ cstring ret'' = Done s.
Proof.
  intros Hs Hns. pose proof (zlen_nonneg s). destruct (take_overwrite ret s [] 0 ltac:(lia) ltac:(lia) eq_refl) as (-> & El & Ht).
  eexists. split; [done|]. rewrite aset_zinsert by lia. eexists. split; [done|].
  apply cstring_terminated; [done|lia|by left].
Qed.

Lemma split_parts : Forall (fun c => c <> 0) d /\ Forall (fun c => c <> 0) b.
Proof. apply Forall_app in Hnz as [? Hr]. by apply list.Forall_cons_1 in Hr as [_ ?]. Qed.

Lemma basename_split : exists ret', muggle_path_basename path ret size = Done (MUGGLE_OK, ret') /\ cstring ret' = Done b.
Proof.
  pose proof split_len as (El & ? & ?). pose proof split_parts as [_ Hnb].
  unfold muggle_path_basename. destruct (Z.leb_spec size 1); [lia|]. rewrite (swrap_small 32 (zlen path)) by lia.
  destruct (Z.leb_spec (zlen path) 0); [lia|]. rewrite (bind_done _ _ _ split_pos).
  destruct (Z.ltb_spec (zlen d) 0); [lia|]. replace (zlen path - 1 - zlen d) with (zlen b) by lia.
  destruct (Z.leb_spec (zlen b) 0); [lia|]. rewrite wrap_small, Z.geb_leb by lia. destruct (Z.leb_spec size (zlen b)); [lia|].
  rewrite mem_read_ok by (rewrite ?(zlen_app path [0]); change (zlen [0]) with 1; lia).
  replace (seg (zlen d + 1) (zlen d + 1 + zlen b) (path ++ [0])) with b.
  - destruct (split_copy b ltac:(lia) Hnb) as (r1 & Hw & r2 & Ha & Hc). mcompute. rewrite Hw, Ha. by eexists.
  - unfold seg. replace (path ++ [0]) with ((d ++ [SLASH]) ++ b ++ [0]) by (by rewrite <- !(assoc_L (++))).
    rewrite drop_app_length' by (rewrite length_app; unfold zlen; simpl; lia). symmetry. apply take_app_length'. unfold zlen. lia.
Qed.

Lemma dirname_split : exists ret', muggle_path_dirname path ret size = Done (MUGGLE_OK, ret') /\ cstring ret' = Done d.
Proof.
  pose proof split_len as (El & ? & ?). pose proof split_parts as [Hnd _].
  unfold muggle_path_dirname. destruct (Z.leb_spec size 1); [lia|]. rewrite (swrap_small 32 (zlen path)) by lia.
  destruct (Z.leb_spec (zlen path) 0); [lia|]. rewrite (bind_done _ _ _ split_pos).
  destruct (Z.ltb_spec (zlen d) 0); [lia|]. destruct (Z.eqb_spec (zlen d) 0); [lia|]. rewrite Z.gtb_ltb.
  assert ((if 0 <? zlen d - 1 then c ← char_at path (zlen d - 1); mret (c =? COLON) else mret false) = Done false) as Hcolon.
  { destruct (Z.ltb_spec 0 (zlen d - 1)); [|done]. rewrite char_at_lt by lia. mcompute. f_equal. apply Z.eqb_neq.
    destruct d as [|x d' _] using rev_ind; [done|]. destruct (Hlast x) as [_ Hx]; [by rewrite last_snoc|].
    rewrite zlen_app. change (zlen [x]) with 1. replace (zlen d' + 1 - 1) with (zlen d') by lia. unfold zlen. rewrite Nat2Z.id.
    rewrite lookup_total_app_l by (rewrite length_app; simpl; lia). rewrite lookup_total_app_r, Nat.sub_diag by lia. done. }
  rewrite (bind_done _ _ _ Hcolon). rewrite (swrap_small 32 size), Z.geb_leb by lia. destruct (Z.leb_spec size (zlen d)); [lia|].
  rewrite mem_read_ok by (rewrite ?(zlen_app path [0]); change (zlen [0]) with 1; lia).
  replace (seg 0 (0 + zlen d) (path ++ [0])) with d.
  - destruct (split_copy d ltac:(lia) Hnd) as (r1 & Hw & r2 & Ha & Hc). mcompute. rewrite Hw, Ha. by eexists.
  - unfold seg. simpl drop. rewrite <- (assoc_L (++)). symmetry. apply take_app_length'. unfold zlen. lia.
Qed.

Lemma not_ends_sep x : is_sep x = true ->
  muggle_str_endswith (Some d) (Some [x]) = Done 0.
Proof.
  intros Hx. destruct (str_affix_spec d [x]) as (_ & -> & _). rewrite bool_decide_false; [done|].
  intros [[k E] _]. destruct (Hlast x) as [Hx' _]; [rewrite E; apply last_snoc|]. congruence.
Qed.

Lemma join_split : exists ret', muggle_path_join d b ret size = Done (MUGGLE_OK, ret') /\ cstring ret' = Done path.
Proof.
  pose proof split_len as (El & ? & ?). pose proof split_parts as [Hnd Hnb].
  destruct (strncpy_fits ret d [] 0 (size - 1) ltac:(lia) ltac:(lia) ltac:(lia) eq_refl) as (r1 & Hr1 & Hl1 & Ht1).
  assert (exists t, r1 = d ++ 0 :: t) as [t Et].
  { rewrite <- (take_drop (Z.to_nat (0 + (size - 1))) r1), Ht1. simpl app.
    destruct (Z.to_nat (size - 1) - length d)%nat as [|k] eqn:Ek; [unfold zlen in *; lia|]. simpl replicate.
    rewrite <- (assoc_L (++)). by eexists. }
  assert (take (Z.to_nat (zlen d)) r1 = d) as Htd by (rewrite Et; apply take_app_length'; unfold zlen; lia).
  destruct (take_aset r1 (zlen d) SLASH d eq_refl Htd ltac:(lia)) as (Ha2 & Hl2 & Ht2). set (r2 := zinsert (zlen d) SLASH r1) in *.
  destruct (strncpy_fits r2 b (d ++ [SLASH]) (zlen d + 1) (zlen b) ltac:(lia) ltac:(lia) ltac:(lia) Ht2) as (r3 & Hr3 & Hl3 & Ht3).
  unfold muggle_path_join. rewrite (wrap_small 32 (size - 1)) by lia. destruct (Z.leb_spec (size - 1) 0); [lia|].
  rewrite !(swrap_small 32) by lia. destruct (Z.leb_spec (zlen d) 0), (Z.leb_spec (zlen b) 0); try lia. cbn [orb].
  rewrite (wrap_small 32 (zlen d)), Z.gtb_ltb by lia. destruct (Z.ltb_spec (size - 1) (zlen d)); [lia|].
  rewrite (bind_done _ _ _ Hr1).
  destruct b as [|c b'] eqn:Eb; [done|]. change (char_at (c :: b') 0) with (Done c).
  rewrite (bind_done (Done c) c) by done. apply list.Forall_cons_1 in Hnb as [Hc0 _]. apply list.Forall_cons_1 in Hsep as [Hcs _].
  destruct (Z.eqb_spec c 0); [done|]. rewrite (bind_done (cstring r1) d) by (rewrite Et; by apply cstring_app).
  rewrite (bind_done _ _ _ (not_ends_sep SLASH eq_refl)). cbv beta. change (0 =? 0) with true. cbv iota.
  rewrite (bind_done _ _ _ (not_ends_sep BACKSLASH eq_refl)). cbv beta. change (0 =? 0) with true. cbn [andb].
  rewrite Z.geb_leb. destruct (Z.leb_spec size (zlen d)); [lia|]. rewrite Ha2. mcompute.
  replace (c =? SLASH) with false by (symmetry; apply Z.eqb_neq; intros ->; done). cbn [andb].
  rewrite Z.sub_0_r, (wrap_small 32), Z.gtb_ltb by lia. destruct (Z.ltb_spec (size - 1) (zlen d + 1 + zlen (c :: b'))); [lia|].
  change (drop (Z.to_nat 0) (c :: b')) with (c :: b'). rewrite Hr3. rewrite aset_zinsert by lia.
  eexists. split; [reflexivity|]. apply cstring_terminated; [done|lia|]. left. split; [lia|].
  rewrite Ht3. replace (Z.to_nat (zlen (c :: b')) - length (c :: b'))%nat with 0%nat by (unfold zlen; lia).
  rewrite app_nil_r, <- (assoc_L (++)). done.
Qed.
End split.

(** A path of a directory [d] and a name [b] is split by dirname and basename
    into the two, and join puts them together again. *)
Theorem path_split_join d b ret size :
  d <> [] -> b <> [] -> Forall (fun c => c <> 0) (d ++ SLASH :: b) -> Forall (fun c => is_sep c = false) b ->
  (forall x, list.last d = Some x -> is_sep x = false /\ x <> COLON) ->
  zlen (d ++ SLASH :: b) < size -> size <= zlen ret -> size < 2 ^ 31 ->
  (exists ret', muggle_path_dirname (d ++ SLASH :: b) ret size = Done (MUGGLE_OK, ret') /\ cstring ret' = Done d) /\
  (exists ret', muggle_path_basename (d ++ SLASH :: b) ret size = Done (MUGGLE_OK, ret') /\ cstring ret' = Done b) /\
  (exists ret', muggle_path_join d b ret size = Done (MUGGLE_OK, ret') /\ cstring ret' = Done (d ++ SLASH :: b)).
Proof. intros. split_and!; [by apply dirname_split|by apply basename_split|by apply join_split]. Qed.

(** ** Where the buffer ends *)

(** With as many cells as the string needs, normpath of ".." writes one more. *)
Example path_normpath_overflows : muggle_path_normpath UP [1; 1; 1] 3 = Undef.
Proof. vm_compute. reflexivity. Qed.

(** A name that fills the buffer is copied without a zero; join then looks for
    the end of the first part outside the buffer. *)
Example path_basename_unterminated :
  muggle_path_basename [97; 98] [1; 1; 1] 3 = Done (MUGGLE_OK, [97; 98; 1]) /\
  muggle_path_join [97; 98] [99] [1; 1; 1] 3 = Undef.
Proof. vm_compute. done. Qed.

(** The root directory is not absolute. *)
Example path_root_not_absolute : muggle_path_isabs [SLASH] = Done 0.
Proof. reflexivity. Qed.

(** ** Witnesses: "./a/../b" and "a/b". *)

Lemma comp_a : comp [97].
Proof. split; [by repeat constructor|]. right. simpl. naive_solver. Qed.
Lemma comp_b : comp [98].
Proof. split; [by repeat constructor|]. right. simpl. naive_solver. Qed.
Lemma comp_up : comp UP.
Proof. split; [by repeat constructor|by left]. Qed.


Lemma path_split_join_witness :
  exists ret', muggle_path_join [97] [98] (replicate 10 1) 10 = Done (MUGGLE_OK, ret') /\ cstring ret' = Done [97; SLASH; 98].
Proof.
  apply (path_split_join [97] [98] (replicate 10 1) 10); try done; [by repeat constructor|by repeat constructor|].
  intros x [= <-]. done.
Defined.
End Path.
