(* ===== verification/Log.v ===== *)
(** muggle/c/log: levels, messages, formats, handlers and loggers.  The handlers
    that write to files are in LogFile.v.  The clock, the thread id, gmtime_r and
    the mutex are the platform's and enter as arguments; the loggers are those of
    a build without MUGGLE_DEBUG, which aborts after a fatal message. *)

From Stdlib Require Import ZArith Lia String Ascii.
From stdpp Require Import base gmap list numbers.
From S2P Require Import Prelude BaseUtils Str Path.
Import Str Path.

Open Scope Z_scope.

Module Log.

(** The characters of a string literal. *)
Definition chars (s : string) : list Z :=
  (fun c => Z.of_N (N_of_ascii c)) <$> list_ascii_of_string s.

Definition MUGGLE_MAX_PATH : Z := 1024.
Definition MUGGLE_LOG_MSG_MAX_LEN : Z := 4096.

Definition MUGGLE_LOG_LEVEL_OFFSET : Z := 8.
Definition MUGGLE_LOG_LEVEL_TRACE : Z := 0.
Definition MUGGLE_LOG_LEVEL_DEBUG : Z := Z.shiftl 1 MUGGLE_LOG_LEVEL_OFFSET.
Definition MUGGLE_LOG_LEVEL_INFO : Z := Z.shiftl 2 MUGGLE_LOG_LEVEL_OFFSET.
Definition MUGGLE_LOG_LEVEL_WARNING : Z := Z.shiftl 3 MUGGLE_LOG_LEVEL_OFFSET.
Definition MUGGLE_LOG_LEVEL_ERROR : Z := Z.shiftl 4 MUGGLE_LOG_LEVEL_OFFSET.
Definition MUGGLE_LOG_LEVEL_FATAL : Z := Z.shiftl 5 MUGGLE_LOG_LEVEL_OFFSET.
Definition MUGGLE_LOG_LEVEL_MAX : Z := 6.

Definition s_str_log_level : list (list Z) :=
  [chars "TRACE"; chars "DEBUG"; chars "INFO"; chars "WARNING"; chars "ERROR"; chars "FATAL"].

Definition muggle_log_level_to_str (log_level : Z) : outcome (list Z) :=
  let level := Z.shiftr log_level MUGGLE_LOG_LEVEL_OFFSET in
  if (level >=? 0) && (level <? MUGGLE_LOG_LEVEL_MAX) then aget s_str_log_level level
  else mret (chars "UNKNOWN").

Record muggle_log_src_loc := mkloc {
  src_file : list Z;
  src_line : Z;
  src_func : list Z
}.

Record muggle_log_msg := mkmsg {
  msg_level : Z;
  tv_sec : Z;
  tv_nsec : Z;
  tid : Z;
  src_loc : muggle_log_src_loc;
  payload : option (list Z)
}.

(** ** Formats *)

(** [snprintf(buf, size, ...)] of the text [s]: at most [size - 1] characters and
    a zero are written; the result is the length of [s]. *)
Definition snprintf (buf : list Z) (size : Z) (s : list Z) : outcome (Z * list Z) :=
  if size =? 0 then mret (zlen s, buf)
  else
    buf ← mem_write buf 0 (take (Z.to_nat (size - 1)) s ++ [0]);
    mret (zlen s, buf).

(** [%0wd] *)
Definition print_pad (w : nat) (n : Z) : list Z :=
  let digits := print_int 10 (Z.abs n) in
  let sign := if n <? 0 then [45] else [] in
  sign ++ replicate (w - length sign - length digits) 48 ++ digits.

Definition fmt_payload (msg : muggle_log_msg) : list Z :=
  match payload msg with Some p => p | None => [] end.

(** The name of the source file: [filename] is what the local array holds before
    basename writes it; the result of basename is not looked at. *)
Definition fmt_filename (filename : list Z) (msg : muggle_log_msg) : outcome (list Z) :=
  r ← muggle_path_basename (src_file (src_loc msg)) filename MUGGLE_MAX_PATH;
  cstring (r.2).

Definition muggle_log_fmt_simple (filename : list Z) (msg : muggle_log_msg) (buf : list Z) (bufsize : Z)
  : outcome (Z * list Z) :=
  level ← muggle_log_level_to_str (msg_level msg);
  filename ← fmt_filename filename msg;
  r ← snprintf buf bufsize
        (level ++ chars "|" ++ filename ++ chars ":" ++ print_int 10 (u32 (src_line (src_loc msg)))
         ++ chars " - " ++ fmt_payload msg ++ [10]);
  mret (i32 (r.1), r.2).

Record tm := mktm {
  tm_year : Z;
  tm_mon : Z;
  tm_mday : Z;
  tm_hour : Z;
  tm_min : Z;
  tm_sec : Z
}.

Definition muggle_log_fmt_complicated (gmtime : Z -> tm) (filename : list Z) (msg : muggle_log_msg)
    (buf : list Z) (bufsize : Z) : outcome (Z * list Z) :=
  level ← muggle_log_level_to_str (msg_level msg);
  filename ← fmt_filename filename msg;
  let t := gmtime (tv_sec msg) in
  r ← snprintf buf bufsize
        (level ++ chars "|" ++ print_int 10 (tm_year t + 1900) ++ chars "-" ++ print_pad 2 (tm_mon t + 1)
         ++ chars "-" ++ print_pad 2 (tm_mday t) ++ chars "T" ++ print_pad 2 (tm_hour t) ++ chars ":"
         ++ print_pad 2 (tm_min t) ++ chars ":" ++ print_pad 2 (tm_sec t) ++ chars "."
         ++ print_pad 3 (Z.quot (i32 (tv_nsec msg)) 1000000)
         ++ chars "|" ++ filename ++ chars ":" ++ print_int 10 (u32 (src_line (src_loc msg)))
         ++ chars "|" ++ src_func (src_loc msg) ++ chars "|" ++ print_int 10 (u64 (tid msg))
         ++ chars " - " ++ fmt_payload msg ++ [10]);
  mret (i32 (r.1), r.2).

Definition muggle_log_simple_init_fmt (filename : list Z) (msg : muggle_log_msg) (buf : list Z) (bufsize : Z)
  : outcome (Z * list Z) :=
  level ← muggle_log_level_to_str (msg_level msg);
  filename ← fmt_filename filename msg;
  r ← snprintf buf bufsize
        (level ++ chars "|" ++ print_int 10 (u64 (tv_sec msg)) ++ chars "."
         ++ print_pad 9 (Z.quot (i32 (tv_nsec msg)) 1000)
         ++ chars "|" ++ filename ++ chars ":" ++ print_int 10 (u32 (src_line (src_loc msg)))
         ++ chars "|" ++ src_func (src_loc msg) ++ chars "|" ++ print_int 10 (u64 (tid msg))
         ++ chars " - " ++ fmt_payload msg ++ [10]);
  mret (i32 (r.1), r.2).

(** A formatter: a hint and a function that writes to a buffer of some size. *)
Record muggle_log_fmt := mkfmt {
  fmt_hint : Z;
  fmt_func : muggle_log_msg -> list Z -> Z -> outcome (Z * list Z)
}.

Definition MUGGLE_LOG_FMT_LEVEL : Z := Z.shiftl 1 0.
Definition MUGGLE_LOG_FMT_FILE : Z := Z.shiftl 1 1.
Definition MUGGLE_LOG_FMT_FUNC : Z := Z.shiftl 1 2.
Definition MUGGLE_LOG_FMT_TIME : Z := Z.shiftl 1 3.
Definition MUGGLE_LOG_FMT_THREAD : Z := Z.shiftl 1 4.
Definition MUGGLE_LOG_FMT_ALL : Z :=
  Z.lor (Z.lor (Z.lor (Z.lor MUGGLE_LOG_FMT_LEVEL MUGGLE_LOG_FMT_FILE) MUGGLE_LOG_FMT_FUNC)
           MUGGLE_LOG_FMT_TIME) MUGGLE_LOG_FMT_THREAD.

Definition init_fmt (hint : Z) (func : muggle_log_msg -> list Z -> Z -> outcome (Z * list Z)) : muggle_log_fmt :=
  mkfmt hint func.

Definition muggle_log_fmt_get_simple (filename : list Z) : muggle_log_fmt :=
  mkfmt (Z.lor (Z.lor MUGGLE_LOG_FMT_LEVEL MUGGLE_LOG_FMT_FILE) MUGGLE_LOG_FMT_FUNC)
    (muggle_log_fmt_simple filename).
Definition muggle_log_fmt_get_complicated (gmtime : Z -> tm) (filename : list Z) : muggle_log_fmt :=
  mkfmt MUGGLE_LOG_FMT_ALL (muggle_log_fmt_complicated gmtime filename).

(** ** Handlers *)
Record muggle_log_handler := mkh {
  handler_level : Z;
  handler_fmt : option muggle_log_fmt;
  need_mutex : bool
}.

Definition muggle_log_handler_set_level (l : Z) (h : muggle_log_handler) : muggle_log_handler :=
  mkh l (handler_fmt h) (need_mutex h).
Definition muggle_log_handler_set_fmt (f : option muggle_log_fmt) (h : muggle_log_handler) : muggle_log_handler :=
  mkh (handler_level h) f (need_mutex h).
Definition muggle_log_handler_get_fmt (h : muggle_log_handler) : option muggle_log_fmt := handler_fmt h.
Definition muggle_log_handler_get_level (h : muggle_log_handler) : Z := handler_level h.
Definition muggle_log_handler_set_mutex (flag : bool) (h : muggle_log_handler) : muggle_log_handler :=
  mkh (handler_level h) (handler_fmt h) flag.
Definition muggle_log_handler_should_write (h : muggle_log_handler) (level : Z) : bool :=
  if level <? handler_level h then false else true.

(** [mutex_init] is the result of the call that sets up the mutex. *)
Definition muggle_log_handler_init_default (filename : list Z) (mutex_init : Z) : Z * muggle_log_handler :=
  let h := mkh 0 None false in
  let h := muggle_log_handler_set_fmt (Some (muggle_log_fmt_get_simple filename)) h in
  let h := muggle_log_handler_set_level MUGGLE_LOG_LEVEL_INFO h in
  let h := muggle_log_handler_set_mutex true h in
  if negb (mutex_init =? MUGGLE_OK) then (mutex_init, h) else (0, h).

(** *** The console *)

Definition ESC : list Z := [27].
Definition UNIX_TERMINAL_COLOR_RED : list Z := ESC ++ chars "[31m".
Definition UNIX_TERMINAL_COLOR_YEL : list Z := ESC ++ chars "[33m".

(** What was written to standard output and to standard error. *)
Record console := mkcons { stdout : list Z; stderr : list Z }.

Definition put (err : bool) (s : list Z) (c : console) : console :=
  if err then mkcons (stdout c) (stderr c ++ s) else mkcons (stdout c ++ s) (stderr c).

(** [raw] is what the local buffer holds before the formatter writes it. *)
Definition muggle_log_console_handler_write (raw : list Z) (c : console) (base_handler : muggle_log_handler)
    (enable_color : bool) (msg : muggle_log_msg) : outcome (Z * console) :=
  match muggle_log_handler_get_fmt base_handler with
  | None => mret (-1, c)
  | Some fmt =>
      r ← fmt_func fmt msg raw MUGGLE_LOG_MSG_MAX_LEN;
      let (ret, buf) := (r : Z * list Z) in
      if ret <? 0 then mret (-2, c)
      else
        let fp := msg_level msg >=? MUGGLE_LOG_LEVEL_WARNING in
        bytes ← mem_read buf 0 ret;
        if enable_color && (msg_level msg >=? MUGGLE_LOG_LEVEL_WARNING) then
          let c := if msg_level msg >=? MUGGLE_LOG_LEVEL_ERROR then put fp UNIX_TERMINAL_COLOR_RED c
                   else put fp UNIX_TERMINAL_COLOR_YEL c in
          mret (ret, put fp (ESC ++ chars "[m") (put fp bytes c))
        else mret (ret, put fp bytes c)
  end.

(** ** Loggers *)

Definition MUGGLE_LOGGER_MAX_HANDLER : Z := 8.

(** [handlers] are the addresses of the handlers, cells of a store that clients
    change too; their number is [cnt]. *)
Record muggle_logger := mklog {
  handlers : list nat;
  logger_fmt_hint : Z;
  lowest_log_level : Z
}.

Notation store := (gmap nat muggle_log_handler).

Definition muggle_sync_logger_init : muggle_logger := mklog [] 0 MUGGLE_LOG_LEVEL_FATAL.
Definition muggle_logger_default : muggle_logger := mklog [] 0 MUGGLE_LOG_LEVEL_FATAL.

Definition muggle_sync_logger_add_handler (s : store) (logger : muggle_logger) (a : nat)
  : outcome (Z * muggle_logger) :=
  if zlen (handlers logger) >=? MUGGLE_LOGGER_MAX_HANDLER then mret (MUGGLE_ERR_BEYOND_RANGE, logger)
  else
    match s !! a with
    | None => Undef
    | Some h =>
        let hint := match handler_fmt h with
                    | Some fmt => Z.lor (logger_fmt_hint logger) (fmt_hint fmt)
                    | None => logger_fmt_hint logger
                    end in
        let lowest := if handler_level h <? lowest_log_level logger then handler_level h
                      else lowest_log_level logger in
        mret (MUGGLE_OK, mklog (handlers logger ++ [a]) hint lowest)
    end.

(** [channel_init] and [thread_create] are the results of setting up the channel
    and the thread. *)
Definition muggle_async_logger_init (channel_init thread_create : Z) : Z * muggle_logger :=
  let logger := mklog [] 0 MUGGLE_LOG_LEVEL_FATAL in
  if negb (channel_init =? 0) then (channel_init, logger)
  else if negb (thread_create =? 0) then (thread_create, logger)
  else (0, logger).

(** The same, and the handler needs no mutex any more. *)
Definition muggle_async_logger_add_handler (s : store) (logger : muggle_logger) (a : nat)
  : outcome (Z * store * muggle_logger) :=
  if zlen (handlers logger) >=? MUGGLE_LOGGER_MAX_HANDLER then mret (MUGGLE_ERR_BEYOND_RANGE, s, logger)
  else
    match s !! a with
    | None => Undef
    | Some h =>
        let hint := match handler_fmt h with
                    | Some fmt => Z.lor (logger_fmt_hint logger) (fmt_hint fmt)
                    | None => logger_fmt_hint logger
                    end in
        let lowest := if handler_level h <? lowest_log_level logger then handler_level h
                      else lowest_log_level logger in
        mret (MUGGLE_OK, <[a := muggle_log_handler_set_mutex false h]> s,
              mklog (handlers logger ++ [a]) hint lowest)
    end.

(** The calls of the handlers' [write], in order. *)
Fixpoint write_to (s : store) (hs : list nat) (msg : muggle_log_msg) : outcome (list (nat * muggle_log_msg)) :=
  match hs with
  | [] => mret []
  | a :: hs =>
      match s !! a with
      | None => Undef
      | Some h =>
          rest ← write_to s hs msg;
          mret (if muggle_log_handler_should_write h (msg_level msg) then (a, msg) :: rest else rest)
      end
  end.

Definition muggle_logger_write (s : store) (logger : muggle_logger) (msg : muggle_log_msg)
  : outcome (list (nat * muggle_log_msg)) := write_to s (handlers logger) msg.

(** The message both loggers build: [old] is what the message held before, and
    the text is cut to the size of the payload buffer. *)
Definition fill_msg (old : muggle_log_msg) (logger : muggle_logger) (now : Z * Z) (self : Z) (level : Z)
    (loc : muggle_log_src_loc) (text : list Z) : muggle_log_msg :=
  let time := negb (Z.land (logger_fmt_hint logger) MUGGLE_LOG_FMT_TIME =? 0) in
  let thread := negb (Z.land (logger_fmt_hint logger) MUGGLE_LOG_FMT_THREAD =? 0) in
  mkmsg level (if time then now.1 else tv_sec old) (if time then now.2 else tv_nsec old)
    (if thread then self else tid old) loc (Some (take (Z.to_nat (MUGGLE_LOG_MSG_MAX_LEN - 1)) text)).

(** [memset(&msg, 0, sizeof(msg))] *)
Definition zero_msg : muggle_log_msg := mkmsg 0 0 0 0 (mkloc [] 0 []) None.

Definition muggle_sync_logger_log (s : store) (logger : muggle_logger) (now : Z * Z) (self : Z) (level : Z)
    (loc : muggle_log_src_loc) (text : list Z) : outcome (list (nat * muggle_log_msg)) :=
  if lowest_log_level logger >? level then mret []
  else muggle_logger_write s logger (fill_msg zero_msg logger now self level loc text).

(** What the asynchronous logger writes to its channel; [alloc] is the memory
    that p_alloc returned, or NULL. *)
Definition muggle_async_logger_log (alloc : option muggle_log_msg) (logger : muggle_logger) (now : Z * Z)
    (self : Z) (level : Z) (loc : muggle_log_src_loc) (text : list Z) : option muggle_log_msg :=
  if lowest_log_level logger >? level then None
  else
    match alloc with
    | None => None
    | Some old => Some (fill_msg old logger now self level loc text)
    end.

(** The writer's thread, for the messages its reads from the channel return in
    turn; [None] is the NULL that destroy writes. *)
Fixpoint muggle_async_logger_run (s : store) (logger : muggle_logger) (reads : list (option muggle_log_msg))
  : outcome (list (nat * muggle_log_msg)) :=
  match reads with
  | [] => mret []
  | None :: _ => mret []
  | Some msg :: reads =>
      l ← muggle_logger_write s logger msg;
      rest ← muggle_async_logger_run s logger reads;
      mret (l ++ rest)
  end.

(** ** What the formats write *)

Lemma snprintf_fits buf size text : zlen text < size -> size <= zlen buf ->
  snprintf buf size text = Done (zlen text, text ++ 0 :: drop (length text + 1) buf).
Proof.
  intros H1 H2. pose proof (zlen_nonneg text). unfold snprintf. destruct (Z.eqb_spec size 0); [lia|].
  rewrite take_ge by (unfold zlen in *; lia). rewrite mem_write_ok by (rewrite ?zlen_app; change (zlen [0]) with 1; lia).
  mcompute. unfold overwrite. simpl take. simpl app. do 2 f_equal. rewrite <- (assoc_L (++)). simpl. do 2 f_equal.
  f_equal. rewrite zlen_app. change (zlen [0]) with 1. unfold zlen. lia.
Qed.

(** The formatter writes [text] to a message buffer and reports its length. *)
Definition formats (raw : list Z) (fmt : muggle_log_fmt) (msg : muggle_log_msg) (text : list Z) : Prop :=
  zlen text <= MUGGLE_LOG_MSG_MAX_LEN /\
  exists rest, fmt_func fmt msg raw MUGGLE_LOG_MSG_MAX_LEN = Done (zlen text, text ++ rest).

Lemma formats_read raw fmt msg text : formats raw fmt msg text ->
  exists buf, fmt_func fmt msg raw MUGGLE_LOG_MSG_MAX_LEN = Done (zlen text, buf) /\ mem_read buf 0 (zlen text) = Done text.
Proof.
  intros (_ & rest & E). eexists. split; [exact E|]. pose proof (zlen_nonneg text). pose proof (zlen_nonneg rest).
  rewrite mem_read_ok by (rewrite ?zlen_app; lia). f_equal. unfold seg.
  replace (Z.to_nat (0 + zlen text - 0)) with (length text) by (unfold zlen; lia).
  change (Z.to_nat 0) with 0%nat. by rewrite drop_0, take_app_length.
Qed.

Section formats.
Context (d b filename raw : list Z) (msg : muggle_log_msg) (lv : list Z).
Context (Hfile : src_file (src_loc msg) = d ++ SLASH :: b) (Hd : d <> []) (Hb : b <> []).
Context (Hnz : Forall (fun c => c <> 0) (d ++ SLASH :: b)) (Hsep : Forall (fun c => is_sep c = false) b).
Context (Hdir : forall x, list.last d = Some x -> is_sep x = false /\ x <> COLON).
Context (Hlen : zlen (d ++ SLASH :: b) < MUGGLE_MAX_PATH) (Hname : MUGGLE_MAX_PATH <= zlen filename).
Context (Hlv : muggle_log_level_to_str (msg_level msg) = Done lv).
Context (Hraw : MUGGLE_LOG_MSG_MAX_LEN <= zlen raw).

Lemma fmt_filename_ok : fmt_filename filename msg = Done b.
Proof.
  unfold fmt_filename. rewrite Hfile.
  destruct (basename_split d b filename MUGGLE_MAX_PATH) as (ret & -> & Hc); try done.
Qed.

Lemma print_text text : zlen text < MUGGLE_LOG_MSG_MAX_LEN ->
  exists rest, (r ← snprintf raw MUGGLE_LOG_MSG_MAX_LEN text; mret (i32 (r.1), r.2)) = Done (zlen text, text ++ rest).
Proof.
  unfold MUGGLE_LOG_MSG_MAX_LEN in *. intros Ht. rewrite snprintf_fits by done. mcompute. simpl fst. pose proof (zlen_nonneg text).
  rewrite (swrap_small 32) by lia. by eexists.
Qed.

Definition simple_text : list Z :=
  lv ++ chars "|" ++ b ++ chars ":" ++ print_int 10 (u32 (src_line (src_loc msg))) ++ chars " - "
  ++ fmt_payload msg ++ [10].

Lemma simple_formats : zlen simple_text < MUGGLE_LOG_MSG_MAX_LEN ->
  formats raw (muggle_log_fmt_get_simple filename) msg simple_text.
Proof.
  intros Ht. split; [lia|]. destruct (print_text _ Ht) as [rest E]. exists rest. cbn [fmt_func muggle_log_fmt_get_simple].
  unfold muggle_log_fmt_simple. rewrite Hlv, fmt_filename_ok. exact E.
Qed.
End formats.

(** ** Which handlers a message reaches *)

(** The handler's level and hint are accounted for in the logger. *)
Definition covered (logger : muggle_logger) (h : muggle_log_handler) : Prop :=
  lowest_log_level logger <= handler_level h /\
  forall fmt n, handler_fmt h = Some fmt -> Z.testbit (fmt_hint fmt) n -> Z.testbit (logger_fmt_hint logger) n.

(** Every handler was registered as it is now, or has a higher level since. *)
Definition registered (s : store) (logger : muggle_logger) : Prop :=
  Forall (fun a => exists h, s !! a = Some h /\ covered logger h) (handlers logger).

Lemma covered_weaken logger logger' h :
  lowest_log_level logger' <= lowest_log_level logger ->
  (forall n, Z.testbit (logger_fmt_hint logger) n -> Z.testbit (logger_fmt_hint logger') n) ->
  covered logger h -> covered logger' h.
Proof. intros Hl Hh [H1 H2]. split; [lia|]. eauto. Qed.

(** Adding a handler, of either logger. *)
Lemma add_registered s s' logger a h : registered s logger -> s !! a = Some h ->
  (forall a h, s !! a = Some h -> exists h', s' !! a = Some h' /\ handler_level h' = handler_level h /\ handler_fmt h' = handler_fmt h) ->
  registered s' (mklog (handlers logger ++ [a])
    (match handler_fmt h with
     | Some fmt => Z.lor (logger_fmt_hint logger) (fmt_hint fmt)
     | None => logger_fmt_hint logger
     end)
    (if handler_level h <? lowest_log_level logger then handler_level h else lowest_log_level logger)).
Proof.
  intros Hr Ha Hs. set (logger' := mklog _ _ _).
  assert (lowest_log_level logger' <= lowest_log_level logger /\ lowest_log_level logger' <= handler_level h) as [Hl1 Hl2]
    by (simpl; destruct (Z.ltb_spec (handler_level h) (lowest_log_level logger)); lia).
  assert (forall h h', handler_level h' = handler_level h -> handler_fmt h' = handler_fmt h -> covered logger' h -> covered logger' h') as Hc
    by (intros g g' E1 E2 [??]; split; [lia|rewrite E2; eauto]).
  apply Forall_app. split; [eapply Forall_impl; [|exact Hr]|apply Forall_singleton].
  - intros a' (g & Hg & Hcov). destruct (Hs _ _ Hg) as (g' & ? & ? & ?). exists g'. split; [done|]. eapply Hc; [done..|].
    eapply covered_weaken; [exact Hl1| |exact Hcov]. intros n Hn. simpl. destruct (handler_fmt h); [|done].
    rewrite Z.lor_spec. by apply orb_True; left.
  - destruct (Hs _ _ Ha) as (h' & ? & ? & ?). exists h'. split; [done|]. eapply Hc; [done..|]. split; [done|].
    intros fmt n E Hn. simpl. rewrite E, Z.lor_spec. by apply orb_True; right.
Qed.

Lemma sync_add_registered s logger a h : registered s logger -> zlen (handlers logger) < MUGGLE_LOGGER_MAX_HANDLER ->
  s !! a = Some h ->
  exists logger', muggle_sync_logger_add_handler s logger a = Done (MUGGLE_OK, logger') /\
    registered s logger' /\ handlers logger' = handlers logger ++ [a].
Proof.
  intros Hr Hl Ha. unfold muggle_sync_logger_add_handler. rewrite Z.geb_leb.
  destruct (Z.leb_spec MUGGLE_LOGGER_MAX_HANDLER (zlen (handlers logger))); [lia|]. rewrite Ha. mcompute.
  eexists. split; [reflexivity|]. split; [|done]. eapply add_registered; eauto.
Qed.

Lemma async_add_registered s logger a h : registered s logger -> zlen (handlers logger) < MUGGLE_LOGGER_MAX_HANDLER ->
  s !! a = Some h ->
  exists logger', muggle_async_logger_add_handler s logger a =
      Done (MUGGLE_OK, <[a := muggle_log_handler_set_mutex false h]> s, logger') /\
    registered (<[a := muggle_log_handler_set_mutex false h]> s) logger' /\ handlers logger' = handlers logger ++ [a].
Proof.
  intros Hr Hl Ha. unfold muggle_async_logger_add_handler. rewrite Z.geb_leb.
  destruct (Z.leb_spec MUGGLE_LOGGER_MAX_HANDLER (zlen (handlers logger))); [lia|]. rewrite Ha. mcompute.
  eexists. split; [reflexivity|]. split; [|done]. eapply add_registered; [done..|]. intros a' h' Ha'.
  rewrite lookup_insert. case_decide; [|by eauto]. simplify_eq. eexists. by split.
Qed.

(** The addresses in [hs] whose handlers take messages of the level. *)
Definition wants (s : store) (level : Z) (a : nat) : bool :=
  match s !! a with
  | Some h => muggle_log_handler_should_write h level
  | None => false
  end.
Definition deliver (s : store) (hs : list nat) (msg : muggle_log_msg) : list (nat * muggle_log_msg) :=
  (fun a => (a, msg)) <$> filter (fun a => wants s (msg_level msg) a) hs.

Lemma write_to_deliver s msg hs : Forall (fun a => is_Some (s !! a)) hs -> write_to s hs msg = Done (deliver s hs msg).
Proof.
  induction 1 as [|a hs [h Ha] _ IH]; [done|]. cbn [write_to]. rewrite Ha, IH. mcompute. unfold deliver.
  assert (wants s (msg_level msg) a = muggle_log_handler_should_write h (msg_level msg)) as Hw by (unfold wants; by rewrite Ha).
  rewrite filter_cons, Hw. by destruct (muggle_log_handler_should_write h (msg_level msg)).
Qed.

(** [s'] has the handlers of [s], none of them with a lower level. *)
Definition raised (s s' : store) (hs : list nat) : Prop :=
  forall a h, a ∈ hs -> s !! a = Some h -> exists h', s' !! a = Some h' /\ handler_level h <= handler_level h'.

Lemma raised_is_Some s s' logger : registered s logger -> raised s s' (handlers logger) ->
  Forall (fun a => is_Some (s' !! a)) (handlers logger).
Proof.
  unfold registered. rewrite !list.Forall_forall. intros Hr Hs a Ha. destruct (Hr a Ha) as (h & Hh & _).
  destruct (Hs a h) as (h' & ? & _); [done..|]. by eexists.
Qed.

(** A message below the lowest level would not be written by any handler. *)
Lemma deliver_below s s' logger msg : registered s logger -> raised s s' (handlers logger) ->
  msg_level msg < lowest_log_level logger -> deliver s' (handlers logger) msg = [].
Proof.
  intros Hr Hs Hl. unfold deliver. destruct (filter _ (handlers logger)) as [|a l] eqn:E; [done|exfalso].
  assert (a ∈ filter (fun a => wants s' (msg_level msg) a) (handlers logger)) as Ha by (rewrite E; left).
  apply list_elem_of_filter in Ha as [Hw Ha]. unfold registered in Hr. rewrite list.Forall_forall in Hr.
  destruct (Hr a Ha) as (h & Hh & Hlo & _). destruct (Hs a h Ha Hh) as (h' & Hh' & ?).
  unfold wants in Hw. rewrite Hh' in Hw. unfold muggle_log_handler_should_write in Hw.
  destruct (Z.ltb_spec (msg_level msg) (handler_level h')); [done|lia].
Qed.

Lemma log_deliver s s' logger now self level loc text :
  registered s logger -> raised s s' (handlers logger) ->
  muggle_sync_logger_log s' logger now self level loc text =
    Done (deliver s' (handlers logger) (fill_msg zero_msg logger now self level loc text)).
Proof.
  intros Hr Hs. unfold muggle_sync_logger_log. rewrite Z.gtb_ltb.
  destruct (Z.ltb_spec level (lowest_log_level logger)); [by rewrite (deliver_below s)|].
  apply write_to_deliver. by eapply raised_is_Some.
Qed.

Lemma land_bit x n : 0 <= n -> Z.testbit x n -> Z.land x (Z.shiftl 1 n) =? 0 = false.
Proof.
  intros Hn Hx. apply Z.eqb_neq. intros E. apply (f_equal (fun y => Z.testbit y n)) in E.
  rewrite Z.land_spec, Z.shiftl_spec, Z.sub_diag, Z.bits_0 in E by lia. apply Is_true_true in Hx. by rewrite Hx in E.
Qed.

(** The message has what any of the registered formatters asks for. *)
Lemma fill_hint old s logger now self level loc text a h fmt : registered s logger -> a ∈ handlers logger ->
  s !! a = Some h -> handler_fmt h = Some fmt ->
  let msg := fill_msg old logger now self level loc text in
  (Z.testbit (fmt_hint fmt) 3 -> (tv_sec msg, tv_nsec msg) = now) /\ (Z.testbit (fmt_hint fmt) 4 -> tid msg = self).
Proof.
  intros Hr Ha Hh Hf. unfold registered in Hr. rewrite list.Forall_forall in Hr. destruct (Hr a Ha) as (h' & Hh' & _ & Hc).
  simplify_eq. split; intros Hb; apply (Hc _ _ Hf) in Hb; simpl; unfold MUGGLE_LOG_FMT_TIME, MUGGLE_LOG_FMT_THREAD;
    rewrite land_bit by done; [by destruct now|done].
Qed.

(** Registering a list of handlers. *)
Fixpoint sync_add_all (s : store) (logger : muggle_logger) (hs : list nat) : outcome muggle_logger :=
  match hs with
  | [] => mret logger
  | a :: hs => r ← muggle_sync_logger_add_handler s logger a; sync_add_all s (r.2) hs
  end.
Fixpoint async_add_all (s : store) (logger : muggle_logger) (hs : list nat) : outcome (store * muggle_logger) :=
  match hs with
  | [] => mret (s, logger)
  | a :: hs => r ← muggle_async_logger_add_handler s logger a; async_add_all (r.1.2) (r.2) hs
  end.

Lemma sync_add_all_ok s hs : forall logger, registered s logger -> zlen (handlers logger ++ hs) <= MUGGLE_LOGGER_MAX_HANDLER ->
  Forall (fun a => is_Some (s !! a)) hs ->
  exists logger', sync_add_all s logger hs = Done logger' /\ registered s logger' /\ handlers logger' = handlers logger ++ hs.
Proof.
  induction hs as [|a hs IH]; intros logger Hr Hl Hs; [exists logger; by rewrite app_nil_r|].
  apply list.Forall_cons in Hs as [[h Ha] Hs]. rewrite zlen_app, zlen_cons in Hl. pose proof (zlen_nonneg hs).
  destruct (sync_add_registered s logger a h) as (logger' & E & Hr' & Hh); [done|lia|done|].
  cbn [sync_add_all]. rewrite E. mcompute. simpl snd. destruct (IH logger') as (l2 & -> & ? & E2); [done| |done|].
  - rewrite Hh, zlen_app, zlen_app. change (zlen [a]) with 1. lia.
  - exists l2. split; [done|]. split; [done|]. by rewrite E2, Hh, <- (assoc_L (++)).
Qed.

Lemma async_add_all_ok hs : forall s logger, registered s logger -> zlen (handlers logger ++ hs) <= MUGGLE_LOGGER_MAX_HANDLER ->
  Forall (fun a => is_Some (s !! a)) hs ->
  exists s' logger', async_add_all s logger hs = Done (s', logger') /\ registered s' logger' /\
    handlers logger' = handlers logger ++ hs /\
    forall a, s' !! a = if decide (a ∈ hs) then muggle_log_handler_set_mutex false <$> s !! a else s !! a.
Proof.
  induction hs as [|a hs IH]; intros s logger Hr Hl Hs.
  { exists s, logger. split_and!; [done|done|by rewrite app_nil_r|done]. }
  apply list.Forall_cons in Hs as [[h Ha] Hs]. rewrite zlen_app, zlen_cons in Hl. pose proof (zlen_nonneg hs).
  destruct (async_add_registered s logger a h) as (logger' & E & Hr' & Hh); [done|lia|done|].
  cbn [async_add_all]. rewrite E. mcompute. simpl fst. simpl snd. set (s1 := <[a := _]> s) in *.
  assert (forall x, s1 !! x = if decide (a = x) then muggle_log_handler_set_mutex false <$> s !! x else s !! x) as H1
    by (intros x; unfold s1; rewrite lookup_insert; case_decide; [subst; by rewrite Ha|done]).
  destruct (IH s1 logger') as (s2 & l2 & -> & ? & E2 & Hs2); [done| | |].
  - rewrite Hh, zlen_app, zlen_app. change (zlen [a]) with 1. lia.
  - eapply Forall_impl; [|exact Hs]. intros x Hx. rewrite H1. by case_decide; [rewrite fmap_is_Some|].
  - exists s2, l2. split_and!; [done|done|by rewrite E2, Hh, <- (assoc_L (++))|].
    intros x. rewrite Hs2, H1. destruct (decide (a = x)) as [<-|Hne].
    + rewrite (decide_True (P := a ∈ a :: hs)) by left. rewrite Ha. by case_decide.
    + case_decide as Hx; case_decide as Hx'; try done; [destruct Hx'; by right|].
      apply elem_of_cons in Hx' as [->|]; done.
Qed.

(** C35: a synchronous logger with at most eight handlers, registered in order,
    passes each message to exactly the handlers whose level it reaches, in the
    order they were registered, as long as no handler's level was lowered since:
    the lowest level the logger keeps never holds back a message that a handler
    would write.  The message carries the level, the place and the text cut to
    the payload buffer, and the time and thread of the call when any handler's
    formatter asks for them.  A ninth handler is refused. *)
Theorem sync_logger_dispatch s hs :
  zlen hs <= MUGGLE_LOGGER_MAX_HANDLER -> Forall (fun a => is_Some (s !! a)) hs ->
  exists logger, sync_add_all s muggle_sync_logger_init hs = Done logger /\
    (zlen hs = MUGGLE_LOGGER_MAX_HANDLER ->
      forall a, muggle_sync_logger_add_handler s logger a = Done (MUGGLE_ERR_BEYOND_RANGE, logger)) /\
    forall s' now self level loc text, raised s s' hs ->
      exists msg, muggle_sync_logger_log s' logger now self level loc text = Done (deliver s' hs msg) /\
        msg_level msg = level /\ src_loc msg = loc /\ payload msg = Some (take 4095 text) /\
        forall a h fmt, a ∈ hs -> s !! a = Some h -> handler_fmt h = Some fmt ->
          (Z.testbit (fmt_hint fmt) 3 -> (tv_sec msg, tv_nsec msg) = now) /\ (Z.testbit (fmt_hint fmt) 4 -> tid msg = self).
Proof.
  intros Hl Hs. destruct (sync_add_all_ok s hs muggle_sync_logger_init) as (lg & E & Hr & Hh); [by apply Forall_nil|done..|].
  simpl in Hh. exists lg. split; [done|]. split.
  - intros H8 a. unfold muggle_sync_logger_add_handler. by rewrite Hh, H8.
  - intros s' now self level loc text Hraised. rewrite <- Hh in Hraised. eexists.
    split; [rewrite <- Hh; by apply (log_deliver s)|]. split_and!; try done.
    intros a h fmt Ha. rewrite <- Hh in Ha. by apply fill_hint.
Qed.

(** A handler that takes every message and formats it without a payload, one that
    takes errors with the time, and a place in the code. *)
Definition handler_all : muggle_log_handler := mkh MUGGLE_LOG_LEVEL_TRACE None true.
Definition handler_err : muggle_log_handler :=
  mkh MUGGLE_LOG_LEVEL_ERROR (Some (init_fmt MUGGLE_LOG_FMT_ALL (fun _ buf _ => mret (0, buf)))) true.
Definition here : muggle_log_src_loc := mkloc (chars "src/main.c") 12 (chars "main").

Lemma sync_logger_dispatch_witness :
  let s : store := <[0%nat := handler_all]> (<[1%nat := handler_err]> ∅) in
  exists logger, sync_add_all s muggle_sync_logger_init [0%nat; 1%nat] = Done logger /\
    exists msg, muggle_sync_logger_log s logger (5, 6) 7 MUGGLE_LOG_LEVEL_INFO here (chars "up") = Done [(0%nat, msg)] /\
      (tv_sec msg, tv_nsec msg) = (5, 6).
Proof.
  intros s. destruct (sync_logger_dispatch s [0%nat; 1%nat]) as (lg & E & _ & Hlog).
  - by vm_compute.
  - repeat constructor; by eexists.
  - exists lg. split; [done|].
    destruct (Hlog s (5, 6) 7 MUGGLE_LOG_LEVEL_INFO here (chars "up")) as (msg & Hm & Hlv & _ & _ & Hh).
    { intros a h _ Ha. by exists h. }
    exists msg. split; [rewrite Hm; unfold deliver; rewrite Hlv; reflexivity|].
    apply (Hh 1%nat handler_err (init_fmt MUGGLE_LOG_FMT_ALL (fun _ buf _ => mret (0, buf)))); [|reflexivity..|by vm_compute].
    right; left.
Defined.

(** A handler whose level is lowered after it was registered misses messages. *)
Example lowered_handler_misses :
  let s : store := {[0%nat := handler_err]} in
  let s' : store := {[0%nat := muggle_log_handler_set_level MUGGLE_LOG_LEVEL_INFO handler_err]} in
  exists logger, sync_add_all s muggle_sync_logger_init [0%nat] = Done logger /\
    wants s' MUGGLE_LOG_LEVEL_INFO 0%nat /\
    muggle_sync_logger_log s' logger (5, 6) 7 MUGGLE_LOG_LEVEL_INFO here (chars "up") = Done [].
Proof. eexists. split; [reflexivity|]. by split. Qed.

(** *** The asynchronous logger *)

(** A call of log with memory for the message. *)
Record call := mkcall {
  call_mem : muggle_log_msg;
  call_now : Z * Z;
  call_self : Z;
  call_level : Z;
  call_loc : muggle_log_src_loc;
  call_text : list Z
}.
Definition async_log (logger : muggle_logger) (c : call) : option muggle_log_msg :=
  muggle_async_logger_log (Some (call_mem c)) logger (call_now c) (call_self c) (call_level c) (call_loc c) (call_text c).
Definition async_msg (logger : muggle_logger) (c : call) : muggle_log_msg :=
  fill_msg (call_mem c) logger (call_now c) (call_self c) (call_level c) (call_loc c) (call_text c).

Lemma async_run_deliver s s' logger cs rest : registered s logger -> raised s s' (handlers logger) ->
  muggle_async_logger_run s' logger ((Some <$> omap (async_log logger) cs) ++ None :: rest) =
    Done (concat ((fun c => deliver s' (handlers logger) (async_msg logger c)) <$> cs)).
Proof.
  intros Hr Hs. induction cs as [|c cs IH]; [done|]. cbn [omap list_omap]. unfold async_log at 1, muggle_async_logger_log.
  rewrite Z.gtb_ltb. destruct (Z.ltb_spec (call_level c) (lowest_log_level logger)) as [Hl|Hl].
  - rewrite fmap_cons. simpl concat. rewrite (deliver_below s s') by done. apply IH.
  - rewrite !fmap_cons. cbn [app muggle_async_logger_run concat]. unfold muggle_logger_write.
    rewrite write_to_deliver by (by eapply raised_is_Some). mcompute. change (omap _ cs) with (omap (async_log logger) cs).
    by rewrite IH.
Qed.

(** An asynchronous logger with at most eight handlers writes, from its
    thread, the messages of all calls in the order of the channel up to the NULL
    of destroy, each to exactly the handlers whose level it reaches, in the order
    of registration, and leaves those handlers without a mutex and otherwise as
    they were.  The messages have the level, place and text of the call and what
    the formatters ask for. *)
Theorem async_logger_dispatch s hs :
  zlen hs <= MUGGLE_LOGGER_MAX_HANDLER -> Forall (fun a => is_Some (s !! a)) hs ->
  exists s1 logger, async_add_all s (muggle_async_logger_init 0 0).2 hs = Done (s1, logger) /\
    (forall a, s1 !! a = if decide (a ∈ hs) then muggle_log_handler_set_mutex false <$> s !! a else s !! a) /\
    forall s' cs rest, raised s1 s' hs -> exists msgs,
      muggle_async_logger_run s' logger ((Some <$> omap (async_log logger) cs) ++ None :: rest) =
        Done (concat (deliver s' hs <$> msgs)) /\
      Forall2 (fun c msg => msg_level msg = call_level c /\ src_loc msg = call_loc c /\
        payload msg = Some (take 4095 (call_text c)) /\
        forall a h fmt, a ∈ hs -> s1 !! a = Some h -> handler_fmt h = Some fmt ->
          (Z.testbit (fmt_hint fmt) 3 -> (tv_sec msg, tv_nsec msg) = call_now c) /\
          (Z.testbit (fmt_hint fmt) 4 -> tid msg = call_self c)) cs msgs.
Proof.
  intros Hl Hs. destruct (async_add_all_ok hs s (muggle_async_logger_init 0 0).2) as (s1 & lg & E & Hr & Hh & H1); [by apply Forall_nil|done..|].
  simpl in Hh. exists s1, lg. split; [done|]. split; [done|]. intros s' cs rest Hraised. rewrite <- Hh in Hraised.
  exists (async_msg lg <$> cs). split; [rewrite (async_run_deliver s1), Hh by done; by rewrite <- list_fmap_compose|].
  apply Forall2_fmap_r, Forall_Forall2_diag, list.Forall_forall. intros c _. split_and!; try done.
  intros a h fmt Ha. rewrite <- Hh in Ha. by apply fill_hint.
Qed.

Lemma async_logger_dispatch_witness :
  let s : store := <[0%nat := handler_all]> (<[1%nat := handler_err]> ∅) in
  let c level := mkcall zero_msg (5, 6) 7 level here (chars "up") in
  exists s1 logger m1 m2, async_add_all s (muggle_async_logger_init 0 0).2 [0%nat; 1%nat] = Done (s1, logger) /\
    muggle_async_logger_run s1 logger
      ((Some <$> omap (async_log logger) [c MUGGLE_LOG_LEVEL_INFO; c MUGGLE_LOG_LEVEL_ERROR]) ++ [None]) =
      Done [(0%nat, m1); (0%nat, m2); (1%nat, m2)].
Proof.
  intros s c. destruct (async_logger_dispatch s [0%nat; 1%nat]) as (s1 & lg & E & H1 & Hrun).
  - by vm_compute.
  - repeat constructor; by eexists.
  - destruct (Hrun s1 [c MUGGLE_LOG_LEVEL_INFO; c MUGGLE_LOG_LEVEL_ERROR] []) as (msgs & Hr & Hm).
    { intros a h _ Ha. by exists h. }
    apply Forall2_cons_inv_l in Hm as (m1 & ? & (Hl1 & _) & Hm & ->).
    apply Forall2_cons_inv_l in Hm as (m2 & ? & (Hl2 & _) & Hm & ->).
    apply Forall2_nil_inv_l in Hm as ->. exists s1, lg, m1, m2. split; [done|]. rewrite Hr.
    unfold deliver. rewrite !fmap_cons, Hl1, Hl2, !filter_cons. unfold wants. rewrite (H1 0%nat), (H1 1%nat). reflexivity.
Defined.

(** A message whose text does not fit the buffer: snprintf reports the length it
    would need, and the console handler reads that many characters of the buffer. *)
Example console_overread :
  let msg := mkmsg MUGGLE_LOG_LEVEL_INFO 0 0 0 here (Some (replicate 4095 97)) in
  muggle_log_console_handler_write (replicate 4096 0) (mkcons [] [])
    (muggle_log_handler_init_default (replicate 1024 0) 0).2 false msg = Undef.
Proof. vm_compute. reflexivity. Qed.

(** The microseconds are printed as nine digits of a fraction of a second. *)
Example simple_init_fraction :
  exists rest, muggle_log_simple_init_fmt (replicate 1024 0) (mkmsg MUGGLE_LOG_LEVEL_INFO 7 500000000 3 here None) (replicate 64 0) 64 =
    Done (37, chars "INFO|7.000500000|main.c:12|main|3 - " ++ [10] ++ rest).
Proof. eexists. vm_compute. reflexivity. Qed.
End Log.
