(* ===== verification/LogFile.v ===== *)
(** muggle/c/log: the handlers that write to files, with the rotation by size and
    by time, and muggle_log_simple_init.  The file system is a map from names to
    contents; which names can be opened, the directories, the clock and the
    calendar are the platform's.  Calls of the C library do what they are
    documented to do and write all they are asked to. *)

From Stdlib Require Import ZArith Lia String Ascii.
From stdpp Require Import base gmap list numbers.
From S2P Require Import Prelude BaseUtils Str Path Log.
Import Str Path Log.

Open Scope Z_scope.

Module LogFile.

Notation filesystem := (gmap (list Z) (list Z)).

Definition path_exists (fs : filesystem) (path : list Z) : bool := bool_decide (is_Some (fs !! path)).
Definition os_remove (fs : filesystem) (path : list Z) : filesystem := delete path fs.
(** Renaming a file that is not there fails and changes nothing; a file of the
    new name is replaced. *)
Definition os_rename (fs : filesystem) (src dst : list Z) : filesystem :=
  match fs !! src with
  | Some x => <[dst := x]> (delete src fs)
  | None => fs
  end.
(** [fwrite(..., fp)] to a file opened for appending. *)
Definition fwrite (fs : filesystem) (path bytes : list Z) : filesystem :=
  <[path := default [] (fs !! path) ++ bytes]> fs.

Record muggle_log_file_rotate_handler := mkr {
  handler : muggle_log_handler;
  filepath : list Z;
  fp : option (list Z);       (* the name of the open file, or NULL *)
  max_bytes : Z;
  backup_count : Z;
  offset : Z
}.

Definition set_fp (b : option (list Z)) (h : muggle_log_file_rotate_handler) : muggle_log_file_rotate_handler :=
  mkr (handler h) (filepath h) b (max_bytes h) (backup_count h) (offset h).
Definition set_offset (x : Z) (h : muggle_log_file_rotate_handler) : muggle_log_file_rotate_handler :=
  mkr (handler h) (filepath h) (fp h) (max_bytes h) (backup_count h) x.

(** The string [snprintf(buf, size, "%s.%d", path, i)] leaves. *)
Definition backup_name (size : Z) (path : list Z) (i : Z) : list Z :=
  take (Z.to_nat (size - 1)) (path ++ chars "." ++ print_int 10 i).

(** [for (int i = n; i > 0; i--) rename(path.i, path.(i+1))] *)
Fixpoint shift_backups (n : nat) (path : list Z) (fs : filesystem) : filesystem :=
  match n with
  | O => fs
  | S n' =>
      let i := Z.of_nat n in
      shift_backups n' path
        (os_rename fs (backup_name MUGGLE_MAX_PATH path i) (backup_name MUGGLE_MAX_PATH path (i + 1)))
  end.

Section files.
(** Whether fopen succeeds; the result of muggle_os_curdir and its string; the
    directories there are, and the result of creating one; the result of setting
    up a mutex. *)
Context (can_open : list Z -> bool).
Context (curdir : Z * list Z) (dir_exists : list Z -> bool) (mkdir : list Z -> Z) (mutex_init : Z).

(** [fopen(path, "ab+")] *)
Definition fopen_append (fs : filesystem) (path : list Z) : option filesystem :=
  if can_open path then Some (if path_exists fs path then fs else <[path := []]> fs) else None.

Definition muggle_log_file_rotate_handler_rotate (fs : filesystem) (h : muggle_log_file_rotate_handler)
  : Z * filesystem * muggle_log_file_rotate_handler :=
  let h := set_fp None h in
  let buf := backup_name (MUGGLE_MAX_PATH - 1) (filepath h) (i32 (backup_count h)) in
  let fs := if path_exists fs buf then os_remove fs buf else fs in
  let fs := shift_backups (Z.to_nat (i32 (backup_count h) - 1)) (filepath h) fs in
  let dst := take (Z.to_nat (MUGGLE_MAX_PATH - 1)) (filepath h ++ chars ".1") in
  let fs := os_rename fs (filepath h) dst in
  match fopen_append fs (filepath h) with
  | None => (MUGGLE_ERR_SYS_CALL, fs, h)
  | Some fs => (MUGGLE_OK, fs, set_offset 0 (set_fp (Some (filepath h)) h))
  end.

(** [raw] is what the local buffer holds before the formatter writes it. *)
Definition muggle_log_file_rotate_handler_write (raw : list Z) (fs : filesystem)
    (h : muggle_log_file_rotate_handler) (msg : muggle_log_msg)
  : outcome (Z * filesystem * muggle_log_file_rotate_handler) :=
  match muggle_log_handler_get_fmt (handler h) with
  | None => mret (-1, fs, h)
  | Some fmt =>
      r ← fmt_func fmt msg raw MUGGLE_LOG_MSG_MAX_LEN;
      let (ret, buf) := (r : Z * list Z) in
      if ret <? 0 then mret (-2, fs, h)
      else
        match fp h with
        | Some path =>
            bytes ← mem_read buf 0 ret;
            let fs := fwrite fs path bytes in
            let h := set_offset (i64 (offset h + ret)) h in
            if offset h >=? max_bytes h then
              let '(_, fs, h) := muggle_log_file_rotate_handler_rotate fs h in
              mret (ret, fs, h)
            else mret (ret, fs, h)
        | None => mret (ret, fs, h)
        end
  end.

(** The first part of the three init functions: the path of the log file, and the
    directory it is in; [log_path] and [log_dir] are the local arrays. *)
Definition log_abs_path (log_path log_dir filepath : list Z) : outcome (Z * list Z) :=
  abs ← muggle_path_isabs filepath;
  if negb (abs =? 0) then mret (0, filepath)
  else if negb (curdir.1 =? 0) then mret (curdir.1, [])
  else
    j ← muggle_path_join curdir.2 filepath log_path MUGGLE_MAX_PATH;
    if negb (j.1 =? 0) then mret (j.1, [])
    else
      log_path ← cstring (j.2);
      d ← muggle_path_dirname log_path log_dir MUGGLE_MAX_PATH;
      if negb (d.1 =? 0) then mret (d.1, [])
      else
        log_dir ← cstring (d.2);
        if negb (dir_exists log_dir) then
          let ret := mkdir log_dir in
          if negb (ret =? 0) then mret (ret, []) else mret (0, log_path)
        else mret (0, log_path).

(** What strncpy leaves in the field [filepath] of a handler, as a string; [field]
    is what the array held before. *)
Definition copy_path (field abs_filepath : list Z) : outcome (list Z) :=
  field ← strncpy field 0 abs_filepath (MUGGLE_MAX_PATH - 1); cstring field.

(** [name] is the local array of the formatter, [field] the handler's array. *)
Definition muggle_log_file_rotate_handler_init (name log_path log_dir field : list Z) (fs : filesystem)
    (path : list Z) (max_bytes backup_count : Z)
  : outcome (Z * filesystem * muggle_log_file_rotate_handler) :=
  let '(ret, base) := muggle_log_handler_init_default name mutex_init in
  let h := mkr base [] None 0 0 0 in
  if negb (ret =? 0) then mret (ret, fs, h)
  else
    r ← log_abs_path log_path log_dir path;
    let '(ret, abs_filepath) := (r : Z * list Z) in
    if negb (ret =? 0) then mret (ret, fs, h)
    else
      match fopen_append fs abs_filepath with
      | None => mret (MUGGLE_ERR_SYS_CALL, fs, h)
      | Some fs =>
          fpath ← copy_path field abs_filepath;
          let h := mkr base fpath (Some abs_filepath) max_bytes backup_count (zlen (default [] (fs !! abs_filepath))) in
          if offset h >=? max_bytes then
            let '(_, fs, h) := muggle_log_file_rotate_handler_rotate fs h in mret (MUGGLE_OK, fs, h)
          else mret (MUGGLE_OK, fs, h)
      end.

(** *** The plain file handler *)

(** The first letter of the mode: append, or truncate. *)
Inductive fopen_mode := MODE_A | MODE_W.

Definition fopen (fs : filesystem) (path : list Z) (mode : fopen_mode) : option filesystem :=
  match mode with
  | MODE_A => fopen_append fs path
  | MODE_W => if can_open path then Some (<[path := []]> fs) else None
  end.

Record muggle_log_file_handler := mkf {
  file_base : muggle_log_handler;
  file_fp : option (list Z)    (* the name of the open file, or NULL *)
}.

Definition muggle_log_file_handler_init (name log_path log_dir : list Z) (fs : filesystem) (path : list Z)
    (mode : fopen_mode) : outcome (Z * filesystem * muggle_log_file_handler) :=
  let '(ret, base) := muggle_log_handler_init_default name mutex_init in
  let h := mkf base None in
  if negb (ret =? 0) then mret (ret, fs, h)
  else
    r ← log_abs_path log_path log_dir path;
    let '(ret, abs_filepath) := (r : Z * list Z) in
    if negb (ret =? 0) then mret (ret, fs, h)
    else
      match fopen fs abs_filepath mode with
      | None => mret (MUGGLE_ERR_SYS_CALL, fs, h)
      | Some fs => mret (MUGGLE_OK, fs, mkf base (Some abs_filepath))
      end.

Definition muggle_log_file_handler_write (raw : list Z) (fs : filesystem) (h : muggle_log_file_handler)
    (msg : muggle_log_msg) : outcome (Z * filesystem) :=
  match muggle_log_handler_get_fmt (file_base h) with
  | None => mret (-1, fs)
  | Some fmt =>
      r ← fmt_func fmt msg raw MUGGLE_LOG_MSG_MAX_LEN;
      let (ret, buf) := (r : Z * list Z) in
      if ret <? 0 then mret (-2, fs)
      else
        match file_fp h with
        | Some path => bytes ← mem_read buf 0 ret; mret (ret, fwrite fs path bytes)
        | None => mret (ret, fs)
        end
  end.

(** *** Rotation by time *)

Definition MUGGLE_LOG_TIME_ROTATE_UNIT_SEC : Z := 115.
Definition MUGGLE_LOG_TIME_ROTATE_UNIT_MIN : Z := 109.
Definition MUGGLE_LOG_TIME_ROTATE_UNIT_HOUR : Z := 104.
Definition MUGGLE_LOG_TIME_ROTATE_UNIT_DAY : Z := 100.

Record muggle_log_file_time_rot_handler := mkt {
  tr_base : muggle_log_handler;
  tr_path : list Z;
  tr_fp : option (list Z);
  rotate_unit : Z;
  rotate_mod : Z;
  last_sec : Z;
  last_tm : tm;
  use_local_time : bool
}.

Definition set_tr_fp (f : option (list Z)) (h : muggle_log_file_time_rot_handler) : muggle_log_file_time_rot_handler :=
  mkt (tr_base h) (tr_path h) f (rotate_unit h) (rotate_mod h) (last_sec h) (last_tm h) (use_local_time h).
Definition set_last (sec : Z) (t : tm) (h : muggle_log_file_time_rot_handler) : muggle_log_file_time_rot_handler :=
  mkt (tr_base h) (tr_path h) (tr_fp h) (rotate_unit h) (rotate_mod h) sec t (use_local_time h).

(** localtime_r, gmtime_r and the result of time(NULL). *)
Context (localtime gmtime : Z -> tm) (now : Z).

(** [int / unsigned int], as an int. *)
Definition div_mod (x m : Z) : outcome Z := if m =? 0 then Undef else mret (i32 (u32 x / m)).

Definition muggle_log_file_time_rot_handler_detect (h : muggle_log_file_time_rot_handler) (msg : muggle_log_msg)
  : outcome (bool * muggle_log_file_time_rot_handler) :=
  let sec := if tv_sec msg =? 0 then now else tv_sec msg in
  if last_sec h >=? sec then mret (false, h)
  else
    let curr_tm := if use_local_time h then localtime sec else gmtime sec in
    let last := last_tm h in
    let day := negb (tm_mon curr_tm =? tm_mon last) || negb (tm_year curr_tm =? tm_year last) in
    let hour := negb (tm_mday curr_tm =? tm_mday last) || day in
    let min := negb (tm_hour curr_tm =? tm_hour last) || hour in
    let sec' := negb (tm_min curr_tm =? tm_min last) || min in
    need_rot ←
      (if rotate_unit h =? MUGGLE_LOG_TIME_ROTATE_UNIT_SEC then
         c ← div_mod (tm_sec curr_tm) (rotate_mod h); l ← div_mod (tm_sec last) (rotate_mod h);
         mret (negb (c =? l) || sec')
       else if rotate_unit h =? MUGGLE_LOG_TIME_ROTATE_UNIT_MIN then
         c ← div_mod (tm_min curr_tm) (rotate_mod h); l ← div_mod (tm_min last) (rotate_mod h);
         mret (negb (c =? l) || min)
       else if rotate_unit h =? MUGGLE_LOG_TIME_ROTATE_UNIT_HOUR then
         c ← div_mod (tm_hour curr_tm) (rotate_mod h); l ← div_mod (tm_hour last) (rotate_mod h);
         mret (negb (c =? l) || hour)
       else if rotate_unit h =? MUGGLE_LOG_TIME_ROTATE_UNIT_DAY then
         c ← div_mod (tm_mday curr_tm) (rotate_mod h); l ← div_mod (tm_mday last) (rotate_mod h);
         mret (negb (c =? l) || day)
       else mret false);
    mret (need_rot, set_last sec curr_tm h).

(** The name that snprintf leaves; with another unit the array is not written. *)
Definition time_name (path : list Z) (unit : Z) (t : tm) : option (list Z) :=
  let day := path ++ chars "." ++ print_int 10 (tm_year t + 1900) ++ print_pad 2 (tm_mon t + 1) ++ print_pad 2 (tm_mday t) in
  let cut := take (Z.to_nat (MUGGLE_MAX_PATH - 1)) in
  if unit =? MUGGLE_LOG_TIME_ROTATE_UNIT_SEC then
    Some (cut (day ++ chars "T" ++ print_pad 2 (tm_hour t) ++ print_pad 2 (tm_min t) ++ print_pad 2 (tm_sec t)))
  else if unit =? MUGGLE_LOG_TIME_ROTATE_UNIT_MIN then
    Some (cut (day ++ chars "T" ++ print_pad 2 (tm_hour t) ++ print_pad 2 (tm_min t)))
  else if unit =? MUGGLE_LOG_TIME_ROTATE_UNIT_HOUR then Some (cut (day ++ chars "T" ++ print_pad 2 (tm_hour t)))
  else if unit =? MUGGLE_LOG_TIME_ROTATE_UNIT_DAY then Some (cut day)
  else None.

Definition muggle_log_file_time_rot_handler_rotate (fs : filesystem) (h : muggle_log_file_time_rot_handler)
  : outcome (Z * filesystem * muggle_log_file_time_rot_handler) :=
  let h := set_tr_fp None h in
  match time_name (tr_path h) (rotate_unit h) (last_tm h) with
  | None => Undef
  | Some buf =>
      match fopen_append fs buf with
      | None => mret (MUGGLE_ERR_SYS_CALL, fs, h)
      | Some fs => mret (MUGGLE_OK, fs, set_tr_fp (Some buf) h)
      end
  end.

Definition muggle_log_file_time_rot_handler_write (raw : list Z) (fs : filesystem)
    (h : muggle_log_file_time_rot_handler) (msg : muggle_log_msg)
  : outcome (Z * filesystem * muggle_log_file_time_rot_handler) :=
  match muggle_log_handler_get_fmt (tr_base h) with
  | None => mret (-1, fs, h)
  | Some fmt =>
      r ← fmt_func fmt msg raw MUGGLE_LOG_MSG_MAX_LEN;
      let (ret, buf) := (r : Z * list Z) in
      if ret <? 0 then mret (-2, fs, h)
      else
        match tr_fp h with
        | Some path =>
            bytes ← mem_read buf 0 ret;
            let fs := fwrite fs path bytes in
            d ← muggle_log_file_time_rot_handler_detect h msg;
            let '(rot, h) := (d : bool * muggle_log_file_time_rot_handler) in
            if rot then
              r ← muggle_log_file_time_rot_handler_rotate fs h;
              let '(_, fs, h) := (r : Z * filesystem * muggle_log_file_time_rot_handler) in
              mret (ret, fs, h)
            else mret (ret, fs, h)
        | None => mret (ret, fs, h)
        end
  end.

(** [local0] is what the field [use_local_time] holds before init writes it. *)
Definition muggle_log_file_time_rot_handler_init (name log_path log_dir field : list Z) (local0 : bool)
    (fs : filesystem) (path : list Z) (unit mod_ : Z) (local : bool)
  : outcome (Z * filesystem * muggle_log_file_time_rot_handler) :=
  let '(ret, base) := muggle_log_handler_init_default name mutex_init in
  let h := mkt base [] None 0 0 0 (mktm 0 0 0 0 0 0) local0 in
  if negb (ret =? 0) then mret (ret, fs, h)
  else
    r ← log_abs_path log_path log_dir path;
    let '(ret, abs_filepath) := (r : Z * list Z) in
    if negb (ret =? 0) then mret (ret, fs, h)
    else
      fpath ← copy_path field abs_filepath;
      let last := if use_local_time h then localtime now else gmtime now in
      let h := mkt base fpath None unit mod_ now last local in
      r ← muggle_log_file_time_rot_handler_rotate fs h;
      let '(ret, fs, h) := (r : Z * filesystem * muggle_log_file_time_rot_handler) in
      if negb (ret =? 0) then mret (ret, fs, h) else mret (MUGGLE_OK, fs, h).

(** *** The default set-up *)

(** The result of muggle_os_process_path and its string. *)
Context (process_path : Z * list Z).

(** [process_name] and [log_path] are arrays, of MUGGLE_MAX_PATH cells. *)
Definition muggle_log_simple_init_log_path (process_name log_path : list Z) : outcome (Z * list Z) :=
  if negb (process_path.1 =? 0) then mret (-1, log_path)
  else
    r ← muggle_path_basename process_path.2 process_name MUGGLE_MAX_PATH;
    if negb (r.1 =? 0) then mret (-1, log_path)
    else
      process_name ← cstring (r.2);
      let log_name := take (Z.to_nat (MUGGLE_MAX_PATH - 1)) (process_name ++ chars ".log") in
      j ← muggle_path_join (chars "log") log_name log_path MUGGLE_MAX_PATH;
      if negb (j.1 =? 0) then mret (-1, j.2) else mret (0, j.2).

(** The addresses of the two handlers, which are static. *)
Definition CONSOLE : nat := 0.
Definition ROT_FILE : nat := 1.

(** All arrays are [arr] at first. *)
Definition muggle_log_simple_init (arr : list Z) (fs : filesystem) (s : store) (logger : muggle_logger)
    (level_console level_file_rotating : Z)
  : outcome (Z * filesystem * store * muggle_logger * option muggle_log_file_rotate_handler) :=
  let formatter := mkfmt MUGGLE_LOG_FMT_ALL (muggle_log_simple_init_fmt arr) in
  let console_handler := (muggle_log_handler_init_default arr mutex_init).2 in
  let console_handler := muggle_log_handler_set_level level_console console_handler in
  let console_handler := muggle_log_handler_set_fmt (Some formatter) console_handler in
  let s := <[CONSOLE := console_handler]> s in
  p ← muggle_log_simple_init_log_path arr arr;
  if negb (p.1 =? 0) then mret (-1, fs, s, logger, None)
  else
    log_path ← cstring (p.2);
    r ← muggle_log_file_rotate_handler_init arr arr arr arr fs log_path (1024 * 1024 * 64) 5;
    let '(ret, fs, h) := (r : Z * filesystem * muggle_log_file_rotate_handler) in
    let s := <[ROT_FILE := handler h]> s in
    if negb (ret =? 0) then mret (-1, fs, s, logger, Some h)
    else
      a ← muggle_sync_logger_add_handler s logger CONSOLE;
      b ← muggle_sync_logger_add_handler s (a.2) ROT_FILE;
      mret (0, fs, s, b.2, Some h).
End files.

(** ** The names of the backups *)

Definition backup_path (path : list Z) (i : Z) : list Z := path ++ chars "." ++ print_int 10 i.

Lemma print_int_inj i j : 0 <= i < 2 ^ 31 -> 0 <= j < 2 ^ 31 -> print_int 10 i = print_int 10 j -> i = j.
Proof.
  intros Hi Hj. unfold print_int. destruct (Z.ltb_spec i 0); [lia|]. destruct (Z.ltb_spec j 0); [lia|]. intros E.
  assert (forall n, 0 <= n < 2 ^ 31 -> scan_digits 10 0 (print_digits 64 10 n ++ []) = (n, [])) as Hs.
  { intros n Hn. destruct (scan_print 10 ltac:(lia) 64 n 0 []) as [k ->]; [|lia|reflexivity].
    split; [lia|]. transitivity (2 ^ 31); [lia|]. by vm_compute. }
  pose proof (Hs i Hi) as H1. rewrite E, (Hs j Hj) in H1. by injection H1.
Qed.

(** ** What a sequence of messages leaves *)

(** What the files hold after [text] was logged. *)
Definition logged (max count : Z) (st : list Z * list (list Z)) (text : list Z) : list Z * list (list Z) :=
  let cur := st.1 ++ text in
  if zlen cur <? max then (cur, st.2) else ([], take (Z.to_nat count) (cur :: st.2)).

(** All that the files hold, oldest first. *)
Definition whole (st : list Z * list (list Z)) : list Z := concat (rev st.2) ++ st.1.

(** [st'] holds the end of what was logged since [st], all of it unless there are
    [count] backups. *)
Definition keeps (count : Z) (st : list Z * list (list Z)) (text : list Z) (st' : list Z * list (list Z)) : Prop :=
  zlen st.2 <= zlen st'.2 <= count /\
  exists old, whole st ++ text = old ++ whole st' /\ (zlen st'.2 < count -> old = []).

Lemma logged_keeps max count st text : 1 <= count -> zlen st.2 <= count -> keeps count st text (logged max count st text).
Proof.
  intros Hc Hl. destruct st as [cur bs]. unfold keeps, logged, whole. unfold fst, snd in *. destruct (_ <? _).
  - split; [lia|]. exists []. by rewrite <- (assoc_L (++)).
  - split; [unfold zlen in *; rewrite length_take; simpl; lia|].
    exists (concat (rev (drop (Z.to_nat count) ((cur ++ text) :: bs)))). rewrite app_nil_r, <- concat_app, <- rev_app_distr, take_drop.
    split; [simpl rev; by rewrite concat_app, <- (assoc_L (++)), concat_cons, app_nil_r|].
    unfold zlen in *. rewrite length_take. intros Hlt. rewrite drop_ge by lia. done.
Qed.

Lemma keeps_trans count st text st' text' st'' :
  keeps count st text st' -> keeps count st' text' st'' -> keeps count st (text ++ text') st''.
Proof.
  intros ([? ?] & old & E & Hold) ([? ?] & old' & E' & Hold'). split; [lia|]. exists (old ++ old').
  rewrite (assoc_L (++)), E, <- (assoc_L (++)), E', (assoc_L (++)). split; [done|]. intros. rewrite Hold, Hold' by lia. done.
Qed.

Lemma fold_keeps max count texts : forall st, 1 <= count -> zlen st.2 <= count ->
  keeps count st (concat texts) (fold_left (logged max count) texts st).
Proof.
  induction texts as [|t texts IH]; intros st Hc Hl; simpl.
  - split; [lia|]. exists []. by rewrite app_nil_r.
  - pose proof (logged_keeps max count st t Hc Hl) as Hk. eapply keeps_trans; [exact Hk|].
    apply IH; [done|]. apply Hk.
Qed.

(** A backup was rotated by the message that filled it. *)
Definition full (max : Z) (b : list Z) : Prop := max <= zlen b < max + MUGGLE_LOG_MSG_MAX_LEN.

Lemma logged_full max count st text : zlen text <= MUGGLE_LOG_MSG_MAX_LEN -> zlen st.1 < max -> 0 < max ->
  Forall (full max) st.2 ->
  zlen (logged max count st text).1 < max /\ Forall (full max) (logged max count st text).2.
Proof.
  intros Ht Hs Hm Hf. unfold logged. destruct (Z.ltb_spec (zlen (st.1 ++ text)) max); [done|]. simpl. split; [done|].
  apply Forall_take, Forall_cons; [|done]. unfold full. rewrite zlen_app in *. lia.
Qed.

Section rotation.
Context (can_open : list Z -> bool).
Context (path : list Z) (Hpath : zlen path <= 1000).
Implicit Types (fs : filesystem).

Lemma backup_name_eq size i : 1023 <= size -> 0 <= i < 2 ^ 31 -> backup_name size path i = backup_path path i.
Proof.
  intros Hs Hi. unfold backup_name. apply take_ge. unfold backup_path, print_int. destruct (Z.ltb_spec i 0); [lia|].
  assert (zlen (print_digits 64 10 i) <= 10) as Hl by (apply (print_len 64 i 10); [split; [lia|]; transitivity (2 ^ 31); [lia|by vm_compute]|lia]). rewrite !length_app.
  change (length (chars ".")) with 1%nat. unfold zlen in *. lia.
Qed.

Lemma name_inj i j : 0 <= i < 2 ^ 31 -> 0 <= j < 2 ^ 31 -> backup_path path i = backup_path path j -> i = j.
Proof. intros Hi Hj E. apply app_inv_head, app_inv_head in E. by apply print_int_inj. Qed.

Lemma name_path i : backup_path path i <> path.
Proof.
  intros E. apply (f_equal length) in E. unfold backup_path in E. rewrite !length_app in E.
  change (length (chars ".")) with 1%nat in E. lia.
Qed.

Lemma lookup_rename fs src dst p : src <> dst ->
  os_rename fs src dst !! p =
    match fs !! src with
    | Some x => if decide (p = dst) then Some x else if decide (p = src) then None else fs !! p
    | None => fs !! p
    end.
Proof.
  intros Hne. unfold os_rename. destruct (fs !! src) as [x|] eqn:E; [|done].
  rewrite lookup_insert, lookup_delete. repeat case_decide; subst; done.
Qed.

(** Each backup moves up by one, when there is none above them. *)
Lemma lookup_shift n : forall fs, Z.of_nat n + 1 < 2 ^ 31 -> fs !! backup_path path (Z.of_nat n + 1) = None ->
  (forall i, 1 <= i <= Z.of_nat n -> shift_backups n path fs !! backup_path path (i + 1) = fs !! backup_path path i) /\
  shift_backups n path fs !! backup_path path 1 = None /\
  (forall p, (forall i, 1 <= i <= Z.of_nat n + 1 -> p <> backup_path path i) -> shift_backups n path fs !! p = fs !! p).
Proof.
  induction n as [|n IH]; intros fs Hn Htop; [split; [lia|]; by split|].
  cbn [shift_backups]. rewrite !backup_name_eq by (unfold MUGGLE_MAX_PATH; lia).
  set (m := Z.of_nat (S n)) in *. set (fs' := os_rename fs (backup_path path m) (backup_path path (m + 1))).
  assert (backup_path path m <> backup_path path (m + 1)) as Hne by (intros E; apply name_inj in E; lia).
  assert (forall p, fs' !! p = if decide (p = backup_path path (m + 1)) then fs !! backup_path path m
    else if decide (p = backup_path path m) then None else fs !! p) as Hfs'.
  { intros p. unfold fs'. rewrite lookup_rename by done. destruct (fs !! backup_path path m) eqn:E; repeat case_decide; subst; done. }
  destruct (IH fs') as (Hi & H1 & Ho); [lia| |].
  { rewrite Hfs'. replace (Z.of_nat n + 1) with m by lia. rewrite decide_False, decide_True by done. done. }
  split; [|split; [done|]].
  - intros i Hin. destruct (decide (i = m)) as [->|Him].
    + rewrite Ho, Hfs', decide_True; [done..|]. intros j Hj E. apply name_inj in E; lia.
    + rewrite Hi, Hfs', !decide_False; [done|intros E; apply name_inj in E; lia..|lia].
  - intros p Hp. rewrite Ho, Hfs', !decide_False; [done|apply Hp; lia..|]. intros i Hi'. apply Hp. lia.
Qed.

(** A rotation: the file becomes the first backup, each backup the next one and
    the last one is gone; other files stay. *)
Lemma lookup_rotate fs h :
  filepath h = path -> can_open path = true -> is_Some (fs !! path) -> 1 <= backup_count h < 2 ^ 31 - 1 ->
  exists fs', muggle_log_file_rotate_handler_rotate can_open fs h = (MUGGLE_OK, fs', set_offset 0 (set_fp (Some path) h)) /\
    fs' !! path = Some [] /\ fs' !! backup_path path 1 = fs !! path /\
    (forall i, 1 <= i < backup_count h -> fs' !! backup_path path (i + 1) = fs !! backup_path path i) /\
    (forall p, p <> path -> (forall i, 1 <= i <= backup_count h -> p <> backup_path path i) -> fs' !! p = fs !! p).
Proof.
  intros Hp Hopen [x Hx] Hc. unfold muggle_log_file_rotate_handler_rotate. cbv zeta. simpl filepath. simpl backup_count. rewrite Hp.
  rewrite (swrap_small 32 (backup_count h)), backup_name_eq by (unfold MUGGLE_MAX_PATH; lia).
  set (fs1 := if path_exists fs (backup_path path (backup_count h)) then _ else fs).
  assert (forall p, fs1 !! p = if decide (p = backup_path path (backup_count h)) then None else fs !! p) as H1.
  { intros p. unfold fs1, path_exists, os_remove. case_bool_decide as E; [rewrite lookup_delete; by repeat case_decide|].
    case_decide; [subst|done]. apply eq_None_not_Some. done. }
  set (n := Z.to_nat (backup_count h - 1)). assert (Z.of_nat n + 1 = backup_count h) as Hn by lia.
  destruct (lookup_shift n fs1) as (Hs & Hs1 & Hso); [lia|rewrite H1, decide_True; [done|by rewrite Hn]|].
  set (fs2 := shift_backups n path fs1) in *.
  replace (take _ (path ++ chars ".1")) with (backup_path path 1).
  2: { symmetry. apply (backup_name_eq MUGGLE_MAX_PATH 1); unfold MUGGLE_MAX_PATH; lia. }
  assert (fs2 !! path = Some x) as H2.
  { rewrite Hso, H1, decide_False; [done|..]; intros; apply not_eq_sym, name_path. }
  assert (forall p, os_rename fs2 path (backup_path path 1) !! p =
    if decide (p = backup_path path 1) then Some x else if decide (p = path) then None else fs2 !! p) as H3.
  { intros p. rewrite lookup_rename by (apply not_eq_sym, name_path). by rewrite H2. }
  unfold fopen_append. rewrite Hopen. unfold path_exists. rewrite bool_decide_false.
  2: { rewrite H3, decide_False, decide_True by (done || apply not_eq_sym, name_path). by intros [??]. }
  eexists. split; [reflexivity|]. split; [by rewrite lookup_insert_eq|].
  assert (forall i, 0 <= i -> path <> backup_path path i) as Hnp by (intros; apply not_eq_sym, name_path).
  split; [rewrite lookup_insert_ne, H3, decide_True by auto with lia; done|]. split.
  - intros i Hi. rewrite lookup_insert_ne, H3, !decide_False; [|apply not_eq_sym, Hnp; lia|intros E; apply name_inj in E; lia|apply Hnp; lia].
    rewrite Hs, H1, decide_False; [done|intros E; apply name_inj in E; lia|lia].
  - intros p Hpp Hpi. rewrite lookup_insert_ne, H3, !decide_False; [|done|apply Hpi; lia|done].
    rewrite Hso, H1, decide_False; [done|apply Hpi; lia|]. intros i Hi. apply Hpi. lia.
Qed.
(** ** The log files are the last part of the log *)

(** The current file holds [cur] and the backups [bs], newest first. *)
Record files (fs : filesystem) (h : muggle_log_file_rotate_handler) (cur : list Z) (bs : list (list Z)) : Prop := {
  files_path : filepath h = path;
  files_open : fp h = Some path;
  files_cur : fs !! path = Some cur;
  files_offset : offset h = zlen cur;
  files_small : zlen cur < max_bytes h;
  files_max : max_bytes h < 2 ^ 32;
  files_count : 1 <= backup_count h < 2 ^ 31 - 1;
  files_bs : zlen bs <= backup_count h;
  files_backups : forall i, 1 <= i <= backup_count h -> fs !! backup_path path i = bs @@ (i - 1)
}.

Lemma write_refines raw fs h cur bs fmt msg text :
  can_open path = true -> files fs h cur bs -> handler_fmt (handler h) = Some fmt -> formats raw fmt msg text ->
  exists fs' h', muggle_log_file_rotate_handler_write can_open raw fs h msg = Done (zlen text, fs', h') /\
    max_bytes h' = max_bytes h /\ backup_count h' = backup_count h /\ handler h' = handler h /\
    let st := logged (max_bytes h) (backup_count h) (cur, bs) text in files fs' h' st.1 st.2.
Proof.
  intros Hopen F Hfmt Hf. pose proof F as []. pose proof (zlen_nonneg text). pose proof (zlen_nonneg cur).
  pose proof (proj1 Hf) as Hlen. destruct (formats_read _ _ _ _ Hf) as (buf & E & Hread).
  unfold muggle_log_file_rotate_handler_write, muggle_log_handler_get_fmt. rewrite Hfmt, E. mcompute.
  destruct (Z.ltb_spec (zlen text) 0); [lia|]. rewrite files_open0, Hread. mcompute.
  unfold MUGGLE_LOG_MSG_MAX_LEN in *. rewrite files_offset0, (swrap_small 64) by lia.
  unfold logged, fwrite. rewrite files_cur0. simpl default. simpl fst. rewrite zlen_app.
  set (fs1 := <[path := cur ++ text]> fs). set (h1 := set_offset (zlen cur + zlen text) h).
  assert (forall p, p <> path -> fs1 !! p = fs !! p) as Hne by (intros; by apply lookup_insert_ne).
  change (offset h1) with (zlen cur + zlen text). rewrite Z.geb_leb.
  destruct (Z.leb_spec (max_bytes h1) (zlen cur + zlen text)) as [Hmax|Hmax]; change (max_bytes h1) with (max_bytes h) in Hmax.
  - destruct (lookup_rotate fs1 h1) as (fs' & -> & Hcur & Hb1 & Hi & _); try done.
    { unfold fs1. rewrite lookup_insert_eq. by eexists. }
    destruct (Z.ltb_spec (zlen cur + zlen text) (max_bytes h)); [lia|]. mcompute. eexists _, _. split; [reflexivity|].
    split_and!; try done. simpl fst. simpl snd. unfold fs1 in Hb1. rewrite lookup_insert_eq in Hb1.
    split; try done; try (simpl; unfold zlen; simpl; lia).
    + unfold zlen. rewrite length_take. simpl. unfold zlen in *. lia.
    + intros i Hi'. simpl backup_count in Hi'. rewrite zlookup_take by lia. case_decide; [|lia]. rewrite zlookup_cons by lia.
      case_decide; [replace i with 1 by lia; done|]. replace i with ((i - 1) + 1) at 1 by lia.
      rewrite Hi, Hne by (apply name_path || (simpl; lia)). rewrite files_backups0 by lia. f_equal; lia.
  - destruct (Z.ltb_spec (zlen cur + zlen text) (max_bytes h)); [|lia]. eexists _, _. split; [reflexivity|].
    split_and!; try done. unfold fst, snd. split; rewrite ?zlen_app; try done.
    + unfold fs1. by rewrite lookup_insert_eq.
    + intros i Hi. rewrite Hne by apply name_path. by apply files_backups0.
Qed.

Fixpoint write_all (raw : list Z) (fs : filesystem) (h : muggle_log_file_rotate_handler) (msgs : list muggle_log_msg)
  : outcome (filesystem * muggle_log_file_rotate_handler) :=
  match msgs with
  | [] => mret (fs, h)
  | msg :: msgs =>
      r ← muggle_log_file_rotate_handler_write can_open raw fs h msg;
      write_all raw (r.1.2) (r.2) msgs
  end.

Lemma write_all_files raw fmt msgs texts : Forall2 (formats raw fmt) msgs texts -> can_open path = true ->
  forall fs h cur bs, files fs h cur bs -> handler_fmt (handler h) = Some fmt -> Forall (full (max_bytes h)) bs ->
  exists fs' h', write_all raw fs h msgs = Done (fs', h') /\
    let st := fold_left (logged (max_bytes h) (backup_count h)) texts (cur, bs) in
    files fs' h' st.1 st.2 /\ Forall (full (max_bytes h)) st.2 /\
    max_bytes h' = max_bytes h /\ backup_count h' = backup_count h.
Proof.
  intros Hf Hopen. induction Hf as [|msg text msgs texts Hm _ IH]; intros fs h cur bs F Hfmt Hb; [by eexists _, _|].
  destruct (write_refines raw fs h cur bs fmt msg text) as (fs1 & h1 & E & E1 & E2 & E3 & F1); [done..|].
  cbn [write_all fold_left]. rewrite E. mcompute. simpl fst. simpl snd.
  pose proof (zlen_nonneg cur). pose proof (files_small _ _ _ _ F).
  destruct (logged_full (max_bytes h) (backup_count h) (cur, bs) text) as [_ Hb1]; [apply Hm|done|lia|done|].
  destruct (logged _ _ _ text) as [cur1 bs1]. rewrite <- E1 in Hb1 |- *. rewrite <- E2.
  apply (IH fs1 h1 cur1 bs1); [done|by rewrite E3|done].
Qed.
End rotation.

Section log_files.
Context (can_open : list Z -> bool) (curdir : Z * list Z) (dir_exists : list Z -> bool) (mkdir : list Z -> Z).
Context (path : list Z) (Hpath : zlen path <= 1000) (Hnz : Forall (fun c => c <> 0) path).
Context (Habs : muggle_path_isabs path = Done 1) (Hopen : can_open path = true).

Lemma copy_path_ok field : MUGGLE_MAX_PATH <= zlen field -> copy_path field path = Done path.
Proof.
  unfold MUGGLE_MAX_PATH. intros Hf. unfold copy_path.
  destruct (strncpy_fits field path [] 0 1023) as (l & E & El & Ht); [lia..|done|].
  change (MUGGLE_MAX_PATH - 1) with 1023. rewrite E. mcompute.
  rewrite <- (take_drop (Z.to_nat (0 + 1023)) l), Ht. simpl app. unfold zlen in *.
  destruct (Z.to_nat 1023 - length path)%nat as [|k] eqn:Ek; [lia|]. simpl replicate. rewrite <- (assoc_L (++)). by apply cstring_app.
Qed.

Lemma log_abs_path_abs log_path log_dir : log_abs_path curdir dir_exists mkdir log_path log_dir path = Done (0, path).
Proof. unfold log_abs_path. by rewrite Habs. Qed.

Lemma init_default_ok name :
  muggle_log_handler_init_default name 0 = (0, mkh MUGGLE_LOG_LEVEL_INFO (Some (muggle_log_fmt_get_simple name)) true).
Proof. reflexivity. Qed.

Lemma rotate_init_files name log_path log_dir field fs max count :
  MUGGLE_MAX_PATH <= zlen field -> fs !! path = None -> 0 < max < 2 ^ 32 -> 1 <= count < 2 ^ 31 - 1 ->
  (forall i, 1 <= i <= count -> fs !! backup_path path i = None) ->
  exists fs' h, muggle_log_file_rotate_handler_init can_open curdir dir_exists mkdir 0 name log_path log_dir field fs path max count =
      Done (MUGGLE_OK, fs', h) /\
    files path fs' h [] [] /\ max_bytes h = max /\ backup_count h = count /\
    handler_fmt (handler h) = Some (muggle_log_fmt_get_simple name).
Proof.
  intros Hf Hp Hm Hc Hb. unfold muggle_log_file_rotate_handler_init. rewrite init_default_ok. simpl negb. cbv iota zeta.
  rewrite log_abs_path_abs. mcompute. simpl negb. cbv iota. unfold fopen_append. rewrite Hopen, copy_path_ok by done. mcompute.
  unfold path_exists. rewrite bool_decide_false by (rewrite Hp; by intros []). rewrite lookup_insert_eq. simpl offset.
  change (zlen (default [] (Some []))) with 0. change (zlen []) with 0. rewrite Z.geb_leb. destruct (Z.leb_spec max 0); [lia|].
  eexists _, _. split; [reflexivity|]. split; [|done]. split; try done; try (simpl; unfold zlen; simpl; lia).
  - by rewrite lookup_insert_eq.
  - intros i Hi. rewrite lookup_insert_ne by (apply not_eq_sym, name_path).
    rewrite Hb by done. symmetry. apply zlookup_None. unfold zlen. simpl. lia.
Qed.

End log_files.

(** Three messages of 15 characters, a limit of 20 and one backup: the second
    message fills the file and the third goes to a new one. *)
Definition line : list Z := chars "INFO|a.c:3 - x" ++ [10].
Definition line_msg : muggle_log_msg :=
  mkmsg MUGGLE_LOG_LEVEL_INFO 0 0 0 (mkloc (chars "s/a.c") 3 (chars "f")) (Some (chars "x")).


(** With no backups asked for, one is kept. *)
Example no_backups_keeps_one :
  let path := chars "/a.log" in
  let h := mkr (mkh 0 None false) path (Some path) 20 0 25 in
  exists fs h', muggle_log_file_rotate_handler_rotate (fun _ => true) {[path := line]} h = (MUGGLE_OK, fs, h') /\
    fs !! backup_path path 1 = Some line.
Proof. eexists _, _. split; [reflexivity|]. vm_compute. reflexivity. Qed.

(** ** Rotation by time *)

Section time_rotation.
Context (can_open : list Z -> bool) (localtime gmtime : Z -> tm) (now : Z).
Context (path : list Z) (unit m : Z) (local : bool).
Context (Hunit : unit ∈ [MUGGLE_LOG_TIME_ROTATE_UNIT_SEC; MUGGLE_LOG_TIME_ROTATE_UNIT_MIN;
                         MUGGLE_LOG_TIME_ROTATE_UNIT_HOUR; MUGGLE_LOG_TIME_ROTATE_UNIT_DAY]).
Context (Hm : 0 < m < 2 ^ 32) (Hopen : forall p, can_open p = true).

(** The calendar that the handler uses gives non-negative fields. *)
Definition calendar (sec : Z) : tm := if local then localtime sec else gmtime sec.
Definition tm_range (t : tm) : Prop :=
  0 <= tm_sec t < 2 ^ 31 /\ 0 <= tm_min t < 2 ^ 31 /\ 0 <= tm_hour t < 2 ^ 31 /\ 0 <= tm_mday t < 2 ^ 31.
Context (Hcal : forall sec, tm_range (calendar sec)).

(** The period a time is in: files change when it does. *)
Definition period (t : tm) : list Z :=
  if unit =? MUGGLE_LOG_TIME_ROTATE_UNIT_SEC then [tm_year t; tm_mon t; tm_mday t; tm_hour t; tm_min t; tm_sec t / m]
  else if unit =? MUGGLE_LOG_TIME_ROTATE_UNIT_MIN then [tm_year t; tm_mon t; tm_mday t; tm_hour t; tm_min t / m]
  else if unit =? MUGGLE_LOG_TIME_ROTATE_UNIT_HOUR then [tm_year t; tm_mon t; tm_mday t; tm_hour t / m]
  else [tm_year t; tm_mon t; tm_mday t / m].

Lemma div_mod_ok x : 0 <= x < 2 ^ 31 -> div_mod x m = Done (x / m).
Proof.
  intros Hx. unfold div_mod. destruct (Z.eqb_spec m 0); [lia|]. rewrite wrap_small by lia.
  assert (0 <= x / m <= x) by (split; [apply Z.div_pos; lia|apply Z.div_le_upper_bound; nia]).
  by rewrite (swrap_small 32) by lia.
Qed.

Lemma detect_ok h msg sec : rotate_unit h = unit -> rotate_mod h = m -> use_local_time h = local ->
  tm_range (last_tm h) -> sec = (if tv_sec msg =? 0 then now else tv_sec msg) ->
  muggle_log_file_time_rot_handler_detect localtime gmtime now h msg =
    Done (if sec <=? last_sec h then (false, h)
          else (negb (bool_decide (period (calendar sec) = period (last_tm h))), set_last sec (calendar sec) h)).
Proof.
  intros Hu Hmm Hl (R1 & R2 & R3 & R4) Hs. unfold muggle_log_file_time_rot_handler_detect. rewrite <- Hs, Z.geb_leb.
  destruct (sec <=? last_sec h); [done|]. rewrite Hl. change (if local then localtime sec else gmtime sec) with (calendar sec).
  destruct (Hcal sec) as (C1 & C2 & C3 & C4). rewrite Hu, Hmm, !div_mod_ok by done. mcompute. unfold period.
  set (t := calendar sec) in *. set (t' := last_tm h) in *.
  repeat match goal with
  | |- context [if ?a =? ?b then Done _ else _] => destruct (Z.eqb_spec a b)
  end.
  5: { exfalso. set_solver. }
  all: do 2 f_equal.
  all: repeat match goal with |- context [negb (?a =? ?b)] => destruct (Z.eqb_spec a b); [|simpl; symmetry; apply negb_true_iff, bool_decide_false; congruence] end.
  all: simpl; symmetry; apply negb_false_iff, bool_decide_true; congruence.
Qed.

(** The name of the file for a time. *)
Definition time_file (sec : Z) : list Z := default [] (time_name path unit (calendar sec)).

Lemma time_name_ok sec : time_name path unit (calendar sec) = Some (time_file sec).
Proof.
  unfold time_file, time_name. repeat match goal with |- context [if ?a =? ?b then _ else _] => destruct (Z.eqb_spec a b); [done|] end.
  exfalso. set_solver.
Qed.

(** The open file has the name of the time [first], in the period of the last time. *)
Record trot (fs : filesystem) (h : muggle_log_file_time_rot_handler) (first last : Z) : Prop := {
  trot_path : tr_path h = path;
  trot_unit : rotate_unit h = unit;
  trot_mod : rotate_mod h = m;
  trot_local : use_local_time h = local;
  trot_last : last_sec h = last;
  trot_tm : last_tm h = calendar last;
  trot_fp : tr_fp h = Some (time_file first);
  trot_file : is_Some (fs !! time_file first);
  trot_period : period (calendar first) = period (calendar last)
}.

Definition msg_sec (msg : muggle_log_msg) : Z := if tv_sec msg =? 0 then now else tv_sec msg.

(** The time of the open file and the last time, after a message at [sec]. *)
Definition tick (first last sec : Z) : Z * Z :=
  if sec <=? last then (first, last)
  else if bool_decide (period (calendar sec) = period (calendar last)) then (first, sec)
  else (sec, sec).

Lemma lookup_fwrite fs p q bytes :
  default [] (fwrite fs p bytes !! q) = default [] (fs !! q) ++ (if decide (q = p) then bytes else []).
Proof. unfold fwrite. rewrite lookup_insert. repeat case_decide; subst; by rewrite ?app_nil_r. Qed.

Lemma time_write_refines raw fs h first last fmt msg text :
  trot fs h first last -> handler_fmt (tr_base h) = Some fmt -> formats raw fmt msg text ->
  exists fs' h', muggle_log_file_time_rot_handler_write can_open localtime gmtime now raw fs h msg = Done (zlen text, fs', h') /\
    tr_base h' = tr_base h /\
    trot fs' h' (tick first last (msg_sec msg)).1 (tick first last (msg_sec msg)).2 /\
    forall p, default [] (fs' !! p) = default [] (fs !! p) ++ (if decide (p = time_file first) then text else []).
Proof.
  intros [] Hfmt Hf. destruct (formats_read _ _ _ _ Hf) as (buf & E & Hread). pose proof (zlen_nonneg text).
  unfold muggle_log_file_time_rot_handler_write, muggle_log_handler_get_fmt. rewrite Hfmt, E. mcompute.
  destruct (Z.ltb_spec (zlen text) 0); [lia|]. rewrite trot_fp0, Hread. mcompute.
  rewrite (detect_ok h msg (msg_sec msg)) by (done || (rewrite trot_tm0; apply Hcal)). rewrite trot_last0. mcompute.
  unfold tick. set (fs1 := fwrite fs (time_file first) text).
  assert (is_Some (fs1 !! time_file first)) as Hfs1 by (unfold fs1, fwrite; rewrite lookup_insert_eq; by eexists).
  destruct (msg_sec msg <=? last).
  { eexists _, _. split; [done|]. split; [done|]. split; [by split|]. intros p. apply lookup_fwrite. }
  rewrite trot_tm0. case_bool_decide as Hp; simpl negb; cbv iota.
  { eexists _, _. split; [done|]. split; [done|]. split; [split; simpl; congruence|]. intros p. apply lookup_fwrite. }
  unfold muggle_log_file_time_rot_handler_rotate. simpl tr_path. simpl rotate_unit. simpl last_tm.
  rewrite trot_path0, trot_unit0, time_name_ok. unfold fopen_append. rewrite Hopen. mcompute.
  eexists _, _. split; [done|]. split; [done|]. split.
  - split; simpl; try done. unfold path_exists. case_bool_decide; [done|]. rewrite lookup_insert_eq. by eexists.
  - intros p. rewrite <- lookup_fwrite. fold fs1. unfold path_exists. case_bool_decide as Hx; [done|].
    rewrite lookup_insert. case_decide; [subst|done]. apply eq_None_not_Some in Hx. by rewrite Hx.
Qed.

(** For each message, the time whose file it goes to. *)
Fixpoint places (first last : Z) (secs : list Z) : list Z :=
  match secs with
  | [] => []
  | sec :: secs => first :: places (tick first last sec).1 (tick first last sec).2 secs
  end.

Lemma tick_period first last sec : period (calendar first) = period (calendar last) ->
  let st := tick first last sec in period (calendar st.1) = period (calendar st.2) /\ st.2 = Z.max last sec.
Proof.
  intros Hp. unfold tick. destruct (Z.leb_spec sec last); [simpl; split; [done|lia]|].
  case_bool_decide; simpl; (split; [congruence|lia]).
Qed.

Lemma places_period secs : forall first last i t, period (calendar first) = period (calendar last) ->
  places first last secs !! i = Some t ->
  period (calendar t) = period (calendar (fold_left Z.max (take i secs) last)).
Proof.
  induction secs as [|sec secs IH]; intros first last i t Hp Hi; [done|]. destruct i as [|i]; simpl in Hi |- *; [by simplify_eq|].
  destruct (tick_period first last sec Hp) as [Hp' <-]. by apply (IH _ _ i t Hp').
Qed.

Fixpoint time_write_all (raw : list Z) (fs : filesystem) (h : muggle_log_file_time_rot_handler) (msgs : list muggle_log_msg)
  : outcome (filesystem * muggle_log_file_time_rot_handler) :=
  match msgs with
  | [] => mret (fs, h)
  | msg :: msgs =>
      r ← muggle_log_file_time_rot_handler_write can_open localtime gmtime now raw fs h msg;
      time_write_all raw (r.1.2) (r.2) msgs
  end.

(** The texts that go to the file [p], in order. *)
Definition placed (p : list Z) (ts : list Z) (texts : list (list Z)) : list Z :=
  concat (zip_with (fun t text => if decide (p = time_file t) then text else []) ts texts).

Lemma time_write_all_files raw fmt msgs texts : Forall2 (formats raw fmt) msgs texts ->
  forall fs h first last, trot fs h first last -> handler_fmt (tr_base h) = Some fmt ->
  exists fs' h', time_write_all raw fs h msgs = Done (fs', h') /\
    forall p, default [] (fs' !! p) = default [] (fs !! p) ++ placed p (places first last (msg_sec <$> msgs)) texts.
Proof.
  induction 1 as [|msg text msgs texts Hf _ IH]; intros fs h first last T Hfmt.
  { eexists _, _. split; [done|]. intros p. by rewrite app_nil_r. }
  destruct (time_write_refines raw fs h first last fmt msg text) as (fs1 & h1 & E & Hb & T1 & H1); [done..|].
  cbn [time_write_all]. rewrite E. mcompute. simpl fst. simpl snd.
  destruct (IH fs1 h1 _ _ T1) as (fs2 & h2 & -> & H2); [by rewrite Hb|].
  eexists _, _. split; [done|]. intros p. rewrite H2, H1. unfold placed. simpl. by rewrite <- (assoc_L (++)).
Qed.

Context (curdir : Z * list Z) (dir_exists : list Z -> bool) (mkdir : list Z -> Z).
Context (Hpath : zlen path <= 1000) (Hnz : Forall (fun c => c <> 0) path) (Habs : muggle_path_isabs path = Done 1).

Lemma time_init_files name log_path log_dir field fs : MUGGLE_MAX_PATH <= zlen field ->
  exists fs' h, muggle_log_file_time_rot_handler_init can_open curdir dir_exists mkdir 0 localtime gmtime now
      name log_path log_dir field local fs path unit m local = Done (MUGGLE_OK, fs', h) /\
    trot fs' h now now /\ handler_fmt (tr_base h) = Some (muggle_log_fmt_get_simple name) /\
    forall p, default [] (fs' !! p) = default [] (fs !! p).
Proof.
  intros Hf. unfold muggle_log_file_time_rot_handler_init. rewrite init_default_ok. simpl negb. cbv iota zeta.
  rewrite log_abs_path_abs by done. mcompute. simpl negb. cbv iota. rewrite copy_path_ok by done. mcompute.
  unfold muggle_log_file_time_rot_handler_rotate. simpl tr_path. simpl rotate_unit. simpl last_tm. fold (calendar now).
  rewrite time_name_ok. unfold fopen_append. rewrite Hopen. mcompute. simpl negb. cbv iota.
  eexists _, _. split; [done|]. unfold path_exists. split; [split; simpl; try done|split; [done|]].
  - case_bool_decide; [done|]. rewrite lookup_insert_eq. by eexists.
  - intros p. case_bool_decide as Hx; [done|]. rewrite lookup_insert. case_decide; [subst|done].
    apply eq_None_not_Some in Hx. by rewrite Hx.
Qed.

(** A handler that rotates by time, opened when [use_local_time] already held
    the value it is given, and any sequence of messages.  Every text is appended
    to exactly one file, in the order of the messages, and no file loses anything;
    message [i] goes to the file named after a time in the period (the chosen
    number of seconds, minutes, hours or days) of the latest time seen before
    message [i]: the message that opens a period still goes to the file of the
    one before. *)
Theorem log_time_rotate_refines raw name log_path log_dir field fs msgs texts :
  MUGGLE_MAX_PATH <= zlen field -> Forall2 (formats raw (muggle_log_fmt_get_simple name)) msgs texts ->
  let ts := places now now (msg_sec <$> msgs) in
  exists fs1 h1 fs2 h2,
    muggle_log_file_time_rot_handler_init can_open curdir dir_exists mkdir 0 localtime gmtime now
      name log_path log_dir field local fs path unit m local = Done (MUGGLE_OK, fs1, h1) /\
    time_write_all raw fs1 h1 msgs = Done (fs2, h2) /\
    (forall p, default [] (fs2 !! p) = default [] (fs !! p) ++ placed p ts texts) /\
    (forall i t, ts !! i = Some t ->
      period (calendar t) = period (calendar (fold_left Z.max (take i (msg_sec <$> msgs)) now))).
Proof.
  intros Hf Ht ts. destruct (time_init_files name log_path log_dir field fs Hf) as (fs1 & h1 & E1 & T1 & F1 & H1).
  destruct (time_write_all_files raw _ msgs texts Ht fs1 h1 now now T1 F1) as (fs2 & h2 & E2 & H2).
  exists fs1, h1, fs2, h2. split_and!; [done..| |].
  - intros p. by rewrite H2, H1.
  - intros i t. by apply places_period.
Qed.
End time_rotation.

(** A calendar of one day, and a message of some second. *)
Definition clock (sec : Z) : tm := mktm 100 0 1 ((sec / 3600) mod 24) ((sec / 60) mod 60) (sec mod 60).
Definition line_at (sec : Z) : muggle_log_msg :=
  mkmsg MUGGLE_LOG_LEVEL_INFO sec 0 0 (mkloc (chars "s/a.c") 3 (chars "f")) (Some (chars "x")).

Lemma log_time_rotate_refines_witness :
  let arr := replicate 1024 0 in let raw := replicate 4096 0 in let path := chars "/a.log" in
  exists fs1 h1 fs2 h2,
    muggle_log_file_time_rot_handler_init (fun _ => true) (0, []) (fun _ => true) (fun _ => 0) 0 clock clock 30
      arr arr arr arr false ∅ path MUGGLE_LOG_TIME_ROTATE_UNIT_MIN 1 false = Done (MUGGLE_OK, fs1, h1) /\
    time_write_all (fun _ => true) clock clock 30 raw fs1 h1 [line_at 40; line_at 65; line_at 70] = Done (fs2, h2) /\
    default [] (fs2 !! chars "/a.log.20000101T0000") = line ++ line /\
    default [] (fs2 !! chars "/a.log.20000101T0001") = line.
Proof.
  intros arr raw path.
  destruct (log_time_rotate_refines (fun _ => true) clock clock 30 path MUGGLE_LOG_TIME_ROTATE_UNIT_MIN 1 false) with
    (curdir := (0, [] : list Z)) (dir_exists := fun _ : list Z => true) (mkdir := fun _ : list Z => 0)
    (raw := raw) (name := arr) (log_path := arr) (log_dir := arr) (field := arr) (fs := ∅ : filesystem)
    (msgs := [line_at 40; line_at 65; line_at 70]) (texts := [line; line; line])
    as (fs1 & h1 & fs2 & h2 & H1 & H2 & H3 & _); try done.
  - set_solver.
  - intros sec. unfold tm_range, calendar, clock. simpl.
    pose proof (Z.mod_pos_bound sec 60). pose proof (Z.mod_pos_bound (sec / 60) 60). pose proof (Z.mod_pos_bound (sec / 3600) 24). lia.
  - repeat constructor; by vm_compute.
  - repeat (constructor; [split; [by vm_compute|]; eexists; vm_compute; reflexivity|]). constructor.
  - exists fs1, h1, fs2, h2. split; [done|]. split; [done|]. rewrite !H3. split; vm_compute; reflexivity.
Defined.

(** The first file is named by the calendar that the uninitialised field selects. *)
Example time_init_reads_old_field :
  let arr := replicate 1024 0 in
  (r ← muggle_log_file_time_rot_handler_init (fun _ => true) (0, []) (fun _ => true) (fun _ => 0) 0
         (fun sec => clock (sec + 7200)) clock 30 arr arr arr arr true ∅ (chars "/a.log") MUGGLE_LOG_TIME_ROTATE_UNIT_HOUR 1 false;
   mret (r.1.1, tr_fp (r.2), use_local_time (r.2))) = Done (MUGGLE_OK, Some (chars "/a.log.20000101T02"), false).
Proof. vm_compute. reflexivity. Qed.

(** The level of the file handler stays at INFO whatever level is asked for: a
    debug message reaches the console only. *)
Example simple_init_file_level :
  let arr := replicate 1024 0 in
  (r ← muggle_log_simple_init (fun _ => true) (0, chars "/t") (fun _ => true) (fun _ => 0) 0 (0, chars "/bin/app")
         arr ∅ ∅ muggle_logger_default MUGGLE_LOG_LEVEL_DEBUG MUGGLE_LOG_LEVEL_DEBUG;
   let '(ret, _, s, logger, h) := (r : Z * filesystem * store * muggle_logger * option muggle_log_file_rotate_handler) in
   l ← muggle_sync_logger_log s logger (5, 6) 7 MUGGLE_LOG_LEVEL_DEBUG here (chars "up");
   mret (ret, option_map filepath h, map fst l)) = Done (0, Some (chars "/t/log/app.log"), [CONSOLE]).
Proof. vm_compute. reflexivity. Qed.
End LogFile.
