(* ===== verification/Os.v ===== *)
(** muggle/c/os/os.c, the branch for POSIX systems: creating a directory with the
    directories above it, the path of the process, and the calls (also
    muggle_path_exists of path.c) that only
    translate the result of the system.  The file system and its calls are
    arguments; [DirLaws] states what mkdir promises. *)

From Stdlib Require Import ZArith Lia String Ascii.
From stdpp Require Import base gmap sets list numbers.
From S2P Require Import Prelude BaseUtils Str Path Log.
Import Str(print_int, print_digits, print_len) Path(SLASH, cstring, cstring_app, cstring_terminated) Log(chars, MUGGLE_MAX_PATH).

Open Scope Z_scope.

Module Os.

Definition EEXIST : Z := 17.

Section os.
(** The state of the file system, and [mkdir(path, S_IRWXU)]: 0 or the error. *)
Context {F : Type} (mkdir : list Z -> F -> Z * F).

(** [if (mkdir(...) != 0) { if (errno != EEXIST) return MUGGLE_ERR_SYS_CALL; }] *)
Definition make_dir (path : list Z) (fs : F) : Z * F :=
  let (errno, fs) := mkdir path fs in
  ((if negb (errno =? 0) && negb (errno =? EEXIST) then MUGGLE_ERR_SYS_CALL else MUGGLE_OK), fs).

(** One round of the loop at [p] in the array [_path]. *)
Definition mkdir_body (st : Z * list Z * F) : outcome ((Z * list Z * F) + (Z * list Z * F)) :=
  let '(p, _path, fs) := st in
  c ← aget _path p;
  if c =? 0 then mret (inr (MUGGLE_OK, _path, fs))
  else if c =? SLASH then
    _path ← aset _path p 0;
    s ← cstring _path;
    let (ret, fs) := make_dir s fs in
    if negb (ret =? MUGGLE_OK) then mret (inr (ret, _path, fs))
    else _path ← aset _path p SLASH; mret (inl (p + 1, _path, fs))
  else mret (inl (p + 1, _path, fs)).

(** [_path] is the local array. *)
Definition muggle_os_mkdir (_path path : list Z) (fs : F) : outcome (Z * F) :=
  let len := zlen path in
  if len =? 0 then mret (MUGGLE_OK, fs)
  else if len >? MUGGLE_MAX_PATH - 1 then mret (MUGGLE_ERR_INVALID_PARAM, fs)
  else
    _path ← mem_write _path 0 (path ++ [0]);
    r ← loop (S (length path)) mkdir_body (1, _path, fs);
    let '(ret, _path, fs) := (r : Z * list Z * F) in
    if negb (ret =? MUGGLE_OK) then mret (ret, fs)
    else s ← cstring _path; mret (make_dir s fs).

(** ** The directories above a path *)

(** The text before each '/' but the first character, and the path. *)
Definition cuts (path : list Z) (j n : nat) : list (list Z) :=
  (fun j => take j path) <$> filter (fun j => path !! j = Some SLASH) (seq j n).
Definition dir_prefixes (path : list Z) : list (list Z) := cuts path 1 (length path - 1) ++ [path].

(** They are made in order, up to the first that fails. *)
Fixpoint make_dirs (l : list (list Z)) (fs : F) : Z * F :=
  match l with
  | [] => (MUGGLE_OK, fs)
  | p :: l => let (ret, fs) := make_dir p fs in if negb (ret =? MUGGLE_OK) then (ret, fs) else make_dirs l fs
  end.

Lemma make_dirs_app l1 : forall l2 fs, make_dirs (l1 ++ l2) fs =
  let (ret, fs) := make_dirs l1 fs in if negb (ret =? MUGGLE_OK) then (ret, fs) else make_dirs l2 fs.
Proof.
  induction l1 as [|p l1 IH]; intros l2 fs; [done|]. simpl. destruct (make_dir p fs) as [ret fs'].
  destruct (ret =? MUGGLE_OK) eqn:E; simpl; [apply IH|by rewrite E].
Qed.

Lemma make_dirs_one p fs : make_dirs [p] fs = make_dir p fs.
Proof.
  simpl. unfold make_dir. destruct (mkdir p fs) as [e fs']. by destruct (_ && _).
Qed.

Lemma cuts_S path j n : cuts path j (S n) = (if decide (path !! j = Some SLASH) then [take j path] else []) ++ cuts path (S j) n.
Proof. unfold cuts. simpl. rewrite filter_cons. by destruct (decide _). Qed.

(** The loop, from [j] on. *)
Lemma mkdir_loop_spec path t : Forall (fun c => c <> 0) path -> forall n j fs fuel, (j + n = length path)%nat -> (n < fuel)%nat ->
  exists buf, loop fuel mkdir_body (Z.of_nat j, path ++ 0 :: t, fs) =
      Done ((make_dirs (cuts path j n) fs).1, buf, (make_dirs (cuts path j n) fs).2) /\
    ((make_dirs (cuts path j n) fs).1 = MUGGLE_OK -> buf = path ++ 0 :: t).
Proof.
  intros Hz. induction n as [|n IH]; intros j fs [|fuel] Hj Hf; try lia.
  - exists (path ++ 0 :: t). split; [|done]. simpl. rewrite (aget_Some _ _ 0); [done|].
    rewrite zlookup_app_r by (unfold zlen; lia). rewrite zlookup_nonneg by (unfold zlen; lia). unfold zlen.
    by replace (Z.to_nat (Z.of_nat j - Z.of_nat (length path))) with 0%nat by lia.
  - destruct (lookup_lt_is_Some_2 path j) as [c Hc]; [lia|]. assert (c <> 0) as Hc0 by (by eapply Forall_lookup_1 in Hz).
    assert ((path ++ 0 :: t) @@ Z.of_nat j = Some c) as Hget.
    { rewrite zlookup_app_l by (unfold zlen; lia). rewrite zlookup_nonneg by lia. by rewrite Nat2Z.id. }
    rewrite cuts_S, Hc. cbn [loop]. unfold mkdir_body at 2. mcompute. rewrite (aget_Some _ _ _ Hget).
    destruct (Z.eqb_spec c 0); [done|]. replace (Z.of_nat j + 1) with (Z.of_nat (S j)) by lia.
    destruct (Z.eqb_spec c SLASH) as [->|Hn].
    + rewrite decide_True by done. pose proof (zlookup_lt _ _ _ Hget) as Hr. rewrite aset_zinsert by done.
      assert (cstring (zinsert (Z.of_nat j) 0 (path ++ 0 :: t)) = Done (take j path)) as ->.
      { apply cstring_terminated; [by apply Forall_take|lia|]. left. unfold zlen. rewrite Nat2Z.id, length_take, take_app_le by lia. split; [lia|done]. }
      simpl. destruct (make_dir (take j path) fs) as [ret fs'].
      destruct (ret =? MUGGLE_OK) eqn:E; simpl; [|eexists; split; [reflexivity|simpl; intros ->; done]].
      rewrite aset_zinsert by (by rewrite zlen_zinsert).
      rewrite zinsert_zinsert_eq, (zinsert_id _ _ SLASH) by done. apply IH; lia.
    + rewrite decide_False by (by intros [= ->]). simpl. apply IH; lia.
Qed.

Lemma os_mkdir_spec _path path fs : Forall (fun c => c <> 0) path -> MUGGLE_MAX_PATH <= zlen _path ->
  muggle_os_mkdir _path path fs =
    Done (if zlen path =? 0 then (MUGGLE_OK, fs)
          else if zlen path >? MUGGLE_MAX_PATH - 1 then (MUGGLE_ERR_INVALID_PARAM, fs)
          else make_dirs (dir_prefixes path) fs).
Proof.
  intros Hz Hbuf. unfold muggle_os_mkdir. destruct (Z.eqb_spec (zlen path) 0) as [|Hne]; [done|].
  destruct (Z.gtb_spec (zlen path) (MUGGLE_MAX_PATH - 1)); [done|]. pose proof (zlen_nonneg path).
  rewrite mem_write_ok by (try rewrite zlen_app, zlen_cons; unfold zlen in *; simpl; lia).
  assert (exists t, overwrite 0 (path ++ [0]) _path = path ++ 0 :: t) as [t ->].
  { eexists. unfold overwrite. simpl. rewrite <- (assoc_L (++)). simpl. reflexivity. }
  destruct (mkdir_loop_spec path t Hz (length path - 1) 1 fs (S (length path))) as (buf & Hl & Hb); [unfold zlen in *; lia|lia|].
  change 1 with (Z.of_nat 1). simpl mbind. rewrite (bind_done _ _ _ Hl). unfold dir_prefixes. rewrite make_dirs_app.
  destruct (make_dirs (cuts path 1 (length path - 1)) fs) as [ret fs']. cbn [fst snd] in *.
  destruct (Z.eqb_spec ret MUGGLE_OK) as [Hr|]; cbn [negb]; [|done]. rewrite (Hb Hr).
  rewrite (bind_done _ _ _ (cstring_app path t Hz)), make_dirs_one. done.
Qed.

(** What mkdir promises: after success, and when the error is EEXIST, there is a
    file of that name; no file is taken away.  (POSIX: EEXIST is also the error for
    a file that is not a directory.) *)
Class DirLaws (there : F -> list Z -> Prop) : Prop := {
  mkdir_makes p fs fs' : mkdir p fs = (0, fs') -> there fs' p;
  mkdir_exists p fs fs' : mkdir p fs = (EEXIST, fs') -> there fs' p;
  mkdir_keeps p q fs : there fs q -> there (mkdir p fs).2 q
}.

Section laws.
Context (there : F -> list Z -> Prop) `{!DirLaws there}.

Lemma make_dir_keeps p q fs : there fs q -> there (make_dir p fs).2 q.
Proof. intros H. apply (mkdir_keeps p) in H. unfold make_dir. by destruct (mkdir p fs). Qed.

Lemma make_dir_ok p fs fs' : make_dir p fs = (MUGGLE_OK, fs') -> there fs' p.
Proof.
  unfold make_dir. destruct (mkdir p fs) as [e fs1] eqn:E. destruct (Z.eqb_spec e 0) as [->|]; [|destruct (Z.eqb_spec e EEXIST) as [->|]]; simpl; intros [= <-].
  - by eapply mkdir_makes.
  - by eapply mkdir_exists.
Qed.

(** The directories before the one that fails are there when it is tried, and
    nothing is tried behind it. *)
Definition stops_at (l : list (list Z)) (fs' : F) : Prop :=
  exists l1 p l2 fs1, l = l1 ++ p :: l2 /\ Forall (there fs1) l1 /\
    (mkdir p fs1).1 <> 0 /\ (mkdir p fs1).1 <> EEXIST /\ fs' = (mkdir p fs1).2.

Lemma make_dirs_result l2 : forall l1 fs, Forall (there fs) l1 ->
  let (ret, fs') := make_dirs l2 fs in
  (ret = MUGGLE_OK /\ Forall (there fs') (l1 ++ l2)) \/ (ret = MUGGLE_ERR_SYS_CALL /\ stops_at (l1 ++ l2) fs').
Proof.
  induction l2 as [|p l2 IH]; intros l1 fs H1; simpl; [left; by rewrite app_nil_r|].
  pose proof (fun q => make_dir_keeps p q fs) as Hk. pose proof (make_dir_ok p fs) as Hok.
  destruct (make_dir p fs) as [ret fs'] eqn:E. destruct (Z.eqb_spec ret MUGGLE_OK) as [->|Hr]; simpl.
  - specialize (IH (l1 ++ [p]) fs'). rewrite <- (assoc_L (++)) in IH. apply IH. apply Forall_app. split.
    + eapply Forall_impl; [exact Hk|exact H1].
    + apply Forall_singleton, Hok, eq_refl.
  - right. unfold make_dir in E. destruct (mkdir p fs) as [e fs1] eqn:Em.
    destruct (Z.eqb_spec e 0); [by simplify_eq/=|]. destruct (Z.eqb_spec e EEXIST); [by simplify_eq/=|]. simplify_eq/=.
    split; [done|]. exists l1, p, l2, fs. by rewrite Em.
Qed.

(** C40: creating a directory.  Every argument ends without an access outside the
    array; a path that does not fit it is refused and nothing is called.  The calls
    are made for the text before each '/' and then for the path: with success all of
    them are there; otherwise one of them could not be made, although all before it
    were there, and the rest is not tried.  It succeeds when the system refuses none
    whose directories above are there. *)
Theorem os_mkdir_creates _path path fs :
  Forall (fun c => c <> 0) path -> MUGGLE_MAX_PATH <= zlen _path ->
  exists ret fs', muggle_os_mkdir _path path fs = Done (ret, fs') /\
    (path = [] -> ret = MUGGLE_OK /\ fs' = fs) /\
    (MUGGLE_MAX_PATH <= zlen path -> ret = MUGGLE_ERR_INVALID_PARAM /\ fs' = fs) /\
    (path <> [] -> zlen path < MUGGLE_MAX_PATH ->
      (ret = MUGGLE_OK /\ Forall (there fs') (dir_prefixes path)) \/
      (ret = MUGGLE_ERR_SYS_CALL /\ stops_at (dir_prefixes path) fs')) /\
    (zlen path < MUGGLE_MAX_PATH ->
      (forall l1 p l2 fs1, dir_prefixes path = l1 ++ p :: l2 -> Forall (there fs1) l1 ->
        (mkdir p fs1).1 = 0 \/ (mkdir p fs1).1 = EEXIST) -> ret = MUGGLE_OK).
Proof.
  intros Hz Hbuf. rewrite os_mkdir_spec by done. pose proof (make_dirs_result (dir_prefixes path) [] fs (Forall_nil_2 _)) as H.
  destruct path as [|c path]; [exists MUGGLE_OK, fs; by split_and!|]. simpl app in H. destruct (Z.eqb_spec (zlen (c :: path)) 0) as [He|].
  { rewrite zlen_cons in He. pose proof (zlen_nonneg path). lia. }
  destruct (Z.gtb_spec (zlen (c :: path)) (MUGGLE_MAX_PATH - 1)).
  { exists MUGGLE_ERR_INVALID_PARAM, fs. split_and!; intros; try done; lia. }
  destruct (make_dirs (dir_prefixes (c :: path)) fs) as [ret fs']. exists ret, fs'. split_and!; try (intros; (done || lia)).
  intros _ Hs. destruct H as [[-> _]|[_ (l1 & p & l2 & fs1 & El & H1 & Hn & He & _)]]; [done|]. by destruct (Hs l1 p l2 fs1 El H1).
Qed.
End laws.
End os.

(** ** A tree of directories *)

(** The names of a path. *)
Definition names (path : list Z) : list (list Z) :=
  let fix go (w : list Z) (path : list Z) :=
    match path with
    | [] => [w]
    | c :: path => if c =? SLASH then w :: go [] path else go (w ++ [c]) path
    end in
  filter (fun w => w <> []) (go [] path).

Definition ENOENT : Z := 2.
Definition tree_there (fs : gset (list (list Z))) (path : list Z) : Prop := names path = [] \/ names path ∈ fs.
#[global] Instance tree_there_dec fs path : Decision (tree_there fs path) := _.

Definition tree_mkdir (path : list Z) (fs : gset (list (list Z))) : Z * gset (list (list Z)) :=
  let l := names path in
  if decide (tree_there fs path) then (EEXIST, fs)
  else if decide (removelast l = [] \/ removelast l ∈ fs) then (0, {[l]} ∪ fs)
  else (ENOENT, fs).

#[global] Instance tree_laws : DirLaws tree_mkdir tree_there.
Proof.
  split; unfold tree_mkdir, tree_there.
  - intros p fs fs'. destruct (decide (names p = [] \/ names p ∈ fs)); [done|]. destruct (decide _); [|done]. intros [= <-]. set_solver.
  - intros p fs fs'. destruct (decide (names p = [] \/ names p ∈ fs)); [by intros [= <-]|]. by destruct (decide _).
  - intros p q fs Hq. destruct (decide (names p = [] \/ names p ∈ fs)); [done|]. destruct (decide _); simpl; set_solver.
Qed.

(** Both the directory and the one above it are made, also with a '/' at the end. *)
Example os_mkdir_run :
  muggle_os_mkdir tree_mkdir (replicate 1024 1) (chars "/a/b/") {[ [chars "x"] ]} =
    Done (MUGGLE_OK, {[ [chars "a"; chars "b"] ]} ∪ ({[ [chars "a"] ]} ∪ {[ [chars "x"] ]})).
Proof. vm_compute. reflexivity. Qed.

Lemma os_mkdir_creates_witness :
  let path := chars "/a/b" in
  Forall (fun c => c <> 0) path /\ MUGGLE_MAX_PATH <= zlen (replicate 1024 1) /\ path <> [] /\ zlen path < MUGGLE_MAX_PATH /\
  exists ret fs', muggle_os_mkdir tree_mkdir (replicate 1024 1) path ∅ = Done (ret, fs') /\
    ((ret = MUGGLE_OK /\ Forall (tree_there fs') (dir_prefixes path)) \/
     (ret = MUGGLE_ERR_SYS_CALL /\ stops_at tree_mkdir tree_there (dir_prefixes path) fs')).
Proof.
  intros path.
  assert (Forall (fun c => c <> 0) path) as Hz by (by repeat constructor).
  assert (MUGGLE_MAX_PATH <= zlen (replicate 1024 1)) as Hb by (vm_compute; discriminate).
  assert (path <> []) as Hp by done. assert (zlen path < MUGGLE_MAX_PATH) as Hl by reflexivity.
  destruct (os_mkdir_creates tree_mkdir tree_there (replicate 1024 1) path ∅ Hz Hb) as (ret & fs' & E & _ & _ & H & _).
  split_and!; [done..|]. exists ret, fs'. split; [exact E|]. by apply H.
Defined.

(** ** The path of the process *)

(** [snprintf(sz_tmp, 63, "/proc/%ld/exe", pid)] *)
Definition exe_link (pid : Z) : list Z := take 62 (chars "/proc/" ++ print_int 10 pid ++ chars "/exe").

(** [readlink] gives the target of a link, of which it writes at most [size - 1]
    bytes and no zero, or fails. *)
Definition muggle_os_process_path (pid : Z) (readlink : list Z -> option (list Z)) (path : list Z) (size : Z) : outcome (Z * list Z) :=
  match readlink (exe_link pid) with
  | None => mret (MUGGLE_ERR_SYS_CALL, path)
  | Some target =>
      let bytes := take (Z.to_nat (u32 (size - 1))) target in
      path ← mem_write path 0 bytes;
      path ← aset path (zlen bytes) 0;
      mret (MUGGLE_OK, path)
  end.

Lemma exe_link_whole pid : 0 <= pid < 2 ^ 31 -> exe_link pid = chars "/proc/" ++ print_int 10 pid ++ chars "/exe".
Proof.
  intros Hp. unfold exe_link. apply firstn_all2. unfold print_int. destruct (Z.ltb_spec pid 0); [lia|].
  assert (zlen (print_digits 64 10 pid) <= 10) as Hd by (apply (print_len 64 pid 10); [split; [lia|transitivity (2 ^ 31); [lia|done]]|lia]).
  generalize dependent (print_digits 64 10 pid). intros d Hd. rewrite !length_app. unfold zlen in Hd. simpl. lia.
Qed.

(** The string in the buffer is the target, cut to what fits. *)
Lemma os_process_path_fits pid readlink path size target :
  1 <= size < 2 ^ 32 -> size <= zlen path -> Forall (fun c => c <> 0) target -> readlink (exe_link pid) = Some target ->
  exists path', muggle_os_process_path pid readlink path size = Done (MUGGLE_OK, path') /\
    cstring path' = Done (take (Z.to_nat (size - 1)) target).
Proof.
  intros Hs Hp Hz Ht. unfold muggle_os_process_path. rewrite Ht, wrap_small by lia.
  set (w := take (Z.to_nat (size - 1)) target). assert (zlen w <= size - 1) as Hw by (unfold zlen, w; rewrite length_take; lia).
  pose proof (zlen_nonneg w). rewrite mem_write_ok by lia. simpl. assert (zlen (overwrite 0 w path) = zlen path) as Hl by (apply zlen_overwrite; lia).
  rewrite aset_zinsert by lia. eexists. split; [reflexivity|]. apply cstring_terminated; [by apply Forall_take|lia|].
  left. split; [done|]. unfold overwrite, zlen. simpl. rewrite Nat2Z.id. apply take_app_length.
Qed.

(** ** Calls that are passed on *)
Section calls.
Context {F : Type} (access : list Z -> F -> Z) (getcwd : Z -> F -> option (list Z)) (chdir remove rmdir : list Z -> F -> Z * F) (rename : list Z -> list Z -> F -> Z * F).

(** [access(path, F_OK)], of path.c *)
Definition muggle_path_exists (path : list Z) (fs : F) : Z := if negb (access path fs =? -1) then 1 else 0.

Definition passed_on (r : Z * F) : Z * F := ((if r.1 =? 0 then MUGGLE_OK else MUGGLE_ERR_SYS_CALL), r.2).
(** The string that is written to the buffer with the result. *)
Definition muggle_os_curdir (size : Z) (fs : F) : Z * option (list Z) :=
  match getcwd size fs with Some dir => (MUGGLE_OK, Some dir) | None => (MUGGLE_ERR_SYS_CALL, None) end.
Definition muggle_os_chdir (path : list Z) (fs : F) : Z * F := passed_on (chdir path fs).
Definition muggle_os_remove (path : list Z) (fs : F) : Z * F := passed_on (remove path fs).
Definition muggle_os_rmdir (path : list Z) (fs : F) : Z * F := passed_on (rmdir path fs).
Definition muggle_os_rename (src dst : list Z) (fs : F) : Z * F := passed_on (rename src dst fs).
End calls.
End Os.
