(* ===== verification/ArrayList.v ===== *)
(** muggle/c/dsaa/array_list.{h,c}: a growing array of data pointers.  The
    operations are modelled on the node array; [contents] is the list the
    array stands for, and every operation is shown to act on it as the list
    operation its documentation names. *)

From stdpp Require Import base list numbers.
From Stdlib Require Import ZArith Lia.
From S2P Require Import Prelude Dsaa.

Open Scope Z_scope.

Module ArrayList.

(** [muggle_array_list_t]; a node holds only its [data] pointer. *)
Record muggle_array_list := mk {
  nodes : list ptr;
  capacity : Z;
  size : Z
}.

(** [sizeof(muggle_array_list_node_t)]: one pointer. *)
Definition sizeof_node : Z := 8.

Definition muggle_array_list_get_index (p : muggle_array_list) (index : Z) : Z :=
  if 0 <=? index then
    if size p <=? u64 index then -1 else index
  else
    if size p <? u64 (i32 (- index)) then -1
    else i32 (u64 (size p - u64 (i32 (- index)))).

Definition muggle_array_list_init `{Malloc ptr} (capacity : Z)
  : bool * muggle_array_list :=
  let zero := mk [] 0 0 in
  let capacity := if capacity =? 0 then 8 else capacity in
  if negb (MUGGLE_DS_CAP_IS_VALID capacity) then (false, zero)
  else match malloc_array sizeof_node capacity with
       | None => (false, zero)
       | Some nodes => (true, mk nodes capacity 0)
       end.

Definition muggle_array_list_is_empty (p : muggle_array_list) : bool := size p =? 0.

(** The calls [func_free(pool, data)] are returned in order; [func_free] says
    whether the callback is non-NULL. *)
Definition muggle_array_list_clear (p : muggle_array_list) (func_free : bool)
  : outcome (list ptr * muggle_array_list) :=
  freed ← (if func_free then
             for_up 0 (size p) (fun i freed =>
               d ← aget (nodes p) i;
               mret (if d =? NULL then freed else freed ++ [d])) []
           else mret []);
  mret (freed, mk (nodes p) (capacity p) 0).

(** The node array is released; the struct itself is the caller's. *)
Definition muggle_array_list_destroy (p : muggle_array_list) (func_free : bool)
  : outcome (list ptr) :=
  r ← muggle_array_list_clear p func_free;
  mret r.1.

Definition muggle_array_list_size (p : muggle_array_list) : Z := size p.

Definition muggle_array_list_ensure_capacity `{Malloc ptr}
    (p : muggle_array_list) (cap : Z) : outcome (bool * muggle_array_list) :=
  if cap <=? capacity p then mret (true, p)
  else if negb (MUGGLE_DS_CAP_IS_VALID cap) then mret (false, p)
  else match malloc_array sizeof_node cap with
       | None => mret (false, p)
       | Some new_nodes =>
           new_nodes ← for_up 0 (size p) (fun i new_nodes =>
             d ← aget (nodes p) i; aset new_nodes i d) new_nodes;
           mret (true, mk new_nodes cap (size p))
       end.

(** A node pointer is the index of its cell; [None] is NULL. *)
Definition muggle_array_list_index (p : muggle_array_list) (index : Z) : option Z :=
  let idx := muggle_array_list_get_index p index in
  if idx <? 0 then None else Some idx.

Definition muggle_array_list_find (p : muggle_array_list) (index : Z) (data : ptr)
    (cmp : ptr -> ptr -> Z) : outcome Z :=
  let index := muggle_array_list_get_index p index in
  if index <? 0 then mret (-1)
  else
    loop (Z.to_nat (size p) + 1) (fun i =>
      if i <? size p then
        d ← aget (nodes p) i;
        mret (if cmp d data =? 0 then inr (i32 i) else inl (i + 1))
      else mret (inr (-1))) (u64 index).

(** The common head of insert and append: grow a full array. *)
Definition grow_if_full `{Malloc ptr} (p : muggle_array_list)
  : outcome (bool * muggle_array_list) :=
  if size p =? capacity p then
    muggle_array_list_ensure_capacity p (u64 (capacity p * 2))
  else mret (true, p).

(** Their common index resolution: an empty list also accepts 0 and -1. *)
Definition insert_index (p : muggle_array_list) (index : Z) : option Z :=
  let idx := muggle_array_list_get_index p index in
  if idx <? 0 then
    if ((index =? 0) || (index =? -1)) && (size p =? 0) then Some 0 else None
  else Some idx.

Definition muggle_array_list_insert `{Malloc ptr} (p : muggle_array_list)
    (index : Z) (data : ptr) : outcome (option Z * muggle_array_list) :=
  r ← grow_if_full p;
  let (ok, p) := (r : bool * muggle_array_list) in
  if negb ok then mret (None, p)
  else match insert_index p index with
       | None => mret (None, p)
       | Some idx =>
           nodes' ← for_down (i32 (size p) - 1) idx (fun i nodes =>
             d ← aget nodes i; aset nodes (i + 1) d) (nodes p);
           nodes' ← aset nodes' idx data;
           mret (Some idx, mk nodes' (capacity p) (u64 (size p + 1)))
       end.

Definition muggle_array_list_append `{Malloc ptr} (p : muggle_array_list)
    (index : Z) (data : ptr) : outcome (option Z * muggle_array_list) :=
  r ← grow_if_full p;
  let (ok, p) := (r : bool * muggle_array_list) in
  if negb ok then mret (None, p)
  else match insert_index p index with
       | None => mret (None, p)
       | Some idx =>
           nodes' ← for_down (i32 (size p) - 1) (idx + 1) (fun i nodes =>
             d ← aget nodes i; aset nodes (i + 1) d) (nodes p);
           let idx := if size p =? 0 then 0 else idx + 1 in
           nodes' ← aset nodes' idx data;
           mret (Some idx, mk nodes' (capacity p) (u64 (size p + 1)))
       end.

Definition muggle_array_list_remove (p : muggle_array_list) (index : Z)
    (func_free : bool) : outcome (bool * list ptr * muggle_array_list) :=
  let index := muggle_array_list_get_index p index in
  if index <? 0 then mret (false, [], p)
  else
    freed ← (if func_free then d ← aget (nodes p) index; mret [d] else mret []);
    nodes' ← for_up index (i32 (size p) - 1) (fun i nodes =>
      d ← aget nodes (i + 1); aset nodes i d) (nodes p);
    mret (true, freed, mk nodes' (capacity p) (u64 (size p - 1))).

(** ** Specification *)

(** The list the array stands for. *)
Definition contents (p : muggle_array_list) : list ptr :=
  take (Z.to_nat (size p)) (nodes p).

(** The well-formed arrays the operations work on; the public indices are
    [int]s, so positions stay below 2^31. *)
Record wf (p : muggle_array_list) : Prop := {
  wf_nodes : zlen (nodes p) = capacity p;
  wf_capacity : 0 < capacity p;
  wf_size : 0 <= size p <= capacity p;
  wf_int : size p < 2 ^ 31
}.

(** A list position named by a C index: from the front when non-negative,
    from the back when negative. *)
Definition position (n index : Z) : option Z :=
  if bool_decide (0 <= index < n) then Some index
  else if bool_decide (- n <= index < 0) then Some (n + index)
  else None.

Lemma array_list_wf_contents_len p : wf p -> zlen (contents p) = size p.
Proof. intros []. apply zlen_take. lia. Qed.

Lemma array_list_contents_lookup p i :
  wf p -> contents p @@ i = if decide (i < size p) then nodes p @@ i else None.
Proof. intros []. apply zlookup_take. Qed.

Lemma get_index_position p index :
  wf p -> - 2 ^ 31 <= index < 2 ^ 31 ->
  muggle_array_list_get_index p index =
    match position (size p) index with Some k => k | None => -1 end.
Proof.
  intros [] Hi. unfold muggle_array_list_get_index, position.
  destruct (Z.leb_spec 0 index).
  - rewrite wrap_small by lia.
    destruct (Z.leb_spec (size p) index); repeat case_bool_decide; lia.
  - destruct (decide (index = - 2 ^ 31)) as [->|].
    + replace (u64 (i32 (- - 2 ^ 31))) with (2 ^ 64 - 2 ^ 31) by reflexivity.
      destruct (Z.ltb_spec (size p) (2 ^ 64 - 2 ^ 31)); repeat case_bool_decide; lia.
    + rewrite (swrap_small 32 (- index)), (wrap_small 64 (- index)) by lia.
      destruct (Z.ltb_spec (size p) (- index)); repeat case_bool_decide; try lia.
      rewrite wrap_small, swrap_small by lia. lia.
Qed.

Lemma position_range n index k : position n index = Some k -> 0 <= k < n.
Proof. unfold position. repeat case_bool_decide; intros [= <-]; lia. Qed.

Lemma insert_index_position p index :
  wf p -> - 2 ^ 31 <= index < 2 ^ 31 ->
  insert_index p index =
    if bool_decide (size p = 0) then
      (if bool_decide (index = 0 \/ index = -1) then Some 0 else None)
    else position (size p) index.
Proof.
  intros Hwf Hi. unfold insert_index. rewrite get_index_position by done.
  destruct (position (size p) index) as [k|] eqn:E.
  - pose proof (position_range _ _ _ E). destruct (Z.ltb_spec k 0); [lia|].
    by rewrite bool_decide_false by lia.
  - simpl. destruct (Z.eqb_spec index 0), (Z.eqb_spec index (-1)), (Z.eqb_spec (size p) 0);
      repeat case_bool_decide; simpl; try done; lia.
Qed.

(** What a growth step does: nothing visible. *)
Definition grown (p p' : muggle_array_list) : Prop :=
  zlen (nodes p') = capacity p' /\ capacity p <= capacity p' /\
  size p' = size p /\ agree 0 (size p) (nodes p') (nodes p).

Lemma array_list_ensure_capacity_spec `{Malloc ptr} p cap :
  wf p -> 0 <= cap < 2 ^ 61 ->
  wp (muggle_array_list_ensure_capacity p cap) (fun r =>
    let (ok, p') := r in
    if ok then grown p p' /\ cap <= capacity p' else p' = p).
Proof.
  intros [] Hcap. unfold muggle_array_list_ensure_capacity.
  destruct (Z.leb_spec cap (capacity p)); [apply wp_ret; unfold grown; by auto with lia|].
  destruct (MUGGLE_DS_CAP_IS_VALID cap); [|done]. simpl.
  destruct (malloc_array sizeof_node cap) as [l|] eqn:Em; [|done].
  apply malloc_array_len in Em; unfold sizeof_node in *; [|lia..].
  apply wp_bind, copy_nodes; [lia|lia|]. intros l' Hl' Hag.
  apply wp_ret. unfold grown. simpl. repeat split; try lia. done.
Qed.

Lemma array_list_grow_if_full_spec `{Malloc ptr} p :
  wf p ->
  wp (grow_if_full p) (fun r =>
    let (ok, p') := r in
    if ok then grown p p' /\ size p < capacity p' else p' = p /\ size p = capacity p).
Proof.
  intros Hwf. pose proof Hwf as []. unfold grow_if_full.
  destruct (Z.eqb_spec (size p) (capacity p)) as [E|].
  - rewrite wrap_small by lia. eapply wp_mono; [apply array_list_ensure_capacity_spec; [done|lia]|].
    intros [[] p']; [|done]. intros [? ?]. split; [done|lia].
  - apply wp_ret. unfold grown. repeat split; try done; lia.
Qed.

(** Moving the cells [lo .. hi] one place up. *)
Lemma shift_up (l : list ptr) lo hi Q :
  0 <= lo -> lo <= hi + 1 -> hi + 1 < zlen l ->
  (forall l', zlen l' = zlen l ->
     (forall j, l' @@ j = if decide (lo < j <= hi + 1) then l @@ (j - 1) else l @@ j) ->
     Q l') ->
  wp (for_down hi lo (fun i nodes => d ← aget nodes i; aset nodes (i + 1) d) l) Q.
Proof.
  intros Hlo Hle Hlen HQ.
  apply (wp_for_down (fun i l' => zlen l' = zlen l /\
    forall j, l' @@ j = if decide (i + 1 < j <= hi + 1) then l @@ (j - 1) else l @@ j)).
  - split; [done|]. intros j. rewrite decide_False by lia. done.
  - intros i l' Hi [Hl' Hj]. apply wp_bind, wp_aget; [lia|]. intros x Hx.
    apply wp_aset; [lia|]. split; [by rewrite zlen_zinsert|]. intros j.
    rewrite zlookup_zinsert by lia. case_decide as E.
    + subst j. rewrite decide_True by lia. rewrite Hj, decide_False in Hx by lia.
      rewrite <- Hx. f_equal. lia.
    + rewrite Hj. repeat case_decide; try done; lia.
  - intros l' [Hl' Hj]. apply HQ; [done|]. intros j. rewrite Hj.
    replace (Z.min hi (lo - 1) + 1) with lo by lia. done.
Qed.

(** Moving the cells [lo + 1 .. hi] one place down. *)
Lemma shift_down (l : list ptr) lo hi Q :
  0 <= lo <= hi -> hi < zlen l ->
  (forall l', zlen l' = zlen l ->
     (forall j, l' @@ j = if decide (lo <= j < hi) then l @@ (j + 1) else l @@ j) ->
     Q l') ->
  wp (for_up lo hi (fun i nodes => d ← aget nodes (i + 1); aset nodes i d) l) Q.
Proof.
  intros Hlo Hlen HQ.
  apply (wp_for_up (fun i l' => zlen l' = zlen l /\
    forall j, l' @@ j = if decide (lo <= j < i) then l @@ (j + 1) else l @@ j)).
  - split; [done|]. intros j. rewrite decide_False by lia. done.
  - intros i l' Hi [Hl' Hj]. apply wp_bind, wp_aget; [lia|]. intros x Hx.
    apply wp_aset; [lia|]. split; [by rewrite zlen_zinsert|]. intros j.
    rewrite zlookup_zinsert by lia. case_decide as E.
    + subst j. rewrite decide_True by lia. rewrite Hj, decide_False in Hx by lia. done.
    + rewrite Hj. repeat case_decide; try done; lia.
  - intros l' [Hl' Hj]. apply HQ; [done|]. intros j. rewrite Hj.
    replace (Z.max lo hi) with hi by lia. done.
Qed.

(** The position insert and append resolve an index to. *)
Definition target (p : muggle_array_list) (index : Z) : option Z :=
  if bool_decide (size p = 0) then
    (if bool_decide (index = 0 \/ index = -1) then Some 0 else None)
  else position (size p) index.

Lemma target_range p index k :
  wf p -> target p index = Some k -> 0 <= k /\ (size p = 0 /\ k = 0 \/ k < size p).
Proof.
  intros []. unfold target. repeat case_bool_decide; [|done|].
  - intros [= <-]. lia.
  - intros E%position_range. lia.
Qed.

Lemma grown_wf p p' : wf p -> grown p p' -> wf p'.
Proof. intros [] (? & ? & E & ?). split; lia. Qed.

Lemma grown_contents p p' : wf p -> grown p p' -> contents p' = contents p.
Proof.
  intros Hwf Hg. pose proof (grown_wf _ _ Hwf Hg) as Hwf'.
  destruct Hg as (? & ? & E & Hag).
  apply zlookup_ext; rewrite !array_list_wf_contents_len by done; [done|].
  intros i Hi. rewrite !array_list_contents_lookup by done. rewrite !decide_True by lia. apply Hag. lia.
Qed.

Lemma grown_target p p' index : grown p p' -> target p' index = target p index.
Proof. intros (? & ? & E & ?). unfold target. by rewrite E. Qed.

(** Writing [data] at [k] after the cells from [k] on have moved up gives the
    list with [data] inserted before position [k]. *)
Lemma shifted_contents p k data nodes' :
  wf p -> 0 <= k <= size p -> size p < capacity p -> size p + 1 < 2 ^ 31 ->
  zlen nodes' = zlen (nodes p) ->
  (forall j, nodes' @@ j =
     if decide (k < j <= size p) then nodes p @@ (j - 1) else nodes p @@ j) ->
  let p' := mk (zinsert k data nodes') (capacity p) (u64 (size p + 1)) in
  wf p' /\ contents p' = insert_at k data (contents p).
Proof.
  intros Hwf Hk Hcap Hint Hlen Hj p'. pose proof Hwf as [].
  assert (wf p') as Hwf'.
  { split; unfold p'; simpl; solve_width; rewrite ?zlen_zinsert; lia. }
  split; [done|]. apply zlookup_ext.
  - rewrite zlen_insert_at by (rewrite array_list_wf_contents_len; [lia|done]).
    rewrite !array_list_wf_contents_len by done. unfold p'. simpl. solve_width. done.
  - intros i Hi. rewrite array_list_wf_contents_len in Hi by done.
    rewrite zlookup_insert_at by (rewrite array_list_wf_contents_len; [lia|done]).
    rewrite !array_list_contents_lookup by done. unfold p' in *. simpl in *.
    revert Hi. solve_width. intros Hi. rewrite decide_True by lia.
    rewrite zlookup_zinsert by lia. rewrite Hj.
    repeat case_decide; try done; try lia.
Qed.

(** Insertion.  With room for one more [int]-indexed element, insert never
    leaves the block, and either returns NULL and changes no element, which
    happens only for an index that names no position or when growing a full
    array fails, or returns the cell [k] the index names and the list becomes
    the old one with [data] before position [k]. *)
Theorem array_list_insert_refines `{Malloc ptr} p index data :
  wf p -> size p + 1 < 2 ^ 31 -> - 2 ^ 31 <= index < 2 ^ 31 ->
  exists r p', muggle_array_list_insert p index data = Done (r, p') /\ wf p' /\
    match r with
    | Some k => target p index = Some k /\
                contents p' = insert_at k data (contents p)
    | None => contents p' = contents p /\
              (target p index = None \/ size p = capacity p)
    end.
Proof.
  intros Hwf Hint Hi.
  enough (wp (muggle_array_list_insert p index data) (fun '(r, p') => wf p' /\
    match r with
    | Some k => target p index = Some k /\ contents p' = insert_at k data (contents p)
    | None => contents p' = contents p /\ (target p index = None \/ size p = capacity p)
    end)) as ([r p'] & ? & ?)%wp_Done by naive_solver.
  unfold muggle_array_list_insert. apply wp_bind.
  eapply wp_mono; [by apply array_list_grow_if_full_spec|].
  intros [[] q]; [|by intros [-> ?]; simpl; auto]. intros [Hg Hroom]. simpl.
  pose proof (grown_wf _ _ Hwf Hg) as Hq. rewrite insert_index_position by done.
  change (if bool_decide (size q = 0) then _ else _) with (target q index).
  rewrite (grown_target _ _ _ Hg), <- (grown_contents _ _ Hwf Hg).
  destruct (target p index) as [k|] eqn:Ht; [|by simpl; auto].
  pose proof (target_range _ _ _ Hwf Ht) as Hk.
  destruct Hg as (Hlen & ? & Esz & _). rewrite Esz.
  rewrite swrap_small by (destruct Hwf; lia).
  apply wp_bind, shift_up; [lia|destruct Hwf; lia|lia|]. intros l' Hl' Hj.
  apply wp_bind, wp_aset; [destruct Hwf; lia|]. apply wp_ret.
  rewrite <- Esz. edestruct (shifted_contents q k data l') as [Hwf' Hc]; eauto; try lia.
  intros j. rewrite Hj, Esz. repeat case_decide; try done; lia.
Qed.

(** Append is insertion one place after the cell the index names (at the
    front of an empty list). *)
Theorem array_list_append_refines `{Malloc ptr} p index data :
  wf p -> size p + 1 < 2 ^ 31 -> - 2 ^ 31 <= index < 2 ^ 31 ->
  exists r p', muggle_array_list_append p index data = Done (r, p') /\ wf p' /\
    match r with
    | Some k => k <= size p /\
                target p index = Some (if bool_decide (size p = 0) then 0 else k - 1) /\
                contents p' = insert_at k data (contents p)
    | None => contents p' = contents p /\
              (target p index = None \/ size p = capacity p)
    end.
Proof.
  intros Hwf Hint Hi.
  enough (wp (muggle_array_list_append p index data) (fun '(r, p') => wf p' /\
    match r with
    | Some k => k <= size p /\
                target p index = Some (if bool_decide (size p = 0) then 0 else k - 1) /\
                contents p' = insert_at k data (contents p)
    | None => contents p' = contents p /\ (target p index = None \/ size p = capacity p)
    end)) as ([r p'] & ? & ?)%wp_Done by naive_solver.
  unfold muggle_array_list_append. apply wp_bind.
  eapply wp_mono; [by apply array_list_grow_if_full_spec|].
  intros [[] q]; [|by intros [-> ?]; simpl; auto]. intros [Hg Hroom]. simpl.
  pose proof (grown_wf _ _ Hwf Hg) as Hq. rewrite insert_index_position by done.
  change (if bool_decide (size q = 0) then _ else _) with (target q index).
  rewrite (grown_target _ _ _ Hg), <- (grown_contents _ _ Hwf Hg).
  destruct (target p index) as [k|] eqn:Ht; [|by simpl; auto].
  pose proof (target_range _ _ _ Hwf Ht) as Hk.
  destruct Hg as (Hlen & ? & Esz & _). rewrite <- Esz in *.
  rewrite swrap_small by (destruct Hq; lia).
  apply wp_bind. destruct (Z.eqb_spec (size q) 0) as [E0|E0].
  - replace k with 0 by lia. unfold for_down.
    replace (Z.to_nat (size q - 1 - (0 + 1) + 1)) with 0%nat by lia.
    apply wp_ret, wp_bind, wp_aset; [lia|]. apply wp_ret.
    rewrite bool_decide_true by done.
    edestruct (shifted_contents q 0 data (nodes q)) as [Hwf' Hc]; eauto; try lia.
    { intros j. by rewrite decide_False by lia. }
    split; [done|]. split; [lia|]. by split.
  - rewrite bool_decide_false by lia. apply shift_up; [lia..|]. intros l' Hl' Hj.
    apply wp_bind, wp_aset; [lia|]. apply wp_ret.
    edestruct (shifted_contents q (k + 1) data l') as [Hwf' Hc]; eauto; try lia.
    { intros j. rewrite Hj. repeat case_decide; try done; lia. }
    split; [done|]. split; [lia|]. split; [f_equal; lia|done].
Qed.

(** Remove deletes exactly the element the index names, after handing its
    data to the free callback (when there is one), and fails without effect on
    any other index. *)
Theorem array_list_remove_refines p index func_free :
  wf p -> - 2 ^ 31 <= index < 2 ^ 31 ->
  exists ok freed p', muggle_array_list_remove p index func_free = Done (ok, freed, p') /\
    wf p' /\
    match position (size p) index with
    | Some k => ok = true /\ contents p' = delete_at k (contents p) /\
                freed = (if func_free then option_list (contents p @@ k) else [])
    | None => ok = false /\ p' = p /\ freed = []
    end.
Proof.
  intros Hwf Hi.
  enough (wp (muggle_array_list_remove p index func_free) (fun '(ok, freed, p') => wf p' /\
    match position (size p) index with
    | Some k => ok = true /\ contents p' = delete_at k (contents p) /\
                freed = (if func_free then option_list (contents p @@ k) else [])
    | None => ok = false /\ p' = p /\ freed = []
    end)) as ([[ok freed] p'] & ? & ?)%wp_Done by naive_solver.
  unfold muggle_array_list_remove. rewrite get_index_position by done.
  destruct (position (size p) index) as [k|] eqn:E; [|by apply wp_ret].
  pose proof (position_range _ _ _ E) as Hk. destruct (Z.ltb_spec k 0); [lia|].
  pose proof Hwf as []. apply wp_bind.
  apply (wp_mono _ (fun freed => freed = if func_free then option_list (contents p @@ k) else [])).
  { destruct func_free; [|done]. apply wp_bind, wp_aget; [lia|]. intros x Hx. apply wp_ret.
    rewrite array_list_contents_lookup, decide_True, Hx by (done || lia). done. }
  intros freed ->. rewrite swrap_small by lia.
  apply wp_bind, shift_down; [lia|lia|]. intros l' Hl' Hj. apply wp_ret.
  rewrite wrap_small by lia.
  assert (wf (mk l' (capacity p) (size p - 1))) as Hwf' by (split; simpl; lia).
  repeat split; try apply Hwf'. apply zlookup_ext.
  - rewrite zlen_delete_at by (rewrite array_list_wf_contents_len; [lia|done]).
    rewrite !array_list_wf_contents_len by done. done.
  - intros i Hi'. rewrite array_list_wf_contents_len in Hi' by done. simpl in Hi'.
    rewrite zlookup_delete_at by (rewrite array_list_wf_contents_len; [lia|done]).
    rewrite !array_list_contents_lookup by done. simpl. rewrite Hj.
    repeat case_decide; try done; lia.
Qed.

(** Find returns the first position at or after the one its index names
    whose element the callback equates with [data], or -1 when there is none
    or the index names no position. *)
Theorem array_list_find_first p index data cmp :
  wf p -> - 2 ^ 31 <= index < 2 ^ 31 ->
  exists r, muggle_array_list_find p index data cmp = Done r /\
    match position (size p) index with
    | None => r = -1
    | Some k =>
        let hit i := exists x, contents p @@ i = Some x /\ cmp x data = 0 in
        (r = -1 /\ forall i, k <= i -> ~ hit i) \/
        (k <= r /\ hit r /\ forall i, k <= i < r -> ~ hit i)
    end.
Proof.
  intros Hwf Hi. apply wp_Done. unfold muggle_array_list_find.
  rewrite get_index_position by done.
  destruct (position (size p) index) as [k|] eqn:E; [|by apply wp_ret].
  pose proof (position_range _ _ _ E) as Hk. destruct (Z.ltb_spec k 0); [lia|].
  pose proof Hwf as []. rewrite wrap_small by lia.
  apply (wp_loop _ (fun i => k <= i <= size p /\
    forall j, k <= j < i -> ~ exists x, contents p @@ j = Some x /\ cmp x data = 0)
    (fun i => Z.to_nat (size p - i))); [|split; [lia|intros; lia]|lia].
  intros i [Hi' Hno]. destruct (Z.ltb_spec i (size p)).
  - apply wp_bind, wp_aget; [lia|]. intros x Hx. apply wp_ret.
    assert (contents p @@ i = Some x) as Hc
      by (rewrite array_list_contents_lookup, decide_True by (done || lia); done).
    destruct (Z.eqb_spec (cmp x data) 0).
    + rewrite swrap_small by lia. right. split; [lia|]. split; [by exists x|done].
    + split; [|lia]. split; [lia|]. intros j Hj. destruct (decide (j = i)) as [->|].
      * intros (y & Hy & ?). congruence.
      * apply Hno. lia.
  - apply wp_ret. left. split; [done|]. intros j Hj (x & Hx & ?).
    apply zlookup_lt in Hx as Hlt. rewrite array_list_wf_contents_len in Hlt by done.
    apply (Hno j); [lia|by exists x].
Qed.

(** clear hands every non-NULL element to the callback once, in order, and
    leaves the empty list. *)
Lemma array_list_clear_spec p func_free :
  wf p ->
  exists freed p', muggle_array_list_clear p func_free = Done (freed, p') /\ wf p' /\
    contents p' = [] /\
    freed = (if func_free then filter (fun d => d <> NULL) (contents p) else []).
Proof.
  intros Hwf. pose proof Hwf as [].
  enough (wp (muggle_array_list_clear p func_free) (fun '(freed, p') => wf p' /\
    contents p' = [] /\
    freed = (if func_free then filter (fun d => d <> NULL) (contents p) else [])))
    as ([freed p'] & ? & ?)%wp_Done by naive_solver.
  unfold muggle_array_list_clear. apply wp_bind.
  apply (wp_mono _ (fun freed =>
    freed = if func_free then filter (fun d => d <> NULL) (contents p) else [])).
  2: { intros freed ->. apply wp_ret. repeat split; simpl; try done; lia. }
  destruct func_free; [|done].
  apply (wp_for_up (fun i freed =>
    freed = filter (fun d => d <> NULL) (take (Z.to_nat i) (nodes p)))); [done| |].
  - intros i freed Hi ->. apply wp_bind, wp_aget; [lia|]. intros x Hx. apply wp_ret.
    rewrite zlookup_nonneg in Hx by lia.
    replace (Z.to_nat (i + 1)) with (S (Z.to_nat i)) by lia.
    rewrite (take_S_r _ _ _ Hx), list_basics.list.filter_app, filter_cons.
    destruct (Z.eqb_spec x NULL); case_decide; try done. by rewrite app_nil_r.
  - intros freed ->. unfold contents. by replace (Z.max 0 (size p)) with (size p) by lia.
Qed.

(** A three-element list in a block of four cells, one free. *)
Definition sample : muggle_array_list := mk [10; 20; 30; 0] 4 3.

Lemma array_list_sample_wf : wf sample.
Proof. by split. Qed.

Lemma array_list_insert_refines_witness :
  wf sample /\
  exists r p', @muggle_array_list_insert (malloc_zeroed 0) sample (-2) 99 = Done (r, p') /\
    wf p' /\
    match r with
    | Some k => target sample (-2) = Some k /\
                contents p' = insert_at k 99 (contents sample)
    | None => contents p' = contents sample /\
              (target sample (-2) = None \/ size sample = capacity sample)
    end.
Proof.
  split; [apply array_list_sample_wf|].
  apply (@array_list_insert_refines (malloc_zeroed 0) sample (-2) 99);
    [apply array_list_sample_wf | simpl; lia | lia].
Defined.

Lemma array_list_append_refines_witness :
  wf sample /\
  exists r p', @muggle_array_list_append (malloc_zeroed 0) sample (-1) 99 = Done (r, p') /\
    wf p' /\
    match r with
    | Some k => k <= size sample /\
                target sample (-1) = Some (if bool_decide (size sample = 0) then 0 else k - 1) /\
                contents p' = insert_at k 99 (contents sample)
    | None => contents p' = contents sample /\
              (target sample (-1) = None \/ size sample = capacity sample)
    end.
Proof.
  split; [apply array_list_sample_wf|].
  apply (@array_list_append_refines (malloc_zeroed 0) sample (-1) 99);
    [apply array_list_sample_wf | simpl; lia | lia].
Defined.

Lemma array_list_remove_refines_witness :
  wf sample /\
  exists ok freed p', muggle_array_list_remove sample 1 true = Done (ok, freed, p') /\
    wf p' /\
    match position (size sample) 1 with
    | Some k => ok = true /\ contents p' = delete_at k (contents sample) /\
                freed = (if true then option_list (contents sample @@ k) else [])
    | None => ok = false /\ p' = sample /\ freed = []
    end.
Proof.
  split; [apply array_list_sample_wf|].
  apply (array_list_remove_refines sample 1 true); [apply array_list_sample_wf | lia].
Defined.

Lemma array_list_find_first_witness :
  wf sample /\
  exists r, muggle_array_list_find sample 0 20 cmp_addr = Done r /\
    match position (size sample) 0 with
    | None => r = -1
    | Some k =>
        let hit i := exists x, contents sample @@ i = Some x /\ cmp_addr x 20 = 0 in
        (r = -1 /\ forall i, k <= i -> ~ hit i) \/
        (k <= r /\ hit r /\ forall i, k <= i < r -> ~ hit i)
    end.
Proof.
  split; [apply array_list_sample_wf|].
  apply (array_list_find_first sample 0 20 cmp_addr); [apply array_list_sample_wf | lia].
Defined.

(** The growth path runs: a full block of two cells grows to four. *)
Example array_list_growth :
  @muggle_array_list_append (malloc_zeroed 0) (mk [1; 2] 2 2) (-1) 3
  = Done (Some 2, mk [1; 2; 3; 0] 4 3).
Proof. reflexivity. Qed.

(** The capacity check lets 2^61 through, the byte count [8 * 2^61] wraps to 0,
    and init reports success with a block of no cells. *)
Example array_list_init_wraps :
  @muggle_array_list_init (malloc_zeroed 0) (2 ^ 61) = (true, mk [] (2 ^ 61) 0).
Proof. reflexivity. Qed.

End ArrayList.
