(* ===== verification/Stack.v ===== *)
(** muggle/c/dsaa/stack.{h,c}: a growing array used as a stack, refined to a
    list whose last element is the top. *)

From stdpp Require Import base list numbers.
From Stdlib Require Import ZArith Lia.
From S2P Require Import Prelude Dsaa.

Open Scope Z_scope.

Module Stack.

Record muggle_stack := mk {
  nodes : list ptr;
  capacity : Z;
  top : Z
}.

Definition sizeof_node : Z := 8.

Definition muggle_stack_init `{Malloc ptr} (capacity : Z) : bool * muggle_stack :=
  let zero := mk [] 0 0 in
  let capacity := if capacity =? 0 then 8 else capacity in
  if negb (MUGGLE_DS_CAP_IS_VALID capacity) then (false, zero)
  else match malloc_array sizeof_node capacity with
       | None => (false, zero)
       | Some nodes => (true, mk nodes capacity 0)
       end.

Definition muggle_stack_is_empty (p : muggle_stack) : bool := top p =? 0.

(** The free calls are returned in order, as for the array list. *)
Definition muggle_stack_clear (p : muggle_stack) (func_free : bool)
  : outcome (list ptr * muggle_stack) :=
  freed ← (if func_free then
             for_up 0 (top p) (fun i freed =>
               d ← aget (nodes p) i;
               mret (if d =? NULL then freed else freed ++ [d])) []
           else mret []);
  mret (freed, mk (nodes p) (capacity p) 0).

Definition muggle_stack_destroy (p : muggle_stack) (func_free : bool)
  : outcome (list ptr) :=
  r ← muggle_stack_clear p func_free; mret r.1.

Definition muggle_stack_size (p : muggle_stack) : Z := top p.

Definition muggle_stack_ensure_capacity `{Malloc ptr} (p : muggle_stack) (cap : Z)
  : outcome (bool * muggle_stack) :=
  if cap <=? capacity p then mret (true, p)
  else if negb (MUGGLE_DS_CAP_IS_VALID cap) then mret (false, p)
  else match malloc_array sizeof_node cap with
       | None => mret (false, p)
       | Some new_nodes =>
           new_nodes ← for_up 0 (top p) (fun i new_nodes =>
             d ← aget (nodes p) i; aset new_nodes i d) new_nodes;
           mret (true, mk new_nodes cap (top p))
       end.

(** A node pointer is the index of its cell; [None] is NULL. *)
Definition muggle_stack_push `{Malloc ptr} (p : muggle_stack) (data : ptr)
  : outcome (option Z * muggle_stack) :=
  r ← (if top p =? capacity p
       then muggle_stack_ensure_capacity p (u64 (capacity p * 2))
       else mret (true, p));
  let (ok, p) := (r : bool * muggle_stack) in
  if negb ok then mret (None, p)
  else
    nodes' ← aset (nodes p) (top p) data;
    mret (Some (top p), mk nodes' (capacity p) (u64 (top p + 1))).

Definition muggle_stack_top (p : muggle_stack) : option Z :=
  if top p =? 0 then None else Some (i64 (top p) - 1).

Definition muggle_stack_pop (p : muggle_stack) (func_free : bool)
  : outcome (list ptr * muggle_stack) :=
  if top p =? 0 then mret ([], p)
  else
    let p := mk (nodes p) (capacity p) (u64 (top p - 1)) in
    freed ← (if func_free then
               d ← aget (nodes p) (top p);
               mret (if d =? NULL then [] else [d])
             else mret []);
    mret (freed, p).

(** ** Specification *)
Definition contents (p : muggle_stack) : list ptr := take (Z.to_nat (top p)) (nodes p).

Record wf (p : muggle_stack) : Prop := {
  wf_nodes : zlen (nodes p) = capacity p;
  wf_capacity : 0 < capacity p < 2 ^ 60;
  wf_top : 0 <= top p <= capacity p
}.

Lemma stack_wf_contents_len p : wf p -> zlen (contents p) = top p.
Proof. intros []. apply zlen_take. lia. Qed.

Lemma stack_contents_snoc p x :
  wf p -> top p < capacity p ->
  contents (mk (zinsert (top p) x (nodes p)) (capacity p) (top p + 1)) = contents p ++ [x].
Proof.
  intros [] ?. unfold contents. simpl.
  apply zlookup_ext; rewrite ?zlen_app, !zlen_take by (rewrite ?zlen_zinsert; lia); [done|].
  intros i Hi. rewrite zlookup_take, decide_True, zlookup_zinsert by lia.
  case_decide.
  - subst. rewrite zlookup_app_r by (rewrite zlen_take; lia).
    by rewrite zlen_take, Z.sub_diag by lia.
  - rewrite zlookup_app_l by (rewrite zlen_take; lia).
    by rewrite zlookup_take, decide_True by lia.
Qed.

Lemma stack_contents_pop p :
  wf p -> top p <> 0 ->
  exists x, nodes p @@ (top p - 1) = Some x /\
    contents p = contents (mk (nodes p) (capacity p) (top p - 1)) ++ [x].
Proof.
  intros [] ?. destruct (zlookup_is_Some (nodes p) (top p - 1)) as [x Hx]; [lia|].
  exists x. split; [done|]. unfold contents. simpl. rewrite zlookup_nonneg in Hx by lia.
  replace (Z.to_nat (top p)) with (S (Z.to_nat (top p - 1))) by lia.
  apply take_S_r, Hx.
Qed.

(** Growing keeps the elements. *)
Lemma stack_ensure_capacity_spec `{Malloc ptr} p cap :
  wf p -> 0 <= cap < 2 ^ 60 ->
  wp (muggle_stack_ensure_capacity p cap) (fun r =>
    let (ok, p') := r in
    if ok then wf p' /\ contents p' = contents p /\ top p' = top p /\ cap <= capacity p'
    else p' = p).
Proof.
  intros Hwf Hcap. pose proof Hwf as []. unfold muggle_stack_ensure_capacity.
  destruct (Z.leb_spec cap (capacity p)); [by apply wp_ret; auto with lia|].
  destruct (MUGGLE_DS_CAP_IS_VALID cap); [|done]. simpl.
  destruct (malloc_array sizeof_node cap) as [l|] eqn:Em; [|done].
  apply malloc_array_len in Em; unfold sizeof_node in *; [|lia..].
  apply wp_bind, copy_nodes; [lia|lia|]. intros l' Hl' Hag. apply wp_ret.
  assert (wf (mk l' cap (top p))) as Hwf' by (split; simpl; lia).
  split; [done|]. split; [|split; [done|simpl; lia]].
  apply zlookup_ext; rewrite !stack_wf_contents_len by done; [done|].
  intros i Hi. simpl in Hi. unfold contents. simpl.
  rewrite !zlookup_take, !decide_True by lia. apply Hag. lia.
Qed.

(** Push appends the element, or returns NULL and keeps the stack when it
    was full and could not grow; the top pushed is then the one top shows and
    pop removes, so pop after push is the identity on the contents. *)
Theorem stack_push_pop `{Malloc ptr} p data func_free :
  wf p -> capacity p < 2 ^ 59 ->
  exists r p', muggle_stack_push p data = Done (r, p') /\ wf p' /\
    match r with
    | None => p' = p /\ top p = capacity p
    | Some k =>
        contents p' = contents p ++ [data] /\
        muggle_stack_top p' = Some k /\ nodes p' @@ k = Some data /\
        exists p'', muggle_stack_pop p' func_free =
            Done (if func_free && negb (data =? NULL) then [data] else [], p'') /\
          wf p'' /\ contents p'' = contents p
    end.
Proof.
  intros Hwf Hcap. pose proof Hwf as [].
  enough (wp (muggle_stack_push p data) (fun '(r, p') =>
    match r with
    | None => p' = p /\ top p = capacity p
    | Some k => k = top p /\ exists q, wf q /\ contents q = contents p /\ top q = top p /\
        top p < capacity q /\
        p' = mk (zinsert (top q) data (nodes q)) (capacity q) (top q + 1)
    end)) as ([r p'] & Hpush & Hr)%wp_Done.
  { exists r, p'. split; [done|]. destruct r as [k|]; [|by destruct Hr as [-> ?]].
    destruct Hr as (-> & q & Hq & Hc & Et & Hlt & ->). pose proof Hq as [].
    rewrite <- Hc. assert (wf (mk (zinsert (top q) data (nodes q)) (capacity q) (top q + 1)))
      by (split; simpl; rewrite ?zlen_zinsert; lia).
    split; [done|]. split; [apply stack_contents_snoc; [done|lia]|].
    unfold muggle_stack_top, muggle_stack_pop. simpl.
    destruct (Z.eqb_spec (top q + 1) 0); [lia|]. solve_width.
    replace (top q + 1 - 1) with (top q) by lia. rewrite Et in *.
    rewrite zlookup_zinsert_eq, (aget_Some _ _ data) by (try apply zlookup_zinsert_eq; lia).
    split; [done|]. split; [done|].
    eexists. split; [mcompute; destruct func_free, (data =? NULL); reflexivity|].
    split; [split; simpl; rewrite ?zlen_zinsert; lia|].
    unfold contents. simpl. rewrite Et. unfold zinsert.
    apply take_insert_ge. lia. }
  unfold muggle_stack_push. apply wp_bind.
  destruct (Z.eqb_spec (top p) (capacity p)).
  - rewrite wrap_small by lia. eapply wp_mono; [apply stack_ensure_capacity_spec; [done|lia]|].
    intros [[] q]; [|intros ->; by apply wp_ret]. intros (Hq & Hc & Et & Hge). simpl.
    apply wp_bind, wp_aset; [destruct Hq; lia|]. apply wp_ret.
    rewrite wrap_small by (destruct Hq; lia). split; [done|]. exists q. by auto with lia.
  - apply wp_ret. simpl. apply wp_bind, wp_aset; [lia|]. apply wp_ret.
    rewrite wrap_small by lia. split; [done|]. exists p. repeat split; try done; lia.
Qed.

(** pop removes the last element and hands it to the callback. *)
Lemma stack_pop_spec p func_free :
  wf p ->
  exists freed p', muggle_stack_pop p func_free = Done (freed, p') /\ wf p' /\
    (contents p = [] /\ p' = p /\ freed = [] \/
     exists x, contents p = contents p' ++ [x] /\
       freed = if func_free && negb (x =? NULL) then [x] else []).
Proof.
  intros Hwf. pose proof Hwf as []. unfold muggle_stack_pop.
  destruct (Z.eqb_spec (top p) 0) as [E|].
  - exists [], p. split; [done|]. split; [done|]. left. unfold contents. by rewrite E.
  - destruct (stack_contents_pop p) as (x & Hx & Hc); [done..|].
    simpl. rewrite wrap_small by lia. rewrite (aget_Some _ _ x Hx).
    exists (if func_free && negb (x =? NULL) then [x] else []). eexists.
    split; [mcompute; destruct func_free, (x =? NULL); reflexivity|].
    split; [split; simpl; lia|]. right. by exists x.
Qed.

Definition sample : muggle_stack := mk [7; 8] 2 2.

Lemma stack_push_pop_witness :
  wf sample /\
  exists r p', @muggle_stack_push (malloc_zeroed 0) sample 9 = Done (r, p') /\ wf p' /\
    match r with
    | None => p' = sample /\ top sample = capacity sample
    | Some k =>
        contents p' = contents sample ++ [9] /\
        muggle_stack_top p' = Some k /\ nodes p' @@ k = Some 9 /\
        exists p'', muggle_stack_pop p' true =
            Done (if true && negb (9 =? NULL) then [9] else [], p'') /\
          wf p'' /\ contents p'' = contents sample
    end.
Proof.
  split; [by split|].
  apply (@stack_push_pop (malloc_zeroed 0) sample 9 true); [by split | simpl; lia].
Defined.

End Stack.
