(* ===== verification/Heap.v ===== *)
(** muggle/c/dsaa/heap.{h,c}: a binary min-heap in an array whose root is at
    index 1.  The invariant is the heap order; insert, extract and remove are
    shown to keep it and to act on the bag of nodes as their names say. *)

From stdpp Require Import base list numbers.
From Stdlib Require Import ZArith Lia.
From S2P Require Import Prelude Dsaa.

Open Scope Z_scope.

Module Heap.

Record muggle_heap_node := mkn { key : ptr; value : ptr }.

Record muggle_heap := mk {
  capacity : Z;
  size : Z;
  nodes : list muggle_heap_node;
  cmp : ptr -> ptr -> Z
}.

(** [sizeof(muggle_heap_node_t)]: two pointers. *)
Definition sizeof_node : Z := 16.

(** [None] is a NULL compare callback; a failed call leaves the caller's
    struct, [None] in the second component. *)
Definition muggle_heap_init `{Malloc muggle_heap_node}
    (cmp : option (ptr -> ptr -> Z)) (capacity : Z) : bool * option muggle_heap :=
  match cmp with
  | None => (false, None)
  | Some cmp =>
      let capacity := if capacity =? 0 then 8 else capacity in
      if negb (MUGGLE_DS_CAP_IS_VALID capacity) then (false, None)
      else match malloc_array sizeof_node (u64 (capacity + 1)) with
           | None => (false, None)
           | Some nodes => (true, Some (mk capacity 0 nodes cmp))
           end
  end.

(** The free calls made for one node: its non-NULL key and value, each only
    with a callback; the fields become NULL. *)
Definition free_node (key_free value_free : bool) (n : muggle_heap_node)
  : list ptr * list ptr * muggle_heap_node :=
  ((if negb (key n =? NULL) && key_free then [key n] else []),
   (if negb (value n =? NULL) && value_free then [value n] else []),
   mkn NULL NULL).

Definition muggle_heap_clear (h : muggle_heap) (key_free value_free : bool)
  : outcome (list ptr * list ptr * muggle_heap) :=
  r ← for_up 1 (size h + 1) (fun i st =>
        let '(fk, fv, nodes) := (st : list ptr * list ptr * list muggle_heap_node) in
        n ← aget nodes i;
        let '(k, v, n') := free_node key_free value_free n in
        nodes' ← aset nodes i n';
        mret (fk ++ k, fv ++ v, nodes')) ([], [], nodes h);
  let '(fk, fv, nodes') := (r : list ptr * list ptr * list muggle_heap_node) in
  mret (fk, fv, mk (capacity h) 0 nodes' (cmp h)).

Definition muggle_heap_destroy (h : muggle_heap) (key_free value_free : bool)
  : outcome (list ptr * list ptr * muggle_heap) :=
  r ← muggle_heap_clear h key_free value_free;
  let '(fk, fv, h') := (r : list ptr * list ptr * muggle_heap) in
  mret (fk, fv, mk (capacity h') (size h') [] (cmp h')).

Definition muggle_heap_is_empty (h : muggle_heap) : bool := size h =? 0.

Definition muggle_heap_ensure_capacity `{Malloc muggle_heap_node}
    (h : muggle_heap) (cap : Z) : outcome (bool * muggle_heap) :=
  if cap <=? capacity h then mret (true, h)
  else if negb (MUGGLE_DS_CAP_IS_VALID cap) then mret (false, h)
  else match malloc_array sizeof_node (u64 (cap + 1)) with
       | None => mret (false, h)
       | Some new_nodes =>
           new_nodes ← for_up 0 (size h) (fun i new_nodes =>
             n ← aget (nodes h) (i + 1); aset new_nodes (i + 1) n) new_nodes;
           mret (true, mk cap (size h) new_nodes (cmp h))
       end.

(** The sift-up loop of insert: the loop state is [idx] and the node array. *)
Definition insert_loop (cmp : ptr -> ptr -> Z) (k : ptr) (fuel : nat)
    (idx : Z) (nodes : list muggle_heap_node)
  : outcome (Z * list muggle_heap_node) :=
  loop fuel (fun st =>
    let '(idx, nodes) := (st : Z * list muggle_heap_node) in
    let parent_idx := idx / 2 in
    if parent_idx =? 0 then mret (inr (idx, nodes))
    else
      parent ← aget nodes parent_idx;
      if cmp (key parent) k <=? 0 then mret (inr (idx, nodes))
      else
        nodes' ← aset nodes idx parent;
        mret (inl (idx / 2, nodes'))) (idx, nodes).

Definition muggle_heap_insert `{Malloc muggle_heap_node}
    (h : muggle_heap) (k v : ptr) : outcome (bool * muggle_heap) :=
  r ← (if capacity h =? size h
       then muggle_heap_ensure_capacity h (u64 (capacity h * 2))
       else mret (true, h));
  let (ok, h) := (r : bool * muggle_heap) in
  if negb ok then mret (false, h)
  else
    let size' := u64 (size h + 1) in
    r ← insert_loop (cmp h) k (Z.to_nat size' + 1) size' (nodes h);
    let '(idx, nodes') := (r : Z * list muggle_heap_node) in
    nodes' ← aset nodes' idx (mkn k v);
    mret (true, mk (capacity h) size' nodes' (cmp h)).

(** The smaller child of [i]: its index. *)
Definition smaller_child (cmp : ptr -> ptr -> Z) (n i : Z)
    (nodes : list muggle_heap_node) : outcome Z :=
  let child := i * 2 in
  if negb (child =? n) then
    c1 ← aget nodes (child + 1);
    c0 ← aget nodes child;
    mret (if cmp (key c1) (key c0) <? 0 then child + 1 else child)
  else mret child.

(** The percolation loop of extract: [last] is the cell [last_node] points to,
    which the loop reads through the pointer. *)
Definition extract_loop (cmp : ptr -> ptr -> Z) (n last : Z) (fuel : nat)
    (i : Z) (nodes : list muggle_heap_node)
  : outcome (Z * list muggle_heap_node) :=
  loop fuel (fun st =>
    let '(i, nodes) := (st : Z * list muggle_heap_node) in
    if i * 2 <=? n then
      child ← smaller_child cmp n i nodes;
      last_node ← aget nodes last;
      c ← aget nodes child;
      if 0 <=? cmp (key last_node) (key c) then
        nodes' ← aset nodes i c;
        mret (inl (child, nodes'))
      else mret (inr (i, nodes))
    else mret (inr (i, nodes))) (i, nodes).

(** The extracted node is returned beside the boolean. *)
Definition muggle_heap_extract (h : muggle_heap)
  : outcome (option muggle_heap_node * muggle_heap) :=
  if muggle_heap_is_empty h then mret (None, h)
  else
    node ← aget (nodes h) 1;
    let last := size h in
    let size' := u64 (size h - 1) in
    r ← extract_loop (cmp h) size' last (Z.to_nat (size h) + 1) 1 (nodes h);
    let '(i, nodes') := (r : Z * list muggle_heap_node) in
    last_node ← aget nodes' last;
    nodes' ← aset nodes' i last_node;
    mret (Some node, mk (capacity h) size' nodes' (cmp h)).

(** A node pointer is the index of its cell. *)
Definition muggle_heap_find (h : muggle_heap) (data : ptr) : outcome (option Z) :=
  loop (Z.to_nat (size h) + 1) (fun i =>
    if i <=? size h then
      n ← aget (nodes h) i;
      mret (if cmp h (key n) data =? 0 then inr (Some i) else inl (i + 1))
    else mret (inr None)) 1.

(** The move-up / percolate loop of remove. *)
Definition remove_loop (cmp : ptr -> ptr -> Z) (n last : Z) (fuel : nat)
    (idx : Z) (nodes : list muggle_heap_node)
  : outcome (Z * list muggle_heap_node) :=
  loop fuel (fun st =>
    let '(idx, nodes) := (st : Z * list muggle_heap_node) in
    let parent_idx := idx / 2 in
    last_node ← aget nodes last;
    up ← (if negb (parent_idx =? 0) then
            parent ← aget nodes parent_idx;
            mret (if cmp (key last_node) (key parent) <? 0 then Some parent else None)
          else mret None);
    match (up : option muggle_heap_node) with
    | Some parent =>
        nodes' ← aset nodes idx parent;
        mret (inl (parent_idx, nodes'))
    | None =>
        let child_idx := idx * 2 in
        if child_idx <=? n then
          child_idx ← (if child_idx <? n then
                         c1 ← aget nodes (child_idx + 1);
                         c0 ← aget nodes child_idx;
                         mret (if cmp (key c1) (key c0) <? 0
                               then child_idx + 1 else child_idx)
                       else mret child_idx);
          c ← aget nodes child_idx;
          if 0 <=? cmp (key last_node) (key c) then
            nodes' ← aset nodes idx c;
            mret (inl (child_idx, nodes'))
          else mret (inr (idx, nodes))
        else mret (inr (idx, nodes))
    end) (idx, nodes).

(** [node] is given by its distance from the first cell. *)
Definition muggle_heap_remove (h : muggle_heap) (node : Z) (key_free value_free : bool)
  : outcome (bool * list ptr * list ptr * muggle_heap) :=
  if muggle_heap_is_empty h then mret (false, [], [], h)
  else if (node <=? 0) || (size h <? node) then mret (false, [], [], h)
  else
    n ← aget (nodes h) node;
    let '(fk, fv, n') := free_node key_free value_free n in
    nodes' ← aset (nodes h) node n';
    let last := size h in
    let size' := u64 (size h - 1) in
    r ← remove_loop (cmp h) size' last (2 * (Z.to_nat (size h) + 2)) node nodes';
    let '(idx, nodes') := (r : Z * list muggle_heap_node) in
    last_node ← aget nodes' last;
    nodes' ← aset nodes' idx last_node;
    mret (true, fk, fv, mk (capacity h) size' nodes' (cmp h)).

(** ** Specification *)

(** The nodes in the heap. *)
Definition elems (h : muggle_heap) : list muggle_heap_node :=
  seg 1 (size h + 1) (nodes h).

(** The key in cell [i]. *)
Definition keyat (l : list muggle_heap_node) (i : Z) : ptr :=
  match l @@ i with Some n => key n | None => NULL end.

(** Heap order of the keys [K] in the cells [1 .. n]. *)
Definition ordered (c : ptr -> ptr -> Z) (n : Z) (K : Z -> ptr) : Prop :=
  forall k, 2 <= k <= n -> c (K (k / 2)) (K k) <= 0.

Record wf (h : muggle_heap) : Prop := {
  wf_nodes : zlen (nodes h) = capacity h + 1;
  wf_capacity : 0 < capacity h < 2 ^ 58;
  wf_size : 0 <= size h <= capacity h;
  wf_ordered : ordered (cmp h) (size h) (keyat (nodes h))
}.

Lemma keyat_zinsert l i j n :
  0 <= i < zlen l -> keyat (zinsert i n l) j = if decide (i = j) then key n else keyat l j.
Proof. intros. unfold keyat. rewrite zlookup_zinsert by done. by case_decide. Qed.

Lemma keyat_Some l i n : l @@ i = Some n -> keyat l i = key n.
Proof. unfold keyat. by intros ->. Qed.

Lemma div2_child k : 0 <= k -> exists b, (b = 0 \/ b = 1) /\ k = 2 * (k / 2) + b.
Proof.
  intros. exists (k mod 2). pose proof (Z.mod_pos_bound k 2). pose proof (Z.div_mod k 2). lia.
Qed.

(** Pose the decomposition of the halved indices for [lia]. *)
Ltac halves :=
  repeat match goal with
  | |- context [?k / 2] =>
      lazymatch goal with
      | _ : k = 2 * (k / 2) + _ |- _ => fail
      | _ => let b := fresh "b" in let H := fresh "Hb" in let E := fresh "Eb" in
             destruct (div2_child k) as (b & H & E); [lia|]
      end
  | _ : context [?k / 2] |- _ =>
      lazymatch goal with
      | _ : k = 2 * (k / 2) + _ |- _ => fail
      | _ => let b := fresh "b" in let H := fresh "Hb" in let E := fresh "Eb" in
             destruct (div2_child k) as (b & H & E); [lia|]
      end
  end.

(** [hole c n K i]: the order holds except between [i] and its neighbours, and
    the children of [i] are above its parent.  [hole_up] keeps the order below
    [i], [hole_down] the order above it. *)
Definition hole (c : ptr -> ptr -> Z) (n : Z) (K : Z -> ptr) (i : Z) : Prop :=
  (forall k, 2 <= k <= n -> k <> i -> k / 2 <> i -> c (K (k / 2)) (K k) <= 0) /\
  (forall k, 2 <= k <= n -> k / 2 = i -> 2 <= i -> c (K (i / 2)) (K k) <= 0).
Definition hole_up c n K i : Prop :=
  hole c n K i /\ forall k, 2 <= k <= n -> k / 2 = i -> c (K i) (K k) <= 0.
Definition hole_down c n K i : Prop :=
  hole c n K i /\ (2 <= i -> c (K (i / 2)) (K i) <= 0).

(** [K'] is [K] with cells [i] and [j] exchanged. *)
Definition exchanged (K K' : Z -> ptr) (i j : Z) : Prop :=
  K' i = K j /\ K' j = K i /\ forall k, k <> i -> k <> j -> K' k = K k.

Section order.
Context (c : ptr -> ptr -> Z) `{!CmpOrder c}.

(** Every cell is above the root. *)
Lemma ordered_root K n k : ordered c n K -> 1 <= k <= n -> c (K 1) (K k) <= 0.
Proof.
  intros Ho. induction k as [k IH] using (well_founded_induction (Z.lt_wf 0)). intros Hk.
  destruct (decide (k = 1)) as [->|]; [by apply cmp_refl|].
  apply (cmp_trans _ (K (k / 2))); [|apply Ho; lia]. halves. apply IH; lia.
Qed.

Lemma ordered_hole K K' n i :
  ordered c n K -> (forall k, 1 <= k <= n -> k <> i -> K' k = K k) -> hole c n K' i.
Proof.
  intros Ho HK. split.
  - intros k Hk Hne Hne'. rewrite !HK by (halves; lia). by apply Ho.
  - intros k Hk Hki Hi. halves. rewrite !HK by lia.
    apply (cmp_trans _ (K i)); [apply Ho; lia|]. rewrite <- Hki at 1. apply Ho. lia.
Qed.

Lemma hole_up_ordered K n i :
  hole_up c n K i -> (2 <= i <= n -> c (K (i / 2)) (K i) <= 0) -> ordered c n K.
Proof.
  intros [[Hh _] Hd] Hu k Hk.
  destruct (decide (k = i)) as [->|]; [by apply Hu|].
  destruct (decide (k / 2 = i)) as [E|]; [rewrite E; by apply Hd|by apply Hh].
Qed.

Lemma hole_down_ordered K n i :
  hole_down c n K i -> (forall k, 2 <= k <= n -> k / 2 = i -> c (K i) (K k) <= 0) ->
  ordered c n K.
Proof. intros [Hh Hu] Hd. apply (hole_up_ordered K n i); [by split|]. intros. apply Hu. lia. Qed.

(** Moving a larger parent down. *)
Lemma hole_up_step K K' n i :
  2 <= i -> hole c n K i -> 0 < c (K (i / 2)) (K i) ->
  exchanged K K' i (i / 2) -> hole_up c n K' (i / 2).
Proof.
  intros Hi [Hh Hg] Hgt (Ei & Ep & Eo). apply cmp_flip in Hgt; [|done].
  halves. set (p := i / 2) in *.
  assert (forall k, 2 <= k <= n -> k <> i -> k / 2 = p -> c (K p) (K k) <= 0) as Hsib.
  { intros k Hk Hne E. rewrite <- E. apply Hh; halves; lia. }
  assert (2 <= p -> c (K (p / 2)) (K p) <= 0 \/ n < p) as Hpp.
  { intros. destruct (decide (p <= n)); [left; apply Hh; halves; lia|lia]. }
  split; [split|].
  - intros k Hk Hne Hne2. destruct (decide (k = i)) as [->|Hki]; [lia|].
    destruct (decide (k / 2 = i)) as [E|].
    + rewrite E, Ei, (Eo k) by (halves; lia). apply Hg; lia.
    + rewrite !Eo by (halves; lia). by apply Hh.
  - intros k Hk Hkp Hp. rewrite (Eo (p / 2)) by (halves; lia).
    destruct (Hpp Hp) as [Hpp'|]; [|halves; lia].
    destruct (decide (k = i)) as [->|]; [by rewrite Ei|].
    rewrite (Eo k) by (halves; lia). apply (cmp_trans _ (K p)); [done|by apply Hsib].
  - intros k Hk Hkp. rewrite Ep. destruct (decide (k = i)) as [->|]; [by rewrite Ei|].
    rewrite (Eo k) by (halves; lia). apply (cmp_trans _ (K p)); [done|by apply Hsib].
Qed.

(** Moving the smaller child up. *)
Lemma hole_down_step K K' n i ch :
  1 <= i -> ch <= n -> ch / 2 = i -> 2 <= ch -> hole c n K i ->
  0 <= c (K i) (K ch) ->
  (forall k, 2 <= k <= n -> k / 2 = i -> c (K ch) (K k) <= 0) ->
  exchanged K K' i ch -> hole_down c n K' ch.
Proof.
  intros Hi Hn Ech Hch [Hh Hg] Hge Hmin (Ei & Ec & Eo). apply cmp_flip_ge in Hge; [|done].
  split; [split|].
  - intros k Hk Hne Hne2. destruct (decide (k / 2 = i)) as [E|].
    + rewrite E, Ei, (Eo k) by (halves; lia). by apply Hmin.
    + destruct (decide (k = i)) as [->|].
      * rewrite Ei, (Eo (i / 2)) by (halves; lia). apply Hg; lia.
      * rewrite !Eo by (halves; lia). by apply Hh.
  - intros k Hk E _. rewrite Ech, Ei, (Eo k) by (halves; lia). rewrite <- E.
    apply Hh; halves; lia.
  - intros _. by rewrite Ech, Ei, Ec.
Qed.

(** [l'] has the nodes of [l] in another order within the cells [1 .. n], and
    the same cells elsewhere. *)
Definition rearranged (n : Z) (l l' : list muggle_heap_node) : Prop :=
  l' ≡ₚ l /\ forall j, ~ (1 <= j <= n) -> l' @@ j = l @@ j.

Lemma rearranged_refl n l : rearranged n l l.
Proof. by split. Qed.

Lemma rearranged_trans n l1 l2 l3 :
  rearranged n l1 l2 -> rearranged n l2 l3 -> rearranged n l1 l3.
Proof.
  intros [Hp1 He1] [Hp2 He2]. split; [by rewrite Hp2|].
  intros j Hj. by rewrite He2, He1.
Qed.

Lemma rearranged_seg n l l' :
  0 <= n < zlen l -> rearranged n l l' -> seg 1 (n + 1) l' ≡ₚ seg 1 (n + 1) l.
Proof.
  intros Hn [Hp He].
  assert (zlen l' = zlen l) by (unfold zlen; by rewrite Hp).
  apply seg_perm; [lia|lia|done| |]; intros j Hj; apply He; lia.
Qed.

(** Copying cell [j] to cell [i] moves the pending node from [i] to [j]. *)
Lemma move_node n l i j x nd :
  1 <= i <= n -> 1 <= j <= n -> i <> j -> n < zlen l -> l @@ j = Some x ->
  rearranged n (zinsert i nd l) (zinsert j nd (zinsert i x l)) /\
  exchanged (keyat (zinsert i nd l)) (keyat (zinsert j nd (zinsert i x l))) i j.
Proof.
  intros Hi Hj Hne Hn Hx.
  assert (zinsert j nd (zinsert i x l) = zinsert j nd (zinsert i x (zinsert i nd l))) as E
    by by rewrite zinsert_zinsert_eq.
  split; [split|].
  - rewrite E. apply swap_perm; [apply zlookup_zinsert_eq; lia| |done].
    by rewrite zlookup_zinsert_ne by lia.
  - intros k Hk. by rewrite !zlookup_zinsert_ne by lia.
  - unfold exchanged. repeat split; intros;
      rewrite !keyat_zinsert by (rewrite ?zlen_zinsert; lia);
      repeat case_decide; try done; try lia. symmetry. by apply keyat_Some.
Qed.

(** The result of a sift loop that started with [nd] pending at [i]. *)
Definition settled (n : Z) (nd : muggle_heap_node) (V : list muggle_heap_node)
    (r : Z * list muggle_heap_node) : Prop :=
  1 <= r.1 <= n /\ zlen r.2 = zlen V /\ ordered c n (keyat (zinsert r.1 nd r.2)) /\
  rearranged n V (zinsert r.1 nd r.2).

Lemma insert_loop_spec n nd idx l fuel :
  n < zlen l -> 1 <= idx <= n -> hole_up c n (keyat (zinsert idx nd l)) idx ->
  idx < Z.of_nat fuel ->
  wp (insert_loop c (key nd) fuel idx l) (settled n nd (zinsert idx nd l)).
Proof.
  intros Hn Hidx Hhole Hfuel. unfold insert_loop.
  apply (wp_loop _ (fun '(i, l') => 1 <= i <= n /\ zlen l' = zlen l /\
    hole_up c n (keyat (zinsert i nd l')) i /\
    rearranged n (zinsert idx nd l) (zinsert i nd l')) (fun '(i, _) => Z.to_nat i)).
  - intros [i l'] (Hi & Hl' & Hh & Hr). cbv zeta.
    assert (keyat (zinsert i nd l') i = key nd) as Ei
      by (rewrite keyat_zinsert, decide_True by lia; done).
    destruct (Z.eqb_spec (i / 2) 0).
    { apply wp_ret. unfold settled. simpl. rewrite zlen_zinsert.
      split_and!; [lia|lia|lia| |done].
      apply (hole_up_ordered _ _ i); [done|]. intros. halves. lia. }
    assert (1 <= i / 2 < i) as Hp by (halves; lia).
    apply wp_bind, wp_aget; [lia|]. intros P HP.
    assert (keyat (zinsert i nd l') (i / 2) = key P) as Ep
      by (rewrite keyat_zinsert, decide_False by lia; by apply keyat_Some).
    destruct (Z.leb_spec (c (key P) (key nd)) 0).
    + apply wp_ret. unfold settled. simpl. rewrite zlen_zinsert.
      split_and!; [lia|lia|lia| |done].
      apply (hole_up_ordered _ _ i); [done|]. intros _. by rewrite Ei, Ep.
    + apply wp_bind, wp_aset; [lia|]. apply wp_ret.
      destruct (move_node n l' i (i / 2) P nd) as [Hm Hx]; [lia..|done|].
      split; [|halves; lia]. rewrite zlen_zinsert. split_and!; [lia|lia|lia| |].
      * apply (hole_up_step (keyat (zinsert i nd l'))); [lia|apply Hh| |done].
        by rewrite Ei, Ep.
      * by eapply rearranged_trans.
  - split_and!; try done; try lia.
  - lia.
Qed.

Lemma smaller_child_spec n i l Q :
  1 <= i -> i * 2 <= n -> n < zlen l ->
  (forall ch, ch / 2 = i -> 2 <= ch <= n ->
     (forall k, 2 <= k <= n -> k / 2 = i -> c (keyat l ch) (keyat l k) <= 0) -> Q ch) ->
  wp (smaller_child c n i l) Q.
Proof.
  intros Hi Hle Hn HQ. unfold smaller_child.
  assert (forall k, k / 2 = i -> 0 <= k -> k = i * 2 \/ k = i * 2 + 1) as Hk
    by (intros k <- ?; halves; lia).
  assert ((i * 2) / 2 = i) by (by rewrite Z.div_mul by lia).
  assert ((i * 2 + 1) / 2 = i) by (symmetry; apply (Z.div_unique _ _ _ 1); lia).
  destruct (Z.eqb_spec (i * 2) n).
  - apply wp_ret, HQ; [done|lia|]. intros k ? E.
    destruct (Hk k E) as [->| ->]; [lia|by apply cmp_refl|lia].
  - apply wp_bind, wp_aget; [lia|]. intros c1 Hc1. apply wp_bind, wp_aget; [lia|].
    intros c0 Hc0. apply wp_ret. apply keyat_Some in Hc1, Hc0.
    destruct (Z.ltb_spec (c (key c1) (key c0)) 0) as [Hlt|Hge].
    + apply HQ; [done|lia|]. intros k ? E. destruct (Hk k E) as [->| ->]; [lia| |by apply cmp_refl].
      rewrite Hc1, Hc0. lia.
    + apply HQ; [done|lia|]. intros k ? E. destruct (Hk k E) as [->| ->]; [lia|by apply cmp_refl|].
      rewrite Hc1, Hc0. by apply cmp_flip_ge.
Qed.

(** The smaller child of [i] in [l] is the smaller child with [nd] pending at
    [i], and its key is the one to compare with. *)
Lemma pending_key l i nd k : 0 <= i < zlen l -> k <> i -> keyat (zinsert i nd l) k = keyat l k.
Proof. intros. by rewrite keyat_zinsert, decide_False by auto. Qed.

Lemma pending_key_eq l i nd : 0 <= i < zlen l -> keyat (zinsert i nd l) i = key nd.
Proof. intros. by rewrite keyat_zinsert, decide_True. Qed.

Lemma children_ne k i : 1 <= i -> k / 2 = i -> k <> i.
Proof. intros Hi E ->. destruct (decide (i = 0)); halves; lia. Qed.

(** The result of a percolation whose pending node [nd] stays in cell [n + 1]. *)
Lemma extract_loop_spec n nd l fuel :
  0 <= n -> n + 1 < zlen l -> l @@ (n + 1) = Some nd ->
  hole_down c n (keyat (zinsert 1 nd l)) 1 -> n + 1 < Z.of_nat fuel ->
  wp (extract_loop c n (n + 1) fuel 1 l) (fun r =>
    1 <= r.1 <= Z.max 1 n /\ zlen r.2 = zlen l /\ r.2 @@ (n + 1) = Some nd /\
    (1 <= n -> settled n nd (zinsert 1 nd l) r) /\ (n = 0 -> r = (1, l))).
Proof.
  intros Hn0 Hn Hnd Hhole Hfuel. unfold extract_loop.
  destruct (decide (n = 0)) as [->|Hn1].
  { destruct fuel as [|fuel]; [lia|]. simpl. by auto with lia. }
  apply (wp_loop _ (fun '(i, l') => 1 <= i <= n /\ zlen l' = zlen l /\
    l' @@ (n + 1) = Some nd /\ hole_down c n (keyat (zinsert i nd l')) i /\
    rearranged n (zinsert 1 nd l) (zinsert i nd l')) (fun '(i, _) => Z.to_nat (n - i))).
  - intros [i l'] (Hi & Hl' & Hlast & Hh & Hr).
    assert (ordered c n (keyat (zinsert i nd l')) ->
      1 <= i <= Z.max 1 n /\ zlen l' = zlen l /\ l' @@ (n + 1) = Some nd /\
      (1 <= n -> settled n nd (zinsert 1 nd l) (i, l')) /\ (n = 0 -> (i, l') = (1, l))) as Hstop.
    { intros Ho. unfold settled. simpl. rewrite zlen_zinsert. repeat split; done || lia || auto; apply Hr. }
    destruct (Z.leb_spec (i * 2) n).
    + apply wp_bind, smaller_child_spec; [lia..|]. intros ch Ech Hch Hmin.
      pose proof (children_ne ch i (proj1 Hi) Ech).
      apply wp_bind, wp_aget; [lia|]. rewrite Hlast. intros ? [= <-].
      apply wp_bind, wp_aget; [lia|]. intros x Hx.
      assert (forall k, 2 <= k <= n -> k / 2 = i ->
        c (keyat (zinsert i nd l') ch) (keyat (zinsert i nd l') k) <= 0) as Hmin'.
      { intros k Hk E. pose proof (children_ne k i (proj1 Hi) E).
        rewrite !pending_key by lia. auto. }
      destruct (Z.leb_spec 0 (c (key nd) (key x))) as [Hge|Hlt].
      * apply wp_bind, wp_aset; [lia|]. apply wp_ret.
        destruct (move_node n l' i ch x nd) as [Hm Hex]; [lia..|done|].
        split; [|halves; lia]. rewrite zlen_zinsert, zlookup_zinsert_ne by lia.
        split_and!; [lia|lia|lia|done| |by eapply rearranged_trans].
        eapply (hole_down_step (keyat (zinsert i nd l'))); [..|exact Hex]; try lia; try done.
        -- apply Hh.
        -- rewrite pending_key_eq, pending_key, (keyat_Some _ _ _ Hx) by lia. done.
      * apply wp_ret, Hstop. apply (hole_down_ordered _ _ i); [done|]. intros k Hk E.
        apply (cmp_trans _ (key x)).
        -- rewrite pending_key_eq by lia. lia.
        -- rewrite <- (keyat_Some _ _ _ Hx), <- (pending_key l' i nd ch) by lia. auto.
    + apply wp_ret, Hstop. apply (hole_down_ordered _ _ i); [done|].
      intros k Hk E. halves. lia.
  - split_and!; try done; lia.
  - lia.
Qed.

Lemma hole_ordered K n i :
  hole c n K i -> (2 <= i <= n -> c (K (i / 2)) (K i) <= 0) ->
  (forall k, 2 <= k <= n -> k / 2 = i -> c (K i) (K k) <= 0) -> ordered c n K.
Proof. intros Hh Hu Hd. apply (hole_up_ordered _ _ i); [by split|done]. Qed.

(** Whether the pending node is below the parent of [i], as a bound on the
    iterations left: a move up is never followed by a move down. *)
Definition remove_measure (n : Z) (nd : muggle_heap_node)
    (st : Z * list muggle_heap_node) : nat :=
  let '(i, l) := st in
  if bool_decide (i / 2 <> 0 /\ c (key nd) (keyat l (i / 2)) < 0)
  then Z.to_nat (n + 2 + i) else Z.to_nat (n - i).

Lemma remove_loop_spec n nd idx l fuel :
  n + 1 < zlen l -> l @@ (n + 1) = Some nd -> 1 <= idx <= n ->
  hole c n (keyat (zinsert idx nd l)) idx -> 2 * n + 2 < Z.of_nat fuel ->
  wp (remove_loop c n (n + 1) fuel idx l) (fun r =>
    settled n nd (zinsert idx nd l) r /\ r.2 @@ (n + 1) = Some nd).
Proof.
  intros Hn Hnd Hidx Hhole Hfuel. unfold remove_loop.
  apply (wp_loop _ (fun '(i, l') => 1 <= i <= n /\ zlen l' = zlen l /\
    l' @@ (n + 1) = Some nd /\ hole c n (keyat (zinsert i nd l')) i /\
    rearranged n (zinsert idx nd l) (zinsert i nd l')) (remove_measure n nd)).
  2: { split_and!; try done; lia. }
  2: { unfold remove_measure. case_bool_decide; lia. }
  intros [i l'] (Hi & Hl' & Hlast & Hh & Hr). cbv zeta.
  apply wp_bind, wp_aget; [lia|]. rewrite Hlast. intros ? [= <-].
  assert (keyat (zinsert i nd l') i = key nd) as Ei by (apply pending_key_eq; lia).
  apply wp_bind. eapply (wp_mono _ (fun up =>
    match up with
    | Some P => 1 <= i / 2 < i /\ l' @@ (i / 2) = Some P /\ c (key nd) (key P) < 0
    | None => 2 <= i -> 0 <= c (key nd) (keyat l' (i / 2))
    end)).
  { destruct (Z.eqb_spec (i / 2) 0); cbn [negb]; [apply wp_ret; intros; halves; lia|].
    assert (1 <= i / 2 < i) by (halves; lia).
    apply wp_bind, wp_aget; [lia|]. intros P HP. apply wp_ret.
    destruct (Z.ltb_spec (c (key nd) (key P)) 0); [done|].
    intros _. by rewrite (keyat_Some _ _ _ HP). }
  intros [P|] Hup.
  - destruct Hup as (Hp & HP & Hlt). apply wp_bind, wp_aset; [lia|]. apply wp_ret.
    destruct (move_node n l' i (i / 2) P nd) as [Hm Hx]; [lia..|done|].
    split.
    + rewrite zlen_zinsert, zlookup_zinsert_ne by lia.
      split; [lia|]. split; [lia|]. split; [done|].
      split; [|by eapply rearranged_trans].
      apply (hole_up_step (keyat (zinsert i nd l')) _ n i); [lia|done| |done].
      rewrite Ei, pending_key, (keyat_Some _ _ _ HP) by lia. apply (cmp_sym _ _), Hlt.
    + unfold remove_measure. rewrite bool_decide_true with (P := i / 2 <> 0 /\ _)
        by (rewrite (keyat_Some _ _ _ HP); lia). case_bool_decide; lia.
  - assert (2 <= i <= n -> c (keyat (zinsert i nd l') (i / 2)) (keyat (zinsert i nd l') i) <= 0)
      as Hup'.
    { intros. rewrite Ei, pending_key by (halves; lia). apply cmp_flip_ge; [done|]. apply Hup. lia. }
    assert (ordered c n (keyat (zinsert i nd l')) ->
      settled n nd (zinsert idx nd l) (i, l') /\ l' @@ (n + 1) = Some nd) as Hstop.
    { intros Ho. split; [|done]. unfold settled. simpl. rewrite zlen_zinsert.
      split; [lia|]. split; [lia|]. by split. }
    destruct (Z.leb_spec (i * 2) n).
    2: { apply wp_ret, Hstop, (hole_ordered _ _ i); [done|done|]. intros k Hk E. halves. lia. }
    apply wp_bind.
    match goal with |- wp ?m _ => replace m with (smaller_child c n i l') end.
    2: { unfold smaller_child. destruct (Z.ltb_spec (i * 2) n), (Z.eqb_spec (i * 2) n);
         done || lia. }
    apply smaller_child_spec; [lia..|]. intros ch Ech Hch Hmin.
    pose proof (children_ne ch i (proj1 Hi) Ech).
    apply wp_bind, wp_aget; [lia|]. intros x Hx.
    assert (forall k, 2 <= k <= n -> k / 2 = i ->
      c (keyat (zinsert i nd l') ch) (keyat (zinsert i nd l') k) <= 0) as Hmin'.
    { intros k Hk E. pose proof (children_ne k i (proj1 Hi) E).
      rewrite !pending_key by lia. auto. }
    assert (keyat (zinsert i nd l') ch = key x) as Ech'
      by (rewrite pending_key by lia; by apply keyat_Some).
    destruct (Z.leb_spec 0 (c (key nd) (key x))) as [Hge|Hlt].
    + apply wp_bind, wp_aset; [lia|]. apply wp_ret.
      destruct (move_node n l' i ch x nd) as [Hm Hex]; [lia..|done|].
      split.
      * rewrite zlen_zinsert, zlookup_zinsert_ne by lia.
        split; [lia|]. split; [lia|]. split; [done|]. split; [|by eapply rearranged_trans].
        eapply (hole_down_step (keyat (zinsert i nd l'))); [..|exact Hex]; try lia; try done.
        by rewrite Ei, Ech'.
      * unfold remove_measure. rewrite !bool_decide_false; [halves; lia| |].
        -- intros [? Hc]. specialize (Hup ltac:(halves; lia)). lia.
        -- rewrite Ech, pending_key_eq by lia. lia.
    + apply wp_ret, Hstop, (hole_ordered _ _ i); [done|done|]. intros k Hk E.
      apply (cmp_trans _ (key x)); [rewrite Ei; lia|]. rewrite <- Ech'. auto.
Qed.
End order.

(** Growing copies the live cells. *)
Lemma heap_ensure_capacity_spec `{Malloc muggle_heap_node} h cap :
  wf h -> 0 <= cap < 2 ^ 58 ->
  wp (muggle_heap_ensure_capacity h cap) (fun r =>
    let (ok, h') := r in
    if ok then wf h' /\ elems h' = elems h /\ size h' = size h /\ cmp h' = cmp h /\
               cap <= capacity h'
    else h' = h).
Proof.
  intros Hwf Hcap. pose proof Hwf as []. unfold muggle_heap_ensure_capacity.
  destruct (Z.leb_spec cap (capacity h)); [by apply wp_ret; auto with lia|].
  destruct (MUGGLE_DS_CAP_IS_VALID cap); [|done]. cbn [negb].
  rewrite wrap_small by lia.
  destruct (malloc_array sizeof_node (cap + 1)) as [l|] eqn:Em; [|done].
  apply malloc_array_len in Em; unfold sizeof_node in *; [|lia..].
  apply wp_bind. apply (wp_for_up (fun i l' => zlen l' = zlen l /\ agree 1 (i + 1) l' (nodes h))).
  - split; [done|]. intros i ?. lia.
  - intros i l' Hi [Hlen Hag]. apply wp_bind, wp_aget; [lia|]. intros x Hx.
    apply wp_aset; [lia|]. split; [by rewrite zlen_zinsert|].
    intros j Hj. rewrite zlookup_zinsert by lia. case_decide; [by subst|]. apply Hag. lia.
  - intros l' [Hlen Hag]. apply wp_ret.
    replace (Z.max 0 (size h)) with (size h) in Hag by lia.
    split; [|split; [apply seg_ext; simpl; done || lia|simpl; auto with lia]].
    split; simpl; try lia. intros k Hk. unfold keyat.
    rewrite !Hag by (halves; lia). by apply wf_ordered0.
Qed.

Lemma elems_insert_end h nd :
  wf h -> size h < capacity h ->
  seg 1 (size h + 2) (zinsert (size h + 1) nd (nodes h)) = elems h ++ [nd].
Proof.
  intros [] ?. rewrite (seg_app 1 (size h + 1)) by lia. f_equal.
  - apply seg_ext; rewrite ?zlen_zinsert; try lia. intros j Hj.
    by rewrite zlookup_zinsert_ne by lia.
  - replace (size h + 2) with (size h + 1 + 1) by lia.
    apply seg_single, zlookup_zinsert_eq. lia.
Qed.

(** Insert, for its callers: below the capacity it succeeds in place. *)
Lemma heap_insert_wp `{Malloc muggle_heap_node} h k v :
  wf h -> CmpOrder (cmp h) -> capacity h < 2 ^ 57 ->
  wp (muggle_heap_insert h k v) (fun r => let '(ok, h') := (r : bool * muggle_heap) in
    wf h' /\ cmp h' = cmp h /\
    (if ok then elems h' ≡ₚ mkn k v :: elems h else h' = h /\ size h = capacity h) /\
    (size h < capacity h -> capacity h' = capacity h)).
Proof.
  intros Hwf Hcmp Hcap. unfold muggle_heap_insert. apply wp_bind.
  apply (wp_mono _ (fun r => let (ok, q) := (r : bool * muggle_heap) in
    (if ok then wf q /\ elems q = elems h /\ size q < capacity q /\ cmp q = cmp h
     else q = h /\ size h = capacity h) /\ (size h < capacity h -> capacity q = capacity h))).
  { pose proof Hwf as []. destruct (Z.eqb_spec (capacity h) (size h)) as [E|].
    - rewrite wrap_small by lia. eapply wp_mono; [apply heap_ensure_capacity_spec; [done|lia]|].
      intros [[] q]; [|intros ->; auto with lia]. intros (Hq & He & Hs & Hc & Hge).
      split; [|lia]. split; [done|]. split; [done|]. split; [lia|done].
    - apply wp_ret. split; [|done]. split; [done|]. split; [done|]. split; [lia|done]. }
  intros [[] q]; [|by intros [[-> ?] ?]]. intros [(Hq & He & Hlt & Hc) Hcq]. cbn [negb].
  rewrite <- Hc in Hcmp. pose proof Hq as []. rewrite wrap_small by lia. apply wp_bind.
  set (n := size q + 1). set (nd := mkn k v).
  eapply wp_mono; [apply (insert_loop_spec (cmp q) n nd); try lia|].
  { split; [split|]; intros j; intros; try (halves; lia).
    rewrite !keyat_zinsert, !decide_False by (halves; lia). apply wf_ordered0. lia. }
  intros [i l'] (Hi & Hl & Ho & Hr). simpl in *.
  apply wp_bind, wp_aset; [rewrite zlen_zinsert in Hl; lia|]. apply wp_ret.
  split; [|split; [done|split; [|done]]].
  - split; simpl; rewrite ?zlen_zinsert in *; done || lia.
  - unfold elems at 1. simpl. rewrite (rearranged_seg n (zinsert n nd (nodes q)))
      by (rewrite ?zlen_zinsert; done || lia).
    replace (n + 1) with (size q + 2) by lia. unfold n.
    rewrite elems_insert_end by done. by rewrite He, Permutation_app_comm.
Qed.

(** Insert keeps the heap order and adds exactly the given node, or fails
    without effect when the heap was full and could not grow. *)
Theorem heap_insert_spec `{Malloc muggle_heap_node} h k v :
  wf h -> CmpOrder (cmp h) -> capacity h < 2 ^ 57 ->
  exists ok h', muggle_heap_insert h k v = Done (ok, h') /\ wf h' /\ cmp h' = cmp h /\
    if ok then elems h' ≡ₚ mkn k v :: elems h
    else h' = h /\ size h = capacity h.
Proof.
  intros Hwf Hcmp Hcap.
  destruct (proj1 (wp_Done _ _) (heap_insert_wp h k v Hwf Hcmp Hcap)) as ([ok h'] & ? & ?).
  naive_solver.
Qed.

(** The nodes of a heap are its root and the rest. *)
Lemma elems_root h n :
  wf h -> nodes h @@ 1 = Some n -> 1 <= size h ->
  elems h = n :: seg 2 (size h + 1) (nodes h).
Proof.
  intros [] Hn Hs. unfold elems. rewrite (seg_app 1 2) by lia.
  change 2 with (1 + 1) at 1. by rewrite (seg_single 1 _ n Hn).
Qed.

(** What extract does, for its callers. *)
Definition extracted (h : muggle_heap) (r : option muggle_heap_node * muggle_heap) : Prop :=
  let (o, h') := r in
  wf h' /\ cmp h' = cmp h /\
  match o with
  | None => h' = h /\ elems h = []
  | Some n => elems h ≡ₚ n :: elems h' /\
              Forall (fun m => cmp h (key n) (key m) <= 0) (elems h)
  end.

Lemma heap_extract_wp h : wf h -> CmpOrder (cmp h) -> wp (muggle_heap_extract h) (extracted h).
Proof.
  intros Hwf Hcmp. pose proof Hwf as [].
  unfold muggle_heap_extract, muggle_heap_is_empty.
  destruct (Z.eqb_spec (size h) 0) as [E|Hne].
  { apply wp_ret. unfold extracted, elems. rewrite E. by rewrite seg_empty. }
  apply wp_bind, wp_aget; [lia|]. intros root Hroot. cbv zeta.
  rewrite wrap_small by lia. set (n := size h - 1).
  destruct (zlookup_is_Some (nodes h) (size h)) as [last Hlast]; [lia|].
  apply wp_bind. replace (size h) with (n + 1) in Hlast |- * by lia.
  assert (Forall (fun m => cmp h (key root) (key m) <= 0) (elems h)) as Hmin.
  { apply Forall_lookup. intros i m Hm. rewrite <- (Nat2Z.id i), <- zlookup_nonneg in Hm by lia.
    unfold elems in Hm. rewrite zlookup_seg in Hm by lia. case_decide; [|done].
    rewrite <- (keyat_Some _ _ _ Hroot), <- (keyat_Some _ _ _ Hm).
    apply (ordered_root _ _ (size h)); [done|lia]. }
  eapply wp_mono; [apply (extract_loop_spec (cmp h) n last); try done; try lia|].
  { split; [|lia]. apply (ordered_hole (cmp h) (keyat (nodes h))).
    - intros k Hk. apply wf_ordered0. lia.
    - intros k Hk. apply pending_key; lia. }
  intros [i l'] (Hi & Hl & Hl' & Hset & H0). simpl in *.
  apply wp_bind, wp_aget; [lia|]. rewrite Hl'. intros ? [= <-].
  apply wp_bind, wp_aset; [lia|]. apply wp_ret.
  destruct (decide (n = 0)) as [E|].
  - injection (H0 E) as -> ->. replace (n + 1) with 1 in Hlast by lia.
    assert (root = last) as -> by congruence. rewrite zinsert_id by done.
    split; [split; simpl; try done; try lia; intros k; lia|]. split; [done|].
    split; [|done]. unfold elems at 2. simpl. rewrite E, seg_empty.
    rewrite (elems_root h last) by (done || lia). replace (size h) with 1 by lia.
    by rewrite seg_empty.
  - destruct Hset as (_ & _ & Ho & Hr); [lia|]. simpl in *.
    split; [split; simpl; rewrite ?zlen_zinsert; done || lia|]. split; [done|].
    split; [|done]. rewrite (elems_root h root) by (done || lia). apply perm_skip.
    unfold elems. simpl. rewrite (rearranged_seg n (zinsert 1 last (nodes h)))
      by (rewrite ?zlen_zinsert; done || lia).
    rewrite (seg_app 2 (n + 1)), (seg_app 1 2 (n + 1)) by lia.
    replace (size h + 1) with (n + 1 + 1) by lia. rewrite (seg_single (n + 1) _ last) by done.
    change 2 with (1 + 1) at 2.
    rewrite (seg_single 1 _ last) by (apply zlookup_zinsert_eq; lia).
    rewrite Permutation_app_comm. apply perm_skip.
    erewrite seg_ext; [done|lia|rewrite ?zlen_zinsert; lia..|].
    intros j Hj. by rewrite zlookup_zinsert_ne by lia.
Qed.

(** Extract returns the node with the least key, removes exactly it and
    keeps the heap order; on an empty heap it returns nothing. *)
Theorem heap_extract_min h :
  wf h -> CmpOrder (cmp h) ->
  exists r h', muggle_heap_extract h = Done (r, h') /\ wf h' /\ cmp h' = cmp h /\
    match r with
    | None => h' = h /\ elems h = []
    | Some n => elems h ≡ₚ n :: elems h' /\
                Forall (fun m => cmp h (key n) (key m) <= 0) (elems h)
    end.
Proof.
  intros Hwf Hcmp.
  destruct (proj1 (wp_Done _ _) (heap_extract_wp h Hwf Hcmp)) as ([r h'] & ? & ?). by exists r, h'.
Qed.

(** Replacing the node in cell [i] by the last one removes it from the bag. *)
Lemma elems_replace (l : list muggle_heap_node) n i nd last :
  1 <= i <= n -> n + 1 < zlen l -> l @@ i = Some nd -> l @@ (n + 1) = Some last ->
  seg 1 (n + 2) l ≡ₚ nd :: seg 1 (n + 1) (zinsert i last l).
Proof.
  intros Hi Hn Hnd Hlast.
  rewrite (seg_app 1 (n + 1)) by lia. replace (n + 2) with (n + 1 + 1) by lia.
  rewrite (seg_single (n + 1) _ last) by done.
  rewrite (seg_app 1 i (n + 1)), (seg_app 1 i (n + 1) (zinsert _ _ _)) by lia.
  rewrite (seg_app i (i + 1)), (seg_app i (i + 1) (n + 1) (zinsert _ _ _)) by lia.
  rewrite (seg_single i _ nd), (seg_single i _ last) by (done || apply zlookup_zinsert_eq; lia).
  rewrite (seg_ext 1 i (zinsert i last l) l), (seg_ext (i + 1) (n + 1) (zinsert i last l) l);
    try (rewrite ?zlen_zinsert; lia); try (intros j Hj; by rewrite zlookup_zinsert_ne by lia).
  solve_Permutation.
Qed.

(** The loop of remove on the last cell, whose own key is already NULL. *)
Lemma remove_loop_last c `{!CmpOrder c} n l fuel :
  0 <= n -> n + 1 < zlen l -> ordered c n (keyat l) -> 2 * n + 3 < Z.of_nat fuel ->
  wp (remove_loop c n (n + 1) fuel (n + 1) l) (fun r =>
    1 <= r.1 <= n + 1 /\ zlen r.2 = zlen l /\
    exists nd, r.2 @@ (n + 1) = Some nd /\
      ordered c n (keyat (zinsert r.1 nd r.2)) /\
      seg 1 (n + 1) (zinsert r.1 nd r.2) ≡ₚ seg 1 (n + 1) l).
Proof.
  intros Hn0 Hn Ho Hfuel. destruct fuel as [|fuel]; [lia|].
  destruct (zlookup_is_Some l (n + 1)) as [nd Hnd]; [lia|].
  unfold remove_loop. cbn [loop]. apply wp_bind. cbv zeta.
  apply wp_bind, wp_aget; [lia|]. rewrite Hnd. intros ? [= <-].
  assert (1 <= n + 1 <= n + 1 /\ zlen l = zlen l /\
    exists nd, l @@ (n + 1) = Some nd /\ ordered c n (keyat (zinsert (n + 1) nd l)) /\
      seg 1 (n + 1) (zinsert (n + 1) nd l) ≡ₚ seg 1 (n + 1) l) as Hstop.
  { split; [lia|]. split; [done|]. exists nd. rewrite zinsert_id by done. by split. }
  apply wp_bind. eapply (wp_mono _ (fun up => match up with
    | Some P => 1 <= (n + 1) / 2 <= n /\ l @@ ((n + 1) / 2) = Some P
    | None => True end)).
  { destruct (Z.eqb_spec ((n + 1) / 2) 0); cbn [negb]; [done|].
    assert (1 <= (n + 1) / 2 <= n) by (halves; lia).
    apply wp_bind, wp_aget; [lia|]. intros P HP. apply wp_ret.
    by destruct (_ <? 0). }
  intros [P|] Hup; cbv beta iota.
  2: { destruct (Z.leb_spec ((n + 1) * 2) n); [lia|]. by apply wp_ret. }
  destruct Hup as [Hp HP]. set (p := (n + 1) / 2) in *.
  apply wp_bind, wp_aset; [lia|]. apply wp_ret. cbv beta iota.
  set (l1 := zinsert (n + 1) P l).
  assert (zlen l1 = zlen l) as Hl1 by apply zlen_zinsert.
  assert (l1 @@ p = Some P) as HP1 by (unfold l1; by rewrite zlookup_zinsert_ne by lia).
  eapply wp_mono; [apply (remove_loop_spec c n P p l1); try lia|].
  { unfold l1. apply zlookup_zinsert_eq. lia. }
  { apply (ordered_hole c (keyat l)); [done|]. intros k Hk Hne.
    rewrite zinsert_id by done. apply pending_key; lia. }
  intros [i l'] ((Hi & Hl & Ho' & Hr) & Hl'). simpl in *.
  rewrite (zinsert_id l1 p P) in Hl, Hr by done.
  split; [lia|]. split; [lia|]. exists P. split; [done|]. split; [done|].
  rewrite (rearranged_seg n l1) by (rewrite ?zlen_zinsert; done || lia).
  erewrite seg_ext; [done|lia..|]. intros j Hj. apply zlookup_zinsert_ne; lia.
Qed.

(** The bag of nodes once the pending last node has been put in its place. *)
Definition removed_result (c : ptr -> ptr -> Z) (n : Z) (l0 : list muggle_heap_node)
    (nd : muggle_heap_node) (r : Z * list muggle_heap_node) : Prop :=
  1 <= r.1 <= n + 1 /\ zlen r.2 = zlen l0 /\
  exists last, r.2 @@ (n + 1) = Some last /\
    ordered c n (keyat (zinsert r.1 last r.2)) /\
    seg 1 (n + 2) l0 ≡ₚ nd :: seg 1 (n + 1) (zinsert r.1 last r.2).

(** The loop of remove, started on the array [l] whose cell [i] has been
    emptied of [nd]. *)
Lemma remove_loop_removed c `{!CmpOrder c} n l i nd nd' fuel :
  0 <= n -> n + 1 < zlen l -> 1 <= i <= n + 1 -> l @@ i = Some nd ->
  ordered c (n + 1) (keyat l) -> 2 * n + 3 < Z.of_nat fuel ->
  wp (remove_loop c n (n + 1) fuel i (zinsert i nd' l)) (removed_result c n l nd).
Proof.
  intros Hn0 Hn Hi Hnd Ho Hfuel.
  assert (ordered c n (keyat l)) as Ho' by (intros k ?; apply Ho; lia).
  destruct (decide (i = n + 1)) as [->|Hne].
  - eapply wp_mono; [apply (remove_loop_last c n); rewrite ?zlen_zinsert; try lia|].
    { intros k Hk. rewrite !pending_key by (halves; lia). by apply Ho'. }
    intros r (Hr & Hl & last & Hlast & Hord & Hp). rewrite zlen_zinsert in Hl.
    split; [done|]. split; [done|]. exists last. split; [done|]. split; [done|].
    rewrite Hp, (seg_app 1 (n + 1) (n + 2)) by lia. replace (n + 2) with (n + 1 + 1) by lia.
    rewrite (seg_single _ _ nd) by done. rewrite Permutation_app_comm. simpl.
    apply perm_skip. rewrite (seg_ext 1 (n + 1) (zinsert (n + 1) nd' l) l); [done|..];
      rewrite ?zlen_zinsert; try lia.
    intros j Hj. apply zlookup_zinsert_ne; lia.
  - destruct (zlookup_is_Some l (n + 1)) as [last Hlast]; [lia|].
    eapply wp_mono; [apply (remove_loop_spec c n last); rewrite ?zlen_zinsert; try lia|].
    + by rewrite zlookup_zinsert_ne by lia.
    + rewrite zinsert_zinsert_eq. apply (ordered_hole c (keyat l)); [done|].
      intros k Hk ?. apply pending_key; lia.
    + intros r [(Hr & Hl & Hord & Hre) Hrl]. rewrite zinsert_zinsert_eq in Hre.
      rewrite !zlen_zinsert in Hl. split; [lia|]. split; [done|].
      exists last. split; [done|]. split; [done|].
      rewrite (elems_replace l n i nd last) by (done || lia). apply perm_skip.
      symmetry. apply rearranged_seg; [rewrite zlen_zinsert; lia|done].
Qed.

(** Remove frees the node's key and value with the given callbacks, takes
    exactly that node out of the heap and keeps the heap order; a pointer that
    is not one of the heap's nodes is rejected without effect. *)
Theorem heap_remove_spec h node kf vf :
  wf h -> CmpOrder (cmp h) ->
  exists ok fk fv h', muggle_heap_remove h node kf vf = Done (ok, fk, fv, h') /\
    wf h' /\ cmp h' = cmp h /\
    match nodes h @@ node with
    | Some nd =>
        if decide (1 <= node <= size h) then
          ok = true /\ fk = (free_node kf vf nd).1.1 /\ fv = (free_node kf vf nd).1.2 /\
          elems h ≡ₚ nd :: elems h'
        else ok = false /\ fk = [] /\ fv = [] /\ h' = h
    | None => ok = false /\ fk = [] /\ fv = [] /\ h' = h
    end.
Proof.
  intros Hwf Hcmp. pose proof Hwf as [].
  unfold muggle_heap_remove, muggle_heap_is_empty.
  set (fuel := (2 * (Z.to_nat (size h) + 2))%nat).
  destruct (Z.eqb_spec (size h) 0) as [E|Hne].
  { eexists _, _, _, _. split; [done|]. split; [done|]. split; [done|].
    case_match; [|done]. by rewrite decide_False by lia. }
  destruct (Z.leb_spec node 0); [|destruct (Z.ltb_spec (size h) node)]; cbn [orb].
  1,2: eexists _, _, _, _; split; [done|]; split; [done|]; split; [done|];
       case_match; [|done]; by rewrite decide_False by lia.
  destruct (zlookup_is_Some (nodes h) node) as [nd Hnd]; [lia|].
  rewrite Hnd. destruct (decide (1 <= node <= size h)); [|lia]. rewrite (aget_Some _ _ _ Hnd).
  unfold free_node. simpl. rewrite aset_zinsert by lia. simpl. rewrite wrap_small by lia.
  set (n := size h - 1). replace (size h) with (n + 1) in * by lia.
  pose proof (remove_loop_removed (cmp h) n (nodes h) node nd (mkn NULL NULL) fuel
    ltac:(lia) ltac:(lia) ltac:(lia) Hnd wf_ordered0 ltac:(lia)) as Hloop.
  apply wp_Done in Hloop as ([i l'] & El & Hi & Hl' & last & Hlast & Ho & Hp). simpl in *.
    rewrite El. simpl. rewrite (aget_Some _ _ _ Hlast). simpl. rewrite aset_zinsert by lia.
  simpl. eexists _, _, _, _. split; [done|]. split; [|split; [done|]].
  - split; simpl; rewrite ?zlen_zinsert; done || lia.
  - split; [done|]. split; [done|]. split; [done|]. unfold elems. simpl.
    replace (size h + 1) with (n + 2) by lia. done.
Qed.

Lemma heap_init_spec `{Malloc muggle_heap_node} c n h :
  0 < n < 2 ^ 58 -> muggle_heap_init (Some c) n = (true, Some h) ->
  wf h /\ elems h = [] /\ cmp h = c /\ size h = 0 /\ capacity h = n.
Proof.
  intros Hn. unfold muggle_heap_init. rewrite (proj2 (Z.eqb_neq n 0)) by lia.
  destruct (MUGGLE_DS_CAP_IS_VALID n); [|done]. cbn [negb]. rewrite wrap_small by lia.
  destruct (malloc_array sizeof_node (n + 1)) as [l|] eqn:Em; [|done]. intros [= <-].
  apply malloc_array_len in Em; unfold sizeof_node in *; [|lia..].
  split; [|by unfold elems; simpl; rewrite seg_empty].
  split; simpl; try lia. intros k. lia.
Qed.

(** Clear empties the heap and stays inside the array. *)
Lemma heap_clear_wp h kf vf :
  wf h -> wp (muggle_heap_clear h kf vf) (fun r => wf r.2 /\ elems r.2 = [] /\ size r.2 = 0).
Proof.
  intros []. unfold muggle_heap_clear. apply wp_bind.
  apply (wp_for_up (fun _ st => zlen st.2 = zlen (nodes h))); [done| |].
  - intros i [[fk fv] l] Hi Hl. simpl in Hl. apply wp_bind, wp_aget; [lia|]. intros nd Hnd.
    cbn [free_node]. apply wp_bind, wp_aset; [lia|]. apply wp_ret. simpl.
    by rewrite zlen_zinsert.
  - intros [[fk fv] l] Hl. simpl in Hl. apply wp_ret. simpl.
    split; [|by unfold elems; simpl; rewrite seg_empty].
    split; simpl; try lia. intros k. lia.
Qed.

(** A heap holds [size] nodes. *)
Lemma elems_size h : wf h -> zlen (elems h) = size h.
Proof. intros []. unfold elems. rewrite zlen_seg by lia. lia. Qed.

(** ** Witnesses *)
Definition sample : muggle_heap :=
  mk 8 5 [mkn 0 0; mkn 2 20; mkn 5 50; mkn 3 30; mkn 9 90; mkn 6 60;
          mkn 0 0; mkn 0 0; mkn 0 0] cmp_addr.

Lemma heap_sample_wf : wf sample.
Proof.
  split; simpl; try done. intros k Hk.
  assert (k = 2 \/ k = 3 \/ k = 4 \/ k = 5) as [->|[->|[->| ->]]] by lia; by vm_compute.
Qed.

Lemma heap_insert_spec_witness :
  exists ok h', @muggle_heap_insert (malloc_zeroed (mkn 0 0)) sample 1 10 = Done (ok, h') /\
    wf h' /\ cmp h' = cmp sample /\
    if ok then elems h' ≡ₚ mkn 1 10 :: elems sample
    else h' = sample /\ size sample = capacity sample.
Proof.
  apply (@heap_insert_spec (malloc_zeroed (mkn 0 0)) sample 1 10);
    [apply heap_sample_wf | apply cmp_addr_order | done].
Defined.

Lemma heap_extract_min_witness :
  exists r h', muggle_heap_extract sample = Done (r, h') /\ wf h' /\ cmp h' = cmp sample /\
    match r with
    | None => h' = sample /\ elems sample = []
    | Some n => elems sample ≡ₚ n :: elems h' /\
                Forall (fun m => cmp sample (key n) (key m) <= 0) (elems sample)
    end.
Proof. apply (heap_extract_min sample); [apply heap_sample_wf | apply cmp_addr_order]. Defined.

Lemma heap_remove_spec_witness :
  exists ok fk fv h', muggle_heap_remove sample 3 true true = Done (ok, fk, fv, h') /\
    wf h' /\ cmp h' = cmp sample /\
    ok = true /\ fk = [3] /\ fv = [30] /\ elems sample ≡ₚ mkn 3 30 :: elems h'.
Proof. apply (heap_remove_spec sample 3 true true); [apply heap_sample_wf | apply cmp_addr_order]. Defined.

End Heap.
