(* ===== verification/Sort.v ===== *)
(** muggle/c/dsaa/sort.c: insertion, shell, heap, merge and quick sort over an
    array of [void*] with a client comparison.  Each of them is shown to
    terminate, to stay inside the array, and to leave a sorted permutation of
    it, for every comparison that is a total preorder. *)

From stdpp Require Import base list numbers sorting.
From Stdlib Require Import ZArith Lia.
From S2P Require Import Prelude Dsaa Heap.

Open Scope Z_scope.

Module Sort.

(** ** The code

    [ptr + off] is the array with the offset [off]. *)
Definition insertion_inner (cmp : ptr -> ptr -> Z) (off : Z) (tmp : ptr) (fuel : nat)
    (i : Z) (l : list ptr) : outcome (Z * list ptr) :=
  loop fuel (fun st =>
    let '(j, l) := (st : Z * list ptr) in
    if 0 <? j then
      p ← aget l (off + (j - 1));
      if 0 <? cmp p tmp then
        l' ← aset l (off + j) p; mret (inl (j - 1, l'))
      else mret (inr (j, l))
    else mret (inr (j, l))) (i, l).

Definition muggle_insertion_sort (l : list ptr) (off count : Z) (cmp : ptr -> ptr -> Z)
  : outcome (bool * list ptr) :=
  l' ← for_up 1 count (fun i l =>
         tmp ← aget l (off + i);
         r ← insertion_inner cmp off tmp (Z.to_nat i + 1) i l;
         let '(j, l) := (r : Z * list ptr) in
         aset l (off + j) tmp) l;
  mret (true, l').

Definition shell_inner (cmp : ptr -> ptr -> Z) (increment : Z) (tmp : ptr) (fuel : nat)
    (i : Z) (l : list ptr) : outcome (Z * list ptr) :=
  loop fuel (fun st =>
    let '(j, l) := (st : Z * list ptr) in
    if increment <=? j then
      p ← aget l (j - increment);
      if cmp tmp p <? 0 then
        l' ← aset l j p; mret (inl (j - increment, l'))
      else mret (inr (j, l))
    else mret (inr (j, l))) (i, l).

Definition shell_pass (cmp : ptr -> ptr -> Z) (count increment : Z) (l : list ptr)
  : outcome (list ptr) :=
  for_up increment count (fun i l =>
    tmp ← aget l i;
    r ← shell_inner cmp increment tmp (Z.to_nat i + 1) i l;
    let '(j, l) := (r : Z * list ptr) in
    aset l j tmp) l.

Definition muggle_shell_sort (l : list ptr) (count : Z) (cmp : ptr -> ptr -> Z)
  : outcome (bool * list ptr) :=
  l' ← loop (Z.to_nat count + 1) (fun st =>
         let '(increment, l) := (st : Z * list ptr) in
         if 0 <? increment then
           l' ← shell_pass cmp count increment l;
           mret (inl (increment / 2, l'))
         else mret (inr l)) (count / 2, l);
  mret (true, l').

(** The result of insert is discarded; [node] keeps its content when extract
    fails, [None] being its indeterminate initial value. *)
Definition muggle_heap_sort `{Malloc Heap.muggle_heap_node}
    (l : list ptr) (count : Z) (cmp : ptr -> ptr -> Z) : outcome (bool * list ptr) :=
  match Heap.muggle_heap_init (Some cmp) (u32 (u32 count + 1)) with
  | (true, Some heap) =>
      heap ← for_up 0 count (fun i heap =>
               p ← aget l i;
               r ← Heap.muggle_heap_insert heap p NULL;
               mret (snd (r : bool * Heap.muggle_heap))) heap;
      r ← for_up 0 count (fun i st =>
            let '(heap, node, l) :=
              (st : Heap.muggle_heap * option Heap.muggle_heap_node * list ptr) in
            r ← Heap.muggle_heap_extract heap;
            let '(n, heap) := (r : option Heap.muggle_heap_node * Heap.muggle_heap) in
            let node := match n with Some _ => n | None => node end in
            match node with
            | Some nd => l' ← aset l i (Heap.key nd); mret (heap, node, l')
            | None => Undef
            end) (heap, None, l);
      let '(heap, _, l) := (r : Heap.muggle_heap * option Heap.muggle_heap_node * list ptr) in
      _ ← Heap.muggle_heap_destroy heap false false;
      mret (true, l)
  | _ => mret (false, l)
  end.

(** The merge of the halves [left .. center] and [center+1 .. right] of [l] into
    [arr]: the loop with both halves, then the two loops for the rest. *)
Definition merge_both (cmp : ptr -> ptr -> Z) (l : list ptr) (center right : Z) (fuel : nat)
    (st : Z * Z * Z * list ptr) : outcome (Z * Z * Z * list ptr) :=
  loop fuel (fun st =>
    let '(a, b, idx, arr) := (st : Z * Z * Z * list ptr) in
    if (a <=? center) && (b <=? right) then
      x ← aget l a;
      y ← aget l b;
      if cmp x y <=? 0 then
        arr' ← aset arr idx x; mret (inl (a + 1, b, idx + 1, arr'))
      else
        arr' ← aset arr idx y; mret (inl (a, b + 1, idx + 1, arr'))
    else mret (inr (a, b, idx, arr))) st.

Definition merge_rest (l : list ptr) (hi : Z) (fuel : nat) (st : Z * Z * list ptr)
  : outcome (Z * Z * list ptr) :=
  loop fuel (fun st =>
    let '(a, idx, arr) := (st : Z * Z * list ptr) in
    if a <=? hi then
      x ← aget l a;
      arr' ← aset arr idx x; mret (inl (a + 1, idx + 1, arr'))
    else mret (inr (a, idx, arr))) st.

Fixpoint muggle_merge_sort_recursive (fuel : nat) (l arr : list ptr) (left right : Z)
    (cmp : ptr -> ptr -> Z) : outcome (list ptr * list ptr) :=
  match fuel with
  | O => NoFuel
  | S fuel' =>
      if left <? right then
        let center := u64 (left + right) / 2 in
        r ← muggle_merge_sort_recursive fuel' l arr left center cmp;
        let '(l, arr) := (r : list ptr * list ptr) in
        r ← muggle_merge_sort_recursive fuel' l arr (center + 1) right cmp;
        let '(l, arr) := (r : list ptr * list ptr) in
        let n := Z.to_nat (right - left + 2) in
        r ← merge_both cmp l center right n (left, center + 1, left, arr);
        let '(a, b, idx, arr) := (r : Z * Z * Z * list ptr) in
        r ← merge_rest l center n (a, idx, arr);
        let '(_, idx, arr) := (r : Z * Z * list ptr) in
        r ← merge_rest l right n (b, idx, arr);
        let '(_, _, arr) := (r : Z * Z * list ptr) in
        l ← for_up left (right + 1) (fun i l => x ← aget arr i; aset l i x) l;
        mret (l, arr)
      else mret (l, arr)
  end.

Definition muggle_merge_sort `{Malloc Z} (l : list ptr) (count : Z) (cmp : ptr -> ptr -> Z)
  : outcome (bool * list ptr) :=
  match malloc_array 8 count with
  | None => mret (false, l)
  | Some arr =>
      r ← muggle_merge_sort_recursive (Z.to_nat count + 1) l arr 0 (u64 (count - 1)) cmp;
      mret (true, fst (r : list ptr * list ptr))
  end.

(** [tmp = ptr[i]; ptr[i] = ptr[j]; ptr[j] = tmp;] *)
Definition swap (l : list ptr) (i j : Z) : outcome (list ptr) :=
  tmp ← aget l i;
  y ← aget l j;
  l ← aset l i y;
  aset l j tmp.

Definition swap_if_greater (cmp : ptr -> ptr -> Z) (l : list ptr) (i j : Z)
  : outcome (list ptr) :=
  x ← aget l i;
  y ← aget l j;
  if 0 <? cmp x y then swap l i j else mret l.

Definition muggle_quick_sort_median3 (l : list ptr) (left right : Z)
    (cmp : ptr -> ptr -> Z) : outcome (ptr * list ptr) :=
  let center := u64 (left + right) / 2 in
  l ← swap_if_greater cmp l left center;
  l ← swap_if_greater cmp l left right;
  l ← swap_if_greater cmp l center right;
  l ← swap l center (u64 (right - 1));
  p ← aget l (u64 (right - 1));
  mret (p, l).

Definition QUICK_SORT_CUTOFF : Z := 10.

(** [while (cmp(ptr[++i], pivot) < 0) {}] and [while (cmp(ptr[--j], pivot) > 0) {}]:
    the final index. *)
Definition scan_up (cmp : ptr -> ptr -> Z) (l : list ptr) (pivot : ptr) (fuel : nat) (i : Z)
  : outcome Z :=
  loop fuel (fun i => let i := u64 (i + 1) in
    x ← aget l i; mret (if cmp x pivot <? 0 then inl i else inr i)) i.
Definition scan_down (cmp : ptr -> ptr -> Z) (l : list ptr) (pivot : ptr) (fuel : nat) (j : Z)
  : outcome Z :=
  loop fuel (fun j => let j := u64 (j - 1) in
    x ← aget l j; mret (if 0 <? cmp x pivot then inl j else inr j)) j.

Definition partition_loop (cmp : ptr -> ptr -> Z) (pivot : ptr) (fuel : nat)
    (i j : Z) (l : list ptr) : outcome (Z * list ptr) :=
  loop fuel (fun st =>
    let '(i, j, l) := (st : Z * Z * list ptr) in
    i ← scan_up cmp l pivot fuel i;
    j ← scan_down cmp l pivot fuel j;
    if i <? j then l ← swap l i j; mret (inl (i, j, l))
    else mret (inr (i, l))) (i, j, l).

Fixpoint muggle_quick_sort_recursive (fuel : nat) (l : list ptr) (left right : Z)
    (cmp : ptr -> ptr -> Z) : outcome (list ptr) :=
  match fuel with
  | O => NoFuel
  | S fuel' =>
      if u64 (left + QUICK_SORT_CUTOFF) <=? right then
        r ← muggle_quick_sort_median3 l left right cmp;
        let '(pivot, l) := (r : ptr * list ptr) in
        r ← partition_loop cmp pivot (Z.to_nat (right - left) + 1) left (u64 (right - 1)) l;
        let '(i, l) := (r : Z * list ptr) in
        l ← swap l i (u64 (right - 1));
        l ← muggle_quick_sort_recursive fuel' l left (u64 (i - 1)) cmp;
        muggle_quick_sort_recursive fuel' l (u64 (i + 1)) right cmp
      else
        r ← muggle_insertion_sort l left (u64 (right + 1 - left)) cmp;
        mret (snd (r : bool * list ptr))
  end.

Definition muggle_quick_sort (l : list ptr) (count : Z) (cmp : ptr -> ptr -> Z)
  : outcome (bool * list ptr) :=
  l' ← muggle_quick_sort_recursive (Z.to_nat count + 1) l 0 (u64 (count - 1)) cmp;
  mret (true, l').

Example sorts_run :
  muggle_insertion_sort [5; 2; 9; 1] 0 4 cmp_addr = Done (true, [1; 2; 5; 9]) /\
  muggle_shell_sort [5; 2; 9; 1; 3] 5 cmp_addr = Done (true, [1; 2; 3; 5; 9]) /\
  @muggle_heap_sort (malloc_zeroed (Heap.mkn 0 0)) [5; 2; 9; 1] 4 cmp_addr
    = Done (true, [1; 2; 5; 9]) /\
  @muggle_merge_sort (malloc_zeroed 0) [5; 2; 9; 1; 3] 5 cmp_addr
    = Done (true, [1; 2; 3; 5; 9]) /\
  muggle_quick_sort [5; 2; 9; 1; 3; 8; 4; 7; 11; 0; 6; 10] 12 cmp_addr
    = Done (true, [0; 1; 2; 3; 4; 5; 6; 7; 8; 9; 10; 11]).
Proof. by vm_compute. Qed.

(** An empty array is out of the domain of quick sort: [count - 1] wraps to the
    largest [size_t] and the pivot selection reads outside the array. *)
Example quick_sort_empty_undefined : muggle_quick_sort [] 0 cmp_addr = Undef.
Proof. reflexivity. Qed.

(** ** Specification

    [l'] is [l] sorted by [c]. *)
Definition sort_of (c : ptr -> ptr -> Z) (l l' : list ptr) : Prop :=
  l' ≡ₚ l /\ StronglySorted (fun x y => c x y <= 0) l'.

(** The cells [lo <= k < hi] of [l'] are those of [l] in another order, the
    other cells are unchanged. *)
Definition rearr (lo hi : Z) (l l' : list ptr) : Prop :=
  l' ≡ₚ l /\ forall k, ~ (lo <= k < hi) -> l' @@ k = l @@ k.

Definition all_in (lo hi : Z) (P : ptr -> Prop) (l : list ptr) : Prop :=
  forall k x, lo <= k < hi -> l @@ k = Some x -> P x.

Definition sorted_in (c : ptr -> ptr -> Z) (lo hi : Z) (l : list ptr) : Prop :=
  forall i j x y, lo <= i < j -> j < hi -> l @@ i = Some x -> l @@ j = Some y -> c x y <= 0.

Lemma rearr_refl lo hi l : rearr lo hi l l.
Proof. by split. Qed.

Lemma rearr_trans lo hi l1 l2 l3 : rearr lo hi l1 l2 -> rearr lo hi l2 l3 -> rearr lo hi l1 l3.
Proof. intros [P1 E1] [P2 E2]. split; [by rewrite P2|]. intros k Hk. by rewrite E2, E1. Qed.

Lemma rearr_widen lo hi lo' hi' l l' :
  lo' <= lo -> hi <= hi' -> rearr lo hi l l' -> rearr lo' hi' l l'.
Proof. intros ?? [P E]. split; [done|]. intros k Hk. apply E. lia. Qed.

Lemma rearr_zlen lo hi l l' : rearr lo hi l l' -> zlen l' = zlen l.
Proof. intros [P _]. unfold zlen. by rewrite P. Qed.

Lemma rearr_swap lo hi l i j x y :
  lo <= i < hi -> lo <= j < hi -> i <> j -> l @@ i = Some x -> l @@ j = Some y ->
  rearr lo hi l (zinsert j x (zinsert i y l)).
Proof.
  intros Hi Hj Hne Hx Hy. split; [by apply swap_perm|]. intros k Hk.
  pose proof (zlookup_lt _ _ _ Hx). pose proof (zlookup_lt _ _ _ Hy).
  by rewrite !zlookup_zinsert_ne by lia.
Qed.

Lemma rearr_seg lo hi l l' :
  0 <= lo <= hi -> hi <= zlen l -> rearr lo hi l l' -> seg lo hi l' ≡ₚ seg lo hi l.
Proof.
  intros Hlo Hhi Hr. pose proof (rearr_zlen _ _ _ _ Hr). destruct Hr as [P E].
  apply seg_perm; [lia|lia|done|intros k ?; apply E; lia..].
Qed.

Lemma rearr_of_seg lo hi l l' :
  0 <= lo <= hi -> hi <= zlen l -> zlen l' = zlen l ->
  (forall k, ~ (lo <= k < hi) -> l' @@ k = l @@ k) ->
  seg lo hi l' ≡ₚ seg lo hi l -> rearr lo hi l l'.
Proof.
  intros Hlo Hhi Hlen E Hs. split; [|done].
  rewrite (seg_split lo hi l), (seg_split lo hi l') by lia.
  apply Permutation_app; [|apply Permutation_app; [done|]].
  - apply reflexive_eq, zlookup_ext; [rewrite !zlen_take by lia; done|].
    intros k Hk. rewrite zlen_take in Hk by lia. rewrite !zlookup_take, !decide_True by lia.
    apply E. lia.
  - apply reflexive_eq, zlookup_ext; [rewrite !zlen_drop by lia; lia|].
    intros k Hk. rewrite zlen_drop in Hk by lia. rewrite !zlookup_drop by lia. apply E. lia.
Qed.

Lemma all_in_seg lo hi P l : 0 <= lo -> all_in lo hi P l <-> Forall P (seg lo hi l).
Proof.
  intros Hlo. rewrite Forall_lookup. split.
  - intros H i x Hx. rewrite <- (Nat2Z.id i), <- zlookup_nonneg in Hx by lia.
    rewrite zlookup_seg in Hx by lia. case_decide; [|done]. eapply H; [|done]. lia.
  - intros H k x Hk Hx. apply (H (Z.to_nat (k - lo))).
    rewrite <- zlookup_nonneg, zlookup_seg, decide_True by lia. rewrite <- Hx. f_equal. lia.
Qed.

Lemma all_in_rearr lo hi P l l' :
  0 <= lo <= hi -> hi <= zlen l -> rearr lo hi l l' -> all_in lo hi P l -> all_in lo hi P l'.
Proof.
  intros Hlo Hhi Hr. rewrite !all_in_seg by lia. by rewrite (rearr_seg lo hi l l') by done.
Qed.

Lemma StronglySorted_lookup {A} (R : A -> A -> Prop) (l : list A) :
  (forall i j x y, (i < j)%nat -> l !! i = Some x -> l !! j = Some y -> R x y) ->
  StronglySorted R l.
Proof.
  induction l as [|x l IH]; intros H; constructor.
  - apply IH. intros i j y z Hij. apply (H (S i) (S j)). lia.
  - apply Forall_lookup. intros j y Hy. apply (H 0%nat (S j)); [lia|done..].
Qed.

Lemma sorted_in_seg c lo hi l :
  0 <= lo -> sorted_in c lo hi l -> StronglySorted (fun x y => c x y <= 0) (seg lo hi l).
Proof.
  intros Hlo Hs. apply StronglySorted_lookup. intros i j x y Hij Hx Hy.
  rewrite <- (Nat2Z.id i), <- zlookup_nonneg in Hx by lia.
  rewrite <- (Nat2Z.id j), <- zlookup_nonneg in Hy by lia.
  rewrite zlookup_seg in Hx, Hy by lia. repeat case_decide; try done.
  eapply (Hs _ _ x y); [..|exact Hx|exact Hy]; lia.
Qed.

Lemma sort_of_range c l l' :
  rearr 0 (zlen l) l l' -> sorted_in c 0 (zlen l) l' -> sort_of c l l'.
Proof.
  intros Hr Hs. split; [apply Hr|]. rewrite <- (seg_full l'), (rearr_zlen _ _ _ _ Hr).
  by apply sorted_in_seg.
Qed.

Lemma sorted_in_short c lo hi l : hi <= lo + 1 -> sorted_in c lo hi l.
Proof. intros ? i j. lia. Qed.

(** ** Sifting one element down

    The inner loops of insertion and shell sort move the element [tmp] of cell
    [off + i] to the left in steps of [d] past the elements that [gt] says are
    greater. *)
Section sift.
Context (off d : Z) (gt : ptr -> bool) (tmp : ptr).
Context (body : Z * list ptr -> outcome (Z * list ptr + Z * list ptr)).
Context (Hbody : forall j l, body (j, l) =
  if d <=? j then
    p ← aget l (off + (j - d));
    if gt p then l' ← aset l (off + j) p; mret (inl (j - d, l'))
    else mret (inr (j, l))
  else mret (inr (j, l))).

Lemma sift_spec (J : Z -> list ptr -> Prop) i l fuel :
  0 <= off -> 0 < d -> 0 <= i -> off + i < zlen l -> l @@ (off + i) = Some tmp ->
  (Z.to_nat i < fuel)%nat -> J i l ->
  (forall j W p, d <= j <= i -> zlen W = zlen l -> W @@ (off + j) = Some tmp ->
     W @@ (off + (j - d)) = Some p ->
     gt p = true -> J j W -> J (j - d) (zinsert (off + (j - d)) tmp (zinsert (off + j) p W))) ->
  wp (loop fuel body (i, l)) (fun '(j, l') =>
    let W := zinsert (off + j) tmp l' in
    0 <= j <= i /\ zlen l' = zlen l /\ rearr off (off + i + 1) l W /\ J j W /\
    (d <= j -> exists p, W @@ (off + (j - d)) = Some p /\ gt p = false)).
Proof.
  intros Hoff Hd Hi Hl Htmp Hfuel HJ Hstep.
  apply (wp_loop _ (fun '(j, l') => 0 <= j <= i /\ zlen l' = zlen l /\
      rearr off (off + i + 1) l (zinsert (off + j) tmp l') /\ J j (zinsert (off + j) tmp l'))
    (fun '(j, _) => Z.to_nat j)); [|by rewrite zinsert_id|done].
  intros [j l'] (Hj & Hl' & Hr & HJ'). rewrite Hbody.
  destruct (Z.leb_spec d j); [|apply wp_ret; split_and!; done || lia].
  apply wp_bind, wp_aget; [lia|]. intros p Hp.
  assert (zinsert (off + j) tmp l' @@ (off + (j - d)) = Some p) as HpW
    by (by rewrite zlookup_zinsert_ne by lia).
  assert (zinsert (off + j) tmp l' @@ (off + j) = Some tmp) as HtW
    by (apply zlookup_zinsert_eq; lia).
  destruct (gt p) eqn:Hgt.
  2: { apply wp_ret. split_and!; try done; try lia. intros _. by exists p. }
  apply wp_bind, wp_aset; [lia|]. apply wp_ret. rewrite zlen_zinsert.
  assert (zinsert (off + (j - d)) tmp (zinsert (off + j) p l') =
    zinsert (off + (j - d)) tmp (zinsert (off + j) p (zinsert (off + j) tmp l'))) as E
    by (by rewrite zinsert_zinsert_eq).
  split; [|lia]. split; [lia|]. split; [done|]. rewrite E. split.
  - eapply rearr_trans; [done|]. apply rearr_swap; try done; lia.
  - apply Hstep; try done; try lia. by rewrite zlen_zinsert.
Qed.

(** In steps of one, below a sorted prefix, the result is a longer sorted prefix. *)
Lemma sift_sorted c `{!CmpOrder c} i l fuel :
  d = 1 -> (forall p, gt p = true <-> 0 < c p tmp) ->
  0 <= off -> 0 <= i -> off + i < zlen l -> l @@ (off + i) = Some tmp ->
  (Z.to_nat i < fuel)%nat -> sorted_in c off (off + i) l ->
  wp (loop fuel body (i, l)) (fun '(j, l') =>
    0 <= j <= i /\ zlen l' = zlen l /\
    rearr off (off + i + 1) l (zinsert (off + j) tmp l') /\
    sorted_in c off (off + i + 1) (zinsert (off + j) tmp l')).
Proof.
  intros Hd Hgt Hoff Hi Hl Htmp Hfuel Hs.
  set (J := fun j W => forall a b x y, off <= a < b -> b <= off + i -> b <> off + j ->
    W @@ a = Some x -> W @@ b = Some y -> c x y <= 0).
  eapply wp_mono; [apply (sift_spec J); try done; try lia|].
  - intros a b x y ??? Hx Hy. eapply (Hs a b); [..|done|done]; lia.
  - intros j W p Hj HW Ht Hp Hg HJ a b x y Ha Hb Hne. apply Hgt, cmp_flip in Hg; [|done].
    rewrite !zlookup_zinsert by (rewrite ?zlen_zinsert; lia).
    repeat case_decide; intros Hx Hy; try lia;
      try injection Hx as <-; try injection Hy as <-; try done;
      first [ eapply (HJ (off + j) b); [..|done|done]; lia
            | eapply (HJ (off + (j - d)) b); [..|done|done]; lia
            | eapply (HJ a (off + (j - d))); [..|done|done]; lia
            | eapply (HJ a b); [..|done|done]; lia ].
  - intros [j l'] (Hj & Hl' & Hr & HJ & Hstop). split; [done|]. split; [done|]. split; [done|].
    set (W := zinsert (off + j) tmp l') in *. intros a b x y Ha Hb Hx Hy.
    destruct (decide (b = off + j)) as [->|]; [|eapply (HJ a b); [..|done|done]; lia].
    assert (y = tmp) as -> by (unfold W in Hy; rewrite zlookup_zinsert_eq in Hy by lia; congruence).
    destruct Hstop as (p & Hp & Hg); [lia|].
    assert (c p tmp <= 0) by (apply Z.nlt_ge; rewrite <- Hgt; congruence).
    destruct (decide (a = off + (j - d))) as [->|]; [congruence|].
    eapply cmp_trans; [|done]. eapply (HJ a (off + (j - d))); [..|done|done]; lia.
Qed.
End sift.

Lemma insertion_sort_wp c `{!CmpOrder c} off count l :
  0 <= off -> 0 <= count -> off + count <= zlen l ->
  wp (muggle_insertion_sort l off count c) (fun '(ok, l') =>
    ok = true /\ rearr off (off + count) l l' /\ sorted_in c off (off + count) l').
Proof.
  intros Hoff Hc Hl. unfold muggle_insertion_sort. apply wp_bind.
  apply (wp_for_up (fun i l' => rearr off (off + count) l l' /\ sorted_in c off (off + i) l')).
  - split; [apply rearr_refl|apply sorted_in_short; lia].
  - intros i l' Hi [Hr Hs]. pose proof (rearr_zlen _ _ _ _ Hr).
    apply wp_bind, wp_aget; [lia|]. intros tmp Htmp. apply wp_bind.
    eapply wp_mono.
    + apply (sift_sorted off 1 (fun p => 0 <? c p tmp) tmp) with (c := c); try done; try lia.
      intros j q. destruct (Z.ltb_spec 0 j), (Z.leb_spec 1 j); done || lia.
    + intros [j q] (Hj & Hq & Hr' & Hs'). apply wp_aset; [lia|].
      replace (off + (i + 1)) with (off + i + 1) by lia. split; [|done].
      eapply rearr_trans; [done|]. eapply rearr_widen; [| |done]; lia.
  - intros l' [Hr Hs]. apply wp_ret. split; [done|]. split; [done|].
    destruct (decide (1 <= count)); [by replace (Z.max 1 count) with count in Hs by lia|].
    apply sorted_in_short. lia.
Qed.

(** Insertion sort leaves a sorted permutation. *)
Theorem insertion_sort_correct c l :
  CmpOrder c ->
  exists l', muggle_insertion_sort l 0 (zlen l) c = Done (true, l') /\ sort_of c l l'.
Proof.
  intros Hc. pose proof (zlen_nonneg l).
  destruct (proj1 (wp_Done _ _) (insertion_sort_wp c 0 (zlen l) l ltac:(lia) ltac:(lia) ltac:(lia)))
    as ([ok l'] & E & -> & Hr & Hs).
  exists l'. split; [done|]. by apply sort_of_range.
Qed.

(** A pass of shell sort permutes, and the pass with increment 1 sorts. *)
Lemma shell_pass_wp c `{!CmpOrder c} count d l :
  0 < d -> 0 <= count <= zlen l ->
  wp (shell_pass c count d l) (fun l' =>
    rearr 0 count l l' /\ (d = 1 -> sorted_in c 0 count l')).
Proof.
  intros Hd Hc. unfold shell_pass.
  apply (wp_for_up (fun i l' => rearr 0 count l l' /\ (d = 1 -> sorted_in c 0 i l'))).
  - split; [apply rearr_refl|]. intros ->. apply sorted_in_short. lia.
  - intros i l' Hi [Hr Hs]. pose proof (rearr_zlen _ _ _ _ Hr).
    apply wp_bind, wp_aget; [lia|]. intros tmp Htmp. apply wp_bind.
    assert (forall (j : Z) (q : list ptr), 0 <= j <= i -> zlen q = zlen l' ->
      rearr 0 (0 + i + 1) l' (zinsert (0 + j) tmp q) ->
      (d = 1 -> sorted_in c 0 (0 + i + 1) (zinsert (0 + j) tmp q)) ->
      wp (aset q j tmp) (fun l'' => rearr 0 count l l'' /\ (d = 1 -> sorted_in c 0 (i + 1) l'')))
      as Hset.
    { intros j q Hj Hq Hr' Hs'. apply wp_aset; [lia|]. split; [|done].
      eapply rearr_trans; [done|]. eapply rearr_widen; [| |done]; lia. }
    destruct (decide (d = 1)) as [->|Hne].
    + eapply wp_mono.
      * apply (sift_sorted 0 1 (fun p => c tmp p <? 0) tmp) with (c := c); try done; try lia; auto.
        intros p. rewrite Z.ltb_lt. pose proof (cmp_sym (cmp := c) tmp p).
        pose proof (cmp_sym (cmp := c) p tmp). lia.
      * intros [j q] (Hj & Hq & Hr' & Hs'). auto.
    + eapply wp_mono.
      * apply (sift_spec 0 d (fun p => c tmp p <? 0) tmp) with (J := fun _ _ => True);
          try done; try lia.
      * intros [j q] (Hj & Hq & Hr' & _). apply Hset; done || lia.
  - intros l' [Hr Hs]. split; [done|]. intros ->.
    destruct (decide (1 <= count)); [|apply sorted_in_short; lia].
    replace (Z.max 1 count) with count in Hs by lia. auto.
Qed.

(** Shell sort leaves a sorted permutation. *)
Theorem shell_sort_correct c l :
  CmpOrder c ->
  exists l', muggle_shell_sort l (zlen l) c = Done (true, l') /\ sort_of c l l'.
Proof.
  intros Hc. pose proof (zlen_nonneg l).
  enough (wp (muggle_shell_sort l (zlen l) c) (fun r => r.1 = true /\ sort_of c l r.2))
    as ([ok l'] & ? & ?)%wp_Done by naive_solver.
  unfold muggle_shell_sort. apply wp_bind.
  pose proof (Z.div_mod (zlen l) 2 ltac:(lia)). pose proof (Z.mod_pos_bound (zlen l) 2).
  apply (wp_loop _ (fun '(d, l') => 0 <= d /\ rearr 0 (zlen l) l l' /\
    (d = 0 -> sorted_in c 0 (zlen l) l')) (fun '(d, _) => Z.to_nat d)).
  - intros [d l'] (Hd & Hr & Hs). pose proof (rearr_zlen _ _ _ _ Hr).
    destruct (Z.ltb_spec 0 d).
    + apply wp_bind. eapply wp_mono; [apply (shell_pass_wp c); lia|].
      intros q [Hr' Hs']. apply wp_ret.
      pose proof (Z.div_mod d 2 ltac:(lia)). pose proof (Z.mod_pos_bound d 2).
      split; [|lia]. split; [lia|]. split; [by eapply rearr_trans|]. intros. apply Hs'. lia.
    + apply wp_ret, wp_ret. split; [done|]. apply sort_of_range; [done|]. apply Hs. lia.
  - split; [lia|]. split; [apply rearr_refl|]. intros. apply sorted_in_short. lia.
  - lia.
Qed.

(** ** Appending a cell to a range *)
Lemma seg_snoc (l : list ptr) lo i x :
  0 <= lo <= i -> i < zlen l -> seg lo (i + 1) (zinsert i x l) = seg lo i l ++ [x].
Proof.
  intros. rewrite (seg_app lo i) by lia. f_equal.
  - apply seg_ext; rewrite ?zlen_zinsert; try lia. intros k ?. by rewrite zlookup_zinsert_ne by lia.
  - apply seg_single, zlookup_zinsert_eq. lia.
Qed.

Lemma all_in_snoc lo i P x l :
  0 <= i < zlen l -> all_in lo i P l -> P x -> all_in lo (i + 1) P (zinsert i x l).
Proof.
  intros Hi H Hx k y Hk. rewrite zlookup_zinsert by done.
  case_decide; [congruence|]. apply H. lia.
Qed.

Lemma sorted_in_snoc c lo i x l :
  0 <= i < zlen l -> sorted_in c lo i l -> all_in lo i (fun y => c y x <= 0) l ->
  sorted_in c lo (i + 1) (zinsert i x l).
Proof.
  intros Hi H Hx j k y z Hj Hk. rewrite !zlookup_zinsert by done.
  repeat case_decide; try lia; intros Hy Hz.
  - injection Hz as <-. eapply Hx; [|done]. lia.
  - eapply (H j k); [..|done|done]; lia.
Qed.

Lemma all_in_mono lo hi (P Q : ptr -> Prop) l :
  all_in lo hi P l -> (forall x, P x -> Q x) -> all_in lo hi Q l.
Proof. intros H HPQ k x Hk Hx. eauto. Qed.

Lemma all_in_narrow lo hi lo' hi' P l :
  lo <= lo' -> hi' <= hi -> all_in lo hi P l -> all_in lo' hi' P l.
Proof. intros ?? H k x Hk Hx. apply (H k); [lia|done]. Qed.

(** ** Merging *)
Section merge.
Context (c : ptr -> ptr -> Z) `{!CmpOrder c} (l : list ptr) (left center right : Z).
Context (Hlr : 0 <= left <= center) (Hcr : center < right < zlen l).
Context (Hsl : sorted_in c left (center + 1) l) (Hsr : sorted_in c (center + 1) (right + 1) l).

(** [z] is below everything that is left in both halves. *)
Definition below (a b : Z) (z : ptr) : Prop :=
  all_in a (center + 1) (fun y => c z y <= 0) l /\ all_in b (right + 1) (fun y => c z y <= 0) l.

(** The merge has consumed the halves up to [a] and [b] and filled [arr] up to [idx]. *)
Record merging (a b idx : Z) (arr : list ptr) : Prop := {
  merging_a : left <= a <= center + 1;
  merging_b : center + 1 <= b <= right + 1;
  merging_idx : idx = a + b - (center + 1);
  merging_arr : right < zlen arr;
  merging_perm : seg left idx arr ≡ₚ seg left a l ++ seg (center + 1) b l;
  merging_sorted : sorted_in c left idx arr;
  merging_below : all_in left idx (below a b) arr
}.

Lemma below_mono a b a' b' z : a <= a' -> b <= b' -> below a b z -> below a' b' z.
Proof. intros ?? [Ha Hb]. split; eapply all_in_narrow; (done || lia). Qed.

Lemma merging_start arr : right < zlen arr -> merging left (center + 1) left arr.
Proof.
  intros. split; try lia; rewrite ?seg_empty; try done.
  - apply sorted_in_short. lia.
  - intros k x ?. lia.
Qed.

Lemma merging_take_left a b idx arr x :
  merging a b idx arr -> l @@ a = Some x -> a <= center ->
  all_in b (right + 1) (fun y => c x y <= 0) l ->
  merging (a + 1) b (idx + 1) (zinsert idx x arr).
Proof.
  intros [] Hx Ha Hb. split; rewrite ?zlen_zinsert; try lia.
  - rewrite seg_snoc, (seg_app left a (a + 1)), (seg_single a _ x), merging_perm0 by (done || lia).
    rewrite <- !(assoc_L (++)). f_equiv. apply Permutation_app_comm.
  - apply sorted_in_snoc; [lia|done|]. eapply all_in_mono; [done|].
    intros z [Hz _]. apply (Hz a); [lia|done].
  - apply all_in_snoc; [lia| |].
    + eapply all_in_mono; [done|]. intros z. apply below_mono; lia.
    + split; [|done]. intros k y Hk Hy. apply (Hsl a k); [lia..|done|done].
Qed.

Lemma merging_take_right a b idx arr y :
  merging a b idx arr -> l @@ b = Some y -> b <= right ->
  all_in a (center + 1) (fun x => c y x <= 0) l ->
  merging a (b + 1) (idx + 1) (zinsert idx y arr).
Proof.
  intros [] Hy Hb Ha. split; rewrite ?zlen_zinsert; try lia.
  - rewrite seg_snoc, (seg_app (center + 1) b (b + 1)), (seg_single b _ y), merging_perm0
      by (done || lia).
    by rewrite <- !(assoc_L (++)).
  - apply sorted_in_snoc; [lia|done|]. eapply all_in_mono; [done|].
    intros z [_ Hz]. apply (Hz b); [lia|done].
  - apply all_in_snoc; [lia| |].
    + eapply all_in_mono; [done|]. intros z. apply below_mono; lia.
    + split; [done|]. intros k x Hk Hx. apply (Hsr b k); [lia..|done|done].
Qed.

(** The head of a sorted rest is below it. *)
Lemma head_below lo hi a x z :
  sorted_in c lo hi l -> lo <= a -> l @@ a = Some x -> c z x <= 0 ->
  all_in a hi (fun y => c z y <= 0) l.
Proof.
  intros Hs Ha Hx Hz k y Hk Hy. destruct (decide (k = a)) as [->|]; [congruence|].
  eapply cmp_trans; [done|]. apply (Hs a k); [lia..|done|done].
Qed.

Lemma merge_both_wp arr fuel :
  right < zlen arr -> right - left + 1 < Z.of_nat fuel ->
  wp (merge_both c l center right fuel (left, center + 1, left, arr)) (fun '(a, b, idx, arr') =>
    merging a b idx arr' /\ (center < a \/ right < b) /\ zlen arr' = zlen arr).
Proof.
  intros Harr Hfuel. unfold merge_both.
  apply (wp_loop _ (fun '(a, b, idx, arr') => merging a b idx arr' /\ zlen arr' = zlen arr)
    (fun '(a, b, _, _) => Z.to_nat (center + right + 2 - a - b))).
  - intros [[[a b] idx] arr'] [HM Hz]. pose proof HM as [].
    destruct (Z.leb_spec a center), (Z.leb_spec b right); cbn [andb];
      try (apply wp_ret; split; [done|]; split; [lia|done]).
    apply wp_bind, wp_aget; [lia|]. intros x Hx. apply wp_bind, wp_aget; [lia|]. intros y Hy.
    destruct (Z.leb_spec (c x y) 0); (apply wp_bind, wp_aset; [lia|]; apply wp_ret);
      rewrite zlen_zinsert; (split; [|lia]); (split; [|done]).
    + apply merging_take_left; try done. apply (head_below (center + 1) _ _ y); done || lia.
    + apply merging_take_right; try done. apply (head_below left _ _ x); try done; try lia.
      by apply cmp_flip.
  - split; [by apply merging_start|done].
  - lia.
Qed.

Lemma merge_rest_left_wp a b idx arr fuel :
  merging a b idx arr -> (center < a \/ right < b) -> right - left + 1 < Z.of_nat fuel ->
  wp (merge_rest l center fuel (a, idx, arr)) (fun '(a', idx', arr') =>
    a' = center + 1 /\ merging a' b idx' arr' /\ zlen arr' = zlen arr).
Proof.
  intros HM Hor Hfuel. unfold merge_rest.
  apply (wp_loop _ (fun '(a', idx', arr') => merging a' b idx' arr' /\
      (center < a' \/ right < b) /\ zlen arr' = zlen arr)
    (fun '(a', _, _) => Z.to_nat (center + 1 - a'))); [|done|].
  - intros [[a' idx'] arr'] (HM' & Hor' & Hz). pose proof HM' as [].
    destruct (Z.leb_spec a' center); [|apply wp_ret; split_and!; done || lia].
    apply wp_bind, wp_aget; [lia|]. intros x Hx. apply wp_bind, wp_aset; [lia|]. apply wp_ret.
    rewrite zlen_zinsert. split; [|lia]. split; [|split; [lia|done]].
    apply merging_take_left; try done. intros k y ?. lia.
  - destruct HM. lia.
Qed.

Lemma merge_rest_right_wp b idx arr fuel :
  merging (center + 1) b idx arr -> right - left + 1 < Z.of_nat fuel ->
  wp (merge_rest l right fuel (b, idx, arr)) (fun '(b', idx', arr') =>
    merging (center + 1) (right + 1) (right + 1) arr' /\ zlen arr' = zlen arr).
Proof.
  intros HM Hfuel. unfold merge_rest.
  apply (wp_loop _ (fun '(b', idx', arr') => merging (center + 1) b' idx' arr' /\
      zlen arr' = zlen arr)
    (fun '(b', _, _) => Z.to_nat (right + 1 - b'))); [|done|].
  - intros [[b' idx'] arr'] (HM' & Hz). pose proof HM' as [].
    destruct (Z.leb_spec b' right).
    + apply wp_bind, wp_aget; [lia|]. intros x Hx. apply wp_bind, wp_aset; [lia|]. apply wp_ret.
      rewrite zlen_zinsert. split; [|lia]. split; [|done].
      apply merging_take_right; try done. intros k y ?. lia.
    + apply wp_ret. split; [|done]. by assert (b' = right + 1 /\ idx' = right + 1) as [-> ->] by lia.
  - destruct HM. lia.
Qed.

(** The finished merge, copied back, sorts the range. *)
Lemma merge_copy_back arr :
  merging (center + 1) (right + 1) (right + 1) arr ->
  wp (for_up left (right + 1) (fun i l => x ← aget arr i; aset l i x) l) (fun l' =>
    rearr left (right + 1) l l' /\ sorted_in c left (right + 1) l').
Proof.
  intros []. apply (wp_for_up (fun i l' => zlen l' = zlen l /\ agree left i l' arr /\
    forall k, ~ (left <= k < right + 1) -> l' @@ k = l @@ k)).
  - split_and!; try done. intros k ?. lia.
  - intros i l' Hi (Hlen & Hag & Hout). apply wp_bind, wp_aget; [lia|]. intros x Hx.
    apply wp_aset; [lia|]. rewrite zlen_zinsert. split; [done|]. split.
    + intros k Hk. rewrite zlookup_zinsert by lia. case_decide; [by subst|]. apply Hag. lia.
    + intros k Hk. rewrite zlookup_zinsert_ne by lia. by apply Hout.
  - intros l' (Hlen & Hag & Hout). rewrite Z.max_r in Hag by lia. split.
    + apply rearr_of_seg; try done; try lia.
      rewrite (seg_ext left (right + 1) l' arr), merging_perm0 by (done || lia).
      by rewrite <- seg_app by lia.
    + intros i j x y Hi Hj. rewrite !Hag by lia. by apply merging_sorted0.
Qed.
End merge.

Lemma center_bounds left right :
  0 <= left < right -> right < 2 ^ 61 -> left <= u64 (left + right) / 2 < right.
Proof.
  intros. rewrite wrap_small by lia.
  pose proof (Z.div_mod (left + right) 2 ltac:(lia)).
  pose proof (Z.mod_pos_bound (left + right) 2). lia.
Qed.

Lemma sorted_in_rearr c lo hi lo' hi' l l' :
  hi <= lo' \/ hi' <= lo -> rearr lo' hi' l l' -> sorted_in c lo hi l -> sorted_in c lo hi l'.
Proof.
  intros Hd [_ E] Hs i j x y Hi Hj. rewrite !E by lia. by apply Hs.
Qed.

Lemma merge_sort_recursive_wp c `{!CmpOrder c} fuel : forall l arr left right,
  0 <= left <= right + 1 -> right < zlen l < 2 ^ 61 -> right < zlen arr ->
  right - left + 1 < Z.of_nat fuel ->
  wp (muggle_merge_sort_recursive fuel l arr left right c) (fun '(l', arr') =>
    rearr left (right + 1) l l' /\ sorted_in c left (right + 1) l' /\ zlen arr' = zlen arr).
Proof.
  induction fuel as [|fuel IH]; intros l arr left right Hlr Hl Harr Hfuel; [lia|]. simpl.
  destruct (Z.ltb_spec left right) as [Hlt|].
  2: { apply wp_ret. split; [apply rearr_refl|]. split; [apply sorted_in_short; lia|done]. }
  pose proof (center_bounds left right ltac:(lia) ltac:(lia)) as Hc.
  set (center := u64 (left + right) / 2) in *. clearbody center.
  apply wp_bind. eapply wp_mono; [apply IH; lia|]. intros [l1 arr1] (Hr1 & Hs1 & Ha1).
  pose proof (rearr_zlen _ _ _ _ Hr1).
  apply wp_bind. eapply wp_mono; [apply IH; lia|]. intros [l2 arr2] (Hr2 & Hs2 & Ha2).
  pose proof (rearr_zlen _ _ _ _ Hr2).
  apply (sorted_in_rearr c left (center + 1) (center + 1) (right + 1) _ l2) in Hs1; [|lia|done].
  apply wp_bind. eapply wp_mono; [apply (merge_both_wp c l2 left); try done; lia|].
  intros [[[a b] idx] arr3] (HM & Hor & Ha3).
  apply wp_bind. eapply wp_mono; [eapply (merge_rest_left_wp c l2 left center right); try done; lia|].
  intros [[a' idx'] arr4] (-> & HM4 & Ha4).
  apply wp_bind. eapply wp_mono; [eapply (merge_rest_right_wp c l2 left center right); try done; lia|].
  intros [[b' idx''] arr5] (HM5 & Ha5).
  apply wp_bind. eapply wp_mono; [apply (merge_copy_back c l2 left center right); try done; lia|].
  intros l3 [Hr3 Hs3]. apply wp_ret. split; [|split; [done|lia]].
  eapply rearr_trans; [eapply rearr_widen; [| |exact Hr1]; lia|].
  eapply rearr_trans; [|done]. eapply rearr_widen; [| |exact Hr2]; lia.
Qed.

(** Merge sort leaves a sorted permutation of a non-empty array, or fails
    without touching it when the scratch array cannot be allocated. *)
Theorem merge_sort_correct `{Malloc Z} c l :
  CmpOrder c -> 1 <= zlen l < 2 ^ 61 ->
  exists ok l', muggle_merge_sort l (zlen l) c = Done (ok, l') /\
    if ok then sort_of c l l' else l' = l.
Proof.
  intros Hc Hl. unfold muggle_merge_sort.
  destruct (malloc_array 8 (zlen l)) as [arr|] eqn:Em; [|by eexists _, _].
  apply malloc_array_len in Em; [|lia..]. rewrite wrap_small by lia.
  destruct (proj1 (wp_Done _ _) (merge_sort_recursive_wp c (Z.to_nat (zlen l) + 1) l arr 0
    (zlen l - 1) ltac:(lia) ltac:(lia) ltac:(lia) ltac:(lia))) as ([l' arr'] & E & Hr & Hs & _).
  rewrite E. simpl. eexists _, _. split; [done|].
  replace (zlen l - 1 + 1) with (zlen l) in Hr, Hs by lia. by apply sort_of_range.
Qed.

(** ** Quick sort *)
Lemma swap_wp lo hi l i j x y (Q : list ptr -> Prop) :
  l @@ i = Some x -> l @@ j = Some y -> lo <= i < hi -> lo <= j < hi ->
  (forall l', rearr lo hi l l' -> l' @@ i = Some y -> l' @@ j = Some x ->
     (forall k, k <> i -> k <> j -> l' @@ k = l @@ k) -> Q l') ->
  wp (swap l i j) Q.
Proof.
  intros Hx Hy Hi Hj HQ. pose proof (zlookup_lt _ _ _ Hx). pose proof (zlookup_lt _ _ _ Hy).
  unfold swap. rewrite (aget_Some _ _ _ Hx), (aget_Some _ _ _ Hy). simpl.
  apply wp_bind, wp_aset; [lia|]. apply wp_aset; [rewrite zlen_zinsert; lia|].
  destruct (decide (i = j)) as [->|Hne].
  - assert (y = x) as -> by congruence.
    rewrite !zinsert_id by (rewrite ?zinsert_id; done). by apply HQ.
  - apply HQ.
    + by apply rearr_swap.
    + rewrite zlookup_zinsert_ne, zlookup_zinsert_eq by lia. done.
    + apply zlookup_zinsert_eq. rewrite zlen_zinsert. lia.
    + intros k ??. by rewrite !zlookup_zinsert_ne by lia.
Qed.

(** After a conditional exchange the two cells are in order. *)
Lemma swap_if_greater_wp c `{!CmpOrder c} lo hi l i j x y (Q : list ptr -> Prop) :
  l @@ i = Some x -> l @@ j = Some y -> lo <= i < hi -> lo <= j < hi ->
  (forall l' x' y', rearr lo hi l l' -> l' @@ i = Some x' -> l' @@ j = Some y' ->
     c x' y' <= 0 -> (x' = x /\ y' = y \/ x' = y /\ y' = x) ->
     (forall k, k <> i -> k <> j -> l' @@ k = l @@ k) -> Q l') ->
  wp (swap_if_greater c l i j) Q.
Proof.
  intros Hx Hy Hi Hj HQ. unfold swap_if_greater.
  rewrite (aget_Some _ _ _ Hx), (aget_Some _ _ _ Hy). simpl.
  destruct (Z.ltb_spec 0 (c x y)) as [Hgt|].
  - eapply (swap_wp lo hi); [done..|]. intros l' ????. apply (HQ l' y x); auto.
    by apply cmp_flip.
  - apply wp_ret, (HQ l x y); auto. apply rearr_refl.
Qed.

Lemma median3_wp c `{!CmpOrder c} l left right :
  0 <= left -> left + QUICK_SORT_CUTOFF <= right -> right < zlen l < 2 ^ 61 ->
  wp (muggle_quick_sort_median3 l left right c) (fun '(pivot, l') =>
    rearr left (right + 1) l l' /\ l' @@ (right - 1) = Some pivot /\
    (forall x, l' @@ left = Some x -> c x pivot <= 0) /\
    (forall x, l' @@ right = Some x -> 0 <= c x pivot)).
Proof.
  unfold QUICK_SORT_CUTOFF, muggle_quick_sort_median3. intros H0 Hle Hl.
  assert (left + 1 < u64 (left + right) / 2 < right - 1) as Hc.
  { rewrite wrap_small by lia. pose proof (Z.div_mod (left + right) 2 ltac:(lia)).
    pose proof (Z.mod_pos_bound (left + right) 2). lia. }
  set (center := u64 (left + right) / 2) in *. clearbody center.
  rewrite wrap_small by lia.
  destruct (zlookup_is_Some l left) as [x Hx]; [lia|].
  destruct (zlookup_is_Some l center) as [y Hy]; [lia|].
  destruct (zlookup_is_Some l right) as [z Hz]; [lia|].
  destruct (zlookup_is_Some l (right - 1)) as [w Hw]; [lia|].
  apply wp_bind, (swap_if_greater_wp c left (right + 1) l left center x y); [done|done|lia|lia|].
  intros l1 x1 y1 Hr1 Hx1 Hy1 Hc1 _ Ho1. rewrite <- (Ho1 right) in Hz by lia.
  apply wp_bind, (swap_if_greater_wp c left (right + 1) l1 left right x1 z); [done|done|lia|lia|].
  intros l2 x2 z2 Hr2 Hx2 Hz2 Hc2 Hor2 Ho2. rewrite <- (Ho2 center) in Hy1 by lia.
  apply wp_bind, (swap_if_greater_wp c left (right + 1) l2 center right y1 z2); [done|done|lia|lia|].
  intros l3 y3 z3 Hr3 Hy3 Hz3 Hc3 Hor3 Ho3. rewrite <- (Ho3 left) in Hx2 by lia.
  rewrite <- (Ho1 (right - 1)), <- (Ho2 (right - 1)), <- (Ho3 (right - 1)) in Hw by lia.
  apply wp_bind, (swap_wp left (right + 1) l3 center (right - 1) y3 w); [done|done|lia|lia|].
  intros l4 Hr4 _ Hp4 Ho4. rewrite (aget_Some _ _ _ Hp4). simpl.
  split; [by do 3 (eapply rearr_trans; [done|])|]. split; [done|]. split.
  - intros v. rewrite Ho4, Hx2 by lia. intros [= <-].
    assert (c x2 y1 <= 0) by (destruct Hor2 as [[-> _]|[-> ->]]; [done|by eapply cmp_trans]).
    destruct Hor3 as [[-> ->]|[-> ->]]; done.
  - intros v. rewrite Ho4, Hz3 by lia. intros [= <-].
    pose proof (cmp_sym (cmp := c) y3 z3). pose proof (cmp_sym (cmp := c) z3 y3). lia.
Qed.

Section partition.
Context (c : ptr -> ptr -> Z) `{!CmpOrder c} (pivot : ptr).
Abbreviation le_pivot := (fun x => c x pivot <= 0).
Abbreviation ge_pivot := (fun x => 0 <= c x pivot).

Lemma scan_up_wp l fuel i j y :
  0 <= i < j -> zlen l < 2 ^ 61 -> l @@ j = Some y -> ge_pivot y -> j - i < Z.of_nat fuel ->
  wp (scan_up c l pivot fuel i) (fun i' =>
    i < i' <= j /\ all_in (i + 1) i' le_pivot l /\ exists x, l @@ i' = Some x /\ ge_pivot x).
Proof.
  intros Hij Hl Hy Hge Hfuel. pose proof (zlookup_lt _ _ _ Hy). unfold scan_up.
  apply (wp_loop _ (fun k => i <= k < j /\ all_in (i + 1) (k + 1) le_pivot l)
    (fun k => Z.to_nat (j - k))); [|split; [lia|intros k x ?; lia]|lia].
  intros k [Hk Hall]. rewrite wrap_small by lia.
  apply wp_bind, wp_aget; [lia|]. intros x Hx. apply wp_ret.
  destruct (Z.ltb_spec (c x pivot) 0) as [Hlt|].
  - assert (k + 1 <> j) by (intros <-; rewrite Hx in Hy; injection Hy as ->; cbv beta in *; lia).
    split; [|lia]. split; [lia|]. intros m z Hm Hz.
    destruct (decide (m = k + 1)) as [->|]; [rewrite Hx in Hz; injection Hz as <-; cbv beta; lia|].
    apply (Hall m); [lia|done].
  - split; [lia|]. split; [done|]. by exists x.
Qed.

Lemma scan_down_wp l fuel i j x :
  0 <= i < j -> j < zlen l < 2 ^ 61 -> l @@ i = Some x -> le_pivot x -> j - i < Z.of_nat fuel ->
  wp (scan_down c l pivot fuel j) (fun j' =>
    i <= j' < j /\ all_in (j' + 1) j ge_pivot l /\ exists y, l @@ j' = Some y /\ le_pivot y).
Proof.
  intros Hij Hl Hx Hle Hfuel. unfold scan_down.
  apply (wp_loop _ (fun k => i < k <= j /\ all_in k j ge_pivot l)
    (fun k => Z.to_nat (k - i))); [|split; [lia|intros k y ?; lia]|lia].
  intros k [Hk Hall]. rewrite wrap_small by lia.
  apply wp_bind, wp_aget; [lia|]. intros y Hy. apply wp_ret.
  destruct (Z.ltb_spec 0 (c y pivot)) as [Hlt|].
  - assert (k - 1 <> i) by (intros <-; rewrite Hx in Hy; injection Hy as ->; cbv beta in *; lia).
    split; [|lia]. split; [lia|]. intros m z Hm Hz.
    destruct (decide (m = k - 1)) as [->|]; [rewrite Hy in Hz; injection Hz as <-; cbv beta; lia|].
    apply (Hall m); [lia|done].
  - split; [lia|]. rewrite Z.sub_add. split; [done|]. by exists y.
Qed.

Record partitioned (left right i j : Z) (l l' : list ptr) : Prop := {
  part_rearr : rearr left (right + 1) l l';
  part_pivot : l' @@ (right - 1) = Some pivot;
  part_low : all_in left i le_pivot l';
  part_high : all_in j (right + 1) ge_pivot l'
}.

Lemma partition_loop_wp l left right :
  0 <= left -> left + 1 < right - 1 -> right < zlen l < 2 ^ 61 ->
  l @@ (right - 1) = Some pivot ->
  (forall x, l @@ left = Some x -> le_pivot x) -> (forall x, l @@ right = Some x -> ge_pivot x) ->
  wp (partition_loop c pivot (Z.to_nat (right - left) + 1) left (right - 1) l) (fun '(i, l') =>
    left < i <= right - 1 /\ partitioned left right i i l l').
Proof.
  intros H0 Hlr Hl Hp Hleft Hright. unfold partition_loop.
  apply (wp_loop _ (fun '(i, j, l') => left <= i < j /\ j <= right - 1 /\
    partitioned left right (i + 1) j l l') (fun '(i, j, _) => Z.to_nat (j - i))); [| |lia].
  2: { split; [lia|]. split; [lia|]. split; [apply rearr_refl|done| |].
       - intros k x Hk. replace k with left by lia. apply Hleft.
       - intros k x Hk. destruct (decide (k = right)) as [->|]; [apply Hright|].
         replace k with (right - 1) by lia. rewrite Hp. intros [= <-].
         pose proof (cmp_sym (cmp := c) pivot pivot). lia. }
  intros [[i j] l'] (Hij & Hj & []). pose proof (rearr_zlen _ _ _ _ part_rearr0).
  destruct (zlookup_is_Some l' i) as [x Hx]; [lia|].
  destruct (zlookup_is_Some l' j) as [y Hy]; [lia|].
  apply wp_bind. eapply wp_mono; [apply (scan_up_wp l' _ i j y); try done; try lia|].
  { apply (part_high0 j); [lia|done]. }
  intros i' (Hi' & Hlow & x' & Hx' & Hge). apply wp_bind.
  eapply wp_mono; [apply (scan_down_wp l' _ i j x); try done; try lia|].
  { apply (part_low0 i); [lia|done]. }
  intros j' (Hj' & Hhigh & y' & Hy' & Hle).
  assert (all_in left i' le_pivot l') as Hlow'.
  { intros k z Hk Hz. destruct (decide (k < i + 1)); [apply (part_low0 k)|apply (Hlow k)]; done || lia. }
  assert (all_in (j' + 1) (right + 1) ge_pivot l') as Hhigh'.
  { intros k z Hk Hz. destruct (decide (j <= k)); [apply (part_high0 k)|apply (Hhigh k)]; done || lia. }
  destruct (Z.ltb_spec i' j').
  - apply wp_bind, (swap_wp left (right + 1) l' i' j' x' y'); [done|done|lia|lia|].
    intros l2 Hr2 Hi2 Hj2 Ho2. apply wp_ret. split; [|lia]. split; [lia|]. split; [lia|].
    split; [by eapply rearr_trans|by rewrite Ho2 by lia| |]; intros k z Hk.
    + destruct (decide (k = i')) as [->|]; [rewrite Hi2; congruence|].
      rewrite Ho2 by lia. apply Hlow'. lia.
    + destruct (decide (k = j')) as [->|]; [rewrite Hj2; congruence|].
      rewrite Ho2 by lia. apply Hhigh'. lia.
  - apply wp_ret. split; [lia|]. split; [done|done|done|]. intros k z Hk Hz.
    destruct (decide (k = i')) as [->|]; [congruence|]. apply (Hhigh' k); [lia|done].
Qed.
End partition.

(** Sorted below and above a cell that separates them. *)
Lemma sorted_in_join c `{!CmpOrder c} left i right pivot l :
  l @@ i = Some pivot -> sorted_in c left i l -> sorted_in c (i + 1) right l ->
  all_in left i (fun x => c x pivot <= 0) l -> all_in (i + 1) right (fun x => c pivot x <= 0) l ->
  sorted_in c left right l.
Proof.
  intros Hp Hs1 Hs2 Hlow Hhigh a b x y Ha Hb Hx Hy.
  destruct (decide (b < i)); [by apply (Hs1 a b); try lia|].
  destruct (decide (i < a)); [by apply (Hs2 a b); try lia|].
  apply (cmp_trans x pivot).
  - destruct (decide (a = i)) as [->|]; [|apply (Hlow a); [lia|done]].
    assert (x = pivot) as -> by congruence. by apply cmp_refl.
  - destruct (decide (b = i)) as [->|]; [|apply (Hhigh b); [lia|done]].
    assert (y = pivot) as -> by congruence. by apply cmp_refl.
Qed.

(** The pivot in its place separates the range. *)
Lemma restore_pivot_wp c `{!CmpOrder c} left right pivot i l l' Q :
  0 <= left < i -> i <= right - 1 -> right < zlen l -> partitioned c pivot left right i i l l' ->
  (forall l2, rearr left (right + 1) l l2 -> l2 @@ i = Some pivot ->
     all_in left i (fun x => c x pivot <= 0) l2 ->
     all_in (i + 1) (right + 1) (fun x => c pivot x <= 0) l2 -> Q l2) ->
  wp (swap l' i (right - 1)) Q.
Proof.
  intros Hli Hir Hl [] HQ. pose proof (rearr_zlen _ _ _ _ part_rearr0).
  destruct (zlookup_is_Some l' i) as [x Hx]; [lia|].
  apply (swap_wp left (right + 1) l' i (right - 1) x pivot); [done|done|lia|lia|].
  intros l2 Hr2 Hi2 Hj2 Ho2. apply HQ; [by eapply rearr_trans|done| |].
  - intros k z Hk. rewrite Ho2 by lia. by apply part_low0.
  - intros k z Hk Hz. apply cmp_flip_ge; [done|]. destruct (decide (k = right - 1)) as [->|].
    + rewrite Hj2 in Hz. injection Hz as <-. apply (part_high0 i); [lia|done].
    + rewrite Ho2 in Hz by lia. apply (part_high0 k); [lia|done].
Qed.

Lemma quick_sort_recursive_wp c `{!CmpOrder c} fuel : forall l left right,
  0 <= left <= right -> right < zlen l < 2 ^ 61 -> right - left + 1 < Z.of_nat fuel ->
  wp (muggle_quick_sort_recursive fuel l left right c) (fun l' =>
    rearr left (right + 1) l l' /\ sorted_in c left (right + 1) l').
Proof.
  induction fuel as [|fuel IH]; intros l left right Hlr Hl Hfuel; [lia|].
  cbn [muggle_quick_sort_recursive]. rewrite (wrap_small _ (left + _)) by (unfold QUICK_SORT_CUTOFF; lia).
  destruct (Z.leb_spec (left + QUICK_SORT_CUTOFF) right) as [Hle|].
  2: { rewrite wrap_small by lia. apply wp_bind.
       eapply wp_mono; [apply (insertion_sort_wp c); lia|]. intros [ok l'] (_ & Hr & Hs).
       replace (left + (right + 1 - left)) with (right + 1) in Hr, Hs by lia. by apply wp_ret. }
  pose proof Hle as Hle'. unfold QUICK_SORT_CUTOFF in Hle'.
  apply wp_bind. eapply wp_mono; [apply (median3_wp c); done || lia|].
  intros [pivot l1] (Hr1 & Hp1 & Hlow & Hhigh). pose proof (rearr_zlen _ _ _ _ Hr1).
  rewrite (wrap_small _ (right - 1)) by lia.
  apply wp_bind. eapply wp_mono; [apply (partition_loop_wp c); done || lia|].
  intros [i l2] [Hi Hpart]. apply wp_bind.
  apply (restore_pivot_wp c left right pivot i l1); [lia|lia|lia|done|].
  intros l3 Hr3 Hp3 Hlow3 Hhigh3. pose proof (rearr_zlen _ _ _ _ Hr3).
  rewrite !wrap_small by lia. apply wp_bind. eapply wp_mono; [apply IH; lia|].
  rewrite Z.sub_add. intros l4 [Hr4 Hs4]. pose proof (rearr_zlen _ _ _ _ Hr4).
  eapply wp_mono; [apply IH; lia|]. intros l5 [Hr5 Hs5]. pose proof Hr4 as [_ Ho4].
  pose proof Hr5 as [_ Ho5]. split.
  - eapply rearr_trans; [exact Hr1|]. eapply rearr_trans; [exact Hr3|].
    eapply rearr_trans; [eapply rearr_widen; [| |exact Hr4]; lia|].
    eapply rearr_widen; [| |exact Hr5]; lia.
  - apply (sorted_in_join c left i (right + 1) pivot); [by rewrite Ho5, Ho4 by lia| |done| |].
    + eapply sorted_in_rearr; [|exact Hr5|done]. lia.
    + intros k z Hk. rewrite Ho5 by lia. revert k z Hk.
      apply (all_in_rearr _ _ _ l3); [lia|lia|done..].
    + apply (all_in_rearr _ _ _ l4); [lia|lia|done|].
      intros k z Hk. rewrite Ho4 by lia. by apply Hhigh3.
Qed.

(** C12: quick sort terminates and leaves a sorted permutation of a non-empty array,
    by a comparison that is a total preorder (an empty array is read outside its
    bounds, [quick_sort_empty_undefined]). *)
Theorem quick_sort_correct c l :
  CmpOrder c -> 1 <= zlen l < 2 ^ 61 ->
  exists l', muggle_quick_sort l (zlen l) c = Done (true, l') /\ sort_of c l l'.
Proof.
  intros Hc Hl. unfold muggle_quick_sort. rewrite wrap_small by lia.
  destruct (proj1 (wp_Done _ _) (quick_sort_recursive_wp c (Z.to_nat (zlen l) + 1) l 0
    (zlen l - 1) ltac:(lia) ltac:(lia) ltac:(lia))) as (l' & E & Hr & Hs).
  rewrite E. eexists. split; [done|]. rewrite Z.sub_add in Hr, Hs. by apply sort_of_range.
Qed.

(** ** Heap sort *)
Section heap_sort.
Context (c : ptr -> ptr -> Z) `{!CmpOrder c} (l : list ptr).

(** After [i] inserts. *)
Definition filled (i : Z) (h : Heap.muggle_heap) : Prop :=
  Heap.wf h /\ Heap.cmp h = c /\ Heap.capacity h = zlen l + 1 /\
  Heap.key <$> Heap.elems h ≡ₚ seg 0 i l.

Lemma filled_insert `{Malloc Heap.muggle_heap_node} i h x :
  0 <= i < zlen l -> zlen l < 2 ^ 32 -> l @@ i = Some x -> filled i h ->
  wp (Heap.muggle_heap_insert h x NULL) (fun r => filled (i + 1) (snd r)).
Proof.
  intros Hi Hl Hx (Hwf & Hcmp & Hcap & Hp).
  assert (Heap.size h = i) as Hsize.
  { rewrite <- Heap.elems_size by done. apply Permutation_length in Hp.
    rewrite length_fmap in Hp. unfold zlen. rewrite Hp. change (zlen (seg 0 i l) = i).
    rewrite zlen_seg; lia. }
  eapply wp_mono; [apply Heap.heap_insert_wp; [done|by rewrite Hcmp|lia]|].
  intros [ok h'] (Hwf' & Hcmp' & Hok & Hcap'). simpl.
  destruct ok; [|lia]. unfold filled. rewrite Hcap', Hcmp' by lia. split_and!; try done.
  rewrite Hok. simpl. rewrite Hp, (seg_app 0 i (i + 1)), (seg_single i l x) by (done || lia).
  by rewrite Permutation_app_comm.
Qed.

(** After [i] extractions: [l'] is sorted up to [i] and below the rest. *)
Definition drained (i : Z) (h : Heap.muggle_heap) (l' : list ptr) : Prop :=
  Heap.wf h /\ Heap.cmp h = c /\ zlen l' = zlen l /\
  seg 0 i l' ++ (Heap.key <$> Heap.elems h) ≡ₚ l /\ sorted_in c 0 i l' /\
  all_in 0 i (fun x => Forall (fun m => c x (Heap.key m) <= 0) (Heap.elems h)) l'.

Lemma drained_extract i h l' :
  0 <= i < zlen l -> drained i h l' ->
  wp (Heap.muggle_heap_extract h) (fun '(r, h') =>
    exists nd, r = Some nd /\ drained (i + 1) h' (zinsert i (Heap.key nd) l')).
Proof.
  intros Hi (Hwf & Hcmp & Hl' & Hp & Hs & Hbelow).
  eapply wp_mono; [apply Heap.heap_extract_wp; [done|by rewrite Hcmp]|].
  intros [[nd|] h'] (Hwf' & Hcmp' & Hr).
  2: { destruct Hr as [_ He]. rewrite He in Hp. simpl in Hp. rewrite app_nil_r in Hp.
       apply Permutation_length in Hp. pose proof (zlen_seg 0 i l').
       unfold zlen in *. lia. }
  destruct Hr as [He Hmin]. exists nd. split; [done|].
  rewrite He in Hp. rewrite He in Hmin.
  assert (all_in 0 i (fun x => c x (Heap.key nd) <= 0 /\
    Forall (fun m => c x (Heap.key m) <= 0) (Heap.elems h')) l') as Hb.
  { eapply all_in_mono; [done|]. intros x. cbv beta. rewrite He. by intros [? ?]%Forall_cons. }
  unfold drained. rewrite zlen_zinsert. split_and!; try done; try congruence.
  - rewrite seg_snoc by lia. by rewrite <- (assoc_L (++)).
  - apply sorted_in_snoc; [lia|done|]. eapply all_in_mono; [done|]. by intros x [].
  - apply all_in_snoc; [lia| |].
    + eapply all_in_mono; [done|]. by intros x [].
    + rewrite Hcmp in Hmin. by apply Forall_cons in Hmin as [_ ?].
Qed.
End heap_sort.

(** Heap sort leaves a sorted permutation, or fails without touching the
    array when the heap cannot be allocated. *)
Theorem heap_sort_correct `{Malloc Heap.muggle_heap_node} c l :
  CmpOrder c -> zlen l < 2 ^ 32 - 1 ->
  exists ok l', muggle_heap_sort l (zlen l) c = Done (ok, l') /\
    if ok then sort_of c l l' else l' = l.
Proof.
  intros Hc Hl. pose proof (zlen_nonneg l).
  enough (wp (muggle_heap_sort l (zlen l) c) (fun r => if r.1 then sort_of c l r.2 else r.2 = l))
    as ([ok l'] & ? & ?)%wp_Done by (by exists ok, l').
  unfold muggle_heap_sort. rewrite (wrap_small _ (zlen l)), wrap_small by lia.
  destruct (Heap.muggle_heap_init (Some c) (zlen l + 1)) as [[] [h|]] eqn:Ei; try by apply wp_ret.
  apply Heap.heap_init_spec in Ei as (Hwf & He & Hcmp & Hsz & Hcap); [|lia].
  apply wp_bind, (wp_for_up (filled c l)).
  { unfold filled. rewrite He, seg_empty. auto. }
  { intros i h' Hi Hf. apply wp_bind, wp_aget; [lia|]. intros x Hx. apply wp_bind.
    eapply wp_mono; [apply (filled_insert c l); done || lia|]. intros r Hr. by apply wp_ret. }
  intros h1 (Hwf1 & Hcmp1 & _ & Hp1). rewrite Z.max_r, seg_full in Hp1 by lia.
  apply wp_bind, (wp_for_up (fun i st => drained c l i st.1.1 st.2)).
  { unfold drained. simpl. split_and!; try done.
    - by apply sorted_in_short.
    - intros k x ?. lia. }
  { intros i [[h2 nd] l2] Hi Hd. simpl in Hd. apply wp_bind.
    eapply wp_mono; [by apply (drained_extract c l)|].
    intros [r h3] (n & -> & Hd'). pose proof Hd as (_ & _ & Hl2 & _).
    apply wp_bind, wp_aset; [lia|]. by apply wp_ret. }
  intros [[h2 nd] l2] Hd. simpl in Hd. rewrite Z.max_r in Hd by lia.
  destruct Hd as (Hwf2 & _ & Hl2 & Hp2 & Hs2 & _).
  apply wp_bind. unfold Heap.muggle_heap_destroy. apply wp_bind.
  eapply wp_mono; [by apply Heap.heap_clear_wp|]. intros [[fk fv] h3] _.
  apply wp_ret, wp_ret. rewrite <- Hl2, seg_full in Hp2. rewrite <- Hl2 in Hs2.
  split; [|rewrite <- (seg_full l2); by apply sorted_in_seg].
  simpl. pose proof (Permutation_length Hp2) as Hlen. rewrite length_app in Hlen.
  unfold zlen in Hl2. destruct (Heap.elems h2); simpl in *; [by rewrite app_nil_r in Hp2|lia].
Qed.

(** ** Witnesses *)
Definition sample : list ptr := [5; 2; 9; 1; 3; 8; 4; 7; 11; 0; 6; 10].

Lemma insertion_sort_correct_witness :
  exists l', muggle_insertion_sort sample 0 12 cmp_addr = Done (true, l') /\
    sort_of cmp_addr sample l'.
Proof. apply (insertion_sort_correct cmp_addr sample); apply cmp_addr_order. Defined.

Lemma shell_sort_correct_witness :
  exists l', muggle_shell_sort sample 12 cmp_addr = Done (true, l') /\ sort_of cmp_addr sample l'.
Proof. apply (shell_sort_correct cmp_addr sample); apply cmp_addr_order. Defined.

Lemma merge_sort_correct_witness :
  exists ok l', @muggle_merge_sort (malloc_zeroed 0) sample 12 cmp_addr = Done (ok, l') /\
    if ok then sort_of cmp_addr sample l' else l' = sample.
Proof.
  apply (@merge_sort_correct (malloc_zeroed 0) cmp_addr sample); [apply cmp_addr_order|by vm_compute].
Defined.

Lemma quick_sort_correct_witness :
  exists l', muggle_quick_sort sample 12 cmp_addr = Done (true, l') /\ sort_of cmp_addr sample l'.
Proof. apply (quick_sort_correct cmp_addr sample); [apply cmp_addr_order|by vm_compute]. Defined.

Lemma heap_sort_correct_witness :
  exists ok l', @muggle_heap_sort (malloc_zeroed (Heap.mkn 0 0)) sample 12 cmp_addr = Done (ok, l') /\
    if ok then sort_of cmp_addr sample l' else l' = sample.
Proof.
  apply (@heap_sort_correct (malloc_zeroed (Heap.mkn 0 0)) cmp_addr sample);
    [apply cmp_addr_order|by vm_compute].
Defined.

End Sort.
