(* ===== verification/BytesBuffer.v ===== *)
(** muggle/c/memory/bytes_buffer.{h,c}: a byte ring buffer with a truncate
    position.  It refines a queue of bytes: [contents] is the abstraction,
    write appends to it and read and fetch take from its front.  The one case
    in which read does not is stated and shown reachable. *)

From stdpp Require Import base list numbers.
From Stdlib Require Import ZArith Lia.
From S2P Require Import Prelude Dsaa.

Open Scope Z_scope.

Module BytesBuffer.

Record muggle_bytes_buffer := mk {
  c : Z;
  w : Z;
  r : Z;
  t : Z;
  buffer : list Z
}.

Definition muggle_bytes_buffer_contiguous_writable (b : muggle_bytes_buffer) : Z :=
  if r b <=? w b then
    if negb (r b =? 0) then c b - w b else c b - w b - 1
  else r b - w b - 1.

Definition muggle_bytes_buffer_jump_writable (b : muggle_bytes_buffer) : Z :=
  if r b <=? w b then
    if negb (r b =? 0) then r b - 1 else 0
  else 0.

Definition muggle_bytes_buffer_jump_readable (b : muggle_bytes_buffer) : Z :=
  if r b <=? w b then 0 else w b.

Definition muggle_bytes_buffer_clear (b : muggle_bytes_buffer) : muggle_bytes_buffer :=
  mk (c b) 0 0 (c b) (buffer b).

Definition muggle_bytes_buffer_refresh (b : muggle_bytes_buffer) : muggle_bytes_buffer :=
  if w b =? r b then muggle_bytes_buffer_clear b else b.

Definition muggle_bytes_buffer_init `{Malloc Z} (capacity : Z) : option muggle_bytes_buffer :=
  match malloc_array 1 (u64 capacity) with
  | None => None
  | Some buffer => Some (mk capacity 0 0 capacity buffer)
  end.

Definition muggle_bytes_buffer_destroy (b : muggle_bytes_buffer) : muggle_bytes_buffer :=
  mk (c b) (w b) (r b) (t b) [].

Definition muggle_bytes_buffer_writable (b : muggle_bytes_buffer) : Z :=
  muggle_bytes_buffer_contiguous_writable b + muggle_bytes_buffer_jump_writable b.

Definition muggle_bytes_buffer_contiguous_readable (b : muggle_bytes_buffer) : Z :=
  if r b <=? w b then w b - r b else t b - r b.

Definition muggle_bytes_buffer_readable (b : muggle_bytes_buffer) : Z :=
  muggle_bytes_buffer_contiguous_readable b + muggle_bytes_buffer_jump_readable b.

(** [Some bytes] is a successful call with [bytes] copied to [dst]. *)
Definition muggle_bytes_buffer_fetch (b : muggle_bytes_buffer) (num_bytes : Z)
  : outcome (option (list Z)) :=
  let cr := muggle_bytes_buffer_contiguous_readable b in
  if num_bytes <=? cr then
    dst ← mem_read (buffer b) (r b) num_bytes;
    mret (Some dst)
  else
    let jr := muggle_bytes_buffer_jump_readable b in
    if cr + jr <? num_bytes then mret None
    else
      dst ← (if 0 <? cr then mem_read (buffer b) (r b) cr else mret []);
      let remain := num_bytes - cr in
      dst' ← mem_read (buffer b) 0 remain;
      mret (Some (dst ++ dst')).

Definition muggle_bytes_buffer_read (b : muggle_bytes_buffer) (num_bytes : Z)
  : outcome (option (list Z) * muggle_bytes_buffer) :=
  let cr := muggle_bytes_buffer_contiguous_readable b in
  if num_bytes <=? cr then
    dst ← mem_read (buffer b) (r b) num_bytes;
    let r' := r b + num_bytes in
    let r' := if r' =? t b then 0 else r' in
    mret (Some dst, muggle_bytes_buffer_refresh (mk (c b) (w b) r' (t b) (buffer b)))
  else
    let jr := muggle_bytes_buffer_jump_readable b in
    if cr + jr <? num_bytes then mret (None, b)
    else
      dst ← (if 0 <? cr then mem_read (buffer b) (r b) cr else mret []);
      let remain := num_bytes - cr in
      dst' ← mem_read (buffer b) 0 remain;
      mret (Some (dst ++ dst'),
            muggle_bytes_buffer_refresh (mk (c b) (w b) remain (t b) (buffer b))).

(** The position updates shared by write and writer_move. *)
Definition advance_w (b : muggle_bytes_buffer) (num_bytes : Z) (buffer : list Z)
  : muggle_bytes_buffer :=
  let w' := w b + num_bytes in
  let t' := if t b <? w' then c b else t b in
  mk (c b) (if w' =? c b then 0 else w') (r b) t' buffer.

Definition muggle_bytes_buffer_write (b : muggle_bytes_buffer) (num_bytes : Z) (src : list Z)
  : outcome (bool * muggle_bytes_buffer) :=
  let cw := muggle_bytes_buffer_contiguous_writable b in
  if num_bytes <=? cw then
    s ← mem_read src 0 num_bytes;
    buf ← mem_write (buffer b) (w b) s;
    mret (true, advance_w b num_bytes buf)
  else
    let jw := muggle_bytes_buffer_jump_writable b in
    if cw + jw <? num_bytes then mret (false, b)
    else if num_bytes <=? jw then
      s ← mem_read src 0 num_bytes;
      buf ← mem_write (buffer b) 0 s;
      mret (true, mk (c b) num_bytes (r b) (w b) buf)
    else
      buf ← (if 0 <? cw then s ← mem_read src 0 cw; mem_write (buffer b) (w b) s
             else mret (buffer b));
      let remain := num_bytes - cw in
      s ← mem_read src cw remain;
      buf ← mem_write buf 0 s;
      mret (true, mk (c b) remain (r b) (c b) buf).

(** The returned pointers are offsets into the buffer. *)
Definition muggle_bytes_buffer_writer_fc (b : muggle_bytes_buffer) (num_bytes : Z) : option Z :=
  if num_bytes <=? muggle_bytes_buffer_contiguous_writable b then Some (w b)
  else if num_bytes <=? muggle_bytes_buffer_jump_writable b then Some 0
  else None.

Definition muggle_bytes_buffer_writer_move (b : muggle_bytes_buffer) (num_bytes : Z)
  : bool * muggle_bytes_buffer :=
  if num_bytes <=? muggle_bytes_buffer_contiguous_writable b then
    (true, advance_w b num_bytes (buffer b))
  else if num_bytes <=? muggle_bytes_buffer_jump_writable b then
    (true, mk (c b) num_bytes (r b) (w b) (buffer b))
  else (false, b).

Definition muggle_bytes_buffer_reader_fc (b : muggle_bytes_buffer) (num_bytes : Z) : option Z :=
  if num_bytes <=? muggle_bytes_buffer_contiguous_readable b then Some (r b) else None.

Definition muggle_bytes_buffer_reader_move (b : muggle_bytes_buffer) (num_bytes : Z)
  : bool * muggle_bytes_buffer :=
  if num_bytes <=? muggle_bytes_buffer_contiguous_readable b then
    (true, muggle_bytes_buffer_refresh (mk (c b) (w b) (r b + num_bytes) (t b) (buffer b)))
  else (false, b).

(** ** Specification *)

(** The bytes written and not yet read, oldest first. *)
Definition contents (b : muggle_bytes_buffer) : list Z :=
  if decide (r b <= w b) then seg (r b) (w b) (buffer b)
  else seg (r b) (t b) (buffer b) ++ seg 0 (w b) (buffer b).

Record wf (b : muggle_bytes_buffer) : Prop := {
  wf_c : 0 < c b < 2 ^ 31;
  wf_buffer : zlen (buffer b) = c b;
  wf_w : 0 <= w b < c b;
  wf_r : 0 <= r b;
  wf_t : r b <= w b /\ w b <= t b <= c b \/ w b < r b /\ r b <= t b <= c b
}.

(** The truncate position is stale at the write position: a read that reaches
    it moves the read position back to the start of data already read. *)
Definition replays (b : muggle_bytes_buffer) (num_bytes : Z) : Prop :=
  r b <= w b /\ r b + num_bytes = t b.

Ltac bb_unfold :=
  unfold muggle_bytes_buffer_readable, muggle_bytes_buffer_writable,
    muggle_bytes_buffer_contiguous_readable, muggle_bytes_buffer_contiguous_writable,
    muggle_bytes_buffer_jump_readable, muggle_bytes_buffer_jump_writable,
    muggle_bytes_buffer_refresh, muggle_bytes_buffer_clear in *.

(** The readable count is the length of the contents. *)
Lemma bytes_buffer_readable_contents b :
  wf b -> muggle_bytes_buffer_readable b = zlen (contents b).
Proof.
  intros []. bb_unfold. unfold contents.
  destruct (Z.leb_spec (r b) (w b)).
  - rewrite decide_True, zlen_seg by lia. lia.
  - rewrite decide_False, zlen_app, !zlen_seg by lia. lia.
Qed.

(** Refresh does not change the contents. *)
Lemma refresh_spec b :
  wf b -> wf (muggle_bytes_buffer_refresh b) /\
          contents (muggle_bytes_buffer_refresh b) = contents b.
Proof.
  intros Hwf. bb_unfold. destruct (Z.eqb_spec (w b) (r b)) as [E|]; [|done].
  destruct Hwf. split; [split; simpl; try done; lia|].
  unfold contents. simpl. rewrite decide_True by lia. by rewrite E, !seg_empty.
Qed.

(** What a successful read does to the contents. *)
Definition read_result (b : muggle_bytes_buffer) (n : Z) (res : option (list Z))
    (b' : muggle_bytes_buffer) : Prop :=
  if decide (n <= zlen (contents b)) then
    res = Some (take (Z.to_nat n) (contents b)) /\
    (~ replays b n -> contents b' = drop (Z.to_nat n) (contents b))
  else res = None /\ b' = b.

Lemma read_contiguous b n :
  wf b -> 0 <= n <= muggle_bytes_buffer_contiguous_readable b ->
  mem_read (buffer b) (r b) n = Done (take (Z.to_nat n) (contents b)) /\
  let b' := mk (c b) (w b) (if r b + n =? t b then 0 else r b + n) (t b) (buffer b) in
  wf b' /\ (~ replays b n -> contents b' = drop (Z.to_nat n) (contents b)).
Proof.
  intros [] Hn. bb_unfold. unfold contents at 1 3, replays.
  destruct (Z.leb_spec (r b) (w b)).
  - rewrite mem_read_ok, decide_True, take_seg, drop_seg by lia. split; [done|].
    destruct (Z.eqb_spec (r b + n) (t b)); (split; [split; simpl; lia|]); [lia|].
    intros _. unfold contents. simpl. by rewrite decide_True by lia.
  - assert (zlen (seg (r b) (t b) (buffer b)) = t b - r b) by (rewrite zlen_seg; lia).
    rewrite mem_read_ok, decide_False, take_app_zle, drop_app_zle, take_seg, drop_seg by lia.
    split; [done|]. unfold contents. simpl.
    destruct (Z.eqb_spec (r b + n) (t b)) as [->|]; (split; [split; simpl; lia|]); intros _.
    + by rewrite decide_True, seg_empty by lia.
    + by rewrite decide_False by lia.
Qed.

Lemma read_jump b n :
  wf b -> muggle_bytes_buffer_contiguous_readable b < n -> n <= muggle_bytes_buffer_readable b ->
  let cr := muggle_bytes_buffer_contiguous_readable b in
  (if 0 <? cr then mem_read (buffer b) (r b) cr else mret []) = Done (seg (r b) (t b) (buffer b)) /\
  mem_read (buffer b) 0 (n - cr) = Done (seg 0 (n - cr) (buffer b)) /\
  seg (r b) (t b) (buffer b) ++ seg 0 (n - cr) (buffer b) = take (Z.to_nat n) (contents b) /\
  let b' := mk (c b) (w b) (n - cr) (t b) (buffer b) in
  wf b' /\ contents b' = drop (Z.to_nat n) (contents b).
Proof.
  intros [] Hcr Hn. bb_unfold. destruct (Z.leb_spec (r b) (w b)); [lia|]. cbv zeta.
  assert (zlen (seg (r b) (t b) (buffer b)) = t b - r b) as Hlen by (rewrite zlen_seg; lia).
  split_and!.
  - destruct (Z.ltb_spec 0 (t b - r b)); [rewrite mem_read_ok by lia; do 2 f_equal; lia|].
    assert (t b = r b) as -> by lia. by rewrite seg_empty.
  - by rewrite mem_read_ok by lia.
  - unfold contents. rewrite decide_False, take_app_zge, Hlen, take_seg by lia. done.
  - split; simpl; lia.
  - unfold contents at 2. rewrite decide_False, drop_app_zge, Hlen, drop_seg by lia.
    unfold contents. simpl. by rewrite decide_True by lia.
Qed.

Lemma bytes_buffer_read_wp b n :
  wf b -> 0 <= n -> wp (muggle_bytes_buffer_read b n) (fun '(res, b') =>
    wf b' /\ read_result b n res b').
Proof.
  intros Hwf Hn. unfold muggle_bytes_buffer_read, read_result.
  rewrite <- bytes_buffer_readable_contents by done.
  destruct (Z.leb_spec n (muggle_bytes_buffer_contiguous_readable b)) as [Hle|Hgt].
  - destruct (read_contiguous b n) as (-> & Hwf' & Hc); [done|lia|]. simpl.
    destruct (refresh_spec _ Hwf') as [? Hr]. split; [done|].
    rewrite decide_True, Hr; [done|].
    revert Hle. pose proof Hwf as []. bb_unfold. destruct (Z.leb_spec (r b) (w b)); lia.
  - destruct (Z.ltb_spec (muggle_bytes_buffer_contiguous_readable b +
      muggle_bytes_buffer_jump_readable b) n) as [Hlt|Hge].
    + apply wp_ret. split; [done|]. rewrite decide_False; [done|].
      unfold muggle_bytes_buffer_readable. lia.
    + destruct (read_jump b n) as (-> & E2 & E3 & Hwf' & Hc); [done|done|done|].
      simpl. rewrite E2. simpl. destruct (refresh_spec _ Hwf') as [? Hr]. split; [done|].
      rewrite decide_True, Hr, E3; [done|]. done.
Qed.

(** C27: read returns the oldest bytes and removes exactly them, and fails
    without effect when there are not enough; only a read that ends at a stale
    truncate position (replays) may leave other contents. *)
Theorem bytes_buffer_read_fifo b n :
  wf b -> 0 <= n ->
  exists res b', muggle_bytes_buffer_read b n = Done (res, b') /\ wf b' /\
    if decide (n <= muggle_bytes_buffer_readable b) then
      res = Some (take (Z.to_nat n) (contents b)) /\
      (~ replays b n -> contents b' = drop (Z.to_nat n) (contents b))
    else res = None /\ b' = b.
Proof.
  intros Hwf Hn. rewrite bytes_buffer_readable_contents by done.
  destruct (proj1 (wp_Done _ _) (bytes_buffer_read_wp b n Hwf Hn)) as ([res b'] & ? & ? & ?).
  by exists res, b'.
Qed.

(** The position update after [n] contiguous bytes [xs] have been stored at [w]. *)
Lemma advance_w_spec b xs :
  wf b -> zlen xs <= muggle_bytes_buffer_contiguous_writable b ->
  w b + zlen xs <= zlen (buffer b) /\
  let b' := advance_w b (zlen xs) (overwrite (w b) xs (buffer b)) in
  wf b' /\ contents b' = contents b ++ xs.
Proof.
  intros [] Hn. pose proof (zlen_nonneg xs). bb_unfold.
  unfold contents at 2, advance_w. cbv zeta.
  destruct (Z.leb_spec (r b) (w b)).
  - assert (w b + zlen xs <= c b) by (destruct (Z.eqb_spec (r b) 0); cbn [negb] in *; lia).
    split; [lia|]. rewrite (decide_True (P := r b <= w b)), <- seg_overwrite_snoc by lia.
    destruct (Z.eqb_spec (w b + zlen xs) (c b)) as [E|].
    + assert (r b <> 0) by (destruct (Z.eqb_spec (r b) 0); cbn [negb] in *; lia).
      split; [split; simpl; rewrite ?zlen_overwrite by lia; destruct (Z.ltb_spec (t b) (w b + zlen xs)); lia|].
      unfold contents. simpl. rewrite decide_False, seg_empty, app_nil_r by lia.
      f_equal. destruct (Z.ltb_spec (t b) (w b + zlen xs)); lia.
    + split; [split; simpl; rewrite ?zlen_overwrite by lia; destruct (Z.ltb_spec (t b) (w b + zlen xs)); lia|].
      unfold contents. simpl. by rewrite decide_True by lia.
  - split; [lia|]. rewrite (decide_False (P := r b <= w b)), <- (assoc_L (++)) by lia.
    rewrite <- (seg_overwrite_snoc (w b) xs (buffer b) 0) by lia.
    rewrite (proj2 (Z.eqb_neq (w b + zlen xs) (c b))), (proj2 (Z.ltb_ge (t b) (w b + zlen xs))) by lia.
    split; [split; simpl; rewrite ?zlen_overwrite by lia; lia|].
    unfold contents. simpl. by rewrite decide_False, seg_overwrite_ne by lia.
Qed.

(** A jump to the start of the buffer with [n] bytes [xs] stored there. *)
Lemma jump_w_spec b xs :
  wf b -> muggle_bytes_buffer_contiguous_writable b < zlen xs ->
  zlen xs <= muggle_bytes_buffer_jump_writable b ->
  let b' := mk (c b) (zlen xs) (r b) (w b) (overwrite 0 xs (buffer b)) in
  zlen xs <= zlen (buffer b) /\ wf b' /\ contents b' = contents b ++ xs.
Proof.
  intros [] Hcw Hn. pose proof (zlen_nonneg xs). bb_unfold.
  destruct (Z.leb_spec (r b) (w b)); [|lia].
  destruct (Z.eqb_spec (r b) 0); cbn [negb] in *; [lia|].
  split; [lia|]. split; [split; simpl; rewrite ?zlen_overwrite by lia; lia|].
  unfold contents. simpl. rewrite decide_False, decide_True, seg_overwrite_ne by lia.
  f_equal. apply (seg_overwrite_eq 0 xs); lia.
Qed.

(** A write split at the end of the buffer. *)
Lemma split_w_spec b xs ys :
  wf b -> zlen xs = muggle_bytes_buffer_contiguous_writable b ->
  muggle_bytes_buffer_jump_writable b < zlen xs + zlen ys ->
  0 < zlen ys <= muggle_bytes_buffer_jump_writable b ->
  0 < zlen xs /\ w b + zlen xs <= zlen (buffer b) /\ zlen ys <= zlen (buffer b) /\
  let b' := mk (c b) (zlen ys) (r b) (c b) (overwrite 0 ys (overwrite (w b) xs (buffer b))) in
  wf b' /\ contents b' = contents b ++ xs ++ ys.
Proof.
  intros [] Hx Hj Hy. pose proof (zlen_nonneg xs). bb_unfold.
  destruct (Z.leb_spec (r b) (w b)); [|lia].
  destruct (Z.eqb_spec (r b) 0); cbn [negb] in *; [lia|].
  assert (zlen (overwrite (w b) xs (buffer b)) = c b) by (rewrite zlen_overwrite; lia).
  split_and!; try lia; [split; simpl; rewrite ?zlen_overwrite; lia|].
  unfold contents. simpl. rewrite decide_False, decide_True by lia.
  rewrite (seg_overwrite_ne 0) by lia. replace (c b) with (w b + zlen xs) by lia.
  rewrite seg_overwrite_snoc, <- (assoc_L (++)) by lia. do 2 f_equal.
  apply (seg_overwrite_eq 0 ys); lia.
Qed.

Lemma bytes_buffer_write_wp b n src :
  wf b -> 0 <= n <= zlen src ->
  wp (muggle_bytes_buffer_write b n src) (fun '(ok, b') => wf b' /\
    if decide (n <= muggle_bytes_buffer_writable b) then
      ok = true /\ contents b' = contents b ++ take (Z.to_nat n) src
    else ok = false /\ b' = b).
Proof.
  intros Hwf Hn. unfold muggle_bytes_buffer_write, muggle_bytes_buffer_writable.
  assert (0 <= muggle_bytes_buffer_contiguous_writable b /\ 0 <= muggle_bytes_buffer_jump_writable b)
    as [Hcw0 Hjw0].
  { destruct Hwf. bb_unfold. destruct (Z.leb_spec (r b) (w b)), (Z.eqb_spec (r b) 0); simpl; lia. }
  rewrite take_seg0.
  destruct (Z.leb_spec n (muggle_bytes_buffer_contiguous_writable b)) as [Hle|Hgt].
  { assert (zlen (seg 0 n src) = n) as Hl by (rewrite zlen_seg; lia).
    destruct (advance_w_spec b (seg 0 n src)) as (Hb & Hwf' & Hc); [done|lia|].
    destruct Hwf. rewrite mem_read_ok by lia. rewrite ?Z.add_0_l. simpl. rewrite mem_write_ok by lia. simpl.
    rewrite Hl in *. split; [done|]. by rewrite decide_True by lia. }
  destruct (Z.ltb_spec (muggle_bytes_buffer_contiguous_writable b +
    muggle_bytes_buffer_jump_writable b) n) as [Hlt|Hge].
  { apply wp_ret. split; [done|]. by rewrite decide_False by lia. }
  destruct (Z.leb_spec n (muggle_bytes_buffer_jump_writable b)) as [Hle|Hgt'].
  { assert (zlen (seg 0 n src) = n) as Hl by (rewrite zlen_seg; lia).
    destruct (jump_w_spec b (seg 0 n src)) as (Hb & Hwf' & Hc); [done|lia|lia|].
    destruct Hwf. rewrite mem_read_ok by lia. rewrite ?Z.add_0_l. simpl. rewrite mem_write_ok by lia. simpl.
    rewrite Hl in *. split; [done|]. by rewrite decide_True by lia. }
  set (cw := muggle_bytes_buffer_contiguous_writable b) in *.
  assert (zlen (seg 0 cw src) = cw) as Hl by (rewrite zlen_seg; lia).
  assert (zlen (seg cw n src) = n - cw) as Hl' by (rewrite zlen_seg; lia).
  destruct (split_w_spec b (seg 0 cw src) (seg cw n src)) as (H0 & Hb & Hb' & Hwf' & Hc);
    [done|lia..|].
  destruct (Z.ltb_spec 0 cw); [|lia]. destruct Hwf.
  rewrite (mem_read_ok src 0 cw) by lia. rewrite ?Z.add_0_l. simpl. rewrite mem_write_ok by lia. simpl.
  rewrite (mem_read_ok src cw) by lia. simpl. replace (cw + (n - cw)) with n by lia.
  rewrite mem_write_ok by (rewrite ?zlen_overwrite; lia). simpl.
  rewrite Hl' in *. split; [done|]. rewrite decide_True by lia. split; [done|].
  rewrite Hc. f_equal. symmetry. apply seg_app; lia.
Qed.

(** Write appends the bytes, and fails without effect exactly when more
    are given than writable reports. *)
Theorem bytes_buffer_write_fifo b n src :
  wf b -> 0 <= n <= zlen src ->
  exists ok b', muggle_bytes_buffer_write b n src = Done (ok, b') /\ wf b' /\
    if decide (n <= muggle_bytes_buffer_writable b) then
      ok = true /\ contents b' = contents b ++ take (Z.to_nat n) src
    else ok = false /\ b' = b.
Proof.
  intros Hwf Hn.
  destruct (proj1 (wp_Done _ _) (bytes_buffer_write_wp b n src Hwf Hn)) as ([ok b'] & ? & ? & ?).
  by exists ok, b'.
Qed.

(** Fetch returns the oldest bytes and leaves them. *)
Lemma bytes_buffer_fetch_spec b n :
  wf b -> 0 <= n ->
  muggle_bytes_buffer_fetch b n =
    Done (if decide (n <= zlen (contents b)) then Some (take (Z.to_nat n) (contents b)) else None).
Proof.
  intros Hwf Hn. destruct (proj1 (wp_Done _ _) (bytes_buffer_read_wp b n Hwf Hn))
    as ([res b'] & E & _ & Hr).
  transitivity ('(res, _) ← muggle_bytes_buffer_read b n; mret res).
  - unfold muggle_bytes_buffer_fetch, muggle_bytes_buffer_read.
    case_match; [by destruct (mem_read _ _ _)|]. case_match; [done|].
    destruct (if 0 <? _ then _ else _); [|done..]. simpl. by destruct (mem_read _ _ _).
  - rewrite E. simpl. unfold read_result in Hr. case_decide; by destruct Hr as [-> _].
Qed.

(** The contiguous reader removes the oldest bytes, which reader_fc points to. *)
Lemma bytes_buffer_reader_move_spec b n :
  wf b -> 0 <= n ->
  let (ok, b') := muggle_bytes_buffer_reader_move b n in
  wf b' /\
  if ok then muggle_bytes_buffer_reader_fc b n = Some (r b) /\
             seg (r b) (r b + n) (buffer b) = take (Z.to_nat n) (contents b) /\
             contents b' = drop (Z.to_nat n) (contents b)
  else b' = b /\ muggle_bytes_buffer_reader_fc b n = None.
Proof.
  intros Hwf Hn. unfold muggle_bytes_buffer_reader_move, muggle_bytes_buffer_reader_fc.
  destruct (Z.leb_spec n (muggle_bytes_buffer_contiguous_readable b)) as [Hle|]; [|done].
  set (b1 := mk (c b) (w b) (r b + n) (t b) (buffer b)).
  assert (wf b1 /\ seg (r b) (r b + n) (buffer b) = take (Z.to_nat n) (contents b) /\
    contents b1 = drop (Z.to_nat n) (contents b)) as (Hwf1 & Ht & Hc).
  { destruct Hwf. bb_unfold. unfold contents, b1. simpl.
    destruct (Z.leb_spec (r b) (w b)).
    - rewrite !decide_True, take_seg, drop_seg by lia. split; [split; simpl; lia|done].
    - assert (zlen (seg (r b) (t b) (buffer b)) = t b - r b) by (rewrite zlen_seg; lia).
      rewrite !decide_False, take_app_zle, drop_app_zle, take_seg, drop_seg by lia.
      split; [split; simpl; lia|done]. }
  destruct (refresh_spec b1 Hwf1) as [? ->]. auto.
Qed.

Lemma bytes_buffer_writer_move_wf b n :
  wf b -> 0 <= n -> wf (muggle_bytes_buffer_writer_move b n).2.
Proof.
  intros Hwf Hn. unfold muggle_bytes_buffer_writer_move, advance_w.
  destruct (Z.leb_spec n (muggle_bytes_buffer_contiguous_writable b));
    [|destruct (Z.leb_spec n (muggle_bytes_buffer_jump_writable b)); [|done]];
    destruct Hwf; bb_unfold; simpl;
    destruct (Z.leb_spec (r b) (w b)), (Z.eqb_spec (r b) 0); cbn [negb] in *; split; simpl; try lia;
    destruct (Z.eqb_spec (w b + n) (c b)), (Z.ltb_spec (t b) (w b + n)); lia.
Qed.

(** ** Sequences of operations *)
Inductive op :=
| Read (n : Z)
| Fetch (n : Z)
| Write (n : Z) (src : list Z)
| WriterMove (n : Z)
| ReaderMove (n : Z)
| Clear.

Definition op_valid (o : op) : Prop :=
  match o with
  | Read n | Fetch n | WriterMove n | ReaderMove n => 0 <= n
  | Write n src => 0 <= n <= zlen src
  | Clear => True
  end.

Definition run_op (b : muggle_bytes_buffer) (o : op) : outcome muggle_bytes_buffer :=
  match o with
  | Read n => p ← muggle_bytes_buffer_read b n; mret (snd (p : option (list Z) * _))
  | Fetch n => _ ← muggle_bytes_buffer_fetch b n; mret b
  | Write n src => p ← muggle_bytes_buffer_write b n src; mret (snd (p : bool * _))
  | WriterMove n => mret (snd (muggle_bytes_buffer_writer_move b n))
  | ReaderMove n => mret (snd (muggle_bytes_buffer_reader_move b n))
  | Clear => mret (muggle_bytes_buffer_clear b)
  end.

Fixpoint run_ops (b : muggle_bytes_buffer) (os : list op) : outcome muggle_bytes_buffer :=
  match os with
  | [] => mret b
  | o :: os => b ← run_op b o; run_ops b os
  end.

Lemma run_op_wf b o : wf b -> op_valid o -> wp (run_op b o) wf.
Proof.
  intros Hwf Ho. destruct o; simpl in *.
  - apply wp_bind. eapply wp_mono; [by apply bytes_buffer_read_wp|]. by intros [? ?] [? _].
  - by rewrite bytes_buffer_fetch_spec.
  - apply wp_bind. eapply wp_mono; [by apply bytes_buffer_write_wp|]. by intros [? ?] [? _].
  - by apply bytes_buffer_writer_move_wf.
  - pose proof (bytes_buffer_reader_move_spec b n Hwf Ho).
    destruct (muggle_bytes_buffer_reader_move b n). naive_solver.
  - destruct Hwf. split; simpl; lia.
Qed.

(** C28: no sequence of operations with non-negative counts, on an initialised
    buffer, accesses memory outside it, and the positions stay in range. *)
Theorem bytes_buffer_ops_safe `{Malloc Z} capacity b os :
  0 < capacity < 2 ^ 31 -> muggle_bytes_buffer_init capacity = Some b ->
  Forall op_valid os -> exists b', run_ops b os = Done b' /\ wf b'.
Proof.
  intros Hc Hinit Hos.
  assert (wf b) as Hwf.
  { unfold muggle_bytes_buffer_init in Hinit. rewrite wrap_small in Hinit by lia.
    destruct (malloc_array 1 capacity) as [l|] eqn:Em; [|done]. injection Hinit as <-.
    apply malloc_array_len in Em; [|lia..]. split; simpl; lia. }
  apply wp_Done. clear Hinit. revert b Hwf.
  induction Hos as [|o os Ho _ IH]; intros b Hwf; simpl; [done|].
  apply wp_bind. eapply wp_mono; [by apply run_op_wf|]. apply IH.
Qed.

(** The stale truncate position is reachable: on a buffer of capacity 10,
    eight bytes are in the buffer, read returns them all, and a second read
    returns the same eight bytes again. *)
Theorem bytes_buffer_replayed_bytes :
  exists b b' b'',
    (b0 ← match @muggle_bytes_buffer_init (malloc_zeroed 0) 10 with
          | Some b => mret b | None => Undef end;
     run_ops b0 [Write 8 [1; 2; 3; 4; 5; 6; 7; 8]; Read 5; Write 3 [9; 10; 11]; Read 3;
                 Write 5 [12; 13; 14; 15; 16]]) = Done b /\
    muggle_bytes_buffer_readable b = 8 /\
    muggle_bytes_buffer_read b 8 = Done (Some [9; 10; 11; 12; 13; 14; 15; 16], b') /\
    muggle_bytes_buffer_read b' 8 = Done (Some [9; 10; 11; 12; 13; 14; 15; 16], b'').
Proof. do 3 eexists. split; [reflexivity|]. split; [reflexivity|]. by split. Qed.

(** A contiguous reader that consumes up to the truncate position does not move
    to the start: bytes are readable and none of them can be fetched. *)
Example bytes_buffer_reader_stalls :
  exists b,
    run_ops (mk 10 0 0 10 (replicate 10 0))
      [Write 8 [1; 2; 3; 4; 5; 6; 7; 8]; Read 5; Write 3 [9; 10; 11]; ReaderMove 3] = Done b /\
    muggle_bytes_buffer_readable b = 3 /\
    muggle_bytes_buffer_reader_fc b 1 = None /\ muggle_bytes_buffer_reader_move b 1 = (false, b).
Proof. eexists. by split. Qed.

(** ** Witnesses *)
Definition sample : muggle_bytes_buffer := mk 10 3 5 8 [9; 10; 11; 4; 5; 6; 7; 8; 0; 0].

Lemma sample_wf : wf sample.
Proof. split; simpl; try lia. done. Qed.

Lemma bytes_buffer_read_fifo_witness :
  exists res b', muggle_bytes_buffer_read sample 4 = Done (res, b') /\ wf b' /\
    res = Some [6; 7; 8; 9] /\
    (~ replays sample 4 -> contents b' = drop 4 (contents sample)).
Proof. apply (bytes_buffer_read_fifo sample 4); [apply sample_wf|done]. Defined.

Lemma bytes_buffer_write_fifo_witness :
  exists ok b', muggle_bytes_buffer_write sample 1 [42] = Done (ok, b') /\ wf b' /\
    ok = true /\ contents b' = contents sample ++ [42].
Proof. apply (bytes_buffer_write_fifo sample 1 [42]); [apply sample_wf|done]. Defined.

Lemma bytes_buffer_ops_safe_witness :
  exists b', run_ops (mk 10 0 0 10 (replicate 10 0)) [Write 1 [7]; Read 1] = Done b' /\ wf b'.
Proof.
  apply (@bytes_buffer_ops_safe (malloc_zeroed 0) 10); [lia|reflexivity|].
  repeat constructor; simpl; unfold zlen; simpl; lia.
Defined.

End BytesBuffer.
