(* ===== verification/MemoryPool.v ===== *)
(** muggle/c/memory/memory_pool.{h,c}: a pool of equal blocks.  A ring of
    pointers holds the blocks that can be handed out; [alloc_index] is where
    the next one is taken, [free_index] where a returned one is put.  The
    invariant is ownership: the available blocks and the blocks in use are
    together exactly the blocks of the data buffers, each once. *)

From stdpp Require Import base list numbers.
From Stdlib Require Import ZArith Lia.
From S2P Require Import Prelude Dsaa.

Open Scope Z_scope.

Module MemoryPool.

(** A [void*] into the data buffers: the buffer's number and a byte offset. *)
Record block := blk { buf_no : Z; offset : Z }.

#[export] Instance block_eq_dec : EqDecision block.
Proof. solve_decision. Defined.

(** Modelled without the field [peak], which exists in debug builds only. *)
Record muggle_memory_pool := mk {
  memory_pool_data_bufs : list (list Z);
  memory_pool_ptr_buf : list block;
  alloc_index : Z;
  free_index : Z;
  capacity : Z;
  used : Z;
  block_size : Z;
  num_buf : Z;
  flag : Z
}.

Definition MUGGLE_MEMORY_POOL_CONSTANT_SIZE : Z := 1.

Section ops.
Context `{Malloc (list Z)} `{Malloc block} `{Malloc Z}.

(** The loop that writes the addresses of [n] consecutive blocks of data buffer
    [k], from cell [off] of the pointer buffer on. *)
Definition fill_ptrs (k bs off n : Z) (ptrs : list block) : outcome (list block) :=
  for_up 0 n (fun i ptrs => aset ptrs (u32 (off + i)) (blk k (u32 (i * bs)))) ptrs.

Definition muggle_memory_pool_init (init_capacity block_size : Z)
  : outcome (option muggle_memory_pool) :=
  let init_capacity := if init_capacity =? 0 then 8 else init_capacity in
  if block_size =? 0 then mret None
  else match malloc_array 8 1, malloc_array 8 init_capacity,
             malloc_array 1 (u32 (block_size * init_capacity)) with
       | Some bufs, Some ptrs, Some data =>
           bufs ← aset (bufs : list (list Z)) 0 data;
           ptrs ← fill_ptrs 0 block_size 0 init_capacity ptrs;
           mret (Some (mk bufs ptrs 0 0 init_capacity 0 block_size 1 0))
       | _, _, _ => mret None
       end.

Definition muggle_memory_pool_destroy (pool : muggle_memory_pool) : muggle_memory_pool :=
  mk [] [] 0 0 0 0 0 0 0.

(** The sections of the old pointer buffer, each an index and a count: the two
    parts of the free section, then the two parts of the alloc section. *)
Definition sections (pool : muggle_memory_pool) : (Z * Z) * (Z * Z) * (Z * Z) * (Z * Z) :=
  if used pool =? capacity pool then
    ((free_index pool, capacity pool - free_index pool), (0, free_index pool), (0, 0), (0, 0))
  else if free_index pool <? alloc_index pool then
    ((free_index pool, alloc_index pool - free_index pool), (0, 0),
     (alloc_index pool, capacity pool - alloc_index pool), (0, free_index pool))
  else
    ((free_index pool, capacity pool - free_index pool), (0, alloc_index pool),
     (alloc_index pool, free_index pool - alloc_index pool), (0, 0)).

Definition copy_section (src dst : list block) (off : Z) (s : Z * Z) : outcome (list block) :=
  xs ← mem_read src (fst s) (snd s);
  mem_write dst off xs.

(** The copies into the new pointer buffer, with the new [alloc_index] and the
    end of the copied part. *)
Definition copy_sections (pool : muggle_memory_pool) (new_ptrs : list block)
  : outcome (list block * Z * Z) :=
  let '(free1, free2, alloc1, alloc2) := sections pool in
  let ptrs := memory_pool_ptr_buf pool in
  let off := 0 in
  new_ptrs ← copy_section ptrs new_ptrs off free1;
  let off := off + snd free1 in
  r ← (if 0 <? snd free2 then
         q ← copy_section ptrs new_ptrs off free2;
         mret (q, off + snd free2)
       else mret (new_ptrs, off));
  let '(new_ptrs, off) := (r : list block * Z) in
  let alloc_index' := off in
  if 0 <? snd free1 then
    q ← copy_section ptrs new_ptrs off alloc1;
    let off := off + snd alloc1 in
    if 0 <? snd alloc2 then
      q ← copy_section ptrs q off alloc2;
      mret (q, alloc_index', off + snd alloc2)
    else mret (q, alloc_index', off)
  else mret (new_ptrs, alloc_index', off).

Definition muggle_memory_pool_ensure_space (pool : muggle_memory_pool) (cap : Z)
  : outcome (bool * muggle_memory_pool) :=
  if cap <=? capacity pool then mret (true, pool)
  else if negb (Z.land (flag pool) MUGGLE_MEMORY_POOL_CONSTANT_SIZE =? 0) then mret (false, pool)
  else
    let delta_size := cap - capacity pool in
    match malloc_array 8 (u32 (num_buf pool + 1)) with
    | None => mret (false, pool)
    | Some new_bufs =>
        old ← mem_read (memory_pool_data_bufs pool) 0 (num_buf pool);
        new_bufs ← mem_write (new_bufs : list (list Z)) 0 old;
        match malloc_array 1 (u32 (block_size pool * delta_size)) with
        | None => mret (false, pool)
        | Some data =>
            new_bufs ← aset new_bufs (num_buf pool) data;
            match malloc_array 8 cap with
            | None => mret (false, pool)
            | Some new_ptrs =>
                r ← copy_sections pool new_ptrs;
                let '(new_ptrs, alloc_index', off) := (r : list block * Z * Z) in
                new_ptrs ← fill_ptrs (num_buf pool) (block_size pool) off delta_size new_ptrs;
                mret (true, mk new_bufs new_ptrs alloc_index' 0 cap (used pool)
                              (block_size pool) (u32 (num_buf pool + 1)) (flag pool))
            end
        end
    end.

Definition muggle_memory_pool_alloc (pool : muggle_memory_pool)
  : outcome (option block * muggle_memory_pool) :=
  r ← (if used pool =? capacity pool
       then muggle_memory_pool_ensure_space pool (u32 (capacity pool * 2))
       else mret (true, pool));
  let (ok, pool) := (r : bool * muggle_memory_pool) in
  if negb ok then mret (None, pool)
  else
    let used' := u32 (used pool + 1) in
    ret ← aget (memory_pool_ptr_buf pool) (alloc_index pool);
    let a := u32 (alloc_index pool + 1) in
    let a := if a =? capacity pool then 0 else a in
    mret (Some ret, mk (memory_pool_data_bufs pool) (memory_pool_ptr_buf pool) a
      (free_index pool) (capacity pool) used' (block_size pool) (num_buf pool) (flag pool)).

Definition muggle_memory_pool_free (pool : muggle_memory_pool) (p_data : block)
  : outcome muggle_memory_pool :=
  ptrs ← aset (memory_pool_ptr_buf pool) (free_index pool) p_data;
  let f := u32 (free_index pool + 1) in
  let f := if f =? capacity pool then 0 else f in
  mret (mk (memory_pool_data_bufs pool) ptrs (alloc_index pool) f (capacity pool)
          (u32 (used pool - 1)) (block_size pool) (num_buf pool) (flag pool)).

Definition muggle_memory_pool_get_flag (pool : muggle_memory_pool) : Z := flag pool.

Definition muggle_memory_pool_set_flag (pool : muggle_memory_pool) (f : Z)
  : muggle_memory_pool :=
  mk (memory_pool_data_bufs pool) (memory_pool_ptr_buf pool) (alloc_index pool)
    (free_index pool) (capacity pool) (used pool) (block_size pool) (num_buf pool) f.
End ops.

(** ** Specification *)

(** The blocks of one data buffer, and of all of them. *)
Definition blocks_of (k n bs : Z) : list block :=
  (fun i => blk k (Z.of_nat i * bs)) <$> seq 0 (Z.to_nat n).

Definition blocks_in (bufs : list (list Z)) (bs : Z) : list block :=
  concat (imap (fun k buf => blocks_of (Z.of_nat k) (zlen buf / bs) bs) bufs).

Definition blocks (p : muggle_memory_pool) : list block :=
  blocks_in (memory_pool_data_bufs p) (block_size p).

(** The pointers that can be handed out, the next one first. *)
Definition avail (p : muggle_memory_pool) : list block :=
  let hi := alloc_index p + (capacity p - used p) in
  if decide (hi <= capacity p) then seg (alloc_index p) hi (memory_pool_ptr_buf p)
  else seg (alloc_index p) (capacity p) (memory_pool_ptr_buf p) ++
       seg 0 (hi - capacity p) (memory_pool_ptr_buf p).

Record wf (p : muggle_memory_pool) : Prop := {
  wf_ptrs : zlen (memory_pool_ptr_buf p) = capacity p;
  wf_capacity : 0 < capacity p < 2 ^ 32;
  wf_used : 0 <= used p <= capacity p;
  wf_alloc : 0 <= alloc_index p < capacity p;
  wf_free : 0 <= free_index p < capacity p;
  wf_ring : alloc_index p = free_index p + used p \/
            alloc_index p + capacity p = free_index p + used p;
  wf_bs : 0 < block_size p < 2 ^ 32;
  wf_bufs : zlen (memory_pool_data_bufs p) = num_buf p;
  wf_num : num_buf p <= capacity p;
  wf_blocks : zlen (blocks p) = capacity p
}.

(** [out] are the blocks in use. *)
Definition owns (p : muggle_memory_pool) (out : list block) : Prop :=
  wf p /\ avail p ++ out ≡ₚ blocks p.

Lemma zlen_blocks_of k n bs : 0 <= n -> zlen (blocks_of k n bs) = n.
Proof. intros. unfold zlen, blocks_of. rewrite length_fmap, length_seq. lia. Qed.

Lemma zlen_avail p : wf p -> zlen (avail p) = capacity p - used p.
Proof.
  intros []. unfold avail. case_decide; rewrite ?zlen_app, !zlen_seg by lia; lia.
Qed.

Lemma zlookup_avail p i :
  wf p -> 0 <= i < capacity p - used p ->
  avail p @@ i = memory_pool_ptr_buf p @@
    (if decide (alloc_index p + i < capacity p) then alloc_index p + i
     else alloc_index p + i - capacity p).
Proof.
  intros [] Hi. unfold avail. case_decide.
  - rewrite zlookup_seg, !decide_True by lia. done.
  - case_decide.
    + rewrite zlookup_app_l, zlookup_seg, decide_True by (rewrite ?zlen_seg; lia). done.
    + rewrite zlookup_app_r by (rewrite zlen_seg; lia). rewrite zlen_seg by lia.
      rewrite zlookup_seg, decide_True by lia. f_equal. lia.
Qed.

(** The blocks of the buffers are pairwise different and inside their buffer. *)
Lemma blocks_nodup bufs bs : 0 < bs -> NoDup (blocks_in bufs bs).
Proof.
  intros Hbs. unfold blocks_in. induction bufs as [|buf bufs IH] using rev_ind; [constructor|].
  rewrite imap_app, concat_app. simpl. rewrite app_nil_r, Nat.add_0_r. apply list.NoDup_app.
  split; [done|]. split.
  - intros b Hb Hb'. apply list_elem_of_fmap in Hb' as (i & -> & _).
    apply list_elem_of_In, in_concat in Hb as (l & Hl%list_elem_of_In & Hb%list_elem_of_In).
    apply list_elem_of_lookup in Hl as (k & Hk). rewrite list_lookup_imap in Hk.
    destruct (bufs !! k) eqn:E; [|done]. simplify_eq/=. apply lookup_lt_Some in E.
    apply list_elem_of_fmap in Hb as (j & [= ? _] & _). lia.
  - unfold blocks_of. apply NoDup_fmap_2_strong; [|apply list.NoDup_seq].
    intros i j _ _ [= E]. nia.
Qed.

Lemma blocks_in_range bufs bs b :
  0 < bs -> b ∈ blocks_in bufs bs ->
  exists buf, bufs @@ buf_no b = Some buf /\ 0 <= offset b /\ offset b + bs <= zlen buf.
Proof.
  intros Hbs. unfold blocks_in.
  intros (l & Hl%list_elem_of_In & Hb%list_elem_of_In)%list_elem_of_In%in_concat.
  apply list_elem_of_lookup in Hl as (k & Hk). rewrite list_lookup_imap in Hk.
  destruct (bufs !! k) as [buf|] eqn:E; [|done]. simplify_eq/=.
  apply list_elem_of_fmap in Hb as (j & -> & Hj%elem_of_seq). simpl.
  exists buf. rewrite zlookup_nonneg, Nat2Z.id by lia. split; [done|].
  pose proof (zlen_nonneg buf). pose proof (Z.mul_div_le (zlen buf) bs Hbs). nia.
Qed.

Lemma fill_ptrs_wp k bs off n ptrs :
  0 <= off -> 0 <= n -> off + n <= zlen ptrs < 2 ^ 32 -> 0 < bs -> bs * n < 2 ^ 32 ->
  wp (fill_ptrs k bs off n ptrs) (fun l =>
    zlen l = zlen ptrs /\ agree 0 off l ptrs /\ seg off (off + n) l = blocks_of k n bs).
Proof.
  intros Hoff Hn Hl Hbs Hm. unfold fill_ptrs.
  apply (wp_for_up (fun i l => zlen l = zlen ptrs /\ agree 0 off l ptrs /\
    forall j, 0 <= j < i -> l @@ (off + j) = Some (blk k (j * bs)))).
  - split; [done|]. split; [done|]. intros j ?. lia.
  - intros i l Hi (Hlen & Hag & Hf). assert (i * bs < 2 ^ 32) by nia.
    rewrite !wrap_small by nia. apply wp_aset; [lia|].
    rewrite zlen_zinsert. split; [done|]. split.
    + intros j Hj. rewrite zlookup_zinsert_ne by lia. by apply Hag.
    + intros j Hj. rewrite zlookup_zinsert by lia.
      case_decide; [by replace j with i by lia|]. apply Hf. lia.
  - intros l (Hlen & Hag & Hf). split; [done|]. split; [done|].
    apply zlookup_ext; rewrite zlen_seg, ?zlen_blocks_of by lia; [lia|].
    intros j Hj. rewrite zlookup_seg, decide_True, Hf by lia.
    unfold blocks_of. rewrite zlookup_nonneg, list_lookup_fmap, lookup_seq_lt by lia. simpl.
    do 2 f_equal. lia.
Qed.

Lemma copy_section_wp src dst off o n :
  0 <= o -> 0 <= n -> o + n <= zlen src -> 0 <= off -> off + n <= zlen dst ->
  wp (copy_section src dst off (o, n)) (fun q =>
    zlen q = zlen dst /\ seg 0 (off + n) q = seg 0 off dst ++ seg o (o + n) src).
Proof.
  intros. unfold copy_section. simpl. rewrite mem_read_ok by lia. simpl.
  assert (zlen (seg o (o + n) src) = n) as E by (rewrite zlen_seg; lia).
  rewrite mem_write_ok by lia. simpl. rewrite zlen_overwrite by lia. split; [done|].
  rewrite <- seg_overwrite_snoc by lia. by rewrite E.
Qed.

(** A copy guarded by [count > 0]. *)
Lemma copy_section_if_wp src dst off o n :
  0 <= o -> 0 <= n -> o + n <= zlen src -> 0 <= off -> off + n <= zlen dst ->
  wp (if 0 <? n then q ← copy_section src dst off (o, n); mret (q, off + n)
      else mret (dst, off)) (fun '(q, off') =>
    off' = off + n /\ zlen q = zlen dst /\
    seg 0 (off + n) q = seg 0 off dst ++ seg o (o + n) src).
Proof.
  intros. destruct (Z.ltb_spec 0 n).
  - apply wp_bind. eapply wp_mono; [by apply copy_section_wp|]. intros q [? ?]. by apply wp_ret.
  - apply wp_ret. replace n with 0 by lia. by rewrite !Z.add_0_r, seg_empty, app_nil_r.
Qed.

(** The four sections, chained. *)
Lemma sections_wf p o1 n1 o2 n2 o3 n3 o4 n4 :
  wf p -> used p <> 0 -> sections p = ((o1, n1), (o2, n2), (o3, n3), (o4, n4)) ->
  (0 <= o1 /\ 0 < n1 /\ o1 + n1 <= capacity p) /\ (0 <= o2 /\ 0 <= n2 /\ o2 + n2 <= capacity p) /\
  (0 <= o3 /\ 0 <= n3 /\ o3 + n3 <= capacity p) /\ (0 <= o4 /\ 0 <= n4 /\ o4 + n4 <= capacity p) /\
  n1 + n2 = used p /\ n1 + n2 + n3 + n4 = capacity p /\
  seg o3 (o3 + n3) (memory_pool_ptr_buf p) ++ seg o4 (o4 + n4) (memory_pool_ptr_buf p) = avail p.
Proof.
  intros [] Hu. unfold sections, avail.
  destruct (Z.eqb_spec (used p) (capacity p)) as [E|];
    [|destruct (Z.ltb_spec (free_index p) (alloc_index p))]; intros [= <- <- <- <- <- <- <- <-];
    (do 4 (split; [lia|])); (split; [lia|]); (split; [lia|]).
  - by rewrite decide_True, E, Z.sub_diag, !Z.add_0_r, !seg_empty by lia.
  - replace (alloc_index p + (capacity p - alloc_index p)) with (capacity p) by lia.
    case_decide.
    + assert (free_index p = 0) as -> by lia. rewrite seg_empty, app_nil_r. f_equal. lia.
    + do 2 f_equal. lia.
  - rewrite decide_True, seg_empty, app_nil_r by lia. f_equal. lia.
Qed.

Lemma copy_sections_wp p new_ptrs :
  wf p -> used p <> 0 -> capacity p <= zlen new_ptrs ->
  wp (copy_sections p new_ptrs) (fun '(q, a, off) =>
    a = used p /\ off = capacity p /\ zlen q = zlen new_ptrs /\
    seg (used p) (capacity p) q = avail p).
Proof.
  intros Hwf Hu Hl. unfold copy_sections.
  destruct (sections p) as [[[[o1 n1] [o2 n2]] [o3 n3]] [o4 n4]] eqn:Es.
  destruct (sections_wf p _ _ _ _ _ _ _ _ Hwf Hu Es) as (H1 & H2 & H3 & H4 & Hused & Hcap & Hav).
  pose proof (wf_ptrs p Hwf) as Hp. simpl.
  apply wp_bind. eapply wp_mono; [apply copy_section_wp; lia|]. intros q1 [L1 S1].
  apply wp_bind. eapply wp_mono; [apply copy_section_if_wp; lia|].
  intros [q2 off] (-> & L2 & S2). destruct (Z.ltb_spec 0 n1); [|lia].
  apply wp_bind. eapply wp_mono; [apply copy_section_wp; lia|]. intros q3 [L3 S3].
  match goal with |- wp ?m _ => replace m with
    (r ← (if 0 <? n4 then q ← copy_section (memory_pool_ptr_buf p) q3 (n1 + n2 + n3) (o4, n4);
            mret (q, n1 + n2 + n3 + n4) else mret (q3, n1 + n2 + n3));
     let '(q, off) := (r : list block * Z) in mret (q, n1 + n2, off)) end.
  2: { case_match; [|done]. by destruct (copy_section _ _ _ _). }
  apply wp_bind. eapply wp_mono; [apply copy_section_if_wp; lia|].
  intros [q4 off] (-> & L4 & S4). apply wp_ret. split; [lia|]. split; [lia|]. split; [lia|].
  rewrite <- Hcap, <- Hused, <- Hav.
  assert (zlen (seg 0 (n1 + n2) q2) = n1 + n2) as Hz by (rewrite zlen_seg; lia).
  replace (seg (n1 + n2) (n1 + n2 + n3 + n4) q4)
    with (drop (Z.to_nat (n1 + n2)) (seg 0 (n1 + n2 + n3 + n4) q4)) by (by rewrite drop_seg by lia).
  rewrite ?Z.add_0_l in S3. rewrite ?Z.add_0_l in S4.
  rewrite S4, S3, <- (assoc_L (++)), drop_app_zge, Hz, Z.sub_diag by lia. done.
Qed.

Lemma blocks_in_snoc bufs buf bs :
  blocks_in (bufs ++ [buf]) bs = blocks_in bufs bs ++ blocks_of (zlen bufs) (zlen buf / bs) bs.
Proof.
  unfold blocks_in. rewrite imap_app, concat_app. simpl. by rewrite app_nil_r, Nat.add_0_r.
Qed.

(** Growing an array by one cell: copy, then store in the last cell. *)
Lemma grow_snoc {A} (l raw : list A) x :
  zlen raw = zlen l + 1 -> zinsert (zlen l) x (overwrite 0 l raw) = l ++ [x].
Proof.
  intros Hr. pose proof (zlen_nonneg l).
  apply zlookup_ext; rewrite zlen_zinsert, zlen_overwrite by lia;
    [rewrite zlen_app; unfold zlen at 3; simpl; lia|].
  intros i Hi. rewrite zlookup_zinsert by (rewrite zlen_overwrite; lia). case_decide as E.
  - rewrite zlookup_app_r, <- E, Z.sub_diag by lia. done.
  - rewrite zlookup_overwrite, decide_True, zlookup_app_l, Z.sub_0_r by lia. done.
Qed.

Section proofs.
Context `{Malloc (list Z)} `{Malloc block} `{Malloc Z}.

(** The pool after a growth to [cap]. *)
Lemma grown_owns p out cap data ptrs :
  owns p out -> capacity p < cap < 2 ^ 32 -> zlen data = block_size p * (cap - capacity p) ->
  zlen ptrs = cap -> seg (used p) (capacity p) ptrs = avail p ->
  seg (capacity p) cap ptrs = blocks_of (num_buf p) (cap - capacity p) (block_size p) ->
  owns (mk (memory_pool_data_bufs p ++ [data]) ptrs (used p) 0 cap (used p) (block_size p)
          (num_buf p + 1) (flag p)) out.
Proof.
  intros [Hwf Hown] Hcap Hd Hp Hav Hnew. pose proof Hwf as [].
  assert (zlen data / block_size p = cap - capacity p) as Hdiv
    by (rewrite Hd, Z.mul_comm, Z.div_mul; lia).
  split.
  - split; simpl; try lia.
    + rewrite zlen_app, wf_bufs0. done.
    + unfold blocks. simpl. rewrite blocks_in_snoc, zlen_app, Hdiv, zlen_blocks_of by lia.
      change (blocks_in _ _) with (blocks p). lia.
  - unfold avail, blocks. simpl. rewrite decide_True by lia.
    replace (used p + (cap - used p)) with cap by lia.
    rewrite (seg_app (used p) (capacity p)), Hav, Hnew, blocks_in_snoc, Hdiv, wf_bufs0 by lia.
    change (blocks_in _ _) with (blocks p). rewrite <- Hown. solve_Permutation.
Qed.

(** A pool can grow to [cap]: its size is not fixed, and malloc grants the three
    arrays. *)
Definition can_grow (p : muggle_memory_pool) (cap : Z) : Prop :=
  Z.land (flag p) MUGGLE_MEMORY_POOL_CONSTANT_SIZE = 0 /\
  is_Some (malloc_array 8 (num_buf p + 1) : option (list (list Z))) /\
  is_Some (malloc_array 1 (block_size p * (cap - capacity p)) : option (list Z)) /\
  is_Some (malloc_array 8 cap : option (list block)).

Lemma memory_pool_ensure_space_wp p out cap :
  owns p out -> used p <> 0 -> 0 <= cap < 2 ^ 32 -> block_size p * cap < 2 ^ 32 ->
  wp (muggle_memory_pool_ensure_space p cap) (fun r => let '(ok, p') := (r : bool * _) in
    if ok then owns p' out /\ capacity p' = Z.max cap (capacity p) /\ used p' = used p /\
               block_size p' = block_size p
    else p' = p /\ capacity p < cap /\ ~ can_grow p cap).
Proof.
  intros Hown Hu Hcap Hm. pose proof Hown as [Hwf _]. pose proof Hwf as [].
  unfold muggle_memory_pool_ensure_space.
  destruct (Z.leb_spec cap (capacity p)); [apply wp_ret; split_and!; done || lia|].
  destruct (Z.eqb_spec (Z.land (flag p) MUGGLE_MEMORY_POOL_CONSTANT_SIZE) 0) as [Hfl|Hfl]; simpl;
    [|apply wp_ret; split_and!; [done|done|by intros [? _]]].
  assert (0 <= num_buf p) by (pose proof (zlen_nonneg (memory_pool_data_bufs p)); lia).
  rewrite (wrap_small _ (num_buf p + 1)), (wrap_small _ (block_size p * _)) by nia.
  destruct (malloc_array 8 (num_buf p + 1)) as [raw|] eqn:Er;
    [|apply wp_ret; split_and!; [done|done|]; intros (_ & [? ?] & _); congruence].
  apply malloc_array_len in Er; [|lia..]. rewrite mem_read_ok by lia. simpl.
  rewrite Z.add_0_l, <- wf_bufs0, seg_full, mem_write_ok by lia. simpl.
  destruct (malloc_array 1 (block_size p * (cap - capacity p))) as [data|] eqn:Ed;
    [|apply wp_ret; split_and!; [done|done|]; intros (_ & _ & [? ?] & _); congruence].
  apply malloc_array_len in Ed; [|nia..].
  rewrite aset_zinsert by (rewrite zlen_overwrite; lia). simpl. rewrite grow_snoc by lia.
  destruct (malloc_array 8 cap) as [ptrs|] eqn:Ep;
    [|apply wp_ret; split_and!; [done|done|]; intros (_ & _ & _ & [? ?]); congruence].
  apply malloc_array_len in Ep; [|lia..]. apply wp_bind.
  eapply wp_mono; [apply copy_sections_wp; done || lia|].
  intros [[q a] off] (-> & -> & Hq & Hav). apply wp_bind.
  eapply wp_mono; [apply fill_ptrs_wp; nia|].
  intros q' (Hq' & Hag & Hnew). apply wp_ret. simpl.
  split; [|split; [lia|done]]. rewrite wf_bufs0 in *.
  apply grown_owns; try done; try lia.
  - rewrite <- Hav. apply seg_ext; try lia. intros j ?. apply Hag. lia.
  - by replace (capacity p + (cap - capacity p)) with cap in Hnew by lia.
Qed.

(** Taking the next pointer of the ring. *)
Lemma take_next p out b :
  owns p out -> used p < capacity p -> memory_pool_ptr_buf p @@ alloc_index p = Some b ->
  owns (mk (memory_pool_data_bufs p) (memory_pool_ptr_buf p)
          (if alloc_index p + 1 =? capacity p then 0 else alloc_index p + 1)
          (free_index p) (capacity p) (used p + 1) (block_size p) (num_buf p) (flag p))
       (b :: out) /\ b ∉ out.
Proof.
  intros [Hwf Hown] Hu Hb. pose proof Hwf as [].
  set (p' := mk _ _ _ _ _ _ _ _ _).
  assert (wf p') as Hwf'.
  { split; simpl; try done; try lia; destruct (Z.eqb_spec (alloc_index p + 1) (capacity p)); lia. }
  assert (avail p = b :: avail p') as Hav.
  { apply zlookup_ext; rewrite ?zlen_cons, !zlen_avail by done; simpl; [lia|].
    intros i Hi. rewrite zlookup_avail, zlookup_cons by (done || lia).
    destruct (decide (i = 0)) as [->|].
    - by rewrite Z.add_0_r, decide_True by lia.
    - rewrite zlookup_avail by (simpl; done || lia). simpl. f_equal.
      destruct (Z.eqb_spec (alloc_index p + 1) (capacity p)); repeat case_decide; lia. }
  assert (avail p' ++ b :: out ≡ₚ blocks p) as Hp by (rewrite <- Hown, Hav; solve_Permutation).
  split; [by split|]. intros Hin.
  assert (NoDup (avail p' ++ b :: out)) as Hnd
    by (rewrite Hp; apply blocks_nodup; lia).
  apply list.NoDup_app in Hnd as (_ & _ & Hnd). by apply list.NoDup_cons in Hnd as [? _].
Qed.

Lemma used_owns p out : owns p out -> used p = zlen out.
Proof.
  intros [Hwf Hown]. pose proof Hwf as []. apply Permutation_length in Hown.
  rewrite length_app in Hown. pose proof (zlen_avail p Hwf). unfold zlen in *. lia.
Qed.

Lemma memory_pool_alloc_wp p out :
  owns p out ->
  (used p = capacity p -> capacity p < 2 ^ 31 /\ block_size p * (capacity p * 2) < 2 ^ 32) ->
  wp (muggle_memory_pool_alloc p) (fun '(r, p') => match r with
    | Some b => owns p' (b :: out) /\ b ∉ out /\ block_size p' = block_size p /\
        capacity p' = (if used p =? capacity p then capacity p * 2 else capacity p)
    | None => p' = p /\ used p = capacity p /\ ~ can_grow p (capacity p * 2)
    end).
Proof.
  intros Hown Hm.
  pose proof Hown as [Hwf _]. pose proof Hwf as []. unfold muggle_memory_pool_alloc.
  apply wp_bind. apply (wp_mono _ (fun r => let '(ok, q) := (r : bool * _) in
    if ok then owns q out /\ used q < capacity q /\ block_size q = block_size p /\
               capacity q = (if used p =? capacity p then capacity p * 2 else capacity p)
    else q = p /\ used p = capacity p /\ ~ can_grow p (capacity p * 2))).
  { destruct (Z.eqb_spec (used p) (capacity p)) as [E|].
    - destruct (Hm E) as [Hc Hb]. rewrite wrap_small by lia.
      eapply wp_mono; [apply (memory_pool_ensure_space_wp p out); done || lia|].
      intros [[] q]; [|by intros (-> & _ & ?)]. intros (? & ? & ? & ?). split_and!; done || lia.
    - apply wp_ret. split_and!; done || lia. }
  intros [[] q]; [|by intros (-> & ? & ?)]. intros (Hq & Hu & Hbs & Hcq). cbn [negb].
  pose proof Hq as [Hwfq _]. pose proof Hwfq as [].
  apply wp_bind, wp_aget; [lia|]. intros b Hb. apply wp_ret.
  rewrite !wrap_small by lia. by destruct (take_next q out b Hq Hu Hb).
Qed.

Lemma memory_pool_free_wp p b out :
  owns p (b :: out) ->
  wp (muggle_memory_pool_free p b) (fun p' => owns p' out /\ avail p' = avail p ++ [b]).
Proof.
  intros [Hwf Hown]. pose proof Hwf as [].
  assert (used p = 1 + zlen out) as Hu by (by rewrite (used_owns p (b :: out)), zlen_cons).
  pose proof (zlen_nonneg out). unfold muggle_memory_pool_free.
  rewrite aset_zinsert by lia. simpl. rewrite !wrap_small by lia.
  set (p' := mk _ _ _ _ _ _ _ _ _).
  assert (wf p') as Hwf'.
  { split; simpl; rewrite ?zlen_zinsert; try done; try lia;
      destruct (Z.eqb_spec (free_index p + 1) (capacity p)); lia. }
  assert (avail p' = avail p ++ [b]) as Hav.
  { apply zlookup_ext; rewrite ?zlen_app, !zlen_avail by done; simpl; [unfold zlen; simpl; lia|].
    intros i Hi. rewrite zlookup_avail by (done || simpl; lia). simpl.
    rewrite zlookup_zinsert by lia.
    destruct (decide (i = capacity p - used p)) as [->|].
    - rewrite zlookup_app_r, zlen_avail, Z.sub_diag by (rewrite ?zlen_avail; done || lia).
      rewrite decide_True; [done|]. case_decide; lia.
    - rewrite zlookup_app_l, zlookup_avail by (rewrite ?zlen_avail; done || lia).
      rewrite decide_False; [done|]. case_decide; lia. }
  split; [|done]. split; [done|]. rewrite Hav. change (blocks p') with (blocks p).
  rewrite <- Hown. solve_Permutation.
Qed.

(** C26: of a pool that owns its blocks (each block is in the ring or in use, and
    only once), alloc hands out a block that is not in use; a full pool that is
    not of constant size grows to twice its capacity, and another keeps its
    capacity.  NULL is returned, without effect, only when the pool is full and of
    constant size or malloc fails.  A pool owns its blocks when it was set up;
    alloc keeps it so, as does ensure_space while a block is in use, and it fails
    only when the pool cannot grow (without a block in use ensure_space may put a
    block into the ring twice, [memory_pool_double_alloc]). *)
Theorem memory_pool_alloc_fresh p out :
  owns p out -> capacity p < 2 ^ 31 -> block_size p * (capacity p * 2) < 2 ^ 32 ->
  (exists r p', muggle_memory_pool_alloc p = Done (r, p') /\
    match r with
    | Some b => owns p' (b :: out) /\ b ∉ out /\
        capacity p' = (if used p =? capacity p then capacity p * 2 else capacity p) /\
        exists buf, memory_pool_data_bufs p' @@ buf_no b = Some buf /\
          0 <= offset b /\ offset b + block_size p' <= zlen buf
    | None => p' = p /\ used p = capacity p /\ ~ can_grow p (capacity p * 2)
    end) /\
  (forall cap, out <> [] -> 0 <= cap < 2 ^ 32 -> block_size p * cap < 2 ^ 32 ->
    exists ok p', muggle_memory_pool_ensure_space p cap = Done (ok, p') /\ owns p' out /\
      if (ok : bool) then capacity p' = Z.max cap (capacity p) else p' = p /\ capacity p < cap /\ ~ can_grow p cap).
Proof.
  intros Hown Hcap Hm. split.
  - destruct (proj1 (wp_Done _ _) (memory_pool_alloc_wp p out Hown (fun _ => conj Hcap Hm))) as ([r p'] & E & Hr).
    exists r, p'. split; [done|]. destruct r as [b|]; [|done]. destruct Hr as (Ho & Hnin & _ & Hc).
    split; [done|]. split; [done|]. split; [done|]. destruct Ho as [[] Ho].
    apply blocks_in_range; [lia|]. change (blocks_in _ _) with (blocks p').
    rewrite <- Ho. apply elem_of_app; right; left.
  - intros cap Hout Hc Hb. assert (used p <> 0) as Hu.
    { rewrite (used_owns _ _ Hown). destruct out as [|b out]; [done|]. rewrite zlen_cons. pose proof (zlen_nonneg out). lia. }
    destruct (proj1 (wp_Done _ _) (memory_pool_ensure_space_wp p out cap Hown Hu Hc Hb)) as ([ok p'] & E & Hr).
    exists ok, p'. split; [done|]. destruct ok; [by destruct Hr as (? & ? & _)|]. destruct Hr as (-> & ? & ?). done.
Qed.

(** Free returns a block in use to the pool. *)
Theorem memory_pool_free_returns p b out :
  owns p (b :: out) ->
  exists p', muggle_memory_pool_free p b = Done p' /\ owns p' out /\ avail p' = avail p ++ [b].
Proof. intros Hown. by apply wp_Done, memory_pool_free_wp. Qed.

(** A new pool owns all its blocks and none is in use. *)
Lemma memory_pool_init_owns n bs p :
  0 < n < 2 ^ 32 -> 0 < bs -> bs * n < 2 ^ 32 ->
  muggle_memory_pool_init n bs = Done (Some p) -> owns p [] /\ capacity p = n /\ block_size p = bs.
Proof.
  intros Hn Hbs Hm. unfold muggle_memory_pool_init.
  rewrite (proj2 (Z.eqb_neq n 0)), (proj2 (Z.eqb_neq bs 0)), wrap_small by lia.
  destruct (malloc_array 8 1) as [bufs|] eqn:Eb; [|done].
  destruct (malloc_array 8 n) as [ptrs|] eqn:Ep; [|done].
  destruct (malloc_array 1 (bs * n)) as [data|] eqn:Ed; [|done].
  apply malloc_array_len in Eb, Ep, Ed; [|lia..].
  rewrite aset_zinsert by lia. simpl.
  assert (zinsert 0 data bufs = [data]) as ->.
  { destruct bufs as [|x [|y bufs]]; unfold zlen in Eb; simpl in Eb; try lia. done. }
  destruct (proj1 (wp_Done _ _) (fill_ptrs_wp 0 bs 0 n ptrs ltac:(lia) ltac:(lia) ltac:(lia)
    Hbs Hm)) as (l & -> & Hl & _ & Hs). simpl. intros [= <-].
  assert (zlen data / bs = n) as Hdiv by (rewrite Ed, Z.mul_comm, Z.div_mul; lia).
  assert (blocks_in [data] bs = blocks_of 0 n bs) as Hbl.
  { change [data] with ([] ++ [data]). rewrite blocks_in_snoc, Hdiv. done. }
  split; [|done]. split.
  - split; simpl; try done; try nia. unfold blocks. simpl. rewrite Hbl, zlen_blocks_of; lia.
  - unfold avail, blocks. simpl. rewrite Z.sub_0_r, decide_True, Hbl, app_nil_r by lia.
    by rewrite <- Hs, Z.add_0_l.
Qed.
End proofs.

(** Growing an unused pool breaks the ownership: on a new pool of two
    blocks grown to four, the block that was allocated and freed first is
    handed out twice among four blocks in use. *)
Theorem memory_pool_double_alloc :
  exists p b0 b1 b2 q,
    (r ← @muggle_memory_pool_init (malloc_zeroed []) (malloc_zeroed (blk 0 0)) (malloc_zeroed 0) 2 4;
     match r with
     | None => Undef
     | Some p =>
         r ← @muggle_memory_pool_ensure_space (malloc_zeroed []) (malloc_zeroed (blk 0 0))
               (malloc_zeroed 0) p 4;
         mret r.2
     end) = Done p /\
    let alloc := @muggle_memory_pool_alloc (malloc_zeroed []) (malloc_zeroed (blk 0 0))
                   (malloc_zeroed 0) in
    (r ← alloc p;
     p ← match r with (Some b, p) => muggle_memory_pool_free p b | _ => Undef end;
     r1 ← alloc p; r2 ← alloc r1.2; r3 ← alloc r2.2; r4 ← alloc r3.2;
     mret (r1.1, r2.1, r3.1, r4.1, r4.2)) =
      Done (Some b0, Some b1, Some b2, Some b1, q) /\ used q = 4 /\ capacity q = 4.
Proof.
  exists (mk [replicate 8 0; replicate 8 0] [blk 0 0; blk 0 4; blk 1 0; blk 1 4] 2 0 4 0 4 2 0),
    (blk 1 4), (blk 1 0), (blk 0 4),
    (mk [replicate 8 0; replicate 8 0] [blk 1 0; blk 0 4; blk 1 0; blk 1 4] 3 1 4 4 4 2 0).
  by vm_compute.
Qed.

(** ** Witnesses: a pool of two blocks, one of them in use, and a full pool of one *)
Definition sample : muggle_memory_pool :=
  mk [replicate 8 0] [blk 0 0; blk 0 4] 1 0 2 1 4 1 0.
Definition sample_full : muggle_memory_pool := mk [replicate 4 0] [blk 0 0] 0 0 1 1 4 1 0.

Lemma sample_owns : owns sample [blk 0 0].
Proof. split; [split; simpl; done || lia|]. apply perm_swap. Qed.
Lemma sample_full_owns : owns sample_full [blk 0 0].
Proof. split; [split; simpl; done || lia|done]. Qed.

(** The full pool grows: malloc grants what it needs. *)
Lemma memory_pool_alloc_fresh_witness :
  exists b p', @muggle_memory_pool_alloc (malloc_zeroed []) (malloc_zeroed (blk 0 0))
      (malloc_zeroed 0) sample_full = Done (Some b, p') /\ owns p' [b; blk 0 0] /\ capacity p' = 2.
Proof.
  destruct (@memory_pool_alloc_fresh (malloc_zeroed []) (malloc_zeroed (blk 0 0))
    (malloc_zeroed 0) sample_full [blk 0 0] sample_full_owns ltac:(done) ltac:(done)) as [([b|] & p' & E & Hr) _].
  - exists b, p'. split; [exact E|]. destruct Hr as (Ho & _ & Hc & _). split; [exact Ho|exact Hc].
  - exfalso. destruct Hr as (_ & _ & Hno). apply Hno. repeat split; by eexists.
Defined.

Lemma memory_pool_free_returns_witness :
  exists p', muggle_memory_pool_free sample (blk 0 0) = Done p' /\ owns p' [] /\
    avail p' = [blk 0 4; blk 0 0].
Proof. apply (memory_pool_free_returns sample (blk 0 0) []). apply sample_owns. Defined.

End MemoryPool.
