(* ===== verification/NodeMem.v ===== *)
(** The memory the linked data structures of muggle/c/dsaa work on.  Linked
    list, queue, hash table, trie and AVL tree keep their elements in nodes that
    come from a memory pool or from malloc; the nodes are cells of a store
    indexed by their address, and the code that follows and changes pointers is
    written in a state monad over that store.  A node that was given back is no
    cell of the store any more, so that using it again is undefined. *)

From stdpp Require Import base gmap sets list numbers.
From Stdlib Require Import ZArith Lia.
From S2P Require Import Prelude Dsaa MemoryPool.
Import MemoryPool(block, blk, muggle_memory_pool).

Open Scope Z_scope.

(** ** Addresses of nodes: the null pointer, a node that is part of another
    object (the head and tail of a list, a bucket of the hash table, the root of
    a trie), a block of the structure's pool, or a malloc'ed block. *)
Inductive loc : Type :=
| LNull
| LPart (i : Z)
| LPool (buf_no offset : Z)
| LHeap (a : Z).

#[export] Instance loc_eq_dec : EqDecision loc.
Proof. solve_decision. Defined.

#[export] Instance loc_countable : Countable loc.
Proof.
  apply (inj_countable'
    (fun p => match p with
              | LNull => inl (inl tt) | LPart i => inl (inr i)
              | LPool k o => inr (inl (k, o)) | LHeap a => inr (inr a)
              end)
    (fun x => match x with
              | inl (inl _) => LNull | inl (inr i) => LPart i
              | inr (inl (k, o)) => LPool k o | inr (inr a) => LHeap a
              end)).
  by intros [].
Defined.

Definition is_null (p : loc) : bool := bool_decide (p = LNull).

(** ** malloc and free of single nodes

    [H] is the state of the allocator, [live] the blocks it has handed out.  A
    call either fails or returns a block that is not in use; freeing a block
    that is not in use is undefined. *)
Class NodeMalloc (H : Type) := {
  node_malloc : H -> option Z * H;
  node_free : H -> Z -> H;
  live : H -> gset Z;
  node_malloc_fresh : forall h a h',
    node_malloc h = (Some a, h') -> a ∉ live h /\ live h' = {[a]} ∪ live h;
  node_malloc_fails : forall h h', node_malloc h = (None, h') -> live h' = live h;
  node_free_live : forall h a, a ∈ live h -> live (node_free h a) = live h ∖ {[a]}
}.

(** An allocator with room for [n] nodes, to evaluate operations. *)
Definition bounded_malloc (n : nat) : NodeMalloc (gset Z).
Proof.
  refine {|
    node_malloc h := if decide (size h < n)%nat
                     then let a := set_fold Z.max 0 h + 1 in (Some a, {[a]} ∪ h)
                     else (None, h);
    node_free h a := h ∖ {[a]};
    live h := h
  |}.
  - abstract (intros h a h'; case_decide; [|done]; intros [= <- <-]; split; [|done];
      intros Hin;
      assert (forall x, x ∈ h -> x <= set_fold Z.max 0 h) as Hmax by
        (apply (set_fold_ind_L (fun m X => forall x, x ∈ X -> x <= m)); [set_solver|];
         intros x X m ? IH y [->%elem_of_singleton|Hy]%elem_of_union;
           [lia|specialize (IH y Hy); lia]);
      specialize (Hmax _ Hin); lia).
  - abstract (intros h h'; case_decide; [done|]; by intros [= <-]).
  - abstract done.
Defined.

Section arena.
Context {H : Type} `{!NodeMalloc H}.
Context `{Malloc (list Z)} `{Malloc block} `{Malloc Z}.

(** The [pool] field of a structure (NULL: none) and the allocator. *)
Record arena := mka { pool : option muggle_memory_pool; heap : H }.

(** [pool ? muggle_memory_pool_alloc(pool) : malloc(sizeof(node))]. *)
Definition new_node (a : arena) : outcome (option loc * arena) :=
  match pool a with
  | Some p =>
      r ← MemoryPool.muggle_memory_pool_alloc p;
      let (b, p) := (r : option block * muggle_memory_pool) in
      mret ((fun b => LPool (MemoryPool.buf_no b) (MemoryPool.offset b)) <$> b,
            mka (Some p) (heap a))
  | None =>
      let (x, h) := node_malloc (heap a) in
      mret (LHeap <$> x, mka None h)
  end.

(** [pool ? muggle_memory_pool_free(pool, node) : free(node)]. *)
Definition free_node (a : arena) (p : loc) : outcome arena :=
  match pool a, p with
  | Some pl, LPool k o =>
      pl ← MemoryPool.muggle_memory_pool_free pl (blk k o);
      mret (mka (Some pl) (heap a))
  | None, LHeap x =>
      if bool_decide (x ∈ live (heap a)) then mret (mka None (node_free (heap a) x)) else Undef
  | _, _ => Undef
  end.

Definition block_loc (b : block) : loc :=
  LPool (MemoryPool.buf_no b) (MemoryPool.offset b).

#[global] Instance block_loc_inj : Inj eq eq block_loc.
Proof. intros [] []. by intros [= -> ->]. Qed.

(** The nodes [out] are in use: the pool holds exactly them, or malloc has
    handed them out. *)
Definition arena_owns (a : arena) (out : gset loc) : Prop :=
  match pool a with
  | Some p => exists bs, MemoryPool.owns p bs /\ out = list_to_set (block_loc <$> bs) /\ NoDup bs
  | None => forall p, p ∈ out -> exists x, p = LHeap x /\ x ∈ live (heap a)
  end.

(** The pool can hand out [n] more blocks: doubled to hold them, it stays within
    32 bits. *)
Definition arena_rooms (a : arena) (n : nat) : Prop :=
  match pool a with
  | Some p => MemoryPool.block_size p * (2 * (MemoryPool.used p + Z.of_nat n)) < 2 ^ 32
  | None => True
  end.
Definition arena_room (a : arena) : Prop := arena_rooms a 1.

(** One of the next [n] requests for a node is refused: malloc fails, or the pool
    is full and does not grow. *)
Fixpoint short_of (n : nat) (a : arena) : Prop :=
  match n with
  | O => False
  | S n => match new_node a with Done (Some _, a') => short_of n a' | Done (None, _) => True | _ => False end
  end.
Definition no_node (a : arena) : Prop := short_of 1 a.

Lemma no_node_eq a : no_node a <-> exists a', new_node a = Done (None, a').
Proof.
  unfold no_node. simpl. destruct (new_node a) as [[[p|] a']| |]; split; try done; [by intros (? & [=])|by eexists|by intros (? & [=])..].
Qed.

(** What a structure may rely on when it takes a node: the node is new. *)
Lemma new_node_wp a out n :
  arena_owns a out -> arena_rooms a (S n) ->
  wp (new_node a) (fun '(r, a') => arena_rooms a' n /\ match r with
    | Some p => p ∉ out /\ p <> LNull /\ (forall i, p <> LPart i) /\
                arena_owns a' ({[p]} ∪ out)
    | None => arena_owns a' out
    end).
Proof.
  unfold arena_owns, arena_rooms, new_node. destruct a as [[p|] h]; simpl.
  - intros (bs & Ho & -> & Hnd) Hm. apply wp_bind. pose proof Ho as [[] _].
    eapply wp_mono; [apply (MemoryPool.memory_pool_alloc_wp p bs Ho); nia|].
    intros [[b|] p'] Hr; apply wp_ret; simpl.
    + destruct Hr as (Ho' & Hnin & Hbs & _). change (LPool _ _) with (block_loc b). split.
      { rewrite (MemoryPool.used_owns _ _ Ho'), zlen_cons, Hbs.
        rewrite (MemoryPool.used_owns _ _ Ho) in Hm. nia. }
      split; [|split; [done|split; [done|]]].
      * rewrite elem_of_list_to_set, list_elem_of_fmap. intros (b' & ?%(inj _) & ?). by subst.
      * exists (b :: bs). split; [done|]. split; [done|]. by constructor.
    + destruct Hr as [-> _]. split; [nia|]. by exists bs.
  - intros Ho _. destruct (node_malloc h) as [[x|] h'] eqn:E; apply wp_ret; simpl; (split; [done|]).
    + apply node_malloc_fresh in E as [Hx Hl]. split; [|split; [done|split; [done|]]].
      * intros (y & [= <-] & ?)%Ho. done.
      * intros p [->%elem_of_singleton|(y & -> & ?)%Ho]%elem_of_union; eexists; split; try done;
          rewrite Hl; set_solver.
    + apply node_malloc_fails in E. intros p (y & -> & ?)%Ho. exists y. by rewrite E.
Qed.

(** Giving back a node in use. *)
Lemma free_node_wp a out p :
  arena_owns a out -> p ∈ out ->
  wp (free_node a p) (fun a' => arena_owns a' (out ∖ {[p]})).
Proof.
  unfold arena_owns, free_node. destruct a as [[pl|] h]; simpl.
  - intros (bs & Ho & -> & Hnd) Hp.
    rewrite elem_of_list_to_set, list_elem_of_fmap in Hp. destruct Hp as (b & -> & Hb).
    destruct b as [k o]. simpl. apply list_elem_of_split in Hb as (l1 & l2 & ->).
    assert (MemoryPool.owns pl (blk k o :: l1 ++ l2)) as Ho'.
    { destruct Ho as [? Ho]. split; [done|]. rewrite <- Ho. by rewrite Permutation_middle. }
    apply wp_bind. eapply wp_mono; [by apply MemoryPool.memory_pool_free_wp|].
    intros p' [Hp' _]. apply wp_ret. simpl. exists (l1 ++ l2). split; [done|].
    rewrite <- Permutation_middle in Hnd. apply list.NoDup_cons in Hnd as [Hnin Hnd].
    split; [|done]. apply set_eq. intros q.
    rewrite elem_of_difference, !elem_of_list_to_set, !list_elem_of_fmap, elem_of_singleton.
    setoid_rewrite elem_of_app. setoid_rewrite elem_of_cons. split.
    + intros ((b & -> & Hb) & Hne). exists b. split; [done|]. destruct Hb as [?|[->|?]]; [by left| |by right].
      done.
    + intros (b & -> & Hb). split; [exists b; split; [done|]; tauto|].
      intros ?. assert (b = blk k o) as -> by (by apply (inj block_loc)).
      apply Hnin, elem_of_app. done.
  - intros Ho Hp. destruct (Ho p Hp) as (x & -> & Hx). rewrite bool_decide_true by done.
    apply wp_ret. simpl. intros q [Hq Hne]%elem_of_difference.
    destruct (Ho q Hq) as (y & -> & Hy). exists y. split; [done|].
    rewrite node_free_live by done. set_solver.
Qed.

(** The part of the init functions that sets up the pool: [None] is [return
    false].  The capacity parameter of the pool is an [unsigned int]. *)
Definition init_pool `{Malloc muggle_memory_pool} (capacity sizeof_node : Z)
  : outcome (option (option muggle_memory_pool)) :=
  if 0 <? capacity then
    if negb (MUGGLE_DS_CAP_IS_VALID capacity) then mret None
    else match (malloc_cells 1 : option (list muggle_memory_pool)) with
         | None => mret None
         | Some _ =>
             r ← MemoryPool.muggle_memory_pool_init (u32 capacity) sizeof_node;
             mret (Some <$> (r : option muggle_memory_pool))
         end
  else mret (Some None).

Lemma init_pool_owns `{Malloc muggle_memory_pool} capacity sz h p :
  0 <= capacity < 2 ^ 32 -> 0 < sz -> sz * capacity < 2 ^ 32 ->
  init_pool capacity sz = Done (Some p) -> arena_owns (mka p h) ∅.
Proof.
  intros Hc Hsz Hm. unfold init_pool. destruct (Z.ltb_spec 0 capacity).
  - destruct (MUGGLE_DS_CAP_IS_VALID capacity); [simpl|done].
    destruct (malloc_cells 1); [|done]. rewrite wrap_small by lia.
    destruct (MemoryPool.muggle_memory_pool_init capacity sz) as [[q|]| |] eqn:E;
      [|done..]. intros [= <-].
    apply MemoryPool.memory_pool_init_owns in E as (Ho & _); [|lia..].
    exists []. split; [done|]. split; [done|]. constructor.
  - intros [= <-]. intros p' Hp'. set_solver.
Qed.

(** ** The state of a structure and its monad *)

(** A call of one of the client's free callbacks. *)
Inductive free_call : Type :=
| FreeData (d : ptr)
| FreeKey (k : ptr)
| FreeValue (v : ptr).

(** The nodes, the pool and allocator, the structure's other fields, and the
    callbacks made so far. *)
Record st (N F : Type) := mkst {
  mem : gmap loc N;
  ar : arena;
  fld : F;
  calls : list free_call
}.
#[global] Arguments mkst {N F}.
#[global] Arguments mem {N F}.
#[global] Arguments ar {N F}.
#[global] Arguments fld {N F}.
#[global] Arguments calls {N F}.

Definition M (N F A : Type) : Type := st N F -> outcome (A * st N F).

#[global] Instance M_ret {N F} : MRet (M N F) := fun A a s => Done (a, s).
#[global] Instance M_bind {N F} : MBind (M N F) := fun A B f m s =>
  match m s with
  | Done (a, s') => f a s'
  | Undef => Undef
  | NoFuel => NoFuel
  end.

Section ops.
Context {N F : Type}.

(** [*p], [*p = n] through a function of the old contents, and the fields of the
    structure. *)
Definition load (p : loc) : M N F N := fun s =>
  match mem s !! p with Some n => Done (n, s) | None => Undef end.

Definition modify (p : loc) (f : N -> N) : M N F unit := fun s =>
  match mem s !! p with
  | Some n => Done (tt, mkst (<[p := f n]> (mem s)) (ar s) (fld s) (calls s))
  | None => Undef
  end.

(** An access to an array inside a node. *)
Definition lift {A} (o : outcome A) : M N F A := fun s =>
  match o with Done a => Done (a, s) | Undef => Undef | NoFuel => NoFuel end.

Definition get_fld : M N F F := fun s => Done (fld s, s).
Definition set_fld (f : F -> F) : M N F unit := fun s =>
  Done (tt, mkst (mem s) (ar s) (f (fld s)) (calls s)).

Definition called (c : list free_call) : M N F unit := fun s =>
  Done (tt, mkst (mem s) (ar s) (fld s) (calls s ++ c)).

(** Number of nodes, the bound of every loop that follows pointers. *)
Definition count : M N F nat := fun s => Done (size (mem s), s).

(** A new node holds arbitrary bytes [raw]. *)
Definition alloc (raw : N) : M N F loc := fun s =>
  r ← new_node (ar s);
  let (x, a) := (r : option loc * arena) in
  match x with
  | Some p => mret (p, mkst (<[p := raw]> (mem s)) a (fld s) (calls s))
  | None => mret (LNull, mkst (mem s) a (fld s) (calls s))
  end.

Definition dealloc (p : loc) : M N F unit := fun s =>
  match mem s !! p with
  | Some _ =>
      a ← free_node (ar s) p;
      mret (tt, mkst (delete p (mem s)) a (fld s) (calls s))
  | None => Undef
  end.

(** [if (pool) { muggle_memory_pool_destroy(pool); free(pool); }] *)
Definition destroy_pool : M N F unit := fun s =>
  Done (tt, mkst (mem s)
    (mka (MemoryPool.muggle_memory_pool_destroy <$> pool (ar s)) (heap (ar s)))
    (fld s) (calls s)).

(** [while]: [inl] goes round again, [inr] leaves. *)
Fixpoint loopM {S R : Type} (fuel : nat) (body : S -> M N F (S + R)) (x : S) : M N F R :=
  fun s =>
    match fuel with
    | O => NoFuel
    | Datatypes.S fuel' =>
        match body x s with
        | Done (inl x', s') => loopM fuel' body x' s'
        | Done (inr r, s') => Done (r, s')
        | Undef => Undef
        | NoFuel => NoFuel
        end
    end.

(** [for (i = lo; i < hi; i++)]. *)
Fixpoint forM_iter (n : nat) (i : Z) (body : Z -> M N F unit) : M N F unit :=
  match n with
  | O => mret tt
  | Datatypes.S n' => body i;; forM_iter n' (i + 1) body
  end.

Definition forM (lo hi : Z) (body : Z -> M N F unit) : M N F unit :=
  forM_iter (Z.to_nat (hi - lo)) lo body.

(** ** Weakest preconditions *)
Definition wpm {A} (m : M N F A) (s : st N F) (Q : A -> st N F -> Prop) : Prop :=
  wp (m s) (fun r => Q r.1 r.2).

Lemma wpm_ret {A} (a : A) s Q : Q a s -> wpm (mret a) s Q.
Proof. done. Qed.

Lemma wpm_bind {A B} (m : M N F A) (f : A -> M N F B) s Q :
  wpm m s (fun a s' => wpm (f a) s' Q) -> wpm (m ≫= f) s Q.
Proof. unfold wpm, mbind, M_bind. by destruct (m s) as [[a s']| |]. Qed.

Lemma wpm_assoc {A B C} (m : M N F A) (f : A -> M N F B) (g : B -> M N F C) s Q :
  wpm ((m ≫= f) ≫= g) s Q -> wpm (m ≫= (fun a => f a ≫= g)) s Q.
Proof. unfold wpm, mbind, M_bind. by destruct (m s) as [[a s']| |]. Qed.

Lemma wpm_mono {A} (m : M N F A) s (P Q : A -> st N F -> Prop) :
  wpm m s P -> (forall a s', P a s' -> Q a s') -> wpm m s Q.
Proof. unfold wpm. destruct (m s) as [[a s']| |]; simpl; auto. Qed.

Lemma wpm_Done {A} (m : M N F A) s Q :
  wpm m s Q <-> exists a s', m s = Done (a, s') /\ Q a s'.
Proof.
  unfold wpm. rewrite wp_Done. split.
  - intros ([a s'] & ? & ?). by exists a, s'.
  - intros (a & s' & ? & ?). by exists (a, s').
Qed.

Lemma wpm_load p n s Q : mem s !! p = Some n -> Q n s -> wpm (load p) s Q.
Proof. intros E. unfold wpm, load. by rewrite E. Qed.

Lemma wpm_modify p f n s Q :
  mem s !! p = Some n -> Q tt (mkst (<[p := f n]> (mem s)) (ar s) (fld s) (calls s)) ->
  wpm (modify p f) s Q.
Proof. intros E. unfold wpm, modify. by rewrite E. Qed.

Lemma wpm_lift {A} (o : outcome A) s Q : wp o (fun a => Q a s) -> wpm (lift o) s Q.
Proof. unfold wpm, lift. by destruct o. Qed.

Lemma wpm_get_fld s Q : Q (fld s) s -> wpm get_fld s Q.
Proof. done. Qed.

Lemma wpm_set_fld f s Q :
  Q tt (mkst (mem s) (ar s) (f (fld s)) (calls s)) -> wpm (set_fld f) s Q.
Proof. done. Qed.

Lemma wpm_called c s Q :
  Q tt (mkst (mem s) (ar s) (fld s) (calls s ++ c)) -> wpm (called c) s Q.
Proof. done. Qed.

Lemma wpm_count s Q : Q (size (mem s)) s -> wpm count s Q.
Proof. done. Qed.

Lemma wpm_alloc_n raw n out s Q :
  arena_owns (ar s) out -> arena_rooms (ar s) (S n) ->
  (forall p a, p ∉ out -> p <> LNull -> (forall i, p <> LPart i) -> arena_owns a ({[p]} ∪ out) ->
     arena_rooms a n -> Q p (mkst (<[p := raw]> (mem s)) a (fld s) (calls s))) ->
  (forall a, arena_owns a out -> Q LNull (mkst (mem s) a (fld s) (calls s))) ->
  wpm (alloc raw) s Q.
Proof.
  intros Ho Hr Hs Hn. unfold wpm, alloc. apply wp_bind.
  eapply wp_mono; [by apply (new_node_wp _ out n)|].
  intros [[p|] a] [Hr' Hp]; apply wp_ret; simpl; [|by apply Hn].
  destruct Hp as (? & ? & ? & ?). by apply Hs.
Qed.

(** As [wpm_alloc_n]; the null pointer comes only from a refused request. *)
Lemma wpm_alloc_short raw n out s Q :
  arena_owns (ar s) out -> arena_rooms (ar s) (S n) ->
  (forall p a, p ∉ out -> p <> LNull -> (forall i, p <> LPart i) -> arena_owns a ({[p]} ∪ out) ->
     arena_rooms a n -> new_node (ar s) = Done (Some p, a) -> Q p (mkst (<[p := raw]> (mem s)) a (fld s) (calls s))) ->
  (forall a, arena_owns a out -> no_node (ar s) -> Q LNull (mkst (mem s) a (fld s) (calls s))) ->
  wpm (alloc raw) s Q.
Proof.
  intros Ho Hr Hs Hn. pose proof (new_node_wp _ out n Ho Hr) as Hw. unfold wpm, alloc.
  destruct (new_node (ar s)) as [[[p|] a]| |] eqn:E; try done; simpl in *.
  - destruct Hw as (Hr' & ? & ? & ? & ?). by apply Hs.
  - apply Hn; [by destruct Hw|]. apply no_node_eq. by eexists.
Qed.

Lemma wpm_alloc raw out s Q :
  arena_owns (ar s) out -> arena_room (ar s) ->
  (forall p a, p ∉ out -> p <> LNull -> (forall i, p <> LPart i) -> arena_owns a ({[p]} ∪ out) ->
     Q p (mkst (<[p := raw]> (mem s)) a (fld s) (calls s))) ->
  (forall a, arena_owns a out -> Q LNull (mkst (mem s) a (fld s) (calls s))) ->
  wpm (alloc raw) s Q.
Proof. intros Ho Hr Hs Hn. apply (wpm_alloc_n raw 0 out); auto. Qed.

Lemma wpm_dealloc p n out s Q :
  mem s !! p = Some n -> arena_owns (ar s) out -> p ∈ out ->
  (forall a, arena_owns a (out ∖ {[p]}) -> Q tt (mkst (delete p (mem s)) a (fld s) (calls s))) ->
  wpm (dealloc p) s Q.
Proof.
  intros E Ho Hp HQ. unfold wpm, dealloc. rewrite E. apply wp_bind.
  eapply wp_mono; [by apply free_node_wp|]. intros a Ha. apply wp_ret. by apply HQ.
Qed.

Lemma wpm_loop {S R} (body : S -> M N F (S + R)) (Inv : S -> st N F -> Prop)
    (measure : S -> st N F -> nat) (Q : R -> st N F -> Prop) :
  (forall x s, Inv x s ->
     wpm (body x) s (fun r s' => match r with
       | inl x' => Inv x' s' /\ (measure x' s' < measure x s)%nat
       | inr v => Q v s'
       end)) ->
  forall fuel x s, Inv x s -> (measure x s < fuel)%nat -> wpm (loopM fuel body x) s Q.
Proof.
  intros Hbody fuel. induction fuel as [|fuel IH]; intros x s Hx Hm; [lia|].
  specialize (Hbody x s Hx). unfold wpm in *. simpl.
  destruct (body x s) as [[[x'|r] s']| |]; simpl in *; try done.
  destruct Hbody as [Hx' Hlt]. apply IH; [done|lia].
Qed.

Lemma wpm_loop_step {S R} (body : S -> M N F (S + R)) fuel x s (Q : R -> st N F -> Prop) :
  wpm (body x) s (fun r s' => match r with
    | inl x' => wpm (loopM fuel body x') s' Q
    | inr v => Q v s'
    end) ->
  wpm (loopM (Datatypes.S fuel) body x) s Q.
Proof. unfold wpm. simpl. by destruct (body x s) as [[[x'|r] s']| |]. Qed.

Lemma wpm_for (Inv : Z -> st N F -> Prop) lo hi (body : Z -> M N F unit) s Q :
  Inv lo s ->
  (forall i s, lo <= i < hi -> Inv i s -> wpm (body i) s (fun _ => Inv (i + 1))) ->
  (forall s, Inv (Z.max lo hi) s -> Q tt s) ->
  wpm (forM lo hi body) s Q.
Proof.
  intros Hlo Hstep HQ. unfold forM.
  assert (forall n i s, lo <= i -> i + Z.of_nat n = Z.max lo hi -> Inv i s ->
    wpm (forM_iter n i body) s Q) as Hgen.
  { induction n as [|n IH]; intros i s' Hi Hn HI; simpl.
    - apply wpm_ret, HQ. by replace (Z.max lo hi) with i by lia.
    - apply wpm_bind. eapply wpm_mono; [apply Hstep; [lia|done]|].
      intros ? s'' Hs''. apply IH; [lia|lia|done]. }
  apply Hgen; [lia|lia|done].
Qed.
End ops.
End arena.

#[global] Arguments arena : clear implicits.
#[global] Arguments st : clear implicits.
#[global] Arguments M : clear implicits.
#[global] Arguments mka {H}.

(** Step through a monadic program: each primitive leaves the lookup it needs. *)
Ltac mstep :=
  first [ apply wpm_bind; mstep
        | apply wpm_ret
        | eapply wpm_load; [|]
        | eapply wpm_modify; [|]
        | apply wpm_get_fld | apply wpm_set_fld | apply wpm_called | apply wpm_count ].

(** The set of the nodes of a sequence, with one taken out or put in. *)
Lemma list_to_set_remove (l1 l2 : list loc) p :
  NoDup (l1 ++ p :: l2) ->
  list_to_set (l1 ++ p :: l2) ∖ {[p]} = (list_to_set (l1 ++ l2) : gset loc).
Proof.
  rewrite <- Permutation_middle. intros [Hp _]%list.NoDup_cons.
  apply set_eq. intros x. rewrite !list_to_set_app_L, list_to_set_cons. set_solver.
Qed.

Lemma list_to_set_add (l1 l2 : list loc) p :
  {[p]} ∪ list_to_set (l1 ++ l2) = (list_to_set (l1 ++ p :: l2) : gset loc).
Proof.
  apply set_eq. intros x. rewrite !list_to_set_app_L, list_to_set_cons. set_solver.
Qed.
