(* ===== verification/DList.v ===== *)
(** Doubly linked chains of nodes, shared by linked_list.c, queue.c and the
    buckets of hash_table.c: the pointer updates that take a node out of a chain
    or put one into it, and the chain they leave. *)

From stdpp Require Import base gmap sets list numbers.
From Stdlib Require Import ZArith Lia.
From S2P Require Import Prelude Dsaa MemoryPool NodeMem.
Import MemoryPool(block).

Open Scope Z_scope.

(** A node type with [prev] and [next] fields beside its payload. *)
Class DNode (N P : Type) := {
  prev : N -> loc;
  next : N -> loc;
  payload : N -> P;
  set_prev : loc -> N -> N;
  set_next : loc -> N -> N;
  prev_set_prev : forall p n, prev (set_prev p n) = p;
  next_set_prev : forall p n, next (set_prev p n) = next n;
  payload_set_prev : forall p n, payload (set_prev p n) = payload n;
  next_set_next : forall p n, next (set_next p n) = p;
  prev_set_next : forall p n, prev (set_next p n) = prev n;
  payload_set_next : forall p n, payload (set_next p n) = payload n
}.

Create HintDb dnode.
#[export] Hint Rewrite @prev_set_prev @next_set_prev @payload_set_prev @next_set_next
  @prev_set_next @payload_set_next : dnode.

(** ** Chains

    [dchain nx pv a L z]: following [nx] from [a] visits the nodes [L] and
    arrives at [z]; each node of [L] has its predecessor in [pv]. *)
Fixpoint dchain (nx pv : loc -> option loc) (a : loc) (L : list loc) (z : loc) : Prop :=
  match L with
  | [] => nx a = Some z
  | b :: L' => nx a = Some b /\ pv b = Some a /\ dchain nx pv b L' z
  end.

Fixpoint end_of (a : loc) (L : list loc) : loc :=
  match L with [] => a | b :: L' => end_of b L' end.

Definition upd (f : loc -> option loc) (x y : loc) : loc -> option loc :=
  fun k => if decide (k = x) then Some y else f k.

Lemma end_of_elem a L : end_of a L ∈ a :: L.
Proof. revert a. induction L as [|b L IH]; intros a; simpl; [left|right; apply IH]. Qed.

Lemma end_of_app a L1 b L2 : end_of a (L1 ++ b :: L2) = end_of b L2.
Proof. revert a. induction L1 as [|c L1 IH]; intros a; simpl; auto. Qed.

Lemma end_of_nonempty a a' L : L <> [] -> end_of a L = end_of a' L.
Proof. by destruct L. Qed.

Lemma dchain_frame nx pv nx' pv' a L z :
  (forall x, x ∈ a :: L -> nx' x = nx x) -> (forall x, x ∈ L -> pv' x = pv x) ->
  dchain nx pv a L z -> dchain nx' pv' a L z.
Proof.
  revert a. induction L as [|b L IH]; intros a Hn Hp; simpl.
  - intros <-. apply Hn. left.
  - intros (<- & <- & Hc). split; [apply Hn; left|]. split; [apply Hp; left|].
    apply IH; [|intros x ?; apply Hp; by right|done]. intros x ?. apply Hn. by right.
Qed.

Lemma dchain_app nx pv a L1 b L2 z :
  dchain nx pv a (L1 ++ b :: L2) z <->
  dchain nx pv a L1 b /\ pv b = Some (end_of a L1) /\ dchain nx pv b L2 z.
Proof.
  revert a. induction L1 as [|c L1 IH]; intros a; simpl; [naive_solver|].
  rewrite IH. naive_solver.
Qed.

(** The last node's [next]. *)
Lemma dchain_end nx pv a L z : dchain nx pv a L z -> nx (end_of a L) = Some z.
Proof. revert a. induction L as [|b L IH]; intros a; simpl; naive_solver. Qed.

(** Redirecting the end of a chain. *)
Lemma dchain_set_end nx pv a L w z :
  dchain nx pv a L w -> NoDup (a :: L) -> dchain (upd nx (end_of a L) z) pv a L z.
Proof.
  revert a. induction L as [|b L IH]; intros a; simpl.
  - intros _ _. unfold upd. by rewrite decide_True.
  - intros (Ha & Hb & Hc) [Hna Hnd]%list.NoDup_cons. split; [|split; [done|by apply IH]].
    unfold upd. rewrite decide_False; [done|]. intros ->. apply Hna, end_of_elem.
Qed.

(** Joining two chains. *)
Lemma dchain_join nx pv a L1 w q L2 z :
  dchain nx pv a L1 w -> dchain nx pv q L2 z -> NoDup (a :: L1 ++ q :: L2) ->
  dchain (upd nx (end_of a L1) q) (upd pv q (end_of a L1)) a (L1 ++ q :: L2) z.
Proof.
  intros H1 H2 Hnd. change (a :: L1 ++ q :: L2) with ((a :: L1) ++ q :: L2) in Hnd.
  apply list.NoDup_app in Hnd as (Hnd1 & Hdis & [Hq Hnd2]%list.NoDup_cons).
  apply dchain_app. split; [|split].
  - eapply dchain_frame; [..|by eapply dchain_set_end]; [done|].
    intros x Hx. unfold upd. rewrite decide_False; [done|]. intros ->.
    apply (Hdis q); [by right|left].
  - unfold upd. by rewrite decide_True.
  - eapply dchain_frame; [..|done].
    + intros x Hx. unfold upd. rewrite decide_False; [done|]. intros ->.
      apply (Hdis (end_of a L1)); [apply end_of_elem|done].
    + intros x Hx. unfold upd. rewrite decide_False; [done|]. by intros ->.
Qed.

(** Putting a node between two chains. *)
Lemma dchain_insert nx pv a L1 w new q L2 z :
  dchain nx pv a L1 w -> dchain nx pv q L2 z -> NoDup (a :: L1 ++ new :: q :: L2) ->
  dchain (upd (upd nx new q) (end_of a L1) new) (upd (upd pv q new) new (end_of a L1))
    a (L1 ++ new :: q :: L2) z.
Proof.
  intros Hl Hr Hnd. pose proof Hnd as Hnd'.
  change (a :: L1 ++ new :: q :: L2) with ((a :: L1) ++ new :: q :: L2) in Hnd'.
  apply list.NoDup_app in Hnd' as (_ & Hdis & [Hnew [Hq _]%list.NoDup_cons]%list.NoDup_cons).
  apply (dchain_join _ _ a L1 w); [| |done].
  - eapply dchain_frame; [..|exact Hl]; intros x Hx; unfold upd; rewrite decide_False; try done;
      intros ->; [apply (Hdis new)|apply (Hdis q)]; try done; try (by right); [left|right; left].
  - simpl. unfold upd. rewrite !decide_True by done. split; [done|]. split; [done|].
    eapply dchain_frame; [..|exact Hr]; intros x Hx; unfold upd; rewrite decide_False; try done;
      by intros ->.
Qed.

(** ** Chains in a store *)
Section store.
Context {H : Type} `{!NodeMalloc H}.
Context `{Malloc (list Z)} `{Malloc block} `{Malloc Z}.
Context {N P F : Type} `{!DNode N P}.
Implicit Types (m : gmap loc N) (s : st H N F).

Definition nextof m (p : loc) : option loc := next <$> m !! p.
Definition prevof m (p : loc) : option loc := prev <$> m !! p.
Definition payloadof m (p : loc) : option P := payload <$> m !! p.

Definition chain m (a : loc) (L : list loc) (z : loc) : Prop :=
  dchain (nextof m) (prevof m) a L z.

(** [node->prev->next = node->next; node->next->prev = node->prev;] *)
Definition unlink (node : loc) : M H N F unit :=
  n ← load node;
  modify (prev n) (set_next (next n));;
  n ← load node;
  modify (next n) (set_prev (prev n)).

(** [node->prev->next = new_node; new_node->prev = node->prev;
     new_node->next = node; node->prev = new_node;] *)
Definition link_before (node new_node : loc) : M H N F unit :=
  n ← load node;
  modify (prev n) (set_next new_node);;
  n ← load node;
  modify new_node (set_prev (prev n));;
  modify new_node (set_next node);;
  modify node (set_prev new_node).

(** [node->next->prev = new_node; new_node->next = node->next;
     new_node->prev = node; node->next = new_node;] *)
Definition link_after (node new_node : loc) : M H N F unit :=
  n ← load node;
  modify (next n) (set_prev new_node);;
  n ← load node;
  modify new_node (set_next (next n));;
  modify new_node (set_prev node);;
  modify node (set_next new_node).

(** The same for chains that end in NULL, as the buckets of the hash table:
    [prev->next = next; if (next) next->prev = prev;] *)
Definition unlink_open (prev next : loc) : M H N F unit :=
  modify prev (set_next next);;
  if is_null next then mret tt else modify next (set_prev prev).

(** [new_node->next = head->next; new_node->prev = head; head->next = new_node;
     if (new_node->next) new_node->next->prev = new_node;] *)
Definition link_front (head new_node : loc) : M H N F unit :=
  h ← load head;
  modify new_node (set_next (next h));;
  modify new_node (set_prev head);;
  modify head (set_next new_node);;
  n ← load new_node;
  if is_null (next n) then mret tt else modify (next n) (set_prev new_node).

(** The stores before and after have the same nodes and payloads, and the same
    cells outside [X]. *)
Definition frames m m' (X : list loc) : Prop :=
  (forall p, payloadof m' p = payloadof m p) /\ (forall p, p ∉ X -> m' !! p = m !! p).

Lemma nextof_insert_next m p n z :
  m !! p = Some n -> forall x, nextof (<[p := set_next z n]> m) x = upd (nextof m) p z x.
Proof.
  intros E x. unfold nextof, upd. case_decide as Ex; [subst; rewrite lookup_insert_eq; simpl;
    by rewrite next_set_next|]. by rewrite lookup_insert_ne.
Qed.

Lemma prevof_insert_next m p n z :
  m !! p = Some n -> forall x, prevof (<[p := set_next z n]> m) x = prevof m x.
Proof.
  intros E x. unfold prevof. destruct (decide (x = p)) as [->|].
  - rewrite lookup_insert_eq, E. simpl. by rewrite prev_set_next.
  - by rewrite lookup_insert_ne.
Qed.

Lemma prevof_insert_prev m p n z :
  m !! p = Some n -> forall x, prevof (<[p := set_prev z n]> m) x = upd (prevof m) p z x.
Proof.
  intros E x. unfold prevof, upd. case_decide as Ex; [subst; rewrite lookup_insert_eq; simpl;
    by rewrite prev_set_prev|]. by rewrite lookup_insert_ne.
Qed.

Lemma nextof_insert_prev m p n z :
  m !! p = Some n -> forall x, nextof (<[p := set_prev z n]> m) x = nextof m x.
Proof.
  intros E x. unfold nextof. destruct (decide (x = p)) as [->|].
  - rewrite lookup_insert_eq, E. simpl. by rewrite next_set_prev.
  - by rewrite lookup_insert_ne.
Qed.

Lemma payloadof_insert m p n n' :
  m !! p = Some n -> payload n' = payload n ->
  forall x, payloadof (<[p := n']> m) x = payloadof m x.
Proof.
  intros E En x. unfold payloadof. destruct (decide (x = p)) as [->|].
  - rewrite lookup_insert_eq, E. simpl. by rewrite En.
  - by rewrite lookup_insert_ne.
Qed.

Lemma frames_refl m X : frames m m X.
Proof. done. Qed.

Lemma frames_insert m m' X p n n' :
  frames m m' X -> m' !! p = Some n -> payload n' = payload n -> p ∈ X ->
  frames m (<[p := n']> m') X.
Proof.
  intros [Hp Hf] E En Hin. split.
  - intros x. rewrite (payloadof_insert m' p n n') by done. apply Hp.
  - intros x Hx. rewrite lookup_insert_ne; [by apply Hf|]. by intros ->.
Qed.

Lemma nextof_Some m p q : nextof m p = Some q -> exists n, m !! p = Some n /\ next n = q.
Proof. unfold nextof. intros (n & ? & ?)%fmap_Some. naive_solver. Qed.

Lemma prevof_Some m p q : prevof m p = Some q -> exists n, m !! p = Some n /\ prev n = q.
Proof. unfold prevof. intros (n & ? & ?)%fmap_Some. naive_solver. Qed.

Lemma frames_dom m m' X : frames m m' X -> dom m' = dom m.
Proof.
  intros [Hp _]. apply set_eq. intros p. rewrite !elem_of_dom.
  specialize (Hp p). unfold payloadof in Hp.
  destruct (m !! p), (m' !! p); simpl in Hp; naive_solver.
Qed.

Lemma frames_lookup m m' X p n :
  frames m m' X -> m !! p = Some n -> exists n', m' !! p = Some n' /\ payload n' = payload n.
Proof.
  intros [Hp _] E. specialize (Hp p). unfold payloadof in Hp. rewrite E in Hp.
  destruct (m' !! p) as [n'|]; simpl in Hp; [|done]. naive_solver.
Qed.

(** Taking out a node that has a successor; the node itself is left as it was. *)
Lemma unlink_wp s a L1 p q L2 z Q :
  chain (mem s) a (L1 ++ p :: q :: L2) z -> NoDup (a :: L1 ++ p :: q :: L2) ->
  (forall m', chain m' a (L1 ++ q :: L2) z -> frames (mem s) m' [end_of a L1; q] ->
     Q tt (mkst m' (ar s) (fld s) (calls s))) ->
  wpm (unlink p) s Q.
Proof.
  intros Hc Hnd HQ. unfold chain in Hc.
  apply dchain_app in Hc as (Hl & Hp & Hpq & Hq & Hr).
  set (pr := end_of a L1) in *. set (m := mem s) in *.
  change (a :: L1 ++ p :: q :: L2) with ((a :: L1) ++ p :: q :: L2) in Hnd.
  pose proof Hnd as (Hnd1 & Hdis & [Hpn [Hqn _]%list.NoDup_cons]%list.NoDup_cons)%list.NoDup_app.
  assert (pr ∈ a :: L1) as Hpr by apply end_of_elem.
  assert (pr <> p) by (intros ->; apply (Hdis p); [done|left]).
  assert (pr <> q) by (intros ->; apply (Hdis q); [done|right; left]).
  assert (p <> q) by (intros ->; apply Hpn; left).
  apply prevof_Some in Hp as (np & Ep & Hp). pose proof Hpq as Hpq'.
  unfold nextof in Hpq'. rewrite Ep in Hpq'. injection Hpq' as Enp.
  pose proof (dchain_end _ _ _ _ _ Hl) as (npr & Epr & _)%nextof_Some.
  destruct (prevof_Some _ _ _ Hq) as (nq & Eq & _).
  unfold unlink. apply wpm_bind, (wpm_load _ np); [done|].
  rewrite Hp, Enp. apply wpm_bind, (wpm_modify _ _ npr); [done|].
  apply wpm_bind, (wpm_load _ np); [simpl; by rewrite lookup_insert_ne|].
  rewrite Hp, Enp. apply (wpm_modify _ _ nq); [simpl; by rewrite lookup_insert_ne|].
  simpl. apply HQ.
  - assert (<[pr:=set_next q npr]> m !! q = Some nq) as Eq' by (by rewrite lookup_insert_ne).
    assert (NoDup (a :: L1 ++ q :: L2)) as Hnd'.
    { change (NoDup ((a :: L1) ++ q :: L2)). rewrite <- Permutation_middle in Hnd.
      by apply list.NoDup_cons in Hnd as [_ ?]. }
    eapply dchain_frame; [..|exact (dchain_join _ _ a L1 p q L2 z Hl Hr Hnd')].
    + intros x _. rewrite (nextof_insert_prev _ q nq), (nextof_insert_next _ pr npr) by done. done.
    + intros x _. rewrite (prevof_insert_prev _ q nq) by done. unfold upd.
      case_decide; [done|]. by rewrite (prevof_insert_next _ pr npr) by done.
  - eapply frames_insert; [|by rewrite lookup_insert_ne|by rewrite payload_set_prev|set_solver].
    eapply frames_insert; [apply frames_refl|done|by rewrite payload_set_next|set_solver].
Qed.

End store.

(** Fields after a sequence of updates of different cells. *)
Ltac field_solve :=
  unfold nextof, prevof, upd; repeat case_decide; subst; try congruence;
  repeat match goal with
  | |- context [<[?k := _]> _ !! ?x] =>
      first [ rewrite (lookup_insert_ne _ k x) by congruence
            | rewrite (lookup_insert_eq _ x)
            | destruct (decide (x = k)) as [?|?]; [subst x; rewrite lookup_insert_eq|] ]
  end;
  repeat match goal with E : ?m !! ?k = Some _ |- context [?m !! ?k] => rewrite E end;
  simpl; autorewrite with dnode; try congruence.

Section links.
Context {H : Type} `{!NodeMalloc H}.
Context `{Malloc (list Z)} `{Malloc block} `{Malloc Z}.
Context {N P F : Type} `{!DNode N P}.
Implicit Types (m : gmap loc N) (s : st H N F).

(** Putting a node in before [q]. *)
Lemma link_before_wp s a L1 q L2 z new n Q :
  chain (mem s) a (L1 ++ q :: L2) z -> NoDup (a :: L1 ++ q :: L2) ->
  mem s !! new = Some n -> new ∉ a :: L1 ++ q :: L2 ->
  (forall m', chain m' a (L1 ++ new :: q :: L2) z ->
     frames (mem s) m' [end_of a L1; new; q] -> Q tt (mkst m' (ar s) (fld s) (calls s))) ->
  wpm (link_before q new) s Q.
Proof.
  intros Hc Hnd En Hnew HQ. unfold chain in Hc.
  apply dchain_app in Hc as (Hl & Hq & Hr).
  change (a :: L1 ++ q :: L2) with ((a :: L1) ++ q :: L2) in Hnd, Hnew.
  pose proof Hnd as (Hnd1 & Hdis & [Hqn _]%list.NoDup_cons)%list.NoDup_app.
  pose proof (end_of_elem a L1) as Hpr.
  assert (end_of a L1 <> q) by (intros E; rewrite E in Hpr; apply (Hdis q); [done|left]).
  assert (new <> end_of a L1) by (intros ->; apply Hnew, elem_of_app; by left).
  assert (new <> q) by (intros ->; apply Hnew, elem_of_app; right; left).
  pose proof Hq as (nq & Eq & Hpq)%prevof_Some.
  pose proof (dchain_end _ _ _ _ _ Hl) as (npr & Epr & _)%nextof_Some.
  assert (NoDup (a :: L1 ++ new :: q :: L2)) as Hnd'.
  { change (NoDup ((a :: L1) ++ new :: q :: L2)). rewrite <- Permutation_middle.
    by apply list.NoDup_cons. }
  unfold link_before.
  apply wpm_bind, (wpm_load _ nq); [done|]. rewrite Hpq.
  apply wpm_bind, (wpm_modify _ _ npr); [done|].
  apply wpm_bind, (wpm_load _ nq); [simpl; by rewrite lookup_insert_ne|]. rewrite Hpq.
  apply wpm_bind, (wpm_modify _ _ n); [simpl; by rewrite lookup_insert_ne|].
  apply wpm_bind. eapply wpm_modify; [simpl; by rewrite lookup_insert_eq|].
  apply (wpm_modify _ _ nq); [simpl; by rewrite !lookup_insert_ne|]. simpl. apply HQ.
  - eapply dchain_frame; [..|exact (dchain_insert _ _ a L1 q new q L2 z Hl Hr Hnd')].
    + intros x _. field_solve.
    + intros x _. field_solve.
  - eapply frames_insert; [|by rewrite !lookup_insert_ne|by rewrite payload_set_prev|set_solver].
    eapply frames_insert; [|by rewrite lookup_insert_eq|by rewrite payload_set_next|set_solver].
    eapply frames_insert; [|by rewrite lookup_insert_ne|by rewrite payload_set_prev|set_solver].
    eapply frames_insert; [apply frames_refl|done|by rewrite payload_set_next|set_solver].
Qed.

(** Putting a node in after the node before [q]. *)
Lemma link_after_wp s a L1 q L2 z new n Q :
  chain (mem s) a (L1 ++ q :: L2) z -> NoDup (a :: L1 ++ q :: L2) ->
  mem s !! new = Some n -> new ∉ a :: L1 ++ q :: L2 ->
  (forall m', chain m' a (L1 ++ new :: q :: L2) z ->
     frames (mem s) m' [end_of a L1; new; q] -> Q tt (mkst m' (ar s) (fld s) (calls s))) ->
  wpm (link_after (end_of a L1) new) s Q.
Proof.
  intros Hc Hnd En Hnew HQ. unfold chain in Hc.
  apply dchain_app in Hc as (Hl & Hq & Hr).
  change (a :: L1 ++ q :: L2) with ((a :: L1) ++ q :: L2) in Hnd, Hnew.
  pose proof Hnd as (Hnd1 & Hdis & [Hqn _]%list.NoDup_cons)%list.NoDup_app.
  pose proof (end_of_elem a L1) as Hpr.
  assert (end_of a L1 <> q) by (intros E; rewrite E in Hpr; apply (Hdis q); [done|left]).
  assert (new <> end_of a L1) by (intros ->; apply Hnew, elem_of_app; by left).
  assert (new <> q) by (intros ->; apply Hnew, elem_of_app; right; left).
  pose proof Hq as (nq & Eq & Hpq)%prevof_Some.
  pose proof (dchain_end _ _ _ _ _ Hl) as (npr & Epr & Hnpr)%nextof_Some.
  assert (NoDup (a :: L1 ++ new :: q :: L2)) as Hnd'.
  { change (NoDup ((a :: L1) ++ new :: q :: L2)). rewrite <- Permutation_middle.
    by apply list.NoDup_cons. }
  unfold link_after.
  apply wpm_bind, (wpm_load _ npr); [done|]. rewrite Hnpr.
  apply wpm_bind, (wpm_modify _ _ nq); [done|].
  apply wpm_bind, (wpm_load _ npr); [simpl; by rewrite lookup_insert_ne|]. rewrite Hnpr.
  apply wpm_bind, (wpm_modify _ _ n); [simpl; by rewrite lookup_insert_ne|].
  apply wpm_bind. eapply wpm_modify; [simpl; by rewrite lookup_insert_eq|].
  apply (wpm_modify _ _ npr); [simpl; by rewrite !lookup_insert_ne|]. simpl. apply HQ.
  - eapply dchain_frame; [..|exact (dchain_insert _ _ a L1 q new q L2 z Hl Hr Hnd')].
    + intros x _. field_solve.
    + intros x _. field_solve.
  - eapply frames_insert; [|by rewrite !lookup_insert_ne|by rewrite payload_set_next|set_solver].
    eapply frames_insert; [|by rewrite lookup_insert_eq|by rewrite payload_set_prev|set_solver].
    eapply frames_insert; [|by rewrite lookup_insert_ne|by rewrite payload_set_next|set_solver].
    eapply frames_insert; [apply frames_refl|done|by rewrite payload_set_prev|set_solver].
Qed.

Lemma unlink_open_wp s a L1 p L2 n Q :
  chain (mem s) a (L1 ++ p :: L2) LNull -> NoDup (a :: L1 ++ p :: L2) -> LNull ∉ L2 ->
  mem s !! p = Some n ->
  (forall m', chain m' a (L1 ++ L2) LNull -> frames (mem s) m' (a :: L1 ++ L2) ->
     Q tt (mkst m' (ar s) (fld s) (calls s))) ->
  wpm (unlink_open (prev n) (next n)) s Q.
Proof.
  intros Hc Hnd Hnull Ep HQ. unfold chain in Hc. apply dchain_app in Hc as (Hl & Hp & Hr).
  unfold prevof in Hp. rewrite Ep in Hp. injection Hp as ->.
  change (a :: L1 ++ p :: L2) with ((a :: L1) ++ p :: L2) in Hnd.
  rewrite <- Permutation_middle in Hnd. apply list.NoDup_cons in Hnd as [Hp Hnd].
  pose proof (end_of_elem a L1) as Hpr.
  pose proof (dchain_end _ _ _ _ _ Hl) as (npr & Epr & _)%nextof_Some.
  pose proof Hnd as (Hnd1 & Hdis & Hnd2)%list.NoDup_app.
  unfold unlink_open. apply wpm_bind, (wpm_modify _ _ npr); [done|].
  destruct L2 as [|q L2]; simpl in Hr; unfold nextof in Hr; rewrite Ep in Hr.
  - injection Hr as ->. simpl. apply wpm_ret, HQ.
    + rewrite app_nil_r. eapply dchain_frame; [..|exact (dchain_set_end _ _ a L1 p LNull Hl Hnd1)].
      * intros x _. simpl. by rewrite (nextof_insert_next _ _ npr).
      * intros x _. simpl. by rewrite (prevof_insert_next _ _ npr).
    + eapply frames_insert; [apply frames_refl|done|by rewrite payload_set_next|].
      rewrite app_nil_r. done.
  - destruct Hr as ([= ->] & Hq & Hr). apply not_elem_of_cons in Hnull as [Hq0 _].
    unfold is_null. rewrite bool_decide_false by done.
    assert (end_of a L1 <> q) by (intros E; rewrite E in Hpr; apply (Hdis q); [done|left]).
    destruct (prevof_Some _ _ _ Hq) as (nq & Eq & _).
    apply (wpm_modify _ _ nq); [simpl; by rewrite lookup_insert_ne|]. apply HQ.
    + eapply dchain_frame; [..|exact (dchain_join _ _ a L1 p q L2 LNull Hl Hr Hnd)];
        intros x _; simpl; field_solve.
    + simpl. eapply frames_insert; [|by rewrite lookup_insert_ne|by rewrite payload_set_prev|].
      { eapply frames_insert; [apply frames_refl|done|by rewrite payload_set_next|].
        change (a :: L1 ++ q :: L2) with ((a :: L1) ++ q :: L2). apply elem_of_app. by left. }
      right. apply elem_of_app. right; left.
Qed.

Lemma link_front_wp s a L new n Q :
  chain (mem s) a L LNull -> NoDup (a :: L) -> LNull ∉ L ->
  mem s !! new = Some n -> new ∉ a :: L ->
  (forall m', chain m' a (new :: L) LNull -> frames (mem s) m' (new :: a :: L) ->
     Q tt (mkst m' (ar s) (fld s) (calls s))) ->
  wpm (link_front a new) s Q.
Proof.
  intros Hc Hnd Hnull En [Hna HnL]%not_elem_of_cons HQ. unfold link_front.
  assert (exists na, mem s !! a = Some na /\ next na = default LNull (head L)) as (na & Ea & Hna').
  { destruct L as [|q L]; [|destruct Hc as [Hc _]]; by apply nextof_Some in Hc. }
  apply wpm_bind, (wpm_load _ na); [done|].
  apply wpm_bind, (wpm_modify _ _ n); [done|].
  apply wpm_bind. eapply wpm_modify; [apply lookup_insert_eq|]. simpl. rewrite insert_insert_eq.
  apply wpm_bind, (wpm_modify _ _ na); [simpl; by rewrite lookup_insert_ne|].
  apply wpm_bind. eapply wpm_load.
  { simpl. rewrite lookup_insert_ne by done. apply lookup_insert_eq. }
  rewrite next_set_prev, next_set_next, Hna'.
  set (m2 := <[a := _]> _). simpl in m2.
  assert (frames (mem s) m2 (new :: a :: L)) as Hf2.
  { unfold m2. simpl. apply (frames_insert _ _ _ a na); [|by rewrite lookup_insert_ne|by rewrite payload_set_next|right; left].
    apply (frames_insert _ _ _ new n); [apply frames_refl|done| |left].
    by rewrite payload_set_prev, payload_set_next. }
  destruct L as [|q L]; simpl.
  - apply wpm_ret, HQ; [|done]. unfold m2. repeat split; simpl; field_solve.
  - apply not_elem_of_cons in Hnull as [Hq0 _]. unfold is_null. rewrite bool_decide_false by done.
    apply not_elem_of_cons in HnL as [Hnq HnL]. destruct Hc as (Hac & Hq & Hr).
    apply list.NoDup_cons in Hnd as [[Haq HaL]%not_elem_of_cons Hnd].
    destruct (prevof_Some _ _ _ Hq) as (nq & Eq & _).
    apply (wpm_modify _ _ nq); [unfold m2; simpl; by rewrite !lookup_insert_ne|]. apply HQ.
    + assert (NoDup (a :: [] ++ new :: q :: L)) as Hnd'.
      { simpl. apply list.NoDup_cons. split; [rewrite !not_elem_of_cons; done|].
        apply list.NoDup_cons. rewrite not_elem_of_cons. done. }
      eapply dchain_frame; [..|exact (dchain_insert _ _ a [] q new q L LNull Hac Hr Hnd')];
        intros x _; unfold m2; simpl; field_solve.
    + eapply frames_insert; [done|unfold m2; simpl; by rewrite !lookup_insert_ne|by rewrite payload_set_prev|].
      right; right; left.
Qed.

(** Cells outside a chain do not matter for it. *)
Lemma chain_agree m m' a L z :
  (forall x, x ∈ a :: L -> m' !! x = m !! x) -> chain m a L z -> chain m' a L z.
Proof.
  intros E. apply dchain_frame; intros x Hx; unfold nextof, prevof; rewrite E; set_solver.
Qed.

Lemma chain_delete m a L z p : p ∉ a :: L -> chain m a L z -> chain (delete p m) a L z.
Proof. intros Hp. apply chain_agree. intros x Hx. rewrite lookup_delete_ne; set_solver. Qed.

Lemma chain_insert_new m a L z p n : p ∉ a :: L -> chain m a L z -> chain (<[p := n]> m) a L z.
Proof. intros Hp. apply chain_agree. intros x Hx. rewrite lookup_insert_ne; set_solver. Qed.

(** Changing a payload. *)
Lemma chain_payload m a L z p n n' :
  m !! p = Some n -> next n' = next n -> prev n' = prev n ->
  chain m a L z -> chain (<[p := n']> m) a L z.
Proof.
  intros E En Ep. apply dchain_frame; intros x Hx; unfold nextof, prevof;
    (destruct (decide (x = p)) as [->|]; [rewrite lookup_insert_eq, E; simpl; congruence|
      by rewrite lookup_insert_ne]).
Qed.

Lemma chain_lookup m a L z p : chain m a L z -> p ∈ a :: L -> exists n, m !! p = Some n.
Proof.
  unfold chain. revert a. induction L as [|b L IH]; intros a Hc Hp.
  - apply list_elem_of_singleton in Hp as ->. apply nextof_Some in Hc as (n & ? & _). by exists n.
  - destruct Hc as (Ha & Hb & Hc). apply elem_of_cons in Hp as [->|Hp]; [|by eapply IH].
    apply nextof_Some in Ha as (n & ? & _). by exists n.
Qed.
End links.
