(* ===== verification/LinkedList.v ===== *)
(** muggle/c/dsaa/linked_list.{h,c}: a doubly linked list between the [head]
    and [tail] nodes of the structure, its nodes from a pool or malloc.  The
    abstract list is the sequence of nodes with their data. *)

From stdpp Require Import base gmap sets list numbers.
From Stdlib Require Import ZArith Lia.
From S2P Require Import Prelude Dsaa MemoryPool NodeMem DList.
Import MemoryPool(block, muggle_memory_pool).

Open Scope Z_scope.

Module LinkedList.

Record muggle_linked_list_node := mkn { node_prev : loc; node_next : loc; data : ptr }.

#[export] Instance linked_list_dnode : DNode muggle_linked_list_node ptr.
Proof.
  refine {|
    prev := node_prev; next := node_next; payload := data;
    set_prev p n := mkn p (node_next n) (data n);
    set_next p n := mkn (node_prev n) p (data n)
  |}; abstract done.
Defined.

(** [&p_linked_list->head] and [&p_linked_list->tail]. *)
Definition HEAD : loc := LPart 0.
Definition TAIL : loc := LPart 1.

(** [sizeof(muggle_linked_list_node_t)]. *)
Definition sizeof_node : Z := 24.

Section ops.
Context {H : Type} `{!NodeMalloc H}.
Context `{Malloc (list Z)} `{Malloc block} `{Malloc Z} `{Malloc muggle_memory_pool}.
(** What a new block holds. *)
Context (raw : muggle_linked_list_node).

(** The nodes [head] and [tail] are cells of the store; the other field is the
    size. *)
Definition muggle_linked_list : Type := st H muggle_linked_list_node Z.
Definition LM (A : Type) : Type := M H muggle_linked_list_node Z A.

Definition muggle_linked_list_allocate_node : LM loc :=
  node ← alloc raw;
  if is_null node then mret node
  else set_fld (fun size => u64 (size + 1));; mret node.

Definition muggle_linked_list_free_node (node : loc) : LM unit :=
  unlink node;;
  dealloc node;;
  set_fld (fun size => u64 (size - 1)).

(** [func_free] says whether the client passed a callback. *)
Definition muggle_linked_list_free_data (node : loc) (func_free : bool) : LM unit :=
  n ← load node;
  if data n =? NULL then mret tt
  else
    (if func_free then called [FreeData (data n)] else mret tt);;
    modify node (fun n => mkn (node_prev n) (node_next n) NULL).

Definition muggle_linked_list_init (capacity : Z) (h : H) : outcome (option muggle_linked_list) :=
  r ← init_pool capacity sizeof_node;
  match (r : option (option muggle_memory_pool)) with
  | None => mret None
  | Some p =>
      let zero := mkn LNull LNull NULL in
      mret (Some (mkst (<[HEAD := mkn LNull TAIL NULL]> (<[TAIL := mkn HEAD LNull NULL]> ∅))
                       (mka p h) 0 []))
  end.

Definition muggle_linked_list_is_empty : LM bool :=
  n ← load HEAD;
  mret (bool_decide (node_next n = TAIL)).

Definition muggle_linked_list_clear (func_free : bool) : LM unit :=
  n ← load HEAD;
  c ← count;
  loopM (S c) (fun node =>
    if bool_decide (node = TAIL) then mret (inr tt)
    else
      n ← load node;
      let next_node := node_next n in
      muggle_linked_list_free_data node func_free;;
      muggle_linked_list_free_node node;;
      mret (inl next_node)) (node_next n);;
  set_fld (fun _ => 0).

Definition muggle_linked_list_destroy (func_free : bool) : LM unit :=
  muggle_linked_list_clear func_free;;
  destroy_pool.

Definition muggle_linked_list_size : LM Z := get_fld.

(** The body of the loop of find. *)
Definition find_step (d : ptr) (cmp : ptr -> ptr -> Z) (node : loc) : LM (loc + loc) :=
  if bool_decide (node = TAIL) then mret (inr LNull)
  else
    n ← load node;
    if cmp (data n) d =? 0 then mret (inr node)
    else mret (inl (node_next n)).

Definition muggle_linked_list_find (node : loc) (d : ptr) (cmp : ptr -> ptr -> Z) : LM loc :=
  node ← (if is_null node then n ← load HEAD; mret (node_next n) else mret node);
  c ← count;
  loopM (S c) (find_step d cmp) node.

Definition muggle_linked_list_next (node : loc) : LM loc :=
  n ← load node;
  mret (if bool_decide (node_next n = TAIL) then LNull else node_next n).

Definition muggle_linked_list_prev (node : loc) : LM loc :=
  n ← load node;
  mret (if bool_decide (node_prev n = HEAD) then LNull else node_prev n).

Definition muggle_linked_list_first : LM loc :=
  n ← load HEAD;
  mret (if bool_decide (node_next n = TAIL) then LNull else node_next n).

Definition muggle_linked_list_last : LM loc :=
  n ← load TAIL;
  mret (if bool_decide (node_prev n = HEAD) then LNull else node_prev n).

Definition muggle_linked_list_insert (node : loc) (d : ptr) : LM loc :=
  new_node ← muggle_linked_list_allocate_node;
  if is_null new_node then mret LNull
  else
    modify new_node (fun n => mkn (node_prev n) (node_next n) d);;
    node ← (if is_null node then n ← load HEAD; mret (node_next n) else mret node);
    link_before node new_node;;
    mret new_node.

Definition muggle_linked_list_append (node : loc) (d : ptr) : LM loc :=
  new_node ← muggle_linked_list_allocate_node;
  if is_null new_node then mret LNull
  else
    modify new_node (fun n => mkn (node_prev n) (node_next n) d);;
    node ← (if is_null node then n ← load TAIL; mret (node_prev n) else mret node);
    link_after node new_node;;
    mret new_node.

Definition muggle_linked_list_remove (node : loc) (func_free : bool) : LM loc :=
  next_node ← muggle_linked_list_next node;
  muggle_linked_list_free_data node func_free;;
  muggle_linked_list_free_node node;;
  mret next_node.

(** ** Specification *)

(** The structure holds the nodes and data [l]. *)
Record rep (s : muggle_linked_list) (l : list (loc * ptr)) : Prop := {
  rep_chain : chain (mem s) HEAD (l.*1 ++ [TAIL]) LNull;
  rep_nodup : NoDup (HEAD :: l.*1 ++ [TAIL]);
  rep_null : LNull ∉ l.*1;
  rep_data : forall p d, (p, d) ∈ l -> payloadof (mem s) p = Some d;
  rep_dom : dom (mem s) = list_to_set (HEAD :: l.*1 ++ [TAIL]);
  rep_owns : arena_owns (ar s) (list_to_set l.*1);
  rep_size : fld s = zlen l
}.

(** The calls made for a node's data. *)
Definition free_calls (func_free : bool) (d : ptr) : list free_call :=
  if (d =? NULL) then [] else if func_free then [FreeData d] else [].
End ops.

#[global] Arguments rep {H _} s l.
#[global] Arguments muggle_linked_list H : clear implicits.

Section proofs.
Context {H : Type} `{!NodeMalloc H}.
Context `{Malloc (list Z)} `{Malloc block} `{Malloc Z} `{Malloc muggle_memory_pool}.
Context (raw : muggle_linked_list_node).
Implicit Types (s : muggle_linked_list H) (l : list (loc * ptr)).

Lemma rep_count s l : rep s l -> size (mem s) = S (S (length l)).
Proof.
  intros R. rewrite <- size_dom, (rep_dom _ _ R), size_list_to_set by apply (rep_nodup _ _ R).
  simpl. rewrite length_app, length_fmap. simpl. lia.
Qed.

(** The nodes of a split list. *)
Lemma list_rep_split s l1 p d l2 :
  rep s (l1 ++ (p, d) :: l2) ->
  chain (mem s) HEAD (l1.*1 ++ p :: l2.*1 ++ [TAIL]) LNull /\
  NoDup (HEAD :: l1.*1 ++ p :: l2.*1 ++ [TAIL]) /\
  exists n, mem s !! p = Some n /\ data n = d.
Proof.
  intros []. rewrite fmap_app, fmap_cons, <- (assoc_L (++)) in *. simpl in *.
  split; [done|]. split; [done|].
  specialize (rep_data0 p d ltac:(apply elem_of_app; right; left)).
  unfold payloadof in rep_data0. destruct (mem s !! p) as [n|]; [|done].
  exists n. split; [done|]. by injection rep_data0.
Qed.

(** [free_data] changes nothing but the data of its node. *)
Lemma free_data_wp s p n (func_free : bool) Q :
  mem s !! p = Some n ->
  (forall m', (forall a L z, chain (mem s) a L z -> chain m' a L z) -> dom m' = dom (mem s) ->
     (forall x, x <> p -> m' !! x = mem s !! x) ->
     Q tt (mkst m' (ar s) (fld s) (calls s ++ free_calls func_free (data n)))) ->
  wpm (muggle_linked_list_free_data p func_free) s Q.
Proof.
  intros Ep HQ. unfold muggle_linked_list_free_data, free_calls in *.
  apply wpm_bind, (wpm_load _ n); [done|]. destruct (Z.eqb_spec (data n) NULL) as [E|E].
  - apply wpm_ret. rewrite app_nil_r in HQ. destruct s. by apply HQ.
  - set (n' := mkn (node_prev n) (node_next n) NULL).
    assert (Q tt (mkst (<[p := n']> (mem s)) (ar s) (fld s)
      (calls s ++ (if func_free then [FreeData (data n)] else [])))) as HQ'.
    { apply HQ; [intros; by apply (chain_payload _ _ _ _ p n)| |].
      - apply dom_insert_lookup_L. by exists n.
      - intros x Hx. by rewrite lookup_insert_ne. }
    apply wpm_bind. destruct func_free; [apply wpm_called|apply wpm_ret];
      (eapply wpm_modify; [done|]); [done|]. by rewrite app_nil_r in HQ'.
Qed.

(** [free_data] and [free_node] on a node of the list: the node leaves it. *)
Lemma free_one_wp s l1 p d l2 (func_free : bool) Q :
  rep s (l1 ++ (p, d) :: l2) -> zlen (l1 ++ (p, d) :: l2) < 2 ^ 64 ->
  (forall s', rep s' (l1 ++ l2) -> calls s' = calls s ++ free_calls func_free d -> Q tt s') ->
  wpm (muggle_linked_list_free_data p func_free;; muggle_linked_list_free_node p) s Q.
Proof.
  intros R Hlen HQ. pose proof (list_rep_split _ _ _ _ _ R) as (Hc & Hnd & np & Ep & Ed).
  apply wpm_bind, (free_data_wp _ _ np); [done|]. rewrite Ed. intros m1 Hc1 Hdom1 Hoth1.
  specialize (Hc1 _ _ _ Hc).
  unfold muggle_linked_list_free_node. apply wpm_bind.
  pose proof R as [_ _ Hnull Hdata Hdom Howns Hsize]. rewrite fmap_app, fmap_cons in *. simpl in *.
  destruct (l2.*1 ++ [TAIL]) as [|q L2] eqn:Eq; [by destruct (l2.*1)|].
  eapply unlink_wp; [done|done|]. simpl. intros m2 Hc2 Hf2.
  assert (p ∉ HEAD :: l1.*1 ++ q :: L2 /\ NoDup (HEAD :: l1.*1 ++ q :: L2)) as [Hp Hnd2].
  { change (HEAD :: l1.*1 ++ p :: q :: L2) with ((HEAD :: l1.*1) ++ p :: q :: L2) in Hnd.
    rewrite <- Permutation_middle in Hnd. by apply list.NoDup_cons in Hnd. }
  destruct (chain_lookup m1 _ _ _ p Hc1) as (n1 & En1);
    [right; apply elem_of_app; right; left|].
  destruct (frames_lookup _ _ _ p _ Hf2 En1) as (n2 & En2 & _).
  assert (NoDup (l1.*1 ++ p :: l2.*1)) as Hndl.
  { apply list.NoDup_cons in Hnd as [_ Hnd]. rewrite <- Eq, app_comm_cons, (assoc_L (++)) in Hnd.
    by apply list.NoDup_app in Hnd as (? & _). }
  apply wpm_bind. eapply wpm_dealloc; [done|done| |].
  { apply elem_of_list_to_set, elem_of_app. right; left. }
  intros a Ha. apply wpm_set_fld. simpl. apply HQ; [|done].
  rewrite list_to_set_remove in Ha by done.
  split; simpl; rewrite ?fmap_app, <- ?(assoc_L (++)), ?Eq; try done.
  - by apply chain_delete.
  - contradict Hnull. rewrite elem_of_app, elem_of_cons. apply elem_of_app in Hnull. tauto.
  - intros x dx Hx. unfold payloadof.
    assert (x <> p) as Hne.
    { intros ->. rewrite <- Permutation_middle in Hndl. apply list.NoDup_cons in Hndl as [Hn _].
      apply Hn. rewrite <- fmap_app. by apply (list_elem_of_fmap_2 fst) in Hx. }
    rewrite lookup_delete_ne by done.
    change (payloadof m2 x = Some dx). destruct Hf2 as [-> _].
    unfold payloadof. rewrite Hoth1 by done. apply Hdata.
    rewrite elem_of_app, elem_of_cons. apply elem_of_app in Hx. tauto.
  - rewrite dom_delete_L, (frames_dom _ _ _ Hf2), Hdom1, Hdom, <- (assoc_L (++)). simpl.
    rewrite Eq. apply (list_to_set_remove (HEAD :: l1.*1)). done.
  - rewrite Hsize, wrap_small; rewrite !zlen_app, zlen_cons in *;
      pose proof (zlen_nonneg l1); pose proof (zlen_nonneg l2); lia.
Qed.

Lemma rep_init capacity h s :
  0 <= capacity < 2 ^ 32 -> sizeof_node * capacity < 2 ^ 32 ->
  muggle_linked_list_init capacity h = Done (Some s) -> rep s [] /\ calls s = [].
Proof.
  intros Hc Hs. unfold muggle_linked_list_init.
  destruct (init_pool capacity sizeof_node) as [[p|]| |] eqn:E; [|done..]. intros [= <-].
  split; [|done]. split; simpl; try done.
  - apply list.NoDup_cons; split; [|apply list.NoDup_singleton]. by intros [=]%list_elem_of_singleton.
  - by apply not_elem_of_nil.
  - by intros ? ? ?%elem_of_nil.
  - apply (init_pool_owns capacity sizeof_node); done || lia.
Qed.

(** The shape of insert and append: a new node, its data, the place, the
    links. *)
Definition add (place : LM loc) (link : loc -> loc -> LM unit) (d : ptr) : LM loc :=
  new_node ← muggle_linked_list_allocate_node raw;
  if is_null new_node then mret LNull
  else
    modify new_node (fun n => mkn (node_prev n) (node_next n) d);;
    node ← place;
    link node new_node;;
    mret new_node.

Definition added s l1 l2 (d : ptr) (r : loc) s' : Prop :=
  calls s' = calls s /\
  if is_null r then rep s' (l1 ++ l2)
  else r ∉ (l1 ++ l2).*1 /\ rep s' (l1 ++ (r, d) :: l2).

Lemma add_wp place link d s l1 l2 :
  rep s (l1 ++ l2) -> arena_room (ar s) -> zlen (l1 ++ l2) + 1 < 2 ^ 64 ->
  (forall s1 p n Q, chain (mem s1) HEAD (l1.*1 ++ l2.*1 ++ [TAIL]) LNull ->
     mem s1 !! p = Some n -> p ∉ HEAD :: l1.*1 ++ l2.*1 ++ [TAIL] ->
     (forall m' X, chain m' HEAD (l1.*1 ++ p :: l2.*1 ++ [TAIL]) LNull ->
        frames (mem s1) m' X -> Q tt (mkst m' (ar s1) (fld s1) (calls s1))) ->
     wpm (node ← place; link node p) s1 Q) ->
  wpm (add place link d) s (added s l1 l2 d).
Proof.
  intros R Hroom Hlen Hlink. pose proof R as [Hc Hnd Hnull Hdata Hdom Howns Hsize].
  rewrite fmap_app, <- (assoc_L (++)) in Hc, Hnd, Hdom.
  unfold add, muggle_linked_list_allocate_node. apply wpm_bind, wpm_bind.
  eapply wpm_alloc; [done|done| |].
  2: { intros a Ha. apply wpm_ret. simpl. apply wpm_ret. split; [done|].
       by destruct R. }
  intros p a Hp Hpn Hpp Ha. unfold is_null. rewrite bool_decide_false by done.
  apply wpm_bind, wpm_set_fld, wpm_ret. rewrite bool_decide_false by done. simpl.
  apply wpm_bind. eapply wpm_modify; [apply lookup_insert_eq|]. simpl.
  rewrite insert_insert_eq. set (n := mkn _ _ d).
  assert (p ∉ HEAD :: l1.*1 ++ l2.*1 ++ [TAIL]) as Hpl.
  { rewrite elem_of_list_to_set in Hp. intros [->|Hin]%elem_of_cons; [by eapply Hpp|].
    rewrite (assoc_L (++)), elem_of_app, list_elem_of_singleton, <- fmap_app in Hin.
    destruct Hin as [?| ->]; [done|by eapply Hpp]. }
  assert (forall m m' X, mem s = m -> frames (<[p := n]> m) m' X ->
    chain m' HEAD (l1.*1 ++ p :: l2.*1 ++ [TAIL]) LNull ->
    rep (mkst m' a (u64 (fld s + 1)) (calls s)) (l1 ++ (p, d) :: l2)) as Hrep.
  { intros m m' X <- Hf Hc'. split; simpl; rewrite ?fmap_app, <- ?(assoc_L (++)); simpl; try done.
    - change (NoDup ((HEAD :: l1.*1) ++ p :: l2.*1 ++ [TAIL])). rewrite <- Permutation_middle.
      apply list.NoDup_cons. done.
    - rewrite elem_of_app, elem_of_cons. rewrite fmap_app, elem_of_app in Hnull. naive_solver.
    - intros x dx Hx. destruct Hf as [-> _]. unfold payloadof.
      rewrite elem_of_app, elem_of_cons in Hx. destruct (decide (x = p)) as [->|].
      + rewrite lookup_insert_eq. simpl. destruct Hx as [Hx|[[= ->]|Hx]]; [|done|];
          apply (list_elem_of_fmap_2 fst) in Hx; simpl in Hx; contradict Hpl; right;
          rewrite !elem_of_app; tauto.
      + rewrite lookup_insert_ne by done. apply Hdata. rewrite elem_of_app. naive_solver.
    - rewrite (frames_dom _ _ _ Hf), dom_insert_L, Hdom.
      apply (list_to_set_add (HEAD :: l1.*1) (l2.*1 ++ [TAIL])).
    - rewrite <- list_to_set_add, <- fmap_app. done.
    - rewrite Hsize, wrap_small; rewrite !zlen_app, ?zlen_cons in *;
        pose proof (zlen_nonneg l1); pose proof (zlen_nonneg l2); lia. }
  apply (wpm_assoc place (fun node => link node p)), wpm_bind.
  eapply Hlink; simpl; [by apply chain_insert_new|by rewrite lookup_insert_eq|done|].
  intros m' X Hc' Hf. apply wpm_ret. split; [done|]. unfold is_null.
  rewrite bool_decide_false by done. split; [by rewrite elem_of_list_to_set in Hp|].
  by eapply Hrep.
Qed.

(** The place named by [node] in the list [l]: before it (insert) or after it
    (append); NULL is the front (insert) or the end (append). *)
Definition insert_place (node : loc) l1 l2 : Prop :=
  if is_null node then l1 = [] else exists d l, l2 = (node, d) :: l.
Definition append_place (node : loc) l1 l2 : Prop :=
  if is_null node then l2 = [] else exists d l, l1 = l ++ [(node, d)].

Lemma list_insert_wp node d s l1 l2 :
  rep s (l1 ++ l2) -> arena_room (ar s) -> zlen (l1 ++ l2) + 1 < 2 ^ 64 ->
  insert_place node l1 l2 ->
  wpm (muggle_linked_list_insert raw node d) s (added s l1 l2 d).
Proof.
  intros R Hr Hlen Hpl. apply add_wp; [done..|]. pose proof (rep_nodup _ _ R) as Hnd.
  rewrite fmap_app, <- (assoc_L (++)) in Hnd. intros s1 p n Q Hc Hp Hpn HQ.
  apply wpm_bind. unfold insert_place in Hpl. destruct (is_null node).
  - subst l1. simpl in *. destruct (l2.*1 ++ [TAIL]) as [|q L] eqn:E; [by destruct (l2.*1)|].
    pose proof Hc as (Hh & _). apply nextof_Some in Hh as (nh & Eh & Hh).
    apply wpm_bind, (wpm_load _ nh); [done|]. apply wpm_ret. simpl in Hh. rewrite Hh.
    apply (link_before_wp _ HEAD [] q L LNull p n); [done..|]. intros m' Hc' Hf.
    by apply (HQ m' _ Hc' Hf).
  - destruct Hpl as (dn & l & ->). simpl in *. apply wpm_ret.
    apply (link_before_wp _ HEAD l1.*1 node (l.*1 ++ [TAIL]) LNull p n); [done..|].
    intros m' Hc' Hf. by apply (HQ m' _ Hc' Hf).
Qed.

Lemma append_wp node d s l1 l2 :
  rep s (l1 ++ l2) -> arena_room (ar s) -> zlen (l1 ++ l2) + 1 < 2 ^ 64 ->
  append_place node l1 l2 ->
  wpm (muggle_linked_list_append raw node d) s (added s l1 l2 d).
Proof.
  intros R Hr Hlen Hpl. apply add_wp; [done..|]. pose proof (rep_nodup _ _ R) as Hnd.
  rewrite fmap_app, <- (assoc_L (++)) in Hnd. intros s1 p n Q Hc Hp Hpn HQ.
  destruct (l2.*1 ++ [TAIL]) as [|q L] eqn:E; [by destruct (l2.*1)|].
  apply wpm_bind. unfold append_place in Hpl.
  apply (wpm_mono _ _ (fun node s2 => s2 = s1 /\ node = end_of HEAD l1.*1)).
  - destruct (is_null node).
    + subst l2. injection E as <- <-.
      pose proof Hc as (_ & Ht & _)%dchain_app. apply prevof_Some in Ht as (nt & Et & Ht).
      apply wpm_bind, (wpm_load _ nt); [done|]. by apply wpm_ret.
    + destruct Hpl as (dn & l & ->). apply wpm_ret. split; [done|].
      rewrite fmap_app. simpl. by rewrite end_of_app.
  - intros ? ? [-> ->]. apply (link_after_wp _ HEAD l1.*1 q L LNull p n); [done..|].
    intros m' Hc' Hf. by apply (HQ m' _ Hc' Hf).
Qed.

Lemma next_wp s l1 p d l2 Q :
  rep s (l1 ++ (p, d) :: l2) -> Q (default LNull (head l2.*1)) s ->
  wpm (muggle_linked_list_next p) s Q.
Proof.
  intros R HQ. pose proof (list_rep_split _ _ _ _ _ R) as (Hc & Hnd & n & Ep & _).
  apply dchain_app in Hc as (_ & _ & Hc). unfold muggle_linked_list_next.
  apply wpm_bind, (wpm_load _ n); [done|]. apply wpm_ret.
  destruct l2 as [|[q dq] l2]; simpl in *.
  - destruct Hc as (E & _). unfold nextof in E. rewrite Ep in E. injection E as ->. done.
  - destruct Hc as (E & _). unfold nextof in E. rewrite Ep in E. injection E as ->.
    rewrite bool_decide_false; [done|]. intros ->. apply list.NoDup_cons in Hnd as [_ Hnd].
    apply list.NoDup_app in Hnd as (_ & _ & Hnd).
    apply list.NoDup_cons in Hnd as [_ [Hn _]%list.NoDup_cons].
    apply Hn, elem_of_app. right; left.
Qed.

Lemma list_remove_wp s l1 p d l2 (func_free : bool) :
  rep s (l1 ++ (p, d) :: l2) -> zlen (l1 ++ (p, d) :: l2) < 2 ^ 64 ->
  wpm (muggle_linked_list_remove p func_free) s (fun r s' =>
    rep s' (l1 ++ l2) /\ r = default LNull (head l2.*1) /\
    calls s' = calls s ++ free_calls func_free d).
Proof.
  intros R Hlen. unfold muggle_linked_list_remove. apply wpm_bind.
  apply (next_wp _ l1 _ d l2); [done|].
  apply (wpm_assoc _ (fun _ => muggle_linked_list_free_node p)), wpm_bind.
  eapply free_one_wp; [done..|]. intros s' R' Hcl. by apply wpm_ret.
Qed.

Lemma list_clear_wp s l (func_free : bool) :
  rep s l -> zlen l < 2 ^ 64 ->
  wpm (muggle_linked_list_clear func_free) s (fun _ s' =>
    rep s' [] /\ calls s' = calls s ++ mjoin (free_calls func_free <$> l.*2)).
Proof.
  intros R Hlen. unfold muggle_linked_list_clear.
  assert (forall s l, rep s l -> exists n, mem s !! HEAD = Some n /\
    node_next n = default TAIL (head l.*1)) as Hfirst.
  { intros s' l' R'. pose proof (rep_chain _ _ R') as Hc.
    destruct l' as [|[q dq] l']; simpl in Hc; destruct Hc as (Hh & _);
      apply nextof_Some in Hh as (n & ? & ?); by exists n. }
  destruct (Hfirst _ _ R) as (n & En & Hn).
  apply wpm_bind, (wpm_load _ n); [done|]. apply wpm_bind, wpm_count, wpm_bind.
  apply (wpm_loop _ (fun node s' => exists k, rep s' (drop k l) /\
      node = default TAIL (head (drop k l).*1) /\
      calls s' = calls s ++ mjoin (free_calls func_free <$> (take k l).*2))
    (fun _ s' => size (mem s'))).
  - intros node s' (k & R' & -> & Hcl). destruct (drop k l) as [|[q dq] l'] eqn:Ek.
    + simpl. apply wpm_ret, wpm_set_fld. simpl. split.
      * destruct R' as [? ? ? ? ? ? Hz]. by split; simpl.
      * rewrite Hcl. f_equal. rewrite take_ge; [done|].
        apply (f_equal length) in Ek. rewrite length_drop in Ek. simpl in Ek. lia.
    + pose proof (list_rep_split _ [] q dq l' R') as (_ & Hnd & nq & Eq & _). simpl in Hnd.
      rewrite bool_decide_false; cycle 1.
      { simpl. intros ->. apply list.NoDup_cons in Hnd as [_ [Hn' _]%list.NoDup_cons].
        apply Hn', elem_of_app. right; left. }
      simpl. apply wpm_bind, (wpm_load _ nq); [done|].
      apply (wpm_assoc _ (fun _ => muggle_linked_list_free_node q)), wpm_bind.
      assert (drop (S k) l = l') as Ek'.
      { rewrite <- Nat.add_1_r, <- drop_drop, Ek. done. }
      assert (l !! k = Some (q, dq)) as Hk.
      { rewrite <- (Nat.add_0_r k), <- lookup_drop, Ek. done. }
      assert (node_next nq = default TAIL (head l'.*1)) as Hnx.
      { pose proof (rep_chain _ _ R') as (_ & _ & Hc). unfold chain in Hc.
        destruct l' as [|[r dr] l'']; simpl in Hc; destruct Hc as (E & _); unfold nextof in E;
          rewrite Eq in E; by injection E. }
      assert (zlen l' < 2 ^ 64 /\ zlen ((q, dq) :: l') < 2 ^ 64) as [? ?].
      { assert (zlen (drop k l) <= zlen l) by (unfold zlen; rewrite length_drop; lia).
        rewrite Ek, zlen_cons in *. lia. }
      eapply (free_one_wp _ [] q dq l'); [done|done|]. intros s2 R2 Hcl2. apply wpm_ret.
      split; [exists (S k); rewrite Ek'; split; [done|split; [done|]]|].
      * rewrite Hcl2, Hcl, (take_S_r _ _ _ Hk), !fmap_app, join_app, (assoc_L (++)). simpl.
        by rewrite app_nil_r.
      * rewrite (rep_count _ _ R'), (rep_count _ _ R2). simpl. lia.
  - exists 0%nat. rewrite drop_0. split; [done|]. split; [done|]. simpl. by rewrite app_nil_r.
  - lia.
Qed.

(** Following [next] from a node of the list. *)
Lemma chain_next s l1 p d l2 n :
  rep s (l1 ++ (p, d) :: l2) -> mem s !! p = Some n -> node_next n = default TAIL (head l2.*1).
Proof.
  intros R En. pose proof (list_rep_split _ _ _ _ _ R) as (Hc & _).
  apply dchain_app in Hc as (_ & _ & Hc). destruct l2 as [|[q dq] l2]; simpl in Hc;
    destruct Hc as (E & _); unfold nextof in E; rewrite En in E; by injection E.
Qed.

Lemma rep_not_tail s l1 p d l2 : rep s (l1 ++ (p, d) :: l2) -> p <> TAIL /\ p <> HEAD.
Proof.
  intros R. pose proof (list_rep_split _ _ _ _ _ R) as (_ & Hnd & _).
  apply list.NoDup_cons in Hnd as [Hh Hnd].
  apply list.NoDup_app in Hnd as (_ & _ & [Hn _]%list.NoDup_cons). split; intros ->.
  - apply Hn, elem_of_app. right; left.
  - apply Hh, elem_of_app. right; left.
Qed.

Lemma first_next s l : rep s l -> exists n, mem s !! HEAD = Some n /\ node_next n = default TAIL (head l.*1).
Proof.
  intros R. pose proof (rep_chain _ _ R) as Hc.
  destruct l as [|[q dq] l]; simpl in Hc; destruct Hc as (Hh & _);
    apply nextof_Some in Hh as (n & ? & ?); by exists n.
Qed.

Lemma list_find_loop d cmp s l2 : forall fuel l1,
  rep s (l1 ++ l2) -> (length l2 < fuel)%nat ->
  loopM fuel (find_step d cmp) (default TAIL (head l2.*1)) s =
    Done (default LNull (fst <$> head (filter (fun x => cmp x.2 d = 0) l2)), s).
Proof.
  induction l2 as [|[p dp] l2 IH]; intros [|fuel] l1 R Hf; simpl in *; try lia; [done|].
  pose proof (rep_not_tail _ _ _ _ _ R) as [Hp _].
  pose proof (list_rep_split _ _ _ _ _ R) as (_ & _ & n & En & Hd).
  unfold find_step at 1. rewrite bool_decide_false by done.
  unfold mbind, M_bind, load. rewrite En, Hd, filter_cons. simpl.
  destruct (Z.eqb_spec (cmp dp d) 0) as [E|E].
  - by rewrite decide_True.
  - rewrite decide_False by done. simpl. rewrite (chain_next _ _ _ _ _ _ R En).
    apply (IH fuel (l1 ++ [(p, dp)])); [|lia]. by rewrite <- (assoc_L (++)).
Qed.

Lemma list_find_wp node d cmp s l1 l2 :
  rep s (l1 ++ l2) -> insert_place node l1 l2 ->
  wpm (muggle_linked_list_find node d cmp) s (fun r s' => s' = s /\
    r = default LNull (fst <$> head (filter (fun x => cmp x.2 d = 0) l2))).
Proof.
  intros R Hpl. unfold muggle_linked_list_find. apply wpm_bind.
  apply (wpm_mono _ _ (fun node s' => s' = s /\ node = default TAIL (head l2.*1))).
  { unfold insert_place in Hpl. destruct (is_null node).
    - subst l1. destruct (first_next _ _ R) as (n & En & Hn).
      apply wpm_bind, (wpm_load _ n); [done|]. by apply wpm_ret.
    - destruct Hpl as (dn & l & ->). by apply wpm_ret. }
  intros ? ? [-> ->]. apply wpm_bind, wpm_count. unfold wpm.
  rewrite (list_find_loop d cmp s l2 _ l1 R); [done|].
  rewrite (rep_count _ _ R), length_app. lia.
Qed.

(** The first and last node, the node before and after a node, emptiness and
    size. *)
Lemma linked_list_navigation s l :
  rep s l ->
  muggle_linked_list_first s = Done (default LNull (head l.*1), s) /\
  muggle_linked_list_last s = Done (default LNull (list.last l.*1), s) /\
  muggle_linked_list_is_empty s = Done (bool_decide (l = []), s) /\
  muggle_linked_list_size s = Done (zlen l, s) /\
  forall l1 p d l2, l = l1 ++ (p, d) :: l2 ->
    muggle_linked_list_next p s = Done (default LNull (head l2.*1), s) /\
    muggle_linked_list_prev p s = Done (default LNull (list.last l1.*1), s).
Proof.
  intros R. pose proof (rep_chain _ _ R) as Hc.
  assert (forall l0 p, (exists dl l3, l = l0 ++ dl ++ l3) -> prevof (mem s) p = Some (end_of HEAD l0.*1) ->
    exists n, mem s !! p = Some n /\
    (if bool_decide (node_prev n = HEAD) then LNull else node_prev n) = default LNull (list.last l0.*1)) as Hprev.
  { intros l0 p (dl & l3 & ->) (n & En & Hn)%prevof_Some. exists n. split; [done|]. simpl in Hn. rewrite Hn.
    destruct l0 as [|[q dq] l0 _] using rev_ind; [done|].
    rewrite <- (assoc_L (++)) in R. pose proof (rep_not_tail _ _ _ _ _ R) as [_ Hq].
    rewrite fmap_app. simpl. rewrite last_snoc, end_of_app. simpl. by rewrite bool_decide_false. }
  destruct (first_next _ _ R) as (nh & Eh & Hh).
  split; [|split; [|split; [|split]]].
  - unfold muggle_linked_list_first, mbind, M_bind, load. rewrite Eh, Hh.
    destruct l as [|[q dq] l]; [done|]. simpl. pose proof (rep_not_tail s [] q dq l R) as [? _].
    by rewrite bool_decide_false.
  - destruct (Hprev l TAIL) as (n & En & Hn).
    { exists [], []. by rewrite app_nil_r. }
    { by apply dchain_app in Hc as (_ & ? & _). }
    unfold muggle_linked_list_last, mbind, M_bind, load. by rewrite En, Hn.
  - unfold muggle_linked_list_is_empty, mbind, M_bind, load. rewrite Eh, Hh.
    destruct l as [|[q dq] l]; [done|]. simpl. pose proof (rep_not_tail s [] q dq l R) as [? _].
    by rewrite !bool_decide_false.
  - unfold muggle_linked_list_size, get_fld. by rewrite (rep_size _ _ R).
  - intros l1 p d l2 ->. split.
    + pose proof (next_wp s l1 p d l2 (fun r s' => r = default LNull (head l2.*1) /\ s' = s) R
        ltac:(done)) as (r & s' & E & -> & ->)%wpm_Done. done.
    + pose proof (list_rep_split _ _ _ _ _ R) as (Hc' & _). apply dchain_app in Hc' as (_ & Hp & _).
      destruct (Hprev l1 p) as (n & En & Hn); [by exists [(p, d)], l2|done|].
      unfold muggle_linked_list_prev, mbind, M_bind, load. by rewrite En, Hn.
Qed.

(** Insert puts a new node with the data before the named node (NULL: at the
    front), append after it (NULL: at the end); the other nodes keep their
    place and data.  When no node can be allocated the list stays as it was and
    NULL is returned. *)
Theorem linked_list_add_refines s l1 l2 node d :
  rep s (l1 ++ l2) -> arena_room (ar s) -> zlen (l1 ++ l2) + 1 < 2 ^ 64 ->
  (insert_place node l1 l2 -> exists r s',
     muggle_linked_list_insert raw node d s = Done (r, s') /\ added s l1 l2 d r s') /\
  (append_place node l1 l2 -> exists r s',
     muggle_linked_list_append raw node d s = Done (r, s') /\ added s l1 l2 d r s').
Proof.
  intros. split; intros; apply wpm_Done; [by apply list_insert_wp|by apply append_wp].
Qed.

(** Remove takes exactly the named node out, gives its non-NULL data to the
    callback and returns the node after it; clear empties the list and frees
    the data front to back.  Both end, whatever the length. *)
Theorem linked_list_remove_refines s l1 p d l2 (func_free : bool) :
  rep s (l1 ++ (p, d) :: l2) -> zlen (l1 ++ (p, d) :: l2) < 2 ^ 64 ->
  (exists s', muggle_linked_list_remove p func_free s = Done (default LNull (head l2.*1), s') /\
     rep s' (l1 ++ l2) /\ calls s' = calls s ++ free_calls func_free d) /\
  (exists s', muggle_linked_list_clear func_free s = Done (tt, s') /\ rep s' [] /\
     calls s' = calls s ++ mjoin (free_calls func_free <$> (l1 ++ (p, d) :: l2).*2)).
Proof.
  intros R Hlen. split.
  - pose proof (list_remove_wp _ _ _ _ _ func_free R Hlen) as (r & s' & E & ? & -> & ?)%wpm_Done.
    by exists s'.
  - pose proof (list_clear_wp _ _ func_free R Hlen) as ([] & s' & E & ?)%wpm_Done. by exists s'.
Qed.

(** Find returns the first node from the named one on (NULL: from the
    front) whose data compares equal, and NULL when there is none; it does not
    change the list. *)
Theorem linked_list_find_first s l1 l2 node d cmp :
  rep s (l1 ++ l2) -> insert_place node l1 l2 ->
  muggle_linked_list_find node d cmp s =
    Done (default LNull (fst <$> head (filter (fun x => cmp x.2 d = 0) l2)), s).
Proof.
  intros R Hp. by pose proof (list_find_wp node d cmp s l1 l2 R Hp) as (r & s' & -> & -> & ->)%wpm_Done.
Qed.
End proofs.

(** ** Witnesses: a list of two malloc'ed nodes, with room for one more. *)
Definition heap3 : NodeMalloc (gset Z) := bounded_malloc 3.
Definition zero_node : muggle_linked_list_node := mkn LNull LNull NULL.
Definition sample : muggle_linked_list (gset Z) :=
  mkst (list_to_map [(HEAD, mkn LNull (LHeap 1) NULL); (LHeap 1, mkn HEAD (LHeap 2) 70);
                     (LHeap 2, mkn (LHeap 1) TAIL 80); (TAIL, mkn (LHeap 2) LNull NULL)])
       (mka None {[1; 2]}) 2 [].

Lemma sample_rep : @rep _ heap3 sample [(LHeap 1, 70); (LHeap 2, 80)].
Proof.
  split; try done.
  - by apply (bool_decide_eq_true_1 (NoDup _)).
  - by apply (bool_decide_eq_true_1 (_ ∉ _)).
  - by intros p d [[= -> ->]|[[= -> ->]|?%elem_of_nil]%elem_of_cons]%elem_of_cons.
  - intros p. simpl. rewrite !elem_of_union, !elem_of_singleton, elem_of_empty.
    intros [->|[->|[]]]; eexists; split; done || set_solver.
Qed.

Lemma linked_list_add_refines_witness :
  (insert_place (LHeap 2) [(LHeap 1, 70)] [(LHeap 2, 80)] -> exists r s',
     @muggle_linked_list_insert _ heap3 (malloc_zeroed []) (malloc_zeroed (MemoryPool.blk 0 0))
       (malloc_zeroed 0) zero_node (LHeap 2) 90 sample = Done (r, s') /\
     @added _ heap3 sample [(LHeap 1, 70)] [(LHeap 2, 80)] 90 r s') /\
  (append_place (LHeap 2) [(LHeap 1, 70)] [(LHeap 2, 80)] -> exists r s',
     @muggle_linked_list_append _ heap3 (malloc_zeroed []) (malloc_zeroed (MemoryPool.blk 0 0))
       (malloc_zeroed 0) zero_node (LHeap 2) 90 sample = Done (r, s') /\
     @added _ heap3 sample [(LHeap 1, 70)] [(LHeap 2, 80)] 90 r s').
Proof. apply linked_list_add_refines; [apply sample_rep|done|done]. Defined.

Lemma linked_list_remove_refines_witness :
  (exists s', @muggle_linked_list_remove _ heap3 (LHeap 1) true sample = Done (LHeap 2, s') /\
     @rep _ heap3 s' [(LHeap 2, 80)] /\ calls s' = [FreeData 70]) /\
  (exists s', @muggle_linked_list_clear _ heap3 true sample = Done (tt, s') /\ @rep _ heap3 s' [] /\
     calls s' = [FreeData 70; FreeData 80]).
Proof.
  apply (linked_list_remove_refines sample [] (LHeap 1) 70 [(LHeap 2, 80)] true);
    [apply sample_rep|done].
Defined.

Lemma linked_list_find_first_witness :
  @muggle_linked_list_find _ LNull 80 cmp_addr sample = Done (LHeap 2, sample).
Proof.
  apply (@linked_list_find_first _ heap3 sample [] [(LHeap 1, 70); (LHeap 2, 80)] LNull 80 cmp_addr);
    [apply sample_rep|done].
Defined.
End LinkedList.
