(* ===== verification/Queue.v ===== *)
(** muggle/c/dsaa/queue.{h,c}: a queue as a doubly linked list.  The structure
    and its nodes have the fields of the linked list's, so that the queue shares
    the representation of LinkedList.v; its functions are those of queue.c. *)

From stdpp Require Import base gmap sets list numbers.
From Stdlib Require Import ZArith Lia.
From S2P Require Import Prelude Dsaa MemoryPool NodeMem DList LinkedList.
Import MemoryPool(block, muggle_memory_pool).
Import LinkedList.

Open Scope Z_scope.

Module Queue.

Abbreviation muggle_queue_node := muggle_linked_list_node.

Section ops.
Context {H : Type} `{!NodeMalloc H}.
Context `{Malloc (list Z)} `{Malloc block} `{Malloc Z} `{Malloc muggle_memory_pool}.
Context (raw : muggle_queue_node).

Definition muggle_queue : Type := st H muggle_queue_node Z.
Definition QM (A : Type) : Type := M H muggle_queue_node Z A.

Definition muggle_queue_free_node (node : loc) : QM unit :=
  unlink node;;
  dealloc node;;
  set_fld (fun size => u64 (size - 1)).

Definition muggle_queue_free_data (node : loc) (func_free : bool) : QM unit :=
  n ← load node;
  if data n =? NULL then mret tt
  else
    (if func_free then called [FreeData (data n)] else mret tt);;
    modify node (fun n => mkn (node_prev n) (node_next n) NULL).

Definition muggle_queue_init (capacity : Z) (h : H) : outcome (option muggle_queue) :=
  r ← init_pool capacity sizeof_node;
  match (r : option (option muggle_memory_pool)) with
  | None => mret None
  | Some p =>
      mret (Some (mkst (<[HEAD := mkn LNull TAIL NULL]> (<[TAIL := mkn HEAD LNull NULL]> ∅))
                       (mka p h) 0 []))
  end.

Definition muggle_queue_is_empty : QM bool :=
  n ← load HEAD;
  mret (bool_decide (node_next n = TAIL)).

Definition muggle_queue_clear (func_free : bool) : QM unit :=
  n ← load HEAD;
  c ← count;
  loopM (S c) (fun node =>
    if bool_decide (node = TAIL) then mret (inr tt)
    else
      n ← load node;
      let next_node := node_next n in
      muggle_queue_free_data node func_free;;
      muggle_queue_free_node node;;
      mret (inl next_node)) (node_next n);;
  set_fld (fun _ => 0).

Definition muggle_queue_destroy (func_free : bool) : QM unit :=
  muggle_queue_clear func_free;;
  destroy_pool.

Definition muggle_queue_size : QM Z := get_fld.

Definition muggle_queue_enqueue (d : ptr) : QM loc :=
  new_node ← alloc raw;
  if is_null new_node then mret LNull
  else
    modify new_node (fun n => mkn (node_prev n) (node_next n) d);;
    set_fld (fun size => u64 (size + 1));;
    n ← load TAIL;
    link_after (node_prev n) new_node;;
    mret new_node.

Definition muggle_queue_dequeue (func_free : bool) : QM unit :=
  e ← muggle_queue_is_empty;
  if (e : bool) then mret tt
  else
    n ← load HEAD;
    let node := node_next n in
    muggle_queue_free_data node func_free;;
    muggle_queue_free_node node.

Definition muggle_queue_front : QM loc :=
  e ← muggle_queue_is_empty;
  if (e : bool) then mret LNull
  else n ← load HEAD; mret (node_next n).

(** ** The queue is the linked list that appends at the end and removes the
    first node. *)
Lemma enqueue_append d s : muggle_queue_enqueue d s = muggle_linked_list_append raw LNull d s.
Proof.
  unfold muggle_queue_enqueue, muggle_linked_list_append, muggle_linked_list_allocate_node.
  unfold mbind, M_bind. destruct (alloc raw s) as [[p s1]| |]; [|done..].
  unfold is_null, mret, M_ret. destruct (decide (p = LNull)) as [->|Hp]; [done|].
  rewrite !(bool_decide_false (p = LNull)) by done. simpl.
  rewrite (bool_decide_false (p = LNull)) by done. unfold modify. simpl.
  destruct (mem s1 !! p); [|done]. simpl. unfold load. simpl.
  by destruct (<[p := _]> (mem s1) !! TAIL).
Qed.

End ops.


(** A queue whose nodes come from a pool of one block, which grows: the front is
    the first element put in. *)
Definition queue_run : outcome (loc * Z * list free_call) :=
  let mb := malloc_zeroed [] in let mk := malloc_zeroed (MemoryPool.blk 0 0) in
  let mz := malloc_zeroed 0 in
  r ← @muggle_queue_init _ mb mk mz
        (malloc_zeroed (MemoryPool.mk [] [] 0 0 0 0 0 0 0)) 1 (∅ : gset Z);
  match (r : option (muggle_queue (H := gset Z))) with
  | None => Undef
  | Some s =>
      let enqueue := @muggle_queue_enqueue _ heap3 mb mk mz zero_node in
      r ← (enqueue 70;; enqueue 80;; @muggle_queue_dequeue _ heap3 true;; enqueue 90;;
           p ← muggle_queue_front; n ← load p; mret (data n)) s;
      mret ((fun q => match mem q !! TAIL with Some t => node_prev t | None => LNull end) r.2,
            r.1, calls r.2)
  end.

Example queue_run_value : queue_run = Done (LPool 0 0, 80, [FreeData 70]).
Proof. by vm_compute. Qed.
End Queue.
