(* ===== verification/HashTable.v ===== *)
(** muggle/c/dsaa/hash_table.{h,c}: a table of buckets, each a chain of nodes
    from the bucket's head to NULL.  The table refines a finite map from keys to
    nodes and values. *)

From stdpp Require Import base gmap sets list numbers.
From Stdlib Require Import ZArith Lia.
From S2P Require Import Prelude Dsaa MemoryPool NodeMem DList.
Import MemoryPool(block, muggle_memory_pool).

Open Scope Z_scope.

Module HashTable.

Record muggle_hash_table_node := mkn {
  node_prev : loc; node_next : loc; key : ptr; value : ptr
}.

#[export] Instance hash_table_dnode : DNode muggle_hash_table_node (ptr * ptr).
Proof.
  refine {|
    prev := node_prev; next := node_next; payload n := (key n, value n);
    set_prev p n := mkn p (node_next n) (key n) (value n);
    set_next p n := mkn (node_prev n) p (key n) (value n)
  |}; abstract done.
Defined.

(** The fields beside the nodes and the pool.  The bucket [nodes[i]] is the cell
    [LPart i] of the store. *)
Record muggle_hash_table := mk {
  table_size : Z;
  hash : ptr -> Z;
  cmp : ptr -> ptr -> Z
}.

Definition HASH_TABLE_SIZE_10007 : Z := 10007.

(** [sizeof(muggle_hash_table_node_t)]. *)
Definition sizeof_node : Z := 32.

(** The default hash of a C string, given as its characters; [char] is
    signed. *)
Definition s_muggle_default_str_hash_func (str : list Z) : Z :=
  fold_left (fun hash_val c => u64 (u64 (Z.shiftl hash_val 5) + swrap 8 c)) str 0.

Section ops.
Context {H : Type} `{!NodeMalloc H}.
Context `{Malloc (list Z)} `{Malloc block} `{Malloc Z} `{Malloc muggle_memory_pool}.
Context `{Malloc muggle_hash_table_node}.
(** What a new block holds, and the strings of the client's memory. *)
Context (raw : muggle_hash_table_node) (str_at : ptr -> list Z).

Definition table : Type := st H muggle_hash_table_node muggle_hash_table.
Definition HM (A : Type) : Type := M H muggle_hash_table_node muggle_hash_table A.

(** The cells of the bucket array. *)
Definition buckets_mem (l : list muggle_hash_table_node) : gmap loc muggle_hash_table_node :=
  list_to_map (imap (fun i n => (LPart (Z.of_nat i), n)) l).

(** [hash] and [cmp] are [None] for NULL. *)
Definition muggle_hash_table_init (table_size : Z) (hash : option (ptr -> Z))
    (cmp : option (ptr -> ptr -> Z)) (capacity : Z) (h : H) : outcome (option table) :=
  match cmp with
  | None => mret None
  | Some cmp =>
      r ← init_pool capacity sizeof_node;
      match (r : option (option muggle_memory_pool)) with
      | None => mret None
      | Some p =>
          let table_size := if table_size <? 8 then HASH_TABLE_SIZE_10007 else table_size in
          match malloc_array sizeof_node table_size with
          | None => mret None
          | Some nodes =>
              nodes ← for_up 0 table_size (fun i nodes =>
                aset nodes i (mkn LNull LNull NULL NULL)) nodes;
              let hash := match hash with
                          | None => fun k => s_muggle_default_str_hash_func (str_at k)
                          | Some f => f
                          end in
              mret (Some (mkst (buckets_mem nodes) (mka p h) (mk table_size hash cmp) []))
          end
      end
  end.

(** [&nodes[hash(key) % table_size]]. *)
Definition bucket (t : muggle_hash_table) (k : ptr) : loc :=
  LPart (u64 (hash t k) mod table_size t).

(** The loop that looks for a key in a chain. *)
Definition find_step (t : muggle_hash_table) (k : ptr) (node : loc) : HM (loc + loc) :=
  if is_null node then mret (inr LNull)
  else
    n ← load node;
    if cmp t (key n) k =? 0 then mret (inr node) else mret (inl (node_next n)).

Definition muggle_hash_table_find (k : ptr) : HM loc :=
  t ← get_fld;
  let head := bucket t k in
  n ← load head;
  c ← count;
  loopM (S c) (find_step t k) (node_next n).

Definition muggle_hash_table_put (k v : ptr) : HM loc :=
  t ← get_fld;
  let head := bucket t k in
  n ← load head;
  c ← count;
  found ← loopM (S c) (find_step t k) (node_next n);
  if negb (is_null found) then mret LNull
  else
    new_node ← alloc raw;
    if is_null new_node then mret LNull
    else
      modify new_node (fun n => mkn (node_prev n) (node_next n) k (value n));;
      modify new_node (fun n => mkn (node_prev n) (node_next n) (key n) v);;
      link_front head new_node;;
      mret new_node.

(** [if (node->key) { if (key_func_free) key_func_free(..); node->key = NULL; }] and the
    same for the value. *)
Definition erase_key (node : loc) (key_free : bool) : HM unit :=
  n ← load node;
  if key n =? NULL then mret tt
  else (if key_free then called [FreeKey (key n)] else mret tt);;
       modify node (fun n => mkn (node_prev n) (node_next n) NULL (value n)).

Definition erase_value (node : loc) (value_free : bool) : HM unit :=
  n ← load node;
  if value n =? NULL then mret tt
  else (if value_free then called [FreeValue (value n)] else mret tt);;
       modify node (fun n => mkn (node_prev n) (node_next n) (key n) NULL).

Definition muggle_hash_table_remove (node : loc) (key_free value_free : bool) : HM unit :=
  erase_key node key_free;;
  erase_value node value_free;;
  n ← load node;
  let prev := node_prev n in
  let next := node_next n in
  (if is_null prev then (fun _ => Undef) : HM unit else mret tt);;
  unlink_open prev next;;
  dealloc node.

(** The body of the loop over a chain in clear. *)
Definition clear_step (key_free value_free : bool) (node : loc) : HM (loc + unit) :=
  if is_null node then mret (inr tt)
  else
    n ← load node;
    let next := node_next n in
    muggle_hash_table_remove node key_free value_free;;
    mret (inl next).

Definition muggle_hash_table_clear (key_free value_free : bool) : HM unit :=
  t ← get_fld;
  forM 0 (table_size t) (fun i =>
    n ← load (LPart i);
    c ← count;
    loopM (S c) (clear_step key_free value_free) (node_next n)).

Definition muggle_hash_table_destroy (key_free value_free : bool) : HM unit :=
  muggle_hash_table_clear key_free value_free;;
  destroy_pool.

(** ** Specification *)

(** A node with its key and value. *)
Definition entry : Type := loc * (ptr * ptr).

(** What the client promises of its callbacks: [cmp] decides an equivalence of
    keys and [hash] respects it. *)
Class HashKeys (t : muggle_hash_table) : Prop := {
  cmp_eq_sym : forall x y, cmp t x y = 0 -> cmp t y x = 0;
  cmp_eq_trans : forall x y z, cmp t x y = 0 -> cmp t y z = 0 -> cmp t x z = 0;
  hash_cmp : forall x y, cmp t x y = 0 -> hash t x = hash t y
}.

Definition bucket_no (t : muggle_hash_table) (k : ptr) : nat :=
  Z.to_nat (u64 (hash t k) mod table_size t).

Definition part (i : nat) : loc := LPart (Z.of_nat i).

(** The chains of the table are the buckets [B]. *)
Record rep (s : table) (B : list (list entry)) : Prop := {
  rep_size : zlen B = table_size (fld s) /\ 0 < zlen B;
  rep_chain : forall i b, B !! i = Some b -> chain (mem s) (part i) b.*1 LNull;
  rep_nodup : NoDup (concat B).*1;
  rep_node : forall p, p ∈ (concat B).*1 -> p <> LNull /\ forall i, p <> LPart i;
  rep_payload : forall p kv, (p, kv) ∈ concat B -> payloadof (mem s) p = Some kv;
  rep_hash : forall i b e, B !! i = Some b -> e ∈ b -> bucket_no (fld s) e.2.1 = i;
  rep_keys : forall e e', e ∈ concat B -> e' ∈ concat B ->
    cmp (fld s) e.2.1 e'.2.1 = 0 -> e = e';
  rep_dom : dom (mem s) = list_to_set (part <$> seq 0 (length B)) ∪ list_to_set (concat B).*1;
  rep_owns : arena_owns (ar s) (list_to_set (concat B).*1)
}.

(** The table holds the entries [E], in any order. *)
Definition holds (s : table) (E : list entry) : Prop :=
  exists B, rep s B /\ concat B ≡ₚ E.

(** The callbacks made for a removed entry. *)
Definition free_calls (key_free value_free : bool) (e : entry) : list free_call :=
  (if e.2.1 =? NULL then [] else if key_free then [FreeKey e.2.1] else []) ++
  (if e.2.2 =? NULL then [] else if value_free then [FreeValue e.2.2] else []).
End ops.

#[global] Arguments table H : clear implicits.

Section proofs.
Context {H : Type} `{!NodeMalloc H}.
Context `{Malloc (list Z)} `{Malloc block} `{Malloc Z} `{Malloc muggle_memory_pool}.
Context `{Malloc muggle_hash_table_node}.
Implicit Types (s : table H) (B : list (list entry)) (b : list entry).

Lemma bucket_part t k : 0 < table_size t -> bucket t k = part (bucket_no t k).
Proof.
  intros. unfold bucket, part, bucket_no. f_equal.
  pose proof (Z.mod_pos_bound (u64 (hash t k)) (table_size t)). lia.
Qed.

Lemma bucket_no_lt t k : 0 < table_size t -> (bucket_no t k < Z.to_nat (table_size t))%nat.
Proof.
  intros. unfold bucket_no. pose proof (Z.mod_pos_bound (u64 (hash t k)) (table_size t)). lia.
Qed.

(** A bucket and the entries of the others. *)
Lemma rep_bucket s B i b :
  rep s B -> B !! i = Some b ->
  exists B1 B2, B = B1 ++ b :: B2 /\ i = length B1 /\
    concat B = concat B1 ++ b ++ concat B2.
Proof.
  intros R Hi. destruct (list_elem_of_split_length _ _ _ Hi) as (B1 & B2 & -> & ->).
  exists B1, B2. split; [done|]. split; [done|]. rewrite concat_app. done.
Qed.

Lemma lookup_middle_ne {A} (B1 B2 : list A) x y j :
  j <> length B1 -> (B1 ++ x :: B2) !! j = (B1 ++ y :: B2) !! j.
Proof. revert j. induction B1 as [|z B1 IH]; intros [|j] Hj; simpl in *; try done. apply IH. lia. Qed.

Lemma elem_of_others B1 b B2 j bj (e : entry) :
  (B1 ++ b :: B2) !! j = Some bj -> j <> length B1 -> e ∈ bj -> e ∈ concat B1 ++ concat B2.
Proof.
  intros Hj Hne He. rewrite <- concat_app. apply list_elem_of_In, in_concat.
  exists bj. split; [|by apply list_elem_of_In]. apply list_elem_of_In.
  destruct (decide (j < length B1)%nat).
  - rewrite lookup_app_l in Hj by done. apply elem_of_app. left.
    by eapply list_elem_of_lookup_2.
  - rewrite lookup_app_r in Hj by lia. destruct (j - length B1)%nat eqn:E; [lia|].
    apply elem_of_app. right. by eapply list_elem_of_lookup_2.
Qed.

(** The store is changed in one bucket [b], which becomes [b']. *)
Lemma rep_update s B1 b B2 b' m' a' c' :
  let Os := concat B1 ++ concat B2 in
  rep s (B1 ++ b :: B2) ->
  chain m' (part (length B1)) b'.*1 LNull ->
  (forall x, x ∉ part (length B1) :: b.*1 ++ b'.*1 -> m' !! x = mem s !! x) ->
  (forall p kv, (p, kv) ∈ b' -> payloadof m' p = Some kv) ->
  NoDup (b'.*1 ++ Os.*1) -> (forall p, p ∈ b'.*1 -> p <> LNull /\ forall i, p <> LPart i) ->
  (forall e, e ∈ b' -> bucket_no (fld s) e.2.1 = length B1) ->
  (forall e e', e ∈ b' ++ Os -> e' ∈ b' ++ Os -> cmp (fld s) e.2.1 e'.2.1 = 0 -> e = e') ->
  dom m' = list_to_set (part <$> seq 0 (length (B1 ++ b :: B2))) ∪ list_to_set (b' ++ Os).*1 ->
  arena_owns a' (list_to_set (b' ++ Os).*1) ->
  rep (mkst m' a' (fld s) c') (B1 ++ b' :: B2).
Proof.
  intros Os R Hc Hfr Hpay Hnd Hnode Hhash Hkeys Hdom Howns.
  assert (concat (B1 ++ b' :: B2) ≡ₚ b' ++ Os) as HP.
  { rewrite concat_app. simpl. unfold Os. solve_Permutation. }
  assert (concat (B1 ++ b :: B2) ≡ₚ b ++ Os) as HP0.
  { rewrite concat_app. simpl. unfold Os. solve_Permutation. }
  assert (forall p, p ∈ (concat (B1 ++ b' :: B2)).*1 <-> p ∈ b'.*1 \/ p ∈ Os.*1) as HE.
  { intros p. rewrite HP, fmap_app, elem_of_app. done. }
  assert (forall e, e ∈ Os -> e ∈ concat (B1 ++ b :: B2)) as HO.
  { intros e He. rewrite HP0. apply elem_of_app. by right. }
  assert (forall p, p ∈ Os.*1 -> m' !! p = mem s !! p) as HfrO.
  { intros p Hp. apply Hfr. rewrite not_elem_of_cons, not_elem_of_app. split; [|split].
    - intros ->. assert (part (length B1) ∈ (concat (B1 ++ b :: B2)).*1) as Hin
        by (rewrite HP0, fmap_app, elem_of_app; by right).
      destruct (rep_node _ _ R _ Hin) as [_ Hn]. by eapply Hn.
    - intros Hb. pose proof (rep_nodup _ _ R) as Hn. rewrite HP0, fmap_app in Hn.
      apply list.NoDup_app in Hn as (_ & Hn & _). by apply (Hn p).
    - intros Hb. apply list.NoDup_app in Hnd as (_ & Hn & _). by apply (Hn p). }
  destruct (rep_size _ _ R) as [Hsz Hpos].
  assert (zlen (B1 ++ b' :: B2) = zlen (B1 ++ b :: B2)) as Hz by (by rewrite !zlen_app, !zlen_cons).
  split; simpl.
  - by rewrite Hz.
  - intros j bj Hj. destruct (decide (j = length B1)) as [->|Hne].
    + rewrite list_lookup_middle in Hj by done. by injection Hj as <-.
    + assert ((B1 ++ b :: B2) !! j = Some bj) as Hj0.
      { rewrite <- Hj. by apply lookup_middle_ne. }
      assert (forall e, e ∈ bj -> e ∈ Os) as Hbj.
      { intros e He. apply (elem_of_others B1 b' B2 j bj); done. }
      eapply chain_agree; [|by eapply (rep_chain _ _ R)].
      intros x [->|Hx]%elem_of_cons.
      * apply Hfr. rewrite not_elem_of_cons, not_elem_of_app. split; [|split].
        -- unfold part. intros [= E]. lia.
        -- intros Hb. destruct (rep_node _ _ R (part j)) as [_ Hn]; [|by eapply Hn].
           rewrite HP0, fmap_app, elem_of_app. by left.
        -- intros Hb. destruct (Hnode _ Hb) as [_ Hn]. by eapply Hn.
      * apply HfrO. apply list_elem_of_fmap in Hx as (e & -> & He). apply list_elem_of_fmap_2. auto.
  - by rewrite HP, fmap_app.
  - intros p [Hp|Hp]%HE; [by apply Hnode|]. apply (rep_node _ _ R).
    rewrite HP0, fmap_app, elem_of_app. by right.
  - intros p kv. rewrite HP, elem_of_app. intros [Hp|Hp]; [by apply Hpay|].
    unfold payloadof. rewrite HfrO by (by apply (list_elem_of_fmap_2 fst) in Hp).
    apply (rep_payload _ _ R). auto.
  - intros j bj e Hj He. destruct (decide (j = length B1)) as [->|Hne].
    + rewrite list_lookup_middle in Hj by done. injection Hj as <-. by apply Hhash.
    + apply (rep_hash _ _ R j bj); [|done]. rewrite <- Hj. by apply lookup_middle_ne.
  - intros e e'. rewrite HP. apply Hkeys.
  - rewrite Hdom, !length_app. simpl. f_equal. apply set_eq. intros p.
    rewrite !elem_of_list_to_set, HE, fmap_app, elem_of_app. done.
  - eapply eq_ind; [done|]. apply set_eq. intros p.
    rewrite !elem_of_list_to_set, HE, fmap_app, elem_of_app. done.
Qed.

Lemma count_entries s B : rep s B -> (length (concat B) <= size (mem s))%nat.
Proof.
  intros R. rewrite <- size_dom, (rep_dom _ _ R).
  assert (length (concat B) = length (concat B).*1) as -> by (by rewrite length_fmap).
  rewrite <- (size_list_to_set (C := gset loc)) by apply (rep_nodup _ _ R).
  apply subseteq_size. set_solver.
Qed.

Lemma bucket_length B i b : B !! i = Some b -> (length b <= length (concat B))%nat.
Proof.
  intros Hi. destruct (list_elem_of_split_length _ _ _ Hi) as (B1 & B2 & -> & _).
  rewrite concat_app, length_app. simpl. rewrite length_app. lia.
Qed.

Lemma chain_first m a (b : list entry) :
  chain m a b.*1 LNull -> exists n, m !! a = Some n /\ node_next n = default LNull (head b.*1).
Proof.
  intros Hc. destruct b as [|e b]; [|destruct Hc as [Hc _]]; by apply nextof_Some in Hc.
Qed.

Lemma chain_payload_lookup m b p kv :
  (forall p kv, (p, kv) ∈ b -> payloadof m p = Some kv) -> (p, kv) ∈ b ->
  exists n, m !! p = Some n /\ key n = kv.1 /\ value n = kv.2.
Proof.
  intros Hp Hin. specialize (Hp _ _ Hin). unfold payloadof in Hp.
  destruct (m !! p) as [n|]; [|done]. exists n. by injection Hp as <-.
Qed.

Lemma table_find_loop t k s b : forall fuel a,
  chain (mem s) a b.*1 LNull -> LNull ∉ b.*1 ->
  (forall p kv, (p, kv) ∈ b -> payloadof (mem s) p = Some kv) -> (length b < fuel)%nat ->
  loopM fuel (find_step t k) (default LNull (head b.*1)) s =
    Done (default LNull (fst <$> head (filter (fun e : entry => cmp t e.2.1 k = 0) b)), s).
Proof.
  induction b as [|[p [k' v]] b IH]; intros [|fuel] a Hc Hn Hp Hf; simpl in *; try lia; [done|].
  apply not_elem_of_cons in Hn as [Hp0 Hn].
  destruct (chain_payload_lookup _ _ p (k', v) Hp ltac:(left)) as (n & En & Hk & _).
  destruct Hc as (_ & _ & Hc). destruct (chain_first _ _ _ Hc) as (n' & En' & Hnx).
  rewrite En in En'. injection En' as <-.
  unfold find_step at 1. unfold is_null. rewrite bool_decide_false by done.
  unfold mbind, M_bind, load. rewrite En, Hk, filter_cons. simpl.
  destruct (Z.eqb_spec (cmp t k' k) 0) as [E|E]; [by rewrite decide_True|].
  rewrite decide_False by done. simpl. rewrite Hnx. apply (IH fuel p); [done|done| |lia].
  intros q kv Hq. apply Hp. by right.
Qed.

(** The entries of a key's bucket: no other bucket has the key. *)
Lemma bucket_lookup s B k :
  rep s B -> exists b, B !! bucket_no (fld s) k = Some b /\
    chain (mem s) (bucket (fld s) k) b.*1 LNull /\ LNull ∉ b.*1 /\
    (forall p kv, (p, kv) ∈ b -> payloadof (mem s) p = Some kv) /\
    (length b <= size (mem s))%nat.
Proof.
  intros R. destruct (rep_size _ _ R) as [Hsz Hpos].
  pose proof (bucket_no_lt (fld s) k) as Hlt.
  destruct (lookup_lt_is_Some_2 B (bucket_no (fld s) k)) as [b Hb]; [unfold zlen in *; lia|].
  assert (forall e, e ∈ b -> e ∈ concat B) as Hin.
  { intros e He. apply list_elem_of_In, in_concat. exists b.
    split; apply list_elem_of_In; [|done]. by eapply list_elem_of_lookup_2. }
  exists b. rewrite bucket_part by lia. split; [done|]. split; [by apply (rep_chain _ _ R)|].
  split; [|split].
  - intros (e & E & He)%list_elem_of_fmap. destruct (rep_node _ _ R LNull) as [? _]; [|done].
    rewrite E. apply list_elem_of_fmap_2. auto.
  - intros p kv Hp. apply (rep_payload _ _ R). auto.
  - etrans; [by eapply bucket_length|]. by apply count_entries.
Qed.

Lemma filter_bucket s B k b `{!HashKeys (fld s)} :
  rep s B -> B !! bucket_no (fld s) k = Some b ->
  forall e, e ∈ concat B -> cmp (fld s) e.2.1 k = 0 -> e ∈ b.
Proof.
  intros R Hb e He Hk. apply list_elem_of_In, in_concat in He as (b' & Hb' & He).
  apply list_elem_of_In in Hb', He. apply list_elem_of_lookup in Hb' as (j & Hj).
  pose proof (rep_hash _ _ R j b' e Hj He) as Hh.
  assert (bucket_no (fld s) e.2.1 = bucket_no (fld s) k) as E.
  { unfold bucket_no. by rewrite (hash_cmp _ _ Hk). }
  by assert (b' = b) as <- by congruence.
Qed.

(** The loop of find and put on a table: a node of the key or NULL. *)
Lemma find_in_bucket s B k `{!HashKeys (fld s)} :
  rep s B -> exists b n, B !! bucket_no (fld s) k = Some b /\
    mem s !! bucket (fld s) k = Some n /\
    exists r, loopM (S (size (mem s))) (find_step (fld s) k) (node_next n) s = Done (r, s) /\
      ((r = LNull /\ forall e, e ∈ concat B -> cmp (fld s) e.2.1 k <> 0) \/
       (exists k' v, (r, (k', v)) ∈ concat B /\ cmp (fld s) k' k = 0 /\ r <> LNull)).
Proof.
  intros R. destruct (bucket_lookup _ _ k R) as (b & Hb & Hc & Hn & Hp & Hlen).
  destruct (chain_first _ _ _ Hc) as (n & En & Hnx). exists b, n. split; [done|]. split; [done|].
  rewrite Hnx. eexists. split; [eapply table_find_loop; done || lia|].
  destruct (filter (fun e : entry => cmp (fld s) e.2.1 k = 0) b) as [|[p [k' v]] l] eqn:E.
  - left. split; [done|]. intros e He Hk. pose proof (filter_bucket _ _ _ _ R Hb e He Hk) as Hin.
    assert (e ∈ filter (fun e : entry => cmp (fld s) e.2.1 k = 0) b) as Hf
      by (by apply list_elem_of_filter). rewrite E in Hf. by apply elem_of_nil in Hf.
  - right. assert ((p, (k', v)) ∈ filter (fun e : entry => cmp (fld s) e.2.1 k = 0) b) as Hf
      by (rewrite E; left). apply list_elem_of_filter in Hf as [Hk Hin]. simpl in *.
    exists k', v. split; [|split; [done|]].
    + apply list_elem_of_In, in_concat. exists b. split; apply list_elem_of_In; [|done].
      by eapply list_elem_of_lookup_2.
    + intros ->. apply (list_elem_of_fmap_2 fst) in Hin. by apply Hn in Hin.
Qed.

(** A bucket split out of the table, with what [rep_update] needs of it. *)
Lemma table_rep_split s B1 b B2 :
  rep s (B1 ++ b :: B2) ->
  let Os := concat B1 ++ concat B2 in
  chain (mem s) (part (length B1)) b.*1 LNull /\ NoDup (b.*1 ++ Os.*1) /\
  NoDup (part (length B1) :: b.*1) /\ LNull ∉ b.*1 /\
  (forall p, p ∈ (b ++ Os).*1 -> p <> LNull /\ forall i, p <> LPart i) /\
  (forall p kv, (p, kv) ∈ b -> payloadof (mem s) p = Some kv) /\
  (forall e, e ∈ b -> bucket_no (fld s) e.2.1 = length B1) /\
  (forall e e', e ∈ b ++ Os -> e' ∈ b ++ Os -> cmp (fld s) e.2.1 e'.2.1 = 0 -> e = e') /\
  dom (mem s) = list_to_set (part <$> seq 0 (length (B1 ++ b :: B2))) ∪ list_to_set (b ++ Os).*1 /\
  arena_owns (ar s) (list_to_set (b ++ Os).*1).
Proof.
  intros R Os. assert (concat (B1 ++ b :: B2) ≡ₚ b ++ Os) as HP.
  { rewrite concat_app. simpl. unfold Os. solve_Permutation. }
  assert ((B1 ++ b :: B2) !! length B1 = Some b) as Hb by (by apply list_lookup_middle).
  assert ((list_to_set (concat (B1 ++ b :: B2)).*1 : gset loc) = list_to_set (b ++ Os).*1) as HS.
  { apply set_eq. intros p. rewrite !elem_of_list_to_set. by rewrite HP. }
  pose proof (rep_nodup _ _ R) as Hnd. rewrite HP, fmap_app in Hnd.
  pose proof Hnd as (Hnd1 & _ & _)%list.NoDup_app.
  assert (forall p, p ∈ (b ++ Os).*1 -> p <> LNull /\ forall i, p <> LPart i) as Hnode.
  { intros p Hp. apply (rep_node _ _ R). by rewrite HP. }
  split; [by apply (rep_chain _ _ R)|]. split; [done|]. split; [|split; [|split; [done|]]].
  - apply list.NoDup_cons. split; [|done]. intros Hin.
    destruct (Hnode (part (length B1))) as [_ Hn]; [|by eapply Hn].
    rewrite fmap_app, elem_of_app. by left.
  - intros Hin. destruct (Hnode LNull) as [? _]; [|done]. rewrite fmap_app, elem_of_app. by left.
  - split; [|split; [|split; [|split]]].
    + intros p kv Hp. apply (rep_payload _ _ R). rewrite HP, elem_of_app. by left.
    + intros e He. by apply (rep_hash _ _ R _ b).
    + intros e e'. rewrite <- HP. apply (rep_keys _ _ R).
    + rewrite (rep_dom _ _ R). by f_equal.
    + rewrite <- HS. apply (rep_owns _ _ R).
Qed.

(** Why nothing was put: the key is there, and nothing at all changed, or it is not
    there and no node was to be had. *)
Definition put_refused (s : table H) (B : list (list entry)) (k : ptr) (s' : table H) : Prop :=
  ((exists e, e ∈ concat B /\ cmp (fld s) e.2.1 k = 0) /\ s' = s) \/
  ((forall e, e ∈ concat B -> cmp (fld s) e.2.1 k <> 0) /\ no_node (ar s)).

Lemma put_wp raw s B k v `{!HashKeys (fld s)} :
  rep s B -> arena_room (ar s) ->
  wpm (muggle_hash_table_put raw k v) s (fun r s' => calls s' = calls s /\ fld s' = fld s /\
    if is_null r then rep s' B /\ put_refused s B k s'
    else r ∉ (concat B).*1 /\ (forall e, e ∈ concat B -> cmp (fld s) e.2.1 k <> 0) /\
         exists b, B !! bucket_no (fld s) k = Some b /\ rep s' (<[bucket_no (fld s) k := (r, (k, v)) :: b]> B)).
Proof.
  intros R Hroom. destruct (find_in_bucket s B k R) as (b & n & Hb & En & r & Hl & Hr).
  unfold muggle_hash_table_put. apply wpm_bind, wpm_get_fld, wpm_bind, (wpm_load _ n); [done|].
  apply wpm_bind, wpm_count, wpm_bind. unfold wpm at 1. rewrite Hl. simpl.
  destruct Hr as [[-> Habs]|(k' & v' & Hin & Hk & Hr0)]; cycle 1.
  { unfold is_null at 1. rewrite bool_decide_false by done. apply wpm_ret. simpl. split_and!; try done.
    left. split; [by exists (r, (k', v'))|done]. }
  simpl. destruct (rep_bucket _ _ _ _ R Hb) as (B1 & B2 & -> & Hi & _).
  destruct (table_rep_split _ _ _ _ R) as
    (Hc & Hnd & Hndb & Hnull & Hnode & Hpay & Hhash & Hkeys & Hdom & Howns).
  destruct (rep_size _ _ R) as [Hsz Hpos].
  set (Os := concat B1 ++ concat B2) in *.
  assert (concat (B1 ++ b :: B2) ≡ₚ b ++ Os) as HP.
  { rewrite concat_app. simpl. unfold Os. solve_Permutation. }
  apply wpm_bind. eapply (wpm_alloc_short _ 0); [done|done| |].
  2: { intros a Ha Hno. apply wpm_ret. simpl. split; [done|]. split; [done|]. split; [|right; by split].
       apply (rep_update s B1 b B2 b); try done; intros p Hp; apply Hnode;
         rewrite fmap_app, elem_of_app; by left. }
  intros p a Hp Hp0 Hpp Ha _ _. rewrite elem_of_list_to_set in Hp.
  unfold is_null. rewrite !(bool_decide_false (p = LNull)) by done.
  apply wpm_bind. eapply wpm_modify; [apply lookup_insert_eq|]. simpl. rewrite insert_insert_eq.
  apply wpm_bind. eapply wpm_modify; [apply lookup_insert_eq|]. simpl. rewrite insert_insert_eq.
  rewrite bucket_part, Hi by lia. apply wpm_bind.
  rewrite fmap_app, elem_of_app in Hp.
  assert (p ∉ part (length B1) :: b.*1) as Hpb.
  { rewrite not_elem_of_cons. split; [apply Hpp|tauto]. }
  eapply (link_front_wp _ _ b.*1); simpl; [by apply chain_insert_new|done|done|
    apply lookup_insert_eq|done|].
  intros m' Hc' [Hf1 Hf2]. apply wpm_ret. simpl. split; [done|]. split; [done|].
  rewrite (bool_decide_false (p = LNull)) by done.
  split; [|split; [done|]].
  { rewrite HP, fmap_app, elem_of_app. done. }
  assert (forall x, payloadof m' x = if decide (x = p) then Some (k, v) else payloadof (mem s) x) as Hpl.
  { intros x. rewrite Hf1. unfold payloadof. case_decide as E; [subst; by rewrite lookup_insert_eq|].
    by rewrite lookup_insert_ne. }
  exists b. split; [by apply list_lookup_middle|]. rewrite insert_app_r_alt, Nat.sub_diag by done. cbn [insert list_insert].
  apply (rep_update s B1 b B2 ((p, (k, v)) :: b)); try done.
  - simpl. intros x [Hx1 Hx2]%not_elem_of_cons. rewrite elem_of_app, elem_of_cons in Hx2.
    rewrite Hf2, lookup_insert_ne; [done|naive_solver|rewrite !elem_of_cons; naive_solver].
  - intros q kv [[= -> ->]|Hq]%elem_of_cons; [by rewrite Hpl, decide_True|].
    rewrite Hpl, decide_False; [by apply Hpay|]. intros ->.
    apply (list_elem_of_fmap_2 fst) in Hq. simpl in Hq. tauto.
  - simpl. apply list.NoDup_cons. split; [rewrite elem_of_app; tauto|done].
  - simpl. intros q [->|Hq]%elem_of_cons; [done|]. apply Hnode. rewrite fmap_app, elem_of_app. by left.
  - intros e [->|He]%elem_of_cons; [done|by apply Hhash].
  - intros e e'. fold Os. rewrite <- !app_comm_cons, !elem_of_cons, <- !HP.
    intros [->|He] [->|He'] Hke; simpl in Hke; [done| | |].
    + by apply cmp_eq_sym, (Habs e' He') in Hke.
    + by apply (Habs e He) in Hke.
    + apply (rep_keys _ _ R); done.
  - fold Os. rewrite <- app_comm_cons. simpl.
    assert (dom m' = dom (<[p := mkn LNull LNull NULL NULL]> (mem s))) as ->.
    { apply set_eq. intros x. rewrite !elem_of_dom. specialize (Hpl x). unfold payloadof in Hpl.
      destruct (decide (x = p)) as [->|]; [rewrite lookup_insert_eq|rewrite lookup_insert_ne by done];
        destruct (m' !! x) || idtac; destruct (m' !! p) || idtac; destruct (mem s !! x) || idtac;
        naive_solver. }
    rewrite dom_insert_L, Hdom. clear. set_solver.
Qed.

(** Erasing the key and the value of a node leaves its links. *)
Lemma erase_wp s p n (kf vf : bool) (k : HM unit) Q :
  mem s !! p = Some n ->
  (forall m' n', m' !! p = Some n' -> next n' = next n -> prev n' = prev n ->
     (forall a L z, chain (mem s) a L z -> chain m' a L z) -> dom m' = dom (mem s) ->
     (forall x, x <> p -> m' !! x = mem s !! x) ->
     wpm k (mkst m' (ar s) (fld s) (calls s ++ free_calls kf vf (p, (key n, value n)))) Q) ->
  wpm (erase_key p kf;; erase_value p vf;; k) s Q.
Proof.
  intros Ep HQ. unfold free_calls in HQ. simpl in HQ. apply wpm_bind.
  apply (wpm_mono _ _ (fun _ s1 => exists n1, mem s1 = <[p := n1]> (mem s) /\
    next n1 = next n /\ prev n1 = prev n /\ value n1 = value n /\ ar s1 = ar s /\ fld s1 = fld s /\
    calls s1 = calls s ++ (if key n =? NULL then [] else if kf then [FreeKey (key n)] else []))).
  { unfold erase_key. apply wpm_bind, (wpm_load _ n); [done|]. destruct (key n =? NULL).
    - apply wpm_ret. exists n. rewrite insert_id, app_nil_r by done. done.
    - apply wpm_bind. destruct kf; [apply wpm_called|apply wpm_ret]; (eapply wpm_modify; [done|]);
        eexists; split_and!; try done; simpl; by rewrite ?app_nil_r. }
  intros _ s1 (n1 & Em & Hn & Hp & Hv & Har & Hfl & Hcl). apply wpm_bind.
  apply (wpm_mono _ _ (fun _ s2 => exists n2, mem s2 = <[p := n2]> (mem s) /\
    next n2 = next n /\ prev n2 = prev n /\ ar s2 = ar s /\ fld s2 = fld s /\
    calls s2 = calls s1 ++ (if value n =? NULL then [] else if vf then [FreeValue (value n)] else []))).
  { unfold erase_value. apply wpm_bind, (wpm_load _ n1); [rewrite Em; apply lookup_insert_eq|].
    rewrite Hv. destruct (value n =? NULL).
    - apply wpm_ret. exists n1. rewrite app_nil_r. done.
    - apply wpm_bind. destruct vf; [apply wpm_called|apply wpm_ret];
        (eapply wpm_modify; [simpl; rewrite Em; apply lookup_insert_eq|]); simpl;
        rewrite Em, insert_insert_eq; eexists; split_and!; try done; simpl; by rewrite ?app_nil_r. }
  intros _ s2 (n2 & Em2 & Hn2 & Hp2 & Har2 & Hfl2 & Hcl2). rewrite Hcl, <- (assoc_L (++)) in Hcl2.
  destruct s2 as [m2 a2 f2 c2]. simpl in *. subst.
  apply (HQ _ n2); try done.
  - apply lookup_insert_eq.
  - intros a L z. by apply (chain_payload _ _ _ _ p n).
  - apply dom_insert_lookup_L. by exists n.
  - intros x Hx. by rewrite lookup_insert_ne.
Qed.

Lemma table_remove_wp s B1 b1 p kv b2 B2 (kf vf : bool) :
  rep s (B1 ++ (b1 ++ (p, kv) :: b2) :: B2) ->
  wpm (muggle_hash_table_remove p kf vf) s (fun _ s' =>
    rep s' (B1 ++ (b1 ++ b2) :: B2) /\ fld s' = fld s /\
    calls s' = calls s ++ free_calls kf vf (p, kv)).
Proof.
  intros R. destruct (table_rep_split _ _ _ _ R) as
    (Hc & Hnd & Hndb & Hnull & Hnode & Hpay & Hhash & Hkeys & Hdom & Howns).
  set (Os := concat B1 ++ concat B2) in *.
  rewrite !fmap_app, fmap_cons in Hc, Hndb, Hnull, Hnd. rewrite fmap_app in Hdom. simpl in *.
  assert ((p, kv) ∈ b1 ++ (p, kv) :: b2) as Hin by (apply elem_of_app; right; left).
  destruct (chain_payload_lookup _ _ p kv Hpay Hin) as (n & En & Hk & Hv).
  assert (forall i, p <> LPart i) as Hpp.
  { apply Hnode. rewrite fmap_app, elem_of_app. left. by apply (list_elem_of_fmap_2 fst) in Hin. }
  unfold muggle_hash_table_remove. apply (erase_wp _ _ n); [done|].
  rewrite Hk, Hv, <- surjective_pairing. intros m1 n1 En1 Hn1 Hp1 Hc1 Hdom1 Hoth1.
  apply wpm_bind, (wpm_load _ n1); [done|].
  assert (LNull ∉ b2.*1 /\ p ∉ b1.*1 ++ b2.*1 ++ Os.*1 /\ NoDup ((b1 ++ b2).*1 ++ Os.*1)) as (Hnull2 & Hpn & Hnd2).
  { split.
    - rewrite elem_of_app, elem_of_cons in Hnull. tauto.
    - rewrite <- (assoc_L (++)) in Hnd. simpl in Hnd. rewrite <- Permutation_middle in Hnd.
      apply list.NoDup_cons in Hnd as [Hnd1 Hnd2]. split; [done|]. by rewrite fmap_app, <- (assoc_L (++)). }
  assert (prev n1 <> LNull) as Hpr.
  { specialize (Hc1 _ _ _ Hc). apply dchain_app in Hc1 as (_ & Hpv & _).
    unfold prevof in Hpv. rewrite En1 in Hpv. injection Hpv as Hpv.
    change (node_prev n1 <> LNull). rewrite Hpv.
    pose proof (end_of_elem (part (length B1)) b1.*1) as He. intros E. rewrite E in He.
    apply elem_of_cons in He as [?|He]; [done|]. apply Hnull, elem_of_app. by left. }
  assert (is_null (node_prev n1) = false) as Hpr' by (by apply bool_decide_false).
  cbv zeta. rewrite Hpr'. apply wpm_bind, wpm_ret, wpm_bind.
  change (node_prev n1) with (prev n1). change (node_next n1) with (next n1).
  apply (unlink_open_wp _ (part (length B1)) b1.*1 p b2.*1 n1); simpl;
    [by apply Hc1|done|done|done|].
  intros m2 Hc2 Hf2. destruct (frames_lookup _ _ _ p n1 Hf2 En1) as (n2 & En2 & _).
  eapply wpm_dealloc; [done|done| |].
  { rewrite elem_of_list_to_set, fmap_app, elem_of_app. left.
    by apply (list_elem_of_fmap_2 fst) in Hin. }
  intros a Ha. simpl. split; [|done].
  assert (forall x, x <> p -> payloadof (delete p m2) x = payloadof (mem s) x) as Hpl.
  { intros x Hx. destruct Hf2 as [Hf2 _]. specialize (Hf2 x). unfold payloadof in *.
    rewrite lookup_delete_ne by done. by rewrite Hf2, Hoth1. }
  assert (forall e, e ∈ b1 ++ b2 -> e ∈ b1 ++ (p, kv) :: b2) as Hsub.
  { intros e. rewrite !elem_of_app, elem_of_cons. tauto. }
  apply (rep_update s B1 (b1 ++ (p, kv) :: b2) B2); fold Os; try done.
  - rewrite fmap_app. apply chain_delete; [|done]. rewrite not_elem_of_cons, !elem_of_app in *.
    split; [|tauto]. intros ->. apply list.NoDup_cons in Hndb as [Hndb _]. apply Hndb.
    apply elem_of_app. right; left.
  - intros x Hx. rewrite !fmap_app, fmap_cons, not_elem_of_cons, !elem_of_app, elem_of_cons in Hx.
    simpl in Hx. rewrite lookup_delete_ne by naive_solver. destruct Hf2 as [_ Hf2].
    rewrite Hf2, Hoth1; [done|naive_solver|]. rewrite not_elem_of_cons, elem_of_app. naive_solver.
  - intros q kv' Hq. rewrite Hpl; [by apply Hpay, Hsub|]. intros ->.
    apply (list_elem_of_fmap_2 fst) in Hq. rewrite fmap_app in Hq. simpl in Hq.
    rewrite !elem_of_app in *. tauto.
  - intros q Hq. apply Hnode. rewrite !fmap_app, fmap_cons, !elem_of_app, elem_of_cons in *. tauto.
  - intros e He. by apply Hhash, Hsub.
  - intros e e' He He'. apply Hkeys; rewrite elem_of_app in *; naive_solver.
  - rewrite dom_delete_L, (frames_dom _ _ _ Hf2), Hdom1, Hdom, length_app. simpl.
    apply set_eq. intros x.
    rewrite elem_of_difference, !elem_of_union, !elem_of_list_to_set, elem_of_singleton, !fmap_app,
      fmap_cons, !elem_of_app, elem_of_cons in *. simpl.
    split; [tauto|]. intros [Hx|Hx]; (split; [tauto|]); intros ->; [|tauto].
    apply list_elem_of_fmap in Hx as (i & Ei & _). by eapply Hpp.
  - eapply eq_ind; [done|]. apply set_eq. intros x.
    rewrite elem_of_difference, !elem_of_list_to_set, elem_of_singleton, !fmap_app, fmap_cons,
      !elem_of_app, elem_of_cons in *. simpl. split; [tauto|]. intros Hx; (split; [tauto|]).
    intros ->; tauto.
Qed.

Lemma clear_bucket (kf vf : bool) B1 B2 b : forall fuel s,
  rep s (B1 ++ b :: B2) -> (length b < fuel)%nat ->
  wpm (loopM fuel (clear_step kf vf) (default LNull (head b.*1))) s (fun _ s' =>
    rep s' (B1 ++ [] :: B2) /\ fld s' = fld s /\
    calls s' = calls s ++ mjoin (free_calls kf vf <$> b)).
Proof.
  induction b as [|[p kv] b IH]; intros [|fuel] s R Hf; simpl in *; try lia.
  - unfold wpm. simpl. by rewrite app_nil_r.
  - destruct (table_rep_split _ _ _ _ R) as (Hc & _ & _ & Hnull & _ & Hpay & _).
    apply not_elem_of_cons in Hnull as [Hp0 _]. simpl in Hp0.
    destruct Hc as (_ & _ & Hc). destruct (chain_first _ _ _ Hc) as (n & En & Hn).
    assert (wpm (clear_step kf vf p) s (fun r s' => r = inl (node_next n) /\
      rep s' (B1 ++ b :: B2) /\ fld s' = fld s /\
      calls s' = calls s ++ free_calls kf vf (p, kv))) as Hs.
    { unfold clear_step, is_null. rewrite bool_decide_false by done.
      apply wpm_bind, (wpm_load _ n); [done|]. apply wpm_bind.
      eapply wpm_mono; [by apply (table_remove_wp s B1 [] p kv b B2)|].
      intros _ s' (R' & Hfl & Hcl). by apply wpm_ret. }
    apply wpm_Done in Hs as (r & s' & E & -> & R' & Hfl & Hcl).
    unfold wpm. simpl. rewrite E, Hn. change (wpm (loopM fuel (clear_step kf vf)
      (default LNull (head b.*1))) s' (fun _ s' => rep s' (B1 ++ [] :: B2) /\ fld s' = fld s /\
      calls s' = calls s ++ free_calls kf vf (p, kv) ++ mjoin (free_calls kf vf <$> b))).
    eapply wpm_mono; [apply IH; [done|lia]|]. intros _ s2 (R2 & Hfl2 & Hcl2).
    split; [done|]. split; [congruence|]. by rewrite Hcl2, Hcl, <- (assoc_L (++)).
Qed.

Lemma table_clear_wp s B (kf vf : bool) :
  rep s B ->
  wpm (muggle_hash_table_clear kf vf) s (fun _ s' =>
    rep s' (replicate (length B) []) /\ fld s' = fld s /\
    calls s' = calls s ++ mjoin (free_calls kf vf <$> concat B)).
Proof.
  intros R. destruct (rep_size _ _ R) as [Hsz Hpos].
  unfold muggle_hash_table_clear. apply wpm_bind, wpm_get_fld.
  apply (wpm_for (fun i s' => rep s' (replicate (Z.to_nat i) [] ++ drop (Z.to_nat i) B) /\
    fld s' = fld s /\ calls s' = calls s ++ mjoin (free_calls kf vf <$> concat (take (Z.to_nat i) B)))).
  - simpl. by rewrite app_nil_r.
  - intros i s' Hi (R' & Hfl & Hcl). rewrite <- Hsz in Hi. unfold zlen in Hi.
    destruct (lookup_lt_is_Some_2 B (Z.to_nat i)) as [b Hb]; [lia|].
    rewrite (drop_S _ _ _ Hb) in R'. replace (Z.to_nat (i + 1)) with (S (Z.to_nat i)) by lia.
    destruct (table_rep_split _ _ _ _ R') as (Hc & _). rewrite length_replicate in Hc.
    unfold part in Hc. rewrite Z2Nat.id in Hc by lia.
    destruct (chain_first _ _ _ Hc) as (n & En & Hn).
    apply wpm_bind, (wpm_load _ n); [done|]. apply wpm_bind, wpm_count. rewrite Hn.
    eapply wpm_mono; [apply clear_bucket; [done|]|].
    { pose proof (count_entries _ _ R'). rewrite concat_app, length_app in *. simpl in *.
      rewrite length_app in *. lia. }
    intros _ s2 (R2 & Hfl2 & Hcl2). split; [|split; [congruence|]].
    + rewrite replicate_S_end, <- (assoc_L (++)). done.
    + rewrite Hcl2, Hcl, (take_S_r _ _ _ Hb), concat_app, fmap_app, join_app, (assoc_L (++)).
      simpl. by rewrite app_nil_r.
  - intros s' (R' & Hfl & Hcl). rewrite Z.max_r in * by lia. rewrite <- Hsz in *. unfold zlen in *.
    rewrite Nat2Z.id in *. rewrite drop_ge, app_nil_r in R' by lia.
    rewrite take_ge in Hcl by lia. done.
Qed.

Lemma concat_replicate_nil {A} n : concat (replicate n ([] : list A)) = [].
Proof. by induction n. Qed.

Lemma memset_loop (z : muggle_hash_table_node) n l Q :
  0 <= n -> zlen l = n -> Q (replicate (Z.to_nat n) z) ->
  wp (for_up 0 n (fun i l => aset l i z) l) Q.
Proof.
  intros Hn Hl HQ.
  apply (wp_for_up (fun i l => zlen l = n /\ forall j, 0 <= j < i -> l @@ j = Some z)).
  - split; [done|]. intros j ?. lia.
  - intros i l' Hi [Hl' Hz]. apply wp_aset; [lia|]. rewrite zlen_zinsert. split; [done|].
    intros j Hj. rewrite zlookup_zinsert by lia. case_decide; [done|]. apply Hz. lia.
  - intros l' [Hl' Hz]. rewrite Z.max_r in Hz by lia.
    replace l' with (replicate (Z.to_nat n) z); [done|].
    assert (zlen (replicate (Z.to_nat n) z) = n) as Hr
      by (unfold zlen; rewrite length_replicate; lia).
    apply zlookup_ext; [lia|]. intros i Hi. rewrite Hr in Hi.
    rewrite Hz, zlookup_nonneg, lookup_replicate_2 by lia. done.
Qed.

Lemma buckets_mem_lookup (l : list muggle_hash_table_node) i : buckets_mem l !! part i = l !! i.
Proof.
  unfold buckets_mem. destruct (l !! i) as [n|] eqn:E.
  - apply elem_of_list_to_map_1'.
    + intros n' (j & Hj)%list_elem_of_lookup. rewrite list_lookup_imap in Hj.
      destruct (l !! j) eqn:Ej; [|done]. simpl in Hj. injection Hj as Hj <-.
      unfold part in Hj. assert (j = i) as -> by lia. congruence.
    + apply list_elem_of_lookup. exists i. rewrite list_lookup_imap, E. done.
  - apply not_elem_of_list_to_map_1. intros ((p & n) & Hp & Hin)%list_elem_of_fmap.
    simpl in Hp. subst p. apply list_elem_of_lookup in Hin as (j & Hj).
    rewrite list_lookup_imap in Hj. destruct (l !! j) eqn:Ej; [|done]. simpl in Hj.
    injection Hj as Hj _. unfold part in Hj. assert (j = i) as -> by lia. congruence.
Qed.

Lemma buckets_mem_dom (l : list muggle_hash_table_node) :
  dom (buckets_mem l) = list_to_set (part <$> seq 0 (length l)).
Proof.
  unfold buckets_mem. rewrite dom_list_to_map_L, fmap_imap. f_equal.
  apply list_eq. intros i. rewrite list_lookup_imap, list_lookup_fmap.
  destruct (decide (i < length l)%nat) as [Hi|Hi].
  - destruct (lookup_lt_is_Some_2 l i Hi) as [n ->]. by rewrite lookup_seq_lt.
  - rewrite lookup_ge_None_2, lookup_seq_ge by lia. done.
Qed.

(** A new table is empty. *)
Lemma hash_table_init_rep str_at n hf cf capacity h s :
  0 <= n -> sizeof_node * n < 2 ^ 64 -> 0 <= capacity < 2 ^ 32 -> sizeof_node * capacity < 2 ^ 32 ->
  muggle_hash_table_init str_at n hf (Some cf) capacity h = Done (Some s) ->
  holds s [] /\ calls s = [] /\ cmp (fld s) = cf /\
  table_size (fld s) = if n <? 8 then HASH_TABLE_SIZE_10007 else n.
Proof.
  intros Hn Hm Hcap Hcm. unfold muggle_hash_table_init. unfold sizeof_node in *.
  destruct (init_pool capacity 32) as [[p|]| |] eqn:Ep; [|done..]. simpl.
  set (n' := if n <? 8 then HASH_TABLE_SIZE_10007 else n).
  assert (0 < n' /\ 32 * n' < 2 ^ 64) as [Hn' Hm'].
  { unfold n', HASH_TABLE_SIZE_10007. destruct (Z.ltb_spec n 8); lia. }
  destruct (malloc_array 32 n') as [nodes|] eqn:Ea; [|done].
  apply malloc_array_len in Ea; [|lia..].
  pose proof (memset_loop (mkn LNull LNull NULL NULL) n' nodes
    (fun l => l = replicate (Z.to_nat n') (mkn LNull LNull NULL NULL)) ltac:(lia) Ea eq_refl) as Hl.
  apply wp_Done in Hl as (l & El & ->). rewrite El. simpl. intros [= <-]. simpl.
  split; [|done]. exists (replicate (Z.to_nat n') []). rewrite concat_replicate_nil. split; [|done].
  split; simpl; rewrite ?concat_replicate_nil; simpl; try done.
  - unfold zlen. rewrite length_replicate. lia.
  - intros i b [-> Hi]%lookup_replicate. unfold chain. simpl. unfold nextof.
    rewrite buckets_mem_lookup, lookup_replicate_2 by done. done.
  - constructor.
  - by intros p' ?%elem_of_nil.
  - by intros p' kv ?%elem_of_nil.
  - intros i b e [-> _]%lookup_replicate He. by apply elem_of_nil in He.
  - by intros e e' ?%elem_of_nil.
  - rewrite buckets_mem_dom, !length_replicate. set_solver.
  - apply (init_pool_owns capacity 32); done || lia.
Qed.

Lemma rep_holds s B : rep s B -> holds s (concat B).
Proof. intros R. by exists B. Qed.

Lemma table_find_wp s E k `{!HashKeys (fld s)} :
  holds s E ->
  exists r, muggle_hash_table_find k s = Done (r, s) /\
    ((r = LNull /\ forall e, e ∈ E -> cmp (fld s) e.2.1 k <> 0) \/
     (exists k' v, (r, (k', v)) ∈ E /\ cmp (fld s) k' k = 0 /\ r <> LNull)).
Proof.
  intros (B & R & HE). destruct (find_in_bucket s B k R) as (b & n & Hb & En & r & Hl & Hr).
  exists r. split.
  - unfold muggle_hash_table_find, mbind, M_bind, get_fld, load. rewrite En. simpl. done.
  - setoid_rewrite <- HE. done.
Qed.

Lemma holds_keys s E e e' :
  holds s E -> e ∈ E -> e' ∈ E -> cmp (fld s) e.2.1 e'.2.1 = 0 -> e = e'.
Proof. intros (B & R & <-). apply (rep_keys _ _ R). Qed.

(** Find returns the node of the key, and NULL when no entry has the key; it
    ends and changes nothing. *)
Theorem hash_table_find_spec s E k `{!HashKeys (fld s)} :
  holds s E ->
  exists r, muggle_hash_table_find k s = Done (r, s) /\
    ((r = LNull /\ forall e, e ∈ E -> cmp (fld s) e.2.1 k <> 0) \/
     (exists k' v, (r, (k', v)) ∈ E /\ cmp (fld s) k' k = 0 /\ r <> LNull)).
Proof. by apply table_find_wp. Qed.

(** C15: put on a table with the buckets [B] puts the key and value in a new node
    in front of the chain of the bucket of the key, leaves the other chains, and
    find then returns that node.  It succeeds whenever no entry has the key and a
    node can be allocated: it returns NULL only when an entry has the key, and then
    nothing at all changes, or when malloc (or the pool) refuses the node, and then
    every chain is kept. *)
Theorem hash_table_put_spec raw s B k v `{!HashKeys (fld s)} :
  rep s B -> arena_room (ar s) ->
  exists r s', muggle_hash_table_put raw k v s = Done (r, s') /\ calls s' = calls s /\
    if is_null r then rep s' B /\ put_refused s B k s'
    else r ∉ (concat B).*1 /\ (forall e, e ∈ concat B -> cmp (fld s) e.2.1 k <> 0) /\
         (exists b, B !! bucket_no (fld s) k = Some b /\
            rep s' (<[bucket_no (fld s) k := (r, (k, v)) :: b]> B)) /\
         (cmp (fld s) k k = 0 -> muggle_hash_table_find k s' = Done (r, s')).
Proof.
  intros R Hroom.
  pose proof (put_wp raw s B k v R Hroom) as (r & s' & Ep & Hcl & Hfl & Hr)%wpm_Done.
  exists r, s'. split; [done|]. split; [done|]. destruct (is_null r); [done|].
  destruct Hr as (Hr & Hk & b & Hb & R'). split_and!; [done|done|by exists b|]. intros Hkk.
  assert (HashKeys (fld s')) by (by rewrite Hfl).
  assert ((r, (k, v)) ∈ concat (<[bucket_no (fld s) k := (r, (k, v)) :: b]> B)) as Hin.
  { apply list_elem_of_In, in_concat. exists ((r, (k, v)) :: b). split; apply list_elem_of_In; [|left].
    eapply list_elem_of_lookup_2, list_lookup_insert_eq. by eapply lookup_lt_Some. }
  destruct (table_find_wp s' _ k (rep_holds _ _ R')) as (r' & -> & [[-> Habs]|(k' & v' & Hin' & Hk' & _)]).
  - exfalso. apply (Habs _ Hin). by rewrite Hfl.
  - by assert ((r', (k', v')) = (r, (k, v))) as [= -> _ _] by (by apply (rep_keys _ _ R')).
Qed.

(** C23: remove takes exactly the entry of the node out, and clear all of them;
    non-NULL keys and values go to the callbacks.  Both end. *)
Theorem hash_table_remove_spec s E p kv (kf vf : bool) :
  holds s ((p, kv) :: E) ->
  (exists s', muggle_hash_table_remove p kf vf s = Done (tt, s') /\ holds s' E /\
     calls s' = calls s ++ free_calls kf vf (p, kv)) /\
  (exists s' cs, muggle_hash_table_clear kf vf s = Done (tt, s') /\ holds s' [] /\
     calls s' = calls s ++ cs /\ cs ≡ₚ mjoin (free_calls kf vf <$> (p, kv) :: E)).
Proof.
  intros (B & R & HE). split.
  - assert ((p, kv) ∈ concat B) as Hin by (rewrite HE; left).
    apply list_elem_of_In, in_concat in Hin as (b & Hb & Hp). apply list_elem_of_In in Hb, Hp.
    apply list_elem_of_split in Hb as (B1 & B2 & ->). apply list_elem_of_split in Hp as (b1 & b2 & ->).
    pose proof (table_remove_wp _ _ _ _ _ _ _ kf vf R) as ([] & s' & Er & R' & _ & Hcl)%wpm_Done.
    exists s'. split; [done|]. split; [|done]. eexists. split; [done|].
    rewrite concat_app in *. simpl in *. apply (Permutation_cons_inv (a := (p, kv))).
    rewrite <- HE. solve_Permutation.
  - pose proof (table_clear_wp _ _ kf vf R) as ([] & s' & Ec & R' & _ & Hcl)%wpm_Done.
    exists s', (mjoin (free_calls kf vf <$> concat B)). split; [done|]. split; [|split; [done|]].
    + eexists. split; [done|]. by rewrite concat_replicate_nil.
    + by rewrite HE.
Qed.
End proofs.

(** ** Witnesses: a table of 8 buckets with two entries of one bucket. *)
Definition heap3 : NodeMalloc (gset Z) := bounded_malloc 3.
Definition zero_node : muggle_hash_table_node := mkn LNull LNull NULL NULL.
Definition sample_fld : muggle_hash_table := mk 8 (fun k => k) cmp_addr.
Definition sample : table (gset Z) :=
  mkst (<[part 1 := mkn LNull (LHeap 1) NULL NULL]>
       (<[LHeap 1 := mkn (part 1) (LHeap 2) 9 90]>
       (<[LHeap 2 := mkn (LHeap 1) LNull 17 170]> (buckets_mem (replicate 8 zero_node)))))
       (mka None {[1; 2]}) sample_fld [].
Definition sample_buckets : list (list entry) :=
  [[]; [(LHeap 1, (9, 90)); (LHeap 2, (17, 170))]; []; []; []; []; []; []].

#[export] Instance sample_keys : HashKeys sample_fld.
Proof. split; unfold sample_fld, cmp_addr; simpl; intros; lia. Qed.

Lemma hash_sample_rep : @rep _ heap3 sample sample_buckets.
Proof.
  split; try done.
  - intros i b Hi. repeat (destruct i as [|i]; [injection Hi as <-; done|]). done.
  - by apply (bool_decide_eq_true_1 (NoDup _)).
  - simpl. intros p [->|[->|?%elem_of_nil]%elem_of_cons]%elem_of_cons; done.
  - simpl. intros p kv [[= -> ->]|[[= -> ->]|?%elem_of_nil]%elem_of_cons]%elem_of_cons; done.
  - intros i b e Hi. repeat (destruct i as [|i]; [injection Hi as <-; intros He;
      repeat (apply elem_of_cons in He as [->|He]; [done|]); by apply elem_of_nil in He|]). done.
  - simpl. intros e e' [->|[->|?%elem_of_nil]%elem_of_cons]%elem_of_cons
      [->|[->|?%elem_of_nil]%elem_of_cons]%elem_of_cons; done.
  - intros p. simpl. rewrite !elem_of_union, !elem_of_singleton, elem_of_empty.
    intros [->|[->|[]]]; eexists; split; done || set_solver.
Qed.

Lemma hash_sample_holds : @holds _ heap3 sample [(LHeap 1, (9, 90)); (LHeap 2, (17, 170))].
Proof. exists sample_buckets. split; [apply hash_sample_rep|done]. Qed.

Lemma hash_table_find_spec_witness :
  exists r, muggle_hash_table_find 17 sample = Done (r, sample) /\
    ((r = LNull /\ forall e, e ∈ [(LHeap 1, (9, 90)); (LHeap 2, (17, 170))] ->
        cmp (fld sample) e.2.1 17 <> 0) \/
     (exists k' v, (r, (k', v)) ∈ [(LHeap 1, (9, 90)); (LHeap 2, (17, 170))] /\
        cmp (fld sample) k' 17 = 0 /\ r <> LNull)).
Proof. apply (@hash_table_find_spec _ heap3); [apply sample_keys|apply hash_sample_holds]. Defined.

(** Key 25 is of the same bucket, it is not there and there is room for a node. *)
Lemma hash_table_put_spec_witness :
  exists s', @muggle_hash_table_put _ heap3 (malloc_zeroed []) (malloc_zeroed (MemoryPool.blk 0 0))
      (malloc_zeroed 0) zero_node 25 250 sample = Done (LHeap 3, s') /\
    @rep _ heap3 s' [[]; [(LHeap 3, (25, 250)); (LHeap 1, (9, 90)); (LHeap 2, (17, 170))]; []; []; []; []; []; []].
Proof.
  destruct (@hash_table_put_spec _ heap3 (malloc_zeroed []) (malloc_zeroed (MemoryPool.blk 0 0)) (malloc_zeroed 0)
    zero_node sample sample_buckets 25 250 sample_keys hash_sample_rep I) as (r & s' & E & _ & Hr).
  assert (r = LHeap 3) as -> by (vm_compute in E; congruence).
  exists s'. split; [exact E|]. destruct Hr as (_ & _ & (b & [= <-] & R) & _). exact R.
Defined.

Lemma hash_table_remove_spec_witness :
  (exists s', @muggle_hash_table_remove _ heap3 (LHeap 1) true true sample = Done (tt, s') /\
     @holds _ heap3 s' [(LHeap 2, (17, 170))] /\ calls s' = [FreeKey 9; FreeValue 90]) /\
  (exists s' cs, @muggle_hash_table_clear _ heap3 true true sample = Done (tt, s') /\
     @holds _ heap3 s' [] /\ calls s' = [] ++ cs /\
     cs ≡ₚ [FreeKey 9; FreeValue 90; FreeKey 17; FreeValue 170]).
Proof.
  apply (hash_table_remove_spec sample [(LHeap 2, (17, 170))] (LHeap 1) (9, 90) true true),
    hash_sample_holds.
Defined.
End HashTable.
