(* ===== verification/Trie.v ===== *)
(** muggle/c/dsaa/trie.{h,c}: a trie over C strings with 256 children per node.
    The nodes of the trie are its paths; the trie refines a map from strings to
    values, NULL where nothing was put. *)

From stdpp Require Import base gmap sets list numbers.
From Stdlib Require Import ZArith Lia.
From S2P Require Import Prelude Dsaa MemoryPool NodeMem.
Import MemoryPool(block, muggle_memory_pool).

Open Scope Z_scope.

Module Trie.

Definition MUGGLE_TRIE_CHILDREN_SIZE : Z := 256.

Record muggle_trie_node := mkn { children : list loc; data : ptr }.

Definition set_child (i : Z) (c : loc) (n : muggle_trie_node) : muggle_trie_node :=
  mkn (zinsert i c (children n)) (data n).
Definition set_data (d : ptr) (n : muggle_trie_node) : muggle_trie_node :=
  mkn (children n) d.

(** A node cleared by [memset]. *)
Definition zero_node : muggle_trie_node :=
  mkn (replicate (Z.to_nat MUGGLE_TRIE_CHILDREN_SIZE) LNull) NULL.

(** [sizeof(muggle_trie_node_t)]. *)
Definition sizeof_node : Z := 2056.

(** [&p_trie->root]. *)
Definition ROOT : loc := LPart 0.

Section ops.
Context {H : Type} `{!NodeMalloc H}.
Context `{Malloc (list Z)} `{Malloc block} `{Malloc Z} `{Malloc muggle_memory_pool}.
(** What a new block holds. *)
Context (raw : muggle_trie_node).

Definition muggle_trie : Type := st H muggle_trie_node unit.
Definition TM (A : Type) : Type := M H muggle_trie_node unit A.

(** [node->children[c]] for a [char] c, which is signed. *)
Definition get_child (node : loc) (c : Z) : TM loc :=
  n ← load node;
  lift (aget (children n) (swrap 8 c)).

(** [node->children[c] = child]. *)
Definition put_child (node : loc) (c : Z) (child : loc) : TM unit :=
  n ← load node;
  l ← lift (aset (children n) (swrap 8 c) child);
  modify node (fun n => mkn l (data n)).

Definition muggle_trie_allocate_node : TM loc :=
  node ← alloc raw;
  if is_null node then mret node
  else modify node (fun _ => zero_node);; mret node.

Definition muggle_trie_init (capacity : Z) (h : H) : outcome (option muggle_trie) :=
  r ← init_pool capacity sizeof_node;
  match (r : option (option muggle_memory_pool)) with
  | None => mret None
  | Some p => mret (Some (mkst {[ROOT := zero_node]} (mka p h) tt []))
  end.

(** Keys are the characters of a C string, without the final NUL. *)
Fixpoint find_walk (node : loc) (key : list Z) : TM loc :=
  match key with
  | [] => mret node
  | c :: key' =>
      child ← get_child node c;
      if is_null child then mret child else find_walk child key'
  end.

Definition muggle_trie_find (key : list Z) : TM loc :=
  match key with
  | [] => get_child ROOT 0
  | _ => find_walk ROOT key
  end.

(** The loop of insert; [None] is its [return NULL]. *)
Fixpoint insert_walk (node child : loc) (key : list Z) : TM (option loc) :=
  match key with
  | [] => mret (Some child)
  | c :: key' =>
      child ← get_child node c;
      if is_null child then
        child ← muggle_trie_allocate_node;
        if is_null child then mret None
        else put_child node c child;; insert_walk child child key'
      else insert_walk child child key'
  end.

Definition muggle_trie_insert (key : list Z) (value : ptr) : TM loc :=
  child ← match key with
          | [] => get_child ROOT 0
          | _ => mret LNull
          end;
  if bool_decide (key = []) && is_null child then
    child ← muggle_trie_allocate_node;
    if is_null child then mret LNull
    else
      modify child (set_data value);;
      put_child ROOT 0 child;;
      mret child
  else
    r ← insert_walk ROOT child key;
    match r with
    | None => mret LNull
    | Some child =>
        (if is_null child then mret tt else modify child (set_data value));;
        mret child
    end.

Definition muggle_trie_remove (key : list Z) (func_free : bool) : TM bool :=
  node ← muggle_trie_find key;
  if is_null node then mret false
  else
    n ← load node;
    (if func_free then called [FreeData (data n)] else mret tt);;
    modify node (set_data NULL);;
    mret true.

(** The recursion ends after as many levels as there are nodes. *)
Fixpoint muggle_trie_erase_node (fuel : nat) (node : loc) (func_free : bool) : TM unit :=
  match fuel with
  | O => fun _ => NoFuel
  | S fuel' =>
      forM 0 MUGGLE_TRIE_CHILDREN_SIZE (fun i =>
        n ← load node;
        child ← lift (aget (children n) i);
        (if is_null child then mret tt else muggle_trie_erase_node fuel' child func_free);;
        n ← load node;
        if data n =? NULL then mret tt
        else (if func_free then called [FreeData (data n)] else mret tt);;
             modify node (set_data NULL));;
      dealloc node
  end.

Definition muggle_trie_destroy (func_free : bool) : TM unit :=
  c ← count;
  forM 0 MUGGLE_TRIE_CHILDREN_SIZE (fun i =>
    n ← load ROOT;
    child ← lift (aget (children n) i);
    if is_null child then mret tt else muggle_trie_erase_node c child func_free);;
  destroy_pool.

(** ** Specification *)

(** [T] gives the node of each path.  A path is a sequence of child indices. *)
Record rep (s : muggle_trie) (T : gmap (list Z) loc) : Prop := {
  rep_root : T !! [] = Some ROOT;
  rep_node : forall w p, T !! w = Some p -> exists n, mem s !! p = Some n /\
    zlen (children n) = 256 /\
    forall c, 0 <= c < 256 -> children n @@ c = Some (default LNull (T !! (w ++ [c])));
  rep_inj : forall w w' p, T !! w = Some p -> T !! w' = Some p -> w = w';
  rep_loc : forall w p, T !! w = Some p -> p <> LNull /\ (w <> [] -> forall i, p <> LPart i);
  rep_closed : forall w c p, T !! (w ++ [c]) = Some p -> is_Some (T !! w) /\ 0 <= c < 256;
  rep_dom : forall p, p ∈ dom (mem s) <-> exists w, T !! w = Some p;
  rep_owns : exists out, arena_owns (ar s) out /\
    forall p, p ∈ out <-> p <> ROOT /\ p ∈ dom (mem s)
}.

(** The path of a key: the empty string is kept at the child of index 0. *)
Definition path (key : list Z) : list Z := match key with [] => [0] | _ => key end.

(** Strings whose characters are positive [char]s: the code indexes the children
    with the character, so that other bytes are outside the array. *)
Definition ascii (key : list Z) : Prop := Forall (fun c => 0 < c < 128) key.

(** The value under a path. *)
Definition value_at (s : muggle_trie) (T : gmap (list Z) loc) (w : list Z) : ptr :=
  match T !! w with
  | Some p => match mem s !! p with Some n => data n | None => NULL end
  | None => NULL
  end.
End ops.
#[global] Arguments muggle_trie H : clear implicits.

Section proofs.
Context {H : Type} `{!NodeMalloc H}.
Context `{Malloc (list Z)} `{Malloc block} `{Malloc Z} `{Malloc muggle_memory_pool}.
Implicit Types (s : muggle_trie H) (T : gmap (list Z) loc) (w key : list Z).

Lemma closed_app s T w u p : rep s T -> T !! (w ++ u) = Some p -> is_Some (T !! w).
Proof.
  intros R. revert p. induction u as [|c u IH] using rev_ind; intros p Hp.
  - rewrite app_nil_r in Hp. by exists p.
  - rewrite (assoc_L (++)) in Hp. destruct (rep_closed _ _ R _ _ _ Hp) as [[q Hq] _]. eauto.
Qed.

Lemma get_child_wp s T w p c Q :
  rep s T -> T !! w = Some p -> 0 <= c < 128 -> Q (default LNull (T !! (w ++ [c]))) s ->
  wpm (get_child p c) s Q.
Proof.
  intros R Hp Hc HQ. destruct (rep_node _ _ R _ _ Hp) as (n & En & Hlen & Hch).
  unfold get_child. apply wpm_bind, (wpm_load _ n); [done|]. apply wpm_lift.
  rewrite swrap_small, (aget_Some _ _ _ (Hch c ltac:(lia))) by lia. done.
Qed.

Lemma child_null s T w : rep s T -> is_null (default LNull (T !! w)) = bool_decide (T !! w = None).
Proof.
  intros R. unfold is_null. apply bool_decide_ext. destruct (T !! w) as [p|] eqn:E; simpl; [|done].
  split; [|done]. intros ->. by destruct (rep_loc _ _ R w LNull E).
Qed.

Lemma find_walk_spec s T key : forall w p,
  rep s T -> T !! w = Some p -> ascii key ->
  find_walk p key s = Done (default LNull (T !! (w ++ key)), s).
Proof.
  induction key as [|c key IH]; intros w p R Hp Hk; simpl.
  - rewrite app_nil_r, Hp. done.
  - apply list.Forall_cons in Hk as [Hc Hk].
    pose proof (get_child_wp s T w p c (fun r s' => r = default LNull (T !! (w ++ [c])) /\ s' = s)
      R Hp ltac:(lia) ltac:(done)) as (r & s' & E & -> & ->)%wpm_Done.
    unfold mbind, M_bind. rewrite E, (child_null s) by done.
    replace (w ++ c :: key) with ((w ++ [c]) ++ key) by (by rewrite <- (assoc_L (++))).
    destruct (T !! (w ++ [c])) as [q|] eqn:Eq; simpl.
    + by apply IH.
    + destruct (T !! ((w ++ [c]) ++ key)) as [q|] eqn:Eq'; [|done].
      destruct (closed_app _ _ _ _ _ R Eq') as [q' Hq']. congruence.
Qed.

Lemma find_spec s T key :
  rep s T -> ascii key ->
  muggle_trie_find key s = Done (default LNull (T !! path key), s).
Proof.
  intros R Hk. destruct key as [|c key]; simpl.
  - pose proof (get_child_wp s T [] ROOT 0 (fun r s' => r = default LNull (T !! [0]) /\ s' = s)
      R (rep_root _ _ R) ltac:(lia) ltac:(done)) as (r & s' & E & -> & ->)%wpm_Done. done.
  - apply (find_walk_spec s T (c :: key) [] ROOT R (rep_root _ _ R) Hk).
Qed.

(** Adding a node for a path whose parent is there. *)
Lemma rep_extend s T w p c q n nq a cs :
  rep s T -> T !! w = Some p -> T !! (w ++ [c]) = None -> 0 <= c < 256 -> mem s !! p = Some n ->
  q ∉ dom (mem s) -> q <> LNull -> (forall i, q <> LPart i) ->
  children nq = children zero_node ->
  (exists out, arena_owns a out /\ forall x, x ∈ out <-> x = q \/ x <> ROOT /\ x ∈ dom (mem s)) ->
  rep (mkst (<[p := set_child c q n]> (<[q := nq]> (mem s))) a tt cs) (<[w ++ [c] := q]> T).
Proof.
  intros R Hp Hnone Hc En Hq Hq0 Hqp Hnq (out & Ho & Hout).
  assert (forall u x, T !! u = Some x -> x <> q) as Hfresh.
  { intros u x Hu ->. apply Hq, (rep_dom _ _ R). by exists u. }
  assert (p <> q) as Hpq by (by eapply Hfresh).
  assert (forall c', T !! ((w ++ [c]) ++ [c']) = None) as Hleaf.
  { intros c'. destruct (T !! ((w ++ [c]) ++ [c'])) eqn:E; [|done].
    apply (rep_closed _ _ R) in E as [[? E] _]. congruence. }
  assert (w <> w ++ [c]) as Hww.
  { intros E. apply (f_equal length) in E. rewrite length_app in E. simpl in E. lia. }
  split; simpl.
  - rewrite lookup_insert_ne; [apply (rep_root _ _ R)|]. by destruct w.
  - intros u x. destruct (decide (u = w ++ [c])) as [->|Hu].
    + rewrite lookup_insert_eq. intros [= <-]. exists nq.
      rewrite lookup_insert_ne, lookup_insert_eq, Hnq by done. split; [done|]. split; [done|].
      intros c' Hc'. rewrite lookup_insert_ne, Hleaf; cycle 1.
      { intros E. apply (f_equal length) in E. rewrite !length_app in E. simpl in E. lia. }
      rewrite zlookup_nonneg by lia. unfold zero_node. cbn [children default].
      rewrite lookup_replicate_2; [done|]. unfold MUGGLE_TRIE_CHILDREN_SIZE. lia.
    + rewrite lookup_insert_ne by done. intros Hx. pose proof (Hfresh _ _ Hx).
      destruct (rep_node _ _ R _ _ Hx) as (nx & Enx & Hlen & Hch).
      destruct (decide (x = p)) as [->|Hxp].
      * assert (u = w) as -> by (by apply (rep_inj _ _ R u w p)). rewrite En in Enx. injection Enx as <-.
        exists (set_child c q n). rewrite lookup_insert_eq. split; [done|]. simpl.
        rewrite zlen_zinsert. split; [done|]. intros c' Hc'.
        rewrite zlookup_zinsert by lia. case_decide as E; [subst; by rewrite lookup_insert_eq|].
        rewrite lookup_insert_ne; [by apply Hch|]. intros E'. apply (inj (w ++.)) in E'. congruence.
      * exists nx. rewrite !lookup_insert_ne by done. split; [done|]. split; [done|].
        intros c' Hc'. rewrite lookup_insert_ne; [by apply Hch|]. intros E.
        apply app_inj_2 in E as [-> _]; [|done]. congruence.
  - intros u u' x. destruct (decide (u = w ++ [c])) as [->|Hu], (decide (u' = w ++ [c])) as [->|Hu'];
      rewrite ?lookup_insert_eq, ?lookup_insert_ne by done; try done.
    + intros [= <-] Hx. by destruct (Hfresh _ _ Hx).
    + intros Hx [= <-]. by destruct (Hfresh _ _ Hx).
    + apply (rep_inj _ _ R).
  - intros u x. destruct (decide (u = w ++ [c])) as [->|Hu].
    + rewrite lookup_insert_eq. by intros [= <-].
    + rewrite lookup_insert_ne by done. apply (rep_loc _ _ R).
  - intros u c' x. destruct (decide (u ++ [c'] = w ++ [c])) as [E|Hu].
    + apply app_inj_2 in E as [-> [= ->]]; [|done]. intros _. split; [|done].
      rewrite lookup_insert_ne by done. by exists p.
    + rewrite lookup_insert_ne by done. intros [[y Hy] ?]%(rep_closed _ _ R). split; [|done].
      destruct (decide (u = w ++ [c])) as [->|]; [by rewrite lookup_insert_eq|].
      rewrite lookup_insert_ne by done. by exists y.
  - intros x. rewrite !dom_insert, !elem_of_union, !elem_of_singleton, (rep_dom _ _ R). split.
    + intros [->|[->|(u & Hu)]].
      * exists w. by rewrite lookup_insert_ne.
      * exists (w ++ [c]). by rewrite lookup_insert_eq.
      * exists u. rewrite lookup_insert_ne; [done|]. intros <-. congruence.
    + intros (u & Hu). destruct (decide (u = w ++ [c])) as [->|].
      * rewrite lookup_insert_eq in Hu. injection Hu as <-. tauto.
      * rewrite lookup_insert_ne in Hu by done. right; right. by exists u.
  - exists out. split; [done|]. intros x. rewrite Hout, !dom_insert, !elem_of_union, !elem_of_singleton.
    assert (p ∈ dom (mem s)) by (by apply elem_of_dom). split.
    + intros [->|[? ?]]; [split; [apply Hqp|tauto]|tauto].
    + intros [? [->|[->|?]]]; tauto.
Qed.

(** The values after adding a node without data, or changing a node's data. *)
Lemma value_at_extend s T w p c q n nq (a : arena H) cs u :
  rep s T -> T !! w = Some p -> T !! (w ++ [c]) = None -> mem s !! p = Some n ->
  q ∉ dom (mem s) ->
  value_at (mkst (<[p := set_child c q n]> (<[q := nq]> (mem s))) a tt cs) (<[w ++ [c] := q]> T) u =
    if decide (u = w ++ [c]) then data nq else value_at s T u.
Proof.
  intros R Hp Hnone En Hq. unfold value_at. simpl.
  assert (p ∈ dom (mem s)) by (by apply elem_of_dom).
  case_decide as E.
  - subst u. rewrite lookup_insert_eq, lookup_insert_ne, lookup_insert_eq by (intros ->; done). done.
  - rewrite lookup_insert_ne by done. destruct (T !! u) as [x|] eqn:Ex; [|done].
    assert (x <> q). { intros ->. apply Hq, (rep_dom _ _ R). by exists u. }
    destruct (decide (x = p)) as [->|].
    + by rewrite lookup_insert_eq, En.
    + by rewrite !lookup_insert_ne.
Qed.

Lemma rep_set_data s T p n d cs :
  rep s T -> mem s !! p = Some n ->
  rep (mkst (<[p := set_data d n]> (mem s)) (ar s) tt cs) T.
Proof.
  intros [] En.
  assert (dom (<[p := set_data d n]> (mem s)) = dom (mem s)) as Hd
    by (apply dom_insert_lookup_L; by exists n).
  split; simpl; rewrite ?Hd; try done.
  intros w x Hx. destruct (rep_node0 _ _ Hx) as (nx & Enx & Hlen & Hch).
  destruct (decide (x = p)) as [->|].
  - exists (set_data d n). rewrite lookup_insert_eq. rewrite En in Enx. by injection Enx as ->.
  - exists nx. by rewrite lookup_insert_ne.
Qed.

Lemma value_at_set_data s T w p n d cs u :
  rep s T -> T !! w = Some p -> mem s !! p = Some n ->
  value_at (mkst (<[p := set_data d n]> (mem s)) (ar s) tt cs) T u =
    if decide (u = w) then d else value_at s T u.
Proof.
  intros R Hp En. unfold value_at. simpl. case_decide as E.
  - subst u. by rewrite Hp, lookup_insert_eq.
  - destruct (T !! u) as [x|] eqn:Ex; [|done]. rewrite lookup_insert_ne; [done|].
    intros <-. apply E. by apply (rep_inj _ _ R u w p).
Qed.

Lemma put_child_wp s p c q n Q :
  mem s !! p = Some n -> zlen (children n) = 256 -> 0 <= c < 128 ->
  Q tt (mkst (<[p := set_child c q n]> (mem s)) (ar s) (fld s) (calls s)) ->
  wpm (put_child p c q) s Q.
Proof.
  intros En Hlen Hc HQ. unfold put_child. apply wpm_bind, (wpm_load _ n); [done|].
  apply wpm_bind, wpm_lift. rewrite swrap_small, aset_zinsert by lia. simpl.
  by eapply wpm_modify.
Qed.

(** Taking a new node, with what the following steps need of it. *)
Lemma trie_allocate_wp raw k s T Q :
  rep s T -> arena_rooms (ar s) (S k) ->
  (forall q a, q ∉ dom (mem s) -> q <> LNull -> (forall i, q <> LPart i) -> arena_rooms a k ->
     new_node (ar s) = Done (Some q, a) ->
     (exists out, arena_owns a out /\ forall x, x ∈ out <-> x = q \/ x <> ROOT /\ x ∈ dom (mem s)) ->
     Q q (mkst (<[q := zero_node]> (mem s)) a tt (calls s))) ->
  (forall a, no_node (ar s) -> rep (mkst (mem s) a tt (calls s)) T -> Q LNull (mkst (mem s) a tt (calls s))) ->
  wpm (muggle_trie_allocate_node raw) s Q.
Proof.
  intros R Hr Hs Hf. destruct (rep_owns _ _ R) as (out & Ho & Hout).
  unfold muggle_trie_allocate_node. apply wpm_bind. destruct s as [m ar [] cs]. simpl in *.
  eapply wpm_alloc_short; [done|done| |].
  - intros q a Hq Hq0 Hqp Ha Hr' Hnew. unfold is_null. rewrite bool_decide_false by done.
    apply wpm_bind. eapply wpm_modify; [apply lookup_insert_eq|]. simpl. rewrite insert_insert_eq.
    apply wpm_ret, Hs; try done.
    + intros Hin. apply Hq, Hout. split; [apply Hqp|done].
    + exists ({[q]} ∪ out). split; [done|]. intros x. rewrite elem_of_union, elem_of_singleton, Hout.
      done.
  - intros a Ha Hno. apply wpm_ret, Hf; [done|]. destruct R. split; try done. by exists out.
Qed.

(** How many nodes the path [w ++ key] lacks below [w]. *)
Fixpoint missing T w key : nat :=
  match key with
  | [] => 0
  | c :: key' => (match T !! (w ++ [c]) with Some _ => 0 | None => 1 end + missing T (w ++ [c]) key')%nat
  end.

#[local] Arguments missing : simpl never.

Lemma missing_cons T w c key : missing T w (c :: key) =
  (match T !! (w ++ [c]) with Some _ => 0 | None => 1 end + missing T (w ++ [c]) key)%nat.
Proof. done. Qed.

Lemma missing_insert T u q key : forall w, (length u <= length w)%nat -> missing (<[u := q]> T) w key = missing T w key.
Proof.
  induction key as [|c key IH]; intros w Hw; [done|]. rewrite !missing_cons.
  rewrite lookup_insert_ne, IH; [done| |]; rewrite ?length_app; simpl; [lia|].
  intros ->. rewrite length_app in Hw. simpl in Hw. lia.
Qed.

(** The loop of insert: every path on the way gets a node, no value changes. *)
Lemma insert_walk_wp raw key : forall s T w p child,
  rep s T -> T !! w = Some p -> ascii key -> arena_rooms (ar s) (length key) ->
  wpm (insert_walk raw p child key) s (fun r s' => exists T', rep s' T' /\ T ⊆ T' /\
    calls s' = calls s /\ (forall u, value_at s' T' u = value_at s T u) /\
    match r with
    | Some q => T' !! (w ++ key) = Some q \/ key = [] /\ q = child
    | None => T !! (w ++ key) = None /\ short_of (missing T w key) (ar s)
    end).
Proof.
  induction key as [|c key IH]; intros s T w p child R Hp Hk Hr; simpl.
  - apply wpm_ret. exists T. split_and!; try done. by right.
  - apply list.Forall_cons in Hk as [Hc Hk].
    replace (w ++ c :: key) with ((w ++ [c]) ++ key) by (by rewrite <- (assoc_L (++))).
    apply wpm_bind, (get_child_wp s T w); [done|done|lia|]. rewrite (child_null s) by done.
    assert (forall s1 T1 q, rep s1 T1 -> T ⊆ T1 -> calls s1 = calls s -> T1 !! (w ++ [c]) = Some q ->
      arena_rooms (ar s1) (length key) -> (forall u, value_at s1 T1 u = value_at s T u) ->
      (short_of (missing T1 (w ++ [c]) key) (ar s1) -> short_of (missing T w (c :: key)) (ar s)) ->
      wpm (insert_walk raw q q key) s1 (fun r s' => exists T', rep s' T' /\ T ⊆ T' /\
        calls s' = calls s /\ (forall u, value_at s' T' u = value_at s T u) /\
        match r with
        | Some q => T' !! ((w ++ [c]) ++ key) = Some q \/ c :: key = [] /\ q = child
        | None => T !! ((w ++ [c]) ++ key) = None /\ short_of (missing T w (c :: key)) (ar s)
        end)) as Hgo.
    { intros s1 T1 q R1 HT Hcl Hq Hr1 Hv Hsh. eapply wpm_mono; [by apply (IH s1 T1 (w ++ [c]) q q)|].
      intros r s2 (T2 & R2 & HT2 & Hcl2 & Hv2 & Hres). exists T2. split; [done|].
      split; [by etrans|]. split; [congruence|]. split; [intros u; by rewrite Hv2|].
      destruct r as [x|].
      - left. destruct Hres as [?|[-> ->]]; [done|]. rewrite app_nil_r.
        by eapply lookup_weaken.
      - destruct Hres as [Hres Hno]. split; [by eapply lookup_weaken_None|by apply Hsh]. }
    destruct (T !! (w ++ [c])) as [q|] eqn:Eq; simpl.
    + apply (Hgo s T q); try done; [|by rewrite missing_cons, Eq]. unfold arena_rooms in *. simpl in Hr. case_match; [|done].
      destruct (rep_owns _ _ R) as (out & Ho & _). unfold arena_owns in Ho.
      replace (pool (ar s)) in Ho. destruct Ho as (bs & [[] _] & _). nia.
    + apply wpm_bind. eapply trie_allocate_wp; [done|done| |].
      2: { intros a Hno Ra. simpl. apply wpm_ret. exists T. split_and!; try done.
           2: { rewrite missing_cons, Eq. simpl. apply no_node_eq in Hno as [a' Hno]. by rewrite Hno. }
           destruct (T !! ((w ++ [c]) ++ key)) as [q|] eqn:Eq'; [|done].
           destruct (closed_app _ _ _ _ _ R Eq') as [q' Hq']. congruence. }
      intros q a Hq Hq0 Hqp Hra Hnew Ho. unfold is_null. rewrite bool_decide_false by done.
      destruct (rep_node _ _ R _ _ Hp) as (n & En & Hlen & _).
      apply wpm_bind. eapply put_child_wp; [simpl; rewrite lookup_insert_ne; [done|]|done|lia|].
      { intros ->. apply Hq. by apply elem_of_dom. }
      simpl. eapply (Hgo _ (<[w ++ [c] := q]> T)); try done.
      * by apply rep_extend; try lia.
      * by apply insert_subseteq.
      * by rewrite lookup_insert_eq.
      * intros u. rewrite (value_at_extend s T w p c q n zero_node) by done.
        case_decide as E; [|done]. subst u. unfold value_at. by rewrite Eq.
      * rewrite missing_cons, Eq, missing_insert by done. simpl. by rewrite Hnew.
Qed.

Lemma trie_insert_wp raw s T key v :
  rep s T -> ascii key -> arena_rooms (ar s) (length (path key)) ->
  wpm (muggle_trie_insert raw key v) s (fun r s' => exists T', rep s' T' /\ T ⊆ T' /\
    calls s' = calls s /\
    if is_null r then (T !! path key = None /\ short_of (missing T [] (path key)) (ar s)) /\
      forall u, value_at s' T' u = value_at s T u
    else T' !! path key = Some r /\
         forall u, value_at s' T' u = if decide (u = path key) then v else value_at s T u).
Proof.
  intros R Hk Hr. unfold muggle_trie_insert.
  (* the path has a node whose data is set *)
  assert (forall s1 T1 q, rep s1 T1 -> T ⊆ T1 -> calls s1 = calls s -> T1 !! path key = Some q ->
    (forall u, value_at s1 T1 u = value_at s T u) ->
    wpm ((if is_null q then mret tt else modify q (set_data v));; mret q) s1
      (fun r s' => exists T', rep s' T' /\ T ⊆ T' /\ calls s' = calls s /\
        if is_null r then (T !! path key = None /\ short_of (missing T [] (path key)) (ar s)) /\
          forall u, value_at s' T' u = value_at s T u
        else T' !! path key = Some r /\
             forall u, value_at s' T' u = if decide (u = path key) then v else value_at s T u)) as Hset.
  { intros s1 T1 q R1 HT Hcl Hq Hv. destruct (rep_loc _ _ R1 _ _ Hq) as [Hq0 _].
    destruct (rep_node _ _ R1 _ _ Hq) as (n & En & _).
    unfold is_null. rewrite !bool_decide_false by done.
    apply wpm_bind, (wpm_modify _ _ n); [done|]. apply wpm_ret. exists T1.
    destruct s1 as [m1 a1 [] c1]. simpl in *. rewrite bool_decide_false by done.
    split; [by apply (rep_set_data (mkst m1 a1 tt c1))|]. split_and!; try done.
    intros u. rewrite (value_at_set_data (mkst m1 a1 tt c1) T1 (path key)) by done. by rewrite Hv. }
  destruct key as [|c key].
  - simpl in Hr, Hset |- *. apply wpm_bind, (get_child_wp s T []); [done|apply (rep_root _ _ R)|lia|].
    simpl. rewrite (child_null s) by done. destruct (T !! [0]) as [q|] eqn:Eq; simpl.
    + apply wpm_bind, wpm_ret. by apply (Hset s T q).
    + apply wpm_bind. eapply trie_allocate_wp; [done|done| |].
      2: { intros a Hno Ra. simpl. apply wpm_ret. exists T. rewrite Eq. split_and!; try done.
           rewrite missing_cons. simpl app. by rewrite Eq. }
      intros q a Hq Hq0 Hqp _ _ Ho. unfold is_null. rewrite !bool_decide_false by done.
      apply wpm_bind. eapply wpm_modify; [apply lookup_insert_eq|]. simpl. rewrite insert_insert_eq.
      pose proof (rep_root _ _ R) as Hroot.
      destruct (rep_node _ _ R _ _ Hroot) as (n & En & Hlen & _).
      apply wpm_bind. eapply put_child_wp; [simpl; rewrite lookup_insert_ne; [done|]|done|lia|].
      { intros ->. by destruct (Hqp 0). }
      apply wpm_ret. exists (<[[0] := q]> T). rewrite bool_decide_false by done. simpl.
      split; [by apply (rep_extend s T [] ROOT 0)|]. split; [by apply insert_subseteq|].
      split; [done|]. rewrite lookup_insert_eq. split; [done|].
      intros u. by rewrite (value_at_extend s T [] ROOT 0 q n) by done.
  - apply wpm_bind, wpm_ret. rewrite bool_decide_false by done. simpl andb.
    apply wpm_bind. eapply wpm_mono; [by apply (insert_walk_wp raw (c :: key) s T [] ROOT);
      [|apply (rep_root _ _ R)|..]|].
    intros r s1 (T1 & R1 & HT & Hcl & Hv & Hres). destruct r as [q|].
    + apply (Hset s1 T1 q); try done. by destruct Hres as [?|[? _]].
    + apply wpm_ret. exists T1. by simpl.
Qed.

Lemma trie_remove_wp s T key (func_free : bool) :
  rep s T -> ascii key ->
  wpm (muggle_trie_remove key func_free) s (fun r s' => rep s' T /\
    r = bool_decide (is_Some (T !! path key)) /\
    calls s' = calls s ++ (if r && func_free then [FreeData (value_at s T (path key))] else []) /\
    forall u, value_at s' T u = if decide (u = path key) then NULL else value_at s T u).
Proof.
  intros R Hk. unfold muggle_trie_remove. apply wpm_bind. unfold wpm at 1.
  rewrite (find_spec s T) by done. simpl. rewrite (child_null s) by done.
  destruct (T !! path key) as [q|] eqn:Eq.
  - rewrite bool_decide_false by done. destruct (rep_node _ _ R _ _ Eq) as (n & En & _). simpl.
    assert (value_at s T (path key) = data n) as Hv by (unfold value_at; by rewrite Eq, En).
    apply wpm_bind, (wpm_load _ n); [done|]. destruct s as [m a [] cs].
    apply wpm_bind. destruct func_free; [apply wpm_called|apply wpm_ret];
      (apply wpm_bind; eapply wpm_modify; [done|]); apply wpm_ret; simpl;
      (split; [by apply (rep_set_data (mkst m a tt cs))|]); (split; [done|]);
      (split; [by rewrite ?Hv, ?app_nil_r|]); intros u;
      by rewrite (value_at_set_data (mkst m a tt cs) T (path key) q n).
  - rewrite bool_decide_true by done. apply wpm_ret. rewrite bool_decide_false by (by intros []).
    split; [done|]. split; [done|]. rewrite app_nil_r. split; [done|].
    intros u. case_decide as E; [|done]. subst u. unfold value_at. by rewrite Eq.
Qed.

(** ** Erasing a subtree *)

Definition free_calls (func_free : bool) (d : ptr) : list free_call :=
  if (d =? NULL) then [] else if func_free then [FreeData d] else [].

Definition node_calls (func_free : bool) (m : gmap loc muggle_trie_node) (p : loc) : list free_call :=
  match m !! p with Some n => free_calls func_free (data n) | None => [] end.

(** The nodes of the paths below [w] are in the store with their children. *)
Definition subtree (m : gmap loc muggle_trie_node) T w : Prop :=
  forall u q, T !! (w ++ u) = Some q -> exists n, m !! q = Some n /\ zlen (children n) = 256 /\
    forall c, 0 <= c < 256 -> children n @@ c = Some (default LNull (T !! (w ++ u ++ [c]))).

(** The store and the allocator after the nodes [K] were erased. *)
Definition erased (func_free : bool) s (out : gset loc) (K : list loc) s' : Prop :=
  (forall x, mem s' !! x = if decide (x ∈ K) then None else mem s !! x) /\
  (exists out', arena_owns (ar s') out' /\ forall x, x ∈ out' <-> x ∈ out /\ x ∉ K) /\
  calls s' = calls s ++ mjoin (node_calls func_free (mem s) <$> K).

(** [K] enumerates the nodes below [w]. *)
Definition nodes_below T w (K : list loc) : Prop :=
  NoDup K /\ forall q, q ∈ K <-> exists u, T !! (w ++ u) = Some q.

(** The part of the loop of erase_node that follows the children: the state of
    the node [p] of path [w] when the children below [i] are done. *)
Definition erasing (func_free : bool) T w (p : loc) (n : muggle_trie_node) s (out : gset loc)
    (i : Z) s' : Prop :=
  exists K, NoDup K /\
    (forall q, q ∈ K <-> q = p /\ 0 < i \/ exists c u, 0 <= c < i /\ T !! (w ++ c :: u) = Some q) /\
    (forall x, mem s' !! x = if decide (x = p) then Some (if decide (0 < i) then set_data NULL n else n)
       else if decide (x ∈ K) then None else mem s !! x) /\
    (exists out', arena_owns (ar s') out' /\ forall x, x ∈ out' <-> x ∈ out /\ (x = p \/ x ∉ K)) /\
    calls s' = calls s ++ mjoin (node_calls func_free (mem s) <$> K).

Section erase.
Context (T : gmap (list Z) loc) (func_free : bool).
Hypothesis T_inj : forall w w' p, T !! w = Some p -> T !! w' = Some p -> w = w'.
Hypothesis T_null : forall w p, T !! w = Some p -> p <> LNull.
Hypothesis T_closed : forall w c p, T !! (w ++ [c]) = Some p -> is_Some (T !! w) /\ 0 <= c < 256.

(** The nodes [L] of the subtree of child [i], taken out of the state [s1] in
    which the nodes [K] are gone. *)
Definition child_erased s (w : list Z) (i : Z) (p : loc) (K : list loc) s1 (out1 : gset loc) s2 : Prop :=
  exists L, NoDup (K ++ L) /\ p ∉ L /\
    (forall q, q ∈ L <-> exists u, T !! (w ++ i :: u) = Some q) /\
    (forall x, mem s2 !! x = if decide (x ∈ L) then None else mem s1 !! x) /\
    (exists out2, arena_owns (ar s2) out2 /\ forall x, x ∈ out2 <-> x ∈ out1 /\ x ∉ L) /\
    calls s2 = calls s1 ++ mjoin (node_calls func_free (mem s) <$> L).

Lemma erase_child_wp fuel w p s s1 (out out1 : gset loc) i (K : list loc) :
  (forall s w p out, T !! w = Some p -> subtree (mem s) T w -> arena_owns (ar s) out ->
     (forall u q, T !! (w ++ u) = Some q -> q ∈ out /\ (length u < fuel)%nat) ->
     wpm (muggle_trie_erase_node fuel p func_free) s (fun _ s' =>
       exists K, nodes_below T w K /\ erased func_free s out K s')) ->
  T !! w = Some p -> subtree (mem s) T w ->
  (forall u q, T !! (w ++ u) = Some q -> q ∈ out /\ (length u < S fuel)%nat) -> NoDup K ->
  (forall q, q ∈ K <-> q = p /\ 0 < i \/ exists c u, 0 <= c < i /\ T !! (w ++ c :: u) = Some q) ->
  (forall x, x <> p -> x ∉ K -> mem s1 !! x = mem s !! x) ->
  arena_owns (ar s1) out1 -> (forall x, x ∈ out1 <-> x ∈ out /\ (x = p \/ x ∉ K)) ->
  wpm (if is_null (default LNull (T !! (w ++ [i]))) then mret tt
       else muggle_trie_erase_node fuel (default LNull (T !! (w ++ [i]))) func_free) s1
    (fun _ => child_erased s w i p K s1 out1).
Proof.
  intros IH Hp Hsub Hout HK HKin Hmem Ho1 Hout1.
  assert (forall q u, T !! (w ++ i :: u) = Some q -> q ∉ K /\ q <> p) as Hdis.
  { intros q u Hq. assert (q <> p) as Hqp.
    { intros ->. assert (w ++ i :: u = w) as E by (by apply (T_inj _ _ p)).
      apply (f_equal length) in E. rewrite length_app in E. simpl in E. lia. }
    split; [|done]. rewrite HKin. intros [[-> _]|(c & u' & Hc & Hq')]; [done|].
    assert (w ++ i :: u = w ++ c :: u') as E by (by apply (T_inj _ _ q)).
    apply (inj (w ++.)) in E. injection E as -> _. lia. }
  destruct (T !! (w ++ [i])) as [q|] eqn:Eq; simpl.
  - unfold is_null. rewrite bool_decide_false by (by apply (T_null (w ++ [i]))).
    assert (forall u, (w ++ [i]) ++ u = w ++ i :: u) as Eapp by (intros; by rewrite <- (assoc_L (++))).
    assert (forall u x, T !! (w ++ i :: u) = Some x -> mem s1 !! x = mem s !! x) as Hsame.
    { intros u x Hx. destruct (Hdis _ _ Hx). by apply Hmem. }
    eapply wpm_mono; [apply (IH s1 (w ++ [i]) q out1 Eq); [|done|]|].
    + intros u x Hx. rewrite Eapp in Hx. destruct (Hsub (i :: u) x Hx) as (nx & Enx & Hl & Hx').
      exists nx. rewrite (Hsame u x Hx). split; [done|]. split; [done|].
      intros c Hc. rewrite <- (assoc_L (++)). by apply Hx'.
    + intros u x Hx. rewrite Eapp in Hx. destruct (Hout (i :: u) x Hx) as [Hx1 Hx2]. simpl in Hx2.
      split; [|lia]. apply Hout1. destruct (Hdis _ _ Hx). tauto.
    + intros _ s2 (L & [HL1 HL2] & Hm2 & Ho2 & Hcl2). exists L.
      assert (forall q, q ∈ L <-> exists u, T !! (w ++ i :: u) = Some q) as HL3.
      { intros x. rewrite HL2. by setoid_rewrite Eapp. }
      split; [|split; [|split; [done|split; [done|split; [done|]]]]].
      * apply list.NoDup_app. split; [done|]. split; [|done]. intros x Hx (u & Hu)%HL3.
        by destruct (Hdis _ _ Hu).
      * intros (u & Hu)%HL3. by destruct (Hdis _ _ Hu).
      * rewrite Hcl2. do 2 f_equal. apply list_fmap_ext. intros j x Hx%list_elem_of_lookup_2.
        apply HL3 in Hx as (u & Hu). unfold node_calls. by rewrite (Hsame _ _ Hu).
  - apply wpm_ret. exists []. rewrite app_nil_r. split_and!; try done.
    + by apply not_elem_of_nil.
    + intros x. split; [by intros ?%elem_of_nil|]. intros (u & Hu).
      assert (forall u x, T !! (w ++ i :: u) = Some x -> False) as Hno; [|by destruct (Hno _ _ Hu)].
      clear x u Hu. intros u. induction u as [|c u IHu] using rev_ind; intros x Hx; [congruence|].
      replace (w ++ i :: u ++ [c]) with ((w ++ i :: u) ++ [c]) in Hx by (by rewrite <- (assoc_L (++))).
      apply T_closed in Hx as [[y Hy] _]. by eapply IHu.
    + exists out1. split; [done|]. intros x. rewrite elem_of_nil. tauto.
    + simpl. by rewrite app_nil_r.
Qed.

Lemma erase_one_wp fuel w p n s s1 out i :
  (forall s w p out, T !! w = Some p -> subtree (mem s) T w -> arena_owns (ar s) out ->
     (forall u q, T !! (w ++ u) = Some q -> q ∈ out /\ (length u < fuel)%nat) ->
     wpm (muggle_trie_erase_node fuel p func_free) s (fun _ s' =>
       exists K, nodes_below T w K /\ erased func_free s out K s')) ->
  T !! w = Some p -> subtree (mem s) T w -> mem s !! p = Some n ->
  (forall u q, T !! (w ++ u) = Some q -> q ∈ out /\ (length u < S fuel)%nat) ->
  0 <= i < 256 -> erasing func_free T w p n s out i s1 ->
  wpm (n ← load p;
       child ← lift (aget (children n) i);
       (if is_null child then mret tt else muggle_trie_erase_node fuel child func_free);;
       n ← load p;
       if data n =? NULL then mret tt
       else (if func_free then called [FreeData (data n)] else mret tt);;
            modify p (set_data NULL)) s1 (fun _ => erasing func_free T w p n s out (i + 1)).
Proof.
  intros IH Hp Hsub En Hout Hi (K & HK & HKin & Hmem & (out1 & Ho1 & Hout1) & Hcl).
  destruct (Hsub [] p) as (n' & En' & Hlen & Hch); [by rewrite app_nil_r|].
  rewrite En in En'. injection En' as <-.
  set (n1 := if decide (0 < i) then set_data NULL n else n).
  assert (mem s1 !! p = Some n1) as En1 by (by rewrite Hmem, decide_True).
  assert (children n1 = children n) as Hc1 by (unfold n1; by case_decide).
  apply wpm_bind, (wpm_load _ n1); [done|]. apply wpm_bind, wpm_lift.
  rewrite Hc1, (aget_Some _ _ _ (Hch i Hi)). simpl.
  (* the subtree of child i *)
  apply wpm_bind. apply (wpm_mono _ _ (fun _ => child_erased s w i p K s1 out1)).
  { eapply erase_child_wp; try done. intros x Hx HxK. by rewrite Hmem, !decide_False. }
  intros _ s2 (L & HKL & HpL & HLin & Hm2 & (out2 & Ho2 & Hout2) & Hcl2).
  assert (mem s2 !! p = Some n1) as En2 by (by rewrite Hm2, decide_False).
  apply wpm_bind, (wpm_load _ n1); [done|].
  (* the node's own data *)
  set (K' := if decide (0 < i) then K ++ L else (K ++ L) ++ [p]).
  assert (NoDup K') as HK'.
  { unfold K'. case_decide; [done|]. rewrite (comm (++)). apply list.NoDup_cons. split; [|done].
    rewrite elem_of_app, HKin. intros [[[_ ?]|(c & u & ? & _)]|?]; [lia|lia|done]. }
  assert (forall q, q ∈ K' <-> q = p /\ 0 < i + 1 \/
    exists c u, 0 <= c < i + 1 /\ T !! (w ++ c :: u) = Some q) as HK'in.
  { intros q. assert (q ∈ K' <-> q ∈ K \/ q ∈ L \/ q = p) as ->.
    { unfold K'. case_decide; rewrite !elem_of_app, ?list_elem_of_singleton; [|tauto].
      split; [tauto|]. intros [?|[?| ->]]; [by left|by right|]. left. apply HKin. by left. }
    rewrite HKin, HLin. split.
    - intros [[[-> ?]|(c & u & ? & ?)]|[(u & ?)| ->]].
      + left. split; [done|lia].
      + right. exists c, u. split; [lia|done].
      + right. exists i, u. split; [lia|done].
      + left. split; [done|lia].
    - intros [[-> _]|(c & u & Hc & Hq)]; [by right; right|].
      destruct (decide (c = i)) as [->|]; [right; left; by exists u|].
      left; right. exists c, u. split; [lia|done]. }
  assert (calls s2 ++ (if decide (0 < i) then [] else free_calls func_free (data n)) =
    calls s ++ mjoin (node_calls func_free (mem s) <$> K')) as Hcalls.
  { rewrite Hcl2, Hcl. unfold K'. case_decide; rewrite !fmap_app, !join_app, <- !(assoc_L (++)).
    - by rewrite app_nil_r.
    - do 3 f_equal. simpl. unfold node_calls. by rewrite En, app_nil_r. }
  assert (forall m', m' !! p = Some (set_data NULL n) -> (forall x, x <> p -> m' !! x = mem s2 !! x) ->
    erasing func_free T w p n s out (i + 1)
      (mkst m' (ar s2) (fld s2) (calls s ++ mjoin (node_calls func_free (mem s) <$> K')))) as Hfin.
  { intros m' Em' Hm'. exists K'. split; [done|]. split; [done|]. simpl. split; [|split; [|done]].
    - intros x. destruct (decide (x = p)) as [->|Hx].
      + by rewrite Em', (decide_True (P := 0 < i + 1)) by lia.
      + rewrite Hm', Hm2, Hmem, (decide_False (P := x = p)) by done.
        assert (x ∈ K' <-> x ∈ K \/ x ∈ L) as HxK.
        { unfold K'. case_decide; rewrite !elem_of_app, ?list_elem_of_singleton; tauto. }
        repeat case_decide; tauto.
    - exists out2. split; [done|]. intros x. rewrite Hout2, Hout1.
      destruct (decide (x = p)) as [->|Hx]; [tauto|].
      assert (x ∈ K' <-> x ∈ K \/ x ∈ L) as HxK.
      { unfold K'. case_decide; rewrite !elem_of_app, ?list_elem_of_singleton; tauto. }
      tauto. }
  rewrite <- Hcalls in Hfin. destruct s2 as [m2 a2 f2 c2]. simpl in *. unfold n1 in *.
  unfold free_calls in Hfin. case_decide as Hi0; simpl.
  - apply wpm_ret. rewrite app_nil_r in Hfin. by apply Hfin.
  - destruct (data n =? NULL) eqn:Ed.
    + apply wpm_ret. rewrite app_nil_r in Hfin. apply Hfin; [|done]. rewrite En2.
      apply Z.eqb_eq in Ed. unfold set_data. destruct n; simpl in *. by subst.
    + apply wpm_bind. destruct func_free; [apply wpm_called|apply wpm_ret];
        (eapply wpm_modify; [done|]); simpl; rewrite ?app_nil_r in Hfin; apply Hfin;
        try apply lookup_insert_eq; intros x Hx; by rewrite lookup_insert_ne.
Qed.

Lemma trie_erase_node_wp fuel : forall s w p out,
  T !! w = Some p -> subtree (mem s) T w -> arena_owns (ar s) out ->
  (forall u q, T !! (w ++ u) = Some q -> q ∈ out /\ (length u < fuel)%nat) ->
  wpm (muggle_trie_erase_node fuel p func_free) s (fun _ s' =>
    exists K, nodes_below T w K /\ erased func_free s out K s').
Proof.
  induction fuel as [|fuel IH]; intros s w p out Hp Hsub Ho Hout.
  { destruct (Hout [] p) as [_ ?]; [by rewrite app_nil_r|]. simpl in *. lia. }
  destruct (Hsub [] p) as (n & En & _); [by rewrite app_nil_r|].
  cbn [muggle_trie_erase_node]. apply wpm_bind.
  apply (wpm_for (erasing func_free T w p n s out)).
  - exists []. split; [constructor|]. split; [|split; [|split]].
    + intros q. rewrite elem_of_nil. split; [done|]. intros [[_ ?]|(c & u & ? & _)]; lia.
    + intros x. rewrite (decide_False (P := 0 < 0)) by lia. case_decide; [by subst|done].
    + exists out. split; [done|]. intros x. rewrite elem_of_nil. tauto.
    + simpl. by rewrite app_nil_r.
  - intros i s1 Hi Hs1. unfold MUGGLE_TRIE_CHILDREN_SIZE in Hi. by apply (erase_one_wp fuel).
  - intros s1 (K & HK & HKin & Hmem & (out1 & Ho1 & Hout1) & Hcl).
    change (Z.max 0 MUGGLE_TRIE_CHILDREN_SIZE) with 256 in *.
    assert (p ∈ out1) as Hp1.
    { apply Hout1. split; [|by left]. apply (Hout [] p). by rewrite app_nil_r. }
    eapply wpm_dealloc; [by rewrite Hmem, decide_True|done|done|].
    intros a Ha. exists K. split; [split; [done|]|].
    + intros q. rewrite HKin. split.
      * intros [[-> _]|(c & u & _ & ?)]; [exists []; by rewrite app_nil_r|by exists (c :: u)].
      * intros ([|c u] & Hu); [left|right].
        -- rewrite app_nil_r, Hp in Hu. by injection Hu as ->.
        -- exists c, u. split; [|done]. clear Hsub Hout.
           assert (forall u q, T !! (w ++ c :: u) = Some q -> 0 <= c < 256) as Hc; [|by eapply Hc].
           clear u q Hu. intros u. induction u as [|d u IHu] using rev_ind; intros q Hq.
           ++ by destruct (T_closed _ _ _ Hq).
           ++ replace (w ++ c :: u ++ [d]) with ((w ++ c :: u) ++ [d]) in Hq
                by (by rewrite <- (assoc_L (++))).
              apply T_closed in Hq as [[y Hy] _]. by eapply IHu.
    + split; [|split; [|done]]; simpl.
      * intros x. destruct (decide (x = p)) as [->|Hx].
        -- rewrite lookup_delete_eq, decide_True; [done|]. apply HKin. left. split; [done|lia].
        -- by rewrite lookup_delete_ne, Hmem, (decide_False (P := x = p)) by done.
      * exists (out1 ∖ {[p]}). split; [done|]. intros x.
        rewrite elem_of_difference, elem_of_singleton, Hout1. split; [tauto|].
        intros [? HxK]. split; [tauto|]. intros ->. apply HxK, HKin. left. split; [done|lia].
Qed.
End erase.

(** The length of a path is less than the number of nodes. *)
Lemma depth_bound s T w p : rep s T -> T !! w = Some p -> (length w < size (mem s))%nat.
Proof.
  intros R Hp.
  set (L := (fun k => default LNull (T !! take k w)) <$> seq 0 (S (length w))).
  assert (forall k, k ∈ seq 0 (S (length w)) -> exists q, T !! take k w = Some q /\ (k <= length w)%nat)
    as Hsome.
  { intros k Hk%elem_of_seq. rewrite <- (take_drop k w) in Hp.
    destruct (closed_app _ _ _ _ _ R Hp) as [q Hq]. exists q. split; [done|lia]. }
  assert (NoDup L) as Hnd.
  { apply NoDup_fmap_2_strong; [|apply list.NoDup_seq]. intros i j Hi Hj E.
    destruct (Hsome _ Hi) as (q & Hq & Hli), (Hsome _ Hj) as (q' & Hq' & Hlj).
    rewrite Hq, Hq' in E. simpl in E. subst q'.
    assert (take i w = take j w) as E by (by apply (rep_inj _ _ R _ _ q)).
    apply (f_equal length) in E. rewrite !length_take in E. lia. }
  assert (length L = S (length w)) as Hl by (unfold L; by rewrite length_fmap, length_seq).
  rewrite <- size_dom. enough (length L <= size (dom (mem s)))%nat by lia.
  rewrite <- (size_list_to_set (C := gset loc)) by done. apply subseteq_size.
  intros q. rewrite elem_of_list_to_set. intros (k & -> & Hk)%list_elem_of_fmap.
  destruct (Hsome _ Hk) as (q & Hq & _). rewrite Hq. apply (rep_dom _ _ R). by exists (take k w).
Qed.

Lemma destroy_wp s T (func_free : bool) :
  rep s T ->
  wpm (muggle_trie_destroy func_free) s (fun _ s' => exists K, NoDup K /\
    (forall q, q ∈ K <-> exists w, w <> [] /\ T !! w = Some q) /\
    dom (mem s') = {[ROOT]} /\
    calls s' = calls s ++ mjoin (node_calls func_free (mem s) <$> K)).
Proof.
  intros R. destruct (rep_owns _ _ R) as (out & Ho & Hout).
  destruct (rep_node _ _ R _ _ (rep_root _ _ R)) as (n & En & Hlen & Hch). simpl in Hch.
  unfold muggle_trie_destroy. apply wpm_bind, wpm_count, wpm_bind.
  apply (wpm_for (fun i s' => exists K, NoDup K /\
    (forall q, q ∈ K <-> exists c u, 0 <= c < i /\ T !! (c :: u) = Some q) /\
    (forall x, mem s' !! x = if decide (x ∈ K) then None else mem s !! x) /\
    (exists out', arena_owns (ar s') out' /\ forall x, x ∈ out' <-> x ∈ out /\ x ∉ K) /\
    calls s' = calls s ++ mjoin (node_calls func_free (mem s) <$> K))).
  - exists []. split_and!; try done.
    + constructor.
    + intros q. rewrite elem_of_nil. split; [done|]. intros (c & u & ? & _). lia.
    + exists out. split; [done|]. intros x. rewrite elem_of_nil. tauto.
    + simpl. by rewrite app_nil_r.
  - intros i s1 Hi (K & HK & HKin & Hmem & (out1 & Ho1 & Hout1) & Hcl).
    unfold MUGGLE_TRIE_CHILDREN_SIZE in Hi.
    assert (forall q u, T !! (i :: u) = Some q -> q ∉ K) as Hdis.
    { intros q u Hq (c & u' & Hc & Hq')%HKin.
      assert (i :: u = c :: u') as [= -> _] by (by apply (rep_inj _ _ R _ _ q)). lia. }
    assert (ROOT ∉ K) as HrK.
    { intros (c & u & _ & Hq)%HKin.
      by pose proof (rep_inj _ _ R _ _ _ Hq (rep_root _ _ R)). }
    apply wpm_bind, (wpm_load _ n); [by rewrite Hmem, decide_False|].
    apply wpm_bind, wpm_lift. rewrite (aget_Some _ _ _ (Hch i Hi)). simpl.
    rewrite (child_null s) by done. destruct (T !! [i]) as [q|] eqn:Eq; simpl; cycle 1.
    { apply wpm_ret. exists K. split_and!; try done.
      - intros x. rewrite HKin. split; intros (c & u & Hc & Hu); exists c, u; (split; [|done]); [lia|].
        destruct (decide (c = i)) as [->|]; [|lia]. exfalso.
        destruct (closed_app s T [i] u x R Hu) as [y Hy]. congruence.
      - by exists out1. }
    eapply wpm_mono; [apply (trie_erase_node_wp T func_free) with (w := [i]) (out := out1); try done|].
    + apply (rep_inj _ _ R).
    + intros w p Hw. by destruct (rep_loc _ _ R w p Hw).
    + apply (rep_closed _ _ R).
    + intros u x Hx. destruct (rep_node _ _ R _ _ Hx) as (nx & Enx & Hl & Hc).
      exists nx. rewrite Hmem, decide_False by (by eapply Hdis). split; [done|]. split; [done|].
      intros c Hcr. rewrite (assoc_L (++)). by apply Hc.
    + intros u x Hx. split.
      * apply Hout1. split; [|by eapply Hdis]. apply Hout. split.
        -- intros ->. by pose proof (rep_inj _ _ R _ _ _ Hx (rep_root _ _ R)).
        -- apply (rep_dom _ _ R). by eexists.
      * pose proof (depth_bound _ _ _ _ R Hx). simpl in *. lia.
    + intros _ s2 (L & [HL HLin] & Hm2 & (out2 & Ho2 & Hout2) & Hcl2). simpl in HLin.
      exists (K ++ L). split; [|split; [|split; [|split]]].
      * apply list.NoDup_app. split; [done|]. split; [|done]. intros x Hx (u & Hu)%HLin.
        by eapply Hdis.
      * intros x. rewrite elem_of_app, HKin, HLin. split.
        -- intros [(c & u & ? & ?)|(u & ?)]; [exists c, u|exists i, u]; (split; [lia|done]).
        -- intros (c & u & ? & Hu). destruct (decide (c = i)) as [->|]; [right; by exists u|].
           left. exists c, u. split; [lia|done].
      * intros x. rewrite Hm2, Hmem. pose proof (elem_of_app K L x). repeat case_decide; tauto.
      * exists out2. split; [done|]. intros x. rewrite Hout2, Hout1, elem_of_app. tauto.
      * rewrite Hcl2, Hcl, fmap_app, join_app, (assoc_L (++)). do 2 f_equal. apply list_fmap_ext.
        intros j x Hx%list_elem_of_lookup_2. apply HLin in Hx as (u & Hu). unfold node_calls.
        by rewrite Hmem, decide_False by (by eapply Hdis).
  - intros s1 (K & HK & HKin & Hmem & _ & Hcl).
    change (Z.max 0 MUGGLE_TRIE_CHILDREN_SIZE) with 256 in *.
    assert (forall q, q ∈ K <-> exists w, w <> [] /\ T !! w = Some q) as HK'.
    { intros q. rewrite HKin. split.
      - intros (c & u & _ & Hu). by exists (c :: u).
      - intros ([|c u] & Hne & Hu); [done|]. exists c, u. split; [|done].
        destruct (closed_app s T [c] u q R Hu) as [y Hy]. by destruct (rep_closed _ _ R [] c y Hy). }
    exists K. split; [done|]. split; [done|]. split; [|done]. simpl.
    apply set_eq. intros x. rewrite elem_of_dom, elem_of_singleton, Hmem. case_decide as Hx.
    + split; [by intros []|]. intros ->. apply HK' in Hx as (w & Hw & Hr).
      by pose proof (rep_inj _ _ R _ _ _ Hr (rep_root _ _ R)).
    + rewrite <- elem_of_dom, (rep_dom _ _ R). split.
      * intros (w & Hw). destruct (decide (w = [])) as [->|]; [pose proof (rep_root _ _ R); congruence|].
        destruct Hx. apply HK'. by exists w.
      * intros ->. exists []. apply (rep_root _ _ R).
Qed.

(** A new trie has the root only. *)
Lemma zero_children c : 0 <= c < 256 -> children zero_node @@ c = Some LNull.
Proof.
  intros Hc. rewrite zlookup_nonneg by lia. unfold zero_node. cbn [children].
  apply lookup_replicate_2. unfold MUGGLE_TRIE_CHILDREN_SIZE. lia.
Qed.

Lemma rep_empty (a : arena H) cs :
  arena_owns a ∅ -> rep (mkst {[ROOT := zero_node]} a tt cs) {[[] := ROOT]}.
Proof.
  intros Ho. assert (forall w p, ({[[] := ROOT]} : gmap (list Z) loc) !! w = Some p -> w = [] /\ p = ROOT)
    as HT by (by intros w p [<- <-]%lookup_singleton_Some).
  split; simpl.
  - by rewrite lookup_singleton_eq.
  - intros w p [-> ->]%HT. exists zero_node. rewrite lookup_singleton_eq. split; [done|].
    split; [done|]. intros c Hc. rewrite zero_children by done.
    rewrite lookup_singleton_ne; [done|]. done.
  - intros w w' p [-> _]%HT [-> _]%HT. done.
  - intros w p [-> ->]%HT. done.
  - intros w c p [E _]%HT. by destruct w.
  - intros p. rewrite dom_singleton, elem_of_singleton. split.
    + intros ->. exists []. by rewrite lookup_singleton_eq.
    + by intros (w & [_ ->]%HT).
  - exists ∅. split; [done|]. intros p. rewrite dom_singleton, elem_of_singleton.
    split; [by intros ?%elem_of_empty|tauto].
Qed.

Lemma trie_init_rep capacity h s :
  0 <= capacity < 2 ^ 32 -> sizeof_node * capacity < 2 ^ 32 ->
  muggle_trie_init capacity h = Done (Some s) ->
  rep s {[[] := ROOT]} /\ forall u, value_at s {[[] := ROOT]} u = NULL.
Proof.
  intros Hc Hs. unfold muggle_trie_init.
  destruct (init_pool capacity sizeof_node) as [[p|]| |] eqn:E; [|done..]. intros [= <-]. split.
  - apply rep_empty. apply (init_pool_owns capacity sizeof_node); done || lia.
  - intros u. unfold value_at. simpl. destruct (decide (u = [])) as [->|].
    + by rewrite !lookup_singleton_eq.
    + by rewrite lookup_singleton_ne.
Qed.

(** C24: for keys of bytes below 128 (other bytes index outside the children),
    insert puts the value under the key and changes the value of no other key;
    find then returns the node it returned.  It succeeds whenever malloc (or the
    pool) grants the nodes that the path of the key lacks: it returns NULL only
    when the key has no node and one of these requests is refused, and then every
    key keeps its value.  The empty string is a key of its own. *)
Theorem trie_insert_refines raw s T key v :
  rep s T -> ascii key -> arena_rooms (ar s) (length (path key)) ->
  exists r s' T', muggle_trie_insert raw key v s = Done (r, s') /\ rep s' T' /\
    calls s' = calls s /\
    (forall key', ascii key' ->
       value_at s' T' (path key') =
         if is_null r then value_at s T (path key')
         else if decide (key' = key) then v else value_at s T (path key')) /\
    (r <> LNull -> muggle_trie_find key s' = Done (r, s')) /\
    (r = LNull -> T !! path key = None /\ short_of (missing T [] (path key)) (ar s)).
Proof.
  intros R Hk Hr.
  pose proof (trie_insert_wp raw s T key v R Hk Hr) as (r & s' & E & T' & R' & HT & Hcl & Hres)%wpm_Done.
  exists r, s', T'. split; [done|]. split; [done|]. split; [done|]. split_and!.
  - intros key' Hk'. destruct (is_null r); [by destruct Hres as [_ ->]|].
    destruct Hres as [_ ->]. assert (path key' = path key <-> key' = key) as Hiff.
    { split; [|by intros ->]. unfold path. destruct key as [|c key], key' as [|c' key']; try done.
      - intros [= E0 _]. apply list.Forall_cons in Hk' as [? _]. lia.
      - intros [= E0 _]. apply list.Forall_cons in Hk as [? _]. lia. }
    repeat case_decide; tauto.
  - intros Hr0. rewrite (find_spec s' T') by done. unfold is_null in Hres.
    rewrite bool_decide_false in Hres by done. destruct Hres as [-> _]. done.
  - intros ->. by destruct Hres as [? _].
Qed.

(** Find returns the node of the key's path or NULL; remove reports whether
    there is one, clears its value, gives the old value to the callback and
    leaves the values of the other keys. *)
Theorem trie_remove_refines s T key (func_free : bool) :
  rep s T -> ascii key ->
  muggle_trie_find key s = Done (default LNull (T !! path key), s) /\
  exists s', muggle_trie_remove key func_free s = Done (bool_decide (is_Some (T !! path key)), s') /\
    rep s' T /\
    calls s' = calls s ++ (if bool_decide (is_Some (T !! path key)) && func_free
                           then [FreeData (value_at s T (path key))] else []) /\
    forall w, value_at s' T w = if decide (w = path key) then NULL else value_at s T w.
Proof.
  intros R Hk. split; [by apply find_spec|].
  pose proof (trie_remove_wp s T key func_free R Hk) as (r & s' & E & ? & -> & ? & ?)%wpm_Done.
  by exists s'.
Qed.

(** Destroy ends, frees every node except the embedded root, and gives each
    node's non-NULL value to the callback once. *)
Theorem trie_destroy_frees s T (func_free : bool) :
  rep s T ->
  exists s' K, muggle_trie_destroy func_free s = Done (tt, s') /\ NoDup K /\
    (forall q, q ∈ K <-> exists w, w <> [] /\ T !! w = Some q) /\
    dom (mem s') = {[ROOT]} /\
    calls s' = calls s ++ mjoin (node_calls func_free (mem s) <$> K).
Proof.
  intros R. pose proof (destroy_wp s T func_free R) as ([] & s' & E & K & ?)%wpm_Done.
  by exists s', K.
Qed.
End proofs.

(** ** Witnesses: a trie with the key 'a'. *)
Definition heap3 : NodeMalloc (gset Z) := bounded_malloc 3.
Definition empty_trie : muggle_trie (gset Z) := mkst {[ROOT := zero_node]} (mka None ∅) tt [].
Definition empty_paths : gmap (list Z) loc := {[[] := ROOT]}.
Definition arena1 : arena (gset Z) := mka None {[1]}.
Definition sample : muggle_trie (gset Z) :=
  mkst (<[ROOT := set_child 97 (LHeap 1) zero_node]>
       (<[LHeap 1 := set_data 70 zero_node]> (mem empty_trie))) arena1 tt [].
Definition sample_paths : gmap (list Z) loc := <[[97] := LHeap 1]> empty_paths.

Lemma trie_sample_rep : @rep _ heap3 sample sample_paths.
Proof.
  apply (@rep_extend _ heap3 empty_trie empty_paths [] ROOT 97
    (LHeap 1) zero_node (set_data 70 zero_node) arena1 []); try done.
  - apply (@rep_empty _ heap3). by intros p ?%elem_of_empty.
  - exists {[LHeap 1]}. split.
    + intros p ->%elem_of_singleton. exists 1. split; [done|]. simpl. set_solver.
    + intros x. assert (dom (mem empty_trie) = {[ROOT]}) as -> by apply dom_singleton_L.
      rewrite !elem_of_singleton. tauto.
Qed.

(** One node is missing, and malloc grants it. *)
Lemma trie_insert_refines_witness :
  exists r s' T', @muggle_trie_insert _ heap3 (malloc_zeroed []) (malloc_zeroed (MemoryPool.blk 0 0))
      (malloc_zeroed 0) zero_node [97; 98] 80 sample = Done (r, s') /\ @rep _ heap3 s' T' /\
    r <> LNull /\ value_at s' T' [97; 98] = 80 /\ value_at s' T' [97] = 70 /\
    muggle_trie_find [97; 98] s' = Done (r, s').
Proof.
  destruct (@trie_insert_refines _ heap3 (malloc_zeroed []) (malloc_zeroed (MemoryPool.blk 0 0)) (malloc_zeroed 0)
    zero_node sample sample_paths [97; 98] 80 trie_sample_rep ltac:(repeat constructor; lia) I)
    as (r & s' & T' & E & R & _ & Hv & Hf & Hn).
  assert (r <> LNull) as Hr by (clear -Hn; intros Hr; destruct (Hn Hr) as [_ Hno]; exact Hno).
  exists r, s', T'. split; [exact E|]. clear E. split; [exact R|]. split; [exact Hr|].
  pose proof (Hv [97; 98] ltac:(repeat constructor; lia)) as H1. pose proof (Hv [97] ltac:(repeat constructor; lia)) as H2.
  unfold is_null in H1, H2. rewrite bool_decide_false in H1, H2 by exact Hr.
  split; [exact H1|]. split; [exact H2|]. exact (Hf Hr).
Defined.

Lemma trie_remove_refines_witness :
  muggle_trie_find [97] sample = Done (LHeap 1, sample) /\
  exists s', muggle_trie_remove [97] true sample = Done (true, s') /\
    @rep _ heap3 s' sample_paths /\ calls s' = [FreeData 70] /\
    forall w, value_at s' sample_paths w = if decide (w = [97]) then NULL else value_at sample sample_paths w.
Proof.
  apply (@trie_remove_refines _ heap3 sample sample_paths [97] true);
    [apply trie_sample_rep|repeat constructor; lia].
Defined.

Lemma trie_destroy_frees_witness :
  exists s' K, @muggle_trie_destroy _ heap3 true sample = Done (tt, s') /\ NoDup K /\
    (forall q, q ∈ K <-> exists w, w <> [] /\ sample_paths !! w = Some q) /\
    dom (mem s') = {[ROOT]} /\
    calls s' = calls sample ++ mjoin (node_calls true (mem sample) <$> K).
Proof. apply (@trie_destroy_frees _ heap3 sample sample_paths true), trie_sample_rep. Defined.
End Trie.
