(* ===== verification/AvlTree.v ===== *)
(** muggle/c/dsaa/avl_tree.{h,c}: an AVL tree with parent pointers.  This file
    has the code, the shape of the tree in the store, and the zipper in which
    the code walks: a subtree and the path from it to the root. *)

From stdpp Require Import base gmap sets list numbers.
From Stdlib Require Import ZArith Lia.
From S2P Require Import Prelude Dsaa MemoryPool NodeMem.
Import MemoryPool(block, muggle_memory_pool).

Open Scope Z_scope.

Module AvlTree.

(** ** The code *)

Record muggle_avl_tree_node := mkn {
  left : loc; right : loc; parent : loc; balance : Z; key : ptr; value : ptr
}.

Definition set_left (p : loc) (n : muggle_avl_tree_node) :=
  mkn p (right n) (parent n) (balance n) (key n) (value n).
Definition set_right (p : loc) (n : muggle_avl_tree_node) :=
  mkn (left n) p (parent n) (balance n) (key n) (value n).
Definition set_parent (p : loc) (n : muggle_avl_tree_node) :=
  mkn (left n) (right n) p (balance n) (key n) (value n).
Definition set_balance (b : Z) (n : muggle_avl_tree_node) :=
  mkn (left n) (right n) (parent n) b (key n) (value n).
Definition set_key (k : ptr) (n : muggle_avl_tree_node) :=
  mkn (left n) (right n) (parent n) (balance n) k (value n).
Definition set_value (v : ptr) (n : muggle_avl_tree_node) :=
  mkn (left n) (right n) (parent n) (balance n) (key n) v.

(** A node cleared by [memset]. *)
Definition zero_node : muggle_avl_tree_node := mkn LNull LNull LNull 0 NULL NULL.

(** The fields beside the nodes and the pool. *)
Record muggle_avl_tree := mk { root : loc; cmp : ptr -> ptr -> Z }.

(** [AVL_TREE_SIDE_LEFT] and [AVL_TREE_SIDE_RIGHT]. *)
Inductive side : Type := SideLeft | SideRight.

(** [sizeof(muggle_avl_tree_node_t)]. *)
Definition sizeof_node : Z := 48.

Section ops.
Context {H : Type} `{!NodeMalloc H}.
Context `{Malloc (list Z)} `{Malloc block} `{Malloc Z} `{Malloc muggle_memory_pool}.
(** What a new block holds. *)
Context (raw : muggle_avl_tree_node).

Definition tree_st : Type := st H muggle_avl_tree_node muggle_avl_tree.
Definition AM (A : Type) : Type := M H muggle_avl_tree_node muggle_avl_tree A.

(** [MUGGLE_ASSERT]. *)
Definition massert (b : bool) : AM unit := fun s => if b then Done (tt, s) else Undef.

Definition set_root (p : loc) : AM unit := set_fld (fun t => mk p (cmp t)).

Definition muggle_avl_tree_allocate_node : AM loc :=
  node ← alloc raw;
  if is_null node then mret node
  else modify node (fun _ => zero_node);; mret node.

(** The recursion is as deep as the tree; the fuel is the number of nodes. *)
Fixpoint muggle_avl_tree_erase_node (fuel : nat) (node : loc) (key_free value_free : bool)
  : AM unit :=
  match fuel with
  | O => fun _ => NoFuel
  | S fuel' =>
      if is_null node then mret tt
      else
        n ← load node;
        (if is_null (left n) then mret tt
         else muggle_avl_tree_erase_node fuel' (left n) key_free value_free);;
        n ← load node;
        (if is_null (right n) then mret tt
         else muggle_avl_tree_erase_node fuel' (right n) key_free value_free);;
        n ← load node;
        (if key n =? NULL then mret tt
         else (if key_free then called [FreeKey (key n)] else mret tt);;
              modify node (set_key NULL));;
        n ← load node;
        (if value n =? NULL then mret tt
         else (if value_free then called [FreeValue (value n)] else mret tt);;
              modify node (set_value NULL));;
        n ← load node;
        (if is_null (parent n) then mret tt
         else
           pn ← load (parent n);
           if bool_decide (left pn = node) then modify (parent n) (set_left LNull)
           else modify (parent n) (set_right LNull));;
        dealloc node
  end.

(** The node [z] takes the place of [x] under [parent] and, if need be, as the
    root. *)
Definition take_place (parent x z : loc) : AM unit :=
  (if is_null parent then mret tt
   else
     pn ← load parent;
     if bool_decide (x = left pn) then modify parent (set_left z)
     else modify parent (set_right z));;
  modify z (set_parent parent);;
  t ← get_fld;
  if bool_decide (root t = x) then set_root z else mret tt.

(** [if (t) t->parent = p;] *)
Definition adopt (t p : loc) : AM unit :=
  if is_null t then mret tt else modify t (set_parent p).

Definition muggle_avl_tree_rotate_left (node : loc) : AM bool :=
  n ← load node;
  let x := node in
  let z := right n in
  massert (negb (is_null z));;
  zn ← load z;
  massert (balance n =? 2);;
  massert ((balance zn =? 1) || (balance zn =? 0));;
  take_place (parent n) x z;;
  zn ← load z;
  modify x (set_right (left zn));;
  adopt (left zn) x;;
  modify x (set_parent z);;
  modify z (set_left x);;
  zn ← load z;
  if balance zn =? 0 then
    modify x (set_balance 1);; modify z (set_balance (-1));; mret false
  else
    modify x (set_balance 0);; modify z (set_balance 0);; mret true.

Definition muggle_avl_tree_rotate_right (node : loc) : AM bool :=
  n ← load node;
  let x := node in
  let z := left n in
  massert (negb (is_null z));;
  zn ← load z;
  massert (balance n =? -2);;
  massert ((balance zn =? -1) || (balance zn =? 0));;
  take_place (parent n) x z;;
  zn ← load z;
  modify x (set_left (right zn));;
  adopt (right zn) x;;
  modify x (set_parent z);;
  modify z (set_right x);;
  zn ← load z;
  if balance zn =? 0 then
    modify x (set_balance (-1));; modify z (set_balance 1);; mret false
  else
    modify x (set_balance 0);; modify z (set_balance 0);; mret true.

Definition muggle_avl_tree_rotate_right_left (node : loc) : AM unit :=
  n ← load node;
  let x := node in
  let z := right n in
  massert (negb (is_null z));;
  zn ← load z;
  let y := left zn in
  massert (negb (is_null y));;
  massert (balance n =? 2);;
  massert (balance zn =? -1);;
  yn ← load y;
  let t2 := left yn in
  let t3 := right yn in
  take_place (parent n) x y;;
  modify x (set_right t2);;
  adopt t2 x;;
  modify z (set_left t3);;
  adopt t3 z;;
  modify y (set_left x);;
  modify x (set_parent y);;
  modify y (set_right z);;
  modify z (set_parent y);;
  yn ← load y;
  (if 0 <? balance yn then modify x (set_balance (-1));; modify z (set_balance 0)
   else if balance yn =? 0 then modify x (set_balance 0);; modify z (set_balance 0)
   else modify x (set_balance 0);; modify z (set_balance 1));;
  modify y (set_balance 0).

Definition muggle_avl_tree_rotate_left_right (node : loc) : AM unit :=
  n ← load node;
  let x := node in
  let z := left n in
  massert (negb (is_null z));;
  zn ← load z;
  let y := right zn in
  massert (negb (is_null y));;
  massert (balance n =? -2);;
  massert (balance zn =? 1);;
  yn ← load y;
  let t2 := right yn in
  let t3 := left yn in
  take_place (parent n) x y;;
  modify x (set_left t2);;
  adopt t2 x;;
  modify z (set_right t3);;
  adopt t3 z;;
  modify y (set_left z);;
  modify z (set_parent y);;
  modify y (set_right x);;
  modify x (set_parent y);;
  yn ← load y;
  (if 0 <? balance yn then modify x (set_balance 0);; modify z (set_balance (-1))
   else if balance yn =? 0 then modify x (set_balance 0);; modify z (set_balance 0)
   else modify x (set_balance 1);; modify z (set_balance 0));;
  modify y (set_balance 0).

Definition muggle_avl_tree_rebalance (node : loc) : AM bool :=
  n ← load node;
  if balance n <? -1 then
    child ← load (left n);
    if balance child <=? 0 then muggle_avl_tree_rotate_right node
    else muggle_avl_tree_rotate_left_right node;; mret true
  else if 1 <? balance n then
    child ← load (right n);
    if 0 <=? balance child then muggle_avl_tree_rotate_left node
    else muggle_avl_tree_rotate_right_left node;; mret true
  else mret false.

(** [cmp] is [None] for NULL. *)
Definition muggle_avl_tree_init (cmp : option (ptr -> ptr -> Z)) (capacity : Z) (h : H)
  : outcome (option tree_st) :=
  match cmp with
  | None => mret None
  | Some cmp =>
      r ← init_pool capacity sizeof_node;
      match (r : option (option muggle_memory_pool)) with
      | None => mret None
      | Some p => mret (Some (mkst ∅ (mka p h) (mk LNull cmp) []))
      end
  end.

Definition muggle_avl_tree_clear (key_free value_free : bool) : AM unit :=
  t ← get_fld;
  c ← count;
  if is_null (root t) then mret tt
  else muggle_avl_tree_erase_node c (root t) key_free value_free.

Definition muggle_avl_tree_destroy (key_free value_free : bool) : AM unit :=
  muggle_avl_tree_clear key_free value_free;;
  destroy_pool.

Definition find_step (t : muggle_avl_tree) (d : ptr) (node : loc) : AM (loc + loc) :=
  if is_null node then mret (inr LNull)
  else
    n ← load node;
    let ret := cmp t d (key n) in
    if ret =? 0 then mret (inr node)
    else if ret <? 0 then mret (inl (left n))
    else mret (inl (right n)).

Definition muggle_avl_tree_find (d : ptr) : AM loc :=
  t ← get_fld;
  c ← count;
  loopM (S c) (find_step t d) (root t).

(** The descent of insert: [None] is a [return NULL], otherwise the parent of the
    new node, the new node, and its side. *)
Definition insert_step (t : muggle_avl_tree) (k : ptr) (node : loc)
  : AM (loc + option (loc * loc * side)) :=
  n ← load node;
  let ret := cmp t k (key n) in
  if ret =? 0 then mret (inr None)
  else if ret <? 0 then
    if negb (is_null (left n)) then mret (inl (left n))
    else
      new_node ← muggle_avl_tree_allocate_node;
      if is_null new_node then mret (inr None)
      else modify node (set_left new_node);; mret (inr (Some (node, new_node, SideLeft)))
  else
    if negb (is_null (right n)) then mret (inl (right n))
    else
      new_node ← muggle_avl_tree_allocate_node;
      if is_null new_node then mret (inr None)
      else modify node (set_right new_node);; mret (inr (Some (node, new_node, SideRight))).

(** The side of [node] under its parent [p]. *)
Definition side_of (p node : loc) : AM side :=
  pn ← load p;
  mret (if bool_decide (left pn = node) then SideLeft else SideRight).

(** One round of the retracing of insert. *)
Definition insert_retrace (st : loc * side) : AM (loc * side + unit) :=
  let '(node, insert_side) := st in
  if is_null node then mret (inr tt)
  else
    (match insert_side with
     | SideLeft => modify node (fun n => set_balance (swrap 8 (balance n - 1)) n)
     | SideRight => modify node (fun n => set_balance (swrap 8 (balance n + 1)) n)
     end);;
    n ← load node;
    if balance n =? 0 then mret (inr tt)
    else if (balance n =? 1) || (balance n =? -1) then
      if is_null (parent n) then mret (inr tt)
      else sd ← side_of (parent n) node; mret (inl (parent n, sd))
    else
      massert ((balance n =? 2) || (balance n =? -2));;
      muggle_avl_tree_rebalance node;;
      mret (inr tt).

Definition muggle_avl_tree_insert (k v : ptr) : AM loc :=
  t ← get_fld;
  if is_null (root t) then
    node ← muggle_avl_tree_allocate_node;
    if is_null node then mret LNull
    else
      modify node (set_key k);;
      modify node (set_value v);;
      modify node (set_balance 0);;
      set_root node;;
      mret node
  else
    c ← count;
    r ← loopM (S c) (insert_step t k) (root t);
    match (r : option (loc * loc * side)) with
    | None => mret LNull
    | Some (node, new_node, insert_side) =>
        modify new_node (set_parent node);;
        modify new_node (set_key k);;
        modify new_node (set_value v);;
        modify new_node (set_balance 0);;
        c ← count;
        loopM (S c) insert_retrace (node, insert_side);;
        mret new_node
    end.

(** The inner loops of remove: the rightmost node of the left subtree, the
    leftmost node of the right one. *)
Definition rightmost_step (target : loc) : AM (loc + loc) :=
  n ← load target;
  mret (if is_null (right n) then inr target else inl (right n)).
Definition leftmost_step (target : loc) : AM (loc + loc) :=
  n ← load target;
  mret (if is_null (left n) then inr target else inl (left n)).

(** Exchange of the key and value of two nodes. *)
Definition swap_data (node target : loc) : AM unit :=
  n ← load node;
  let tmp := key n in
  tn ← load target;
  modify node (set_key (key tn));;
  modify target (set_key tmp);;
  n ← load node;
  let tmp := value n in
  tn ← load target;
  modify node (set_value (value tn));;
  modify target (set_value tmp).

(** One round of the loop that moves the data into a leaf. *)
Definition to_leaf_step (node : loc) : AM (loc + loc) :=
  n ← load node;
  if is_null (left n) && is_null (right n) then mret (inr node)
  else
    c ← count;
    target ← (if negb (is_null (left n)) then loopM (S c) rightmost_step (left n)
              else loopM (S c) leftmost_step (right n));
    swap_data node target;;
    mret (inl target).

(** One round of the retracing of remove. *)
Definition remove_retrace (st : loc * side) : AM (loc * side + unit) :=
  let '(node, remove_side) := st in
  if is_null node then mret (inr tt)
  else
    (match remove_side with
     | SideLeft => modify node (fun n => set_balance (swrap 8 (balance n + 1)) n)
     | SideRight => modify node (fun n => set_balance (swrap 8 (balance n - 1)) n)
     end);;
    n ← load node;
    if (balance n =? 1) || (balance n =? -1) then mret (inr tt)
    else if balance n =? 0 then
      if is_null (parent n) then mret (inr tt)
      else sd ← side_of (parent n) node; mret (inl (parent n, sd))
    else
      massert ((balance n =? 2) || (balance n =? -2));;
      let parent := parent n in
      remove_side ← (if is_null parent then mret remove_side else side_of parent node);
      depth_decrease ← muggle_avl_tree_rebalance node;
      mret (if (depth_decrease : bool) then inl (parent, remove_side) else inr tt).

Definition muggle_avl_tree_remove (node : loc) (key_free value_free : bool) : AM unit :=
  c ← count;
  node ← loopM (S c) to_leaf_step node;
  n ← load node;
  if is_null (parent n) then
    muggle_avl_tree_erase_node (S c) node key_free value_free;;
    set_root LNull
  else
    remove_side ← side_of (parent n) node;
    let parent := parent n in
    muggle_avl_tree_erase_node (S c) node key_free value_free;;
    loopM (S c) remove_retrace (parent, remove_side).
End ops.
#[global] Arguments tree_st H : clear implicits.

(** ** The shape in the store *)

(** A tree with the addresses of its nodes and their fields. *)
Inductive tree : Type :=
| Leaf
| Node (p : loc) (b : Z) (k v : ptr) (l r : tree).

Definition root_of (t : tree) : loc := match t with Leaf => LNull | Node p _ _ _ _ _ => p end.

Fixpoint locs (t : tree) : list loc :=
  match t with Leaf => [] | Node p _ _ _ l r => p :: locs l ++ locs r end.

(** The keys and values from left to right, and with their nodes. *)
Fixpoint kvs (t : tree) : list (ptr * ptr) :=
  match t with Leaf => [] | Node _ _ k v l r => kvs l ++ (k, v) :: kvs r end.
Fixpoint ents (t : tree) : list (loc * (ptr * ptr)) :=
  match t with Leaf => [] | Node p _ k v l r => ents l ++ (p, (k, v)) :: ents r end.

Fixpoint height (t : tree) : Z :=
  match t with Leaf => 0 | Node _ _ _ _ l r => 1 + Z.max (height l) (height r) end.

(** The balance factors are right and in {-1, 0, 1}. *)
Fixpoint avl (t : tree) : Prop :=
  match t with
  | Leaf => True
  | Node _ b _ _ l r => avl l /\ avl r /\ b = height r - height l /\ -1 <= b <= 1
  end.

(** The store holds the tree, its root under [par]. *)
Fixpoint tree_in (m : gmap loc muggle_avl_tree_node) (par : loc) (t : tree) : Prop :=
  match t with
  | Leaf => True
  | Node p b k v l r =>
      m !! p = Some (mkn (root_of l) (root_of r) par b k v) /\ tree_in m p l /\ tree_in m p r
  end.

(** The path from a subtree to the root: for each ancestor its fields and the
    other subtree.  [FL]: the hole is on the left. *)
Inductive frame : Type :=
| FL (p : loc) (b : Z) (k v : ptr) (r : tree)
| FR (p : loc) (b : Z) (k v : ptr) (l : tree).

Definition fill (f : frame) (t : tree) : tree :=
  match f with
  | FL p b k v r => Node p b k v t r
  | FR p b k v l => Node p b k v l t
  end.
Definition plug (c : list frame) (t : tree) : tree := fold_left (fun t f => fill f t) c t.

Definition frame_loc (f : frame) : loc := match f with FL p _ _ _ _ | FR p _ _ _ _ => p end.
Definition frame_tree (f : frame) : tree := match f with FL _ _ _ _ t | FR _ _ _ _ t => t end.
Definition parent_of (c : list frame) : loc :=
  match c with [] => LNull | f :: _ => frame_loc f end.

Fixpoint ctx_in (m : gmap loc muggle_avl_tree_node) (c : list frame) (hole : loc) : Prop :=
  match c with
  | [] => True
  | FL p b k v r :: c' =>
      m !! p = Some (mkn hole (root_of r) (parent_of c') b k v) /\ tree_in m p r /\ ctx_in m c' p
  | FR p b k v l :: c' =>
      m !! p = Some (mkn (root_of l) hole (parent_of c') b k v) /\ tree_in m p l /\ ctx_in m c' p
  end.

Fixpoint clocs (c : list frame) : list loc :=
  match c with [] => [] | f :: c' => frame_loc f :: locs (frame_tree f) ++ clocs c' end.

(** The keys and values left and right of the hole. *)
Fixpoint lkvs (c : list frame) : list (ptr * ptr) :=
  match c with
  | [] => []
  | FL _ _ _ _ _ :: c' => lkvs c'
  | FR _ _ k v l :: c' => lkvs c' ++ kvs l ++ [(k, v)]
  end.
Fixpoint rkvs (c : list frame) : list (ptr * ptr) :=
  match c with
  | [] => []
  | FL _ _ k v r :: c' => (k, v) :: kvs r ++ rkvs c'
  | FR _ _ _ _ _ :: c' => rkvs c'
  end.

Lemma kvs_plug c t : kvs (plug c t) = lkvs c ++ kvs t ++ rkvs c.
Proof.
  revert t. induction c as [|[p b k v r|p b k v l] c IH]; intros t; simpl.
  - by rewrite app_nil_r.
  - rewrite IH. simpl. by rewrite <- !(assoc_L (++)).
  - rewrite IH. simpl. by rewrite <- !(assoc_L (++)).
Qed.

Lemma locs_plug c t : locs (plug c t) ≡ₚ clocs c ++ locs t.
Proof.
  revert t. induction c as [|[p b k v r|p b k v l] c IH]; intros t; simpl; [done|..];
    rewrite IH; simpl; solve_Permutation.
Qed.

Lemma plug_in m c t :
  tree_in m LNull (plug c t) <-> ctx_in m c (root_of t) /\ tree_in m (parent_of c) t.
Proof.
  revert t. induction c as [|[p b k v r|p b k v l] c IH]; intros t; simpl; [tauto|..];
    rewrite IH; simpl; tauto.
Qed.

Lemma tree_in_agree m m' par t :
  (forall x, x ∈ locs t -> m' !! x = m !! x) -> tree_in m par t -> tree_in m' par t.
Proof.
  revert par. induction t as [|p b k v l IHl r IHr]; intros par Hag; simpl; [done|].
  intros (Hp & Hl & Hr). split; [rewrite Hag; [done|left]|].
  split; [apply IHl|apply IHr]; try done; intros x Hx; apply Hag; simpl; right;
    apply elem_of_app; tauto.
Qed.

Lemma ctx_in_agree m m' c h :
  (forall x, x ∈ clocs c -> m' !! x = m !! x) -> ctx_in m c h -> ctx_in m' c h.
Proof.
  revert h. induction c as [|f c IH]; intros h Hag; simpl; [done|].
  assert (m' !! frame_loc f = m !! frame_loc f) as E by (apply Hag; left).
  assert (forall par, tree_in m par (frame_tree f) -> tree_in m' par (frame_tree f)) as Ht.
  { intros par. apply tree_in_agree. intros x Hx. apply Hag. simpl. right. apply elem_of_app. by left. }
  assert (forall h, ctx_in m c h -> ctx_in m' c h) as Hc.
  { intros h'. apply IH. intros x Hx. apply Hag. simpl. right. apply elem_of_app. by right. }
  destruct f; simpl in *; rewrite E; naive_solver.
Qed.

Lemma tree_in_insert m par t p n :
  p ∉ locs t -> tree_in m par t -> tree_in (<[p := n]> m) par t.
Proof. intros Hp. apply tree_in_agree. intros x Hx. rewrite lookup_insert_ne; [done|]. by intros ->. Qed.

Lemma ctx_in_insert m c h p n :
  p ∉ clocs c -> ctx_in m c h -> ctx_in (<[p := n]> m) c h.
Proof. intros Hp. apply ctx_in_agree. intros x Hx. rewrite lookup_insert_ne; [done|]. by intros ->. Qed.

Lemma parent_of_elem c : c <> [] -> parent_of c ∈ clocs c.
Proof. destruct c; [done|]. intros _. left. Qed.

(** The root of the whole tree: that of the subtree when there is no path. *)
Lemma root_plug c t t' : c <> [] -> root_of (plug c t) = root_of (plug c t').
Proof.
  revert t t'. induction c as [|f c IH]; intros t t' Hc; [done|]. simpl.
  destruct c as [|g c]; [by destruct f|]. by apply IH.
Qed.

Lemma root_plug_elem c t : c <> [] -> root_of (plug c t) ∈ clocs c.
Proof.
  revert t. induction c as [|f c IH]; intros t Hc; [done|]. simpl.
  destruct c as [|g c]; [destruct f; left|]. right. apply elem_of_app. right. by apply IH.
Qed.

Lemma height_nonneg t : 0 <= height t.
Proof. induction t; simpl; lia. Qed.

Lemma ents_kvs t : (ents t).*2 = kvs t.
Proof. induction t as [|p b k v l IHl r IHr]; simpl; [done|]. by rewrite fmap_app, fmap_cons, IHl, IHr. Qed.

Lemma ents_locs t : (ents t).*1 ≡ₚ locs t.
Proof.
  induction t as [|p b k v l IHl r IHr]; simpl; [done|].
  rewrite fmap_app, fmap_cons, IHl, IHr. simpl. solve_Permutation.
Qed.

Section shape.
Context {H : Type} `{!NodeMalloc H}.

(** The structure holds the tree: its store, root and nodes in use. *)
Record shape (s : tree_st H) (t : tree) : Prop := {
  shape_tree : tree_in (mem s) LNull t;
  shape_nodup : NoDup (locs t);
  shape_null : LNull ∉ locs t;
  shape_root : root (fld s) = root_of t;
  shape_dom : forall p, p ∈ dom (mem s) <-> p ∈ locs t;
  shape_owns : exists out, arena_owns (ar s) out /\ forall p, p ∈ out <-> p ∈ locs t
}.

(** What the zipper sees. *)
Lemma shape_plug s c t :
  shape s (plug c t) ->
  ctx_in (mem s) c (root_of t) /\ tree_in (mem s) (parent_of c) t /\
  NoDup (clocs c ++ locs t) /\ LNull ∉ clocs c ++ locs t.
Proof.
  intros [Ht Hnd Hnull _ _ _]. rewrite plug_in in Ht. rewrite locs_plug in Hnd, Hnull. tauto.
Qed.

(** Replacing a subtree by one of the same nodes. *)
Lemma shape_update s c t m' rt' t' cs :
  shape s (plug c t) -> ctx_in m' c (root_of t') -> tree_in m' (parent_of c) t' ->
  locs t' ≡ₚ locs t -> dom m' = dom (mem s) -> rt' = root_of (plug c t') ->
  shape (mkst m' (ar s) (mk rt' (cmp (fld s))) cs) (plug c t').
Proof.
  intros [_ Hnd Hnull _ Hdom (out & Ho & Hout)] Hc Ht Hp Hd ->.
  assert (locs (plug c t') ≡ₚ locs (plug c t)) as HP by (by rewrite !locs_plug, Hp).
  split; simpl; rewrite ?HP; try done.
  - by apply plug_in.
  - intros p. by rewrite Hd, HP.
  - exists out. split; [done|]. intros p. by rewrite HP.
Qed.
End shape.
End AvlTree.
