(* ===== verification/AvlTreeRotate.v ===== *)
(** The rotations of avl_tree.c: each leaves a tree with the same nodes in the
    same order, right balance factors, and a height that its result reports. *)

From stdpp Require Import base gmap sets list numbers.
From Stdlib Require Import ZArith Lia.
From S2P Require Import Prelude Dsaa MemoryPool NodeMem AvlTree.
Import MemoryPool(block, muggle_memory_pool).
Import AvlTree.

Open Scope Z_scope.

Module AvlTreeRotate.

(** Split what is known of the nodes of a tree into facts about its parts. *)
Ltac nd_split :=
  repeat match goal with
  | Hh : NoDup (_ ++ _) |- _ => apply list.NoDup_app in Hh as (? & ? & ?)
  | Hh : NoDup (_ :: _) |- _ => apply list.NoDup_cons in Hh as [? ?]
  | Hh : forall y, y ∈ ?A ++ ?B -> y ∉ ?C |- _ =>
      assert (forall y, y ∈ A -> y ∉ C) by (intros; apply Hh, elem_of_app; by left);
      assert (forall y, y ∈ B -> y ∉ C) by (intros; apply Hh, elem_of_app; by right); clear Hh
  | Hh : forall y, y ∈ ?a :: ?B -> y ∉ ?C |- _ =>
      assert (a ∉ C) by (apply Hh; left);
      assert (forall y, y ∈ B -> y ∉ C) by (intros; apply Hh; by right); clear Hh
  | Hh : _ ∉ _ ++ _ |- _ => apply not_elem_of_app in Hh as [? ?]
  | Hh : _ ∉ _ :: _ |- _ => apply not_elem_of_cons in Hh as [? ?]
  end.
Ltac elem := solve [repeat rewrite ?elem_of_cons, ?elem_of_app; intuition].
Ltac nd_solve :=
  first [ assumption | congruence
        | match goal with
          | Hd : forall y, y ∈ ?L -> y ∉ _, Hin : ?y ∈ ?L |- _ =>
              let Hh := fresh in pose proof (Hd _ Hin) as Hh;
              repeat rewrite ?not_elem_of_cons, ?not_elem_of_app in Hh; solve [intuition congruence]
          end
        | let Hin := fresh in intros Hin;
          match goal with
          | Hd : forall y, y ∈ ?L -> y ∉ _ |- _ => apply (Hd _ Hin); elem
          end
        | let E := fresh in intros E; subst;
          match goal with
          | Hn : ?y ∉ ?L, Hin : ?y ∈ ?L |- _ => by apply Hn in Hin
          | Hd : forall y, y ∈ ?L -> y ∉ _, Hin : _ ∈ ?L |- _ => apply (Hd _ Hin); elem
          end ].
Ltac lookups :=
  repeat first [ rewrite lookup_insert_eq | rewrite lookup_insert_ne by nd_solve ].
Ltac keep :=
  repeat first [ apply tree_in_insert; [nd_solve|] | apply ctx_in_insert; [nd_solve|] ].

Ltac mod_step := eapply wpm_modify; [simpl; lookups; done|]; simpl.
Ltac load_step := eapply wpm_load; [simpl; lookups; done|]; simpl.
Ltac doms := repeat (rewrite dom_insert_lookup_L by (eexists; lookups; done)).

(** The cells of the rotated nodes, and the others. *)
Ltac rotated :=
  first [ done | simpl; lookups; done | simpl; doms; done | intros; lookups; done ].

Section rotate.
Context {H : Type} `{!NodeMalloc H}.
Context `{Malloc (list Z)} `{Malloc block} `{Malloc Z} `{Malloc muggle_memory_pool}.
Implicit Types (s : tree_st H) (c : list frame) (t : tree).

Lemma wpm_massert (b : bool) s Q : b = true -> Q tt s -> wpm (massert b) s Q.
Proof. by intros ->. Qed.

(** The hole of a path gets a new root. *)
Lemma ctx_in_hole (m : gmap loc muggle_avl_tree_node) c x z :
  ctx_in m c x -> NoDup (clocs c) -> x ∉ clocs c -> x <> LNull -> c <> [] ->
  exists n, m !! parent_of c = Some n /\ forall n',
    n' = (if bool_decide (x = left n) then set_left z n else set_right z n) ->
    ctx_in (<[parent_of c := n']> m) c z.
Proof.
  destruct c as [|[p b k v t|p b k v t] c]; simpl; [done|..];
    intros (Ep & Ht & Hc) [Hp Hnd]%list.NoDup_cons Hx Hx0 _; eexists; (split; [done|]);
    rewrite not_elem_of_app in Hp; destruct Hp as [Hpt Hpc]; intros n' ->; simpl.
  - rewrite bool_decide_true by done. rewrite lookup_insert_eq. split; [done|].
    split; [by apply tree_in_insert|by apply ctx_in_insert].
  - rewrite bool_decide_false; [rewrite lookup_insert_eq; split; [done|];
      split; [by apply tree_in_insert|by apply ctx_in_insert]|].
    intros ->. apply Hx. destruct t as [|q b' k' v' l r]; [done|]. simpl. right. left.
Qed.

(** [take_place]: the new root of the subtree hangs under the old parent. *)
Lemma take_place_wp s c t x z zn Q :
  shape s (plug c t) -> root_of t = x -> x <> LNull -> x ∉ clocs c -> z ∉ clocs c ->
  mem s !! z = Some zn ->
  (forall m' rt, ctx_in m' c z -> m' !! z = Some (set_parent (parent_of c) zn) ->
     (forall y, y ∉ clocs c -> y <> z -> m' !! y = mem s !! y) -> dom m' = dom (mem s) ->
     (forall t', root_of t' = z -> rt = root_of (plug c t')) ->
     Q tt (mkst m' (ar s) (mk rt (cmp (fld s))) (calls s))) ->
  wpm (take_place (parent_of c) x z) s Q.
Proof.
  intros Hs Hx Hx0 Hxc Hzc Ez HQ. destruct (shape_plug _ _ _ Hs) as (Hc & Ht & Hnd & Hnull).
  rewrite Hx in Hc. pose proof (shape_root _ _ Hs) as Hroot.
  assert (forall m1 Q', (forall m2 rt, m2 = <[z := set_parent (parent_of c) zn]> m1 ->
      (forall t', root_of t' = z -> rt = root_of (plug c t')) ->
      Q' tt (mkst m2 (ar s) (mk rt (cmp (fld s))) (calls s))) ->
    m1 !! z = Some zn ->
    wpm (modify z (set_parent (parent_of c));; t ← get_fld;
         if bool_decide (root t = x) then set_root z else mret tt)
      (mkst m1 (ar s) (fld s) (calls s)) Q') as Htail.
  { intros m1 Q' HQ' Ez1. apply wpm_bind, (wpm_modify _ _ zn); [done|]. apply wpm_bind, wpm_get_fld.
    simpl. destruct c as [|f c].
    - simpl in Hroot. rewrite Hroot, bool_decide_true by done. apply wpm_set_fld. simpl.
      apply HQ'; [done|]. by intros t' <-.
    - rewrite bool_decide_false.
      + apply wpm_ret. destruct s as [ms as' [rt cm] cs]. simpl in *. subst rt.
        apply HQ'; [done|]. intros t' _. by apply (root_plug (f :: c)).
      + rewrite Hroot. intros <-. by apply Hxc, root_plug_elem. }
  unfold take_place. destruct (decide (c = [])) as [->|Hne].
  - simpl. apply wpm_bind, wpm_ret. destruct s as [ms as' fs cs]. apply Htail; [|done].
    intros m2 rt -> Hrt. apply HQ; try done.
    + by rewrite lookup_insert_eq.
    + intros y _ Hy. by rewrite lookup_insert_ne.
    + apply dom_insert_lookup_L. by exists zn.
  - apply list.NoDup_app in Hnd as (Hndc & _ & _). rewrite not_elem_of_app in Hnull.
    destruct (ctx_in_hole (mem s) c x z Hc Hndc Hxc Hx0 Hne) as (pn & Ep & Hc').
    pose proof (parent_of_elem c Hne) as Hpc. apply wpm_bind. unfold is_null at 1.
    rewrite bool_decide_false by (intros E; rewrite E in Hpc; tauto).
    assert (z <> parent_of c) as Hzp by (by intros ->).
    apply wpm_bind, (wpm_load _ pn); [done|].
    assert (forall n', n' = (if bool_decide (x = left pn) then set_left z pn else set_right z pn) ->
      wpm (modify z (set_parent (parent_of c));; t ← get_fld;
           if bool_decide (root t = x) then set_root z else mret tt)
        (mkst (<[parent_of c := n']> (mem s)) (ar s) (fld s) (calls s)) Q) as Hgo.
    { intros n' Hn'. apply Htail; [|by rewrite lookup_insert_ne]. intros m2 rt -> Hrt. apply HQ.
      - apply ctx_in_insert; [done|]. by apply Hc'.
      - by rewrite lookup_insert_eq.
      - intros y Hy Hyz. rewrite !lookup_insert_ne; [done| |done]. by intros <-.
      - rewrite dom_insert_lookup_L by (exists zn; by rewrite lookup_insert_ne).
        apply dom_insert_lookup_L. by exists pn.
      - done. }
    case_bool_decide; (apply (wpm_modify _ _ pn); [done|]); by apply Hgo.
Qed.

(** [adopt]: the subtree hangs under a new parent. *)
Lemma adopt_wp s t par par' Q :
  tree_in (mem s) par t -> NoDup (locs t) -> LNull ∉ locs t ->
  (forall m', tree_in m' par' t -> (forall y, y ∉ locs t -> m' !! y = mem s !! y) ->
     dom m' = dom (mem s) -> Q tt (mkst m' (ar s) (fld s) (calls s))) ->
  wpm (adopt (root_of t) par') s Q.
Proof.
  intros Ht Hnd Hnull HQ. unfold adopt. destruct t as [|p b k v l r]; simpl in *.
  - apply wpm_ret. destruct s. by apply HQ.
  - destruct Ht as (Ep & Hl & Hr). apply list.NoDup_cons in Hnd as [Hp Hnd].
    rewrite not_elem_of_app in Hp. apply not_elem_of_cons in Hnull as [Hp0 _].
    unfold is_null. rewrite bool_decide_false by done.
    eapply wpm_modify; [done|]. apply HQ.
    + rewrite lookup_insert_eq. split; [done|]. split; apply tree_in_insert; tauto.
    + intros y Hy. rewrite lookup_insert_ne; [done|]. intros <-. apply Hy. left.
    + apply dom_insert_lookup_L. by eexists.
Qed.

Lemma rotate_left_wp s c x kx vx t1 z bz kz vz t23 t4 :
  shape s (plug c (Node x 2 kx vx t1 (Node z bz kz vz t23 t4))) -> bz = 0 \/ bz = 1 ->
  wpm (muggle_avl_tree_rotate_left x) s (fun r s' => r = negb (bz =? 0) /\
    shape s' (plug c (Node z (bz - 1) kz vz (Node x (1 - bz) kx vx t1 t23) t4)) /\
    cmp (fld s') = cmp (fld s) /\ calls s' = calls s).
Proof.
  intros Hs Hbz. destruct (shape_plug _ _ _ Hs) as (Hc & (Ex & Ht1 & Ez & Ht23 & Ht4) & Hnd & Hnull).
  simpl in Hc, Hnd, Hnull. nd_split.
  unfold muggle_avl_tree_rotate_left. apply wpm_bind. eapply wpm_load; [done|].
  simpl. apply wpm_bind, wpm_massert; [unfold is_null; by rewrite bool_decide_false|].
  apply wpm_bind. eapply wpm_load; [done|].
  apply wpm_bind, wpm_massert; [done|].
  apply wpm_bind, wpm_massert; [simpl; by destruct Hbz as [->| ->]|].
  apply wpm_bind. eapply take_place_wp; [done|done|done|nd_solve|nd_solve|done|].
  intros m1 rt Hc1 Ez1 Hag1 Hd1 Hrt.
  assert (m1 !! x = mem s !! x) as Ex1 by (apply Hag1; nd_solve). rewrite Ex in Ex1.
  assert (tree_in m1 x t1 /\ tree_in m1 z t23 /\ tree_in m1 z t4) as (Ht1' & Ht23' & Ht4').
  { split_and!; (eapply tree_in_agree; [|done]); intros y Hy; apply Hag1; nd_solve. }
  apply wpm_bind. eapply wpm_load; [done|]. simpl.
  apply wpm_bind. eapply wpm_modify; [done|]. simpl.
  apply wpm_bind. eapply (adopt_wp _ t23 z x); simpl; [keep; done|done|done|].
  intros m2 Ht23'' Hag2 Hd2.
  assert (m2 !! z = Some (set_parent (parent_of c) (mkn (root_of t23) (root_of t4) x bz kz vz)) /\
    m2 !! x = Some (mkn (root_of t1) (root_of t23) (parent_of c) 2 kx vx) /\
    tree_in m2 x t1 /\ tree_in m2 z t4 /\ ctx_in m2 c z) as (Ez2 & Ex2 & Ht1'' & Ht4'' & Hc2).
  { split_and!.
    - rewrite Hag2 by nd_solve. lookups. done.
    - rewrite Hag2 by nd_solve. lookups. done.
    - eapply tree_in_agree; [|done]. intros y Hy. rewrite Hag2 by nd_solve. by lookups.
    - eapply tree_in_agree; [|done]. intros y Hy. rewrite Hag2 by nd_solve. by lookups.
    - eapply ctx_in_agree; [|done]. intros y Hy. rewrite Hag2 by nd_solve. by lookups. }
  simpl. apply wpm_bind. mod_step. apply wpm_bind. mod_step. apply wpm_bind. load_step.
  assert (forall b b', b = 1 - bz -> b' = bz - 1 -> forall m',
    m' !! x = Some (mkn (root_of t1) (root_of t23) z b kx vx) ->
    m' !! z = Some (mkn x (root_of t4) (parent_of c) b' kz vz) -> dom m' = dom m2 ->
    (forall y, y <> x -> y <> z -> m' !! y = m2 !! y) ->
    shape (mkst m' (ar s) (mk rt (cmp (fld s))) (calls s))
      (plug c (Node z (bz - 1) kz vz (Node x (1 - bz) kx vx t1 t23) t4))) as Hfin.
  { intros b b' -> -> m' Ex' Ez' Hd' Hag'. eapply shape_update; [done| | | | |by apply Hrt].
    - simpl. eapply ctx_in_agree; [|done]. intros y Hy. apply Hag'; nd_solve.
    - simpl. split_and!; try done; (eapply tree_in_agree; [|done]); intros y Hy; apply Hag'; nd_solve.
    - simpl. solve_Permutation.
    - rewrite Hd', Hd2. doms. done. }
  destruct Hbz as [-> | ->]; simpl; apply wpm_bind; mod_step; apply wpm_bind; mod_step; apply wpm_ret;
    (split; [done|split; [|done]]); eapply (Hfin _ _ eq_refl eq_refl); rotated.
Qed.

Lemma rotate_right_wp s c x kx vx t1 z bz kz vz t23 t4 :
  shape s (plug c (Node x (-2) kx vx (Node z bz kz vz t4 t23) t1)) -> bz = 0 \/ bz = -1 ->
  wpm (muggle_avl_tree_rotate_right x) s (fun r s' => r = negb (bz =? 0) /\
    shape s' (plug c (Node z (bz + 1) kz vz t4 (Node x (-1 - bz) kx vx t23 t1))) /\
    cmp (fld s') = cmp (fld s) /\ calls s' = calls s).
Proof.
  intros Hs Hbz. destruct (shape_plug _ _ _ Hs) as (Hc & (Ex & (Ez & Ht4 & Ht23) & Ht1) & Hnd & Hnull).
  simpl in Hc, Hnd, Hnull. nd_split.
  unfold muggle_avl_tree_rotate_right. apply wpm_bind. eapply wpm_load; [done|].
  simpl. apply wpm_bind, wpm_massert; [unfold is_null; by rewrite bool_decide_false|].
  apply wpm_bind. eapply wpm_load; [done|].
  apply wpm_bind, wpm_massert; [done|].
  apply wpm_bind, wpm_massert; [simpl; by destruct Hbz as [->| ->]|].
  apply wpm_bind. eapply take_place_wp; [done|done|done|nd_solve|nd_solve|done|].
  intros m1 rt Hc1 Ez1 Hag1 Hd1 Hrt.
  assert (m1 !! x = mem s !! x) as Ex1 by (apply Hag1; nd_solve). rewrite Ex in Ex1.
  assert (tree_in m1 x t1 /\ tree_in m1 z t23 /\ tree_in m1 z t4) as (Ht1' & Ht23' & Ht4').
  { split_and!; (eapply tree_in_agree; [|done]); intros y Hy; apply Hag1; nd_solve. }
  apply wpm_bind. eapply wpm_load; [done|]. simpl.
  apply wpm_bind. eapply wpm_modify; [done|]. simpl.
  apply wpm_bind. eapply (adopt_wp _ t23 z x); simpl; [keep; done|done|done|].
  intros m2 Ht23'' Hag2 Hd2.
  assert (m2 !! z = Some (set_parent (parent_of c) (mkn (root_of t4) (root_of t23) x bz kz vz)) /\
    m2 !! x = Some (mkn (root_of t23) (root_of t1) (parent_of c) (-2) kx vx) /\
    tree_in m2 x t1 /\ tree_in m2 z t4 /\ ctx_in m2 c z) as (Ez2 & Ex2 & Ht1'' & Ht4'' & Hc2).
  { split_and!.
    - rewrite Hag2 by nd_solve. lookups. done.
    - rewrite Hag2 by nd_solve. lookups. done.
    - eapply tree_in_agree; [|done]. intros y Hy. rewrite Hag2 by nd_solve. by lookups.
    - eapply tree_in_agree; [|done]. intros y Hy. rewrite Hag2 by nd_solve. by lookups.
    - eapply ctx_in_agree; [|done]. intros y Hy. rewrite Hag2 by nd_solve. by lookups. }
  simpl. apply wpm_bind. mod_step. apply wpm_bind. mod_step. apply wpm_bind. load_step.
  assert (forall b b', b = -1 - bz -> b' = bz + 1 -> forall m',
    m' !! x = Some (mkn (root_of t23) (root_of t1) z b kx vx) ->
    m' !! z = Some (mkn (root_of t4) x (parent_of c) b' kz vz) -> dom m' = dom m2 ->
    (forall y, y <> x -> y <> z -> m' !! y = m2 !! y) ->
    shape (mkst m' (ar s) (mk rt (cmp (fld s))) (calls s))
      (plug c (Node z (bz + 1) kz vz t4 (Node x (-1 - bz) kx vx t23 t1)))) as Hfin.
  { intros b b' -> -> m' Ex' Ez' Hd' Hag'. eapply shape_update; [done| | | | |by apply Hrt].
    - simpl. eapply ctx_in_agree; [|done]. intros y Hy. apply Hag'; nd_solve.
    - simpl. split_and!; try done; (eapply tree_in_agree; [|done]); intros y Hy; apply Hag'; nd_solve.
    - simpl. solve_Permutation.
    - rewrite Hd', Hd2. doms. done. }
  destruct Hbz as [-> | ->]; simpl; apply wpm_bind; mod_step; apply wpm_bind; mod_step; apply wpm_ret;
    (split; [done|split; [|done]]); eapply (Hfin _ _ eq_refl eq_refl); rotated.
Qed.

Lemma rotate_right_left_wp s c x kx vx t1 z kz vz y by_ ky vy t2 t3 t4 :
  shape s (plug c (Node x 2 kx vx t1 (Node z (-1) kz vz (Node y by_ ky vy t2 t3) t4))) ->
  wpm (muggle_avl_tree_rotate_right_left x) s (fun _ s' =>
    shape s' (plug c (Node y 0 ky vy (Node x (if 0 <? by_ then -1 else 0) kx vx t1 t2)
                                     (Node z (if by_ <? 0 then 1 else 0) kz vz t3 t4))) /\
    cmp (fld s') = cmp (fld s) /\ calls s' = calls s).
Proof.
  intros Hs.
  destruct (shape_plug _ _ _ Hs) as (Hc & (Ex & Ht1 & Ez & (Ey & Ht2 & Ht3) & Ht4) & Hnd & Hnull).
  simpl in Hc, Hnd, Hnull. nd_split.
  unfold muggle_avl_tree_rotate_right_left. apply wpm_bind. eapply wpm_load; [done|].
  simpl. apply wpm_bind, wpm_massert; [unfold is_null; by rewrite bool_decide_false|].
  apply wpm_bind. eapply wpm_load; [done|]. simpl.
  apply wpm_bind, wpm_massert; [unfold is_null; by rewrite bool_decide_false|].
  apply wpm_bind, wpm_massert; [done|]. apply wpm_bind, wpm_massert; [done|].
  apply wpm_bind. eapply wpm_load; [done|]. simpl.
  apply wpm_bind. eapply take_place_wp; [done|done|done|nd_solve|nd_solve|done|].
  intros m1 rt Hc1 Ey1 Hag1 Hd1 Hrt.
  assert (m1 !! x = mem s !! x) as Ex1 by (apply Hag1; nd_solve). rewrite Ex in Ex1.
  assert (m1 !! z = mem s !! z) as Ez1 by (apply Hag1; nd_solve). rewrite Ez in Ez1.
  assert (tree_in m1 x t1 /\ tree_in m1 y t2 /\ tree_in m1 y t3 /\ tree_in m1 z t4)
    as (Ht1' & Ht2' & Ht3' & Ht4').
  { split_and!; (eapply tree_in_agree; [|done]); intros q Hq; apply Hag1; nd_solve. }
  apply wpm_bind. eapply wpm_modify; [done|]. simpl.
  apply wpm_bind. eapply (adopt_wp _ t2 y x); simpl; [keep; done|done|done|].
  intros m2 Ht2a Hag2 Hd2.
  assert (m2 !! z = m1 !! z) as Ez2 by (rewrite Hag2 by nd_solve; by lookups). rewrite Ez1 in Ez2.
  apply wpm_bind. eapply wpm_modify; [done|]. simpl.
  assert (tree_in m2 y t3) as Ht3a.
  { eapply tree_in_agree; [|exact Ht3']. intros q Hq. rewrite Hag2 by nd_solve. by lookups. }
  apply wpm_bind. eapply (adopt_wp _ t3 y z); simpl; [keep; done|done|done|].
  intros m3 Ht3b Hag3 Hd3.
  assert (m3 !! z = Some (mkn (root_of t3) (root_of t4) x (-1) kz vz) /\
    m3 !! x = Some (mkn (root_of t1) (root_of t2) (parent_of c) 2 kx vx) /\
    m3 !! y = Some (mkn (root_of t2) (root_of t3) (parent_of c) by_ ky vy) /\
    tree_in m3 x t1 /\ tree_in m3 x t2 /\ tree_in m3 z t4 /\ ctx_in m3 c y)
    as (Ez3 & Ex3 & Ey3 & Ht1b & Ht2b & Ht4b & Hc3).
  { split_and!.
    - rewrite Hag3 by nd_solve. lookups. done.
    - rewrite Hag3 by nd_solve. lookups. rewrite Hag2 by nd_solve. lookups. done.
    - rewrite Hag3 by nd_solve. lookups. rewrite Hag2 by nd_solve. lookups. done.
    - eapply tree_in_agree; [|exact Ht1']. intros q Hq. rewrite Hag3 by nd_solve. lookups.
      rewrite Hag2 by nd_solve. by lookups.
    - eapply tree_in_agree; [|exact Ht2a]. intros q Hq. rewrite Hag3 by nd_solve. by lookups.
    - eapply tree_in_agree; [|exact Ht4']. intros q Hq. rewrite Hag3 by nd_solve. lookups.
      rewrite Hag2 by nd_solve. by lookups.
    - eapply ctx_in_agree; [|exact Hc1]. intros q Hq. rewrite Hag3 by nd_solve. lookups.
      rewrite Hag2 by nd_solve. by lookups. }
  simpl. apply wpm_bind. mod_step. apply wpm_bind. mod_step. apply wpm_bind. mod_step.
  apply wpm_bind. mod_step. apply wpm_bind. load_step.
  assert (forall b b', b = (if 0 <? by_ then -1 else 0) -> b' = (if by_ <? 0 then 1 else 0) -> forall m',
    m' !! x = Some (mkn (root_of t1) (root_of t2) y b kx vx) ->
    m' !! z = Some (mkn (root_of t3) (root_of t4) y b' kz vz) ->
    m' !! y = Some (mkn x z (parent_of c) 0 ky vy) -> dom m' = dom m3 ->
    (forall q, q <> x -> q <> z -> q <> y -> m' !! q = m3 !! q) ->
    shape (mkst m' (ar s) (mk rt (cmp (fld s))) (calls s))
      (plug c (Node y 0 ky vy (Node x (if 0 <? by_ then -1 else 0) kx vx t1 t2)
                              (Node z (if by_ <? 0 then 1 else 0) kz vz t3 t4)))) as Hfin.
  { intros b b' <- <- m' Ex' Ez' Ey' Hd' Hag'. eapply shape_update; [done| | | | |by apply Hrt].
    - simpl. eapply ctx_in_agree; [|done]. intros q Hq. apply Hag'; nd_solve.
    - simpl. split_and!; try done; (eapply tree_in_agree; [|done]); intros q Hq; apply Hag'; nd_solve.
    - simpl. solve_Permutation.
    - rewrite Hd', Hd3. doms. rewrite Hd2. doms. done. }
  destruct (Z.ltb_spec 0 by_) as [Hb|Hb]; [|destruct (Z.eqb_spec by_ 0)]; simpl;
    apply wpm_bind, wpm_bind; mod_step; mod_step; mod_step; (split; [|done]).
  - rewrite (proj2 (Z.ltb_ge by_ 0)) in * by lia. apply (Hfin (-1) 0); rotated.
  - rewrite (proj2 (Z.ltb_ge by_ 0)) in * by lia. apply (Hfin 0 0); rotated.
  - rewrite (proj2 (Z.ltb_lt by_ 0)) in * by lia. apply (Hfin 0 1); rotated.
Qed.

Lemma rotate_left_right_wp s c x kx vx t1 z kz vz y by_ ky vy t2 t3 t4 :
  shape s (plug c (Node x (-2) kx vx (Node z 1 kz vz t4 (Node y by_ ky vy t3 t2)) t1)) ->
  wpm (muggle_avl_tree_rotate_left_right x) s (fun _ s' =>
    shape s' (plug c (Node y 0 ky vy (Node z (if 0 <? by_ then -1 else 0) kz vz t4 t3)
                                     (Node x (if by_ <? 0 then 1 else 0) kx vx t2 t1))) /\
    cmp (fld s') = cmp (fld s) /\ calls s' = calls s).
Proof.
  intros Hs.
  destruct (shape_plug _ _ _ Hs) as (Hc & (Ex & (Ez & Ht4 & Ey & Ht3 & Ht2) & Ht1) & Hnd & Hnull).
  simpl in Hc, Hnd, Hnull. nd_split.
  unfold muggle_avl_tree_rotate_left_right. apply wpm_bind. eapply wpm_load; [done|].
  simpl. apply wpm_bind, wpm_massert; [unfold is_null; by rewrite bool_decide_false|].
  apply wpm_bind. eapply wpm_load; [done|]. simpl.
  apply wpm_bind, wpm_massert; [unfold is_null; by rewrite bool_decide_false|].
  apply wpm_bind, wpm_massert; [done|]. apply wpm_bind, wpm_massert; [done|].
  apply wpm_bind. eapply wpm_load; [done|]. simpl.
  apply wpm_bind. eapply take_place_wp; [done|done|done|nd_solve|nd_solve|done|].
  intros m1 rt Hc1 Ey1 Hag1 Hd1 Hrt.
  assert (m1 !! x = mem s !! x) as Ex1 by (apply Hag1; nd_solve). rewrite Ex in Ex1.
  assert (m1 !! z = mem s !! z) as Ez1 by (apply Hag1; nd_solve). rewrite Ez in Ez1.
  assert (tree_in m1 x t1 /\ tree_in m1 y t2 /\ tree_in m1 y t3 /\ tree_in m1 z t4)
    as (Ht1' & Ht2' & Ht3' & Ht4').
  { split_and!; (eapply tree_in_agree; [|done]); intros q Hq; apply Hag1; nd_solve. }
  apply wpm_bind. eapply wpm_modify; [done|]. simpl.
  apply wpm_bind. eapply (adopt_wp _ t2 y x); simpl; [keep; done|done|done|].
  intros m2 Ht2a Hag2 Hd2.
  assert (m2 !! z = m1 !! z) as Ez2 by (rewrite Hag2 by nd_solve; by lookups). rewrite Ez1 in Ez2.
  apply wpm_bind. eapply wpm_modify; [done|]. simpl.
  assert (tree_in m2 y t3) as Ht3a.
  { eapply tree_in_agree; [|exact Ht3']. intros q Hq. rewrite Hag2 by nd_solve. by lookups. }
  apply wpm_bind. eapply (adopt_wp _ t3 y z); simpl; [keep; done|done|done|].
  intros m3 Ht3b Hag3 Hd3.
  assert (m3 !! z = Some (mkn (root_of t4) (root_of t3) x 1 kz vz) /\
    m3 !! x = Some (mkn (root_of t2) (root_of t1) (parent_of c) (-2) kx vx) /\
    m3 !! y = Some (mkn (root_of t3) (root_of t2) (parent_of c) by_ ky vy) /\
    tree_in m3 x t1 /\ tree_in m3 x t2 /\ tree_in m3 z t4 /\ ctx_in m3 c y)
    as (Ez3 & Ex3 & Ey3 & Ht1b & Ht2b & Ht4b & Hc3).
  { split_and!.
    - rewrite Hag3 by nd_solve. lookups. done.
    - rewrite Hag3 by nd_solve. lookups. rewrite Hag2 by nd_solve. lookups. done.
    - rewrite Hag3 by nd_solve. lookups. rewrite Hag2 by nd_solve. lookups. done.
    - eapply tree_in_agree; [|exact Ht1']. intros q Hq. rewrite Hag3 by nd_solve. lookups.
      rewrite Hag2 by nd_solve. by lookups.
    - eapply tree_in_agree; [|exact Ht2a]. intros q Hq. rewrite Hag3 by nd_solve. by lookups.
    - eapply tree_in_agree; [|exact Ht4']. intros q Hq. rewrite Hag3 by nd_solve. lookups.
      rewrite Hag2 by nd_solve. by lookups.
    - eapply ctx_in_agree; [|exact Hc1]. intros q Hq. rewrite Hag3 by nd_solve. lookups.
      rewrite Hag2 by nd_solve. by lookups. }
  simpl. apply wpm_bind. mod_step. apply wpm_bind. mod_step. apply wpm_bind. mod_step.
  apply wpm_bind. mod_step. apply wpm_bind. load_step.
  assert (forall b b', b = (if by_ <? 0 then 1 else 0) -> b' = (if 0 <? by_ then -1 else 0) -> forall m',
    m' !! x = Some (mkn (root_of t2) (root_of t1) y b kx vx) ->
    m' !! z = Some (mkn (root_of t4) (root_of t3) y b' kz vz) ->
    m' !! y = Some (mkn z x (parent_of c) 0 ky vy) -> dom m' = dom m3 ->
    (forall q, q <> x -> q <> z -> q <> y -> m' !! q = m3 !! q) ->
    shape (mkst m' (ar s) (mk rt (cmp (fld s))) (calls s))
      (plug c (Node y 0 ky vy (Node z (if 0 <? by_ then -1 else 0) kz vz t4 t3)
                              (Node x (if by_ <? 0 then 1 else 0) kx vx t2 t1)))) as Hfin.
  { intros b b' <- <- m' Ex' Ez' Ey' Hd' Hag'. eapply shape_update; [done| | | | |by apply Hrt].
    - simpl. eapply ctx_in_agree; [|done]. intros q Hq. apply Hag'; nd_solve.
    - simpl. split_and!; try done; (eapply tree_in_agree; [|done]); intros q Hq; apply Hag'; nd_solve.
    - simpl. solve_Permutation.
    - rewrite Hd', Hd3. doms. rewrite Hd2. doms. done. }
  destruct (Z.ltb_spec 0 by_) as [Hb|Hb]; [|destruct (Z.eqb_spec by_ 0)]; simpl;
    apply wpm_bind, wpm_bind; mod_step; mod_step; mod_step; (split; [|done]).
  - rewrite (proj2 (Z.ltb_ge by_ 0)) in * by lia. apply (Hfin 0 (-1)); rotated.
  - rewrite (proj2 (Z.ltb_ge by_ 0)) in * by lia. apply (Hfin 0 0); rotated.
  - rewrite (proj2 (Z.ltb_lt by_ 0)) in * by lia. apply (Hfin 1 0); rotated.
Qed.

Definition root_bal (t : tree) : Z := match t with Leaf => 0 | Node _ b _ _ _ _ => b end.

Ltac ents_eq :=
  simpl; repeat (rewrite <- (assoc_L (++)); simpl); done.

(** rebalance of a node that is two deep: the same entries in an AVL tree; its
    result says whether the height went down, which it does unless the deeper
    child was even. *)
Lemma rebalance_wp s c x b kx vx l r :
  shape s (plug c (Node x b kx vx l r)) -> avl l -> avl r -> b = height r - height l ->
  b = 2 \/ b = -2 ->
  wpm (muggle_avl_tree_rebalance x) s (fun dec s' => exists t',
    shape s' (plug c t') /\ avl t' /\ ents t' = ents (Node x b kx vx l r) /\
    height t' = height (Node x b kx vx l r) - (if dec then 1 else 0) /\
    dec = negb (root_bal (if b =? 2 then r else l) =? 0) /\
    cmp (fld s') = cmp (fld s) /\ calls s' = calls s).
Proof.
  intros Hs Hl Hr Hb Hb2. destruct (shape_plug _ _ _ Hs) as (_ & (Ex & Hinl & Hinr) & _).
  pose proof (height_nonneg l). pose proof (height_nonneg r).
  unfold muggle_avl_tree_rebalance. apply wpm_bind. eapply wpm_load; [done|]. simpl balance.
  destruct Hb2 as [-> | ->]; simpl.
  - destruct r as [|z bz kz vz zl zr]; simpl in Hb; [lia|].
    destruct Hr as (Hzl & Hzr & Hbz & Hbz1). destruct Hinr as (Ez & Hinzl & _).
    pose proof (height_nonneg zl). pose proof (height_nonneg zr).
    apply wpm_bind. eapply wpm_load; [done|]. simpl. destruct (Z.leb_spec 0 bz).
    + eapply wpm_mono; [apply (rotate_left_wp s c); [done|lia]|].
      intros dec s' (-> & Hs' & Hcm & Hcl). eexists. split; [done|]. simpl.
      split_and!; try done; try lia; [ents_eq|].
      destruct (Z.eqb_spec bz 0); simpl; lia.
    + destruct zl as [|y by_ ky vy yl yr]; simpl in Hbz, Hb; [lia|].
      destruct Hzl as (Hyl & Hyr & Hby & Hby1).
      pose proof (height_nonneg yl). pose proof (height_nonneg yr).
      assert (bz = -1) as -> by lia.
      apply wpm_bind. eapply wpm_mono; [by apply (rotate_right_left_wp s c)|].
      intros _ s' (Hs' & Hcm & Hcl). apply wpm_ret. eexists. split; [done|]. simpl.
      destruct (Z.ltb_spec 0 by_), (Z.ltb_spec by_ 0); simpl;
        (split_and!; try done; try lia); ents_eq.
  - destruct l as [|z bz kz vz zl zr]; simpl in Hb; [lia|].
    destruct Hl as (Hzl & Hzr & Hbz & Hbz1). destruct Hinl as (Ez & _ & Hinzr).
    pose proof (height_nonneg zl). pose proof (height_nonneg zr).
    apply wpm_bind. eapply wpm_load; [done|]. simpl. destruct (Z.leb_spec bz 0).
    + eapply wpm_mono; [apply (rotate_right_wp s c); [done|lia]|].
      intros dec s' (-> & Hs' & Hcm & Hcl). eexists. split; [done|]. simpl.
      split_and!; try done; try lia; [ents_eq|].
      destruct (Z.eqb_spec bz 0); simpl; lia.
    + destruct zr as [|y by_ ky vy yl yr]; simpl in Hbz, Hb; [lia|].
      destruct Hzr as (Hyl & Hyr & Hby & Hby1).
      pose proof (height_nonneg yl). pose proof (height_nonneg yr).
      assert (bz = 1) as -> by lia.
      apply wpm_bind. eapply wpm_mono; [by apply (rotate_left_right_wp s c)|].
      intros _ s' (Hs' & Hcm & Hcl). apply wpm_ret. eexists. split; [done|]. simpl.
      destruct (Z.ltb_spec 0 by_), (Z.ltb_spec by_ 0); simpl;
        (split_and!; try done; try lia); ents_eq.
Qed.
End rotate.
End AvlTreeRotate.
