(* ===== verification/AvlTreeOps.v ===== *)
(** find, insert, remove and clear of avl_tree.c: the tree refines a sorted
    sequence of keys and values, and stays an AVL tree. *)

From stdpp Require Import base gmap sets list sorting numbers.
From Stdlib Require Import ZArith Lia.
From S2P Require Import Prelude Dsaa MemoryPool NodeMem AvlTree AvlTreeRotate.
Import MemoryPool(block, muggle_memory_pool).
Import AvlTree AvlTreeRotate.

Open Scope Z_scope.

Module AvlTreeOps.

(** ** Sorted sequences *)

Definition key_lt (cmp : ptr -> ptr -> Z) (a b : ptr * ptr) : Prop := cmp a.1 b.1 < 0.
Definition sorted (cmp : ptr -> ptr -> Z) (l : list (ptr * ptr)) : Prop :=
  StronglySorted (key_lt cmp) l.

Section order.
Context (cmp : ptr -> ptr -> Z) `{!CmpOrder cmp}.

Lemma cmp_lt_trans x y z : cmp x y < 0 -> cmp y z < 0 -> cmp x z < 0.
Proof.
  intros Hxy Hyz. assert (cmp x z <= 0) as Hxz by (apply (cmp_trans x y z); lia).
  destruct (decide (cmp x z = 0)) as [E|]; [|lia].
  pose proof (cmp_flip_ge cmp x z ltac:(lia)) as Hzx.
  assert (cmp y x <= 0) as Hyx by (apply (cmp_trans y z x); lia).
  apply cmp_sym in Hxy. lia.
Qed.

(** A key equal to one of two ordered keys is ordered with the other. *)
Lemma cmp_eq_lt x y z : cmp x y = 0 -> cmp y z < 0 -> cmp x z < 0.
Proof.
  intros Hxy Hyz. assert (cmp x z <= 0) as Hxz by (apply (cmp_trans x y z); lia).
  destruct (decide (cmp x z = 0)) as [E|]; [|lia].
  pose proof (cmp_flip_ge cmp x z ltac:(lia)) as Hzx.
  assert (cmp z y <= 0) as Hzy by (apply (cmp_trans z x y); lia). apply cmp_sym in Hyz. lia.
Qed.

Lemma sorted_mid l1 e l2 :
  sorted cmp (l1 ++ e :: l2) <->
  (forall x, x ∈ l1 -> cmp x.1 e.1 < 0) /\ (forall x, x ∈ l2 -> cmp e.1 x.1 < 0) /\
  sorted cmp (l1 ++ l2).
Proof.
  unfold sorted. rewrite !StronglySorted_app. split.
  - intros (Hlr & H1 & H2). apply StronglySorted_inv in H2 as [H2 He].
    rewrite list.Forall_forall in He. split_and!; try done.
    + intros x Hx. apply Hlr; [done|left].
    + intros x y Hx Hy. apply Hlr; [done|by right].
  - intros (Hl & Hr & Hlr & H1 & H2). split_and!; try done.
    + intros x y Hx [->|Hy]%elem_of_cons; [by apply Hl|by apply Hlr].
    + constructor; [done|]. apply list.Forall_forall. intros x Hx. by apply Hr.
Qed.
End order.

Section ops.
Context {H : Type} `{!NodeMalloc H}.
Context `{Malloc (list Z)} `{Malloc block} `{Malloc Z} `{Malloc muggle_memory_pool}.
Implicit Types (s : tree_st H) (c : list frame) (t : tree).

(** The structure holds an AVL tree whose keys are sorted. *)
Record rep s t : Prop := {
  rep_shape : shape s t;
  rep_avl : avl t;
  rep_sorted : sorted (cmp (fld s)) (kvs t)
}.

Lemma shape_count s t : shape s t -> size (mem s) = length (locs t).
Proof.
  intros Hs. rewrite <- size_dom, <- (size_list_to_set (C := gset loc)) by apply (shape_nodup _ _ Hs).
  f_equal. apply set_eq. intros p. rewrite elem_of_list_to_set. apply (shape_dom _ _ Hs).
Qed.

(** ** find *)

Fixpoint search (cmp : ptr -> ptr -> Z) (d : ptr) (t : tree) : loc :=
  match t with
  | Leaf => LNull
  | Node p _ k _ l r =>
      if cmp d k =? 0 then p else if cmp d k <? 0 then search cmp d l else search cmp d r
  end.

Lemma avl_find_loop s d tr t : forall fuel par,
  tree_in (mem s) par t -> LNull ∉ locs t -> height t < Z.of_nat fuel ->
  loopM fuel (find_step tr d) (root_of t) s = Done (search (cmp tr) d t, s).
Proof.
  induction t as [|p b k v l IHl r IHr]; intros [|fuel] par Ht Hn Hf;
    try (pose proof (height_nonneg (Node p b k v l r)); lia); try (simpl in Hf; lia); [done|].
  simpl in Hn, Hf, Ht |- *.
  apply not_elem_of_cons in Hn as [Hp Hn]. apply not_elem_of_app in Hn as [Hnl Hnr]. destruct Ht as (Ep & Hl & Hr).
  unfold find_step at 1, is_null. rewrite bool_decide_false by done.
  unfold mbind, M_bind, load. rewrite Ep. simpl.
  destruct (cmp tr d k =? 0); [done|]. destruct (cmp tr d k <? 0); simpl.
  - eapply IHl; [done|done|lia].
  - eapply IHr; [done|done|lia].
Qed.

Lemma elem_of_ents_kvs t p kv : (p, kv) ∈ ents t -> kv ∈ kvs t.
Proof. intros Hin. rewrite <- ents_kvs. by apply (list_elem_of_fmap_2 snd) in Hin. Qed.

Lemma search_spec cm d t `{!CmpOrder cm} :
  sorted cm (kvs t) -> LNull ∉ locs t ->
  (search cm d t = LNull /\ forall p kv, (p, kv) ∈ ents t -> cm d kv.1 <> 0) \/
  (exists k v, (search cm d t, (k, v)) ∈ ents t /\ cm d k = 0).
Proof.
  induction t as [|p b k v l IHl r IHr]; intros Hs Hn; simpl in *.
  - left. split; [done|]. by intros ? ? ?%elem_of_nil.
  - apply not_elem_of_cons in Hn as [Hp Hn]. apply not_elem_of_app in Hn as [Hnl Hnr].
    apply sorted_mid in Hs as (Hsl & Hsr & Hs).
    apply StronglySorted_app in Hs as (_ & Hs1 & Hs2).
    destruct (Z.eqb_spec (cm d k) 0) as [E|E].
    { right. exists k, v. split; [|done]. apply elem_of_app. right; left. }
    destruct (Z.ltb_spec (cm d k) 0) as [E'|E'].
    + destruct (IHl Hs1 Hnl) as [[-> Hl]|(k' & v' & Hin & Hk)].
      * left. split; [done|]. intros q kv [Hq|[[= -> ->]|Hq]%elem_of_cons]%elem_of_app;
          [by eapply Hl|done|].
        apply elem_of_ents_kvs in Hq. specialize (Hsr _ Hq).
        pose proof (cmp_lt_trans cm _ _ _ E' Hsr). simpl in *; lia.
      * right. exists k', v'. split; [|done]. apply elem_of_app. by left.
    + destruct (IHr Hs2 Hnr) as [[-> Hr]|(k' & v' & Hin & Hk)].
      * left. split; [done|]. intros q kv [Hq|[[= -> ->]|Hq]%elem_of_cons]%elem_of_app;
          [|done|by eapply Hr].
        apply elem_of_ents_kvs in Hq. specialize (Hsl _ Hq). intros E0.
        pose proof (cmp_eq_lt cm _ _ _ E0 Hsl). simpl in *; lia.
      * right. exists k', v'. split; [|done]. apply elem_of_app. right; by right.
Qed.

(** The height of an AVL tree is at most logarithmic in its size. *)
Lemma height_size t : height t <= Z.of_nat (length (locs t)).
Proof. induction t as [|p b k v l IHl r IHr]; simpl; [lia|]. rewrite length_app. lia. Qed.

Lemma pow_split h : 0 <= h -> 2 ^ (h + 1) = 2 * 2 ^ h.
Proof. intros. by rewrite Z.pow_add_r, Z.mul_comm by lia. Qed.

Lemma sq_le_inv a b : 0 <= a -> 0 <= b -> a * a <= b * b -> a <= b.
Proof. nia. Qed.

(** Two sizes whose squares bound the powers of two of neighbouring heights. *)
Lemma size_step a b h x y :
  0 <= h -> 0 <= a -> 0 <= b -> 2 ^ x <= a * a -> 2 ^ y <= b * b ->
  (x = h + 1 /\ h <= y) \/ (y = h + 1 /\ h <= x) ->
  2 ^ (h + 2) <= (a + b) * (a + b).
Proof.
  intros Hh Ha Hb Hx Hy Hxy. pose proof (Z.pow_pos_nonneg 2 h ltac:(lia) Hh).
  assert (2 ^ h * 2 ^ h <= (a * b) * (a * b)) as Hab.
  { assert (2 ^ h <= 2 ^ x /\ 2 ^ h <= 2 ^ y) as [? ?] by (split; apply Z.pow_le_mono_r; lia).
    replace (a * b * (a * b)) with ((a * a) * (b * b)) by ring. apply Z.mul_le_mono_nonneg; lia. }
  apply sq_le_inv in Hab; [|lia|nia].
  replace (h + 2) with (h + 1 + 1) by lia. rewrite !pow_split by lia.
  assert (2 ^ h + 2 ^ (h + 1) <= a * a + b * b) as Hs.
  { destruct Hxy as [[-> ?]|[-> ?]]; [assert (2 ^ h <= 2 ^ y) by (apply Z.pow_le_mono_r; lia)
      |assert (2 ^ h <= 2 ^ x) by (apply Z.pow_le_mono_r; lia)]; lia. }
  rewrite pow_split in Hs by lia. nia.
Qed.

Lemma avl_height_pow t :
  avl t -> 2 ^ height t <= (Z.of_nat (length (locs t)) + 1) * (Z.of_nat (length (locs t)) + 1).
Proof.
  induction t as [|p b k v l IHl r IHr]; [done|]. intros (Hl & Hr & Hb & Hb1). simpl.
  specialize (IHl Hl). specialize (IHr Hr). rewrite length_app.
  pose proof (height_nonneg l). pose proof (height_nonneg r).
  set (nl := Z.of_nat (length (locs l))) in *. set (nr := Z.of_nat (length (locs r))) in *.
  assert (0 <= nl /\ 0 <= nr) as [? ?] by lia.
  replace (Z.of_nat (S (length (locs l) + length (locs r))) + 1) with ((nl + 1) + (nr + 1)) by lia.
  destruct (decide (height l = 0 /\ height r = 0)) as [[-> ->]|Hne]; [change (2 ^ (1 + Z.max 0 0)) with 2; nia|].
  replace (1 + Z.max (height l) (height r)) with (Z.max (height l) (height r) - 1 + 2) by lia.
  apply (size_step _ _ _ (height l) (height r)); [lia|lia|lia|exact IHl|exact IHr|lia].
Qed.

Lemma avl_height_log t :
  avl t -> height t <= Z.log2 ((Z.of_nat (length (locs t)) + 1) * (Z.of_nat (length (locs t)) + 1)).
Proof. intros Ha%avl_height_pow. apply Z.log2_le_pow2; nia. Qed.

(** ** Balance along a path

    [cavl c h]: the path is balanced when the hole holds a tree of height [h]. *)
Definition frame_bal (f : frame) : Z := match f with FL _ b _ _ _ | FR _ b _ _ _ => b end.
Definition frame_side (f : frame) : side := match f with FL _ _ _ _ _ => SideLeft | FR _ _ _ _ _ => SideRight end.
Definition path_side (c : list frame) : side := match c with [] => SideLeft | f :: _ => frame_side f end.

(** The balance factor that fits a hole of height [h]. *)
Definition frame_fit (f : frame) (h : Z) : Z :=
  match f with
  | FL _ _ _ _ r => height r - h
  | FR _ _ _ _ l => h - height l
  end.

Fixpoint cavl (c : list frame) (h : Z) : Prop :=
  match c with
  | [] => True
  | f :: c' => avl (frame_tree f) /\ frame_bal f = frame_fit f h /\ -1 <= frame_bal f <= 1 /\
               cavl c' (1 + Z.max h (height (frame_tree f)))
  end.

Lemma height_fill f t : height (fill f t) = 1 + Z.max (height t) (height (frame_tree f)).
Proof. destruct f; simpl; lia. Qed.

Lemma avl_fill f t :
  avl (fill f t) <-> avl t /\ avl (frame_tree f) /\ frame_bal f = frame_fit f (height t) /\
                     -1 <= frame_bal f <= 1.
Proof. destruct f; simpl; naive_solver. Qed.

Lemma avl_plug c t : avl (plug c t) <-> cavl c (height t) /\ avl t.
Proof.
  revert t. induction c as [|f c IH]; intros t; simpl; [tauto|].
  rewrite IH, height_fill, avl_fill. tauto.
Qed.

(** A frame with another balance factor. *)
Definition with_bal (f : frame) (b : Z) : frame :=
  match f with FL p _ k v r => FL p b k v r | FR p _ k v l => FR p b k v l end.

Lemma ents_plug_ext c t t' : ents t = ents t' -> ents (plug c t) = ents (plug c t').
Proof.
  revert t t'. induction c as [|f c IH]; intros t t' E; simpl; [done|].
  apply IH. destruct f; simpl; by rewrite E.
Qed.

(** Changing the balance factor of the node above the hole. *)
Lemma set_bal_wp s f c t (g : Z -> Z) Q :
  shape s (plug (f :: c) t) ->
  (forall s', shape s' (plug (with_bal f (g (frame_bal f)) :: c) t) ->
     cmp (fld s') = cmp (fld s) -> calls s' = calls s -> Q tt s') ->
  wpm (modify (frame_loc f) (fun n => set_balance (g (balance n)) n)) s Q.
Proof.
  intros Hs HQ. destruct (shape_plug s c (fill f t) Hs) as (Hc & Ht & Hnd & Hnull).
  pose proof (shape_root _ _ Hs) as Hroot.
  assert (exists n, mem s !! frame_loc f = Some n /\ balance n = frame_bal f) as (n & En & Hb).
  { destruct f; destruct Ht as [Ht _]; eexists; done. }
  apply (wpm_modify _ _ n); [done|]. rewrite Hb.
  assert (forall rt, rt = root (fld s) -> shape (mkst (<[frame_loc f := set_balance (g (frame_bal f)) n]> (mem s))
    (ar s) (mk rt (cmp (fld s))) (calls s)) (plug (with_bal f (g (frame_bal f)) :: c) t)) as Hsh.
  { intros rt ->. apply (shape_update s c (fill f t)); try done.
    - destruct f; simpl in *; apply ctx_in_insert; try done; nd_split; nd_solve.
    - destruct f as [p b k v r|p b k v l]; simpl in *; nd_split; rewrite lookup_insert_eq;
        destruct Ht as (Ep & Hl & Hr); rewrite Ep in En; injection En as <-;
        (split; [done|]); split; by apply tree_in_insert.
    - by destruct f.
    - apply dom_insert_lookup_L. by exists n.
    - rewrite Hroot. simpl. destruct c as [|g' c]; [by destruct f|]. by apply root_plug. }
  specialize (Hsh _ eq_refl). destruct s as [m a [rt cm] cs]. simpl in *. by apply HQ.
Qed.

(** The side of a node, read from its parent. *)
Lemma side_of_wp s f c t Q :
  shape s (plug (f :: c) t) -> t <> Leaf -> Q (frame_side f) s ->
  wpm (side_of (frame_loc f) (root_of t)) s Q.
Proof.
  intros Hs Ht HQ. destruct (shape_plug s (f :: c) t Hs) as (Hc & _ & Hnd & Hnull).
  unfold side_of. destruct t as [|q b' k' v' l' r']; [done|]. simpl in *.
  destruct f as [p b k v r|p b k v l]; destruct Hc as (Ep & _ & _);
    (apply wpm_bind; eapply wpm_load; [done|]); apply wpm_ret; simpl.
  - by rewrite bool_decide_true.
  - rewrite bool_decide_false; [done|]. destruct l as [|x b2 k2 v2 l2 r2]; simpl in *.
    + intros <-. nd_split. congruence.
    + intros ->. nd_split. nd_solve.
Qed.

(** The retracing of insert: the hole grew by one. *)
Lemma insert_retrace_wp c : forall fuel s t,
  shape s (plug c t) -> t <> Leaf -> avl t -> root_bal t <> 0 \/ height t = 1 ->
  cavl c (height t - 1) -> (length c < fuel)%nat ->
  wpm (loopM fuel insert_retrace (parent_of c, path_side c)) s (fun _ s' => exists T',
    shape s' T' /\ avl T' /\ ents T' = ents (plug c t) /\
    cmp (fld s') = cmp (fld s) /\ calls s' = calls s).
Proof.
  induction c as [|f c IH]; intros [|fuel] s t Hs Hnl Ht Hg Hc Hf; try (simpl in Hf; lia);
    apply wpm_loop_step; cbn [parent_of path_side insert_retrace].
  { apply wpm_ret. by exists t. }
  destruct Hc as (Hft & Hfb & Hfr & Hc). simpl in Hf.
  pose proof (height_nonneg (frame_tree f)). pose proof (height_nonneg t).
  assert (frame_loc f <> LNull) as Hf0.
  { destruct (shape_plug s (f :: c) t Hs) as (_ & _ & _ & Hn). simpl in Hn. nd_split. congruence. }
  unfold is_null at 1. rewrite bool_decide_false by done.
  set (b' := frame_fit f (height t)).
  assert (swrap 8 (match frame_side f with SideLeft => frame_bal f - 1 | SideRight => frame_bal f + 1 end)
    = b') as Hb'.
  { rewrite swrap_small by (destruct f; simpl in *; lia). unfold b'. destruct f; simpl in *; lia. }
  set (f' := with_bal f b').
  assert (frame_loc f' = frame_loc f /\ frame_tree f' = frame_tree f /\ frame_bal f' = b' /\
    frame_fit f' (height t) = b' /\ frame_side f' = frame_side f) as (Hl' & Ht' & Hbb & Hfit & Hsd)
    by (unfold f', b'; by destruct f).
  assert (ents (plug (f' :: c) t) = ents (plug (f :: c) t)) as He
    by (simpl; apply ents_plug_ext; unfold f'; by destruct f).
  (* after the update of the balance factor *)
  apply wpm_bind. apply (wpm_mono _ _ (fun _ s1 => shape s1 (plug (f' :: c) t) /\
    cmp (fld s1) = cmp (fld s) /\ calls s1 = calls s)).
  { destruct (frame_side f) eqn:Es.
    - apply (set_bal_wp s f c t (fun b => swrap 8 (b - 1))); [done|]. rewrite Hb'. done.
    - apply (set_bal_wp s f c t (fun b => swrap 8 (b + 1))); [done|]. rewrite Hb'. done. }
  intros _ s1 (Hs1 & Hcm1 & Hcl1).
  assert (exists n, mem s1 !! frame_loc f = Some n /\ balance n = b' /\ parent n = parent_of c) as (n & En & Hbn & Hpn).
  { destruct (shape_plug s1 c (fill f' t) Hs1) as (_ & Hin & _). rewrite <- Hl', <- Hbb.
    unfold f' in *. destruct f; destruct Hin as [Hin _]; eexists; done. }
  apply wpm_bind, (wpm_load _ n); [done|]. rewrite Hbn, Hpn.
  assert (-2 <= b' <= 2) by (unfold b'; destruct f; simpl in *; lia).
  assert (Hmax : forall h, 1 + Z.max (height t - 1) (height (frame_tree f)) = h ->
    cavl c h) by (by intros ? <-).
  destruct (Z.eqb_spec b' 0) as [E0|E0].
  { apply wpm_ret. exists (plug (f' :: c) t). split_and!; try done. simpl. apply avl_plug.
    rewrite height_fill, avl_fill, Ht', Hbb, Hfit. split_and!; try done; try lia.
    apply Hmax. unfold b' in E0. destruct f; simpl in *; lia. }
  destruct (decide (b' = 1 \/ b' = -1)) as [E1|E1].
  - replace ((b' =? 1) || (b' =? -1)) with true by (destruct E1 as [-> | ->]; done).
    assert (avl (fill f' t)) as Havl.
    { apply avl_fill. rewrite Ht', Hbb, Hfit. split_and!; try done; lia. }
    assert (cavl c (height (fill f' t) - 1)) as Hc'.
    { rewrite height_fill, Ht'. apply Hmax. unfold b' in *. destruct f; simpl in *; lia. }
    destruct c as [|g c].
    + simpl. apply wpm_ret. by exists (fill f' t).
    + assert (is_null (frame_loc g) = false) as Hg0.
      { destruct (shape_plug s1 (g :: c) (fill f' t) Hs1) as (_ & _ & _ & Hn). simpl in Hn.
        nd_split. unfold is_null. apply bool_decide_false. congruence. }
      cbn [parent_of]. rewrite Hg0. apply wpm_bind.
      replace (frame_loc f) with (root_of (fill f' t)) by (rewrite <- Hl'; unfold f'; by destruct f).
      apply (side_of_wp s1 g c); [done|unfold f'; by destruct f|]. apply wpm_ret.
      eapply wpm_mono; [apply (IH fuel s1 (fill f' t)); try done|].
      * unfold f'; by destruct f.
      * left. unfold f'. destruct f; simpl; lia.
      * simpl in *. lia.
      * intros _ s2 (T' & HT & HaT & HeT & Hcm2 & Hcl2). exists T'.
        split_and!; try done; [by rewrite HeT|congruence|congruence].
  - replace ((b' =? 1) || (b' =? -1)) with false
      by (destruct (Z.eqb_spec b' 1), (Z.eqb_spec b' (-1)); try done; lia).
    apply wpm_bind, wpm_massert;
      [destruct (Z.eqb_spec b' 2), (Z.eqb_spec b' (-2)); try done; lia|].
    apply wpm_bind.
    assert (exists p k v l r, fill f' t = Node p b' k v l r /\ p = frame_loc f /\ avl l /\ avl r /\
      b' = height r - height l /\ (if b' =? 2 then r else l) = t) as (p & k & v & l & r & Ef & Ep & Hl & Hr & Hlr & Hdeep).
    { unfold f', b' in *. destruct f as [p b k v r|p b k v l]; simpl in *; do 5 eexists;
        (split; [done|]); (split; [done|]); (split; [done|]); (split; [done|]); (split; [done|]).
      - destruct (Z.eqb_spec (height r - height t) 2); [lia|done].
      - destruct (Z.eqb_spec (height t - height l) 2); [done|lia]. }
    simpl in Hs1. rewrite Ef in Hs1. rewrite <- Ep.
    eapply wpm_mono; [apply (rebalance_wp s1 c); try done; lia|].
    intros dec s2 (t' & Hs2 & Hat & Het & Hht & Hdec & Hcm2 & Hcl2). apply wpm_ret.
    exists (plug c t'). split_and!; try done; [|simpl in He|congruence|congruence].
    + apply avl_plug. split; [|done]. apply Hmax. rewrite Hht, <- Ef, height_fill, Ht', Hdec, Hdeep.
      destruct (Z.eqb_spec (root_bal t) 0); simpl; unfold b' in *; destruct f; simpl in *; lia.
    + simpl. rewrite <- He, Ef. by apply ents_plug_ext.
Qed.

(** ** insert: the descent *)

(** A new node, cleared. *)
Lemma avl_allocate_wp raw s t Q :
  shape s t -> arena_room (ar s) ->
  (forall p a out, p ∉ locs t -> p <> LNull -> arena_owns a out ->
     (forall x, x ∈ out <-> x = p \/ x ∈ locs t) ->
     Q p (mkst (<[p := zero_node]> (mem s)) a (fld s) (calls s))) ->
  (forall a, no_node (ar s) -> shape (mkst (mem s) a (fld s) (calls s)) t ->
     Q LNull (mkst (mem s) a (fld s) (calls s))) ->
  wpm (muggle_avl_tree_allocate_node raw) s Q.
Proof.
  intros Hs Hr Hok Hfail. destruct (shape_owns _ _ Hs) as (out & Ho & Hout).
  unfold muggle_avl_tree_allocate_node. apply wpm_bind. eapply (wpm_alloc_short _ 0); [done|done| |].
  - intros p a Hp Hp0 _ Ha _ _. unfold is_null. rewrite bool_decide_false by done.
    apply wpm_bind. eapply wpm_modify; [apply lookup_insert_eq|]. simpl. rewrite insert_insert_eq.
    apply wpm_ret. rewrite Hout in Hp. apply (Hok p a ({[p]} ∪ out)); try done.
    intros x. rewrite elem_of_union, elem_of_singleton, Hout. done.
  - intros a Ha Hno. apply wpm_ret, Hfail; [done|]. destruct Hs. split; try done. by exists out.
Qed.

(** The hole of the path [c] of a stored tree points to the new node [new]. *)
Definition filled s c (new : loc) s' : Prop :=
  ctx_in (mem s') c new /\ mem s' !! new = Some zero_node /\ new ∉ clocs c /\ new <> LNull /\
  (forall x, x ∈ dom (mem s') <-> x = new \/ x ∈ clocs c) /\
  (exists out, arena_owns (ar s') out /\ forall x, x ∈ out <-> x = new \/ x ∈ clocs c) /\
  fld s' = fld s /\ calls s' = calls s.

(** The keys left and right of the hole are less and greater. *)
Definition around (cm : ptr -> ptr -> Z) c (k : ptr) : Prop :=
  (forall e, e ∈ lkvs c -> cm e.1 k < 0) /\ (forall e, e ∈ rkvs c -> cm k e.1 < 0).

(** Taking the place of an empty subtree. *)
Lemma fill_hole_wp {A} raw s f c (set : loc -> muggle_avl_tree_node -> muggle_avl_tree_node)
    (kf : AM A) (ks : loc -> AM A) (Q : A -> tree_st H -> Prop) :
  shape s (plug (f :: c) Leaf) -> arena_room (ar s) ->
  (forall m new n, m !! frame_loc f = Some n -> ctx_in m (f :: c) LNull ->
     NoDup (clocs (f :: c)) -> ctx_in (<[frame_loc f := set new n]> m) (f :: c) new) ->
  (forall new s', filled s (f :: c) new s' -> wpm (ks new) s' Q) ->
  (forall a, no_node (ar s) -> shape (mkst (mem s) a (fld s) (calls s)) (plug (f :: c) Leaf) ->
     wpm kf (mkst (mem s) a (fld s) (calls s)) Q) ->
  wpm (new_node ← muggle_avl_tree_allocate_node raw;
       if is_null new_node then kf
       else modify (frame_loc f) (set new_node);; ks new_node) s Q.
Proof.
  intros Hs Hr Hset Hok Hfail.
  destruct (shape_plug s (f :: c) Leaf Hs) as (Hc & _ & Hnd & Hnull). rewrite app_nil_r in Hnd.
  apply wpm_bind. eapply avl_allocate_wp; [done|done| |].
  2: { intros a Hno Ha. simpl. by apply Hfail. }
  intros new a out Hnew Hn0 Ho Hout. rewrite locs_plug, app_nil_r in Hnew.
  assert (forall x, x ∈ locs (plug (f :: c) Leaf) <-> x ∈ clocs (f :: c)) as Hloc
    by (intros x; rewrite locs_plug, app_nil_r; done).
  unfold is_null. rewrite bool_decide_false by done.
  assert (frame_loc f ∈ clocs (f :: c)) as Hf by left.
  assert (new <> frame_loc f) as Hne by (by intros ->).
  assert (exists n, mem s !! frame_loc f = Some n) as [n En].
  { destruct f; destruct Hc as [Hc _]; by eexists. }
  apply wpm_bind, (wpm_modify _ _ n); [simpl; by rewrite lookup_insert_ne|]. apply Hok.
  split; [|split; [|split; [done|split; [done|split; [|split; [|done]]]]]]; simpl.
  - apply Hset; [by rewrite lookup_insert_ne| |done]. by apply ctx_in_insert.
  - by rewrite lookup_insert_ne, lookup_insert_eq.
  - intros x. rewrite !dom_insert, !elem_of_union, !elem_of_singleton, (shape_dom _ _ Hs), Hloc.
    split; [|tauto]. intros [->|?]; tauto.
  - exists out. split; [done|]. intros x. by rewrite Hout, Hloc.
Qed.

(** Why nothing was inserted: the key is there, and nothing at all changed, or it
    is not there and no node was to be had. *)
Definition refused (k : ptr) s t s' : Prop :=
  ((exists e, e ∈ kvs t /\ cmp (fld s) k e.1 = 0) /\ s' = s) \/
  ((forall e, e ∈ kvs t -> cmp (fld s) k e.1 <> 0) /\ no_node (ar s)).

(** The result of the descent. *)
Definition descended (k : ptr) s t (r : option (loc * loc * side)) s' : Prop :=
  match r with
  | None => shape s' t /\ fld s' = fld s /\ calls s' = calls s /\
            refused k s t s'
  | Some (node, new, sd) => exists c, plug c Leaf = t /\ c <> [] /\ parent_of c = node /\
      path_side c = sd /\ filled s c new s' /\ around (cmp (fld s)) c k
  end.

Lemma around_distinct cm `{!CmpOrder cm} c k e :
  around cm c k -> e ∈ kvs (plug c Leaf) -> cm k e.1 <> 0.
Proof.
  intros [Hl Hr]. rewrite kvs_plug. simpl. intros [He|He]%elem_of_app.
  - specialize (Hl _ He). apply cmp_sym in Hl. lia.
  - specialize (Hr _ He). lia.
Qed.

Lemma fl_set m p b k v r c new n :
  m !! p = Some n -> ctx_in m (FL p b k v r :: c) LNull -> NoDup (clocs (FL p b k v r :: c)) ->
  ctx_in (<[p := set_left new n]> m) (FL p b k v r :: c) new.
Proof.
  intros En (Ep & Hr & Hc) Hnd. simpl in *. nd_split. rewrite En in Ep. injection Ep as ->.
  rewrite lookup_insert_eq. split; [done|]. split; [by apply tree_in_insert|by apply ctx_in_insert].
Qed.

Lemma fr_set m p b k v l c new n :
  m !! p = Some n -> ctx_in m (FR p b k v l :: c) LNull -> NoDup (clocs (FR p b k v l :: c)) ->
  ctx_in (<[p := set_right new n]> m) (FR p b k v l :: c) new.
Proof.
  intros En (Ep & Hl & Hc) Hnd. simpl in *. nd_split. rewrite En in Ep. injection Ep as ->.
  rewrite lookup_insert_eq. split; [done|]. split; [by apply tree_in_insert|by apply ctx_in_insert].
Qed.

Lemma insert_descend_wp raw k t : forall fuel s c,
  CmpOrder (cmp (fld s)) -> shape s (plug c t) -> t <> Leaf -> arena_room (ar s) ->
  sorted (cmp (fld s)) (kvs (plug c t)) -> around (cmp (fld s)) c k -> (length (locs t) < fuel)%nat ->
  wpm (loopM fuel (insert_step raw (fld s) k) (root_of t)) s (descended k s (plug c t)).
Proof.
  induction t as [|p b k0 v0 l IHl r IHr]; intros [|fuel] s c Hcm Hs Hnl Hr Hsort Har Hf; try done;
    try (simpl in Hf; lia).
  apply wpm_loop_step. cbn [root_of]. simpl in Hf. rewrite length_app in Hf.
  destruct (shape_plug s c _ Hs) as (_ & (Ep & Hinl & Hinr) & _ & Hnull). simpl in Hnull. nd_split.
  pose proof Hsort as Hsort'. rewrite kvs_plug in Hsort'. simpl in Hsort'.
  rewrite <- !(assoc_L (++)) in Hsort'. simpl in Hsort'.
  rewrite (assoc_L (++)) in Hsort'. apply sorted_mid in Hsort' as (Hlt & Hgt & _). simpl in Hlt, Hgt.
  unfold insert_step at 1. apply wpm_bind. eapply wpm_load; [done|]. cbn [key left right].
  destruct Har as [Hal Har].
  assert (forall f, fill f Leaf = Node p b k0 v0 l r -> around (cmp (fld s)) (f :: c) k ->
    forall a, no_node (ar s) -> shape (mkst (mem s) a (fld s) (calls s)) (plug (f :: c) Leaf) ->
    wpm (mret (inr None)) (mkst (mem s) a (fld s) (calls s)) (fun r0 s' => match r0 with
      | inl x' => wpm (loopM fuel (insert_step raw (fld s) k) x') s' (descended k s (plug c (Node p b k0 v0 l r)))
      | inr v => descended k s (plug c (Node p b k0 v0 l r)) v s' end)) as Hfail.
  { intros f Ef Harf a Hno Ha. apply wpm_ret. simpl in Ha. rewrite Ef in Ha. split_and!; try done.
    right. split; [|done]. intros e He. apply (around_distinct _ _ _ e Harf). simpl. by rewrite Ef. }
  destruct (Z.eqb_spec (cmp (fld s) k k0) 0) as [E|E].
  { apply wpm_ret. split_and!; try done. left. split; [|done]. exists (k0, v0). split; [|done].
    rewrite kvs_plug. simpl. set_solver. }
  destruct (Z.ltb_spec (cmp (fld s) k k0) 0) as [E'|E'].
  - assert (around (cmp (fld s)) (FL p b k0 v0 r :: c) k) as Har'.
    { split; [done|]. simpl. intros e [->|[He|He]%elem_of_app]%elem_of_cons; [done| |by apply Har].
      eapply (cmp_lt_trans _ _ k0); [done|]. apply Hgt, elem_of_app. by left. }
    destruct l as [|q b' k' v' l' r'].
    + apply (fill_hole_wp raw s (FL p b k0 v0 r) c set_left); try done.
      * intros m new n. apply fl_set.
      * intros new s' Hfil. apply wpm_ret. by exists (FL p b k0 v0 r :: c).
      * by apply Hfail.
    + simpl in H6. nd_split. unfold is_null. cbn [root_of]. rewrite (bool_decide_false (q = LNull)) by done.
      apply wpm_ret. apply (IHl fuel s (FL p b k0 v0 r :: c)); try done. lia.
  - assert (around (cmp (fld s)) (FR p b k0 v0 l :: c) k) as Har'.
    { assert (cmp (fld s) k0 k < 0) as Hk0 by (apply cmp_sym; lia).
      split; [|done]. simpl. rewrite (assoc_L (++)).
      intros e [He|[->|[]%elem_of_nil]%elem_of_cons]%elem_of_app; [|done].
      eapply (cmp_lt_trans _ _ k0); [|done]. by apply Hlt. }
    destruct r as [|q b' k' v' l' r'].
    + apply (fill_hole_wp raw s (FR p b k0 v0 l) c set_right); try done.
      * intros m new n. apply fr_set.
      * intros new s' Hfil. apply wpm_ret. by exists (FR p b k0 v0 l :: c).
      * by apply Hfail.
    + simpl in H7. nd_split. unfold is_null. cbn [root_of]. rewrite (bool_decide_false (q = LNull)) by done.
      apply wpm_ret. apply (IHr fuel s (FR p b k0 v0 l :: c)); try done. lia.
Qed.

(** ** insert *)

Lemma ents_plug c : exists E1 E2, forall t, ents (plug c t) = E1 ++ ents t ++ E2.
Proof.
  induction c as [|[p b k v r|p b k v l] c (E1 & E2 & IH)]; simpl.
  - exists [], []. intros t. by rewrite app_nil_r.
  - exists E1, ((p, (k, v)) :: ents r ++ E2). intros t. rewrite IH. simpl. by rewrite <- (assoc_L (++)).
  - exists (E1 ++ ents l ++ [(p, (k, v))]), E2. intros t. rewrite IH. simpl. by rewrite <- !(assoc_L (++)).
Qed.

Lemma length_clocs c : (length c <= length (clocs c))%nat.
Proof. induction c as [|f c IH]; simpl; [lia|]. rewrite length_app. lia. Qed.

(** The new node with its fields in place. *)
Lemma filled_shape s c new s' k v n :
  shape s (plug c Leaf) -> c <> [] -> filled s c new s' ->
  n = mkn LNull LNull (parent_of c) 0 k v ->
  shape (mkst (<[new := n]> (mem s')) (ar s') (fld s') (calls s'))
    (plug c (Node new 0 k v Leaf Leaf)).
Proof.
  intros Hs Hc0 (Hc & En & Hnew & Hn0 & Hdom & (out & Ho & Hout) & Hfl & Hcl) ->.
  destruct (shape_plug s c Leaf Hs) as (_ & _ & Hnd & Hnull). rewrite app_nil_r in Hnd, Hnull.
  pose proof (locs_plug c (Node new 0 k v Leaf Leaf)) as HP. simpl in HP.
  split; simpl; rewrite ?HP.
  - apply plug_in. simpl. rewrite lookup_insert_eq. split; [by apply ctx_in_insert|done].
  - apply list.NoDup_app. split; [done|]. split; [|apply list.NoDup_singleton].
    intros x Hx ->%list_elem_of_singleton. done.
  - rewrite elem_of_app, list_elem_of_singleton. intros [?|?]; [done|congruence].
  - rewrite Hfl, (shape_root _ _ Hs). by apply root_plug.
  - intros x. rewrite HP, dom_insert, elem_of_union, elem_of_singleton, Hdom, elem_of_app,
      list_elem_of_singleton. tauto.
  - exists out. split; [done|]. intros x. rewrite HP, Hout, elem_of_app, list_elem_of_singleton. tauto.
Qed.

Definition inserted k v s t (r : loc) s' : Prop :=
  calls s' = calls s /\ cmp (fld s') = cmp (fld s) /\
  if is_null r then
    rep s' t /\ refused k s t s'
  else
    exists t' E1 E2, rep s' t' /\ ents t = E1 ++ E2 /\ ents t' = E1 ++ (r, (k, v)) :: E2 /\
      forall e, e ∈ kvs t -> cmp (fld s) k e.1 <> 0.

#[local] Arguments loopM : simpl never.

Lemma insert_first_wp raw s k v :
  rep s Leaf -> arena_room (ar s) ->
  wpm (muggle_avl_tree_insert raw k v) s (inserted k v s Leaf).
Proof.
  intros [Hs Ha Hso] Hr. unfold muggle_avl_tree_insert. apply wpm_bind, wpm_get_fld.
  rewrite (shape_root _ _ Hs). simpl. apply wpm_bind. eapply avl_allocate_wp; [done|done| |].
  2: { intros a Hno Ha'. simpl. apply wpm_ret. split_and!; [done|done|]. split; [split; done|].
       right. split; [by intros e ?%elem_of_nil|done]. }
  intros p a out Hp Hp0 Ho Hout. unfold is_null. rewrite bool_decide_false by done.
  apply wpm_bind. mod_step. apply wpm_bind. mod_step. apply wpm_bind. mod_step.
  apply wpm_bind, wpm_set_fld, wpm_ret. simpl. split_and!; try done. unfold is_null.
  rewrite bool_decide_false by done. exists (Node p 0 k v Leaf Leaf), [], [].
  split; [|split; [done|split; [done|by intros e ?%elem_of_nil]]].
  split; [|by simpl; lia|by repeat constructor].
  assert (forall x, x ∈ dom (mem s) -> x = p).
  { intros x Hx. apply (shape_dom _ _ Hs) in Hx. by apply elem_of_nil in Hx. }
  split; simpl; try done.
  - by rewrite lookup_insert_eq.
  - apply list.NoDup_singleton.
  - rewrite list_elem_of_singleton. congruence.
  - intros x. rewrite !dom_insert, !elem_of_union, !elem_of_singleton, list_elem_of_singleton.
    split; [|tauto]. intros [?|[?|[?|[?|?]]]]; auto.
  - exists out. split; [done|]. intros x. rewrite Hout, elem_of_nil, list_elem_of_singleton. tauto.
Qed.

Lemma avl_insert_wp raw s t k v :
  CmpOrder (cmp (fld s)) -> rep s t -> arena_room (ar s) ->
  wpm (muggle_avl_tree_insert raw k v) s (inserted k v s t).
Proof.
  destruct t as [|p b k0 v0 l r]; [intros _; apply insert_first_wp|].
  intros Hcm [Hs Ha Hso] Hr. unfold muggle_avl_tree_insert. apply wpm_bind, wpm_get_fld.
  rewrite (shape_root _ _ Hs). cbn [root_of]. assert (is_null p = false) as ->.
  { pose proof (shape_null _ _ Hs) as Hn. simpl in Hn. nd_split. by apply bool_decide_false. }
  set (t := Node p b k0 v0 l r) in *.
  apply wpm_bind, wpm_count, wpm_bind.
  eapply wpm_mono; [apply (insert_descend_wp raw k t _ s []); try done|].
  { split; intros e He; by apply elem_of_nil in He. }
  { rewrite (shape_count _ _ Hs). lia. }
  intros [[[node new] sd]|] s1; simpl.
  2: { intros (Hs1 & Hfl & Hcl & Heq). apply wpm_ret. split_and!; try done; [congruence|].
       simpl. split; [|done]. split; [done|done|]. by rewrite Hfl. }
  intros (c & Hpl & Hc0 & <- & <- & Hfil & Har). pose proof Hfil as (Hcin & En & Hnc & Hn0 & _ & _ & Hfl & Hcl).
  apply wpm_bind. mod_step. apply wpm_bind. mod_step. apply wpm_bind. mod_step. apply wpm_bind. mod_step.
  rewrite !insert_insert_eq. apply wpm_bind, wpm_count, wpm_bind.
  assert (shape s (plug c Leaf)) as Hsc by (by rewrite Hpl).
  pose proof (filled_shape s c new s1 k v _ Hsc Hc0 Hfil eq_refl) as Hs2.
  eapply wpm_mono; [apply (insert_retrace_wp c _ _ (Node new 0 k v Leaf Leaf)); try done|].
  - simpl. lia.
  - assert (avl (plug c Leaf)) as Hav by (by rewrite Hpl). apply avl_plug in Hav as [Hav _]. done.
  - pose proof (shape_count _ _ Hs2) as Hsz. rewrite locs_plug, length_app in Hsz.
    pose proof (length_clocs c). eapply Nat.lt_le_trans; [|apply le_n_S, Nat.eq_le_incl; symmetry; exact Hsz].
    lia.
  - intros _ s3 (T' & Hs3 & HaT & HeT & Hcm3 & Hcl3). apply wpm_ret. simpl in Hcm3, Hcl3.
    rewrite Hfl in Hcm3. split_and!; [congruence|done|]. unfold is_null.
    rewrite bool_decide_false by done. destruct (ents_plug c) as (E1 & E2 & HE).
    exists T', E1, E2. rewrite <- Hpl, HE, HeT, HE. split_and!; try done.
    + split; [done|done|]. rewrite Hcm3, <- ents_kvs, HeT, ents_kvs, kvs_plug. simpl.
      apply sorted_mid. destruct Har as [Hal Har]. split_and!; try done.
      by rewrite <- Hpl, kvs_plug in Hso.
    + intros e He. by apply (around_distinct _ c).
Qed.
(** C22: find returns the node whose key compares equal to the argument, NULL
    when there is none, and changes nothing.  It looks at no more than
    2 log2 (n + 1) nodes of a tree with n nodes. *)
Theorem avl_tree_find_spec s t d :
  CmpOrder (cmp (fld s)) -> rep s t ->
  exists r, muggle_avl_tree_find d s = Done (r, s) /\
    ((r = LNull /\ forall p kv, (p, kv) ∈ ents t -> cmp (fld s) d kv.1 <> 0) \/
     (exists k v, (r, (k, v)) ∈ ents t /\ cmp (fld s) d k = 0)) /\
    forall fuel n, n = Z.of_nat (size (mem s)) -> Z.log2 ((n + 1) * (n + 1)) < Z.of_nat fuel ->
      loopM fuel (find_step (fld s) d) (root (fld s)) s = Done (r, s).
Proof.
  intros Hcm [Hs Ha Hso]. exists (search (cmp (fld s)) d t). pose proof (shape_null _ _ Hs) as Hn.
  assert (forall fuel, height t < Z.of_nat fuel ->
    loopM fuel (find_step (fld s) d) (root (fld s)) s = Done (search (cmp (fld s)) d t, s)) as Hl.
  { intros fuel Hf. rewrite (shape_root _ _ Hs). eapply avl_find_loop; [apply (shape_tree _ _ Hs)|done|done]. }
  split; [|split].
  - apply Hl. pose proof (height_size t). rewrite (shape_count _ _ Hs). lia.
  - by apply search_spec.
  - intros fuel n -> Hf. apply Hl. rewrite (shape_count _ _ Hs) in Hf.
    pose proof (avl_height_log t Ha). lia.
Qed.

(** C8: insert adds exactly the new entry, in key order, in a node of its own,
    and returns that node; the tree stays an AVL tree.  It succeeds whenever the
    key is not there and a node can be allocated: it returns NULL only when the
    key is there already, and then nothing at all changes, or when malloc (or the
    pool) refuses the node, and then every entry is kept. *)
Theorem avl_tree_insert_spec raw s t k v :
  CmpOrder (cmp (fld s)) -> rep s t -> arena_room (ar s) ->
  exists r s', muggle_avl_tree_insert raw k v s = Done (r, s') /\ inserted k v s t r s'.
Proof. intros. apply wpm_Done. by apply avl_insert_wp. Qed.
End ops.

(** ** Witnesses: a tree of two malloc'ed nodes, with room for one more. *)
Definition heap3 : NodeMalloc (gset Z) := bounded_malloc 3.
Definition sample_tree : tree := Node (LHeap 1) 1 20 70 Leaf (Node (LHeap 2) 0 30 80 Leaf Leaf).
Definition sample : tree_st (gset Z) :=
  mkst (list_to_map [(LHeap 1, mkn LNull (LHeap 2) LNull 1 20 70);
                     (LHeap 2, mkn LNull LNull (LHeap 1) 0 30 80)])
       (mka None {[1; 2]}) (mk (LHeap 1) cmp_addr) [].

Lemma avl_sample_shape : @shape _ heap3 sample sample_tree.
Proof.
  split; try done.
  - by apply (bool_decide_eq_true_1 (NoDup _)).
  - by apply (bool_decide_eq_true_1 (_ ∉ _)).
  - intros p. simpl. set_solver.
  - exists {[LHeap 1; LHeap 2]}. split; [|intros p; simpl; set_solver].
    intros p [ ->%elem_of_singleton | ->%elem_of_singleton ]%elem_of_union; eexists; split; done || set_solver.
Qed.

Lemma avl_sample_rep : @rep _ heap3 sample sample_tree.
Proof.
  split; [apply avl_sample_shape|simpl; lia|]. apply SSorted_cons; [by repeat constructor|].
  repeat constructor.
Qed.

Lemma avl_tree_find_spec_witness :
  exists r, muggle_avl_tree_find 30 sample = Done (r, sample) /\
    ((r = LNull /\ forall p kv, (p, kv) ∈ ents sample_tree -> cmp_addr 30 kv.1 <> 0) \/
     (exists k v, (r, (k, v)) ∈ ents sample_tree /\ cmp_addr 30 k = 0)) /\
    forall fuel n, n = Z.of_nat (size (mem sample)) -> Z.log2 ((n + 1) * (n + 1)) < Z.of_nat fuel ->
      loopM fuel (find_step (fld sample) 30) (root (fld sample)) sample = Done (r, sample).
Proof. apply (@avl_tree_find_spec _ heap3 sample sample_tree 30); [apply _|apply avl_sample_rep]. Defined.

(** There is room for a third node, and the key is not there. *)
Lemma avl_tree_insert_spec_witness :
  exists r s', @muggle_avl_tree_insert _ heap3 (malloc_zeroed []) (malloc_zeroed (MemoryPool.blk 0 0))
    (malloc_zeroed 0) zero_node 40 90 sample = Done (r, s') /\
    @inserted _ heap3 (malloc_zeroed []) (malloc_zeroed (MemoryPool.blk 0 0)) (malloc_zeroed 0) 40 90 sample sample_tree r s' /\
    r <> LNull.
Proof.
  destruct (@avl_tree_insert_spec _ heap3 (malloc_zeroed []) (malloc_zeroed (MemoryPool.blk 0 0)) (malloc_zeroed 0)
    zero_node sample sample_tree 40 90 cmp_addr_order avl_sample_rep I) as (r & s' & E & Hi).
  exists r, s'. split; [exact E|]. split; [exact Hi|]. clear E. intros ->.
  destruct Hi as (_ & _ & _ & [[(e & He & Hk) _]|[_ Hno]]); [|exact Hno].
  simpl in He. rewrite !elem_of_cons, elem_of_nil in He. destruct He as [-> | [-> | []]]; by vm_compute in Hk.
Defined.
End AvlTreeOps.
