(* ===== verification/AvlTreeRemove.v ===== *)
(** erase_node, clear and remove of avl_tree.c: the nodes of a subtree are given
    back and their data freed in postorder; a removal takes exactly one entry
    out of the sorted sequence and leaves an AVL tree. *)

From stdpp Require Import base gmap sets list numbers.
From Stdlib Require Import ZArith Lia.
From S2P Require Import Prelude Dsaa MemoryPool NodeMem AvlTree AvlTreeRotate AvlTreeOps.
Import MemoryPool(block, muggle_memory_pool).
Import AvlTree AvlTreeRotate AvlTreeOps.

Open Scope Z_scope.

Module AvlTreeRemove.

#[local] Arguments loopM : simpl never.

Section ops.
Context {H : Type} `{!NodeMalloc H}.
Context `{Malloc (list Z)} `{Malloc block} `{Malloc Z} `{Malloc muggle_memory_pool}.
Implicit Types (s : tree_st H) (c : list frame) (t : tree).

(** [shape] without the root, which may point to a node that was freed. *)
Record stored s t : Prop := {
  stored_tree : tree_in (mem s) LNull t;
  stored_nodup : NoDup (locs t);
  stored_null : LNull ∉ locs t;
  stored_dom : forall p, p ∈ dom (mem s) <-> p ∈ locs t;
  stored_owns : exists out, arena_owns (ar s) out /\ forall p, p ∈ out <-> p ∈ locs t
}.

Lemma shape_stored s t : shape s t <-> stored s t /\ root (fld s) = root_of t.
Proof. split; [intros []; split; [by split|done]|intros [[] ?]; by split]. Qed.

Lemma stored_plug s c t :
  stored s (plug c t) ->
  ctx_in (mem s) c (root_of t) /\ tree_in (mem s) (parent_of c) t /\
  NoDup (clocs c ++ locs t) /\ LNull ∉ clocs c ++ locs t.
Proof. intros [Ht Hnd Hnull _ _]. rewrite plug_in in Ht. rewrite locs_plug in Hnd, Hnull. tauto. Qed.

Lemma stored_load s c p b k v l r :
  stored s (plug c (Node p b k v l r)) ->
  mem s !! p = Some (mkn (root_of l) (root_of r) (parent_of c) b k v) /\ p <> LNull.
Proof.
  intros Hs. apply stored_plug in Hs as (_ & (Ep & _) & _ & Hn). simpl in Hn.
  nd_split. split; [done|congruence].
Qed.

(** Writing the data of a node. *)
Lemma data_wp s c p b k v l r k' v' (g : muggle_avl_tree_node -> muggle_avl_tree_node) Q :
  stored s (plug c (Node p b k v l r)) ->
  g (mkn (root_of l) (root_of r) (parent_of c) b k v)
    = mkn (root_of l) (root_of r) (parent_of c) b k' v' ->
  (forall s', stored s' (plug c (Node p b k' v' l r)) -> fld s' = fld s -> calls s' = calls s -> Q tt s') ->
  wpm (modify p g) s Q.
Proof.
  intros Hs Hg HQ. pose proof (stored_plug _ _ _ Hs) as (Hc & (Ep & Hl & Hr) & Hnd & Hnull).
  eapply wpm_modify; [done|]. rewrite Hg. apply HQ; [|done|done].
  destruct Hs as [_ Hnd' Hnull' Hdom (out & Ho & Hout)].
  assert (locs (plug c (Node p b k' v' l r)) ≡ₚ locs (plug c (Node p b k v l r))) as HP
    by (by rewrite !locs_plug).
  split; rewrite ?HP; try done.
  - apply plug_in. simpl in *. rewrite lookup_insert_eq. nd_split.
    split; [keep; done|]. split; [done|]. split; keep; done.
  - intros x. rewrite HP, <- Hdom. simpl. rewrite dom_insert_lookup; [done|by eexists].
  - exists out. split; [done|]. intros x. by rewrite HP.
Qed.

(** ** erase_node *)

(** The callbacks for one entry, and for the nodes of a tree in postorder. *)
Definition free_entry (key_free value_free : bool) (k v : ptr) : list free_call :=
  (if negb (k =? NULL) && key_free then [FreeKey k] else []) ++
  (if negb (v =? NULL) && value_free then [FreeValue v] else []).

Fixpoint free_tree (key_free value_free : bool) (t : tree) : list free_call :=
  match t with
  | Leaf => []
  | Node _ _ k v l r => free_tree key_free value_free l ++ free_tree key_free value_free r
                        ++ free_entry key_free value_free k v
  end.

(** A leaf leaves its parent and is given back. *)
Lemma stored_delete s c p b k v m' a :
  stored s (plug c (Node p b k v Leaf Leaf)) ->
  ctx_in m' c LNull -> dom m' = dom (mem s) ->
  (forall out, arena_owns (ar s) out -> (forall x, x ∈ out <-> x ∈ clocs c \/ x = p) -> arena_owns a (out ∖ {[p]})) ->
  stored (mkst (delete p m') a (fld s) (calls s)) (plug c Leaf).
Proof.
  intros Hs Hc Hd Ha. pose proof (stored_plug _ _ _ Hs) as (_ & _ & Hnd & Hnull).
  destruct Hs as [_ _ _ Hdom (out & Ho & Hout)]. simpl in Hnd, Hnull.
  assert (p ∉ clocs c) as Hpc.
  { apply list.NoDup_app in Hnd as (_ & Hd' & _). intros Hx. apply (Hd' _ Hx). left. }
  assert (forall x, x ∈ locs (plug c (Node p b k v Leaf Leaf)) <-> x ∈ clocs c \/ x = p) as Hl.
  { intros x. rewrite locs_plug. simpl. by rewrite elem_of_app, list_elem_of_singleton. }
  split; rewrite ?locs_plug, ?app_nil_r; simpl.
  - apply plug_in. split; [|done]. eapply ctx_in_agree; [|done]. intros x Hx.
    rewrite lookup_delete_ne; [done|]. by intros ->.
  - by apply list.NoDup_app in Hnd as (? & _ & _).
  - by apply not_elem_of_app in Hnull as [? _].
  - intros x. rewrite locs_plug, app_nil_r, dom_delete, elem_of_difference, Hd, Hdom, Hl, elem_of_singleton.
    split; [tauto|]. intros Hx. split; [by left|]. by intros ->.
  - exists (out ∖ {[p]}). split; [apply Ha; [done|]; intros x; by rewrite Hout, Hl|].
    intros x. rewrite locs_plug, app_nil_r, elem_of_difference, Hout, Hl, elem_of_singleton.
    split; [tauto|]. intros Hx. split; [by left|]. by intros ->.
Qed.

Lemma detach_wp s c p b k v Q :
  stored s (plug c (Node p b k v Leaf Leaf)) ->
  (forall s', stored s' (plug c Leaf) -> fld s' = fld s -> calls s' = calls s -> Q tt s') ->
  wpm (n ← load p;
       (if is_null (parent n) then mret tt
        else
          pn ← load (parent n);
          if bool_decide (left pn = p) then modify (parent n) (set_left LNull)
          else modify (parent n) (set_right LNull));;
       dealloc p) s Q.
Proof.
  intros Hs HQ. destruct (stored_load _ _ _ _ _ _ _ _ Hs) as [Ep Hp0].
  pose proof (stored_plug _ _ _ Hs) as (Hc & _ & Hnd & Hnull). simpl in Hc, Hnd, Hnull. nd_split.
  destruct (stored_owns _ _ Hs) as (out & Ho & Hout).
  assert (p ∈ out) as Hpo by (rewrite Hout, locs_plug; apply elem_of_app; right; left).
  assert (p ∉ clocs c) as Hpc by nd_solve.
  assert (forall m', ctx_in m' c LNull -> dom m' = dom (mem s) -> (exists n, m' !! p = Some n) ->
    wpm (dealloc p) (mkst m' (ar s) (fld s) (calls s)) Q) as Hfree.
  { intros m' Hc' Hd [n En]. eapply wpm_dealloc; [done|done|done|]. intros a Ha. simpl.
    apply HQ; [|done|done]. eapply stored_delete; [done|done|done|]. intros out' Ho' Hout'.
    assert (out' = out) as ->; [|done]. apply set_eq. intros x.
    rewrite Hout', Hout, locs_plug. simpl. by rewrite elem_of_app, list_elem_of_singleton. }
  apply wpm_bind. eapply wpm_load; [done|]. simpl.
  destruct (decide (c = [])) as [->|Hne].
  { simpl. apply wpm_bind, wpm_ret. destruct s. apply Hfree; [done|done|by eexists]. }
  destruct (ctx_in_hole (mem s) c p LNull Hc) as (pn & Epn & Hc'); try done.
  assert (parent_of c ∈ clocs c) as Hin by (by apply parent_of_elem).
  unfold is_null. rewrite bool_decide_false by (intros E; rewrite E in Hin; nd_solve).
  assert (p <> parent_of c) by (by intros ->).
  apply wpm_bind, wpm_bind. eapply wpm_load; [done|].
  rewrite (bool_decide_ext (left pn = p) (p = left pn)) by (split; by intros ->).
  specialize (Hc' _ eq_refl).
  case_bool_decide; (eapply wpm_modify; [done|]); (apply Hfree;
    [done|apply dom_insert_lookup_L; by eexists|exists (mkn LNull LNull (parent_of c) b k v); by rewrite lookup_insert_ne]).
Qed.
(** The data of a node whose children are gone. *)
Lemma erase_data_wp s c p b k v kf vf (K : AM unit) Q :
  stored s (plug c (Node p b k v Leaf Leaf)) ->
  (forall s' k' v', stored s' (plug c (Node p b k' v' Leaf Leaf)) -> fld s' = fld s ->
     calls s' = calls s ++ free_entry kf vf k v -> wpm K s' Q) ->
  wpm (n ← load p;
       (if key n =? NULL then mret tt
        else (if kf then called [FreeKey (key n)] else mret tt);; modify p (set_key NULL));;
       n ← load p;
       (if value n =? NULL then mret tt
        else (if vf then called [FreeValue (value n)] else mret tt);; modify p (set_value NULL));;
       K) s Q.
Proof.
  intros Hs HQ. apply wpm_bind. eapply wpm_load; [by eapply stored_load|]. simpl.
  apply wpm_bind. apply (wpm_mono _ _ (fun _ s1 => (exists k', stored s1 (plug c (Node p b k' v Leaf Leaf))) /\
    fld s1 = fld s /\ calls s1 = calls s ++ if negb (k =? NULL) && kf then [FreeKey k] else [])).
  { destruct (k =? NULL); simpl.
    { apply wpm_ret. rewrite app_nil_r. by eauto. }
    apply wpm_bind. destruct kf; simpl; [apply wpm_called|apply wpm_ret];
      (eapply data_wp; [|done|]; [|intros s' Hs' Hf' Hc'; rewrite Hf', Hc', ?app_nil_r; by eauto]);
      [|done]. destruct Hs. by split. }
  intros _ s1 ([k' Hs1] & Hf1 & Hc1). apply wpm_bind. eapply wpm_load; [by eapply stored_load|]. simpl.
  apply wpm_bind. destruct (v =? NULL) eqn:Ev; simpl.
  { apply wpm_ret, (HQ _ k' v); [done|done|]. unfold free_entry. by rewrite Ev, app_nil_r. }
  apply wpm_bind. destruct vf; simpl; [apply wpm_called|apply wpm_ret];
    (eapply data_wp; [|done|]; [|intros s' Hs' Hf' Hc'; apply (HQ _ k' NULL); [done|by rewrite Hf'|
       unfold free_entry; rewrite Hc', Hc1, Ev; simpl; by rewrite ?app_nil_r, <- ?(assoc_L (++))]]);
    [|done]. destruct Hs1. by split.
Qed.

(** The nodes below and including [root_of t] go, the rest of the tree stays. *)
Lemma avl_erase_node_wp kf vf t : forall fuel s c,
  stored s (plug c t) -> t <> Leaf -> (length (locs t) <= fuel)%nat ->
  wpm (muggle_avl_tree_erase_node fuel (root_of t) kf vf) s (fun _ s' =>
    stored s' (plug c Leaf) /\ fld s' = fld s /\ calls s' = calls s ++ free_tree kf vf t).
Proof.
  induction t as [|p b k v l IHl r IHr]; intros [|fuel] s c Hs Hnl Hf; try done; simpl in Hf;
    rewrite ?length_app in Hf; try lia. cbn [root_of muggle_avl_tree_erase_node].
  destruct (stored_load _ _ _ _ _ _ _ _ Hs) as [Ep Hp0].
  unfold is_null at 1. rewrite bool_decide_false by done.
  assert (forall t, (t = Leaf /\ root_of t = LNull) \/ (t <> Leaf /\ is_null (root_of t) = false) \/
    LNull ∈ locs t) as Hcase.
  { intros [|q ? ? ? ? ?]; [by left|]. destruct (decide (q = LNull)) as [->|]; [right; right; left|].
    right; left. split; [done|]. by apply bool_decide_false. }
  pose proof (stored_plug _ _ _ Hs) as (_ & _ & _ & Hnull). simpl in Hnull. nd_split.
  (* the left subtree *)
  apply wpm_bind. eapply wpm_load; [done|]. cbn [left]. apply wpm_bind.
  apply (wpm_mono _ _ (fun _ s1 => stored s1 (plug c (Node p b k v Leaf r)) /\ fld s1 = fld s /\
    calls s1 = calls s ++ free_tree kf vf l)).
  { destruct (Hcase l) as [[-> ->]|[[Hl ->]|?]]; [|by apply (IHl fuel s (FL p b k v r :: c)); [| |lia]|done].
    apply wpm_ret. simpl. by rewrite app_nil_r. }
  intros _ s1 (Hs1 & Hf1 & Hc1). apply wpm_bind. eapply wpm_load; [by eapply stored_load|].
  cbn [right]. apply wpm_bind.
  apply (wpm_mono _ _ (fun _ s2 => stored s2 (plug c (Node p b k v Leaf Leaf)) /\ fld s2 = fld s1 /\
    calls s2 = calls s1 ++ free_tree kf vf r)).
  { destruct (Hcase r) as [[-> ->]|[[Hr ->]|?]]; [|by apply (IHr fuel s1 (FR p b k v Leaf :: c)); [| |lia]|done].
    apply wpm_ret. simpl. by rewrite app_nil_r. }
  intros _ s2 (Hs2 & Hf2 & Hc2).
  (* the data and the node *)
  apply (erase_data_wp s2 c p b k v); [done|]. intros s3 k' v' Hs3 Hf3 Hc3.
  apply (detach_wp s3 c p b k' v'); [done|]. intros s4 Hs4 Hf4 Hc4. split_and!; [done|congruence|].
  rewrite Hc4, Hc3, Hc2, Hc1. simpl. by rewrite <- !(assoc_L (++)).
Qed.

(** ** remove: moving the data into a leaf *)

Lemma plug_app c1 c2 t : plug (c1 ++ c2) t = plug c2 (plug c1 t).
Proof. unfold plug. by rewrite fold_left_app. Qed.

Lemma lkvs_app c1 c2 : lkvs (c1 ++ c2) = lkvs c2 ++ lkvs c1.
Proof.
  induction c1 as [|[] c1 IH]; simpl; [by rewrite app_nil_r|done|]. by rewrite IH, <- (assoc_L (++)).
Qed.

Lemma rkvs_app c1 c2 : rkvs (c1 ++ c2) = rkvs c1 ++ rkvs c2.
Proof. induction c1 as [|[] c1 IH]; simpl; [done| |done]. by rewrite IH, <- (assoc_L (++)). Qed.

(** Changing the data of a node below a path keeps the balance. *)
Lemma height_plug c t t' : height t = height t' -> height (plug c t) = height (plug c t').
Proof.
  revert t t'. induction c as [|f c IH]; intros t t' E; [done|]. simpl. apply IH.
  by rewrite !height_fill, E.
Qed.

Lemma avl_plug_data c q b k v k' v' l r :
  avl (plug c (Node q b k v l r)) -> avl (plug c (Node q b k' v' l r)).
Proof. rewrite !avl_plug. done. Qed.

Lemma root_of_null m par t : tree_in m par t -> LNull ∉ locs t -> is_null (root_of t) = true -> t = Leaf.
Proof.
  destruct t; [done|]. simpl. intros _ Hn Hp%bool_decide_eq_true. subst. nd_split. done.
Qed.

(** The rightmost node of a tree, and the loop that finds it. *)
Lemma rightmost_spec s t : forall par,
  tree_in (mem s) par t -> LNull ∉ locs t -> t <> Leaf ->
  exists c q b k v l, t = plug c (Node q b k v l Leaf) /\ rkvs c = [] /\
    forall fuel, (length (locs t) <= fuel)%nat ->
      loopM fuel rightmost_step (root_of t) s = Done (q, s).
Proof.
  induction t as [|p b k v l _ r IHr]; intros par Hin Hn Hnl; [done|].
  destruct Hin as (Ep & Hl & Hr). simpl in Hn. nd_split.
  assert (forall fuel, loopM (S fuel) rightmost_step p s
    = if is_null (root_of r) then Done (p, s) else loopM fuel rightmost_step (root_of r) s) as Hstep.
  { intros fuel. unfold loopM; fold (@loopM H muggle_avl_tree_node muggle_avl_tree loc loc).
    unfold rightmost_step at 1, mbind, M_bind, load. rewrite Ep. simpl. by destruct (is_null (root_of r)). }
  destruct r as [|q b' k' v' l' r'].
  - exists [], p, b, k, v, l. split; [done|]. split; [done|]. intros [|fuel] Hf; [simpl in Hf; lia|].
    apply Hstep.
  - destruct (IHr p Hr) as (c & q' & bq & kq & vq & lq & E & Hc & Hloop); [done|done|].
    exists (c ++ [FR p b k v l]), q', bq, kq, vq, lq. rewrite plug_app, rkvs_app, Hc, <- E. split; [done|].
    split; [done|]. intros [|fuel] Hf; [simpl in Hf; lia|]. cbn [root_of]. rewrite Hstep. clear Hstep.
    destruct (is_null _) eqn:En.
    + apply (root_of_null _ _ _ Hr) in En; done.
    + apply Hloop. cbn [locs length] in Hf |- *. rewrite !length_app in Hf |- *. cbn [length] in Hf. rewrite ?length_app in Hf. lia.
Qed.

Lemma leftmost_spec s t : forall par,
  tree_in (mem s) par t -> LNull ∉ locs t -> t <> Leaf ->
  exists c q b k v r, t = plug c (Node q b k v Leaf r) /\ lkvs c = [] /\
    forall fuel, (length (locs t) <= fuel)%nat ->
      loopM fuel leftmost_step (root_of t) s = Done (q, s).
Proof.
  induction t as [|p b k v l IHl r _]; intros par Hin Hn Hnl; [done|].
  destruct Hin as (Ep & Hl & Hr). simpl in Hn. nd_split.
  assert (forall fuel, loopM (S fuel) leftmost_step p s
    = if is_null (root_of l) then Done (p, s) else loopM fuel leftmost_step (root_of l) s) as Hstep.
  { intros fuel. unfold loopM; fold (@loopM H muggle_avl_tree_node muggle_avl_tree loc loc).
    unfold leftmost_step at 1, mbind, M_bind, load. rewrite Ep. simpl. by destruct (is_null (root_of l)). }
  destruct l as [|q b' k' v' l' r'].
  - exists [], p, b, k, v, r. split; [done|]. split; [done|]. intros [|fuel] Hf; [simpl in Hf; lia|].
    apply Hstep.
  - destruct (IHl p Hl) as (c & q' & bq & kq & vq & rq & E & Hc & Hloop); [done|done|].
    exists (c ++ [FL p b k v r]), q', bq, kq, vq, rq. rewrite plug_app, lkvs_app, Hc, <- E. split; [done|].
    split; [done|]. intros [|fuel] Hf; [simpl in Hf; lia|]. cbn [root_of]. rewrite Hstep. clear Hstep.
    destruct (is_null _) eqn:En.
    + apply (root_of_null _ _ _ Hl) in En; done.
    + apply Hloop. cbn [locs length] in Hf |- *. rewrite !length_app in Hf |- *. cbn [length] in Hf. rewrite ?length_app in Hf. lia.
Qed.

(** An ancestor with other data. *)
Definition frame_kv (f : frame) : ptr * ptr := match f with FL _ _ k v _ | FR _ _ k v _ => (k, v) end.
Definition with_kv (f : frame) (k v : ptr) : frame :=
  match f with FL p b _ _ r => FL p b k v r | FR p b _ _ l => FR p b k v l end.

Lemma root_plug_ext c t t' : root_of t = root_of t' -> root_of (plug c t) = root_of (plug c t').
Proof. destruct c as [|f c]; [done|]. intros _. by apply root_plug. Qed.

Lemma frame_load s c f t :
  stored s (plug (f :: c) t) -> exists n, mem s !! frame_loc f = Some n /\ (key n, value n) = frame_kv f.
Proof. destruct f; intros Hs; simpl in Hs; apply stored_load in Hs as [Hs _]; by eexists. Qed.

(** Exchange of the data of a node and one below it. *)
Lemma swap_data_wp s pr f c q b k v l r :
  stored s (plug (pr ++ f :: c) (Node q b k v l r)) ->
  wpm (swap_data (frame_loc f) q) s (fun _ s' =>
    stored s' (plug (pr ++ with_kv f k v :: c) (Node q b (frame_kv f).1 (frame_kv f).2 l r)) /\
    fld s' = fld s /\ calls s' = calls s).
Proof.
  assert (forall s k0 v0 k1 v1 k' v' g Q,
    stored s (plug (pr ++ with_kv f k0 v0 :: c) (Node q b k1 v1 l r)) ->
    (forall x y z w, g (mkn x y z w k0 v0) = mkn x y z w k' v') ->
    (forall s', stored s' (plug (pr ++ with_kv f k' v' :: c) (Node q b k1 v1 l r)) ->
       fld s' = fld s -> calls s' = calls s -> Q tt s') ->
    wpm (modify (frame_loc f) g) s Q) as Hup.
  { intros s0 k0 v0 k1 v1 k' v' g Q Hs Hg HQ. rewrite plug_app in Hs. simpl in Hs.
    setoid_rewrite plug_app in HQ. simpl in HQ.
    destruct f; simpl in *; (eapply data_wp; [done|apply Hg|done]). }
  assert (forall s k0 v0 k1 v1, stored s (plug (pr ++ with_kv f k0 v0 :: c) (Node q b k1 v1 l r)) ->
    exists n, mem s !! frame_loc f = Some n /\ key n = k0 /\ value n = v0) as Hld.
  { intros s0 k0 v0 k1 v1 Hs. rewrite plug_app in Hs. apply frame_load in Hs as (n & En & Ekv).
    exists n. destruct f; simpl in *; by injection Ekv as -> ->. }
  intros Hs. assert (f = with_kv f (frame_kv f).1 (frame_kv f).2) as Hf by (by destruct f).
  rewrite Hf in Hs at 1. destruct (frame_kv f) as [kf vf]. simpl in *. unfold swap_data.
  destruct (Hld _ _ _ _ _ Hs) as (n & En & Hk & _). apply wpm_bind. eapply wpm_load; [done|]. rewrite Hk.
  apply wpm_bind. eapply wpm_load; [by eapply stored_load|]. simpl.
  apply wpm_bind. apply (Hup _ _ _ _ _ k vf _ _ Hs); [done|]. intros s1 Hs1 Hf1 Hc1.
  apply wpm_bind. eapply (data_wp s1 _ q); [done|done|]. intros s2 Hs2 Hf2 Hc2.
  destruct (Hld _ _ _ _ _ Hs2) as (n2 & En2 & _ & Hv). apply wpm_bind. eapply wpm_load; [done|]. rewrite Hv.
  apply wpm_bind. eapply wpm_load; [by eapply stored_load|]. simpl.
  apply wpm_bind. apply (Hup _ _ _ _ _ k v _ _ Hs2); [done|]. intros s3 Hs3 Hf3 Hc3.
  eapply (data_wp s3 _ q); [done|done|]. intros s4 Hs4 Hf4 Hc4. split_and!; [done|congruence|congruence].
Qed.

Lemma avl_plug_frame c1 f c2 k v t : avl (plug (c1 ++ f :: c2) t) -> avl (plug (c1 ++ with_kv f k v :: c2) t).
Proof. rewrite !plug_app. destruct f; simpl; apply avl_plug_data. Qed.

Lemma clocs_app c1 c2 : clocs (c1 ++ c2) = clocs c1 ++ clocs c2.
Proof. induction c1 as [|f c1 IH]; simpl; [done|]. by rewrite IH, (assoc_L (++)). Qed.

(** The data of the node to remove have moved to [q]; the others are in order. *)
Definition moved s c k v (l r : tree) s' c' q b' (l' r' : tree) : Prop :=
  shape s' (plug c' (Node q b' k v l' r')) /\ avl (plug c' (Node q b' k v l' r')) /\
  lkvs c' ++ kvs l' ++ kvs r' ++ rkvs c' = lkvs c ++ kvs l ++ kvs r ++ rkvs c /\
  length (locs (plug c' (Node q b' k v l' r'))) = S (length (clocs c ++ locs l ++ locs r)) /\
  fld s' = fld s /\ calls s' = calls s.

(** One exchange, with the rightmost node on the left or the leftmost one on the
    right. *)
Lemma swap_moved s c pr f q bq kq vq lq rq k v l r Q :
  shape s (plug (pr ++ f :: c) (Node q bq kq vq lq rq)) ->
  avl (plug (pr ++ f :: c) (Node q bq kq vq lq rq)) ->
  fill f (plug pr (Node q bq kq vq lq rq)) = Node (frame_loc f) (frame_bal f) k v l r ->
  lkvs (pr ++ with_kv f kq vq :: c) ++ kvs lq ++ kvs rq ++ rkvs (pr ++ with_kv f kq vq :: c)
    = lkvs c ++ kvs l ++ kvs r ++ rkvs c ->
  (forall s', moved s c k v l r s' (pr ++ with_kv f kq vq :: c) q bq lq rq -> Q tt s') ->
  wpm (swap_data (frame_loc f) q) s Q.
Proof.
  intros [Hs Hroot]%shape_stored Ha Hfill Hkv HQ.
  assert (frame_kv f = (k, v)) as Ekv by (destruct f; simpl in *; by injection Hfill as -> -> _ _).
  eapply wpm_mono; [by apply swap_data_wp|]. rewrite Ekv. simpl. intros [] s' (Hs' & Hf' & Hc').
  apply HQ. split; [|split; [|split; [done|split; [|done]]]].
  - apply shape_stored. split; [done|]. rewrite Hf', Hroot, !plug_app. simpl.
    apply root_plug_ext. by destruct f.
  - by eapply avl_plug_frame, avl_plug_data.
  - rewrite locs_plug, clocs_app. simpl.
    assert (length (locs (fill f (plug pr (Node q bq kq vq lq rq)))) = S (length (locs l ++ locs r))) as Hlen
      by (by rewrite Hfill).
    assert (length (locs (plug pr (Node q bq kq vq lq rq))) = length (clocs pr) + S (length (locs lq ++ locs rq)))%nat as Hl2
      by (by rewrite locs_plug, length_app).
    destruct f; simpl in *; rewrite !length_app in *; simpl; rewrite !length_app; lia.
Qed.

Lemma to_leaf_wp : forall fuel s c p b k v l r,
  shape s (plug c (Node p b k v l r)) -> avl (plug c (Node p b k v l r)) ->
  (length (locs l ++ locs r) < fuel)%nat ->
  wpm (loopM fuel to_leaf_step p) s (fun q s' => exists c' b',
    moved s c k v l r s' c' q b' Leaf Leaf).
Proof.
  induction fuel as [|fuel IH]; intros s c p b k v l r Hs Ha Hf; [lia|].
  apply wpm_loop_step. unfold to_leaf_step at 1.
  pose proof (shape_plug _ _ _ Hs) as (_ & (Ep & Hl & Hr) & Hnd & Hnull). simpl in Hnd, Hnull.
  apply wpm_bind. eapply wpm_load; [done|]. cbn [left right].
  assert (forall s1 c1 q b1 l1 r1, moved s c k v l r s1 c1 q b1 l1 r1 ->
    (length (locs l1 ++ locs r1) < length (locs l ++ locs r))%nat ->
    wpm (loopM fuel to_leaf_step q) s1 (fun q s' => exists c' b', moved s c k v l r s' c' q b' Leaf Leaf)) as Hgo.
  { intros s1 c1 q b1 l1 r1 (Hs1 & Ha1 & Hkv1 & Hlen1 & Hf1 & Hc1) Hlt.
    eapply wpm_mono; [apply (IH s1 c1 q b1 k v l1 r1 Hs1 Ha1); lia|].
    intros q' s2 (c2 & b2 & Hs2 & Ha2 & Hkv2 & Hlen2 & Hf2 & Hc2). exists c2, b2.
    split_and!; try done; try congruence. rewrite Hlen2, <- Hlen1, locs_plug. simpl.
    rewrite !length_app. simpl. rewrite !length_app. lia. }
  assert (length (locs l) <= S (size (mem s)) /\ length (locs r) <= S (size (mem s)))%nat as [Hfl Hfr].
  { rewrite (shape_count _ _ Hs), locs_plug, length_app. simpl. rewrite length_app. lia. }
  assert (LNull ∉ locs l /\ LNull ∉ locs r) as [Hnl Hnr] by (nd_split; done).
  destruct l as [|pl bl kl vl ll rl]; [destruct r as [|qr br kr vr lr rr]|].
  - simpl. apply wpm_ret. exists c, b. split_and!; try done. rewrite locs_plug, app_nil_r, length_app. simpl. lia.
  - destruct (leftmost_spec s _ p Hr Hnr ltac:(done)) as (pr & q & bq & kq & vq & rq & E & Hpr & Hloop).
    specialize (Hloop _ Hfr). rewrite E in *.
    assert (is_null (root_of (plug pr (Node q bq kq vq Leaf rq))) = false) as Hn0.
    { rewrite <- E in *. simpl in *. apply bool_decide_false. nd_split. congruence. }
    rewrite Hn0. simpl negb. cbn [andb]. apply wpm_bind, wpm_count, wpm_bind.
    apply wpm_Done. exists q, s. split; [done|]. apply wpm_bind.
    eapply (swap_moved s c pr (FR p b k v Leaf) q bq kq vq Leaf rq k v Leaf _);
      [by rewrite plug_app|by rewrite plug_app|done| |].
    + rewrite lkvs_app, rkvs_app, kvs_plug, Hpr. simpl. by rewrite app_nil_r, <- !(assoc_L (++)).
    + intros s1 Hm. apply wpm_ret. apply (Hgo _ _ _ _ _ _ Hm). simpl. rewrite locs_plug, length_app. simpl. lia.
  - destruct (rightmost_spec s _ p Hl Hnl ltac:(done)) as (pr & q & bq & kq & vq & lq & E & Hpr & Hloop).
    specialize (Hloop _ Hfl). rewrite E in *.
    assert (is_null (root_of (plug pr (Node q bq kq vq lq Leaf))) = false) as Hn0.
    { rewrite <- E in *. simpl in *. apply bool_decide_false. nd_split. congruence. }
    rewrite Hn0. simpl negb. cbn [andb]. apply wpm_bind, wpm_count, wpm_bind.
    apply wpm_Done. exists q, s. split; [done|]. apply wpm_bind.
    eapply (swap_moved s c pr (FL p b k v r) q bq kq vq lq Leaf k v _ r);
      [by rewrite plug_app|by rewrite plug_app|done| |].
    + rewrite lkvs_app, rkvs_app, kvs_plug, Hpr. simpl. by rewrite ?app_nil_r, <- !(assoc_L (++)).
    + intros s1 Hm. apply wpm_ret. apply (Hgo _ _ _ _ _ _ Hm). simpl.
      rewrite app_nil_r, length_app, locs_plug, length_app. simpl. rewrite app_nil_r. lia.
Qed.

(** ** remove: retracing *)

(** A round starts by writing the balance factor that fits the hole. *)
Lemma write_bal_wp s f c t b' (g : Z -> Z) :
  shape s (plug (f :: c) t) -> g (frame_bal f) = b' ->
  wpm (modify (frame_loc f) (fun n => set_balance (g (balance n)) n)) s (fun _ s1 =>
    shape s1 (plug (with_bal f b' :: c) t) /\ cmp (fld s1) = cmp (fld s) /\ calls s1 = calls s /\
    exists n, mem s1 !! frame_loc f = Some n /\ balance n = b' /\ parent n = parent_of c).
Proof.
  intros Hs <-. eapply set_bal_wp; [done|]. intros s' Hs' Hcm Hcl. split_and!; try done.
  destruct (shape_plug s' c (fill (with_bal f _) t) Hs') as (_ & Hin & _).
  destruct f; destruct Hin as [Hin _]; by eexists.
Qed.

Lemma frame_not_null s f c t : shape s (plug (f :: c) t) -> is_null (frame_loc f) = false.
Proof.
  intros Hs. destruct (shape_plug s (f :: c) t Hs) as (_ & _ & _ & Hn). simpl in Hn. nd_split.
  apply bool_decide_false. congruence.
Qed.

(** The side of a node, [SideLeft] when it is the root. *)
Lemma side_of_path_wp s c t d :
  shape s (plug c t) -> t <> Leaf ->
  wpm (if is_null (parent_of c) then mret d else side_of (parent_of c) (root_of t)) s
    (fun sd s' => s' = s /\ (c <> [] -> sd = path_side c)).
Proof.
  intros Hs Ht. destruct c as [|f c]; [by apply wpm_ret|]. cbn [parent_of].
  rewrite (frame_not_null s f c t Hs). by apply (side_of_wp s f c).
Qed.

(** The result of a round that has to go on above [t'], one lower than before. *)
Definition retraced s T s' : Prop :=
  exists T', shape s' T' /\ avl T' /\ ents T' = ents T /\ cmp (fld s') = cmp (fld s) /\ calls s' = calls s.

Lemma remove_retrace_wp c : forall fuel s t sd,
  shape s (plug c t) -> avl t -> cavl c (height t + 1) -> (c <> [] -> sd = path_side c) ->
  (length c < fuel)%nat ->
  wpm (loopM fuel remove_retrace (parent_of c, sd)) s (fun _ s' => retraced s (plug c t) s').
Proof.
  induction c as [|f c IH]; intros [|fuel] s t sd Hs Ht Hc Hsd Hf; try (simpl in Hf; lia);
    apply wpm_loop_step; cbn [parent_of remove_retrace].
  { apply wpm_ret. by exists t. }
  destruct Hc as (Hft & Hfb & Hfr & Hc). simpl in Hf. rewrite (Hsd ltac:(done)). cbn [path_side].
  pose proof (height_nonneg (frame_tree f)). pose proof (height_nonneg t).
  rewrite (frame_not_null s f c t Hs).
  set (b' := frame_fit f (height t)). set (f' := with_bal f b').
  assert (frame_loc f' = frame_loc f /\ frame_tree f' = frame_tree f /\ frame_bal f' = b' /\
    frame_fit f' (height t) = b') as (Hl' & Ht' & Hbb & Hfit) by (unfold f', b'; by destruct f).
  assert (ents (plug (f' :: c) t) = ents (plug (f :: c) t)) as He
    by (simpl; apply ents_plug_ext; unfold f'; by destruct f).
  assert (-2 <= b' <= 2) by (unfold b'; destruct f; simpl in *; lia).
  apply wpm_bind. apply (wpm_mono _ _ (fun _ s1 => shape s1 (plug (f' :: c) t) /\
    cmp (fld s1) = cmp (fld s) /\ calls s1 = calls s /\
    exists n, mem s1 !! frame_loc f = Some n /\ balance n = b' /\ parent n = parent_of c)).
  { assert (forall x, x = b' -> swrap 8 x = b') as Hw by (intros x ->; apply swrap_small; lia).
    destruct f; cbn [frame_side];
      [apply (write_bal_wp s (FL _ _ _ _ _) c t b' (fun b => swrap 8 (b + 1)))
      |apply (write_bal_wp s (FR _ _ _ _ _) c t b' (fun b => swrap 8 (b - 1)))];
      try done; apply Hw; unfold b'; simpl in *; lia. }
  intros _ s1 (Hs1 & Hcm1 & Hcl1 & n & En & Hbn & Hpn).
  apply wpm_bind, (wpm_load _ n); [done|]. rewrite Hbn, Hpn.
  (* going on above a subtree that is one lower *)
  assert (forall s2 t2 sd2, shape s2 (plug c t2) -> avl t2 -> ents t2 = ents (fill f' t) ->
    height t2 + 1 = 1 + Z.max (height t + 1) (height (frame_tree f)) ->
    cmp (fld s2) = cmp (fld s) -> calls s2 = calls s -> (c <> [] -> sd2 = path_side c) ->
    wpm (loopM fuel remove_retrace (parent_of c, sd2)) s2 (fun _ s' => retraced s (plug (f :: c) t) s')) as Hup.
  { intros s2 t2 sd2 Hs2 Ha2 He2 Hh2 Hcm2 Hcl2 Hsd2.
    eapply wpm_mono; [apply (IH fuel s2 t2 sd2); try done; [by rewrite Hh2|lia]|].
    intros _ s3 (T' & HT & HaT & HeT & Hcm3 & Hcl3). exists T'. split_and!; try done; [|congruence..].
    rewrite HeT, <- He. simpl. by apply ents_plug_ext. }
  assert (avl t -> -1 <= b' <= 1 -> avl (fill f' t)) as Havl.
  { intros. apply avl_fill. rewrite Ht', Hbb, Hfit. split_and!; try done; lia. }
  assert (root_of (fill f' t) = frame_loc f /\ fill f' t <> Leaf) as [Hrt Hnl] by (unfold f'; by destruct f).
  destruct (decide (b' = 1 \/ b' = -1)) as [E1|E1].
  { replace ((b' =? 1) || (b' =? -1)) with true by (destruct E1 as [-> | ->]; done).
    apply wpm_ret. exists (plug (f' :: c) t). split_and!; try done. simpl. apply avl_plug.
    split; [|apply Havl; [done|lia]]. rewrite height_fill, Ht'.
    replace (Z.max (height t) _) with (Z.max (height t + 1) (height (frame_tree f))); [done|].
    unfold b' in *. destruct f; simpl in *; lia. }
  replace ((b' =? 1) || (b' =? -1)) with false
    by (destruct (Z.eqb_spec b' 1), (Z.eqb_spec b' (-1)); try done; lia).
  destruct (Z.eqb_spec b' 0) as [E0|E0].
  - assert (height (fill f' t) + 1 = 1 + Z.max (height t + 1) (height (frame_tree f))) as Hh.
    { rewrite height_fill, Ht'. unfold b' in *. destruct f; simpl in *; lia. }
    destruct c as [|g c].
    { simpl. apply wpm_ret. exists (fill f' t). split_and!; try done. apply Havl; [done|lia]. }
    cbn [parent_of]. rewrite (frame_not_null s1 g c (fill f' t) Hs1). apply wpm_bind.
    rewrite <- Hrt. apply (side_of_wp s1 g c); [done|done|]. apply wpm_ret.
    apply (Hup s1 (fill f' t)); try done. apply Havl; [done|lia].
  - apply wpm_bind, wpm_massert;
      [destruct (Z.eqb_spec b' 2), (Z.eqb_spec b' (-2)); try done; lia|].
    rewrite <- Hrt. apply wpm_bind. eapply wpm_mono; [by apply side_of_path_wp|].
    intros sd2 s1' [-> Hsd2].
    assert (exists k v l r, fill f' t = Node (frame_loc f) b' k v l r /\ avl l /\ avl r /\
      b' = height r - height l) as (k & v & l & r & Ef & Hl & Hr & Hlr).
    { unfold f', b' in *. destruct f; simpl in *; do 4 eexists; (split; [done|]); by split_and!. }
    simpl in Hs1. rewrite Ef in Hs1, Hup |- *. cbn [root_of]. apply wpm_bind.
    eapply wpm_mono; [apply (rebalance_wp s1 c); try done; lia|].
    intros dec s2 (t' & Hs2 & Hat & Het & Hht & _ & Hcm2 & Hcl2). apply wpm_ret.
    assert (height (Node (frame_loc f) b' k v l r) = 1 + Z.max (height t + 1) (height (frame_tree f))) as Hh.
    { rewrite <- Ef, height_fill, Ht'. unfold b' in *. destruct f; simpl in *; lia. }
    destruct dec.
    + apply (Hup s2 t'); try done; [lia|congruence|congruence].
    + exists (plug c t'). split_and!; try done; [|simpl in He |- *|congruence|congruence].
      * apply avl_plug. split; [|done]. rewrite Hht, Hh, Z.sub_0_r. done.
      * rewrite <- He, Ef. by apply ents_plug_ext.
Qed.

(** ** remove *)

(** The place of an entry in the tree. *)
Lemma ents_place t : forall E1 p k v E2, ents t = E1 ++ (p, (k, v)) :: E2 ->
  exists c b l r, t = plug c (Node p b k v l r) /\
    lkvs c ++ kvs l = E1.*2 /\ kvs r ++ rkvs c = E2.*2.
Proof.
  induction t as [|p0 b0 k0 v0 l IHl r IHr]; intros E1 p k v E2 E; simpl in E; [by destruct E1|].
  apply app_eq_inv in E as [(E & El & Er)|(E & -> & Er)].
  - destruct E as [|e E].
    + simpl in Er. injection Er as -> -> -> ->. rewrite app_nil_r in El. subst E1.
      exists [], b0, l, r. simpl. by rewrite app_nil_r, !ents_kvs.
    + simpl in Er. injection Er as <- ->. destruct (IHl _ _ _ _ _ El) as (c & b & l' & r' & -> & H4 & H5).
      exists (c ++ [FL p0 b0 k0 v0 r]), b, l', r'. rewrite plug_app, lkvs_app, rkvs_app. simpl.
      split; [done|]. split; [done|]. by rewrite app_nil_r, (assoc_L (++)), H5, fmap_app, fmap_cons, ents_kvs.
  - destruct E as [|e E].
    + simpl in Er. injection Er as -> -> -> <-.
      exists [], b0, l, r. simpl. by rewrite !app_nil_r, !ents_kvs.
    + simpl in Er. injection Er as <- Er. destruct (IHr _ _ _ _ _ Er) as (c & b & l' & r' & -> & H4 & H5).
      exists (c ++ [FR p0 b0 k0 v0 l]), b, l', r'. rewrite plug_app, lkvs_app, rkvs_app. simpl.
      split; [done|]. rewrite app_nil_r. split; [|done].
      by rewrite <- !(assoc_L (++)), H4, fmap_app, fmap_cons, ents_kvs.
Qed.

(** The leaf that holds the data goes, and the path above it is rebalanced. *)
Lemma drop_leaf_wp s c q b k v kf vf n :
  shape s (plug c (Node q b k v Leaf Leaf)) -> avl (plug c (Node q b k v Leaf Leaf)) ->
  (length (locs (plug c (Node q b k v Leaf Leaf))) <= n)%nat ->
  wpm (nd ← load q;
       if is_null (parent nd) then
         muggle_avl_tree_erase_node (S n) q kf vf;; set_root LNull
       else
         remove_side ← side_of (parent nd) q;
         let parent := parent nd in
         muggle_avl_tree_erase_node (S n) q kf vf;;
         loopM (S n) remove_retrace (parent, remove_side)) s
    (fun _ s' => exists T', shape s' T' /\ avl T' /\ kvs T' = lkvs c ++ rkvs c /\
       cmp (fld s') = cmp (fld s) /\ calls s' = calls s ++ free_entry kf vf k v).
Proof.
  intros Hs Ha Hn. pose proof Hs as [Hst Hroot]%shape_stored.
  rewrite locs_plug, length_app in Hn. simpl in Hn. pose proof (length_clocs c).
  apply wpm_bind. eapply wpm_load; [by eapply stored_load|]. cbn [parent].
  pose proof (avl_erase_node_wp kf vf (Node q b k v Leaf Leaf) (S n) s c Hst ltac:(done)) as Her.
  cbn [root_of] in Her. replace (free_tree kf vf (Node q b k v Leaf Leaf)) with (free_entry kf vf k v) in Her by done.
  destruct c as [|f c].
  - simpl is_null. cbn match. apply wpm_bind. eapply wpm_mono; [apply Her; simpl; lia|].
    intros _ s1 (Hs1 & Hf1 & Hc1). apply wpm_set_fld. exists Leaf. simpl. split_and!; try done.
    + apply shape_stored. split; [|done]. destruct Hs1. by split.
    + by rewrite Hf1.
  - cbn [parent_of]. rewrite (frame_not_null s f c _ Hs). apply wpm_bind.
    apply (side_of_wp s f c (Node q b k v Leaf Leaf)); [done|done|]. cbv zeta. apply wpm_bind.
    eapply wpm_mono; [apply Her; simpl; lia|]. intros _ s1 (Hs1 & Hf1 & Hc1).
    apply avl_plug in Ha as [Ha _].
    eapply wpm_mono; [apply (remove_retrace_wp (f :: c) (S n) s1 Leaf); try done|].
    + apply shape_stored. split; [done|]. rewrite Hf1, Hroot. by apply root_plug.
    + lia.
    + intros _ s2 (T' & HT & HaT & HeT & Hcm & Hcl). exists T'. split_and!; try done; [|congruence|congruence].
      rewrite <- ents_kvs, HeT, ents_kvs, kvs_plug. done.
Qed.

Lemma avl_remove_wp s t p k v E1 E2 kf vf :
  CmpOrder (cmp (fld s)) -> rep s t -> ents t = E1 ++ (p, (k, v)) :: E2 ->
  wpm (muggle_avl_tree_remove p kf vf) s (fun _ s' => exists t', rep s' t' /\
    kvs t' = E1.*2 ++ E2.*2 /\ cmp (fld s') = cmp (fld s) /\
    calls s' = calls s ++ free_entry kf vf k v).
Proof.
  intros Hcm [Hs Ha Hso] He. destruct (ents_place _ _ _ _ _ _ He) as (c & b & l & r & -> & <- & <-).
  unfold muggle_avl_tree_remove. apply wpm_bind, wpm_count, wpm_bind.
  rewrite (shape_count _ _ Hs). eapply wpm_mono; [apply (to_leaf_wp _ s c p b k v l r); try done|].
  { rewrite locs_plug, (length_app (clocs c)). cbn [locs length]. lia. }
  intros q s1 (c' & b' & Hs1 & Ha1 & Hkv & Hlen & Hf1 & Hc1).
  eapply wpm_mono; [apply (drop_leaf_wp s1 c' q b' k v); try done|].
  { rewrite Hlen, locs_plug, !length_app. simpl. rewrite length_app. lia. }
  intros _ s2 (T' & Hs2 & Ha2 & Hkv2 & Hcm2 & Hc2). exists T'.
  simpl in Hkv. rewrite Hkv, (assoc_L (++)) in Hkv2.
  split; [|split; [by rewrite Hkv2, <- !(assoc_L (++))|split; [congruence|congruence]]].
  split; [done|done|]. rewrite Hcm2, Hf1, Hkv2. rewrite kvs_plug in Hso. simpl in Hso.
  rewrite <- !(assoc_L (++)) in Hso. simpl in Hso. rewrite (assoc_L (++)) in Hso.
  by apply sorted_mid in Hso as (_ & _ & Hso).
Qed.

(** ** clear *)

(** Every node goes and every entry is freed; the root keeps its old value. *)
Lemma avl_clear_wp s t kf vf :
  shape s t ->
  wpm (muggle_avl_tree_clear kf vf) s (fun _ s' =>
    mem s' = ∅ /\ fld s' = fld s /\ calls s' = calls s ++ free_tree kf vf t).
Proof.
  intros Hs. unfold muggle_avl_tree_clear. apply wpm_bind, wpm_get_fld, wpm_bind, wpm_count.
  rewrite (shape_root _ _ Hs), (shape_count _ _ Hs).
  assert (forall s', stored s' Leaf -> mem s' = ∅) as Hemp.
  { intros s' Hs'. apply dom_empty_inv_L. apply set_eq. intros x. rewrite (stored_dom _ _ Hs').
    by rewrite elem_of_empty, elem_of_nil. }
  destruct t as [|p b k v l r].
  - simpl. apply wpm_ret. rewrite app_nil_r. split_and!; try done. apply Hemp.
    by apply shape_stored in Hs as [? _].
  - cbn [root_of]. assert (is_null p = false) as ->.
    { pose proof (shape_null _ _ Hs) as Hn. simpl in Hn. nd_split. by apply bool_decide_false. }
    apply shape_stored in Hs as [Hst _].
    eapply wpm_mono; [apply (avl_erase_node_wp kf vf (Node p b k v l r) _ s []); done|].
    intros _ s' (Hs' & Hf & Hc). split_and!; try done. by apply Hemp.
Qed.

(** init: an empty tree. *)
Lemma avl_tree_init_rep cmp capacity h s :
  0 <= capacity < 2 ^ 32 -> sizeof_node * capacity < 2 ^ 32 ->
  muggle_avl_tree_init cmp capacity h = Done (Some s) -> rep s Leaf /\ calls s = [].
Proof.
  intros Hc Hs. unfold muggle_avl_tree_init. destruct cmp as [cmp|]; [|done].
  destruct (init_pool capacity sizeof_node) as [[p|]| |] eqn:E; [|done..]. intros [= <-].
  split; [|done]. split; [|done|constructor]. split; simpl; try done.
  - apply base.NoDup_nil_2.
  - by apply not_elem_of_nil.
  - intros p'. rewrite dom_empty. set_solver.
  - exists ∅. split; [apply (init_pool_owns capacity sizeof_node); done || lia|]. intros p'. set_solver.
Qed.

(** C11: remove takes exactly the entry of the named node out of the sorted
    sequence and frees its key and value; the tree stays an AVL tree with its
    keys in order.  It ends, for every tree and node. *)
Theorem avl_tree_remove_spec s t p k v E1 E2 (key_free value_free : bool) :
  CmpOrder (cmp (fld s)) -> rep s t -> ents t = E1 ++ (p, (k, v)) :: E2 ->
  exists s' t', muggle_avl_tree_remove p key_free value_free s = Done (tt, s') /\
    rep s' t' /\ kvs t' = E1.*2 ++ E2.*2 /\ cmp (fld s') = cmp (fld s) /\
    calls s' = calls s ++ free_entry key_free value_free k v.
Proof.
  intros Hcm R He.
  pose proof (avl_remove_wp s t p k v E1 E2 key_free value_free Hcm R He) as ([] & s' & E & t' & ?)%wpm_Done.
  by exists s', t'.
Qed.

(** Clear gives every node back and frees every key and value once, a
    node's after those below it. *)
Theorem avl_tree_clear_spec s t (key_free value_free : bool) :
  shape s t ->
  exists s', muggle_avl_tree_clear key_free value_free s = Done (tt, s') /\
    mem s' = ∅ /\ calls s' = calls s ++ free_tree key_free value_free t.
Proof.
  intros Hs. pose proof (avl_clear_wp s t key_free value_free Hs) as ([] & s' & E & ? & _ & ?)%wpm_Done.
  by exists s'.
Qed.
End ops.

Lemma avl_tree_remove_spec_witness :
  exists s' t', @muggle_avl_tree_remove _ heap3 (LHeap 1) true true sample = Done (tt, s') /\
    @rep _ heap3 s' t' /\ kvs t' = [(30, 80)] /\ cmp (fld s') = cmp_addr /\
    calls s' = [FreeKey 20; FreeValue 70].
Proof.
  apply (@avl_tree_remove_spec _ heap3 sample sample_tree (LHeap 1) 20 70 [] [(LHeap 2, (30, 80))] true true);
    [apply cmp_addr_order|apply avl_sample_rep|done].
Defined.

Lemma avl_tree_clear_spec_witness :
  exists s', @muggle_avl_tree_clear _ heap3 true true sample = Done (tt, s') /\
    mem s' = ∅ /\ calls s' = [FreeKey 30; FreeValue 80; FreeKey 20; FreeValue 70].
Proof. apply (@avl_tree_clear_spec _ heap3 sample sample_tree true true), avl_sample_shape. Defined.

(** The tree is not usable after clear: the root still points to a freed node. *)
Example avl_tree_find_after_clear :
  (@muggle_avl_tree_clear _ heap3 true true sample ≫= fun r => muggle_avl_tree_find 30 r.2) = Undef.
Proof. vm_compute. reflexivity. Qed.
End AvlTreeRemove.
