(* ===== verification/Threads.v ===== *)
(** What the step relations of the concurrent structures share: the states of
    the threads are a list, a step changes one of them, and an invariant holds
    in every reachable configuration. *)

From stdpp Require Import base list numbers relations.
From Stdlib Require Import Lia.

(** Number of threads in some state. *)
Definition count {T} (f : T -> bool) (ts : list T) : nat := length (filter (fun t => f t = true) ts).

Lemma count_cons {T} (f : T -> bool) t ts : count f (t :: ts) = (Nat.b2n (f t) + count f ts)%nat.
Proof. unfold count. rewrite filter_cons. case_decide as E; [by rewrite E|by destruct (f t)]. Qed.

Lemma count_update {T} (f : T -> bool) ts i a b :
  ts !! i = Some a -> (count f (<[i := b]> ts) + Nat.b2n (f a) = count f ts + Nat.b2n (f b))%nat.
Proof.
  revert i. induction ts as [|t ts IH]; intros [|i] Hi; simplify_eq/=; rewrite !count_cons; [lia|].
  specialize (IH i Hi). lia.
Qed.

Lemma count_pos {T} (f : T -> bool) ts : (0 < count f ts)%nat <-> exists i t, ts !! i = Some t /\ f t = true.
Proof.
  induction ts as [|t ts IH]; [split; [unfold count; simpl; lia|intros (i & t & ? & _); by destruct i]|].
  rewrite count_cons. split.
  - destruct (f t) eqn:E; [by exists 0%nat, t|]. simpl. rewrite IH. intros (i & t' & ? & ?). by exists (S i), t'.
  - intros ([|i] & t' & Hi & Hf); simplify_eq/=; [rewrite Hf; simpl; lia|].
    assert (0 < count f ts)%nat by (rewrite IH; eauto). lia.
Qed.

Lemma count_zero {T} (f : T -> bool) ts :
  (forall i t, ts !! i = Some t -> f t = false) -> count f ts = 0%nat.
Proof.
  intros Hf. destruct (count f ts) as [|n] eqn:E; [done|].
  destruct (proj1 (count_pos f ts)) as (i & t & Hi & Ht); [lia|]. by rewrite (Hf _ _ Hi) in Ht.
Qed.

(** The state of a thread after one thread was changed. *)
Lemma lookup_update {T} (ts : list T) i j t t0 t' :
  ts !! i = Some t0 -> <[i := t]> ts !! j = Some t' ->
  (j = i /\ t' = t) \/ (j <> i /\ ts !! j = Some t').
Proof.
  intros Hi. destruct (decide (j = i)) as [->|Hne].
  - rewrite list_lookup_insert_eq by (by eapply lookup_lt_Some). intros [= ->]. by left.
  - rewrite list_lookup_insert_ne by done. by right.
Qed.

(** Induction on how a configuration was reached. *)
Lemma rtc_invariant {C} (step : C -> C -> Prop) (I : C -> Prop) c0 :
  I c0 -> (forall c c', rtc step c0 c -> I c -> step c c' -> I c') ->
  forall c, rtc step c0 c -> I c.
Proof.
  intros H0 Hs. apply (rtc_ind_r _ c0); [done|]. intros c c' Hc Hcc' IH. by eapply Hs.
Qed.

(** At most one thread in a state: two of them are the same. *)
Lemma count_unique {T} (f : T -> bool) ts i j t u :
  (count f ts <= 1)%nat -> ts !! i = Some t -> ts !! j = Some u -> f t = true -> f u = true -> i = j.
Proof.
  revert i j. induction ts as [|x ts IH]; intros [|i] [|j] Hc Hi Hj Ht Hu; simplify_eq/=; try done;
    rewrite count_cons in Hc.
  - rewrite Ht in Hc. simpl in Hc. assert (0 < count f ts)%nat by (apply count_pos; eauto). lia.
  - rewrite Hu in Hc. simpl in Hc. assert (0 < count f ts)%nat by (apply count_pos; eauto). lia.
  - f_equal. eapply IH; try done. lia.
Qed.

Lemma count_update2 {T} (f : T -> bool) ts i j a a' b b' :
  ts !! i = Some a -> ts !! j = Some b -> a <> b ->
  (count f (<[j := b']> (<[i := a']> ts)) + Nat.b2n (f a) + Nat.b2n (f b)
   = count f ts + Nat.b2n (f a') + Nat.b2n (f b'))%nat.
Proof.
  intros Hi Hj Hab. assert (i <> j) by congruence.
  pose proof (count_update f ts i a a' Hi).
  assert (<[i := a']> ts !! j = Some b) as Hj' by (by rewrite list_lookup_insert_ne).
  pose proof (count_update f _ j b b' Hj'). lia.
Qed.

Lemma count_le {T} (f g : T -> bool) ts :
  (forall t, f t = true -> g t = true) -> (count f ts <= count g ts)%nat.
Proof.
  intros Hfg. induction ts as [|t ts IH]; [done|]. rewrite !count_cons.
  specialize (Hfg t). destruct (f t), (g t); simpl; lia || by discriminate Hfg.
Qed.
