(* ===== verification/Ring.v ===== *)
(** A queue in a ring of cells: the elements sit at consecutive positions,
    counted from the beginning of time and taken modulo the capacity.  Shared
    by the concurrent queues and pools. *)

From stdpp Require Import base list numbers.
From Stdlib Require Import ZArith Lia.
From S2P Require Import Prelude BaseUtils.

Open Scope Z_scope.

Section ring.
Context {A : Type}.
Implicit Types (cells l : list A) (cap start : Z).

(** The elements [l] are stored from position [start] on. *)
Definition ring_at cells cap start l : Prop :=
  forall j, 0 <= j < zlen l -> cells @@ ((start + j) mod cap) = l @@ j.

Lemma ring_at_nil cells cap start : ring_at cells cap start [].
Proof. intros j Hj. unfold zlen in Hj. simpl in Hj. lia. Qed.

Lemma zlen_snoc l (x : A) : zlen (l ++ [x]) = zlen l + 1.
Proof. by rewrite zlen_app. Qed.

Lemma mod_ne cap a b : 0 < cap -> a < b < a + cap -> a mod cap <> b mod cap.
Proof.
  intros Hc Hab E. assert ((b - a) mod cap = 0) as Hz.
  { rewrite Zminus_mod, E, Z.sub_diag, Z.mod_0_l by lia. done. }
  rewrite Z.mod_small in Hz by lia. lia.
Qed.

(** A write at the end, in a free cell. *)
Lemma ring_at_snoc cells cap start l x :
  0 < cap -> zlen cells = cap -> zlen l < cap -> ring_at cells cap start l ->
  ring_at (zinsert ((start + zlen l) mod cap) x cells) cap start (l ++ [x]).
Proof.
  intros Hc Hcells Hlen Hr j Hj. rewrite zlen_snoc in Hj.
  pose proof (Z.mod_pos_bound (start + zlen l) cap Hc). pose proof (zlen_nonneg l).
  destruct (decide (j = zlen l)) as [->|Hne].
  - rewrite zlookup_zinsert_eq, zlookup_app_r, Z.sub_diag by lia. done.
  - rewrite zlookup_zinsert_ne; [|lia|intros E; apply (mod_ne cap (start + j) (start + zlen l)); lia || congruence].
    rewrite zlookup_app_l by lia. apply Hr. lia.
Qed.

(** A write to a cell outside the elements. *)
Lemma ring_at_other cells cap start l x i :
  0 < cap -> zlen cells = cap -> start + zlen l <= i < start + cap -> ring_at cells cap start l ->
  ring_at (zinsert (i mod cap) x cells) cap start l.
Proof.
  intros Hc Hcells Hi Hr j Hj. pose proof (Z.mod_pos_bound i cap Hc).
  rewrite zlookup_zinsert_ne; [by apply Hr|lia|].
  intros E. apply (mod_ne cap (start + j) i); lia || congruence.
Qed.

(** The first element. *)
Lemma ring_at_cons cells cap start x l :
  0 < cap -> ring_at cells cap start (x :: l) ->
  cells @@ (start mod cap) = Some x /\ ring_at cells cap (start + 1) l.
Proof.
  intros Hc Hr. split.
  - pose proof (zlen_nonneg l). specialize (Hr 0). rewrite zlen_cons, Z.add_0_r in Hr. apply Hr. lia.
  - intros j Hj. replace (start + 1 + j) with (start + (1 + j)) by lia. rewrite Hr by (rewrite zlen_cons; lia).
    rewrite zlookup_cons by lia. case_decide; [lia|]. f_equal. lia.
Qed.
End ring.

Lemma ring_at_extend {A} (cells : list A) cap start l x :
  cells @@ ((start + zlen l) mod cap) = Some x -> ring_at cells cap start l ->
  ring_at cells cap start (l ++ [x]).
Proof.
  intros Hx Hr j Hj. rewrite zlen_snoc in Hj. pose proof (zlen_nonneg l). destruct (decide (j = zlen l)) as [->|Hne].
  - by rewrite zlookup_app_r, Z.sub_diag by lia.
  - rewrite zlookup_app_l by lia. apply Hr. lia.
Qed.

(** ** Cursors

    The cursors of the concurrent structures are 32-bit counters that wrap; the
    model keeps the number of operations since the start, and the cursor is its
    value at 32 bits. *)

Lemma swrap_mod w x : 0 < w -> swrap w x mod 2 ^ w = x mod 2 ^ w.
Proof.
  intros Hw. pose proof (Z.pow_pos_nonneg 2 w ltac:(lia) ltac:(lia)). unfold swrap.
  destruct (_ <? _); [by rewrite Z.mod_mod by lia|].
  replace (x mod 2 ^ w - 2 ^ w) with (x mod 2 ^ w + (-1) * 2 ^ w) by lia.
  by rewrite Z.mod_add, Z.mod_mod by lia.
Qed.

Lemma swrap_eq w x y : 0 < w -> x mod 2 ^ w = y mod 2 ^ w -> swrap w x = swrap w y.
Proof. intros Hw E. unfold swrap. by rewrite E. Qed.

Lemma i32_add x y : i32 (i32 x + y) = i32 (x + y).
Proof.
  apply swrap_eq; [lia|]. rewrite Zplus_mod, swrap_mod by lia. by rewrite <- Zplus_mod.
Qed.

(** Two cursors less than 2^32 apart are equal exactly when the counts are. *)
Lemma i32_inj x y : - 2 ^ 32 < x - y < 2 ^ 32 -> i32 x = i32 y -> x = y.
Proof.
  intros Hxy E. apply (f_equal (fun v => v mod 2 ^ 32)) in E. rewrite !swrap_mod in E by lia.
  assert ((x - y) mod 2 ^ 32 = 0) as Hz.
  { rewrite Zminus_mod, E, Z.sub_diag, Z.mod_0_l by lia. done. }
  apply Z.mod_divide in Hz as [q Hq]; [|lia]. nia.
Qed.

Lemma i32_mod k x : 0 <= k <= 32 -> i32 x mod 2 ^ k = x mod 2 ^ k.
Proof.
  intros Hk. assert (exists q, 2 ^ 32 = q * 2 ^ k) as [q Hq].
  { exists (2 ^ (32 - k)). rewrite <- Z.pow_add_r by lia. f_equal. lia. }
  pose proof (Z.pow_pos_nonneg 2 k ltac:(lia) ltac:(lia)).
  assert (forall v, (v mod 2 ^ 32) mod 2 ^ k = v mod 2 ^ k) as Hm.
  { intros v. rewrite (Z.mod_eq v (2 ^ 32)) by lia. rewrite Hq.
    replace (v - q * 2 ^ k * (v / (q * 2 ^ k))) with (v + (- (q * (v / (q * 2 ^ k)))) * 2 ^ k) by ring.
    by rewrite Z.mod_add by lia. }
  rewrite <- (Hm (i32 x)), swrap_mod by lia. apply Hm.
Qed.

(** The position of a cursor in the ring. *)
Lemma ring_index_i32 k x : 0 <= k <= 32 -> IDX_IN_POW_OF_2_RING (i32 x) (2 ^ k) = x mod 2 ^ k.
Proof. intros Hk. by rewrite ring_index_mod, i32_mod by lia. Qed.

Lemma mod_eq_close cap a b : 0 < cap -> - cap < a - b < cap -> a mod cap = b mod cap -> a = b.
Proof.
  intros Hc Hab E. assert ((a - b) mod cap = 0) as Hz.
  { rewrite Zminus_mod, E, Z.sub_diag, Z.mod_0_l by lia. done. }
  apply Z.mod_divide in Hz as [q Hq]; [|lia]. assert (q = 0) as -> by nia. lia.
Qed.
