(* ===== verification/Monitor.v ===== *)
(** Threads that call operations of the form
    [lock; while (blocked) cv_wait; act; notify_one; unlock], as those of
    array_blocking_queue.c and double_buffer.c, as a step relation: any number
    of threads, a mutex, condition variables with spurious wakeups, and every
    interleaving.  The mutex and the condition variables are those of pthread,
    whose documented behaviour the rules state.  For operations that satisfy
    the laws of [MonitorLaws] the file shows mutual exclusion, that the calls
    take effect one after the other, and that no wakeup is lost. *)

From stdpp Require Import base list numbers relations.
From Stdlib Require Import ZArith Lia.
From S2P Require Import Prelude Threads.

Module Monitor.

(** The two condition variables of a structure. *)
Inductive cv : Type := cv_not_empty | cv_not_full.
#[export] Instance cv_eq_dec : EqDecision cv.
Proof. solve_decision. Defined.

(** The parts of the operations [O] on data [D], with results [R]. *)
Class MonitorOps (D O R : Type) := {
  blocked : O -> D -> bool;            (** the condition of the [while] *)
  refuse : O -> D -> option R;         (** an early return inside the loop *)
  act : O -> D -> outcome (D * R);     (** the work after the loop *)
  waits : O -> cv;                     (** the variable it waits on *)
  notifies : O -> cv;                  (** the variable it notifies *)
  finish : O -> D -> R -> R;           (** the result, read after the unlock *)
  lock_err : O -> R                    (** the result when the lock fails *)
}.

(** Where a thread is in its call. *)
Inductive tstate (O R : Type) : Type :=
| Idle
| Ready (o : O)               (* about to lock *)
| Check (o : O)               (* holds the mutex, at the loop condition *)
| Sleep (o : O)               (* in the wait of the condition variable *)
| Woken (o : O)               (* woken, has to lock again *)
| Notify (o : O) (r : R)      (* has acted, about to notify *)
| Unlock (o : O) (r : R)      (* about to unlock *)
| Leave (o : O) (r : R)       (* has unlocked *)
| Return (o : O) (r : R).
#[global] Arguments Idle {O R}.
#[global] Arguments Ready {O R}.
#[global] Arguments Check {O R}.
#[global] Arguments Sleep {O R}.
#[global] Arguments Woken {O R}.
#[global] Arguments Notify {O R}.
#[global] Arguments Unlock {O R}.
#[global] Arguments Leave {O R}.
#[global] Arguments Return {O R}.

Section steps.
Context {D O R : Type} `{!MonitorOps D O R}.
(** Which operations the clients call from which thread. *)
Context (may : nat -> O -> Prop).
Notation tstate := (tstate O R).

Record conf := mkc {
  data : D;
  owner : option nat;          (* of the mutex *)
  threads : list tstate;
  log : list (O * R)           (* the work done so far, in order *)
}.

Definition goto (c : conf) (i : nat) (t : tstate) : conf :=
  mkc (data c) (owner c) (<[i := t]> (threads c)) (log c).
Definition own (w : option nat) (c : conf) : conf := mkc (data c) w (threads c) (log c).

Definition sleeps (k : cv) (t : tstate) : bool :=
  match t with Sleep o => bool_decide (waits o = k) | _ => false end.
Definition holds (t : tstate) : bool :=
  match t with Check _ | Notify _ _ | Unlock _ _ => true | _ => false end.

(** What a thread does by itself. *)
Inductive run_step : conf -> conf -> Prop :=
| s_lock c i o :
    threads c !! i = Some (Ready o) -> owner c = None ->
    run_step c (own (Some i) (goto c i (Check o)))
| s_wait c i o :
    threads c !! i = Some (Check o) -> blocked o (data c) = true -> refuse o (data c) = None ->
    run_step c (own None (goto c i (Sleep o)))
| s_refuse c i o r :
    threads c !! i = Some (Check o) -> blocked o (data c) = true -> refuse o (data c) = Some r ->
    run_step c (goto c i (Unlock o r))
| s_act c i o d r :
    threads c !! i = Some (Check o) -> blocked o (data c) = false -> act o (data c) = Done (d, r) ->
    run_step c (mkc d (owner c) (<[i := Notify o r]> (threads c)) (log c ++ [(o, r)]))
| s_notify c i o r j o' :
    threads c !! i = Some (Notify o r) ->
    threads c !! j = Some (Sleep o') -> waits o' = notifies o ->
    run_step c (goto (goto c i (Unlock o r)) j (Woken o'))
| s_notify_none c i o r :
    threads c !! i = Some (Notify o r) -> count (sleeps (notifies o)) (threads c) = 0%nat ->
    run_step c (goto c i (Unlock o r))
| s_relock c i o :
    threads c !! i = Some (Woken o) -> owner c = None ->
    run_step c (own (Some i) (goto c i (Check o)))
| s_unlock c i o r :
    threads c !! i = Some (Unlock o r) ->
    run_step c (own None (goto c i (Leave o r)))
| s_leave c i o r :
    threads c !! i = Some (Leave o r) ->
    run_step c (goto c i (Return o (finish o (data c) r)))
| s_return c i o r :
    threads c !! i = Some (Return o r) -> run_step c (goto c i Idle).

(** Calls of the clients, spurious wakeups and failing locks. *)
Inductive env_step : conf -> conf -> Prop :=
| s_call c i o :
    threads c !! i = Some Idle -> may i o -> env_step c (goto c i (Ready o))
| s_spurious c i o :
    threads c !! i = Some (Sleep o) -> env_step c (goto c i (Woken o))
| s_lock_fails c i o :
    threads c !! i = Some (Ready o) -> env_step c (goto c i (Return o (lock_err o))).

Definition step (c c' : conf) : Prop := run_step c c' \/ env_step c c'.

(** [n] threads, none in a call. *)
Definition start (d : D) (n : nat) : conf := mkc d None (replicate n Idle) [].
Definition reachable (d : D) (n : nat) (c : conf) : Prop := rtc step (start d n) c.

Lemma reachable_ind (I : conf -> Prop) d n :
  I (start d n) -> (forall c c', reachable d n c -> I c -> step c c' -> I c') ->
  forall c, reachable d n c -> I c.
Proof. apply rtc_invariant. Qed.

(** ** Mutual exclusion *)

Record exclusive (c : conf) : Prop := {
  excl_holds : forall i t, threads c !! i = Some t -> holds t = true <-> owner c = Some i;
  excl_owner : forall i, owner c = Some i -> is_Some (threads c !! i)
}.

Lemma lookup_goto (c : conf) i j t t0 t' :
  threads c !! i = Some t0 -> (threads (goto c i t)) !! j = Some t' ->
  (j = i /\ t' = t) \/ (j <> i /\ threads c !! j = Some t').
Proof. apply lookup_update. Qed.

Lemma exclusive_keep c i t0 t d l :
  exclusive c -> threads c !! i = Some t0 -> holds t = holds t0 ->
  exclusive (mkc d (owner c) (<[i := t]> (threads c)) l).
Proof.
  intros [Hh Ho] Hi Ht. split; simpl.
  - intros j t' Hj. destruct (lookup_goto c i j t t0 t' Hi Hj) as [[-> ->]|[_ Hj']]; [|by apply Hh].
    rewrite Ht. by apply Hh.
  - intros j Hj. apply list_lookup_insert_is_Some. naive_solver.
Qed.

Lemma exclusive_lock c i t0 t :
  exclusive c -> threads c !! i = Some t0 -> owner c = None -> holds t = true ->
  exclusive (own (Some i) (goto c i t)).
Proof.
  intros [Hh Ho] Hi Hn Ht. split; simpl.
  - intros j t' Hj. destruct (lookup_goto c i j t t0 t' Hi Hj) as [[-> ->]|[Hne Hj']]; [by rewrite Ht|].
    rewrite (Hh _ _ Hj'), Hn. naive_solver.
  - intros j [= <-]. apply list_lookup_insert_is_Some. by eexists.
Qed.

Lemma exclusive_unlock c i t0 t :
  exclusive c -> threads c !! i = Some t0 -> holds t0 = true -> holds t = false ->
  exclusive (own None (goto c i t)).
Proof.
  intros [Hh Ho] Hi H0 Ht. split; simpl; [|done].
  intros j t' Hj. destruct (lookup_goto c i j t t0 t' Hi Hj) as [[-> ->]|[Hne Hj']]; [by rewrite Ht|].
  rewrite (Hh _ _ Hj'). rewrite (Hh _ _ Hi) in H0. naive_solver.
Qed.

(** At most the owner of the mutex is between lock and unlock. *)
Lemma reachable_exclusive d n c : reachable d n c -> exclusive c.
Proof.
  apply reachable_ind.
  - split; simpl; [|done]. intros i t Hi. apply lookup_replicate in Hi as [-> _]. done.
  - clear c. intros c c' _ Hc [Hs|Hs]; destruct Hs;
      try (by eapply exclusive_keep); try (by eapply exclusive_lock); try (by eapply exclusive_unlock).
    destruct (decide (i = j)) as [->|Hne]; [congruence|].
    eapply (exclusive_keep (goto c i (Unlock o r)) j (Sleep o')); [by eapply exclusive_keep| |done].
    simpl. by rewrite list_lookup_insert_ne.
Qed.

(** ** Wakeups *)

(** [avail k d]: how many of the threads that wait on [k] could go on. *)
Class MonitorLaws (wf : D -> Prop) := {
  avail : cv -> D -> nat;
  act_safe : forall o d, wf d -> blocked o d = false -> exists d' r, act o d = Done (d', r);
  act_wf : forall o d d' r, wf d -> blocked o d = false -> act o d = Done (d', r) -> wf d';
  waits_other : forall o, waits o <> notifies o;
  blocked_none : forall o d, wf d -> blocked o d = true -> avail (waits o) d = 0%nat;
  act_uses : forall o d d' r, wf d -> blocked o d = false -> act o d = Done (d', r) ->
    (avail (waits o) d' <= avail (waits o) d - 1)%nat;
  act_gives : forall o d d' r, wf d -> blocked o d = false -> act o d = Done (d', r) ->
    (avail (notifies o) d' <= avail (notifies o) d + 1)%nat
}.

Context (wf : D -> Prop) `{!MonitorLaws wf}.

(** Threads awake and headed for the condition of [k], and threads that are
    about to notify [k]. *)
Definition active (k : cv) (t : tstate) : bool :=
  match t with Check o | Woken o => bool_decide (waits o = k) | _ => false end.
Definition pending (k : cv) (t : tstate) : bool :=
  match t with Notify o _ => bool_decide (notifies o = k) | _ => false end.

(** While a thread sleeps on [k], every free place has an awake thread or a
    notification on its way. *)
Definition awake (c : conf) : Prop := forall k,
  (0 < count (sleeps k) (threads c))%nat ->
  (avail k (data c) <= count (active k) (threads c) + count (pending k) (threads c))%nat.

Lemma reachable_wf d n c : wf d -> reachable d n c -> wf (data c).
Proof.
  intros Hd. apply (reachable_ind (fun c => wf (data c))); [done|]. clear c.
  intros c c' _ Hc [Hs|Hs]; destruct Hs; try done.
  simpl. by eapply act_wf.
Qed.

(** A step of one thread changes the three counts by what it leaves and enters. *)
Lemma counts_update c i t0 t k :
  threads c !! i = Some t0 ->
  (count (sleeps k) (<[i := t]> (threads c)) + Nat.b2n (sleeps k t0) = count (sleeps k) (threads c) + Nat.b2n (sleeps k t))%nat /\
  (count (active k) (<[i := t]> (threads c)) + Nat.b2n (active k t0) = count (active k) (threads c) + Nat.b2n (active k t))%nat /\
  (count (pending k) (<[i := t]> (threads c)) + Nat.b2n (pending k t0) = count (pending k) (threads c) + Nat.b2n (pending k t))%nat.
Proof. intros Hi. by split_and!; apply count_update. Qed.

Lemma cv_cases (o : O) k : k = waits o \/ k = notifies o.
Proof. pose proof (waits_other o). destruct k, (waits o) eqn:?, (notifies o) eqn:?; auto; congruence. Qed.

Lemma awake_step c c' : wf (data c) -> awake c -> step c c' -> awake c'.
Proof.
  intros Hwf Hc [Hs|Hs] k Hk; specialize (Hc k); [destruct Hs as
    [c i o Hi Ho|c i o Hi Hb Hr|c i o r Hi Hb Hr|c i o d r Hi Hb Ha|c i o r j o' Hi Hj Hw|c i o r Hi Hn
    |c i o Hi Ho|c i o r Hi|c i o r Hi|c i o r Hi]|destruct Hs as [c i o Hi Hm|c i o Hi|c i o Hi]]; simpl in *;
    match goal with
    | Hi : threads _ !! ?i = Some ?t0 |- context [<[?i := ?t]> (threads ?c)] =>
        pose proof (counts_update c i t0 t k Hi) as (? & ? & ?)
    end; simpl in *; try lia.
  - (* wait *) case_bool_decide as E; simpl in *; [|lia]. subst k. rewrite blocked_none by done. lia.
  - (* refuse *) case_bool_decide as E; simpl in *; [|lia]. subst k. rewrite blocked_none by done. lia.
  - (* act *) pose proof (waits_other o). destruct (cv_cases o k) as [-> | ->].
    + pose proof (act_uses _ _ _ _ Hwf Hb Ha). rewrite bool_decide_true in * by done. simpl in *. lia.
    + pose proof (act_gives _ _ _ _ Hwf Hb Ha). rewrite bool_decide_false in * by done.
      rewrite (bool_decide_true (notifies o = notifies o)) in * by done. simpl in *. lia.
  - (* notify *)
    assert (threads (goto c i (Unlock o r)) !! j = Some (Sleep o')) as Hj'.
    { simpl. rewrite list_lookup_insert_ne; [done|]. intros ->. congruence. }
    pose proof (counts_update _ j _ (Woken o') k Hj') as (? & ? & ?). simpl in *.
    rewrite Hw in *. case_bool_decide; simpl in *; lia.
  - (* notify, nobody sleeps *)
    case_bool_decide as E; simpl in *; [subst k; lia|lia].
Qed.

Lemma reachable_awake d n c : wf d -> reachable d n c -> awake c.
Proof.
  intros Hd. apply reachable_ind.
  - intros k Hk. destruct (proj1 (count_pos _ _) Hk) as (i & t & Hi & Ht).
    apply lookup_replicate in Hi as [-> _]. done.
  - clear c. intros c c' Hr Hc Hs. eapply awake_step; [|done|done]. by eapply reachable_wf.
Qed.

(** ** Progress *)

(** When no thread can go on by itself, every thread is outside a call or sleeps
    where it has to. *)
Lemma stuck_quiescent d n c :
  wf d -> reachable d n c -> (forall c', ~ run_step c c') ->
  forall i t, threads c !! i = Some t ->
    t = Idle \/ exists o, t = Sleep o /\ avail (waits o) (data c) = 0%nat.
Proof.
  intros Hd Hr Hstuck. pose proof (reachable_exclusive _ _ _ Hr) as [Hh Ho].
  pose proof (reachable_awake _ _ _ Hd Hr) as Haw. pose proof (reachable_wf _ _ _ Hd Hr) as Hwf.
  assert (forall i t, threads c !! i = Some t -> t = Idle \/ exists o, t = Sleep o) as Hq.
  { assert (forall i t, threads c !! i = Some t -> holds t = true -> False) as Hnh.
    { intros i t Hi Ht. destruct t as [|o|o|o|o|o r|o r|o r|o r]; try done.
      - destruct (blocked o (data c)) eqn:Eb.
        + destruct (refuse o (data c)) as [r|] eqn:Er; eapply Hstuck; [by eapply s_refuse|by eapply s_wait].
        + destruct (act_safe o _ Hwf Eb) as (d' & r & Ea). eapply Hstuck. by eapply s_act.
      - destruct (decide (count (sleeps (notifies o)) (threads c) = 0%nat)) as [E|E].
        { eapply Hstuck. by eapply s_notify_none. }
        destruct (proj1 (count_pos (sleeps (notifies o)) (threads c))) as (j & t' & Hj & Ht'); [lia|].
        destruct t'; try done. apply bool_decide_eq_true in Ht'. eapply Hstuck. by eapply s_notify.
      - eapply Hstuck. by eapply s_unlock. }
    assert (owner c = None) as Hn.
    { destruct (owner c) as [i|] eqn:E; [|done]. destruct (Ho i eq_refl) as [t Hi].
      exfalso. eapply Hnh; [done|]. by apply (Hh i t Hi). }
    intros i t Hi. destruct t as [|o|o|o|o|o r|o r|o r|o r]; [by left| | |by right; eexists| | | | | ];
      exfalso; try (by eapply Hnh); eapply Hstuck;
      [by eapply s_lock|by eapply s_relock|by eapply s_leave|by eapply s_return]. }
  intros i t Hi. destruct (Hq i t Hi) as [->|[o ->]]; [by left|]. right. exists o. split; [done|].
  assert (0 < count (sleeps (waits o)) (threads c))%nat as Hs.
  { apply count_pos. exists i, (Sleep o). split; [done|]. by apply bool_decide_eq_true. }
  specialize (Haw _ Hs). rewrite !count_zero in Haw; [lia|..];
    intros j t Hj; by destruct (Hq j t Hj) as [->|[? ->]].
Qed.

(** ** Linearisation *)

(** A sequence of operations run one after the other. *)
Inductive run : D -> list (O * R) -> D -> Prop :=
| run_nil d : run d [] d
| run_snoc d l d' o r d'' :
    run d l d' -> blocked o d' = false -> act o d' = Done (d'', r) -> run d (l ++ [(o, r)]) d''.

(** The data are those left by the logged operations, run one by one, and every
    result on its way to a caller is logged, refused or that of a failed lock. *)
Lemma reachable_run d n c : reachable d n c -> run d (log c) (data c).
Proof.
  apply (reachable_ind (fun c => run d (log c) (data c))); [constructor|]. clear c.
  intros c c' _ Hc [Hs|Hs]; destruct Hs; try done. by econstructor.
Qed.

Definition result_of (t : tstate) : option (O * R) :=
  match t with Notify o r | Unlock o r | Leave o r => Some (o, r) | _ => None end.

(** The change of state of one thread in a step of the system. *)
Inductive moves (i : nat) (c c' : conf) : tstate -> tstate -> Prop :=
| m_call o : may i o -> moves i c c' Idle (Ready o)
| m_lock o : moves i c c' (Ready o) (Check o)
| m_lock_fails o : moves i c c' (Ready o) (Return o (lock_err o))
| m_wait o : moves i c c' (Check o) (Sleep o)
| m_refuse o r : refuse o (data c) = Some r -> moves i c c' (Check o) (Unlock o r)
| m_act o r : act o (data c) = Done (data c', r) -> log c' = log c ++ [(o, r)] ->
    moves i c c' (Check o) (Notify o r)
| m_woken o : moves i c c' (Sleep o) (Woken o)
| m_relock o : moves i c c' (Woken o) (Check o)
| m_notify o r : moves i c c' (Notify o r) (Unlock o r)
| m_unlock o r : moves i c c' (Unlock o r) (Leave o r)
| m_leave o r : moves i c c' (Leave o r) (Return o (finish o (data c) r))
| m_return o r : moves i c c' (Return o r) Idle.

Lemma step_moves c c' i t' :
  step c c' -> threads c' !! i = Some t' ->
  threads c !! i = Some t' \/ exists t, threads c !! i = Some t /\ moves i c c' t t'.
Proof.
  intros Hs Hi.
  assert (forall k t0 t1, threads c !! k = Some t0 -> <[k := t1]> (threads c) !! i = Some t' ->
    (k = i -> moves i c c' t0 t1) ->
    threads c !! i = Some t' \/ exists t, threads c !! i = Some t /\ moves i c c' t t') as Hone.
  { intros k t0 t1 Hk Hk' Hm. destruct (lookup_goto c k i t1 t0 t' Hk Hk') as [[-> ->]|[_ ?]]; [|by left].
    right. exists t0. split; [done|by apply Hm]. }
  destruct Hs as [Hs|Hs]; [destruct Hs as
    [c k o Hk Ho|c k o Hk Hb Hr|c k o r Hk Hb Hr|c k o d' r Hk Hb Ha|c k o r j o' Hk Hj Hw|c k o r Hk Hn
    |c k o Hk Ho|c k o r Hk|c k o r Hk|c k o r Hk]|destruct Hs as [c k o Hk Hm|c k o Hk|c k o Hk]];
    simpl in Hi; try (eapply Hone; [done|done|]; intros ->; by constructor).
  destruct (decide (i = j)) as [->|Hne].
  - rewrite list_lookup_insert_eq in Hi by (rewrite length_insert; by eapply lookup_lt_Some). simplify_eq.
    right. exists (Sleep o'). split; [done|constructor].
  - rewrite list_lookup_insert_ne in Hi by done. apply (Hone k _ _ Hk Hi). intros ->. constructor.
Qed.

Lemma step_log c c' : step c c' -> exists l, log c' = log c ++ l.
Proof. intros [Hs|Hs]; destruct Hs; simpl; try (exists []; by rewrite app_nil_r); by eexists. Qed.

Lemma step_data c c' : step c c' ->
  data c' = data c \/ exists j o r, threads c !! j = Some (Check o) /\
    blocked o (data c) = false /\ act o (data c) = Done (data c', r).
Proof. intros [Hs|Hs]; destruct Hs; simpl; try (by left). right. by exists i, o, r. Qed.

Lemma reachable_results d n c i t e :
  reachable d n c -> threads c !! i = Some t -> result_of t = Some e ->
  e ∈ log c \/ exists d', refuse e.1 d' = Some e.2.
Proof.
  intros Hr. revert i t e. revert c Hr. apply (reachable_ind (fun c => forall i t e,
    threads c !! i = Some t -> result_of t = Some e -> e ∈ log c \/ exists d', refuse e.1 d' = Some e.2)).
  - intros i t e Hi. by apply lookup_replicate in Hi as [-> _].
  - intros c c' _ IH Hs i t e Hi Ht. destruct (step_log _ _ Hs) as [l Hl]. rewrite Hl.
    assert (forall i t e, threads c !! i = Some t -> result_of t = Some e ->
      e ∈ log c ++ l \/ exists d', refuse e.1 d' = Some e.2) as IH'.
    { intros i' t' e' Hi' Ht'. destruct (IH _ _ _ Hi' Ht'); [left; apply elem_of_app|]; auto. }
    destruct (step_moves _ _ _ _ Hs Hi) as [Hi'|(t0 & Hi' & Hm)]; [by eapply IH'|].
    destruct Hm; simplify_eq/=; try (by eapply (IH' i)); eauto.
    left. rewrite <- Hl. match goal with E : log c' = _ |- _ => rewrite E end.
    apply elem_of_app. right. by apply list_elem_of_singleton.
Qed.

(** ** A scheduler, to run concrete interleavings *)

(** Index of the first thread that sleeps on [k]. *)
Definition first_sleeper (k : cv) (ts : list tstate) : option (nat * O) :=
  match list_find (fun t => sleeps k t = true) ts with
  | Some (j, Sleep o) => Some (j, o)
  | _ => None
  end.

(** The next step of thread [i]; it notifies the first sleeper. *)
Definition thread_step (i : nat) (c : conf) : option conf :=
  match threads c !! i with
  | Some (Ready o) | Some (Woken o) =>
      match owner c with None => Some (own (Some i) (goto c i (Check o))) | Some _ => None end
  | Some (Check o) =>
      if blocked o (data c) then
        match refuse o (data c) with
        | None => Some (own None (goto c i (Sleep o)))
        | Some r => Some (goto c i (Unlock o r))
        end
      else match act o (data c) with
           | Done (d, r) => Some (mkc d (owner c) (<[i := Notify o r]> (threads c)) (log c ++ [(o, r)]))
           | _ => None
           end
  | Some (Notify o r) =>
      match first_sleeper (notifies o) (threads c) with
      | Some (j, o') => Some (goto (goto c i (Unlock o r)) j (Woken o'))
      | None => Some (goto c i (Unlock o r))
      end
  | Some (Unlock o r) => Some (own None (goto c i (Leave o r)))
  | Some (Leave o r) => Some (goto c i (Return o (finish o (data c) r)))
  | Some (Return o r) => Some (goto c i Idle)
  | _ => None
  end.

(** A schedule: calls and steps of threads. *)
Fixpoint exec (l : list (nat * option O)) (c : conf) : option conf :=
  match l with
  | [] => Some c
  | (i, Some o) :: l' =>
      match threads c !! i with Some Idle => exec l' (goto c i (Ready o)) | _ => None end
  | (i, None) :: l' => match thread_step i c with Some c' => exec l' c' | None => None end
  end.

Lemma thread_step_sound i c c' : thread_step i c = Some c' -> run_step c c'.
Proof.
  unfold thread_step. destruct (threads c !! i) as [t|] eqn:Hi; [|done].
  destruct t as [|o|o|o|o|o r|o r|o r|o r]; try done.
  - destruct (owner c) eqn:Ho; [done|]. intros [= <-]. by apply s_lock.
  - destruct (blocked o (data c)) eqn:Hb.
    + destruct (refuse o (data c)) eqn:Hr; intros [= <-]; [by apply s_refuse|by apply s_wait].
    + destruct (act o (data c)) as [[d r]| |] eqn:Ha; [|done..]. intros [= <-]. by apply s_act.
  - destruct (owner c) eqn:Ho; [done|]. intros [= <-]. by apply s_relock.
  - unfold first_sleeper. destruct (list_find _ (threads c)) as [[j t]|] eqn:E.
    + apply list_find_Some in E as (Hj & Ht & _). destruct t; try done. intros [= <-].
      apply bool_decide_eq_true in Ht. by apply s_notify.
    + intros [= <-]. apply s_notify_none; [done|]. apply count_zero. intros j t Hj.
      apply list_find_None in E. rewrite list.Forall_forall in E.
      apply not_true_is_false, E, list_elem_of_lookup. by exists j.
  - intros [= <-]. by apply s_unlock.
  - intros [= <-]. by apply s_leave.
  - intros [= <-]. by eapply s_return.
Qed.

Lemma exec_sound l : forall c c',
  (forall i o, (i, Some o) ∈ l -> may i o) -> exec l c = Some c' -> rtc step c c'.
Proof.
  induction l as [|[i [o|]] l IH]; intros c c' Hm; simpl; [by intros [= ->]|..].
  - destruct (threads c !! i) as [[]|] eqn:Hi; try done. intros Hl.
    eapply rtc_l; [right; apply s_call; [done|apply Hm; left]|]. apply IH; [|done].
    intros j o' Hj. apply Hm. by right.
  - destruct (thread_step i c) as [c1|] eqn:E; [|done]. intros Hl.
    eapply rtc_l; [left; by eapply thread_step_sound|]. apply IH; [|done].
    intros j o' Hj. apply Hm. by right.
Qed.
End steps.
#[global] Arguments conf : clear implicits.
End Monitor.
