(* ===== verification/ArrayBlockingQueue.v ===== *)
(** muggle/c/sync/array_blocking_queue.{h,c}: a bounded queue that blocks its
    callers while it is full or empty. *)

From stdpp Require Import base list numbers relations.
From Stdlib Require Import ZArith Lia.
From S2P Require Import Prelude BaseUtils Dsaa Ring Monitor.
Import Monitor.

Open Scope Z_scope.

Module ArrayBlockingQueue.

(** The fields the mutex protects. *)
Record muggle_array_blocking_queue := mkq {
  datas : list ptr; capacity : Z; take_idx : Z; put_idx : Z; cnt : Z
}.

Definition muggle_array_blocking_queue_enqueue (queue : muggle_array_blocking_queue) (data : ptr)
  : outcome muggle_array_blocking_queue :=
  datas' ← aset (datas queue) (put_idx queue) data;
  let put_idx' := i32 (put_idx queue + 1) in
  let put_idx' := if put_idx' =? capacity queue then 0 else put_idx' in
  mret (mkq datas' (capacity queue) (take_idx queue) put_idx' (i32 (cnt queue + 1))).

Definition muggle_array_blocking_queue_dequeue (queue : muggle_array_blocking_queue)
  : outcome (muggle_array_blocking_queue * ptr) :=
  data ← aget (datas queue) (take_idx queue);
  let take_idx' := i32 (take_idx queue + 1) in
  let take_idx' := if take_idx' =? capacity queue then 0 else take_idx' in
  mret (mkq (datas queue) (capacity queue) take_idx' (put_idx queue) (i32 (cnt queue - 1)), data).

(** [mutex_init] and [cv_init] are the results of the calls that set up the
    mutex and the two condition variables. *)
Definition muggle_array_blocking_queue_init `{Malloc ptr} (mutex_init cv_init1 cv_init2 : Z)
    (capacity : Z) : Z + muggle_array_blocking_queue :=
  if capacity <=? 0 then inl MUGGLE_ERR_INVALID_PARAM
  else
    match malloc_array 8 capacity with
    | None => inl MUGGLE_ERR_MEM_ALLOC
    | Some datas =>
        if negb (mutex_init =? MUGGLE_OK) then inl mutex_init
        else if negb (cv_init1 =? MUGGLE_OK) then inl cv_init1
        else if negb (cv_init2 =? MUGGLE_OK) then inl cv_init2
        else inr (mkq datas capacity 0 0 0)
    end.

(** The calls of the threads and their results: [put] returns an error code,
    [take] the data. *)
Inductive call : Type := Put (data : ptr) | Take.
Inductive result : Type := Code (ret : Z) | Data (data : ptr).

(** [put] and [take], in the parts the step relation interleaves. *)
Definition muggle_array_blocking_queue_ops
  : MonitorOps muggle_array_blocking_queue call result := {|
  blocked o q := match o with
    | Put _ => cnt q =? capacity q
    | Take => cnt q =? 0
    end;
  refuse _ _ := None;
  act o q := match o with
    | Put d => q' ← muggle_array_blocking_queue_enqueue q d; mret (q', Code MUGGLE_OK)
    | Take =>
        r ← muggle_array_blocking_queue_dequeue q;
        let '(q', d) := (r : muggle_array_blocking_queue * ptr) in mret (q', Data d)
    end;
  waits o := match o with Put _ => cv_not_full | Take => cv_not_empty end;
  notifies o := match o with Put _ => cv_not_empty | Take => cv_not_full end;
  finish _ _ r := r;
  lock_err o := match o with Put _ => Code MUGGLE_ERR_SYS_CALL | Take => Data NULL end
|}.
#[export] Existing Instance muggle_array_blocking_queue_ops.

(** ** The ring is a queue *)

(** The queue holds [l], oldest first. *)
Definition rep (q : muggle_array_blocking_queue) (l : list ptr) : Prop :=
  zlen (datas q) = capacity q /\ 0 < capacity q < 2 ^ 31 /\ cnt q = zlen l /\ zlen l <= capacity q /\
  exists start, take_idx q = start mod capacity q /\ put_idx q = (start + zlen l) mod capacity q /\
    ring_at (datas q) (capacity q) start l.

Definition wf (q : muggle_array_blocking_queue) : Prop := exists l, rep q l.

(** The index after [start mod cap]. *)
Lemma next_index cap start :
  0 < cap < 2 ^ 31 ->
  (if i32 (start mod cap + 1) =? cap then 0 else i32 (start mod cap + 1)) = (start + 1) mod cap.
Proof.
  intros Hc. pose proof (Z.mod_pos_bound start cap ltac:(lia)).
  rewrite swrap_small by lia. rewrite <- (Z.add_mod_idemp_l start 1 cap) by lia.
  destruct (Z.eqb_spec (start mod cap + 1) cap) as [->|].
  - by rewrite Z.mod_same by lia.
  - rewrite (Z.mod_small (_ + 1)) by lia. done.
Qed.

Lemma enqueue_wp q l d :
  rep q l -> zlen l < capacity q ->
  wp (muggle_array_blocking_queue_enqueue q d) (fun q' => rep q' (l ++ [d]) /\ capacity q' = capacity q).
Proof.
  intros (Hlen & Hcap & Hcnt & Hle & start & Ht & Hp & Hr) Hlt. pose proof (zlen_nonneg l).
  pose proof (Z.mod_pos_bound (start + zlen l) (capacity q) ltac:(lia)).
  unfold muggle_array_blocking_queue_enqueue. rewrite Hp. apply wp_bind, wp_aset; [lia|]. apply wp_ret.
  split; [|done]. unfold rep. simpl. rewrite zlen_zinsert, zlen_snoc, Hcnt, next_index, swrap_small by lia.
  split; [done|]. split; [done|]. split; [done|]. split; [lia|].
  exists start. split; [done|]. split; [f_equal; lia|]. apply ring_at_snoc; done || lia.
Qed.

Lemma dequeue_wp q d l :
  rep q (d :: l) ->
  wp (muggle_array_blocking_queue_dequeue q) (fun '(q', d') => d' = d /\ rep q' l /\ capacity q' = capacity q).
Proof.
  intros (Hlen & Hcap & Hcnt & Hle & start & Ht & Hp & Hr). rewrite zlen_cons in *. pose proof (zlen_nonneg l).
  apply ring_at_cons in Hr as [Hd Hr]; [|lia]. unfold muggle_array_blocking_queue_dequeue.
  rewrite Ht, (aget_Some _ _ _ Hd). apply wp_bind, wp_ret, wp_ret. split; [done|]. split; [|done].
  unfold rep. simpl. rewrite Hcnt, next_index, swrap_small by lia. split; [done|]. split; [done|]. split; [lia|]. split; [lia|].
  exists (start + 1). split; [done|]. split; [rewrite Hp; f_equal; lia|done].
Qed.

(** A call that is not blocked works, and moves one element. *)
Lemma abq_act o q l :
  rep q l -> blocked o q = false ->
  wp (act o q) (fun '(q', r) => capacity q' = capacity q /\ match o with
    | Put d => rep q' (l ++ [d]) /\ zlen l < capacity q /\ r = Code MUGGLE_OK
    | Take => exists d l', l = d :: l' /\ rep q' l' /\ r = Data d
    end).
Proof.
  intros R. pose proof R as (_ & _ & Hcnt & Hle & _). destruct o as [d|]; simpl.
  - intros Hb%Z.eqb_neq. apply wp_bind. eapply wp_mono; [apply (enqueue_wp q l d R); lia|].
    intros q' [HR Hc]. apply wp_ret. split_and!; try done. lia.
  - intros Hb%Z.eqb_neq. destruct l as [|d l]; [done|]. apply wp_bind.
    eapply wp_mono; [apply (dequeue_wp q d l R)|]. intros [q' d'] (-> & HR & Hc). apply wp_ret.
    split; [done|]. by exists d, l.
Qed.

(** The number of callers that could go on: the elements and the free places. *)
#[export] Instance abq_laws : MonitorLaws wf.
Proof.
  refine {| avail k q := match k with
    | cv_not_empty => Z.to_nat (cnt q)
    | cv_not_full => Z.to_nat (capacity q - cnt q)
    end |}.
  - intros o q [l R] Hb. pose proof (abq_act o q l R Hb) as ([q' r] & E & _)%wp_Done. by exists q', r.
  - intros o q q' r [l R] Hb Ha. pose proof (abq_act o q l R Hb) as Hw. rewrite Ha in Hw.
    destruct Hw as [_ Hw]. destruct o as [d|]; [exists (l ++ [d]); tauto|]. destruct Hw as (d & l' & _ & HR & _). by exists l'.
  - by intros [].
  - intros [d|] q (l & R) Hb%Z.eqb_eq; simpl; lia.
  - intros o q q' r [l R] Hb Ha. pose proof (abq_act o q l R Hb) as Hw. rewrite Ha in Hw.
    destruct R as (_ & _ & Hcnt & _). destruct Hw as [Hc Hw]. destruct o; simpl.
    + destruct Hw as ((_ & _ & Hcnt' & _) & Hlt & _). rewrite zlen_snoc in Hcnt'. lia.
    + destruct Hw as (d & l' & -> & (_ & _ & Hcnt' & _) & _). rewrite zlen_cons in Hcnt.
      pose proof (zlen_nonneg l'). lia.
  - intros o q q' r [l R] Hb Ha. pose proof (abq_act o q l R Hb) as Hw. rewrite Ha in Hw.
    destruct R as (_ & _ & Hcnt & _). destruct Hw as [Hc Hw]. destruct o; simpl.
    + destruct Hw as ((_ & _ & Hcnt' & _) & Hlt & _). rewrite zlen_snoc in Hcnt'. pose proof (zlen_nonneg l). lia.
    + destruct Hw as (d & l' & -> & (_ & _ & Hcnt' & Hle & _) & _). rewrite zlen_cons in Hcnt. lia.
Defined.

(** What the operations of a log put in and took out, in order. *)
Definition puts (l : list (call * result)) : list ptr :=
  omap (fun e => match e with (Put d, _) => Some d | _ => None end) l.
Definition takes (l : list (call * result)) : list ptr :=
  omap (fun e => match e with (Take, Data d) => Some d | _ => None end) l.

Lemma run_fifo q0 lg q : rep q0 [] -> run q0 lg q ->
  exists l, rep q l /\ puts lg = takes lg ++ l /\ capacity q = capacity q0.
Proof.
  intros R0 Hrun. induction Hrun as [|q0 lg q o r q' Hrun IH Hb Ha]; [by exists []|].
  destruct (IH R0) as (l & R & E & Hc). pose proof (abq_act o q l R Hb) as Hw. rewrite Ha in Hw.
  unfold puts, takes in *. rewrite !omap_app, E. destruct Hw as [Hc' Hw].
  destruct o as [d|]; simpl.
  - destruct Hw as (R' & _ & ->). exists (l ++ [d]). split; [done|]. split; [|congruence].
    by rewrite app_nil_r, (assoc_L (++)).
  - destruct Hw as (d & l' & -> & R' & ->). exists l'. split; [done|]. split; [|congruence].
    by rewrite app_nil_r, <- (assoc_L (++)).
Qed.

(** C9: in every state any number of threads can reach by calling put and take,
    in every interleaving: at most one thread is inside the lock, the queue
    holds at most [capacity] elements, and the elements taken so far followed by
    those in the queue are the elements put so far, in order (none lost, none
    taken twice); each result on its way to a caller is that of a logged
    operation. *)
Theorem array_blocking_queue_fifo may q0 n c :
  rep q0 [] -> reachable may q0 n c ->
  exclusive c /\
  (exists l, rep (data c) l /\ puts (log c) = takes (log c) ++ l /\ zlen l <= capacity q0) /\
  forall i t e, threads c !! i = Some t -> result_of t = Some e -> e ∈ log c.
Proof.
  intros R0 Hr. split; [by eapply reachable_exclusive|]. split.
  - destruct (run_fifo q0 _ _ R0 (reachable_run _ _ _ _ Hr)) as (l & R & E & Hc). exists l.
    split; [done|]. split; [done|]. destruct R as (_ & _ & _ & ? & _). lia.
  - intros i t e Hi Ht. by destruct (reachable_results _ _ _ _ _ _ _ Hr Hi Ht) as [?|[? ?]].
Qed.

(** C17: no call is blocked for ever without reason: when no thread can go on by
    itself, every thread is outside a call, or waits in take and the queue is
    empty, or waits in put and the queue is full.  So no wakeup is lost, no
    thread accesses memory outside the array, and puts and takes never block
    each other. *)
Theorem array_blocking_queue_progress may q0 n c :
  rep q0 [] -> reachable may q0 n c -> (forall c', ~ run_step c c') ->
  exists l, rep (data c) l /\ forall i t, threads c !! i = Some t ->
    t = Idle \/ (t = Sleep Take /\ l = []) \/ (exists d, t = Sleep (Put d) /\ zlen l = capacity q0).
Proof.
  intros R0 Hr Hstuck. assert (wf q0) as Hwf by (by exists []).
  destruct (run_fifo q0 _ _ R0 (reachable_run _ _ _ _ Hr)) as (l & R & _ & Hc). exists l. split; [done|].
  intros i t Hi. pose proof R as (_ & ? & Hcnt & Hle & _). pose proof (zlen_nonneg l).
  destruct (stuck_quiescent may wf q0 n c Hwf Hr Hstuck i t Hi) as [->|([d|] & -> & Hav)]; [by left|..]; simpl in Hav.
  - right. right. exists d. split; [done|]. lia.
  - right. left. split; [done|]. destruct l; [done|]. rewrite zlen_cons in *. pose proof (zlen_nonneg l). lia.
Qed.

Lemma abq_init_rep `{Malloc ptr} r1 r2 r3 cap q :
  cap < 2 ^ 31 -> muggle_array_blocking_queue_init r1 r2 r3 cap = inr q -> rep q [] /\ capacity q = cap.
Proof.
  intros Hc. unfold muggle_array_blocking_queue_init. destruct (Z.leb_spec cap 0); [done|].
  destruct (malloc_array 8 cap) as [l|] eqn:E; [|done]. apply malloc_array_len in E; [|lia..].
  repeat case_match; try done. intros [= <-]. split; [|done].
  unfold rep. simpl. split; [done|]. split; [lia|]. split; [done|]. split; [unfold zlen; simpl; lia|].
  exists 0. rewrite Z.mod_0_l by lia. split; [done|]. split; [done|]. apply ring_at_nil.
Qed.

(** ** Witnesses: a queue of capacity 2, one thread that puts and one that takes. *)
Definition sample_queue : muggle_array_blocking_queue := mkq [NULL; NULL] 2 0 0 0.

Lemma sample_queue_rep : rep sample_queue [].
Proof.
  split; [done|]. split; [done|]. split; [done|]. split; [done|]. exists 0.
  split; [done|]. split; [done|]. apply ring_at_nil.
Qed.

(** A take that waits, a put that wakes it, and another take that waits. *)
Definition sample_schedule : list (nat * option call) :=
  [(1%nat, Some Take); (1%nat, None); (1%nat, None);
   (0%nat, Some (Put 70)); (0%nat, None); (0%nat, None); (0%nat, None); (0%nat, None);
   (1%nat, None); (1%nat, None); (1%nat, None); (1%nat, None); (1%nat, None); (1%nat, None);
   (0%nat, None); (0%nat, None);
   (0%nat, Some Take); (0%nat, None); (0%nat, None)].

Definition sample_conf : conf muggle_array_blocking_queue call result :=
  mkc (mkq [70; NULL] 2 1 1 0) None [Sleep Take; Idle] [(Put 70, Code 0); (Take, Data 70)].

Lemma sample_conf_reachable : reachable (fun _ _ => True) sample_queue 2 sample_conf.
Proof. apply (exec_sound _ sample_schedule); [done|]. vm_compute. reflexivity. Qed.

Lemma array_blocking_queue_fifo_witness :
  exclusive sample_conf /\
  (exists l, rep (data sample_conf) l /\ puts (log sample_conf) = takes (log sample_conf) ++ l /\ zlen l <= 2) /\
  forall i t e, threads sample_conf !! i = Some t -> result_of t = Some e -> e ∈ log sample_conf.
Proof. apply (array_blocking_queue_fifo _ _ _ _ sample_queue_rep sample_conf_reachable). Defined.

Lemma array_blocking_queue_progress_witness :
  exists l, rep (data sample_conf) l /\ forall i t, threads sample_conf !! i = Some t ->
    t = Idle \/ (t = Sleep Take /\ l = []) \/ (exists d, t = Sleep (Put d) /\ zlen l = 2).
Proof.
  apply (array_blocking_queue_progress _ _ _ _ sample_queue_rep sample_conf_reachable).
  intros c' Hs. inversion Hs; subst; simpl in *;
    repeat match goal with Hi : [_; _] !! ?i = Some _ |- _ => destruct i as [|[|?]]; simplify_eq/= end.
Defined.
End ArrayBlockingQueue.
