(* ===== verification/DoubleBuffer.v ===== *)
(** muggle/c/sync/double_buffer.{h,c}: writers fill the back buffer while the
    reader works on the front one; a read swaps them. *)

From stdpp Require Import base list numbers relations.
From Stdlib Require Import ZArith Lia.
From S2P Require Import Prelude BaseUtils Dsaa Threads Monitor.
Import Monitor.

Open Scope Z_scope.

Module DoubleBuffer.

Record muggle_single_buffer := mks { datas : list ptr; cnt : Z }.

(** [front] and [back] are indices into [buf]. *)
Record muggle_double_buffer := mkb {
  buf : list muggle_single_buffer;
  front : Z;
  back : Z;
  capacity : Z;
  non_blocking : bool
}.

(** The two blocks of [init]; on a failure of the second the first is freed. *)
Definition muggle_double_buffer_init `{Malloc ptr} (mutex_init cv_init1 cv_init2 : Z)
    (capacity : Z) (non_blocking : bool) : Z + muggle_double_buffer :=
  if capacity <=? 0 then inl MUGGLE_ERR_INVALID_PARAM
  else
    match malloc_array 8 capacity, malloc_array 8 capacity with
    | Some d0, Some d1 =>
        if negb (mutex_init =? MUGGLE_OK) then inl mutex_init
        else if negb (cv_init1 =? MUGGLE_OK) then inl cv_init1
        else if negb (cv_init2 =? MUGGLE_OK) then inl cv_init2
        else inr (mkb [mks d0 0; mks d1 0] 0 1 capacity non_blocking)
    | _, _ => inl MUGGLE_ERR_MEM_ALLOC
    end.

(** [write] and [read] return a code and a pointer to a buffer ([None]: NULL). *)
Inductive call : Type := Write (data : ptr) | Read.
Inductive result : Type := Code (ret : Z) | Buffer (p : option Z).

(** The work of write: [p_back->datas[p_back->cnt++] = data]. *)
Definition write_back (b : muggle_double_buffer) (data : ptr) : outcome muggle_double_buffer :=
  p_back ← aget (buf b) (back b);
  datas' ← aset (datas p_back) (cnt p_back) data;
  buf' ← aset (buf b) (back b) (mks datas' (i32 (cnt p_back + 1)));
  mret (mkb buf' (front b) (back b) (capacity b) (non_blocking b)).

(** The work of read: the front buffer is emptied and the two change places. *)
Definition swap_buffers (b : muggle_double_buffer) : outcome muggle_double_buffer :=
  p_front ← aget (buf b) (front b);
  buf' ← aset (buf b) (front b) (mks (datas p_front) 0);
  mret (mkb buf' (back b) (front b) (capacity b) (non_blocking b)).

(** [buf->back->cnt]. *)
Definition back_cnt (b : muggle_double_buffer) : Z :=
  match buf b @@ back b with Some p => cnt p | None => 0 end.

(** [write] and [read], in the parts the step relation interleaves; read looks
    at [buf->front] after the unlock. *)
Definition muggle_double_buffer_ops : MonitorOps muggle_double_buffer call result := {|
  blocked o b := match o with
    | Write _ => back_cnt b =? capacity b
    | Read => back_cnt b =? 0
    end;
  refuse o b := match o with
    | Write _ => if non_blocking b then Some (Code MUGGLE_ERR_FULL) else None
    | Read => None
    end;
  act o b := match o with
    | Write d => b' ← write_back b d; mret (b', Code MUGGLE_OK)
    | Read => b' ← swap_buffers b; mret (b', Buffer (Some (front b')))
    end;
  waits o := match o with Write _ => cv_not_full | Read => cv_not_empty end;
  notifies o := match o with Write _ => cv_not_empty | Read => cv_not_full end;
  finish o b r := match o with Write _ => r | Read => Buffer (Some (front b)) end;
  lock_err o := match o with Write _ => Code MUGGLE_ERR_SYS_CALL | Read => Buffer None end
|}.
#[export] Existing Instance muggle_double_buffer_ops.

(** ** The contents of the two buffers *)

Definition holds_data (p : muggle_single_buffer) (cap : Z) (l : list ptr) : Prop :=
  zlen (datas p) = cap /\ cnt p = zlen l /\ zlen l <= cap /\ seg 0 (cnt p) (datas p) = l.

(** The front buffer holds [f], the back buffer [k]. *)
Definition rep (b : muggle_double_buffer) (f k : list ptr) : Prop :=
  0 < capacity b < 2 ^ 31 /\ zlen (buf b) = 2 /\
  (front b = 0 /\ back b = 1 \/ front b = 1 /\ back b = 0) /\
  exists pf pk, buf b @@ front b = Some pf /\ buf b @@ back b = Some pk /\
    holds_data pf (capacity b) f /\ holds_data pk (capacity b) k.

Definition wf (b : muggle_double_buffer) : Prop := exists f k, rep b f k.

Lemma rep_back_cnt b f k : rep b f k -> back_cnt b = zlen k.
Proof. intros (_ & _ & _ & pf & pk & _ & E & _ & (_ & Hc & _)). unfold back_cnt. by rewrite E. Qed.

Lemma write_back_wp b f k d :
  rep b f k -> zlen k < capacity b ->
  wp (write_back b d) (fun b' => rep b' f (k ++ [d]) /\ front b' = front b /\ capacity b' = capacity b /\
    non_blocking b' = non_blocking b).
Proof.
  intros (Hcap & Hlen & Hfb & pf & pk & Ef & Ek & Hf & (Hd & Hc & Hle & Hs)) Hlt.
  pose proof (zlen_nonneg k). unfold write_back. rewrite (aget_Some _ _ _ Ek).
  apply wp_bind, wp_ret, wp_bind, wp_aset; [lia|]. apply wp_bind, wp_aset; [lia|]. apply wp_ret.
  split; [|done]. split; [done|]. simpl. rewrite zlen_zinsert. split; [done|]. split; [done|].
  exists pf, (mks (zinsert (cnt pk) d (datas pk)) (i32 (cnt pk + 1))).
  rewrite zlookup_zinsert_ne by lia. rewrite zlookup_zinsert_eq by lia.
  split; [done|]. split; [done|]. split; [done|]. unfold holds_data. simpl.
  rewrite zlen_zinsert, swrap_small, zlen_app by lia. change (zlen [d]) with 1.
  split; [done|]. split; [lia|]. split; [lia|].
  rewrite (seg_app 0 (cnt pk)) by (rewrite ?zlen_zinsert; lia). f_equal.
  - rewrite <- Hs. apply seg_ext; rewrite ?zlen_zinsert; try lia. intros i Hi.
    apply zlookup_zinsert_ne; lia.
  - apply seg_single. apply zlookup_zinsert_eq. lia.
Qed.

Lemma swap_buffers_wp b f k :
  rep b f k ->
  wp (swap_buffers b) (fun b' => rep b' k [] /\ capacity b' = capacity b /\ non_blocking b' = non_blocking b).
Proof.
  intros (Hcap & Hlen & Hfb & pf & pk & Ef & Ek & (Hd & _) & Hk). unfold swap_buffers.
  rewrite (aget_Some _ _ _ Ef). apply wp_bind, wp_ret, wp_bind, wp_aset; [lia|]. apply wp_ret.
  split; [|done]. split; [done|]. simpl. rewrite zlen_zinsert. split; [done|]. split; [tauto|].
  exists pk, (mks (datas pf) 0). rewrite zlookup_zinsert_ne by lia. rewrite zlookup_zinsert_eq by lia.
  split; [done|]. split; [done|]. split; [done|]. split; [done|]. split; [done|].
  split; [unfold zlen; simpl; lia|]. simpl. by rewrite seg_empty.
Qed.

(** A call that is not blocked works. *)
Lemma db_act o b f k :
  rep b f k -> blocked o b = false ->
  wp (act o b) (fun '(b', r) => capacity b' = capacity b /\ match o with
    | Write d => rep b' f (k ++ [d]) /\ front b' = front b /\ r = Code MUGGLE_OK
    | Read => rep b' k [] /\ k <> [] /\ r = Buffer (Some (front b'))
    end).
Proof.
  intros R. pose proof (rep_back_cnt _ _ _ R) as Hc. pose proof R as (_ & _ & _ & _ & _ & _ & _ & _ & (_ & _ & Hle & _)).
  destruct o as [d|]; simpl; rewrite Hc; intros Hb%Z.eqb_neq; apply wp_bind.
  - eapply wp_mono; [apply (write_back_wp b f k d R); lia|]. intros b' (R' & Hf & Hcap & _). by apply wp_ret.
  - eapply wp_mono; [apply (swap_buffers_wp b f k R)|]. intros b' (R' & Hcap & _). apply wp_ret.
    split; [done|]. split; [done|]. split; [|done]. by intros ->.
Qed.

(** One caller of read could go on when the back buffer holds something, one
    writer when it is empty. *)
#[export] Instance db_laws : MonitorLaws wf.
Proof.
  refine {| avail k b := match k with
    | cv_not_empty => if back_cnt b =? 0 then 0%nat else 1%nat
    | cv_not_full => if back_cnt b =? 0 then 1%nat else 0%nat
    end |}.
  - intros o b (f & k & R) Hb. pose proof (db_act o b f k R Hb) as ([b' r] & E & _)%wp_Done. by exists b', r.
  - intros o b b' r (f & k & R) Hb Ha. pose proof (db_act o b f k R Hb) as Hw. rewrite Ha in Hw.
    destruct Hw as [_ Hw]. destruct o as [d|]; [exists f, (k ++ [d])|exists k, []]; tauto.
  - by intros [].
  - intros [d|] b (f & k & R); simpl; intros Hb%Z.eqb_eq.
    + destruct R as (? & _). destruct (Z.eqb_spec (back_cnt b) 0); [lia|done].
    + by rewrite Hb.
  - intros o b b' r (f & k & R) Hb Ha. pose proof (db_act o b f k R Hb) as Hw. rewrite Ha in Hw.
    destruct Hw as [_ Hw]. destruct o as [d|]; simpl.
    + destruct Hw as (R' & _). rewrite (rep_back_cnt _ _ _ R'), zlen_app. change (zlen [d]) with 1.
      pose proof (zlen_nonneg k). destruct (Z.eqb_spec (zlen k + 1) 0); [lia|simpl; lia].
    + destruct Hw as (R' & _). rewrite (rep_back_cnt _ _ _ R'). simpl. lia.
  - intros o b b' r (f & k & R) Hb Ha. destruct o; simpl; repeat case_match; lia.
Defined.

(** What the operations of a log wrote, and how many were reads. *)
Definition written (l : list (call * result)) : list ptr :=
  omap (fun e => match e.1 with Write d => Some d | Read => None end) l.
Definition is_read (e : call * result) : bool := match e.1 with Read => true | Write _ => false end.

Lemma count_app {T} (f : T -> bool) l1 l2 : count f (l1 ++ l2) = (count f l1 + count f l2)%nat.
Proof. unfold count. by rewrite filter_app, length_app. Qed.

Lemma run_batches b0 lg b : rep b0 [] [] -> run b0 lg b ->
  exists bs f k, rep b f k /\ written lg = concat bs ++ k /\ f = default [] (list.last bs) /\
    length bs = count is_read lg /\ Forall (fun x => x <> []) bs /\ capacity b = capacity b0.
Proof.
  intros R0 Hrun. induction Hrun as [|b0 lg b o r b' Hrun IH Hb Ha].
  { exists [], [], []. by rewrite list.Forall_nil. }
  destruct (IH R0) as (bs & f & k & R & Hw & Hf & Hn & Hne & Hcap).
  pose proof (db_act o b f k R Hb) as Hact. rewrite Ha in Hact. destruct Hact as [Hc Hact].
  unfold written in *. rewrite omap_app, Hw, count_app.
  destruct o as [d|]; simpl.
  - destruct Hact as (R' & _ & _). exists bs, f, (k ++ [d]). rewrite (assoc_L (++)), Hn.
    split_and!; try done; try congruence; unfold count; simpl; lia.
  - destruct Hact as (R' & Hk & _). exists (bs ++ [k]), k, [].
    rewrite concat_app, length_app, last_snoc, Hn. simpl. rewrite !app_nil_r.
    split_and!; try done; try congruence. apply list.Forall_app. split; [done|]. by apply list.Forall_singleton.
Qed.

(** When no thread can go on by itself, every thread is outside a call, or
    waits in read and nothing is written, or waits in write and the back buffer
    is not empty: a reader always finds what blocked writers wait for it to
    take. *)
Theorem double_buffer_progress may b0 n c :
  rep b0 [] [] -> reachable may b0 n c -> (forall c', ~ run_step c c') ->
  exists f k, rep (data c) f k /\ forall i t, threads c !! i = Some t ->
    t = Idle \/ (t = Sleep Read /\ k = []) \/ (exists d, t = Sleep (Write d) /\ k <> []).
Proof.
  intros R0 Hr Hstuck. assert (wf b0) as Hwf by (by exists [], []).
  destruct (run_batches b0 _ _ R0 (reachable_run _ _ _ _ Hr)) as (bs & f & k & R & _).
  exists f, k. split; [done|]. intros i t Hi. pose proof (rep_back_cnt _ _ _ R) as Hc.
  destruct (stuck_quiescent may wf b0 n c Hwf Hr Hstuck i t Hi) as [->|([d|] & -> & Hav)]; [by left|..];
    simpl in Hav; rewrite Hc in Hav.
  - right. right. exists d. split; [done|]. intros ->. done.
  - right. left. split; [done|]. destruct k as [|x k]; [done|]. rewrite zlen_cons in Hav.
    pose proof (zlen_nonneg k). destruct (Z.eqb_spec (1 + zlen k) 0); [lia|done].
Qed.

(** The operation a thread is in. *)
Definition call_of (t : tstate call result) : option call :=
  match t with
  | Idle => None
  | Ready o | Check o | Sleep o | Woken o | Notify o _ | Unlock o _ | Leave o _ | Return o _ => Some o
  end.

Lemma only_reader may b0 n c rd :
  (forall i, may i Read -> i = rd) -> reachable may b0 n c ->
  forall i t, threads c !! i = Some t -> call_of t = Some Read -> i = rd.
Proof.
  intros Hmay. revert c. apply (reachable_ind may (fun c => forall i t, threads c !! i = Some t ->
    call_of t = Some Read -> i = rd)).
  - intros i t Hi. by apply lookup_replicate in Hi as [-> _].
  - intros c c' _ IH Hs i t Hi Ht.
    destruct (step_moves may _ _ _ _ Hs Hi) as [Hi'|(t0 & Hi' & Hm)]; [by eapply IH|].
    destruct Hm; simplify_eq/=; [by apply Hmay|by eapply IH..].
Qed.

Lemma count_read_app l1 l2 : (0 < count is_read l1 -> 0 < count is_read (l1 ++ l2))%nat.
Proof. rewrite count_app. lia. Qed.

(** With one reader thread, the buffer that read returns, looked up after the
    unlock, is the front buffer, stays it while the reader uses it, and a read
    has put a batch into it. *)
Lemma double_buffer_read_front may b0 n c rd i r :
  rep b0 [] [] -> (forall i, may i Read -> i = rd) -> reachable may b0 n c ->
  threads c !! i = Some (Return Read r) ->
  (r = Buffer (Some (front (data c))) /\ (0 < count is_read (log c))%nat) \/ r = lock_err Read.
Proof.
  intros R0 Hmay Hr. assert (wf b0) as Hwf by (by exists [], []).
  revert i r. revert c Hr. apply (reachable_ind may (fun c => forall i r,
    threads c !! i = Some (Return Read r) ->
    (r = Buffer (Some (front (data c))) /\ (0 < count is_read (log c))%nat) \/ r = lock_err Read)).
  - intros i r Hi. by apply lookup_replicate in Hi as [? _].
  - intros c c' Hr IH Hs i r Hi. pose proof (only_reader _ _ _ _ _ Hmay Hr) as Hrd.
    destruct (reachable_wf may wf _ _ _ Hwf Hr) as (f & k & R). destruct (step_log may _ _ Hs) as [l Hl].
    assert (forall t, threads c !! i = Some t -> call_of t = Some Read -> (forall o, t <> Check o) ->
      front (data c') = front (data c)) as Hfr.
    { intros t Hi' Ht Hnc. destruct (step_data may _ _ Hs) as [->|(j & o & r' & Hj & Hb & Ha)]; [done|].
      pose proof (db_act o _ f k R Hb) as Hw. rewrite Ha in Hw. destruct o as [d|]; [by destruct Hw as (_ & _ & ? & _)|].
      assert (i = j) as -> by (rewrite (Hrd _ _ Hi' Ht); symmetry; by eapply Hrd). naive_solver. }
    destruct (step_moves may _ _ _ _ Hs Hi) as [Hi'|(t0 & Hi' & Hm)].
    + rewrite (Hfr _ Hi'), Hl by done. destruct (IH _ _ Hi') as [[-> Hc]| ->]; [|by right].
      left. split; [done|by apply count_read_app].
    + inversion Hm; subst; [by right|]. left. rewrite (Hfr _ Hi'), Hl by done. split; [done|].
      apply count_read_app, count_pos.
      match goal with E : threads c !! i = Some (Leave Read ?r0) |- _ =>
        destruct (reachable_results may _ _ _ _ _ (Read, r0) Hr E eq_refl) as [Hin|[? ?]]; [|done];
        apply list_elem_of_lookup in Hin as [m Hm']; by exists m, (Read, r0) end.
Qed.


Lemma double_buffer_init_rep `{Malloc ptr} r1 r2 r3 cap nb b :
  cap < 2 ^ 31 -> muggle_double_buffer_init r1 r2 r3 cap nb = inr b -> rep b [] [].
Proof.
  intros Hc. unfold muggle_double_buffer_init. destruct (Z.leb_spec cap 0); [done|].
  destruct (malloc_array 8 cap) as [l|] eqn:E; [|done]. apply malloc_array_len in E; [|lia..].
  repeat case_match; try done. intros [= <-].
  assert (holds_data (mks l 0) cap []) by (split_and!; try done; unfold zlen; simpl; lia).
  split; [done|]. split; [done|]. split; [by left|]. by exists (mks l 0), (mks l 0).
Qed.

(** ** Witnesses: capacity 2, a reader (thread 3) and three writers. *)
Definition sample_buffer : muggle_double_buffer := mkb [mks [NULL; NULL] 0; mks [NULL; NULL] 0] 0 1 2 false.

Lemma sample_buffer_rep : rep sample_buffer [] [].
Proof.
  split; [done|]. split; [done|]. split; [by left|].
  by exists (mks [NULL; NULL] 0), (mks [NULL; NULL] 0).
Qed.

(** [n] steps of a thread. *)
Definition steps (i n : nat) : list (nat * option call) := replicate n (i, None).

(** Two writes fill the back buffer, two more writers wait, a read empties it and
    wakes one of them. *)
Definition sample_schedule : list (nat * option call) :=
  ((0%nat, Some (Write 70)) :: steps 0 6) ++ ((0%nat, Some (Write 71)) :: steps 0 6) ++
  ((1%nat, Some (Write 72)) :: steps 1 2) ++ ((2%nat, Some (Write 73)) :: steps 2 2) ++
  ((3%nat, Some Read) :: steps 3 5) ++ steps 1 6.

Definition sample_conf : conf muggle_double_buffer call result :=
  mkc (mkb [mks [72; NULL] 1; mks [70; 71] 2] 1 0 2 false) None
      [Idle; Idle; Sleep (Write 73); Return Read (Buffer (Some 1))]
      [(Write 70, Code 0); (Write 71, Code 0); (Read, Buffer (Some 1)); (Write 72, Code 0)].

Definition one_reader (i : nat) (o : call) : Prop := o = Read -> i = 3%nat.

Lemma sample_buffer_reachable : reachable one_reader sample_buffer 4 sample_conf.
Proof.
  apply (exec_sound _ sample_schedule); [|vm_compute; reflexivity].
  intros i o Hio ->. apply list_elem_of_lookup in Hio as [k Hk].
  do 40 (destruct k as [|k]; [vm_compute in Hk; by simplify_eq|]). done.
Qed.


(** The reader has left: writer 2 sleeps although the back buffer has room. *)
Definition sample_stuck : conf muggle_double_buffer call result :=
  goto sample_conf 3 Idle.

Lemma sample_stuck_reachable : reachable one_reader sample_buffer 4 sample_stuck.
Proof. eapply rtc_r; [apply sample_buffer_reachable|]. left. by eapply s_return. Qed.

Lemma sample_stuck_stuck c' : ~ run_step sample_stuck c'.
Proof.
  intros Hs. inversion Hs; subst; simpl in *;
    repeat match goal with Hi : [_; _; _; _] !! ?i = Some _ |- _ => destruct i as [|[|[|[|?]]]]; simplify_eq/= end.
Qed.

Lemma double_buffer_progress_witness :
  exists f k, rep (data sample_stuck) f k /\ forall i t, threads sample_stuck !! i = Some t ->
    t = Idle \/ (t = Sleep Read /\ k = []) \/ (exists d, t = Sleep (Write d) /\ k <> []).
Proof. apply (double_buffer_progress _ _ _ _ sample_buffer_rep sample_stuck_reachable sample_stuck_stuck). Defined.

(** A writer stays blocked although the back buffer has room: read empties the
    buffer and wakes one of the writers only. *)
Example double_buffer_writer_sleeps_with_room :
  reachable one_reader sample_buffer 4 sample_stuck /\ (forall c', ~ run_step sample_stuck c') /\
  threads sample_stuck !! 2%nat = Some (Sleep (Write 73)) /\ back_cnt (data sample_stuck) < capacity (data sample_stuck).
Proof. split; [apply sample_stuck_reachable|]. split; [apply sample_stuck_stuck|done]. Qed.

(** With two readers a read can return the batch of the other: thread 3 looks at
    [buf->front] when thread 4 has swapped the buffers again.  Both get 71, and 70
    is lost. *)
Definition two_readers (i : nat) (o : call) : Prop := o = Read -> (3 <= i)%nat.

Example double_buffer_two_readers :
  exists c, reachable two_readers sample_buffer 5 c /\
    threads c = [Idle; Idle; Idle; Return Read (Buffer (Some 0)); Return Read (Buffer (Some 0))] /\
    written (log c) = [70; 71] /\ (seg 0 1 ∘ datas <$> buf (data c) @@ 0) = Some [71].
Proof.
  eexists. split.
  - apply (exec_sound _ (((0%nat, Some (Write 70)) :: steps 0 6) ++ ((3%nat, Some Read) :: steps 3 4) ++
      ((0%nat, Some (Write 71)) :: steps 0 6) ++ ((4%nat, Some Read) :: steps 4 5) ++ steps 3 1));
      [|vm_compute; reflexivity].
    intros i o Hio ->. apply list_elem_of_lookup in Hio as [k Hk].
    do 40 (destruct k as [|k]; [vm_compute in Hk; simplify_eq; lia|]). done.
  - done.
Qed.
End DoubleBuffer.
