(* ===== verification/Channel.v ===== *)
(** muggle/c/sync/channel.{h,c}: a bounded channel with many writers and one
    reader.  The writers exclude each other with a mutex, a lock on a futex, or
    by the promise that there is one; the reader takes no lock.  The threads are
    interleaved at every access to a shared field. *)

From stdpp Require Import base list numbers relations.
From Stdlib Require Import ZArith Lia.
From S2P Require Import Prelude BaseUtils Dsaa Ring Threads.

Open Scope Z_scope.

Module Channel.

Definition MUGGLE_CHANNEL_FLAG_SINGLE_WRITER : Z := 0x01.
Definition MUGGLE_CHANNEL_FLAG_READ_BUSY_LOOP : Z := 0x02.
Definition MUGGLE_CHANNEL_FLAG_WRITE_FUTEX : Z := 0x04.

(** The function pointers of a channel. *)
Inductive fn_write_t : Type :=
| muggle_channel_write_mutex | muggle_channel_write_single_writer | muggle_channel_write_futex.
Inductive fn_read_t : Type := muggle_channel_read_futex | muggle_channel_read_busy_loop.
Inductive fn_wake_t : Type := muggle_channel_wake_futex | muggle_channel_wake_busy_loop.

#[export] Instance fn_write_eq_dec : EqDecision fn_write_t.
Proof. solve_decision. Defined.
#[export] Instance fn_read_eq_dec : EqDecision fn_read_t.
Proof. solve_decision. Defined.
#[export] Instance fn_wake_eq_dec : EqDecision fn_wake_t.
Proof. solve_decision. Defined.

(** [write_futex] is part of the configuration below, with the mutex. *)
Record muggle_channel := mkch {
  capacity : Z;
  fn_write : fn_write_t;
  fn_read : fn_read_t;
  fn_wake : fn_wake_t;
  write_cursor : Z;
  read_cursor : Z;
  blocks : list ptr
}.

Definition set_write_cursor (w : Z) (c : muggle_channel) : muggle_channel :=
  mkch (capacity c) (fn_write c) (fn_read c) (fn_wake c) w (read_cursor c) (blocks c).
Definition set_read_cursor (r : Z) (c : muggle_channel) : muggle_channel :=
  mkch (capacity c) (fn_write c) (fn_read c) (fn_wake c) (write_cursor c) r (blocks c).
Definition set_blocks (b : list ptr) (c : muggle_channel) : muggle_channel :=
  mkch (capacity c) (fn_write c) (fn_read c) (fn_wake c) (write_cursor c) (read_cursor c) b.

(** [mutex_init] is the result of the call that sets up the mutex. *)
Definition muggle_channel_init `{Malloc ptr} (mutex_init : Z) (capacity flags : Z)
  : Z + muggle_channel :=
  if capacity <=? 0 then inl MUGGLE_ERR_INVALID_PARAM
  else
    let capacity := i32 (next_pow_of_2 (u64 capacity)) in
    if capacity <=? 0 then inl MUGGLE_ERR_INVALID_PARAM
    else if negb (mutex_init =? MUGGLE_OK) then inl mutex_init
    else
      match (malloc_cells capacity : option (list ptr)) with
      | None => inl MUGGLE_ERR_MEM_ALLOC
      | Some blocks =>
          let blocks := replicate (length blocks) NULL in
          let fn_write :=
            if negb (Z.land flags MUGGLE_CHANNEL_FLAG_SINGLE_WRITER =? 0)
            then muggle_channel_write_single_writer
            else if negb (Z.land flags MUGGLE_CHANNEL_FLAG_WRITE_FUTEX =? 0)
            then muggle_channel_write_futex
            else muggle_channel_write_mutex in
          let '(fn_read, fn_wake) :=
            if negb (Z.land flags MUGGLE_CHANNEL_FLAG_READ_BUSY_LOOP =? 0)
            then (muggle_channel_read_busy_loop, muggle_channel_wake_busy_loop)
            else (muggle_channel_read_futex, muggle_channel_wake_futex) in
          inr (mkch capacity fn_write fn_read fn_wake 0 (capacity - 1) blocks)
      end.

(** ** The threads *)

(** Where a thread is: in a write of [d] (with its result), or in a read (with
    [r_pos], and the cursor it waits on). *)
Inductive pc : Type :=
| Idle
| Lock (d : ptr)             (* about to lock *)
| LockWait (d : ptr)         (* the futex lock was taken, about to wait *)
| LockSleep (d : ptr)        (* asleep on the futex lock *)
| Full (d : ptr)             (* about to test for a full channel *)
| Store (d : ptr)            (* about to write the block *)
| Publish (d : ptr)          (* about to move the write cursor *)
| Unlock (ret : Z)           (* about to unlock *)
| UnlockWake (ret : Z)       (* about to wake a writer, after the futex unlock *)
| Wake (ret : Z)             (* about to wake the reader *)
| WRet (ret : Z)
| Load (r_pos : Z)           (* about to load the write cursor *)
| Take (r_pos : Z)           (* about to read the block *)
| Bump (d : ptr)             (* about to move the read cursor *)
| Wait (r_pos w : Z)         (* about to wait on the write cursor *)
| Sleep (r_pos : Z)          (* asleep on the write cursor *)
| RRet (d : ptr).

Record conf := mkc {
  chan : muggle_channel;
  locked : bool;               (* the mutex, or write_futex *)
  threads : list pc;
  wlog : list ptr;             (* published, in order *)
  rlog : list ptr              (* read, in order *)
}.

Definition goto (c : conf) (i : nat) (t : pc) : conf :=
  mkc (chan c) (locked c) (<[i := t]> (threads c)) (wlog c) (rlog c).
Definition lock (b : bool) (c : conf) : conf := mkc (chan c) b (threads c) (wlog c) (rlog c).
Definition with_chan (ch : muggle_channel) (c : conf) : conf :=
  mkc ch (locked c) (threads c) (wlog c) (rlog c).

Definition lock_sleeps (t : pc) : bool := match t with LockSleep _ => true | _ => false end.
Definition reader_sleeps (t : pc) : bool := match t with Sleep _ => true | _ => false end.
Definition uses_lock (ch : muggle_channel) : bool :=
  match fn_write ch with muggle_channel_write_single_writer => false | _ => true end.
Definition is_futex (ch : muggle_channel) : bool :=
  match fn_write ch with muggle_channel_write_futex => true | _ => false end.

(** [chan->write_cursor + 1 == chan->read_cursor] *)
Definition is_full (ch : muggle_channel) : bool :=
  i32 (write_cursor ch + 1) =? read_cursor ch.
Definition w_pos (ch : muggle_channel) : Z := IDX_IN_POW_OF_2_RING (write_cursor ch) (capacity ch).
Definition r_pos (ch : muggle_channel) : Z := IDX_IN_POW_OF_2_RING (i32 (read_cursor ch + 1)) (capacity ch).

(** What a thread does by itself. *)
Inductive run_step : conf -> conf -> Prop :=
| s_lock c i d :
    threads c !! i = Some (Lock d) -> uses_lock (chan c) = true -> locked c = false ->
    run_step c (lock true (goto c i (Full d)))
| s_no_lock c i d :
    threads c !! i = Some (Lock d) -> uses_lock (chan c) = false ->
    run_step c (goto c i (Full d))
| s_lock_taken c i d :
    threads c !! i = Some (Lock d) -> is_futex (chan c) = true -> locked c = true ->
    run_step c (goto c i (LockWait d))
| s_lock_sleep c i d :
    threads c !! i = Some (LockWait d) -> locked c = true ->
    run_step c (goto c i (LockSleep d))
| s_lock_again c i d :
    threads c !! i = Some (LockWait d) -> locked c = false ->
    run_step c (goto c i (Lock d))
| s_full c i d :
    threads c !! i = Some (Full d) -> is_full (chan c) = true ->
    run_step c (goto c i (Unlock MUGGLE_ERR_FULL))
| s_room c i d :
    threads c !! i = Some (Full d) -> is_full (chan c) = false ->
    run_step c (goto c i (Store d))
| s_store c i d b :
    threads c !! i = Some (Store d) -> aset (blocks (chan c)) (w_pos (chan c)) d = Done b ->
    run_step c (with_chan (set_blocks b (chan c)) (goto c i (Publish d)))
| s_publish c i d :
    threads c !! i = Some (Publish d) ->
    run_step c (mkc (set_write_cursor (i32 (write_cursor (chan c) + 1)) (chan c)) (locked c)
      (<[i := Unlock MUGGLE_OK]> (threads c)) (wlog c ++ [d]) (rlog c))
| s_unlock c i r :
    threads c !! i = Some (Unlock r) -> uses_lock (chan c) = true ->
    run_step c (lock false (goto c i (if is_futex (chan c) then UnlockWake r else Wake r)))
| s_no_unlock c i r :
    threads c !! i = Some (Unlock r) -> uses_lock (chan c) = false ->
    run_step c (goto c i (Wake r))
| s_unlock_wake c i r j d :
    threads c !! i = Some (UnlockWake r) -> threads c !! j = Some (LockSleep d) ->
    run_step c (goto (goto c i (Wake r)) j (Lock d))
| s_unlock_wake_none c i r :
    threads c !! i = Some (UnlockWake r) -> count lock_sleeps (threads c) = 0%nat ->
    run_step c (goto c i (Wake r))
| s_wake c i j p :
    threads c !! i = Some (Wake MUGGLE_OK) -> fn_wake (chan c) = muggle_channel_wake_futex ->
    threads c !! j = Some (Sleep p) ->
    run_step c (goto (goto c i (WRet MUGGLE_OK)) j (Load p))
| s_wake_none c i r :
    threads c !! i = Some (Wake r) ->
    (r = MUGGLE_OK -> fn_wake (chan c) = muggle_channel_wake_futex -> count reader_sleeps (threads c) = 0%nat) ->
    run_step c (goto c i (WRet r))
| s_write_return c i r :
    threads c !! i = Some (WRet r) -> run_step c (goto c i Idle)
| s_load c i p :
    threads c !! i = Some (Load p) -> w_pos (chan c) <> p ->
    run_step c (goto c i (Take p))
| s_empty c i p :
    threads c !! i = Some (Load p) -> w_pos (chan c) = p -> fn_read (chan c) = muggle_channel_read_futex ->
    run_step c (goto c i (Wait p (write_cursor (chan c))))
| s_take c i p d :
    threads c !! i = Some (Take p) -> aget (blocks (chan c)) p = Done d ->
    run_step c (goto c i (Bump d))
| s_bump c i d :
    threads c !! i = Some (Bump d) ->
    run_step c (mkc (set_read_cursor (i32 (read_cursor (chan c) + 1)) (chan c)) (locked c)
      (<[i := RRet d]> (threads c)) (wlog c) (rlog c ++ [d]))
| s_sleep c i p w :
    threads c !! i = Some (Wait p w) -> write_cursor (chan c) = w ->
    run_step c (goto c i (Sleep p))
| s_wait_changed c i p w :
    threads c !! i = Some (Wait p w) -> write_cursor (chan c) <> w ->
    run_step c (goto c i (Load p))
| s_read_return c i d :
    threads c !! i = Some (RRet d) -> run_step c (goto c i Idle).

(** The calls of the clients, and returns of futex_wait without a wake.  With
    [weak], the compare-and-swap of the lock may fail although the lock is free:
    the loop [while (!cas(...) && expected != UNLOCK)] then ends as if it had
    taken the lock. *)
Inductive env_step (weak : bool) (writes reads : nat -> Prop) : conf -> conf -> Prop :=
| s_write c i d :
    threads c !! i = Some Idle -> writes i -> env_step weak writes reads c (goto c i (Lock d))
| s_read c i :
    threads c !! i = Some Idle -> reads i -> env_step weak writes reads c (goto c i (Load (r_pos (chan c))))
| s_spurious_lock c i d :
    threads c !! i = Some (LockSleep d) -> env_step weak writes reads c (goto c i (Lock d))
| s_spurious_read c i p :
    threads c !! i = Some (Sleep p) -> env_step weak writes reads c (goto c i (Load p))
| s_weak c i d :
    weak = true -> threads c !! i = Some (Lock d) -> is_futex (chan c) = true -> locked c = false ->
    env_step weak writes reads c (goto c i (Full d)).

Definition step (weak : bool) (writes reads : nat -> Prop) (c c' : conf) : Prop :=
  run_step c c' \/ env_step weak writes reads c c'.

Definition start (ch : muggle_channel) (n : nat) : conf := mkc ch false (replicate n Idle) [] [].
Definition reachable (weak : bool) (writes reads : nat -> Prop) (ch : muggle_channel) (n : nat) (c : conf) : Prop :=
  rtc (step weak writes reads) (start ch n) c.

(** ** Roles and mutual exclusion *)

Definition writing (t : pc) : bool :=
  match t with
  | Lock _ | LockWait _ | LockSleep _ | Full _ | Store _ | Publish _ | Unlock _ | UnlockWake _
  | Wake _ | WRet _ => true
  | _ => false
  end.
Definition reading (t : pc) : bool :=
  match t with Load _ | Take _ | Bump _ | Wait _ _ | Sleep _ | RRet _ => true | _ => false end.
(** Between lock and unlock. *)
Definition holds (t : pc) : bool :=
  match t with Full _ | Store _ | Publish _ | Unlock _ => true | _ => false end.

Section proofs.
Context (k : Z) (Hk : 1 <= k <= 30).
Context (ch0 : muggle_channel) (n : nat) (writes reads : nat -> Prop).
Notation cap := (2 ^ k).

(** The promises of the clients: one reader, and one writer when the channel was
    set up for one. *)
Context (rd wr : nat).
Context (Hrd : forall i, reads i -> i = rd).
Context (Hwr : uses_lock ch0 = false -> forall i, writes i -> i = wr).

Notation reachable := (reachable false writes reads ch0 n).
Notation step := (step false writes reads).

(** The change of state of one thread in a step. *)
Inductive moves (i : nat) (c c' : conf) : pc -> pc -> Prop :=
| m_write d : writes i -> moves i c c' Idle (Lock d)
| m_read : reads i -> moves i c c' Idle (Load (r_pos (chan c)))
| m_lock d : uses_lock (chan c) = true -> locked c = false -> locked c' = true -> moves i c c' (Lock d) (Full d)
| m_no_lock d : uses_lock (chan c) = false -> moves i c c' (Lock d) (Full d)
| m_lock_taken d : moves i c c' (Lock d) (LockWait d)
| m_lock_sleep d : locked c = true -> moves i c c' (LockWait d) (LockSleep d)
| m_lock_again d : moves i c c' (LockWait d) (Lock d)
| m_lock_woken d : moves i c c' (LockSleep d) (Lock d)
| m_full d : is_full (chan c) = true -> moves i c c' (Full d) (Unlock MUGGLE_ERR_FULL)
| m_room d : is_full (chan c) = false -> chan c' = chan c -> moves i c c' (Full d) (Store d)
| m_store d b : aset (blocks (chan c)) (w_pos (chan c)) d = Done b -> chan c' = set_blocks b (chan c) ->
    moves i c c' (Store d) (Publish d)
| m_publish d : moves i c c' (Publish d) (Unlock MUGGLE_OK)
| m_unlock r t : t = UnlockWake r \/ t = Wake r -> moves i c c' (Unlock r) t
| m_unlock_wake r : moves i c c' (UnlockWake r) (Wake r)
| m_wake r : moves i c c' (Wake r) (WRet r)
| m_write_return r : moves i c c' (WRet r) Idle
| m_load p : w_pos (chan c) <> p -> moves i c c' (Load p) (Take p)
| m_empty p : w_pos (chan c) = p -> fn_read (chan c) = muggle_channel_read_futex ->
    moves i c c' (Load p) (Wait p (write_cursor (chan c)))
| m_take p d : aget (blocks (chan c)) p = Done d -> moves i c c' (Take p) (Bump d)
| m_bump d : moves i c c' (Bump d) (RRet d)
| m_sleep p w : write_cursor (chan c) = w -> moves i c c' (Wait p w) (Sleep p)
| m_wait_changed p w : moves i c c' (Wait p w) (Load p)
| m_woken p : moves i c c' (Sleep p) (Load p)
| m_read_return d : moves i c c' (RRet d) Idle.

Lemma chan_step_moves c c' i t' :
  step c c' -> threads c' !! i = Some t' ->
  threads c !! i = Some t' \/ exists t, threads c !! i = Some t /\ moves i c c' t t'.
Proof.
  intros Hs Hi.
  assert (forall j t0 t1, threads c !! j = Some t0 -> <[j := t1]> (threads c) !! i = Some t' ->
    (j = i -> moves i c c' t0 t1) ->
    threads c !! i = Some t' \/ exists t, threads c !! i = Some t /\ moves i c c' t t') as Hone.
  { intros j t0 t1 Hj Hj' Hm. destruct (lookup_update _ j i t1 t0 t' Hj Hj') as [[-> ->]|[_ ?]]; [|by left].
    right. exists t0. split; [done|by apply Hm]. }
  assert (forall i0 j t1 t1' t2 t2', threads c !! i0 = Some t1 -> threads c !! j = Some t2 ->
    t1 <> t2 -> <[j := t2']> (<[i0 := t1']> (threads c)) !! i = Some t' ->
    moves i c c' t1 t1' -> moves i c c' t2 t2' ->
    threads c !! i = Some t' \/ exists t, threads c !! i = Some t /\ moves i c c' t t') as Htwo.
  { intros i0 j t1 t1' t2 t2' H1 H2 Hne Hi' Hm1 Hm2.
    assert (i0 <> j) by congruence.
    assert (<[i0 := t1']> (threads c) !! j = Some t2) as H2' by (by rewrite list_lookup_insert_ne).
    destruct (lookup_update _ j i t2' t2 t' H2' Hi') as [[-> ->]|[_ Hi2]]; [right; by exists t2|].
    by apply (Hone i0 t1 t1'). }
  destruct Hs as [Hs|Hs]; destruct Hs; simpl in Hi;
    try (eapply Hone; [done|done|]; intros ->; by econstructor).
  - eapply Hone; [done|done|]. intros ->. constructor. destruct (is_futex _); auto.
  - eapply Hone; [done|done|]. intros ->. constructor. auto.
  - eapply Htwo; [exact H|exact H0|done|done|by constructor|by constructor].
  - eapply Htwo; [exact H|exact H1|done|done|by constructor|by constructor].
Qed.
Lemma step_static c c' :
  step c c' -> capacity (chan c') = capacity (chan c) /\ fn_write (chan c') = fn_write (chan c) /\
    fn_read (chan c') = fn_read (chan c) /\ fn_wake (chan c') = fn_wake (chan c).
Proof. intros [Hs|Hs]; by destruct Hs. Qed.

Lemma reachable_static c :
  reachable c -> capacity (chan c) = capacity ch0 /\ fn_write (chan c) = fn_write ch0 /\
    fn_read (chan c) = fn_read ch0 /\ fn_wake (chan c) = fn_wake ch0.
Proof.
  apply (rtc_invariant step (fun c => capacity (chan c) = capacity ch0 /\ fn_write (chan c) = fn_write ch0 /\
    fn_read (chan c) = fn_read ch0 /\ fn_wake (chan c) = fn_wake ch0)); [done|].
  intros c1 c2 _ IH Hs%step_static. intuition congruence.
Qed.

Lemma reachable_roles c i t :
  reachable c -> threads c !! i = Some t ->
  (writing t = true -> writes i) /\ (reading t = true -> reads i).
Proof.
  intros Hr. revert i t. revert c Hr. apply (rtc_invariant step (fun c => forall i t,
    threads c !! i = Some t -> (writing t = true -> writes i) /\ (reading t = true -> reads i))).
  - intros i t Hi. by apply lookup_replicate in Hi as [-> _].
  - intros c c' _ IH Hs i t Hi.
    destruct (chan_step_moves _ _ _ _ Hs Hi) as [Hi'|(t0 & Hi' & Hm)]; [by apply IH|].
    specialize (IH _ _ Hi'). destruct Hm as [| | | | | | | | | | | |r t' [-> | ->]| | | | | | | | | | | ];
      simpl in *; tauto.
Qed.

Lemma one_reader c i j t u :
  reachable c -> threads c !! i = Some t -> threads c !! j = Some u ->
  reading t = true -> reading u = true -> i = j.
Proof.
  intros Hr Hi Hj Ht Hu. pose proof (reachable_roles c i t Hr Hi) as [_ Hri].
  pose proof (reachable_roles c j u Hr Hj) as [_ Hrj]. by rewrite (Hrd i), (Hrd j) by auto.
Qed.

(** With a lock, it is taken exactly when a thread is between lock and unlock. *)
Lemma locked_count c :
  uses_lock ch0 = true -> reachable c -> count holds (threads c) = Nat.b2n (locked c).
Proof.
  intros Hl. revert c. apply (rtc_invariant step (fun c => count holds (threads c) = Nat.b2n (locked c))).
  { apply count_zero. intros i t Hi. by apply lookup_replicate in Hi as [-> _]. }
  intros c1 c2 Hr IH Hs. destruct (reachable_static _ Hr) as (_ & Hw & _ & _).
  assert (uses_lock (chan c1) = true) as Hl1 by (unfold uses_lock in *; by rewrite Hw).
  destruct Hs as [Hs|Hs]; destruct Hs; try congruence; simpl in *;
    match goal with
    | Hi : threads _ !! ?i = Some ?t0 |- context [<[?i := ?t]> (threads ?c)] =>
        pose proof (count_update holds (threads c) i t0 t Hi) as Hc; simpl in Hc
    end; try (destruct (locked c); simpl in *; lia).
  - destruct (is_futex _), (locked c); simpl in *; lia.
  - pose proof (count_update2 holds _ i j _ (Wake r) _ (Lock d) H H0 ltac:(done)). simpl in *. lia.
  - pose proof (count_update2 holds _ i j _ (WRet MUGGLE_OK) _ (Load p) H H1 ltac:(done)). simpl in *. lia.
Qed.

(** At most one writer is between lock and unlock. *)
Lemma one_writer c i j t u :
  reachable c -> threads c !! i = Some t -> threads c !! j = Some u ->
  holds t = true -> holds u = true -> i = j.
Proof.
  intros Hr Hi Hj Ht Hu. destruct (uses_lock ch0) eqn:Hl.
  - eapply count_unique; try done. rewrite (locked_count c Hl Hr). destruct (locked c); simpl; lia.
  - pose proof (reachable_roles c i t Hr Hi) as [Hwi _]. pose proof (reachable_roles c j u Hr Hj) as [Hwj _].
    rewrite (Hwr eq_refl i), (Hwr eq_refl j); [done|apply Hwj; by destruct u|apply Hwi; by destruct t].
Qed.


(** ** The ring is a queue *)

(** What a thread knows: [nw] messages were published, [nr] read, [l] are in the
    channel. *)
Definition knows (bl : list ptr) (nw nr : Z) (l : list ptr) (t : pc) : Prop :=
  match t with
  | Store d => zlen l < cap - 2
  | Publish d => zlen l < cap - 2 /\ bl @@ (nw mod cap) = Some d
  | Load p | Sleep p => p = nr mod cap
  | Wait p w => p = nr mod cap /\ w mod cap = p
  | Take p => p = nr mod cap /\ l <> []
  | Bump d => head l = Some d
  | _ => True
  end.

Record inv (c : conf) (nw nr : Z) (l : list ptr) : Prop := {
  inv_w : write_cursor (chan c) = i32 nw;
  inv_r : read_cursor (chan c) = i32 (nr + cap - 1);
  inv_n : nw = nr + zlen l;
  inv_log : wlog c = rlog c ++ l;
  inv_len : zlen l <= cap - 2;
  inv_blocks : zlen (blocks (chan c)) = cap;
  inv_ring : ring_at (blocks (chan c)) cap nr l;
  inv_knows : forall i t, threads c !! i = Some t -> knows (blocks (chan c)) nw nr l t
}.

Context (Hcap : capacity ch0 = cap) (Hblocks : zlen (blocks ch0) = cap)
        (Hw0 : write_cursor ch0 = 0) (Hr0 : read_cursor ch0 = cap - 1).

Lemma cap_range : 2 <= cap <= 2 ^ 30.
Proof. split; [apply (Z.pow_le_mono_r 2 1 k)|apply Z.pow_le_mono_r]; lia. Qed.

(** The tests of the code, in terms of the contents. *)
Lemma is_full_iff c nw nr l : inv c nw nr l -> is_full (chan c) = true <-> zlen l = cap - 2.
Proof.
  intros [Hw Hr Hn _ Hl _ _ _]. pose proof cap_range. pose proof (zlen_nonneg l).
  unfold is_full. rewrite Hw, Hr, i32_add, Z.eqb_eq. split.
  - intros E%i32_inj; lia.
  - intros E. f_equal. lia.
Qed.

Lemma w_pos_eq c nw nr l : reachable c -> inv c nw nr l -> w_pos (chan c) = nw mod cap.
Proof.
  intros Hr HI. destruct (reachable_static _ Hr) as (Hc & _). unfold w_pos.
  rewrite Hc, Hcap, (inv_w _ _ _ _ HI). apply ring_index_i32. lia.
Qed.

Lemma r_pos_eq c nw nr l : reachable c -> inv c nw nr l -> r_pos (chan c) = nr mod cap.
Proof.
  intros Hr HI. destruct (reachable_static _ Hr) as (Hc & _). unfold r_pos.
  rewrite Hc, Hcap, (inv_r _ _ _ _ HI), i32_add, ring_index_i32 by lia.
  replace (nr + cap - 1 + 1) with (nr + 1 * cap) by lia. apply Z.mod_add. pose proof cap_range. lia.
Qed.

Lemma inv_start : inv (start ch0 n) 0 0 [].
Proof.
  pose proof cap_range. split; simpl; try done.
  - rewrite Hr0, swrap_small; lia.
  - unfold zlen. simpl. lia.
  - apply ring_at_nil.
  - intros i t Hi. by apply lookup_replicate in Hi as [-> _].
Qed.

(** What a thread knows after its own step, by the old contents. *)
Lemma moves_knows c c' nw nr l i t t' :
  reachable c -> inv c nw nr l -> threads c !! i = Some t -> moves i c c' t t' ->
  knows (blocks (chan c')) nw nr l t' \/ (exists d, t = Publish d \/ t = Bump d).
Proof.
  intros Hr HI Hi Hm. pose proof cap_range. pose proof (w_pos_eq _ _ _ _ Hr HI) as Hwp.
  pose proof (r_pos_eq _ _ _ _ Hr HI) as Hrp. pose proof HI as [Hw _ Hn _ Hl Hb Hring Hkn].
  specialize (Hkn _ _ Hi).
  destruct Hm as [| | | | | | | | |d Hf|d b Ha Hch| |r t' [-> | ->]| | | |p Hp|p Hp Hfr|p d Ha| |p w| | | ];
    simpl in *; try (by left); try (right; by eauto).
  - left. pose proof (proj2 (is_full_iff _ _ _ _ HI)) as Hfi.
    destruct (decide (zlen l = cap - 2)); [by rewrite Hfi in Hf|lia].
  - left. split; [done|]. rewrite Hch. simpl. pose proof (Z.mod_pos_bound nw cap ltac:(lia)).
    rewrite Hwp, aset_zinsert in Ha by lia. injection Ha as <-. apply zlookup_zinsert_eq. lia.
  - left. split; [done|]. intros ->. apply Hp. rewrite Hwp, Hn. unfold zlen. simpl. by rewrite Z.add_0_r.
  - left. split; [done|]. rewrite Hw, i32_mod by lia. congruence.
  - left. destruct Hkn as [-> Hne]. destruct l as [|x l]; [done|].
    apply ring_at_cons in Hring as [Hx _]; [|lia]. rewrite (aget_Some _ _ _ Hx) in Ha. by injection Ha as ->.
  - left. tauto.
  - left. tauto.
Qed.

(** The three steps that change the channel; the others move threads. *)
Definition quiet (c c' : conf) : Prop :=
  chan c' = chan c /\ wlog c' = wlog c /\ rlog c' = rlog c /\
  forall j e, threads c !! j = Some (Publish e) \/ threads c !! j = Some (Bump e) ->
    threads c' !! j = threads c !! j.

Lemma step_cases c c' : step c c' ->
  (exists i d b, threads c !! i = Some (Store d) /\ aset (blocks (chan c)) (w_pos (chan c)) d = Done b /\
     c' = with_chan (set_blocks b (chan c)) (goto c i (Publish d))) \/
  (exists i d, threads c !! i = Some (Publish d) /\
     c' = mkc (set_write_cursor (i32 (write_cursor (chan c) + 1)) (chan c)) (locked c)
       (<[i := Unlock MUGGLE_OK]> (threads c)) (wlog c ++ [d]) (rlog c)) \/
  (exists i d, threads c !! i = Some (Bump d) /\
     c' = mkc (set_read_cursor (i32 (read_cursor (chan c) + 1)) (chan c)) (locked c)
       (<[i := RRet d]> (threads c)) (wlog c) (rlog c ++ [d])) \/
  quiet c c'.
Proof.
  assert (forall i t t', threads c !! i = Some t -> (forall e, t <> Publish e /\ t <> Bump e) ->
    forall j e, threads c !! j = Some (Publish e) \/ threads c !! j = Some (Bump e) ->
    <[i := t']> (threads c) !! j = threads c !! j) as Hne.
  { intros i t t' Hi Ht j e Hj. rewrite list_lookup_insert_ne; [done|]. intros ->.
    destruct (Ht e). destruct Hj; congruence. }
  intros [Hs|Hs]; destruct Hs; try (right; right; right; split_and!; try done; by eapply Hne).
  - left. by exists i, d, b.
  - right; left. by exists i, d.
  - right; right; right. split_and!; try done. intros j' e Hj. simpl.
    rewrite list_lookup_insert_ne by (intros ->; destruct Hj; congruence). by eapply Hne.
  - right; right; right. split_and!; try done. intros j' e Hj. simpl.
    rewrite list_lookup_insert_ne by (intros ->; destruct Hj; congruence). by eapply Hne.
  - right; right; left. by exists i, d.
Qed.

Lemma inv_quiet c c' nw nr l :
  reachable c -> step c c' -> inv c nw nr l -> quiet c c' -> inv c' nw nr l.
Proof.
  intros Hr Hs HI (Hch & Hwl & Hrl & Hkeep). pose proof HI as [Hw Hrc Hn Hlog Hl Hb Hring Hkn].
  split; rewrite ?Hch, ?Hwl, ?Hrl; try done.
  intros i t Hi. destruct (chan_step_moves _ _ _ _ Hs Hi) as [Hi'|(t0 & Hi' & Hm)]; [by apply (Hkn i)|].
  destruct (moves_knows _ _ _ _ _ _ _ _ Hr HI Hi' Hm) as [?|(d & Ht)]; [by rewrite <- Hch|].
  assert (threads c' !! i = threads c !! i) as E by (apply (Hkeep i d); naive_solver).
  rewrite E, Hi' in Hi. injection Hi as <-. by apply (Hkn i).
Qed.

(** The threads other than the one that acts, for each of the three steps. *)
Lemma inv_others c i t0 t' (P : pc -> Prop) :
  threads c !! i = Some t0 -> P t' ->
  (forall j t, threads c !! j = Some t -> j <> i -> P t) ->
  forall j t, <[i := t']> (threads c) !! j = Some t -> P t.
Proof.
  intros Hi Ht Hoth j t Hj. destruct (lookup_update _ i j t' t0 t Hi Hj) as [[-> ->]|[Hne Hj']]; [done|].
  by eapply Hoth.
Qed.

Lemma inv_store c nw nr l i d b :
  reachable c -> inv c nw nr l -> threads c !! i = Some (Store d) ->
  aset (blocks (chan c)) (w_pos (chan c)) d = Done b ->
  inv (with_chan (set_blocks b (chan c)) (goto c i (Publish d))) nw nr l.
Proof.
  intros Hr HI Hi Ha. pose proof cap_range. pose proof (w_pos_eq _ _ _ _ Hr HI) as Hwp.
  pose proof HI as [Hw Hrc Hn Hlog Hl Hb Hring Hkn]. pose proof (Z.mod_pos_bound nw cap ltac:(lia)).
  pose proof (Hkn _ _ Hi) as Hroom. simpl in Hroom. pose proof (zlen_nonneg l).
  rewrite Hwp, aset_zinsert in Ha by lia. injection Ha as <-.
  split; simpl; try done; [by rewrite zlen_zinsert|apply ring_at_other; lia || done|].
  apply (inv_others c i (Store d)); [done| |].
  - split; [done|]. apply zlookup_zinsert_eq. lia.
  - intros j t Hj Hne. specialize (Hkn _ _ Hj). destruct t; try done.
    destruct Hne. symmetry. by eapply (one_writer c i j (Store d)).
Qed.

Lemma inv_publish c nw nr l i d :
  reachable c -> inv c nw nr l -> threads c !! i = Some (Publish d) ->
  inv (mkc (set_write_cursor (i32 (write_cursor (chan c) + 1)) (chan c)) (locked c)
         (<[i := Unlock MUGGLE_OK]> (threads c)) (wlog c ++ [d]) (rlog c)) (nw + 1) nr (l ++ [d]).
Proof.
  intros Hr HI Hi. pose proof HI as [Hw Hrc Hn Hlog Hl Hb Hring Hkn].
  pose proof (Hkn _ _ Hi) as [Hroom Hd]. simpl in Hroom, Hd.
  split; simpl; rewrite ?zlen_snoc; try done; try lia.
  - by rewrite Hw, i32_add.
  - by rewrite Hlog, (assoc_L (++)).
  - apply ring_at_extend; [|done]. by rewrite <- Hn.
  - apply (inv_others c i (Publish d)); [done|done|].
    intros j t Hj Hne. specialize (Hkn _ _ Hj). destruct t; try done;
      try (destruct Hne; symmetry; by eapply (one_writer c i j (Publish d))).
    + split; [by destruct Hkn|]. by destruct l.
    + simpl in *. by destruct l.
Qed.

Lemma inv_bump c nw nr l i d :
  reachable c -> inv c nw nr l -> threads c !! i = Some (Bump d) ->
  exists l', l = d :: l' /\
  inv (mkc (set_read_cursor (i32 (read_cursor (chan c) + 1)) (chan c)) (locked c)
         (<[i := RRet d]> (threads c)) (wlog c) (rlog c ++ [d])) nw (nr + 1) l'.
Proof.
  intros Hr HI Hi. pose proof cap_range. pose proof HI as [Hw Hrc Hn Hlog Hl Hb Hring Hkn].
  pose proof (Hkn _ _ Hi) as Hd. simpl in Hd. destruct l as [|x l']; [done|]. injection Hd as ->.
  exists l'. split; [done|]. rewrite zlen_cons in *. apply ring_at_cons in Hring as [_ Hring]; [|lia].
  split; simpl; try done; try lia.
  - rewrite Hrc, i32_add. f_equal. lia.
  - by rewrite Hlog, <- (assoc_L (++)).
  - apply (inv_others c i (Bump d)); [done|done|].
    intros j t Hj Hne. specialize (Hkn _ _ Hj). destruct t; try done; simpl in *; rewrite ?zlen_cons in *;
      try lia; try (split; [lia|tauto]);
      destruct Hne; symmetry; by eapply (one_reader c i j (Bump d)).
Qed.

(** The state of the channel in every reachable configuration. *)
Lemma reachable_inv c : reachable c -> exists nw nr l, inv c nw nr l.
Proof.
  apply (rtc_invariant step (fun c => exists nw nr l, inv c nw nr l)).
  - exists 0, 0, []. apply inv_start.
  - intros c1 c2 Hr (nw & nr & l & HI) Hs.
    destruct (step_cases _ _ Hs) as [(i & d & b & Hi & Ha & ->)|[(i & d & Hi & ->)|[(i & d & Hi & ->)|Hq]]].
    + exists nw, nr, l. by apply inv_store.
    + exists (nw + 1), nr, (l ++ [d]). by apply inv_publish.
    + destruct (inv_bump c1 nw nr l i d Hr HI Hi) as (l' & _ & HI'). by exists nw, (nr + 1), l'.
    + exists nw, nr, l. by eapply inv_quiet.
Qed.

(** ** Progress *)

Definition waits_lock (t : pc) : bool := match t with LockWait _ | LockSleep _ => true | _ => false end.
Definition tries_lock (t : pc) : bool := match t with Lock _ | LockWait _ => true | _ => false end.
Definition wakes_lock (t : pc) : bool := match t with UnlockWake _ => true | _ => false end.
Definition wakes_reader (t : pc) : bool :=
  match t with Unlock r | UnlockWake r | Wake r => r =? MUGGLE_OK | _ => false end.

(** Only the futex lock is waited for, and a writer asleep on it has somebody to
    wake it: the owner, a thread about to wake, or one that tries to lock. *)
Definition lock_awake (c : conf) : Prop :=
  ((0 < count waits_lock (threads c))%nat -> is_futex ch0 = true) /\
  ((0 < count lock_sleeps (threads c))%nat ->
   (0 < Nat.b2n (locked c) + count wakes_lock (threads c) + count tries_lock (threads c))%nat).

Lemma lock_awake_step c c' : reachable c -> lock_awake c -> step c c' -> lock_awake c'.
Proof.
  intros Hr [Hf Hc] Hs. destruct (reachable_static _ Hr) as (_ & Hw & _ & _).
  assert (is_futex (chan c) = is_futex ch0 /\ uses_lock (chan c) = uses_lock ch0) as [Hfu Hul].
  { unfold is_futex, uses_lock. by rewrite Hw. }
  assert (is_futex ch0 = true -> uses_lock ch0 = true) as Hfl.
  { unfold is_futex, uses_lock. by destruct (fn_write ch0). }
  assert (is_futex ch0 = false -> count waits_lock (threads c) = 0%nat /\ count lock_sleeps (threads c) = 0%nat) as Hz.
  { intros F. pose proof (count_le lock_sleeps waits_lock (threads c) ltac:(by intros [])).
    destruct (count waits_lock (threads c)); [lia|]. rewrite F in Hf. by discriminate Hf; lia. }
  destruct Hs as [Hs|Hs]; destruct Hs; try congruence; unfold lock_awake; simpl in *;
    match goal with
    | Hi : threads _ !! ?i = Some ?t0 |- context [<[?i := ?t]> (threads ?c)] =>
        pose proof (count_update waits_lock (threads c) i t0 t Hi) as C1;
        pose proof (count_update lock_sleeps (threads c) i t0 t Hi) as C2;
        pose proof (count_update wakes_lock (threads c) i t0 t Hi) as C3;
        pose proof (count_update tries_lock (threads c) i t0 t Hi) as C4; simpl in C1, C2, C3, C4
    end;
    try (destruct (is_futex ch0) eqn:F; [clear Hf Hz|destruct (Hz eq_refl) as [Z1 Z2]; try congruence];
      split; intros; solve [done | lia]).
  - destruct (is_futex ch0); [rewrite Hfl in Hul by done; congruence|]. destruct (Hz eq_refl). split; intros; lia.
  - rewrite H0. destruct (is_futex ch0); [clear Hf Hz; simpl; split; intros; done || lia|].
    destruct (Hz eq_refl). simpl. split; intros; lia.
  - rewrite Hfu in *. destruct (is_futex ch0); [clear Hf Hz; simpl in *; split; intros; done || lia|].
    destruct (Hz eq_refl). simpl in *. split; intros; lia.
  - pose proof (count_update2 waits_lock _ i j _ (Wake r) _ (Lock d) H H0 ltac:(done)) as D1.
    pose proof (count_update2 lock_sleeps _ i j _ (Wake r) _ (Lock d) H H0 ltac:(done)) as D2.
    pose proof (count_update2 tries_lock _ i j _ (Wake r) _ (Lock d) H H0 ltac:(done)) as D3.
    simpl in *. clear C1 C2 C3 C4. destruct (is_futex ch0); [split; intros; done || lia|].
    destruct (Hz eq_refl). split; intros; lia.
  - pose proof (count_update2 waits_lock _ i j _ (WRet MUGGLE_OK) _ (Load p) H H1 ltac:(done)) as D1.
    pose proof (count_update2 lock_sleeps _ i j _ (WRet MUGGLE_OK) _ (Load p) H H1 ltac:(done)) as D2.
    pose proof (count_update2 tries_lock _ i j _ (WRet MUGGLE_OK) _ (Load p) H H1 ltac:(done)) as D3.
    pose proof (count_update2 wakes_lock _ i j _ (WRet MUGGLE_OK) _ (Load p) H H1 ltac:(done)) as D4.
    simpl in *. clear C1 C2 C3 C4. destruct (is_futex ch0); [split; intros; done || lia|].
    destruct (Hz eq_refl). split; intros; lia.
Qed.

Lemma reachable_lock_awake c : reachable c -> lock_awake c.
Proof.
  apply (rtc_invariant step lock_awake).
  - assert (forall f, f Idle = false -> count f (replicate n Idle) = 0%nat) as Hz.
    { intros f Hf. apply count_zero. intros i t Hi. by apply lookup_replicate in Hi as [-> _]. }
    split; simpl; rewrite Hz by done; lia.
  - intros c1 c2 Hr IH Hs. by eapply lock_awake_step.
Qed.

(** A reader asleep while the channel holds something is about to be woken. *)
Context (Hfn : fn_read ch0 = muggle_channel_read_futex -> fn_wake ch0 = muggle_channel_wake_futex).

Definition futex_waits (t : pc) : bool := match t with Wait _ _ | Sleep _ => true | _ => false end.

Lemma waits_futex c i t :
  reachable c -> threads c !! i = Some t -> futex_waits t = true -> fn_read ch0 = muggle_channel_read_futex.
Proof.
  intros Hr. revert i t. revert c Hr. apply (rtc_invariant step (fun c => forall i t,
    threads c !! i = Some t -> futex_waits t = true -> fn_read ch0 = muggle_channel_read_futex)).
  - intros i t Hi. by apply lookup_replicate in Hi as [-> _].
  - intros c c' Hr IH Hs i t Hi Ht. destruct (reachable_static _ Hr) as (_ & _ & Hfr & _).
    destruct (chan_step_moves _ _ _ _ Hs Hi) as [Hi'|(t0 & Hi' & Hm)]; [by eapply IH|].
    destruct Hm as [| | | | | | | | | | | |r t' [-> | ->]| | | | | | | | | | | ]; try done; [congruence|by eapply IH].
Qed.

Definition reader_awake (c : conf) : Prop :=
  (0 < count reader_sleeps (threads c))%nat -> wlog c = rlog c \/ (0 < count wakes_reader (threads c))%nat.

Lemma sleeper_alone c i t : reachable c -> threads c !! i = Some t -> reading t = true ->
  reader_sleeps t = false -> count reader_sleeps (threads c) = 0%nat.
Proof.
  intros Hr Hi Ht Hs. apply count_zero. intros j u Hj. destruct (reader_sleeps u) eqn:Hu; [|done].
  assert (j = i) as -> by (eapply (one_reader c j i u t); try done; by destruct u). congruence.
Qed.

Lemma sleep_empty c i p w : reachable c -> threads c !! i = Some (Wait p w) -> write_cursor (chan c) = w ->
  wlog c = rlog c.
Proof.
  intros Hr Hi Hw. destruct (reachable_inv c Hr) as (nw & nr & l & [Hwc _ Hn Hlog Hl _ _ Hkn]).
  destruct (Hkn _ _ Hi) as [-> Hmod]. pose proof cap_range. pose proof (zlen_nonneg l).
  rewrite <- Hw, Hwc, i32_mod in Hmod by lia. apply mod_eq_close in Hmod; [|lia|lia].
  destruct l as [|x l]; [by rewrite app_nil_r in Hlog|]. rewrite zlen_cons in Hn. pose proof (zlen_nonneg l). lia.
Qed.

Lemma reader_awake_step c c' : reachable c -> reader_awake c -> step c c' -> reader_awake c'.
Proof.
  intros Hr Hc Hs. pose proof (sleeper_alone c) as Halone. pose proof (sleep_empty c) as Hempty.
  pose proof (waits_futex c) as Hwf. destruct (reachable_static _ Hr) as (_ & _ & _ & Hwk).
  assert (reachable c') as Hr' by (by eapply rtc_r).
  pose proof (fun j t => sleeper_alone c' j t Hr') as Hal'. clear Hr'.
  unfold reader_awake in *. destruct Hs as [Hs|Hs]; destruct Hs; try congruence; simpl in *;
    match goal with
    | Hi : threads _ !! ?i = Some ?t0 |- context [<[?i := ?t]> (threads ?c)] =>
        pose proof (count_update reader_sleeps (threads c) i t0 t Hi) as C1;
        pose proof (count_update wakes_reader (threads c) i t0 t Hi) as C2; simpl in C1, C2
    end; intros Hk';
    try (destruct Hc as [Hc|Hc]; [lia|by left|right; lia]).
  - right. lia.
  - destruct (is_futex _); simpl in *; (destruct Hc as [Hc|Hc]; [lia|by left|right; lia]).
  - pose proof (count_update2 reader_sleeps _ i j _ (Wake r) _ (Lock d) H H0 ltac:(done)) as D1.
    pose proof (count_update2 wakes_reader _ i j _ (Wake r) _ (Lock d) H H0 ltac:(done)) as D2.
    simpl in D1, D2. destruct Hc as [Hc|Hc]; [lia|by left|right; lia].
  - exfalso. specialize (Hal' j (Load p)). simpl in Hal'. rewrite Hal' in Hk'; [lia| |done|done].
    rewrite list_lookup_insert_eq; [done|]. rewrite length_insert. by eapply lookup_lt_Some.
  - destruct (Z.eqb_spec r MUGGLE_OK) as [->|Hr0']; simpl in *; [|destruct Hc as [Hc|Hc]; [lia|by left|right; lia]].
    exfalso. assert (0 < count reader_sleeps (threads c))%nat as Hpos by lia.
    destruct (proj1 (count_pos _ _) Hpos) as (j & u & Hj & Hu).
    assert (fn_wake ch0 = muggle_channel_wake_futex) as Hfw by (apply Hfn, (Hwf j u Hr Hj); by destruct u).
    rewrite H0 in Hpos; [lia|done|congruence].
  - exfalso. rewrite (Halone i (Bump d)) in C1 by done. lia.
  - left. by eapply Hempty.
Qed.

Lemma reachable_reader_awake c : reachable c -> reader_awake c.
Proof.
  apply (rtc_invariant step reader_awake); [by left|].
  intros c1 c2 Hr IH Hs. by eapply reader_awake_step.
Qed.

(** When no thread can go on, the threads are outside a call, and the reader may
    wait for a message while there is none. *)
Lemma stuck_quiet c :
  reachable c -> (forall c', ~ run_step c c') ->
  forall i t, threads c !! i = Some t ->
    t = Idle \/ ((exists p, t = Sleep p \/ t = Load p) /\ wlog c = rlog c).
Proof.
  intros Hr Hstuck. destruct (reachable_inv c Hr) as (nw & nr & l & HI). pose proof cap_range.
  pose proof (w_pos_eq _ _ _ _ Hr HI) as Hwp. pose proof HI as [Hwc _ Hn Hlog Hl Hb Hring Hkn].
  destruct (reachable_lock_awake c Hr) as [Hfx Haw]. pose proof (reachable_reader_awake c Hr) as Hra.
  destruct (reachable_static _ Hr) as (_ & Hfw & Hfr & Hfk).
  assert (forall i t, threads c !! i = Some t -> match t with
    | Idle | Sleep _ | Load _ | LockSleep _ | Lock _ => True | _ => False end) as Hq.
  { intros i t Hi. pose proof (Hkn _ _ Hi) as Ht. destruct t; try done; exfalso; simpl in Ht.
    - destruct (locked c) eqn:E; eapply Hstuck; [by eapply s_lock_sleep|by eapply s_lock_again].
    - destruct (is_full (chan c)) eqn:E; eapply Hstuck; [by eapply s_full|by eapply s_room].
    - eapply Hstuck, s_store; [done|]. rewrite Hwp. apply aset_zinsert.
      pose proof (Z.mod_pos_bound nw cap ltac:(lia)). lia.
    - eapply Hstuck. by eapply s_publish.
    - destruct (uses_lock (chan c)) eqn:E; eapply Hstuck; [by eapply s_unlock|by eapply s_no_unlock].
    - destruct (decide (count lock_sleeps (threads c) = 0%nat)) as [E|E]; [eapply Hstuck; by eapply s_unlock_wake_none|].
      destruct (proj1 (count_pos lock_sleeps (threads c))) as (j & u & Hj & Hu); [lia|].
      destruct u; try done. eapply Hstuck. by eapply s_unlock_wake.
    - destruct (decide (ret = MUGGLE_OK /\ fn_wake (chan c) = muggle_channel_wake_futex /\
        count reader_sleeps (threads c) <> 0%nat)) as [(-> & Hf & E)|E].
      + destruct (proj1 (count_pos reader_sleeps (threads c))) as (j & u & Hj & Hu); [lia|].
        destruct u; try done. eapply Hstuck. by eapply s_wake.
      + eapply Hstuck, s_wake_none; [done|]. intros -> Hf.
        destruct (decide (count reader_sleeps (threads c) = 0%nat)); [done|]. tauto.
    - eapply Hstuck. by eapply s_write_return.
    - destruct Ht as [-> Hne]. destruct l as [|x l]; [done|].
      apply ring_at_cons in Hring as [Hx _]; [|lia]. eapply Hstuck, s_take; [done|]. by apply aget_Some.
    - eapply Hstuck. by eapply s_bump.
    - destruct (decide (write_cursor (chan c) = w)); eapply Hstuck; [by eapply s_sleep|by eapply s_wait_changed].
    - eapply Hstuck. by eapply s_read_return. }
  assert (uses_lock ch0 = true -> locked c = false) as Hnl.
  { intros Hul. pose proof (locked_count c Hul Hr) as Hc. destruct (locked c); [|done].
    rewrite count_zero in Hc; [done|]. intros j u Hj. specialize (Hq j u Hj). by destruct u. }
  assert (forall i d, threads c !! i = Some (Lock d) -> False) as Hnolock.
  { intros i d Hi. destruct (uses_lock ch0) eqn:Hul; eapply Hstuck;
      [eapply s_lock|eapply s_no_lock]; try done; try (by apply Hnl); unfold uses_lock in *; by rewrite Hfw. }
  intros i t Hi. pose proof (Hq i t Hi) as Hqt. destruct t; try done.
  - by left.
  - by destruct (Hnolock i d).
  - exfalso. assert (is_futex ch0 = true) as Hf.
    { apply Hfx, count_pos. by exists i, (LockSleep d). }
    rewrite Hnl in Haw by (unfold is_futex, uses_lock in *; by destruct (fn_write ch0)).
    rewrite (count_zero wakes_lock), (count_zero tries_lock) in Haw.
    + simpl in Haw. assert (0 < count lock_sleeps (threads c))%nat; [|lia]. apply count_pos. by exists i, (LockSleep d).
    + intros j u Hj. specialize (Hq j u Hj). destruct u; try done. by destruct (Hnolock j d0).
    + intros j u Hj. specialize (Hq j u Hj). by destruct u.
  - right. pose proof (Hkn _ _ Hi) as Ht. simpl in Ht. split; [eauto|].
    destruct (decide (w_pos (chan c) = r_pos0)) as [E|E]; [|exfalso; eapply Hstuck; by eapply s_load].
    rewrite Hwp, Ht in E. pose proof (zlen_nonneg l). apply mod_eq_close in E; [|lia|lia].
    destruct l as [|x l]; [by rewrite app_nil_r in Hlog|]. rewrite zlen_cons in Hn. pose proof (zlen_nonneg l). lia.
  - right. split; [eauto|]. destruct Hra as [?|Hw]; [apply count_pos; by exists i, (Sleep r_pos0)|done|].
    exfalso. rewrite count_zero in Hw; [lia|]. intros j u Hj. specialize (Hq j u Hj). by destruct u.
Qed.
End proofs.

(** ** A scheduler, to run concrete interleavings *)

Definition first_in (f : pc -> bool) (ts : list pc) : option (nat * pc) := list_find (fun t => f t = true) ts.

(** The next step of thread [i]; it wakes the first sleeper. *)
Definition thread_step (i : nat) (c : conf) : option conf :=
  match threads c !! i with
  | Some (Lock d) =>
      if uses_lock (chan c) then
        if locked c then if is_futex (chan c) then Some (goto c i (LockWait d)) else None
        else Some (lock true (goto c i (Full d)))
      else Some (goto c i (Full d))
  | Some (LockWait d) => Some (goto c i (if locked c then LockSleep d else Lock d))
  | Some (Full d) => Some (goto c i (if is_full (chan c) then Unlock MUGGLE_ERR_FULL else Store d))
  | Some (Store d) =>
      match aset (blocks (chan c)) (w_pos (chan c)) d with
      | Done b => Some (with_chan (set_blocks b (chan c)) (goto c i (Publish d)))
      | _ => None
      end
  | Some (Publish d) =>
      Some (mkc (set_write_cursor (i32 (write_cursor (chan c) + 1)) (chan c)) (locked c)
        (<[i := Unlock MUGGLE_OK]> (threads c)) (wlog c ++ [d]) (rlog c))
  | Some (Unlock r) =>
      Some (if uses_lock (chan c)
            then lock false (goto c i (if is_futex (chan c) then UnlockWake r else Wake r))
            else goto c i (Wake r))
  | Some (UnlockWake r) =>
      match first_in lock_sleeps (threads c) with
      | Some (j, LockSleep d) => Some (goto (goto c i (Wake r)) j (Lock d))
      | _ => Some (goto c i (Wake r))
      end
  | Some (Wake r) =>
      if decide (r = MUGGLE_OK /\ fn_wake (chan c) = muggle_channel_wake_futex) then
        match first_in reader_sleeps (threads c) with
        | Some (j, Sleep p) => Some (goto (goto c i (WRet r)) j (Load p))
        | _ => Some (goto c i (WRet r))
        end
      else Some (goto c i (WRet r))
  | Some (WRet _) => Some (goto c i Idle)
  | Some (Load p) =>
      if decide (w_pos (chan c) = p) then
        if decide (fn_read (chan c) = muggle_channel_read_futex)
        then Some (goto c i (Wait p (write_cursor (chan c)))) else None
      else Some (goto c i (Take p))
  | Some (Take p) => match aget (blocks (chan c)) p with Done d => Some (goto c i (Bump d)) | _ => None end
  | Some (Bump d) =>
      Some (mkc (set_read_cursor (i32 (read_cursor (chan c) + 1)) (chan c)) (locked c)
        (<[i := RRet d]> (threads c)) (wlog c) (rlog c ++ [d]))
  | Some (Wait p w) => Some (goto c i (if decide (write_cursor (chan c) = w) then Sleep p else Load p))
  | Some (RRet _) => Some (goto c i Idle)
  | _ => None
  end.

(** An entry of a schedule: a call, the next step of a thread, or a failure of
    its compare-and-swap although the lock is free. *)
Inductive move : Type := Call_write (d : ptr) | Call_read | Run | Weak_fail.

Definition do_move (i : nat) (m : move) (c : conf) : option conf :=
  match m, threads c !! i with
  | Call_write d, Some Idle => Some (goto c i (Lock d))
  | Call_read, Some Idle => Some (goto c i (Load (r_pos (chan c))))
  | Run, _ => thread_step i c
  | Weak_fail, Some (Lock d) =>
      if is_futex (chan c) && negb (locked c) then Some (goto c i (Full d)) else None
  | _, _ => None
  end.

Fixpoint exec (l : list (nat * move)) (c : conf) : option conf :=
  match l with
  | [] => Some c
  | (i, m) :: l' => match do_move i m c with Some c' => exec l' c' | None => None end
  end.

Lemma first_in_none f ts : first_in f ts = None -> count f ts = 0%nat.
Proof.
  intros E. apply count_zero. intros j t Hj. apply list_find_None in E. rewrite list.Forall_forall in E.
  apply not_true_is_false, E, list_elem_of_lookup. by exists j.
Qed.

Lemma chan_thread_step_sound i c c' : thread_step i c = Some c' -> run_step c c'.
Proof.
  unfold thread_step. destruct (threads c !! i) as [t|] eqn:Hi; [|done].
  destruct t; try done.
  - destruct (uses_lock (chan c)) eqn:Hu; [|intros [= <-]; by apply s_no_lock].
    destruct (locked c) eqn:Hl; [|intros [= <-]; by apply s_lock].
    destruct (is_futex (chan c)) eqn:Hf; intros [= <-]. by apply s_lock_taken.
  - destruct (locked c) eqn:Hl; intros [= <-]; [by apply s_lock_sleep|by apply s_lock_again].
  - destruct (is_full (chan c)) eqn:Hl; intros [= <-]; [by eapply s_full|by apply s_room].
  - destruct (aset _ _ _) eqn:Ha; intros [= <-]. by apply s_store.
  - intros [= <-]. by apply s_publish.
  - destruct (uses_lock (chan c)) eqn:Hu; intros [= <-]; [by apply s_unlock|by apply s_no_unlock].
  - destruct (first_in _ _) as [[j t]|] eqn:E.
    + apply list_find_Some in E as (Hj & Ht & _). destruct t; try done. intros [= <-]. by apply s_unlock_wake.
    + intros [= <-]. apply s_unlock_wake_none; [done|by apply first_in_none].
  - case_decide as Hd; [destruct Hd as [-> Hf]|intros [= <-]; apply s_wake_none; [done|tauto]].
    destruct (first_in _ _) as [[j t]|] eqn:E.
    + apply list_find_Some in E as (Hj & Ht & _). destruct t; try done. intros [= <-]. by apply s_wake.
    + intros [= <-]. apply s_wake_none; [done|]. intros _ _. by apply first_in_none.
  - intros [= <-]. by eapply s_write_return.
  - case_decide; [case_decide|]; intros [= <-]; [by apply s_empty|by apply s_load].
  - destruct (aget _ _) eqn:Ha; intros [= <-]. by eapply s_take.
  - intros [= <-]. by apply s_bump.
  - case_decide; intros [= <-]; [by eapply s_sleep|by eapply s_wait_changed].
  - intros [= <-]. by eapply s_read_return.
Qed.

(** What a schedule asks of the clients and of the compare-and-swap. *)
Definition allowed (weak : bool) (writes reads : nat -> Prop) (e : nat * move) : Prop :=
  match e.2 with
  | Call_write _ => writes e.1 | Call_read => reads e.1 | Run => True | Weak_fail => weak = true
  end.

Lemma do_move_sound weak writes reads i m c c' :
  allowed weak writes reads (i, m) -> do_move i m c = Some c' -> step weak writes reads c c'.
Proof.
  intros Ha Hm. destruct m; simpl in Ha, Hm; [..|left; by eapply chan_thread_step_sound|];
    (destruct (threads c !! i) as [[]|] eqn:Hi; try done); right.
  - injection Hm as <-. by apply s_write.
  - injection Hm as <-. by apply s_read.
  - destruct (is_futex (chan c)) eqn:Hf, (locked c) eqn:Hl; try done. injection Hm as <-. by apply s_weak.
Qed.

Lemma chan_exec_sound weak writes reads l : forall c c',
  Forall (allowed weak writes reads) l -> exec l c = Some c' -> rtc (step weak writes reads) c c'.
Proof.
  induction l as [|[i m] l IH]; intros c c' Hall; simpl; [by intros [= ->]|].
  apply Forall_cons in Hall as [Ha Hall]. destruct (do_move i m c) as [c1|] eqn:E; [|done].
  intros Hl. eapply rtc_l; [by eapply do_move_sound|]. by apply IH.
Qed.

(** ** Theorems *)

(** A channel as it is set up for 2 to 2^30 messages. *)
Lemma channel_init_spec `{Malloc ptr} cap0 flags ch :
  2 <= cap0 <= 2 ^ 30 -> muggle_channel_init MUGGLE_OK cap0 flags = inr ch ->
  exists k, 1 <= k <= 30 /\ cap0 <= 2 ^ k /\ capacity ch = 2 ^ k /\ zlen (blocks ch) = 2 ^ k /\
    write_cursor ch = 0 /\ read_cursor ch = 2 ^ k - 1 /\
    (fn_read ch = muggle_channel_read_futex -> fn_wake ch = muggle_channel_wake_futex).
Proof.
  intros Hc Hi. exists (Z.log2_up cap0).
  assert (1 <= Z.log2_up cap0 <= 30) as Hk.
  { split; [apply (Z.log2_up_le_mono 2 cap0)|apply (Z.log2_up_le_mono cap0 (2 ^ 30))]; lia. }
  pose proof (Z.pow_pos_nonneg 2 (Z.log2_up cap0) ltac:(lia) ltac:(lia)).
  assert (2 ^ Z.log2_up cap0 <= 2 ^ 30) by (apply Z.pow_le_mono_r; lia).
  assert (cap0 <= 2 ^ Z.log2_up cap0) by (apply Z.log2_up_spec; lia).
  revert Hi. unfold muggle_channel_init. destruct (Z.leb_spec cap0 0); [lia|].
  rewrite (wrap_small 64 cap0), next_pow_of_2_log2_up by lia.
  rewrite (swrap_small 32) by lia.
  destruct (Z.leb_spec (2 ^ Z.log2_up cap0) 0); [lia|]. simpl.
  destruct (malloc_cells _) as [l|] eqn:E; [|done]. apply malloc_cells_len in E.
  destruct (negb (Z.land flags MUGGLE_CHANNEL_FLAG_READ_BUSY_LOOP =? 0));
    intros [= <-]; simpl; unfold zlen in *; rewrite length_replicate; split_and!; lia || done.
Qed.

(** The reader returns the message it took last. *)
Definition returns_last (c : conf) : Prop :=
  forall i d, threads c !! i = Some (RRet d) -> last (rlog c) = Some d.

Lemma reachable_returns ch n writes reads rd c :
  (forall i, reads i -> i = rd) -> reachable false writes reads ch n c -> returns_last c.
Proof.
  intros Hrd. apply (rtc_invariant _ returns_last).
  { intros i d Hi. by apply lookup_replicate in Hi as [? _]. }
  intros c1 c2 Hr IH Hs i d Hi.
  destruct (step_cases writes reads _ _ Hs) as [(j & e & b & Hj & _ & ->)|[(j & e & Hj & ->)|[(j & e & Hj & ->)|Hq]]];
    simpl in *.
  - destruct (lookup_update _ j i _ _ _ Hj Hi) as [[_ ?]|[_ Hi']]; [done|by apply (IH i)].
  - destruct (lookup_update _ j i _ _ _ Hj Hi) as [[_ ?]|[_ Hi']]; [done|by apply (IH i)].
  - rewrite last_snoc. destruct (lookup_update _ j i _ _ _ Hj Hi) as [[_ [= ->]]|[Hne Hi']]; [done|].
    destruct Hne. eapply one_reader; by eauto.
  - destruct Hq as (_ & _ & -> & Hk).
    destruct (chan_step_moves writes reads _ _ _ _ Hs Hi) as [Hi'|(t & Hi' & Hm)]; [by apply (IH i)|].
    inversion Hm; subst; [naive_solver|]. rewrite (Hk i d), Hi' in Hi by auto. done.
Qed.

(** Only the futex lock takes a compare-and-swap: in a channel with another lock,
    or with none, there is none to fail. *)
Lemma reachable_strong weak ch n writes reads c :
  (weak = true -> is_futex ch = false) -> reachable weak writes reads ch n c -> reachable false writes reads ch n c.
Proof.
  intros Hw Hr. cut (reachable false writes reads ch n c /\ fn_write (chan c) = fn_write ch); [tauto|].
  revert c Hr. apply (rtc_invariant (step weak writes reads)
    (fun c => reachable false writes reads ch n c /\ fn_write (chan c) = fn_write ch)); [by split; [apply rtc_refl|]|].
  intros c c' _ [Hr Hf] Hs. assert (step false writes reads c c') as Hs'.
  { destruct Hs as [Hs|Hs]; [by left|]. inversion Hs; subst; [right; by constructor..|].
    unfold is_futex in *. rewrite Hf in *. rewrite Hw in *; done. }
  split; [by eapply rtc_r|]. by destruct (step_static writes reads _ _ Hs') as (_ & -> & _).
Qed.

Section theorems.
Context `{Malloc ptr}.
Context (cap0 flags : Z) (ch : muggle_channel) (Hcap0 : 2 <= cap0 <= 2 ^ 30).
Context (Hinit : muggle_channel_init MUGGLE_OK cap0 flags = inr ch).
Context (n : nat) (writes reads : nat -> Prop) (rd wr : nat).
Context (Hrd : forall i, reads i -> i = rd).
Context (Hwr : uses_lock ch = false -> forall i, writes i -> i = wr).

(** The compare-and-swap of the futex lock fails only when the lock is taken. *)
Context (weak : bool) (Hweak : weak = true -> is_futex ch = false).

(** C2: a channel of any kind (mutex, futex or single writer; futex or busy
    reader), set up for 2 to 2^30 messages and used by one reader and any number
    of writers (one, when set up so), is a FIFO queue under every interleaving
    of the accesses to the shared fields, also when the 32-bit cursors wrap,
    provided that the weak compare-and-swap of the futex lock fails only when the
    lock is taken (the mutex and the single writer use none, and nothing is asked
    of them; [channel_weak_lock_loses_message] is what a failure without a cause
    does):
    what was read is what was written first, in order, none lost and none read
    twice; a write is refused exactly when capacity - 2 messages are unread; a
    read returns the message it took; and at most one writer is between lock
    and unlock. *)
Theorem channel_fifo c :
  reachable weak writes reads ch n c ->
  (exists l, wlog c = rlog c ++ l /\ zlen l <= capacity ch - 2 /\
     (is_full (chan c) = true <-> zlen l = capacity ch - 2)) /\
  (forall i d, threads c !! i = Some (RRet d) -> last (rlog c) = Some d) /\
  (forall i j t u, threads c !! i = Some t -> threads c !! j = Some u ->
     holds t = true -> holds u = true -> i = j).
Proof.
  intros Hr%reachable_strong; [|done].
  destruct (channel_init_spec _ _ _ Hcap0 Hinit) as (k & Hk & _ & Hc & Hb & Hw & Hrc & _).
  split_and!.
  - destruct (reachable_inv k Hk ch n writes reads rd wr Hrd Hwr Hc Hb Hw Hrc c Hr) as (nw & nr & l & HI).
    exists l. rewrite Hc. split; [by eapply inv_log|]. split; [by eapply inv_len|]. by eapply is_full_iff.
  - by eapply reachable_returns.
  - intros i j t u Hi Hj Ht Hu. by eapply one_writer.
Qed.

(** C13: no wakeup of a channel is lost, provided that the weak compare-and-swap of
    the futex lock fails only when the lock is taken (nothing is asked of the
    channels with a mutex or a single writer): when no thread can go on by itself, every
    thread is outside a call, or it is the reader, waiting in its futex (or
    spinning) in a channel from which everything written was read.  In
    particular no writer is left asleep on the futex lock, and no thread
    accesses memory outside the blocks. *)
Theorem channel_progress c :
  reachable weak writes reads ch n c -> (forall c', ~ run_step c c') ->
  forall i t, threads c !! i = Some t ->
    t = Idle \/ ((exists p, t = Sleep p \/ t = Load p) /\ wlog c = rlog c).
Proof.
  intros Hr%reachable_strong; [|done].
  destruct (channel_init_spec _ _ _ Hcap0 Hinit) as (k & Hk & _ & Hc & Hb & Hw & Hrc & Hfn).
  by apply (stuck_quiet k Hk ch n writes reads rd wr Hrd Hwr Hc Hb Hw Hrc Hfn).
Qed.
End theorems.

(** ** Witnesses: a channel of capacity 4 with a futex lock, two writers (threads
    0 and 1) and a reader (thread 2). *)
Definition sample_channel : muggle_channel :=
  mkch 4 muggle_channel_write_futex muggle_channel_read_futex muggle_channel_wake_futex 0 3 [NULL; NULL; NULL; NULL].

Lemma sample_channel_init :
  @muggle_channel_init (malloc_zeroed NULL) MUGGLE_OK 3 MUGGLE_CHANNEL_FLAG_WRITE_FUTEX = inr sample_channel.
Proof. vm_compute. reflexivity. Qed.

Definition sample_writes (i : nat) : Prop := (i < 2)%nat.
Definition sample_reads (i : nat) : Prop := i = 2%nat.

Lemma sample_locks (wr : nat) : uses_lock sample_channel = false -> forall i, sample_writes i -> i = wr.
Proof. done. Qed.

Definition runs (i k : nat) : list (nat * move) := replicate k (i, Run).

(** The reader goes to sleep; writer 0 locks, writer 1 goes to sleep on the lock;
    writer 0 writes, wakes writer 1, then the reader; writer 1 writes, and the
    reader reads twice and waits again. *)
Definition sample_schedule : list (nat * move) :=
  (2%nat, Call_read) :: runs 2 2 ++ (0%nat, Call_write 70) :: runs 0 1 ++
  (1%nat, Call_write 71) :: runs 1 2 ++ runs 0 7 ++ runs 2 2 ++ runs 1 7 ++ runs 2 2 ++
  runs 1 1 ++ (2%nat, Call_read) :: runs 2 4 ++ (2%nat, Call_read) :: runs 2 2.

Definition sample_conf : conf :=
  mkc (mkch 4 muggle_channel_write_futex muggle_channel_read_futex muggle_channel_wake_futex 2 5 [70; 71; NULL; NULL])
    false [Idle; Idle; Sleep 2] [70; 71] [70; 71].

Lemma sample_channel_reachable :
  reachable false sample_writes sample_reads sample_channel 3 sample_conf.
Proof.
  apply (chan_exec_sound _ _ _ sample_schedule); [|vm_compute; reflexivity].
  unfold sample_schedule, runs, sample_writes, sample_reads. simpl. repeat constructor.
Qed.

Lemma channel_fifo_witness :
  exists l, wlog sample_conf = rlog sample_conf ++ l /\ zlen l <= 2.
Proof.
  destruct (@channel_fifo (malloc_zeroed NULL) 3 MUGGLE_CHANNEL_FLAG_WRITE_FUTEX sample_channel ltac:(lia)
    sample_channel_init 3 sample_writes sample_reads 2 0 ltac:(done) (sample_locks 0) false ltac:(done) sample_conf
    sample_channel_reachable) as [(l & Hl & Hc & _) _].
  exists l. split; [exact Hl|exact Hc].
Defined.

Lemma channel_progress_witness :
  threads sample_conf !! 2%nat = Some (Sleep 2) /\
  forall i t, threads sample_conf !! i = Some t ->
    t = Idle \/ ((exists p, t = Sleep p \/ t = Load p) /\ wlog sample_conf = rlog sample_conf).
Proof.
  split; [reflexivity|]. apply (@channel_progress (malloc_zeroed NULL) 3 MUGGLE_CHANNEL_FLAG_WRITE_FUTEX sample_channel ltac:(lia)
    sample_channel_init 3 sample_writes sample_reads 2 0 ltac:(done) (sample_locks 0) false ltac:(done) sample_conf
    sample_channel_reachable).
  intros c' Hs. inversion Hs; subst; simpl in *;
    repeat match goal with Hi : [_; _; _] !! ?i = Some _ |- _ => destruct i as [|[|[|?]]]; simplify_eq/= end.
Defined.

(** ** Where the promises end *)

(** The compare-and-swap of the futex lock may fail although the lock is free;
    the lock loop then ends without the lock.  Two writers write at once, both
    calls return MUGGLE_OK and the first message is lost: the reader gets the
    second one, and then a block that nobody wrote. *)
Example channel_weak_lock_loses_message :
  exists c, reachable true sample_writes sample_reads sample_channel 3 c /\
    threads c = [Idle; Idle; Idle] /\ wlog c = [70; 71] /\ rlog c = [71; NULL].
Proof.
  eexists. split.
  - apply (chan_exec_sound _ _ _ ([(0%nat, Call_write 70); (1%nat, Call_write 71); (0%nat, Weak_fail); (0%nat, Run);
      (0%nat, Run)] ++ runs 1 3 ++ runs 0 1 ++ runs 1 5 ++ runs 0 4 ++ (2%nat, Call_read) :: runs 2 4
      ++ (2%nat, Call_read) :: runs 2 4)); [|vm_compute; reflexivity].
    unfold runs, sample_writes, sample_reads. simpl. repeat constructor.
  - done.
Qed.

(** Of a channel of capacity 2 every write is refused. *)
Example channel_two_always_full :
  exists ch, @muggle_channel_init (malloc_zeroed NULL) MUGGLE_OK 2 0 = inr ch /\ is_full ch = true.
Proof. eexists. split; [vm_compute; reflexivity|done]. Qed.

(** In a channel of capacity 1 a write succeeds and the message is never read:
    the reader finds the channel empty. *)
Example channel_one_delivers_nothing :
  exists c, exec ((0%nat, Call_write 70) :: runs 0 7 ++ (2%nat, Call_read) :: runs 2 2)
    (start (mkch 1 muggle_channel_write_mutex muggle_channel_read_futex muggle_channel_wake_futex 0 0 [NULL]) 3) = Some c /\
    threads c = [Idle; Idle; Sleep 0] /\ wlog c = [70] /\ rlog c = [].
Proof. eexists. split; [vm_compute; reflexivity|done]. Qed.
End Channel.
