(* ===== verification/AsyncLogger.v ===== *)
(** muggle/c/log/log_async_logger.c with its channel and its thread: the calls of
    log from any number of threads, the messages they allocate, the channel at
    every access to its fields (Channel.v), and the thread that reads it, hands the
    messages to the handlers (Log.v) and frees them. *)

From Stdlib Require Import ZArith Lia String.
From stdpp Require Import base gmap list numbers relations.
From S2P Require Import Prelude BaseUtils Dsaa Ring Threads Str Path Log Channel.
Import Log Channel.

Open Scope Z_scope.

Module AsyncLogger.

(** [heap] are the messages that are allocated.  What follows is for the statements:
    the calls of log that allocated one, the messages in the order they entered
    the channel ([None] for the NULL of destroy), those the thread has dealt with,
    and what the handlers were given; [stopped] is whether the thread has ended. *)
Record conf := mka {
  cc : Channel.conf;
  heap : gmap ptr muggle_log_msg;
  logged : list call;
  sent : list (option muggle_log_msg);
  seen : list (option muggle_log_msg);
  out : list (nat * muggle_log_msg);
  stopped : bool
}.

(** What entered the channel. *)
Definition published (c c' : Channel.conf) : list ptr := drop (length (wlog c)) (wlog c').

Section logger.
(** The handlers and the logger as they are set up; the threads that log, and the
    thread of the logger. *)
Context (s : store) (logger : muggle_logger) (writes : nat -> Prop) (rd : nat).

Inductive step : conf -> conf -> Prop :=
(* muggle_async_logger_log, up to the call of muggle_channel_write *)
| a_log a i c m p :
    threads (cc a) !! i = Some Idle -> writes i -> async_log logger c = Some m -> p <> NULL -> heap a !! p = None ->
    step a (mka (goto (cc a) i (Lock p)) (<[p := m]> (heap a)) (logged a ++ [c]) (sent a) (seen a) (out a) (stopped a))
(* muggle_async_logger_destroy, up to the same call *)
| a_destroy a i :
    threads (cc a) !! i = Some Idle -> writes i ->
    step a (mka (goto (cc a) i (Lock NULL)) (heap a) (logged a) (sent a) (seen a) (out a) (stopped a))
(* inside a write or a read *)
| a_run a c' :
    Channel.step false (fun _ => False) (fun _ => False) (cc a) c' ->
    (forall d, threads (cc a) !! rd = Some (RRet d) -> threads c' !! rd = Some (RRet d)) ->
    step a (mka c' (heap a) (logged a) (sent a ++ ((heap a !!.) <$> published (cc a) c')) (seen a) (out a) (stopped a))
(* muggle_async_logger_run: the read, and what follows it *)
| a_read a :
    threads (cc a) !! rd = Some Idle -> stopped a = false ->
    step a (mka (goto (cc a) rd (Load (r_pos (chan (cc a))))) (heap a) (logged a) (sent a) (seen a) (out a) (stopped a))
| a_write a d m l :
    threads (cc a) !! rd = Some (RRet d) -> d <> NULL -> heap a !! d = Some m -> muggle_logger_write s logger m = Done l ->
    step a (mka (goto (cc a) rd Idle) (delete d (heap a)) (logged a) (sent a) (seen a ++ [Some m]) (out a ++ l) (stopped a))
| a_stop a :
    threads (cc a) !! rd = Some (RRet NULL) ->
    step a (mka (goto (cc a) rd Idle) (heap a) (logged a) (sent a) (seen a ++ [None]) (out a) true).

Definition init (ch : muggle_channel) (n : nat) : conf := mka (start ch n) ∅ [] [] [] [] false.
Definition reachable (ch : muggle_channel) (n : nat) (a : conf) : Prop := rtc step (init ch n) a.

(** ** Where the messages are *)

(** NULL is no message. *)
Definition nonnull (l : list ptr) : list ptr := filter (fun d => d <> NULL) l.

(** The message a thread is about to write, and the one the read returned. *)
Definition wheld (t : pc) : list ptr :=
  match t with
  | Lock d | LockWait d | LockSleep d | Full d | Store d | Publish d => nonnull [d]
  | _ => []
  end.
Definition writers (c : Channel.conf) : list ptr := threads c ≫= wheld.
Definition ret (c : Channel.conf) : list ptr := match threads c !! rd with Some (RRet d) => [d] | _ => [] end.
(** On the way to the handlers, in order. *)
Definition inflight (c : Channel.conf) : list ptr := ret c ++ drop (length (rlog c)) (wlog c).

Lemma Forall_nonnull (P : ptr -> Prop) l : Forall P l -> Forall P (nonnull l).
Proof. rewrite !list.Forall_forall. intros HP d Hd. apply list_elem_of_filter in Hd as [_ Hd]. by apply HP. Qed.

Lemma nonnull_app l1 l2 : nonnull (l1 ++ l2) = nonnull l1 ++ nonnull l2.
Proof. apply filter_app. Qed.

Lemma writers_update (ts : list pc) i t t' : ts !! i = Some t -> wheld t ++ (<[i := t']> ts ≫= wheld) ≡ₚ wheld t' ++ (ts ≫= wheld).
Proof.
  intros Hi. pose proof (lookup_lt_Some _ _ _ Hi). rewrite insert_take_drop by done.
  rewrite <- (take_drop_middle ts i t Hi) at 3. rewrite !bind_app, !bind_cons. solve_Permutation.
Qed.

(** A step inside the channel: what it publishes and takes, and what it refuses. *)
Definition effect (c c' : Channel.conf) : Prop :=
  exists dead pub got, wlog c' = wlog c ++ pub /\ rlog c' = rlog c ++ got /\ ret c' = ret c ++ got /\
    writers c ≡ₚ dead ++ nonnull pub ++ writers c'.

(** A thread moves and takes its message with it, or loses it. *)
Lemma effect_move c i t t' : threads c !! i = Some t -> (exists dead, wheld t ≡ₚ dead ++ wheld t') ->
  (forall d, t <> RRet d /\ t' <> RRet d) ->
  effect c (goto c i t').
Proof.
  intros Hi [dead Hw] Hr. exists dead, [], []. rewrite !app_nil_r. split_and!; [done|done| |].
  - unfold ret. simpl. destruct (decide (i = rd)) as [->|Hne]; [|by rewrite list_lookup_insert_ne].
    pose proof (lookup_lt_Some _ _ _ Hi). rewrite list_lookup_insert_eq, Hi by done.
    destruct t' as [| | | | | | | | | | | | | | | |d]; [..|by destruct (Hr d)];
    (destruct t as [| | | | | | | | | | | | | | | |e]; [..|by destruct (Hr e)]; done).
  - simpl. pose proof (writers_update (threads c) i t t' Hi) as Hu. unfold writers. simpl. rewrite Hw in Hu.
    apply (Permutation_app_inv_l (wheld t')). rewrite <- Hu. solve_Permutation.
Qed.

Lemma effect_trans c1 c2 c3 : effect c1 c2 -> effect c2 c3 -> effect c1 c3.
Proof.
  intros (d1 & p1 & g1 & Hw1 & Hr1 & Ht1 & H1) (d2 & p2 & g2 & Hw2 & Hr2 & Ht2 & H2).
  exists (d1 ++ d2), (p1 ++ p2), (g1 ++ g2). rewrite Hw2, Hr2, Ht2, Hw1, Hr1, Ht1, !(assoc_L (++)). split_and!; [done..|].
  rewrite H1, H2, nonnull_app. solve_Permutation.
Qed.

(** Locks and the fields of the channel are not part of it. *)
Lemma effect_same c c1 c2 : threads c1 = threads c2 -> wlog c1 = wlog c2 -> rlog c1 = rlog c2 -> effect c c1 -> effect c c2.
Proof. unfold effect, ret, writers. by intros -> -> ->. Qed.

Lemma effect_publish c i d ch :
  threads c !! i = Some (Publish d) -> effect c (mkc ch (locked c) (<[i := Unlock MUGGLE_OK]> (threads c)) (wlog c ++ [d]) (rlog c)).
Proof.
  intros Hi. exists [], [d], []. simpl. rewrite !app_nil_r. split_and!; [done|done| |].
  - unfold ret. simpl. destruct (decide (i = rd)) as [->|Hne]; [|by rewrite list_lookup_insert_ne].
    by rewrite list_lookup_insert_eq, Hi by (by eapply lookup_lt_Some).
  - unfold writers. simpl. by rewrite (writers_update (threads c) i (Publish d) (Unlock MUGGLE_OK) Hi).
Qed.

Lemma effect_bump c d ch :
  threads c !! rd = Some (Bump d) -> effect c (mkc ch (locked c) (<[rd := RRet d]> (threads c)) (wlog c) (rlog c ++ [d])).
Proof.
  intros Hi. exists [], [], [d]. simpl. rewrite !app_nil_r. split_and!; [done|done| |].
  - unfold ret. simpl. by rewrite list_lookup_insert_eq, Hi by (by eapply lookup_lt_Some).
  - unfold writers. simpl. symmetry. apply (writers_update (threads c) rd (Bump d) (RRet d) Hi).
Qed.

Lemma chan_effect c c' : Channel.step false (fun _ => False) (fun _ => False) c c' ->
  (forall i t, threads c !! i = Some t -> reading t = true -> i = rd) ->
  (forall d, threads c !! rd = Some (RRet d) -> threads c' !! rd = Some (RRet d)) -> effect c c'.
Proof.
  intros Hs Hrd Hret.
  assert (forall i t t', threads c !! i = Some t -> (exists dead, wheld t ≡ₚ dead ++ wheld t') ->
    (forall d, t <> RRet d /\ t' <> RRet d) -> effect c (goto c i t')) as Hmove by (intros; by eapply effect_move).
  destruct Hs as [Hs|Hs]; destruct Hs; try done; try (eapply Hmove; [done|by exists []|done]).
  - eapply Hmove; [done|exists (nonnull [d]); simpl; by rewrite app_nil_r|done].
  - by apply effect_publish.
  - apply (effect_same c (goto c i (if is_futex (chan c) then UnlockWake r else Wake r))); [done..|].
    destruct (is_futex (chan c)); (eapply Hmove; [done|by exists []|done]).
  - apply (effect_trans _ (goto c i (Wake r))); [eapply Hmove; [done|by exists []|done]|]. assert (i <> j) by congruence.
    eapply effect_move; [simpl; by rewrite list_lookup_insert_ne|by exists []|done].
  - apply (effect_trans _ (goto c i (WRet MUGGLE_OK))); [eapply Hmove; [done|by exists []|done]|]. assert (i <> j) by congruence.
    eapply effect_move; [simpl; by rewrite list_lookup_insert_ne|by exists []|done].
  - rewrite (Hrd i (Bump d)) in * by done. by apply effect_bump.
  - exfalso. rewrite (Hrd i (RRet d)) in * by done. specialize (Hret d ltac:(done)). simpl in Hret.
    by rewrite list_lookup_insert_eq in Hret by (by eapply lookup_lt_Some).
Qed.

(** ** The invariant *)

Section invariant.
(** The channel is set up for 2 to 2^30 messages. *)
Context `{Malloc ptr} (cap : Z) (ch : muggle_channel) (n : nat).
Context (Hcap : 2 <= cap <= 2 ^ 30) (Hinit : muggle_channel_init MUGGLE_OK cap 0 = inr ch).
Context (Hrd : ~ writes rd) (Hhs : Forall (fun x => is_Some (s !! x)) (handlers logger)).

Notation is_rd := (fun i => i = rd).

Lemma step_chan a a' : step a a' -> Channel.step false writes is_rd (cc a) (cc a').
Proof.
  destruct 1 as [a i c m p| |a c' Hs| | | ]; simpl; [right; by constructor|right; by constructor| |right; by constructor|left; by econstructor|left; by econstructor].
  destruct Hs as [Hs|Hs]; [by left|]. right. by destruct Hs; constructor.
Qed.

Lemma reachable_chan a : reachable ch n a -> Channel.reachable false writes is_rd ch n (cc a).
Proof.
  revert a. apply (rtc_invariant step (fun a => Channel.reachable false writes is_rd ch n (cc a))); [apply rtc_refl|].
  intros a a' _ IH Hs. eapply rtc_r; [exact IH|]. by apply step_chan.
Qed.

Lemma uses_lock_ch : uses_lock ch = true.
Proof.
  revert Hinit. unfold muggle_channel_init. repeat (case_match; try done). all: by intros [= <-].
Qed.

(** Read first is what was written first. *)
Lemma chan_queue c : Channel.reachable false writes is_rd ch n c -> wlog c = rlog c ++ drop (length (rlog c)) (wlog c).
Proof.
  intros Hr. destruct (channel_init_spec _ _ _ Hcap Hinit) as (k & Hk & _ & Hc & Hb & Hw & Hrc & _).
  assert (uses_lock ch = false -> forall i, writes i -> i = 0%nat) as Hwr by (by rewrite uses_lock_ch).
  destruct (reachable_inv k Hk ch n writes is_rd rd 0%nat ltac:(done) Hwr Hc Hb Hw Hrc c Hr) as (nw & nr & l & HI).
  rewrite (inv_log _ _ _ _ _ HI). by rewrite drop_app_length.
Qed.

Record inv (a : conf) : Prop := {
  i_sent : sent a = seen a ++ ((heap a !!.) <$> inflight (cc a));
  i_nodup : NoDup (nonnull (inflight (cc a)) ++ writers (cc a));
  i_live : Forall (fun d => is_Some (heap a !! d)) (nonnull (inflight (cc a)) ++ writers (cc a));
  i_null : heap a !! NULL = None;
  i_logged : omap id (sent a) ++ omap (heap a !!.) (writers (cc a)) ⊆+ (async_msg logger <$> logged a);
  i_out : out a = concat (deliver s (handlers logger) <$> omap id (seen a));
  i_seen : exists ms, seen a = (Some <$> ms) ++ (if stopped a then [None] else []);
  i_idle : stopped a = true -> threads (cc a) !! rd = Some Idle
}.

Lemma inv_init : inv (init ch n).
Proof.
  assert (writers (start ch n) = []) as Hw by (unfold writers; simpl; induction n; [done|done]).
  assert (inflight (start ch n) = []) as Hi.
  { unfold inflight, ret. simpl. destruct (replicate n Idle !! rd) as [t|] eqn:E; [|done]. by apply lookup_replicate in E as [-> _]. }
  split; simpl; rewrite ?Hw, ?Hi; try done; [apply NoDup_nil_2|by exists []].
Qed.

(** What is on its way is not touched by a new message, nor by freeing another. *)
Lemma look_insert (h : gmap ptr muggle_log_msg) p m l : p <> NULL -> h !! p = None -> Forall (fun d => is_Some (h !! d)) (nonnull l) ->
  (<[p := m]> h !!.) <$> l = (h !!.) <$> l.
Proof.
  intros Hp Hn Hl. apply list_fmap_ext. intros i d Hd. apply lookup_insert_ne. intros <-.
  rewrite list.Forall_forall in Hl. destruct (Hl p) as [x Hx]; [|congruence]. apply list_elem_of_filter. split; [done|]. by eapply list_elem_of_lookup_2.
Qed.

Lemma live_insert (h : gmap ptr muggle_log_msg) p m (l : list ptr) :
  Forall (fun d => is_Some (h !! d)) l -> Forall (fun d => is_Some (<[p := m]> h !! d)) l.
Proof.
  rewrite !list.Forall_forall. intros Hl d Hd. destruct (decide (d = p)) as [->|]; [by rewrite lookup_insert_eq|].
  rewrite lookup_insert_ne by done. by apply Hl.
Qed.

Lemma look_delete (h : gmap ptr muggle_log_msg) p (l : list ptr) : p ∉ l -> (delete p h !!.) <$> l = (h !!.) <$> l.
Proof. intros Hp. apply list_fmap_ext. intros i d Hd. apply lookup_delete_ne. intros <-. by apply Hp, list_elem_of_lookup_2 with i. Qed.

Lemma omap_look (h : gmap ptr muggle_log_msg) (l : list ptr) : omap (h !!.) l = omap id ((h !!.) <$> l).
Proof. induction l as [|d l IH]; [done|]. cbn. unfold id at 1. destruct (h !! d); [by f_equal|done]. Qed.

Lemma omap_nonnull (h : gmap ptr muggle_log_msg) l : h !! NULL = None -> omap (h !!.) (nonnull l) = omap (h !!.) l.
Proof.
  intros Hn. induction l as [|d l IH]; [done|]. unfold nonnull. rewrite filter_cons. destruct (decide (d <> NULL)) as [|Hd]; cbn.
  - destruct (h !! d); [by f_equal|done].
  - assert (d = NULL) as -> by (by destruct (decide (d = NULL))). by rewrite Hn.
Qed.

(** A thread begins a write. *)
Lemma writers_call c i p : threads c !! i = Some Idle -> writers (goto c i (Lock p)) ≡ₚ nonnull [p] ++ writers c.
Proof. intros Hi. unfold writers. simpl. apply (writers_update (threads c) i Idle (Lock p) Hi). Qed.

Lemma inflight_call c i p : writes i -> threads c !! i = Some Idle -> inflight (goto c i (Lock p)) = inflight c.
Proof. intros Hw Hi. unfold inflight, ret. simpl. rewrite list_lookup_insert_ne; [done|]. by intros ->. Qed.

Lemma inv_log a i c m p : inv a -> threads (cc a) !! i = Some Idle -> writes i -> async_log logger c = Some m -> p <> NULL -> heap a !! p = None ->
  inv (mka (goto (cc a) i (Lock p)) (<[p := m]> (heap a)) (logged a ++ [c]) (sent a) (seen a) (out a) (stopped a)).
Proof.
  intros [Hs Hnd Hl Hn Hlg Ho Hse Hid] Hi Hw Hm Hp Hf.
  pose proof (writers_call (cc a) i p Hi) as Hwr. unfold nonnull at 1 in Hwr. rewrite filter_cons_True in Hwr by done. simpl in Hwr.
  apply Forall_app in Hl as [Hl1 Hl2].
  assert (p ∉ nonnull (inflight (cc a)) ++ writers (cc a)) as Hfresh.
  { intros Hin. assert (is_Some (heap a !! p)) as [x Hx]; [|congruence]. revert p Hf Hp Hin Hwr. intros p Hf Hp Hin _.
    apply elem_of_app in Hin as [Hin|Hin]; [by eapply list.Forall_forall in Hl1|by eapply list.Forall_forall in Hl2]. }
  assert (m = async_msg logger c) as ->.
  { revert Hm. unfold async_log, muggle_async_logger_log. by destruct (_ >? _); intros [= <-]. }
  split; simpl; rewrite ?inflight_call by done; try done.
  - by rewrite look_insert.
  - rewrite Hwr. rewrite <- Permutation_middle. by constructor.
  - rewrite Hwr. apply Forall_app. split; [|constructor; [by rewrite lookup_insert_eq|]].
    all: by apply live_insert.
  - by rewrite lookup_insert_ne.
  - rewrite fmap_app, (omap_Permutation (<[p := async_msg logger c]> (heap a) !!.) _ _ Hwr). simpl. rewrite lookup_insert_eq.
    rewrite (omap_look (<[p:=_]> _)), look_insert, <- omap_look; [|done|done|].
    + rewrite <- Permutation_middle. rewrite (Permutation_app_comm (async_msg logger <$> logged a)). by apply submseteq_skip.
    + by apply Forall_nonnull.
  - intros Hst. specialize (Hid Hst). rewrite list_lookup_insert_ne; [done|]. by intros ->.
Qed.

Lemma inv_destroy a i : inv a -> threads (cc a) !! i = Some Idle -> writes i ->
  inv (mka (goto (cc a) i (Lock NULL)) (heap a) (logged a) (sent a) (seen a) (out a) (stopped a)).
Proof.
  intros [Hs Hnd Hl Hn Hlg Ho Hse Hid] Hi Hw. pose proof (writers_call (cc a) i NULL Hi) as Hwr. simpl in Hwr.
  split; simpl; rewrite ?inflight_call, ?Hwr by done; try done.
  intros Hst. specialize (Hid Hst). rewrite list_lookup_insert_ne; [done|]. by intros ->.
Qed.

(** A thread outside a call stays there. *)
Lemma idle_stays c c' : Channel.step false (fun _ => False) (fun _ => False) c c' -> threads c !! rd = Some Idle -> threads c' !! rd = Some Idle.
Proof.
  intros Hs Hi. destruct (threads c' !! rd) as [t|] eqn:E.
  - destruct (chan_step_moves (fun _ => False) (fun _ => False) c c' rd t Hs E) as [?|(t0 & Ht0 & Hm)]; [congruence|].
    rewrite Hi in Ht0. injection Ht0 as <-. by inversion Hm.
  - exfalso. apply lookup_ge_None in E. apply lookup_lt_Some in Hi. destruct Hs as [Hs|Hs]; destruct Hs; simpl in *; rewrite ?length_insert in E; lia.
Qed.

Lemma inv_run a c' : Channel.reachable false writes is_rd ch n (cc a) -> Channel.reachable false writes is_rd ch n c' -> inv a ->
  Channel.step false (fun _ => False) (fun _ => False) (cc a) c' ->
  (forall d, threads (cc a) !! rd = Some (RRet d) -> threads c' !! rd = Some (RRet d)) ->
  inv (mka c' (heap a) (logged a) (sent a ++ ((heap a !!.) <$> published (cc a) c')) (seen a) (out a) (stopped a)).
Proof.
  intros Hr Hr' [Hs Hnd Hl Hn Hlg Ho Hse Hid] Hst Hret.
  assert (forall i t, threads (cc a) !! i = Some t -> reading t = true -> i = rd) as Hroles.
  { intros i t Hi Ht. destruct (reachable_roles 1 ltac:(lia) ch n writes is_rd (cc a) i t Hr Hi) as [_ Hx]. by apply Hx. }
  destruct (chan_effect _ _ Hst Hroles Hret) as (dead & pub & got & Hw & Hrl & Hrt & Hp).
  assert (published (cc a) c' = pub) as -> by (unfold published; by rewrite Hw, drop_app_length).
  assert (inflight c' = inflight (cc a) ++ pub) as Hin.
  { unfold inflight. rewrite Hrt, <- !(assoc_L (++)). f_equal. pose proof (chan_queue _ Hr) as E. pose proof (chan_queue _ Hr') as E'.
    set (l := drop (length (rlog (cc a))) (wlog (cc a))) in *. set (l' := drop (length (rlog c')) (wlog c')) in *.
    rewrite Hw, E, Hrl, <- !(assoc_L (++)) in E'. by apply app_inv_head in E'. }
  assert (nonnull (inflight (cc a)) ++ writers (cc a) ≡ₚ dead ++ nonnull (inflight c') ++ writers c') as Hall.
  { rewrite Hin, nonnull_app, Hp. solve_Permutation. }
  rewrite Hall in Hnd, Hl. apply NoDup_app in Hnd as (_ & _ & Hnd). apply Forall_app in Hl as [_ Hl].
  split; simpl; try done.
  - by rewrite Hin, fmap_app, (assoc_L (++)), Hs.
  - rewrite omap_app, <- omap_look, <- (omap_nonnull _ pub) by done. etrans; [|exact Hlg].
    rewrite (omap_Permutation (heap a !!.) _ _ Hp), !omap_app. rewrite <- (assoc_L (++)). apply submseteq_app; [done|]. apply submseteq_inserts_l. done.
  - intros Hstop. eapply idle_stays; [done|by apply Hid].
Qed.

(** The thread of the logger between its reads holds no message to be written. *)
Lemma writers_reader c t t' : threads c !! rd = Some t -> wheld t = [] -> wheld t' = [] -> writers (goto c rd t') ≡ₚ writers c.
Proof. intros Hi H1 H2. pose proof (writers_update (threads c) rd t t' Hi) as Hu. by rewrite H1, H2 in Hu. Qed.

Lemma inflight_reader c t t' l : threads c !! rd = Some t -> ret (goto c rd t') = [] -> ret c = l ->
  inflight c = l ++ inflight (goto c rd t').
Proof. intros Hi H1 H2. unfold inflight. by rewrite H1, H2. Qed.

Lemma ret_goto c t t' : threads c !! rd = Some t -> ret (goto c rd t') = match t' with RRet d => [d] | _ => [] end.
Proof. intros Hi. unfold ret. simpl. by rewrite list_lookup_insert_eq by (by eapply lookup_lt_Some). Qed.

Lemma inv_read a : inv a -> threads (cc a) !! rd = Some Idle -> stopped a = false ->
  inv (mka (goto (cc a) rd (Load (r_pos (chan (cc a))))) (heap a) (logged a) (sent a) (seen a) (out a) (stopped a)).
Proof.
  intros [Hs Hnd Hl Hn Hlg Ho Hse Hid] Hi Hst. set (t' := Load _).
  pose proof (writers_reader (cc a) _ t' Hi eq_refl eq_refl) as Hw.
  assert (inflight (cc a) = inflight (goto (cc a) rd t')) as Hin.
  { apply (inflight_reader (cc a) Idle t' []); [done|by rewrite (ret_goto _ Idle)|]. unfold ret. by rewrite Hi. }
  rewrite Hin in *. split; simpl; rewrite ?Hw; try done. by rewrite Hst.
Qed.

Lemma inv_write a d m l : inv a -> threads (cc a) !! rd = Some (RRet d) -> d <> NULL -> heap a !! d = Some m ->
  muggle_logger_write s logger m = Done l ->
  inv (mka (goto (cc a) rd Idle) (delete d (heap a)) (logged a) (sent a) (seen a ++ [Some m]) (out a ++ l) (stopped a)).
Proof.
  intros [Hs Hnd Hl Hn Hlg Ho Hse Hid] Hi Hd Hm Hwrite.
  pose proof (writers_reader (cc a) _ Idle Hi eq_refl eq_refl) as Hw.
  assert (inflight (cc a) = [d] ++ inflight (goto (cc a) rd Idle)) as Hin.
  { apply (inflight_reader (cc a) (RRet d) Idle [d]); [done|by rewrite (ret_goto _ (RRet d))|]. unfold ret. by rewrite Hi. }
  set (c' := goto (cc a) rd Idle) in *. rewrite Hin in Hs, Hnd, Hl. rewrite nonnull_app in Hnd, Hl.
  unfold nonnull at 1 in Hnd. unfold nonnull at 1 in Hl. rewrite filter_cons_True in Hnd, Hl by done. simpl in Hnd, Hl.
  apply NoDup_cons in Hnd as [Hnin Hnd]. apply Forall_cons in Hl as [_ Hl]. rewrite <- Hw in Hnin, Hnd, Hl.
  assert (d ∉ inflight c') as Hn1.
  { intros Hx. apply Hnin, elem_of_app. left. by apply list_elem_of_filter. }
  assert (d ∉ writers c') as Hn2 by (intros Hx; apply Hnin, elem_of_app; by right).
  split; simpl; try done.
  - rewrite Hs, look_delete by done. simpl. by rewrite Hm, <- (assoc_L (++)).
  - rewrite list.Forall_forall in *. intros x Hx. rewrite lookup_delete_ne; [by apply Hl|]. by intros ->.
  - by rewrite lookup_delete_ne by done.
  - rewrite (omap_look (delete d _)), look_delete, <- omap_look by done. by rewrite Hw.
  - rewrite omap_app, fmap_app, concat_app, <- Ho. simpl. rewrite app_nil_r. f_equal.
    unfold muggle_logger_write in Hwrite. rewrite write_to_deliver in Hwrite by done. by injection Hwrite as <-.
  - destruct (stopped a) eqn:Hst; [by rewrite Hid in Hi|]. destruct Hse as [ms ->]. exists (ms ++ [m]). by rewrite fmap_app, !app_nil_r.
  - intros Hst. by rewrite Hid in Hi.
Qed.

Lemma inv_stop a : inv a -> threads (cc a) !! rd = Some (RRet NULL) ->
  inv (mka (goto (cc a) rd Idle) (heap a) (logged a) (sent a) (seen a ++ [None]) (out a) true).
Proof.
  intros [Hs Hnd Hl Hn Hlg Ho Hse Hid] Hi.
  pose proof (writers_reader (cc a) _ Idle Hi eq_refl eq_refl) as Hw.
  assert (inflight (cc a) = [NULL] ++ inflight (goto (cc a) rd Idle)) as Hin.
  { apply (inflight_reader (cc a) (RRet NULL) Idle [NULL]); [done|by rewrite (ret_goto _ (RRet NULL))|]. unfold ret. by rewrite Hi. }
  set (c' := goto (cc a) rd Idle) in *. rewrite Hin in Hs, Hnd, Hl. rewrite nonnull_app in Hnd, Hl. simpl in Hnd, Hl.
  split; simpl; rewrite ?Hw; try done.
  - rewrite Hs. simpl. by rewrite Hn, <- (assoc_L (++)).
  - rewrite omap_app. simpl. by rewrite app_nil_r.
  - destruct (stopped a) eqn:Hst; [by rewrite Hid in Hi|]. destruct Hse as [ms ->]. exists ms. by rewrite app_nil_r.
  - intros _. apply list_lookup_insert_eq. by eapply lookup_lt_Some.
Qed.

Lemma reachable_ainv a : reachable ch n a -> inv a.
Proof.
  revert a. apply (rtc_invariant step inv); [apply inv_init|]. intros a a' Hr IH Hs.
  pose proof (reachable_chan a Hr) as Hc. pose proof (reachable_chan a' (rtc_r _ _ _ Hr Hs)) as Hc'.
  destruct Hs; [by apply inv_log|by apply inv_destroy|by apply inv_run|by apply inv_read|by eapply inv_write|by apply inv_stop].
Qed.

Lemma omap_id_some {A} (l : list A) : omap id (Some <$> l) = l.
Proof. induction l as [|x l IH]; [done|]. cbn. by f_equal. Qed.

(** C4: an asynchronous logger that any number of threads log to, under every
    interleaving with its thread.  The message that a read returns is allocated, so
    that the thread never uses memory that was freed; what the thread has dealt
    with are the messages that entered the channel first, in that order and none
    twice, up to the NULL of destroy; the handlers were given exactly these, each
    to the handlers whose level it reaches; every message in the channel is that of
    a call of log, and no call has two.  When the thread waits for messages and
    nothing can move, all that entered the channel has been handed out. *)
Theorem async_logger_delivers a :
  reachable ch n a ->
  (forall d, threads (cc a) !! rd = Some (RRet d) -> d = NULL \/
     exists m l, heap a !! d = Some m /\ muggle_logger_write s logger m = Done l) /\
  (exists msgs rest, seen a = (Some <$> msgs) ++ (if stopped a then [None] else []) /\ sent a = seen a ++ rest /\
     out a = concat (deliver s (handlers logger) <$> msgs)) /\
  omap id (sent a) ⊆+ (async_msg logger <$> logged a) /\
  ((forall c', ~ run_step (cc a) c') -> (exists t, threads (cc a) !! rd = Some t /\ t <> Idle) -> seen a = sent a).
Proof.
  intros Hr. destruct (reachable_ainv a Hr) as [Hs Hnd Hl Hn Hlg Ho [ms Hse] Hid]. split_and!.
  - intros d Hi. destruct (decide (d = NULL)) as [|Hd]; [by left|]. right. rewrite list.Forall_forall in Hl. destruct (Hl d) as [m Hm].
    { apply elem_of_app. left. apply list_elem_of_filter. split; [done|]. unfold inflight, ret. rewrite Hi. apply elem_of_app. left. by apply list_elem_of_singleton. }
    exists m, (deliver s (handlers logger) m). split; [done|]. by apply write_to_deliver.
  - exists ms, ((heap a !!.) <$> inflight (cc a)). split_and!; [done|done|]. rewrite Ho, Hse, omap_app, omap_id_some.
    by destruct (stopped a); simpl; rewrite app_nil_r.
  - etrans; [|exact Hlg]. apply submseteq_inserts_r. done.
  - intros Hstuck (t & Ht & Hne). destruct (channel_init_spec _ _ _ Hcap Hinit) as (k & Hk & _ & Hc & Hb & Hw & Hrc & Hfn).
    assert (uses_lock ch = false -> forall i, writes i -> i = 0%nat) as Hwr by (by rewrite uses_lock_ch).
    destruct (stuck_quiet k Hk ch n writes is_rd rd 0%nat ltac:(done) Hwr Hc Hb Hw Hrc Hfn (cc a) (reachable_chan a Hr) Hstuck rd t Ht)
      as [?|[(p & Hp) Hq]]; [done|].
    rewrite Hs. unfold inflight, ret. rewrite Ht, Hq, drop_all. by destruct Hp as [-> | ->]; rewrite app_nil_r.
Qed.
End invariant.

(** ** A scheduler *)

#[local] Instance pc_eq_dec : EqDecision pc.
Proof. solve_decision. Defined.

(** A call of log with the address malloc gives, a call of destroy, or the next step
    of a thread; the thread of the logger reads and deals with what it read. *)
Inductive amove : Type := A_log (c : call) (p : ptr) | A_destroy | A_run.

Definition do_run (i : nat) (a : conf) : option conf :=
  match thread_step i (cc a) with
  | Some c' =>
      if decide (ret (cc a) = [] \/ threads c' !! rd = threads (cc a) !! rd) then
        Some (mka c' (heap a) (logged a) (sent a ++ ((heap a !!.) <$> published (cc a) c')) (seen a) (out a) (stopped a))
      else None
  | None => None
  end.

Definition do_amove (i : nat) (mv : amove) (a : conf) : option conf :=
  match mv with
  | A_log c p =>
      match async_log logger c with
      | Some m =>
          if decide (threads (cc a) !! i = Some Idle /\ p <> NULL /\ heap a !! p = None) then
            Some (mka (goto (cc a) i (Lock p)) (<[p := m]> (heap a)) (logged a ++ [c]) (sent a) (seen a) (out a) (stopped a))
          else None
      | None => None
      end
  | A_destroy =>
      if decide (threads (cc a) !! i = Some Idle) then
        Some (mka (goto (cc a) i (Lock NULL)) (heap a) (logged a) (sent a) (seen a) (out a) (stopped a))
      else None
  | A_run =>
      match (if decide (i = rd) then threads (cc a) !! rd else None) with
      | Some Idle =>
          if stopped a then None
          else Some (mka (goto (cc a) rd (Load (r_pos (chan (cc a))))) (heap a) (logged a) (sent a) (seen a) (out a) (stopped a))
      | Some (RRet d) =>
          if decide (d = NULL) then Some (mka (goto (cc a) rd Idle) (heap a) (logged a) (sent a) (seen a ++ [None]) (out a) true)
          else
            match heap a !! d with
            | Some m =>
                match muggle_logger_write s logger m with
                | Done l => Some (mka (goto (cc a) rd Idle) (delete d (heap a)) (logged a) (sent a) (seen a ++ [Some m]) (out a ++ l) (stopped a))
                | _ => None
                end
            | None => None
            end
      | _ => do_run i a
      end
  end.

Fixpoint aexec (l : list (nat * amove)) (a : conf) : option conf :=
  match l with
  | [] => Some a
  | (i, m) :: l' => match do_amove i m a with Some a' => aexec l' a' | None => None end
  end.

(** Calls are made by the threads that log. *)
Definition acalls (e : nat * amove) : Prop := match e.2 with A_run => True | _ => writes e.1 end.

Lemma run_sound i a a' : do_run i a = Some a' -> step a a'.
Proof.
  unfold do_run. destruct (thread_step i (cc a)) as [c'|] eqn:E; [|done]. destruct (decide _) as [Hd|]; [|done]. intros [= <-].
  apply a_run; [left; by eapply chan_thread_step_sound|]. intros d Hi. destruct Hd as [Hd|Hd]; [|by rewrite Hd].
  unfold ret in Hd. by rewrite Hi in Hd.
Qed.

Lemma do_amove_sound i mv a a' : acalls (i, mv) -> do_amove i mv a = Some a' -> step a a'.
Proof.
  unfold do_amove, acalls. destruct mv as [c p| |]; simpl; intros Hw.
  - destruct (async_log logger c) as [m|] eqn:E; [|done]. destruct (decide _) as [(Hi & Hp & Hf)|]; [|done]. intros [= <-]. by eapply a_log.
  - destruct (decide _); [|done]. intros [= <-]. by apply a_destroy.
  - destruct (decide (i = rd)) as [->|]; [|apply run_sound]. destruct (threads (cc a) !! rd) as [t|] eqn:Hi; [|apply run_sound].
    destruct t; try apply run_sound.
    + destruct (stopped a) eqn:Hst; [done|]. intros [= <-]. rewrite <- Hst. by apply a_read.
    + destruct (decide (d = NULL)) as [->|Hd]; [intros [= <-]; by apply a_stop|]. destruct (heap a !! d) as [m|] eqn:Hm; [|done].
      destruct (muggle_logger_write s logger m) as [l| |] eqn:Hl; try done. intros [= <-]. by apply a_write.
Qed.

Lemma aexec_sound l : forall a a', Forall acalls l -> aexec l a = Some a' -> rtc step a a'.
Proof.
  induction l as [|[i m] l IH]; intros a a' Hall; simpl; [by intros [= ->]|].
  apply Forall_cons in Hall as [Ha Hall]. destruct (do_amove i m a) as [a1|] eqn:E; [|done].
  intros Hl. eapply rtc_l; [by eapply do_amove_sound|]. by apply IH.
Qed.
End logger.

(** ** Runs: a logger with two handlers and a channel of 4 (2 messages), two threads
    that log (0 and 1) and the thread of the logger (2). *)
Definition sample_store : store := <[0%nat := handler_all]> (<[1%nat := handler_err]> ∅).
Definition sample_logger : muggle_logger :=
  match async_add_all sample_store (muggle_async_logger_init 0 0).2 [0%nat; 1%nat] with
  | Done r => r.2
  | _ => (muggle_async_logger_init 0 0).2
  end.
Definition sample_chan : muggle_channel :=
  mkch 4 muggle_channel_write_mutex muggle_channel_read_futex muggle_channel_wake_futex 0 3 [NULL; NULL; NULL; NULL].
Lemma sample_chan_init : @muggle_channel_init (malloc_zeroed NULL) MUGGLE_OK 3 0 = inr sample_chan.
Proof. vm_compute. reflexivity. Qed.

Definition sample_writes (i : nat) : Prop := (i < 2)%nat.
Definition sample_call (level : Z) : call := mkcall zero_msg (5, 6) 7 level here (chars "up").
Definition arun (i k : nat) : list (nat * amove) := replicate k (i, A_run).

Definition sample_init : conf := init sample_chan 3.
Definition run_sample (l : list (nat * amove)) : option conf := aexec sample_store sample_logger 2 l sample_init.

(** Thread 0 logs an error while thread 1 waits with an information; the logger's
    thread hands out both, in the order they were written. *)
Definition sample_log : list (nat * amove) :=
  arun 2 3 ++ (0%nat, A_log (sample_call MUGGLE_LOG_LEVEL_ERROR) 70) :: arun 0 3 ++
  (1%nat, A_log (sample_call MUGGLE_LOG_LEVEL_INFO) 71) :: arun 0 4 ++ arun 1 7 ++ arun 2 9.

Example sample_log_out :
  option_map (fun a => ((fun x => (x.1, msg_level x.2)) <$> out a, dom (heap a), threads (cc a))) (run_sample sample_log) =
    Some ([(0%nat, MUGGLE_LOG_LEVEL_ERROR); (1%nat, MUGGLE_LOG_LEVEL_ERROR); (0%nat, MUGGLE_LOG_LEVEL_INFO)], ∅, [Idle; Idle; Idle]).
Proof. vm_compute. reflexivity. Qed.

Lemma run_sample_reachable l a : Forall (acalls sample_writes) l -> run_sample l = Some a ->
  reachable sample_store sample_logger sample_writes 2 sample_chan 3 a.
Proof. apply aexec_sound. Qed.

(** The logger's thread is back in its read. *)
Definition sample_quiet : conf := default sample_init (run_sample (sample_log ++ arun 2 3)).
Lemma sample_quiet_run : run_sample (sample_log ++ arun 2 3) = Some sample_quiet.
Proof. vm_compute. reflexivity. Qed.
Lemma sample_log_calls : Forall (acalls sample_writes) (sample_log ++ arun 2 3).
Proof. unfold sample_log, arun, acalls, sample_writes. simpl. repeat constructor. Qed.

(** When two threads are outside a call and the third sleeps, no thread can go on. *)
Lemma asleep_stuck c p : threads c = [Idle; Idle; Sleep p] -> forall c', ~ run_step c c'.
Proof.
  intros Ht c' Hs. destruct Hs; rewrite Ht in *;
    repeat match goal with Hi : [_; _; _] !! ?i = Some _ |- _ => destruct i as [|[|[|?]]]; simplify_eq/= end.
Qed.

Lemma async_logger_delivers_witness :
  reachable sample_store sample_logger sample_writes 2 sample_chan 3 sample_quiet /\
  seen sample_quiet = sent sample_quiet /\ zlen (sent sample_quiet) = 2.
Proof.
  assert (reachable sample_store sample_logger sample_writes 2 sample_chan 3 sample_quiet) as Hr
    by exact (run_sample_reachable _ _ sample_log_calls sample_quiet_run).
  split; [exact Hr|]. split; [|vm_compute; reflexivity].
  destruct (@async_logger_delivers sample_store sample_logger sample_writes 2 (malloc_zeroed NULL) 3 sample_chan 3 ltac:(lia) sample_chan_init
    ltac:(unfold sample_writes; lia) ltac:(repeat constructor; by eexists) sample_quiet Hr) as (_ & _ & _ & Hq).
  apply Hq; [apply (asleep_stuck _ 2); vm_compute; reflexivity|]. exists (Sleep 2). split; [vm_compute; reflexivity|discriminate].
Defined.

(** ** Where the promises end *)

(** log and destroy ignore that the channel is full: the third message is lost and
    never freed, and so is the NULL of destroy, after which the thread of the logger
    waits for ever, and destroy with it. *)
Definition sample_full : list (nat * amove) :=
  (0%nat, A_log (sample_call MUGGLE_LOG_LEVEL_INFO) 70) :: arun 0 7 ++
  (0%nat, A_log (sample_call MUGGLE_LOG_LEVEL_INFO) 71) :: arun 0 7 ++
  (0%nat, A_log (sample_call MUGGLE_LOG_LEVEL_INFO) 72) :: arun 0 5 ++ (0%nat, A_destroy) :: arun 0 5 ++ arun 2 13.

Example async_destroy_lost :
  exists a, reachable sample_store sample_logger sample_writes 2 sample_chan 3 a /\ run_sample sample_full = Some a /\
    zlen (logged a) = 3 /\ zlen (out a) = 2 /\ dom (heap a) = {[72]} /\
    threads (cc a) = [Idle; Idle; Sleep 2] /\ (forall c', ~ run_step (cc a) c') /\ stopped a = false.
Proof.
  assert (exists a, run_sample sample_full = Some a) as [a E] by (eexists; vm_compute; reflexivity). exists a.
  split; [apply (run_sample_reachable sample_full); [unfold sample_full, arun, acalls, sample_writes; simpl; repeat constructor|exact E]|].
  split; [exact E|]. vm_compute in E. injection E as <-. split_and!; try (vm_compute; reflexivity). by apply (asleep_stuck _ 2).
Qed.
End AsyncLogger.
