(* ===== verification/RingBuffer.v ===== *)
(** muggle/c/sync/ring_buffer.{h,c}: a ring of messages with many writers and
    many readers.  A writer never waits for the readers: a reader gets every
    message as long as it is less than a ring behind.  The threads are
    interleaved at every access to a shared field. *)

From stdpp Require Import base list numbers relations.
From Stdlib Require Import ZArith Lia.
From S2P Require Import Prelude BaseUtils Dsaa Ring Threads.

Open Scope Z_scope.

Module RingBuffer.

Definition MUGGLE_RING_BUFFER_FLAG_SINGLE_WRITER : Z := 0x01.
Definition MUGGLE_RING_BUFFER_FLAG_SINGLE_READER : Z := 0x02.
Definition MUGGLE_RING_BUFFER_FLAG_WRITE_BUSY_LOOP : Z := 0x04.
Definition MUGGLE_RING_BUFFER_FLAG_READ_BUSY_LOOP : Z := 0x08.
Definition MUGGLE_RING_BUFFER_FLAG_MSG_READ_ONCE : Z := 0x10.

(** MUGGLE_RING_BUFFER_WRITE_MODE_* and MUGGLE_RING_BUFFER_READ_MODE_*. *)
Inductive write_mode_t : Type := WRITE_MODE_LOCK | WRITE_MODE_SINGLE | WRITE_MODE_BUSY_LOOP.
Inductive read_mode_t : Type :=
| READ_MODE_WAIT | READ_MODE_SINGLE_WAIT | READ_MODE_BUSY_LOOP | READ_MODE_LOCK.

#[export] Instance write_mode_eq_dec : EqDecision write_mode_t.
Proof. solve_decision. Defined.
#[export] Instance read_mode_eq_dec : EqDecision read_mode_t.
Proof. solve_decision. Defined.

Definition flag_set (flag bit : Z) : bool := negb (Z.land flag bit =? 0).

Definition muggle_ring_buffer_get_mode (flag : Z) : Z + write_mode_t * read_mode_t :=
  let w_mode :=
    if flag_set flag MUGGLE_RING_BUFFER_FLAG_SINGLE_WRITER then WRITE_MODE_SINGLE
    else if flag_set flag MUGGLE_RING_BUFFER_FLAG_WRITE_BUSY_LOOP then WRITE_MODE_BUSY_LOOP
    else WRITE_MODE_LOCK in
  if flag_set flag MUGGLE_RING_BUFFER_FLAG_SINGLE_READER then
    if flag_set flag MUGGLE_RING_BUFFER_FLAG_READ_BUSY_LOOP
    then inr (w_mode, READ_MODE_BUSY_LOOP)
    else inr (w_mode, READ_MODE_SINGLE_WAIT)
  else if flag_set flag MUGGLE_RING_BUFFER_FLAG_MSG_READ_ONCE then
    if flag_set flag MUGGLE_RING_BUFFER_FLAG_READ_BUSY_LOOP
    then inl MUGGLE_ERR_INVALID_PARAM
    else inr (w_mode, READ_MODE_LOCK)
  else
    if flag_set flag MUGGLE_RING_BUFFER_FLAG_READ_BUSY_LOOP
    then inr (w_mode, READ_MODE_BUSY_LOOP)
    else inr (w_mode, READ_MODE_WAIT).

(** The mutexes are part of the configuration below; [read_cv] is not used. *)
Record muggle_ring_buffer := mkrb {
  capacity : Z;
  flag : Z;
  write_mode : write_mode_t;
  read_mode : read_mode_t;
  next : Z;
  cursor : Z;
  read_cursor : Z;
  datas : list ptr
}.

Definition set_next (x : Z) (r : muggle_ring_buffer) : muggle_ring_buffer :=
  mkrb (capacity r) (flag r) (write_mode r) (read_mode r) x (cursor r) (read_cursor r) (datas r).
Definition set_cursor (x : Z) (r : muggle_ring_buffer) : muggle_ring_buffer :=
  mkrb (capacity r) (flag r) (write_mode r) (read_mode r) (next r) x (read_cursor r) (datas r).
Definition set_read_cursor (x : Z) (r : muggle_ring_buffer) : muggle_ring_buffer :=
  mkrb (capacity r) (flag r) (write_mode r) (read_mode r) (next r) (cursor r) x (datas r).
Definition set_datas (x : list ptr) (r : muggle_ring_buffer) : muggle_ring_buffer :=
  mkrb (capacity r) (flag r) (write_mode r) (read_mode r) (next r) (cursor r) (read_cursor r) x.

(** The first call of a list that failed, or [MUGGLE_OK]. *)
Fixpoint first_error (rets : list Z) : Z :=
  match rets with
  | [] => MUGGLE_OK
  | ret :: rets' => if negb (ret =? MUGGLE_OK) then ret else first_error rets'
  end.

(** [sync_init] are the results of the calls that set up the two mutexes and the
    condition variable. *)
Definition muggle_ring_buffer_init `{Malloc ptr} (sync_init : list Z) (capacity flag : Z)
  : Z + muggle_ring_buffer :=
  if capacity <=? 0 then inl MUGGLE_ERR_INVALID_PARAM
  else
    let capacity := i32 (next_pow_of_2 (u64 capacity)) in
    if capacity <=? 0 then inl MUGGLE_ERR_INVALID_PARAM
    else
      match muggle_ring_buffer_get_mode flag with
      | inl ret => inl ret
      | inr (write_mode, read_mode) =>
          let ret := first_error sync_init in
          if negb (ret =? MUGGLE_OK) then inl ret
          else
            match (malloc_cells capacity : option (list ptr)) with
            | None => inl MUGGLE_ERR_MEM_ALLOC
            | Some datas => inr (mkrb capacity flag write_mode read_mode 0 0 0 datas)
            end
      end.

(** ** The threads *)

(** Where a thread is: in a write of [d], in a read of message [n] ([idx] is [n]
    at 32 bits), or in a read of the next message (READ_MODE_LOCK).  A write
    that has its place in the ring is the write number [n]. *)
Inductive pc : Type :=
| Idle
| WBegin (d : ptr)               (* about to lock, or to take a number *)
| WStore (d : ptr)               (* about to write the cell of the cursor *)
| WPublish (n : Z) (d : ptr)     (* about to move the cursor *)
| WUnlock                        (* about to unlock *)
| WStoreAt (idx n : Z) (d : ptr) (* busy loop: about to write the cell of idx *)
| WCas (idx n : Z) (d : ptr)     (* busy loop: about to move the cursor *)
| Wake                           (* about to wake readers *)
| WRet
| RLoad (n r_pos : Z)            (* about to load the cursor *)
| RTake (n r_pos : Z)            (* about to read the cell *)
| RWait (n r_pos w_cursor : Z)   (* about to wait on the cursor *)
| RSleep (n r_pos : Z)           (* asleep on the cursor *)
| RRet (n : Z) (d : ptr)
| LLock                          (* about to lock *)
| LLoad                          (* about to load the cursor *)
| LTake (r_pos : Z)              (* about to read the cell *)
| LBump (ret : ptr)              (* about to move the read cursor *)
| LWait (w_cursor : Z)           (* about to wait on the cursor *)
| LSleep                         (* asleep on the cursor *)
| LUnlock (ret : ptr)            (* about to unlock *)
| LRet (ret : ptr).

Record conf := mkc {
  ring : muggle_ring_buffer;
  wlocked : bool;              (* write_mutex *)
  rlocked : bool;              (* read_mutex *)
  threads : list pc;
  wlog : list ptr;             (* published, in order *)
  rlog : list ptr              (* read under READ_MODE_LOCK, in order *)
}.

Definition goto (c : conf) (i : nat) (t : pc) : conf :=
  mkc (ring c) (wlocked c) (rlocked c) (<[i := t]> (threads c)) (wlog c) (rlog c).
Definition wlock (b : bool) (c : conf) : conf := mkc (ring c) b (rlocked c) (threads c) (wlog c) (rlog c).
Definition rlock (b : bool) (c : conf) : conf := mkc (ring c) (wlocked c) b (threads c) (wlog c) (rlog c).
Definition with_ring (r : muggle_ring_buffer) (c : conf) : conf :=
  mkc r (wlocked c) (rlocked c) (threads c) (wlog c) (rlog c).

(** The number of a write that has its place in the ring. *)
Definition claim (t : pc) : option Z :=
  match t with WPublish n _ | WStoreAt _ n _ | WCas _ n _ => Some n | _ => None end.

(** Writes published or under way. *)
Definition begun (c : conf) : Z := zlen (wlog c) + zlen (omap claim (threads c)).

Definition sleeps (t : pc) : bool := match t with RSleep _ _ | LSleep => true | _ => false end.
Definition woken (t : pc) : pc := match t with RSleep n p => RLoad n p | LSleep => LLoad | _ => t end.

Definition pos (r : muggle_ring_buffer) (idx : Z) : Z := IDX_IN_POW_OF_2_RING idx (capacity r).

(** [muggle_futex_wake_one], unless the mode is to wake all or none. *)
Definition wakes_one (r : muggle_ring_buffer) : bool :=
  match read_mode r with READ_MODE_SINGLE_WAIT | READ_MODE_LOCK => true | _ => false end.

(** What a thread does by itself. *)
Inductive run_step : conf -> conf -> Prop :=
| s_wlock c i d :
    threads c !! i = Some (WBegin d) -> write_mode (ring c) = WRITE_MODE_LOCK -> wlocked c = false ->
    run_step c (wlock true (goto c i (WStore d)))
| s_single c i d :
    threads c !! i = Some (WBegin d) -> write_mode (ring c) = WRITE_MODE_SINGLE ->
    run_step c (goto c i (WStore d))
| s_store c i d l :
    threads c !! i = Some (WStore d) -> aset (datas (ring c)) (pos (ring c) (cursor (ring c))) d = Done l ->
    run_step c (with_ring (set_datas l (ring c)) (goto c i (WPublish (zlen (wlog c)) d)))
| s_publish c i n d :
    threads c !! i = Some (WPublish n d) ->
    run_step c (mkc (set_cursor (i32 (cursor (ring c) + 1)) (ring c)) (wlocked c) (rlocked c)
      (<[i := WUnlock]> (threads c)) (wlog c ++ [d]) (rlog c))
| s_wunlock c i :
    threads c !! i = Some WUnlock -> write_mode (ring c) = WRITE_MODE_LOCK ->
    run_step c (wlock false (goto c i Wake))
| s_no_unlock c i :
    threads c !! i = Some WUnlock -> write_mode (ring c) <> WRITE_MODE_LOCK ->
    run_step c (goto c i Wake)
| s_number c i d :
    threads c !! i = Some (WBegin d) -> write_mode (ring c) = WRITE_MODE_BUSY_LOOP ->
    run_step c (with_ring (set_next (i32 (next (ring c) + 1)) (ring c))
      (goto c i (WStoreAt (next (ring c)) (begun c) d)))
| s_store_at c i idx n d l :
    threads c !! i = Some (WStoreAt idx n d) -> aset (datas (ring c)) (pos (ring c) idx) d = Done l ->
    run_step c (with_ring (set_datas l (ring c)) (goto c i (WCas idx n d)))
| s_cas c i idx n d :
    threads c !! i = Some (WCas idx n d) -> cursor (ring c) = idx ->
    run_step c (mkc (set_cursor (i32 (idx + 1)) (ring c)) (wlocked c) (rlocked c)
      (<[i := Wake]> (threads c)) (wlog c ++ [d]) (rlog c))
| s_wake_all c i :
    threads c !! i = Some Wake -> read_mode (ring c) = READ_MODE_WAIT ->
    run_step c (mkc (ring c) (wlocked c) (rlocked c) (woken <$> <[i := WRet]> (threads c)) (wlog c) (rlog c))
| s_wake_one c i j t :
    threads c !! i = Some Wake -> wakes_one (ring c) = true ->
    threads c !! j = Some t -> sleeps t = true ->
    run_step c (goto (goto c i WRet) j (woken t))
| s_wake_none c i :
    threads c !! i = Some Wake ->
    read_mode (ring c) = READ_MODE_BUSY_LOOP \/
      (wakes_one (ring c) = true /\ count sleeps (threads c) = 0%nat) ->
    run_step c (goto c i WRet)
| s_write_return c i : threads c !! i = Some WRet -> run_step c (goto c i Idle)
| s_load c i n p :
    threads c !! i = Some (RLoad n p) -> pos (ring c) (cursor (ring c)) <> p ->
    run_step c (goto c i (RTake n p))
| s_empty c i n p :
    threads c !! i = Some (RLoad n p) -> pos (ring c) (cursor (ring c)) = p ->
    read_mode (ring c) <> READ_MODE_BUSY_LOOP ->
    run_step c (goto c i (RWait n p (cursor (ring c))))
| s_take c i n p d :
    threads c !! i = Some (RTake n p) -> aget (datas (ring c)) p = Done d ->
    run_step c (goto c i (RRet n d))
| s_sleep c i n p w :
    threads c !! i = Some (RWait n p w) -> cursor (ring c) = w -> run_step c (goto c i (RSleep n p))
| s_wait_changed c i n p w :
    threads c !! i = Some (RWait n p w) -> cursor (ring c) <> w -> run_step c (goto c i (RLoad n p))
| s_read_return c i n d : threads c !! i = Some (RRet n d) -> run_step c (goto c i Idle)
| s_rlock c i :
    threads c !! i = Some LLock -> rlocked c = false -> run_step c (rlock true (goto c i LLoad))
| s_lload c i :
    threads c !! i = Some LLoad -> pos (ring c) (cursor (ring c)) <> pos (ring c) (read_cursor (ring c)) ->
    run_step c (goto c i (LTake (pos (ring c) (read_cursor (ring c)))))
| s_lempty c i :
    threads c !! i = Some LLoad -> pos (ring c) (cursor (ring c)) = pos (ring c) (read_cursor (ring c)) ->
    run_step c (goto c i (LWait (cursor (ring c))))
| s_ltake c i p d :
    threads c !! i = Some (LTake p) -> aget (datas (ring c)) p = Done d -> run_step c (goto c i (LBump d))
| s_lbump c i d :
    threads c !! i = Some (LBump d) ->
    run_step c (mkc (set_read_cursor (i32 (read_cursor (ring c) + 1)) (ring c)) (wlocked c) (rlocked c)
      (<[i := LUnlock d]> (threads c)) (wlog c) (rlog c ++ [d]))
| s_lsleep c i w :
    threads c !! i = Some (LWait w) -> cursor (ring c) = w -> run_step c (goto c i LSleep)
| s_lwait_changed c i w :
    threads c !! i = Some (LWait w) -> cursor (ring c) <> w -> run_step c (goto c i LLoad)
| s_runlock c i d :
    threads c !! i = Some (LUnlock d) -> run_step c (rlock false (goto c i (LRet d)))
| s_lread_return c i d : threads c !! i = Some (LRet d) -> run_step c (goto c i Idle).

(** The calls of the clients, and returns of futex_wait without a wake.  The
    first [nw] threads write.  A reader passes [idx] = [n] for a message [n] that
    is published or the next to be published, as it does when it starts at 0 and
    goes on by one after every read.  With [weak], the compare-and-swap may fail
    although the cursor is as expected: the loop
    [while (!cas(...) && cur_idx != idx)] then ends without moving it. *)
Inductive env_step (weak : bool) (nw : nat) (reads : nat -> Prop) : conf -> conf -> Prop :=
| s_write c i d :
    threads c !! i = Some Idle -> (i < nw)%nat -> env_step weak nw reads c (goto c i (WBegin d))
| s_read c i n :
    threads c !! i = Some Idle -> reads i -> read_mode (ring c) <> READ_MODE_LOCK ->
    0 <= n <= zlen (wlog c) ->
    env_step weak nw reads c (goto c i (RLoad n (pos (ring c) (i32 n))))
| s_read_lock c i :
    threads c !! i = Some Idle -> reads i -> read_mode (ring c) = READ_MODE_LOCK ->
    env_step weak nw reads c (goto c i LLock)
| s_spurious c i t :
    threads c !! i = Some t -> sleeps t = true -> env_step weak nw reads c (goto c i (woken t))
| s_weak c i idx n d :
    weak = true -> threads c !! i = Some (WCas idx n d) -> cursor (ring c) = idx ->
    env_step weak nw reads c (goto c i Wake).

Definition step (weak : bool) (nw : nat) (reads : nat -> Prop) (c c' : conf) : Prop :=
  run_step c c' \/ env_step weak nw reads c c'.

Definition start (r : muggle_ring_buffer) (nt : nat) : conf := mkc r false false (replicate nt Idle) [] [].
Definition reachable (weak : bool) (nw : nat) (reads : nat -> Prop) (r : muggle_ring_buffer) (nt : nat) (c : conf)
  : Prop := rtc (step weak nw reads) (start r nt) c.
(** ** Roles and mutual exclusion *)

Definition writing (t : pc) : bool :=
  match t with
  | WBegin _ | WStore _ | WPublish _ _ | WUnlock | WStoreAt _ _ _ | WCas _ _ _ | Wake | WRet => true
  | _ => false
  end.
Definition reading (t : pc) : bool := negb (writing t) && negb (match t with Idle => true | _ => false end).
(** Between lock and unlock of a write, and of a read. *)
Definition wholds (t : pc) : bool := match t with WStore _ | WPublish _ _ | WUnlock => true | _ => false end.
Definition rholds (t : pc) : bool :=
  match t with LLoad | LTake _ | LBump _ | LWait _ | LSleep | LUnlock _ => true | _ => false end.

Lemma woken_claim t : claim (woken t) = claim t.
Proof. by destruct t. Qed.
Lemma woken_not_sleeps t : sleeps t = false -> woken t = t.
Proof. by destruct t. Qed.

Lemma count_fmap (f : pc -> bool) (g : pc -> pc) ts :
  (forall t, f (g t) = f t) -> count f (g <$> ts) = count f ts.
Proof. intros Hf. induction ts as [|t ts IH]; [done|]. rewrite fmap_cons, !count_cons, IH, Hf. done. Qed.

Lemma count_take (f : pc -> bool) ts m :
  (forall i t, ts !! i = Some t -> f t = true -> (i < m)%nat) -> (count f ts <= m)%nat.
Proof.
  revert m. induction ts as [|t ts IH]; intros m Hf; [unfold count; simpl; lia|]. rewrite count_cons.
  destruct m as [|m].
  - destruct (f t) eqn:E; [by specialize (Hf 0%nat t eq_refl E); lia|]. simpl. apply (IH 0%nat).
    intros i u Hi Hu. specialize (Hf (S i) u Hi Hu). lia.
  - assert (count f ts <= m)%nat; [|destruct (f t); simpl; lia].
    apply IH. intros i u Hi Hu. specialize (Hf (S i) u Hi Hu). lia.
Qed.

(** The numbers of the writes under way when a thread moves. *)
Lemma omap_update {A} (f : pc -> option A) ts i t t' :
  ts !! i = Some t ->
  option_list (f t') ++ omap f ts ≡ₚ option_list (f t) ++ omap f (<[i := t']> ts).
Proof.
  revert i. induction ts as [|u ts IH]; intros [|i] Hi; simplify_eq/=.
  - destruct (f t), (f t'); simpl; try done. apply Permutation_swap.
  - specialize (IH i Hi). destruct (f u) as [x|]; simpl; [|done].
    rewrite <- !Permutation_middle. by rewrite IH.
Qed.

Lemma omap_unique {A} (f : pc -> option A) ts i j t u x :
  NoDup (omap f ts) -> ts !! i = Some t -> ts !! j = Some u -> f t = Some x -> f u = Some x -> i = j.
Proof.
  revert i j. induction ts as [|v ts IH]; intros i j Hnd Hi Hj Ht Hu; [done|].
  assert (forall j u, ts !! j = Some u -> f u = Some x -> x ∈ omap f ts) as Hin.
  { intros j' u' Hj' Hu'. apply list_elem_of_omap. exists u'. split; [|done]. by eapply list_elem_of_lookup_2. }
  destruct i as [|i], j as [|j]; simplify_eq/=; try done.
  - rewrite Ht in Hnd. apply list.NoDup_cons in Hnd as [Hn _]. destruct Hn. by eapply Hin.
  - rewrite Hu in Hnd. apply list.NoDup_cons in Hnd as [Hn _]. destruct Hn. by eapply Hin.
  - f_equal. apply IH; try done. destruct (f v); [by apply list.NoDup_cons in Hnd as [_ ?]|done].
Qed.

Lemma omap_woken (ts : list pc) : omap claim (woken <$> ts) = omap claim ts.
Proof. induction ts as [|t ts IH]; [done|]. csimpl. by rewrite woken_claim, IH. Qed.

Section proofs.
Context (k : Z) (Hk : 0 <= k <= 30).
Context (r0 : muggle_ring_buffer) (nt nw : nat) (reads : nat -> Prop) (rd : nat).
Notation cap := (2 ^ k).

(** The promises of the clients: one writer or one reader when the ring was set
    up for one, and not more writers in a busy loop than the ring has cells. *)
Context (Hsingle : write_mode r0 = WRITE_MODE_SINGLE -> (nw <= 1)%nat).
Context (Hbusy : write_mode r0 = WRITE_MODE_BUSY_LOOP -> Z.of_nat nw <= cap).
Context (Hrd : read_mode r0 = READ_MODE_SINGLE_WAIT -> forall i, reads i -> i = rd).

Notation reachable := (reachable false nw reads r0 nt).
Notation step := (step false nw reads).

(** The change of state of one thread in a step. *)
Inductive moves (i : nat) (c c' : conf) : pc -> pc -> Prop :=
| m_write d : (i < nw)%nat -> moves i c c' Idle (WBegin d)
| m_read n : reads i -> read_mode (ring c) <> READ_MODE_LOCK -> 0 <= n <= zlen (wlog c) ->
    moves i c c' Idle (RLoad n (pos (ring c) (i32 n)))
| m_read_lock : reads i -> read_mode (ring c) = READ_MODE_LOCK -> moves i c c' Idle LLock
| m_begin d : write_mode (ring c) <> WRITE_MODE_BUSY_LOOP -> moves i c c' (WBegin d) (WStore d)
| m_store d : moves i c c' (WStore d) (WPublish (zlen (wlog c)) d)
| m_publish n d : moves i c c' (WPublish n d) WUnlock
| m_unlock : moves i c c' WUnlock Wake
| m_number d : write_mode (ring c) = WRITE_MODE_BUSY_LOOP ->
    moves i c c' (WBegin d) (WStoreAt (next (ring c)) (begun c) d)
| m_store_at idx n d : moves i c c' (WStoreAt idx n d) (WCas idx n d)
| m_cas idx n d : moves i c c' (WCas idx n d) Wake
| m_wake : moves i c c' Wake WRet
| m_write_return : moves i c c' WRet Idle
| m_load n p : pos (ring c) (cursor (ring c)) <> p -> moves i c c' (RLoad n p) (RTake n p)
| m_empty n p : pos (ring c) (cursor (ring c)) = p -> read_mode (ring c) <> READ_MODE_BUSY_LOOP ->
    moves i c c' (RLoad n p) (RWait n p (cursor (ring c)))
| m_take n p d : aget (datas (ring c)) p = Done d -> moves i c c' (RTake n p) (RRet n d)
| m_sleep n p w : cursor (ring c) = w -> moves i c c' (RWait n p w) (RSleep n p)
| m_wait_changed n p w : moves i c c' (RWait n p w) (RLoad n p)
| m_woken n p : moves i c c' (RSleep n p) (RLoad n p)
| m_read_return n d : moves i c c' (RRet n d) Idle
| m_rlock : moves i c c' LLock LLoad
| m_lload : pos (ring c) (cursor (ring c)) <> pos (ring c) (read_cursor (ring c)) ->
    moves i c c' LLoad (LTake (pos (ring c) (read_cursor (ring c))))
| m_lempty : pos (ring c) (cursor (ring c)) = pos (ring c) (read_cursor (ring c)) ->
    moves i c c' LLoad (LWait (cursor (ring c)))
| m_ltake p d : aget (datas (ring c)) p = Done d -> moves i c c' (LTake p) (LBump d)
| m_lbump d : moves i c c' (LBump d) (LUnlock d)
| m_lsleep w : cursor (ring c) = w -> moves i c c' (LWait w) LSleep
| m_lwait_changed w : moves i c c' (LWait w) LLoad
| m_lwoken : moves i c c' LSleep LLoad
| m_runlock d : moves i c c' (LUnlock d) (LRet d)
| m_lread_return d : moves i c c' (LRet d) Idle.

Lemma woken_moves i c c' t : sleeps t = true -> moves i c c' t (woken t).
Proof. destruct t; try done; constructor. Qed.

Lemma rb_step_moves c c' i t' :
  step c c' -> threads c' !! i = Some t' ->
  threads c !! i = Some t' \/ exists t, threads c !! i = Some t /\ moves i c c' t t'.
Proof.
  intros Hs Hi.
  assert (forall j t0 t1, threads c !! j = Some t0 -> <[j := t1]> (threads c) !! i = Some t' ->
    (j = i -> moves i c c' t0 t1) ->
    threads c !! i = Some t' \/ exists t, threads c !! i = Some t /\ moves i c c' t t') as Hone.
  { intros j t0 t1 Hj Hj' Hm. destruct (lookup_update _ j i t1 t0 t' Hj Hj') as [[-> ->]|[_ ?]]; [|by left].
    right. exists t0. split; [done|by apply Hm]. }
  destruct Hs as [Hs|Hs]; destruct Hs; simpl in Hi;
    try (eapply Hone; [done|done|]; intros ->; constructor; congruence).
  - rewrite list_lookup_fmap in Hi. apply fmap_Some in Hi as (u & Hu & ->).
    destruct (lookup_update _ i0 i WRet Wake u H Hu) as [[-> ->]|[_ Hu']]; [right; exists Wake; by split; [|constructor]|].
    destruct (sleeps u) eqn:Hsl; [right; exists u; by split; [|apply woken_moves]|]. left. by rewrite woken_not_sleeps.
  - assert (<[i0 := WRet]> (threads c) !! j = Some t) as Hj.
    { rewrite list_lookup_insert_ne; [done|]. intros ->. simplify_eq. }
    destruct (lookup_update _ j i _ _ _ Hj Hi) as [[-> ->]|[_ Hu]]; [right; exists t; by split; [|apply woken_moves]|].
    by apply (Hone i0 Wake WRet); [..|constructor].
  - eapply Hone; [done|done|]. intros ->. by apply woken_moves.
Qed.
Definition static (c : conf) : Prop :=
  capacity (ring c) = capacity r0 /\ write_mode (ring c) = write_mode r0 /\ read_mode (ring c) = read_mode r0.

Lemma rb_reachable_static c : reachable c -> static c.
Proof.
  apply (rtc_invariant step static); [done|].
  intros c1 c2 _ (? & ? & ?) Hs. assert (capacity (ring c2) = capacity (ring c1) /\
    write_mode (ring c2) = write_mode (ring c1) /\ read_mode (ring c2) = read_mode (ring c1)) as (? & ? & ?)
    by (destruct Hs as [Hs|Hs]; by destruct Hs).
  unfold static. intuition congruence.
Qed.

(** Which threads are in which states. *)
Definition role_ok (i : nat) (t : pc) : Prop :=
  (writing t = true -> (i < nw)%nat) /\ (reading t = true -> reads i) /\
  match t with
  | WStore _ | WPublish _ _ | WUnlock => write_mode r0 <> WRITE_MODE_BUSY_LOOP
  | WStoreAt _ _ _ | WCas _ _ _ => write_mode r0 = WRITE_MODE_BUSY_LOOP
  | RWait _ _ _ | RSleep _ _ => read_mode r0 <> READ_MODE_LOCK /\ read_mode r0 <> READ_MODE_BUSY_LOOP
  | RLoad _ _ | RTake _ _ | RRet _ _ => read_mode r0 <> READ_MODE_LOCK
  | LLock | LLoad | LTake _ | LBump _ | LWait _ | LSleep | LUnlock _ | LRet _ => read_mode r0 = READ_MODE_LOCK
  | _ => True
  end.

Lemma rb_reachable_roles c : reachable c -> forall i t, threads c !! i = Some t -> role_ok i t.
Proof.
  revert c. apply (rtc_invariant step (fun c => forall i t, threads c !! i = Some t -> role_ok i t)).
  - intros i t Hi. by apply lookup_replicate in Hi as [-> _].
  - intros c c' Hr IH Hs i t Hi. destruct (rb_reachable_static _ Hr) as (_ & Hwm & Hrm).
    destruct (rb_step_moves _ _ _ _ Hs Hi) as [Hi'|(t0 & Hi' & Hm)]; [by apply IH|].
    specialize (IH _ _ Hi'). unfold role_ok in *. destruct Hm; simpl in *; rewrite ?Hwm, ?Hrm in *; tauto.
Qed.

(** A mutex is taken exactly when a thread is between lock and unlock. *)
Lemma wlocked_count c :
  write_mode r0 = WRITE_MODE_LOCK -> reachable c -> count wholds (threads c) = Nat.b2n (wlocked c).
Proof.
  intros Hl. revert c. apply (rtc_invariant step (fun c => count wholds (threads c) = Nat.b2n (wlocked c))).
  { apply count_zero. intros i t Hi. by apply lookup_replicate in Hi as [-> _]. }
  intros c1 c2 Hr IH Hs. destruct (rb_reachable_static _ Hr) as (_ & Hw & _).
  destruct Hs as [Hs|Hs]; destruct Hs; try congruence; simpl in *; rewrite ?count_fmap by (by intros []);
    match goal with
    | Hi : threads _ !! ?i = Some ?t0 |- context [<[?i := ?t]> (threads ?c)] =>
        pose proof (count_update wholds (threads c) i t0 t Hi) as Hc; simpl in Hc
    end; try (destruct (wlocked c); simpl in *; lia).
  - assert (Wake <> t) as Hne by (by intros <-).
    pose proof (count_update2 wholds _ i j _ WRet _ (woken t) H H1 Hne). destruct t; try done; simpl in *; lia.
  - destruct t; try done; simpl in *; lia.
Qed.

Lemma rlocked_count c : reachable c -> count rholds (threads c) = Nat.b2n (rlocked c).
Proof.
  revert c. apply (rtc_invariant step (fun c => count rholds (threads c) = Nat.b2n (rlocked c))).
  { apply count_zero. intros i t Hi. by apply lookup_replicate in Hi as [-> _]. }
  intros c1 c2 Hr IH Hs. destruct Hs as [Hs|Hs]; destruct Hs; try congruence; simpl in *;
    rewrite ?count_fmap by (by intros []);
    match goal with
    | Hi : threads _ !! ?i = Some ?t0 |- context [<[?i := ?t]> (threads ?c)] =>
        pose proof (count_update rholds (threads c) i t0 t Hi) as Hc; simpl in Hc
    end; try (destruct (rlocked c); simpl in *; lia).
  - assert (Wake <> t) as Hne by (by intros <-).
    pose proof (count_update2 rholds _ i j _ WRet _ (woken t) H H1 Hne). destruct t; try done; simpl in *; lia.
  - destruct t; try done; simpl in *; lia.
Qed.

Lemma one_rholder c i j t u :
  reachable c -> threads c !! i = Some t -> threads c !! j = Some u ->
  rholds t = true -> rholds u = true -> i = j.
Proof.
  intros Hr Hi Hj Ht Hu. eapply count_unique; try done. rewrite (rlocked_count c Hr). destruct (rlocked c); simpl; lia.
Qed.

(** Without a busy loop at most one thread is between lock and unlock. *)
Lemma wholds_le c : reachable c -> write_mode r0 <> WRITE_MODE_BUSY_LOOP -> (count wholds (threads c) <= 1)%nat.
Proof.
  intros Hr Hm. destruct (decide (write_mode r0 = WRITE_MODE_LOCK)) as [E|E].
  - rewrite (wlocked_count c E Hr). destruct (wlocked c); simpl; lia.
  - assert (write_mode r0 = WRITE_MODE_SINGLE) as Hs by (by destruct (write_mode r0)).
    etransitivity; [|exact (Hsingle Hs)]. apply count_take.
    intros i t Hi Ht. apply (rb_reachable_roles c Hr i t Hi). by destruct t.
Qed.

Lemma one_wholder c i j t u :
  reachable c -> threads c !! i = Some t -> threads c !! j = Some u ->
  wholds t = true -> wholds u = true -> i = j.
Proof.
  intros Hr Hi Hj Ht Hu. eapply count_unique; try done. apply wholds_le; [done|].
  pose proof (rb_reachable_roles c Hr i t Hi) as (_ & _ & Hm). by destruct t.
Qed.

Definition claims (t : pc) : bool := match claim t with Some _ => true | None => false end.

Lemma claims_count (ts : list pc) : length (omap claim ts) = count claims ts.
Proof.
  induction ts as [|t ts IH]; [done|]. csimpl. rewrite count_cons. unfold claims at 1.
  destruct (claim t); simpl; by rewrite IH.
Qed.

(** The writes under way are fewer than the cells. *)
Lemma claims_room c : reachable c ->
  zlen (omap claim (threads c)) <= cap /\
  (write_mode r0 <> WRITE_MODE_BUSY_LOOP -> zlen (omap claim (threads c)) <= 1).
Proof.
  intros Hr. unfold zlen. rewrite claims_count. pose proof (Z.pow_pos_nonneg 2 k ltac:(lia) ltac:(lia)).
  assert (write_mode r0 <> WRITE_MODE_BUSY_LOOP -> (count claims (threads c) <= 1)%nat) as Hle.
  { intros Hm. etransitivity; [|by apply (wholds_le c)].
    assert (forall i t, threads c !! i = Some t -> claims t = true -> wholds t = true) as Hcw.
    { intros i t Hi Ht. pose proof (rb_reachable_roles c Hr i t Hi) as (_ & _ & Hx). by destruct t. }
    clear -Hcw. induction (threads c) as [|t ts IH]; [done|]. rewrite !count_cons.
    specialize (Hcw 0%nat t eq_refl) as Ht. specialize (IH (fun i => Hcw (S i))).
    destruct (claims t), (wholds t); simpl; lia || by discriminate Ht. }
  destruct (decide (write_mode r0 = WRITE_MODE_BUSY_LOOP)) as [E|E]; [|specialize (Hle E); split; lia].
  split; [|done]. transitivity (Z.of_nat nw); [|by apply Hbusy].
  apply Nat2Z.inj_le, count_take. intros i t Hi Ht. apply (rb_reachable_roles c Hr i t Hi). by destruct t.
Qed.
(** ** The ring holds the last messages *)

(** What a thread knows: [p] messages were published, [b] writes begun and [nr]
    messages read under the read lock. *)
Definition knows (dt : list ptr) (p nr b : Z) (wl : list ptr) (t : pc) : Prop :=
  match t with
  | WPublish n d => dt @@ (n mod cap) = Some d
  | WStoreAt idx n d => idx = i32 n
  | WCas idx n d => idx = i32 n /\ dt @@ (n mod cap) = Some d
  | RLoad n q | RSleep n q => q = n mod cap /\ 0 <= n <= p
  | RWait n q w => (q = n mod cap /\ 0 <= n <= p) /\ w mod cap = q
  | RTake n q => q = n mod cap /\ 0 <= n < p
  | RRet n d => 0 <= n < p /\ (b <= n + cap -> wl @@ n = Some d)
  | LTake q => q = nr mod cap /\ nr < p
  | LBump d => nr < p /\ (b <= nr + cap -> wl @@ nr = Some d)
  | LWait w => w mod cap = nr mod cap
  | _ => True
  end.

Record inv (c : conf) : Prop := {
  inv_cursor : cursor (ring c) = i32 (zlen (wlog c));
  inv_next : write_mode r0 = WRITE_MODE_BUSY_LOOP -> next (ring c) = i32 (begun c);
  inv_read : read_cursor (ring c) = i32 (zlen (rlog c)) /\ zlen (rlog c) <= zlen (wlog c);
  inv_datas : zlen (datas (ring c)) = cap;
  inv_claims : omap claim (threads c) ≡ₚ seqZ (zlen (wlog c)) (begun c - zlen (wlog c));
  inv_cells : forall n, 0 <= n -> begun c - cap <= n < zlen (wlog c) ->
    datas (ring c) @@ (n mod cap) = wlog c @@ n;
  inv_knows : forall i t, threads c !! i = Some t ->
    knows (datas (ring c)) (zlen (wlog c)) (zlen (rlog c)) (begun c) (wlog c) t
}.

Context (Hcap : capacity r0 = cap) (Hdatas : zlen (datas r0) = cap).
Context (Hinit : next r0 = 0 /\ cursor r0 = 0 /\ read_cursor r0 = 0).

Lemma rb_cap_range : 1 <= cap <= 2 ^ 30.
Proof.
  pose proof (Z.pow_pos_nonneg 2 k ltac:(lia) ltac:(lia)).
  split; [lia|apply Z.pow_le_mono_r; lia].
Qed.

Lemma rb_inv_start : inv (start r0 nt).
Proof.
  destruct Hinit as (Hn & Hc & Hrc). assert (omap claim (replicate nt Idle) = []) as Hz.
  { induction nt; [done|]. by csimpl. }
  split; simpl; unfold begun; simpl; rewrite ?Hz; try done.
  - intros n ? [_ Hlt]. unfold zlen in Hlt. simpl in Hlt. lia.
  - intros i t Hi. by apply lookup_replicate in Hi as [-> _].
Qed.

Lemma pos_eq c x : reachable c -> pos (ring c) (i32 x) = x mod cap.
Proof.
  intros Hr. destruct (rb_reachable_static _ Hr) as (Hc & _). unfold pos. rewrite Hc, Hcap. apply ring_index_i32. lia.
Qed.

(** The write of a thread lies between the published and the begun ones. *)
Lemma claim_range c i t n : inv c -> threads c !! i = Some t -> claim t = Some n -> zlen (wlog c) <= n < begun c.
Proof.
  intros HI Hi Ht. assert (n ∈ omap claim (threads c)) as Hin.
  { apply list_elem_of_omap. exists t. split; [|done]. by eapply list_elem_of_lookup_2. }
  rewrite (inv_claims _ HI), elem_of_seqZ in Hin. lia.
Qed.

Lemma claim_unique c i j t u n :
  inv c -> threads c !! i = Some t -> threads c !! j = Some u -> claim t = Some n -> claim u = Some n -> i = j.
Proof.
  intros HI Hi Hj Ht Hu. eapply (omap_unique claim); try done. rewrite (inv_claims _ HI). apply NoDup_seqZ.
Qed.

Lemma begun_le c : reachable c -> zlen (wlog c) <= begun c <= zlen (wlog c) + cap.
Proof.
  intros Hr. destruct (claims_room c Hr) as [Hl _]. unfold begun.
  pose proof (zlen_nonneg (omap claim (threads c))). lia.
Qed.

(** What the others know when messages are published, writes begun and cells
    written that are not theirs. *)
Definition stored (t : pc) : option Z :=
  match t with WPublish n _ | WCas _ n _ => Some n | _ => None end.

Lemma knows_mono dt dt' p p' nr b b' wl wl' t :
  p <= p' -> b <= b' -> (forall n, 0 <= n < p -> wl' @@ n = wl @@ n) ->
  (forall n, stored t = Some n -> dt' @@ (n mod cap) = dt @@ (n mod cap)) ->
  0 <= nr -> knows dt p nr b wl t -> knows dt' p' nr b' wl' t.
Proof.
  intros Hp Hb Hwl Hdt Hnr. destruct t; simpl in *; intros Ht; rewrite ?Hdt by done; try done;
    intuition try lia; rewrite Hwl by lia; auto with lia.
Qed.

(** The threads after one of them moved. *)
Lemma rb_inv_others c i t0 t' (P : pc -> Prop) :
  threads c !! i = Some t0 -> P t' ->
  (forall j t, threads c !! j = Some t -> j <> i -> P t) ->
  forall j t, <[i := t']> (threads c) !! j = Some t -> P t.
Proof.
  intros Hi Ht Hoth j t Hj. destruct (lookup_update _ i j t' t0 t Hi Hj) as [[-> ->]|[Hne Hj']]; [done|].
  by eapply Hoth.
Qed.

(** Steps that change neither the ring nor the logs nor the writes under way. *)
Lemma rb_moves_knows c c' i t t' :
  reachable c -> inv c -> ring c' = ring c -> threads c !! i = Some t -> moves i c c' t t' ->
  knows (datas (ring c)) (zlen (wlog c)) (zlen (rlog c)) (begun c) (wlog c) t' \/ claim t <> claim t' \/
    (exists n d, t = WPublish n d) \/ (exists d, t = LBump d) \/ stored t' <> None.
Proof.
  intros Hr HI Hring Hi Hm. pose proof rb_cap_range. pose proof (inv_knows _ HI _ _ Hi) as Hkn.
  pose proof (begun_le c Hr). pose proof (inv_read _ HI) as [Hrc Hrle]. pose proof (zlen_nonneg (rlog c)).
  assert (forall n, 0 <= n < zlen (wlog c) -> forall d, aget (datas (ring c)) (n mod cap) = Done d ->
    begun c <= n + cap -> wlog c @@ n = Some d) as Hcell.
  { intros n Hn d Ha Hb. rewrite <- (inv_cells _ HI) by lia. pose proof (Z.mod_pos_bound n cap ltac:(lia)).
    pose proof (inv_datas _ HI). destruct (zlookup_is_Some (datas (ring c)) (n mod cap)) as [x Hx]; [lia|].
    rewrite Hx. rewrite (aget_Some _ _ _ Hx) in Ha. by injection Ha as ->. }
  assert (cursor (ring c) mod cap = zlen (wlog c) mod cap) as Hcm.
  { rewrite (inv_cursor _ HI). apply i32_mod. lia. }
  assert (pos (ring c) (cursor (ring c)) = zlen (wlog c) mod cap) as Hwp by (rewrite (inv_cursor _ HI); by apply pos_eq).
  assert (pos (ring c) (read_cursor (ring c)) = zlen (rlog c) mod cap) as Hrp by (rewrite Hrc; by apply pos_eq).
  destruct Hm as [|n _ _ Hn| | | | | | | | | | |n q Hq|n q Hq|n q d Ha| | | | | |Hq|Hq|q d Ha| | | | | | ]; simpl in *;
    try (by left); try (right; left; done); try (right; right; by eauto); left.
  - split; [by apply pos_eq|done].
  - destruct Hkn as [-> Hn]. split; [done|]. assert (n <> zlen (wlog c)); [|lia]. by intros ->.
  - split; [done|congruence].
  - destruct Hkn as [-> Hn]. split; [done|]. by apply Hcell.
  - by destruct Hkn.
  - by destruct Hkn.
  - split; [done|]. assert (zlen (rlog c) <> zlen (wlog c)) as Hne; [|lia]. intros E. apply Hq. congruence.
  - congruence.
  - destruct Hkn as [-> Hn]. split; [done|]. by apply Hcell.
Qed.

(** The steps that change the ring or the writes under way; the others move
    threads. *)
Inductive effect (c : conf) : conf -> Prop :=
| e_store i d l :
    threads c !! i = Some (WStore d) -> aset (datas (ring c)) (pos (ring c) (cursor (ring c))) d = Done l ->
    effect c (with_ring (set_datas l (ring c)) (goto c i (WPublish (zlen (wlog c)) d)))
| e_publish i n d :
    threads c !! i = Some (WPublish n d) ->
    effect c (mkc (set_cursor (i32 (cursor (ring c) + 1)) (ring c)) (wlocked c) (rlocked c)
      (<[i := WUnlock]> (threads c)) (wlog c ++ [d]) (rlog c))
| e_number i d :
    threads c !! i = Some (WBegin d) -> write_mode (ring c) = WRITE_MODE_BUSY_LOOP ->
    effect c (with_ring (set_next (i32 (next (ring c) + 1)) (ring c))
      (goto c i (WStoreAt (next (ring c)) (begun c) d)))
| e_store_at i idx n d l :
    threads c !! i = Some (WStoreAt idx n d) -> aset (datas (ring c)) (pos (ring c) idx) d = Done l ->
    effect c (with_ring (set_datas l (ring c)) (goto c i (WCas idx n d)))
| e_cas i idx n d :
    threads c !! i = Some (WCas idx n d) -> cursor (ring c) = idx ->
    effect c (mkc (set_cursor (i32 (idx + 1)) (ring c)) (wlocked c) (rlocked c)
      (<[i := Wake]> (threads c)) (wlog c ++ [d]) (rlog c))
| e_lbump i d :
    threads c !! i = Some (LBump d) ->
    effect c (mkc (set_read_cursor (i32 (read_cursor (ring c) + 1)) (ring c)) (wlocked c) (rlocked c)
      (<[i := LUnlock d]> (threads c)) (wlog c) (rlog c ++ [d]))
| e_quiet c' :
    ring c' = ring c -> wlog c' = wlog c -> rlog c' = rlog c ->
    omap claim (threads c') ≡ₚ omap claim (threads c) ->
    (forall i t t', threads c !! i = Some t -> threads c' !! i = Some t' ->
       t = t' \/ (claim t = claim t' /\ (forall n d, t <> WPublish n d) /\ (forall d, t <> LBump d) /\ stored t' = None)) ->
    effect c c'.

Lemma one_quiet c i t0 t1 :
  threads c !! i = Some t0 -> claim t0 = None -> claim t1 = None -> (forall d, t0 <> LBump d) ->
  omap claim (<[i := t1]> (threads c)) ≡ₚ omap claim (threads c) /\
  (forall j t t', threads c !! j = Some t -> <[i := t1]> (threads c) !! j = Some t' ->
     t = t' \/ (claim t = claim t' /\ (forall n d, t <> WPublish n d) /\ (forall d, t <> LBump d) /\ stored t' = None)).
Proof.
  intros Hi H0 H1 Hb. split.
  - pose proof (omap_update claim (threads c) i t0 t1 Hi) as Hp. rewrite H0, H1 in Hp. by rewrite Hp.
  - intros j t t' Hj Hj'. destruct (lookup_update _ i j t1 t0 t' Hi Hj') as [[-> ->]|[_ Hj2]]; [|left; congruence].
    right. simplify_eq. split; [congruence|]. split; [by intros ? ? ->|]. split; [done|]. by destruct t1.
Qed.

Lemma step_effect c c' : step c c' -> effect c c'.
Proof.
  assert (forall i t, threads c !! i = Some t -> sleeps t = true -> claim t = None /\ claim (woken t) = None /\
    (forall d, t <> LBump d)) as Hsl by (intros i t _ Ht; by destruct t).
  intros [Hs|Hs]; destruct Hs; try (by econstructor);
    try (apply e_quiet; try done; eapply one_quiet; try done; by eapply Hsl).
  - apply e_quiet; try done; simpl.
    + rewrite omap_woken. by eapply (one_quiet c i Wake WRet).
    + intros j t t' Hj Hj'. rewrite list_lookup_fmap in Hj'. apply fmap_Some in Hj' as (u & Hu & ->).
      destruct (lookup_update _ i j WRet Wake u H Hu) as [[-> ->]|[_ Hu']].
      * right. rewrite H in Hj. injection Hj as <-. by split_and!.
      * rewrite Hj in Hu'. injection Hu' as <-.
        destruct (sleeps t) eqn:E; [|left; by rewrite woken_not_sleeps]. right. destruct t; try done; by split_and!.
  - assert (<[i := WRet]> (threads c) !! j = Some t) as Hj.
    { rewrite list_lookup_insert_ne; [done|]. intros ->. simplify_eq. }
    apply e_quiet; try done; simpl.
    + pose proof (omap_update claim _ j t (woken t) Hj) as Hp. destruct (Hsl _ _ H1 H2) as (E1 & E2 & _).
      rewrite E1, E2 in Hp. simpl in Hp. rewrite <- Hp. by eapply (one_quiet c i Wake WRet).
    + intros j' u u' Hju Hju'. destruct (lookup_update _ j j' _ _ _ Hj Hju') as [[-> ->]|[_ Hj2]].
      * right. rewrite H1 in Hju. injection Hju as <-. destruct t; try done; by split_and!.
      * by eapply (one_quiet c i Wake WRet).
Qed.

(** *** The invariant holds after each of them *)

Lemma begun_update c i t t' r wl rl w1 w2 :
  threads c !! i = Some t ->
  begun (mkc r w1 w2 (<[i := t']> (threads c)) wl rl) + zlen (wlog c) + zlen (option_list (claim t)) =
  begun c + zlen wl + zlen (option_list (claim t')).
Proof.
  intros Hi. pose proof (Permutation_length (omap_update claim (threads c) i t t' Hi)) as E.
  rewrite !length_app in E. unfold begun, zlen. simpl. lia.
Qed.

Lemma rb_inv_quiet c c' :
  reachable c -> step c c' -> inv c -> ring c' = ring c -> wlog c' = wlog c -> rlog c' = rlog c ->
  omap claim (threads c') ≡ₚ omap claim (threads c) ->
  (forall i t t', threads c !! i = Some t -> threads c' !! i = Some t' ->
     t = t' \/ (claim t = claim t' /\ (forall n d, t <> WPublish n d) /\ (forall d, t <> LBump d) /\ stored t' = None)) ->
  inv c'.
Proof.
  intros Hr Hs HI Hring Hwl Hrl Hom Hth. assert (begun c' = begun c) as Hb.
  { unfold begun, zlen. by rewrite Hwl, Hom. }
  pose proof HI as []. split; rewrite ?Hring, ?Hwl, ?Hrl, ?Hb, ?Hom; try done.
  intros i t' Hi. destruct (rb_step_moves _ _ _ _ Hs Hi) as [Hi'|(t & Hi' & Hm)]; [by apply (inv_knows0 i)|].
  destruct (Hth i t t' Hi' Hi) as [<-|(E & Hnp & Hnl & Hst)]; [by apply (inv_knows0 i)|].
  destruct (rb_moves_knows _ _ _ _ _ Hr HI Hring Hi' Hm) as [?|[?|[(n & d & ->)|[(d & ->)|?]]]]; try done.
  - by destruct (Hnp n d).
  - by destruct (Hnl d).
Qed.

(** Cells that a write of number [m] leaves alone. *)
Lemma cells_other c m d n p b :
  reachable c -> inv c -> b <= p + cap -> p <= m < b -> b - cap <= n < b -> n <> m ->
  zinsert (m mod cap) d (datas (ring c)) @@ (n mod cap) = datas (ring c) @@ (n mod cap).
Proof.
  intros Hr HI Hb Hm Hn Hne. pose proof rb_cap_range. pose proof (Z.mod_pos_bound m cap ltac:(lia)).
  apply zlookup_zinsert_ne; [lia|]. intros E. apply (mod_eq_close cap m n) in E; lia.
Qed.

Lemma rb_inv_store c i d l :
  reachable c -> inv c -> threads c !! i = Some (WStore d) ->
  aset (datas (ring c)) (pos (ring c) (cursor (ring c))) d = Done l ->
  inv (with_ring (set_datas l (ring c)) (goto c i (WPublish (zlen (wlog c)) d))).
Proof.
  intros Hr HI Hi Ha. pose proof rb_cap_range. pose proof HI as []. pose proof (zlen_nonneg (rlog c)).
  assert (omap claim (threads c) = []) as Hno.
  { destruct (omap claim (threads c)) as [|n om] eqn:E; [done|]. assert (n ∈ omap claim (threads c)) as Hin by (rewrite E; left).
    apply list_elem_of_omap in Hin as (t & [j Hj]%list_elem_of_lookup & Ht).
    pose proof (rb_reachable_roles c Hr i _ Hi) as (_ & _ & Hm). pose proof (rb_reachable_roles c Hr j _ Hj) as (_ & _ & Hmj).
    assert (i = j) as -> by (eapply one_wholder; try done; by destruct t). simplify_eq. }
  assert (begun c = zlen (wlog c)) as Hb by (unfold begun; rewrite Hno; unfold zlen; simpl; lia).
  pose proof (begun_update c i (WStore d) (WPublish (zlen (wlog c)) d) (set_datas l (ring c)) (wlog c) (rlog c)
    (wlocked c) (rlocked c) Hi) as Hb'. change (zlen (option_list (claim (WStore d)))) with 0 in Hb'.
  change (zlen (option_list (claim (WPublish (zlen (wlog c)) d)))) with 1 in Hb'.
  rewrite inv_cursor0, (pos_eq _ _ Hr) in Ha. pose proof (Z.mod_pos_bound (zlen (wlog c)) cap ltac:(lia)).
  rewrite aset_zinsert in Ha by lia. injection Ha as <-.
  split; unfold with_ring, goto; cbn [ring wlog rlog threads set_datas cursor next read_cursor datas wlocked rlocked]; try done.
  - intros Hm. pose proof (rb_reachable_roles c Hr i _ Hi) as (_ & _ & Hm'). done.
  - by rewrite zlen_zinsert.
  - pose proof (omap_update claim _ i (WStore d) (WPublish (zlen (wlog c)) d) Hi) as Hp. simpl in Hp.
    rewrite <- Hp, Hno. replace (_ - _) with 1 by lia. done.
  - intros n Hn0 Hn. rewrite (cells_other c _ _ _ (zlen (wlog c)) (zlen (wlog c) + 1)) by (done || lia).
    apply inv_cells0; lia.
  - apply (rb_inv_others c i (WStore d)); [done| |].
    + simpl. apply zlookup_zinsert_eq. lia.
    + intros j t Hj Hne. eapply knows_mono; [..|by eapply inv_knows0]; try lia; [done|].
      intros n Hst. exfalso. assert (n ∈ omap claim (threads c)) as Hin; [|rewrite Hno in Hin; by apply elem_of_nil in Hin].
      apply list_elem_of_omap. exists t. split; [by eapply list_elem_of_lookup_2|by destruct t].
Qed.
(** The next write is published. *)
Lemma inv_published c i t t' d :
  reachable c -> inv c -> threads c !! i = Some t -> claim t = Some (zlen (wlog c)) ->
  t' = WUnlock \/ t' = Wake -> datas (ring c) @@ (zlen (wlog c) mod cap) = Some d ->
  inv (mkc (set_cursor (i32 (zlen (wlog c) + 1)) (ring c)) (wlocked c) (rlocked c)
    (<[i := t']> (threads c)) (wlog c ++ [d]) (rlog c)).
Proof.
  intros Hr HI Hi Ht Ht' Hd. pose proof HI as []. pose proof (zlen_nonneg (rlog c)).
  assert (claim t' = None) as Hc' by (by destruct Ht' as [-> | ->]).
  pose proof (claim_range c i t _ HI Hi Ht) as Hcr.
  pose proof (begun_update c i t t' (set_cursor (i32 (zlen (wlog c) + 1)) (ring c)) (wlog c ++ [d]) (rlog c)
    (wlocked c) (rlocked c) Hi) as Hb. rewrite Ht, Hc', zlen_snoc in Hb.
  change (zlen (option_list (Some (zlen (wlog c))))) with 1 in Hb.
  change (zlen (option_list (None : option Z))) with 0 in Hb.
  split; cbn [ring wlog rlog threads set_cursor cursor next read_cursor datas]; rewrite ?zlen_snoc; try done.
  - intros Hm. rewrite inv_next0 by done. f_equal. lia.
  - split; [apply inv_read0|]. lia.
  - pose proof (omap_update claim _ i t t' Hi) as Hp. rewrite Ht, Hc' in Hp. simpl in Hp.
    rewrite inv_claims0, seqZ_cons in Hp by lia. apply Permutation_cons_inv in Hp. rewrite <- Hp.
    apply reflexive_eq. f_equal; lia.
  - intros n Hn0 Hn. destruct (decide (n = zlen (wlog c))) as [->|Hne].
    + by rewrite zlookup_app_r, Z.sub_diag by lia.
    + rewrite zlookup_app_l by lia. apply inv_cells0; lia.
  - apply (rb_inv_others c i t); [done|by destruct Ht' as [-> | ->]|].
    intros j u Hj Hne. eapply knows_mono; [..|by eapply inv_knows0]; try lia; [|done].
    intros n Hn. rewrite zlookup_app_l by lia. done.
Qed.

Lemma inv_number c i d :
  reachable c -> inv c -> threads c !! i = Some (WBegin d) -> write_mode r0 = WRITE_MODE_BUSY_LOOP ->
  inv (with_ring (set_next (i32 (next (ring c) + 1)) (ring c)) (goto c i (WStoreAt (next (ring c)) (begun c) d))).
Proof.
  intros Hr HI Hi Hm. pose proof HI as []. pose proof (zlen_nonneg (rlog c)). pose proof (begun_le c Hr).
  pose proof (begun_update c i (WBegin d) (WStoreAt (next (ring c)) (begun c) d)
    (set_next (i32 (next (ring c) + 1)) (ring c)) (wlog c) (rlog c) (wlocked c) (rlocked c) Hi) as Hb.
  change (zlen (option_list (claim (WBegin d)))) with 0 in Hb.
  change (zlen (option_list (claim (WStoreAt (next (ring c)) (begun c) d)))) with 1 in Hb.
  split; unfold with_ring, goto; cbn [ring wlog rlog threads set_next cursor next read_cursor datas wlocked rlocked]; try done.
  - intros _. transitivity (i32 (begun c + 1)); [rewrite inv_next0 by done; apply i32_add|f_equal; lia].
  - pose proof (omap_update claim _ i (WBegin d) (WStoreAt (next (ring c)) (begun c) d) Hi) as Hp. simpl in Hp.
    rewrite <- Hp, inv_claims0.
    match goal with |- _ ≡ₚ seqZ _ ?x => replace x with ((begun c - zlen (wlog c)) + 1) by lia end.
    rewrite seqZ_app by lia. rewrite Permutation_cons_append. apply reflexive_eq. f_equal. replace (zlen (wlog c) + (begun c - zlen (wlog c))) with (begun c) by lia. done.
  - intros n Hn0 Hn. apply inv_cells0; lia.
  - apply (rb_inv_others c i (WBegin d)); [done|by apply inv_next0|].
    intros j u Hj Hne. eapply knows_mono; [..|by eapply inv_knows0]; try lia; done.
Qed.

Lemma inv_store_at c i idx n d l :
  reachable c -> inv c -> threads c !! i = Some (WStoreAt idx n d) ->
  aset (datas (ring c)) (pos (ring c) idx) d = Done l ->
  inv (with_ring (set_datas l (ring c)) (goto c i (WCas idx n d))).
Proof.
  intros Hr HI Hi Ha. pose proof rb_cap_range. pose proof HI as []. pose proof (zlen_nonneg (rlog c)). pose proof (begun_le c Hr).
  pose proof (claim_range c i _ n HI Hi eq_refl) as Hcr. pose proof (inv_knows0 _ _ Hi) as Hidx. simpl in Hidx.
  rewrite Hidx, (pos_eq _ _ Hr) in Ha. pose proof (Z.mod_pos_bound n cap ltac:(lia)).
  rewrite aset_zinsert in Ha by lia. injection Ha as <-.
  pose proof (begun_update c i (WStoreAt idx n d) (WCas idx n d)
    (set_datas (zinsert (n mod cap) d (datas (ring c))) (ring c)) (wlog c) (rlog c) (wlocked c) (rlocked c) Hi) as Hb.
  change (zlen (option_list (claim (WStoreAt idx n d)))) with 1 in Hb.
  change (zlen (option_list (claim (WCas idx n d)))) with 1 in Hb.
  split; unfold with_ring, goto; cbn [ring wlog rlog threads set_datas cursor next read_cursor datas wlocked rlocked]; try done.
  - intros Hm. rewrite inv_next0 by done. f_equal. lia.
  - by rewrite zlen_zinsert.
  - pose proof (omap_update claim _ i (WStoreAt idx n d) (WCas idx n d) Hi) as Hp. simpl in Hp.
    apply Permutation_cons_inv in Hp. rewrite <- Hp, inv_claims0. apply reflexive_eq. f_equal; lia.
  - intros n' Hn0 Hn'. rewrite (cells_other c _ _ _ (zlen (wlog c)) (begun c)) by (done || lia). apply inv_cells0; lia.
  - apply (rb_inv_others c i (WStoreAt idx n d)); [done| |].
    + split; [done|]. apply zlookup_zinsert_eq. lia.
    + intros j u Hj Hne. eapply knows_mono; [..|by eapply inv_knows0]; try lia; [done|].
      intros n' Hst. assert (claim u = Some n') as Hu by (by destruct u).
      pose proof (claim_range c j u n' HI Hj Hu). apply (cells_other c _ _ _ (zlen (wlog c)) (begun c)); try done; try lia.
      intros ->. apply Hne. by eapply (claim_unique c j i u).
Qed.

Lemma inv_lbump c i d :
  reachable c -> inv c -> threads c !! i = Some (LBump d) ->
  inv (mkc (set_read_cursor (i32 (read_cursor (ring c) + 1)) (ring c)) (wlocked c) (rlocked c)
    (<[i := LUnlock d]> (threads c)) (wlog c) (rlog c ++ [d])).
Proof.
  intros Hr HI Hi. pose proof HI as []. pose proof (inv_knows0 _ _ Hi) as [Hlt _].
  pose proof (begun_update c i (LBump d) (LUnlock d) (set_read_cursor (i32 (read_cursor (ring c) + 1)) (ring c))
    (wlog c) (rlog c ++ [d]) (wlocked c) (rlocked c) Hi) as Hb.
  change (zlen (option_list (claim (LBump d)))) with 0 in Hb. change (zlen (option_list (claim (LUnlock d)))) with 0 in Hb.
  split; cbn [ring wlog rlog threads set_read_cursor cursor next read_cursor datas]; rewrite ?zlen_snoc; try done.
  - intros Hm. rewrite inv_next0 by done. f_equal. lia.
  - destruct inv_read0 as [E ?]. rewrite E, i32_add. split; [done|lia].
  - pose proof (omap_update claim _ i (LBump d) (LUnlock d) Hi) as Hp. simpl in Hp.
    rewrite <- Hp, inv_claims0. apply reflexive_eq. f_equal; lia.
  - intros n Hn0 Hn. apply inv_cells0; lia.
  - apply (rb_inv_others c i (LBump d)); [done|done|].
    intros j u Hj Hne. specialize (inv_knows0 _ _ Hj). replace (begun _) with (begun c) by lia.
    destruct u; try done; destruct Hne; symmetry; by eapply (one_rholder c i j (LBump d)).
Qed.

(** The state of the ring in every reachable configuration. *)
Lemma rb_reachable_inv c : reachable c -> inv c.
Proof.
  revert c. apply (rtc_invariant step inv); [exact rb_inv_start|]. intros c c' Hr HI Hs.
  destruct (rb_reachable_static _ Hr) as (_ & Hwm & _). pose proof (inv_cursor _ HI) as Hcu. pose proof (begun_le c Hr).
  destruct (step_effect _ _ Hs) as [i d l Hi Ha|i n d Hi|i d Hi Hm|i idx n d l Hi Ha|i idx n d Hi Hc|i d Hi| ].
  - by apply rb_inv_store.
  - pose proof (rb_reachable_roles c Hr i _ Hi) as (_ & _ & Hm). destruct (claims_room c Hr) as [_ Hle].
    pose proof (claim_range c i _ n HI Hi eq_refl) as Hn. unfold begun in Hn. specialize (Hle Hm).
    assert (n = zlen (wlog c)) as -> by lia. pose proof (inv_knows _ HI _ _ Hi) as Hd.
    rewrite Hcu, i32_add. eapply inv_published; try done. by left.
  - apply inv_number; try done. congruence.
  - by eapply inv_store_at.
  - pose proof (inv_knows _ HI _ _ Hi) as [-> Hd]. pose proof (claim_range c i _ n HI Hi eq_refl) as Hn.
    pose proof rb_cap_range. assert (n = zlen (wlog c)) as -> by (symmetry; apply i32_inj; [lia|congruence]).
    rewrite i32_add. eapply inv_published; try done. by right.
  - by apply inv_lbump.
  - by apply (rb_inv_quiet c).
Qed.
(** ** Progress *)

Definition wakes (t : pc) : bool := match t with WUnlock | Wake => true | _ => false end.

(** A thread sleeps for good reason: the cursor is where it waits. *)
Definition sleeps_ok (p nr : Z) (t : pc) : Prop :=
  match t with
  | RSleep n _ => p mod cap = n mod cap
  | LSleep => p mod cap = nr mod cap
  | _ => True
  end.

Definition awake (c : conf) : Prop :=
  (forall i t, threads c !! i = Some t -> sleeps_ok (zlen (wlog c)) (zlen (rlog c)) t) \/
  (0 < count wakes (threads c))%nat.

Lemma sleeper_unique c i j t u :
  reachable c -> wakes_one r0 = true -> threads c !! i = Some t -> threads c !! j = Some u ->
  sleeps t = true -> sleeps u = true -> i = j.
Proof.
  intros Hr Hw Hi Hj Ht Hu. pose proof (rb_reachable_roles c Hr i t Hi) as (_ & Hri & Hmi).
  pose proof (rb_reachable_roles c Hr j u Hj) as (_ & Hrj & Hmj). unfold wakes_one in Hw.
  destruct (decide (read_mode r0 = READ_MODE_SINGLE_WAIT)) as [E|E].
  - rewrite (Hrd E i), (Hrd E j); [done|apply Hrj; by destruct u|apply Hri; by destruct t].
  - assert (read_mode r0 = READ_MODE_LOCK) as E' by (by destruct (read_mode r0)).
    eapply (one_rholder c); try done; [by destruct t; tauto|by destruct u; tauto].
Qed.

Lemma sleep_reason c i t w :
  reachable c -> threads c !! i = Some t -> (exists n q, t = RWait n q w) \/ t = LWait w -> cursor (ring c) = w ->
  match t with RWait n q _ => zlen (wlog c) mod cap = n mod cap | _ => zlen (wlog c) mod cap = zlen (rlog c) mod cap end.
Proof.
  intros Hr Hi Ht Hw. pose proof (rb_reachable_inv c Hr) as HI. pose proof (inv_knows _ HI _ _ Hi) as Hkn.
  pose proof (inv_cursor _ HI) as Hcu. assert (w mod cap = zlen (wlog c) mod cap) as <-.
  { rewrite <- Hw, Hcu. apply i32_mod. lia. }
  destruct Ht as [(n & q & ->)| ->]; simpl in *; [|done]. destruct Hkn as [[-> _] ?]. done.
Qed.

(** A wake leaves nobody asleep. *)
Lemma wake_leaves_none c c' i :
  reachable c -> threads c !! i = Some Wake -> 
  c' = mkc (ring c) (wlocked c) (rlocked c) (woken <$> <[i := WRet]> (threads c)) (wlog c) (rlog c) \/
  (exists j t, wakes_one (ring c) = true /\ threads c !! j = Some t /\ sleeps t = true /\
     c' = goto (goto c i WRet) j (woken t)) \/
  (c' = goto c i WRet /\ (read_mode (ring c) = READ_MODE_BUSY_LOOP \/ count sleeps (threads c) = 0%nat)) ->
  forall j t, threads c' !! j = Some t -> sleeps t = false.
Proof.
  intros Hr Hi Hc j t Hj. destruct (rb_reachable_static _ Hr) as (_ & _ & Hrm).
  destruct Hc as [->|[(j' & u & Hw & Hj' & Hu & ->)|[-> Hq]]]; simpl in Hj.
  - rewrite list_lookup_fmap in Hj. apply fmap_Some in Hj as (u & _ & ->). by destruct u.
  - assert (<[i := WRet]> (threads c) !! j' = Some u) as Hj''.
    { rewrite list_lookup_insert_ne; [done|]. intros ->. simplify_eq. }
    destruct (lookup_update _ j' j _ _ _ Hj'' Hj) as [[-> ->]|[Hne Hj2]]; [by destruct u|].
    destruct (lookup_update _ i j _ _ _ Hi Hj2) as [[-> ->]|[_ Hj3]]; [done|].
    destruct (sleeps t) eqn:E; [|done]. destruct Hne. eapply sleeper_unique; try done. unfold wakes_one in *. by rewrite <- Hrm.
  - destruct (lookup_update _ i j _ _ _ Hi Hj) as [[-> ->]|[_ Hj3]]; [done|].
    destruct (sleeps t) eqn:E; [|done]. exfalso. destruct Hq as [Hq|Hq].
    + pose proof (rb_reachable_roles c Hr j t Hj3) as (_ & _ & Hm). destruct t; try done; intuition congruence.
    + assert (0 < count sleeps (threads c))%nat; [apply count_pos; eauto|lia].
Qed.

Lemma rb_awake_step c c' : reachable c -> awake c -> step c c' -> awake c'.
Proof.
  intros Hr Hc Hs. pose proof (wake_leaves_none c c') as Hnone. pose proof (sleep_reason c) as Hreason.
  assert (forall i, threads c !! i = Some Wake -> (forall j t, threads c' !! j = Some t -> sleeps t = false) -> awake c') as Hleft.
  { intros i _ Hz. left. intros j t Hj. specialize (Hz j t Hj). by destruct t. }
  unfold awake in *. destruct Hs as [Hs|Hs]; destruct Hs; try congruence; simpl in *;
    match goal with
    | Hi : threads _ !! ?i = Some ?t0 |- context [<[?i := ?t]> (threads ?c)] =>
        pose proof (count_update wakes (threads c) i t0 t Hi) as C; simpl in C
    end; try (right; lia);
    try (destruct Hc as [Hc|Hc]; [left|right; lia]; eapply rb_inv_others; [done|done|]; intros j u Hj _; by eapply Hc).
  - apply (Hleft i H), (Hnone i Hr H). by left.
  - apply (Hleft i H), (Hnone i Hr H). right; left. by exists j, t.
  - apply (Hleft i H), (Hnone i Hr H). right; right. split; [done|]. tauto.
  - destruct Hc as [Hc|Hc]; [left|right; lia]. eapply rb_inv_others; [done| |intros j u Hj _; by eapply Hc].
    apply (Hreason i (RWait n p w) w); eauto.
  - destruct Hc as [Hc|Hc]; [left|right; lia]. eapply rb_inv_others; [done|done|]. intros j u Hj Hne.
    specialize (Hc j u Hj). destruct u; try done. destruct Hne. symmetry. by eapply (one_rholder c i j (LBump d)).
  - destruct Hc as [Hc|Hc]; [left|right; lia]. eapply rb_inv_others; [done| |intros j u Hj _; by eapply Hc].
    apply (Hreason i (LWait w) w); eauto.
  - destruct Hc as [Hc|Hc]; [left|right; destruct t; simpl in *; lia || done].
    eapply rb_inv_others; [done|by destruct t|intros j u Hj _; by eapply Hc].
Qed.

Lemma rb_reachable_awake c : reachable c -> awake c.
Proof.
  revert c. apply (rtc_invariant step awake).
  - left. intros i t Hi. by apply lookup_replicate in Hi as [-> _].
  - intros c1 c2 Hr IH Hs. by eapply rb_awake_step.
Qed.

(** Which threads may be unable to go on. *)
Lemma stuck_states c :
  reachable c -> (forall c', ~ run_step c c') ->
  forall i t, threads c !! i = Some t ->
    match t with
    | Idle | LSleep | RSleep _ _ => True
    | RLoad n _ => zlen (wlog c) mod cap = n mod cap
    | WBegin _ => wlocked c = true /\ write_mode r0 = WRITE_MODE_LOCK
    | WCas _ n _ => n <> zlen (wlog c)
    | LLock => rlocked c = true
    | _ => False
    end.
Proof.
  intros Hr Hstuck i t Hi. pose proof (rb_reachable_inv c Hr) as HI. pose proof rb_cap_range.
  destruct (rb_reachable_static _ Hr) as (_ & Hwm & Hrm). pose proof (inv_datas _ HI) as Hdt.
  assert (forall x, exists d, aget (datas (ring c)) (x mod cap) = Done d) as Hget.
  { intros x. pose proof (Z.mod_pos_bound x cap ltac:(lia)).
    destruct (zlookup_is_Some (datas (ring c)) (x mod cap)) as [d Hd]; [lia|]. exists d. by apply aget_Some. }
  assert (forall x d, exists l, aset (datas (ring c)) (x mod cap) d = Done l) as Hset.
  { intros x d. pose proof (Z.mod_pos_bound x cap ltac:(lia)). eexists. apply aset_zinsert. lia. }
  assert (pos (ring c) (cursor (ring c)) = zlen (wlog c) mod cap) as Hwp by (rewrite (inv_cursor _ HI); by apply pos_eq).
  pose proof (inv_knows _ HI _ _ Hi) as Hkn. destruct t; try done; simpl in Hkn.
  - destruct (write_mode (ring c)) eqn:E.
    + split; [|congruence]. destruct (wlocked c) eqn:El; [done|]. exfalso. eapply Hstuck. by eapply s_wlock.
    + exfalso. eapply Hstuck. by eapply s_single.
    + exfalso. eapply Hstuck. by eapply s_number.
  - destruct (Hset (zlen (wlog c)) d) as [l Hl]. eapply Hstuck, s_store; [done|]. by rewrite Hwp.
  - eapply Hstuck. by eapply s_publish.
  - destruct (decide (write_mode (ring c) = WRITE_MODE_LOCK)); eapply Hstuck; [by eapply s_wunlock|by eapply s_no_unlock].
  - destruct (Hset n d) as [l Hl]. eapply Hstuck, s_store_at; [done|]. by rewrite Hkn, pos_eq.
  - destruct Hkn as [-> _]. intros ->. eapply Hstuck, s_cas; [done|]. apply (inv_cursor _ HI).
  - destruct (read_mode (ring c)) eqn:E; [eapply Hstuck; by eapply s_wake_all| |eapply Hstuck, s_wake_none; [done|by left]| ];
      (destruct (decide (count sleeps (threads c) = 0%nat)) as [Hz|Hz];
       [eapply Hstuck, s_wake_none; [done|]; right; split; [unfold wakes_one; by rewrite E|done]|]);
      (destruct (proj1 (count_pos sleeps (threads c))) as (j & u & Hj & Hu); [lia|]);
      (eapply Hstuck, s_wake_one; try done; unfold wakes_one; by rewrite E).
  - eapply Hstuck. by eapply s_write_return.
  - destruct Hkn as [-> _]. destruct (decide (zlen (wlog c) mod cap = n mod cap)); [done|]. exfalso. eapply Hstuck, s_load; [done|congruence].
  - destruct Hkn as [-> _]. destruct (Hget n) as [d Hd]. eapply Hstuck. by eapply s_take.
  - destruct (decide (cursor (ring c) = w_cursor)); eapply Hstuck; [by eapply s_sleep|by eapply s_wait_changed].
  - eapply Hstuck. by eapply s_read_return.
  - destruct (rlocked c) eqn:E; [done|]. exfalso. eapply Hstuck. by eapply s_rlock.
  - destruct (decide (pos (ring c) (cursor (ring c)) = pos (ring c) (read_cursor (ring c)))); eapply Hstuck;
      [by eapply s_lempty|by eapply s_lload].
  - destruct Hkn as [-> _]. destruct (Hget (zlen (rlog c))) as [d Hd]. eapply Hstuck. by eapply s_ltake.
  - eapply Hstuck. by eapply s_lbump.
  - destruct (decide (cursor (ring c) = w_cursor)); eapply Hstuck; [by eapply s_lsleep|by eapply s_lwait_changed].
  - eapply Hstuck. by eapply s_runlock.
  - eapply Hstuck. by eapply s_lread_return.
Qed.
(** The reader of message [n] of which [p] are published has everything, or is
    a ring or more behind. *)
Definition waits_for (p n : Z) : Prop := n = p \/ n + cap <= p.

Lemma waits_mod p n : n <= p -> p mod cap = n mod cap -> waits_for p n.
Proof.
  intros Hle E. pose proof rb_cap_range. destruct (decide (p - n < cap)) as [Hlt|]; [|right; lia].
  left. symmetry. apply (mod_eq_close cap); [lia|lia|done].
Qed.

Lemma rb_stuck_quiet c :
  reachable c -> (forall c', ~ run_step c c') ->
  forall i t, threads c !! i = Some t ->
    t = Idle \/
    (exists n q, (t = RSleep n q \/ t = RLoad n q) /\ waits_for (zlen (wlog c)) n) \/
    ((t = LSleep \/ (t = LLock /\ exists j, threads c !! j = Some LSleep)) /\
     waits_for (zlen (wlog c)) (zlen (rlog c))).
Proof.
  intros Hr Hstuck. pose proof (stuck_states c Hr Hstuck) as Hq. pose proof (rb_reachable_inv c Hr) as HI.
  assert (forall i t, threads c !! i = Some t -> sleeps_ok (zlen (wlog c)) (zlen (rlog c)) t) as Hok.
  { destruct (rb_reachable_awake c Hr) as [?|Hw]; [done|]. apply count_pos in Hw as (j & u & Hj & Hu).
    specialize (Hq _ _ Hj). by destruct u. }
  assert (forall j, threads c !! j = Some LSleep -> waits_for (zlen (wlog c)) (zlen (rlog c))) as Hl.
  { intros j Hj. apply waits_mod; [apply (inv_read _ HI)|apply (Hok _ _ Hj)]. }
  intros i t Hi. pose proof (Hq _ _ Hi) as Ht. pose proof (inv_knows _ HI _ _ Hi) as Hkn. destruct t; try done; [by left|..].
  - exfalso. destruct Ht as [Hl1 Hm]. pose proof (wlocked_count c Hm Hr) as Hc. rewrite Hl1 in Hc.
    rewrite count_zero in Hc; [done|]. intros j u Hj. specialize (Hq _ _ Hj). by destruct u.
  - exfalso. pose proof (claim_range c i _ n HI Hi eq_refl) as Hn. assert (zlen (wlog c) ∈ omap claim (threads c)) as Hin.
    { rewrite (inv_claims _ HI), elem_of_seqZ. lia. }
    apply list_elem_of_omap in Hin as (u & [j Hj]%list_elem_of_lookup & Hu).
    specialize (Hq _ _ Hj). destruct u; simplify_eq/=; done.
  - right; left. exists n, r_pos. split; [by right|]. destruct Hkn as [_ ?]. apply waits_mod; [lia|done].
  - right; left. exists n, r_pos. split; [by left|]. destruct Hkn as [_ ?]. apply waits_mod; [lia|apply (Hok _ _ Hi)].
  - right; right. pose proof (rlocked_count c Hr) as Hc. rewrite Ht in Hc. simpl in Hc.
    destruct (proj1 (count_pos rholds (threads c))) as (j & u & Hj & Hu); [lia|]. pose proof (Hq _ _ Hj) as Hu'.
    destruct u; try done. split; [by eauto|by eapply Hl].
  - right; right. split; [by left|by eapply Hl].
Qed.

(** ** Messages read once *)

(** Runs in which the writes begun are never more than a ring ahead of the
    messages read. *)
Definition kept_up (c : conf) : Prop :=
  rtc (fun c c' => step c c' /\ begun c' <= zlen (rlog c') + cap) (start r0 nt) c.

Lemma kept_up_prefix c : kept_up c -> reachable c /\ begun c <= zlen (rlog c) + cap /\ rlog c `prefix_of` wlog c.
Proof.
  assert (begun (start r0 nt) <= zlen (rlog (start r0 nt)) + cap) as H0.
  { destruct (claims_room (start r0 nt)) as [Hl _]; [apply rtc_refl|]. unfold begun. simpl in *. unfold zlen in *. simpl. lia. }
  revert c. apply (rtc_invariant _ (fun c => reachable c /\ begun c <= zlen (rlog c) + cap /\ rlog c `prefix_of` wlog c)).
  { split; [apply rtc_refl|]. by split. }
  intros c c' _ (Hr & Hb & Hp) [Hs Hb']. split; [by eapply rtc_r|]. split; [done|]. pose proof (rb_reachable_inv c Hr) as HI.
  destruct (step_effect _ _ Hs) as [| i n d| | |i idx n d| i d Hi | c' _ -> -> _ _]; try done; [by apply prefix_app_r..|].
  simpl. pose proof (inv_knows _ HI _ _ Hi) as [Hlt Hd]. specialize (Hd Hb). destruct Hp as [l Hl].
  rewrite Hl, zlookup_app_r, Z.sub_diag in Hd by lia. destruct l as [|x l]; [done|]. injection Hd as ->.
  exists l. by rewrite Hl, <- (assoc_L (++)).
Qed.
End proofs.

(** ** Theorems *)

(** A ring as it is set up for 1 to 2^30 messages. *)
Lemma ring_buffer_init_spec `{Malloc ptr} cap0 flags r :
  1 <= cap0 <= 2 ^ 30 -> muggle_ring_buffer_init [MUGGLE_OK; MUGGLE_OK; MUGGLE_OK] cap0 flags = inr r ->
  exists k, 0 <= k <= 30 /\ cap0 <= 2 ^ k /\ capacity r = 2 ^ k /\ zlen (datas r) = 2 ^ k /\
    (next r = 0 /\ cursor r = 0 /\ read_cursor r = 0).
Proof.
  intros Hc Hi. exists (Z.log2_up cap0).
  assert (0 <= Z.log2_up cap0 <= 30) as Hk.
  { split; [apply Z.log2_up_nonneg|apply (Z.log2_up_le_mono cap0 (2 ^ 30)); lia]. }
  pose proof (Z.pow_pos_nonneg 2 (Z.log2_up cap0) ltac:(lia) ltac:(lia)).
  assert (2 ^ Z.log2_up cap0 <= 2 ^ 30) by (apply Z.pow_le_mono_r; lia).
  assert (cap0 <= 2 ^ Z.log2_up cap0) by (apply Z.log2_up_le_pow2; lia).
  revert Hi. unfold muggle_ring_buffer_init. destruct (Z.leb_spec cap0 0); [lia|].
  rewrite (wrap_small 64 cap0), next_pow_of_2_log2_up, (swrap_small 32) by lia.
  destruct (Z.leb_spec (2 ^ Z.log2_up cap0) 0); [lia|]. destruct (muggle_ring_buffer_get_mode flags) as [|[wm rm]]; [done|].
  simpl. destruct (malloc_cells _) as [l|] eqn:E; [|done]. apply malloc_cells_len in E.
  intros [= <-]. simpl. split_and!; lia || done.
Qed.

(** Only the writers in the busy loop take a compare-and-swap: in the other modes
    there is none to fail. *)
Lemma step_strong weak nw reads r nt c c' :
  (weak = true -> write_mode r <> WRITE_MODE_BUSY_LOOP) ->
  reachable false nw reads r nt c -> step weak nw reads c c' -> step false nw reads c c'.
Proof.
  intros Hw Hr [Hs|Hs]; [by left|].
  inversion Hs; subst; [right; by econstructor..|].
  match goal with Hi : threads _ !! _ = Some (WCas _ _ _) |- _ =>
    destruct (Hw eq_refl); exact (proj2 (proj2 (rb_reachable_roles 0 ltac:(lia) r nt nw reads
      (fun E => False_ind _ (Hw eq_refl E)) _ Hr _ _ Hi))) end.
Qed.

Lemma ring_reachable_strong weak nw reads r nt (P : conf -> Prop) c :
  (weak = true -> write_mode r <> WRITE_MODE_BUSY_LOOP) ->
  rtc (fun c c' => step weak nw reads c c' /\ P c') (start r nt) c ->
  reachable false nw reads r nt c /\ rtc (fun c c' => step false nw reads c c' /\ P c') (start r nt) c.
Proof.
  intros Hw. apply (rtc_invariant _ (fun c => reachable false nw reads r nt c /\
    rtc (fun c c' => step false nw reads c c' /\ P c') (start r nt) c)); [split; apply rtc_refl|].
  intros c1 c2 _ [Hr Hp] [Hs HP]. apply (step_strong weak _ _ r nt) in Hs; [|done..].
  split; eapply rtc_r; by eauto.
Qed.

Section theorems.
Context `{Malloc ptr}.
Context (cap0 flags : Z) (r : muggle_ring_buffer) (Hcap0 : 1 <= cap0 <= 2 ^ 30).
Context (Hri : muggle_ring_buffer_init [MUGGLE_OK; MUGGLE_OK; MUGGLE_OK] cap0 flags = inr r).
Context (nt nw : nat) (reads : nat -> Prop) (rd : nat).
Context (Hsingle : write_mode r = WRITE_MODE_SINGLE -> (nw <= 1)%nat).
Context (Hbusy : write_mode r = WRITE_MODE_BUSY_LOOP -> Z.of_nat nw <= capacity r).
Context (Hrd : read_mode r = READ_MODE_SINGLE_WAIT -> forall i, reads i -> i = rd).

(** The compare-and-swap of the busy loop fails only when the cursor is not as
    expected. *)
Context (weak : bool) (Hweak : weak = true -> write_mode r <> WRITE_MODE_BUSY_LOOP).

Lemma strong c : reachable weak nw reads r nt c -> reachable false nw reads r nt c.
Proof.
  intros Hr. apply (ring_reachable_strong weak nw reads r nt (fun _ => True)); [done|].
  eapply rtc_subrel, Hr. by intros ?? ?.
Qed.


(** C34: no wakeup of a ring buffer is lost, under the same conditions (one writer
    or one reader where it was set up so, not more writers in the busy loop than
    cells, and a weak compare-and-swap of the busy loop that fails only when the
    cursor is not as expected): when no thread can go on by itself,
    every thread is outside a call or a reader that waits for the next message
    (or is a ring or more behind, where the cursor looks the same); no writer
    is left in its busy loop or waiting for the lock, and no thread accesses
    memory outside the ring. *)
Theorem ring_buffer_progress c :
  reachable weak nw reads r nt c -> (forall c', ~ run_step c c') ->
  forall i t, threads c !! i = Some t ->
    t = Idle \/
    (exists n q, (t = RSleep n q \/ t = RLoad n q) /\ (n = zlen (wlog c) \/ n + capacity r <= zlen (wlog c))) \/
    ((t = LSleep \/ (t = LLock /\ exists j, threads c !! j = Some LSleep)) /\
     (zlen (rlog c) = zlen (wlog c) \/ zlen (rlog c) + capacity r <= zlen (wlog c))).
Proof.
  intros Hr%strong. destruct (ring_buffer_init_spec _ _ _ Hcap0 Hri) as (k & Hk & _ & Hc & Hd & Hz).
  rewrite Hc in *. by apply (rb_stuck_quiet k Hk r nt nw reads rd Hsingle Hbusy Hrd Hc Hd Hz c).
Qed.
End theorems.
(** ** A scheduler, to run concrete interleavings *)

(** The next step of thread [i]; a wake of one wakes the first sleeper. *)
Definition thread_step (i : nat) (c : conf) : option conf :=
  let r := ring c in
  match threads c !! i with
  | Some (WBegin d) =>
      match write_mode r with
      | WRITE_MODE_LOCK => if wlocked c then None else Some (wlock true (goto c i (WStore d)))
      | WRITE_MODE_SINGLE => Some (goto c i (WStore d))
      | WRITE_MODE_BUSY_LOOP =>
          Some (with_ring (set_next (i32 (next r + 1)) r) (goto c i (WStoreAt (next r) (begun c) d)))
      end
  | Some (WStore d) =>
      match aset (datas r) (pos r (cursor r)) d with
      | Done l => Some (with_ring (set_datas l r) (goto c i (WPublish (zlen (wlog c)) d)))
      | _ => None
      end
  | Some (WPublish n d) =>
      Some (mkc (set_cursor (i32 (cursor r + 1)) r) (wlocked c) (rlocked c)
        (<[i := WUnlock]> (threads c)) (wlog c ++ [d]) (rlog c))
  | Some WUnlock =>
      Some (if decide (write_mode r = WRITE_MODE_LOCK) then wlock false (goto c i Wake) else goto c i Wake)
  | Some (WStoreAt idx n d) =>
      match aset (datas r) (pos r idx) d with
      | Done l => Some (with_ring (set_datas l r) (goto c i (WCas idx n d)))
      | _ => None
      end
  | Some (WCas idx n d) =>
      if decide (cursor r = idx) then
        Some (mkc (set_cursor (i32 (idx + 1)) r) (wlocked c) (rlocked c)
          (<[i := Wake]> (threads c)) (wlog c ++ [d]) (rlog c))
      else None
  | Some Wake =>
      match read_mode r with
      | READ_MODE_WAIT =>
          Some (mkc r (wlocked c) (rlocked c) (woken <$> <[i := WRet]> (threads c)) (wlog c) (rlog c))
      | READ_MODE_BUSY_LOOP => Some (goto c i WRet)
      | _ =>
          match list_find (fun t => sleeps t = true) (threads c) with
          | Some (j, t) => Some (goto (goto c i WRet) j (woken t))
          | None => Some (goto c i WRet)
          end
      end
  | Some WRet | Some (RRet _ _) | Some (LRet _) => Some (goto c i Idle)
  | Some (RLoad n p) =>
      if decide (pos r (cursor r) = p) then
        if decide (read_mode r = READ_MODE_BUSY_LOOP) then None else Some (goto c i (RWait n p (cursor r)))
      else Some (goto c i (RTake n p))
  | Some (RTake n p) => match aget (datas r) p with Done d => Some (goto c i (RRet n d)) | _ => None end
  | Some (RWait n p w) => Some (goto c i (if decide (cursor r = w) then RSleep n p else RLoad n p))
  | Some LLock => if rlocked c then None else Some (rlock true (goto c i LLoad))
  | Some LLoad =>
      Some (goto c i (if decide (pos r (cursor r) = pos r (read_cursor r)) then LWait (cursor r)
                      else LTake (pos r (read_cursor r))))
  | Some (LTake p) => match aget (datas r) p with Done d => Some (goto c i (LBump d)) | _ => None end
  | Some (LBump d) =>
      Some (mkc (set_read_cursor (i32 (read_cursor r + 1)) r) (wlocked c) (rlocked c)
        (<[i := LUnlock d]> (threads c)) (wlog c) (rlog c ++ [d]))
  | Some (LWait w) => Some (goto c i (if decide (cursor r = w) then LSleep else LLoad))
  | Some (LUnlock d) => Some (rlock false (goto c i (LRet d)))
  | _ => None
  end.

Lemma rb_thread_step_sound i c c' : thread_step i c = Some c' -> run_step c c'.
Proof.
  unfold thread_step. destruct (threads c !! i) as [t|] eqn:Hi; [|done]. cbv zeta. destruct t; try done.
  - destruct (write_mode (ring c)) eqn:E; [destruct (wlocked c) eqn:Hl|..]; intros [= <-];
      [by apply s_wlock|by apply s_single|by apply s_number].
  - destruct (aset _ _ _) eqn:Ha; intros [= <-]. by apply s_store.
  - intros [= <-]. by eapply s_publish.
  - case_decide; intros [= <-]; [by apply s_wunlock|by apply s_no_unlock].
  - destruct (aset _ _ _) eqn:Ha; intros [= <-]. by apply s_store_at.
  - case_decide; intros [= <-]. by eapply s_cas.
  - destruct (read_mode (ring c)) eqn:E; [intros [= <-]; by apply s_wake_all| |intros [= <-]; apply s_wake_none; auto| ];
      (assert (wakes_one (ring c) = true) as Hw by (unfold wakes_one; by rewrite E));
      (destruct (list_find _ _) as [[j t]|] eqn:F; intros [= <-];
       [apply list_find_Some in F as (Hj & Ht & _); by apply s_wake_one|]);
      (apply s_wake_none; [done|]; right; split; [done|]; apply count_zero; intros j t Hj;
       apply list_find_None in F; rewrite list.Forall_forall in F;
       apply not_true_is_false, F, list_elem_of_lookup; by exists j).
  - intros [= <-]. by apply s_write_return.
  - case_decide; [case_decide|]; intros [= <-]; [by apply s_empty|by apply s_load].
  - destruct (aget _ _) eqn:Ha; intros [= <-]. by eapply s_take.
  - case_decide; intros [= <-]; [by eapply s_sleep|by eapply s_wait_changed].
  - intros [= <-]. by eapply s_read_return.
  - destruct (rlocked c) eqn:E; intros [= <-]. by apply s_rlock.
  - case_decide; intros [= <-]; [by apply s_lempty|by apply s_lload].
  - destruct (aget _ _) eqn:Ha; intros [= <-]. by eapply s_ltake.
  - intros [= <-]. by apply s_lbump.
  - case_decide; intros [= <-]; [by eapply s_lsleep|by eapply s_lwait_changed].
  - intros [= <-]. by apply s_runlock.
  - intros [= <-]. by eapply s_lread_return.
Qed.

(** An entry of a schedule: a call, the next step of a thread, or a failure of
    its compare-and-swap although the cursor is as expected. *)
Inductive move : Type := Call_write (d : ptr) | Call_read (n : Z) | Call_read_once | Run | Weak_fail.

Definition do_move (i : nat) (m : move) (c : conf) : option conf :=
  match m, threads c !! i with
  | Call_write d, Some Idle => Some (goto c i (WBegin d))
  | Call_read n, Some Idle =>
      if decide (read_mode (ring c) <> READ_MODE_LOCK /\ 0 <= n <= zlen (wlog c))
      then Some (goto c i (RLoad n (pos (ring c) (i32 n)))) else None
  | Call_read_once, Some Idle =>
      if decide (read_mode (ring c) = READ_MODE_LOCK) then Some (goto c i LLock) else None
  | Run, _ => thread_step i c
  | Weak_fail, Some (WCas idx n d) => if decide (cursor (ring c) = idx) then Some (goto c i Wake) else None
  | _, _ => None
  end.

Fixpoint exec (l : list (nat * move)) (c : conf) : option conf :=
  match l with
  | [] => Some c
  | (i, m) :: l' => match do_move i m c with Some c' => exec l' c' | None => None end
  end.

(** What a schedule asks of the clients and of the compare-and-swap. *)
Definition allowed (weak : bool) (nw : nat) (reads : nat -> Prop) (e : nat * move) : Prop :=
  match e.2 with
  | Call_write _ => (e.1 < nw)%nat
  | Call_read _ | Call_read_once => reads e.1
  | Run => True
  | Weak_fail => weak = true
  end.

Lemma rb_do_move_sound weak nw reads i m c c' :
  allowed weak nw reads (i, m) -> do_move i m c = Some c' -> step weak nw reads c c'.
Proof.
  intros Ha Hm. destruct m; simpl in Ha, Hm; [..|left; by eapply rb_thread_step_sound|];
    (destruct (threads c !! i) as [[]|] eqn:Hi; try done); right.
  - injection Hm as <-. by apply s_write.
  - case_decide as E; [|done]. injection Hm as <-. destruct E. by apply s_read.
  - case_decide as E; [|done]. injection Hm as <-. by apply s_read_lock.
  - case_decide as E; [|done]. injection Hm as <-. by eapply s_weak.
Qed.

Lemma rb_exec_sound weak nw reads l : forall c c',
  Forall (allowed weak nw reads) l -> exec l c = Some c' -> rtc (step weak nw reads) c c'.
Proof.
  induction l as [|[i m] l IH]; intros c c' Hall; simpl; [by intros [= ->]|].
  apply Forall_cons in Hall as [Ha Hall]. destruct (do_move i m c) as [c1|] eqn:E; [|done].
  intros Hl. eapply rtc_l; [by eapply rb_do_move_sound|]. by apply IH.
Qed.
(** ** Witnesses: a ring of two cells with writers in a busy loop (threads 0 and
    1) and waiting readers (threads 2 and 3). *)
Definition sample_ring (capacity : Z) : muggle_ring_buffer :=
  mkrb capacity 4 WRITE_MODE_BUSY_LOOP READ_MODE_WAIT 0 0 0 (replicate (Z.to_nat capacity) NULL).

Lemma sample_ring_init :
  @muggle_ring_buffer_init (malloc_zeroed NULL) [MUGGLE_OK; MUGGLE_OK; MUGGLE_OK] 2
    MUGGLE_RING_BUFFER_FLAG_WRITE_BUSY_LOOP = inr (sample_ring 2).
Proof. vm_compute. reflexivity. Qed.

Definition sample_reads (i : nat) : Prop := (2 <= i)%nat.
Definition runs (i m : nat) : list (nat * move) := replicate m (i, Run).

(** Reader 2 waits for message 0; both writers take numbers, the second one
    stores first, the first one stores, publishes and wakes the reader. *)
Definition sample_schedule : list (nat * move) :=
  (2%nat, Call_read 0) :: runs 2 2 ++ (0%nat, Call_write 70) :: runs 0 1 ++ (1%nat, Call_write 71) :: runs 1 2 ++
  runs 0 3 ++ runs 2 2.

Definition sample_conf : conf :=
  mkc (mkrb 2 4 WRITE_MODE_BUSY_LOOP READ_MODE_WAIT 2 1 0 [70; 71]) false false
    [WRet; WCas 1 1 71; RRet 0 70; Idle] [70] [].

Ltac run_schedule :=
  unfold runs; simpl;
  repeat (apply Forall_cons; split; [unfold allowed, sample_reads; simpl; first [done | lia]|]); apply Forall_nil_2.

Lemma sample_ring_reachable : reachable false 2 sample_reads (sample_ring 2) 4 sample_conf.
Proof. apply (rb_exec_sound _ _ _ sample_schedule); [unfold sample_schedule; run_schedule|vm_compute; reflexivity]. Qed.


Definition sample_stuck : conf :=
  mkc (mkrb 2 4 WRITE_MODE_BUSY_LOOP READ_MODE_WAIT 2 2 0 [70; 71]) false false
    [Idle; Idle; RSleep 2 0; Idle] [70; 71] [].

Lemma rb_sample_stuck_reachable : reachable false 2 sample_reads (sample_ring 2) 4 sample_stuck.
Proof.
  apply (rb_exec_sound _ _ _ (sample_schedule ++ runs 0 1 ++ runs 1 3 ++ runs 2 1 ++ (2%nat, Call_read 2) :: runs 2 2));
    [unfold sample_schedule; run_schedule|vm_compute; reflexivity].
Qed.

Lemma ring_buffer_progress_witness :
  threads sample_stuck !! 2%nat = Some (RSleep 2 0) /\
  forall i t, threads sample_stuck !! i = Some t ->
    t = Idle \/
    (exists n q, (t = RSleep n q \/ t = RLoad n q) /\ (n = zlen (wlog sample_stuck) \/ n + 2 <= zlen (wlog sample_stuck))) \/
    ((t = LSleep \/ (t = LLock /\ exists j, threads sample_stuck !! j = Some LSleep)) /\
     (zlen (rlog sample_stuck) = zlen (wlog sample_stuck) \/ zlen (rlog sample_stuck) + 2 <= zlen (wlog sample_stuck))).
Proof.
  split; [reflexivity|].
  apply (@ring_buffer_progress (malloc_zeroed NULL) 2 4 (sample_ring 2) ltac:(lia) sample_ring_init 4 2 sample_reads 0
    ltac:(done) ltac:(simpl; lia) ltac:(done) false ltac:(done) sample_stuck rb_sample_stuck_reachable).
  intros c' Hs. inversion Hs; subst; simpl in *;
    repeat match goal with Hi : [_; _; _; _] !! ?i = Some _ |- _ => destruct i as [|[|[|[|?]]]]; simplify_eq/= end.
Defined.

(** ** Where the promises end *)

(** The compare-and-swap of a writer may fail although the cursor is as expected:
    the loop then ends, the write returns MUGGLE_OK and its message is not
    published, and no other writer gets out of its loop any more. *)
Example ring_buffer_weak_write_blocks :
  reachable true 2 sample_reads (sample_ring 2) 4
    (mkc (mkrb 2 4 WRITE_MODE_BUSY_LOOP READ_MODE_WAIT 2 0 0 [70; 71]) false false
      [Idle; WCas 1 0 71; Idle; Idle] [] []) /\
  forall c', ~ run_step (mkc (mkrb 2 4 WRITE_MODE_BUSY_LOOP READ_MODE_WAIT 2 0 0 [70; 71]) false false
      [Idle; WCas 1 0 71; Idle; Idle] [] []) c'.
Proof.
  split.
  - apply (rb_exec_sound _ _ _ ((0%nat, Call_write 70) :: runs 0 2 ++ (0%nat, Weak_fail) :: runs 0 2 ++
      (1%nat, Call_write 71) :: runs 1 2)); [run_schedule|vm_compute; reflexivity].
  - intros c' Hs. inversion Hs; subst; simpl in *;
      repeat match goal with Hi : [_; _; _; _] !! ?i = Some _ |- _ => destruct i as [|[|[|[|?]]]]; simplify_eq/= end.
Qed.

(** With more writers in the busy loop than cells, a writer that stores late
    overwrites a message that has a later number: the reader of message 2 gets
    message 0, although it is not behind. *)
Example ring_buffer_too_many_writers :
  exists c, reachable false 3 (fun i => i = 3%nat) (sample_ring 2) 4 c /\
    threads c !! 3%nat = Some (RRet 2 70) /\ wlog c = [70; 71; 72] /\ begun c = 3.
Proof.
  eexists. split.
  - apply (rb_exec_sound _ _ _ ((0%nat, Call_write 70) :: runs 0 1 ++ (1%nat, Call_write 71) :: runs 1 2 ++
      (2%nat, Call_write 72) :: runs 2 2 ++ runs 0 2 ++ runs 1 1 ++ runs 2 1 ++ (3%nat, Call_read 2) :: runs 3 2));
      [run_schedule|vm_compute; reflexivity].
  - done.
Qed.

(** In a ring for one message every reader waits for ever, published messages or
    not. *)
Example ring_buffer_of_one :
  exists c, reachable false 1 sample_reads (sample_ring 1) 3 c /\ threads c = [Idle; Idle; RSleep 0 0] /\ wlog c = [70].
Proof.
  eexists. split.
  - apply (rb_exec_sound _ _ _ ((0%nat, Call_write 70) :: runs 0 5 ++ (2%nat, Call_read 0) :: runs 2 2));
      [run_schedule|vm_compute; reflexivity].
  - done.
Qed.
End RingBuffer.
