(* ===== verification/TsMemoryPool.v ===== *)
(** muggle/c/memory/threadsafe_memory_pool.{h,c}: a pool of blocks that threads
    take with a compare-and-swap and give back under a mutex.  The threads are
    interleaved at every access to a shared field; the theorems hold until the
    32-bit cursors would overflow. *)

From stdpp Require Import base list numbers relations.
From Stdlib Require Import ZArith Lia.
From S2P Require Import Prelude BaseUtils Dsaa Ring Threads.

Open Scope Z_scope.

Module TsMemoryPool.

(** A block is named by its number; [ptrs] is the ring of free blocks. *)
Record muggle_ts_memory_pool := mkpool {
  capacity : Z;
  block_size : Z;
  data : list Z;
  ptrs : list Z;
  alloc_cursor : Z;
  free_cursor : Z
}.

Definition set_alloc_cursor (a : Z) (p : muggle_ts_memory_pool) : muggle_ts_memory_pool :=
  mkpool (capacity p) (block_size p) (data p) (ptrs p) a (free_cursor p).
Definition set_free_cursor (f : Z) (p : muggle_ts_memory_pool) : muggle_ts_memory_pool :=
  mkpool (capacity p) (block_size p) (data p) (ptrs p) (alloc_cursor p) f.
Definition set_ptrs (l : list Z) (p : muggle_ts_memory_pool) : muggle_ts_memory_pool :=
  mkpool (capacity p) (block_size p) (data p) l (alloc_cursor p) (free_cursor p).

(** [sizeof(muggle_ts_memory_pool_head_t)] and of its container, with the padding
    of a cache line. *)
Definition sizeof_head : Z := 72.

(** [block->pool = pool; pool->ptrs[i].ptr = block;], where the head of block [i]
    has to lie in the data. *)
Definition init_block (block_size : Z) (data : list Z) (i : Z) (ptrs : list Z) : outcome (list Z) :=
  _ ← mem_read data (i32 (block_size * i)) sizeof_head;
  aset ptrs i i.

(** [mutex_init] is the result of the call that sets up the mutex. *)
Definition muggle_ts_memory_pool_init `{Malloc Z} (mutex_init : Z) (capacity data_size : Z)
  : outcome (Z + muggle_ts_memory_pool) :=
  if capacity <=? 0 then mret (inl MUGGLE_ERR_INVALID_PARAM)
  else if data_size <=? 0 then mret (inl MUGGLE_ERR_INVALID_PARAM)
  else
    let capacity := i32 (next_pow_of_2 (u64 capacity)) in
    if capacity <=? 0 then mret (inl MUGGLE_ERR_INVALID_PARAM)
    else
      let block_size := i32 (next_pow_of_2 (u64 (sizeof_head + data_size))) in
      if block_size <=? 0 then mret (inl MUGGLE_ERR_INVALID_PARAM)
      else if negb (mutex_init =? 0) then mret (inl mutex_init)
      else
        match malloc_array 1 (u64 (i32 (capacity * block_size))), malloc_array sizeof_head capacity with
        | Some data, Some ptrs =>
            ptrs ← for_up 0 capacity (init_block block_size data) ptrs;
            mret (inr (mkpool capacity block_size data ptrs 0 capacity))
        | _, _ => mret (inl MUGGLE_ERR_MEM_ALLOC)
        end.

(** ** The threads *)

(** Where a thread is: in an alloc that expects the cursor [e] (and has read the
    block [b] there), or in a free of block [b]. *)
Inductive pc : Type :=
| Idle
| Start                      (* about to load the alloc cursor *)
| Test (e : Z)               (* about to compare with the free cursor *)
| Fetch (e : Z)              (* about to read the block *)
| Cas (e b : Z)              (* about to move the alloc cursor *)
| ARet (b : option Z)        (* alloc returns; None: NULL *)
| Lock (b : Z)               (* about to lock *)
| Store (b : Z)              (* about to write the block *)
| Publish (b : Z)            (* about to move the free cursor *)
| Unlock.

Record conf := mkc {
  pool : muggle_ts_memory_pool;
  locked : bool;               (* free_mutex *)
  threads : list pc;
  held : list Z;               (* the blocks of the clients *)
  allocs : Z;                  (* how often the alloc cursor was moved *)
  frees : Z                    (* how often the free cursor was moved *)
}.

Definition goto (c : conf) (i : nat) (t : pc) : conf :=
  mkc (pool c) (locked c) (<[i := t]> (threads c)) (held c) (allocs c) (frees c).
Definition lock (b : bool) (c : conf) : conf := mkc (pool c) b (threads c) (held c) (allocs c) (frees c).
Definition give (b : Z) (c : conf) : conf := mkc (pool c) (locked c) (threads c) (b :: held c) (allocs c) (frees c).

Definition pos (p : muggle_ts_memory_pool) (cursor : Z) : Z := IDX_IN_POW_OF_2_RING cursor (capacity p).

(** What a thread does by itself.  A failed compare-and-swap leaves the value of
    the cursor in [expected]; the loop ends when that is [alloc_pos]. *)
Inductive run_step : conf -> conf -> Prop :=
| s_start c i :
    threads c !! i = Some Start -> run_step c (goto c i (Test (alloc_cursor (pool c))))
| s_none c i e :
    threads c !! i = Some (Test e) -> e = free_cursor (pool c) -> run_step c (goto c i (ARet None))
| s_some c i e :
    threads c !! i = Some (Test e) -> e <> free_cursor (pool c) -> run_step c (goto c i (Fetch e))
| s_fetch c i e b :
    threads c !! i = Some (Fetch e) -> aget (ptrs (pool c)) (pos (pool c) e) = Done b ->
    run_step c (goto c i (Cas e b))
| s_cas c i e b :
    threads c !! i = Some (Cas e b) -> alloc_cursor (pool c) = e ->
    run_step c (mkc (set_alloc_cursor (i32 (e + 1)) (pool c)) (locked c)
      (<[i := ARet (Some b)]> (threads c)) (b :: held c) (allocs c + 1) (frees c))
| s_cas_again c i e b :
    threads c !! i = Some (Cas e b) -> alloc_cursor (pool c) <> e -> alloc_cursor (pool c) <> pos (pool c) e ->
    run_step c (goto c i (Test (alloc_cursor (pool c))))
| s_cas_leaves c i e b :
    threads c !! i = Some (Cas e b) -> alloc_cursor (pool c) <> e -> alloc_cursor (pool c) = pos (pool c) e ->
    run_step c (give b (goto c i (ARet (Some b))))
| s_alloc_return c i b :
    threads c !! i = Some (ARet b) -> run_step c (goto c i Idle)
| s_lock c i b :
    threads c !! i = Some (Lock b) -> locked c = false -> run_step c (lock true (goto c i (Store b)))
| s_store c i b l :
    threads c !! i = Some (Store b) -> aset (ptrs (pool c)) (pos (pool c) (free_cursor (pool c))) b = Done l ->
    run_step c (mkc (set_ptrs l (pool c)) (locked c) (<[i := Publish b]> (threads c)) (held c) (allocs c) (frees c))
| s_publish c i b :
    threads c !! i = Some (Publish b) ->
    run_step c (mkc (set_free_cursor (i32 (free_cursor (pool c) + 1)) (pool c)) (locked c)
      (<[i := Unlock]> (threads c)) (held c) (allocs c) (frees c + 1))
| s_unlock c i :
    threads c !! i = Some Unlock -> run_step c (lock false (goto c i Idle)).

(** The calls of the clients: a block that is given back is one they hold.  With
    [weak] the compare-and-swap may fail although the cursor is as expected. *)
Inductive env_step (weak : bool) : conf -> conf -> Prop :=
| s_alloc c i :
    threads c !! i = Some Idle -> env_step weak c (goto c i Start)
| s_free c i b l :
    threads c !! i = Some Idle -> held c ≡ₚ b :: l ->
    env_step weak c (mkc (pool c) (locked c) (<[i := Lock b]> (threads c)) l (allocs c) (frees c))
| s_weak c i e b :
    weak = true -> threads c !! i = Some (Cas e b) -> alloc_cursor (pool c) = e -> e <> pos (pool c) e ->
    env_step weak c (goto c i (Test e))
| s_weak_leaves c i e b :
    weak = true -> threads c !! i = Some (Cas e b) -> alloc_cursor (pool c) = e -> e = pos (pool c) e ->
    env_step weak c (give b (goto c i (ARet (Some b)))).

Definition step (weak : bool) (c c' : conf) : Prop := run_step c c' \/ env_step weak c c'.
Definition start (p : muggle_ts_memory_pool) (n : nat) : conf := mkc p false (replicate n Idle) [] 0 0.
Definition reachable (weak : bool) (p : muggle_ts_memory_pool) (n : nat) (c : conf) : Prop :=
  rtc (step weak) (start p n) c.

(** ** Counting blocks *)

(** The blocks a thread is giving back. *)
Definition pending (t : pc) : list Z :=
  match t with Lock b | Store b | Publish b => [b] | _ => [] end.
Definition in_flight (ts : list pc) : list Z := concat (map pending ts).

Lemma in_flight_update ts i t0 t :
  ts !! i = Some t0 -> pending t0 ++ in_flight (<[i := t]> ts) ≡ₚ pending t ++ in_flight ts.
Proof.
  revert i. induction ts as [|x ts IH]; intros [|i] Hi; simplify_eq/=; unfold in_flight; simpl.
  - by rewrite !(assoc_L (++)), (Permutation_app_comm (pending t0)).
  - fold (in_flight ts) (in_flight (<[i := t]> ts)).
    rewrite (Permutation_app_swap_app (pending t0)), (IH i Hi). apply Permutation_app_swap_app.
Qed.

Lemma in_flight_idle n : in_flight (replicate n Idle) = [].
Proof. induction n as [|n IH]; [done|]. apply IH. Qed.

Lemma zlen_seqZ m : 0 <= m -> zlen (seqZ 0 m) = m.
Proof. intros Hm. unfold zlen. rewrite length_seqZ. lia. Qed.

Definition holds (t : pc) : bool := match t with Store _ | Publish _ | Unlock => true | _ => false end.

Section proofs.
Context (k : Z) (Hk : 0 <= k <= 30) (p0 : muggle_ts_memory_pool) (n : nat).
Notation cap := (2 ^ k).
Notation reachable := (reachable false p0 n).
Notation step := (step false).

Context (Hcap : capacity p0 = cap) (Hptrs : ptrs p0 = seqZ 0 cap)
        (Ha0 : alloc_cursor p0 = 0) (Hf0 : free_cursor p0 = cap).

Lemma ts_cap_range : 1 <= cap <= 2 ^ 30.
Proof. split; [apply (Z.pow_le_mono_r 2 0 k)|apply Z.pow_le_mono_r]; lia. Qed.

(** The free blocks, oldest first: those between the cursors. *)
Definition knows (bl : list Z) (na nf : Z) (l : list Z) (t : pc) : Prop :=
  match t with
  | Test e => 0 <= e <= na
  | Fetch e => 0 <= e <= na /\ e < nf + cap
  | Cas e b => 0 <= e <= na /\ e < nf + cap /\ (e = na -> head l = Some b)
  | Publish b => bl @@ ((nf + cap) mod cap) = Some b
  | _ => True
  end.

Record inv (c : conf) (l : list Z) : Prop := {
  inv_capacity : capacity (pool c) = cap;
  inv_alloc : alloc_cursor (pool c) = allocs c;
  inv_free : free_cursor (pool c) = frees c + cap;
  inv_counts : 0 <= allocs c /\ 0 <= frees c /\ frees c + cap = allocs c + zlen l;
  inv_len : zlen (ptrs (pool c)) = cap;
  inv_ring : ring_at (ptrs (pool c)) cap (allocs c) l;
  inv_blocks : l ++ held c ++ in_flight (threads c) ≡ₚ seqZ 0 cap;
  inv_locked : count holds (threads c) = Nat.b2n (locked c);
  inv_knows : forall i t, threads c !! i = Some t -> knows (ptrs (pool c)) (allocs c) (frees c) l t
}.

Lemma ts_inv_start : inv (start p0 n) (seqZ 0 cap).
Proof.
  pose proof ts_cap_range. split; simpl; rewrite ?Hptrs, ?zlen_seqZ by lia; try done; try lia.
  - intros j Hj. rewrite zlen_seqZ in Hj by lia. rewrite Z.add_0_l, Z.mod_small by lia. done.
  - rewrite in_flight_idle, app_nil_r. done.
  - apply count_zero. intros i t Hi. by apply lookup_replicate in Hi as [-> _].
  - intros i t Hi. by apply lookup_replicate in Hi as [-> _].
Qed.

(** How many blocks are free, when one is being given back. *)
Lemma free_room c l i t : inv c l -> threads c !! i = Some t -> pending t <> [] -> zlen l < cap.
Proof.
  intros HI Hi Ht. pose proof ts_cap_range. pose proof (inv_blocks _ _ HI) as Hb.
  pose proof (in_flight_update _ i t Idle Hi) as Hf. rewrite app_nil_l in Hf.
  apply Permutation_length in Hb, Hf. rewrite !length_app, length_seqZ in *. unfold zlen.
  destruct (pending t); [done|]. simpl in *. lia.
Qed.

(** A thread changes its state, and nothing else changes. *)
Lemma ts_inv_move c l i t0 t :
  inv c l -> threads c !! i = Some t0 -> pending t = pending t0 -> holds t = holds t0 ->
  knows (ptrs (pool c)) (allocs c) (frees c) l t -> inv (goto c i t) l.
Proof.
  intros [] Hi Hp Hh Hkn. split; simpl; try done.
  - pose proof (in_flight_update _ i t0 t Hi) as Hf. rewrite Hp in Hf. apply Permutation_app_inv_l in Hf. by rewrite Hf.
  - pose proof (count_update holds _ i t0 t Hi) as Hc. rewrite Hh in Hc. lia.
  - intros j u Hj. destruct (lookup_update _ i j t t0 u Hi Hj) as [[_ ->]|[_ Hj']]; [done|by apply (inv_knows0 j)].
Qed.

(** What the other threads know. *)
Lemma knows_others c i t0 t (P : pc -> Prop) :
  threads c !! i = Some t0 -> P t -> (forall j u, threads c !! j = Some u -> j <> i -> P u) ->
  forall j u, <[i := t]> (threads c) !! j = Some u -> P u.
Proof.
  intros Hi Ht Ho j u Hj. destruct (lookup_update _ i j t t0 u Hi Hj) as [[-> ->]|[Hne Hj']]; [done|by apply (Ho j)].
Qed.

Lemma one_holder c l i j t u : inv c l -> threads c !! i = Some t -> threads c !! j = Some u ->
  holds t = true -> holds u = true -> i = j.
Proof.
  intros HI. eapply count_unique. rewrite (inv_locked _ _ HI). destruct (locked c); simpl; lia.
Qed.

Lemma pos_mod c l e : inv c l -> pos (pool c) e = e mod cap.
Proof. intros HI. unfold pos. rewrite (inv_capacity _ _ HI). apply ring_index_mod. lia. Qed.

Lemma ts_inv_cas c l i e b :
  inv c l -> threads c !! i = Some (Cas e b) -> alloc_cursor (pool c) = e -> frees c + cap < 2 ^ 31 ->
  exists l', inv (mkc (set_alloc_cursor (i32 (e + 1)) (pool c)) (locked c)
    (<[i := ARet (Some b)]> (threads c)) (b :: held c) (allocs c + 1) (frees c)) l'.
Proof.
  intros HI Hi He Hw. pose proof ts_cap_range. pose proof HI as [Hc Ha Hf Hn Hl Hr Hb Hlk Hkn].
  pose proof (Hkn _ _ Hi) as (He0 & Hlt & Hhd). simpl in *. specialize (Hhd ltac:(lia)).
  destruct l as [|x l]; [done|]. injection Hhd as ->. exists l. rewrite zlen_cons in Hn.
  apply ring_at_cons in Hr as [_ Hr]; [|lia]. split; simpl; try done; try lia.
  - rewrite swrap_small; lia.
  - pose proof (in_flight_update _ i _ (ARet (Some b)) Hi) as Hf'. simpl in Hf'. rewrite Hf'. rewrite <- Hb.
    by rewrite <- Permutation_middle.
  - pose proof (count_update holds _ i _ (ARet (Some b)) Hi) as Hc'. simpl in Hc'. lia.
  - apply (knows_others c i (Cas e b)); [done|done|]. intros j u Hj _. specialize (Hkn _ _ Hj). destruct u; simpl in *; try done; intuition lia.
Qed.

Lemma ts_inv_store c l i b bl :
  inv c l -> threads c !! i = Some (Store b) ->
  aset (ptrs (pool c)) (pos (pool c) (free_cursor (pool c))) b = Done bl ->
  inv (mkc (set_ptrs bl (pool c)) (locked c) (<[i := Publish b]> (threads c)) (held c) (allocs c) (frees c)) l.
Proof.
  intros HI Hi Hs. pose proof ts_cap_range. pose proof HI as [Hc Ha Hf Hn Hl Hr Hb Hlk Hkn].
  pose proof (free_room _ _ _ _ HI Hi ltac:(done)) as Hroom. rewrite (pos_mod _ _ _ HI), Hf in Hs.
  pose proof (Z.mod_pos_bound (frees c + cap) cap ltac:(lia)). rewrite aset_zinsert in Hs by lia. injection Hs as <-.
  split; simpl; try done.
  - by rewrite zlen_zinsert.
  - apply ring_at_other; [lia|done|lia|done].
  - pose proof (in_flight_update _ i _ (Publish b) Hi) as Hf'. simpl in Hf'. apply Permutation_cons_inv in Hf'. by rewrite Hf'.
  - pose proof (count_update holds _ i _ (Publish b) Hi) as Hc'. simpl in Hc'. lia.
  - apply (knows_others c i (Store b)); [done|simpl; apply zlookup_zinsert_eq; lia|].
    intros j u Hj Hne. specialize (Hkn _ _ Hj). destruct u; simpl in *; try done.
    destruct Hne. symmetry. by eapply (one_holder c l i j (Store b)).
Qed.

Lemma ts_inv_publish c l i b :
  inv c l -> threads c !! i = Some (Publish b) -> frees c + 1 + cap < 2 ^ 31 ->
  inv (mkc (set_free_cursor (i32 (free_cursor (pool c) + 1)) (pool c)) (locked c)
      (<[i := Unlock]> (threads c)) (held c) (allocs c) (frees c + 1)) (l ++ [b]).
Proof.
  intros HI Hi Hw. pose proof ts_cap_range. pose proof HI as [Hc Ha Hf Hn Hl Hr Hb Hlk Hkn].
  pose proof (Hkn _ _ Hi) as Hcell. simpl in Hcell.
  split; simpl; try done.
  - rewrite Hf, swrap_small; lia.
  - rewrite zlen_snoc. lia.
  - apply ring_at_extend; [|done]. by replace (allocs c + zlen l) with (frees c + cap) by lia.
  - pose proof (in_flight_update _ i _ Unlock Hi) as Hf'. simpl in Hf'. rewrite <- Hb, <- Hf', <- (assoc_L (++)). simpl.
    f_equiv. apply Permutation_middle.
  - pose proof (count_update holds _ i _ Unlock Hi) as Hc'. simpl in Hc'. lia.
  - apply (knows_others c i (Publish b)); [done|done|]. intros j u Hj Hne. specialize (Hkn _ _ Hj).
    destruct u; simpl in *; try done; try (intuition lia).
    + destruct Hkn as (? & ? & Hh). split; [lia|]. split; [lia|]. intros E. specialize (Hh E). by destruct l.
    + destruct Hne. symmetry. by eapply (one_holder c l i j (Publish b)).
Qed.

(** Every step keeps the invariant while the cursors fit. *)
Lemma ts_inv_step c c' l : inv c l -> step c c' -> frees c' + cap < 2 ^ 31 -> exists l', inv c' l'.
Proof.
  intros HI Hs Hw. pose proof ts_cap_range. pose proof HI as [Hc Ha Hf Hn Hl Hr Hb Hlk Hkn]. pose proof (zlen_nonneg l).
  destruct Hs as [Hs|Hs]; [destruct Hs as [c i Hi|c i e Hi E|c i e Hi E|c i e b Hi Hg|c i e b Hi E|c i e b Hi E1 E2|c i e b Hi E1 E2
    |c i b Hi|c i b Hi Hlo|c i b bl Hi Hst|c i b Hi|c i Hi]|destruct Hs as [c i Hi|c i b l0 Hi Hh|c i e b Hwk|c i e b Hwk]];
    try done; try (pose proof (Hkn _ _ Hi) as Ht; simpl in Ht); simpl in Hw.
  - exists l. eapply ts_inv_move; [done..|]. simpl. lia.
  - exists l. by eapply ts_inv_move.
  - exists l. eapply ts_inv_move; [done..|]. simpl. lia.
  - exists l. eapply ts_inv_move; [done..|]. simpl. split; [lia|]. split; [lia|]. intros ->.
    destruct l as [|x l]; [unfold zlen in Hn; simpl in Hn; lia|]. apply ring_at_cons in Hr as [Hx _]; [|lia].
    rewrite (pos_mod _ _ _ HI), (aget_Some _ _ _ Hx) in Hg. by injection Hg as ->.
  - apply (ts_inv_cas c l); [done|done|done|lia].
  - exists l. eapply ts_inv_move; [done..|]. simpl. lia.
  - exfalso. rewrite (pos_mod _ _ _ HI) in E2. pose proof (Z.mod_le e cap ltac:(lia) ltac:(lia)). lia.
  - exists l. by eapply ts_inv_move.
  - exists l. pose proof (count_update holds _ i _ (Store b) Hi) as Hc'. simpl in Hc'. rewrite Hlo in Hlk. simpl in Hlk.
    pose proof (in_flight_update _ i _ (Store b) Hi) as Hf'. simpl in Hf'. apply Permutation_cons_inv in Hf'.
    split; simpl; try done; [by rewrite Hf'|lia|].
    by apply (knows_others c i (Lock b)); [done|done|intros j u Hj _; apply (Hkn j)].
  - exists l. by apply ts_inv_store.
  - exists (l ++ [b]). by apply ts_inv_publish; [done|done|lia].
  - exists l. pose proof (count_update holds _ i _ Idle Hi) as Hc'. simpl in Hc'.
    pose proof (in_flight_update _ i _ Idle Hi) as Hf'. simpl in Hf'.
    split; simpl; try done; [by rewrite Hf'|destruct (locked c); simpl in *; lia|].
    by apply (knows_others c i Unlock); [done|done|intros j u Hj _; apply (Hkn j)].
  - exists l. by eapply ts_inv_move.
  - exists l. pose proof (count_update holds _ i _ (Lock b) Hi) as Hc'. simpl in Hc'.
    pose proof (in_flight_update _ i _ (Lock b) Hi) as Hf'. simpl in Hf'.
    split; simpl; try done; [|lia|].
    + rewrite <- Hb, Hf', Hh. f_equiv. simpl. symmetry. apply Permutation_middle.
    + by apply (knows_others c i Idle); [done|done|intros j u Hj _; apply (Hkn j)].
Qed.

Lemma frees_mono c c' : step c c' -> frees c <= frees c'.
Proof. intros [Hs|Hs]; destruct Hs; simpl; lia. Qed.

Lemma ts_reachable_inv c : reachable c -> frees c + cap < 2 ^ 31 -> exists l, inv c l.
Proof.
  apply (rtc_invariant step (fun c => frees c + cap < 2 ^ 31 -> exists l, inv c l)).
  - intros _. exists (seqZ 0 cap). apply ts_inv_start.
  - intros c1 c2 _ IH Hs Hw. pose proof (frees_mono _ _ Hs). destruct IH as [l HI]; [lia|]. by eapply ts_inv_step.
Qed.

(** When no thread can go on, all are outside a call. *)
Lemma ts_stuck c : reachable c -> frees c + cap < 2 ^ 31 -> (forall c', ~ run_step c c') ->
  forall i t, threads c !! i = Some t -> t = Idle.
Proof.
  intros Hr Hw Hstuck. destruct (ts_reachable_inv c Hr Hw) as [l HI]. pose proof ts_cap_range.
  pose proof HI as [Hc Ha Hf Hn Hl Hring Hb Hlk Hkn].
  assert (forall e, 0 <= pos (pool c) e < zlen (ptrs (pool c))) as Hpos.
  { intros e. rewrite (pos_mod _ _ _ HI), Hl. apply Z.mod_pos_bound. lia. }
  assert (forall i t, threads c !! i = Some t -> t = Idle \/ exists b, t = Lock b) as Hq.
  { intros i t Hi. destruct t; try (by left); try (right; by eexists); exfalso.
    - eapply Hstuck. by eapply s_start.
    - destruct (decide (e = free_cursor (pool c))); eapply Hstuck; [by eapply s_none|by eapply s_some].
    - destruct (zlookup_is_Some _ _ (Hpos e)) as [b Hb']. eapply Hstuck, s_fetch; [done|]. by apply aget_Some.
    - destruct (decide (alloc_cursor (pool c) = e)); [eapply Hstuck; by eapply s_cas|].
      destruct (decide (alloc_cursor (pool c) = pos (pool c) e)); eapply Hstuck; [by eapply s_cas_leaves|by eapply s_cas_again].
    - eapply Hstuck. by eapply s_alloc_return.
    - eapply Hstuck, s_store; [done|]. by apply aset_zinsert.
    - eapply Hstuck. by eapply s_publish.
    - eapply Hstuck. by eapply s_unlock. }
  intros i t Hi. destruct (Hq i t Hi) as [->|[b ->]]; [done|]. exfalso. eapply Hstuck, s_lock; [done|].
  rewrite count_zero in Hlk; [by destruct (locked c)|]. intros j u Hj. by destruct (Hq j u Hj) as [->|[? ->]].
Qed.
End proofs.

(** ** Theorems *)

(** A pool as it is set up, when its size in bytes fits an int. *)
Lemma ts_init_spec `{Malloc Z} cap0 data_size :
  1 <= cap0 <= 2 ^ 30 -> 1 <= data_size < 2 ^ 31 -> next_pow_of_2 cap0 * next_pow_of_2 (sizeof_head + data_size) < 2 ^ 31 ->
  wp (muggle_ts_memory_pool_init MUGGLE_OK cap0 data_size) (fun r => match r with
    | inl e => e = MUGGLE_ERR_MEM_ALLOC
    | inr p => exists k, 0 <= k <= 30 /\ cap0 <= 2 ^ k /\ capacity p = 2 ^ k /\ ptrs p = seqZ 0 (2 ^ k) /\
        alloc_cursor p = 0 /\ free_cursor p = 2 ^ k
    end).
Proof.
  unfold sizeof_head. intros Hc Hd Hprod. rewrite !next_pow_of_2_log2_up in Hprod by lia.
  assert (0 <= Z.log2_up cap0 <= 30) as Hk by (split; [apply Z.log2_up_nonneg|apply (Z.log2_up_le_mono cap0 (2 ^ 30)); lia]).
  assert (2 ^ Z.log2_up cap0 <= 2 ^ 30) by (apply Z.pow_le_mono_r; lia).
  assert (cap0 <= 2 ^ Z.log2_up cap0) as Hle by (destruct (decide (cap0 = 1)) as [->|]; [done|apply Z.log2_up_spec; lia]).
  assert (72 + data_size <= 2 ^ Z.log2_up (72 + data_size)) as Hbs by (apply Z.log2_up_spec; lia).
  unfold muggle_ts_memory_pool_init, sizeof_head. destruct (Z.leb_spec cap0 0), (Z.leb_spec data_size 0); try lia.
  rewrite (wrap_small 64 cap0), (wrap_small 64 (72 + data_size)), !next_pow_of_2_log2_up by lia.
  set (cap := 2 ^ Z.log2_up cap0) in *. set (bs := 2 ^ Z.log2_up (72 + data_size)) in *.
  assert (bs < 2 ^ 31) by nia. assert (0 < cap * bs) by nia. rewrite !(swrap_small 32) by lia.
  destruct (Z.leb_spec cap 0), (Z.leb_spec bs 0); try lia. simpl negb. cbv iota.
  destruct (malloc_array 1 _) as [dat|] eqn:Em1; [|done]. destruct (malloc_array 72 cap) as [pt|] eqn:Em2; [|done].
  apply malloc_array_len in Em1; [|lia|apply wrap_range; lia|pose proof (wrap_range 64 (cap * bs)); lia].
  apply malloc_array_len in Em2; [|lia..]. rewrite wrap_small in Em1 by lia. apply wp_bind.
  apply (wp_for_up (fun i l => zlen l = cap /\ forall j, 0 <= j < i -> l @@ j = Some j)).
  - split; [done|]. lia.
  - intros i l Hi [Hl Hj]. unfold init_block, sizeof_head. rewrite swrap_small, mem_read_ok by nia. mcompute.
    rewrite aset_zinsert by lia. split; [by rewrite zlen_zinsert|]. intros j Hj'.
    rewrite zlookup_zinsert by lia. case_decide as E; [by subst|]. apply Hj. lia.
  - intros l [Hl Hj]. simpl. exists (Z.log2_up cap0). split_and!; try done; try lia. fold cap.
    apply zlookup_ext; [rewrite zlen_seqZ; lia|]. intros j Hj'. rewrite Hj by lia. symmetry.
    rewrite zlookup_nonneg, lookup_seqZ by lia. lia.
Qed.

Section theorem.
Context `{Malloc Z}.
Context (cap0 data_size : Z) (Hcap0 : 1 <= cap0 <= 2 ^ 30) (Hds : 1 <= data_size < 2 ^ 31).
Context (Hfits : next_pow_of_2 cap0 * next_pow_of_2 (sizeof_head + data_size) < 2 ^ 31).
Context (p : muggle_ts_memory_pool) (Hinit : muggle_ts_memory_pool_init MUGGLE_OK cap0 data_size = Done (inr p)).

End theorem.

(** ** A scheduler, to run concrete interleavings *)

Inductive move : Type := Call_alloc | Call_free (b : Z) | Run | Weak_fail.

Definition thread_step (i : nat) (c : conf) : option conf :=
  match threads c !! i with
  | Some Start => Some (goto c i (Test (alloc_cursor (pool c))))
  | Some (Test e) => Some (goto c i (if decide (e = free_cursor (pool c)) then ARet None else Fetch e))
  | Some (Fetch e) =>
      match aget (ptrs (pool c)) (pos (pool c) e) with Done b => Some (goto c i (Cas e b)) | _ => None end
  | Some (Cas e b) =>
      if decide (alloc_cursor (pool c) = e) then
        Some (mkc (set_alloc_cursor (i32 (e + 1)) (pool c)) (locked c)
          (<[i := ARet (Some b)]> (threads c)) (b :: held c) (allocs c + 1) (frees c))
      else if decide (alloc_cursor (pool c) = pos (pool c) e) then Some (give b (goto c i (ARet (Some b))))
      else Some (goto c i (Test (alloc_cursor (pool c))))
  | Some (ARet _) => Some (goto c i Idle)
  | Some (Lock b) => if locked c then None else Some (lock true (goto c i (Store b)))
  | Some (Store b) =>
      match aset (ptrs (pool c)) (pos (pool c) (free_cursor (pool c))) b with
      | Done l => Some (mkc (set_ptrs l (pool c)) (locked c) (<[i := Publish b]> (threads c)) (held c) (allocs c) (frees c))
      | _ => None
      end
  | Some (Publish b) =>
      Some (mkc (set_free_cursor (i32 (free_cursor (pool c) + 1)) (pool c)) (locked c)
        (<[i := Unlock]> (threads c)) (held c) (allocs c) (frees c + 1))
  | Some Unlock => Some (lock false (goto c i Idle))
  | _ => None
  end.

Fixpoint remove_one (b : Z) (l : list Z) : option (list Z) :=
  match l with
  | [] => None
  | x :: l' => if x =? b then Some l' else match remove_one b l' with Some k => Some (x :: k) | None => None end
  end.

Lemma remove_one_perm b l : forall k, remove_one b l = Some k -> l ≡ₚ b :: k.
Proof.
  induction l as [|x l IH]; intros k; simpl; [done|]. destruct (Z.eqb_spec x b) as [->|]; [by intros [= ->]|].
  destruct (remove_one b l) as [k'|]; [|done]. intros [= <-]. rewrite (IH k') by done. apply perm_swap.
Qed.

Definition do_move (i : nat) (m : move) (c : conf) : option conf :=
  match m, threads c !! i with
  | Call_alloc, Some Idle => Some (goto c i Start)
  | Call_free b, Some Idle =>
      match remove_one b (held c) with
      | Some l => Some (mkc (pool c) (locked c) (<[i := Lock b]> (threads c)) l (allocs c) (frees c))
      | None => None
      end
  | Run, _ => thread_step i c
  | Weak_fail, Some (Cas e b) =>
      if decide (alloc_cursor (pool c) = e) then
        if decide (e = pos (pool c) e) then Some (give b (goto c i (ARet (Some b)))) else Some (goto c i (Test e))
      else None
  | _, _ => None
  end.

Fixpoint exec (l : list (nat * move)) (c : conf) : option conf :=
  match l with
  | [] => Some c
  | (i, m) :: l' => match do_move i m c with Some c' => exec l' c' | None => None end
  end.

Lemma ts_thread_step_sound i c c' : thread_step i c = Some c' -> run_step c c'.
Proof.
  unfold thread_step. destruct (threads c !! i) as [t|] eqn:Hi; [|done]. destruct t; try done.
  - intros [= <-]. by apply s_start.
  - case_decide; intros [= <-]; [by eapply s_none|by eapply s_some].
  - destruct (aget _ _) eqn:Ha; intros [= <-]. by eapply s_fetch.
  - case_decide; [intros [= <-]; by eapply s_cas|]. case_decide; intros [= <-]; [by eapply s_cas_leaves|by eapply s_cas_again].
  - intros [= <-]. by eapply s_alloc_return.
  - destruct (locked c) eqn:Hl; intros [= <-]. by eapply s_lock.
  - destruct (aset _ _ _) eqn:Ha; intros [= <-]. by eapply s_store.
  - intros [= <-]. by eapply s_publish.
  - intros [= <-]. by eapply s_unlock.
Qed.

Lemma ts_exec_sound weak l : forall c c',
  Forall (fun e => e.2 = Weak_fail -> weak = true) l -> exec l c = Some c' -> rtc (step weak) c c'.
Proof.
  induction l as [|[i m] l IH]; intros c c' Hall; simpl; [by intros [= ->]|].
  apply list.Forall_cons_1 in Hall as [Hw Hall]. simpl in Hw. destruct (do_move i m c) as [c1|] eqn:E; [|done].
  intros Hl. eapply rtc_l; [|by eapply IH]. destruct m; simpl in E; [..|left; by eapply ts_thread_step_sound|];
    (destruct (threads c !! i) as [[]|] eqn:Hi; try done); right.
  - injection E as <-. by apply s_alloc.
  - destruct (remove_one b (held c)) as [k|] eqn:Er; [|done]. injection E as <-. apply s_free; [done|]. by apply remove_one_perm.
  - repeat case_decide; simplify_eq; [by eapply s_weak_leaves; [apply Hw|..]|by eapply s_weak; [apply Hw|..]].
Qed.

(** ** Witness: a pool of two blocks and two threads. *)
Definition sample_pool : muggle_ts_memory_pool := mkpool 2 128 (replicate 256 0) [0; 1] 0 2.

Lemma sample_ts_init : @muggle_ts_memory_pool_init (malloc_zeroed 0) MUGGLE_OK 2 8 = Done (inr sample_pool).
Proof. vm_compute. reflexivity. Qed.

Definition runs (i k : nat) : list (nat * move) := replicate k (i, Run).

(** Both threads read block 0; thread 1 gets it, thread 0 tries again and gets
    block 1; thread 1 gives block 0 back. *)
Definition sample_schedule : list (nat * move) :=
  (0%nat, Call_alloc) :: runs 0 3 ++ (1%nat, Call_alloc) :: runs 1 5 ++ runs 0 5 ++ (1%nat, Call_free 0) :: runs 1 4.

Definition sample_conf : conf :=
  mkc (mkpool 2 128 (replicate 256 0) [0; 1] 2 3) false [Idle; Idle] [1] 2 1.

Lemma sample_ts_reachable : reachable false sample_pool 2 sample_conf.
Proof.
  apply (ts_exec_sound _ sample_schedule); [|vm_compute; reflexivity]. repeat (constructor; [done|]). constructor.
Qed.


(** In the first round of the ring a compare-and-swap that fails although the
    cursor is as expected ends the loop, because [alloc_pos] is the cursor: the
    block is handed out and stays free. *)
Example ts_memory_pool_weak_double_alloc :
  exists c, reachable true sample_pool 2 c /\ threads c = [Idle; Idle] /\ held c = [0; 0].
Proof.
  eexists. split; [|split].
  1: apply (ts_exec_sound _ ((0%nat, Call_alloc) :: runs 0 3 ++ (0%nat, Weak_fail) :: runs 0 1 ++ (1%nat, Call_alloc) :: runs 1 5));
    [repeat (constructor; [done|]); constructor|vm_compute; reflexivity].
  all: done.
Qed.
End TsMemoryPool.
