(* ===== verification/SowrMemoryPool.v ===== *)
(** muggle/c/memory/sowr_memory_pool.{h,c}: a ring of blocks that one thread
    takes in order and one thread gives back in order; giving a block back gives
    back those taken before it.  alloc reads the shared [free_idx] once and free
    writes it once, so an interleaving is a sequence of whole calls. *)

From stdpp Require Import base list numbers.
From Stdlib Require Import ZArith Lia.
From S2P Require Import Prelude BaseUtils Dsaa Ring.

Open Scope Z_scope.

Module SowrMemoryPool.

(** [heads] are the [block_idx] of the blocks; a block is named by its number. *)
Record muggle_sowr_memory_pool := mkpool {
  blocks : list Z;
  heads : list Z;
  capacity : Z;
  block_size : Z;
  alloc_idx : Z;
  free_idx : Z;
  cached_free_pos : Z
}.

Definition sizeof_head : Z := 16.

(** [block->block_idx = i], where the head of block [i] has to lie in the blocks. *)
Definition init_block (block_size : Z) (blocks : list Z) (i : Z) (heads : list Z) : outcome (list Z) :=
  _ ← mem_read blocks (i32 (block_size * i)) sizeof_head;
  mret (heads ++ [i]).

(** The result of malloc is not checked. *)
Definition muggle_sowr_memory_pool_init `{Malloc Z} (capacity data_size : Z)
  : outcome (Z + muggle_sowr_memory_pool) :=
  let capacity := if capacity <=? 0 then 8 else capacity in
  let capacity := i32 (next_pow_of_2 (u64 capacity)) in
  if capacity <=? 0 then mret (inl MUGGLE_ERR_INVALID_PARAM)
  else
    let block_size := i32 (next_pow_of_2 (u64 (data_size + sizeof_head))) in
    match malloc_array 1 (u64 (i32 (block_size * capacity))) with
    | None => Undef
    | Some blocks =>
        heads ← for_up 0 capacity (init_block block_size blocks) [];
        mret (inr (mkpool blocks heads capacity block_size 0 0 (capacity - 1)))
    end.

Definition set_alloc_idx (a : Z) (p : muggle_sowr_memory_pool) : muggle_sowr_memory_pool :=
  mkpool (blocks p) (heads p) (capacity p) (block_size p) a (free_idx p) (cached_free_pos p).
Definition set_free_idx (f : Z) (p : muggle_sowr_memory_pool) : muggle_sowr_memory_pool :=
  mkpool (blocks p) (heads p) (capacity p) (block_size p) (alloc_idx p) f (cached_free_pos p).
Definition set_cached (x : Z) (p : muggle_sowr_memory_pool) : muggle_sowr_memory_pool :=
  mkpool (blocks p) (heads p) (capacity p) (block_size p) (alloc_idx p) (free_idx p) x.

(** The block at [alloc_pos], [None] for NULL. *)
Definition muggle_sowr_memory_pool_alloc (pool : muggle_sowr_memory_pool)
  : muggle_sowr_memory_pool * option Z :=
  let alloc_pos := IDX_IN_POW_OF_2_RING (alloc_idx pool) (capacity pool) in
  if negb (alloc_pos =? cached_free_pos pool)
  then (set_alloc_idx (i32 (alloc_idx pool + 1)) pool, Some alloc_pos)
  else
    let cached := i32 (free_idx pool - 1) in
    let cached := IDX_IN_POW_OF_2_RING cached (capacity pool) in
    let pool := set_cached cached pool in
    if negb (alloc_pos =? cached)
    then (set_alloc_idx (i32 (alloc_idx pool + 1)) pool, Some alloc_pos)
    else (pool, None).

Definition muggle_sowr_memory_pool_free (pool : muggle_sowr_memory_pool) (block : Z)
  : outcome muggle_sowr_memory_pool :=
  block_idx ← aget (heads pool) block;
  mret (set_free_idx (i32 (block_idx + 1)) pool).

Definition muggle_sowr_memory_pool_is_all_free (pool : muggle_sowr_memory_pool) : Z :=
  let free_pos := IDX_IN_POW_OF_2_RING (free_idx pool) (capacity pool) in
  let alloc_pos := IDX_IN_POW_OF_2_RING (alloc_idx pool) (capacity pool) in
  if free_pos =? alloc_pos then 1 else 0.

(** ** The pool is a queue of blocks *)

(** The blocks of the allocations [lo <= i < hi]. *)
Definition ring_blocks (cap lo hi : Z) : list Z := map (fun i => i mod cap) (seqZ lo (hi - lo)).

(** The clients hold [l], oldest first: [na] blocks were taken, [nf] given back,
    of which the pool knows [nc]. *)
Definition rep (p : muggle_sowr_memory_pool) (l : list Z) : Prop :=
  exists k na nf nc, 0 <= k <= 30 /\ capacity p = 2 ^ k /\ heads p = seqZ 0 (2 ^ k) /\
    l = ring_blocks (2 ^ k) nf na /\ nc <= nf <= na /\ na <= nc + 2 ^ k - 1 /\
    alloc_idx p = i32 na /\ 0 <= free_idx p <= 2 ^ k /\ free_idx p mod 2 ^ k = nf mod 2 ^ k /\
    cached_free_pos p = (nc - 1) mod 2 ^ k.

Lemma zlen_ring_blocks cap lo hi : lo <= hi -> zlen (ring_blocks cap lo hi) = hi - lo.
Proof. intros Hl. unfold ring_blocks, zlen. rewrite length_map, length_seqZ. lia. Qed.

Lemma ring_blocks_snoc cap lo hi : lo <= hi -> ring_blocks cap lo (hi + 1) = ring_blocks cap lo hi ++ [hi mod cap].
Proof.
  intros Hl. unfold ring_blocks. replace (hi + 1 - lo) with ((hi - lo) + 1) by lia.
  rewrite seqZ_app, map_app by lia. simpl. do 3 f_equal. lia.
Qed.

Lemma ring_blocks_split cap lo hi l1 b l2 :
  ring_blocks cap lo hi = l1 ++ b :: l2 -> 
  exists m, lo <= m < hi /\ b = m mod cap /\ l2 = ring_blocks cap (m + 1) hi.
Proof.
  revert lo. induction l1 as [|x l1 IH]; intros lo; unfold ring_blocks; (destruct (decide (lo < hi)) as [Hlt|];
    [rewrite seqZ_cons by lia|rewrite seqZ_nil by lia; done]); simpl; intros [= E1 E2].
  - exists lo. split; [lia|]. split; [done|]. rewrite <- E2. do 2 f_equal; lia.
  - destruct (IH (lo + 1)) as (m & ? & ? & ?); [|exists m; split; [lia|done]].
    unfold ring_blocks. rewrite <- E2. do 2 f_equal; lia.
Qed.

Lemma elem_ring_blocks cap lo hi b : b ∈ ring_blocks cap lo hi -> exists m, lo <= m < hi /\ b = m mod cap.
Proof.
  intros (m & -> & Hm)%list_elem_of_fmap. apply elem_of_seqZ in Hm. exists m. split; [lia|done].
Qed.

(** The case of a free block, for the cached position of [nc] blocks given back. *)
Lemma alloc_fresh k na nf nc : 0 <= k -> nc <= nf <= na -> na <= nc + 2 ^ k - 1 ->
  (na mod 2 ^ k =? (nc - 1) mod 2 ^ k) = (na =? nc + 2 ^ k - 1).
Proof.
  intros Hk Hn Hr. pose proof (Z.pow_pos_nonneg 2 k ltac:(lia) Hk).
  destruct (Z.eqb_spec na (nc + 2 ^ k - 1)) as [->|Hne].
  - apply Z.eqb_eq. replace (nc + 2 ^ k - 1) with (nc - 1 + 1 * 2 ^ k) by lia. by rewrite Z.mod_add by lia.
  - apply Z.eqb_neq. intros E. symmetry in E. apply (mod_ne (2 ^ k) (nc - 1) na) in E; lia.
Qed.

Lemma fresh_not_held k na nf : 0 <= k -> nf <= na < nf + 2 ^ k -> na mod 2 ^ k ∉ ring_blocks (2 ^ k) nf na.
Proof.
  intros Hk Hn (m & Hm & E)%elem_ring_blocks. symmetry in E. apply (mod_ne (2 ^ k) m na) in E; lia.
Qed.

Lemma sowr_alloc_spec p l : rep p l ->
  let '(p', r) := muggle_sowr_memory_pool_alloc p in
  match r with
  | Some b => b ∉ l /\ 0 <= b < capacity p /\ rep p' (l ++ [b])
  | None => zlen l = capacity p - 1 /\ rep p' l
  end.
Proof.
  intros (k & na & nf & nc & Hk & Hc & Hh & -> & Hn & Hr & Ha & Hf & Hfm & Hcp).
  pose proof (Z.pow_pos_nonneg 2 k ltac:(lia) ltac:(lia)) as Hpos.
  assert (2 ^ k <= 2 ^ 30) by (apply Z.pow_le_mono_r; lia).
  unfold muggle_sowr_memory_pool_alloc. rewrite Ha, Hc, Hcp, ring_index_i32 by lia.
  rewrite (alloc_fresh k na nf nc) by lia. rewrite (swrap_small 32 (free_idx p - 1)), ring_index_mod by lia.
  assert ((free_idx p - 1) mod 2 ^ k = (nf - 1) mod 2 ^ k) as ->.
  { rewrite Zminus_mod, Hfm. symmetry. apply Zminus_mod. }
  pose proof (Z.mod_pos_bound na (2 ^ k) Hpos).
  destruct (Z.eqb_spec na (nc + 2 ^ k - 1)) as [E|Hne]; simpl negb; cbv iota.
  - rewrite (alloc_fresh k na nf nf) by lia. destruct (Z.eqb_spec na (nf + 2 ^ k - 1)) as [E'|Hne]; simpl negb; cbv iota.
    + split; [rewrite zlen_ring_blocks; lia|]. exists k, na, nf, nf. simpl. split_and!; try done; lia.
    + split; [apply fresh_not_held; lia|]. split; [lia|]. exists k, (na + 1), nf, nf. simpl. rewrite ?Ha, i32_add.
      rewrite <- ring_blocks_snoc by lia. split_and!; try done; lia.
  - split; [apply fresh_not_held; lia|]. split; [lia|]. exists k, (na + 1), nf, nc. simpl. rewrite ?Ha, i32_add.
    rewrite <- ring_blocks_snoc by lia. split_and!; try done; lia.
Qed.

Lemma sowr_free_spec p l1 b l2 : rep p (l1 ++ b :: l2) ->
  exists p', muggle_sowr_memory_pool_free p b = Done p' /\ rep p' l2 /\ capacity p' = capacity p.
Proof.
  intros (k & na & nf & nc & Hk & Hc & Hh & El & Hn & Hr & Ha & Hf & Hfm & Hcp).
  pose proof (Z.pow_pos_nonneg 2 k ltac:(lia) ltac:(lia)) as Hpos. assert (2 ^ k <= 2 ^ 30) by (apply Z.pow_le_mono_r; lia).
  symmetry in El. apply ring_blocks_split in El as (m & Hm & -> & ->). pose proof (Z.mod_pos_bound m (2 ^ k) Hpos).
  unfold muggle_sowr_memory_pool_free. rewrite Hh, (aget_Some _ _ (m mod 2 ^ k)).
  - mcompute. eexists. split; [reflexivity|]. split; [|done]. exists k, na, (m + 1), nc. simpl.
    rewrite (swrap_small 32 (m mod 2 ^ k + 1)) by lia. split_and!; try done; try (pose proof (Z.mod_pos_bound m (2 ^ k) Hpos); lia). apply Zplus_mod_idemp_l.
  - rewrite zlookup_nonneg, lookup_seqZ by lia. lia.
Qed.

Lemma sowr_all_free_spec p l : rep p l -> muggle_sowr_memory_pool_is_all_free p = if decide (l = []) then 1 else 0.
Proof.
  intros (k & na & nf & nc & Hk & Hc & Hh & -> & Hn & Hr & Ha & Hf & Hfm & Hcp).
  pose proof (Z.pow_pos_nonneg 2 k ltac:(lia) ltac:(lia)) as Hpos.
  unfold muggle_sowr_memory_pool_is_all_free. rewrite Ha, Hc, ring_index_i32, ring_index_mod, Hfm by lia.
  pose proof (zlen_ring_blocks (2 ^ k) nf na ltac:(lia)) as Hlen.
  destruct (decide (nf = na)) as [->|Hne].
  - rewrite Z.eqb_refl. unfold ring_blocks. rewrite Z.sub_diag. done.
  - rewrite decide_False by (intros E; rewrite E in Hlen; unfold zlen in Hlen; simpl in Hlen; lia).
    destruct (Z.eqb_spec (nf mod 2 ^ k) (na mod 2 ^ k)) as [E|]; [|done]. apply mod_ne in E; lia.
Qed.

Lemma sowr_init_rep `{Malloc Z} capacity0 data_size :
  capacity0 <= 2 ^ 30 -> 0 <= data_size < 2 ^ 31 ->
  next_pow_of_2 (if capacity0 <=? 0 then 8 else capacity0) * next_pow_of_2 (data_size + sizeof_head) < 2 ^ 31 ->
  muggle_sowr_memory_pool_init capacity0 data_size = Undef \/
  exists p, muggle_sowr_memory_pool_init capacity0 data_size = Done (inr p) /\ rep p [] /\
    capacity p = next_pow_of_2 (if capacity0 <=? 0 then 8 else capacity0).
Proof.
  unfold sizeof_head. intros Hc Hd. unfold muggle_sowr_memory_pool_init, sizeof_head.
  set (cap0 := if capacity0 <=? 0 then 8 else capacity0).
  assert (1 <= cap0 <= 2 ^ 30) by (unfold cap0; destruct (Z.leb_spec capacity0 0); lia). clearbody cap0.
  rewrite (wrap_small 64 cap0), (wrap_small 64 (data_size + 16)), !next_pow_of_2_log2_up by lia. intros Hprod.
  assert (0 <= Z.log2_up cap0 <= 30) as Hk by (split; [apply Z.log2_up_nonneg|apply (Z.log2_up_le_mono cap0 (2 ^ 30)); lia]).
  assert (2 ^ Z.log2_up cap0 <= 2 ^ 30) by (apply Z.pow_le_mono_r; lia).
  pose proof (Z.pow_pos_nonneg 2 (Z.log2_up cap0) ltac:(lia) ltac:(lia)).
  assert (data_size + 16 <= 2 ^ Z.log2_up (data_size + 16)) by (apply Z.log2_up_spec; lia).
  set (cap := 2 ^ Z.log2_up cap0) in *. set (bs := 2 ^ Z.log2_up (data_size + 16)) in *.
  assert (bs < 2 ^ 31) by nia. assert (0 < bs * cap < 2 ^ 31) by nia. 
  rewrite (swrap_small 32 cap), (swrap_small 32 bs), (swrap_small 32 (bs * cap)), (wrap_small 64 (bs * cap)) by lia.
  destruct (Z.leb_spec cap 0); [lia|].
  destruct (malloc_array 1 _) as [bl|] eqn:Em; [|by left]. apply malloc_array_len in Em; [|lia..]. right.
  assert (wp (for_up 0 cap (init_block bs bl) []) (fun h => h = seqZ 0 cap)) as Hw.
  { apply (wp_for_up (fun i h => h = seqZ 0 i)).
    - done.
    - intros i h Hi ->. unfold init_block, sizeof_head. rewrite swrap_small, mem_read_ok by nia. mcompute. simpl.
      rewrite seqZ_app by lia. done.
    - intros h ->. f_equal. lia. }
  apply wp_Done in Hw as (h & -> & ->). mcompute. eexists. split; [reflexivity|]. split; [|done].
  exists (Z.log2_up cap0), 0, 0, 0. fold cap. simpl. split_and!; try done; try lia. rewrite <- (Z.mod_add (0 - 1) 1), Z.mod_small by lia. lia.
Qed.

(** C31: the pool is a queue of blocks: alloc returns a block that nobody holds
    and puts it at the end, and NULL exactly when capacity - 1 blocks are held;
    giving a block back gives back those taken before it, and is_all_free tells
    whether none is held; also when the index wraps at 32 bits. *)
Theorem sowr_memory_pool_refines p l :
  rep p l ->
  (let '(p', r) := muggle_sowr_memory_pool_alloc p in
   match r with
   | Some b => b ∉ l /\ 0 <= b < capacity p /\ rep p' (l ++ [b])
   | None => zlen l = capacity p - 1 /\ rep p' l
   end) /\
  (forall l1 b l2, l = l1 ++ b :: l2 ->
     exists p', muggle_sowr_memory_pool_free p b = Done p' /\ rep p' l2 /\ capacity p' = capacity p) /\
  muggle_sowr_memory_pool_is_all_free p = (if decide (l = []) then 1 else 0).
Proof.
  intros R. split; [by apply sowr_alloc_spec|]. split; [|by apply sowr_all_free_spec].
  intros l1 b l2 ->. by eapply sowr_free_spec.
Qed.

(** ** Witness: a pool of eight blocks of which two are taken. *)
Definition sample_pool : muggle_sowr_memory_pool :=
  mkpool (replicate 256 0) [0; 1; 2; 3; 4; 5; 6; 7] 8 32 2 0 7.

Lemma sowr_sample_rep : rep sample_pool [0; 1].
Proof. exists 3, 2, 0, 0. split_and!; try done; lia. Qed.

Lemma sowr_memory_pool_refines_witness :
  rep sample_pool [0; 1] /\
  let '(p', r) := muggle_sowr_memory_pool_alloc sample_pool in r = Some 2 /\ rep p' [0; 1; 2].
Proof.
  split; [exact sowr_sample_rep|].
  destruct (sowr_memory_pool_refines sample_pool [0; 1] sowr_sample_rep) as [(_ & _ & Hr) _].
  split; [reflexivity|exact Hr].
Defined.

(** A pool for one block never hands one out. *)
Example sowr_pool_of_one :
  muggle_sowr_memory_pool_alloc (mkpool (replicate 32 0) [0] 1 32 0 0 0) = (mkpool (replicate 32 0) [0] 1 32 0 0 0, None).
Proof. reflexivity. Qed.
End SowrMemoryPool.
