(* ===== verification/SocketPeer.v ===== *)
(** muggle/c/net/socket_peer.{h,c}: a socket with a reference count that threads
    raise and lower with compare-and-swaps, interleaved at every access to the
    count, and the calls that receive and send.  The socket calls of the
    operating system are arguments: the results they return in turn. *)

From stdpp Require Import base list numbers relations.
From Stdlib Require Import ZArith Lia.
From S2P Require Import Prelude Threads.

Open Scope Z_scope.

Module SocketPeer.

Definition MUGGLE_SOCKET_PEER_TYPE_NULL : Z := 0.
Definition MUGGLE_SOCKET_PEER_TYPE_TCP_LISTEN : Z := 1.
Definition MUGGLE_SOCKET_PEER_TYPE_TCP_PEER : Z := 2.
Definition MUGGLE_SOCKET_PEER_TYPE_UDP_PEER : Z := 3.

Definition MUGGLE_SOCKET_PEER_STATUS_ACTIVE : Z := 0.
Definition MUGGLE_SOCKET_PEER_STATUS_CLOSED : Z := 1.

Definition MUGGLE_INVALID_SOCKET : Z := -1.
Definition MUGGLE_SOCKET_ERROR : Z := -1.

(** The address and the user's data are left out: nothing here reads them.  [ev] is
    NULL or an event, of which a peer looks at one thing: whether it has on_close. *)
Record muggle_socket_peer := mkpeer {
  ref_cnt : Z;
  fd : Z;
  peer_type : Z;
  status : Z;
  peer_ev : option bool
}.

Definition muggle_socket_peer_init (fd peer_type : Z) : muggle_socket_peer :=
  mkpeer 1 fd peer_type MUGGLE_SOCKET_PEER_STATUS_ACTIVE None.

Definition set_ref_cnt (r : Z) (p : muggle_socket_peer) : muggle_socket_peer :=
  mkpeer r (fd p) (peer_type p) (status p) (peer_ev p).
Definition set_fd (f : Z) (p : muggle_socket_peer) : muggle_socket_peer :=
  mkpeer (ref_cnt p) f (peer_type p) (status p) (peer_ev p).
Definition set_status (s : Z) (p : muggle_socket_peer) : muggle_socket_peer :=
  mkpeer (ref_cnt p) (fd p) (peer_type p) s (peer_ev p).
Definition set_ev (e : option bool) (p : muggle_socket_peer) : muggle_socket_peer :=
  mkpeer (ref_cnt p) (fd p) (peer_type p) (status p) e.

(** [peer->ev && peer->ev->on_close]. *)
Definition has_on_close (p : muggle_socket_peer) : bool := default false (peer_ev p).

(** The socket is shut down, not closed. *)
Definition muggle_socket_peer_close (p : muggle_socket_peer) : muggle_socket_peer :=
  set_status MUGGLE_SOCKET_PEER_STATUS_CLOSED p.

(** ** Receiving and sending *)

Definition MUGGLE_SYS_ERRNO_INTR : Z := 4.
Definition MUGGLE_SYS_ERRNO_WOULDBLOCK : Z := 11.

(** [results] are the results of the calls of recv with the error of each, which
    the loop asks for until it stops; what is left of them is returned. *)
Fixpoint muggle_socket_peer_recv (results : list (Z * Z)) (p : muggle_socket_peer)
  : outcome (Z * muggle_socket_peer * list (Z * Z)) :=
  match results with
  | [] => NoFuel
  | (n, errno) :: results =>
      if n >? 0 then mret (n, p, results)
      else if (n <? 0) && (errno =? MUGGLE_SYS_ERRNO_INTR) then muggle_socket_peer_recv results p
      else if (n <? 0) && (errno =? MUGGLE_SYS_ERRNO_WOULDBLOCK) then mret (n, p, results)
      else mret (n, muggle_socket_peer_close p, results)
  end.

Fixpoint muggle_socket_peer_recvfrom (results : list (Z * Z)) (p : muggle_socket_peer)
  : outcome (Z * muggle_socket_peer * list (Z * Z)) :=
  match results with
  | [] => NoFuel
  | (n, errno) :: results =>
      if n >? 0 then mret (n, p, results)
      else if n <? 0 then
        if errno =? MUGGLE_SYS_ERRNO_INTR then muggle_socket_peer_recvfrom results p
        else if errno =? MUGGLE_SYS_ERRNO_WOULDBLOCK then mret (n, p, results)
        else mret (n, muggle_socket_peer_close p, results)
      else if peer_type p =? MUGGLE_SOCKET_PEER_TYPE_TCP_PEER then mret (n, muggle_socket_peer_close p, results)
      else mret (n, p, results)
  end.

(** [num_bytes] is the result of the call of send; it is compared as a size_t. *)
Definition muggle_socket_peer_send (num_bytes len : Z) (p : muggle_socket_peer) : Z * muggle_socket_peer :=
  if negb (u64 num_bytes =? len) then (num_bytes, muggle_socket_peer_close p) else (num_bytes, p).
Definition muggle_socket_peer_sendto (num_bytes len : Z) (p : muggle_socket_peer) : Z * muggle_socket_peer :=
  if negb (u64 num_bytes =? len) then (num_bytes, muggle_socket_peer_close p) else (num_bytes, p).

(** A call that was interrupted is repeated. *)
Definition interrupted (r : Z * Z) : Prop := r.1 < 0 /\ r.2 = MUGGLE_SYS_ERRNO_INTR.

(** The first result that is not an interruption is returned; an end of the
    stream or an error other than "would block" closes the peer. *)
Lemma peer_recv_spec intr n errno rest p : Forall interrupted intr -> ~ interrupted (n, errno) ->
  muggle_socket_peer_recv (intr ++ (n, errno) :: rest) p =
    Done (n, if (n >? 0) || ((n <? 0) && (errno =? MUGGLE_SYS_ERRNO_WOULDBLOCK)) then p else muggle_socket_peer_close p, rest).
Proof.
  intros Hi Hn. induction Hi as [|[m e] intr [Hm He] _ IH]; simpl in *.
  - destruct (n >? 0); [done|]. destruct (Z.ltb_spec n 0), (Z.eqb_spec errno MUGGLE_SYS_ERRNO_INTR); simpl; try (by destruct Hn).
    all: by destruct (errno =? MUGGLE_SYS_ERRNO_WOULDBLOCK).
  - rewrite Z.gtb_ltb. destruct (Z.ltb_spec 0 m); [lia|]. destruct (Z.ltb_spec m 0); [|lia]. by rewrite He.
Qed.

(** A datagram of no bytes does not close the peer, the end of a stream does. *)
Lemma peer_recvfrom_empty errno rest p :
  muggle_socket_peer_recvfrom ((0, errno) :: rest) p =
    Done (0, if peer_type p =? MUGGLE_SOCKET_PEER_TYPE_TCP_PEER then muggle_socket_peer_close p else p, rest).
Proof. simpl. by destruct (peer_type p =? MUGGLE_SOCKET_PEER_TYPE_TCP_PEER). Qed.

(** recv closes a datagram peer that receives no bytes. *)
Example recv_empty_datagram_closes :
  let p := muggle_socket_peer_init 5 MUGGLE_SOCKET_PEER_TYPE_UDP_PEER in
  muggle_socket_peer_recv [(0, 0)] p = Done (0, muggle_socket_peer_close p, []) /\
  muggle_socket_peer_recvfrom [(0, 0)] p = Done (0, p, []).
Proof. by split. Qed.

(** ** Retaining and releasing *)

(** Where a thread is; [d] is the variable [desired], [e] the count it expects. *)
Inductive pc : Type :=
| Idle
| Retain (d : Z)               (* about to load the count *)
| RetainCas (e : Z)            (* about to raise it *)
| RetainRet (r : Z)
| Release (d : Z)              (* about to compare the count with 1 *)
| Last (d : Z)                 (* it was 1: about to store 0 *)
| Load (d : Z)                 (* about to load the count *)
| ReleaseCas (e : Z)           (* about to lower it *)
| Closing (d : Z)              (* behind the loop *)
| ReleaseRet (r : Z).

(** A thread owns references of its own. *)
Record thread := mkth { own : Z; at_ : pc }.

Record conf := mkc {
  peer : muggle_socket_peer;
  threads : list thread;
  closings : Z;                (* calls of muggle_socket_close, after on_close where there is one *)
  retains : Z;                 (* calls of retain *)
  stale : bool                 (* a thread left the loop with a [desired] of a round before *)
}.

Definition goto (c : conf) (i : nat) (t : thread) : conf :=
  mkc (peer c) (<[i := t]> (threads c)) (closings c) (retains c) (stale c).
Definition count_to (r : Z) (c : conf) : conf :=
  mkc (set_ref_cnt r (peer c)) (threads c) (closings c) (retains c) (stale c).

(** What a thread does by itself, in muggle_socket_peer_retain and
    muggle_socket_peer_release.  A compare-and-swap that fails leads back to the
    start of the loop, with [desired] as it was computed. *)
Inductive run_step : conf -> conf -> Prop :=
| s_retain_none c i o d :
    threads c !! i = Some (mkth o (Retain d)) -> ref_cnt (peer c) = 0 ->
    run_step c (goto c i (mkth o (RetainRet 0)))
| s_retain_load c i o d :
    threads c !! i = Some (mkth o (Retain d)) -> ref_cnt (peer c) <> 0 ->
    run_step c (goto c i (mkth o (RetainCas (ref_cnt (peer c)))))
| s_retain_cas c i o e :
    threads c !! i = Some (mkth o (RetainCas e)) -> ref_cnt (peer c) = e ->
    run_step c (count_to (i32 (e + 1)) (goto c i (mkth (o + 1) (RetainRet (i32 (e + 1))))))
| s_retain_fail c i o e :
    threads c !! i = Some (mkth o (RetainCas e)) -> ref_cnt (peer c) <> e ->
    run_step c (goto c i (mkth o (Retain (i32 (e + 1)))))
| s_retain_ret c i o r :
    threads c !! i = Some (mkth o (RetainRet r)) -> run_step c (goto c i (mkth o Idle))
| s_release_last c i o d :
    threads c !! i = Some (mkth o (Release d)) -> ref_cnt (peer c) = 1 ->
    run_step c (goto c i (mkth o (Last d)))
| s_release_more c i o d :
    threads c !! i = Some (mkth o (Release d)) -> ref_cnt (peer c) <> 1 ->
    run_step c (goto c i (mkth o (Load d)))
| s_release_store c i o d :
    threads c !! i = Some (mkth o (Last d)) ->
    run_step c (mkc (set_ref_cnt 0 (peer c)) (<[i := mkth o (Closing d)]> (threads c)) (closings c) (retains c)
      (stale c || negb (d =? 0)))
| s_release_none c i o d :
    threads c !! i = Some (mkth o (Load d)) -> ref_cnt (peer c) = 0 ->
    run_step c (goto c i (mkth o (ReleaseRet 0)))
| s_release_load c i o d :
    threads c !! i = Some (mkth o (Load d)) -> ref_cnt (peer c) <> 0 ->
    run_step c (goto c i (mkth o (ReleaseCas (ref_cnt (peer c)))))
| s_release_cas c i o e :
    threads c !! i = Some (mkth o (ReleaseCas e)) -> ref_cnt (peer c) = e ->
    run_step c (count_to (e - 1) (goto c i (mkth o (Closing (e - 1)))))
| s_release_fail c i o e :
    threads c !! i = Some (mkth o (ReleaseCas e)) -> ref_cnt (peer c) <> e ->
    run_step c (goto c i (mkth o (Release (e - 1))))
| s_close c i o :
    threads c !! i = Some (mkth o (Closing 0)) ->
    run_step c (mkc (set_fd MUGGLE_INVALID_SOCKET (peer c)) (<[i := mkth o (ReleaseRet 0)]> (threads c))
      (closings c + 1) (retains c) (stale c))
| s_no_close c i o d :
    threads c !! i = Some (mkth o (Closing d)) -> d <> 0 -> run_step c (goto c i (mkth o (ReleaseRet d)))
| s_release_ret c i o r :
    threads c !! i = Some (mkth o (ReleaseRet r)) -> run_step c (goto c i (mkth o Idle)).

(** Clients: a thread with a reference may retain, release what it owns, close
    the peer, and pass a reference to another thread; and a weak compare-and-swap
    may fail. *)
Inductive env_step : conf -> conf -> Prop :=
| e_retain c i o :
    threads c !! i = Some (mkth o Idle) -> 0 < o ->
    env_step c (mkc (peer c) (<[i := mkth o (Retain 0)]> (threads c)) (closings c) (retains c + 1) (stale c))
| e_release c i o :
    threads c !! i = Some (mkth o Idle) -> 0 < o -> env_step c (goto c i (mkth (o - 1) (Release 0)))
| e_close c i o :
    threads c !! i = Some (mkth o Idle) -> 0 < o ->
    env_step c (mkc (muggle_socket_peer_close (peer c)) (threads c) (closings c) (retains c) (stale c))
| e_pass c i j o o' p' :
    threads c !! i = Some (mkth o Idle) -> 0 < o -> i <> j -> threads c !! j = Some (mkth o' p') ->
    env_step c (goto (goto c i (mkth (o - 1) Idle)) j (mkth (o' + 1) p'))
| e_weak_retain c i o e :
    threads c !! i = Some (mkth o (RetainCas e)) -> env_step c (goto c i (mkth o (Retain (i32 (e + 1)))))
| e_weak_release c i o e :
    threads c !! i = Some (mkth o (ReleaseCas e)) -> env_step c (goto c i (mkth o (Release (e - 1)))).

Inductive step (c c' : conf) : Prop :=
| step_run : run_step c c' -> step c c'
| step_env : env_step c c' -> step c c'.

(** A new peer: the first of [n] threads has its reference. *)
Definition start (n : nat) (fd peer_type : Z) : conf :=
  mkc (muggle_socket_peer_init fd peer_type) (mkth 1 Idle :: replicate n (mkth 0 Idle)) 0 0 false.

(** ** The count is the number of references *)

(** A thread in a release still counts, until it lowered the count. *)
Definition pending (p : pc) : Z :=
  match p with Release _ | Last _ | Load _ | ReleaseCas _ => 1 | _ => 0 end.
Definition weight (t : thread) : Z := own t + pending (at_ t).
Definition total (ts : list thread) : Z := fold_right (fun t n => weight t + n) 0 ts.

Lemma total_update ts i t t' : ts !! i = Some t -> total (<[i := t']> ts) = total ts - weight t + weight t'.
Proof.
  revert i. induction ts as [|u ts IH]; intros [|i] Hi; simplify_eq/=; [lia|]. rewrite (IH _ Hi). lia.
Qed.

Definition is_closing (t : thread) : bool := match at_ t with Closing d => d =? 0 | _ => false end.
Definition retaining (t : thread) : bool := match at_ t with Retain _ | RetainCas _ => true | _ => false end.

(** The states in which a thread may be when the count is [r]. *)
Definition thread_ok (r : Z) (t : thread) : Prop :=
  0 <= own t /\
  match at_ t with
  | Retain _ | RetainCas _ => 0 < own t
  | RetainRet v => 0 < v
  | Last _ => r = 1
  | ReleaseCas e => 1 <= e
  | _ => True
  end.

Record inv (fd0 : Z) (c : conf) : Prop := {
  inv_total : ref_cnt (peer c) = total (threads c);
  inv_threads : forall i t, threads c !! i = Some t -> thread_ok (ref_cnt (peer c)) t;
  inv_closings : closings c + Z.of_nat (count is_closing (threads c)) =
    if decide (ref_cnt (peer c) = 0) then (if stale c then 0 else 1) else 0;
  inv_stale : ref_cnt (peer c) <> 0 -> stale c = false;
  inv_nonneg : 0 <= closings c;
  inv_retains : ref_cnt (peer c) + Z.of_nat (count retaining (threads c)) <= 1 + retains c;
  inv_fd : fd (peer c) = if decide (closings c = 0) then fd0 else MUGGLE_INVALID_SOCKET
}.

Lemma weight_nonneg r t : thread_ok r t -> 0 <= weight t.
Proof. intros [H _]. unfold weight. destruct (at_ t); simpl; lia. Qed.

Lemma total_ge r ts i t : (forall i t, ts !! i = Some t -> thread_ok r t) -> ts !! i = Some t -> weight t <= total ts /\ 0 <= total ts.
Proof.
  revert i. induction ts as [|u ts IH]; intros [|i] Hok Hi; simplify_eq/=.
  - assert (0 <= total ts); [|pose proof (weight_nonneg r t (Hok 0%nat t eq_refl)); lia].
    clear IH. assert (forall i t, ts !! i = Some t -> thread_ok r t) as Hok' by (intros j u Hj; by apply (Hok (S j) u)).
    clear Hok. induction ts as [|u ts IH]; simpl; [lia|].
    pose proof (weight_nonneg r u (Hok' 0%nat u eq_refl)). assert (0 <= total ts) by (apply IH; intros j v Hj; by apply (Hok' (S j) v)). lia.
  - destruct (IH i (fun j v Hj => Hok (S j) v Hj) Hi). pose proof (weight_nonneg r u (Hok 0%nat u eq_refl)). lia.
Qed.

(** Two threads together. *)
Lemma total_ge2 r ts i j t u : (forall i t, ts !! i = Some t -> thread_ok r t) ->
  ts !! i = Some t -> ts !! j = Some u -> i <> j -> weight t + weight u <= total ts.
Proof.
  intros Hok Hi Hj Hne. pose proof (total_update ts i t (mkth 0 Idle) Hi) as E.
  destruct (total_ge r (<[i := mkth 0 Idle]> ts) j u) as [H _].
  - intros k v Hk. destruct (lookup_update _ _ _ _ _ _ Hi Hk) as [[-> ->]|[_ Hk']]; [by split|by eapply Hok].
  - by rewrite list_lookup_insert_ne.
  - unfold weight in E at 2. simpl in E. lia.
Qed.

Definition b2z (b : bool) : Z := if b then 1 else 0.

Lemma count_update_z (f : thread -> bool) (ts : list thread) i t t' : ts !! i = Some t ->
  Z.of_nat (count f (<[i := t']> ts)) = Z.of_nat (count f ts) - b2z (f t) + b2z (f t').
Proof. intros Hi. pose proof (count_update f ts i t t' Hi). destruct (f t), (f t'); simpl in *; lia. Qed.

Lemma count_ge (f : thread -> bool) (ts : list thread) i t : ts !! i = Some t -> b2z (f t) <= Z.of_nat (count f ts).
Proof.
  intros Hi. destruct (f t) eqn:E; simpl; [|lia]. assert (0 < count f ts)%nat; [apply count_pos; eauto|lia].
Qed.

(** A thread that holds something is the only one about to store 0. *)
Lemma other_ok fd0 c i t r' j u : inv fd0 c -> threads c !! i = Some t -> j <> i -> threads c !! j = Some u ->
  r' = ref_cnt (peer c) \/ 1 <= weight t -> thread_ok r' u.
Proof.
  intros [] Hi Hne Hj Hr. destruct (inv_threads0 j u Hj) as [Ho Hp]. split; [done|]. destruct (at_ u) eqn:Hu; try done.
  destruct Hr as [->|Hw]; [done|]. exfalso.
  pose proof (total_ge2 _ _ i j t u inv_threads0 Hi Hj (not_eq_sym Hne)) as H. unfold weight in H at 2. rewrite Hu in H. simpl in H. lia.
Qed.

Lemma inv_update fd0 c i t t' r' cl' rt' (st' : bool) p' : inv fd0 c -> threads c !! i = Some t ->
  r' = ref_cnt (peer c) - weight t + weight t' -> thread_ok r' t' -> r' = ref_cnt (peer c) \/ 1 <= weight t ->
  cl' + Z.of_nat (count is_closing (threads c)) - b2z (is_closing t) + b2z (is_closing t') =
    (if decide (r' = 0) then (if st' then 0 else 1) else 0) ->
  (r' <> 0 -> st' = false) -> 0 <= cl' ->
  r' + Z.of_nat (count retaining (threads c)) - b2z (retaining t) + b2z (retaining t') <= 1 + rt' ->
  ref_cnt p' = r' -> fd p' = (if decide (cl' = 0) then fd0 else MUGGLE_INVALID_SOCKET) ->
  inv fd0 (mkc p' (<[i := t']> (threads c)) cl' rt' st').
Proof.
  intros I Hi Hr Hok Hrw Hcl Hst Hcl0 Hrt Hp Hfd. split; simpl; rewrite ?Hp; try done.
  - rewrite (total_update _ _ _ _ Hi), <- (inv_total _ _ I). done.
  - intros j u Hj. destruct (lookup_update _ _ _ _ _ _ Hi Hj) as [[-> ->]|[Hne Hj']]; [done|].
    by apply (other_ok fd0 c i t r' j u).
  - rewrite (count_update_z _ _ _ _ _ Hi). lia.
  - rewrite (count_update_z _ _ _ _ _ Hi). lia.
Qed.

(** A step of a thread that leaves the count alone. *)
Lemma inv_goto fd0 c i t t' : inv fd0 c -> threads c !! i = Some t -> weight t' = weight t ->
  thread_ok (ref_cnt (peer c)) t' -> is_closing t' = is_closing t -> b2z (retaining t') <= b2z (retaining t) -> inv fd0 (goto c i t').
Proof.
  intros I Hi Hw Hok Hc Hr. pose proof I as [].
  eapply (inv_update fd0 c i t t' (ref_cnt (peer c))); try done; [lia|by left|rewrite Hc; lia|lia].
Qed.

(** The arithmetic of a step, with the case whether the count is 0. *)
Ltac counts := unfold weight, thread_ok in *; simpl in *; repeat case_decide; subst; simpl; try done; try lia.

Lemma run_inv fd0 c c' : inv fd0 c -> run_step c c' -> retains c' < 2 ^ 31 - 1 -> inv fd0 c'.
Proof.
  intros I Hs Hb. pose proof I as []. destruct Hs as [c i o d Hi Hr|c i o d Hi Hr|c i o e Hi Hr|c i o e Hi Hr|c i o r Hi
    |c i o d Hi Hr|c i o d Hi Hr|c i o d Hi|c i o d Hi Hr|c i o d Hi Hr|c i o e Hi Hr|c i o e Hi Hr|c i o Hi|c i o d Hi Hd|c i o r Hi];
    pose proof (inv_threads0 _ _ Hi) as [Ho Hp]; simpl in Ho, Hp; destruct (total_ge _ _ _ _ inv_threads0 Hi) as [Hw H0];
    unfold weight in Hw; simpl in Hw; rewrite <- inv_total0 in Hw, H0;
    pose proof (count_ge retaining _ _ _ Hi) as Hrg; pose proof (count_ge is_closing _ _ _ Hi) as Hcg; simpl in Hrg, Hcg;
    try (by eapply inv_goto; counts).
  - rewrite (swrap_small 32) by (simpl in Hb; lia).
    eapply (inv_update fd0 c i _ (mkth (o + 1) (RetainRet (e + 1))) (e + 1)); try done; counts. intros _. apply inv_stale0. lia.
  - eapply (inv_update fd0 c i _ (mkth o (Closing d)) 0); try done; counts.
    change (is_closing _) with (d =? 0). rewrite inv_stale0 by lia. destruct (Z.eqb_spec d 0); simpl; lia.
  - eapply (inv_update fd0 c i _ (mkth o (Closing (e - 1))) (e - 1)); try done; counts.
    1, 2: change (is_closing (mkth _ _)) with (ref_cnt (peer c) - 1 =? 0); 
      destruct (Z.eqb_spec (ref_cnt (peer c) - 1) 0); simpl; rewrite ?inv_stale0 by lia; lia.
    intros _. apply inv_stale0. lia.
  - eapply (inv_update fd0 c i _ (mkth o (ReleaseRet 0)) (ref_cnt (peer c))); try done; counts.
  - eapply inv_goto; try done; counts; change (false = (d =? 0)); by destruct (Z.eqb_spec d 0).
Qed.

Lemma pass_inv fd0 c i j o o' p' : inv fd0 c -> threads c !! i = Some (mkth o Idle) -> 0 < o -> i <> j ->
  threads c !! j = Some (mkth o' p') -> inv fd0 (goto (goto c i (mkth (o - 1) Idle)) j (mkth (o' + 1) p')).
Proof.
  intros I Hi Ho Hne Hj. pose proof I as []. pose proof (inv_threads0 j _ Hj) as Hokj. simpl.
  assert (<[i := mkth (o - 1) Idle]> (threads c) !! j = Some (mkth o' p')) as Hj' by (by rewrite list_lookup_insert_ne).
  pose proof (count_update_z is_closing _ _ _ (mkth (o - 1) Idle) Hi) as C1. pose proof (count_update_z is_closing _ _ _ (mkth (o' + 1) p') Hj') as C2.
  pose proof (count_update_z retaining _ _ _ (mkth (o - 1) Idle) Hi) as C3. pose proof (count_update_z retaining _ _ _ (mkth (o' + 1) p') Hj') as C4.
  change (is_closing (mkth (o' + 1) p')) with (is_closing (mkth o' p')) in C2.
  change (retaining (mkth (o' + 1) p')) with (retaining (mkth o' p')) in C4. simpl in C1, C3.
  split; simpl; try done; try lia.
  - rewrite (total_update _ _ _ _ Hj'), (total_update _ _ _ _ Hi). unfold weight. simpl. lia.
  - intros k u Hk. destruct (lookup_update _ _ _ _ _ _ Hj' Hk) as [[-> ->]|[Hkj Hk']].
    { destruct Hokj as [? Hm]. split; [simpl in *; lia|]. simpl in *. destruct p'; done || lia. }
    destruct (lookup_update _ _ _ _ _ _ Hi Hk') as [[-> ->]|[Hki Hk'']]; [split; simpl; [lia|done]|by eapply inv_threads0].
Qed.

Lemma env_inv fd0 c c' : inv fd0 c -> env_step c c' -> inv fd0 c'.
Proof.
  intros I Hs. pose proof I as []. destruct Hs as [c i o Hi Ho|c i o Hi Ho|c i o Hi Ho|c i j o o' p' Hi Ho Hne Hj|c i o e Hi|c i o e Hi];
    pose proof (inv_threads0 _ _ Hi) as [Ho' Hp]; simpl in Ho', Hp.
  - eapply (inv_update fd0 c i _ (mkth o (Retain 0)) (ref_cnt (peer c))); try done; counts.
  - eapply inv_goto; try done; counts.
  - by split.
  - by apply pass_inv.
  - eapply inv_goto; try done; counts.
  - eapply inv_goto; try done; counts.
Qed.

Lemma start_inv n fd0 type : inv fd0 (start n fd0 type).
Proof.
  assert (forall f, f (mkth 0 Idle) = false -> count f (replicate n (mkth 0 Idle)) = 0%nat) as Hc.
  { intros f Hf. apply count_zero. intros i t [-> _]%lookup_replicate. done. }
  split; simpl; rewrite ?count_cons, ?Hc by done; try done.
  - assert (total (replicate n (mkth 0 Idle)) = 0) as -> by (clear Hc; induction n; [done|]; simpl; by rewrite IHn). done.
  - intros [|i] t Hi; simplify_eq/=; [by split|]. apply lookup_replicate in Hi as [-> _]. by split.
Qed.

Lemma retains_mono c c' : step c c' -> retains c <= retains c'.
Proof. intros [Hs|Hs]; destruct Hs; simpl; lia. Qed.

Lemma peer_reachable_inv n fd0 type c : rtc step (start n fd0 type) c -> retains c < 2 ^ 31 - 1 -> inv fd0 c.
Proof.
  revert c. refine (rtc_ind_r _ _ _ _); [intros; apply start_inv|]. intros c c' _ Hs IH Hb.
  pose proof (retains_mono _ _ Hs). destruct Hs as [Hs|Hs]; [by eapply run_inv; [apply IH; lia|..]|by eapply env_inv; [apply IH; lia|]].
Qed.

(** C36: a peer shared by any number of threads that retain, release and pass on
    only references they own, in every interleaving with up to 2^31 - 2 retains.
    The count is the number of references that are owned or being released; a
    retain never fails; while there is a reference the socket is open and on_close
    was not called; it is closed at most once, and when the last reference is gone
    and no thread is inside release, it was closed exactly when no thread left the
    loop with the value of [desired] from an earlier round. *)
Theorem socket_peer_references n fd0 type c :
  rtc step (start n fd0 type) c -> retains c < 2 ^ 31 - 1 ->
  ref_cnt (peer c) = total (threads c) /\ 0 <= ref_cnt (peer c) /\
  (forall i o r, threads c !! i = Some (mkth o (RetainRet r)) -> 0 < r) /\
  (0 < ref_cnt (peer c) -> closings c = 0 /\ fd (peer c) = fd0) /\
  closings c <= 1 /\
  (ref_cnt (peer c) = 0 -> (forall i t, threads c !! i = Some t -> at_ t = Idle) -> closings c = if stale c then 0 else 1).
Proof.
  intros Hr Hb. pose proof (peer_reachable_inv n fd0 type c Hr Hb) as []. split_and!; try done.
  - rewrite inv_total0. destruct (threads c) as [|t ts] eqn:E; [done|]. rewrite <- E in *.
    by destruct (total_ge _ _ 0 t inv_threads0) as [_ ?]; [by rewrite E|].
  - intros i o r Hi. by destruct (inv_threads0 i _ Hi).
  - intros Hp. rewrite decide_False in inv_closings0 by lia. assert (closings c = 0) as Hc by lia. split; [done|].
    by rewrite inv_fd0, decide_True.
  - destruct (decide (ref_cnt (peer c) = 0)), (stale c); lia.
  - intros H0 Hidle. rewrite decide_True in inv_closings0 by done. rewrite count_zero in inv_closings0; [destruct (stale c); lia|].
    intros i t Hi. unfold is_closing. by rewrite (Hidle i t Hi).
Qed.

(** One step of an execution: by the rule [H]. *)
Tactic Notation "run" uconstr(H) := eapply rtc_l; [apply step_run; eapply H; [reflexivity|..]; done|cbv [goto count_to peer threads closings retains stale]; simpl].
Tactic Notation "env" uconstr(H) := eapply rtc_l; [apply step_env; eapply H; [reflexivity|..]; done|cbv [goto count_to peer threads closings retains stale]; simpl].

(** One owner that retains, and releases twice. *)
Lemma socket_peer_references_witness :
  exists c, rtc step (start 0 5 MUGGLE_SOCKET_PEER_TYPE_TCP_PEER) c /\ retains c < 2 ^ 31 - 1 /\
    ref_cnt (peer c) = 0 /\ closings c = 1 /\ fd (peer c) = MUGGLE_INVALID_SOCKET.
Proof.
  assert (exists c, rtc step (start 0 5 MUGGLE_SOCKET_PEER_TYPE_TCP_PEER) c /\ retains c = 1 /\ ref_cnt (peer c) = 0 /\
    threads c = [mkth 0 Idle] /\ stale c = false /\ fd (peer c) = MUGGLE_INVALID_SOCKET) as (c & Hr & Hn & H0 & Ht & Hs & Hf).
  { eexists. split.
    - unfold start. simpl.
      env (e_retain _ 0). run (s_retain_load _ 0). run (s_retain_cas _ 0). run (s_retain_ret _ 0).
      env (e_release _ 0). run (s_release_more _ 0). run (s_release_load _ 0). run (s_release_cas _ 0).
      run (s_no_close _ 0). run (s_release_ret _ 0).
      env (e_release _ 0). run (s_release_last _ 0). run (s_release_store _ 0). run (s_close _ 0). run (s_release_ret _ 0).
      apply rtc_refl.
    - done. }
  exists c. split; [exact Hr|]. split; [lia|]. split; [done|]. split; [|done].
  destruct (socket_peer_references 0 5 MUGGLE_SOCKET_PEER_TYPE_TCP_PEER c Hr ltac:(lia)) as (_ & _ & _ & _ & _ & Hc).
  rewrite Hc, Hs; [done|done|]. intros i t Hi. rewrite Ht in Hi. by destruct i; simplify_eq/=.
Defined.

(** Two threads release the last two references at once: the compare-and-swap of
    one fails, it finds the count at 1, stores 0 and leaves with [desired] = 1.
    The references are gone, and the socket is neither closed nor reported. *)
Example socket_peer_never_closed :
  exists c, rtc step (start 1 5 MUGGLE_SOCKET_PEER_TYPE_TCP_PEER) c /\
    ref_cnt (peer c) = 0 /\ threads c = [mkth 0 Idle; mkth 0 Idle] /\ closings c = 0 /\ fd (peer c) = 5.
Proof.
  eexists. split.
  - unfold start. simpl.
    env (e_retain _ 0). run (s_retain_load _ 0). run (s_retain_cas _ 0). run (s_retain_ret _ 0). env (e_pass _ 0 1).
    env (e_release _ 0). env (e_release _ 1). run (s_release_more _ 0). run (s_release_more _ 1).
    run (s_release_load _ 0). run (s_release_load _ 1). run (s_release_cas _ 0). run (s_no_close _ 0). run (s_release_ret _ 0).
    run (s_release_fail _ 1). run (s_release_last _ 1). run (s_release_store _ 1). run (s_no_close _ 1). run (s_release_ret _ 1).
    apply rtc_refl.
  - done.
Qed.

(** The count is 0 before the thread that lowered it is done with the peer: it has
    still to read the event, close the socket and write the descriptor, while
    whoever sees the count may give the peer back. *)
Example socket_peer_zero_while_closing :
  exists c, rtc step (start 1 5 MUGGLE_SOCKET_PEER_TYPE_TCP_PEER) c /\
    ref_cnt (peer c) = 0 /\ threads c = [mkth 0 (Closing 0); mkth 0 Idle] /\ closings c = 0 /\ fd (peer c) = 5.
Proof.
  eexists. split.
  - unfold start. simpl. env (e_release _ 0). run (s_release_last _ 0). run (s_release_store _ 0). apply rtc_refl.
  - done.
Qed.
End SocketPeer.
