(* ===== verification/SocketUtils.v ===== *)
(** muggle/c/net/socket.c and socket_utils.c: creating, binding, connecting sockets
    and joining groups.  A function is a tree of calls of the operating system; its
    behaviour is what holds whatever the calls answer.  The resources are the open
    descriptors and the lists of addresses to be freed. *)

From stdpp Require Import base gmap sets list numbers.
From Stdlib Require Import ZArith Lia.
From S2P Require Import Prelude Str SocketPeer.
Import Str(print_int, print_digits, print_len).
Import SocketPeer(muggle_socket_peer, muggle_socket_peer_init, MUGGLE_INVALID_SOCKET, MUGGLE_SOCKET_ERROR,
  MUGGLE_SOCKET_PEER_TYPE_TCP_LISTEN, MUGGLE_SOCKET_PEER_TYPE_TCP_PEER, MUGGLE_SOCKET_PEER_TYPE_UDP_PEER).

Open Scope Z_scope.

Module SocketUtils.

(** ** Calls *)

(** [struct addrinfo] of a list; [ai_addr] stands for the address. *)
Record addrinfo := mkai {
  ai_family : Z;
  ai_socktype : Z;
  ai_protocol : Z;
  ai_addrlen : Z;
  ai_addr : Z
}.

(** The fields of the hints that are not 0. *)
Record hints := mkh { h_socktype : Z; h_flags : Z }.

(** What setsockopt is given: the flag, [struct group_req] or [struct group_source_req]
    with the index of the interface. *)
Inductive optval : Type :=
| Flag (on : Z)
| GroupReq (iface_idx group : Z)
| GroupSourceReq (iface_idx group source : Z).

Inductive action : Type :=
| Getaddrinfo (host serv : option (list Z)) (h : hints)
| Freeaddrinfo
| Socket (family type protocol : Z)
| Close (fd : Z)
| Setsockopt (fd level name : Z) (v : optval)
| Bind (fd addr : Z)
| Listen (fd backlog : Z)
| Connect (fd addr : Z)
| Getfl (fd : Z)
| Setfl (fd flags : Z)
| FdSet (fd : Z)                     (* FD_SET on a set of the function *)
| Select (nfds fd : Z) (timeout_sec : option Z)   (* the two sets have fd only *)
| Getsockerror (fd : Z)
| IfNametoindex (name : list Z).

(** The answers: getaddrinfo fails or gives a list; connect and getsockopt answer
    with the error, select with the two sets. *)
Definition answer (a : action) : Type :=
  match a with
  | Getaddrinfo _ _ _ => option (list addrinfo)
  | Freeaddrinfo | FdSet _ => unit
  | Connect _ _ | Getsockerror _ => Z * Z
  | Select _ _ _ => Z * bool * bool
  | _ => Z
  end.

Inductive prog (A : Type) : Type :=
| Ret (x : A)
| Act (a : action) (k : answer a -> prog A).
#[global] Arguments Ret {A}.
#[global] Arguments Act {A}.

#[global] Instance prog_ret : MRet prog := fun A => Ret.
#[global] Instance prog_bind : MBind prog := fun A B f =>
  fix go p := match p with Ret x => f x | Act a k => Act a (fun r => go (k r)) end.

Definition act (a : action) : prog (answer a) := Act a Ret.

Definition SOCK_STREAM : Z := 1.
Definition SOCK_DGRAM : Z := 2.
Definition AF_INET : Z := 2.
Definition AF_INET6 : Z := 10.
Definition AI_PASSIVE : Z := 1.
Definition AI_CANONNAME : Z := 2.
Definition SOL_SOCKET : Z := 1.
Definition SO_REUSEADDR : Z := 2.
Definition IPPROTO_IP : Z := 0.
Definition IPPROTO_IPV6 : Z := 41.
Definition MCAST_JOIN_GROUP : Z := 42.
Definition MCAST_LEAVE_GROUP : Z := 45.
Definition MCAST_JOIN_SOURCE_GROUP : Z := 46.
Definition MCAST_LEAVE_SOURCE_GROUP : Z := 47.
Definition O_NONBLOCK : Z := 2048.
Definition EINPROGRESS : Z := 115.
Definition FD_SETSIZE : Z := 1024.
(** [sizeof(struct sockaddr_storage)]. *)
Definition SIZEOF_STORAGE : Z := 128.

(** ** socket.c *)
Definition muggle_socket_create (family type protocol : Z) : prog Z := act (Socket family type protocol).
Definition muggle_socket_close (fd : Z) : prog Z := act (Close fd).

Definition muggle_socket_set_nonblock (socket on : Z) : prog Z :=
  flags ← act (Getfl socket);
  let flags := if negb (on =? 0) then Z.lor flags O_NONBLOCK else Z.land flags (Z.lnot O_NONBLOCK) in
  act (Setfl socket flags).

(** ** socket_utils.c *)

(** [text] is what inet_ntop writes, [port] the port in host order: the string in
    the buffer, or NULL. *)
Definition muggle_socket_ntop (family : Z) (text : option (list Z)) (port bufsize : Z) (host_only : bool) : option (list Z) :=
  if (family =? AF_INET) || (family =? AF_INET6) then
    match text with
    | None => None
    | Some buf =>
        if negb host_only then
          let offset := zlen buf in
          if u64 (bufsize - offset) <? 8 then None
          else Some (buf ++ take (Z.to_nat (u64 (bufsize - offset) - 1)) (58 :: print_int 10 port))
        else Some buf
    end
  else None.

(** The first address of the list. *)
Definition muggle_socket_getaddrinfo (host serv : option (list Z)) (h : hints) : prog (option addrinfo) :=
  r ← act (Getaddrinfo host serv h);
  match (r : option (list addrinfo)) with
  | None => mret None
  | Some (ai :: _) => act Freeaddrinfo;; mret (Some ai)
  | Some [] => mret None
  end.

(** The loops over the addresses: the socket, and the address it is for. *)
Fixpoint bind_first (res : list addrinfo) : prog (option (Z * addrinfo)) :=
  match res with
  | [] => mret None
  | ai :: res =>
      s ← muggle_socket_create (ai_family ai) (ai_socktype ai) (ai_protocol ai);
      if s =? MUGGLE_INVALID_SOCKET then bind_first res
      else
        act (Setsockopt s SOL_SOCKET SO_REUSEADDR (Flag 1));;
        r ← act (Bind s (ai_addr ai));
        if r =? 0 then mret (Some (s, ai))
        else muggle_socket_close s;; bind_first res
  end.

Fixpoint create_first (res : list addrinfo) : prog (option (Z * addrinfo)) :=
  match res with
  | [] => mret None
  | ai :: res =>
      s ← muggle_socket_create (ai_family ai) (ai_socktype ai) (ai_protocol ai);
      if negb (s =? MUGGLE_INVALID_SOCKET) then mret (Some (s, ai)) else create_first res
  end.

Fixpoint connect_first (res : list addrinfo) : prog (option (Z * addrinfo)) :=
  match res with
  | [] => mret None
  | ai :: res =>
      s ← muggle_socket_create (ai_family ai) (ai_socktype ai) (ai_protocol ai);
      if s =? MUGGLE_INVALID_SOCKET then connect_first res
      else
        r ← act (Connect s (ai_addr ai));
        if (r : Z * Z).1 =? 0 then mret (Some (s, ai))
        else muggle_socket_close s;; connect_first res
  end.

(** A function that gives a socket also writes the peer, with the address, when it
    is given one. *)
Definition peer_addr : Type := muggle_socket_peer * addrinfo.
Definition new_peer (peer : bool) (fd type : Z) (ai : addrinfo) : option peer_addr :=
  if peer then Some (muggle_socket_peer_init fd type, ai) else None.
Definition failed : Z * option peer_addr := (MUGGLE_INVALID_SOCKET, None).

Definition muggle_tcp_listen (host serv : option (list Z)) (backlog : Z) (peer : bool) : prog (Z * option peer_addr) :=
  r ← act (Getaddrinfo host serv (mkh SOCK_STREAM AI_PASSIVE));
  match (r : option (list addrinfo)) with
  | None => mret failed
  | Some res =>
      x ← bind_first res;
      match (x : option (Z * addrinfo)) with
      | None => act Freeaddrinfo;; mret failed
      | Some (s, ai) =>
          n ← act (Listen s backlog);
          if negb (n =? 0) then
            muggle_socket_close s;; act Freeaddrinfo;; mret failed
          else act Freeaddrinfo;; mret (s, new_peer peer s MUGGLE_SOCKET_PEER_TYPE_TCP_LISTEN ai)
      end
  end.

(** The part of connect that waits. *)
Definition connect_wait (client timeout_sec flags : Z) : prog Z :=
  act (FdSet client);;
  x ← act (Select (client + 1) client (if timeout_sec =? 0 then None else Some timeout_sec));
  let '(n, r, w) := (x : Z * bool * bool) in
  if n =? 0 then muggle_socket_close client;; mret MUGGLE_INVALID_SOCKET
  else if n =? MUGGLE_SOCKET_ERROR then muggle_socket_close client;; mret MUGGLE_INVALID_SOCKET
  else if r || w then
    y ← act (Getsockerror client);
    let (ret, error) := (y : Z * Z) in
    if ret <? 0 then muggle_socket_close client;; mret MUGGLE_INVALID_SOCKET
    else if negb (error =? 0) then muggle_socket_close client;; mret MUGGLE_INVALID_SOCKET
    else act (Setfl client flags);; mret client
  else muggle_socket_close client;; mret MUGGLE_INVALID_SOCKET.

Definition muggle_tcp_connect (host serv : option (list Z)) (timeout_sec : Z) (peer : bool) : prog (Z * option peer_addr) :=
  r ← act (Getaddrinfo host serv (mkh SOCK_STREAM AI_CANONNAME));
  match (r : option (list addrinfo)) with
  | None => mret failed
  | Some res =>
      x ← create_first res;
      match (x : option (Z * addrinfo)) with
      | None => act Freeaddrinfo;; mret failed
      | Some (client, ai) =>
          flags ← act (Getfl client);
          act (Setfl client (Z.lor flags O_NONBLOCK));;
          y ← act (Connect client (ai_addr ai));
          let (n, errno) := (y : Z * Z) in
          if (n <? 0) && negb (errno =? EINPROGRESS) then
            muggle_socket_close client;; act Freeaddrinfo;; mret failed
          else
            let p := new_peer peer client MUGGLE_SOCKET_PEER_TYPE_TCP_PEER ai in
            act Freeaddrinfo;;
            if n =? 0 then act (Setfl client flags);; mret (client, p)
            else fd ← connect_wait client timeout_sec flags; mret (fd, p)
      end
  end.

Definition muggle_udp_bind (host serv : option (list Z)) (peer : bool) : prog (Z * option peer_addr) :=
  r ← act (Getaddrinfo host serv (mkh SOCK_DGRAM AI_PASSIVE));
  match (r : option (list addrinfo)) with
  | None => mret failed
  | Some res =>
      x ← bind_first res;
      match (x : option (Z * addrinfo)) with
      | None => act Freeaddrinfo;; mret failed
      | Some (s, ai) => act Freeaddrinfo;; mret (s, new_peer peer s MUGGLE_SOCKET_PEER_TYPE_UDP_PEER ai)
      end
  end.

Definition muggle_udp_connect (host serv : option (list Z)) (peer : bool) : prog (Z * option peer_addr) :=
  r ← act (Getaddrinfo host serv (mkh SOCK_DGRAM AI_PASSIVE));
  match (r : option (list addrinfo)) with
  | None => mret failed
  | Some res =>
      x ← connect_first res;
      match (x : option (Z * addrinfo)) with
      | None => act Freeaddrinfo;; mret failed
      | Some (s, ai) => act Freeaddrinfo;; mret (s, new_peer peer s MUGGLE_SOCKET_PEER_TYPE_UDP_PEER ai)
      end
  end.

(** The index of the interface; 0 lets the system select one. *)
Definition iface_index (iface : option (list Z)) : prog Z :=
  match iface with Some name => act (IfNametoindex name) | None => mret 0 end.

Definition mcast_level (family : Z) : option Z :=
  if family =? AF_INET then Some IPPROTO_IP else if family =? AF_INET6 then Some IPPROTO_IPV6 else None.

Definition muggle_mcast_join (host serv iface src_grp : option (list Z)) (peer : bool) : prog (Z * option peer_addr) :=
  if bool_decide (host = None) then mret failed
  else if bool_decide (serv = None) then mret failed
  else
    r ← muggle_socket_getaddrinfo host serv (mkh SOCK_DGRAM 0);
    match (r : option addrinfo) with
    | None => mret failed
    | Some ai =>
        iface_idx ← iface_index iface;
        fd ← muggle_socket_create (ai_family ai) (ai_socktype ai) (ai_protocol ai);
        if fd =? MUGGLE_INVALID_SOCKET then mret failed
        else
          act (Setsockopt fd SOL_SOCKET SO_REUSEADDR (Flag 1));;
          n ← act (Bind fd (ai_addr ai));
          if negb (n =? 0) then muggle_socket_close fd;; mret failed
          else
            match mcast_level (ai_family ai) with
            | None => muggle_socket_close fd;; mret failed
            | Some level =>
                x ← match src_grp with
                    | Some g =>
                        s ← muggle_socket_getaddrinfo (Some g) None (mkh SOCK_DGRAM 0);
                        match (s : option addrinfo) with
                        | None => mret None
                        | Some src => n ← act (Setsockopt fd level MCAST_JOIN_SOURCE_GROUP (GroupSourceReq iface_idx (ai_addr ai) (ai_addr src))); mret (Some n)
                        end
                    | None =>
                        if ai_addrlen ai >? SIZEOF_STORAGE then mret None
                        else n ← act (Setsockopt fd level MCAST_JOIN_GROUP (GroupReq iface_idx (ai_addr ai))); mret (Some n)
                    end;
                match (x : option Z) with
                | None => mret failed
                | Some ret =>
                    if negb (ret =? 0) then muggle_socket_close fd;; mret failed
                    else mret (fd, new_peer peer fd MUGGLE_SOCKET_PEER_TYPE_UDP_PEER ai)
                end
            end
    end.

Definition muggle_mcast_leave (fd : Z) (host serv iface src_grp : option (list Z)) : prog Z :=
  if bool_decide (host = None) then mret (-1)
  else if bool_decide (serv = None) then mret (-1)
  else
    r ← muggle_socket_getaddrinfo host serv (mkh SOCK_DGRAM 0);
    match (r : option addrinfo) with
    | None => mret (-1)
    | Some ai =>
        match mcast_level (ai_family ai) with
        | None => mret (-1)
        | Some level =>
            iface_idx ← iface_index iface;
            match src_grp with
            | Some g =>
                s ← muggle_socket_getaddrinfo (Some g) None (mkh SOCK_DGRAM 0);
                match (s : option addrinfo) with
                | None => mret (-1)
                | Some src =>
                    n ← act (Setsockopt fd level MCAST_LEAVE_SOURCE_GROUP (GroupSourceReq iface_idx (ai_addr ai) (ai_addr src)));
                    if negb (n =? 0) then mret (-1) else mret 0
                end
            | None =>
                if ai_addrlen ai >? SIZEOF_STORAGE then mret (-1)
                else
                  n ← act (Setsockopt fd level MCAST_LEAVE_GROUP (GroupReq iface_idx (ai_addr ai)));
                  if negb (n =? 0) then mret (-1) else mret 0
            end
        end
    end.

(** ** Whatever the calls answer *)

(** The open descriptors, and how many lists of addresses are to be freed. *)
Record res := mkres { open : gset Z; lists : nat }.

Section safe.
(** Descriptors are below the limit on open files. *)
Context (limit : Z).

(** What a call needs, and what it may answer: a list of addresses is not empty and
    its addresses fit a sockaddr_storage; a new descriptor is one that is not open;
    a call on a descriptor needs it open, FD_SET that it has a place in the set. *)
Definition may (a : action) (s : res) : (answer a -> res -> Prop) -> Prop :=
  match a return (answer a -> res -> Prop) -> Prop with
  | Getaddrinfo _ _ _ => fun Q => Q None s /\
      forall l, l <> [] -> Forall (fun ai => 0 <= ai_addrlen ai <= SIZEOF_STORAGE) l -> Q (Some l) (mkres (open s) (S (lists s)))
  | Freeaddrinfo => fun Q => exists n, lists s = S n /\ Q tt (mkres (open s) n)
  | Socket _ _ _ => fun Q => Q MUGGLE_INVALID_SOCKET s /\
      forall f, 0 <= f < limit -> f ∉ open s -> Q f (mkres ({[f]} ∪ open s) (lists s))
  | Close fd => fun Q => fd ∈ open s /\ forall r, Q r (mkres (open s ∖ {[fd]}) (lists s))
  | FdSet fd => fun Q => 0 <= fd < FD_SETSIZE /\ Q tt s
  | Setsockopt fd _ _ _ | Bind fd _ | Listen fd _ | Getfl fd | Setfl fd _ => fun Q => fd ∈ open s /\ forall r, Q r s
  | Connect fd _ | Getsockerror fd => fun Q => fd ∈ open s /\ forall r, Q r s
  | Select _ fd _ => fun Q => fd ∈ open s /\ forall r, Q r s
  | IfNametoindex _ => fun Q => forall r, Q r s
  end.

Fixpoint safe {A} (p : prog A) (s : res) (Q : A -> res -> Prop) : Prop :=
  match p with
  | Ret x => Q x s
  | Act a k => may a s (fun r s' => safe (k r) s' Q)
  end.

Lemma may_mono a s (P Q : answer a -> res -> Prop) : (forall r s', P r s' -> Q r s') -> may a s P -> may a s Q.
Proof. intros HPQ. destruct a; simpl; naive_solver. Qed.

Lemma safe_mono {A} (p : prog A) (P Q : A -> res -> Prop) : (forall x s, P x s -> Q x s) -> forall s, safe p s P -> safe p s Q.
Proof. intros HPQ. induction p as [x|a k IH]; intros s; simpl; [apply HPQ|]. apply may_mono. intros r s'. apply IH. Qed.

Lemma safe_bind {A B} (p : prog A) (f : A -> prog B) Q : forall s, safe p s (fun x s' => safe (f x) s' Q) -> safe (p ≫= f) s Q.
Proof. induction p as [x|a k IH]; intros s; simpl; [done|]. apply may_mono. intros r s'. apply IH. Qed.

Lemma safe_act a s Q : may a s Q -> safe (act a) s Q.
Proof. done. Qed.
Lemma safe_ret {A} (x : A) s (Q : A -> res -> Prop) : Q x s -> safe (mret x) s Q.
Proof. done. Qed.

(** Nothing is left open but the descriptor that is returned. *)
Definition with_fd (f : Z) (s : res) : res := mkres ({[f]} ∪ open s) (lists s).
Definition gives (s : res) (f : Z) (s' : res) : Prop :=
  (f = MUGGLE_INVALID_SOCKET /\ s' = s) \/ (0 <= f < limit /\ f ∉ open s /\ s' = with_fd f s).

Lemma safe_create f t p s Q : Q MUGGLE_INVALID_SOCKET s -> (forall x, 0 <= x < limit -> x ∉ open s -> Q x (with_fd x s)) -> safe (muggle_socket_create f t p) s Q.
Proof. by split. Qed.

Lemma safe_close {A} f s (p : prog A) Q : f ∉ open s -> safe p s Q -> safe (muggle_socket_close f;; p) (with_fd f s) Q.
Proof.
  intros Hf Hp. apply safe_bind. split; [simpl; set_solver|]. intros r. simpl.
  replace (mkres (({[f]} ∪ open s) ∖ {[f]}) (lists s)) with s; [done|]. destruct s as [o n]. simpl in *. f_equal. set_solver.
Qed.

(** A call on a descriptor that was opened. *)
Lemma safe_call a f s Q (p : answer a -> prog Q) post :
  (forall P, f ∈ open (with_fd f s) /\ (forall r, P r (with_fd f s)) -> may a (with_fd f s) P) ->
  (forall r, safe (p r) (with_fd f s) post) -> safe (act a ≫= p) (with_fd f s) post.
Proof. intros Ha Hp. apply safe_bind, safe_act, Ha. split; [simpl; set_solver|done]. Qed.

Definition with_list (s : res) : res := mkres (open s) (S (lists s)).

Lemma safe_free {A} s (p : prog A) Q : safe p s Q -> safe (act Freeaddrinfo;; p) (with_list s) Q.
Proof. intros Hp. apply safe_bind. exists (lists s). split; [done|]. by destruct s. Qed.

Lemma safe_getaddrinfo {A} host serv h s (p : option (list addrinfo) -> prog A) Q : safe (p None) s Q ->
  (forall l, Forall (fun ai => 0 <= ai_addrlen ai <= SIZEOF_STORAGE) l -> safe (p (Some l)) (with_list s) Q) -> safe (act (Getaddrinfo host serv h) ≫= p) s Q.
Proof. intros Hn Hl. apply safe_bind. split; [done|]. intros l _ Hf. by apply Hl. Qed.

(** ** The functions *)
Lemma set_nonblock_safe f on s : f ∈ open s -> safe (muggle_socket_set_nonblock f on) s (fun _ s' => s' = s).
Proof. intros Hf. split; [done|]. intros r. split; [done|done]. Qed.

Lemma getaddrinfo_safe host serv h s : safe (muggle_socket_getaddrinfo host serv h) s (fun r s' => s' = s /\
  forall ai, r = Some ai -> 0 <= ai_addrlen ai <= SIZEOF_STORAGE).
Proof.
  apply safe_bind. split; [by split|]. intros [|ai l] Hl Hf; [done|]. apply safe_free, safe_ret. split; [done|].
  intros ai' [= <-]. by apply Forall_cons_1 in Hf as [? _].
Qed.

(** A loop over the addresses opens at most the socket it returns. *)
Definition found (s : res) (x : option (Z * addrinfo)) (s' : res) : Prop :=
  match x with None => s' = s | Some (f, _) => 0 <= f < limit /\ f ∉ open s /\ s' = with_fd f s end.

Lemma bind_first_safe l s : safe (bind_first l) s (found s).
Proof.
  induction l as [|ai l IH]; [done|]. unfold bind_first; fold bind_first. apply safe_bind, safe_create; [exact IH|]. intros f Hf Hn.
  destruct (Z.eqb_spec f MUGGLE_INVALID_SOCKET) as [->|]; [unfold MUGGLE_INVALID_SOCKET in Hf; lia|].
  apply (safe_call _ f); [done|]. intros r1. apply (safe_call _ f); [done|]. intros r2. destruct (r2 =? 0); [by apply safe_ret|]. by apply safe_close.
Qed.

Lemma create_first_safe l s : safe (create_first l) s (found s).
Proof.
  induction l as [|ai l IH]; [done|]. unfold create_first; fold create_first. apply safe_bind, safe_create; [exact IH|]. intros f Hf Hn.
  destruct (Z.eqb_spec f MUGGLE_INVALID_SOCKET) as [->|]; [unfold MUGGLE_INVALID_SOCKET in Hf; lia|]. by apply safe_ret.
Qed.

Lemma connect_first_safe l s : safe (connect_first l) s (found s).
Proof.
  induction l as [|ai l IH]; [done|]. unfold connect_first; fold connect_first. apply safe_bind, safe_create; [exact IH|]. intros f Hf Hn.
  destruct (Z.eqb_spec f MUGGLE_INVALID_SOCKET) as [->|]; [unfold MUGGLE_INVALID_SOCKET in Hf; lia|].
  apply (safe_call _ f); [done|]. intros r. destruct (r.1 =? 0); [by apply safe_ret|]. by apply safe_close.
Qed.

(** What a function gives back: the socket, and the peer with it. *)
Definition gives_peer (s : res) (peer : bool) (type : Z) (r : Z * option peer_addr) (s' : res) : Prop :=
  gives s r.1 s' /\ (r.1 <> MUGGLE_INVALID_SOCKET -> exists ai, r.2 = new_peer peer r.1 type ai).

Lemma gives_failed s peer type : gives_peer s peer type failed s.
Proof. split; [by left|done]. Qed.
Lemma gives_socket s peer type f ai : 0 <= f < limit -> f ∉ open s -> gives_peer s peer type (f, new_peer peer f type ai) (with_fd f s).
Proof. split; [by right|by exists ai]. Qed.

Lemma tcp_listen_safe host serv backlog peer s :
  safe (muggle_tcp_listen host serv backlog peer) s (gives_peer s peer MUGGLE_SOCKET_PEER_TYPE_TCP_LISTEN).
Proof.
  apply safe_getaddrinfo; [apply gives_failed|]. intros l _. apply safe_bind. eapply safe_mono; [|apply bind_first_safe].
  intros [[f ai]|] s' Hs; [destruct Hs as (Hf & Hn & ->)|simpl in Hs; subst s'; by apply safe_free, gives_failed].
  apply (safe_call _ f); [done|]. intros r. destruct (negb (r =? 0)).
  - apply safe_close; [done|]. by apply safe_free, gives_failed.
  - apply (safe_free (with_fd f s)). by apply gives_socket.
Qed.

Lemma udp_bind_safe host serv peer s :
  safe (muggle_udp_bind host serv peer) s (gives_peer s peer MUGGLE_SOCKET_PEER_TYPE_UDP_PEER).
Proof.
  apply safe_getaddrinfo; [apply gives_failed|]. intros l _. apply safe_bind. eapply safe_mono; [|apply bind_first_safe].
  intros [[f ai]|] s' Hs; [destruct Hs as (Hf & Hn & ->)|simpl in Hs; subst s'; by apply safe_free, gives_failed].
  apply (safe_free (with_fd f s)). by apply gives_socket.
Qed.

Lemma udp_connect_safe host serv peer s :
  safe (muggle_udp_connect host serv peer) s (gives_peer s peer MUGGLE_SOCKET_PEER_TYPE_UDP_PEER).
Proof.
  apply safe_getaddrinfo; [apply gives_failed|]. intros l _. apply safe_bind. eapply safe_mono; [|apply connect_first_safe].
  intros [[f ai]|] s' Hs; [destruct Hs as (Hf & Hn & ->)|simpl in Hs; subst s'; by apply safe_free, gives_failed].
  apply (safe_free (with_fd f s)). by apply gives_socket.
Qed.

Lemma connect_wait_safe f timeout flags s : 0 <= f < limit -> f ∉ open s -> limit <= FD_SETSIZE ->
  safe (connect_wait f timeout flags) (with_fd f s) (fun r s' => (r = MUGGLE_INVALID_SOCKET /\ s' = s) \/ (r = f /\ s' = with_fd f s)).
Proof.
  intros Hf Hn Hl. apply safe_bind. split; [lia|]. apply (safe_call _ f); [done|]. intros [[n r] w].
  assert (safe (muggle_socket_close f;; mret MUGGLE_INVALID_SOCKET) (with_fd f s)
    (fun r s' => (r = MUGGLE_INVALID_SOCKET /\ s' = s) \/ (r = f /\ s' = with_fd f s))) as Hclose by (apply safe_close; [done|]; by left).
  destruct (n =? 0); [done|]. destruct (n =? MUGGLE_SOCKET_ERROR); [done|]. destruct (r || w); [|done].
  apply (safe_call _ f); [done|]. intros [ret error]. destruct (ret <? 0); [done|]. destruct (negb (error =? 0)); [done|].
  apply (safe_call _ f); [done|]. intros _. apply safe_ret. by right.
Qed.

Lemma tcp_connect_safe host serv timeout peer s : limit <= FD_SETSIZE ->
  safe (muggle_tcp_connect host serv timeout peer) s (gives_peer s peer MUGGLE_SOCKET_PEER_TYPE_TCP_PEER).
Proof.
  intros Hl. apply safe_getaddrinfo; [apply gives_failed|]. intros l _. apply safe_bind. eapply safe_mono; [|apply create_first_safe].
  intros [[f ai]|] s' Hs; [destruct Hs as (Hf & Hn & ->)|simpl in Hs; subst s'; by apply safe_free, gives_failed].
  do 2 (apply (safe_call _ f); [done|]; intros ?). apply (safe_call _ f); [done|]. intros [n errno]. destruct (_ && _).
  - apply safe_close; [done|]. by apply safe_free, gives_failed.
  - apply (safe_free (with_fd f s)). destruct (n =? 0).
    + apply (safe_call _ f); [done|]. intros _. by apply gives_socket.
    + apply safe_bind. eapply safe_mono; [|by apply connect_wait_safe]. intros fd s' [[-> ->]|[-> ->]]; [split; [by left|done]|by apply gives_socket].
Qed.

Lemma iface_index_safe iface s : safe (iface_index iface) s (fun _ s' => s' = s).
Proof. by destruct iface. Qed.

(** Joining a group: when the address of the source is not found the socket is left
    open, see [mcast_join_leaks]. *)
Definition joins (s : res) (src_grp : option (list Z)) (peer : bool) (r : Z * option peer_addr) (s' : res) : Prop :=
  gives_peer s peer MUGGLE_SOCKET_PEER_TYPE_UDP_PEER r s' \/
  (src_grp <> None /\ r = failed /\ exists f, f ∉ open s /\ s' = with_fd f s).

Lemma mcast_join_safe host serv iface src_grp peer s : safe (muggle_mcast_join host serv iface src_grp peer) s (joins s src_grp peer).
Proof.
  assert (joins s src_grp peer failed s) as Hfail by (left; apply gives_failed).
  unfold muggle_mcast_join. case_bool_decide; [done|]. case_bool_decide; [done|].
  apply safe_bind. eapply safe_mono; [|apply getaddrinfo_safe]. intros [ai|] s' [-> Hai]; [|done]. specialize (Hai ai eq_refl).
  apply safe_bind. eapply safe_mono; [|apply iface_index_safe]. intros iface_idx s' ->.
  apply safe_bind, safe_create; [done|]. intros f Hf Hn.
  destruct (Z.eqb_spec f MUGGLE_INVALID_SOCKET) as [->|]; [unfold MUGGLE_INVALID_SOCKET in Hf; lia|].
  apply (safe_call _ f); [done|]. intros _. apply (safe_call _ f); [done|]. intros r.
  assert (safe (muggle_socket_close f;; mret failed) (with_fd f s) (joins s src_grp peer)) as Hclose by (by apply safe_close).
  destruct (negb (r =? 0)); [done|]. destruct (mcast_level (ai_family ai)) as [level|]; [|done]. apply safe_bind. destruct src_grp as [g|].
  - apply safe_bind. eapply safe_mono; [|apply getaddrinfo_safe]. intros [src|] s' [-> _]; apply safe_ret || idtac.
    + apply (safe_call _ f); [done|]. intros k. apply safe_ret. destruct (negb (k =? 0)); [done|]. apply safe_ret. left. by apply gives_socket.
    + right. split_and!; [done|done|by exists f].
  - destruct (Z.gtb_spec (ai_addrlen ai) SIZEOF_STORAGE); [lia|]. apply (safe_call _ f); [done|]. intros k. apply safe_ret.
    destruct (negb (k =? 0)); [done|]. apply safe_ret. left. by apply gives_socket.
Qed.

Lemma mcast_leave_safe f host serv iface src_grp s : f ∈ open s ->
  safe (muggle_mcast_leave f host serv iface src_grp) s (fun r s' => s' = s /\ (r = 0 \/ r = -1)).
Proof.
  intros Hf. unfold muggle_mcast_leave. case_bool_decide; [simpl; auto|]. case_bool_decide; [simpl; auto|].
  apply safe_bind. eapply safe_mono; [|apply getaddrinfo_safe]. intros [ai|] s' [-> Hai]; [|simpl; auto].
  destruct (mcast_level (ai_family ai)) as [level|]; [|simpl; auto].
  apply safe_bind. eapply safe_mono; [|apply iface_index_safe]. intros idx s' ->. destruct src_grp as [g|].
  - apply safe_bind. eapply safe_mono; [|apply getaddrinfo_safe]. intros [src|] s' [-> _]; [|simpl; auto].
    apply safe_bind. split; [done|]. intros n. apply safe_ret. destruct (negb (n =? 0)); apply safe_ret; auto.
  - destruct (_ >? _); [simpl; auto|]. apply safe_bind. split; [done|]. intros n. apply safe_ret. destruct (negb (n =? 0)); apply safe_ret; auto.
Qed.

(** C6: whatever the operating system answers, listening, connecting (where the
    descriptors have a place in an fd_set: [limit] at most FD_SETSIZE) and binding
    return a new descriptor, with the peer filled in when one is given, and leave
    nothing else open, or return -1 and leave nothing open: every socket that was
    tried is closed once, the list of addresses is freed once, and no call is made
    on a descriptor that is closed.  Joining a group does the same without a
    source; with one it may also return -1 with the socket left open
    ([mcast_join_leaks]), and nothing else is. *)
Theorem socket_functions_give host serv iface src_grp backlog timeout_sec peer s :
  safe (muggle_tcp_listen host serv backlog peer) s (gives_peer s peer MUGGLE_SOCKET_PEER_TYPE_TCP_LISTEN) /\
  (limit <= FD_SETSIZE ->
    safe (muggle_tcp_connect host serv timeout_sec peer) s (gives_peer s peer MUGGLE_SOCKET_PEER_TYPE_TCP_PEER)) /\
  safe (muggle_udp_bind host serv peer) s (gives_peer s peer MUGGLE_SOCKET_PEER_TYPE_UDP_PEER) /\
  safe (muggle_udp_connect host serv peer) s (gives_peer s peer MUGGLE_SOCKET_PEER_TYPE_UDP_PEER) /\
  safe (muggle_mcast_join host serv iface src_grp peer) s (joins s src_grp peer).
Proof.
  split_and!; [apply tcp_listen_safe|apply tcp_connect_safe|apply udp_bind_safe|apply udp_connect_safe|apply mcast_join_safe].
Qed.

(** ** Systems *)

(** A system with a state of its own beside the descriptors and the lists. *)
Section system.
Context {St : Type} (os : forall a : action, St -> res -> answer a * St * res).

Fixpoint exec {A} (p : prog A) (st : St) (s : res) : A * St * res :=
  match p with
  | Ret x => (x, st, s)
  | Act a k => let '(r, st, s) := os a st s in exec (k r) st s
  end.

(** Its answers are among those a call may give. *)
Definition allowed : Prop := forall a st s Q, may a s Q -> let '(r, _, s') := os a st s in Q r s'.

(** What is safe holds of every run. *)
Lemma safe_exec {A} (p : prog A) Q : allowed -> forall st s, safe p s Q -> let '(x, _, s') := exec p st s in Q x s'.
Proof.
  intros Hos. induction p as [x|a k IH]; intros st s; simpl; [done|]. intros H.
  specialize (Hos a st s _ H). destruct (os a st s) as [[r st'] s']. by apply IH.
Qed.
End system.
End safe.

(** Port and address fit the buffer whenever the function returns it. *)
Lemma ntop_complete family text port bufsize buf : 0 <= port < 65536 -> zlen text < bufsize < 2 ^ 64 ->
  muggle_socket_ntop family (Some text) port bufsize false = Some buf -> buf = text ++ 58 :: print_int 10 port /\ zlen buf < bufsize.
Proof.
  intros Hp Hb. unfold muggle_socket_ntop. destruct (_ || _); [|done]. pose proof (zlen_nonneg text). simpl.
  rewrite wrap_small by lia. destruct (Z.ltb_spec (bufsize - zlen text) 8); [done|]. intros [= <-].
  unfold print_int. destruct (Z.ltb_spec port 0); [lia|]. 
  assert (zlen (print_digits 64 10 port) <= 5) as Hd by (apply (print_len 64 port 5); [split; [lia|transitivity 65536; [lia|done]]|lia]).
  generalize dependent (print_digits 64 10 port). intros d Hd. rewrite firstn_all2 by (unfold zlen in *; simpl; lia). split; [done|]. rewrite zlen_app, zlen_cons. lia.
Qed.

(** ** Runs *)

(** Answers that depend on the call only, and the calls made. *)
Fixpoint run {A} (os : forall a, answer a) (p : prog A) : A * list action :=
  match p with
  | Ret x => (x, [])
  | Act a k => let (x, l) := run os (k (os a)) in (x, a :: l)
  end.

(** A system that knows one address, [group], and gives the descriptor 7. *)
Definition group : list Z := [50; 50; 52; 46; 48; 46; 48; 46; 49].
Definition sample_os (a : action) : answer a :=
  match a return answer a with
  | Getaddrinfo host _ _ => if bool_decide (host = Some group) then Some [mkai AF_INET SOCK_DGRAM 17 16 0] else None
  | Freeaddrinfo => tt
  | FdSet _ => tt
  | Socket _ _ _ => 7
  | Connect _ _ => (0, 0)
  | Getsockerror _ => (0, 0)
  | Select _ _ _ => (1, true, true)
  | Close _ | Setsockopt _ _ _ _ | Bind _ _ | Listen _ _ | Getfl _ | Setfl _ _ | IfNametoindex _ => 0
  end.

Example udp_bind_run :
  run sample_os (muggle_udp_bind (Some group) (Some []) true) =
    ((7, Some (muggle_socket_peer_init 7 MUGGLE_SOCKET_PEER_TYPE_UDP_PEER, mkai AF_INET SOCK_DGRAM 17 16 0)),
     [Getaddrinfo (Some group) (Some []) (mkh SOCK_DGRAM AI_PASSIVE); Socket AF_INET SOCK_DGRAM 17; Setsockopt 7 SOL_SOCKET SO_REUSEADDR (Flag 1); Bind 7 0; Freeaddrinfo]).
Proof. vm_compute. reflexivity. Qed.

(** When the address of the source is not found the socket stays open. *)
Example mcast_join_leaks :
  run sample_os (muggle_mcast_join (Some group) (Some []) None (Some []) true) =
    (failed,
     [Getaddrinfo (Some group) (Some []) (mkh SOCK_DGRAM 0); Freeaddrinfo; Socket AF_INET SOCK_DGRAM 17; Setsockopt 7 SOL_SOCKET SO_REUSEADDR (Flag 1); Bind 7 0;
      Getaddrinfo (Some []) None (mkh SOCK_DGRAM 0)]).
Proof. vm_compute. reflexivity. Qed.

(** connect does not try the addresses behind the first that has a socket. *)
Example tcp_connect_first_only ai1 ai2 :
  let os a := match a return answer a with
              | Getaddrinfo _ _ _ => Some [ai1; ai2]
              | Connect _ _ => (-1, 111)
              | a => sample_os a
              end in
  (run os (muggle_tcp_connect None None 1 false)).2 =
    [Getaddrinfo None None (mkh SOCK_STREAM AI_CANONNAME); Socket (ai_family ai1) (ai_socktype ai1) (ai_protocol ai1); Getfl 7; Setfl 7 O_NONBLOCK;
     Connect 7 (ai_addr ai1); Close 7; Freeaddrinfo].
Proof. reflexivity. Qed.

(** ** A system with a table of descriptors *)

(** It gives the smallest descriptor that is not open, and answers the other calls
    like [sample_os]. *)
Definition free_fd (limit : Z) (s : res) : option Z := head (filter (fun f => f ∉ open s) (seqZ 0 limit)).

Definition table_os (limit : Z) (a : action) (_ : unit) (s : res) : answer a * unit * res :=
  match a return answer a * unit * res with
  | Getaddrinfo host serv h =>
      match sample_os (Getaddrinfo host serv h) with
      | None => (None, tt, s)
      | l => (l, tt, mkres (open s) (S (lists s)))
      end
  | Freeaddrinfo => (tt, tt, mkres (open s) (Nat.pred (lists s)))
  | Socket _ _ _ =>
      match free_fd limit s with
      | None => (MUGGLE_INVALID_SOCKET, tt, s)
      | Some f => (f, tt, mkres ({[f]} ∪ open s) (lists s))
      end
  | Close fd => (0, tt, mkres (open s ∖ {[fd]}) (lists s))
  | a => (sample_os a, tt, s)
  end.

Lemma free_fd_spec limit s f : free_fd limit s = Some f -> 0 <= f < limit /\ f ∉ open s.
Proof.
  unfold free_fd. intros H. assert (f ∈ filter (fun f => f ∉ open s) (seqZ 0 limit)) as Hf.
  { destruct (filter _ _) as [|x l]; [done|]. simplify_eq/=. apply list_elem_of_here. }
  apply list_elem_of_filter in Hf as [Hn Hf]. apply elem_of_seqZ in Hf. split; [lia|done].
Qed.

Lemma table_os_allowed limit : allowed limit (table_os limit).
Proof.
  intros a st s Q. destruct a; simpl; try naive_solver.
  - intros [Hn Hl]. case_bool_decide; [|done]. apply Hl; [done|]. apply Forall_singleton. by vm_compute.
  - intros (n & -> & HQ). done.
  - intros [Hn Hs]. destruct (free_fd limit s) as [f|] eqn:E; [|done]. apply free_fd_spec in E as [Hf Ho]. by apply Hs.
Qed.

Lemma socket_functions_give_witness :
  1024 <= FD_SETSIZE /\
  safe 1024 (muggle_tcp_connect (Some group) (Some []) 3 true) (mkres ∅ 0)
    (gives_peer 1024 (mkres ∅ 0) true MUGGLE_SOCKET_PEER_TYPE_TCP_PEER) /\
  let '(r, _, s) := exec (table_os 1024) (muggle_tcp_connect (Some group) (Some []) 3 true) tt (mkres ∅ 0) in
  gives_peer 1024 (mkres ∅ 0) true MUGGLE_SOCKET_PEER_TYPE_TCP_PEER r s.
Proof.
  assert (1024 <= FD_SETSIZE) as Hl by (vm_compute; discriminate).
  pose proof (proj1 (proj2 (socket_functions_give 1024 (Some group) (Some []) None None 5 3 true (mkres ∅ 0))) Hl) as H.
  split; [exact Hl|]. split; [exact H|]. exact (safe_exec 1024 (table_os 1024) _ _ (table_os_allowed 1024) tt _ H).
Defined.
End SocketUtils.
