(* ===== verification/SocketMemmgr.v ===== *)
(** muggle/c/net/event/socket_event_memmgr.{h,c}: the peers of an event loop, as
    nodes of a pool in two lists, the active peers and those that other threads
    still hold.  The manager refines a pair of lists. *)

From stdpp Require Import base gmap sets list numbers relations.
From Stdlib Require Import ZArith Lia.
From S2P Require Import Prelude Dsaa MemoryPool NodeMem DList SocketPeer.
Import MemoryPool(block, muggle_memory_pool).
Import SocketPeer(muggle_socket_peer, mkpeer, ref_cnt, fd, status, peer_type, set_ref_cnt, set_fd, set_status,
  peer_ev, has_on_close, MUGGLE_INVALID_SOCKET, MUGGLE_SOCKET_PEER_STATUS_ACTIVE).

Open Scope Z_scope.

Module SocketMemmgr.

Record muggle_socket_peer_list_node := mkn {
  node_prev : loc;
  node_next : loc;
  peer : muggle_socket_peer
}.

#[export] Instance peer_dnode : DNode muggle_socket_peer_list_node muggle_socket_peer.
Proof.
  refine {|
    prev := node_prev; next := node_next; payload := peer;
    set_prev p n := mkn p (node_next n) (peer n);
    set_next p n := mkn (node_prev n) p (peer n)
  |}; abstract done.
Defined.

(** What is told to the client and the operating system. *)
Inductive event : Type :=
| OnClose (p : loc)
| CloseFd (fd : Z)
| OnConnect (p : loc)
| OnMessage (p : loc)
| OnError (p : loc)
| OnTimer.

(** The heads of the two lists are the cells [active_head] and [recycle_head] of
    the store; the pool is [peer_pool]. *)
Definition active_head : loc := LPart 0.
Definition recycle_head : loc := LPart 1.

(** A call of release by the event loop, with no other thread at the count: the
    result and the peer, and whether it was closed.  With a count of 0 it is the
    build without assertions. *)
Definition release (p : muggle_socket_peer) : Z * muggle_socket_peer * bool :=
  if ref_cnt p =? 1 then (0, set_fd MUGGLE_INVALID_SOCKET (set_ref_cnt 0 p), true)
  else if ref_cnt p =? 0 then (0, p, false)
  else (ref_cnt p - 1, set_ref_cnt (ref_cnt p - 1) p, false).

(** It is what the steps of SocketPeer do when no other thread comes between. *)
Lemma release_run (c : SocketPeer.conf) i o :
  SocketPeer.threads c !! i = Some (SocketPeer.mkth o (SocketPeer.Release 0)) -> 0 < ref_cnt (SocketPeer.peer c) ->
  exists c', rtc SocketPeer.run_step c c' /\ SocketPeer.peer c' = (release (SocketPeer.peer c)).1.2 /\
    SocketPeer.threads c' !! i = Some (SocketPeer.mkth o (SocketPeer.ReleaseRet (release (SocketPeer.peer c)).1.1)) /\
    SocketPeer.closings c' = SocketPeer.closings c + if (release (SocketPeer.peer c)).2 then 1 else 0.
Proof.
  intros Hi Hr. pose proof (lookup_lt_Some _ _ _ Hi) as Hlt. unfold release.
  destruct (Z.eqb_spec (ref_cnt (SocketPeer.peer c)) 1) as [E1|E1].
  - eexists. split.
    + eapply rtc_l; [by eapply SocketPeer.s_release_last|]. eapply rtc_l; [eapply (SocketPeer.s_release_store _ i); simpl; by apply list_lookup_insert_eq|].
      eapply rtc_l; [eapply (SocketPeer.s_close _ i); simpl; apply list_lookup_insert_eq; by rewrite length_insert|]. apply rtc_refl.
    + simpl. split; [done|]. split; [apply list_lookup_insert_eq; by rewrite !length_insert|done].
  - destruct (Z.eqb_spec (ref_cnt (SocketPeer.peer c)) 0); [lia|]. eexists. split.
    + eapply rtc_l; [by eapply SocketPeer.s_release_more|]. eapply rtc_l; [eapply (SocketPeer.s_release_load _ i); simpl; [by apply list_lookup_insert_eq|done]|].
      eapply rtc_l; [eapply (SocketPeer.s_release_cas _ i); simpl; [apply list_lookup_insert_eq; by rewrite length_insert|done]|].
      eapply rtc_l; [eapply (SocketPeer.s_no_close _ i); simpl; [apply list_lookup_insert_eq; by rewrite !length_insert|lia]|]. apply rtc_refl.
    + simpl. split; [done|]. split; [apply list_lookup_insert_eq; by rewrite !length_insert|lia].
Qed.

Definition set_peer (p : muggle_socket_peer) (n : muggle_socket_peer_list_node) : muggle_socket_peer_list_node :=
  mkn (node_prev n) (node_next n) p.

(** The node after memset to 0. *)
Definition zero_peer : muggle_socket_peer := mkpeer 0 0 0 0 None.
Definition zero_node : muggle_socket_peer_list_node := mkn LNull LNull zero_peer.

(** What the last release of a peer tells: on_close where the peer has an event
    with that callback, and the closing of its socket. *)
Definition close_events (node : loc) (p : muggle_socket_peer) : list event :=
  (if has_on_close p then [OnClose node] else []) ++ [CloseFd (fd p)].

Section ops.
Context {H : Type} `{!NodeMalloc H}.
Context `{Malloc (list Z)} `{Malloc block} `{Malloc Z}.
(** What a new block holds. *)
Context (raw : muggle_socket_peer_list_node).

Definition mgr : Type := st H muggle_socket_peer_list_node (list event).
Definition MM (A : Type) : Type := M H muggle_socket_peer_list_node (list event) A.

Definition muggle_socket_event_memmgr_insert_node (head node : loc) : MM unit :=
  h ← load head;
  modify node (set_next (next h));;
  n ← load node;
  (if is_null (next n) then mret tt else modify (next n) (set_prev node));;
  modify head (set_next node);;
  modify node (set_prev head).

Definition muggle_socket_event_memmgr_remove_node (node : loc) : MM unit :=
  n ← load node;
  (if is_null (prev n) then mret tt else modify (prev n) (set_next (next n)));;
  n ← load node;
  (if is_null (next n) then mret tt else modify (next n) (set_prev (prev n)));;
  modify node (set_prev LNull);;
  modify node (set_next LNull).

Definition muggle_socket_event_memmgr_allocate : MM loc :=
  node ← alloc raw;
  if is_null node then mret LNull
  else
    modify node (fun _ => zero_node);;
    muggle_socket_event_memmgr_insert_node active_head node;;
    mret node.

Definition muggle_socket_event_memmgr_get_node : MM loc :=
  h ← load active_head; mret (node_next h).

Definition muggle_socket_event_memmgr_free (node : loc) : MM unit :=
  muggle_socket_event_memmgr_remove_node node;;
  dealloc node.

Definition muggle_socket_event_memmgr_recycle (node : loc) : MM unit :=
  n ← load node;
  lift (if is_null (prev n) then Undef else Done tt);; (* MUGGLE_ASSERT(node->prev != NULL) *)
  muggle_socket_event_memmgr_remove_node node;;
  n ← load node;
  let '(ref_cnt, p, closed) := release (peer n) in
  (if (closed : bool) then set_fld (fun l => l ++ close_events node (peer n)) else mret tt);;
  modify node (set_peer p);;
  if ref_cnt =? 0 then dealloc node
  else muggle_socket_event_memmgr_insert_node recycle_head node.

(** The body of the loop of clear, at a node of the recycle list. *)
Definition clear_step (node : loc) : MM (loc + unit) :=
  if is_null node then mret (inr tt)
  else
    n ← load node;
    let next_node := node_next n in
    (if ref_cnt (peer n) =? 0 then muggle_socket_event_memmgr_free node else mret tt);;
    mret (inl next_node).

Definition muggle_socket_event_memmgr_clear : MM unit :=
  h ← load recycle_head;
  c ← count;
  loopM (S c) clear_step (node_next h).

(** One round of the loop over the peers that init was given. *)
Definition init_peer (p : muggle_socket_peer) : MM loc :=
  node ← alloc raw;
  if is_null node then mret LNull
  else
    modify node (set_peer p);;
    modify node (fun n => set_peer (set_ref_cnt 1 (peer n)) n);;
    modify node (fun n => set_peer (set_status MUGGLE_SOCKET_PEER_STATUS_ACTIVE (peer n)) n);;
    muggle_socket_event_memmgr_insert_node active_head node;;
    mret node.

(** The loop, for the peers left: the nodes it returns in [p_peers], or [None]
    for the return of -1, with the pool destroyed. *)
Fixpoint init_peers (ps : list muggle_socket_peer) : MM (option (list loc)) :=
  match ps with
  | [] => mret (Some [])
  | p :: ps =>
      node ← init_peer p;
      if is_null node then destroy_pool;; mret None
      else
        r ← init_peers ps;
        mret (cons node <$> r)
  end.

(** [sizeof(muggle_socket_peer_list_node_t)]. *)
Definition sizeof_node : Z := 184.

Definition muggle_socket_event_memmgr_init (capacity : Z) (ps : list muggle_socket_peer) (h : H)
  : outcome (Z * option (mgr * option (list loc))) :=
  r ← MemoryPool.muggle_memory_pool_init (u32 capacity) sizeof_node;
  match (r : option muggle_memory_pool) with
  | None => mret (-1, None)
  | Some p =>
      let p := MemoryPool.muggle_memory_pool_set_flag p MemoryPool.MUGGLE_MEMORY_POOL_CONSTANT_SIZE in
      let heads := <[active_head := mkn LNull LNull zero_peer]> {[recycle_head := mkn LNull LNull zero_peer]} in
      r ← init_peers ps (mkst heads (mka (Some p) h) [] []);
      let (nodes, s) := (r : option (list loc) * mgr) in
      mret (match nodes with Some _ => 0 | None => -1 end, Some (s, nodes))
  end.

(** The first loop of destroy. *)
Definition destroy_active_step (node : loc) : MM (loc + unit) :=
  if is_null node then mret (inr tt)
  else
    n ← load node;
    let next_node := node_next n in
    muggle_socket_event_memmgr_recycle node;;
    mret (inl next_node).

(** The inner loop of destroy: it sleeps until the count of the peer is 0.
    [counts] are the counts that the threads holding the peer leave, one after
    each sleep. *)
Fixpoint await (node : loc) (counts : list Z) : MM unit :=
  n ← load node;
  if ref_cnt (peer n) =? 0 then mret tt
  else
    match counts with
    | [] => lift NoFuel
    | c :: counts =>
        modify node (fun n => set_peer (set_ref_cnt c (peer n)) n);;
        await node counts
    end.

(** The second loop. *)
Definition destroy_recycle_step (releases : loc -> list Z) (node : loc) : MM (loc + unit) :=
  if is_null node then mret (inr tt)
  else
    n ← load node;
    let next_node := node_next n in
    await node (releases node);;
    muggle_socket_event_memmgr_free node;;
    mret (inl next_node).

(** [releases] are the counts of each peer while destroy waits for it. *)
Definition muggle_socket_event_memmgr_destroy (releases : loc -> list Z) : MM unit :=
  h ← load active_head;
  c ← count;
  loopM (S c) destroy_active_step (node_next h);;
  h ← load recycle_head;
  c ← count;
  loopM (S c) (destroy_recycle_step releases) (node_next h);;
  destroy_pool.
End ops.

(** ** The lists *)
Section links.
Context {H : Type} `{!NodeMalloc H}.
Implicit Types (s : @mgr H).

(** The updates commute: the node is linked as in the chains of the hash table. *)
Lemma insert_node_link_front s a L new n : chain (mem s) a L LNull -> NoDup (a :: L) -> LNull ∉ L ->
  mem s !! new = Some n -> new ∉ a :: L ->
  muggle_socket_event_memmgr_insert_node a new s = link_front a new s.
Proof.
  intros Hc Hnd Hnull En [Hna HnL]%not_elem_of_cons.
  assert (exists na, mem s !! a = Some na /\ node_next na = default LNull (head L)) as (na & Ea & Hna').
  { destruct L as [|q L]; [|destruct Hc as [Hc _]]; by apply nextof_Some in Hc. }
  unfold muggle_socket_event_memmgr_insert_node, link_front, mbind, M_bind, load, modify, mret, M_ret.
  destruct L as [|q L]; simpl in Hna'.
  - repeat (simpl; rewrite ?Ea, ?En, ?Hna'; simpl; first [rewrite lookup_insert_ne by done|rewrite lookup_insert_eq]).
    simpl. rewrite ?Hna'. simpl. do 3 f_equal. apply map_eq. intros x. rewrite !lookup_insert. repeat case_decide; subst; congruence.
  - apply not_elem_of_cons in Hnull as [Hq0 _]. apply not_elem_of_cons in HnL as [Hnq HnL]. destruct Hc as (_ & Hq & _).
    apply list.NoDup_cons in Hnd as [[Haq HaL]%not_elem_of_cons Hnd]. destruct (prevof_Some _ _ _ Hq) as (nq & Eq & _).
    assert (is_null q = false) as Hnq0 by (by apply bool_decide_false).
    repeat (simpl; rewrite ?Ea, ?En, ?Eq, ?Hna', ?Hnq0; simpl; first [rewrite lookup_insert_ne by done|rewrite lookup_insert_eq]).
    simpl. rewrite ?Ea, ?En, ?Eq, ?Hna', ?Hnq0. simpl.
    do 3 f_equal. apply map_eq. intros x. rewrite !lookup_insert. repeat case_decide; subst; congruence.
Qed.

Lemma insert_node_wp s a L new n Q :
  chain (mem s) a L LNull -> NoDup (a :: L) -> LNull ∉ L -> mem s !! new = Some n -> new ∉ a :: L ->
  (forall m', chain m' a (new :: L) LNull -> frames (mem s) m' (new :: a :: L) ->
     Q tt (mkst m' (ar s) (fld s) (calls s))) ->
  wpm (muggle_socket_event_memmgr_insert_node a new) s Q.
Proof.
  intros Hc Hnd Hnull En Hnew HQ. unfold wpm. rewrite (insert_node_link_front s a L new n) by done.
  by apply (link_front_wp s a L new n).
Qed.

Lemma remove_node_unlink s p n npr : mem s !! p = Some n -> node_prev n <> LNull -> node_prev n <> p -> mem s !! node_prev n = Some npr ->
  muggle_socket_event_memmgr_remove_node p s =
    (unlink_open (prev n) (next n);; modify p (set_prev LNull);; modify p (set_next LNull)) s.
Proof.
  intros En Hp Hpp Ep. unfold muggle_socket_event_memmgr_remove_node, unlink_open, mbind, M_bind, load, modify, mret, M_ret.
  rewrite En. assert (is_null (prev n) = false) as Hp0 by (by apply bool_decide_false). rewrite Hp0. simpl prev. simpl next.
  rewrite Ep. simpl. rewrite lookup_insert_ne, En by done. simpl. by destruct (is_null (node_next n)).
Qed.

(** A node in a chain has a node before it, the head or another. *)
Lemma chain_prev m a L1 p L2 n : chain m a (L1 ++ p :: L2) LNull -> NoDup (a :: L1 ++ p :: L2) -> LNull ∉ a :: L1 ++ L2 -> m !! p = Some n ->
  node_prev n = end_of a L1 /\ node_prev n <> LNull /\ node_prev n <> p.
Proof.
  intros Hc Hnd Hnull En. unfold chain in Hc. apply dchain_app in Hc as (_ & Hp & _).
  unfold prevof in Hp. rewrite En in Hp. injection Hp as Hp. change (node_prev n = end_of a L1) in Hp.
  pose proof (end_of_elem a L1) as He. rewrite <- Hp in He. split; [done|]. split; intros E; rewrite E in He.
  - apply Hnull. change (a :: L1 ++ L2) with ((a :: L1) ++ L2). apply elem_of_app. by left.
  - assert (NoDup ((a :: L1) ++ p :: L2)) as (_ & Hdis & _)%list.NoDup_app by done. apply (Hdis p); [done|left].
Qed.

(** The node is taken out, and its links are NULL. *)
Lemma remove_node_wp s a L1 p L2 n Q :
  chain (mem s) a (L1 ++ p :: L2) LNull -> NoDup (a :: L1 ++ p :: L2) -> LNull ∉ a :: L1 ++ L2 -> mem s !! p = Some n ->
  (forall m', chain m' a (L1 ++ L2) LNull -> frames (mem s) m' (a :: L1 ++ p :: L2) ->
     m' !! p = Some (mkn LNull LNull (peer n)) -> Q tt (mkst m' (ar s) (fld s) (calls s))) ->
  wpm (muggle_socket_event_memmgr_remove_node p) s Q.
Proof.
  intros Hc Hnd Hnull En HQ. destruct (chain_prev _ _ _ _ _ _ Hc Hnd Hnull En) as (Hp & Hp0 & Hpp).
  assert (NoDup ((a :: L1) ++ p :: L2)) as Hnd' by done. pose proof Hc as Hc'. unfold chain in Hc'. apply dchain_app in Hc' as (Hl & _ & _).
  pose proof (dchain_end _ _ _ _ _ Hl) as Hx. apply nextof_Some in Hx as (npr & Epr & _). rewrite <- Hp in Epr.
  unfold wpm. rewrite (remove_node_unlink s p n npr) by done. fold (wpm (unlink_open (prev n) (next n);; modify p (set_prev LNull);; modify p (set_next LNull)) s Q).
  apply wpm_bind. apply (unlink_open_wp s a L1 p L2 n); [done|done|set_solver|done|]. intros m1 Hc1 Hf1.
  assert (p ∉ a :: L1 ++ L2) as Hpn.
  { rewrite <- Permutation_middle in Hnd'. by apply list.NoDup_cons in Hnd' as [? _]. }
  destruct Hf1 as [Hpl Ho]. assert (m1 !! p = Some n) as E1 by (rewrite Ho by done; done).
  apply wpm_bind. eapply wpm_modify; [exact E1|]. eapply wpm_modify; [apply lookup_insert_eq|]. apply HQ; simpl; rewrite insert_insert_eq.
  - by apply chain_insert_new.
  - split.
    + intros x. unfold payloadof. rewrite lookup_insert. case_decide; [subst; by rewrite En|]. apply Hpl.
    + intros x Hx. rewrite lookup_insert_ne, Ho; [done|set_solver|set_solver].
  - by rewrite lookup_insert_eq.
Qed.
End links.

(** ** The manager is a pair of lists *)
Section memmgr.
Context {H : Type} `{!NodeMalloc H}.
Context `{Malloc (list Z)} `{Malloc block} `{Malloc Z}.
Context (raw : muggle_socket_peer_list_node).
Implicit Types (s : @mgr H) (act rec : list loc).

(** The nodes are those of the two lists and [extra] ones that are in none. *)
Record nodes_ok s (extra act rec : list loc) : Prop := {
  ok_active : chain (mem s) active_head act LNull;
  ok_recycle : chain (mem s) recycle_head rec LNull;
  ok_nodup : NoDup (active_head :: recycle_head :: extra ++ act ++ rec);
  ok_null : LNull ∉ extra ++ act ++ rec;
  ok_owns : arena_owns (ar s) (list_to_set (extra ++ act ++ rec));
  ok_dom : forall p, is_Some (mem s !! p) <-> p ∈ active_head :: recycle_head :: extra ++ act ++ rec
}.
Notation mgr_ok s act rec := (nodes_ok s [] act rec).

Definition peer_of s (p : loc) : option muggle_socket_peer := peer <$> mem s !! p.

(** Changing the order of the nodes. *)
Lemma nodes_set (l l' : list loc) : l ≡ₚ l' -> (list_to_set l : gset loc) = list_to_set l'.
Proof. intros E. apply set_eq. intros x. by rewrite !elem_of_list_to_set, E. Qed.

Lemma loose_modify s p act rec f Q : nodes_ok s [p] act rec ->
  (forall n s', mem s !! p = Some n -> nodes_ok s' [p] act rec -> ar s' = ar s -> fld s' = fld s ->
     mem s' = <[p := f n]> (mem s) -> Q tt s') ->
  wpm (modify p f) s Q.
Proof.
  intros [] HQ. destruct (proj2 (ok_dom0 p)) as [n En]; [right; right; left|]. eapply wpm_modify; [exact En|].
  simpl in *. apply list.NoDup_cons in ok_nodup0 as [Ha Hnd]. apply list.NoDup_cons in Hnd as [Hr Hnd]. apply list.NoDup_cons in Hnd as [Hp Hnd].
  apply (HQ n); try done. split; simpl; try done.
  - apply chain_insert_new; [set_solver|done].
  - apply chain_insert_new; [set_solver|done].
  - repeat (apply list.NoDup_cons; split; [done|]). done.
  - intros x. rewrite lookup_insert_is_Some. rewrite ok_dom0. set_solver.
Qed.

Lemma alloc_loose s act rec Q : mgr_ok s act rec -> arena_room (ar s) ->
  (forall p s', nodes_ok s' [p] act rec -> mem s' = <[p := raw]> (mem s) -> mem s !! p = None -> fld s' = fld s -> Q p s') ->
  (forall s', mgr_ok s' act rec -> mem s' = mem s -> fld s' = fld s -> no_node (ar s) -> Q LNull s') ->
  wpm (alloc raw) s Q.
Proof.
  intros [] Hroom HQ HN. eapply (wpm_alloc_short raw 0); [exact ok_owns0|done|..].
  - intros p a Hp Hp0 Hpp Ha _ _. rewrite elem_of_list_to_set in Hp. simpl in *.
    assert (mem s !! p = None) as Hnone.
    { apply eq_None_not_Some. intros Hs. apply ok_dom0 in Hs. rewrite !elem_of_cons in Hs. destruct Hs as [->|[->|?]]; [by eapply Hpp..|done]. }
    apply HQ; try done. split; simpl.
    + apply chain_insert_new; [|done]. apply not_elem_of_cons. split; [apply Hpp|set_solver].
    + apply chain_insert_new; [|done]. apply not_elem_of_cons. split; [apply Hpp|set_solver].
    + apply list.NoDup_cons in ok_nodup0 as [Hna Hnd]. apply list.NoDup_cons in Hnd as [Hnr Hnd].
      apply list.NoDup_cons. split; [rewrite !not_elem_of_cons in *; split; [done|]; split; [apply not_eq_sym, Hpp|tauto]|].
      apply list.NoDup_cons. split; [rewrite !not_elem_of_cons in *; split; [apply not_eq_sym, Hpp|done]|]. by apply list.NoDup_cons.
    + rewrite not_elem_of_cons. split; [done|done].
    + done.
    + intros x. rewrite lookup_insert_is_Some, ok_dom0. set_solver.
  - intros a Ha Hnn. apply HN; try done.
Qed.

Lemma dealloc_loose s p act rec Q : nodes_ok s [p] act rec ->
  (forall s', mgr_ok s' act rec -> mem s' = delete p (mem s) -> fld s' = fld s -> Q tt s') -> wpm (dealloc p) s Q.
Proof.
  intros [] HQ. destruct (proj2 (ok_dom0 p)) as [n En]; [right; right; left|]. simpl in *.
  apply list.NoDup_cons in ok_nodup0 as [Ha Hnd]. apply list.NoDup_cons in Hnd as [Hr Hnd]. apply list.NoDup_cons in Hnd as [Hp Hnd].
  eapply wpm_dealloc; [exact En|exact ok_owns0|set_solver|]. intros a Hown. apply HQ; try done. split; simpl.
  - apply chain_delete; [set_solver|done].
  - apply chain_delete; [set_solver|done].
  - apply list.NoDup_cons. split; [set_solver|]. apply list.NoDup_cons. split; [set_solver|done].
  - set_solver.
  - replace (list_to_set (act ++ rec) : gset loc) with (({[p]} ∪ list_to_set (act ++ rec)) ∖ {[p]} : gset loc); [done|].
    apply set_eq. intros x. rewrite elem_of_difference, elem_of_union, elem_of_singleton, elem_of_list_to_set.
    split; [tauto|]. intros Hx. split; [by right|]. by intros ->.
  - intros x. rewrite lookup_delete_is_Some, ok_dom0. set_solver.
Qed.

(** Linking a loose node into one of the lists. *)
Lemma insert_active_wp s p act rec Q : nodes_ok s [p] act rec ->
  (forall s', mgr_ok s' (p :: act) rec -> (forall q, peer_of s' q = peer_of s q) -> fld s' = fld s -> Q tt s') ->
  wpm (muggle_socket_event_memmgr_insert_node active_head p) s Q.
Proof.
  intros [] HQ. destruct (proj2 (ok_dom0 p)) as [n En]; [right; right; left|]. simpl in *. pose proof ok_nodup0 as Hnd0.
  apply list.NoDup_cons in ok_nodup0 as [Ha Hnd]. apply list.NoDup_cons in Hnd as [Hr Hnd]. apply list.NoDup_cons in Hnd as [Hp Hnd].
  apply (insert_node_wp s active_head act p n); try done; [apply list.NoDup_cons; split; [set_solver|]; by apply list.NoDup_app in Hnd as [? _]|set_solver|set_solver|].
  intros m' Hc' [Hpl Ho]. apply HQ; try done. split; simpl; try done.
  - eapply chain_agree; [|exact ok_recycle0]. intros x Hx. apply Ho.
    apply list.NoDup_app in Hnd as (_ & Hdis & _). intros Hin. rewrite !elem_of_cons in *. set_solver.
  - intros x. rewrite <- ok_dom0. specialize (Hpl x). unfold payloadof in Hpl. destruct (m' !! x), (mem s !! x); simpl in Hpl; naive_solver.
Qed.

Lemma insert_recycle_wp s p act rec Q : nodes_ok s [p] act rec ->
  (forall s', mgr_ok s' act (p :: rec) -> (forall q, peer_of s' q = peer_of s q) -> fld s' = fld s -> Q tt s') ->
  wpm (muggle_socket_event_memmgr_insert_node recycle_head p) s Q.
Proof.
  intros [] HQ. destruct (proj2 (ok_dom0 p)) as [n En]; [right; right; left|]. simpl in *. pose proof ok_nodup0 as Hnd0.
  apply list.NoDup_cons in ok_nodup0 as [Ha Hnd]. apply list.NoDup_cons in Hnd as [Hr Hnd]. apply list.NoDup_cons in Hnd as [Hp Hnd].
  apply (insert_node_wp s recycle_head rec p n); try done; [apply list.NoDup_cons; split; [set_solver|]; by apply list.NoDup_app in Hnd as (_ & _ & ?)|set_solver|set_solver|].
  intros m' Hc' [Hpl Ho].
  assert (p :: act ++ rec ≡ₚ act ++ p :: rec) as HP by solve_Permutation.
  apply HQ; try done. split; simpl; try done.
  - eapply chain_agree; [|exact ok_active0]. intros x Hx. apply Ho.
    apply list.NoDup_app in Hnd as (_ & Hdis & _). intros Hin. rewrite !elem_of_cons in *. set_solver.
  - by rewrite <- HP.
  - by rewrite <- HP.
  - by rewrite <- (nodes_set _ _ HP).
  - intros x. rewrite <- HP, <- ok_dom0. specialize (Hpl x). unfold payloadof in Hpl. destruct (m' !! x), (mem s !! x); simpl in Hpl; naive_solver.
Qed.

(** Taking a node out of one of the lists. *)
Lemma remove_active_wp s act1 p act2 rec Q : mgr_ok s (act1 ++ p :: act2) rec ->
  (forall s', nodes_ok s' [p] (act1 ++ act2) rec -> (forall q, peer_of s' q = peer_of s q) -> fld s' = fld s -> Q tt s') ->
  wpm (muggle_socket_event_memmgr_remove_node p) s Q.
Proof.
  intros [] HQ. assert ([] ++ (act1 ++ p :: act2) ++ rec ≡ₚ [p] ++ (act1 ++ act2) ++ rec) as HP by solve_Permutation.
  destruct (proj2 (ok_dom0 p)) as [n En]; [set_solver|].
  pose proof ok_nodup0 as Hnd. apply list.NoDup_cons in Hnd as [Ha Hnd]. apply list.NoDup_cons in Hnd as [Hr Hnd]. simpl in Hnd.
  apply list.NoDup_app in Hnd as (Hnd1 & Hdis & Hnd2).
  apply (remove_node_wp s active_head act1 p act2 n); try done; [apply list.NoDup_cons; split; [set_solver|done]|set_solver|].
  intros m' Hc' [Hpl Ho] Ep. apply HQ; try done. split; simpl; try done.
  - eapply chain_agree; [|exact ok_recycle0]. intros x Hx. apply Ho. intros Hin. rewrite !elem_of_cons in *. set_solver.
  - by rewrite <- HP.
  - by rewrite <- HP.
  - change (arena_owns (ar s) (list_to_set ([p] ++ (act1 ++ act2) ++ rec))). by rewrite <- (nodes_set _ _ HP).
  - intros x. rewrite <- HP, <- ok_dom0. specialize (Hpl x). unfold payloadof in Hpl. destruct (m' !! x), (mem s !! x); simpl in Hpl; naive_solver.
Qed.

Lemma remove_recycle_wp s act rec1 p rec2 Q : mgr_ok s act (rec1 ++ p :: rec2) ->
  (forall s', nodes_ok s' [p] act (rec1 ++ rec2) -> (forall q, peer_of s' q = peer_of s q) -> fld s' = fld s -> Q tt s') ->
  wpm (muggle_socket_event_memmgr_remove_node p) s Q.
Proof.
  intros [] HQ. assert ([] ++ act ++ (rec1 ++ p :: rec2) ≡ₚ [p] ++ act ++ (rec1 ++ rec2)) as HP by solve_Permutation.
  destruct (proj2 (ok_dom0 p)) as [n En]; [set_solver|].
  pose proof ok_nodup0 as Hnd. apply list.NoDup_cons in Hnd as [Ha Hnd]. apply list.NoDup_cons in Hnd as [Hr Hnd]. simpl in Hnd.
  apply list.NoDup_app in Hnd as (Hnd1 & Hdis & Hnd2).
  apply (remove_node_wp s recycle_head rec1 p rec2 n); try done; [apply list.NoDup_cons; split; [set_solver|done]|set_solver|].
  intros m' Hc' [Hpl Ho] Ep. apply HQ; try done. split; simpl; try done.
  - eapply chain_agree; [|exact ok_active0]. intros x Hx. apply Ho. intros Hin. rewrite !elem_of_cons in *. set_solver.
  - by rewrite <- HP.
  - by rewrite <- HP.
  - change (arena_owns (ar s) (list_to_set ([p] ++ act ++ rec1 ++ rec2))). by rewrite <- (nodes_set _ _ HP).
  - intros x. rewrite <- HP, <- ok_dom0. specialize (Hpl x). unfold payloadof in Hpl. destruct (m' !! x), (mem s !! x); simpl in Hpl; naive_solver.
Qed.

(** ** The operations *)

(** Peers other than [p] are as before. *)
Definition same_peers s s' (p : loc) : Prop := forall q, q <> p -> peer_of s' q = peer_of s q.

Lemma allocate_wp s act rec : mgr_ok s act rec -> arena_room (ar s) ->
  wpm (muggle_socket_event_memmgr_allocate raw) s (fun p s' => fld s' = fld s /\
    ((p = LNull /\ no_node (ar s) /\ mgr_ok s' act rec /\ mem s' = mem s) \/
     (p <> LNull /\ mgr_ok s' (p :: act) rec /\ mem s !! p = None /\ peer_of s' p = Some zero_peer /\ same_peers s s' p))).
Proof.
  intros Hok Hroom. unfold muggle_socket_event_memmgr_allocate. apply wpm_bind. eapply (alloc_loose s act rec); [done|done|..].
  - intros p s1 K1 Em Hnone Ef. assert (is_null p = false) as ->.
    { apply bool_decide_false. intros ->. apply (ok_null _ _ _ _ K1). left. }
    apply wpm_bind. eapply (loose_modify s1); [exact K1|]. intros n s2 En K2 _ Ef2 Em2.
    apply wpm_bind. eapply (insert_active_wp s2); [exact K2|]. intros s3 K3 Hpl Ef3. apply wpm_ret.
    split; [congruence|]. right. split; [intros ->; apply (ok_null _ _ _ _ K1); left|]. split; [done|]. split; [done|].
    rewrite Hpl. unfold peer_of, same_peers. rewrite Em2, lookup_insert_eq. split; [done|]. intros q Hq.
    change (peer_of s3 q = peer_of s q). rewrite Hpl. unfold peer_of. rewrite Em2, lookup_insert_ne, Em, lookup_insert_ne by done. done.
  - intros s1 K1 Em Ef Hnn. change (is_null LNull) with true. cbv iota. apply wpm_ret. split; [done|]. by left.
Qed.

Lemma free_recycle_wp s act rec1 p rec2 : mgr_ok s act (rec1 ++ p :: rec2) ->
  wpm (muggle_socket_event_memmgr_free p) s (fun _ s' => fld s' = fld s /\ mgr_ok s' act (rec1 ++ rec2) /\ mem s' !! p = None /\ same_peers s s' p).
Proof.
  intros Hok. apply wpm_bind. eapply (remove_recycle_wp s); [exact Hok|]. intros s1 K1 Hpl Ef.
  eapply (dealloc_loose s1); [exact K1|]. intros s2 K2 Em Ef2. split; [congruence|]. split; [done|]. rewrite Em, lookup_delete_eq.
  split; [done|]. intros q Hq. rewrite <- Hpl. unfold peer_of. by rewrite Em, lookup_delete_ne.
Qed.

Lemma free_active_wp s act1 p act2 rec : mgr_ok s (act1 ++ p :: act2) rec ->
  wpm (muggle_socket_event_memmgr_free p) s (fun _ s' => fld s' = fld s /\ mgr_ok s' (act1 ++ act2) rec /\ mem s' !! p = None /\ same_peers s s' p).
Proof.
  intros Hok. apply wpm_bind. eapply (remove_active_wp s); [exact Hok|]. intros s1 K1 Hpl Ef.
  eapply (dealloc_loose s1); [exact K1|]. intros s2 K2 Em Ef2. split; [congruence|]. split; [done|]. rewrite Em, lookup_delete_eq.
  split; [done|]. intros q Hq. rewrite <- Hpl. unfold peer_of. by rewrite Em, lookup_delete_ne.
Qed.

(** The order of the events does not matter for the lists. *)
Lemma nodes_ok_fld s extra act rec l : nodes_ok s extra act rec -> nodes_ok (mkst (mem s) (ar s) l (calls s)) extra act rec.
Proof. by intros []. Qed.

Lemma peer_of_lookup s p pr : peer_of s p = Some pr -> exists n, mem s !! p = Some n /\ peer n = pr.
Proof. unfold peer_of. intros (n & ? & ?)%fmap_Some. by exists n. Qed.

(** The state after a release of the peer at the loose node [p]. *)
Lemma release_loose s p act rec pr Q : nodes_ok s [p] act rec -> peer_of s p = Some pr ->
  (forall s', nodes_ok s' [p] act rec -> peer_of s' p = Some (release pr).1.2 -> same_peers s s' p ->
     fld s' = fld s ++ (if (release pr).2 then close_events p pr else []) ->
     wpm (if (release pr).1.1 =? 0 then dealloc p else muggle_socket_event_memmgr_insert_node recycle_head p) s' Q) ->
  wpm (n ← load p;
       let '(ref_cnt, q, closed) := release (peer n) in
       (if (closed : bool) then set_fld (fun l => l ++ close_events p (peer n)) else mret tt);;
       modify p (set_peer q);;
       if ref_cnt =? 0 then dealloc p else muggle_socket_event_memmgr_insert_node recycle_head p) s Q.
Proof.
  intros Hok Hp HQ. apply peer_of_lookup in Hp as (n & En & <-). apply wpm_bind, (wpm_load _ n); [done|].
  destruct (release (peer n)) as [[r q] closed] eqn:Er. simpl in HQ.
  assert (forall l, l = fld s ++ (if closed then close_events p (peer n) else []) ->
    wpm (modify p (set_peer q);; if r =? 0 then dealloc p else muggle_socket_event_memmgr_insert_node recycle_head p)
      (mkst (mem s) (ar s) l (calls s)) Q) as Hgo.
  { intros l ->. apply wpm_bind. eapply loose_modify; [by apply nodes_ok_fld|]. simpl. intros n' s' En' K' _ Ef Em.
    rewrite En in En'. injection En' as <-. apply HQ; [done| | |done].
    - unfold peer_of. by rewrite Em, lookup_insert_eq.
    - intros x Hx. unfold peer_of. by rewrite Em, lookup_insert_ne. }
  apply wpm_bind. destruct closed; [apply wpm_set_fld|apply wpm_ret]; [by apply Hgo|].
  specialize (Hgo (fld s)). rewrite app_nil_r in Hgo. destruct s. by apply Hgo.
Qed.

Lemma recycle_wp s act1 p act2 rec pr : mgr_ok s (act1 ++ p :: act2) rec -> peer_of s p = Some pr ->
  wpm (muggle_socket_event_memmgr_recycle p) s (fun _ s' =>
    fld s' = fld s ++ (if (release pr).2 then close_events p pr else []) /\ same_peers s s' p /\
    if (release pr).1.1 =? 0 then mgr_ok s' (act1 ++ act2) rec /\ mem s' !! p = None
    else mgr_ok s' (act1 ++ act2) (p :: rec) /\ peer_of s' p = Some (release pr).1.2).
Proof.
  intros Hok Hp. destruct (peer_of_lookup _ _ _ Hp) as (n & En & _). apply wpm_bind, (wpm_load _ n); [done|].
  assert (is_null (prev n) = false) as ->.
  { apply bool_decide_false. pose proof Hok as []. simpl in ok_nodup0. apply list.NoDup_cons in ok_nodup0 as [Ha [_ Hnd]%list.NoDup_cons].
    apply list.NoDup_app in Hnd as (Hnd & _). apply (chain_prev (mem s) active_head act1 p act2 n); [done| | |done].
    - apply list.NoDup_cons. split; [set_solver|done].
    - simpl in ok_null0. set_solver. }
  apply wpm_bind, wpm_lift, wp_ret. apply wpm_bind. eapply (remove_active_wp s); [exact Hok|]. intros s1 K1 Hpl Ef1.
  eapply release_loose; [exact K1|by rewrite Hpl|]. intros s2 K2 Hp2 Hs2 Ef2. destruct ((release pr).1.1 =? 0).
  - eapply dealloc_loose; [exact K2|]. intros s3 K3 Em3 Ef3. split; [congruence|]. split; [|by rewrite Em3, lookup_delete_eq].
    intros q Hq. rewrite <- Hpl, <- Hs2 by done. unfold peer_of. by rewrite Em3, lookup_delete_ne.
  - eapply insert_recycle_wp; [exact K2|]. intros s3 K3 Hpl3 Ef3. split; [congruence|]. split; [|by rewrite Hpl3].
    intros q Hq. by rewrite Hpl3, Hs2, Hpl.
Qed.

(** *** clear *)

Definition first (l : list loc) : loc := match l with [] => LNull | p :: _ => p end.

Lemma peer_chain_next m a L1 p L2 n : chain m a (L1 ++ p :: L2) LNull -> m !! p = Some n -> node_next n = first L2.
Proof.
  intros Hc En. unfold chain in Hc. apply dchain_app in Hc as (_ & _ & Hr). destruct L2 as [|q L2]; simpl in Hr.
  - apply nextof_Some in Hr as (n' & E & Hx). rewrite En in E. injection E as ->. exact Hx.
  - destruct Hr as [Hr _]. apply nextof_Some in Hr as (n' & E & Hx). rewrite En in E. injection E as ->. exact Hx.
Qed.

Definition held s (p : loc) : bool :=
  match peer_of s p with Some pr => negb (ref_cnt pr =? 0) | None => false end.

Lemma filter_agree (f g : loc -> bool) (l : list loc) : (forall q, q ∈ l -> f q = g q) -> filter (fun q => f q) l = filter (fun q => g q) l.
Proof.
  induction l as [|q l IH]; intros Hfg; [done|]. rewrite !filter_cons, (Hfg q), IH by (by left || (intros; apply Hfg; by right)). done.
Qed.

Lemma clear_loop act rest : forall s kept fuel, mgr_ok s act (kept ++ rest) -> (length rest < fuel)%nat ->
  wpm (loopM fuel clear_step (first rest)) s (fun _ s' => fld s' = fld s /\
    mgr_ok s' act (kept ++ filter (fun p => held s p) rest) /\ forall q, q ∉ rest \/ held s q -> peer_of s' q = peer_of s q).
Proof.
  induction rest as [|p rest IH]; intros s kept fuel Hok Hf; (destruct fuel as [|fuel]; [simpl in Hf; lia|]); apply wpm_loop_step.
  - rewrite app_nil_r in Hok. apply wpm_ret. simpl. by rewrite app_nil_r.
  - unfold clear_step. simpl first. assert (is_null p = false) as ->.
    { apply bool_decide_false. intros ->. apply (ok_null _ _ _ _ Hok). set_solver. }
    assert (is_Some (mem s !! p)) as [n En] by (apply (ok_dom _ _ _ _ Hok); set_solver).
    apply wpm_bind, (wpm_load _ n); [done|]. cbv zeta. rewrite (peer_chain_next _ _ _ _ _ n (ok_recycle _ _ _ _ Hok) En).
    apply wpm_bind. rewrite filter_cons. assert (held s p = negb (ref_cnt (peer n) =? 0)) as Hh by (unfold held, peer_of; by rewrite En).
    rewrite Hh. destruct (ref_cnt (peer n) =? 0); simpl negb; cbv iota.
    + eapply wpm_mono; [eapply free_recycle_wp; exact Hok|]. intros _ s1 (Ef & K1 & Hnone & Hsame). apply wpm_ret.
      assert (forall q, q <> p -> held s1 q = held s q) as Hheld by (intros q Hq; unfold held; by rewrite Hsame).
      assert (p ∉ rest) as Hpr.
      { pose proof (ok_nodup _ _ _ _ Hok) as Hnd. simpl in Hnd. apply list.NoDup_cons in Hnd as [_ Hnd]. apply list.NoDup_cons in Hnd as [_ Hnd].
        apply list.NoDup_app in Hnd as (_ & _ & Hnd). apply list.NoDup_app in Hnd as (_ & _ & Hnd). by apply list.NoDup_cons in Hnd as [? _]. }
      eapply wpm_mono; [apply (IH s1 kept fuel K1); simpl in Hf; lia|]. intros _ s2 (Ef2 & K2 & Hpl2). split; [congruence|].
      split; [|intros q Hq].
      * rewrite (filter_agree _ (held s)) in K2; [done|]. intros q Hq. apply Hheld. by intros ->.
      * assert (q <> p) as Hqp by (intros ->; destruct Hq as [Hq|Hq]; [apply Hq; left|by rewrite Hh in Hq]).
        rewrite Hpl2, Hsame; [done|done|]. destruct Hq as [Hq|Hq]; [left; set_solver|right; by rewrite Hheld].
    + apply wpm_ret, wpm_ret. replace (kept ++ p :: rest) with ((kept ++ [p]) ++ rest) in Hok by (by rewrite <- (assoc_L (++))).
      eapply wpm_mono; [apply (IH s (kept ++ [p]) fuel Hok); simpl in Hf; lia|]. intros _ s2 (Ef2 & K2 & Hpl2). split; [done|].
      rewrite <- (assoc_L (++)) in K2. split; [done|]. intros q Hq. apply Hpl2. set_solver.
Qed.

Lemma nodes_count s act rec : mgr_ok s act rec -> (length rec < S (size (mem s)) /\ length act < S (size (mem s)))%nat.
Proof.
  intros []. assert (list_to_set (active_head :: recycle_head :: act ++ rec) ⊆ dom (mem s)) as Hsub.
  { intros x. rewrite elem_of_list_to_set, elem_of_dom, ok_dom0. done. }
  apply subseteq_size in Hsub. rewrite size_list_to_set in Hsub by done. rewrite size_dom in Hsub. simpl in Hsub.
  rewrite length_app in Hsub. lia.
Qed.

Lemma clear_wp s act rec : mgr_ok s act rec ->
  wpm muggle_socket_event_memmgr_clear s (fun _ s' => fld s' = fld s /\
    mgr_ok s' act (filter (fun p => held s p) rec) /\ forall q, q ∉ rec \/ held s q -> peer_of s' q = peer_of s q).
Proof.
  intros Hok. unfold muggle_socket_event_memmgr_clear.
  assert (exists h, mem s !! recycle_head = Some h /\ node_next h = first rec) as (h & Eh & Hn).
  { pose proof (ok_recycle _ _ _ _ Hok) as Hc. destruct rec as [|q rec]; [|destruct Hc as [Hc _]]; by apply nextof_Some in Hc. }
  apply wpm_bind, (wpm_load _ h); [done|]. apply wpm_bind, wpm_count. rewrite Hn.
  apply (clear_loop act rec s []); [done|]. by destruct (nodes_count s act rec Hok).
Qed.

(** *** destroy *)

(** What the closing of the peers in a list tells. *)
Definition closes s (p : loc) : list event :=
  match peer_of s p with
  | Some pr => if (release pr).2 then close_events p pr else []
  | None => []
  end.

Lemma closes_agree s s' p : peer_of s' p = peer_of s p -> closes s' p = closes s p.
Proof. unfold closes. by intros ->. Qed.

Lemma node_cell s act rec p : mgr_ok s act rec -> p ∈ act ++ rec -> is_null p = false /\ is_Some (mem s !! p).
Proof.
  intros Hok Hp. split; [|apply (ok_dom _ _ _ _ Hok); set_solver].
  apply bool_decide_false. intros ->. by apply (ok_null _ _ _ _ Hok).
Qed.

Lemma destroy_active_loop act : forall s rec fuel, mgr_ok s act rec -> (length act < fuel)%nat ->
  wpm (loopM fuel destroy_active_step (first act)) s (fun _ s' =>
    fld s' = fld s ++ concat (closes s <$> act) /\ exists rec', mgr_ok s' [] rec' /\ rec' ⊆ act ++ rec).
Proof.
  induction act as [|p act IH]; intros s rec fuel Hok Hf; (destruct fuel as [|fuel]; [simpl in Hf; lia|]); apply wpm_loop_step.
  - apply wpm_ret. simpl. rewrite app_nil_r. split; [done|]. by exists rec.
  - unfold destroy_active_step. simpl first. destruct (node_cell s (p :: act) rec p Hok) as [-> [n En]]; [left|].
    apply wpm_bind, (wpm_load _ n); [done|]. cbv zeta. rewrite (peer_chain_next _ _ [] p act n (ok_active _ _ _ _ Hok) En). apply wpm_bind.
    eapply wpm_mono; [eapply (recycle_wp s [] p act rec (peer n)); [done|unfold peer_of; by rewrite En]|].
    intros _ s1 (Ef & Hsame & Hcase). apply wpm_ret.
    assert (exists rec1, mgr_ok s1 act rec1 /\ rec1 ⊆ p :: rec) as (rec1 & K1 & Hsub1).
    { destruct ((release (peer n)).1.1 =? 0); destruct Hcase; [exists rec|exists (p :: rec)]; (split; [done|]); [set_solver|done]. }
    eapply wpm_mono; [apply (IH s1 rec1 fuel K1); simpl in Hf; lia|]. intros _ s2 (Ef2 & rec2 & K2 & Hsub2).
    split; [|exists rec2; split; [done|]; intros x Hx; apply Hsub2 in Hx; set_solver].
    rewrite Ef2, Ef, <- (assoc_L (++)). f_equal. simpl. unfold closes at 2, peer_of. rewrite En. simpl. f_equal. f_equal.
    apply list_fmap_ext. intros i q Hq. apply closes_agree, Hsame. intros ->. apply list_elem_of_lookup_2 in Hq.
    pose proof (ok_nodup _ _ _ _ Hok) as Hnd. simpl in Hnd. apply list.NoDup_cons in Hnd as [_ Hnd]. apply list.NoDup_cons in Hnd as [_ Hnd].
    apply list.NoDup_cons in Hnd as [Hp _]. set_solver.
Qed.

(** A change of the peer of a recycled node. *)
Lemma recycled_modify s rec1 p rec2 f Q : mgr_ok s [] (rec1 ++ p :: rec2) ->
  (forall s', mgr_ok s' [] (rec1 ++ p :: rec2) -> fld s' = fld s -> peer_of s' p = f <$> peer_of s p -> Q tt s') ->
  wpm (modify p (fun n => set_peer (f (peer n)) n)) s Q.
Proof.
  intros Hok HQ. destruct (node_cell s [] (rec1 ++ p :: rec2) p Hok) as [_ [n En]]; [set_solver|]. eapply wpm_modify; [exact En|].
  apply HQ; [|done|unfold peer_of; simpl; by rewrite lookup_insert_eq, En]. destruct Hok. split; simpl; try done.
  - by eapply chain_payload.
  - by eapply chain_payload.
  - intros x. rewrite lookup_insert_is_Some, ok_dom0. split; [intros [<-|[_ Hx]]; [set_solver|exact Hx]|].
    intros Hx. destruct (decide (p = x)); [by left|by right].
Qed.

(** Waiting ends when the count comes to 0. *)
Lemma await_wp counts : forall s rec1 p rec2, mgr_ok s [] (rec1 ++ p :: rec2) -> 0 ∈ counts ->
  wpm (await p counts) s (fun _ s' => fld s' = fld s /\ mgr_ok s' [] (rec1 ++ p :: rec2)).
Proof.
  induction counts as [|c counts IH]; intros s rec1 p rec2 Hok Hz; [by apply not_elem_of_nil in Hz|]. cbn [await].
  destruct (node_cell s [] (rec1 ++ p :: rec2) p Hok) as [_ [n En]]; [set_solver|].
  apply wpm_bind, (wpm_load _ n); [done|]. destruct (_ =? 0); [by apply wpm_ret|].
  apply wpm_bind. eapply (recycled_modify s rec1 p rec2 (set_ref_cnt c)); [done|]. intros s1 K1 Ef1 Hp1.
  apply elem_of_cons in Hz as [<-|Hz]; [|eapply wpm_mono; [by apply IH|]; intros _ s2 [-> ?]; done].
  unfold peer_of at 2 in Hp1. rewrite En in Hp1. apply peer_of_lookup in Hp1 as (n1 & En1 & Hn1).
  destruct counts; cbn [await]; (apply wpm_bind, (wpm_load _ n1); [done|]); rewrite Hn1; by apply wpm_ret.
Qed.

(** A peer that is never released is waited for without end. *)
Lemma await_forever counts : forall s p, held s p = true -> 0 ∉ counts -> await p counts s = NoFuel.
Proof.
  induction counts as [|c counts IH]; intros s p Hh Hz; cbn [await]; unfold held, peer_of, mbind, M_bind, load in *;
    (destruct (mem s !! p) as [n|] eqn:En; [|done]); simpl in Hh; (destruct (_ =? 0); [done|]); [done|].
  unfold modify. rewrite En. apply not_elem_of_cons in Hz as [Hc Hz]. apply IH; [|done]. simpl. rewrite lookup_insert_eq. simpl.
  by apply negb_true_iff, Z.eqb_neq, not_eq_sym.
Qed.

Lemma destroy_recycle_loop releases rec : forall s fuel, mgr_ok s [] rec -> (length rec < fuel)%nat -> (forall p, p ∈ rec -> 0 ∈ releases p) ->
  wpm (loopM fuel (destroy_recycle_step releases) (first rec)) s (fun _ s' => fld s' = fld s /\ mgr_ok s' [] []).
Proof.
  induction rec as [|p rec IH]; intros s fuel Hok Hf Hr; (destruct fuel as [|fuel]; [simpl in Hf; lia|]); apply wpm_loop_step; [by apply wpm_ret|].
  unfold destroy_recycle_step. simpl first. destruct (node_cell s [] (p :: rec) p Hok) as [-> [n En]]; [left|].
  apply wpm_bind, (wpm_load _ n); [done|]. cbv zeta. rewrite (peer_chain_next _ _ [] p rec n (ok_recycle _ _ _ _ Hok) En). apply wpm_bind.
  eapply wpm_mono; [eapply (await_wp _ s [] p rec Hok), Hr; left|]. intros _ s1 (Ef1 & K1).
  apply wpm_bind. eapply wpm_mono; [by eapply (free_recycle_wp s1 [] [] p rec)|]. intros _ s2 (Ef & K2 & _). apply wpm_ret.
  eapply wpm_mono; [apply (IH s2 fuel K2); [simpl in Hf; lia|intros q Hq; apply Hr; by right]|]. intros _ s3 (Ef3 & K3). split; [congruence|done].
Qed.

(** Both lists are empty and no node is left. *)
Definition emptied s : Prop :=
  chain (mem s) active_head [] LNull /\ chain (mem s) recycle_head [] LNull /\ dom (mem s) = {[active_head; recycle_head]}.

Lemma peer_chain_first m a l : chain m a l LNull -> exists h, m !! a = Some h /\ node_next h = first l.
Proof. intros Hc. destruct l as [|q l]; [|destruct Hc as [Hc _]]; by apply nextof_Some in Hc. Qed.

Lemma memmgr_destroy_emptied releases s act rec : mgr_ok s act rec -> (forall p, p ∈ act ++ rec -> 0 ∈ releases p) ->
  wpm (muggle_socket_event_memmgr_destroy releases) s (fun _ s' => fld s' = fld s ++ concat (closes s <$> act) /\ emptied s').
Proof.
  intros Hok Hrel. unfold muggle_socket_event_memmgr_destroy.
  destruct (peer_chain_first _ _ _ (ok_active _ _ _ _ Hok)) as (h & Eh & Hn). apply wpm_bind, (wpm_load _ h); [done|]. apply wpm_bind, wpm_count. rewrite Hn.
  apply wpm_bind. eapply wpm_mono; [eapply (destroy_active_loop act s rec); [done|by destruct (nodes_count s act rec Hok)]|].
  intros _ s1 (Ef & rec1 & K1 & Hsub). destruct (peer_chain_first _ _ _ (ok_recycle _ _ _ _ K1)) as (h1 & Eh1 & Hn1).
  apply wpm_bind, (wpm_load _ h1); [done|]. apply wpm_bind, wpm_count. rewrite Hn1.
  apply wpm_bind. eapply wpm_mono; [eapply (destroy_recycle_loop releases rec1 s1); [done|by destruct (nodes_count s1 [] rec1 K1)|intros p Hp; by apply Hrel, Hsub]|].
  intros _ s2 (Ef2 & K2). unfold wpm, destroy_pool. simpl. split; [congruence|]. split_and!; [apply K2|apply K2|]. apply set_eq. intros x.
  rewrite elem_of_dom, (ok_dom _ _ _ _ K2). set_solver.
Qed.

(** A second call finds nothing to do. *)
Lemma emptied_destroy releases s : emptied s -> wpm (muggle_socket_event_memmgr_destroy releases) s (fun _ s' => fld s' = fld s /\ emptied s').
Proof.
  intros He. pose proof He as (Ha & Hr & Hd). unfold muggle_socket_event_memmgr_destroy.
  destruct (peer_chain_first _ _ _ Ha) as (h & Eh & Hn). apply wpm_bind, (wpm_load _ h); [done|]. apply wpm_bind, wpm_count. rewrite Hn.
  apply wpm_bind, wpm_loop_step, wpm_ret. destruct (peer_chain_first _ _ _ Hr) as (h1 & Eh1 & Hn1).
  apply wpm_bind, (wpm_load _ h1); [done|]. apply wpm_bind, wpm_count. rewrite Hn1. apply wpm_bind, wpm_loop_step, wpm_ret. done.
Qed.

End memmgr.

(** One active peer in a pool of blocks. *)
Definition tcp_peer : muggle_socket_peer := SocketPeer.muggle_socket_peer_init 5 SocketPeer.MUGGLE_SOCKET_PEER_TYPE_TCP_PEER.
Definition with_peer (pr : muggle_socket_peer) : @mgr (gset Z) :=
  mkst (<[active_head := mkn LNull (LPool 0 0) zero_peer]> (<[recycle_head := mkn LNull LNull zero_peer]>
          {[LPool 0 0 := mkn active_head LNull pr]}))
    (mka (Some MemoryPool.sample) ∅) [] [].
Definition one_peer : @mgr (gset Z) := with_peer tcp_peer.

Lemma with_peer_ok pr : nodes_ok (NodeMalloc0 := bounded_malloc 3) (with_peer pr) [] [LPool 0 0] [].
Proof.
  split; simpl.
  - by repeat split.
  - done.
  - repeat constructor; set_solver.
  - set_solver.
  - exists [MemoryPool.blk 0 0]. split; [apply MemoryPool.sample_owns|]. split; [done|]. repeat constructor. set_solver.
  - intros p. rewrite !lookup_insert_is_Some, lookup_singleton_is_Some, !elem_of_cons, elem_of_nil. split.
    + intros [<-|[_ [<-|[_ <-]]]]; tauto.
    + destruct (decide (active_head = p)), (decide (recycle_head = p)); intros [->|[->|[->|[]]]]; tauto.
Qed.

(** A peer whose event has on_close, and one that a thread holds as well. *)
Definition told_peer : muggle_socket_peer := SocketPeer.set_ev (Some true) tcp_peer.
Definition shared_peer : muggle_socket_peer := set_ref_cnt 2 tcp_peer.

(** destroy does not return while the other thread keeps its reference. *)
Example destroy_waits :
  muggle_socket_event_memmgr_destroy (NodeMalloc0 := bounded_malloc 3) (fun _ => [1; 1; 1]) (with_peer shared_peer) = NoFuel /\
  exists s, muggle_socket_event_memmgr_destroy (NodeMalloc0 := bounded_malloc 3) (fun _ => [1; 1; 0]) (with_peer shared_peer) = Done (tt, s) /\
    fld s = [].
Proof. split; [by vm_compute|]. eexists. split; [vm_compute; reflexivity|done]. Qed.

End SocketMemmgr.
