(* ===== verification/SocketEvent.v ===== *)
(** muggle/c/net/event/socket_event_utils.c: what the event loops share, the timer,
    the serving of a message, and accepting and refusing connections.  What accept
    and recv return are arguments, in the order of the calls: a loop that asks for
    more than there is has not ended.  The callbacks of the client are computations
    that may change the status and the count of any peer. *)

From stdpp Require Import base gmap sets list numbers.
From Stdlib Require Import ZArith Lia.
From S2P Require Import Prelude Dsaa MemoryPool NodeMem DList SocketPeer SocketMemmgr.
Import MemoryPool(block, muggle_memory_pool).
Import SocketPeer(muggle_socket_peer, mkpeer, ref_cnt, fd, status, peer_type, set_ref_cnt, set_fd, set_status,
  peer_ev, set_ev, interrupted, muggle_socket_peer_close, muggle_socket_peer_recv, MUGGLE_INVALID_SOCKET, MUGGLE_SYS_ERRNO_INTR, MUGGLE_SYS_ERRNO_WOULDBLOCK,
  MUGGLE_SOCKET_PEER_TYPE_TCP_LISTEN, MUGGLE_SOCKET_PEER_TYPE_TCP_PEER, MUGGLE_SOCKET_PEER_TYPE_UDP_PEER, MUGGLE_SOCKET_PEER_STATUS_ACTIVE, MUGGLE_SOCKET_PEER_STATUS_CLOSED).
Import SocketMemmgr.

Open Scope Z_scope.

Module SocketEvent.

(** [struct timespec]. *)
Record timespec := mkts { tv_sec : Z; tv_nsec : Z }.

(** The fields of the event that the loops read, the callbacks among them; a NULL
    callback is [None].  Of on_close it is kept whether it is there: recycle tells
    its call, which changes no peer. *)
Record muggle_socket_event (H : Type) := mkev {
  capacity : Z;
  timeout_ms : Z;
  on_connect : option (loc -> loc -> @MM H unit);
  on_error : option (loc -> @MM H unit);
  on_message : option (loc -> @MM H unit);
  on_timer : option (@MM H unit);
  on_close : bool
}.
#[global] Arguments mkev {H}.
#[global] Arguments capacity {H}.
#[global] Arguments timeout_ms {H}.
#[global] Arguments on_connect {H}.
#[global] Arguments on_error {H}.
#[global] Arguments on_message {H}.
#[global] Arguments on_timer {H}.
#[global] Arguments on_close {H}.

Section ops.
Context {H : Type}.
Notation MM := (@MM H).
Implicit Types (ev : muggle_socket_event H).

Definition log_event (e : event) : MM unit := set_fld (fun l => l ++ [e]).
Definition modify_peer (p : loc) (f : muggle_socket_peer -> muggle_socket_peer) : MM unit :=
  modify p (fun n => set_peer (f (peer n)) n).

(** [if (cb) { cb(...); }], the call being told as [e]. *)
Definition call (e : event) (cb : option (MM unit)) : MM unit :=
  match cb with Some c => log_event e;; c | None => mret tt end.

(** The loop that reads what is there when there is no callback. *)
Fixpoint drain (fuel : nat) (results : list (Z * Z)) (pr : muggle_socket_peer) : outcome muggle_socket_peer :=
  match fuel with
  | O => NoFuel
  | S fuel =>
      r ← muggle_socket_peer_recv results pr;
      let '(n, pr, results) := (r : Z * muggle_socket_peer * list (Z * Z)) in
      if n <=? 0 then mret pr else drain fuel results pr
  end.

(** [results] are what the calls of recv on the peer return, with the error of
    each. *)
Definition muggle_socket_event_on_message ev (p : loc) (results : list (Z * Z)) : MM unit :=
  match on_message ev with
  | Some cb => log_event (OnMessage p);; cb p
  | None =>
      n ← load p;
      pr ← lift (drain (S (length results)) results (peer n));
      modify_peer p (fun _ => pr)
  end.

(** [t2] is the time now; the result is what [t1] holds afterwards.  [None] is a
    variable that was not written: reading it is undefined. *)
Definition muggle_socket_event_timer_handle ev (t1 : option timespec) (t2 : timespec) : MM (option timespec) :=
  match t1 with
  | None => lift Undef
  | Some t =>
      let interval_ms := i32 ((tv_sec t2 - tv_sec t) * 1000 + Z.quot (tv_nsec t2 - tv_nsec t) 1000000) in
      if interval_ms >=? timeout_ms ev then
        call OnTimer (on_timer ev);;
        mret (Some t2)
      else mret t1
  end.

(** [results] are what the calls of accept return, with the error of each.  What is
    left of them is returned. *)
Fixpoint muggle_socket_event_accept (listen_peer node : loc) (results : list (Z * Z)) : MM (list (Z * Z)) :=
  match results with
  | [] => lift NoFuel
  | (f, errno) :: results =>
      modify_peer node (set_fd f);;
      if f =? MUGGLE_INVALID_SOCKET then
        if errno =? MUGGLE_SYS_ERRNO_INTR then muggle_socket_event_accept listen_peer node results
        else if errno =? MUGGLE_SYS_ERRNO_WOULDBLOCK then mret results
        else modify_peer listen_peer muggle_socket_peer_close;; mret results
      else
        modify_peer node (set_ref_cnt 1);;
        modify_peer node (fun pr => mkpeer (ref_cnt pr) (fd pr) MUGGLE_SOCKET_PEER_TYPE_TCP_PEER (status pr) (peer_ev pr));;
        modify_peer node (set_status MUGGLE_SOCKET_PEER_STATUS_ACTIVE);;
        mret results
  end.

(** Only a call that would block ends the loop: after another error the listener is
    closed and accept is called again. *)
Fixpoint muggle_socket_event_refuse_accept (listen_peer : loc) (results : list (Z * Z)) : MM (list (Z * Z)) :=
  match results with
  | [] => lift NoFuel
  | (f, errno) :: results =>
      if f =? MUGGLE_INVALID_SOCKET then
        if errno =? MUGGLE_SYS_ERRNO_INTR then muggle_socket_event_refuse_accept listen_peer results
        else if errno =? MUGGLE_SYS_ERRNO_WOULDBLOCK then mret results
        else
          modify_peer listen_peer muggle_socket_peer_close;;
          muggle_socket_event_refuse_accept listen_peer results
      else
        log_event (CloseFd f);;
        muggle_socket_event_refuse_accept listen_peer results
  end.

(** ** What the loops over select, poll and epoll have in common *)

(** What comes from outside in a round: the result of the call that waits and its
    error, the results of the calls of accept and recv on each peer, the time, and
    whether the loop is told to end. *)
Record input := mkin {
  ret_n : Z;
  errno : Z;
  accepts : loc -> list (Z * Z);
  recvs : loc -> list (Z * Z);
  now : timespec;
  to_exit : bool
}.

(** The end of a round with the variables [l]: [None] is the break. *)
Definition round_end `{!NodeMalloc H} {L} (leave : bool) (t1 : option timespec) (l : L) : MM (option (option timespec * L)) :=
  if leave then mret None
  else muggle_socket_event_memmgr_clear;; mret (Some (t1, l)).

(** A round, [serve] being the loop over what the call reported. *)
Definition loop_round `{!NodeMalloc H} {L} ev (r : input) (serve : MM L) (t1 : option timespec) (l : L)
  : MM (option (option timespec * L)) :=
  if ret_n r >? 0 then
    l ← serve;
    t1 ← (if timeout_ms ev >? 0 then muggle_socket_event_timer_handle ev t1 (now r) else mret t1);
    round_end (to_exit r) t1 l
  else if ret_n r =? 0 then
    t1 ← muggle_socket_event_timer_handle ev t1 (now r);
    round_end (to_exit r) t1 l
  else if errno r =? MUGGLE_SYS_ERRNO_INTR then mret (Some (t1, l))
  else round_end true t1 l.

(** [while (1)], with what comes from outside in each round. *)
Fixpoint run_rounds {R L} (round : R -> option timespec -> L -> MM (option (option timespec * L)))
    (rs : list R) (t1 : option timespec) (l : L) : MM unit :=
  match rs with
  | [] => lift NoFuel
  | r :: rs =>
      x ← round r t1 l;
      match (x : option (option timespec * L)) with
      | None => mret tt
      | Some (t1, l) => run_rounds round rs t1 l
      end
  end.
End ops.

(** ** Changes that leave the lists alone *)
Section updates.
Context {H : Type} `{!NodeMalloc H}.
Notation MM := (@MM H).
Implicit Types (s : @mgr H) (ev : muggle_socket_event H) (act rec X : list loc).

Definition links s (p : loc) : option (loc * loc) := (fun n => (node_prev n, node_next n)) <$> mem s !! p.
(** The socket of a peer and its type. *)
Definition sock s (p : loc) : option (Z * Z) := (fun n => (fd (peer n), peer_type (peer n))) <$> mem s !! p.

(** From [s] to [s'] the events [new] were told and peers changed, outside [X]
    only in the status and the count. *)
Record upd X (new : list event) s s' : Prop := {
  upd_ar : ar s' = ar s;
  upd_fld : fld s' = fld s ++ new;
  upd_links : forall q, links s' q = links s q;
  upd_sock : forall q, q ∉ X -> sock s' q = sock s q
}.

Lemma upd_refl X s : upd X [] s s.
Proof. split; try done. by rewrite app_nil_r. Qed.

Lemma upd_trans X new1 new2 s1 s2 s3 : upd X new1 s1 s2 -> upd X new2 s2 s3 -> upd X (new1 ++ new2) s1 s3.
Proof.
  intros [] []. split; [congruence| | |].
  - by rewrite upd_fld1, upd_fld0, (assoc_L (++)).
  - intros q. congruence.
  - intros q Hq. rewrite upd_sock1, upd_sock0; done.
Qed.

Lemma upd_mono X Y new s s' : X ⊆ Y -> upd X new s s' -> upd Y new s s'.
Proof. intros Hs []. split; try done. intros q Hq. apply upd_sock0. set_solver. Qed.

Lemma links_is_Some s s' p : links s' p = links s p -> is_Some (mem s' !! p) <-> is_Some (mem s !! p).
Proof. unfold links. destruct (mem s' !! p), (mem s !! p); simpl; try done. Qed.

Lemma upd_live X new s s' p : upd X new s s' -> is_Some (mem s !! p) -> is_Some (mem s' !! p).
Proof. intros []. by rewrite (links_is_Some s s'). Qed.

Lemma links_nextof s s' p : links s' p = links s p -> nextof (mem s') p = nextof (mem s) p /\ prevof (mem s') p = prevof (mem s) p.
Proof. unfold links, nextof, prevof. destruct (mem s' !! p), (mem s !! p); simpl; try done. by intros [= -> ->]. Qed.

Lemma links_chain s s' a L : (forall q, links s' q = links s q) -> chain (mem s) a L LNull -> chain (mem s') a L LNull.
Proof. intros Hl. apply dchain_frame; intros x _; by apply links_nextof. Qed.

Lemma upd_nodes X new s s' extra act rec : upd X new s s' -> nodes_ok s extra act rec -> nodes_ok s' extra act rec.
Proof.
  intros [Ha _ Hl _] []. split; try done.
  - by eapply links_chain.
  - by eapply links_chain.
  - by rewrite Ha.
  - intros p. by rewrite (links_is_Some s s').
Qed.

Lemma log_event_upd X e s s' new Q : upd X new s s' ->
  (forall s'', upd X (new ++ [e]) s s'' -> Q tt s'') -> wpm (log_event e) s' Q.
Proof.
  intros Hu HQ. apply wpm_set_fld, HQ. eapply upd_trans; [exact Hu|]. by split.
Qed.

Lemma modify_peer_upd X p f s s' new Q : upd X new s s' -> is_Some (mem s !! p) ->
  p ∈ X \/ (forall pr, fd (f pr) = fd pr /\ peer_type (f pr) = peer_type pr) ->
  (forall s'' pr, upd X new s s'' -> peer_of s' p = Some pr -> peer_of s'' p = Some (f pr) -> Q tt s'') -> wpm (modify_peer p f) s' Q.
Proof.
  intros Hu Hp Hf HQ. destruct (upd_live _ _ _ _ _ Hu Hp) as [n En]. eapply wpm_modify; [exact En|].
  apply (HQ _ (peer n)); [|unfold peer_of; by rewrite En|unfold peer_of; simpl; by rewrite lookup_insert_eq].
  rewrite <- (app_nil_r new). eapply upd_trans; [exact Hu|]. split; simpl; [done|by rewrite app_nil_r|..].
  - intros q. unfold links. simpl. destruct (decide (q = p)) as [->|]; [by rewrite lookup_insert_eq, En|by rewrite lookup_insert_ne].
  - intros q Hq. unfold sock. simpl. destruct (decide (q = p)) as [->|]; [|by rewrite lookup_insert_ne].
    destruct Hf as [|Hf]; [done|]. rewrite lookup_insert_eq, En. simpl. by destruct (Hf (peer n)) as [-> ->].
Qed.

(** ** Peers and their sockets *)
Lemma live_active s act rec p : nodes_ok s [] act rec -> p ∈ act -> is_Some (mem s !! p).
Proof. intros Hm Hp. eapply node_cell; [done|set_solver]. Qed.

Lemma sock_peer s p pr : peer_of s p = Some pr -> sock s p = Some (fd pr, peer_type pr).
Proof. unfold peer_of, sock. destruct (mem s !! p); simpl; [by intros [= <-]|done]. Qed.

Lemma same_peer_sock s s' q : peer_of s' q = peer_of s q -> sock s' q = sock s q.
Proof. unfold peer_of, sock. destruct (mem s' !! q), (mem s !! q); simpl; congruence. Qed.

Lemma same_peers_sock s s' p q : same_peers s s' p -> q <> p -> sock s' q = sock s q.
Proof. intros Hs Hq. by apply same_peer_sock, Hs. Qed.

Lemma active_NoDup s act1 p act2 rec : nodes_ok s [] (act1 ++ p :: act2) rec -> p ∉ act1 ++ act2.
Proof.
  intros []. simpl in *. apply list.NoDup_cons in ok_nodup0 as [_ Hnd]. apply list.NoDup_cons in Hnd as [_ Hnd].
  rewrite <- (assoc_L (++)) in Hnd. simpl in Hnd. rewrite <- Permutation_middle in Hnd. apply list.NoDup_cons in Hnd as [? _]. set_solver.
Qed.

Definition receives s (p : loc) : bool :=
  match sock s p with
  | Some (_, t) => (t =? MUGGLE_SOCKET_PEER_TYPE_TCP_PEER) || (t =? MUGGLE_SOCKET_PEER_TYPE_UDP_PEER)
  | None => false
  end.

Definition is_closed s (p : loc) : bool :=
  match peer_of s p with Some pr => status pr =? MUGGLE_SOCKET_PEER_STATUS_CLOSED | None => false end.

(** ** What the client may do *)

(** A callback may change the status and the count of any peer. *)
Definition calls_ok (c : MM unit) : Prop := forall s, wpm c s (fun _ s' => upd [] [] s s').
Definition peer_calls_ok (c : loc -> MM unit) : Prop :=
  forall s p, is_Some (mem s !! p) -> wpm (c p) s (fun _ s' => upd [] [] s s').

Record client_ok ev : Prop := {
  connect_ok : forall c, on_connect ev = Some c -> forall lp, peer_calls_ok (c lp);
  error_ok : forall c, on_error ev = Some c -> peer_calls_ok c;
  message_ok : forall c, on_message ev = Some c -> peer_calls_ok c;
  timer_ok : forall c, on_timer ev = Some c -> calls_ok c
}.

(** ** What the operating system answers *)

(** There is no connection to accept. *)
Definition would_block (x : Z * Z) : Prop := x.1 = MUGGLE_INVALID_SOCKET /\ x.2 = MUGGLE_SYS_ERRNO_WOULDBLOCK.
(** There is nothing to read: the end of the stream, or an error that is not an
    interruption. *)
Definition stops (x : Z * Z) : Prop := x.1 <= 0 /\ ~ interrupted x.

(** The calls of accept come to one that would block, and without on_message the
    calls of recv to one that reads nothing. *)
Record input_ok ev (i : input) : Prop := {
  accepts_end : forall p, Exists would_block (accepts i p);
  recvs_end : on_message ev = None -> forall p, Exists stops (recvs i p)
}.

(** The loop ends after the round. *)
Definition leaving (i : input) : Prop :=
  (0 <= ret_n i /\ to_exit i = true) \/ (ret_n i < 0 /\ errno i <> MUGGLE_SYS_ERRNO_INTR).

(** The callbacks that were made. *)
Definition messages (l : list event) : list loc := omap (fun e => match e with OnMessage p => Some p | _ => None end) l.
Definition errors (l : list event) : list loc := omap (fun e => match e with OnError p => Some p | _ => None end) l.

Lemma messages_app l1 l2 : messages (l1 ++ l2) = messages l1 ++ messages l2.
Proof. apply omap_app. Qed.
Lemma errors_app l1 l2 : errors (l1 ++ l2) = errors l1 ++ errors l2.
Proof. apply omap_app. Qed.

Definition told {A} (e : event) (cb : option A) : list event := if cb then [e] else [].

Lemma call_wp s e cb : (forall c, cb = Some c -> wpm (log_event e;; c) s (fun _ s' => upd [] [e] s s')) ->
  wpm (call e cb) s (fun _ s' => upd [] (told e cb) s s').
Proof. intros Hc. destruct cb as [c|]; simpl; [by apply Hc|]. apply wpm_ret, upd_refl. Qed.

Lemma call_peer_wp s e cb p : is_Some (mem s !! p) -> (forall c, cb = Some c -> peer_calls_ok c) ->
  wpm (call e ((fun c => c p) <$> cb)) s (fun _ s' => upd [] (told e cb) s s').
Proof.
  intros Hp Hc. destruct cb as [c|]; simpl; [|apply wpm_ret, upd_refl]. apply wpm_bind.
  eapply log_event_upd; [apply (upd_refl [])|]. intros s1 U1. eapply wpm_mono; [apply (Hc c eq_refl); by eapply upd_live|].
  intros ? s2 U2. change [e] with ([e] ++ []). by eapply upd_trans.
Qed.

Lemma connect_wp ev s lp p : client_ok ev -> is_Some (mem s !! p) ->
  wpm (call (OnConnect p) ((fun c => c lp p) <$> on_connect ev)) s (fun _ s' => upd [] (told (OnConnect p) (on_connect ev)) s s').
Proof.
  intros Hcl Hp. pose proof (connect_ok ev Hcl) as Hc. destruct (on_connect ev) as [c|]; [|apply wpm_ret, upd_refl].
  apply (call_peer_wp s (OnConnect p) (Some (c lp)) p Hp). intros c' [= <-]. by apply Hc.
Qed.

Lemma error_wp ev s p : client_ok ev -> is_Some (mem s !! p) ->
  wpm (call (OnError p) ((fun c => c p) <$> on_error ev)) s (fun _ s' => upd [] (told (OnError p) (on_error ev)) s s').
Proof. intros Hcl Hp. apply call_peer_wp; [done|]. apply (error_ok ev Hcl). Qed.

(** ** The shared operations *)

Lemma recv_step results : forall pr, Exists stops results -> exists n pr' rest,
  muggle_socket_peer_recv results pr = Done (n, pr', rest) /\ fd pr' = fd pr /\ peer_type pr' = peer_type pr /\
  (n <= 0 \/ Exists stops rest /\ (length rest < length results)%nat).
Proof.
  induction results as [|[m e] results IH]; intros pr He; [by apply Exists_nil in He|]. simpl.
  destruct (m >? 0) eqn:Em.
  - repeat eexists. right. split; [|lia]. apply Exists_cons in He as [[Hm _]|?]; [simpl in Hm; lia|done].
  - assert (m <= 0) by lia. destruct ((m <? 0) && (e =? MUGGLE_SYS_ERRNO_INTR)) eqn:Ei; [|destruct ((m <? 0) && (e =? MUGGLE_SYS_ERRNO_WOULDBLOCK)); repeat eexists; by left].
    apply andb_true_iff in Ei as [Hm Hi]. destruct (IH pr) as (n & pr' & rest & E & ? & ? & Hr).
    { apply Exists_cons in He as [[_ Hn]|?]; [|done]. destruct Hn. split; simpl; lia. }
    exists n, pr', rest. split_and!; [exact E|done|done|]. destruct Hr as [?|[? ?]]; [by left|right; split; [done|lia]].
Qed.

(** The reading ends, and changes at most the status. *)
Lemma drain_wp fuel : forall results pr, Exists stops results -> (length results < fuel)%nat ->
  wp (drain fuel results pr) (fun pr' => fd pr' = fd pr /\ peer_type pr' = peer_type pr).
Proof.
  induction fuel as [|fuel IH]; intros results pr He Hf; [lia|]. simpl.
  destruct (recv_step results pr He) as (n & pr' & rest & E & Ef & Et & Hr). apply wp_bind. rewrite E. apply wp_ret.
  destruct (Z.leb_spec n 0); [by apply wp_ret|]. destruct Hr as [?|[He' Hl]]; [lia|].
  eapply wp_mono; [apply IH; [done|lia]|]. intros pr'' [-> ->]. done.
Qed.

Lemma on_message_wp ev p results s : client_ok ev -> is_Some (mem s !! p) -> (on_message ev = None -> Exists stops results) ->
  wpm (muggle_socket_event_on_message ev p results) s (fun _ s' => upd [] (told (OnMessage p) (on_message ev)) s s').
Proof.
  intros Hc Hp He. unfold muggle_socket_event_on_message. destruct (on_message ev) as [c|] eqn:E.
  - apply (call_peer_wp s (OnMessage p) (Some c)); [done|]. intros c' [= <-]. by eapply message_ok.
  - destruct Hp as [n En]. apply wpm_bind, (wpm_load _ n); [done|]. apply wpm_bind, wpm_lift.
    eapply wp_mono; [apply drain_wp; [by apply He|lia]|]. intros pr [Ef Et].
    eapply wpm_modify; [exact En|]. split; simpl; [done|by rewrite app_nil_r|..].
    + intros q. unfold links. simpl. destruct (decide (q = p)) as [->|]; [by rewrite lookup_insert_eq, En|by rewrite lookup_insert_ne].
    + intros q _. unfold sock. simpl. destruct (decide (q = p)) as [->|]; [|by rewrite lookup_insert_ne].
      rewrite lookup_insert_eq, En. simpl. congruence.
Qed.

Lemma timer_handle_wp ev t1 t2 s : client_ok ev -> is_Some t1 ->
  wpm (muggle_socket_event_timer_handle ev t1 t2) s (fun t s' => is_Some t /\ exists new, upd [] new s s' /\ messages new = [] /\ errors new = []).
Proof.
  intros Hc [t ->]. unfold muggle_socket_event_timer_handle. destruct (_ >=? _).
  - apply wpm_bind. eapply wpm_mono; [apply call_wp|].
    + intros c Ec. apply wpm_bind. eapply log_event_upd; [apply (upd_refl [])|]. intros s1 U1.
      eapply wpm_mono; [by eapply (timer_ok ev)|]. intros ? s2 U2. change [OnTimer] with ([OnTimer] ++ []). by eapply upd_trans.
    + intros ? s' U. apply wpm_ret. split; [done|]. eexists. split; [exact U|]. by destruct (on_timer ev).
  - apply wpm_ret. split; [done|]. exists []. split; [apply upd_refl|done].
Qed.

(** accept leaves a connection in [node], one of the results, or an invalid
    socket. *)
Lemma accept_wp lp node results : forall s, is_Some (mem s !! lp) -> is_Some (mem s !! node) -> Exists would_block results ->
  wpm (muggle_socket_event_accept lp node results) s (fun res s' => upd [node] [] s s' /\ res `suffix_of` results /\
    exists n, mem s' !! node = Some n /\
      (fd (peer n) = MUGGLE_INVALID_SOCKET \/
       ((length res < length results)%nat /\ Exists would_block res /\ fd (peer n) ∈ results.*1))).
Proof.
  assert (forall s p pr, peer_of s p = Some pr -> exists n, mem s !! p = Some n /\ peer n = pr) as Hpeer by (intros; by apply peer_of_lookup).
  induction results as [|[f e] results IH]; intros s Hlp Hn Hw; [by apply Exists_nil in Hw|]. simpl.
  apply wpm_bind. eapply modify_peer_upd; [apply (upd_refl [node])|done|left; set_solver|]. intros s1 pr U1 _ Hp.
  assert (is_Some (mem s1 !! lp)) as Hlp1 by (by eapply upd_live). destruct (Hpeer _ _ _ Hp) as (n & En & Epr).
  destruct (Z.eqb_spec f MUGGLE_INVALID_SOCKET) as [->|Hf].
  - destruct (Z.eqb_spec e MUGGLE_SYS_ERRNO_INTR) as [->|Hi]; [|destruct (e =? MUGGLE_SYS_ERRNO_WOULDBLOCK)].
    + eapply wpm_mono; [apply IH; [by eapply upd_live..|apply Exists_cons in Hw as [[_ ?]|?]; done]|].
      intros res s2 (U2 & Hs2 & n2 & En2 & Hl). split; [by apply (upd_trans _ [] [] s s1)|].
      split; [by apply suffix_cons_r|]. exists n2. split; [done|]. destruct Hl as [|(Hl & Hw2 & Hin)]; [by left|]. right. split_and!; [lia|done|by right].
    + apply wpm_ret. split; [done|]. split; [by eexists [_]|]. exists n. split; [done|]. left. by rewrite Epr.
    + apply wpm_bind. eapply (modify_peer_upd [] lp _ s1 s1 []); [apply upd_refl|done|right; by intros []|]. intros s2 pr2 U2 _ _. apply wpm_ret.
      split; [apply (upd_trans _ [] [] s s1); [done|by eapply upd_mono; [apply list_subseteq_nil|]]|]. split; [by eexists [_]|].
      destruct (upd_live _ _ _ _ node U2) as [n2 En2]; [by exists n|]. exists n2. split; [done|]. left.
      pose proof (upd_sock _ _ _ _ U2 node (not_elem_of_nil _)) as Hs. unfold sock in Hs. rewrite En, En2 in Hs. injection Hs as -> _. by rewrite Epr.
  - do 3 (apply wpm_bind; eapply (modify_peer_upd [node] node); [eassumption|done|left; set_solver|]; clear U1; intros ? ? U1 ?E ?E').
    apply wpm_ret. split; [done|]. split; [by eexists [_]|]. destruct (Hpeer _ _ _ E'1) as (n' & En' & Epr'). exists n'. split; [done|]. right.
    split; [simpl; lia|]. split; [by apply Exists_cons in Hw as [[? _]|?]|].
    rewrite E'0 in E1. injection E1 as <-. rewrite E' in E0. injection E0 as <-. rewrite Hp in E. injection E as <-. rewrite Epr'. left.
Qed.

(** No message and no error is told. *)
Definition quiet (new : list event) : Prop := messages new = [] /\ errors new = [].

Lemma quiet_app l1 l2 : quiet l1 -> quiet l2 -> quiet (l1 ++ l2).
Proof. intros [A B] [C D]. split; [by rewrite messages_app, A, C|by rewrite errors_app, B, D]. Qed.

Lemma quiet_closes (b : bool) p pr : quiet (if b then close_events p pr else []).
Proof. unfold close_events. by destruct b, (SocketPeer.has_on_close pr). Qed.

Lemma refuse_accept_wp lp results : forall s, is_Some (mem s !! lp) -> Exists would_block results ->
  wpm (muggle_socket_event_refuse_accept lp results) s (fun _ s' => exists new, upd [] new s s' /\ quiet new).
Proof.
  induction results as [|[f e] results IH]; intros s Hlp Hw; [by apply Exists_nil in Hw|]. simpl.
  assert (forall s1 new, ~ would_block (f, e) -> upd [] new s s1 -> quiet new -> wpm (muggle_socket_event_refuse_accept lp results) s1
    (fun _ s' => exists new', upd [] new' s s' /\ quiet new')) as Hgo.
  { intros s1 new Hnb U Hq. eapply wpm_mono; [apply IH; [by eapply upd_live|apply Exists_cons in Hw as [?|?]; done]|].
    intros ? s2 (new2 & U2 & Hq2). exists (new ++ new2). split; [by eapply upd_trans|by apply quiet_app]. }
  destruct (Z.eqb_spec f MUGGLE_INVALID_SOCKET) as [->|Hf].
  - destruct (Z.eqb_spec e MUGGLE_SYS_ERRNO_INTR) as [->|Hi]; [by apply (Hgo s []); [intros [_ ?]|apply upd_refl|]|].
    destruct (Z.eqb_spec e MUGGLE_SYS_ERRNO_WOULDBLOCK) as [->|He]; [apply wpm_ret; exists []; by split; [apply upd_refl|]|].
    apply wpm_bind. eapply modify_peer_upd; [apply (upd_refl [])|done|right; by intros []|]. intros s1 pr U _ _. by apply (Hgo s1 []); [intros [_ ?]|..].
  - apply wpm_bind. eapply log_event_upd; [apply (upd_refl [])|]. intros s1 U. by apply (Hgo s1 [CloseFd f]); [intros [? _]|..].
Qed.

(** However often accept is called, refuse_accept does not return before a call
    that would block: with an error that will not go away it never does. *)
Lemma refuse_accept_forever lp results : forall s, is_Some (mem s !! lp) -> Forall (fun x => ~ would_block x) results ->
  muggle_socket_event_refuse_accept lp results s = NoFuel.
Proof.
  induction results as [|[f e] results IH]; intros s Hlp Hw; [done|]. apply list.Forall_cons in Hw as [Hx Hw]. simpl.
  destruct (Z.eqb_spec f MUGGLE_INVALID_SOCKET) as [->|Hf].
  - destruct (e =? MUGGLE_SYS_ERRNO_INTR); [by apply IH|]. destruct (Z.eqb_spec e MUGGLE_SYS_ERRNO_WOULDBLOCK) as [->|He]; [by destruct Hx|].
    destruct Hlp as [n En]. unfold modify_peer, modify, mbind, M_bind. rewrite En. apply IH; [|done]. simpl. rewrite lookup_insert_eq. by eexists.
  - by apply IH.
Qed.
End updates.

(** ** The pool of the peers does not grow *)
Section fixed.
Context {H : Type} `{!NodeMalloc H}.
Context `{Malloc (list Z)} `{Malloc block} `{Malloc Z}.
Context (raw : muggle_socket_peer_list_node).
Notation MM := (@MM H).
Implicit Types (s : @mgr H).

Definition fixed (a : @arena H) : Prop := exists p, pool a = Some p /\
  Z.land (MemoryPool.flag p) MemoryPool.MUGGLE_MEMORY_POOL_CONSTANT_SIZE <> 0 /\
  MemoryPool.block_size p * (2 * (MemoryPool.capacity p + 1)) < 2 ^ 32.

Lemma fixed_room a out : fixed a -> arena_owns a out -> arena_room a.
Proof.
  intros (p & E & _ & Hs). unfold arena_owns, arena_room, arena_rooms. rewrite E. intros (bs & [[] _] & _). nia.
Qed.

(** A computation that leaves the pool fixed. *)
Definition keeps {A} (m : MM A) : Prop := forall s a s', m s = Done (a, s') -> fixed (ar s) -> fixed (ar s').

Lemma keeps_wp {A} (m : MM A) s Q : keeps m -> fixed (ar s) -> wpm m s Q -> wpm m s (fun a s' => fixed (ar s') /\ Q a s').
Proof. intros Hk Hf (a & s' & E & HQ)%wpm_Done. apply wpm_Done. exists a, s'. split; [done|]. split; [by eapply Hk|done]. Qed.

Lemma keeps_bind {A B} (m : MM A) (f : A -> MM B) : keeps m -> (forall a, keeps (f a)) -> keeps (m ≫= f).
Proof.
  intros Hm Hf s b s'. unfold mbind, M_bind. destruct (m s) as [[a s1]| |] eqn:E; [|done..]. intros E2 Hs. eapply Hf; [exact E2|]. by eapply Hm.
Qed.
Lemma keeps_ret {A} (a : A) : keeps (mret a).
Proof. by intros s ? ? [= <- <-]. Qed.
Lemma keeps_load p : keeps (load p).
Proof. intros s ? ?. unfold load. destruct (mem s !! p); [|done]. by intros [= <- <-]. Qed.
Lemma keeps_modify p f : keeps (modify p f).
Proof. intros s ? ?. unfold modify. destruct (mem s !! p); [|done]. by intros [= <- <-]. Qed.
Lemma keeps_set_fld f : keeps (set_fld f).
Proof. by intros s ? ? [= <- <-]. Qed.
Lemma keeps_count : keeps count.
Proof. by intros s ? ? [= <- <-]. Qed.

Lemma keeps_lift {A} (o : outcome A) : keeps (lift o).
Proof. intros s ? ?. unfold lift. destruct o; [|done..]. by intros [= <- <-]. Qed.

Lemma keeps_dealloc p : keeps (dealloc p).
Proof.
  intros s a s'. unfold dealloc. destruct (mem s !! p); [|done]. unfold free_node. destruct (pool (ar s)) as [q|] eqn:E.
  - destruct p as [| |k o|]; try done. unfold MemoryPool.muggle_memory_pool_free. destruct (aset _ _ _); [|done..].
    intros [= <- <-] (q' & E' & Hfl & Hs). rewrite E in E'. injection E' as <-. by eexists.
  - intros _ (q & E' & _). by rewrite E in E'.
Qed.

Lemma keeps_alloc : keeps (alloc raw).
Proof.
  intros s a s'. unfold alloc, new_node. destruct (pool (ar s)) as [q|] eqn:E.
  - unfold MemoryPool.muggle_memory_pool_alloc, MemoryPool.muggle_memory_pool_ensure_space. intros Hrun (q' & E' & Hfl & Hs).
    rewrite E in E'. injection E' as <-. apply Z.eqb_neq in Hfl. rewrite Hfl in Hrun. simpl in Hrun.
    destruct (_ =? MemoryPool.capacity q); [destruct (_ <=? MemoryPool.capacity q)|]; simpl in Hrun;
      try (destruct (aget _ _); [|done..]); injection Hrun as <- <-; eexists; (split; [reflexivity|]); by apply Z.eqb_neq in Hfl.
  - intros _ (q & E' & _). by rewrite E in E'.
Qed.

Lemma keeps_loop {S R} (body : S -> MM (S + R)) fuel : (forall x, keeps (body x)) -> forall x, keeps (loopM fuel body x).
Proof.
  intros Hb. induction fuel as [|fuel IH]; intros x s r s'; simpl; [done|].
  destruct (body x s) as [[[x'|v] s1]| |] eqn:E; [..|done|done].
  - intros E2 Hs. eapply IH; [exact E2|]. by eapply Hb.
  - intros [= <- <-] Hs. by eapply Hb.
Qed.

Ltac keeps_tac := repeat first
  [ match goal with |- forall _, _ => intros ? end | apply keeps_bind | apply keeps_ret | apply keeps_load | apply keeps_modify | apply keeps_set_fld
  | apply keeps_count | apply keeps_dealloc | apply keeps_alloc | apply keeps_loop | case_match ].

Lemma keeps_insert_node h p : keeps (muggle_socket_event_memmgr_insert_node h p).
Proof. unfold muggle_socket_event_memmgr_insert_node. keeps_tac. Qed.
Lemma keeps_remove_node p : keeps (muggle_socket_event_memmgr_remove_node p).
Proof. unfold muggle_socket_event_memmgr_remove_node. keeps_tac. Qed.
Lemma keeps_allocate : keeps (muggle_socket_event_memmgr_allocate raw).
Proof. unfold muggle_socket_event_memmgr_allocate. keeps_tac; apply keeps_insert_node. Qed.
Lemma keeps_free p : keeps (muggle_socket_event_memmgr_free p).
Proof. apply keeps_bind; [apply keeps_remove_node|intros _; apply keeps_dealloc]. Qed.
Lemma keeps_recycle p : keeps (muggle_socket_event_memmgr_recycle p).
Proof.
  apply keeps_bind; [apply keeps_load|intros n]. apply keeps_bind; [apply keeps_lift|intros _].
  apply keeps_bind; [apply keeps_remove_node|intros _]. keeps_tac; apply keeps_insert_node.
Qed.
Lemma keeps_clear : keeps muggle_socket_event_memmgr_clear.
Proof. unfold muggle_socket_event_memmgr_clear, clear_step. keeps_tac; apply keeps_free. Qed.

(** ** The steps of the loops, with the lists and the pool *)
Notation mgr_ok s act rec := (nodes_ok s [] act rec).
Implicit Types (act rec : list loc).

Lemma allocate_loop s act rec : mgr_ok s act rec -> fixed (ar s) ->
  wpm (muggle_socket_event_memmgr_allocate raw) s (fun p s' => fixed (ar s') /\ fld s' = fld s /\ (forall q, q ∈ act -> sock s' q = sock s q) /\
    if is_null p then mgr_ok s' act rec else mgr_ok s' (p :: act) rec).
Proof.
  intros Hm Hf. eapply wpm_mono; [apply keeps_wp; [apply keeps_allocate|done|eapply allocate_wp; [done|by eapply fixed_room; [|apply Hm]]]|].
  intros p s1 (Hf1 & Ef1 & [(-> & _ & Hm1 & Em)|(Hp0 & Hm1 & Hnone & Hpz & Hsame)]).
  - split_and!; [done|done| |done]. intros q _. unfold sock. by rewrite Em.
  - assert (is_null p = false) as -> by (by apply bool_decide_false). split_and!; [done|done| |done]. intros q Hq.
    apply (same_peers_sock _ _ p); [done|]. intros ->. by apply (active_NoDup s1 [] p act rec Hm1).
Qed.

Lemma accept_loop lp p results s act rec : mgr_ok s (p :: act) rec -> fixed (ar s) -> lp ∈ act -> Exists would_block results ->
  wpm (muggle_socket_event_accept lp p results) s (fun res s' => mgr_ok s' (p :: act) rec /\ fixed (ar s') /\ fld s' = fld s /\
    (forall q, q ∈ act -> sock s' q = sock s q) /\ res `suffix_of` results /\ exists n, mem s' !! p = Some n /\
      (fd (peer n) = MUGGLE_INVALID_SOCKET \/
       ((length res < length results)%nat /\ Exists would_block res /\ fd (peer n) ∈ results.*1))).
Proof.
  intros Hm Hf Hlp Hw. eapply wpm_mono; [apply accept_wp; [by eapply live_active; [done|set_solver]..|done]|]. intros res s' (U & Hs & Hn).
  split_and!; [by eapply upd_nodes|by rewrite (upd_ar _ _ _ _ U)|by rewrite (upd_fld _ _ _ _ U), app_nil_r| |done|done].
  intros q Hq. apply (upd_sock _ _ _ _ U). rewrite list_elem_of_singleton. intros ->. by apply (active_NoDup s [] p act rec Hm).
Qed.

Lemma free_loop p s act rec : mgr_ok s (p :: act) rec -> fixed (ar s) ->
  wpm (muggle_socket_event_memmgr_free p) s (fun _ s' => mgr_ok s' act rec /\ fixed (ar s') /\ fld s' = fld s /\
    forall q, q ∈ act -> sock s' q = sock s q).
Proof.
  intros Hm Hf. eapply wpm_mono; [apply keeps_wp; [apply keeps_free|done|apply (free_active_wp s [] p act); exact Hm]|].
  intros _ s' (Hf' & Ef & Hm' & _ & Hsame). split_and!; [done|done|done|]. intros q Hq.
  apply (same_peers_sock _ _ p); [done|]. intros ->. by apply (active_NoDup s [] p act rec Hm).
Qed.

Lemma recycle_loop p s act1 act2 rec : mgr_ok s (act1 ++ p :: act2) rec -> fixed (ar s) ->
  wpm (muggle_socket_event_memmgr_recycle p) s (fun _ s' => (exists rec', mgr_ok s' (act1 ++ act2) rec') /\ fixed (ar s') /\
    (exists new, fld s' = fld s ++ new /\ quiet new) /\ forall q, q ∈ act1 ++ act2 -> sock s' q = sock s q).
Proof.
  intros Hm Hf. destruct (live_active _ _ _ p Hm) as [n En]; [set_solver|].
  eapply wpm_mono; [apply keeps_wp; [apply keeps_recycle|done|eapply (recycle_wp s act1 p act2 rec (peer n)); [done|unfold peer_of; by rewrite En]]|].
  intros _ s' (Hf' & Ef & Hsame & Hcase). split_and!; [|done|eexists; split; [exact Ef|apply quiet_closes]|].
  - destruct (_ =? 0); destruct Hcase; eauto.
  - intros q Hq. apply (same_peers_sock _ _ p); [done|]. intros ->. by apply (active_NoDup _ _ _ _ _ Hm).
Qed.

(** ** Starting with the peers that were given *)

(** What init makes of a peer. *)
Definition started (pr : muggle_socket_peer) : muggle_socket_peer :=
  mkpeer 1 (fd pr) (peer_type pr) MUGGLE_SOCKET_PEER_STATUS_ACTIVE (peer_ev pr).

Lemma init_peer_wp s act rec pr : nodes_ok s [] act rec -> fixed (ar s) ->
  wpm (init_peer raw pr) s (fun p s' => fixed (ar s') /\ fld s' = fld s /\
    (p = LNull \/ p <> LNull /\ nodes_ok s' [] (p :: act) rec /\ peer_of s' p = Some (started pr) /\ same_peers s s' p)).
Proof.
  intros Hok Hf. apply keeps_wp; [unfold init_peer; keeps_tac; apply keeps_insert_node|done|].
  unfold init_peer. apply wpm_bind. eapply (alloc_loose raw s act rec); [done|by eapply fixed_room; [|apply Hok]|..].
  - intros p s1 K1 Em Hnone Ef. assert (p <> LNull) as Hp0 by (intros ->; apply (ok_null _ _ _ _ K1); left).
    assert (is_null p = false) as -> by (by apply bool_decide_false).
    apply wpm_bind. eapply (loose_modify s1); [exact K1|]. intros n1 s2 En1 K2 _ Ef2 Em2.
    apply wpm_bind. eapply (loose_modify s2); [exact K2|]. intros n2 s3 En2 K3 _ Ef3 Em3.
    apply wpm_bind. eapply (loose_modify s3); [exact K3|]. intros n3 s4 En3 K4 _ Ef4 Em4.
    apply wpm_bind. eapply (insert_active_wp s4); [exact K4|]. intros s5 K5 Hpl Ef5. apply wpm_ret.
    split; [congruence|]. right. split; [done|]. split; [done|]. rewrite Em2, lookup_insert_eq in En2. injection En2 as <-.
    rewrite Em3, lookup_insert_eq in En3. injection En3 as <-. split.
    + rewrite Hpl. unfold peer_of. rewrite Em4, lookup_insert_eq. by destruct pr.
    + intros q Hq. rewrite Hpl. unfold peer_of. by rewrite Em4, lookup_insert_ne, Em3, lookup_insert_ne, Em2, lookup_insert_ne, Em, lookup_insert_ne by done.
  - intros s' Hok' Em Ef _. simpl. apply wpm_ret. split; [done|by left].
Qed.

Lemma init_peers_wp ps : forall s act, nodes_ok s [] act [] -> fixed (ar s) ->
  wpm (init_peers raw ps) s (fun r s' => forall nodes, r = Some nodes ->
    nodes_ok s' [] (reverse nodes ++ act) [] /\ fixed (ar s') /\ fld s' = fld s /\
    Forall2 (fun pr p => peer_of s' p = Some (started pr)) ps nodes /\ forall q, q ∈ act -> peer_of s' q = peer_of s q).
Proof.
  induction ps as [|pr ps IH]; intros s act Hok Hf; simpl; [apply wpm_ret; intros nodes [= <-]; done|].
  apply wpm_bind. eapply wpm_mono; [by apply init_peer_wp|]. intros p s1 (Hf1 & Ef1 & [->|(Hp0 & Hok1 & Hp & Hs)]); [simpl; apply wpm_bind; done|].
  assert (is_null p = false) as -> by (by apply bool_decide_false). apply wpm_bind. eapply wpm_mono; [by apply (IH s1 (p :: act))|].
  intros r s2 Hr. apply wpm_ret. intros nodes E. destruct r as [ns|]; [|done]. injection E as <-. destruct (Hr ns eq_refl) as (Hok2 & Hf2 & Ef2 & HF & Hs2).
  split_and!; [by rewrite reverse_cons, <- (assoc_L (++))|done|congruence| |].
  - constructor; [|done]. rewrite Hs2 by left. done.
  - intros q Hq. rewrite Hs2 by (by right). apply Hs. intros ->. destruct Hok1. simpl in ok_nodup0.
    apply list.NoDup_cons in ok_nodup0 as [_ Hnd]. apply list.NoDup_cons in Hnd as [_ Hnd]. apply list.NoDup_cons in Hnd as [Hn _]. set_solver.
Qed.

Lemma memmgr_init_ok cap ps h s nodes : 0 < cap -> sizeof_node * (2 * (cap + 1)) < 2 ^ 32 ->
  muggle_socket_event_memmgr_init raw cap ps h = Done (0, Some (s, Some nodes)) ->
  nodes_ok s [] (reverse nodes) [] /\ fixed (ar s) /\ fld s = [] /\ Forall2 (fun pr p => peer_of s p = Some (started pr)) ps nodes.
Proof.
  intros Hc Hs. unfold muggle_socket_event_memmgr_init, sizeof_node in *. rewrite wrap_small by lia.
  destruct (MemoryPool.muggle_memory_pool_init cap 184) as [[p|]| |] eqn:E; [|done..]. simpl.
  destruct (MemoryPool.memory_pool_init_owns cap 184 p) as (Ho & Hcap & Hbs); [lia|lia|lia|done|].
  set (s0 := mkst _ _ _ _). assert (nodes_ok s0 [] [] []) as Hok0.
  { split; simpl.
    - done.
    - done.
    - repeat constructor; set_solver.
    - set_solver.
    - exists []. split; [|split; [done|constructor]]. destruct Ho as [[] Hp]. by split.
    - intros x. unfold active_head, recycle_head. rewrite lookup_insert_is_Some, lookup_singleton_is_Some. set_solver. }
  assert (fixed (ar s0)) as Hf0.
  { eexists. split; [reflexivity|]. split; [done|]. simpl. rewrite Hcap, Hbs. lia. }
  pose proof (init_peers_wp ps s0 [] Hok0 Hf0) as Hw. apply wpm_Done in Hw as (r & s1 & E1 & Hr). rewrite E1. simpl.
  destruct r as [ns|]; [|done]. intros [= -> ->]. destruct (Hr _ eq_refl) as (A & B & C & D & _). by rewrite app_nil_r in A.
Qed.
End fixed.

(** ** Rounds that keep an invariant

    [Inv] ties the variables of a loop to the active peers; it depends on the
    peers only through their sockets. *)
Section rounds.
Context {H : Type} `{!NodeMalloc H}.
Context (ev : muggle_socket_event H) (client : client_ok ev).
Context {L : Type} (Inv : L -> @mgr H -> list loc -> Prop).
Context (Inv_sock : forall l s s' act, (forall q, q ∈ act -> sock s' q = sock s q) -> Inv l s act -> Inv l s' act).
Implicit Types (s : @mgr H) (l : L) (act rec : list loc).
Notation mgr_ok s act rec := (nodes_ok s [] act rec).

Definition loop_ok l s act rec : Prop := mgr_ok s act rec /\ fixed (ar s) /\ Inv l s act.

Lemma loop_ok_upd new l s s' act rec : upd [] new s s' -> loop_ok l s act rec -> loop_ok l s' act rec.
Proof.
  intros Hu (Hm & Hf & Ha). split_and!; [by eapply upd_nodes|by rewrite (upd_ar _ _ _ _ Hu)|].
  eapply Inv_sock; [|done]. intros q _. apply (upd_sock _ _ _ _ Hu), not_elem_of_nil.
Qed.

(** What a loop goes on with. *)
Definition resumes (x : option (option timespec * L)) s : Prop :=
  exists act rec, mgr_ok s act rec /\ fixed (ar s) /\
  match x with
  | None => True
  | Some (t1, l) => Inv l s act /\ (0 < timeout_ms ev -> is_Some t1)
  end.

Lemma round_end_wp leave t1 l s act rec : loop_ok l s act rec -> (0 < timeout_ms ev -> is_Some t1) ->
  wpm (round_end leave t1 l) s (fun x s' => (resumes x s' /\ (leave = true -> x = None)) /\ fld s' = fld s).
Proof.
  intros (Hm & Hf & Ha) Ht. unfold round_end. destruct leave; [apply wpm_ret; split; [split; [by exists act, rec|done]|done]|].
  apply wpm_bind. eapply wpm_mono; [apply keeps_wp; [apply keeps_clear|done|by apply clear_wp]|]. intros _ s' (Hf' & Ef & Hm' & Hs). apply wpm_ret.
  split; [|done]. split; [|done]. exists act. eexists. split_and!; [exact Hm'|done| |done]. eapply Inv_sock; [|done]. intros q Hq.
  apply same_peer_sock, Hs. left. intros Hr. destruct Hm. simpl in ok_nodup0. apply list.NoDup_cons in ok_nodup0 as [_ Hnd]. apply list.NoDup_cons in Hnd as [_ Hnd].
  apply list.NoDup_app in Hnd as (_ & Hdis & _). by apply (Hdis q).
Qed.

Lemma timed_end_wp (b : bool) r t1 l s act rec : loop_ok l s act rec -> (0 < timeout_ms ev -> is_Some t1) -> (b = true -> is_Some t1) ->
  wpm (t ← (if b then muggle_socket_event_timer_handle ev t1 (now r) else mret t1); round_end (to_exit r) t l) s
    (fun x s' => (resumes x s' /\ (to_exit r = true -> x = None)) /\ exists new, fld s' = fld s ++ new /\ quiet new).
Proof.
  intros Hok Ht Hb. apply wpm_bind. eapply wpm_mono with (P := fun t s' => (0 < timeout_ms ev -> is_Some t) /\ exists new, upd [] new s s' /\ quiet new).
  - destruct b; [|apply wpm_ret; split; [done|]; exists []; by split; [apply upd_refl|]].
    eapply wpm_mono; [apply timer_handle_wp; [done|by apply Hb]|]. intros t s' (Hs & new & U & Hq). split; [done|]. by exists new.
  - intros t s' (Ht' & new & U & Hq). eapply wpm_mono; [eapply round_end_wp; [by eapply loop_ok_upd|done]|].
    intros x s2 (Hr & Ef). split; [done|]. exists new. split; [|done]. by rewrite Ef, (upd_fld _ _ _ _ U).
Qed.

(** What is left to show of a loop is its serving, with the callbacks [tells]. *)
Lemma loop_round_wp r serve t1 l s act rec (tells : list event -> Prop) :
  loop_ok l s act rec -> (0 < timeout_ms ev -> is_Some t1) -> (ret_n r = 0 -> 0 < timeout_ms ev) ->
  (0 < ret_n r -> wpm serve s (fun l' s' => (exists act' rec', loop_ok l' s' act' rec') /\ exists new, fld s' = fld s ++ new /\ tells new)) ->
  wpm (loop_round ev r serve t1 l) s (fun x s' => (resumes x s' /\ (leaving r -> x = None)) /\ exists new new', fld s' = fld s ++ new ++ new' /\ quiet new' /\
    (0 < ret_n r -> tells new)).
Proof.
  intros Hok Ht Hn Hserve. unfold loop_round. destruct (Z.gtb_spec (ret_n r) 0) as [En|En].
  - apply wpm_bind. eapply wpm_mono; [by apply Hserve|]. intros l2 s2 ((act2 & rec2 & Hok2) & new2 & Ef2 & Ht2).
    eapply wpm_mono; [eapply timed_end_wp; [exact Hok2|done|rewrite Z.gtb_lt; done]|]. intros x s3 ([Hr Hx] & new3 & Ef3 & Hq).
    split; [split; [done|intros [[_ He]|[? _]]; [by apply Hx|lia]]|].
    exists new2, new3. split; [by rewrite Ef3, Ef2, (assoc_L (++))|done].
  - destruct (Z.eqb_spec (ret_n r) 0) as [E0|E0].
    + eapply wpm_mono; [apply (timed_end_wp true r t1 l s act rec); [done|done|intros _; by apply Ht, Hn]|].
      intros x s' ([Hr Hx] & new & Ef & Hq). split; [split; [done|intros [[_ He]|[? _]]; [by apply Hx|lia]]|]. exists [], new. split_and!; [done|done|lia].
    + assert (fld s = fld s ++ [] ++ []) as E by (by rewrite !app_nil_r). destruct (Z.eqb_spec (errno r) MUGGLE_SYS_ERRNO_INTR).
      * apply wpm_ret. split; [|exists [], []; split_and!; [done|done|lia]]. destruct Hok as (? & ? & ?).
        split; [by exists act, rec|intros [[? _]|[_ ?]]; [lia|done]].
      * eapply wpm_mono; [by eapply round_end_wp|]. intros x s' ([Hr Hx] & Ef). split; [split; [done|intros _; by apply Hx]|]. exists [], []. split_and!; [congruence|done|lia].
Qed.

(** Rounds that can be resumed can be run one after the other, up to one that
    [ends] the loop. *)
Lemma run_rounds_wp {R} (round : R -> option timespec -> L -> @MM H (option (option timespec * L))) (ok ends : R -> Prop) rs :
  (forall r t1 l s act rec, ok r -> loop_ok l s act rec -> (0 < timeout_ms ev -> is_Some t1) ->
    wpm (round r t1 l) s (fun x s' => resumes x s' /\ (ends r -> x = None))) ->
  Forall ok rs -> Exists ends rs -> forall t1 l s act rec, loop_ok l s act rec -> (0 < timeout_ms ev -> is_Some t1) ->
  wpm (run_rounds round rs t1 l) s (fun _ s' => exists act' rec', mgr_ok s' act' rec').
Proof.
  intros Hround. induction 1 as [|r rs Hr _ IH]; intros He t1 l s act rec Hok Ht; [by apply Exists_nil in He|]. simpl.
  apply wpm_bind. eapply wpm_mono; [by apply (Hround r t1 l s act rec)|].
  intros [[t2 l2]|] s2 ((act2 & rec2 & Hm2 & Hf2 & Hx) & Hend); [|apply wpm_ret; by exists act2, rec2].
  destruct Hx as [Ha2 Ht2]. apply (IH ltac:(apply Exists_cons in He as [He|?]; [by apply Hend in He|done]) t2 l2 s2 act2 rec2); [done|done].
Qed.

(** The lists are there, or destroyed. *)
Definition returned s : Prop := (exists act rec, mgr_ok s act rec) \/ emptied s.

Lemma returned_destroy releases s : returned s -> (forall p, 0 ∈ releases p) ->
  wpm (muggle_socket_event_memmgr_destroy releases) s (fun _ s' => emptied s').
Proof.
  intros [(act & rec & Hm)|He] Hrel; [eapply wpm_mono; [by eapply memmgr_destroy_emptied|]|eapply wpm_mono; [by apply emptied_destroy|]]; by intros _ s' [_ ?].
Qed.
End rounds.

(** A listener and two streams. *)
Definition sample_ev : muggle_socket_event (gset Z) :=
  mkev 4 1000 (Some (fun _ _ => mret tt)) (Some (fun _ => mret tt)) (Some (fun _ => mret tt)) None true.
Definition sample_peers : list muggle_socket_peer :=
  [SocketPeer.muggle_socket_peer_init 3 MUGGLE_SOCKET_PEER_TYPE_TCP_LISTEN;
   SocketPeer.muggle_socket_peer_init 5 MUGGLE_SOCKET_PEER_TYPE_TCP_PEER;
   SocketPeer.muggle_socket_peer_init 6 MUGGLE_SOCKET_PEER_TYPE_TCP_PEER].
Definition sample_init : outcome (Z * option (@mgr (gset Z) * option (list loc))) :=
  @muggle_socket_event_memmgr_init _ (bounded_malloc 0) (malloc_zeroed []) (malloc_zeroed (MemoryPool.blk 0 0)) (malloc_zeroed 0) zero_node 4 sample_peers ∅.
Definition sample_mgr : @mgr (gset Z) :=
  match sample_init with Done (_, Some (s, _)) => s | _ => mkst ∅ (mka None ∅) [] [] end.
Definition sample_nodes : list loc := [LPool 0 368; LPool 0 184; LPool 0 0].

Lemma sample_client : client_ok sample_ev.
Proof. split; try done; intros c [= <-]; repeat intros ?; apply wpm_ret, upd_refl. Qed.

Lemma sample_init_nodes : sample_init = Done (0, Some (sample_mgr, Some (reverse sample_nodes))).
Proof. vm_compute. reflexivity. Qed.
End SocketEvent.
