(* ===== verification/SocketEventPoll.v ===== *)
(** muggle/c/net/event/socket_event_poll.c: the event loop over poll.  The arrays
    it hands to poll and the list of active peers are the same peers, with the
    same sockets, while callbacks change the status and the counts of the peers;
    a round serves each ready peer once. *)

From stdpp Require Import base gmap sets list numbers.
From Stdlib Require Import ZArith Lia.
From S2P Require Import Prelude Dsaa MemoryPool NodeMem DList SocketPeer SocketMemmgr SocketEvent.
Import MemoryPool(block, muggle_memory_pool).
Import SocketPeer(muggle_socket_peer, mkpeer, ref_cnt, fd, status, peer_type, set_ev, muggle_socket_peer_close,
  MUGGLE_INVALID_SOCKET, MUGGLE_SYS_ERRNO_INTR, MUGGLE_SYS_ERRNO_WOULDBLOCK, MUGGLE_SOCKET_PEER_TYPE_TCP_LISTEN, MUGGLE_SOCKET_PEER_TYPE_TCP_PEER,
  MUGGLE_SOCKET_PEER_TYPE_UDP_PEER, MUGGLE_SOCKET_PEER_STATUS_CLOSED).
Import SocketMemmgr SocketEvent.

Open Scope Z_scope.

Module SocketEventPoll.

(** [struct pollfd]; the events asked for are POLLIN in every entry in use. *)
Record pollfd := mkpfd { pfd : Z; revents : Z }.

Definition POLLIN : Z := 1.
Definition POLLERR : Z := 8.
Definition POLLHUP : Z := 16.

(** The arrays and the counter of the loop. *)
Record locals := mkl {
  fds : list pollfd;
  p_nodes : list loc;
  cnt_fd : Z
}.

(** What comes from outside in a round, with the events of the entries. *)
Record round := mkr {
  inp : input;
  poll_revents : nat -> Z
}.

Section ops.
Context {H : Type} `{!NodeMalloc H}.
Context `{Malloc (list Z)} `{Malloc block} `{Malloc Z} `{Malloc pollfd} `{Malloc loc}.
Context (raw : muggle_socket_peer_list_node).
Context (ev : muggle_socket_event H).

Notation MM := (@MM H).

(** [fuel] bounds the rounds: each but the last takes a connection, one of
    [results], which are what accept returns on this listener. *)
Fixpoint muggle_socket_event_poll_listen (fuel : nat) (listen_peer : loc) (results : list (Z * Z)) (l : locals)
  : MM (list (Z * Z) * locals) :=
  match fuel with
  | O => fun _ => NoFuel
  | S fuel =>
      if cnt_fd l =? capacity ev then
        results ← muggle_socket_event_refuse_accept listen_peer results; mret (results, l)
      else
        node ← muggle_socket_event_memmgr_allocate raw;
        if is_null node then
          results ← muggle_socket_event_refuse_accept listen_peer results; mret (results, l)
        else
          results ← muggle_socket_event_accept listen_peer node results;
          n ← load node;
          if fd (peer n) =? MUGGLE_INVALID_SOCKET then
            muggle_socket_event_memmgr_free node;; mret (results, l)
          else
            nodes ← lift (aset (p_nodes l) (cnt_fd l) node);
            fs ← lift (aset (fds l) (cnt_fd l) (mkpfd (fd (peer n)) 0));
            let l := mkl fs nodes (cnt_fd l + 1) in
            modify_peer node (set_ev (Some (on_close ev)));;
            call (OnConnect node) ((fun c => c listen_peer node) <$> on_connect ev);;
            muggle_socket_event_poll_listen fuel listen_peer results l
  end.

(** The first part of the body of the loop over the entries: the events of entry
    [i].  [n] is the variable of that name. *)
Definition poll_entry (r : round) (i n : Z) (l : locals) : MM (Z * locals) :=
  p ← lift (aget (p_nodes l) i);
  f ← lift (aget (fds l) i);
  if negb (Z.land (revents f) POLLIN =? 0) then
    nd ← load p;
    let t := peer_type (peer nd) in
    if t =? MUGGLE_SOCKET_PEER_TYPE_TCP_LISTEN then
      let results := accepts (inp r) p in
      x ← muggle_socket_event_poll_listen (S (length results)) p results l;
      mret (n - 1, (x : list (Z * Z) * locals).2)
    else if (t =? MUGGLE_SOCKET_PEER_TYPE_TCP_PEER) || (t =? MUGGLE_SOCKET_PEER_TYPE_UDP_PEER) then
      muggle_socket_event_on_message ev p (recvs (inp r) p);;
      mret (n - 1, l)
    else mret (n - 1, l)
  else if negb (Z.land (revents f) (Z.lor POLLHUP POLLERR) =? 0) then
    modify_peer p muggle_socket_peer_close;;
    mret (n - 1, l)
  else mret (n, l).

(** The last entry takes the place of entry [i]. *)
Definition poll_swap (i : Z) (l : locals) : MM (list loc * list pollfd) :=
  if negb (i =? cnt_fd l - 1) then
    p_tmp ← lift (aget (p_nodes l) i);
    last ← lift (aget (p_nodes l) (cnt_fd l - 1));
    nodes ← lift (aset (p_nodes l) i last);
    nodes ← lift (aset nodes (cnt_fd l - 1) p_tmp);
    f ← lift (aget (fds l) (cnt_fd l - 1));
    fs ← lift (aset (fds l) i f);
    mret (nodes, fs)
  else mret (p_nodes l, fds l).

(** The second part: a closed peer leaves the arrays and the active list. *)
Definition poll_closed (i : Z) (l : locals) : MM locals :=
  p ← lift (aget (p_nodes l) i);
  nd ← load p;
  if status (peer nd) =? MUGGLE_SOCKET_PEER_STATUS_CLOSED then
    call (OnError p) ((fun c => c p) <$> on_error ev);;
    x ← poll_swap i l;
    let (nodes, fs) := (x : list loc * list pollfd) in
    victim ← lift (aget nodes (cnt_fd l - 1));
    muggle_socket_event_memmgr_recycle victim;;
    nodes ← lift (aset nodes (cnt_fd l - 1) LNull);
    mret (mkl fs nodes (cnt_fd l - 1))
  else mret l.

(** [for (int i = cnt_fd - 1; i >= 0; --i)], from the entry below [i] on. *)
Fixpoint poll_entries (r : round) (i : nat) (n : Z) (l : locals) : MM locals :=
  match i with
  | O => mret l
  | S i =>
      x ← poll_entry r (Z.of_nat i) n l;
      let '(n, l) := (x : Z * locals) in
      l ← poll_closed (Z.of_nat i) l;
      if n <=? 0 then mret l else poll_entries r i n l
  end.

(** What poll writes. *)
Definition set_revents (cnt : Z) (revs : nat -> Z) (fs : list pollfd) : list pollfd :=
  imap (fun i f => if Z.of_nat i <? cnt then mkpfd (pfd f) (revs i) else f) fs.

Definition poll_round (r : round) (t1 : option timespec) (l : locals) : MM (option (option timespec * locals)) :=
  let l := mkl (set_revents (cnt_fd l) (poll_revents r) (fds l)) (p_nodes l) (cnt_fd l) in
  loop_round ev (inp r) (poll_entries r (Z.to_nat (cnt_fd l)) (ret_n (inp r)) l) t1 l.

(** The loop that fills the arrays with the active peers. *)
Fixpoint fill_locals (fuel : nat) (node : loc) (l : locals) : MM locals :=
  match fuel with
  | O => fun _ => NoFuel
  | S fuel =>
      if is_null node then mret l
      else
        n ← load node;
        nodes ← lift (aset (p_nodes l) (cnt_fd l) node);
        f ← lift (aget (fds l) (cnt_fd l));
        fs ← lift (aset (fds l) (cnt_fd l) (mkpfd (fd (peer n)) (revents f)));
        fill_locals fuel (node_next n) (mkl fs nodes (cnt_fd l + 1))
  end.

(** [start] is the time at the start, [releases] are the counts that destroy sees.
    The arrays are set to zero. *)
Definition muggle_socket_event_poll (releases : loc -> list Z) (start : timespec) (rs : list round) : MM unit :=
  match (malloc_array 8 (capacity ev) : option (list pollfd)), (malloc_array 8 (capacity ev) : option (list loc)) with
  | Some _, Some _ =>
      let zero := mkl (replicate (Z.to_nat (capacity ev)) (mkpfd 0 0)) (replicate (Z.to_nat (capacity ev)) LNull) 0 in
      node ← muggle_socket_event_memmgr_get_node;
      c ← count;
      l ← fill_locals (S c) node zero;
      run_rounds poll_round rs (if timeout_ms ev >? 0 then Some start else None) l
  | _, _ => muggle_socket_event_memmgr_destroy releases
  end.
End ops.

(** The last entry in the place of entry [i]. *)
Lemma take_swap_last {A} (l : list A) i k x y : (i < k)%nat -> l !! i = Some x -> l !! k = Some y ->
  x :: take k (<[i := y]> l) ≡ₚ take (S k) l.
Proof.
  intros Hik Hx Hy. rewrite (take_S_r l k y Hy), take_insert_lt by done.
  assert (take k l !! i = Some x) as Ht by (by rewrite lookup_take_lt).
  rewrite <- (take_drop_middle _ _ _ Ht) at 2. pose proof (lookup_lt_Some _ _ _ Ht). rewrite insert_take_drop by done. solve_Permutation.
Qed.

Section proofs.
Context {H : Type} `{!NodeMalloc H}.
Context `{Malloc (list Z)} `{Malloc block} `{Malloc Z} `{Malloc pollfd} `{Malloc loc}.
Context (raw : muggle_socket_peer_list_node).
Context (ev : muggle_socket_event H).
Implicit Types (s : @mgr H) (l : locals) (act rec : list loc).
Notation mgr_ok s act rec := (nodes_ok s [] act rec).

(** ** The arrays and the list of active peers *)
Record arrays_ok l s act : Prop := {
  ao_cnt : 0 <= cnt_fd l <= capacity ev;
  ao_fds : zlen (fds l) = capacity ev;
  ao_nodes : zlen (p_nodes l) = capacity ev;
  ao_perm : take (Z.to_nat (cnt_fd l)) (p_nodes l) ≡ₚ act;
  ao_sock : forall i p, 0 <= i < cnt_fd l -> p_nodes l @@ i = Some p ->
    exists f t, fds l @@ i = Some f /\ sock s p = Some (pfd f, t)
}.

Lemma entry_active l s act i p : arrays_ok l s act -> 0 <= i < cnt_fd l -> p_nodes l @@ i = Some p -> p ∈ act.
Proof.
  intros [] Hi Hp. rewrite <- ao_perm0. rewrite zlookup_nonneg in Hp by lia. apply list_elem_of_lookup. exists (Z.to_nat i).
  rewrite lookup_take_lt by lia. done.
Qed.

Lemma arrays_sock l s s' act : (forall q, q ∈ act -> sock s' q = sock s q) -> arrays_ok l s act -> arrays_ok l s' act.
Proof.
  intros Hs Hao. pose proof Hao as []. split; try done. intros i p Hi Hp. rewrite Hs by (by eapply entry_active). by eapply ao_sock0.
Qed.

Lemma arrays_push l s act p f t v : arrays_ok l s act -> cnt_fd l < capacity ev -> sock s p = Some (f, t) ->
  arrays_ok (mkl (zinsert (cnt_fd l) (mkpfd f v) (fds l)) (zinsert (cnt_fd l) p (p_nodes l)) (cnt_fd l + 1)) s (p :: act).
Proof.
  intros [] Hc Hs. split; simpl; rewrite ?zlen_zinsert; [lia|done|done|..].
  - unfold zinsert. replace (Z.to_nat (cnt_fd l + 1)) with (S (Z.to_nat (cnt_fd l))) by lia.
    rewrite (take_S_r _ _ p) by (apply list_lookup_insert_eq; unfold zlen in *; lia). rewrite take_insert_ge, ao_perm0 by lia. solve_Permutation.
  - intros i q Hi Hq. destruct (decide (i = cnt_fd l)) as [->|].
    + rewrite zlookup_zinsert_eq in Hq by lia. injection Hq as <-. rewrite zlookup_zinsert_eq by lia. by eexists _, t.
    + rewrite zlookup_zinsert_ne in Hq by lia. rewrite zlookup_zinsert_ne by lia. apply ao_sock0; [lia|done].
Qed.

(** Entries below [i] are as they were. *)
Definition below (i : Z) l s l' s' : Prop :=
  i <= cnt_fd l' /\ forall j, 0 <= j < i -> p_nodes l' @@ j = p_nodes l @@ j /\ fds l' @@ j = fds l @@ j /\
    forall p, p_nodes l @@ j = Some p -> sock s' p = sock s p.

Lemma below_trans i j l1 s1 l2 s2 l3 s3 : i <= j -> below j l1 s1 l2 s2 -> below i l2 s2 l3 s3 -> below i l1 s1 l3 s3.
Proof.
  intros Hij [_ B1] [Hc B2]. split; [done|]. intros k Hk. destruct (B1 k) as (En & Ef & Hs); [lia|]. destruct (B2 k) as (En' & Ef' & Hs'); [lia|].
  split_and!; [congruence|congruence|]. intros p Hp. rewrite Hs', Hs; [done|done|congruence].
Qed.

Lemma below_sock i l s s' act : arrays_ok l s act -> 0 <= i <= cnt_fd l -> (forall q, q ∈ act -> sock s' q = sock s q) -> below i l s l s'.
Proof. intros Hao Hi Hs. split; [lia|]. intros j Hj. split_and!; [done|done|]. intros p Hp. eapply Hs, entry_active; [done| |done]. lia. Qed.

Notation poll_ok := (loop_ok arrays_ok).

(** ** Accepting *)

(** What a part of a round leaves behind: the arrays and lists in step, the
    entries below [i] as they were, and the events [new]. *)
Definition leaves (i : Z) l s l' s' rec (new : list event) : Prop :=
  (exists act', poll_ok l' s' act' rec) /\ fld s' = fld s ++ new /\ below i l s l' s'.

Lemma leaves_upd i new l s s' act rec : upd [] new s s' -> poll_ok l s act rec -> 0 <= i <= cnt_fd l -> leaves i l s l s' rec new.
Proof.
  intros Hu Hok Hi. split_and!; [exists act; eapply loop_ok_upd; [exact arrays_sock|done|done]|apply (upd_fld _ _ _ _ Hu)|].
  eapply below_sock; [apply Hok|done|]. intros q _. eapply upd_sock; [done|set_solver].
Qed.

Hypothesis client : client_ok ev.

Lemma refuse_leaves lp results l s act rec : poll_ok l s act rec -> lp ∈ act -> Exists would_block results ->
  wpm (results' ← muggle_socket_event_refuse_accept lp results; mret (results', l)) s
    (fun x s' => exists new, leaves (cnt_fd l) l s x.2 s' rec new /\ quiet new).
Proof.
  intros Hok Hlp Hw. apply wpm_bind. eapply wpm_mono; [apply refuse_accept_wp; [by eapply live_active; [apply Hok|]|done]|].
  intros res s' (new & Hu & Hq). apply wpm_ret. exists new. split; [|done]. eapply leaves_upd; [done|done|]. pose proof (ao_cnt _ _ _ (proj2 (proj2 Hok))). simpl. lia.
Qed.

(** A node that was allocated, with the connection in it, joins the arrays. *)
Lemma connected l s s1 act rec p n : poll_ok l s act rec -> cnt_fd l < capacity ev ->
  mgr_ok s1 (p :: act) rec -> fixed (ar s1) -> (forall q, q ∈ act -> sock s1 q = sock s q) -> mem s1 !! p = Some n ->
  let l1 := mkl (zinsert (cnt_fd l) (mkpfd (fd (peer n)) 0) (fds l)) (zinsert (cnt_fd l) p (p_nodes l)) (cnt_fd l + 1) in
  poll_ok l1 s1 (p :: act) rec /\ below (cnt_fd l) l s l1 s1.
Proof.
  intros (Hm & _ & Ha) Hc Hm1 Hf1 Hs Hp. pose proof Ha as []. split; [split_and!; [done|done|]|].
  - eapply arrays_push; [by eapply arrays_sock|done|unfold sock; by rewrite Hp].
  - split; [simpl; lia|]. intros j Hj. simpl. rewrite !zlookup_zinsert_ne by lia. split_and!; [done|done|].
    intros q Hq. eapply Hs, entry_active; done.
Qed.

Lemma listen_leaves lp rec fuel : forall results l s act, poll_ok l s act rec -> lp ∈ act ->
  Exists would_block results -> (length results < fuel)%nat ->
  wpm (muggle_socket_event_poll_listen raw ev fuel lp results l) s
    (fun x s' => exists new, leaves (cnt_fd l) l s x.2 s' rec new /\ quiet new).
Proof.
  induction fuel as [|fuel IH]; intros results l s act Hok Hlp Hw Hf; [lia|]. simpl. pose proof Hok as (Hm & Hfix & Ha). pose proof Ha as [].
  destruct (Z.eqb_spec (cnt_fd l) (capacity ev)) as [Ec|Ec]; [by eapply refuse_leaves|].
  apply wpm_bind. eapply wpm_mono; [by apply (allocate_loop raw s act rec)|]. intros p s1 (Hf1 & Ef1 & Hs1 & Hm1). destruct (is_null p).
  - assert (poll_ok l s1 act rec) as Hok1 by (split_and!; [done|done|by eapply arrays_sock]).
    eapply wpm_mono; [by eapply refuse_leaves|]. intros x s2 (new & (Hok2 & Ef & Hb) & Hq). exists new. split; [|done].
    split_and!; [done|congruence|]. eapply below_trans; [reflexivity|eapply (below_sock _ l s s1); [done|lia|done]|done].
  - apply wpm_bind. eapply wpm_mono; [by apply (accept_loop lp p results s1 act rec)|]. intros res s2 (Hm2 & Hf2 & Ef2 & Hs2 & _ & n & En & Hres).
    assert (forall q, q ∈ act -> sock s2 q = sock s q) as Hs by (intros q Hq; rewrite Hs2, Hs1; done).
    apply wpm_bind, (wpm_load _ n); [done|]. destruct (Z.eqb_spec (fd (peer n)) MUGGLE_INVALID_SOCKET) as [|Hfd].
    + apply wpm_bind. eapply wpm_mono; [by apply (free_loop p s2 act rec)|]. intros _ s3 (Hm3 & Hf3 & Ef3 & Hs3). apply wpm_ret. exists []. split; [|done].
      assert (forall q, q ∈ act -> sock s3 q = sock s q) as Hs' by (intros q Hq; rewrite Hs3, Hs; done).
      split_and!; [exists act; split_and!; [done|done|by eapply arrays_sock]|rewrite app_nil_r; congruence|eapply below_sock; [done|simpl; lia|done]].
    + destruct Hres as [?|(Hres & Hw' & _)]; [done|]. apply wpm_bind, wpm_lift, wp_aset; [lia|]. apply wpm_bind, wpm_lift, wp_aset; [lia|]. cbv zeta.
      destruct (connected l s s2 act rec p n) as [Hok2 Hb2]; [done|lia|done|done|done|done|].
      apply wpm_bind. eapply (modify_peer_upd [] p _ s2 s2 []); [apply upd_refl|by exists n|right; by intros []|]. intros s2' _ Uev _ _.
      apply wpm_bind. eapply wpm_mono; [apply connect_wp; [done|by eapply upd_live; [exact Uev|exists n]]|]. intros ? s3 Uc.
      pose proof (upd_trans _ _ _ _ _ _ Uev Uc : upd [] (told _ _) s2 s3) as U3. pose proof (loop_ok_upd _ arrays_sock _ _ _ _ _ _ U3 Hok2) as Hok3.
      eapply wpm_mono; [apply (IH res _ s3 (p :: act)); [done|by right|done|lia]|]. intros x s4 (new & (Hok4 & Ef4 & Hb4) & Hq).
      exists (told (OnConnect p) (on_connect ev) ++ new). split; [|apply quiet_app; [by destruct (on_connect ev)|done]].
      split_and!; [done|by rewrite Ef4, (upd_fld _ _ _ _ U3), Ef2, Ef1, (assoc_L (++))|].
      eapply below_trans; [reflexivity|exact Hb2|]. destruct Hb4 as [Hc4 Hb4]. simpl in Hc4, Hb4. split; [lia|]. intros j Hj.
      destruct (Hb4 j) as (E1 & E2 & E3); [lia|]. split_and!; [done|done|]. intros q Hq'. rewrite E3 by done. apply (upd_sock _ _ _ _ U3). set_solver.
Qed.

(** ** Taking an entry out *)
Lemma arrays_pop_last l s act1 p act2 : arrays_ok l s (act1 ++ p :: act2) -> 0 < cnt_fd l -> p_nodes l @@ (cnt_fd l - 1) = Some p ->
  arrays_ok (mkl (fds l) (zinsert (cnt_fd l - 1) LNull (p_nodes l)) (cnt_fd l - 1)) s (act1 ++ act2).
Proof.
  intros [] Hc Hp. split; simpl; rewrite ?zlen_zinsert; [lia|done|done|..].
  - unfold zinsert. rewrite take_insert_ge by lia. apply (Permutation_cons_inv (a := p)). rewrite Permutation_middle, <- ao_perm0.
    rewrite zlookup_nonneg in Hp by lia. replace (Z.to_nat (cnt_fd l)) with (S (Z.to_nat (cnt_fd l - 1))) by lia.
    rewrite (take_S_r _ _ _ Hp). solve_Permutation.
  - intros i q Hi Hq. rewrite zlookup_zinsert_ne in Hq by lia. apply ao_sock0; [lia|done].
Qed.

Lemma arrays_pop_swap l s act1 p act2 i q f : arrays_ok l s (act1 ++ p :: act2) -> 0 <= i < cnt_fd l - 1 ->
  p_nodes l @@ i = Some p -> p_nodes l @@ (cnt_fd l - 1) = Some q -> fds l @@ (cnt_fd l - 1) = Some f ->
  arrays_ok (mkl (zinsert i f (fds l)) (zinsert (cnt_fd l - 1) LNull (zinsert (cnt_fd l - 1) p (zinsert i q (p_nodes l)))) (cnt_fd l - 1)) s (act1 ++ act2).
Proof.
  intros [] Hi Hp Hq Hf. split; simpl; rewrite ?zlen_zinsert; [lia|done|done|..].
  - unfold zinsert. rewrite 2!take_insert_ge by lia.
    apply (Permutation_cons_inv (a := p)). rewrite Permutation_middle, <- ao_perm0.
    rewrite zlookup_nonneg in Hp, Hq by lia. replace (Z.to_nat (cnt_fd l)) with (S (Z.to_nat (cnt_fd l - 1))) by lia.
    apply take_swap_last; [lia|done|done].
  - intros j x Hj Hx. rewrite !(zlookup_zinsert_ne _ (cnt_fd l - 1)) in Hx by lia. destruct (decide (j = i)) as [->|].
    + rewrite zlookup_zinsert_eq in Hx by lia. injection Hx as <-. rewrite zlookup_zinsert_eq by lia.
      destruct (ao_sock0 (cnt_fd l - 1) q) as (f' & t & Ef & Hs); [lia|done|]. rewrite Hf in Ef. injection Ef as <-. by eexists _, t.
    + rewrite zlookup_zinsert_ne in Hx by lia. rewrite zlookup_zinsert_ne by lia. apply ao_sock0; [lia|done].
Qed.

(** The entry to recycle is behind the others. *)
Lemma swap_out i l s act1 p act2 : arrays_ok l s (act1 ++ p :: act2) -> 0 <= i < cnt_fd l -> p_nodes l @@ i = Some p ->
  exists nodes fs, (forall s' Q, Q (nodes, fs) s' -> wpm (poll_swap i l) s' Q) /\
  zlen nodes = capacity ev /\ nodes @@ (cnt_fd l - 1) = Some p /\
  arrays_ok (mkl fs (zinsert (cnt_fd l - 1) LNull nodes) (cnt_fd l - 1)) s (act1 ++ act2) /\
  below i l s (mkl fs (zinsert (cnt_fd l - 1) LNull nodes) (cnt_fd l - 1)) s.
Proof.
  intros Hao Hi Hp. pose proof Hao as []. unfold poll_swap. destruct (Z.eqb_spec i (cnt_fd l - 1)) as [Ei|Ei]; simpl negb; cbv iota.
  - subst i. exists (p_nodes l), (fds l). split_and!; [intros s' Q HQ; by apply wpm_ret|done|done|apply (arrays_pop_last l s act1 p act2); [done|lia|done]|].
    split; [simpl; lia|]. intros j Hj. simpl. rewrite zlookup_zinsert_ne by lia. done.
  - destruct (zlookup_is_Some (p_nodes l) (cnt_fd l - 1)) as [q Hq]; [lia|]. destruct (zlookup_is_Some (fds l) (cnt_fd l - 1)) as [f Hf]; [lia|].
    exists (zinsert (cnt_fd l - 1) p (zinsert i q (p_nodes l))), (zinsert i f (fds l)).
    split_and!; [| | |eapply (arrays_pop_swap l s act1 p act2 i q f); [done|lia|done..]|].
    + intros s' Q HQ. do 2 (apply wpm_bind, wpm_lift; erewrite aget_Some by done; apply wp_ret).
      apply wpm_bind, wpm_lift, wp_aset; [lia|]. apply wpm_bind, wpm_lift, wp_aset; [rewrite zlen_zinsert; lia|].
      apply wpm_bind, wpm_lift. erewrite aget_Some by done. apply wp_ret. apply wpm_bind, wpm_lift, wp_aset; [lia|]. by apply wpm_ret.
    + by rewrite !zlen_zinsert.
    + rewrite zlookup_zinsert_eq; [done|]. rewrite zlen_zinsert. lia.
    + split; [simpl; lia|]. intros j Hj. simpl. rewrite !zlookup_zinsert_ne by lia. done.
Qed.

Lemma closed_leaves i l s act rec p : poll_ok l s act rec -> 0 <= i < cnt_fd l -> p_nodes l @@ i = Some p ->
  wpm (poll_closed ev i l) s (fun l' s' => exists rec' new, leaves i l s l' s' rec' new /\ messages new = [] /\
    errors new = if is_closed s p then errors (told (OnError p) (on_error ev)) else []).
Proof.
  intros Hok Hi Hp. pose proof Hok as (Hm & Hfix & Ha). pose proof (entry_active _ _ _ _ _ Ha Hi Hp) as Hpa.
  apply wpm_bind, wpm_lift. erewrite aget_Some by done. apply wp_ret. destruct (live_active _ _ _ _ Hm Hpa) as [nd En].
  apply wpm_bind, (wpm_load _ nd); [done|]. 
  assert (is_closed s p = (status (peer nd) =? MUGGLE_SOCKET_PEER_STATUS_CLOSED)) as -> by (unfold is_closed, peer_of; by rewrite En).
  destruct (status (peer nd) =? MUGGLE_SOCKET_PEER_STATUS_CLOSED).
  2: { apply wpm_ret. exists rec, []. split; [|done]. eapply leaves_upd; [apply upd_refl|done|lia]. }
  apply wpm_bind. eapply wpm_mono; [apply error_wp; [done|by exists nd]|]. intros ? s1 U1. pose proof (loop_ok_upd _ arrays_sock _ _ _ _ _ _ U1 Hok) as (Hm1 & Hf1 & Ha1).
  apply list_elem_of_split in Hpa as (act1 & act2 & ->).
  destruct (swap_out i l s1 act1 p act2 Ha1 Hi Hp) as (nodes & fs & Hrun & Hlen & Hvic & Ha2 & Hb2). pose proof Ha1 as [].
  apply wpm_bind, Hrun. apply wpm_bind, wpm_lift. erewrite aget_Some by done. apply wp_ret.
  apply wpm_bind. eapply wpm_mono; [by apply (recycle_loop p s1 act1 act2 rec)|].
  intros _ s2 ((rec' & Hm2) & Hf2 & (new2 & Ef2 & [Hq1 Hq2]) & Hs2). apply wpm_bind, wpm_lift, wp_aset; [lia|]. apply wpm_ret.
  exists rec', (told (OnError p) (on_error ev) ++ new2). split; [split_and!|].
  - exists (act1 ++ act2). split_and!; [done|done|by eapply arrays_sock].
  - by rewrite Ef2, (upd_fld _ _ _ _ U1), (assoc_L (++)).
  - eapply below_trans; [reflexivity|eapply below_sock; [exact Ha|lia|intros q _; apply (upd_sock _ _ _ _ U1); set_solver]|].
    eapply below_trans; [reflexivity|exact Hb2|]. eapply below_sock; [done|destruct Hb2; lia|done].
  - rewrite messages_app, errors_app, Hq1, Hq2, !app_nil_r. split; [by destruct (on_error ev)|done].
Qed.

(** ** Serving the entries *)
Definition readable (f : pollfd) : bool := negb (Z.land (revents f) POLLIN =? 0).
Definition hung (f : pollfd) : bool := negb (readable f) && negb (Z.land (revents f) (Z.lor POLLHUP POLLERR) =? 0).

(** The peer of entry [j] when its events are of a kind. *)
Definition peer_at (kind : pollfd -> bool) l (j : Z) : list loc :=
  match p_nodes l @@ j, fds l @@ j with
  | Some p, Some f => if kind f then [p] else []
  | _, _ => []
  end.

(** The peers of the entries below [i], from the last on. *)
Fixpoint peers_with (kind : pollfd -> bool) l (i : nat) : list loc :=
  match i with
  | O => []
  | S i => peer_at kind l (Z.of_nat i) ++ peers_with kind l i
  end.

Lemma peers_with_below kind i l s l' s' : below (Z.of_nat i) l s l' s' -> peers_with kind l' i = peers_with kind l i.
Proof.
  induction i as [|i IH]; intros Hb; [done|]. simpl. rewrite IH by (eapply (below_trans _ (Z.of_nat (S i)) l s l' s'); [lia|done|split; [destruct Hb; lia|done]]).
  f_equal. unfold peer_at. destruct Hb as [_ Hb]. destruct (Hb (Z.of_nat i)) as (-> & -> & _); [lia|done].
Qed.

Lemma receives_below kind i l s l' s' : below (Z.of_nat i) l s l' s' ->
  filter (fun p => receives s' p) (peers_with kind l i) = filter (fun p => receives s p) (peers_with kind l i).
Proof.
  intros Hb. apply filter_agree. induction i as [|i IH]; simpl; [set_solver|]. intros q [Hq|Hq]%elem_of_app.
  - unfold peer_at in Hq. destruct (p_nodes l @@ Z.of_nat i) eqn:En; [|set_solver]. destruct (fds l @@ _); [|set_solver].
    destruct (kind p); [|set_solver]. apply list_elem_of_singleton in Hq as ->. unfold receives.
    destruct Hb as [_ Hb]. destruct (Hb (Z.of_nat i)) as (_ & _ & ->); [lia|done|done].
  - apply IH; [|done]. eapply (below_trans _ (Z.of_nat (S i)) l s l' s'); [lia|done|split; [destruct Hb; lia|done]].
Qed.

Lemma leaves_weaken i j l s l' s' rec new : i <= j -> leaves j l s l' s' rec new -> leaves i l s l' s' rec new.
Proof. intros Hij (A & B & C). split_and!; [done|done|]. eapply (below_trans i j l s l' s'); [done|done|]. split; [destruct C; lia|done]. Qed.

Definition b2z (b : bool) : Z := if b then 1 else 0.

Lemma entry_leaves r i n l s act rec p f : input_ok ev (inp r) -> poll_ok l s act rec -> 0 <= i < cnt_fd l -> p_nodes l @@ i = Some p -> fds l @@ i = Some f ->
  wpm (poll_entry raw ev r i n l) s (fun '(n', l') s' => exists new, leaves (i + 1) l s l' s' rec new /\
    messages new = (if readable f && receives s p then messages (told (OnMessage p) (on_message ev)) else []) /\ errors new = [] /\
    n' = n - b2z (readable f || hung f) /\ (hung f = true -> is_closed s' p = true)).
Proof.
  intros Hin Hok Hi Hp Hf. pose proof Hok as (Hm & Hfix & Ha). pose proof (entry_active _ _ _ _ _ Ha Hi Hp) as Hpa.
  apply wpm_bind, wpm_lift. erewrite aget_Some by done. apply wp_ret. apply wpm_bind, wpm_lift. erewrite aget_Some by done. apply wp_ret.
  destruct (live_active _ _ _ _ Hm Hpa) as [nd En].
  assert (receives s p = (peer_type (peer nd) =? MUGGLE_SOCKET_PEER_TYPE_TCP_PEER) || (peer_type (peer nd) =? MUGGLE_SOCKET_PEER_TYPE_UDP_PEER)) as ->
    by (unfold receives, sock; by rewrite En).
  fold (readable f). unfold hung. destruct (readable f); simpl negb; cbv iota; simpl andb; simpl orb.
  - apply wpm_bind, (wpm_load _ nd); [done|]. cbv zeta. destruct (Z.eqb_spec (peer_type (peer nd)) MUGGLE_SOCKET_PEER_TYPE_TCP_LISTEN) as [->|Ht].
    + apply wpm_bind. eapply wpm_mono; [eapply listen_leaves; [done|done|apply Hin|lia]|]. intros [res l'] s' (new & Hl & Hq1 & Hq2). apply wpm_ret. exists new. split; [|done].
      eapply leaves_weaken; [|done]. lia.
    + destruct (_ || _).
      * apply wpm_bind. eapply wpm_mono; [apply on_message_wp; [done|by exists nd|intros Hno; by eapply recvs_end]|]. intros ? s' U. apply wpm_ret. eexists.
        split; [eapply leaves_upd; [exact U|done|lia]|]. split_and!; [done|by destruct (on_message ev)|done|done].
      * apply wpm_ret. exists []. split; [eapply leaves_upd; [apply upd_refl|done|lia]|done].
  - destruct (Z.land (revents f) (Z.lor POLLHUP POLLERR) =? 0); simpl negb; cbv iota.
    + apply wpm_ret. exists []. split; [eapply leaves_upd; [apply upd_refl|done|lia]|]. split_and!; [done|done|simpl; lia|done].
    + apply wpm_bind. eapply modify_peer_upd; [apply (upd_refl [])|by exists nd|right; by intros []|]. intros s' pr U _ Hpr. apply wpm_ret. exists [].
      split; [eapply leaves_upd; [exact U|done|lia]|]. split_and!; [done|done|done|]. intros _. unfold is_closed. by rewrite Hpr.
Qed.

Definition any_event (f : pollfd) : bool := readable f || hung f.

Lemma peers_with_le k1 k2 l i : (forall f, k1 f = true -> k2 f = true) -> (length (peers_with k1 l i) <= length (peers_with k2 l i))%nat.
Proof.
  intros Hk. induction i as [|i IH]; simpl; [lia|]. rewrite !length_app. enough (length (peer_at k1 l (Z.of_nat i)) <= length (peer_at k2 l (Z.of_nat i)))%nat by lia.
  unfold peer_at. destruct (p_nodes l @@ _); [|done]. destruct (fds l @@ _) as [f|]; [|done]. destruct (k1 f) eqn:E; [by rewrite (Hk f E)|simpl; lia].
Qed.

Lemma peers_with_none k1 k2 l i : (forall f, k1 f = true -> k2 f = true) -> (length (peers_with k2 l i) <= 0)%nat -> peers_with k1 l i = [].
Proof. intros Hk Hl. pose proof (peers_with_le k1 k2 l i Hk). apply nil_length_inv. lia. Qed.

Lemma readable_any f : readable f = true -> any_event f = true.
Proof. unfold any_event. by intros ->. Qed.
Lemma hung_any f : hung f = true -> any_event f = true.
Proof. unfold any_event. intros ->. apply orb_true_r. Qed.

Lemma entry_exists l s act i : arrays_ok l s act -> 0 <= i < cnt_fd l -> exists p f, p_nodes l @@ i = Some p /\ fds l @@ i = Some f.
Proof.
  intros [] Hi. destruct (zlookup_is_Some (p_nodes l) i) as [p Hp]; [lia|]. destruct (zlookup_is_Some (fds l) i) as [f Hf]; [lia|]. by exists p, f.
Qed.

(** The callbacks of a part of a round that looks at the entries below [i], if poll
    counted the entries with events right. *)
Definition tells l s (i : nat) (n : Z) (new : list event) : Prop :=
  Z.of_nat (length (peers_with any_event l i)) <= n ->
  messages new = (if on_message ev then filter (fun p => receives s p) (peers_with readable l i) else []) /\
  (is_Some (on_error ev) -> peers_with hung l i `sublist_of` errors new) /\
  errors new `sublist_of` peers_with (fun _ => true) l i.

Lemma tells_done l s i n : n <= 0 -> tells l s i n [].
Proof.
  intros Hn Hc. rewrite (peers_with_none readable any_event), (peers_with_none hung any_event) by (apply readable_any || apply hung_any || lia).
  split_and!; [by destruct (on_message ev)|done|apply sublist_nil_l].
Qed.

Lemma tells_step l s i n p f (n1 : Z) new1 new2 new3 (b : bool) l2 s2 : p_nodes l @@ Z.of_nat i = Some p -> fds l @@ Z.of_nat i = Some f ->
  n1 = n - b2z (readable f || hung f) -> below (Z.of_nat i) l s l2 s2 ->
  messages new1 = (if readable f && receives s p then messages (told (OnMessage p) (on_message ev)) else []) -> errors new1 = [] ->
  messages new2 = [] -> errors new2 = (if b then errors (told (OnError p) (on_error ev)) else []) -> (hung f = true -> b = true) ->
  tells l2 s2 i n1 new3 -> tells l s (S i) n ((new1 ++ new2) ++ new3).
Proof.
  intros Hp Hf -> Hb Hm1 He1 Hm2 He2 Hh Ht Hc. simpl in Hc. unfold peer_at in Hc. rewrite Hp, Hf, length_app in Hc.
  unfold tells in Ht. rewrite !(peers_with_below _ _ _ _ _ _ Hb), (receives_below _ _ _ _ _ _ Hb) in Ht.
  destruct Ht as (Hm3 & He3 & Hs3).
  { unfold b2z, any_event in *. destruct (readable f || hung f); simpl in Hc; lia. }
  rewrite !messages_app, !errors_app, Hm1, Hm2, Hm3, He1, He2. simpl. unfold peer_at. rewrite Hp, Hf. split_and!.
  - rewrite app_nil_r, list.filter_app. destruct (readable f); [|done]. rewrite filter_cons.
    destruct (receives s p); by destruct (on_message ev).
  - intros [c Ec]. specialize (He3 (mk_is_Some _ _ Ec)). rewrite Ec. destruct (hung f).
    + rewrite Hh by done. by apply sublist_app.
    + by apply sublist_inserts_l.
  - apply (sublist_app _ [p]); [|done]. destruct b; [|apply sublist_nil_l]. destruct (on_error ev); [done|apply sublist_nil_l].
Qed.

Lemma entries_leave r i : input_ok ev (inp r) -> forall n l s act rec, poll_ok l s act rec -> Z.of_nat i <= cnt_fd l ->
  wpm (poll_entries raw ev r i n l) s (fun l' s' => exists rec' new, leaves 0 l s l' s' rec' new /\ tells l s i n new).
Proof.
  intros Hin. induction i as [|i IH]; intros n l s act rec Hok Hi; simpl.
  - apply wpm_ret. exists rec, []. split; [eapply leaves_upd; [apply upd_refl|done|lia]|]. intros _. split_and!; [by destruct (on_message ev)|done|done].
  - destruct (entry_exists l s act (Z.of_nat i)) as (p & f & Hp & Hf); [apply Hok|lia|].
    apply wpm_bind. eapply wpm_mono; [eapply entry_leaves; [done|done|lia|done|done]|]. intros [n1 l1] s1 (new1 & ((act1 & Hok1) & Ef1 & Hb1) & Hm1 & He1 & Hn1 & Hh).
    assert (p_nodes l1 @@ Z.of_nat i = Some p) as Hp1 by (destruct Hb1 as [_ Hb1]; destruct (Hb1 (Z.of_nat i)) as (-> & _); [lia|done]).
    apply wpm_bind. eapply wpm_mono; [eapply closed_leaves; [done|destruct Hb1; lia|done]|]. intros l2 s2 (rec2 & new2 & ((act2 & Hok2) & Ef2 & Hb2) & Hm2 & He2).
    assert (below (Z.of_nat i) l s l2 s2) as Hb by (eapply below_trans; [|exact Hb1|exact Hb2]; lia).
    destruct (Z.leb_spec n1 0).
    + apply wpm_ret. exists rec2, ((new1 ++ new2) ++ []). split; [|by eapply tells_step, tells_done]. rewrite app_nil_r. eapply (leaves_weaken 0 (Z.of_nat i)); [lia|].
      split_and!; [by exists act2|by rewrite Ef2, Ef1, (assoc_L (++))|done].
    + eapply wpm_mono; [apply (IH n1 l2 s2 act2 rec2 Hok2); destruct Hb; lia|]. intros l3 s3 (rec3 & new3 & (Hok3 & Ef3 & Hb3) & Ht3).
      exists rec3, ((new1 ++ new2) ++ new3). split; [|by eapply tells_step].
      split_and!; [done|by rewrite Ef3, Ef2, Ef1, !(assoc_L (++))|eapply below_trans; [|exact Hb|exact Hb3]; lia].
Qed.

(** ** A round *)
Definition polled (r : round) l : locals := mkl (set_revents (cnt_fd l) (poll_revents r) (fds l)) (p_nodes l) (cnt_fd l).

Lemma polled_ok r l s act rec : poll_ok l s act rec -> poll_ok (polled r l) s act rec.
Proof.
  intros (Hm & Hf & []). split_and!; [done|done|]. split; simpl; [done| |done|done|].
  - unfold set_revents, zlen in *. by rewrite length_imap.
  - intros i p Hi Hp. destruct (ao_sock0 i p Hi Hp) as (f & t & Ef & Hs). rewrite zlookup_nonneg in Ef by lia. rewrite zlookup_nonneg by lia.
    unfold set_revents. rewrite list_lookup_imap, Ef. simpl. exists (if Z.of_nat (Z.to_nat i) <? cnt_fd l then mkpfd (pfd f) (poll_revents r (Z.to_nat i)) else f), t.
    split; [done|]. by destruct (_ <? _).
Qed.

Lemma entries_serve r l s act rec : input_ok ev (inp r) -> poll_ok l s act rec ->
  wpm (poll_entries raw ev r (Z.to_nat (cnt_fd l)) (ret_n (inp r)) l) s
    (fun l' s' => (exists act' rec', poll_ok l' s' act' rec') /\ exists new, fld s' = fld s ++ new /\
       tells l s (Z.to_nat (cnt_fd l)) (ret_n (inp r)) new).
Proof.
  intros Hin Hok. eapply wpm_mono; [apply (entries_leave r _ Hin _ _ _ act rec Hok); destruct Hok as (_ & _ & []); lia|].
  intros l' s' (rec' & new & ((act' & Hok') & Ef & _) & Ht).
  split; [by exists act', rec'|by exists new].
Qed.

Lemma round_wp r t1 l s act rec : input_ok ev (inp r) -> poll_ok l s act rec -> (0 < timeout_ms ev -> is_Some t1) -> (ret_n (inp r) = 0 -> 0 < timeout_ms ev) ->
  wpm (poll_round raw ev r t1 l) s (fun x s' => (resumes ev arrays_ok x s' /\ (leaving (inp r) -> x = None)) /\ exists new new', fld s' = fld s ++ new ++ new' /\ quiet new' /\
    (0 < ret_n (inp r) -> tells (polled r l) s (Z.to_nat (cnt_fd l)) (ret_n (inp r)) new)).
Proof.
  intros Hin Hok Ht Hn. pose proof (polled_ok r _ _ _ _ Hok) as Hok1. eapply loop_round_wp; [exact client|exact arrays_sock|exact Hok1|done|done|].
  intros _. by eapply (entries_serve r (polled r l)).
Qed.

(** ** The loop *)
Lemma fill_wp s act rec todo : forall fuel seen l, mgr_ok s act rec -> act = seen ++ todo -> arrays_ok l s seen ->
  Z.of_nat (length act) <= capacity ev -> (length todo < fuel)%nat ->
  wpm (fill_locals fuel (first todo) l) s (fun l' s' => s' = s /\ arrays_ok l' s act).
Proof.
  induction todo as [|p todo IH]; intros fuel seen l Hm -> Ha Hcap Hf; (destruct fuel as [|fuel]; [simpl in Hf; lia|]); simpl.
  - apply wpm_ret. by rewrite app_nil_r.
  - destruct (node_cell _ _ _ p Hm) as [-> [n En]]; [set_solver|]. apply wpm_bind, (wpm_load _ n); [done|]. pose proof Ha as [].
    assert (cnt_fd l < capacity ev) as Hlt.
    { pose proof (Permutation_length ao_perm0) as Hl. rewrite length_take in Hl. rewrite length_app in Hcap. simpl in Hcap. unfold zlen in *. lia. }
    apply wpm_bind, wpm_lift, wp_aset; [lia|]. apply wpm_bind, wpm_lift, wp_aget; [lia|]. intros f Ef. apply wpm_bind, wpm_lift, wp_aset; [lia|].
    rewrite (peer_chain_next _ _ seen p todo n (ok_active _ _ _ _ Hm) En).
    apply (IH fuel (seen ++ [p])); [done|by rewrite <- (assoc_L (++))| |done|simpl in Hf; lia].
    assert (arrays_ok (mkl (zinsert (cnt_fd l) (mkpfd (fd (peer n)) (revents f)) (fds l)) (zinsert (cnt_fd l) p (p_nodes l)) (cnt_fd l + 1)) s (p :: seen)) as [].
    { eapply arrays_push; [done|done|]. unfold sock. by rewrite En. }
    split; try done. etrans; [exact ao_perm1|]. solve_Permutation.
Qed.

Lemma poll_wp releases start rs s act rec : (forall p, 0 ∈ releases p) -> mgr_ok s act rec -> fixed (ar s) -> Z.of_nat (length act) <= capacity ev ->
  Forall (fun r => input_ok ev (inp r) /\ (ret_n (inp r) = 0 -> 0 < timeout_ms ev)) rs -> Exists (fun r => leaving (inp r)) rs ->
  wpm (muggle_socket_event_poll raw ev releases start rs) s (fun _ s' => returned s').
Proof.
  intros Hrel Hm Hf Hcap Hrs Hend. unfold muggle_socket_event_poll.
  assert (wpm (muggle_socket_event_memmgr_destroy releases) s (fun _ s' => returned s')) as Hd.
  { eapply wpm_mono; [apply returned_destroy; [by left; exists act, rec|done]|]. intros ? s' ?. by right. }
  destruct (malloc_array 8 (capacity ev) : option (list pollfd)) as [fs0|]; [|exact Hd].
  destruct (malloc_array 8 (capacity ev) : option (list loc)) as [ns0|]; [|exact Hd].
  destruct (peer_chain_first _ _ _ (ok_active _ _ _ _ Hm)) as (h & Eh & Hn).
  apply wpm_bind, wpm_bind, (wpm_load _ h); [done|]. apply wpm_ret. rewrite Hn. apply wpm_bind, wpm_count. apply wpm_bind.
  eapply wpm_mono; [apply (fill_wp s act rec act _ [])|]; [done|done| |done|by destruct (nodes_count s act rec Hm)|].
  - split; simpl; [lia|unfold zlen; rewrite length_replicate; lia|unfold zlen; rewrite length_replicate; lia|done|lia].
  - intros l s' [-> Ha]. eapply wpm_mono; [eapply (run_rounds_wp ev arrays_ok (poll_round raw ev) _ (fun r => leaving (inp r)) rs); [|exact Hrs|done|done|]|].
    + intros r t1 l1 s1 act1 rec1 [Hin Hr] Hok1 Ht1. eapply wpm_mono; [by eapply round_wp|]. by intros x s' [? _].
    + intros Ht. assert (timeout_ms ev >? 0 = true) as -> by lia. done.
    + intros ? s' ?. by left.
Qed.

Lemma peers_with_sublist kind l i : (i <= length (p_nodes l))%nat -> peers_with kind l i `sublist_of` reverse (take i (p_nodes l)).
Proof.
  induction i as [|i IH]; intros Hi; [done|]. simpl. destruct (lookup_lt_is_Some_2 (p_nodes l) i) as [p Hp]; [lia|].
  rewrite (take_S_r _ _ _ Hp), reverse_app. apply sublist_app; [|apply IH; lia]. unfold peer_at. rewrite zlookup_nonneg, Nat2Z.id, Hp by lia.
  destruct (fds l @@ _) as [f|]; [|apply sublist_nil_l]. destruct (kind f); [done|apply sublist_nil_l].
Qed.

Lemma entries_NoDup kind l s act rec : poll_ok l s act rec -> NoDup (peers_with kind l (Z.to_nat (cnt_fd l))).
Proof.
  intros (Hm & _ & []). eapply sublist_NoDup; [|apply peers_with_sublist; unfold zlen in *; lia].
  rewrite reverse_Permutation, ao_perm0. destruct Hm. simpl in ok_nodup0.
  apply list.NoDup_cons in ok_nodup0 as [_ Hnd]. apply list.NoDup_cons in Hnd as [_ Hnd]. by apply list.NoDup_app in Hnd as [? _].
Qed.

Lemma served_NoDup kind (P : loc -> bool) l s act rec : poll_ok l s act rec -> NoDup (filter (fun p => P p) (peers_with kind l (Z.to_nat (cnt_fd l)))).
Proof. intros Hok. by eapply list.NoDup_filter, entries_NoDup. Qed.

End proofs.

(** The second stream hangs up, the first has data and a client connects. *)
Definition sample_locals : locals := mkl [mkpfd 6 0; mkpfd 5 0; mkpfd 3 0; mkpfd 0 0] (sample_nodes ++ [LNull]) 3.
Definition sample_input : input := mkin 3 0 (fun _ => [(7, 0); (-1, MUGGLE_SYS_ERRNO_WOULDBLOCK)]) (fun _ => []) (mkts 1 0) false.
Definition sample_round : round := mkr sample_input (fun i => nth i [POLLHUP; POLLIN; POLLIN] 0).

Lemma sample_input_ok : input_ok sample_ev sample_input.
Proof. split; [|done]. intros p. right. left. by split. Qed.

Lemma poll_sample_ok : @loop_ok _ (bounded_malloc 0) _ (arrays_ok sample_ev) sample_locals sample_mgr sample_nodes [].
Proof.
  pose proof sample_init_nodes as Hi. apply memmgr_init_ok in Hi as (Hok & Hf & _); [|lia|done].
  split_and!; [done|done|]. split; simpl; [lia|done|done|done|]. intros i p Hi Hp.
  assert (i = 0 \/ i = 1 \/ i = 2) as [->|[->| ->]] by lia; injection Hp as <-; by eexists _, _; split; vm_compute.
Qed.


(** The events of that round: the connection, the message, and the closing of the
    stream that hung up, which init was given without an event. *)
Example poll_round_events : exists x s,
  @poll_round _ (bounded_malloc 0) (malloc_zeroed []) (malloc_zeroed (MemoryPool.blk 0 0)) (malloc_zeroed 0) zero_node sample_ev
    sample_round (Some (mkts 0 0)) sample_locals sample_mgr = Done (x, s) /\
  fld s = [OnConnect (LPool 0 552); OnMessage (LPool 0 184); OnError (LPool 0 368); CloseFd 6].
Proof. eexists _, _. vm_compute. split; reflexivity. Qed.

(** With a timeout of 0 the time of the last timer is read before it was written. *)
Example poll_timeout_zero :
  @poll_round _ (bounded_malloc 0) (malloc_zeroed []) (malloc_zeroed (MemoryPool.blk 0 0)) (malloc_zeroed 0) zero_node
    (mkev 4 0 None None None None true) (mkr (mkin 0 0 (fun _ => []) (fun _ => []) (mkts 1 0) false) (fun _ => 0)) None sample_locals sample_mgr = Undef.
Proof. reflexivity. Qed.
End SocketEventPoll.
