(* ===== verification/SocketEventSelect.v ===== *)
(** muggle/c/net/event/socket_event_select.c: the event loop over select.  It walks
    the list of active peers while connections are added to it and closed peers
    leave it; the set of descriptors it waits for are descriptors of active peers. *)

From stdpp Require Import base gmap sets list numbers.
From Stdlib Require Import ZArith Lia.
From S2P Require Import Prelude Dsaa MemoryPool NodeMem DList SocketPeer SocketMemmgr SocketEvent.
Import MemoryPool(block, muggle_memory_pool).
Import SocketPeer(muggle_socket_peer, fd, status, peer_type, set_ev, MUGGLE_SYS_ERRNO_WOULDBLOCK, MUGGLE_INVALID_SOCKET, MUGGLE_SOCKET_PEER_TYPE_TCP_LISTEN,
  MUGGLE_SOCKET_PEER_TYPE_TCP_PEER, MUGGLE_SOCKET_PEER_TYPE_UDP_PEER, MUGGLE_SOCKET_PEER_STATUS_CLOSED).
Import SocketMemmgr SocketEvent.

Open Scope Z_scope.

Module SocketEventSelect.

(** An [fd_set] is an array of FD_SETSIZE bits; another index is out of bounds. *)
Definition FD_SETSIZE : Z := 1024.
Definition FD_SET (f : Z) (x : gset Z) : outcome (gset Z) :=
  if bool_decide (0 <= f < FD_SETSIZE) then Done ({[f]} ∪ x) else Undef.
Definition FD_CLR (f : Z) (x : gset Z) : outcome (gset Z) :=
  if bool_decide (0 <= f < FD_SETSIZE) then Done (x ∖ {[f]}) else Undef.
Definition FD_ISSET (f : Z) (x : gset Z) : outcome bool :=
  if bool_decide (0 <= f < FD_SETSIZE) then Done (bool_decide (f ∈ x)) else Undef.

Record locals := mkl {
  allset : gset Z;
  nfds : Z
}.

(** What comes from outside in a round, with the set that select writes. *)
Record round := mkr {
  inp : input;
  rset : gset Z
}.

Section ops.
Context {H : Type} `{!NodeMalloc H}.
Context `{Malloc (list Z)} `{Malloc block} `{Malloc Z}.
Context (raw : muggle_socket_peer_list_node).
Context (ev : muggle_socket_event H).
Notation MM := (@MM H).

Definition watch (f : Z) (l : locals) : outcome locals :=
  x ← FD_SET f (allset l);
  mret (mkl x (if f >? nfds l then f else nfds l)).

(** [fuel] bounds the rounds: each but the last takes a connection, one of
    [results], which are what accept returns on this listener. *)
Fixpoint muggle_socket_event_select_listen (fuel : nat) (listen_peer : loc) (results : list (Z * Z)) (l : locals)
  : MM (list (Z * Z) * locals) :=
  match fuel with
  | O => fun _ => NoFuel
  | S fuel =>
      node ← muggle_socket_event_memmgr_allocate raw;
      if is_null node then
        results ← muggle_socket_event_refuse_accept listen_peer results; mret (results, l)
      else
        results ← muggle_socket_event_accept listen_peer node results;
        n ← load node;
        if fd (peer n) =? MUGGLE_INVALID_SOCKET then
          muggle_socket_event_memmgr_free node;; mret (results, l)
        else
          l ← lift (watch (fd (peer n)) l);
          modify_peer node (set_ev (Some (on_close ev)));;
          call (OnConnect node) ((fun c => c listen_peer node) <$> on_connect ev);;
          muggle_socket_event_select_listen fuel listen_peer results l
  end.

(** The switch on the type of a ready peer. *)
Definition select_serve (r : round) (node : loc) (l : locals) : MM locals :=
  nd ← load node;
  let t := peer_type (peer nd) in
  if t =? MUGGLE_SOCKET_PEER_TYPE_TCP_LISTEN then
    let results := accepts (inp r) node in
    x ← muggle_socket_event_select_listen (S (length results)) node results l;
    mret (x : list (Z * Z) * locals).2
  else if (t =? MUGGLE_SOCKET_PEER_TYPE_TCP_PEER) || (t =? MUGGLE_SOCKET_PEER_TYPE_UDP_PEER) then
    muggle_socket_event_on_message ev node (recvs (inp r) node);;
    mret l
  else mret l.

(** A closed peer leaves the loop; the node to go on with. *)
Definition select_closed (node : loc) (l : locals) : MM (loc * locals) :=
  nd ← load node;
  if status (peer nd) =? MUGGLE_SOCKET_PEER_STATUS_CLOSED then
    call (OnError node) ((fun c => c node) <$> on_error ev);;
    nd ← load node;
    x ← lift (FD_CLR (fd (peer nd)) (allset l));
    let next_node := node_next nd in
    muggle_socket_event_memmgr_recycle node;;
    mret (next_node, mkl x (nfds l))
  else mret (node_next nd, l).

(** The body of the loop over the active peers. *)
Definition select_step (r : round) (x : loc * Z * locals) : MM (loc * Z * locals + locals) :=
  let '(node, n, l) := x in
  if is_null node then mret (inr l)
  else
    nd ← load node;
    b ← lift (FD_ISSET (fd (peer nd)) (rset r));
    if (b : bool) then
      l ← select_serve r node l;
      z ← select_closed node l;
      let (node, l) := (z : loc * locals) in
      if n - 1 <=? 0 then mret (inr l) else mret (inl (node, n - 1, l))
    else mret (inl (node_next nd, n, l)).

(** [save_timeout] is [None] when it was not written. *)
Definition select_round (save_timeout : option (Z * Z)) (r : round) (t1 : option timespec) (l : locals) : MM (option (option timespec * locals)) :=
  lift (if timeout_ms ev <? 0 then Done tt else match save_timeout with Some _ => Done tt | None => Undef end);;
  loop_round ev (inp r)
    (node ← muggle_socket_event_memmgr_get_node;
     c ← count;
     loopM (S c) (select_step r) (node, ret_n (inp r), l)) t1 l.

(** The loop that puts the active peers into the set. *)
Fixpoint watch_all (fuel : nat) (node : loc) (l : locals) : MM locals :=
  match fuel with
  | O => fun _ => NoFuel
  | S fuel =>
      if is_null node then mret l
      else
        n ← load node;
        l ← lift (watch (fd (peer n)) l);
        watch_all fuel (node_next n) l
  end.

Definition muggle_socket_event_select (start : timespec) (rs : list round) : MM unit :=
  let save_timeout := if timeout_ms ev >? 0 then Some (Z.quot (timeout_ms ev) 1000, Z.rem (timeout_ms ev) 1000 * 1000) else None in
  let t1 := if timeout_ms ev >? 0 then Some start else None in
  node ← muggle_socket_event_memmgr_get_node;
  c ← count;
  l ← watch_all (S c) node (mkl ∅ 0);
  run_rounds (select_round save_timeout) rs t1 l.
End ops.

Section proofs.
Context {H : Type} `{!NodeMalloc H}.
Context `{Malloc (list Z)} `{Malloc block} `{Malloc Z}.
Context (raw : muggle_socket_peer_list_node).
Context (ev : muggle_socket_event H).
Implicit Types (s : @mgr H) (l : locals) (act rec : list loc).
Notation mgr_ok s act rec := (nodes_ok s [] act rec).

(** The descriptors of the active peers have a place in the set, below [nfds], and
    those in the set are descriptors of active peers. *)
Record watches l s act : Prop := {
  w_peer : forall q, q ∈ act -> exists f t, sock s q = Some (f, t) /\ 0 <= f < FD_SETSIZE /\ f <= nfds l;
  w_set : forall f, f ∈ allset l -> exists q t, q ∈ act /\ sock s q = Some (f, t)
}.
Notation select_ok := (loop_ok watches).

Lemma watches_sock l s s' act : (forall q, q ∈ act -> sock s' q = sock s q) -> watches l s act -> watches l s' act.
Proof.
  intros Hs []. split.
  - intros q Hq. rewrite Hs by done. by apply w_peer0.
  - intros f Hf. destruct (w_set0 f Hf) as (q & t & Hq & E). exists q, t. by rewrite Hs.
Qed.

Lemma watch_ok l s act p f t : watches l s act -> sock s p = Some (f, t) -> 0 <= f < FD_SETSIZE ->
  wp (watch f l) (fun l' => watches l' s (p :: act)).
Proof.
  intros [] Hs Hf. unfold watch, FD_SET. rewrite bool_decide_true by done. apply wp_bind, wp_ret, wp_ret. split; simpl.
  - intros q [->|Hq]%elem_of_cons.
    + exists f, t. split; [done|]. split; [done|]. destruct (Z.gtb_spec f (nfds l)); lia.
    + destruct (w_peer0 q Hq) as (f' & t' & E & Hr & Hn). exists f', t'. split; [done|]. split; [done|]. destruct (Z.gtb_spec f (nfds l)); lia.
  - intros f' [->%elem_of_singleton|Hf']%elem_of_union; [exists p, t; split; [left|done]|].
    destruct (w_set0 f' Hf') as (q & t' & Hq & E). exists q, t'. split; [by right|done].
Qed.

Lemma unwatch_ok l s act1 p act2 f t : watches l s (act1 ++ p :: act2) -> sock s p = Some (f, t) ->
  wp (FD_CLR f (allset l)) (fun x => watches (mkl x (nfds l)) s (act1 ++ act2)).
Proof.
  intros [] Hs. destruct (w_peer0 p) as (f' & t' & E & Hr & _); [set_solver|]. rewrite Hs in E. injection E as <- <-.
  unfold FD_CLR. rewrite bool_decide_true by done. apply wp_ret. split; simpl.
  - intros q Hq. apply w_peer0. set_solver.
  - intros f' [Hf' Hne]%elem_of_difference. destruct (w_set0 f' Hf') as (q & t' & Hq & E). exists q, t'. split; [|done].
    rewrite elem_of_app, elem_of_cons in Hq. rewrite elem_of_app. destruct Hq as [?|[->|?]]; [by left| |by right].
    rewrite Hs in E. injection E as <- _. set_solver.
Qed.

(** ** Serving a peer *)
Definition in_range (results : list (Z * Z)) : Prop :=
  Forall (fun x => x.1 = MUGGLE_INVALID_SOCKET \/ 0 <= x.1 < FD_SETSIZE) results.

Lemma in_range_suffix res results : res `suffix_of` results -> in_range results -> in_range res.
Proof. intros [k ->] [_ ?]%Forall_app. done. Qed.

Hypothesis client : client_ok ev.

(** Peers are added in front; the others keep their sockets. *)
Definition grows s act l' s' rec (new : list event) : Prop :=
  (exists add, select_ok l' s' (add ++ act) rec) /\ fld s' = fld s ++ new /\ forall q, q ∈ act -> sock s' q = sock s q.

Lemma grows_upd new l s s' act rec : upd [] new s s' -> select_ok l s act rec -> grows s act l s' rec new.
Proof.
  intros U Hok. split_and!; [exists []; eapply loop_ok_upd; [exact watches_sock|done|done]|apply (upd_fld _ _ _ _ U)|].
  intros q _. apply (upd_sock _ _ _ _ U), not_elem_of_nil.
Qed.

Lemma refuse_grows lp results l s s1 act rec : select_ok l s1 act rec -> lp ∈ act -> Exists would_block results -> fld s1 = fld s -> (forall q, q ∈ act -> sock s1 q = sock s q) ->
  wpm (results' ← muggle_socket_event_refuse_accept lp results; mret (results', l)) s1
    (fun x s' => exists new, grows s act x.2 s' rec new /\ quiet new).
Proof.
  intros Hok Hlp Hw Ef Hs. apply wpm_bind. eapply wpm_mono; [apply refuse_accept_wp; [by eapply live_active; [apply Hok|]|done]|].
  intros res s' (new & U & Hq). apply wpm_ret. exists new. split; [|done]. destruct (grows_upd _ _ _ _ _ _ U Hok) as (A & B & C).
  split_and!; [done|congruence|]. intros q Hq'. rewrite C, Hs; done.
Qed.

Lemma select_listen_grows lp rec fuel : forall results l s act, select_ok l s act rec -> lp ∈ act ->
  Exists would_block results -> (length results < fuel)%nat -> in_range results ->
  wpm (muggle_socket_event_select_listen raw ev fuel lp results l) s
    (fun x s' => exists new, grows s act x.2 s' rec new /\ quiet new).
Proof.
  induction fuel as [|fuel IH]; intros results l s act Hok Hlp Hw Hf Hin; [lia|]. simpl. pose proof Hok as (Hm & Hfix & Ha).
  apply wpm_bind. eapply wpm_mono; [by apply (allocate_loop raw s act rec)|]. intros p s1 (Hf1 & Ef1 & Hs1 & Hm1). destruct (is_null p).
  - eapply refuse_grows; [split_and!; [done|done|by eapply watches_sock]|done|done|done|done].
  - apply wpm_bind. eapply wpm_mono; [by apply (accept_loop lp p results s1 act rec)|]. intros res s2 (Hm2 & Hf2 & Ef2 & Hs2 & Hsuf & n & En & Hres).
    assert (forall q, q ∈ act -> sock s2 q = sock s q) as Hs by (intros q Hq; rewrite Hs2, Hs1; done).
    apply wpm_bind, (wpm_load _ n); [done|]. destruct (Z.eqb_spec (fd (peer n)) MUGGLE_INVALID_SOCKET) as [|Hfd].
    + apply wpm_bind. eapply wpm_mono; [by apply (free_loop p s2 act rec)|]. intros _ s3 (Hm3 & Hf3 & Ef3 & Hs3). apply wpm_ret. exists []. split; [|done].
      assert (forall q, q ∈ act -> sock s3 q = sock s q) as Hs' by (intros q Hq; rewrite Hs3, Hs; done).
      split_and!; [exists []; split_and!; [done|done|by eapply watches_sock]|rewrite app_nil_r; congruence|done].
    + destruct Hres as [?|(Hres & Hw' & Hel)]; [done|].
      assert (0 <= fd (peer n) < FD_SETSIZE) as Hr.
      { apply list_elem_of_fmap in Hel as (x & Ex & Hx). unfold in_range in Hin. rewrite list.Forall_forall in Hin. destruct (Hin x Hx); [congruence|lia]. }
      apply wpm_bind, wpm_lift. eapply wp_mono; [eapply (watch_ok l s2 act p); [by eapply watches_sock|unfold sock; by rewrite En|done]|]. intros l2 Hw2.
      apply wpm_bind. eapply (modify_peer_upd [] p _ s2 s2 []); [apply upd_refl|by exists n|right; by intros []|]. intros s2' _ Uev _ _.
      apply wpm_bind. eapply wpm_mono; [apply connect_wp; [done|by eapply upd_live; [exact Uev|exists n]]|]. intros ? s3 Uc.
      pose proof (upd_trans _ _ _ _ _ _ Uev Uc : upd [] (told _ _) s2 s3) as U3.
      pose proof (loop_ok_upd watches watches_sock _ l2 _ _ (p :: act) rec U3 ltac:(split_and!; done)) as Hok3.
      eapply wpm_mono; [apply (IH res l2 s3 (p :: act)); [done|by right|done|lia|by eapply in_range_suffix]|].
      intros x s4 (new & ((add & Hok4) & Ef4 & Hs4) & Hq). exists (told (OnConnect p) (on_connect ev) ++ new).
      split; [|apply quiet_app; [by destruct (on_connect ev)|done]].
      split_and!; [exists (add ++ [p]); by rewrite <- (assoc_L (++))|by rewrite Ef4, (upd_fld _ _ _ _ U3), Ef2, Ef1, (assoc_L (++))|].
      intros q Hq'. rewrite Hs4, <- Hs by (done || by right). apply (upd_sock _ _ _ _ U3), not_elem_of_nil.
Qed.

(** What comes from outside: it ends, and connections have a place in the set. *)
Definition select_input_ok (r : round) : Prop := input_ok ev (inp r) /\ forall p, in_range (accepts (inp r) p).

Lemma serve_grows r p l s act rec : select_input_ok r -> select_ok l s act rec -> p ∈ act ->
  wpm (select_serve raw ev r p l) s (fun l' s' => exists new, grows s act l' s' rec new /\
    messages new = (if receives s p then messages (told (OnMessage p) (on_message ev)) else []) /\ errors new = []).
Proof.
  intros [Hin Hran] Hok Hp. pose proof Hok as (Hm & Hfix & Ha). destruct (live_active _ _ _ _ Hm Hp) as [nd En].
  assert (receives s p = (peer_type (peer nd) =? MUGGLE_SOCKET_PEER_TYPE_TCP_PEER) || (peer_type (peer nd) =? MUGGLE_SOCKET_PEER_TYPE_UDP_PEER)) as ->
    by (unfold receives, sock; by rewrite En).
  apply wpm_bind, (wpm_load _ nd); [done|]. cbv zeta.
  destruct (Z.eqb_spec (peer_type (peer nd)) MUGGLE_SOCKET_PEER_TYPE_TCP_LISTEN) as [->|Ht].
  - apply wpm_bind. eapply wpm_mono; [apply (select_listen_grows p rec); [done|done|apply Hin|lia|done]|].
    intros x s' (new & Hg & Hq1 & Hq2). apply wpm_ret. by exists new.
  - destruct (_ || _).
    + apply wpm_bind. eapply wpm_mono; [apply on_message_wp; [done|by exists nd|intros Hno; by eapply recvs_end]|]. intros ? s' U. apply wpm_ret. eexists.
      split; [eapply grows_upd; [exact U|done]|]. split_and!; [done|by destruct (on_message ev)].
    + apply wpm_ret. exists []. split; [eapply grows_upd; [apply upd_refl|done]|done].
Qed.

(** A closed peer is taken out; the walk goes on behind it. *)
Lemma closed_goes_on p l s front rest rec : select_ok l s (front ++ p :: rest) rec ->
  wpm (select_closed ev p l) s (fun x s' => x.1 = first rest /\ (exists front' rec', select_ok x.2 s' (front' ++ rest) rec') /\
    (exists new, fld s' = fld s ++ new /\ messages new = [] /\ errors new `sublist_of` [p]) /\ forall q, q ∈ rest -> sock s' q = sock s q).
Proof.
  intros Hok. pose proof Hok as (Hm & Hfix & Ha). destruct (live_active _ _ _ p Hm) as [nd En]; [set_solver|].
  apply wpm_bind, (wpm_load _ nd); [done|]. destruct (_ =? _).
  - apply wpm_bind. eapply wpm_mono; [apply error_wp; [done|by exists nd]|]. intros ? s1 U1.
    pose proof (loop_ok_upd watches watches_sock _ _ _ _ _ _ U1 Hok) as (Hm1 & Hf1 & Ha1). destruct (live_active _ _ _ p Hm1) as [n1 En1]; [set_solver|].
    apply wpm_bind, (wpm_load _ n1); [done|]. apply wpm_bind, wpm_lift.
    eapply wp_mono; [eapply (unwatch_ok l s1 front p rest); [done|unfold sock; by rewrite En1]|]. intros x Hx. cbv zeta.
    apply wpm_bind. eapply wpm_mono; [by apply (recycle_loop p s1 front rest rec)|].
    intros _ s2 ((rec' & Hm2) & Hf2 & (new2 & Ef2 & [Hq1 Hq2]) & Hs2). apply wpm_ret.
    split; [apply (peer_chain_next _ _ front p rest n1 (ok_active _ _ _ _ Hm1) En1)|]. split; [|split].
    + exists front, rec'. split_and!; [done|done|by eapply watches_sock].
    + exists (told (OnError p) (on_error ev) ++ new2). split; [by rewrite Ef2, (upd_fld _ _ _ _ U1), (assoc_L (++))|].
      rewrite messages_app, errors_app, Hq1, Hq2. destruct (on_error ev); (split; [done|]); [done|apply sublist_nil_l].
    + intros q Hq. rewrite Hs2 by set_solver. apply (upd_sock _ _ _ _ U1), not_elem_of_nil.
  - apply wpm_ret. split; [apply (peer_chain_next _ _ front p rest nd (ok_active _ _ _ _ Hm) En)|]. split_and!; [|exists []; rewrite app_nil_r; split_and!; [done|done|apply sublist_nil_l]|done].
    exists (front ++ [p]), rec. by rewrite <- (assoc_L (++)).
Qed.

(** ** Walking the list *)
Definition ready (X : gset Z) s (p : loc) : bool :=
  match sock s p with Some (f, _) => bool_decide (f ∈ X) | None => false end.

(** The callbacks of a walk along [rest], if select counted right. *)
Definition tells (X : gset Z) s (rest : list loc) (n : Z) (new : list event) : Prop :=
  Z.of_nat (length (filter (fun p => ready X s p) rest)) <= n ->
  messages new = (if on_message ev then filter (fun p => receives s p) (filter (fun p => ready X s p) rest) else []) /\
  errors new `sublist_of` filter (fun p => ready X s p) rest.

Lemma filter_sock (f : option (Z * Z) -> bool) s s' (rest : list loc) : (forall q, q ∈ rest -> sock s' q = sock s q) ->
  filter (fun p => f (sock s' p)) rest = filter (fun p => f (sock s p)) rest.
Proof. intros Hs. apply (filter_agree (fun p => f (sock s' p)) (fun p => f (sock s p))). intros q Hq. by rewrite Hs. Qed.

Lemma tells_sock X s s' rest n new : (forall q, q ∈ rest -> sock s' q = sock s q) -> tells X s' rest n new -> tells X s rest n new.
Proof.
  intros Hs. unfold tells. assert (filter (fun p => ready X s' p) rest = filter (fun p => ready X s p) rest) as ->.
  { by apply (filter_sock (fun x => match x with Some (f, _) => bool_decide (f ∈ X) | None => false end)). }
  assert (filter (fun p => receives s' p) (filter (fun p => ready X s p) rest) = filter (fun p => receives s p) (filter (fun p => ready X s p) rest)) as ->; [|done].
  apply (filter_sock (fun x => match x with Some (_, t) => (t =? MUGGLE_SOCKET_PEER_TYPE_TCP_PEER) || (t =? MUGGLE_SOCKET_PEER_TYPE_UDP_PEER) | None => false end)).
  intros q [_ Hq]%list_elem_of_filter. by apply Hs.
Qed.

Lemma tells_ready X s p rest n new1 new2 new3 : ready X s p = true ->
  messages new1 = (if receives s p then messages (told (OnMessage p) (on_message ev)) else []) -> errors new1 = [] ->
  messages new2 = [] -> errors new2 `sublist_of` [p] ->
  tells X s rest (n - 1) new3 -> tells X s (p :: rest) n (new1 ++ new2 ++ new3).
Proof.
  intros Hr Hm1 He1 Hm2 He2 Ht Hc. rewrite filter_cons, Hr in Hc. simpl in Hc. destruct Ht as [Hm3 He3]; [lia|].
  rewrite !messages_app, !errors_app, Hm1, Hm2, Hm3, He1. rewrite !(filter_cons _ p), !(decide_True (P := ready X s p)) by (by rewrite Hr). split.
  - rewrite filter_cons. destruct (receives s p); by destruct (on_message ev).
  - simpl. by apply (sublist_app _ [p]).
Qed.

Lemma tells_none X s rest n : n <= 0 -> tells X s rest n [].
Proof.
  intros Hn Hc. assert (filter (fun p => ready X s p) rest = []) as -> by (apply nil_length_inv; lia). by destruct (on_message ev).
Qed.

Lemma walk_serves r rest : select_input_ok r -> forall fuel front n l s rec, select_ok l s (front ++ rest) rec -> (length rest < fuel)%nat ->
  wpm (loopM fuel (select_step raw ev r) (first rest, n, l)) s
    (fun l' s' => (exists act' rec', select_ok l' s' act' rec') /\ exists new, fld s' = fld s ++ new /\ tells (rset r) s rest n new).
Proof.
  intros Hin. induction rest as [|p rest IH]; intros fuel front n l s rec Hok Hf; (destruct fuel as [|fuel]; [simpl in Hf; lia|]); apply wpm_loop_step.
  - apply wpm_ret. split; [by exists (front ++ []), rec|]. exists []. split; [by rewrite app_nil_r|]. intros _. by destruct (on_message ev).
  - unfold select_step. simpl first. pose proof Hok as (Hm & Hfix & Ha). destruct (node_cell _ _ _ p Hm) as [-> [nd En]]; [set_solver|].
    apply wpm_bind, (wpm_load _ nd); [done|]. apply wpm_bind, wpm_lift. destruct (w_peer _ _ _ Ha p) as (f & ty & Es & Hr & _); [set_solver|].
    assert (fd (peer nd) = f) as -> by (unfold sock in Es; rewrite En in Es; by injection Es).
    unfold FD_ISSET. rewrite bool_decide_true by done. apply wp_ret.
    assert (ready (rset r) s p = bool_decide (f ∈ rset r)) as Hrd by (unfold ready; by rewrite Es). destruct (bool_decide (f ∈ rset r)).
    + apply wpm_bind. eapply wpm_mono; [apply serve_grows; [done|done|set_solver]|]. intros l1 s1 (new1 & ((add & Hok1) & Ef1 & Hs1) & Hm1 & He1).
      rewrite (assoc_L (++)) in Hok1. apply wpm_bind. eapply wpm_mono; [eapply closed_goes_on; exact Hok1|].
      intros [node l2] s2 (Enode & (front' & rec' & Hok2) & (new2 & Ef2 & Hm2 & He2) & Hs2). simpl in Enode. subst node.
      assert (forall q, q ∈ rest -> sock s2 q = sock s q) as Hs by (intros q Hq; rewrite Hs2, Hs1; [done|set_solver|done]).
      destruct (Z.leb_spec (n - 1) 0).
      * apply wpm_ret. split; [eauto|]. exists (new1 ++ new2 ++ []). split; [by rewrite app_nil_r, Ef2, Ef1, (assoc_L (++))|].
        apply tells_ready; [done..|]. by apply tells_none.
      * apply wpm_ret. eapply wpm_mono; [apply (IH fuel front' (n - 1) l2 s2 rec'); [done|simpl in Hf; lia]|].
        intros l3 s3 (Hok3 & new3 & Ef3 & Ht3). split; [done|]. exists (new1 ++ new2 ++ new3). split; [by rewrite Ef3, Ef2, Ef1, !(assoc_L (++))|].
        apply tells_ready; [done..|]. by eapply tells_sock.
    + apply wpm_ret. rewrite (peer_chain_next _ _ front p rest nd (ok_active _ _ _ _ Hm) En).
      eapply wpm_mono; [apply (IH fuel (front ++ [p]) n l s rec); [by rewrite <- (assoc_L (++))|simpl in Hf; lia]|].
      intros l3 s3 (Hok3 & new3 & Ef3 & Ht3). split; [done|]. exists new3. split; [done|]. unfold tells. by rewrite filter_cons, Hrd.
Qed.

Lemma select_round_wp save r t1 l s act rec : select_input_ok r -> select_ok l s act rec -> (0 < timeout_ms ev -> is_Some t1) -> (timeout_ms ev < 0 \/ is_Some save) ->
  (ret_n (inp r) = 0 -> 0 < timeout_ms ev) ->
  wpm (select_round raw ev save r t1 l) s (fun x s' => (resumes ev watches x s' /\ (leaving (inp r) -> x = None)) /\
    exists new new', fld s' = fld s ++ new ++ new' /\ quiet new' /\ (0 < ret_n (inp r) -> tells (rset r) s act (ret_n (inp r)) new)).
Proof.
  intros Hin Hok Ht Hsave Hn. apply wpm_bind, wpm_lift.
  assert ((if timeout_ms ev <? 0 then Done tt else match save with Some _ => Done tt | None => Undef end) = Done tt) as ->.
  { destruct (Z.ltb_spec (timeout_ms ev) 0); [done|]. destruct Hsave as [?|[x ->]]; [lia|done]. }
  apply wp_ret. eapply loop_round_wp; [exact client|exact watches_sock|exact Hok|done|done|]. intros _. pose proof Hok as (Hm & _).
  destruct (peer_chain_first _ _ _ (ok_active _ _ _ _ Hm)) as (h & Eh & Hh). apply wpm_bind, wpm_bind, (wpm_load _ h); [done|]. apply wpm_ret. rewrite Hh.
  apply wpm_bind, wpm_count. apply (walk_serves r act Hin _ []) with (rec := rec); [done|]. by destruct (nodes_count s act rec Hm).
Qed.

Lemma watch_all_wp s act rec todo : forall fuel seen l, mgr_ok s act rec -> act = seen ++ todo -> watches l s seen ->
  (forall q, q ∈ act -> exists f t, sock s q = Some (f, t) /\ 0 <= f < FD_SETSIZE) -> (length todo < fuel)%nat ->
  wpm (watch_all fuel (first todo) l) s (fun l' s' => s' = s /\ watches l' s act).
Proof.
  induction todo as [|p todo IH]; intros fuel seen l Hm -> Hw Hfd Hf; (destruct fuel as [|fuel]; [simpl in Hf; lia|]); simpl.
  - apply wpm_ret. by rewrite app_nil_r.
  - destruct (node_cell _ _ _ p Hm) as [-> [n En]]; [set_solver|]. apply wpm_bind, (wpm_load _ n); [done|].
    destruct (Hfd p) as (f & ty & Es & Hr); [set_solver|]. assert (fd (peer n) = f) as -> by (unfold sock in Es; rewrite En in Es; by injection Es).
    apply wpm_bind, wpm_lift. eapply wp_mono; [by eapply (watch_ok l s seen p)|]. intros l1 [Hw1 Hw2].
    rewrite (peer_chain_next _ _ seen p todo n (ok_active _ _ _ _ Hm) En).
    apply (IH fuel (seen ++ [p])); [done|by rewrite <- (assoc_L (++))| |done|simpl in Hf; lia]. split.
    + intros q Hq. apply Hw1. set_solver.
    + intros g Hg. destruct (Hw2 g Hg) as (q & ty' & Hq & E). exists q, ty'. split; [set_solver|done].
Qed.

Lemma select_wp start rs s act rec : mgr_ok s act rec -> fixed (ar s) -> timeout_ms ev <> 0 ->
  (forall q, q ∈ act -> exists f t, sock s q = Some (f, t) /\ 0 <= f < FD_SETSIZE) ->
  Forall (fun r => select_input_ok r /\ (ret_n (inp r) = 0 -> 0 < timeout_ms ev)) rs -> Exists (fun r => leaving (inp r)) rs ->
  wpm (muggle_socket_event_select raw ev start rs) s (fun _ s' => returned s').
Proof.
  intros Hm Hf Ht0 Hfd Hrs Hend. unfold muggle_socket_event_select. destruct (peer_chain_first _ _ _ (ok_active _ _ _ _ Hm)) as (h & Eh & Hh).
  apply wpm_bind, wpm_bind, (wpm_load _ h); [done|]. apply wpm_ret. rewrite Hh. apply wpm_bind, wpm_count. apply wpm_bind.
  eapply wpm_mono; [apply (watch_all_wp s act rec act _ []); [done|done|by split; set_solver|done|by destruct (nodes_count s act rec Hm)]|].
  intros l s' [-> Hw]. eapply wpm_mono; [eapply (run_rounds_wp ev watches _ _ (fun r => leaving (inp r)) rs); [|exact Hrs|done|done|]|].
  - intros r t1 l1 s1 act1 rec1 [Hin Hr] Hok1 Ht1. eapply wpm_mono; [eapply select_round_wp; [done|done|done| |done]|by intros x s' [? _]].
    destruct (Z.gtb_spec (timeout_ms ev) 0); [by right|left; lia].
  - intros Ht. destruct (Z.gtb_spec (timeout_ms ev) 0); [done|lia].
  - intros ? s' ?. by left.
Qed.

(** C38: in a round of the loop over select, every stream or datagram peer whose
    descriptor select reported gets exactly one on_message, in the order of the
    active list, and nobody else gets one, although the list is walked while new
    connections are linked into it and closed peers are unlinked and freed; of the
    peers reported nobody gets two on_error, and no other peer gets one.  Afterwards
    the set again holds only descriptors of active peers, below nfds, and the loop
    ends when it is told to.  This is so when the timeout is not 0, when the
    descriptors of the peers and of the connections accepted are below FD_SETSIZE,
    when the callbacks change nothing but the status and the counts of peers, when
    the calls of accept on each listener come to one that would block (without one,
    refusing connections does not end), when without on_message recv comes to an
    end, and when select counted the descriptors right. *)
Theorem select_round_serves save r t1 l s act rec : select_input_ok r ->
  select_ok l s act rec -> (0 < timeout_ms ev -> is_Some t1) -> (timeout_ms ev < 0 \/ is_Some save) ->
  let reported := filter (fun p => ready (rset r) s p) act in
  0 < ret_n (inp r) -> Z.of_nat (length reported) <= ret_n (inp r) ->
  wpm (select_round raw ev save r t1 l) s (fun x s' => resumes ev watches x s' /\ (to_exit (inp r) = true -> x = None) /\
    exists new, fld s' = fld s ++ new /\
    (is_Some (on_message ev) -> messages new = filter (fun p => receives s p) reported) /\ NoDup (messages new) /\
    errors new ⊆ reported /\ NoDup (errors new)).
Proof.
  intros Hin Hok Ht Hsave reported Hp Hc. eapply wpm_mono; [apply (select_round_wp save r t1 l s act rec); [done..|lia]|].
  intros x s' ([Hr Hx] & new & new' & Ef & [Hq1 Hq2] & Hnew). split; [done|]. split; [intros He; apply Hx; left; split; [lia|done]|].
  exists (new ++ new'). split; [done|]. destruct (Hnew Hp Hc) as [Hm He]. fold reported in Hm, He.
  assert (NoDup reported) as Hnd.
  { apply list.NoDup_filter. destruct Hok as ([] & _). simpl in ok_nodup0.
    apply list.NoDup_cons in ok_nodup0 as [_ Hnd]. apply list.NoDup_cons in Hnd as [_ Hnd]. by apply list.NoDup_app in Hnd as [? _]. }
  rewrite messages_app, errors_app, Hq1, Hq2, !app_nil_r, Hm. split_and!; [by intros [c ->]| | |by eapply sublist_NoDup].
  - destruct (on_message ev); [|constructor]. by apply list.NoDup_filter.
  - intros q Hq. by eapply elem_of_submseteq, sublist_submseteq.
Qed.
End proofs.

(** The first stream has data and a client connects. *)
Definition sample_locals : locals := mkl {[3; 5; 6]} 6.
Definition sample_round (f : Z) : round :=
  mkr (mkin 2 0 (fun _ => [(f, 0); (-1, MUGGLE_SYS_ERRNO_WOULDBLOCK)]) (fun _ => []) (mkts 1 0) false) {[3; 5]}.
Definition sample_run (ev : muggle_socket_event (gset Z)) (save : option (Z * Z)) (f : Z) :=
  @select_round _ (bounded_malloc 0) (malloc_zeroed []) (malloc_zeroed (MemoryPool.blk 0 0)) (malloc_zeroed 0) zero_node ev save
    (sample_round f) (Some (mkts 0 0)) sample_locals sample_mgr.

Lemma select_sample_ok : @loop_ok _ (bounded_malloc 0) _ watches sample_locals sample_mgr sample_nodes [].
Proof.
  pose proof sample_init_nodes as Hi. apply memmgr_init_ok in Hi as (Hok & Hf & _); [|lia|done].
  assert (sock sample_mgr (LPool 0 368) = Some (6, 2)) as E6 by (vm_compute; reflexivity).
  assert (sock sample_mgr (LPool 0 184) = Some (5, 2)) as E5 by (vm_compute; reflexivity).
  assert (sock sample_mgr (LPool 0 0) = Some (3, 1)) as E3 by (vm_compute; reflexivity). split_and!; [done|done|]. split.
  - intros q Hq. unfold sample_nodes in Hq. rewrite !elem_of_cons, elem_of_nil in Hq.
    destruct Hq as [->|[->|[->|[]]]]; [exists 6, 2; split; [exact E6|]|exists 5, 2; split; [exact E5|]|exists 3, 1; split; [exact E3|]]; unfold FD_SETSIZE; simpl; lia.
  - intros f Hf'. simpl in Hf'. rewrite !elem_of_union, !elem_of_singleton in Hf'.
    destruct Hf' as [[->| ->]| ->]; [exists (LPool 0 0), 1; split; [|exact E3]|exists (LPool 0 184), 2; split; [|exact E5]|exists (LPool 0 368), 2; split; [|exact E6]];
      unfold sample_nodes; clear; set_solver.
Qed.

Lemma sample_select_input f : 0 <= f < FD_SETSIZE -> select_input_ok sample_ev (sample_round f).
Proof.
  intros Hf. split; [split; [|done]|]; intros p; [right; left; by split|]. constructor; [by right|]. constructor; [by left|constructor].
Qed.

Lemma select_round_serves_witness : exists x s, sample_run sample_ev (Some (1, 0)) 7 = Done (x, s) /\ messages (fld s) = [LPool 0 184].
Proof.
  pose proof (@select_round_serves _ (bounded_malloc 0) (malloc_zeroed []) (malloc_zeroed (MemoryPool.blk 0 0)) (malloc_zeroed 0) zero_node sample_ev
    sample_client (Some (1, 0)) (sample_round 7) (Some (mkts 0 0)) sample_locals sample_mgr sample_nodes []
    (sample_select_input 7 ltac:(unfold FD_SETSIZE; lia)) select_sample_ok ltac:(done) ltac:(by right) ltac:(reflexivity) ltac:(vm_compute; discriminate)) as Hw.
  destruct (proj1 (wpm_Done _ _ _) Hw) as (x & s & E & _ & _ & new & Ef & Hm & _). exists x, s. split; [exact E|].
  assert (fld sample_mgr = []) as E0 by (vm_compute; reflexivity). rewrite Ef, E0. simpl app. rewrite Hm by done. vm_compute. reflexivity.
Defined.

(** A connection whose descriptor has no place in the set is written behind it. *)
Example select_descriptor_out_of_range : sample_run sample_ev (Some (1, 0)) 1024 = Undef.
Proof. vm_compute. reflexivity. Qed.

(** With a timeout of 0 the saved timeout is read before it was written. *)
Example select_timeout_zero : sample_run (mkev 4 0 None None None None true) None 7 = Undef.
Proof. reflexivity. Qed.
End SocketEventSelect.
