(* ===== verification/SocketEventEpoll.v ===== *)
(** muggle/c/net/event/socket_event_epoll.c: the event loop over epoll.  The nodes
    that are registered are the active peers, so that the pointers epoll_wait gives
    back are nodes that are still there. *)

From stdpp Require Import base gmap sets list numbers.
From Stdlib Require Import ZArith Lia.
From S2P Require Import Prelude Dsaa MemoryPool NodeMem DList SocketPeer SocketMemmgr SocketEvent.
Import MemoryPool(block, muggle_memory_pool).
Import SocketPeer(muggle_socket_peer, fd, status, peer_type, set_ev, muggle_socket_peer_close, MUGGLE_SYS_ERRNO_WOULDBLOCK, MUGGLE_INVALID_SOCKET,
  MUGGLE_SOCKET_PEER_TYPE_TCP_LISTEN, MUGGLE_SOCKET_PEER_TYPE_TCP_PEER, MUGGLE_SOCKET_PEER_TYPE_UDP_PEER, MUGGLE_SOCKET_PEER_STATUS_CLOSED).
Import SocketMemmgr SocketEvent.

Open Scope Z_scope.

Module SocketEventEpoll.

Definition EPOLLIN : Z := 1.
Definition EPOLLERR : Z := 8.
Definition EPOLLHUP : Z := 16.

(** [struct epoll_event]: the node and the events. *)
Notation epoll_event := (loc * Z)%type.

(** The nodes registered with the epoll instance, and the counter. *)
Record locals := mkl {
  interest : gset loc;
  cnt_fd : Z
}.

(** What comes from outside in a round: also the entries that epoll_wait writes, by
    the nodes that are registered, and the nodes and descriptors that epoll_ctl
    refuses to add. *)
Record round := mkr {
  inp : input;
  ret_epevs : gset loc -> list epoll_event;
  ctl_fails : loc -> Z -> bool
}.

Section ops.
Context {H : Type} `{!NodeMalloc H}.
Context `{Malloc (list Z)} `{Malloc block} `{Malloc Z} `{Malloc epoll_event}.
Context (raw : muggle_socket_peer_list_node).
Context (ev : muggle_socket_event H).
Notation MM := (@MM H).

(** [fuel] bounds the rounds: each but the last takes a connection, one of
    [results], which are what accept returns on this listener. *)
Fixpoint muggle_socket_event_epoll_listen (fuel : nat) (ctl_fails : loc -> Z -> bool) (listen_peer : loc) (results : list (Z * Z)) (l : locals)
  : MM (list (Z * Z) * locals) :=
  match fuel with
  | O => fun _ => NoFuel
  | S fuel =>
      if cnt_fd l =? capacity ev then
        results ← muggle_socket_event_refuse_accept listen_peer results; mret (results, l)
      else
        node ← muggle_socket_event_memmgr_allocate raw;
        if is_null node then
          results ← muggle_socket_event_refuse_accept listen_peer results; mret (results, l)
        else
          results ← muggle_socket_event_accept listen_peer node results;
          n ← load node;
          if fd (peer n) =? MUGGLE_INVALID_SOCKET then
            muggle_socket_event_memmgr_free node;; mret (results, l)
          else if ctl_fails node (fd (peer n)) then
            muggle_socket_event_memmgr_recycle node;;
            muggle_socket_event_epoll_listen fuel ctl_fails listen_peer results l
          else
            let l := mkl ({[node]} ∪ interest l) (i32 (cnt_fd l + 1)) in
            modify_peer node (set_ev (Some (on_close ev)));;
            call (OnConnect node) ((fun c => c listen_peer node) <$> on_connect ev);;
            muggle_socket_event_epoll_listen fuel ctl_fails listen_peer results l
  end.

(** The events of an entry. *)
Definition epoll_serve (r : round) (e : epoll_event) (l : locals) : MM locals :=
  let (node, events) := e in
  if negb (Z.land events EPOLLIN =? 0) then
    nd ← load node;
    let t := peer_type (peer nd) in
    if t =? MUGGLE_SOCKET_PEER_TYPE_TCP_LISTEN then
      let results := accepts (inp r) node in
      x ← muggle_socket_event_epoll_listen (S (length results)) (ctl_fails r) node results l;
      mret (x : list (Z * Z) * locals).2
    else if (t =? MUGGLE_SOCKET_PEER_TYPE_TCP_PEER) || (t =? MUGGLE_SOCKET_PEER_TYPE_UDP_PEER) then
      muggle_socket_event_on_message ev node (recvs (inp r) node);;
      mret l
    else mret l
  else if negb (Z.land events (Z.lor EPOLLERR EPOLLHUP) =? 0) then
    modify_peer node muggle_socket_peer_close;;
    mret l
  else mret l.

(** A closed peer leaves the loop. *)
Definition epoll_closed (node : loc) (l : locals) : MM locals :=
  nd ← load node;
  if status (peer nd) =? MUGGLE_SOCKET_PEER_STATUS_CLOSED then
    call (OnError node) ((fun c => c node) <$> on_error ev);;
    muggle_socket_event_memmgr_recycle node;;
    mret (mkl (interest l ∖ {[node]}) (i32 (cnt_fd l - 1)))
  else mret l.

(** [for (int i = 0; i < n; ++i)]. *)
Fixpoint epoll_entries (r : round) (es : list epoll_event) (l : locals) : MM locals :=
  match es with
  | [] => mret l
  | e :: es =>
      l ← epoll_serve r e l;
      l ← epoll_closed (e : epoll_event).1 l;
      epoll_entries r es l
  end.

Definition epoll_round (r : round) (t1 : option timespec) (l : locals) : MM (option (option timespec * locals)) :=
  loop_round ev (inp r) (epoll_entries r (take (Z.to_nat (ret_n (inp r))) (ret_epevs r (interest l))) l) t1 l.

(** The loop that registers the active peers. *)
Fixpoint epoll_add_all (fuel : nat) (ctl_fails : loc -> Z -> bool) (node : loc) (l : locals) : MM locals :=
  match fuel with
  | O => fun _ => NoFuel
  | S fuel =>
      if is_null node then mret l
      else
        nd ← load node;
        if ctl_fails node (fd (peer nd)) then
          let next_node := node_next nd in
          muggle_socket_event_memmgr_recycle node;;
          epoll_add_all fuel ctl_fails next_node l
        else
          epoll_add_all fuel ctl_fails (node_next nd) (mkl ({[node]} ∪ interest l) (i32 (cnt_fd l + 1)))
  end.

(** [created] is whether epoll_create gave a descriptor, [garbage] what [cnt_fd]
    holds: it is not initialised; [releases] are the counts that destroy sees. *)
Definition muggle_socket_event_epoll (releases : loc -> list Z) (created : bool) (garbage : Z) (fails : loc -> Z -> bool)
    (start : timespec) (rs : list round) : MM unit :=
  match (malloc_array 12 (capacity ev) : option (list epoll_event)) with
  | None => muggle_socket_event_memmgr_destroy releases
  | Some _ =>
      if negb created then muggle_socket_event_memmgr_destroy releases
      else
        node ← muggle_socket_event_memmgr_get_node;
        c ← count;
        l ← epoll_add_all (S c) fails node (mkl ∅ garbage);
        run_rounds epoll_round rs (if timeout_ms ev >? 0 then Some start else None) l
  end.
End ops.

Section proofs.
Context {H : Type} `{!NodeMalloc H}.
Context `{Malloc (list Z)} `{Malloc block} `{Malloc Z} `{Malloc epoll_event}.
Context (raw : muggle_socket_peer_list_node).
Context (ev : muggle_socket_event H).
Implicit Types (s : @mgr H) (l : locals) (act rec : list loc).
Notation mgr_ok s act rec := (nodes_ok s [] act rec).

(** The registered nodes are the active peers. *)
Definition registered l s act : Prop := forall p, p ∈ interest l <-> p ∈ act.
Notation epoll_ok := (loop_ok registered).

Lemma registered_sock l s s' act : (forall q, q ∈ act -> sock s' q = sock s q) -> registered l s act -> registered l s' act.
Proof. done. Qed.

Hypothesis client : client_ok ev.

(** The peers of [act] other than [p] stay, with their sockets. *)
Definition stays (p : option loc) s act s' act' : Prop :=
  forall q, q ∈ act -> Some q <> p -> q ∈ act' /\ sock s' q = sock s q.

Definition ends (p : option loc) s act l' s' (new : list event) : Prop :=
  (exists act' rec', epoll_ok l' s' act' rec' /\ stays p s act s' act') /\ fld s' = fld s ++ new.

Lemma stays_trans p s1 act1 s2 act2 s3 act3 : stays None s1 act1 s2 act2 -> stays p s2 act2 s3 act3 -> stays p s1 act1 s3 act3.
Proof. intros A B q Hq Hp. destruct (A q Hq) as [Hq2 E2]; [done|]. destruct (B q Hq2 Hp) as [Hq3 E3]. split; [done|congruence]. Qed.

Lemma ends_upd new l s s' act rec : upd [] new s s' -> epoll_ok l s act rec -> ends None s act l s' new.
Proof.
  intros U Hok. split; [|apply (upd_fld _ _ _ _ U)]. exists act, rec. split; [eapply loop_ok_upd; [exact registered_sock|done|done]|].
  intros q Hq _. split; [done|]. apply (upd_sock _ _ _ _ U), not_elem_of_nil.
Qed.

Lemma ends_trans p s act l1 s1 l2 s2 new1 new2 act1 : stays None s act s1 act1 -> fld s1 = fld s ++ new1 ->
  ends p s1 act1 l2 s2 new2 -> ends p s act l2 s2 (new1 ++ new2).
Proof.
  intros Hs Ef ((act2 & rec2 & Hok2 & Hs2) & Ef2). split; [|by rewrite Ef2, Ef, (assoc_L (++))]. exists act2, rec2. split; [done|]. by eapply stays_trans.
Qed.

Lemma same_sock_stays s s' act act' : act ⊆ act' -> (forall q, q ∈ act -> sock s' q = sock s q) -> stays None s act s' act'.
Proof. intros Hsub Hs q Hq _. split; [by apply Hsub|by apply Hs]. Qed.

Lemma refuse_ends lp results l s act rec : epoll_ok l s act rec -> lp ∈ act -> Exists would_block results ->
  wpm (results' ← muggle_socket_event_refuse_accept lp results; mret (results', l)) s
    (fun x s' => exists new, ends None s act x.2 s' new /\ quiet new).
Proof.
  intros Hok Hlp Hw. apply wpm_bind. eapply wpm_mono; [apply refuse_accept_wp; [by eapply live_active; [apply Hok|]|done]|].
  intros res s' (new & U & Hq). apply wpm_ret. exists new. split; [by eapply ends_upd|done].
Qed.

Lemma epoll_listen_ends lp fuel fails : forall results l s act rec, epoll_ok l s act rec -> lp ∈ act ->
  Exists would_block results -> (length results < fuel)%nat ->
  wpm (muggle_socket_event_epoll_listen raw ev fuel fails lp results l) s (fun x s' => exists new, ends None s act x.2 s' new /\ quiet new).
Proof.
  induction fuel as [|fuel IH]; intros results l s act rec Hok Hlp Hw Hf; [lia|]. simpl. pose proof Hok as (Hm & Hfix & Ha).
  destruct (Z.eqb_spec (cnt_fd l) (capacity ev)) as [Ec|Ec]; [by eapply refuse_ends|].
  apply wpm_bind. eapply wpm_mono; [by apply (allocate_loop raw s act rec)|]. intros p s1 (Hf1 & Ef1 & Hs1 & Hm1). destruct (is_null p).
  - eapply wpm_mono; [eapply (refuse_ends lp results l s1 act rec); [split_and!; done|done|done]|]. intros x s2 (new & He & Hq). exists new. split; [|done].
    eapply (ends_trans None s act l s1 _ _ [] new); [by apply same_sock_stays|by rewrite app_nil_r|done].
  - apply wpm_bind. eapply wpm_mono; [by apply (accept_loop lp p results s1 act rec)|]. intros res s2 (Hm2 & Hf2 & Ef2 & Hs2 & _ & n & En & Hres).
    assert (forall q, q ∈ act -> sock s2 q = sock s q) as Hs by (intros q Hq; rewrite Hs2, Hs1; done).
    apply wpm_bind, (wpm_load _ n); [done|]. destruct (Z.eqb_spec (fd (peer n)) MUGGLE_INVALID_SOCKET) as [|Hfd].
    + apply wpm_bind. eapply wpm_mono; [by apply (free_loop p s2 act rec)|]. intros _ s3 (Hm3 & Hf3 & Ef3 & Hs3). apply wpm_ret. exists []. split; [|done].
      split; [|rewrite app_nil_r; congruence]. exists act, rec. split; [split_and!; done|]. apply same_sock_stays; [done|]. intros q Hq. rewrite Hs3, Hs; done.
    + destruct Hres as [?|(Hres & Hw' & _)]; [done|]. destruct (fails p (fd (peer n))).
      * apply wpm_bind. eapply wpm_mono; [by apply (recycle_loop p s2 [] act rec)|]. intros _ s3 ((rec3 & Hm3) & Hf3 & (new3 & Ef3 & Hq3) & Hs3).
        eapply wpm_mono; [apply (IH res l s3 act rec3); [split_and!; done|done|done|lia]|]. intros x s4 (new4 & He & Hq4).
        exists (new3 ++ new4). split; [|by apply quiet_app]. eapply (ends_trans None s act l s3); [apply same_sock_stays; [done|]|congruence|exact He].
        intros q Hq. rewrite Hs3, Hs; done.
      * cbv zeta. apply wpm_bind. eapply (modify_peer_upd [] p _ s2 s2 []); [apply upd_refl|by exists n|right; by intros []|]. intros s2' _ Uev _ _.
        apply wpm_bind. eapply wpm_mono; [apply connect_wp; [done|by eapply upd_live; [exact Uev|exists n]]|]. intros ? s3 Uc.
        pose proof (upd_trans _ _ _ _ _ _ Uev Uc : upd [] (told _ _) s2 s3) as U3.
        set (l2 := mkl _ _). assert (epoll_ok l2 s2 (p :: act) rec) as Hok2.
        { split_and!; [done|done|]. intros q. unfold l2. simpl. rewrite elem_of_union, elem_of_singleton, (Ha q), elem_of_cons. done. }
        eapply wpm_mono; [apply (IH res l2 s3 (p :: act) rec); [eapply loop_ok_upd; [exact registered_sock|exact U3|exact Hok2]|by right|done|lia]|].
        intros x s4 (new4 & He & Hq4). exists (told (OnConnect p) (on_connect ev) ++ new4). split; [|apply quiet_app; [by destruct (on_connect ev)|done]].
        eapply (ends_trans None s act l2 s3); [apply same_sock_stays|by rewrite (upd_fld _ _ _ _ U3), Ef2, Ef1|exact He]; [set_solver|].
        intros q Hq. rewrite <- Hs by done. apply (upd_sock _ _ _ _ U3), not_elem_of_nil.
Qed.

#[local] Arguments muggle_socket_event_epoll_listen : simpl never.

(** ** Serving the entries *)
Definition readable (e : epoll_event) : bool := negb (Z.land e.2 EPOLLIN =? 0).
Definition hung (e : epoll_event) : bool := negb (readable e) && negb (Z.land e.2 (Z.lor EPOLLERR EPOLLHUP) =? 0).

Lemma serve_ends r e l s act rec : input_ok ev (inp r) -> epoll_ok l s act rec -> e.1 ∈ act ->
  wpm (epoll_serve raw ev r e l) s (fun l' s' => exists new, ends None s act l' s' new /\
    messages new = (if readable e && receives s e.1 then messages (told (OnMessage e.1) (on_message ev)) else []) /\ errors new = [] /\
    (hung e = true -> is_closed s' e.1 = true)).
Proof.
  destruct e as [p es]. simpl. intros Hin Hok Hp. pose proof Hok as (Hm & Hfix & Ha). destruct (live_active _ _ _ _ Hm Hp) as [nd En].
  assert (receives s p = (peer_type (peer nd) =? MUGGLE_SOCKET_PEER_TYPE_TCP_PEER) || (peer_type (peer nd) =? MUGGLE_SOCKET_PEER_TYPE_UDP_PEER)) as ->
    by (unfold receives, sock; by rewrite En).
  unfold hung, readable. simpl. destruct (Z.land es EPOLLIN =? 0); simpl.
  - destruct (Z.land es (Z.lor EPOLLERR EPOLLHUP) =? 0); simpl.
    + apply wpm_ret. exists []. split; [eapply ends_upd; [apply upd_refl|done]|done].
    + apply wpm_bind. eapply modify_peer_upd; [apply (upd_refl [])|by exists nd|right; by intros []|]. intros s' pr U _ Hpr. apply wpm_ret. exists [].
      split; [by eapply ends_upd|]. split_and!; [done|done|]. intros _. unfold is_closed. by rewrite Hpr.
  - apply wpm_bind, (wpm_load _ nd); [done|]. destruct (Z.eqb_spec (peer_type (peer nd)) MUGGLE_SOCKET_PEER_TYPE_TCP_LISTEN) as [->|Ht].
    + apply wpm_bind. eapply wpm_mono; [eapply (epoll_listen_ends p); [done|done|apply Hin|lia]|].
      intros x s' (new & He & Hq1 & Hq2). apply wpm_ret. by exists new.
    + destruct (_ || _).
      * apply wpm_bind. eapply wpm_mono; [apply on_message_wp; [done|by exists nd|intros Hno; by eapply recvs_end]|]. intros ? s' U. apply wpm_ret. eexists.
        split; [eapply ends_upd; [exact U|done]|]. split_and!; [done|by destruct (on_message ev)|done].
      * apply wpm_ret. exists []. split; [eapply ends_upd; [apply upd_refl|done]|done].
Qed.

Lemma closed_ends p l s act rec : epoll_ok l s act rec -> p ∈ act ->
  wpm (epoll_closed ev p l) s (fun l' s' => exists new, ends (Some p) s act l' s' new /\ messages new = [] /\
    errors new = if is_closed s p then errors (told (OnError p) (on_error ev)) else []).
Proof.
  intros Hok Hp. pose proof Hok as (Hm & Hfix & Ha). destruct (live_active _ _ _ _ Hm Hp) as [nd En].
  apply wpm_bind, (wpm_load _ nd); [done|].
  assert (is_closed s p = (status (peer nd) =? MUGGLE_SOCKET_PEER_STATUS_CLOSED)) as -> by (unfold is_closed, peer_of; by rewrite En).
  destruct (_ =? _).
  - apply wpm_bind. eapply wpm_mono; [apply error_wp; [done|by exists nd]|]. intros ? s1 U1.
    pose proof (loop_ok_upd registered registered_sock _ _ _ _ _ _ U1 Hok) as (Hm1 & Hf1 & Ha1). apply list_elem_of_split in Hp as (act1 & act2 & ->).
    apply wpm_bind. eapply wpm_mono; [by apply (recycle_loop p s1 act1 act2 rec)|].
    intros _ s2 ((rec' & Hm2) & Hf2 & (new2 & Ef2 & [Hq1 Hq2]) & Hs2). apply wpm_ret. exists (told (OnError p) (on_error ev) ++ new2).
    split; [|rewrite messages_app, errors_app, Hq1, Hq2, !app_nil_r; split; [by destruct (on_error ev)|done]].
    split; [|by rewrite Ef2, (upd_fld _ _ _ _ U1), (assoc_L (++))]. exists (act1 ++ act2), rec'. split.
    + split_and!; [done|done|]. intros q. simpl. pose proof (active_NoDup _ _ _ _ _ Hm) as Hn.
      rewrite elem_of_difference, elem_of_singleton, (Ha q), !elem_of_app, elem_of_cons. rewrite elem_of_app in Hn. split; [tauto|].
      intros Hq. split; [tauto|]. by intros ->.
    + intros q Hq Hqp. assert (q ∈ act1 ++ act2) as Hq' by (rewrite elem_of_app, elem_of_cons in Hq; rewrite elem_of_app; naive_solver).
      split; [done|]. rewrite Hs2 by done. apply (upd_sock _ _ _ _ U1), not_elem_of_nil.
  - apply wpm_ret. exists []. split; [|done]. split; [|by rewrite app_nil_r]. by exists act, rec.
Qed.

(** The callbacks for the entries [es]. *)
Definition tells s (es : list epoll_event) (new : list event) : Prop :=
  messages new = (if on_message ev then filter (fun p => receives s p) (filter (fun e => readable e) es).*1 else []) /\
  (is_Some (on_error ev) -> (filter (fun e => hung e) es).*1 `sublist_of` errors new) /\ errors new `sublist_of` es.*1.

Lemma tells_cons s e es new1 new2 new3 (b : bool) s2 : (forall q, q ∈ es.*1 -> sock s2 q = sock s q) ->
  messages new1 = (if readable e && receives s e.1 then messages (told (OnMessage e.1) (on_message ev)) else []) -> errors new1 = [] ->
  messages new2 = [] -> errors new2 = (if b then errors (told (OnError e.1) (on_error ev)) else []) -> (hung e = true -> b = true) ->
  tells s2 es new3 -> tells s (e :: es) (new1 ++ new2 ++ new3).
Proof.
  intros Hs Hm1 He1 Hm2 He2 Hb (Hm3 & He3 & Hs3). split_and!.
  - rewrite !messages_app, Hm1, Hm2, Hm3, filter_cons.
    assert (filter (fun p => receives s2 p) (filter (fun e => readable e) es).*1 = filter (fun p => receives s p) (filter (fun e => readable e) es).*1) as ->.
    { apply (filter_agree (receives s2) (receives s)). intros q Hq. unfold receives. rewrite Hs; [done|].
      apply list_elem_of_fmap in Hq as (x & -> & [_ Hx]%list_elem_of_filter). by apply list_elem_of_fmap_2. }
    destruct (readable e); simpl; [|done]. rewrite filter_cons. destruct (receives s e.1); by destruct (on_message ev).
  - intros Hs'. specialize (He3 Hs'). destruct Hs' as [c Ec]. rewrite !errors_app, He1, He2, Ec, filter_cons. simpl. destruct (hung e); simpl.
    + rewrite Hb by done. by apply sublist_skip.
    + by apply sublist_inserts_l.
  - rewrite !errors_app, He1, He2. simpl. apply (sublist_app _ [e.1]); [|done].
    destruct b; [|apply sublist_nil_l]. destruct (on_error ev); [done|apply sublist_nil_l].
Qed.

Lemma entries_end r es : input_ok ev (inp r) -> forall l s act rec, epoll_ok l s act rec -> es.*1 ⊆ act -> NoDup es.*1 ->
  wpm (epoll_entries raw ev r es l) s
    (fun l' s' => (exists act' rec', epoll_ok l' s' act' rec') /\ exists new, fld s' = fld s ++ new /\ tells s es new).
Proof.
  intros Hin. induction es as [|e es IH]; intros l s act rec Hok Hsub Hnd; simpl.
  - apply wpm_ret. split; [eauto|]. exists []. split; [by rewrite app_nil_r|]. split_and!; [by destruct (on_message ev)|done|done].
  - simpl in *. apply list.NoDup_cons in Hnd as [Hne Hnd].
    apply wpm_bind. eapply wpm_mono; [eapply (serve_ends r e); [done|done|apply Hsub; left]|].
    intros l1 s1 (new1 & ((act1 & rec1 & Hok1 & Hst1) & Ef1) & Hm1 & He1 & Hh).
    assert (e.1 ∈ act1) as Hp1 by (apply (Hst1 e.1); [apply Hsub; left|done]).
    apply wpm_bind. eapply wpm_mono; [by eapply closed_ends|]. intros l2 s2 (new2 & ((act2 & rec2 & Hok2 & Hst2) & Ef2) & Hm2 & He2).
    pose proof (stays_trans _ _ _ _ _ _ _ Hst1 Hst2) as Hst.
    assert (forall q, q ∈ es.*1 -> q ∈ act2 /\ sock s2 q = sock s q) as Hq by (intros q Hq; apply Hst; [apply Hsub; by right|intros [= ->]; done]).
    eapply wpm_mono; [apply (IH l2 s2 act2 rec2 Hok2); [intros q Hq'; by apply Hq|done]|].
    intros l3 s3 (Hok3 & new3 & Ef3 & Ht3). split; [done|]. exists (new1 ++ new2 ++ new3). split; [by rewrite Ef3, Ef2, Ef1, !(assoc_L (++))|].
    eapply (tells_cons s e es new1 new2 new3 _ s2); [intros q Hq'; by apply Hq|done..].
Qed.

(** epoll_wait reports nodes that are registered, each in one entry. *)
Definition waits (r : round) : Prop :=
  forall X, (forall p, p ∈ (ret_epevs r X).*1 -> p ∈ X) /\ NoDup (ret_epevs r X).*1.

Lemma epoll_round_wp r t1 l s act rec : input_ok ev (inp r) -> epoll_ok l s act rec -> (0 < timeout_ms ev -> is_Some t1) -> (ret_n (inp r) = 0 -> 0 < timeout_ms ev) ->
  waits r ->
  let es := take (Z.to_nat (ret_n (inp r))) (ret_epevs r (interest l)) in
  wpm (epoll_round raw ev r t1 l) s (fun x s' => (resumes ev registered x s' /\ (leaving (inp r) -> x = None)) /\
    exists new new', fld s' = fld s ++ new ++ new' /\ quiet new' /\ (0 < ret_n (inp r) -> tells s es new)).
Proof.
  intros Hi Hok Ht Hn Hw es. eapply loop_round_wp; [exact client|exact registered_sock|exact Hok|done|done|]. intros _.
  destruct (Hw (interest l)) as [Hin Hnd]. pose proof Hok as (_ & _ & Ha).
  assert (es.*1 `sublist_of` (ret_epevs r (interest l)).*1) as Hsub by (unfold es; rewrite fmap_take; apply sublist_take).
  eapply entries_end; [done|done| |by eapply sublist_NoDup]. intros p Hp. apply Ha, Hin. by eapply elem_of_submseteq, sublist_submseteq.
Qed.

(** ** The loop *)
Lemma add_all_wp fails todo : forall fuel s seen l rec, mgr_ok s (seen ++ todo) rec -> fixed (ar s) -> registered l s seen -> (length todo < fuel)%nat ->
  wpm (epoll_add_all fuel fails (first todo) l) s (fun l' s' => exists act' rec', epoll_ok l' s' act' rec').
Proof.
  induction todo as [|p todo IH]; intros fuel s seen l rec Hm Hf Hr Hl; (destruct fuel as [|fuel]; [simpl in Hl; lia|]); simpl.
  - apply wpm_ret. exists seen, rec. rewrite app_nil_r in Hm. by split_and!.
  - destruct (node_cell _ _ _ p Hm) as [-> [n En]]; [set_solver|].
    pose proof (peer_chain_next _ _ seen p todo n (ok_active _ _ _ _ Hm) En) as Hn.
    apply wpm_bind, (wpm_load _ n); [done|]. destruct (fails p (fd (peer n))).
    + cbv zeta. rewrite Hn. apply wpm_bind. eapply wpm_mono; [by apply (recycle_loop p s seen todo rec)|].
      intros _ s1 ((rec1 & Hm1) & Hf1 & _). apply (IH fuel s1 seen l rec1); [done|done|done|simpl in Hl; lia].
    + rewrite Hn.
      apply (IH fuel s (seen ++ [p]) _ rec); [by rewrite <- (assoc_L (++))|done| |simpl in Hl; lia].
      intros q. simpl. rewrite elem_of_union, elem_of_singleton, (Hr q), elem_of_app, list_elem_of_singleton. tauto.
Qed.


Lemma epoll_wp releases created garbage fails start rs s act rec : (forall p, 0 ∈ releases p) -> mgr_ok s act rec -> fixed (ar s) ->
  Forall (fun r => (input_ok ev (inp r) /\ waits r) /\ (ret_n (inp r) = 0 -> 0 < timeout_ms ev)) rs -> Exists (fun r => leaving (inp r)) rs ->
  wpm (muggle_socket_event_epoll raw ev releases created garbage fails start rs) s (fun _ s' => returned s').
Proof.
  intros Hrel Hm Hf Hrs Hend. unfold muggle_socket_event_epoll.
  assert (wpm (muggle_socket_event_memmgr_destroy releases) s (fun _ s' => returned s')) as Hd.
  { eapply wpm_mono; [apply returned_destroy; [by left; exists act, rec|done]|]. intros ? s' ?. by right. }
  destruct (malloc_array 12 (capacity ev)) as [es0|]; [|exact Hd]. destruct created; [|exact Hd]. simpl negb. cbv iota.
  destruct (peer_chain_first _ _ _ (ok_active _ _ _ _ Hm)) as (h & Eh & Hn).
  apply wpm_bind, wpm_bind, (wpm_load _ h); [done|]. apply wpm_ret. rewrite Hn. apply wpm_bind, wpm_count. apply wpm_bind.
  eapply wpm_mono; [apply (add_all_wp fails act _ s [] _ rec); [done|done|by intros q; simpl; set_solver|by destruct (nodes_count s act rec Hm)]|].
  intros l s' (act' & rec' & Hok). eapply wpm_mono; [eapply (run_rounds_wp ev registered _ _ (fun r => leaving (inp r)) rs); [|exact Hrs|done|done|]|].
  - intros r t1 l1 s1 act1 rec1 [[Hin Hw] Hr] Hok1 Ht1. eapply wpm_mono; [by eapply epoll_round_wp|by intros x s2 [? _]].
  - intros Ht. destruct (Z.gtb_spec (timeout_ms ev) 0); [done|lia].
  - intros ? s2 ?. by left.
Qed.
End proofs.

(** A client connects, the first stream has data and the second hung up. *)
Definition sample_locals (cnt : Z) : locals := mkl (list_to_set sample_nodes) cnt.
Definition sample_entries : list epoll_event := [(LPool 0 0, EPOLLIN); (LPool 0 184, EPOLLIN); (LPool 0 368, EPOLLHUP)].
Definition sample_round : round :=
  mkr (mkin 3 0 (fun _ => [(7, 0); (-1, MUGGLE_SYS_ERRNO_WOULDBLOCK)]) (fun _ => []) (mkts 1 0) false)
    (fun X => filter (fun e => e.1 ∈ X) sample_entries) (fun _ _ => false).
Definition sample_run (cnt : Z) :=
  @epoll_round _ (bounded_malloc 0) (malloc_zeroed []) (malloc_zeroed (MemoryPool.blk 0 0)) (malloc_zeroed 0) zero_node sample_ev
    sample_round (Some (mkts 0 0)) (sample_locals cnt) sample_mgr.

Lemma epoll_sample_ok cnt : @loop_ok _ (bounded_malloc 0) _ registered (sample_locals cnt) sample_mgr sample_nodes [].
Proof.
  pose proof sample_init_nodes as Hi. apply memmgr_init_ok in Hi as (Hok & Hf & _); [|lia|done].
  split_and!; [done|done|]. intros q. unfold sample_locals. apply elem_of_list_to_set.
Qed.

Lemma sample_epoll_input : input_ok sample_ev (inp sample_round).
Proof. split; [|done]. intros p. right. left. by split. Qed.

Lemma sample_waits : waits sample_round.
Proof.
  intros X. split.
  - intros p (e & -> & [He _]%list_elem_of_filter)%list_elem_of_fmap. done.
  - assert (NoDup sample_entries.*1) as Hnd by (repeat constructor; set_solver).
    simpl. clear -Hnd. induction sample_entries as [|e es IH]; simpl in *; [constructor|]. apply list.NoDup_cons in Hnd as [Hn Hnd].
    rewrite filter_cons. case_decide; [|auto]. apply list.NoDup_cons. split; [|auto]. intros (x & E & [_ Hx]%list_elem_of_filter)%list_elem_of_fmap.
    apply Hn. rewrite E. by apply list_elem_of_fmap_2.
Qed.


(** The counter starts with what the variable happens to hold: here a connection is
    refused although one of the four places is free. *)
Example epoll_counter_not_initialised :
  exists x s, sample_run (1 + 3) = Done (x, s) /\
    fld s = [CloseFd 7; OnMessage (LPool 0 184); OnError (LPool 0 368); CloseFd 6].
Proof. eexists _, _. vm_compute. split; reflexivity. Qed.
End SocketEventEpoll.
