(* ===== verification/SocketEventLoop.v ===== *)
(** muggle/c/net/socket_event.{h,c}: setting up an event and running the loop of its
    type, as built for Linux.  A loop that was set up and told to end comes back
    with both lists empty and every node given back, when the peers that other
    threads hold are released and accept comes to a call that would block. *)

From stdpp Require Import base gmap sets list numbers.
From Stdlib Require Import ZArith Lia.
From S2P Require Import Prelude Dsaa MemoryPool NodeMem DList SocketPeer SocketMemmgr SocketEvent SocketEventPoll SocketEventSelect SocketEventEpoll.
Import MemoryPool(block, muggle_memory_pool).
Import SocketPeer(muggle_socket_peer, fd, peer_type).
Import SocketMemmgr SocketEvent.

Open Scope Z_scope.

Module SocketEventLoop.

Definition MUGGLE_SOCKET_EVENT_LOOP_TYPE_NULL : Z := 0.
Definition MUGGLE_SOCKET_EVENT_LOOP_TYPE_MULTHREAD : Z := 1.
Definition MUGGLE_SOCKET_EVENT_LOOP_TYPE_SELECT : Z := 2.
Definition MUGGLE_SOCKET_EVENT_LOOP_TYPE_POLL : Z := 3.
Definition MUGGLE_SOCKET_EVENT_LOOP_TYPE_EPOLL : Z := 4.
Definition MUGGLE_SOCKET_EVENT_LOOP_TYPE_KQUEUE : Z := 5.
Definition MUGGLE_SOCKET_EVENT_LOOP_TYPE_IOCP : Z := 6.
Definition MUGGLE_SOCKET_EVENT_LOOP_TYPE_MAX : Z := 7.

Definition muggle_get_event_loop_type (event_loop_type : Z) : Z :=
  let t := if event_loop_type =? MUGGLE_SOCKET_EVENT_LOOP_TYPE_IOCP then MUGGLE_SOCKET_EVENT_LOOP_TYPE_NULL else event_loop_type in
  let t := if t =? MUGGLE_SOCKET_EVENT_LOOP_TYPE_KQUEUE then MUGGLE_SOCKET_EVENT_LOOP_TYPE_NULL else t in
  if (t <=? MUGGLE_SOCKET_EVENT_LOOP_TYPE_NULL) || (t >=? MUGGLE_SOCKET_EVENT_LOOP_TYPE_MAX)
  then MUGGLE_SOCKET_EVENT_LOOP_TYPE_EPOLL else t.

(** The arguments; [cnt_peer] is the length of [peers]. *)
Record muggle_socket_event_init_arg (H : Type) := mkarg {
  ev_loop_type : Z;
  hints_max_peer : Z;
  peers : list muggle_socket_peer;
  arg_timeout_ms : Z;
  arg_on_connect : option (loc -> loc -> @MM H unit);
  arg_on_error : option (loc -> @MM H unit);
  arg_on_message : option (loc -> @MM H unit);
  arg_on_timer : option (@MM H unit);
  arg_on_close : bool
}.
#[global] Arguments mkarg {H}.
#[global] Arguments ev_loop_type {H}.
#[global] Arguments hints_max_peer {H}.
#[global] Arguments peers {H}.
#[global] Arguments arg_timeout_ms {H}.
#[global] Arguments arg_on_connect {H}.
#[global] Arguments arg_on_error {H}.
#[global] Arguments arg_on_message {H}.
#[global] Arguments arg_on_timer {H}.
#[global] Arguments arg_on_close {H}.

(** The capacity by the type of the loop, the hint and the number of peers. *)
Definition event_capacity (loop_type hints cnt_peer : Z) : Z :=
  let capacity :=
    if loop_type =? MUGGLE_SOCKET_EVENT_LOOP_TYPE_SELECT then
      if (hints <=? 0) || (hints >? SocketEventSelect.FD_SETSIZE) then SocketEventSelect.FD_SETSIZE else hints
    else if hints <=? 0 then 1024 else hints in
  if capacity <? cnt_peer then i32 (cnt_peer * 2) else capacity.

(** What comes from outside while the loop of a type runs; [releases] are the counts
    of each peer that destroy sees while it waits. *)
Record world := mkw {
  releases : loc -> list Z;
  start : timespec;
  select_rounds : list SocketEventSelect.round;
  poll_rounds : list SocketEventPoll.round;
  epoll_created : bool;
  epoll_garbage : Z;
  epoll_fails : loc -> Z -> bool;
  epoll_rounds : list SocketEventEpoll.round
}.

Section ops.
Context {H : Type} `{!NodeMalloc H}.
Context `{Malloc (list Z)} `{Malloc block} `{Malloc Z} `{Malloc SocketEventPoll.pollfd} `{Malloc loc} `{Malloc (loc * Z)}.
Context (raw : muggle_socket_peer_list_node).
Notation MM := (@MM H).
Implicit Types (arg : muggle_socket_event_init_arg H).

(** The event, with the type of its loop. *)
Definition event_of arg : Z * muggle_socket_event H :=
  let t := muggle_get_event_loop_type (ev_loop_type arg) in
  (t, mkev (event_capacity t (hints_max_peer arg) (zlen (peers arg)))
        (if arg_timeout_ms arg <? 0 then -1 else arg_timeout_ms arg)
        (arg_on_connect arg) (arg_on_error arg) (arg_on_message arg) (arg_on_timer arg) (arg_on_close arg)).

(** The result, and the manager when it is 0.  [h] is the state of the allocator. *)
Definition muggle_socket_ev_arg_init arg (h : H) : outcome (Z * option (@mgr H)) :=
  match (malloc_cells 1 : option (list Z)) with
  | None => mret (-1, None)
  | Some _ =>
      r ← muggle_socket_event_memmgr_init raw (capacity (event_of arg).2) (peers arg) h;
      let (ret, m) := (r : Z * option (@mgr H * option (list loc))) in
      if negb (ret =? 0) then mret (-1, None) else mret (0, fst <$> m)
  end.

(** The sockets of the peers are closed when it fails. *)
Definition muggle_socket_event_init arg (h : H) : outcome (Z * option (@mgr H) * list Z) :=
  r ← muggle_socket_ev_arg_init arg h;
  let (ret, m) := (r : Z * option (@mgr H)) in
  if negb (ret =? 0) then mret (ret, m, fd <$> peers arg) else mret (0, m, []).

Definition muggle_socket_event_loop_run (t : Z) (ev : muggle_socket_event H) (w : world) : MM Z :=
  if t =? MUGGLE_SOCKET_EVENT_LOOP_TYPE_SELECT then
    SocketEventSelect.muggle_socket_event_select raw ev (start w) (select_rounds w);; mret 0
  else if t =? MUGGLE_SOCKET_EVENT_LOOP_TYPE_POLL then
    SocketEventPoll.muggle_socket_event_poll raw ev (releases w) (start w) (poll_rounds w);; mret 0
  else if t =? MUGGLE_SOCKET_EVENT_LOOP_TYPE_EPOLL then
    SocketEventEpoll.muggle_socket_event_epoll raw ev (releases w) (epoll_created w) (epoll_garbage w) (epoll_fails w) (start w) (epoll_rounds w);; mret 0
  else mret (-1).

Definition muggle_socket_event_loop (t : Z) (ev : muggle_socket_event H) (w : world) : MM Z :=
  ret ← muggle_socket_event_loop_run t ev w;
  muggle_socket_event_memmgr_destroy (releases w);;
  mret ret.
End ops.

(** The types that are not there on Linux fall back to epoll. *)
Lemma loop_type_cases t :
  let t' := muggle_get_event_loop_type t in
  (t' = MUGGLE_SOCKET_EVENT_LOOP_TYPE_MULTHREAD \/ t' = MUGGLE_SOCKET_EVENT_LOOP_TYPE_SELECT \/
   t' = MUGGLE_SOCKET_EVENT_LOOP_TYPE_POLL \/ t' = MUGGLE_SOCKET_EVENT_LOOP_TYPE_EPOLL) /\
  (MUGGLE_SOCKET_EVENT_LOOP_TYPE_MULTHREAD <= t <= MUGGLE_SOCKET_EVENT_LOOP_TYPE_EPOLL -> t' = t).
Proof.
  unfold muggle_get_event_loop_type, MUGGLE_SOCKET_EVENT_LOOP_TYPE_MULTHREAD, MUGGLE_SOCKET_EVENT_LOOP_TYPE_SELECT, MUGGLE_SOCKET_EVENT_LOOP_TYPE_POLL,
    MUGGLE_SOCKET_EVENT_LOOP_TYPE_EPOLL, MUGGLE_SOCKET_EVENT_LOOP_TYPE_IOCP, MUGGLE_SOCKET_EVENT_LOOP_TYPE_KQUEUE,
    MUGGLE_SOCKET_EVENT_LOOP_TYPE_NULL, MUGGLE_SOCKET_EVENT_LOOP_TYPE_MAX.
  destruct (Z.eqb_spec t 6); [subst; simpl; split; [auto|lia]|]. destruct (Z.eqb_spec t 5); [subst; simpl; split; [auto|lia]|].
  destruct (Z.leb_spec t 0); simpl; [split; [auto|lia]|]. rewrite Z.geb_leb. destruct (Z.leb_spec 7 t); [split; [auto|lia]|]. split; [lia|done].
Qed.

(** There is room for the peers that are given. *)
Lemma event_capacity_bounds t hints cnt : 0 <= cnt < 2 ^ 30 -> hints < 2 ^ 31 ->
  0 < event_capacity t hints cnt /\ cnt <= event_capacity t hints cnt /\
  event_capacity t hints cnt <= Z.max (Z.max hints 1024) (cnt * 2).
Proof.
  intros Hc Hh. unfold event_capacity, SocketEventSelect.FD_SETSIZE. set (c := if t =? _ then _ else _).
  assert (0 < c <= Z.max hints 1024) as Hb.
  { unfold c. destruct (t =? _); [destruct (Z.leb_spec hints 0), (Z.gtb_spec hints 1024); simpl; lia|destruct (Z.leb_spec hints 0); lia]. }
  destruct (Z.ltb_spec c cnt); [|lia]. rewrite swrap_small by lia. lia.
Qed.

Section proofs.
Context {H : Type} `{!NodeMalloc H}.
Context `{Malloc (list Z)} `{Malloc block} `{Malloc Z} `{Malloc SocketEventPoll.pollfd} `{Malloc loc} `{Malloc (loc * Z)}.
Context (raw : muggle_socket_peer_list_node).
Implicit Types (arg : muggle_socket_event_init_arg H) (s : @mgr H).

(** What comes from outside while a loop of type [t] runs: with no timeout the calls
    wait until there is something; accept and recv come to an end ([input_ok]);
    epoll_wait reports what is registered; in a loop over select the descriptors
    have a place in an fd_set; some round ends the loop; and the peers that other
    threads hold are released while destroy waits for them. *)
Definition waits_long (ev : muggle_socket_event H) (i : input) : Prop := ret_n i = 0 -> 0 < timeout_ms ev.
Record world_ok (t : Z) (ev : muggle_socket_event H) (w : world) : Prop := {
  released : forall p, 0 ∈ releases w p;
  select_ok : t = MUGGLE_SOCKET_EVENT_LOOP_TYPE_SELECT ->
    Forall (fun r => SocketEventSelect.select_input_ok ev r /\ waits_long ev (SocketEventSelect.inp r)) (select_rounds w) /\
    Exists (fun r => leaving (SocketEventSelect.inp r)) (select_rounds w);
  poll_ok : t = MUGGLE_SOCKET_EVENT_LOOP_TYPE_POLL ->
    Forall (fun r => input_ok ev (SocketEventPoll.inp r) /\ waits_long ev (SocketEventPoll.inp r)) (poll_rounds w) /\
    Exists (fun r => leaving (SocketEventPoll.inp r)) (poll_rounds w);
  epoll_ok : t = MUGGLE_SOCKET_EVENT_LOOP_TYPE_EPOLL ->
    Forall (fun r => (input_ok ev (SocketEventEpoll.inp r) /\ SocketEventEpoll.waits r) /\ waits_long ev (SocketEventEpoll.inp r)) (epoll_rounds w) /\
    Exists (fun r => leaving (SocketEventEpoll.inp r)) (epoll_rounds w)
}.

(** What init sets up. *)
Lemma event_init_ok arg h s : sizeof_node * (2 * (capacity (event_of arg).2 + 1)) < 2 ^ 32 -> 0 < capacity (event_of arg).2 ->
  muggle_socket_event_init raw arg h = Done (0, Some s, []) ->
  exists nodes, nodes_ok s [] (reverse nodes) [] /\ fixed (ar s) /\ fld s = [] /\
    Forall2 (fun pr p => peer_of s p = Some (started pr)) (peers arg) nodes.
Proof.
  intros Hs Hc. unfold muggle_socket_event_init, muggle_socket_ev_arg_init. destruct (malloc_cells 1); [|done].
  destruct (muggle_socket_event_memmgr_init raw (capacity (event_of arg).2) (peers arg) h) as [[ret m]| |] eqn:E; [|done..]. simpl.
  destruct (Z.eqb_spec ret 0) as [->|]; simpl; [|done]. destruct m as [[s' ns]|]; [|done]. intros [= ->].
  assert (exists nodes, ns = Some nodes) as [nodes ->].
  { unfold muggle_socket_event_memmgr_init in E. destruct (MemoryPool.muggle_memory_pool_init _ _) as [[p|]| |]; [|done..]. simpl in E.
    destruct (init_peers raw (peers arg) _) as [[[nodes|] s1]| |]; [|done..]. injection E as <- <-. eauto. }
  exists nodes. by apply (memmgr_init_ok raw (capacity (event_of arg).2) (peers arg) h).
Qed.

Lemma loop_run_wp t ev w s act rec : client_ok ev -> world_ok t ev w -> nodes_ok s [] act rec -> fixed (ar s) -> timeout_ms ev <> 0 ->
  Z.of_nat (length act) <= capacity ev ->
  (t = MUGGLE_SOCKET_EVENT_LOOP_TYPE_SELECT -> forall q, q ∈ act -> exists f ty, sock s q = Some (f, ty) /\ 0 <= f < SocketEventSelect.FD_SETSIZE) ->
  wpm (muggle_socket_event_loop_run raw t ev w) s (fun ret s' => returned s' /\
    ret = if (t =? MUGGLE_SOCKET_EVENT_LOOP_TYPE_SELECT) || (t =? MUGGLE_SOCKET_EVENT_LOOP_TYPE_POLL) || (t =? MUGGLE_SOCKET_EVENT_LOOP_TYPE_EPOLL) then 0 else -1).
Proof.
  intros Hcl [] Hm Hf Ht Hcap Hfd. unfold muggle_socket_event_loop_run.
  destruct (Z.eqb_spec t MUGGLE_SOCKET_EVENT_LOOP_TYPE_SELECT) as [Et|]; simpl.
  { destruct (select_ok0 Et). apply wpm_bind. eapply wpm_mono; [by eapply (SocketEventSelect.select_wp raw ev Hcl); eauto|]. intros ? s' ?. by apply wpm_ret. }
  destruct (Z.eqb_spec t MUGGLE_SOCKET_EVENT_LOOP_TYPE_POLL) as [Et|]; simpl.
  { destruct (poll_ok0 Et). apply wpm_bind. eapply wpm_mono; [by eapply (SocketEventPoll.poll_wp raw ev Hcl)|]. intros ? s' ?. by apply wpm_ret. }
  destruct (Z.eqb_spec t MUGGLE_SOCKET_EVENT_LOOP_TYPE_EPOLL) as [Et|]; simpl.
  { destruct (epoll_ok0 Et). apply wpm_bind. eapply wpm_mono; [by eapply (SocketEventEpoll.epoll_wp raw ev Hcl)|]. intros ? s' ?. by apply wpm_ret. }
  apply wpm_ret. split; [left; by exists act, rec|done].
Qed.

(** C5: an event that was set up can be run, and the loop comes back with both lists
    empty and every node given back: from the peers that were given, with room for
    them and for as many as the hint says, through any rounds of select, poll or
    epoll up to one that ends the loop, with connections, errors, messages,
    interruptions and failed allocations on the way.  The result tells whether the
    type of the loop is implemented.  This is so when the timeout is not 0; in a
    loop over select, when the descriptors of the peers and of the connections are
    below FD_SETSIZE; when the callbacks change nothing but the status and the
    counts of peers; when in each round the calls of accept come to one that would
    block, without on_message those of recv come to an end, and epoll_wait reports
    registered nodes, each once; and when the count of every peer comes to 0 while
    destroy waits for it. *)
Theorem socket_event_loop_returns arg h w s :
  let (t, ev) := event_of arg in
  zlen (peers arg) < 2 ^ 30 -> hints_max_peer arg < 2 ^ 31 -> sizeof_node * (2 * (capacity ev + 1)) < 2 ^ 32 -> arg_timeout_ms arg <> 0 ->
  (t = MUGGLE_SOCKET_EVENT_LOOP_TYPE_SELECT -> Forall (fun pr => 0 <= fd pr < SocketEventSelect.FD_SETSIZE) (peers arg)) ->
  client_ok ev -> world_ok t ev w ->
  muggle_socket_event_init raw arg h = Done (0, Some s, []) ->
  wpm (muggle_socket_event_loop raw t ev w) s (fun ret s' => emptied s' /\
    ret = if t =? MUGGLE_SOCKET_EVENT_LOOP_TYPE_MULTHREAD then -1 else 0).
Proof.
  set (t := muggle_get_event_loop_type (ev_loop_type arg)). change (event_of arg) with (t, (event_of arg).2). set (ev := (event_of arg).2).
  intros Hlen Hh Hs Ht Hfd Hcl Hw Hinit. pose proof (event_capacity_bounds t (hints_max_peer arg) (zlen (peers arg))) as Hb.
  destruct Hb as (Hb1 & Hb2 & _); [pose proof (zlen_nonneg (peers arg)); lia|done|].
  destruct (event_init_ok arg h s Hs Hb1 Hinit) as (nodes & Hm & Hf & _ & HF). pose proof (Forall2_length HF) as Hl.
  apply wpm_bind. eapply wpm_mono; [apply (loop_run_wp t ev w s (reverse nodes) []); try done|].
  - unfold ev. simpl. destruct (Z.ltb_spec (arg_timeout_ms arg) 0); lia.
  - rewrite length_reverse, <- Hl. done.
  - intros Et q Hq. rewrite elem_of_reverse in Hq. apply list_elem_of_lookup in Hq as [i Hi].
    destruct (Forall2_lookup_r _ _ _ _ _ HF Hi) as (pr & Hpr & Hp). exists (fd pr), (peer_type pr). split; [by rewrite (sock_peer _ _ _ Hp)|].
    specialize (Hfd Et). rewrite list.Forall_forall in Hfd. apply Hfd. by eapply list_elem_of_lookup_2.
  - intros ret s1 [Hr ->]. apply wpm_bind. eapply wpm_mono; [apply returned_destroy; [done|apply Hw]|]. intros ? s2 He. apply wpm_ret. split; [done|].
    destruct (loop_type_cases (ev_loop_type arg)) as [Hcases _]. fold t in Hcases. by destruct Hcases as [->|[->|[->| ->]]].
Qed.
End proofs.

(** The listener and the two streams in a loop over poll, for one round and one
    that ends the loop. *)
Definition sample_arg : muggle_socket_event_init_arg (gset Z) :=
  mkarg MUGGLE_SOCKET_EVENT_LOOP_TYPE_POLL 4 sample_peers 1000
    (on_connect sample_ev) (on_error sample_ev) (on_message sample_ev) (on_timer sample_ev) (on_close sample_ev).
Definition last_round : SocketEventPoll.round :=
  SocketEventPoll.mkr (mkin 0 0 (fun _ => [(-1, SocketPeer.MUGGLE_SYS_ERRNO_WOULDBLOCK)]) (fun _ => []) (mkts 2 0) true) (fun _ => 0).
Definition sample_world : world :=
  mkw (fun _ => [0]) (mkts 0 0) [] [SocketEventPoll.sample_round; last_round] true 0 (fun _ _ => false) [].

Lemma sample_world_ok : world_ok MUGGLE_SOCKET_EVENT_LOOP_TYPE_POLL sample_ev sample_world.
Proof.
  split; [intros p; left|done| |done]. intros _. split.
  - constructor; [split; [apply SocketEventPoll.sample_input_ok|done]|]. constructor; [|constructor]. split; [|done].
    split; [|done]. intros p. left. by split.
  - right. left. left. by split.
Qed.

Lemma sample_event_init :
  @muggle_socket_event_init _ (bounded_malloc 0) (malloc_zeroed []) (malloc_zeroed (MemoryPool.blk 0 0)) (malloc_zeroed 0) zero_node sample_arg ∅ =
    Done (0, Some sample_mgr, []).
Proof. vm_compute. reflexivity. Qed.

Lemma socket_event_loop_returns_witness :
  exists s, @muggle_socket_event_loop _ (bounded_malloc 0) (malloc_zeroed []) (malloc_zeroed (MemoryPool.blk 0 0)) (malloc_zeroed 0)
    (malloc_zeroed (SocketEventPoll.mkpfd 0 0)) (malloc_zeroed LNull) (malloc_zeroed (LNull, 0)) zero_node
    MUGGLE_SOCKET_EVENT_LOOP_TYPE_POLL sample_ev sample_world sample_mgr = Done (0, s) /\ emptied s.
Proof.
  pose proof (@socket_event_loop_returns _ (bounded_malloc 0) (malloc_zeroed []) (malloc_zeroed (MemoryPool.blk 0 0)) (malloc_zeroed 0)
    (malloc_zeroed (SocketEventPoll.mkpfd 0 0)) (malloc_zeroed LNull) (malloc_zeroed (LNull, 0)) zero_node sample_arg ∅ sample_world sample_mgr
    ltac:(reflexivity) ltac:(reflexivity) ltac:(reflexivity) ltac:(done) ltac:(done) sample_client sample_world_ok sample_event_init) as Hw.
  destruct (proj1 (wpm_Done _ _ _) Hw) as (ret & s & E & He & ->). exists s. split; [exact E|exact He].
Defined.

(** What that run tells: the connection that is accepted gets its event, and with it
    on_close at the end; the peers that were given have none. *)
Example socket_event_loop_events :
  exists s, @muggle_socket_event_loop _ (bounded_malloc 0) (malloc_zeroed []) (malloc_zeroed (MemoryPool.blk 0 0)) (malloc_zeroed 0)
    (malloc_zeroed (SocketEventPoll.mkpfd 0 0)) (malloc_zeroed LNull) (malloc_zeroed (LNull, 0)) zero_node
    MUGGLE_SOCKET_EVENT_LOOP_TYPE_POLL sample_ev sample_world sample_mgr = Done (0, s) /\
  fld s = [OnConnect (LPool 0 552); OnMessage (LPool 0 184); OnError (LPool 0 368); CloseFd 6;
           OnClose (LPool 0 552); CloseFd 7; CloseFd 5; CloseFd 3].
Proof. eexists. vm_compute. split; reflexivity. Qed.

(** Twice the number of the peers can be more than an fd_set holds. *)
Example select_capacity_beyond_set : event_capacity MUGGLE_SOCKET_EVENT_LOOP_TYPE_SELECT 500 600 = 1200.
Proof. reflexivity. Qed.
End SocketEventLoop.
