(* ===== verification/PointerSlot.v ===== *)
(** muggle/c/memory/pointer_slot.{h,c}: a table of slots for pointers.  Free
    slots are kept in a ring of pointers, used slots in a doubly linked list in
    the order in which they were taken.  The abstract table is the list of the
    used slot numbers with their data. *)

From stdpp Require Import base gmap sets list numbers.
From Stdlib Require Import ZArith Lia.
From S2P Require Import Prelude BaseUtils Dsaa MemoryPool NodeMem DList Ring.

Open Scope Z_scope.

Module PointerSlot.

Record muggle_pointer_slot_item := mkit {
  item_prev : loc;
  item_next : loc;
  slot_idx : Z;
  in_used : Z;
  data : ptr
}.

#[export] Instance pointer_slot_dnode : DNode muggle_pointer_slot_item (Z * Z * ptr).
Proof.
  refine {|
    prev := item_prev; next := item_next; payload n := (slot_idx n, in_used n, data n);
    set_prev p n := mkit p (item_next n) (slot_idx n) (in_used n) (data n);
    set_next p n := mkit (item_prev n) p (slot_idx n) (in_used n) (data n)
  |}; abstract done.
Defined.

(** The fields beside the items. *)
Record fields := mkf {
  pp_slots : list loc;
  capacity : Z;
  alloc_index : Z;
  free_index : Z
}.

Definition set_pp_slots (pp : list loc) (f : fields) : fields :=
  mkf pp (capacity f) (alloc_index f) (free_index f).
Definition set_alloc_index (a : Z) (f : fields) : fields :=
  mkf (pp_slots f) (capacity f) a (free_index f).
Definition set_free_index (i : Z) (f : fields) : fields :=
  mkf (pp_slots f) (capacity f) (alloc_index f) i.

(** [&pointer_slot->head], [&pointer_slot->tail] and [&pointer_slot->slots[i]]. *)
Definition HEAD : loc := LPart 0.
Definition TAIL : loc := LPart 1.
Definition slot (i : Z) : loc := LPart (2 + i).

#[export] Instance slot_inj : Inj eq eq slot.
Proof. intros i j [= E]. lia. Qed.

Section ops.
Context {H : Type}.

(** The items are cells of the store; its allocator is not used. *)
Definition muggle_pointer_slot : Type := st H muggle_pointer_slot_item fields.
Definition PM (A : Type) : Type := M H muggle_pointer_slot_item fields A.

Definition zero_item : muggle_pointer_slot_item := mkit LNull LNull 0 0 NULL.

(** [pointer_slot->pp_slots[i]] and [pointer_slot->pp_slots[i] = p]. *)
Definition get_pp (i : Z) : PM loc :=
  f ← get_fld;
  lift (aget (pp_slots f) i).
Definition set_pp (i : Z) (p : loc) : PM unit :=
  f ← get_fld;
  pp ← lift (aset (pp_slots f) i p);
  set_fld (set_pp_slots pp).

(** A block of items at [slots]. *)
Definition items_at (items : list muggle_pointer_slot_item) : gmap loc muggle_pointer_slot_item :=
  list_to_map (imap (fun i n => (slot (Z.of_nat i), n)) items).

Definition init_slot (i : Z) : PM unit :=
  modify (slot i) (fun _ => mkit LNull LNull i 0 NULL);;
  set_pp i (slot i).

(** The fields, once the arrays are there. *)
Definition init_fields (cap : Z) : PM unit :=
  forM 0 cap init_slot;;
  set_fld (set_alloc_index 0);;
  set_fld (set_free_index 0);;
  modify HEAD (set_prev LNull);;
  modify HEAD (set_next TAIL);;
  modify TAIL (set_prev HEAD);;
  modify TAIL (set_next LNull).

(** The arrays have room for the capacity that was asked for, before it is
    rounded up.  [None] is [MUGGLE_ERR_MEM_ALLOC]. *)
Definition muggle_pointer_slot_init `{Malloc muggle_pointer_slot_item} `{Malloc loc}
    (h : H) (cap : Z) : outcome (option muggle_pointer_slot) :=
  let cap := if 0 <? cap then cap else 1 in
  match (malloc_cells cap : option (list muggle_pointer_slot_item)), (malloc_cells cap : option (list loc)) with
  | Some items, Some pp =>
      let s := mkst (<[HEAD := zero_item]> (<[TAIL := zero_item]> (items_at items))) (mka None h)
                 (mkf pp (u32 (next_pow_of_2 (u64 cap))) 0 0) [] in
      r ← init_fields cap s;
      mret (Some (r.2 : muggle_pointer_slot))
  | _, _ => mret None
  end.

(** Both arrays are freed. *)
Definition muggle_pointer_slot_destroy : PM unit := fun s =>
  Done (tt, mkst (filter (fun c => c.1 = HEAD \/ c.1 = TAIL) (mem s)) (ar s)
              (set_pp_slots [] (fld s)) (calls s)).

(** [p_slot->prev = tail.prev; p_slot->next = &tail; tail.prev->next = p_slot;
     tail.prev = p_slot;] *)
Definition link_tail (p_slot : loc) : PM unit :=
  t ← load TAIL;
  modify p_slot (set_prev (item_prev t));;
  modify p_slot (set_next TAIL);;
  t ← load TAIL;
  modify (item_prev t) (set_next p_slot);;
  modify TAIL (set_prev p_slot).

(** [MUGGLE_ASSERT]: nothing in a release build; a debug build logs a fatal message,
    on which its logger aborts. *)
Definition MUGGLE_ASSERT (release b : bool) : PM unit := fun s => if release || b then Done (tt, s) else Undef.

(** The result, and [*slot_idx] where it is set. *)
Definition muggle_pointer_slot_insert (release : bool) (d : ptr) : PM (Z * option Z) :=
  f ← get_fld;
  let alloc_idx := IDX_IN_POW_OF_2_RING (alloc_index f) (capacity f) in
  p_slot ← get_pp alloc_idx;
  n ← load p_slot;
  if in_used n =? 1 then
    MUGGLE_ASSERT release (alloc_idx =? IDX_IN_POW_OF_2_RING (free_index f) (capacity f));;
    mret (MUGGLE_ERR_MEM_ALLOC, None)
  else
    link_tail p_slot;;
    modify p_slot (fun n => mkit (item_prev n) (item_next n) (slot_idx n) (in_used n) d);;
    modify p_slot (fun n => mkit (item_prev n) (item_next n) (slot_idx n) 1 (data n));;
    n ← load p_slot;
    set_fld (fun f => set_alloc_index (u32 (alloc_index f + 1)) f);;
    mret (MUGGLE_OK, Some (slot_idx n)).

Definition muggle_pointer_slot_remove (release : bool) (idx : Z) : PM Z :=
  f ← get_fld;
  if capacity f <=? idx then
    MUGGLE_ASSERT release (idx <? capacity f);;
    mret MUGGLE_ERR_BEYOND_RANGE
  else
    n ← load (slot idx);
    if in_used n =? 0 then
      MUGGLE_ASSERT release (in_used n =? 1);;
      mret MUGGLE_ERR_MEM_DUPLICATE_FREE
    else
      let free_idx := IDX_IN_POW_OF_2_RING (free_index f) (capacity f) in
      let p_slot := slot idx in
      set_pp free_idx p_slot;;
      unlink p_slot;;
      modify p_slot (set_prev LNull);;
      modify p_slot (set_next LNull);;
      modify p_slot (fun n => mkit (item_prev n) (item_next n) (slot_idx n) 0 (data n));;
      modify p_slot (fun n => mkit (item_prev n) (item_next n) (slot_idx n) (in_used n) NULL);;
      set_fld (fun f => set_free_index (u32 (free_index f + 1)) f);;
      mret MUGGLE_OK.

Definition muggle_pointer_slot_get (release : bool) (idx : Z) : PM ptr :=
  f ← get_fld;
  if capacity f <=? idx then
    MUGGLE_ASSERT release (idx <? capacity f);;
    mret NULL
  else
    n ← load (slot idx);
    if in_used n =? 0 then mret NULL
    else mret (data n).

Definition muggle_pointer_slot_iter_begin : PM loc :=
  n ← load HEAD;
  mret (item_next n).
Definition muggle_pointer_slot_iter_end : PM loc := mret TAIL.
Definition muggle_pointer_slot_iter_data (iter : loc) : PM ptr :=
  n ← load iter;
  mret (data n).

(** [for (iter = begin; iter != end; iter = iter->next)] collecting the data. *)
Definition iter_all : PM (list ptr) :=
  b ← muggle_pointer_slot_iter_begin;
  e ← muggle_pointer_slot_iter_end;
  c ← count;
  loopM (S c) (fun '(iter, ds) =>
    if bool_decide (iter = e) then mret (inr ds)
    else
      d ← muggle_pointer_slot_iter_data iter;
      n ← load iter;
      mret (inl (item_next n, ds ++ [d]))) (b, []).

(** ** The abstract table *)

(** The contents of slot [i] when the used slots are [l]. *)
Definition cell_ok (l : list (Z * ptr)) (i : Z) (x : Z * Z * ptr) : Prop :=
  x.1.1 = i /\ ((x.1.2 = 0 /\ i ∉ l.*1) \/ (x.1.2 = 1 /\ (i, x.2) ∈ l)).

(** The used slots are [l], oldest first, and the free ones [free], in the order
    in which they will be taken; [na] slots were taken and [nf] given back. *)
Record rep_at (s : muggle_pointer_slot) (l : list (Z * ptr)) (free : list Z) (k na nf : Z) : Prop := {
  rep_k : 0 <= k <= 31;
  rep_chain : chain (mem s) HEAD ((slot <$> l.*1) ++ [TAIL]) LNull;
  rep_cells : forall i, 0 <= i < 2 ^ k -> exists x, payloadof (mem s) (slot i) = Some x /\ cell_ok l i x;
  rep_slots : l.*1 ++ free ≡ₚ seqZ 0 (2 ^ k);
  rep_cap : capacity (fld s) = 2 ^ k;
  rep_alloc : alloc_index (fld s) = u32 na;
  rep_free : free_index (fld s) = u32 nf;
  rep_used : zlen l = na - nf;
  rep_pp : zlen (pp_slots (fld s)) = 2 ^ k;
  rep_pp_slots : Forall (fun p => exists i, 0 <= i < 2 ^ k /\ p = slot i) (pp_slots (fld s));
  rep_ring : ring_at (pp_slots (fld s)) (2 ^ k) na (slot <$> free)
}.

Definition rep (s : muggle_pointer_slot) (l : list (Z * ptr)) : Prop :=
  exists free k na nf, rep_at s l free k na nf.
End ops.

#[global] Arguments rep_at {H} s l free k na nf.
#[global] Arguments rep {H} s l.
#[global] Arguments muggle_pointer_slot H : clear implicits.

(** ** The operations *)

Lemma ring_index_u32 k x : 0 <= k <= 32 -> IDX_IN_POW_OF_2_RING (u32 x) (2 ^ k) = x mod 2 ^ k.
Proof.
  intros Hk. rewrite ring_index_mod by lia. apply Z.mod_mod_divide. exists (2 ^ (32 - k)).
  rewrite <- Z.pow_add_r by lia. f_equal. lia.
Qed.

Lemma u32_add x y : u32 (u32 x + y) = u32 (x + y).
Proof. apply Zplus_mod_idemp_l. Qed.

Lemma slot_not_part i : 0 <= i -> slot i <> HEAD /\ slot i <> TAIL.
Proof. intros Hi. split; intros [= E]; lia. Qed.

Section proofs.
Context {H : Type}.
Implicit Types (s : muggle_pointer_slot H) (l : list (Z * ptr)) (m : gmap loc muggle_pointer_slot_item).

(** Putting a slot at the end of the list. *)
Lemma link_tail_wp s a L p n Q :
  chain (mem s) a (L ++ [TAIL]) LNull -> NoDup (a :: L ++ [TAIL]) ->
  mem s !! p = Some n -> p ∉ a :: L ++ [TAIL] ->
  (forall m', chain m' a (L ++ [p; TAIL]) LNull ->
     frames (mem s) m' [end_of a L; p; TAIL] -> Q tt (mkst m' (ar s) (fld s) (calls s))) ->
  wpm (link_tail p) s Q.
Proof.
  intros Hc Hnd En Hnew HQ. unfold chain in Hc. apply dchain_app in Hc as (Hl & Hq & Hr).
  change (a :: L ++ [TAIL]) with ((a :: L) ++ [TAIL]) in Hnd, Hnew.
  pose proof Hnd as (_ & Hdis & _)%list.NoDup_app. pose proof (end_of_elem a L) as Hpr.
  assert (end_of a L <> TAIL) by (intros E; rewrite E in Hpr; apply (Hdis TAIL); [done|left]).
  assert (p <> end_of a L) by (intros ->; apply Hnew, elem_of_app; by left).
  assert (p <> TAIL) by (intros ->; apply Hnew, elem_of_app; right; left).
  pose proof Hq as (nq & Eq & Hpq)%prevof_Some. simpl in Hpq.
  pose proof (dchain_end _ _ _ _ _ Hl) as (npr & Epr & _)%nextof_Some.
  assert (NoDup (a :: L ++ p :: TAIL :: [])) as Hnd'.
  { change (NoDup ((a :: L) ++ p :: [TAIL])). rewrite <- Permutation_middle. by apply list.NoDup_cons. }
  unfold link_tail. apply wpm_bind, (wpm_load _ nq); [done|]. rewrite Hpq.
  apply wpm_bind, (wpm_modify _ _ n); [done|].
  apply wpm_bind. eapply wpm_modify; [simpl; by rewrite lookup_insert_eq|].
  apply wpm_bind, (wpm_load _ nq); [simpl; by rewrite !lookup_insert_ne|]. rewrite Hpq.
  apply wpm_bind, (wpm_modify _ _ npr); [simpl; by rewrite !lookup_insert_ne|].
  apply (wpm_modify _ _ nq); [simpl; by rewrite !lookup_insert_ne|]. cbn [mem ar fld calls]. apply HQ.
  - eapply dchain_frame; [..|exact (dchain_insert _ _ a L TAIL p TAIL [] LNull Hl Hr Hnd')];
      intros x _; field_solve.
  - eapply frames_insert; [|by rewrite !lookup_insert_ne|done|set_solver].
    eapply frames_insert; [|by rewrite !lookup_insert_ne|done|set_solver].
    eapply frames_insert; [|by rewrite lookup_insert_eq|done|set_solver].
    eapply frames_insert; [apply frames_refl|done|done|set_solver].
Qed.

Lemma rep_nodup s l free k na nf : rep_at s l free k na nf -> NoDup (l.*1 ++ free).
Proof. intros R. rewrite (rep_slots _ _ _ _ _ _ R). apply NoDup_seqZ. Qed.

Lemma rep_elem s l free k na nf i : rep_at s l free k na nf -> i ∈ l.*1 ++ free <-> 0 <= i < 2 ^ k.
Proof. intros R. rewrite (rep_slots _ _ _ _ _ _ R), elem_of_seqZ. lia. Qed.

Lemma rep_len s l free k na nf : rep_at s l free k na nf -> zlen l + zlen free = 2 ^ k.
Proof.
  intros R. pose proof (Permutation_length (rep_slots _ _ _ _ _ _ R)) as E.
  destruct R. rewrite length_app, length_fmap, length_seqZ in E. unfold zlen in *.
  pose proof (Z.pow_nonneg 2 k). lia.
Qed.

(** The nodes of the list of used slots. *)
Lemma rep_chain_nodup s l free k na nf :
  rep_at s l free k na nf -> NoDup (HEAD :: (slot <$> l.*1) ++ [TAIL]).
Proof.
  intros R. pose proof (rep_nodup _ _ _ _ _ _ R) as (Hnd & _ & _)%list.NoDup_app.
  assert (forall p, p ∈ slot <$> l.*1 -> p <> HEAD /\ p <> TAIL) as Hp.
  { intros p (i & -> & Hi)%list_elem_of_fmap. apply slot_not_part.
    enough (0 <= i < 2 ^ k) by lia. apply (rep_elem _ _ _ _ _ _ _ R), elem_of_app. by left. }
  apply list.NoDup_cons. split.
  - intros [Hin|Hin]%elem_of_app; [by apply Hp in Hin as []|]. by apply list_elem_of_singleton in Hin.
  - apply list.NoDup_app. split; [by apply (NoDup_fmap_2 slot)|]. split; [|apply NoDup_singleton].
    intros p Hin ->%list_elem_of_singleton. by apply Hp in Hin as [].
Qed.

(** The item of a slot. *)
Lemma rep_item s l free k na nf i :
  rep_at s l free k na nf -> 0 <= i < 2 ^ k ->
  exists n, mem s !! slot i = Some n /\ cell_ok l i (slot_idx n, in_used n, data n).
Proof.
  intros R Hi. destruct (rep_cells _ _ _ _ _ _ R i Hi) as (x & Hx & Hok).
  unfold payloadof in Hx. apply fmap_Some in Hx as (n & ? & ->). by exists n.
Qed.

(** The slots when one was given the payload [x]. *)
Lemma cells_update m m' l l' k j x :
  (forall i, 0 <= i < 2 ^ k -> exists x, payloadof m (slot i) = Some x /\ cell_ok l i x) ->
  (forall i, i <> j -> payloadof m' (slot i) = payloadof m (slot i)) ->
  payloadof m' (slot j) = Some x -> cell_ok l' j x ->
  (forall i d, i <> j -> (i, d) ∈ l' <-> (i, d) ∈ l) ->
  forall i, 0 <= i < 2 ^ k -> exists x, payloadof m' (slot i) = Some x /\ cell_ok l' i x.
Proof.
  intros Hm Hne Hx Hok Hl i Hi. destruct (decide (i = j)) as [->|Hij]; [by exists x|].
  destruct (Hm i Hi) as (y & Hy & E & Hc). exists y. rewrite Hne by done. split; [done|]. split; [done|].
  destruct Hc as [[? Hn]|[? ?]]; [left|right; by rewrite Hl].
  split; [done|]. intros ([i' d] & -> & Hd)%list_elem_of_fmap. simpl in *.
  apply Hn, list_elem_of_fmap. exists (i', d). by rewrite <- Hl.
Qed.

(** pp_slots[alloc_idx]: the next free slot, and a used one when none is free. *)
Lemma next_slot s l free k na nf :
  rep_at s l free k na nf ->
  exists i n, pp_slots (fld s) @@ (na mod 2 ^ k) = Some (slot i) /\ 0 <= i < 2 ^ k /\
    mem s !! slot i = Some n /\ slot_idx n = i /\
    match free with
    | [] => in_used n = 1
    | j :: _ => i = j /\ in_used n = 0
    end.
Proof.
  intros R. pose proof R as []. assert (0 < 2 ^ k) as Hpos by (apply Z.pow_pos_nonneg; lia).
  destruct free as [|j free].
  - pose proof (Z.mod_pos_bound na (2 ^ k) Hpos).
    destruct (zlookup_is_Some (pp_slots (fld s)) (na mod 2 ^ k)) as [p E]; [lia|].
    pose proof E as E'. rewrite zlookup_nonneg in E' by lia.
    destruct (proj1 (list.Forall_lookup _ _) rep_pp_slots0 _ _ E') as (i & Hi & ->).
    destruct (rep_item _ _ _ _ _ _ i R Hi) as (n & En & Es & Hc). exists i, n. split_and!; try done; try lia.
    destruct Hc as [[_ Hn]|[? _]]; [|done]. exfalso. apply Hn.
    apply (rep_elem _ _ _ _ _ _ _ R) in Hi. by rewrite app_nil_r in Hi.
  - rewrite fmap_cons in rep_ring0. apply ring_at_cons in rep_ring0 as [E _]; [|done].
    assert (0 <= j < 2 ^ k) as Hj by (apply (rep_elem _ _ _ _ _ _ _ R), elem_of_app; right; left).
    destruct (rep_item _ _ _ _ _ _ j R Hj) as (n & En & Es & Hc). exists j, n. split_and!; try done; try lia.
    destruct Hc as [[? _]|[_ Hn]]; [done|]. exfalso.
    pose proof (rep_nodup _ _ _ _ _ _ R) as (_ & Hdis & _)%list.NoDup_app.
    apply (Hdis j); [|left]. apply list_elem_of_fmap. by exists (j, data n).
Qed.

Lemma payload_of_insert m p (n : muggle_pointer_slot_item) q :
  payloadof (<[p := n]> m) q = if decide (p = q) then Some (payload n) else payloadof m q.
Proof. unfold payloadof. rewrite lookup_insert. by case_decide. Qed.

Lemma get_pp_wp i p s Q : pp_slots (fld s) @@ i = Some p -> Q p s -> wpm (get_pp i) s Q.
Proof.
  intros E HQ. unfold get_pp. apply wpm_bind, wpm_get_fld, wpm_lift. by rewrite (aget_Some _ _ _ E).
Qed.

Lemma set_pp_wp i p s Q :
  0 <= i < zlen (pp_slots (fld s)) ->
  Q tt (mkst (mem s) (ar s) (set_pp_slots (zinsert i p (pp_slots (fld s))) (fld s)) (calls s)) ->
  wpm (set_pp i p) s Q.
Proof.
  intros Hi HQ. unfold set_pp. apply wpm_bind, wpm_get_fld, wpm_bind, wpm_lift.
  rewrite aset_zinsert by done. by apply wpm_set_fld.
Qed.

Lemma massert_wp release b s (Q : unit -> muggle_pointer_slot H -> Prop) :
  release || b = true -> Q tt s -> wpm (MUGGLE_ASSERT release b) s Q.
Proof. intros E HQ. unfold wpm, MUGGLE_ASSERT. by rewrite E. Qed.

(** insert takes the next free slot, and fails when there is none. *)
Lemma pointer_slot_insert_wp release s l free k na nf d :
  rep_at s l free k na nf ->
  wpm (muggle_pointer_slot_insert release d) s (fun r s' =>
    match free with
    | [] => r = (MUGGLE_ERR_MEM_ALLOC, None) /\ s' = s /\ na mod 2 ^ k = nf mod 2 ^ k
    | i :: free' => r = (MUGGLE_OK, Some i) /\ rep_at s' (l ++ [(i, d)]) free' k (na + 1) nf
    end).
Proof.
  intros R. pose proof R as []. destruct (next_slot _ _ _ _ _ _ R) as (i & n & Ei & Hi & En & Es & Hu).
  unfold muggle_pointer_slot_insert. apply wpm_bind, wpm_get_fld.
  rewrite rep_alloc0, rep_free0, rep_cap0, !ring_index_u32 by lia.
  apply wpm_bind, (get_pp_wp _ (slot i)); [done|]. apply wpm_bind, (wpm_load _ n); [done|].
  destruct free as [|j free].
  { assert (na mod 2 ^ k = nf mod 2 ^ k) as E.
    { pose proof (rep_len _ _ _ _ _ _ R) as Hlen. unfold zlen in Hlen at 2. simpl in Hlen.
      replace na with (nf + 1 * 2 ^ k) by lia. by rewrite Z.mod_add by lia. }
    rewrite Hu, E. simpl (1 =? 1). cbv iota. apply wpm_bind, massert_wp; [by rewrite Z.eqb_refl, orb_true_r|].
    by apply wpm_ret. }
  destruct Hu as [-> Hu]. rewrite Hu. simpl (0 =? 1). cbv iota.
  assert (j ∉ l.*1) as Hj.
  { pose proof (rep_nodup _ _ _ _ _ _ R) as (_ & Hdis & _)%list.NoDup_app. intros Hin. apply (Hdis j); [done|left]. }
  pose proof (rep_chain_nodup _ _ _ _ _ _ R) as Hnd. pose proof (slot_not_part j ltac:(lia)) as [Hjh Hjt].
  assert (slot j ∉ HEAD :: (slot <$> l.*1) ++ [TAIL]) as Hjn.
  { rewrite elem_of_cons, elem_of_app, list_elem_of_singleton, list_elem_of_fmap.
    intros [?|[(i & ?%(inj slot) & ?)|?]]; by subst. }
  apply wpm_bind, (link_tail_wp _ _ _ _ n _ rep_chain0 Hnd En Hjn). intros m' Hc Hf.
  destruct (frames_lookup _ _ _ _ _ Hf En) as (n' & En' & Hn'). simpl in Hn'.
  injection Hn' as Hn1 Hn2 Hn3.
  apply wpm_bind, (wpm_modify _ _ n'); [done|]. apply wpm_bind. eapply wpm_modify; [simpl; by rewrite lookup_insert_eq|].
  apply wpm_bind. eapply wpm_load; [simpl; by rewrite lookup_insert_eq|].
  apply wpm_bind, wpm_set_fld, wpm_ret. cbn [mem ar fld calls slot_idx item_prev item_next in_used data].
  rewrite insert_insert_eq. split; [congruence|].
  apply ring_at_cons in rep_ring0 as [_ Hring]; [|by apply Z.pow_pos_nonneg; lia].
  constructor; cbn [mem fld set_alloc_index capacity alloc_index free_index pp_slots]; try done.
  - rewrite fmap_app, fmap_app, <- (assoc_L (++)). by apply (chain_payload _ _ _ _ _ n').
  - apply (cells_update (mem s) _ l _ k j (j, 1, d)); [done|..].
    + intros i Hij. rewrite payload_of_insert, decide_False by (intros ?%(inj slot); by subst). apply Hf.
    + rewrite payload_of_insert, decide_True by done. simpl. congruence.
    + split; [done|]. right. split; [done|]. apply elem_of_app. right. left.
    + intros i d' Hij. rewrite elem_of_app, list_elem_of_singleton. split; [|by left]. intros [?|[= ? ?]]; done.
  - rewrite fmap_app, <- (assoc_L (++)). done.
  - rewrite rep_alloc0. apply u32_add.
  - rewrite zlen_snoc. lia.
Qed.
(** remove refuses slots beyond the capacity and unused slots; an assertion fails
    on them in a debug build. *)
Lemma pointer_slot_remove_refused release s l free k na nf idx :
  rep_at s l free k na nf -> 0 <= idx -> idx ∉ l.*1 ->
  muggle_pointer_slot_remove release idx s =
    if release then Done (if 2 ^ k <=? idx then MUGGLE_ERR_BEYOND_RANGE else MUGGLE_ERR_MEM_DUPLICATE_FREE, s) else Undef.
Proof.
  intros R Hidx Hn. unfold muggle_pointer_slot_remove, MUGGLE_ASSERT, get_fld, load, mbind, M_bind. cbv beta.
  rewrite (rep_cap _ _ _ _ _ _ R). destruct (Z.leb_spec (2 ^ k) idx).
  { rewrite (proj2 (Z.ltb_ge _ _)) by done. by destruct release. }
  destruct (rep_item _ _ _ _ _ _ idx R ltac:(lia)) as (n & -> & _ & [[Hu _]|[_ Hin]]).
  - simpl in Hu. rewrite Hu. by destruct release.
  - exfalso. apply Hn, list_elem_of_fmap. by exists (idx, data n).
Qed.

(** A used slot in its list. *)
Lemma used_slot s l1 idx d l2 free k na nf :
  rep_at s (l1 ++ (idx, d) :: l2) free k na nf ->
  0 <= idx < 2 ^ k /\ NoDup (idx :: (l1 ++ l2).*1) /\
  (exists n, mem s !! slot idx = Some n /\ slot_idx n = idx /\ in_used n = 1 /\ data n = d) /\
  exists q L, (slot <$> l2.*1) ++ [TAIL] = q :: L /\
    chain (mem s) HEAD ((slot <$> l1.*1) ++ slot idx :: q :: L) LNull /\
    NoDup (HEAD :: (slot <$> l1.*1) ++ slot idx :: q :: L).
Proof.
  intros R. assert (idx ∈ (l1 ++ (idx, d) :: l2).*1) as Hin by (rewrite fmap_app, fmap_cons; set_solver).
  assert (0 <= idx < 2 ^ k) as Hi by (apply (rep_elem _ _ _ _ _ _ _ R), elem_of_app; by left).
  assert (NoDup (idx :: (l1 ++ l2).*1)) as Hnd.
  { pose proof (rep_nodup _ _ _ _ _ _ R) as (Hnd & _ & _)%list.NoDup_app.
    rewrite fmap_app, fmap_cons in *. by rewrite <- Permutation_middle in Hnd. }
  split; [done|]. split; [done|]. split.
  - destruct (rep_item _ _ _ _ _ _ idx R Hi) as (n & En & Es & [[_ Hu]|[Hu Hd]]); [done|].
    exists n. split_and!; try done. simpl in Hd. apply list.NoDup_cons in Hnd as [Hnd _].
    apply elem_of_app in Hd. rewrite elem_of_cons in Hd. destruct Hd as [Hd|[[= ->]|Hd]]; [|done|];
      exfalso; apply Hnd, list_elem_of_fmap; exists (idx, data n); (split; [done|]); apply elem_of_app; tauto.
  - pose proof (rep_chain_nodup _ _ _ _ _ _ R) as Hcn. pose proof (rep_chain _ _ _ _ _ _ R) as Hc.
    rewrite !fmap_app, !fmap_cons, <- (assoc_L (++)) in Hcn, Hc. simpl in Hcn, Hc.
    destruct ((slot <$> l2.*1) ++ [TAIL]) as [|q L] eqn:EL; [by destruct (slot <$> l2.*1)|]. by exists q, L.
Qed.

(** The ring of free slots with one more. *)
Lemma ring_give_back (pp : list loc) free k na nf p :
  0 <= k -> zlen pp = 2 ^ k -> zlen free < 2 ^ k -> na + zlen free = nf + 2 ^ k ->
  ring_at pp (2 ^ k) na free -> ring_at (zinsert (nf mod 2 ^ k) p pp) (2 ^ k) na (free ++ [p]).
Proof.
  intros Hk Hpp Hfree E Hr. replace (nf mod 2 ^ k) with ((na + zlen free) mod 2 ^ k).
  - apply ring_at_snoc; try done. apply Z.pow_pos_nonneg; lia.
  - rewrite E. replace (nf + 2 ^ k) with (nf + 1 * 2 ^ k) by lia.
    rewrite Z.mod_add; [done|]. pose proof (Z.pow_pos_nonneg 2 k). lia.
Qed.

(** A used slot that is removed leaves the list and goes to the end of the free
    ones. *)
Lemma pointer_slot_remove_wp release s l1 idx d l2 free k na nf :
  rep_at s (l1 ++ (idx, d) :: l2) free k na nf ->
  wpm (muggle_pointer_slot_remove release idx) s (fun r s' =>
    r = MUGGLE_OK /\ rep_at s' (l1 ++ l2) (free ++ [idx]) k na (nf + 1)).
Proof.
  intros R. pose proof R as []. 
  destruct (used_slot _ _ _ _ _ _ _ _ _ R) as (Hi & Hnd & (n & En & Es & Hu & _) & q & L & EL & Hc & Hcn).
  unfold muggle_pointer_slot_remove. apply wpm_bind, wpm_get_fld. rewrite rep_cap0, rep_free0, ring_index_u32 by lia.
  destruct (Z.leb_spec (2 ^ k) idx); [lia|]. apply wpm_bind, (wpm_load _ n); [done|]. rewrite Hu. simpl (1 =? 0). cbv iota zeta.
  pose proof (Z.mod_pos_bound nf (2 ^ k) ltac:(lia)). apply wpm_bind, set_pp_wp; [lia|].
  apply wpm_bind. eapply unlink_wp; [exact Hc|exact Hcn|]. cbn [mem ar fld calls]. intros m' Hc' Hf.
  destruct (frames_lookup _ _ _ _ _ Hf En) as (n' & En' & Hn'). simpl in Hn'. injection Hn' as Hn1 Hn2 Hn3.
  apply wpm_bind, (wpm_modify _ _ n'); [done|].
  do 3 (apply wpm_bind; eapply wpm_modify; [simpl; by rewrite lookup_insert_eq|]).
  apply wpm_bind, wpm_set_fld, wpm_ret. cbn [mem ar fld calls]. rewrite !insert_insert_eq. simpl. split; [done|].
  pose proof (rep_len _ _ _ _ _ _ R) as Hlen. rewrite zlen_app, zlen_cons in Hlen, rep_used0.
  pose proof (zlen_nonneg l1). pose proof (zlen_nonneg l2).
  constructor; cbn [mem fld set_free_index set_pp_slots capacity alloc_index free_index pp_slots]; try done.
  - rewrite !fmap_app, <- (assoc_L (++)), EL. apply chain_insert_new; [|done].
    change (HEAD :: ?x ++ ?y) with ((HEAD :: x) ++ y). change (HEAD :: ?x ++ ?y) with ((HEAD :: x) ++ y) in Hcn.
    rewrite <- Permutation_middle in Hcn. by apply list.NoDup_cons in Hcn as [Hcn _].
  - apply (cells_update (mem s) _ (l1 ++ (idx, d) :: l2) _ k idx (idx, 0, NULL)); [done|..].
    + intros i Hij. rewrite payload_of_insert, decide_False by (intros ?%(inj slot); by subst). apply Hf.
    + rewrite payload_of_insert, decide_True by done. simpl. congruence.
    + split; [done|]. left. split; [done|]. by apply list.NoDup_cons in Hnd as [Hnd _].
    + intros i d' Hij. rewrite !elem_of_app, elem_of_cons. naive_solver.
  - rewrite <- rep_slots0, !fmap_app, fmap_cons, <- !(assoc_L (++)). simpl.
    by rewrite <- (Permutation_middle l1.*1), (Permutation_cons_append (_ ++ _ ++ _)), <- !(assoc_L (++)).
  - rewrite rep_free0. apply u32_add.
  - rewrite zlen_app. lia.
  - by rewrite zlen_zinsert.
  - unfold zinsert. apply Forall_insert; [done|]. by exists idx.
  - rewrite fmap_app. apply ring_give_back; try done; unfold zlen in *; rewrite ?length_fmap; lia.
Qed.

(** get returns the data of a used slot and NULL for the others; an assertion fails
    beyond the capacity in a debug build. *)
Lemma pointer_slot_get_wp release s l free k na nf idx :
  rep_at s l free k na nf -> 0 <= idx -> release || (idx <? 2 ^ k) = true ->
  exists d, muggle_pointer_slot_get release idx s = Done (d, s) /\
    ((idx, d) ∈ l \/ idx ∉ l.*1 /\ d = NULL).
Proof.
  intros R Hidx Hrel. unfold muggle_pointer_slot_get, MUGGLE_ASSERT, get_fld, load, mbind, M_bind. cbv beta.
  rewrite (rep_cap _ _ _ _ _ _ R), Hrel. destruct (Z.leb_spec (2 ^ k) idx).
  - exists NULL. split; [done|]. right. split; [|done]. intros Hin.
    assert (0 <= idx < 2 ^ k); [|lia]. apply (rep_elem _ _ _ _ _ _ _ R), elem_of_app. by left.
  - destruct (rep_item _ _ _ _ _ _ idx R ltac:(lia)) as (n & -> & _ & [[Hu Hn]|[Hu Hd]]); simpl in *; rewrite Hu; simpl.
    + exists NULL. split; [done|]. by right.
    + exists (data n). split; [done|]. by left.
Qed.

(** A suffix of the list of used slots from its first node. *)
Lemma rep_suffix s l1 l2 free k na nf :
  rep_at s (l1 ++ l2) free k na nf ->
  match l2 with
  | [] => True
  | (i, d) :: l3 => exists n, mem s !! slot i = Some n /\ data n = d /\
                      item_next n = hd TAIL (slot <$> l3.*1)
  end.
Proof.
  destruct l2 as [|[i d] l3]; [done|]. intros R.
  destruct (used_slot _ _ _ _ _ _ _ _ _ R) as (_ & _ & (n & En & _ & _ & Ed) & q & L & EL & Hc & _).
  exists n. split; [done|]. split; [done|].
  unfold chain in Hc. apply dchain_app in Hc as (_ & _ & (n' & En' & Hn')%nextof_Some & _).
  rewrite En in En'. injection En' as <-. simpl in Hn'. rewrite Hn'. destruct l3 as [|[j e] l3]; simpl in EL; by injection EL.
Qed.

Lemma used_le_cells s l free k na nf : rep_at s l free k na nf -> (length l <= size (mem s))%nat.
Proof.
  intros R. pose proof (rep_nodup _ _ _ _ _ _ R) as (Hnd & _ & _)%list.NoDup_app.
  rewrite <- size_dom. transitivity (size (list_to_set (slot <$> l.*1) : gset loc)).
  - rewrite size_list_to_set by (by apply (NoDup_fmap_2 slot)). by rewrite !length_fmap.
  - apply subseteq_size. intros p (i & -> & Hi)%elem_of_list_to_set%list_elem_of_fmap.
    destruct (rep_item _ _ _ _ _ _ i R) as (n & En & _); [|by apply elem_of_dom].
    apply (rep_elem _ _ _ _ _ _ _ R), elem_of_app. by left.
Qed.

(** The iterator visits the used slots in the order in which they were taken. *)
Lemma pointer_slot_iter_wp s l free k na nf :
  rep_at s l free k na nf -> wpm iter_all s (fun ds s' => ds = l.*2 /\ s' = s).
Proof.
  intros R. unfold iter_all, muggle_pointer_slot_iter_begin, muggle_pointer_slot_iter_end.
  assert (exists n, mem s !! HEAD = Some n /\ item_next n = hd TAIL (slot <$> l.*1)) as (n & En & Hn).
  { pose proof (rep_chain _ _ _ _ _ _ R) as Hc. destruct l as [|[i d] l]; simpl in Hc;
      [|destruct Hc as [Hc _]]; [destruct Hc as [Hc _]|]; apply nextof_Some in Hc as (n & ? & ?); by exists n. }
  apply wpm_bind, wpm_bind, (wpm_load _ n); [done|]. apply wpm_ret, wpm_bind, wpm_ret, wpm_bind, wpm_count. rewrite Hn.
  apply (wpm_loop _ (fun x s' => s' = s /\ exists l1 l2, l = l1 ++ l2 /\ x = (hd TAIL (slot <$> l2.*1), l1.*2))
    (fun x s' => (length l - length x.2)%nat)).
  - intros x s' (-> & l1 & l2 & -> & ->). pose proof (rep_suffix _ _ _ _ _ _ _ R) as Hs.
    destruct l2 as [|[i d] l2]; cbn [hd fmap list_fmap fst].
    + rewrite bool_decide_true by done. apply wpm_ret. by rewrite app_nil_r.
    + destruct Hs as (n' & En' & Ed & Hn'). destruct (used_slot _ _ _ _ _ _ _ _ _ R) as (Hi & _).
      rewrite bool_decide_false by (apply slot_not_part; lia).
      apply wpm_bind, wpm_bind, (wpm_load _ n'); [done|]. apply wpm_ret, wpm_bind, (wpm_load _ n'); [done|].
      apply wpm_ret. split; [split; [done|]|].
      * exists (l1 ++ [(i, d)]), l2. rewrite <- (assoc_L (++)), fmap_app. split; [done|]. by rewrite Hn', Ed.
      * simpl. rewrite !length_app, !length_fmap. simpl. lia.
  - split; [done|]. by exists [], l.
  - pose proof (used_le_cells _ _ _ _ _ _ R). simpl. lia.
Qed.
(** ** init *)

Lemma lookup_items_at (items : list muggle_pointer_slot_item) i :
  0 <= i < zlen items -> exists n, items_at items !! slot i = Some n.
Proof.
  intros Hi. unfold items_at. destruct (zlookup_is_Some items i Hi) as [n En]. exists n.
  rewrite zlookup_nonneg in En by lia. apply elem_of_list_to_map.
  - rewrite fmap_imap. replace (imap _ _) with (imap (fun i (_ : muggle_pointer_slot_item) => slot (Z.of_nat i)) items)
      by (apply imap_ext; done).
    apply NoDup_alt. intros a b x. rewrite !list_lookup_imap. destruct (items !! a), (items !! b); simpl; try done.
    intros [= <-] [= E]. lia.
  - apply elem_of_lookup_imap. exists (Z.to_nat i), n. split; [|done]. f_equal. f_equal. lia.
Qed.

(** The loop of init: slots below [i] are set up. *)
Definition init_inv (cap i : Z) s : Prop :=
  (exists x y, mem s !! HEAD = Some x /\ mem s !! TAIL = Some y) /\
  (forall j, 0 <= j < cap -> exists n, mem s !! slot j = Some n /\ (j < i -> payload n = (j, 0, NULL))) /\
  zlen (pp_slots (fld s)) = cap /\
  (forall j, 0 <= j < i -> pp_slots (fld s) @@ j = Some (slot j)) /\
  capacity (fld s) = cap.

Lemma init_slot_wp cap i s :
  0 <= i < cap -> init_inv cap i s -> wpm (init_slot i) s (fun _ => init_inv cap (i + 1)).
Proof.
  intros Hi ((x & y & Hx & Hy) & Hs & Hl & Hp & Hc). destruct (Hs i Hi) as (n & En & _).
  unfold init_slot. apply wpm_bind, (wpm_modify _ _ n); [done|]. apply set_pp_wp; [simpl; lia|].
  pose proof (slot_not_part i ltac:(lia)) as [? ?].
  split; [|split; [|split; [|split]]]; cbn [mem fld set_pp_slots pp_slots capacity]; try done.
  - exists x, y. by rewrite !lookup_insert_ne.
  - intros j Hj. destruct (decide (j = i)) as [->|Hne].
    + eexists. rewrite lookup_insert_eq. by split.
    + destruct (Hs j Hj) as (n' & ? & Hn'). exists n'. rewrite lookup_insert_ne by (intros ?%(inj slot); by subst).
      split; [done|]. intros ?. apply Hn'. lia.
  - by rewrite zlen_zinsert.
  - intros j Hj. destruct (decide (j = i)) as [->|Hne]; [rewrite zlookup_zinsert_eq by lia; done|].
    rewrite zlookup_zinsert_ne by lia. apply Hp. lia.
Qed.

Lemma init_inv_rep k s :
  0 <= k <= 31 -> init_inv (2 ^ k) (2 ^ k) s -> chain (mem s) HEAD [TAIL] LNull ->
  alloc_index (fld s) = 0 -> free_index (fld s) = 0 -> rep_at s [] (seqZ 0 (2 ^ k)) k 0 0.
Proof.
  intros Hk (_ & Hs & Hl & Hp & Hc) Hch Ha Hf. constructor; try done.
  - intros i Hi. destruct (Hs i Hi) as (n & En & Hn). exists (i, 0, NULL). unfold payloadof. rewrite En.
    split; [change (Some (payload n) = Some (i, 0, NULL)); by rewrite Hn by lia|]. split; [done|]. left. split; [done|]. apply not_elem_of_nil.
  - apply list.Forall_lookup. intros i p Hip. assert (0 <= Z.of_nat i < 2 ^ k) as Hi.
    { apply lookup_lt_Some in Hip. unfold zlen in Hl. lia. }
    specialize (Hp _ Hi). rewrite zlookup_nonneg, Nat2Z.id, Hip in Hp by lia. exists (Z.of_nat i). by simplify_eq.
  - intros j Hj. unfold zlen in Hj. rewrite length_fmap, length_seqZ in Hj. rewrite Z.add_0_l, Z.mod_small, Hp by lia.
    rewrite zlookup_nonneg, list_lookup_fmap, lookup_seqZ_lt by lia. simpl. do 2 f_equal. lia.
Qed.

Lemma init_fields_wp k s :
  0 <= k <= 31 -> init_inv (2 ^ k) 0 s ->
  wpm (init_fields (2 ^ k)) s (fun _ s' => rep s' [] /\ capacity (fld s') = 2 ^ k).
Proof.
  intros Hk Hs0. assert (0 < 2 ^ k) by (apply Z.pow_pos_nonneg; lia). unfold init_fields.
  apply wpm_bind, (wpm_for (init_inv (2 ^ k))); [done|intros; by apply init_slot_wp|].
  rewrite Z.max_r by lia. clear s Hs0. intros s Hs. pose proof Hs as ((x & y & Hx & Hy) & Hc & Hl & Hp & Hcap).
  do 2 apply wpm_bind, wpm_set_fld.
  apply wpm_bind, (wpm_modify _ _ x); [done|]. apply wpm_bind. eapply wpm_modify; [simpl; by rewrite lookup_insert_eq|].
  apply wpm_bind, (wpm_modify _ _ y); [simpl; by rewrite !lookup_insert_ne|]. eapply wpm_modify; [simpl; by rewrite lookup_insert_eq|].
  cbn [mem fld ar calls]. rewrite !insert_insert_eq.
  split; [|done]. exists (seqZ 0 (2 ^ k)), k, 0, 0. apply init_inv_rep; try done; cbn [mem fld].
  - split; [|split; [|split; [|split]]]; try done.
    + eexists _, _. cbn [mem]. rewrite lookup_insert_ne, !lookup_insert_eq by done. done.
    + intros j Hj. cbn [mem]. destruct (Hc j Hj) as (n & ? & ?). exists n. pose proof (slot_not_part j ltac:(lia)) as [? ?].
      by rewrite !lookup_insert_ne.
  - unfold chain. cbn [dchain]. unfold nextof, prevof. split; [|split].
    + by rewrite lookup_insert_ne, lookup_insert_eq by done.
    + by rewrite lookup_insert_eq.
    + by rewrite lookup_insert_eq.
Qed.

(** init sets up an empty table when it is asked for a power of two. *)
Lemma pointer_slot_init_wp `{Malloc muggle_pointer_slot_item} `{Malloc loc} h k :
  0 <= k <= 31 ->
  wp (muggle_pointer_slot_init h (2 ^ k)) (fun r => forall s, r = Some s -> rep s [] /\ capacity (fld s) = 2 ^ k).
Proof.
  intros Hk. assert (0 < 2 ^ k < 2 ^ 32) by (split; [apply Z.pow_pos_nonneg|apply Z.pow_lt_mono_r]; lia).
  unfold muggle_pointer_slot_init. destruct (Z.ltb_spec 0 (2 ^ k)); [|lia]. cbv zeta.
  destruct (malloc_cells (2 ^ k) : option (list muggle_pointer_slot_item)) as [items|] eqn:E1; [|done].
  destruct (malloc_cells (2 ^ k) : option (list loc)) as [pp|] eqn:E2; [|done].
  apply malloc_cells_len in E1, E2. rewrite (wrap_small 64), next_pow_of_2_log2_up, Z.log2_up_pow2, wrap_small by lia.
  apply wp_bind. eapply wp_mono; [apply (init_fields_wp k); [done|]|].
  - split; [|split; [|split; [|split]]]; try done; try (intros; lia).
    + exists zero_item, zero_item. cbn [mem].
      by rewrite lookup_insert_eq, lookup_insert_ne, lookup_insert_eq by done.
    + intros j Hj. destruct (lookup_items_at items j ltac:(lia)) as [n En]. exists n.
      pose proof (slot_not_part j ltac:(lia)) as [? ?]. split; [|lia]. simpl. by rewrite !lookup_insert_ne.
    + simpl. lia.
  - intros [[] s'] Hs'. apply wp_ret. intros s [= <-]. done.
Qed.

(** C32: a table of a power of two of slots, as init sets up when it is asked for
    one ([pointer_slot_rounded_capacity] is what other capacities give), is a list
    of used slots.  In release and in debug builds insert takes an unused slot,
    puts it at the end with its data and returns its number, and fails exactly when
    every slot is used, where its assertion holds; remove takes out a used slot;
    get returns the data of a used slot and NULL for an unused one; the iterator
    visits the data in the order of insertion.  On unused slots and on numbers
    beyond the capacity remove returns its error codes without effect in a release
    build, and its assertion fails in a debug build; so does that of get beyond
    the capacity, which returns NULL in a release build. *)
Theorem pointer_slot_refines release s l :
  rep s l ->
  (forall d, wpm (muggle_pointer_slot_insert release d) s (fun '(ret, idx) s' =>
     (ret = MUGGLE_OK /\ exists i, idx = Some i /\ i ∉ l.*1 /\ 0 <= i < capacity (fld s) /\ rep s' (l ++ [(i, d)])) \/
     (ret = MUGGLE_ERR_MEM_ALLOC /\ s' = s /\ zlen l = capacity (fld s)))) /\
  (forall idx, 0 <= idx -> idx ∉ l.*1 ->
     muggle_pointer_slot_remove release idx s =
       if release then
         Done (if capacity (fld s) <=? idx then MUGGLE_ERR_BEYOND_RANGE else MUGGLE_ERR_MEM_DUPLICATE_FREE, s)
       else Undef) /\
  (forall l1 idx d l2, l = l1 ++ (idx, d) :: l2 ->
     wpm (muggle_pointer_slot_remove release idx) s (fun ret s' => ret = MUGGLE_OK /\ rep s' (l1 ++ l2))) /\
  (forall idx, 0 <= idx ->
     if release || (idx <? capacity (fld s)) then
       exists d, muggle_pointer_slot_get release idx s = Done (d, s) /\ ((idx, d) ∈ l \/ idx ∉ l.*1 /\ d = NULL)
     else muggle_pointer_slot_get release idx s = Undef) /\
  wpm iter_all s (fun ds s' => ds = l.*2 /\ s' = s).
Proof.
  intros (free & k & na & nf & R). pose proof R as []. rewrite rep_cap0.
  split; [|split; [|split; [|split]]].
  - intros d. eapply wpm_mono; [by eapply pointer_slot_insert_wp|]. intros r s' Hr.
    pose proof (rep_len _ _ _ _ _ _ R) as Hlen. pose proof (rep_nodup _ _ _ _ _ _ R) as Hnd.
    destruct free as [|i free].
    + destruct Hr as (-> & -> & _). right. split; [done|]. split; [done|].
      unfold zlen in Hlen at 2. simpl in Hlen. lia.
    + destruct Hr as (-> & Hr). left. split; [done|]. exists i. split; [done|].
      apply list.NoDup_app in Hnd as (_ & Hdis & _). split; [intros Hin; apply (Hdis i); [done|left]|].
      split; [apply (rep_elem _ _ _ _ _ _ _ R), elem_of_app; right; left|]. by exists free, k, (na + 1), nf.
  - intros idx ? ?. by eapply pointer_slot_remove_refused.
  - intros l1 idx d l2 ->. eapply wpm_mono; [by eapply pointer_slot_remove_wp|].
    intros r s' [-> Hr]. split; [done|]. by exists (free ++ [idx]), k, na, (nf + 1).
  - intros idx ?. destruct (release || (idx <? 2 ^ k)) eqn:E; [by eapply pointer_slot_get_wp|].
    apply orb_false_iff in E as [-> E]. unfold muggle_pointer_slot_get, MUGGLE_ASSERT, get_fld, mbind, M_bind. cbv beta.
    rewrite rep_cap0, E. apply Z.ltb_ge in E. by rewrite (proj2 (Z.leb_le _ _)) by lia.
  - by eapply pointer_slot_iter_wp.
Qed.
End proofs.

(** ** Witness and where the promises end *)

(** An allocator that never fails, and the table that init returns. *)
Definition new_table (cap : Z) : outcome (option (muggle_pointer_slot (gset Z))) :=
  @muggle_pointer_slot_init (gset Z) (malloc_zeroed zero_item) (malloc_zeroed LNull) ∅ cap.

Fixpoint insert_all (ds : list ptr) : @PM (gset Z) (list (Z * option Z)) :=
  match ds with
  | [] => mret []
  | d :: ds' => r ← muggle_pointer_slot_insert false d; rs ← insert_all ds'; mret (r :: rs)
  end.

(** The results of inserting [ds] into a new table. *)
Definition inserts (cap : Z) (ds : list ptr) : outcome (list (Z * option Z)) :=
  t ← new_table cap;
  match t with
  | Some s => r ← insert_all ds s; mret (r.1 : list (Z * option Z))
  | None => mret []
  end.

(** In a debug build, on a new table. *)
Lemma pointer_slot_refines_witness :
  exists s, new_table 4 = Done (Some s) /\ rep s [] /\
    wpm (muggle_pointer_slot_insert false 70) s (fun '(ret, idx) s' =>
      ret = MUGGLE_OK /\ exists i, idx = Some i /\ 0 <= i < capacity (fld s) /\ rep s' [(i, 70)]) /\
    muggle_pointer_slot_remove false 1 s = Undef.
Proof.
  assert (match new_table 4 with Done (Some _) => true | _ => false end = true) as Ht by (vm_compute; reflexivity).
  pose proof (@pointer_slot_init_wp (gset Z) (malloc_zeroed zero_item) (malloc_zeroed LNull) ∅ 2 ltac:(lia)) as Hw.
  change (wp (new_table 4) (fun r => forall s, r = Some s -> rep s [] /\ capacity (fld s) = 2 ^ 2)) in Hw.
  destruct (new_table 4) as [[s|]| |]; [|discriminate Ht..]. rename Hw into Hs.
  destruct (Hs s eq_refl) as [R Hc]. exists s. split; [reflexivity|]. split; [exact R|].
  destruct (@pointer_slot_refines (gset Z) false s [] R) as (Hi & Hr & _). split.
  - eapply wpm_mono; [exact (Hi 70)|]. rewrite Hc. intros [ret idx] s' [(Hret & i & Hidx & _ & Hir & R')|(_ & _ & Hfull)].
    + split; [exact Hret|]. exists i. split; [exact Hidx|]. split; [exact Hir|exact R'].
    + discriminate Hfull.
  - apply (Hr 1); [lia|]. apply not_elem_of_nil.
Defined.

(** A table of two slots is full after two insertions. *)
Example pointer_slot_full :
  inserts 2 [70; 71; 72] =
    Done [(MUGGLE_OK, Some 0); (MUGGLE_OK, Some 1); (MUGGLE_ERR_MEM_ALLOC, None)].
Proof. vm_compute. reflexivity. Qed.

(** A table for three slots has arrays of three cells and a capacity of four:
    the fourth insertion and a remove of slot 3 run beyond the arrays. *)
Example pointer_slot_rounded_capacity :
  inserts 3 [70; 71; 72] = Done [(MUGGLE_OK, Some 0); (MUGGLE_OK, Some 1); (MUGGLE_OK, Some 2)] /\
  inserts 3 [70; 71; 72; 73] = Undef /\
  (t ← new_table 3;
   match t with Some s => (muggle_pointer_slot_remove true 3 s : outcome (Z * _)) | None => Undef end) = Undef.
Proof. vm_compute. done. Qed.
End PointerSlot.
