(* ===== verification/Bits.v ===== *)
(** Bit-level arithmetic on machine words shared by the crypt components:
    ranges of the bitwise operations, rotations, exclusive-or equations, and
    the little-endian view of a word as bytes. *)

From stdpp Require Import base list numbers.
From Stdlib Require Import ZArith Lia Btauto.
From S2P Require Import Prelude.

Open Scope Z_scope.

(** [x] is a [w]-bit unsigned value. *)
Definition is_word (w x : Z) : Prop := 0 <= x < 2 ^ w.

Lemma is_word_bits w x :
  0 <= w -> is_word w x <-> 0 <= x /\ forall n, w <= n -> Z.testbit x n = false.
Proof.
  intros Hw. split.
  - intros [H0 Hx]. split; [done|]. intros n Hn.
    rewrite <- (Z.mod_small x (2 ^ w)) by done. apply Z.mod_pow2_bits_high. lia.
  - intros [H0 Hb]. split; [done|]. destruct (decide (x = 0)) as [->|]; [apply Z.pow_pos_nonneg; lia|].
    apply Z.log2_lt_pow2; [lia|]. apply Z.nle_gt. intros Hle.
    pose proof (Z.bit_log2 x ltac:(lia)). rewrite Hb in * by done. done.
Qed.

Lemma is_word_lxor w x y : 0 <= w -> is_word w x -> is_word w y -> is_word w (Z.lxor x y).
Proof.
  intros Hw. rewrite !is_word_bits by done. intros [Hx Bx] [Hy By]. split.
  - by apply Z.lxor_nonneg.
  - intros n Hn. rewrite Z.lxor_spec, Bx, By by done. done.
Qed.

Lemma is_word_lor w x y : 0 <= w -> is_word w x -> is_word w y -> is_word w (Z.lor x y).
Proof.
  intros Hw. rewrite !is_word_bits by done. intros [Hx Bx] [Hy By]. split.
  - by apply Z.lor_nonneg.
  - intros n Hn. rewrite Z.lor_spec, Bx, By by done. done.
Qed.

Lemma is_word_land w x y : 0 <= w -> is_word w y -> is_word w (Z.land x y).
Proof.
  intros Hw. rewrite !is_word_bits by done. intros [Hy By]. split.
  - apply Z.land_nonneg. by right.
  - intros n Hn. rewrite Z.land_spec, By by done. apply andb_false_r.
Qed.

Lemma is_word_wrap w x : 0 <= w -> is_word w (wrap w x).
Proof. apply wrap_range. Qed.

Lemma is_word_shiftr w x n : 0 <= w -> 0 <= n -> is_word w x -> is_word w (Z.shiftr x n).
Proof.
  intros Hw Hn. rewrite !is_word_bits by done. intros [Hx Bx]. split.
  - by apply Z.shiftr_nonneg.
  - intros k Hk. rewrite Z.shiftr_spec by lia. apply Bx. lia.
Qed.

Lemma wrap_spec w x n :
  0 <= w -> 0 <= n -> Z.testbit (wrap w x) n = (n <? w) && Z.testbit x n.
Proof.
  intros Hw Hn. unfold wrap. destruct (Z.ltb_spec n w).
  - by rewrite Z.mod_pow2_bits_low by lia.
  - by rewrite Z.mod_pow2_bits_high by lia.
Qed.

Create HintDb words.
#[export] Hint Resolve is_word_lxor is_word_lor is_word_land is_word_wrap is_word_shiftr : words.
#[export] Hint Extern 1 (0 <= _) => lia : words.

(** Rewrite the bits of a goal [Z.testbit _ _ = _] into booleans. *)
#[export] Hint Rewrite Z.lxor_spec Z.lor_spec Z.land_spec Z.bits_0 : bits.

(** [xor_solve]: an equation between exclusive ors of the same terms. *)
Ltac xor_solve :=
  apply Z.bits_inj'; let n := fresh "n" in let Hn := fresh "Hn" in
  intros n Hn; rewrite ?Z.lxor_spec, ?Z.bits_0; btauto.

Lemma lxor_cancel_r x y : Z.lxor (Z.lxor x y) y = x.
Proof. xor_solve. Qed.

(** A word is equal to another when their low bits are. *)
Lemma word_bits_inj w x y :
  0 <= w -> is_word w x -> is_word w y ->
  (forall n, 0 <= n < w -> Z.testbit x n = Z.testbit y n) -> x = y.
Proof.
  intros Hw Hx Hy H. apply is_word_bits in Hx as [_ Hx], Hy as [_ Hy]; [|done..].
  apply Z.bits_inj'. intros n Hn. destruct (decide (n < w)); [apply H; lia|].
  rewrite Hx, Hy by lia. done.
Qed.

(** ** Rotations *)

(** [(v >> n) + (v << (w - n))] on [w]-bit words. *)
Definition rotr (w v n : Z) : Z := wrap w (Z.shiftr v n + wrap w (Z.shiftl v (w - n))).

Lemma rotr_spec w v n i :
  0 <= n <= w -> is_word w v -> 0 <= i < w ->
  Z.testbit (rotr w v n) i =
    if decide (i < w - n) then Z.testbit v (i + n) else Z.testbit v (i + n - w).
Proof.
  intros Hn Hv Hi. unfold rotr.
  assert (Z.land (Z.shiftr v n) (wrap w (Z.shiftl v (w - n))) = 0) as Hd.
  { apply Z.bits_inj'. intros k Hk. rewrite Z.land_spec, Z.bits_0, wrap_spec by lia.
    rewrite Z.shiftr_spec, Z.shiftl_spec by lia.
    apply is_word_bits in Hv as [_ Hv]; [|lia].
    destruct (decide (w <= k + n)); [by rewrite Hv|].
    rewrite (Z.testbit_neg_r v (k - (w - n))) by lia. by rewrite !andb_false_r. }
  rewrite Z.add_nocarry_lxor, wrap_spec, Z.lxor_spec, wrap_spec by (done || lia).
  rewrite (proj2 (Z.ltb_lt i w)) by lia. cbn [andb].
  rewrite Z.shiftr_spec, Z.shiftl_spec by lia. case_decide.
  - rewrite (Z.testbit_neg_r v (i - (w - n))), xorb_false_r by lia. done.
  - apply is_word_bits in Hv as [_ Hv]; [|lia]. rewrite Hv, xorb_false_l by lia. f_equal. lia.
Qed.

Lemma is_word_rotr w v n : 0 <= w -> is_word w (rotr w v n).
Proof. apply is_word_wrap. Qed.

Lemma rotr_rotr w v a b :
  0 <= a -> 0 <= b -> a + b = w -> is_word w v -> rotr w (rotr w v a) b = v.
Proof.
  intros Ha Hb Hw Hv. apply (word_bits_inj w); auto using is_word_rotr with lia.
  intros n Hn. rewrite rotr_spec by auto using is_word_rotr with lia.
  case_decide; rewrite rotr_spec by (auto with lia); case_decide; try lia; f_equal; lia.
Qed.

(** ** Little-endian bytes *)
Fixpoint le_bytes (n : nat) (x : Z) : list Z :=
  match n with
  | O => []
  | S n' => x mod 256 :: le_bytes n' (x / 256)
  end.

Fixpoint le_word (bs : list Z) : Z :=
  match bs with
  | [] => 0
  | b :: bs' => b + 256 * le_word bs'
  end.

Definition is_bytes (bs : list Z) : Prop := Forall (is_word 8) bs.

Lemma le_bytes_length n x : length (le_bytes n x) = n.
Proof. revert x. induction n; intros; simpl; auto. Qed.

Lemma le_bytes_is_bytes n x : is_bytes (le_bytes n x).
Proof.
  revert x. induction n; intros; simpl; constructor; [|apply IHn].
  apply Z.mod_pos_bound. lia.
Qed.

Lemma le_bytes_word n bs : length bs = n -> is_bytes bs -> le_bytes n (le_word bs) = bs.
Proof.
  intros <-. induction 1 as [|b bs [Hb Hb'] _ IH]; simpl; [done|]. change (2 ^ 8) with 256 in Hb'.
  rewrite Z.mul_comm, Z.mod_add, Z.div_add, Z.mod_small, Z.div_small by lia.
  by rewrite Z.add_0_l, IH.
Qed.

Lemma le_word_bytes n x : 0 <= x < 256 ^ Z.of_nat n -> le_word (le_bytes n x) = x.
Proof.
  revert x. induction n as [|n IH]; intros x Hx; simpl; [change (256 ^ Z.of_nat 0) with 1 in Hx; lia|].
  rewrite Nat2Z.inj_succ, Z.pow_succ_r in Hx by lia.
  rewrite IH; [pose proof (Z.div_mod x 256); lia|].
  split; [apply Z.div_pos; lia|]. apply Z.div_lt_upper_bound; lia.
Qed.

Lemma le_word_range bs : is_bytes bs -> 0 <= le_word bs < 256 ^ zlen bs.
Proof.
  induction 1 as [|b bs [Hb Hb'] _ IH]; [unfold zlen; simpl; lia|].
  change (2 ^ 8) with 256 in Hb'. rewrite zlen_cons, Z.pow_add_r by (pose proof (zlen_nonneg bs); lia).
  simpl. lia.
Qed.

(** ** One byte of a word *)
Definition byte (k w : Z) : Z := wrap 8 (Z.shiftr w (8 * k)).

Lemma byte_spec k w i : 0 <= k -> 0 <= i < 8 -> Z.testbit (byte k w) i = Z.testbit w (8 * k + i).
Proof.
  intros Hk Hi. unfold byte. rewrite wrap_spec, Z.shiftr_spec by lia.
  rewrite (proj2 (Z.ltb_lt i 8)) by lia. cbn [andb]. f_equal. lia.
Qed.

Lemma is_word_byte k w : is_word 8 (byte k w).
Proof. by apply is_word_wrap. Qed.

Lemma byte_succ k w : 0 <= k -> byte k (w / 256) = byte (Z.succ k) w.
Proof.
  intros Hk. unfold byte. f_equal. replace (8 * Z.succ k) with (8 + 8 * k) by lia.
  rewrite <- Z.shiftr_shiftr by lia. f_equal. by rewrite Z.shiftr_div_pow2 by lia.
Qed.

Lemma le_bytes_byte n w : le_bytes n w = (fun k => byte (Z.of_nat k) w) <$> seq 0 n.
Proof.
  revert w. induction n as [|n IH]; intros w; [done|]. simpl.
  apply (f_equal2 cons); [unfold byte, wrap; by rewrite Z.shiftr_0_r|].
  rewrite IH, <- fmap_S_seq, <- list_fmap_compose. apply list_fmap_ext. intros _ k _. simpl.
  rewrite byte_succ by lia. by rewrite <- Nat2Z.inj_succ.
Qed.

(** Two bytes are equal when the bits of the words they come from are. *)
Lemma byte_ext k w b :
  0 <= k -> is_word 8 b -> (forall i, 0 <= i < 8 -> Z.testbit w (8 * k + i) = Z.testbit b i) ->
  byte k w = b.
Proof.
  intros Hk Hb H. apply (word_bits_inj 8); [done|apply is_word_byte|done|].
  intros i Hi. by rewrite byte_spec, H by done.
Qed.

Lemma byte_lxor k x y : 0 <= k -> byte k (Z.lxor x y) = Z.lxor (byte k x) (byte k y).
Proof.
  intros Hk. apply byte_ext; [done|apply is_word_lxor; auto using is_word_byte; done|].
  intros i Hi. by rewrite !Z.lxor_spec, !byte_spec by done.
Qed.
