(* ===== verification/CryptUtils.v ===== *)
(** muggle/c/crypt/crypt_utils.{h,c} and internal_des.h: the constants of the
    cipher interfaces, the 64-bit block union and its bit rotations; and the
    Feistel scheme DES is an instance of. *)

From stdpp Require Import base list numbers.
From Stdlib Require Import ZArith Lia.
From S2P Require Import Prelude Bits.

Open Scope Z_scope.

Module CryptUtils.

Definition MUGGLE_DECRYPT : Z := 0.
Definition MUGGLE_ENCRYPT : Z := 1.

Definition MUGGLE_BLOCK_CIPHER_MODE_ECB : Z := 0.
Definition MUGGLE_BLOCK_CIPHER_MODE_CBC : Z := 1.
Definition MUGGLE_BLOCK_CIPHER_MODE_CFB : Z := 2.
Definition MUGGLE_BLOCK_CIPHER_MODE_OFB : Z := 3.
Definition MUGGLE_BLOCK_CIPHER_MODE_CTR : Z := 4.
Definition MAX_MUGGLE_BLOCK_CIPHER_MODE : Z := 5.

(** The union [muggle_64bit_block_t], seen as its two 32-bit halves; the other
    members are views of them on a little-endian machine. *)
Record muggle_64bit_block := mkb { u32_l : Z; u32_h : Z }.

Definition block_bytes (b : muggle_64bit_block) : list Z :=
  le_bytes 4 (u32_l b) ++ le_bytes 4 (u32_h b).
Definition block_u64 (b : muggle_64bit_block) : Z := u32_l b + 2 ^ 32 * u32_h b.
Definition block_of_u64 (x : Z) : muggle_64bit_block := mkb (x mod 2 ^ 32) (x / 2 ^ 32).
Definition block_of_bytes (bs : list Z) : muggle_64bit_block :=
  mkb (le_word (take 4 bs)) (le_word (take 4 (drop 4 bs))).

Definition is_block (b : muggle_64bit_block) : Prop := is_word 32 (u32_l b) /\ is_word 32 (u32_h b).

Lemma block_bytes_of_bytes bs :
  length bs = 8%nat -> is_bytes bs -> block_bytes (block_of_bytes bs) = bs.
Proof.
  intros Hl Hb. unfold block_bytes, block_of_bytes. cbn [u32_l u32_h].
  assert (length (take 4 bs) = 4%nat) as Hl1 by (rewrite length_take; lia).
  assert (take 4 (drop 4 bs) = drop 4 bs) as -> by (apply take_ge; rewrite length_drop; lia).
  assert (length (drop 4 bs) = 4%nat) as Hl2 by (rewrite length_drop; lia).
  rewrite !le_bytes_word by (done || apply Forall_take, Hb || apply Forall_drop, Hb).
  apply take_drop.
Qed.

Lemma block_of_bytes_is_block bs : length bs = 8%nat -> is_bytes bs -> is_block (block_of_bytes bs).
Proof.
  intros Hl Hb. split; simpl; unfold is_word.
  - pose proof (le_word_range (take 4 bs) (Forall_take _ _ _ Hb)).
    unfold zlen in *. rewrite length_take in *. by replace (4 `min` length bs)%nat with 4%nat in * by lia.
  - pose proof (le_word_range (take 4 (drop 4 bs)) (Forall_take _ _ _ (Forall_drop _ _ _ Hb))).
    unfold zlen in *. rewrite length_take, length_drop in *.
    by replace (4 `min` (length bs - 4))%nat with 4%nat in * by lia.
Qed.

Lemma block_of_bytes_bytes b : is_block b -> block_of_bytes (block_bytes b) = b.
Proof.
  intros [Hl Hh]. destruct b as [l h]. unfold block_of_bytes, block_bytes. simpl in *.
  f_equal; apply (le_word_bytes 4); done.
Qed.

(** [bytes[row_idx]] rotated left by [step] bits. *)
Definition muggle_8x8bit_rotate_row (bytes : list Z) (row_idx step : Z) : outcome (list Z) :=
  c ← aget bytes row_idx;
  aset bytes row_idx (u8 (Z.lor (Z.shiftl c step) (Z.shiftr c (8 - step)))).

Definition MUGGLE_8X8BITS_COL_MASK : Z := 0x0101010101010101.

(** One bit column of the 8x8 bit matrix rotated by [step] rows. *)
Definition muggle_8x8bit_rotate_col (x : Z) (col_idx step : Z) : Z :=
  let step := u32 (step * 8) in
  let mask := u64 (Z.shiftl MUGGLE_8X8BITS_COL_MASK col_idx) in
  let v := Z.land x mask in
  Z.lor (Z.lor (u64 (Z.shiftl v step)) (Z.shiftr v (64 - step)))
        (Z.land x (u64 (Z.lnot mask))).

(** ** Feistel networks

    Each round replaces [(l, r)] by [(r, l xor F r k)]. *)
Section feistel.
Context {K : Type} (F : Z -> K -> Z).

Fixpoint feistel (ks : list K) (l r : Z) : Z * Z :=
  match ks with
  | [] => (l, r)
  | k :: ks => feistel ks r (Z.lxor l (F r k))
  end.

Lemma feistel_app ks1 ks2 l r :
  feistel (ks1 ++ ks2) l r = let (l', r') := feistel ks1 l r in feistel ks2 l' r'.
Proof. revert l r. induction ks1; intros; simpl; auto. Qed.

(** With the keys reversed and the halves exchanged, a network undoes itself. *)
Lemma feistel_rev ks l r :
  let (l', r') := feistel ks l r in feistel (rev ks) r' l' = (r, l).
Proof.
  revert l r. induction ks as [|k ks IH]; intros l r; simpl; [done|].
  specialize (IH r (Z.lxor l (F r k))). destruct (feistel ks _ _) as [l' r'].
  rewrite feistel_app, IH. simpl. by rewrite lxor_cancel_r.
Qed.

Lemma feistel_is_word w ks l r :
  0 <= w -> (forall x k, is_word w (F x k)) -> is_word w l -> is_word w r ->
  is_word w (feistel ks l r).1 /\ is_word w (feistel ks l r).2.
Proof.
  intros Hw HF. revert l r. induction ks; intros; simpl; auto using is_word_lxor.
Qed.
End feistel.

End CryptUtils.
