(* ===== verification/CryptOutput.v ===== *)
(** muggle/c/crypt/crypt_utils.c: the functions that print bytes, as the characters
    they print. *)

From stdpp Require Import base list numbers.
From Stdlib Require Import ZArith Lia.
From S2P Require Import Prelude Bits.

Open Scope Z_scope.

Module CryptOutput.

(** ' ' and '\n', and the digits of "%x". *)
Definition SPACE : Z := 32.
Definition NEWLINE : Z := 10.
Definition hex_char (d : Z) : Z := if d <? 10 then 48 + d else 87 + d.

(** The loop of muggle_output_hex over the rest of the bytes, [cnt] of which are
    already in the line. *)
Fixpoint output_hex_loop (bytes : list Z) (cnt bytes_per_line : Z) : list Z :=
  match bytes with
  | [] => []
  | b :: bytes =>
      let v := Z.land 255 b in
      [hex_char (v / 16); hex_char (v mod 16); SPACE] ++
      (if bytes_per_line >? 0 then
         let cnt := i32 (cnt + 1) in
         if cnt =? bytes_per_line then NEWLINE :: output_hex_loop bytes 0 bytes_per_line
         else output_hex_loop bytes cnt bytes_per_line
       else output_hex_loop bytes cnt bytes_per_line)
  end.
Definition muggle_output_hex (bytes : list Z) (len bytes_per_line : Z) : outcome (list Z) :=
  bs ← mem_read bytes 0 len; mret (output_hex_loop bs 0 bytes_per_line ++ [NEWLINE]).

(** [(0x01 << j) & bytes[i]], as "0 " or "1 ". *)
Definition output_bin_row (b col : Z) : list Z :=
  flat_map (fun j => [if Z.land (u32 (Z.shiftl 1 j)) b =? 0 then 48 else 49; SPACE]) (seqZ 0 col) ++ [NEWLINE].
Definition muggle_output_bin (bytes : list Z) (row col : Z) : outcome (list Z) :=
  bs ← mem_read bytes 0 row; mret (flat_map (fun b => output_bin_row b col) bs).

(** ** Reading it back *)
Definition hex_val (c : Z) : option Z :=
  if (48 <=? c) && (c <=? 57) then Some (c - 48) else if (97 <=? c) && (c <=? 102) then Some (c - 87) else None.

(** Two digits are a byte; other characters are skipped. *)
Fixpoint read_hex (s : list Z) : list Z :=
  match s with
  | c :: s1 =>
      match hex_val c with
      | None => read_hex s1
      | Some h =>
          match s1 with
          | d :: s2 => match hex_val d with Some l => (16 * h + l) :: read_hex s2 | None => read_hex s2 end
          | [] => []
          end
      end
  | [] => []
  end.

Lemma hex_val_char d : 0 <= d < 16 -> hex_val (hex_char d) = Some d.
Proof.
  intros Hd. unfold hex_val, hex_char. destruct (Z.ltb_spec d 10).
  - destruct (Z.leb_spec 48 (48 + d)), (Z.leb_spec (48 + d) 57); try lia. simpl. f_equal. lia.
  - destruct (Z.leb_spec 48 (87 + d)), (Z.leb_spec (87 + d) 57); try lia. simpl.
    destruct (Z.leb_spec 97 (87 + d)), (Z.leb_spec (87 + d) 102); try lia. simpl. f_equal. lia.
Qed.

Lemma read_hex_byte v s : 0 <= v < 256 -> read_hex (hex_char (v / 16) :: hex_char (v mod 16) :: SPACE :: s) = v :: read_hex s.
Proof.
  intros Hv. cbn [read_hex]. rewrite hex_val_char by (split; [apply Z.div_pos; lia|apply Z.div_lt_upper_bound; lia]).
  rewrite hex_val_char by (apply Z.mod_pos_bound; lia). simpl. f_equal. pose proof (Z.div_mod v 16). lia.
Qed.

Lemma read_hex_loop bytes bpl : Forall (fun b => 0 <= b < 256) bytes -> forall cnt s, read_hex (output_hex_loop bytes cnt bpl ++ s) = bytes ++ read_hex s.
Proof.
  induction 1 as [|b bytes Hb _ IH]; intros cnt s; [done|]. cbn [output_hex_loop].
  assert (Z.land 255 b = b) as -> by (rewrite Z.land_comm; change 255 with (Z.ones 8); rewrite Z.land_ones by lia; apply Z.mod_small; lia).
  rewrite <- (assoc_L (++)). cbn [app]. rewrite read_hex_byte by done. f_equal.
  destruct (bpl >? 0); [|apply IH]. destruct (_ =? bpl); [|apply IH]. cbn [app read_hex hex_val]. simpl. apply IH.
Qed.

(** What is printed in hexadecimal, with any number of bytes in a line, reads back
    as the bytes. *)
Lemma output_hex_reads bytes len bytes_per_line : Forall (fun b => 0 <= b < 256) bytes -> 0 <= len <= zlen bytes ->
  exists s, muggle_output_hex bytes len bytes_per_line = Done s /\ read_hex s = take (Z.to_nat len) bytes.
Proof.
  intros Hb Hl. unfold muggle_output_hex. rewrite mem_read_ok by lia. eexists. split; [reflexivity|].
  rewrite Z.add_0_l, <- take_seg0, read_hex_loop by (by apply Forall_take). simpl. apply app_nil_r.
Qed.

(** A line of bits has the bits of the byte from the lowest up. *)
Lemma output_bin_bits b col : 0 <= col <= 32 ->
  output_bin_row b col = flat_map (fun j => [if Z.testbit b j then 49 else 48; SPACE]) (seqZ 0 col) ++ [NEWLINE].
Proof.
  intros Hc. unfold output_bin_row. f_equal. rewrite !flat_map_concat_map. f_equal. apply map_ext_in. intros j Hj.
  apply list_elem_of_In, elem_of_seqZ in Hj. rewrite wrap_small by (rewrite Z.shiftl_1_l; split; [lia|apply Z.pow_lt_mono_r; lia]).
  rewrite Z.shiftl_1_l. f_equal. destruct (Z.testbit b j) eqn:E.
  - destruct (Z.eqb_spec (Z.land (2 ^ j) b) 0) as [H|]; [|done]. apply (f_equal (fun x => Z.testbit x j)) in H.
    rewrite Z.land_spec, Z.pow2_bits_true, E, Z.bits_0 in H by lia. done.
  - replace (Z.land (2 ^ j) b) with 0; [done|]. symmetry. apply Z.bits_inj'. intros k Hk. rewrite Z.land_spec, Z.bits_0, Z.pow2_bits_eqb by lia.
    destruct (Z.eqb_spec j k) as [->|]; [by rewrite E|done].
Qed.

Example output_hex_run : muggle_output_hex [0; 171; 16] 3 2 = Done [48; 48; 32; 97; 98; 32; 10; 49; 48; 32; 10].
Proof. reflexivity. Qed.
End CryptOutput.
