(* ===== verification/OpensslDes.v ===== *)
(** muggle/c/crypt/openssl/openssl_des.c: the DES and triple-DES block
    functions that the library is built with (MUGGLE_CRYPT_OPTIMIZATION is set
    in the build file), with their key schedule.  Decryption is shown to undo
    encryption for every key and block, and triple DES to be three DES. *)

From stdpp Require Import base list numbers.
From Stdlib Require Import ZArith Lia Btauto.
From S2P Require Import Prelude Bits CryptUtils Parity.
Import CryptUtils.

Open Scope Z_scope.

Module OpensslDes.

(** The table of PC-2, one row per group of six key bits. *)
Definition openssl_des_skb : list (list Z) :=
  [[0x00000000; 0x00000010; 0x20000000; 0x20000010; 0x00010000; 0x00010010;
    0x20010000; 0x20010010; 0x00000800; 0x00000810; 0x20000800; 0x20000810;
    0x00010800; 0x00010810; 0x20010800; 0x20010810; 0x00000020; 0x00000030;
    0x20000020; 0x20000030; 0x00010020; 0x00010030; 0x20010020; 0x20010030;
    0x00000820; 0x00000830; 0x20000820; 0x20000830; 0x00010820; 0x00010830;
    0x20010820; 0x20010830; 0x00080000; 0x00080010; 0x20080000; 0x20080010;
    0x00090000; 0x00090010; 0x20090000; 0x20090010; 0x00080800; 0x00080810;
    0x20080800; 0x20080810; 0x00090800; 0x00090810; 0x20090800; 0x20090810;
    0x00080020; 0x00080030; 0x20080020; 0x20080030; 0x00090020; 0x00090030;
    0x20090020; 0x20090030; 0x00080820; 0x00080830; 0x20080820; 0x20080830;
    0x00090820; 0x00090830; 0x20090820; 0x20090830];
   [0x00000000; 0x02000000; 0x00002000; 0x02002000; 0x00200000; 0x02200000;
    0x00202000; 0x02202000; 0x00000004; 0x02000004; 0x00002004; 0x02002004;
    0x00200004; 0x02200004; 0x00202004; 0x02202004; 0x00000400; 0x02000400;
    0x00002400; 0x02002400; 0x00200400; 0x02200400; 0x00202400; 0x02202400;
    0x00000404; 0x02000404; 0x00002404; 0x02002404; 0x00200404; 0x02200404;
    0x00202404; 0x02202404; 0x10000000; 0x12000000; 0x10002000; 0x12002000;
    0x10200000; 0x12200000; 0x10202000; 0x12202000; 0x10000004; 0x12000004;
    0x10002004; 0x12002004; 0x10200004; 0x12200004; 0x10202004; 0x12202004;
    0x10000400; 0x12000400; 0x10002400; 0x12002400; 0x10200400; 0x12200400;
    0x10202400; 0x12202400; 0x10000404; 0x12000404; 0x10002404; 0x12002404;
    0x10200404; 0x12200404; 0x10202404; 0x12202404];
   [0x00000000; 0x00000001; 0x00040000; 0x00040001; 0x01000000; 0x01000001;
    0x01040000; 0x01040001; 0x00000002; 0x00000003; 0x00040002; 0x00040003;
    0x01000002; 0x01000003; 0x01040002; 0x01040003; 0x00000200; 0x00000201;
    0x00040200; 0x00040201; 0x01000200; 0x01000201; 0x01040200; 0x01040201;
    0x00000202; 0x00000203; 0x00040202; 0x00040203; 0x01000202; 0x01000203;
    0x01040202; 0x01040203; 0x08000000; 0x08000001; 0x08040000; 0x08040001;
    0x09000000; 0x09000001; 0x09040000; 0x09040001; 0x08000002; 0x08000003;
    0x08040002; 0x08040003; 0x09000002; 0x09000003; 0x09040002; 0x09040003;
    0x08000200; 0x08000201; 0x08040200; 0x08040201; 0x09000200; 0x09000201;
    0x09040200; 0x09040201; 0x08000202; 0x08000203; 0x08040202; 0x08040203;
    0x09000202; 0x09000203; 0x09040202; 0x09040203];
   [0x00000000; 0x00100000; 0x00000100; 0x00100100; 0x00000008; 0x00100008;
    0x00000108; 0x00100108; 0x00001000; 0x00101000; 0x00001100; 0x00101100;
    0x00001008; 0x00101008; 0x00001108; 0x00101108; 0x04000000; 0x04100000;
    0x04000100; 0x04100100; 0x04000008; 0x04100008; 0x04000108; 0x04100108;
    0x04001000; 0x04101000; 0x04001100; 0x04101100; 0x04001008; 0x04101008;
    0x04001108; 0x04101108; 0x00020000; 0x00120000; 0x00020100; 0x00120100;
    0x00020008; 0x00120008; 0x00020108; 0x00120108; 0x00021000; 0x00121000;
    0x00021100; 0x00121100; 0x00021008; 0x00121008; 0x00021108; 0x00121108;
    0x04020000; 0x04120000; 0x04020100; 0x04120100; 0x04020008; 0x04120008;
    0x04020108; 0x04120108; 0x04021000; 0x04121000; 0x04021100; 0x04121100;
    0x04021008; 0x04121008; 0x04021108; 0x04121108];
   [0x00000000; 0x10000000; 0x00010000; 0x10010000; 0x00000004; 0x10000004;
    0x00010004; 0x10010004; 0x20000000; 0x30000000; 0x20010000; 0x30010000;
    0x20000004; 0x30000004; 0x20010004; 0x30010004; 0x00100000; 0x10100000;
    0x00110000; 0x10110000; 0x00100004; 0x10100004; 0x00110004; 0x10110004;
    0x20100000; 0x30100000; 0x20110000; 0x30110000; 0x20100004; 0x30100004;
    0x20110004; 0x30110004; 0x00001000; 0x10001000; 0x00011000; 0x10011000;
    0x00001004; 0x10001004; 0x00011004; 0x10011004; 0x20001000; 0x30001000;
    0x20011000; 0x30011000; 0x20001004; 0x30001004; 0x20011004; 0x30011004;
    0x00101000; 0x10101000; 0x00111000; 0x10111000; 0x00101004; 0x10101004;
    0x00111004; 0x10111004; 0x20101000; 0x30101000; 0x20111000; 0x30111000;
    0x20101004; 0x30101004; 0x20111004; 0x30111004];
   [0x00000000; 0x08000000; 0x00000008; 0x08000008; 0x00000400; 0x08000400;
    0x00000408; 0x08000408; 0x00020000; 0x08020000; 0x00020008; 0x08020008;
    0x00020400; 0x08020400; 0x00020408; 0x08020408; 0x00000001; 0x08000001;
    0x00000009; 0x08000009; 0x00000401; 0x08000401; 0x00000409; 0x08000409;
    0x00020001; 0x08020001; 0x00020009; 0x08020009; 0x00020401; 0x08020401;
    0x00020409; 0x08020409; 0x02000000; 0x0A000000; 0x02000008; 0x0A000008;
    0x02000400; 0x0A000400; 0x02000408; 0x0A000408; 0x02020000; 0x0A020000;
    0x02020008; 0x0A020008; 0x02020400; 0x0A020400; 0x02020408; 0x0A020408;
    0x02000001; 0x0A000001; 0x02000009; 0x0A000009; 0x02000401; 0x0A000401;
    0x02000409; 0x0A000409; 0x02020001; 0x0A020001; 0x02020009; 0x0A020009;
    0x02020401; 0x0A020401; 0x02020409; 0x0A020409];
   [0x00000000; 0x00000100; 0x00080000; 0x00080100; 0x01000000; 0x01000100;
    0x01080000; 0x01080100; 0x00000010; 0x00000110; 0x00080010; 0x00080110;
    0x01000010; 0x01000110; 0x01080010; 0x01080110; 0x00200000; 0x00200100;
    0x00280000; 0x00280100; 0x01200000; 0x01200100; 0x01280000; 0x01280100;
    0x00200010; 0x00200110; 0x00280010; 0x00280110; 0x01200010; 0x01200110;
    0x01280010; 0x01280110; 0x00000200; 0x00000300; 0x00080200; 0x00080300;
    0x01000200; 0x01000300; 0x01080200; 0x01080300; 0x00000210; 0x00000310;
    0x00080210; 0x00080310; 0x01000210; 0x01000310; 0x01080210; 0x01080310;
    0x00200200; 0x00200300; 0x00280200; 0x00280300; 0x01200200; 0x01200300;
    0x01280200; 0x01280300; 0x00200210; 0x00200310; 0x00280210; 0x00280310;
    0x01200210; 0x01200310; 0x01280210; 0x01280310];
   [0x00000000; 0x04000000; 0x00040000; 0x04040000; 0x00000002; 0x04000002;
    0x00040002; 0x04040002; 0x00002000; 0x04002000; 0x00042000; 0x04042000;
    0x00002002; 0x04002002; 0x00042002; 0x04042002; 0x00000020; 0x04000020;
    0x00040020; 0x04040020; 0x00000022; 0x04000022; 0x00040022; 0x04040022;
    0x00002020; 0x04002020; 0x00042020; 0x04042020; 0x00002022; 0x04002022;
    0x00042022; 0x04042022; 0x00000800; 0x04000800; 0x00040800; 0x04040800;
    0x00000802; 0x04000802; 0x00040802; 0x04040802; 0x00002800; 0x04002800;
    0x00042800; 0x04042800; 0x00002802; 0x04002802; 0x00042802; 0x04042802;
    0x00000820; 0x04000820; 0x00040820; 0x04040820; 0x00000822; 0x04000822;
    0x00040822; 0x04040822; 0x00002820; 0x04002820; 0x00042820; 0x04042820;
    0x00002822; 0x04002822; 0x00042822; 0x04042822]].

Definition NUM_WEAK_KEY : Z := 16.
Definition openssl_weak_keys : list (list Z) :=
  [[0x01; 0x01; 0x01; 0x01; 0x01; 0x01; 0x01; 0x01];
   [0xFE; 0xFE; 0xFE; 0xFE; 0xFE; 0xFE; 0xFE; 0xFE];
   [0x1F; 0x1F; 0x1F; 0x1F; 0x0E; 0x0E; 0x0E; 0x0E];
   [0xE0; 0xE0; 0xE0; 0xE0; 0xF1; 0xF1; 0xF1; 0xF1];
   [0x01; 0xFE; 0x01; 0xFE; 0x01; 0xFE; 0x01; 0xFE];
   [0xFE; 0x01; 0xFE; 0x01; 0xFE; 0x01; 0xFE; 0x01];
   [0x1F; 0xE0; 0x1F; 0xE0; 0x0E; 0xF1; 0x0E; 0xF1];
   [0xE0; 0x1F; 0xE0; 0x1F; 0xF1; 0x0E; 0xF1; 0x0E];
   [0x01; 0xE0; 0x01; 0xE0; 0x01; 0xF1; 0x01; 0xF1];
   [0xE0; 0x01; 0xE0; 0x01; 0xF1; 0x01; 0xF1; 0x01];
   [0x1F; 0xFE; 0x1F; 0xFE; 0x0E; 0xFE; 0x0E; 0xFE];
   [0xFE; 0x1F; 0xFE; 0x1F; 0xFE; 0x0E; 0xFE; 0x0E];
   [0x01; 0x1F; 0x01; 0x1F; 0x01; 0x0E; 0x01; 0x0E];
   [0x1F; 0x01; 0x1F; 0x01; 0x0E; 0x01; 0x0E; 0x01];
   [0xE0; 0xFE; 0xE0; 0xFE; 0xF1; 0xFE; 0xF1; 0xFE];
   [0xFE; 0xE0; 0xFE; 0xE0; 0xFE; 0xF1; 0xFE; 0xF1]].

(** The S-boxes combined with the permutation P. *)
Definition openssl_des_sptrans : list (list Z) :=
  [[0x02080800; 0x00080000; 0x02000002; 0x02080802; 0x02000000; 0x00080802;
    0x00080002; 0x02000002; 0x00080802; 0x02080800; 0x02080000; 0x00000802;
    0x02000802; 0x02000000; 0x00000000; 0x00080002; 0x00080000; 0x00000002;
    0x02000800; 0x00080800; 0x02080802; 0x02080000; 0x00000802; 0x02000800;
    0x00000002; 0x00000800; 0x00080800; 0x02080002; 0x00000800; 0x02000802;
    0x02080002; 0x00000000; 0x00000000; 0x02080802; 0x02000800; 0x00080002;
    0x02080800; 0x00080000; 0x00000802; 0x02000800; 0x02080002; 0x00000800;
    0x00080800; 0x02000002; 0x00080802; 0x00000002; 0x02000002; 0x02080000;
    0x02080802; 0x00080800; 0x02080000; 0x02000802; 0x02000000; 0x00000802;
    0x00080002; 0x00000000; 0x00080000; 0x02000000; 0x02000802; 0x02080800;
    0x00000002; 0x02080002; 0x00000800; 0x00080802];
   [0x40108010; 0x00000000; 0x00108000; 0x40100000; 0x40000010; 0x00008010;
    0x40008000; 0x00108000; 0x00008000; 0x40100010; 0x00000010; 0x40008000;
    0x00100010; 0x40108000; 0x40100000; 0x00000010; 0x00100000; 0x40008010;
    0x40100010; 0x00008000; 0x00108010; 0x40000000; 0x00000000; 0x00100010;
    0x40008010; 0x00108010; 0x40108000; 0x40000010; 0x40000000; 0x00100000;
    0x00008010; 0x40108010; 0x00100010; 0x40108000; 0x40008000; 0x00108010;
    0x40108010; 0x00100010; 0x40000010; 0x00000000; 0x40000000; 0x00008010;
    0x00100000; 0x40100010; 0x00008000; 0x40000000; 0x00108010; 0x40008010;
    0x40108000; 0x00008000; 0x00000000; 0x40000010; 0x00000010; 0x40108010;
    0x00108000; 0x40100000; 0x40100010; 0x00100000; 0x00008010; 0x40008000;
    0x40008010; 0x00000010; 0x40100000; 0x00108000];
   [0x04000001; 0x04040100; 0x00000100; 0x04000101; 0x00040001; 0x04000000;
    0x04000101; 0x00040100; 0x04000100; 0x00040000; 0x04040000; 0x00000001;
    0x04040101; 0x00000101; 0x00000001; 0x04040001; 0x00000000; 0x00040001;
    0x04040100; 0x00000100; 0x00000101; 0x04040101; 0x00040000; 0x04000001;
    0x04040001; 0x04000100; 0x00040101; 0x04040000; 0x00040100; 0x00000000;
    0x04000000; 0x00040101; 0x04040100; 0x00000100; 0x00000001; 0x00040000;
    0x00000101; 0x00040001; 0x04040000; 0x04000101; 0x00000000; 0x04040100;
    0x00040100; 0x04040001; 0x00040001; 0x04000000; 0x04040101; 0x00000001;
    0x00040101; 0x04000001; 0x04000000; 0x04040101; 0x00040000; 0x04000100;
    0x04000101; 0x00040100; 0x04000100; 0x00000000; 0x04040001; 0x00000101;
    0x04000001; 0x00040101; 0x00000100; 0x04040000];
   [0x00401008; 0x10001000; 0x00000008; 0x10401008; 0x00000000; 0x10400000;
    0x10001008; 0x00400008; 0x10401000; 0x10000008; 0x10000000; 0x00001008;
    0x10000008; 0x00401008; 0x00400000; 0x10000000; 0x10400008; 0x00401000;
    0x00001000; 0x00000008; 0x00401000; 0x10001008; 0x10400000; 0x00001000;
    0x00001008; 0x00000000; 0x00400008; 0x10401000; 0x10001000; 0x10400008;
    0x10401008; 0x00400000; 0x10400008; 0x00001008; 0x00400000; 0x10000008;
    0x00401000; 0x10001000; 0x00000008; 0x10400000; 0x10001008; 0x00000000;
    0x00001000; 0x00400008; 0x00000000; 0x10400008; 0x10401000; 0x00001000;
    0x10000000; 0x10401008; 0x00401008; 0x00400000; 0x10401008; 0x00000008;
    0x10001000; 0x00401008; 0x00400008; 0x00401000; 0x10400000; 0x10001008;
    0x00001008; 0x10000000; 0x10000008; 0x10401000];
   [0x08000000; 0x00010000; 0x00000400; 0x08010420; 0x08010020; 0x08000400;
    0x00010420; 0x08010000; 0x00010000; 0x00000020; 0x08000020; 0x00010400;
    0x08000420; 0x08010020; 0x08010400; 0x00000000; 0x00010400; 0x08000000;
    0x00010020; 0x00000420; 0x08000400; 0x00010420; 0x00000000; 0x08000020;
    0x00000020; 0x08000420; 0x08010420; 0x00010020; 0x08010000; 0x00000400;
    0x00000420; 0x08010400; 0x08010400; 0x08000420; 0x00010020; 0x08010000;
    0x00010000; 0x00000020; 0x08000020; 0x08000400; 0x08000000; 0x00010400;
    0x08010420; 0x00000000; 0x00010420; 0x08000000; 0x00000400; 0x00010020;
    0x08000420; 0x00000400; 0x00000000; 0x08010420; 0x08010020; 0x08010400;
    0x00000420; 0x00010000; 0x00010400; 0x08010020; 0x08000400; 0x00000420;
    0x00000020; 0x00010420; 0x08010000; 0x08000020];
   [0x80000040; 0x00200040; 0x00000000; 0x80202000; 0x00200040; 0x00002000;
    0x80002040; 0x00200000; 0x00002040; 0x80202040; 0x00202000; 0x80000000;
    0x80002000; 0x80000040; 0x80200000; 0x00202040; 0x00200000; 0x80002040;
    0x80200040; 0x00000000; 0x00002000; 0x00000040; 0x80202000; 0x80200040;
    0x80202040; 0x80200000; 0x80000000; 0x00002040; 0x00000040; 0x00202000;
    0x00202040; 0x80002000; 0x00002040; 0x80000000; 0x80002000; 0x00202040;
    0x80202000; 0x00200040; 0x00000000; 0x80002000; 0x80000000; 0x00002000;
    0x80200040; 0x00200000; 0x00200040; 0x80202040; 0x00202000; 0x00000040;
    0x80202040; 0x00202000; 0x00200000; 0x80002040; 0x80000040; 0x80200000;
    0x00202040; 0x00000000; 0x00002000; 0x80000040; 0x80002040; 0x80202000;
    0x80200000; 0x00002040; 0x00000040; 0x80200040];
   [0x00004000; 0x00000200; 0x01000200; 0x01000004; 0x01004204; 0x00004004;
    0x00004200; 0x00000000; 0x01000000; 0x01000204; 0x00000204; 0x01004000;
    0x00000004; 0x01004200; 0x01004000; 0x00000204; 0x01000204; 0x00004000;
    0x00004004; 0x01004204; 0x00000000; 0x01000200; 0x01000004; 0x00004200;
    0x01004004; 0x00004204; 0x01004200; 0x00000004; 0x00004204; 0x01004004;
    0x00000200; 0x01000000; 0x00004204; 0x01004000; 0x01004004; 0x00000204;
    0x00004000; 0x00000200; 0x01000000; 0x01004004; 0x01000204; 0x00004204;
    0x00004200; 0x00000000; 0x00000200; 0x01000004; 0x00000004; 0x01000200;
    0x00000000; 0x01000204; 0x01000200; 0x00004200; 0x00000204; 0x00004000;
    0x01004204; 0x01000000; 0x01004200; 0x00000004; 0x00004004; 0x01004204;
    0x01000004; 0x01004200; 0x01004000; 0x00004004];
   [0x20800080; 0x20820000; 0x00020080; 0x00000000; 0x20020000; 0x00800080;
    0x20800000; 0x20820080; 0x00000080; 0x20000000; 0x00820000; 0x00020080;
    0x00820080; 0x20020080; 0x20000080; 0x20800000; 0x00020000; 0x00820080;
    0x00800080; 0x20020000; 0x20820080; 0x20000080; 0x00000000; 0x00820000;
    0x20000000; 0x00800000; 0x20020080; 0x20800080; 0x00800000; 0x00020000;
    0x20820000; 0x00000080; 0x00800000; 0x00020000; 0x20000080; 0x20820080;
    0x00020080; 0x20000000; 0x00000000; 0x00820000; 0x20800080; 0x20020080;
    0x20020000; 0x00800080; 0x20820000; 0x00000080; 0x00800080; 0x20020000;
    0x20820080; 0x00800000; 0x20800000; 0x20000080; 0x00820000; 0x00020080;
    0x20020080; 0x20800000; 0x00000080; 0x20820000; 0x00820080; 0x00000000;
    0x20000000; 0x20800080; 0x00020000; 0x00820080]].

(** An entry of a table of words; the indices of the code are masked to the
    size of the rows. *)
Definition entry (t : list (list Z)) (i j : Z) : Z :=
  nth (Z.to_nat j) (nth (Z.to_nat i) t []) 0.

(** [t = ((a >> n) ^ b) & m, b ^= t, a ^= t << n]: the new [a] and [b]. *)
Definition MUGGLE_OPENSSL_DES_PERM_OP (a b n m : Z) : Z * Z :=
  let t := Z.land (Z.lxor (Z.shiftr a n) b) m in
  (Z.lxor a (u32 (Z.shiftl t n)), Z.lxor b t).

(** [t = ((a << (16-n)) ^ a) & m, a = a ^ t ^ (t >> (16-n))] *)
Definition MUGGLE_OPENSSL_DES_HPERM_OP (a n m : Z) : Z :=
  let t := Z.land (Z.lxor (u32 (Z.shiftl a (16 - n))) a) m in
  Z.lxor (Z.lxor a t) (Z.shiftr t (16 - n)).

Definition MUGGLE_OPENSSL_DES_ROTATE (v n : Z) : Z := rotr 32 v n.

Definition MUGGLE_OPENSSL_DES_IP (l r : Z) : Z * Z :=
  let '(r, l) := MUGGLE_OPENSSL_DES_PERM_OP r l 4 0x0f0f0f0f in
  let '(l, r) := MUGGLE_OPENSSL_DES_PERM_OP l r 16 0x0000ffff in
  let '(r, l) := MUGGLE_OPENSSL_DES_PERM_OP r l 2 0x33333333 in
  let '(l, r) := MUGGLE_OPENSSL_DES_PERM_OP l r 8 0x00ff00ff in
  let '(r, l) := MUGGLE_OPENSSL_DES_PERM_OP r l 1 0x55555555 in
  (l, r).

Definition MUGGLE_OPENSSL_DES_FP (l r : Z) : Z * Z :=
  let '(l, r) := MUGGLE_OPENSSL_DES_PERM_OP l r 1 0x55555555 in
  let '(r, l) := MUGGLE_OPENSSL_DES_PERM_OP r l 8 0x00ff00ff in
  let '(l, r) := MUGGLE_OPENSSL_DES_PERM_OP l r 2 0x33333333 in
  let '(r, l) := MUGGLE_OPENSSL_DES_PERM_OP r l 16 0x0000ffff in
  let '(l, r) := MUGGLE_OPENSSL_DES_PERM_OP l r 4 0x0f0f0f0f in
  (l, r).

(** What D_ENCRYPT adds to the left half, from the right half and the two
    words of the subkey. *)
Definition d_encrypt_f (r : Z) (k : Z * Z) : Z :=
  let u := Z.lxor r (fst k) in
  let t := Z.lxor r (snd k) in
  let t := MUGGLE_OPENSSL_DES_ROTATE t 4 in
  let sp i x sh := entry openssl_des_sptrans i (Z.land (Z.shiftr x sh) 0x3f) in
  Z.lxor (Z.lxor (Z.lxor (Z.lxor (Z.lxor (Z.lxor (Z.lxor
    (sp 0 u 2) (sp 2 u 10)) (sp 4 u 18)) (sp 6 u 26))
    (sp 1 t 2)) (sp 3 t 10)) (sp 5 t 18)) (sp 7 t 26).

(** A subkey is eight bytes; [ks_u32] reads them as two words. *)
Definition muggle_des_subkey := list Z.
Definition ks_u32 (sk : muggle_des_subkey) : Z * Z :=
  (le_word (take 4 sk), le_word (take 4 (drop 4 sk))).

Definition MUGGLE_OPENSSL_D_ENCRYPT (l r : Z) (sk : muggle_des_subkey) : Z :=
  Z.lxor l (d_encrypt_f r (ks_u32 sk)).

Definition MUGGLE_OPENSSL_C2L (c : list Z) : Z :=
  let b i := nth i c 0 in
  Z.lor (Z.lor (Z.lor (Z.land (Z.shiftl (b 0%nat) 0) 0x000000ff)
    (Z.land (u32 (Z.shiftl (b 1%nat) 8)) 0x0000ff00))
    (Z.land (u32 (Z.shiftl (b 2%nat) 16)) 0x00ff0000))
    (Z.land (u32 (Z.shiftl (b 3%nat) 24)) 0xff000000).

Definition openssl_des_check_key_parity (key : list Z) : outcome bool :=
  loop 9 (fun i =>
    if i <? 8 then
      k ← aget key i;
      p ← Parity.muggle_parity_check_odd k;
      mret (if negb p then inr false else inl (i + 1))
    else mret (inr true)) 0.

Definition openssl_des_is_weak_key (key : list Z) : bool :=
  existsb (fun w => bool_decide (w = key)) openssl_weak_keys.

(** PC-1: the halves [c] and [d] of the key. *)
Definition pc1 (key : list Z) : Z * Z :=
  let c := MUGGLE_OPENSSL_C2L key in
  let d := MUGGLE_OPENSSL_C2L (drop 4 key) in
  let '(d, c) := MUGGLE_OPENSSL_DES_PERM_OP d c 4 0x0f0f0f0f in
  let c := MUGGLE_OPENSSL_DES_HPERM_OP c (-2) 0xcccc0000 in
  let d := MUGGLE_OPENSSL_DES_HPERM_OP d (-2) 0xcccc0000 in
  let '(d, c) := MUGGLE_OPENSSL_DES_PERM_OP d c 1 0x55555555 in
  let '(c, d) := MUGGLE_OPENSSL_DES_PERM_OP c d 8 0x00ff00ff in
  let '(d, c) := MUGGLE_OPENSSL_DES_PERM_OP d c 1 0x55555555 in
  let d := Z.lor (Z.lor (Z.lor (u32 (Z.shiftl (Z.land d 0x000000ff) 16)) (Z.land d 0x0000ff00))
             (Z.shiftr (Z.land d 0x00ff0000) 16)) (Z.shiftr (Z.land c 0xf0000000) 4) in
  let c := Z.land c 0x0fffffff in
  (c, d).

(** PC-2: the subkey of the shifted halves. *)
Definition pc2 (c d : Z) : muggle_des_subkey :=
  let skb i x := entry openssl_des_skb i x in
  let s := Z.lor (Z.lor (Z.lor
    (skb 0 (Z.land c 0x3f))
    (skb 1 (Z.lor (Z.land (Z.shiftr c 6) 0x03) (Z.land (Z.shiftr c 7) 0x3c))))
    (skb 2 (Z.lor (Z.land (Z.shiftr c 13) 0x0f) (Z.land (Z.shiftr c 14) 0x30))))
    (skb 3 (Z.lor (Z.lor (Z.land (Z.shiftr c 20) 0x01) (Z.land (Z.shiftr c 21) 0x06))
                  (Z.land (Z.shiftr c 22) 0x38))) in
  let t := Z.lor (Z.lor (Z.lor
    (skb 4 (Z.land d 0x3f))
    (skb 5 (Z.lor (Z.land (Z.shiftr d 7) 0x03) (Z.land (Z.shiftr d 8) 0x3c))))
    (skb 6 (Z.land (Z.shiftr d 15) 0x3f)))
    (skb 7 (Z.lor (Z.land (Z.shiftr d 21) 0x0f) (Z.land (Z.shiftr d 22) 0x30))) in
  let t2 := Z.land (Z.lor (u32 (Z.shiftl t 16)) (Z.land s 0x0000ffff)) 0xffffffff in
  let w0 := MUGGLE_OPENSSL_DES_ROTATE t2 30 in
  let t2 := Z.lor (Z.shiftr s 16) (Z.land t 0xffff0000) in
  let w1 := MUGGLE_OPENSSL_DES_ROTATE t2 26 in
  le_bytes 4 w0 ++ le_bytes 4 w1.

Definition shifts1 : list Z := [1; 1; 2; 2; 2; 2; 2; 2; 1; 2; 2; 2; 2; 2; 2; 1].
Definition shifts2 : list Z := [27; 27; 26; 26; 26; 26; 26; 26; 27; 26; 26; 26; 26; 26; 26; 27].

(** The sixteen shift and PC-2 rounds. *)
Fixpoint key_rounds (shifts : list (Z * Z)) (c d : Z) : list muggle_des_subkey :=
  match shifts with
  | [] => []
  | (s1, s2) :: shifts =>
      let c := Z.land (Z.lor (Z.shiftr c s1) (u32 (Z.shiftl c s2))) 0x0fffffff in
      let d := Z.land (Z.lor (Z.shiftr d s1) (u32 (Z.shiftl d s2))) 0x0fffffff in
      pc2 c d :: key_rounds shifts c d
  end.

Definition muggle_openssl_des_set_key_unchecked (key : list Z) : list muggle_des_subkey :=
  let '(c, d) := pc1 key in
  key_rounds (combine shifts1 shifts2) c d.

(** [inl] is the negative error code. *)
Definition muggle_openssl_des_set_key_checked (key : list Z)
  : outcome (Z + list muggle_des_subkey) :=
  ok ← openssl_des_check_key_parity key;
  if negb ok then mret (inl (-1))
  else if openssl_des_is_weak_key key then mret (inl (-2))
  else mret (inr (muggle_openssl_des_set_key_unchecked key)).

(** Two of the sixteen rounds, with the subkeys [2i] and [2i+1]. *)
Fixpoint d_encrypt_rounds (ks : list muggle_des_subkey) (l r : Z) : Z * Z :=
  match ks with
  | k1 :: k2 :: ks =>
      let l := MUGGLE_OPENSSL_D_ENCRYPT l r k1 in
      let r := MUGGLE_OPENSSL_D_ENCRYPT r l k2 in
      d_encrypt_rounds ks l r
  | _ => (l, r)
  end.

Definition muggle_openssl_encrypt1 (input : muggle_64bit_block) (ks : list muggle_des_subkey)
  : muggle_64bit_block :=
  let r := u32_l input in
  let l := u32_h input in
  let '(r, l) := MUGGLE_OPENSSL_DES_IP r l in
  let r := MUGGLE_OPENSSL_DES_ROTATE r 29 in
  let l := MUGGLE_OPENSSL_DES_ROTATE l 29 in
  let '(l, r) := d_encrypt_rounds ks l r in
  let l := MUGGLE_OPENSSL_DES_ROTATE l 3 in
  let r := MUGGLE_OPENSSL_DES_ROTATE r 3 in
  let '(r, l) := MUGGLE_OPENSSL_DES_FP r l in
  mkb l r.

Definition muggle_openssl_encrypt2 (input : muggle_64bit_block) (ks : list muggle_des_subkey)
  : muggle_64bit_block :=
  let r := u32_l input in
  let l := u32_h input in
  let r := MUGGLE_OPENSSL_DES_ROTATE r 29 in
  let l := MUGGLE_OPENSSL_DES_ROTATE l 29 in
  let '(l, r) := d_encrypt_rounds ks l r in
  let l := MUGGLE_OPENSSL_DES_ROTATE l 3 in
  let r := MUGGLE_OPENSSL_DES_ROTATE r 3 in
  mkb l r.

(** [bytes = sk[i]; sk[i] = sk[15-i]; sk[15-i] = bytes] for [i < 8]. *)
Definition swap_subkeys (sk : list muggle_des_subkey) : list muggle_des_subkey :=
  fold_left (fun sk i => let bytes := nth i sk [] in
    <[(15 - i)%nat := bytes]> (<[i := nth (15 - i) sk []]> sk)) (seq 0 8) sk.

Definition muggle_openssl_des_gen_subkeys (op : Z) (key : list Z) : list muggle_des_subkey :=
  let sk := muggle_openssl_des_set_key_unchecked key in
  if op =? MUGGLE_DECRYPT then swap_subkeys sk else sk.

Definition muggle_openssl_des_crypt (input : muggle_64bit_block) (ks : list muggle_des_subkey)
  : muggle_64bit_block :=
  muggle_openssl_encrypt1 input ks.

(** The two reads of [input] by C2L, whose results are overwritten, are left out. *)
Definition muggle_openssl_tdes_crypt (input : muggle_64bit_block)
    (ks1 ks2 ks3 : list muggle_des_subkey) : muggle_64bit_block :=
  let l := u32_l input in
  let r := u32_h input in
  let '(l, r) := MUGGLE_OPENSSL_DES_IP l r in
  let input_block := mkb l r in
  let output := muggle_openssl_encrypt2 input_block ks1 in
  let input_block := output in
  let output := muggle_openssl_encrypt2 input_block ks2 in
  let input_block := output in
  let output := muggle_openssl_encrypt2 input_block ks3 in
  let l := u32_l output in
  let r := u32_h output in
  let '(r, l) := MUGGLE_OPENSSL_DES_FP r l in
  mkb l r.

(** The published test vector: key 133457799BBCDFF1, plaintext
    0123456789ABCDEF, ciphertext 85E813540F0AB405. *)
Example openssl_des_vector :
  block_bytes (muggle_openssl_des_crypt
    (block_of_bytes [0x01; 0x23; 0x45; 0x67; 0x89; 0xAB; 0xCD; 0xEF])
    (muggle_openssl_des_gen_subkeys MUGGLE_ENCRYPT
       [0x13; 0x34; 0x57; 0x79; 0x9B; 0xBC; 0xDF; 0xF1]))
  = [0x85; 0xE8; 0x13; 0x54; 0x0F; 0x0A; 0xB4; 0x05].
Proof. by vm_compute. Qed.

(** ** Permutations *)

(** PERM_OP is an involution when the shifted mask fits a word. *)
Lemma perm_op_involutive a b n m :
  0 <= n -> is_word (32 - n) m ->
  let (a', b') := MUGGLE_OPENSSL_DES_PERM_OP a b n m in
  MUGGLE_OPENSSL_DES_PERM_OP a' b' n m = (a, b).
Proof.
  intros Hn Hm. destruct (decide (n <= 32)) as [Hn'|];
    [|unfold is_word in Hm; rewrite Z.pow_neg_r in Hm by lia; lia].
  unfold MUGGLE_OPENSSL_DES_PERM_OP.
  set (t := Z.land (Z.lxor (Z.shiftr a n) b) m).
  assert (Z.shiftr (u32 (Z.shiftl t n)) n = t) as Ht.
  { assert (is_word (32 - n) t) as Hw by (apply is_word_land; [lia|done]).
    rewrite wrap_small.
    - by rewrite Z.shiftr_shiftl_l, Z.sub_diag, Z.shiftl_0_r by lia.
    - destruct Hw as [H0 H1]. rewrite Z.shiftl_mul_pow2 by lia.
      replace 32 with ((32 - n) + n) by lia. rewrite Z.pow_add_r by lia.
      split; [apply Z.mul_nonneg_nonneg; lia|]. apply Z.mul_lt_mono_pos_r; lia. }
  assert (Z.land (Z.lxor (Z.shiftr (Z.lxor a (u32 (Z.shiftl t n))) n) (Z.lxor b t)) m = t) as Et.
  { rewrite Z.shiftr_lxor, Ht. unfold t at 3. f_equal. xor_solve. }
  rewrite Et. f_equal; apply lxor_cancel_r.
Qed.

Lemma perm_op_is_word a b n m :
  0 <= n -> is_word 32 a -> is_word 32 b -> is_word 32 m ->
  is_word 32 (MUGGLE_OPENSSL_DES_PERM_OP a b n m).1 /\
  is_word 32 (MUGGLE_OPENSSL_DES_PERM_OP a b n m).2.
Proof. intros. simpl. auto 7 with words. Qed.

(** Apply the lemma to the innermost PERM_OP of the goal. *)
Ltac perm_step :=
  match goal with
  | |- context [MUGGLE_OPENSSL_DES_PERM_OP ?a ?b ?n ?m] =>
      is_var a; is_var b;
      let H := fresh "Hp" in
      pose proof (perm_op_involutive a b n m ltac:(done) ltac:(done)) as H;
      destruct (MUGGLE_OPENSSL_DES_PERM_OP a b n m) as [? ?]
  end.

(** FP with the halves exchanged undoes IP, and conversely. *)
Lemma fp_ip l r : let (l', r') := MUGGLE_OPENSSL_DES_IP l r in MUGGLE_OPENSSL_DES_FP r' l' = (r, l).
Proof.
  unfold MUGGLE_OPENSSL_DES_IP, MUGGLE_OPENSSL_DES_FP. do 5 perm_step.
  by rewrite Hp3, Hp2, Hp1, Hp0, Hp.
Qed.

Lemma ip_fp l r : let (l', r') := MUGGLE_OPENSSL_DES_FP l r in MUGGLE_OPENSSL_DES_IP r' l' = (r, l).
Proof.
  unfold MUGGLE_OPENSSL_DES_IP, MUGGLE_OPENSSL_DES_FP. do 5 perm_step.
  by rewrite Hp3, Hp2, Hp1, Hp0, Hp.
Qed.

Ltac perm_word_step :=
  match goal with
  | |- context [MUGGLE_OPENSSL_DES_PERM_OP ?a ?b ?n ?m] =>
      is_var a; is_var b;
      let H := fresh "Hw" in
      pose proof (perm_op_is_word a b n m ltac:(done) ltac:(done) ltac:(done) ltac:(by split)) as H;
      destruct (MUGGLE_OPENSSL_DES_PERM_OP a b n m) as [? ?]; destruct H; cbn [fst snd] in *
  end.

Lemma ip_is_word l r :
  is_word 32 l -> is_word 32 r ->
  is_word 32 (MUGGLE_OPENSSL_DES_IP l r).1 /\ is_word 32 (MUGGLE_OPENSSL_DES_IP l r).2.
Proof. intros. unfold MUGGLE_OPENSSL_DES_IP. by do 5 perm_word_step. Qed.

Lemma fp_is_word l r :
  is_word 32 l -> is_word 32 r ->
  is_word 32 (MUGGLE_OPENSSL_DES_FP l r).1 /\ is_word 32 (MUGGLE_OPENSSL_DES_FP l r).2.
Proof. intros. unfold MUGGLE_OPENSSL_DES_FP. by do 5 perm_word_step. Qed.

(** ** Rounds *)
Lemma sptrans_words : forallb (forallb (fun x => (0 <=? x) && (x <? 2 ^ 32))) openssl_des_sptrans = true.
Proof. by vm_compute. Qed.

Lemma entry_sptrans i j : is_word 32 (entry openssl_des_sptrans i j).
Proof.
  unfold entry. destruct (nth_in_or_default (Z.to_nat j) (nth (Z.to_nat i) openssl_des_sptrans []) 0)
    as [Hj| ->]; [|done].
  destruct (nth_in_or_default (Z.to_nat i) openssl_des_sptrans []) as [Hi|Hi]; [|by rewrite Hi in Hj].
  pose proof (proj1 (forallb_forall _ _) sptrans_words _ Hi) as H.
  pose proof (proj1 (forallb_forall _ _) H _ Hj) as H'. cbv beta in H'.
  rewrite andb_true_iff, Z.leb_le, Z.ltb_lt in H'. done.
Qed.

Lemma d_encrypt_f_word r k : is_word 32 (d_encrypt_f r k).
Proof. unfold d_encrypt_f. auto 20 using is_word_lxor, entry_sptrans with lia. Qed.

#[local] Opaque d_encrypt_f.

(** The rounds are a Feistel network. *)
Definition round_f (r : Z) (sk : muggle_des_subkey) : Z := d_encrypt_f r (ks_u32 sk).

Lemma d_encrypt_rounds_feistel n ks l r :
  length ks = (2 * n)%nat -> d_encrypt_rounds ks l r = feistel round_f ks l r.
Proof.
  revert ks l r. induction n as [|n IH]; intros [|k1 [|k2 ks]] l r Hl; simpl in Hl; try lia; [done|].
  cbn [d_encrypt_rounds feistel]. rewrite IH by lia.
  unfold MUGGLE_OPENSSL_D_ENCRYPT, round_f. reflexivity.
Qed.

Lemma rotate_29_3 v : is_word 32 v ->
  MUGGLE_OPENSSL_DES_ROTATE (MUGGLE_OPENSSL_DES_ROTATE v 29) 3 = v.
Proof. intros. by apply rotr_rotr. Qed.

Lemma rotate_3_29 v : is_word 32 v ->
  MUGGLE_OPENSSL_DES_ROTATE (MUGGLE_OPENSSL_DES_ROTATE v 3) 29 = v.
Proof. intros. by apply rotr_rotr. Qed.

Lemma encrypt2_is_block b ks : is_block (muggle_openssl_encrypt2 b ks).
Proof.
  unfold muggle_openssl_encrypt2. destruct (d_encrypt_rounds _ _ _) as [l r].
  split; simpl; by apply is_word_rotr.
Qed.

(** Sixteen rounds with the subkeys reversed undo sixteen rounds. *)
Lemma encrypt2_rev b ks :
  is_block b -> length ks = 16%nat ->
  muggle_openssl_encrypt2 (muggle_openssl_encrypt2 b ks) (rev ks) = b.
Proof.
  intros [Hl Hh] Hk. unfold muggle_openssl_encrypt2 at 2.
  rewrite (d_encrypt_rounds_feistel 8) by done.
  set (l := MUGGLE_OPENSSL_DES_ROTATE (u32_h b) 29). set (r := MUGGLE_OPENSSL_DES_ROTATE (u32_l b) 29).
  pose proof (feistel_rev round_f ks l r) as Hrev.
  pose proof (feistel_is_word round_f 32 ks l r ltac:(done) ltac:(intros; apply d_encrypt_f_word)
    ltac:(by apply is_word_rotr) ltac:(by apply is_word_rotr)) as Hw.
  destruct (feistel round_f ks l r) as [l' r']. destruct Hw as [Hl' Hr']. simpl in Hl', Hr'.
  unfold muggle_openssl_encrypt2. cbn [u32_l u32_h]. rewrite !rotate_3_29 by done.
  rewrite (d_encrypt_rounds_feistel 8), Hrev by (by rewrite length_rev).
  unfold l, r. rewrite !rotate_29_3 by done. by destruct b.
Qed.

(** DES is the initial permutation, the rounds, and the final permutation. *)
Definition ip_block (b : muggle_64bit_block) : muggle_64bit_block :=
  let '(l, h) := MUGGLE_OPENSSL_DES_IP (u32_l b) (u32_h b) in mkb l h.
Definition fp_block (b : muggle_64bit_block) : muggle_64bit_block :=
  let '(h, l) := MUGGLE_OPENSSL_DES_FP (u32_h b) (u32_l b) in mkb l h.

Lemma encrypt1_steps b ks :
  muggle_openssl_encrypt1 b ks = fp_block (muggle_openssl_encrypt2 (ip_block b) ks).
Proof.
  unfold muggle_openssl_encrypt1, muggle_openssl_encrypt2, ip_block, fp_block.
  destruct (MUGGLE_OPENSSL_DES_IP _ _) as [r l]. cbn [u32_l u32_h].
  destruct (d_encrypt_rounds _ _ _). done.
Qed.

Lemma ip_fp_block b : ip_block (fp_block b) = b.
Proof.
  unfold ip_block, fp_block. pose proof (ip_fp (u32_h b) (u32_l b)) as H.
  destruct (MUGGLE_OPENSSL_DES_FP _ _) as [h l]. cbn [u32_l u32_h]. rewrite H. by destruct b.
Qed.

Lemma fp_ip_block b : fp_block (ip_block b) = b.
Proof.
  unfold ip_block, fp_block. pose proof (fp_ip (u32_l b) (u32_h b)) as H.
  destruct (MUGGLE_OPENSSL_DES_IP _ _) as [l h]. cbn [u32_l u32_h]. rewrite H. by destruct b.
Qed.

Lemma ip_block_is_block b : is_block b -> is_block (ip_block b).
Proof.
  intros [Hl Hh]. unfold ip_block. destruct (ip_is_word _ _ Hl Hh) as [? ?].
  by destruct (MUGGLE_OPENSSL_DES_IP _ _).
Qed.

Lemma fp_block_is_block b : is_block b -> is_block (fp_block b).
Proof.
  intros [Hl Hh]. unfold fp_block. destruct (fp_is_word _ _ Hh Hl) as [? ?].
  by destruct (MUGGLE_OPENSSL_DES_FP _ _).
Qed.

Lemma des_crypt_is_block b ks : is_block (muggle_openssl_des_crypt b ks).
Proof.
  unfold muggle_openssl_des_crypt. rewrite encrypt1_steps.
  apply fp_block_is_block, encrypt2_is_block.
Qed.

Lemma des_crypt_rev b ks :
  is_block b -> length ks = 16%nat ->
  muggle_openssl_des_crypt (muggle_openssl_des_crypt b ks) (rev ks) = b.
Proof.
  intros Hb Hk. unfold muggle_openssl_des_crypt. rewrite !encrypt1_steps, ip_fp_block.
  rewrite encrypt2_rev, fp_ip_block by auto using ip_block_is_block. done.
Qed.

(** ** Key schedule *)
Lemma set_key_length key : length (muggle_openssl_des_set_key_unchecked key) = 16%nat.
Proof. unfold muggle_openssl_des_set_key_unchecked. by destruct (pc1 key). Qed.

Lemma swap_subkeys_rev sk : length sk = 16%nat -> swap_subkeys sk = rev sk.
Proof. intros H. do 17 (destruct sk as [|? sk]; [try done|]); done. Qed.

(** C21: for every key and block, DES with the decryption subkeys undoes DES
    with the encryption subkeys, and conversely. *)
Theorem openssl_des_roundtrip key b :
  is_block b ->
  let enc := muggle_openssl_des_gen_subkeys MUGGLE_ENCRYPT key in
  let dec := muggle_openssl_des_gen_subkeys MUGGLE_DECRYPT key in
  muggle_openssl_des_crypt (muggle_openssl_des_crypt b enc) dec = b /\
  muggle_openssl_des_crypt (muggle_openssl_des_crypt b dec) enc = b.
Proof.
  intros Hb. unfold muggle_openssl_des_gen_subkeys. cbn [Z.eqb MUGGLE_ENCRYPT MUGGLE_DECRYPT].
  pose proof (set_key_length key). rewrite swap_subkeys_rev by done. split.
  - by apply des_crypt_rev.
  - rewrite <- (rev_involutive (muggle_openssl_des_set_key_unchecked key)) at 2.
    apply des_crypt_rev; [done|by rewrite length_rev].
Qed.

Lemma openssl_des_roundtrip_witness :
  let b := block_of_bytes [1; 2; 3; 4; 5; 6; 7; 8] in
  let enc := muggle_openssl_des_gen_subkeys MUGGLE_ENCRYPT [1; 2; 3; 4; 5; 6; 7; 8] in
  let dec := muggle_openssl_des_gen_subkeys MUGGLE_DECRYPT [1; 2; 3; 4; 5; 6; 7; 8] in
  muggle_openssl_des_crypt (muggle_openssl_des_crypt b enc) dec = b /\
  muggle_openssl_des_crypt (muggle_openssl_des_crypt b dec) enc = b.
Proof. apply openssl_des_roundtrip. by split. Defined.

Lemma tdes_crypt_des b ks1 ks2 ks3 :
  muggle_openssl_tdes_crypt b ks1 ks2 ks3 =
  muggle_openssl_des_crypt (muggle_openssl_des_crypt (muggle_openssl_des_crypt b ks1) ks2) ks3.
Proof.
  unfold muggle_openssl_des_crypt. rewrite !encrypt1_steps, !ip_fp_block.
  unfold muggle_openssl_tdes_crypt, ip_block, fp_block.
  by destruct (MUGGLE_OPENSSL_DES_IP _ _).
Qed.

(** The triple-DES routine, which leaves out the inner permutations, is
    the composition of three single DES; with one subkey set it is single DES
    when the middle one is the reversed set. *)
Theorem openssl_tdes_three_des b ks1 ks2 ks3 :
  muggle_openssl_tdes_crypt b ks1 ks2 ks3 =
    muggle_openssl_des_crypt (muggle_openssl_des_crypt (muggle_openssl_des_crypt b ks1) ks2) ks3 /\
  (is_block b -> length ks1 = 16%nat ->
   muggle_openssl_tdes_crypt b ks1 (rev ks1) ks3 = muggle_openssl_des_crypt b ks3).
Proof.
  split; [apply tdes_crypt_des|]. intros Hb Hk. by rewrite tdes_crypt_des, des_crypt_rev.
Qed.

Lemma openssl_tdes_three_des_witness :
  let b := mkb 0x01234567 0x89abcdef in
  let ks := muggle_openssl_des_gen_subkeys MUGGLE_ENCRYPT [1; 2; 3; 4; 5; 6; 7; 8] in
  muggle_openssl_tdes_crypt b ks (rev ks) ks = muggle_openssl_des_crypt b ks.
Proof.
  intros b ks. apply (proj2 (openssl_tdes_three_des b ks ks ks)); [by split|].
  exact (set_key_length [1; 2; 3; 4; 5; 6; 7; 8]).
Defined.

End OpensslDes.
