(* ===== verification/InternalDes.v ===== *)
(** muggle/c/crypt/internal/internal_des.{h,c} and the branches of des.c and tdes.c
    that use it: DES in the terms of its permutations, for a build without
    MUGGLE_CRYPT_OPTIMIZATION.  Encryption is undone by decryption; the cipher is
    not DES, though, as the examples at the end show. *)

From stdpp Require Import base list numbers.
From Stdlib Require Import ZArith Lia.
From S2P Require Import Prelude Bits CryptUtils OpensslDes.
Import CryptUtils OpensslDes.

Open Scope Z_scope.

Module InternalDes.

Definition s_muggle_des_sbox_table : list (list Z) :=
  [[14; 4; 13; 1; 2; 15; 11; 8; 3; 10; 6; 12; 5; 9; 0; 7;
    0; 15; 7; 4; 14; 2; 13; 1; 10; 6; 12; 11; 9; 5; 3; 8;
    4; 1; 14; 8; 13; 6; 2; 11; 15; 12; 9; 7; 3; 10; 5; 0;
    15; 12; 8; 2; 4; 9; 1; 7; 5; 11; 3; 14; 10; 0; 6; 13];
   [15; 1; 8; 14; 6; 11; 3; 4; 9; 7; 2; 13; 12; 0; 5; 10;
    3; 13; 4; 7; 15; 2; 8; 14; 12; 0; 1; 10; 6; 9; 11; 5;
    0; 14; 7; 11; 10; 4; 13; 1; 5; 8; 12; 6; 9; 3; 2; 15;
    13; 8; 10; 1; 3; 15; 4; 2; 11; 6; 7; 12; 0; 5; 14; 9];
   [10; 0; 9; 14; 6; 3; 15; 5; 1; 13; 12; 7; 11; 4; 2; 8;
    13; 7; 0; 9; 3; 4; 6; 10; 2; 8; 5; 14; 12; 11; 15; 1;
    13; 6; 4; 9; 8; 15; 3; 0; 11; 1; 2; 12; 5; 10; 14; 7;
    1; 10; 13; 0; 6; 9; 8; 7; 4; 15; 14; 3; 11; 5; 2; 12];
   [7; 13; 14; 3; 0; 6; 9; 10; 1; 2; 8; 5; 11; 12; 4; 15;
    13; 8; 11; 5; 6; 15; 0; 3; 4; 7; 2; 12; 1; 10; 14; 9;
    10; 6; 9; 0; 12; 11; 7; 13; 15; 1; 3; 14; 5; 2; 8; 4;
    3; 15; 0; 6; 10; 1; 13; 8; 9; 4; 5; 11; 12; 7; 2; 14];
   [2; 12; 4; 1; 7; 10; 11; 6; 8; 5; 3; 15; 13; 0; 14; 9;
    14; 11; 2; 12; 4; 7; 13; 1; 5; 0; 15; 10; 3; 9; 8; 6;
    4; 2; 1; 11; 10; 13; 7; 8; 15; 9; 12; 5; 6; 3; 0; 14;
    11; 8; 12; 7; 1; 14; 2; 13; 6; 15; 0; 9; 10; 4; 5; 3];
   [12; 1; 10; 15; 9; 2; 6; 8; 0; 13; 3; 4; 14; 7; 5; 11;
    10; 15; 4; 2; 7; 12; 9; 5; 6; 1; 13; 14; 0; 11; 3; 8;
    9; 14; 15; 5; 2; 8; 12; 3; 7; 0; 4; 10; 1; 13; 11; 6;
    4; 3; 2; 12; 9; 5; 15; 10; 11; 14; 1; 7; 6; 0; 8; 13];
   [4; 11; 2; 14; 15; 0; 8; 13; 3; 12; 9; 7; 5; 10; 6; 1;
    13; 0; 11; 7; 4; 9; 1; 10; 14; 3; 5; 12; 2; 15; 8; 6;
    1; 4; 11; 13; 12; 3; 7; 14; 10; 15; 6; 8; 0; 5; 9; 2;
    6; 11; 13; 8; 1; 4; 10; 7; 9; 5; 0; 15; 14; 2; 3; 12];
   [13; 2; 8; 4; 6; 15; 11; 1; 10; 9; 3; 14; 5; 0; 12; 7;
    1; 15; 13; 8; 10; 3; 7; 4; 12; 5; 6; 11; 0; 14; 9; 2;
    7; 11; 4; 1; 9; 12; 14; 2; 0; 6; 10; 13; 15; 3; 5; 8;
    2; 1; 14; 7; 4; 10; 8; 13; 15; 12; 9; 0; 3; 5; 6; 11]].

Definition MUGGLE_MOVE_BIT (x from to : Z) : Z := Z.shiftl (Z.land (Z.shiftr x from) 0x01) to.

(** [MUGGLE_MOVE_BIT(x, from, to) | ...] for pairs of [from] and [to]. *)
Definition or_bits (x : Z) (moves : list (Z * Z)) : Z :=
  fold_right (fun m acc => Z.lor (MUGGLE_MOVE_BIT x m.1 m.2) acc) 0 moves.

(** The same with [to] = 0, 1, 2, ... *)
Definition move_bits (x : Z) (from : list Z) : Z :=
  or_bits x (imap (fun to from => (from, Z.of_nat to)) from).

Definition ip_l : list Z :=
  [57; 49; 41; 33; 25; 17; 9; 1; 59; 51; 43; 35; 27; 19; 11; 3;
   61; 53; 45; 37; 29; 21; 13; 5; 63; 55; 47; 39; 31; 23; 15; 7].
Definition ip_h : list Z :=
  [56; 48; 40; 32; 24; 16; 8; 0; 58; 50; 42; 34; 26; 18; 10; 2;
   60; 52; 44; 36; 28; 20; 12; 4; 62; 54; 46; 38; 30; 22; 14; 6].
Definition muggle_des_ip (b : muggle_64bit_block) : muggle_64bit_block :=
  mkb (u32 (move_bits (block_u64 b) ip_l)) (u32 (move_bits (block_u64 b) ip_h)).

Definition fp_l : list Z :=
  [39; 7; 47; 15; 55; 23; 63; 31; 38; 6; 46; 14; 54; 22; 62; 30;
   37; 5; 45; 13; 53; 21; 61; 29; 36; 4; 44; 12; 52; 20; 60; 28].
Definition fp_h : list Z :=
  [35; 3; 43; 11; 51; 19; 59; 27; 34; 2; 42; 10; 50; 18; 58; 26;
   33; 1; 41; 9; 49; 17; 57; 25; 32; 0; 40; 8; 48; 16; 56; 24].
Definition muggle_des_fp (b : muggle_64bit_block) : muggle_64bit_block :=
  mkb (u32 (move_bits (block_u64 b) fp_l)) (u32 (move_bits (block_u64 b) fp_h)).

(** 48 bits are eight bytes of six; the two other bits of a byte are not used. *)
Definition muggle_des_expand (x : Z) : list Z :=
  [u8 (Z.lor (Z.land (Z.shiftr x 31) 0x01) (u32 (Z.shiftl x 1))); u8 (Z.shiftr x 3); u8 (Z.shiftr x 7);
   u8 (Z.shiftr x 11); u8 (Z.shiftr x 15); u8 (Z.shiftr x 19); u8 (Z.shiftr x 23);
   u8 (Z.lor (Z.land (Z.shiftr x 27) 0x1f) (u32 (Z.shiftl x 5)))].

Definition sbox_idx (b : Z) : Z :=
  Z.lor (Z.lor (Z.land b 0x020) (Z.shiftl (Z.land b 0x01) 4)) (Z.land (Z.shiftr b 1) 0x0f).

Definition muggle_des_sbox (bytes : list Z) : list Z :=
  imap (fun i b => entry s_muggle_des_sbox_table (Z.of_nat i) (sbox_idx b)) bytes.

Definition p_bits : list Z :=
  [15; 6; 19; 20; 28; 11; 27; 16; 0; 14; 22; 25; 4; 17; 30; 9;
   1; 7; 23; 13; 31; 26; 2; 8; 18; 12; 29; 5; 21; 10; 3; 24].
Definition muggle_des_p (x : Z) : Z := u32 (move_bits x p_bits).

(** Two results of the S-boxes as a byte. *)
Definition pack (a b : Z) : Z := u8 (Z.lor (Z.land a 0x0f) (Z.land (Z.shiftl b 4) 0xf0)).

Definition muggle_des_f (x : Z) (sk : list Z) : Z :=
  let p := muggle_des_expand x in
  let p := zip_with Z.lxor p sk in
  let p := muggle_des_sbox p in
  let b i := nth i p 0 in
  let block := le_word [pack (b 0%nat) (b 1%nat); pack (b 2%nat) (b 3%nat); pack (b 4%nat) (b 5%nat); pack (b 6%nat) (b 7%nat)] in
  muggle_des_p block.

Definition pc1_l : list Z :=
  [56; 48; 40; 32; 24; 16; 8; 0; 57; 49; 41; 33; 25; 17; 9; 1;
   58; 50; 42; 34; 26; 18; 10; 2; 59; 51; 43; 35].
Definition pc1_h : list Z :=
  [62; 54; 46; 38; 30; 22; 14; 6; 61; 53; 45; 37; 29; 21; 13; 5;
   60; 52; 44; 36; 28; 20; 12; 4; 27; 19; 11; 3].
Definition muggle_des_pc1 (b : muggle_64bit_block) : muggle_64bit_block :=
  mkb (u32 (move_bits (block_u64 b) pc1_l)) (u32 (move_bits (block_u64 b) pc1_h)).

Definition muggle_des_pc2 (k : muggle_64bit_block) : list Z :=
  let c := u32_l k in
  let d := u32_h k in
  [
    u8 (or_bits c [(13, 0); (16, 1); (10, 2); (23, 3); (0, 4); (4, 5)]);
    u8 (or_bits c [(2, 0); (27, 1); (14, 2); (5, 3); (20, 4); (9, 5)]);
    u8 (or_bits c [(22, 0); (18, 1); (11, 2); (3, 3); (25, 4); (7, 5)]);
    u8 (or_bits c [(15, 0); (6, 1); (26, 2); (19, 3); (12, 4); (1, 5)]);
    u8 (or_bits d [(12, 0); (23, 1); (2, 2); (8, 3); (18, 4); (26, 4)]);
    u8 (or_bits d [(1, 0); (11, 1); (22, 2); (16, 3); (4, 4); (19, 4)]);
    u8 (or_bits d [(15, 0); (20, 1); (10, 2); (27, 3); (5, 4); (24, 4)]);
    u8 (or_bits d [(17, 0); (13, 1); (21, 2); (7, 3); (0, 4); (3, 4)])
  ].

Definition MUGGLE_DES_KEY_SHIFT (x shift mask : Z) : Z :=
  Z.lor (u32 (Z.shiftl x shift)) (Z.land (Z.shiftr x (28 - shift)) mask).

(** ** The branches of des.c and tdes.c without the optimisation *)

Definition key_round_shift : list Z := [1; 1; 2; 2; 2; 2; 2; 2; 1; 2; 2; 2; 2; 2; 2; 1].
Definition key_round_mask : list Z := [0x01; 0x01; 0x03; 0x03; 0x03; 0x03; 0x03; 0x03; 0x01; 0x03; 0x03; 0x03; 0x03; 0x03; 0x03; 0x01].

(** The loop of the key setup, for the shifts and masks left; the result are the
    subkeys in the order they are made. *)
Fixpoint key_rounds (rounds : list (Z * Z)) (out : muggle_64bit_block) : list (list Z) :=
  match rounds with
  | [] => []
  | (shift, mask) :: rounds =>
      let out := mkb (MUGGLE_DES_KEY_SHIFT (u32_l out) shift mask) (MUGGLE_DES_KEY_SHIFT (u32_h out) shift mask) in
      muggle_des_pc2 out :: key_rounds rounds out
  end.

(** Subkey [i] is stored at index [i], or at [15 - i] for decryption. *)
Definition muggle_des_set_key_inner (op : Z) (key_bytes : list Z) : Z * list (list Z) :=
  let sk := key_rounds (zip key_round_shift key_round_mask) (muggle_des_pc1 (block_of_bytes key_bytes)) in
  (0, if op =? MUGGLE_DECRYPT then (fun i => nth (15 - i) sk []) <$> seq 0 16 else sk).

(** A round of the loop. *)
Definition des_round (b64 : muggle_64bit_block) (sk : list Z) : muggle_64bit_block :=
  let tmp := Z.lxor (u32_l b64) (muggle_des_f (u32_h b64) sk) in mkb (u32_h b64) tmp.

Definition muggle_des_crypt (ks : list (list Z)) (input : muggle_64bit_block) : muggle_64bit_block :=
  let b64 := muggle_des_ip input in
  let b64 := fold_left des_round ks b64 in
  let b64 := mkb (u32_h b64) (u32_l b64) in
  muggle_des_fp b64.

Definition muggle_tdes_crypt (ks1 ks2 ks3 : list (list Z)) (input : muggle_64bit_block) : muggle_64bit_block :=
  let b64 := muggle_des_ip input in
  let b64 := fold_left des_round ks1 b64 in
  let b64 := fold_left des_round ks2 b64 in
  let b64 := fold_left des_round ks3 b64 in
  let b64 := mkb (u32_h b64) (u32_l b64) in
  muggle_des_fp b64.


(** ** Permutations of bits *)

Lemma move_bit_spec x from to j : 0 <= from -> 0 <= to -> 0 <= j ->
  Z.testbit (MUGGLE_MOVE_BIT x from to) j = (j =? to) && Z.testbit x from.
Proof.
  intros Hf Ht Hj. unfold MUGGLE_MOVE_BIT. rewrite Z.shiftl_spec, Z.land_spec by lia.
  change 1 with (Z.ones 1). destruct (Z.eqb_spec j to) as [->|Hne].
  - rewrite Z.sub_diag, Z.shiftr_spec, Z.ones_spec_low by lia. rewrite Z.add_0_l. by destruct (Z.testbit x from).
  - destruct (Z.ltb_spec j to); [by rewrite (Z.testbit_neg_r (Z.shiftr _ _)) by lia|].
    rewrite Z.ones_spec_high by lia. by rewrite andb_false_r.
Qed.

Lemma or_bits_spec x from j : Forall (fun f => 0 <= f) from -> 0 <= j -> forall k,
  Z.testbit (or_bits x (imap (fun to f => (f, Z.of_nat (k + to))) from)) j =
    match from @@ (j - Z.of_nat k) with Some f => Z.testbit x f | None => false end.
Proof.
  intros Hf Hj. induction Hf as [|f from H0 Hf IH]; intros k.
  - simpl. rewrite Z.bits_0, zlookup_None; [done|]. unfold zlen. simpl. lia.
  - rewrite imap_cons. cbn [or_bits fold_right]. simpl fst. simpl snd. rewrite Z.lor_spec, move_bit_spec by lia.
    rewrite Nat.add_0_r. specialize (IH (S k)).
    rewrite (imap_ext _ (fun to f => (f, Z.of_nat (S k + to)))) by (intros; simpl; f_equal; lia).
    change (fold_right _ 0 ?l) with (or_bits x l). rewrite IH.
    destruct (Z.ltb_spec j (Z.of_nat k)).
    + rewrite !zlookup_neg by lia. destruct (Z.eqb_spec j (Z.of_nat k)); [lia|done].
    + rewrite zlookup_cons by lia. case_decide.
      * destruct (Z.eqb_spec j (Z.of_nat k)); [|lia]. rewrite zlookup_neg by lia. by rewrite orb_false_r.
      * destruct (Z.eqb_spec j (Z.of_nat k)); [lia|]. simpl. by replace (j - Z.of_nat (S k)) with (j - Z.of_nat k - 1) by lia.
Qed.

Lemma move_bits_spec x from j : Forall (fun f => 0 <= f) from -> 0 <= j ->
  Z.testbit (move_bits x from) j = match from @@ j with Some f => Z.testbit x f | None => false end.
Proof. intros Hf Hj. pose proof (or_bits_spec x from j Hf Hj 0) as H. by rewrite Z.sub_0_r in H. Qed.

Lemma block_u64_bits b j : is_block b -> 0 <= j ->
  Z.testbit (block_u64 b) j = if j <? 32 then Z.testbit (u32_l b) j else Z.testbit (u32_h b) (j - 32).
Proof.
  intros [Hl Hh] Hj. unfold block_u64, is_word in *. destruct (Z.ltb_spec j 32).
  - rewrite <- (Z.mod_pow2_bits_low _ 32) by lia. rewrite (Z.mul_comm (2 ^ 32)), Z.mod_add, Z.mod_small by lia. done.
  - replace j with ((j - 32) + 32) at 1 by lia. rewrite <- Z.div_pow2_bits by lia.
    rewrite (Z.mul_comm (2 ^ 32)), Z.div_add, Z.div_small by lia. done.
Qed.

Lemma block_bits_inj b b' : is_block b -> is_block b' ->
  (forall j, 0 <= j < 64 -> Z.testbit (block_u64 b) j = Z.testbit (block_u64 b') j) -> b = b'.
Proof.
  intros [Hl Hh] [Hl' Hh'] H. destruct b as [l h], b' as [l' h']. simpl in *. f_equal; apply (word_bits_inj 32); try done; intros j Hj.
  - specialize (H j ltac:(lia)). rewrite !block_u64_bits in H by (done || lia). by destruct (Z.ltb_spec j 32); [|lia].
  - specialize (H (j + 32) ltac:(lia)). rewrite !block_u64_bits in H by (done || lia).
    destruct (Z.ltb_spec (j + 32) 32); [lia|]. simpl in H. by replace (j + 32 - 32) with j in H by lia.
Qed.

(** A permutation of a block, by the positions its bits come from. *)
Definition permute (tl th : list Z) (b : muggle_64bit_block) : muggle_64bit_block :=
  mkb (u32 (move_bits (block_u64 b) tl)) (u32 (move_bits (block_u64 b) th)).

Lemma permute_is_block tl th b : is_block (permute tl th b).
Proof. split; by apply is_word_wrap. Qed.

Lemma permute_bits tl th b j : zlen tl = 32 -> Forall (fun f => 0 <= f) (tl ++ th) -> 0 <= j < 64 ->
  Z.testbit (block_u64 (permute tl th b)) j =
    match (tl ++ th) @@ j with Some f => Z.testbit (block_u64 b) f | None => false end.
Proof.
  intros Hl Hf Hj. apply Forall_app in Hf as [Hf1 Hf2]. rewrite block_u64_bits by (apply permute_is_block || lia).
  unfold permute. cbn [u32_l u32_h]. destruct (Z.ltb_spec j 32).
  - rewrite wrap_spec, move_bits_spec, zlookup_app_l by (done || lia). by destruct (Z.ltb_spec j 32); [|lia].
  - rewrite wrap_spec, move_bits_spec, zlookup_app_r, Hl by (done || lia). by destruct (Z.ltb_spec (j - 32) 32); [|lia].
Qed.

(** The bits that [t2] asks for are where [t1] put them. *)
Definition inverts (t1 t2 : list Z) : bool :=
  forallb (fun j => match t2 @@ j with Some f => bool_decide (0 <= f < 64 /\ t1 @@ f = Some j) | None => false end)
    (seqZ 0 64).

Lemma permute_inverse tl th tl' th' b : zlen tl = 32 -> zlen tl' = 32 ->
  Forall (fun f => 0 <= f) (tl ++ th) -> Forall (fun f => 0 <= f) (tl' ++ th') ->
  inverts (tl ++ th) (tl' ++ th') = true -> is_block b -> permute tl' th' (permute tl th b) = b.
Proof.
  intros H1 H2 H3 H4 Hi Hb. apply block_bits_inj; [apply permute_is_block|done|]. intros j Hj.
  rewrite permute_bits by done. unfold inverts in Hi. rewrite forallb_forall in Hi.
  specialize (Hi j ltac:(apply list_elem_of_In, elem_of_seqZ; lia)). 
  destruct ((tl' ++ th') @@ j) as [f|]; [|done]. apply bool_decide_eq_true in Hi as [Hf Hj']. rewrite permute_bits, Hj' by done. done.
Qed.

Lemma fp_ip_internal b : is_block b -> muggle_des_fp (muggle_des_ip b) = b.
Proof. apply (permute_inverse ip_l ip_h fp_l fp_h); [done..|repeat constructor; lia|repeat constructor; lia|by vm_compute]. Qed.

Lemma ip_fp_internal b : is_block b -> muggle_des_ip (muggle_des_fp b) = b.
Proof. apply (permute_inverse fp_l fp_h ip_l ip_h); [done..|repeat constructor; lia|repeat constructor; lia|by vm_compute]. Qed.

(** ** Decryption undoes encryption *)

Lemma des_f_word x sk : is_word 32 (muggle_des_f x sk).
Proof. by apply is_word_wrap. Qed.

(** The rounds are those of a Feistel network. *)
Lemma rounds_feistel ks : forall b, fold_left des_round ks b = let (l, r) := feistel muggle_des_f ks (u32_l b) (u32_h b) in mkb l r.
Proof. induction ks as [|k ks IH]; intros [l r]; [done|]. simpl. by rewrite IH. Qed.

Definition swap (b : muggle_64bit_block) : muggle_64bit_block := mkb (u32_h b) (u32_l b).

Lemma rounds_is_block ks b : is_block b -> is_block (fold_left des_round ks b).
Proof.
  intros [Hl Hh]. rewrite rounds_feistel.
  pose proof (feistel_is_word muggle_des_f 32 ks (u32_l b) (u32_h b) ltac:(lia) des_f_word Hl Hh) as [? ?].
  by destruct (feistel _ _ _ _).
Qed.

Lemma rounds_rev ks b : fold_left des_round (rev ks) (swap (fold_left des_round ks b)) = swap b.
Proof.
  rewrite !rounds_feistel. pose proof (feistel_rev muggle_des_f ks (u32_l b) (u32_h b)) as H.
  destruct (feistel muggle_des_f ks (u32_l b) (u32_h b)) as [l r]. simpl. by rewrite H.
Qed.

Lemma des_crypt_rounds ks b : muggle_des_crypt ks b = muggle_des_fp (swap (fold_left des_round ks (muggle_des_ip b))).
Proof. reflexivity. Qed.

Lemma tdes_crypt_rounds ks1 ks2 ks3 b : muggle_tdes_crypt ks1 ks2 ks3 b = muggle_des_crypt (ks1 ++ ks2 ++ ks3) b.
Proof. unfold muggle_tdes_crypt, muggle_des_crypt. by rewrite !fold_left_app. Qed.

Lemma internal_crypt_rev ks b : is_block b -> muggle_des_crypt (rev ks) (muggle_des_crypt ks b) = b.
Proof.
  intros Hb. rewrite !des_crypt_rounds, ip_fp_internal.
  - rewrite rounds_rev. replace (swap (swap (muggle_des_ip b))) with (muggle_des_ip b) by (by destruct (muggle_des_ip b)).
    by apply fp_ip_internal.
  - pose proof (rounds_is_block ks (muggle_des_ip b) (permute_is_block _ _ b)) as [??]. by split.
Qed.

Lemma set_key_rev key : (muggle_des_set_key_inner MUGGLE_DECRYPT key).2 = rev (muggle_des_set_key_inner MUGGLE_ENCRYPT key).2.
Proof. reflexivity. Qed.

(** With the internal implementation decryption undoes encryption, for every
    key and block: of DES, and of triple DES with three keys, whose decryption
    uses the keys in reverse with the operations exchanged. *)
Theorem internal_des_roundtrip k1 k2 k3 b : is_block b ->
  let ks o k := (muggle_des_set_key_inner o k).2 in
  muggle_des_crypt (ks MUGGLE_DECRYPT k1) (muggle_des_crypt (ks MUGGLE_ENCRYPT k1) b) = b /\
  muggle_tdes_crypt (ks MUGGLE_DECRYPT k3) (ks MUGGLE_ENCRYPT k2) (ks MUGGLE_DECRYPT k1)
    (muggle_tdes_crypt (ks MUGGLE_ENCRYPT k1) (ks MUGGLE_DECRYPT k2) (ks MUGGLE_ENCRYPT k3) b) = b.
Proof.
  intros Hb ks. unfold ks. rewrite !tdes_crypt_rounds, !set_key_rev. split; [by apply internal_crypt_rev|].
  set (s1 := (muggle_des_set_key_inner MUGGLE_ENCRYPT k1).2). set (s2 := (muggle_des_set_key_inner MUGGLE_ENCRYPT k2).2).
  set (s3 := (muggle_des_set_key_inner MUGGLE_ENCRYPT k3).2).
  replace (rev s3 ++ s2 ++ rev s1) with (rev (s1 ++ rev s2 ++ s3)) by (rewrite !rev_app_distr, rev_involutive; by rewrite <- (assoc_L (++))).
  by apply internal_crypt_rev.
Qed.

Definition test_key : list Z := [0x13; 0x34; 0x57; 0x79; 0x9b; 0xbc; 0xdf; 0xf1].
Definition test_block : muggle_64bit_block := block_of_bytes [0x01; 0x23; 0x45; 0x67; 0x89; 0xab; 0xcd; 0xef].

Lemma internal_des_roundtrip_witness :
  is_block test_block /\
  let ks o k := (muggle_des_set_key_inner o k).2 in
  muggle_des_crypt (ks MUGGLE_DECRYPT test_key) (muggle_des_crypt (ks MUGGLE_ENCRYPT test_key) test_block) = test_block.
Proof.
  assert (is_block test_block) as H by (by vm_compute). split; [exact H|].
  apply (internal_des_roundtrip test_key test_key test_key test_block H).
Defined.

(** On the standard's example the optimised build computes DES and this one does not. *)
Example internal_des_is_not_des :
  block_bytes (muggle_openssl_des_crypt test_block (muggle_openssl_des_gen_subkeys MUGGLE_ENCRYPT test_key)) =
    [0x85; 0xe8; 0x13; 0x54; 0x0f; 0x0a; 0xb4; 0x05] /\
  muggle_des_crypt (muggle_des_set_key_inner MUGGLE_ENCRYPT test_key).2 test_block <>
    block_of_bytes [0x85; 0xe8; 0x13; 0x54; 0x0f; 0x0a; 0xb4; 0x05].
Proof. split; [vm_compute; reflexivity|]. by vm_compute. Qed.

(** Triple DES with one key is DES, but not here: the halves are not exchanged
    between the three passes. *)
Example internal_tdes_is_not_three_des :
  let ks o := (muggle_des_set_key_inner o test_key).2 in
  muggle_tdes_crypt (ks MUGGLE_ENCRYPT) (ks MUGGLE_DECRYPT) (ks MUGGLE_ENCRYPT) test_block <>
    muggle_des_crypt (ks MUGGLE_ENCRYPT) test_block.
Proof. by vm_compute. Qed.
End InternalDes.
