(* ===== verification/BlockModes.v ===== *)
(** The block cipher modes of aes.c, des.c and tdes.c, which share their loops
    up to the block size and the block function: ECB, CBC, CFB, OFB and CTR.
    The interface [BlockCipher] states what a mode needs of a block function;
    under it every mode is shown to terminate, to stay inside the buffers and
    to be undone by the decryption of the same mode. *)

From stdpp Require Import base list numbers.
From Stdlib Require Import ZArith Lia.
From S2P Require Import Prelude Bits CryptUtils.
Import CryptUtils.

Open Scope Z_scope.

Module BlockModes.

(** The promise of a block cipher with blocks of [bs] bytes. *)
Class BlockCipher (bs : Z) (enc dec : list Z -> list Z) : Prop := {
  bc_enc : forall b, zlen b = bs -> is_bytes b -> zlen (enc b) = bs /\ is_bytes (enc b);
  bc_dec : forall b, zlen b = bs -> is_bytes b -> zlen (dec b) = bs /\ is_bytes (dec b);
  bc_dec_enc : forall b, zlen b = bs -> is_bytes b -> dec (enc b) = b
}.

(** The xor of two buffers of the same length: [aes_128bit_xor], and [^] on the
    [u64] view of the 64-bit blocks. *)
Definition xor_bytes (x y : list Z) : list Z := zip_with Z.lxor x y.

(** ** The loops

    [chunk_loop k n step s input out]: [n] iterations; the [i]-th reads the [k]
    bytes of [input] from [i * k] on, computes as many bytes with [step], which
    also updates the loop state, and stores them at the same place of [out]. *)
Definition chunk_loop {S} (k n : Z) (step : S -> list Z -> outcome (S * list Z))
    (s : S) (input out : list Z) : outcome (S * list Z) :=
  for_up 0 n (fun i st =>
    let '(s, out) := (st : S * list Z) in
    xs ← mem_read input (i * k) k;
    r ← step s xs;
    let '(s, ys) := (r : S * list Z) in
    out ← mem_write out (i * k) ys;
    mret (s, out)) (s, out).

(** One block of ECB and of CBC; the state of CBC is the chaining value. *)
Definition ecb_step (crypt : list Z -> list Z) (s : unit) (b : list Z) : outcome (unit * list Z) :=
  mret (s, crypt b).

Definition cbc_step (op : Z) (crypt : list Z -> list Z) (v b : list Z)
  : outcome (list Z * list Z) :=
  if op =? MUGGLE_ENCRYPT then
    let o := crypt (xor_bytes v b) in
    mret (o, o)
  else
    let o := xor_bytes (crypt b) v in
    mret (b, o).

(** One byte of CFB and OFB; the state is the vector and the offset in it. *)
Definition cfb_step (bs op : Z) (enc : list Z -> list Z) (st : list Z * Z) (xs : list Z)
  : outcome ((list Z * Z) * list Z) :=
  let '(iv, offset) := st in
  x ← aget xs 0;
  let iv := if offset =? 0 then enc iv else iv in
  k ← aget iv offset;
  let o := Z.lxor x k in
  iv ← aset iv offset (if op =? MUGGLE_ENCRYPT then o else x);
  mret ((iv, Z.land (offset + 1) (bs - 1)), [o]).

Definition ofb_step (bs : Z) (enc : list Z -> list Z) (st : list Z * Z) (xs : list Z)
  : outcome ((list Z * Z) * list Z) :=
  let '(iv, offset) := st in
  x ← aget xs 0;
  let iv := if offset =? 0 then enc iv else iv in
  k ← aget iv offset;
  mret ((iv, Z.land (offset + 1) (bs - 1)), [Z.lxor x k]).

(** One byte of CTR; [next] is the increment of the nonce, [nonce_bytes] its
    bytes in memory. *)
Definition ctr_step {N} (bs : Z) (next : N -> N) (nonce_bytes : N -> list Z)
    (enc : list Z -> list Z) (st : N * list Z * Z) (xs : list Z)
  : outcome ((N * list Z * Z) * list Z) :=
  let '(nonce, stream_block, offset) := st in
  x ← aget xs 0;
  let '(nonce, stream_block) :=
    if offset =? 0 then let nonce := next nonce in (nonce, enc (nonce_bytes nonce))
    else (nonce, stream_block) in
  k ← aget stream_block offset;
  mret ((nonce, stream_block, Z.land (offset + 1) (bs - 1)), [Z.lxor x k]).

(** ** Running a step over a list of chunks *)
Fixpoint chunk_list {S} (k : Z) (n : nat) (step : S -> list Z -> outcome (S * list Z))
    (s : S) (xs : list Z) : outcome (S * list Z) :=
  match n with
  | O => mret (s, [])
  | Datatypes.S n =>
      r ← step s (take (Z.to_nat k) xs);
      let '(s, ys) := (r : S * list Z) in
      r ← chunk_list k n step s (drop (Z.to_nat k) xs);
      let '(s, zs) := (r : S * list Z) in
      mret (s, ys ++ zs)
  end.

Section loops.
Context {S : Type} (k : Z) (Hk : 0 < k).

(** [steps Inv step stepd]: from a state in [Inv], a step on a chunk of bytes
    gives a chunk of bytes and a state in [Inv], and [stepd] undoes it. *)
Definition step_ok (Inv : S -> Prop) (step : S -> list Z -> outcome (S * list Z)) : Prop :=
  forall s xs, Inv s -> zlen xs = k -> is_bytes xs ->
    exists s' ys, step s xs = Done (s', ys) /\ Inv s' /\ zlen ys = k /\ is_bytes ys.

Definition step_undo (Inv : S -> Prop) (step stepd : S -> list Z -> outcome (S * list Z)) : Prop :=
  forall s xs s' ys, Inv s -> zlen xs = k -> is_bytes xs ->
    step s xs = Done (s', ys) -> stepd s ys = Done (s', xs).

Context (Inv : S -> Prop) (step : S -> list Z -> outcome (S * list Z)) (Hstep : step_ok Inv step).

Lemma chunk_list_ok n s xs :
  Inv s -> zlen xs = Z.of_nat n * k -> is_bytes xs ->
  exists s' ys, chunk_list k n step s xs = Done (s', ys) /\ Inv s' /\
    zlen ys = Z.of_nat n * k /\ is_bytes ys.
Proof.
  revert s xs. induction n as [|n IH]; intros s xs Hs Hl Hb; simpl chunk_list.
  - exists s, []. split_and!; try done. constructor.
  - destruct (Hstep s (take (Z.to_nat k) xs)) as (s1 & ys & -> & Hs1 & Hl1 & Hb1);
      [done|rewrite zlen_take; lia|by apply Forall_take|]. simpl.
    destruct (IH s1 (drop (Z.to_nat k) xs)) as (s2 & zs & -> & Hs2 & Hl2 & Hb2);
      [done|rewrite zlen_drop; lia|by apply Forall_drop|]. simpl.
    exists s2, (ys ++ zs). rewrite zlen_app. split_and!; try done; try lia. by apply Forall_app.
Qed.

Lemma chunk_list_S n s xs :
  chunk_list k (Datatypes.S n) step s xs =
    (r ← step s (take (Z.to_nat k) xs);
     let '(s, ys) := (r : S * list Z) in
     r ← chunk_list k n step s (drop (Z.to_nat k) xs);
     let '(s, zs) := (r : S * list Z) in
     mret (s, ys ++ zs)).
Proof. done. Qed.

Lemma chunk_list_snoc n s xs ys :
  zlen xs = Z.of_nat n * k ->
  chunk_list k (Datatypes.S n) step s (xs ++ ys) =
    (r ← chunk_list k n step s xs;
     let '(s, zs) := (r : S * list Z) in
     r ← step s (take (Z.to_nat k) ys);
     let '(s, us) := (r : S * list Z) in
     mret (s, zs ++ us)).
Proof.
  revert s xs. induction n as [|n IH]; intros s xs Hl.
  - destruct xs; [|unfold zlen in Hl; simpl in Hl; lia]. simpl.
    destruct (step s _) as [[? us]| |]; simpl; [|done..]. by rewrite app_nil_r.
  - rewrite !(chunk_list_S (Datatypes.S n)), (chunk_list_S n s xs), (take_app_zle xs ys k) by lia.
    destruct (step s (take (Z.to_nat k) xs)) as [[s1 zs]| |]; [|done..].
    rewrite (drop_app_zle xs ys k) by lia.
    mcompute. rewrite IH by (rewrite zlen_drop; lia). mcompute.
    destruct (chunk_list k n step s1 _) as [[s2 us]| |]; [|done..].
    destruct (step s2 _) as [[s3 vs]| |]; [|done..]. by rewrite (assoc_L (++)).
Qed.

(** The loop computes the list function into the front of the output. *)
Lemma chunk_loop_spec n s input out :
  0 <= n -> Inv s -> n * k <= zlen input -> n * k <= zlen out -> is_bytes input ->
  exists s' ys, chunk_list k (Z.to_nat n) step s (seg 0 (n * k) input) = Done (s', ys) /\
    Inv s' /\ zlen ys = n * k /\ is_bytes ys /\
    chunk_loop k n step s input out = Done (s', overwrite 0 ys out).
Proof.
  intros Hn Hs Hin Hout Hb.
  assert (is_bytes (seg 0 (n * k) input)) as Hb' by (apply Forall_take, Forall_drop, Hb).
  destruct (chunk_list_ok (Z.to_nat n) s (seg 0 (n * k) input)) as (s' & ys & E & Hs' & Hl & Hby);
    [done|rewrite zlen_seg; lia|done|].
  exists s', ys. rewrite Z2Nat.id in Hl by lia. split_and!; try done.
  enough (wp (chunk_loop k n step s input out) (fun r => r = (s', overwrite 0 ys out)))
    as (r & -> & ->)%wp_Done by done.
  unfold chunk_loop. apply (wp_for_up (fun i r => let '(s1, o) := (r : S * list Z) in
    Inv s1 /\ exists zs, chunk_list k (Z.to_nat i) step s (seg 0 (i * k) input) = Done (s1, zs) /\
      zlen zs = i * k /\ o = overwrite 0 zs out)).
  - split; [done|]. exists []. split; [done|]. split; [done|].
    unfold overwrite. rewrite Z.add_0_l. by destruct out.
  - intros i [s1 o] Hi (Hs1 & zs & Hz & Hlz & ->).
    assert (0 <= i * k /\ i * k + k <= n * k) as [? ?] by nia.
    rewrite mem_read_ok by lia. mcompute.
    destruct (Hstep s1 (seg (i * k) (i * k + k) input)) as (s2 & us & Eu & Hs2 & Hlu & Hbu);
      [done|rewrite zlen_seg; lia|apply Forall_take, Forall_drop, Hb|].
    rewrite Eu. assert (zlen (overwrite 0 zs out) = zlen out) by (rewrite zlen_overwrite; lia).
    rewrite mem_write_ok by lia. split; [done|]. exists (zs ++ us).
    replace ((i + 1) * k) with (i * k + k) by lia. replace (Z.to_nat (i + 1)) with (Datatypes.S (Z.to_nat i)) by lia.
    rewrite (seg_app 0 (i * k)), chunk_list_snoc, Hz by (rewrite ?zlen_seg; lia). mcompute.
    rewrite (take_seg (i * k) (i * k + k)) by lia. rewrite Eu, zlen_app.
    split; [done|]. split; [lia|].
    assert (zlen (zs ++ us) = i * k + k) by (rewrite zlen_app; lia).
    apply zlookup_ext; rewrite !zlen_overwrite by lia; [done|]. intros j Hj.
    rewrite !zlookup_overwrite by lia. rewrite Hlz.
    repeat case_decide; try lia; rewrite ?Z.sub_0_r.
    + rewrite zlookup_app_r by lia. by rewrite Hlz.
    + by rewrite zlookup_app_l by lia.
    + done.
  - intros [s1 o] (_ & zs & Hz & _ & ->). rewrite Z.max_r in Hz by lia. congruence.
Qed.

Lemma chunk_list_undo stepd n s xs s' ys :
  step_undo Inv step stepd -> Inv s -> zlen xs = Z.of_nat n * k -> is_bytes xs ->
  chunk_list k n step s xs = Done (s', ys) -> chunk_list k n stepd s ys = Done (s', xs).
Proof.
  intros Hu. revert s xs ys. induction n as [|n IH]; intros s xs ys Hs Hl Hb; simpl chunk_list.
  - destruct xs; [|unfold zlen in Hl; simpl in Hl; lia]. by intros [= <- <-].
  - destruct (Hstep s (take (Z.to_nat k) xs)) as (s1 & us & Eu & Hs1 & Hlu & Hbu);
      [done|rewrite zlen_take; lia|by apply Forall_take|]. rewrite Eu. simpl.
    destruct (chunk_list k n step s1 _) as [[s2 vs]| |] eqn:Ev; [|done..]. intros [= <- <-].
    rewrite (take_app_zle us vs k), (drop_app_zle us vs k) by lia.
    replace (take (Z.to_nat k) us) with us by (symmetry; apply take_ge; unfold zlen in Hlu; lia).
    replace (drop (Z.to_nat k) us) with (@nil Z) by (symmetry; apply drop_ge; unfold zlen in Hlu; lia).
    rewrite (Hu _ (take (Z.to_nat k) xs) s1 us); [|done|rewrite zlen_take; lia|by apply Forall_take|done].
    simpl. rewrite (IH s1 (drop (Z.to_nat k) xs) vs); [|done|rewrite zlen_drop; lia|by apply Forall_drop|done].
    simpl. by rewrite take_drop.
Qed.
End loops.

(** A loop that an undoing loop follows gives the input back. *)
Lemma chunk_loop_undo {S} (k : Z) (Inv : S -> Prop) step stepd n s input out :
  0 < k -> step_ok k Inv step -> step_ok k Inv stepd -> step_undo k Inv step stepd ->
  0 <= n -> Inv s -> n * k <= zlen input -> n * k <= zlen out -> is_bytes input ->
  exists s' out', chunk_loop k n step s input out = Done (s', out') /\
    zlen out' = zlen out /\
    forall out2, n * k <= zlen out2 ->
      chunk_loop k n stepd s (seg 0 (n * k) out') out2 =
        Done (s', overwrite 0 (seg 0 (n * k) input) out2).
Proof.
  intros Hk Hok Hokd Hu Hn Hs Hin Hout Hb.
  destruct (chunk_loop_spec k Hk Inv step Hok n s input out) as (s' & ys & El & Hs' & Hl & Hby & E);
    [done..|].
  assert (0 <= n * k) by nia.
  exists s', (overwrite 0 ys out). split; [done|]. rewrite zlen_overwrite by lia. split; [done|].
  intros out2 Ho2.
  assert (seg 0 (n * k) (overwrite 0 ys out) = ys) as ->.
  { rewrite <- Hl. change (zlen ys) with (0 + zlen ys). apply seg_overwrite_eq; lia. }
  destruct (chunk_loop_spec k Hk Inv stepd Hokd n s ys out2) as (s2 & zs & Ez & _ & _ & _ & ->);
    [done|done|lia|done|done|].
  rewrite <- Hl, seg_full in Ez.
  apply (chunk_list_undo k Hk Inv step Hok stepd) in El; [|done|done| |by apply Forall_take, Forall_drop].
  - rewrite Ez in El. by injection El as -> ->.
  - rewrite zlen_seg; lia.
Qed.

(** ** Exclusive or of buffers *)
Lemma zlen_xor_bytes x y n : zlen x = n -> zlen y = n -> zlen (xor_bytes x y) = n.
Proof. unfold zlen, xor_bytes. intros. rewrite length_zip_with. lia. Qed.

Lemma is_bytes_xor x y : is_bytes x -> is_bytes y -> is_bytes (xor_bytes x y).
Proof.
  intros Hx. revert y. induction Hx as [|a x Ha _ IH]; intros [|b y] Hy; simpl; try constructor.
  - inversion Hy. by apply is_word_lxor.
  - inversion Hy. by apply IH.
Qed.

Lemma xor_bytes_cancel x y : length x = length y -> xor_bytes (xor_bytes x y) x = y.
Proof.
  revert y. induction x as [|a x IH]; intros [|b y] Hl; simplify_eq/=; [done|].
  f_equal; [xor_solve|by apply IH].
Qed.

Lemma is_bytes_lookup bs i x : is_bytes bs -> bs @@ i = Some x -> is_word 8 x.
Proof.
  unfold is_bytes, zlookup. case_bool_decide; [|done]. rewrite Forall_lookup. eauto.
Qed.

Lemma is_bytes_zinsert bs i x : is_bytes bs -> is_word 8 x -> is_bytes (zinsert i x bs).
Proof. intros. by apply Forall_insert. Qed.

(** ** The steps *)
Section steps.
Context (bs e : Z) (Hbs : bs = 2 ^ e) (He : 0 <= e) (enc dec : list Z -> list Z).
Context `{!BlockCipher bs enc dec}.

Lemma bs_pos : 0 < bs.
Proof. subst. apply Z.pow_pos_nonneg; lia. Qed.

Definition is_vector (v : list Z) : Prop := zlen v = bs /\ is_bytes v.

Lemma enc_vector b : is_vector b -> is_vector (enc b).
Proof. intros [? ?]. by apply bc_enc. Qed.

Lemma ecb_enc_ok : step_ok bs (fun _ => True) (ecb_step enc).
Proof. intros [] xs _ Hl Hb. exists tt, (enc xs). by destruct (bc_enc xs). Qed.

Lemma ecb_dec_ok : step_ok bs (fun _ => True) (ecb_step dec).
Proof. intros [] xs _ Hl Hb. exists tt, (dec xs). by destruct (bc_dec xs). Qed.

Lemma ecb_undo : step_undo bs (fun _ => True) (ecb_step enc) (ecb_step dec).
Proof. intros [] xs s' ys _ Hl Hb [= <- <-]. unfold ecb_step. by rewrite bc_dec_enc. Qed.

Lemma cbc_enc_ok : step_ok bs is_vector (cbc_step MUGGLE_ENCRYPT enc).
Proof.
  intros v xs [Hv Hbv] Hl Hb. unfold cbc_step. simpl.
  destruct (bc_enc (xor_bytes v xs)) as [? ?]; [by apply zlen_xor_bytes|by apply is_bytes_xor|].
  by eexists _, _.
Qed.

Lemma cbc_dec_ok : step_ok bs is_vector (cbc_step MUGGLE_DECRYPT dec).
Proof.
  intros v xs [Hv Hbv] Hl Hb. unfold cbc_step. simpl. destruct (bc_dec xs) as [? ?]; [done..|].
  eexists _, _. split; [done|]. split; [done|].
  split; [by apply zlen_xor_bytes|by apply is_bytes_xor].
Qed.

Lemma cbc_undo : step_undo bs is_vector (cbc_step MUGGLE_ENCRYPT enc) (cbc_step MUGGLE_DECRYPT dec).
Proof.
  intros v xs s' ys [Hv Hbv] Hl Hb [= <- <-]. unfold cbc_step. simpl.
  rewrite (bc_dec_enc (bs := bs) (enc := enc) (dec := dec)) by (by apply zlen_xor_bytes || by apply is_bytes_xor).
  rewrite xor_bytes_cancel; [done|]. unfold zlen in *. lia.
Qed.

(** The state of CFB and OFB. *)
Definition is_stream (st : list Z * Z) : Prop := is_vector st.1 /\ 0 <= st.2 < bs.

Lemma next_offset o : 0 <= o -> 0 <= Z.land (o + 1) (bs - 1) < bs.
Proof.
  intros. pose proof bs_pos. replace (bs - 1) with (Z.ones e) by (rewrite Z.ones_equiv; lia).
  rewrite Z.land_ones by lia. rewrite <- Hbs. apply Z.mod_pos_bound. lia.
Qed.

Lemma refill_vector (o : Z) iv : is_vector iv -> is_vector (if o =? 0 then enc iv else iv).
Proof. intros. case_match; [by apply enc_vector|done]. Qed.

Lemma singleton_chunk (xs : list Z) :
  zlen xs = 1 -> is_bytes xs -> exists x, xs = [x] /\ is_word 8 x.
Proof.
  unfold zlen. destruct xs as [|x [|? ?]]; simpl; try lia. intros _ Hb. inversion Hb. by exists x.
Qed.

Lemma cfb_ok op : step_ok 1 is_stream (cfb_step bs op enc).
Proof.
  intros [iv o] xs [Hv Ho] Hl Hb. simpl in Hv, Ho.
  destruct (singleton_chunk xs Hl Hb) as (x & -> & Hx). unfold cfb_step. simpl.
  pose proof (refill_vector o iv Hv) as [Hl' Hb']. set (iv' := if o =? 0 then enc iv else iv) in *.
  destruct (zlookup_is_Some iv' o) as [y Hy]; [lia|]. rewrite (aget_Some _ _ _ Hy). simpl.
  pose proof (is_bytes_lookup _ _ _ Hb' Hy) as Hyw. assert (is_word 8 (Z.lxor x y)) by (by apply is_word_lxor).
  rewrite aset_zinsert by lia. simpl. eexists _, _. split; [done|].
  split; [|split; [done|by apply Forall_singleton, is_word_lxor]].
  split; [split; simpl|simpl; apply next_offset; lia].
  - by rewrite zlen_zinsert.
  - apply is_bytes_zinsert; [done|]. by case_match.
Qed.

Lemma cfb_undo : step_undo 1 is_stream (cfb_step bs MUGGLE_ENCRYPT enc) (cfb_step bs MUGGLE_DECRYPT enc).
Proof.
  intros [iv o] xs s' ys [Hv Ho] Hl Hb. simpl in Hv, Ho.
  destruct (singleton_chunk xs Hl Hb) as (x & -> & Hx). unfold cfb_step. simpl.
  pose proof (refill_vector o iv Hv) as [Hl' Hb'].
  remember (if o =? 0 then enc iv else iv) as iv' eqn:Ei.
  destruct (zlookup_is_Some iv' o) as [y Hy]; [lia|]. apply aget_Some in Hy.
  rewrite Hy. mcompute. rewrite !aset_zinsert by lia. intros [= <- <-].
  change (aget [Z.lxor x y] 0) with (Done (Z.lxor x y)). cbv beta iota.
  rewrite aset_zinsert by lia. by rewrite lxor_cancel_r.
Qed.

Lemma ofb_ok : step_ok 1 is_stream (ofb_step bs enc).
Proof.
  intros [iv o] xs [Hv Ho] Hl Hb. simpl in Hv, Ho.
  destruct (singleton_chunk xs Hl Hb) as (x & -> & Hx). unfold ofb_step. simpl.
  pose proof (refill_vector o iv Hv) as [Hl' Hb']. set (iv' := if o =? 0 then enc iv else iv) in *.
  destruct (zlookup_is_Some iv' o) as [y Hy]; [lia|]. rewrite (aget_Some _ _ _ Hy). simpl.
  pose proof (is_bytes_lookup _ _ _ Hb' Hy) as Hyw. eexists _, _. split; [done|].
  split; [|split; [done|by apply Forall_singleton, is_word_lxor]].
  split; [done|simpl; apply next_offset; lia].
Qed.

Lemma ofb_undo : step_undo 1 is_stream (ofb_step bs enc) (ofb_step bs enc).
Proof.
  intros [iv o] xs s' ys [Hv Ho] Hl Hb. simpl in Hv, Ho.
  destruct (singleton_chunk xs Hl Hb) as (x & -> & Hx). unfold ofb_step. mcompute.
  change (aget [x] 0) with (Done x). cbv beta iota.
  destruct (aget _ o) as [y| |]; [|done..]. intros [= <- <-].
  change (aget [Z.lxor x y] 0) with (Done (Z.lxor x y)). cbv beta iota. by rewrite lxor_cancel_r.
Qed.

(** CTR: the nonces are some type with its increment and its bytes. *)
Context {N : Type} (next : N -> N) (nonce_bytes : N -> list Z) (is_nonce : N -> Prop).
Context (Hnext : forall x, is_nonce x -> is_nonce (next x)).
Context (Hbytes : forall x, is_nonce x -> is_vector (nonce_bytes x)).

Definition is_counter (st : N * list Z * Z) : Prop :=
  is_nonce st.1.1 /\ is_vector st.1.2 /\ 0 <= st.2 < bs.

Lemma ctr_ok : step_ok 1 is_counter (ctr_step bs next nonce_bytes enc).
Proof.
  intros [[nonce sb] o] xs (Hn & Hv & Ho) Hl Hb. simpl in Hn, Hv, Ho.
  destruct (singleton_chunk xs Hl Hb) as (x & -> & Hx). unfold ctr_step. simpl.
  set (p := if o =? 0 then _ else _).
  assert (is_nonce p.1 /\ is_vector p.2) as [Hn' [Hl' Hb']].
  { unfold p. case_match; simpl; [|done]. auto using enc_vector. }
  clearbody p. destruct p as [nonce' sb']. simpl in *.
  destruct (zlookup_is_Some sb' o) as [y Hy]; [lia|]. rewrite (aget_Some _ _ _ Hy). simpl.
  pose proof (is_bytes_lookup _ _ _ Hb' Hy) as Hyw. eexists _, _. split; [done|].
  split; [|split; [done|by apply Forall_singleton, is_word_lxor]].
  split; [done|]. split; [done|]. simpl. apply next_offset. lia.
Qed.

Lemma ctr_undo : step_undo 1 is_counter (ctr_step bs next nonce_bytes enc) (ctr_step bs next nonce_bytes enc).
Proof.
  intros [[nonce sb] o] xs s' ys _ Hl Hb.
  destruct (singleton_chunk xs Hl Hb) as (x & -> & Hx). unfold ctr_step. mcompute.
  change (aget [x] 0) with (Done x). cbv beta iota.
  destruct (if o =? 0 then (next nonce, enc (nonce_bytes (next nonce))) else (nonce, sb)) as [nonce' sb'].
  destruct (aget sb' o) as [y| |]; [|done..]. intros [= <- <-].
  change (aget [Z.lxor x y] 0) with (Done (Z.lxor x y)). cbv beta iota. by rewrite lxor_cancel_r.
Qed.

(** ** Round trips of the loops *)
Lemma ecb_loop_roundtrip n input out :
  0 <= n -> n * bs <= zlen input -> n * bs <= zlen out -> is_bytes input ->
  exists out', chunk_loop bs n (ecb_step enc) tt input out = Done (tt, out') /\
    zlen out' = zlen out /\
    forall out2, n * bs <= zlen out2 ->
      chunk_loop bs n (ecb_step dec) tt (seg 0 (n * bs) out') out2 =
        Done (tt, overwrite 0 (seg 0 (n * bs) input) out2).
Proof.
  intros. destruct (chunk_loop_undo bs (fun _ => True) (ecb_step enc) (ecb_step dec) n tt input out)
    as ([] & out' & ?); auto using bs_pos, ecb_enc_ok, ecb_dec_ok, ecb_undo. by exists out'.
Qed.

Lemma cbc_loop_roundtrip n iv input out :
  0 <= n -> is_vector iv -> n * bs <= zlen input -> n * bs <= zlen out -> is_bytes input ->
  exists iv' out', chunk_loop bs n (cbc_step MUGGLE_ENCRYPT enc) iv input out = Done (iv', out') /\
    zlen out' = zlen out /\
    forall out2, n * bs <= zlen out2 ->
      chunk_loop bs n (cbc_step MUGGLE_DECRYPT dec) iv (seg 0 (n * bs) out') out2 =
        Done (iv', overwrite 0 (seg 0 (n * bs) input) out2).
Proof. intros. apply (chunk_loop_undo bs is_vector); auto using bs_pos, cbc_enc_ok, cbc_dec_ok, cbc_undo. Qed.

Lemma cfb_loop_roundtrip n st input out :
  0 <= n -> is_stream st -> n <= zlen input -> n <= zlen out -> is_bytes input ->
  exists st' out', chunk_loop 1 n (cfb_step bs MUGGLE_ENCRYPT enc) st input out = Done (st', out') /\
    zlen out' = zlen out /\
    forall out2, n <= zlen out2 ->
      chunk_loop 1 n (cfb_step bs MUGGLE_DECRYPT enc) st (seg 0 n out') out2 =
        Done (st', overwrite 0 (seg 0 n input) out2).
Proof.
  intros. pose proof (chunk_loop_undo 1 is_stream (cfb_step bs MUGGLE_ENCRYPT enc)
    (cfb_step bs MUGGLE_DECRYPT enc) n st input out) as H'. rewrite Z.mul_1_r in H'.
  apply H'; auto using cfb_ok, cfb_undo with lia.
Qed.

Lemma ofb_loop_roundtrip n st input out :
  0 <= n -> is_stream st -> n <= zlen input -> n <= zlen out -> is_bytes input ->
  exists st' out', chunk_loop 1 n (ofb_step bs enc) st input out = Done (st', out') /\
    zlen out' = zlen out /\
    forall out2, n <= zlen out2 ->
      chunk_loop 1 n (ofb_step bs enc) st (seg 0 n out') out2 =
        Done (st', overwrite 0 (seg 0 n input) out2).
Proof.
  intros. pose proof (chunk_loop_undo 1 is_stream (ofb_step bs enc)
    (ofb_step bs enc) n st input out) as H'. rewrite Z.mul_1_r in H'.
  apply H'; auto using ofb_ok, ofb_undo with lia.
Qed.

Lemma ctr_loop_roundtrip n st input out :
  0 <= n -> is_counter st -> n <= zlen input -> n <= zlen out -> is_bytes input ->
  exists st' out', chunk_loop 1 n (ctr_step bs next nonce_bytes enc) st input out = Done (st', out') /\
    zlen out' = zlen out /\
    forall out2, n <= zlen out2 ->
      chunk_loop 1 n (ctr_step bs next nonce_bytes enc) st (seg 0 n out') out2 =
        Done (st', overwrite 0 (seg 0 n input) out2).
Proof.
  intros. pose proof (chunk_loop_undo 1 is_counter (ctr_step bs next nonce_bytes enc)
    (ctr_step bs next nonce_bytes enc) n st input out) as H'. rewrite Z.mul_1_r in H'.
  apply H'; auto using ctr_ok, ctr_undo with lia.
Qed.
End steps.

End BlockModes.
