(* ===== verification/Des.v ===== *)
(** muggle/c/crypt/des.{h,c}: the DES context, its key setup and the five block
    modes, over the block function of [OpensslDes] that the library is built
    with.  Every mode is shown to be undone by the decryption of the mode. *)

From stdpp Require Import base list numbers.
From Stdlib Require Import ZArith Lia.
From S2P Require Import Prelude BaseUtils Bits CryptUtils OpensslDes BlockModes.
Import CryptUtils OpensslDes BlockModes.

Open Scope Z_scope.

Module Des.

Definition MUGGLE_DES_BLOCK_SIZE : Z := 8.

Record muggle_des_context := mkctx {
  op : Z;
  mode : Z;
  sk : list muggle_des_subkey
}.

Definition muggle_des_set_key_inner (op : Z) (key_bytes : list Z) : Z * list muggle_des_subkey :=
  (0, muggle_openssl_des_gen_subkeys op key_bytes).

(** A block is given and returned as its eight bytes in memory. *)
Definition muggle_des_crypt (ks : list muggle_des_subkey) (input : list Z) : list Z :=
  block_bytes (muggle_openssl_des_crypt (block_of_bytes input) ks).

(** Pointer arguments are valid: the NULL checks of the functions are passed. *)
Definition muggle_des_set_key (o m : Z) (key : list Z) (ctx : muggle_des_context)
  : Z * muggle_des_context :=
  if negb ((o =? MUGGLE_ENCRYPT) || (o =? MUGGLE_DECRYPT)) then (MUGGLE_ERR_INVALID_PARAM, ctx)
  else if (m =? MUGGLE_BLOCK_CIPHER_MODE_ECB) || (m =? MUGGLE_BLOCK_CIPHER_MODE_CBC) then
    let '(ret, sk) := muggle_des_set_key_inner o key in (ret, mkctx o m sk)
  else if (m =? MUGGLE_BLOCK_CIPHER_MODE_CFB) || (m =? MUGGLE_BLOCK_CIPHER_MODE_OFB)
          || (m =? MUGGLE_BLOCK_CIPHER_MODE_CTR) then
    let '(ret, sk) := muggle_des_set_key_inner MUGGLE_ENCRYPT key in (ret, mkctx o m sk)
  else (MUGGLE_ERR_INVALID_PARAM, mkctx o m (sk ctx)).

Definition muggle_des_ecb (ctx : muggle_des_context) (input : list Z) (num_bytes : Z)
    (output : list Z) : outcome (Z * list Z) :=
  if negb (mode ctx =? MUGGLE_BLOCK_CIPHER_MODE_ECB) then mret (MUGGLE_ERR_INVALID_PARAM, output)
  else if negb (ROUND_UP_POW_OF_2_MUL num_bytes MUGGLE_DES_BLOCK_SIZE =? num_bytes) then
    mret (MUGGLE_ERR_INVALID_PARAM, output)
  else
    let len := num_bytes / MUGGLE_DES_BLOCK_SIZE in
    r ← chunk_loop MUGGLE_DES_BLOCK_SIZE len (ecb_step (muggle_des_crypt (sk ctx))) tt input output;
    mret (0, snd (r : unit * list Z)).

(** The vector is the caller's, updated at the end. *)
Definition muggle_des_cbc (ctx : muggle_des_context) (input : list Z) (num_bytes : Z)
    (iv_bytes output : list Z) : outcome (Z * list Z * list Z) :=
  if negb (mode ctx =? MUGGLE_BLOCK_CIPHER_MODE_CBC) then
    mret (MUGGLE_ERR_INVALID_PARAM, iv_bytes, output)
  else if negb (ROUND_UP_POW_OF_2_MUL num_bytes MUGGLE_DES_BLOCK_SIZE =? num_bytes) then
    mret (MUGGLE_ERR_INVALID_PARAM, iv_bytes, output)
  else if negb ((op ctx =? MUGGLE_ENCRYPT) || (op ctx =? MUGGLE_DECRYPT)) then
    mret (MUGGLE_ERR_INVALID_PARAM, iv_bytes, output)
  else
    let len := num_bytes / MUGGLE_DES_BLOCK_SIZE in
    r ← chunk_loop MUGGLE_DES_BLOCK_SIZE len (cbc_step (op ctx) (muggle_des_crypt (sk ctx)))
          iv_bytes input output;
    let '(iv, output) := (r : list Z * list Z) in
    mret (0, iv, output).

(** Results: the return value, the vector, its offset and the output. *)
Definition muggle_des_cfb64 (ctx : muggle_des_context) (input : list Z) (num_bytes : Z)
    (iv : list Z) (iv_offset : Z) (output : list Z) : outcome (Z * list Z * Z * list Z) :=
  if negb (mode ctx =? MUGGLE_BLOCK_CIPHER_MODE_CFB) then
    mret (MUGGLE_ERR_INVALID_PARAM, iv, iv_offset, output)
  else if negb (iv_offset <? MUGGLE_DES_BLOCK_SIZE) then
    mret (MUGGLE_ERR_INVALID_PARAM, iv, iv_offset, output)
  else if negb ((op ctx =? MUGGLE_ENCRYPT) || (op ctx =? MUGGLE_DECRYPT)) then
    mret (MUGGLE_ERR_INVALID_PARAM, iv, iv_offset, output)
  else
    r ← chunk_loop 1 num_bytes
          (cfb_step MUGGLE_DES_BLOCK_SIZE (op ctx) (muggle_des_crypt (sk ctx)))
          (iv, iv_offset) input output;
    let '((iv, offset), output) := (r : (list Z * Z) * list Z) in
    mret (0, iv, offset, output).

Definition muggle_des_ofb64 (ctx : muggle_des_context) (input : list Z) (num_bytes : Z)
    (iv : list Z) (iv_offset : Z) (output : list Z) : outcome (Z * list Z * Z * list Z) :=
  if negb (mode ctx =? MUGGLE_BLOCK_CIPHER_MODE_OFB) then
    mret (MUGGLE_ERR_INVALID_PARAM, iv, iv_offset, output)
  else if negb (iv_offset <? MUGGLE_DES_BLOCK_SIZE) then
    mret (MUGGLE_ERR_INVALID_PARAM, iv, iv_offset, output)
  else
    r ← chunk_loop 1 num_bytes (ofb_step MUGGLE_DES_BLOCK_SIZE (muggle_des_crypt (sk ctx)))
          (iv, iv_offset) input output;
    let '((iv, offset), output) := (r : (list Z * Z) * list Z) in
    mret (0, iv, offset, output).

(** The 64-bit nonce and its bytes. *)
Definition nonce_next (nonce : Z) : Z := u64 (nonce + 1).
Definition nonce_bytes (nonce : Z) : list Z := le_bytes 8 nonce.

(** Results: the return value, nonce, stream block, offset and output. *)
Definition muggle_des_ctr (ctx : muggle_des_context) (input : list Z) (num_bytes : Z)
    (nonce nonce_offset : Z) (stream_block output : list Z)
  : outcome (Z * Z * list Z * Z * list Z) :=
  if negb (mode ctx =? MUGGLE_BLOCK_CIPHER_MODE_CTR) then
    mret (MUGGLE_ERR_INVALID_PARAM, nonce, stream_block, nonce_offset, output)
  else if negb (nonce_offset <? MUGGLE_DES_BLOCK_SIZE) then
    mret (MUGGLE_ERR_INVALID_PARAM, nonce, stream_block, nonce_offset, output)
  else
    r ← chunk_loop 1 num_bytes
          (ctr_step MUGGLE_DES_BLOCK_SIZE nonce_next nonce_bytes (muggle_des_crypt (sk ctx)))
          (nonce, stream_block, nonce_offset) input output;
    let '((nonce, stream_block, offset), output) := (r : (Z * list Z * Z) * list Z) in
    mret (0, nonce, stream_block, offset, output).

(** ** The block function is a block cipher *)
Lemma crypt_bytes ks (b : list Z) :
  zlen (muggle_des_crypt ks b) = 8 /\ is_bytes (muggle_des_crypt ks b).
Proof.
  unfold muggle_des_crypt, block_bytes. split.
  - rewrite zlen_app. unfold zlen. rewrite !le_bytes_length. done.
  - apply Forall_app. split; apply le_bytes_is_bytes.
Qed.

Lemma des_cipher_rev ks :
  length ks = 16%nat ->
  BlockCipher MUGGLE_DES_BLOCK_SIZE (muggle_des_crypt ks) (muggle_des_crypt (rev ks)).
Proof.
  intros Hk. split; try (intros; apply crypt_bytes). intros b Hl Hb.
  assert (length b = 8%nat) by (unfold zlen, MUGGLE_DES_BLOCK_SIZE in Hl; lia).
  unfold muggle_des_crypt. rewrite block_of_bytes_bytes by apply des_crypt_is_block.
  rewrite des_crypt_rev by auto using block_of_bytes_is_block. by apply block_bytes_of_bytes.
Qed.

(** The subkeys of the two directions are each other's reverse. *)
Lemma gen_subkeys_rev key :
  muggle_openssl_des_gen_subkeys MUGGLE_DECRYPT key =
    rev (muggle_openssl_des_gen_subkeys MUGGLE_ENCRYPT key) /\
  length (muggle_openssl_des_gen_subkeys MUGGLE_ENCRYPT key) = 16%nat.
Proof.
  unfold muggle_openssl_des_gen_subkeys. cbn [Z.eqb MUGGLE_ENCRYPT MUGGLE_DECRYPT].
  pose proof (set_key_length key) as Hl. rewrite swap_subkeys_rev by assumption.
  split; [reflexivity|exact Hl].
Qed.

#[export] Instance des_cipher key :
  BlockCipher MUGGLE_DES_BLOCK_SIZE
    (muggle_des_crypt (muggle_openssl_des_gen_subkeys MUGGLE_ENCRYPT key))
    (muggle_des_crypt (muggle_openssl_des_gen_subkeys MUGGLE_DECRYPT key)).
Proof. destruct (gen_subkeys_rev key) as [-> ?]. by apply des_cipher_rev. Qed.

#[export] Instance des_inverse_cipher key :
  BlockCipher MUGGLE_DES_BLOCK_SIZE
    (muggle_des_crypt (muggle_openssl_des_gen_subkeys MUGGLE_DECRYPT key))
    (muggle_des_crypt (muggle_openssl_des_gen_subkeys MUGGLE_ENCRYPT key)).
Proof.
  destruct (gen_subkeys_rev key) as [-> ?].
  rewrite <- (rev_involutive (muggle_openssl_des_gen_subkeys MUGGLE_ENCRYPT key)) at 2.
  apply des_cipher_rev. by rewrite length_rev.
Qed.

Lemma nonce_next_word x : is_word 64 x -> is_word 64 (nonce_next x).
Proof. intros. by apply is_word_wrap. Qed.

Lemma nonce_bytes_vector x : is_word 64 x -> is_vector MUGGLE_DES_BLOCK_SIZE (nonce_bytes x).
Proof.
  intros _. split; [|apply le_bytes_is_bytes]. unfold zlen, nonce_bytes. by rewrite le_bytes_length.
Qed.

(** The context a successful key setup leaves. *)
Definition des_ctx (o m : Z) (key : list Z) (ctx : muggle_des_context) : muggle_des_context :=
  (muggle_des_set_key o m key ctx).2.

Lemma whole_blocks n : 0 <= n < 2 ^ 32 -> n mod 8 = 0 ->
  (ROUND_UP_POW_OF_2_MUL n MUGGLE_DES_BLOCK_SIZE =? n) = true /\ n / 8 * 8 = n.
Proof.
  intros Hn Hm. split; [|pose proof (Z.div_mod n 8); lia].
  apply Z.eqb_eq. change MUGGLE_DES_BLOCK_SIZE with (2 ^ 3). by apply round_up_multiple.
Qed.

(** In ECB and CBC mode, for whole blocks, decrypting what encryption
    produced, with the same key and vector, gives the plaintext; both calls
    return 0 and leave the same vector. *)
Theorem des_block_modes_roundtrip key iv input n out out2 c0 :
  is_vector MUGGLE_DES_BLOCK_SIZE iv -> is_bytes input -> 0 <= n < 2 ^ 32 -> n mod 8 = 0 ->
  n <= zlen input -> n <= zlen out -> n <= zlen out2 ->
  (exists out',
    muggle_des_ecb (des_ctx MUGGLE_ENCRYPT MUGGLE_BLOCK_CIPHER_MODE_ECB key c0) input n out
      = Done (0, out') /\
    muggle_des_ecb (des_ctx MUGGLE_DECRYPT MUGGLE_BLOCK_CIPHER_MODE_ECB key c0) (seg 0 n out') n out2
      = Done (0, overwrite 0 (seg 0 n input) out2)) /\
  (exists out' iv',
    muggle_des_cbc (des_ctx MUGGLE_ENCRYPT MUGGLE_BLOCK_CIPHER_MODE_CBC key c0) input n iv out
      = Done (0, iv', out') /\
    muggle_des_cbc (des_ctx MUGGLE_DECRYPT MUGGLE_BLOCK_CIPHER_MODE_CBC key c0) (seg 0 n out') n iv out2
      = Done (0, iv', overwrite 0 (seg 0 n input) out2)).
Proof.
  intros Hiv Hin Hn Hm Hi Ho Ho2. destruct (whole_blocks n Hn Hm) as [Hr Hd].
  assert (0 <= n / 8) by (apply Z.div_pos; lia).
  split.
  - destruct (ecb_loop_roundtrip 8 3 eq_refl ltac:(done) _ _ (BlockCipher0 := des_cipher key)
      (n / 8) input out) as (out' & E1 & _ & E2); [lia|lia|lia|done|]. rewrite Hd in E2.
    exists out'. unfold muggle_des_ecb. simpl mode. rewrite Hr. simpl.
    change MUGGLE_DES_BLOCK_SIZE with 8 in *. rewrite E1, E2 by done. done.
  - destruct (cbc_loop_roundtrip 8 3 eq_refl ltac:(done) _ _ (BlockCipher0 := des_cipher key)
      (n / 8) iv input out) as (iv' & out' & E1 & _ & E2); [lia|done|lia|lia|done|]. rewrite Hd in E2.
    exists out', iv'. unfold muggle_des_cbc. simpl mode. rewrite Hr. simpl.
    change MUGGLE_DES_BLOCK_SIZE with 8 in *. rewrite E1, E2 by done. done.
Qed.

(** In CFB, OFB and CTR mode, for any number of bytes and any position in
    the vector, decrypting what encryption produced from the same state gives
    the plaintext, and both calls leave the same state. *)
Theorem des_stream_modes_roundtrip key iv off nonce input n out out2 c0 :
  is_vector MUGGLE_DES_BLOCK_SIZE iv -> 0 <= off < 8 -> is_word 64 nonce ->
  is_bytes input -> 0 <= n <= zlen input -> n <= zlen out -> n <= zlen out2 ->
  (exists out' iv' off',
    muggle_des_cfb64 (des_ctx MUGGLE_ENCRYPT MUGGLE_BLOCK_CIPHER_MODE_CFB key c0) input n iv off out
      = Done (0, iv', off', out') /\
    muggle_des_cfb64 (des_ctx MUGGLE_DECRYPT MUGGLE_BLOCK_CIPHER_MODE_CFB key c0) (seg 0 n out') n iv off out2
      = Done (0, iv', off', overwrite 0 (seg 0 n input) out2)) /\
  (exists out' iv' off',
    muggle_des_ofb64 (des_ctx MUGGLE_ENCRYPT MUGGLE_BLOCK_CIPHER_MODE_OFB key c0) input n iv off out
      = Done (0, iv', off', out') /\
    muggle_des_ofb64 (des_ctx MUGGLE_DECRYPT MUGGLE_BLOCK_CIPHER_MODE_OFB key c0) (seg 0 n out') n iv off out2
      = Done (0, iv', off', overwrite 0 (seg 0 n input) out2)) /\
  (exists out' nonce' sb' off',
    muggle_des_ctr (des_ctx MUGGLE_ENCRYPT MUGGLE_BLOCK_CIPHER_MODE_CTR key c0) input n nonce off iv out
      = Done (0, nonce', sb', off', out') /\
    muggle_des_ctr (des_ctx MUGGLE_DECRYPT MUGGLE_BLOCK_CIPHER_MODE_CTR key c0) (seg 0 n out') n nonce off iv out2
      = Done (0, nonce', sb', off', overwrite 0 (seg 0 n input) out2)).
Proof.
  intros Hiv Hoff Hnon Hin Hn Ho Ho2. pose proof (des_cipher key) as Hc.
  assert ((off <? MUGGLE_DES_BLOCK_SIZE) = true) as Hlt by (apply Z.ltb_lt; unfold MUGGLE_DES_BLOCK_SIZE; lia).
  split; [|split].
  - destruct (cfb_loop_roundtrip 8 3 eq_refl ltac:(done) _ _ (BlockCipher0 := Hc)
      n (iv, off) input out) as ([iv' off'] & out' & E1 & _ & E2); [lia|done|lia|lia|done|].
    exists out', iv', off'. unfold muggle_des_cfb64. simpl mode. rewrite Hlt. simpl.
    change MUGGLE_DES_BLOCK_SIZE with 8 in *. rewrite E1, E2 by done. done.
  - destruct (ofb_loop_roundtrip 8 3 eq_refl ltac:(done) _ _ (BlockCipher0 := Hc)
      n (iv, off) input out) as ([iv' off'] & out' & E1 & _ & E2); [lia|done|lia|lia|done|].
    exists out', iv', off'. unfold muggle_des_ofb64. simpl mode. rewrite Hlt. simpl.
    change MUGGLE_DES_BLOCK_SIZE with 8 in *. rewrite E1, E2 by done. done.
  - destruct (ctr_loop_roundtrip 8 3 eq_refl ltac:(done) _ _ (BlockCipher0 := Hc)
      nonce_next nonce_bytes (is_word 64) nonce_next_word nonce_bytes_vector
      n (nonce, iv, off) input out) as ([[nonce' sb'] off'] & out' & E1 & _ & E2); [lia|done|lia|lia|done|].
    exists out', nonce', sb', off'. unfold muggle_des_ctr. simpl mode. rewrite Hlt. simpl.
    change MUGGLE_DES_BLOCK_SIZE with 8 in *. rewrite E1, E2 by done. done.
Qed.

(** ** Witnesses *)
Definition sample_ctx : muggle_des_context := mkctx 0 0 [].
Definition sample_iv : list Z := [8; 7; 6; 5; 4; 3; 2; 1].
Definition sample_in : list Z := [1; 2; 3; 4; 5; 6; 7; 8; 9; 10; 11; 12; 13; 14; 15; 16].

Lemma sample_iv_vector : is_vector MUGGLE_DES_BLOCK_SIZE sample_iv.
Proof. split; [done|]. by repeat constructor. Qed.

Lemma sample_in_bytes : is_bytes sample_in.
Proof. by repeat constructor. Qed.

Lemma des_block_modes_roundtrip_witness :
  (exists out',
    muggle_des_ecb (des_ctx 1 0 sample_iv sample_ctx) sample_in 16 sample_in = Done (0, out') /\
    muggle_des_ecb (des_ctx 0 0 sample_iv sample_ctx) (seg 0 16 out') 16 sample_in
      = Done (0, overwrite 0 (seg 0 16 sample_in) sample_in)) /\
  (exists out' iv',
    muggle_des_cbc (des_ctx 1 1 sample_iv sample_ctx) sample_in 16 sample_iv sample_in
      = Done (0, iv', out') /\
    muggle_des_cbc (des_ctx 0 1 sample_iv sample_ctx) (seg 0 16 out') 16 sample_iv sample_in
      = Done (0, iv', overwrite 0 (seg 0 16 sample_in) sample_in)).
Proof.
  apply (des_block_modes_roundtrip sample_iv sample_iv sample_in 16 sample_in sample_in sample_ctx);
    try done; [apply sample_iv_vector|apply sample_in_bytes].
Defined.

Lemma des_stream_modes_roundtrip_witness :
  (exists out' iv' off',
    muggle_des_cfb64 (des_ctx 1 2 sample_iv sample_ctx) sample_in 11 sample_iv 5 sample_in
      = Done (0, iv', off', out') /\
    muggle_des_cfb64 (des_ctx 0 2 sample_iv sample_ctx) (seg 0 11 out') 11 sample_iv 5 sample_in
      = Done (0, iv', off', overwrite 0 (seg 0 11 sample_in) sample_in)) /\
  (exists out' iv' off',
    muggle_des_ofb64 (des_ctx 1 3 sample_iv sample_ctx) sample_in 11 sample_iv 5 sample_in
      = Done (0, iv', off', out') /\
    muggle_des_ofb64 (des_ctx 0 3 sample_iv sample_ctx) (seg 0 11 out') 11 sample_iv 5 sample_in
      = Done (0, iv', off', overwrite 0 (seg 0 11 sample_in) sample_in)) /\
  (exists out' nonce' sb' off',
    muggle_des_ctr (des_ctx 1 4 sample_iv sample_ctx) sample_in 11 42 5 sample_iv sample_in
      = Done (0, nonce', sb', off', out') /\
    muggle_des_ctr (des_ctx 0 4 sample_iv sample_ctx) (seg 0 11 out') 11 42 5 sample_iv sample_in
      = Done (0, nonce', sb', off', overwrite 0 (seg 0 11 sample_in) sample_in)).
Proof.
  apply (des_stream_modes_roundtrip sample_iv sample_iv 5 42 sample_in 11 sample_in sample_in sample_ctx);
    try done; [apply sample_iv_vector|apply sample_in_bytes].
Defined.

End Des.
