(* ===== verification/Tdes.v ===== *)
(** muggle/c/crypt/tdes.{h,c}: triple DES, with its key setup and the five block
    modes, over the block function of [OpensslDes] that the library is built
    with. *)

From stdpp Require Import base list numbers.
From Stdlib Require Import ZArith Lia.
From S2P Require Import Prelude BaseUtils Bits CryptUtils OpensslDes BlockModes Des.
Import CryptUtils OpensslDes BlockModes Des.

Open Scope Z_scope.

Module Tdes.

Record muggle_tdes_context := mktctx {
  op : Z;
  mode : Z;
  ctx1 : muggle_des_context;
  ctx2 : muggle_des_context;
  ctx3 : muggle_des_context
}.

Definition muggle_tdes_crypt (ks1 ks2 ks3 : list muggle_des_subkey) (input : list Z) : list Z :=
  block_bytes (muggle_openssl_tdes_crypt (block_of_bytes input) ks1 ks2 ks3).

(** The block function of a context: [ks1], [ks2] and [ks3] are its subkeys. *)
Definition ctx_crypt (ctx : muggle_tdes_context) : list Z -> list Z :=
  muggle_tdes_crypt (sk (ctx1 ctx)) (sk (ctx2 ctx)) (sk (ctx3 ctx)).

(** Three calls of the DES key setup, stopping at the first that fails. *)
Definition set_keys (o1 : Z) (k1 : list Z) (o2 : Z) (k2 : list Z) (o3 : Z) (k3 : list Z)
    (ctx : muggle_tdes_context) : Z * muggle_tdes_context :=
  let m := MUGGLE_BLOCK_CIPHER_MODE_ECB in
  let '(ret, c1) := muggle_des_set_key o1 m k1 (ctx1 ctx) in
  let ctx := mktctx (op ctx) (mode ctx) c1 (ctx2 ctx) (ctx3 ctx) in
  if negb (ret =? 0) then (ret, ctx) else
  let '(ret, c2) := muggle_des_set_key o2 m k2 (ctx2 ctx) in
  let ctx := mktctx (op ctx) (mode ctx) c1 c2 (ctx3 ctx) in
  if negb (ret =? 0) then (ret, ctx) else
  let '(ret, c3) := muggle_des_set_key o3 m k3 (ctx3 ctx) in
  (ret, mktctx (op ctx) (mode ctx) c1 c2 c3).

Definition muggle_tdes_set_key (o m : Z) (key1 key2 key3 : list Z) (ctx : muggle_tdes_context)
  : Z * muggle_tdes_context :=
  if negb ((o =? MUGGLE_ENCRYPT) || (o =? MUGGLE_DECRYPT)) then (MUGGLE_ERR_INVALID_PARAM, ctx)
  else
    let inv_op := if o =? MUGGLE_ENCRYPT then MUGGLE_DECRYPT else MUGGLE_ENCRYPT in
    let ctx := mktctx o m (ctx1 ctx) (ctx2 ctx) (ctx3 ctx) in
    if (m =? MUGGLE_BLOCK_CIPHER_MODE_ECB) || (m =? MUGGLE_BLOCK_CIPHER_MODE_CBC) then
      if o =? MUGGLE_ENCRYPT then set_keys o key1 inv_op key2 o key3 ctx
      else set_keys o key3 inv_op key2 o key1 ctx
    else if (m =? MUGGLE_BLOCK_CIPHER_MODE_CFB) || (m =? MUGGLE_BLOCK_CIPHER_MODE_OFB)
            || (m =? MUGGLE_BLOCK_CIPHER_MODE_CTR) then
      set_keys MUGGLE_ENCRYPT key1 MUGGLE_DECRYPT key2 MUGGLE_ENCRYPT key3 ctx
    else (MUGGLE_ERR_INVALID_PARAM, ctx).

Definition muggle_tdes_ecb (ctx : muggle_tdes_context) (input : list Z) (num_bytes : Z)
    (output : list Z) : outcome (Z * list Z) :=
  if negb (mode ctx =? MUGGLE_BLOCK_CIPHER_MODE_ECB) then mret (MUGGLE_ERR_INVALID_PARAM, output)
  else if negb (ROUND_UP_POW_OF_2_MUL num_bytes MUGGLE_DES_BLOCK_SIZE =? num_bytes) then
    mret (MUGGLE_ERR_INVALID_PARAM, output)
  else
    let len := num_bytes / MUGGLE_DES_BLOCK_SIZE in
    r ← chunk_loop MUGGLE_DES_BLOCK_SIZE len (ecb_step (ctx_crypt ctx)) tt input output;
    mret (0, snd (r : unit * list Z)).

(** The vector is the caller's, updated at the end. *)
Definition muggle_tdes_cbc (ctx : muggle_tdes_context) (input : list Z) (num_bytes : Z)
    (iv_bytes output : list Z) : outcome (Z * list Z * list Z) :=
  if negb (mode ctx =? MUGGLE_BLOCK_CIPHER_MODE_CBC) then
    mret (MUGGLE_ERR_INVALID_PARAM, iv_bytes, output)
  else if negb (ROUND_UP_POW_OF_2_MUL num_bytes MUGGLE_DES_BLOCK_SIZE =? num_bytes) then
    mret (MUGGLE_ERR_INVALID_PARAM, iv_bytes, output)
  else if negb ((op ctx =? MUGGLE_ENCRYPT) || (op ctx =? MUGGLE_DECRYPT)) then
    mret (MUGGLE_ERR_INVALID_PARAM, iv_bytes, output)
  else
    let len := num_bytes / MUGGLE_DES_BLOCK_SIZE in
    r ← chunk_loop MUGGLE_DES_BLOCK_SIZE len (cbc_step (op ctx) (ctx_crypt ctx))
          iv_bytes input output;
    let '(iv, output) := (r : list Z * list Z) in
    mret (0, iv, output).

(** Results: the return value, the vector, its offset and the output. *)
Definition muggle_tdes_cfb64 (ctx : muggle_tdes_context) (input : list Z) (num_bytes : Z)
    (iv : list Z) (iv_offset : Z) (output : list Z) : outcome (Z * list Z * Z * list Z) :=
  if negb (mode ctx =? MUGGLE_BLOCK_CIPHER_MODE_CFB) then
    mret (MUGGLE_ERR_INVALID_PARAM, iv, iv_offset, output)
  else if negb (iv_offset <? MUGGLE_DES_BLOCK_SIZE) then
    mret (MUGGLE_ERR_INVALID_PARAM, iv, iv_offset, output)
  else if negb ((op ctx =? MUGGLE_ENCRYPT) || (op ctx =? MUGGLE_DECRYPT)) then
    mret (MUGGLE_ERR_INVALID_PARAM, iv, iv_offset, output)
  else
    r ← chunk_loop 1 num_bytes
          (cfb_step MUGGLE_DES_BLOCK_SIZE (op ctx) (ctx_crypt ctx))
          (iv, iv_offset) input output;
    let '((iv, offset), output) := (r : (list Z * Z) * list Z) in
    mret (0, iv, offset, output).

Definition muggle_tdes_ofb64 (ctx : muggle_tdes_context) (input : list Z) (num_bytes : Z)
    (iv : list Z) (iv_offset : Z) (output : list Z) : outcome (Z * list Z * Z * list Z) :=
  if negb (mode ctx =? MUGGLE_BLOCK_CIPHER_MODE_OFB) then
    mret (MUGGLE_ERR_INVALID_PARAM, iv, iv_offset, output)
  else if negb (iv_offset <? MUGGLE_DES_BLOCK_SIZE) then
    mret (MUGGLE_ERR_INVALID_PARAM, iv, iv_offset, output)
  else
    r ← chunk_loop 1 num_bytes (ofb_step MUGGLE_DES_BLOCK_SIZE (ctx_crypt ctx))
          (iv, iv_offset) input output;
    let '((iv, offset), output) := (r : (list Z * Z) * list Z) in
    mret (0, iv, offset, output).

(** Results: the return value, nonce, stream block, offset and output. *)
Definition muggle_tdes_ctr (ctx : muggle_tdes_context) (input : list Z) (num_bytes : Z)
    (nonce nonce_offset : Z) (stream_block output : list Z)
  : outcome (Z * Z * list Z * Z * list Z) :=
  if negb (mode ctx =? MUGGLE_BLOCK_CIPHER_MODE_CTR) then
    mret (MUGGLE_ERR_INVALID_PARAM, nonce, stream_block, nonce_offset, output)
  else if negb (nonce_offset <? MUGGLE_DES_BLOCK_SIZE) then
    mret (MUGGLE_ERR_INVALID_PARAM, nonce, stream_block, nonce_offset, output)
  else
    r ← chunk_loop 1 num_bytes
          (ctr_step MUGGLE_DES_BLOCK_SIZE nonce_next nonce_bytes (ctx_crypt ctx))
          (nonce, stream_block, nonce_offset) input output;
    let '((nonce, stream_block, offset), output) := (r : (Z * list Z * Z) * list Z) in
    mret (0, nonce, stream_block, offset, output).

(** ** The block function is a block cipher *)

(** Triple DES on bytes is three DES on bytes. *)
Lemma tdes_crypt_compose ks1 ks2 ks3 (b : list Z) :
  muggle_tdes_crypt ks1 ks2 ks3 b =
  muggle_des_crypt ks3 (muggle_des_crypt ks2 (muggle_des_crypt ks1 b)).
Proof.
  unfold muggle_tdes_crypt, muggle_des_crypt. rewrite tdes_crypt_des.
  by rewrite !block_of_bytes_bytes by apply des_crypt_is_block.
Qed.

(** The composition of block ciphers is one. *)
Lemma cipher_compose bs e1 d1 e2 d2 :
  BlockCipher bs e1 d1 -> BlockCipher bs e2 d2 ->
  BlockCipher bs (fun b => e2 (e1 b)) (fun b => d1 (d2 b)).
Proof.
  intros H1 H2. split.
  - intros b ? ?. destruct (bc_enc (BlockCipher := H1) b) as [? ?]; [done..|]. by apply H2.
  - intros b ? ?. destruct (bc_dec (BlockCipher := H2) b) as [? ?]; [done..|]. by apply H1.
  - intros b ? ?. destruct (bc_enc (BlockCipher := H1) b) as [? ?]; [done..|].
    rewrite (bc_dec_enc (BlockCipher := H2)) by done. by apply (bc_dec_enc (BlockCipher := H1)).
Qed.

Lemma cipher_ext bs e d e' d' :
  (forall b, e b = e' b) -> (forall b, d b = d' b) -> BlockCipher bs e d -> BlockCipher bs e' d'.
Proof. intros He Hd []. split; intros b ??; rewrite <- ?He, <- ?Hd; auto. Qed.

(** The block function of encryption and decryption with the same three keys. *)
Definition tdes_enc (k1 k2 k3 : list Z) : list Z -> list Z :=
  muggle_tdes_crypt (muggle_openssl_des_gen_subkeys MUGGLE_ENCRYPT k1)
    (muggle_openssl_des_gen_subkeys MUGGLE_DECRYPT k2) (muggle_openssl_des_gen_subkeys MUGGLE_ENCRYPT k3).
Definition tdes_dec (k1 k2 k3 : list Z) : list Z -> list Z :=
  muggle_tdes_crypt (muggle_openssl_des_gen_subkeys MUGGLE_DECRYPT k3)
    (muggle_openssl_des_gen_subkeys MUGGLE_ENCRYPT k2) (muggle_openssl_des_gen_subkeys MUGGLE_DECRYPT k1).

#[export] Instance tdes_cipher k1 k2 k3 :
  BlockCipher MUGGLE_DES_BLOCK_SIZE (tdes_enc k1 k2 k3) (tdes_dec k1 k2 k3).
Proof.
  eapply cipher_ext; [intros b; symmetry; apply tdes_crypt_compose..|].
  apply (cipher_compose 8 _ _ _ _ (cipher_compose 8 _ _ _ _ (des_cipher k1) (des_inverse_cipher k2))
    (des_cipher k3)).
Qed.

(** The context a successful key setup leaves, and its block function. *)
Definition tdes_ctx (o m : Z) (k1 k2 k3 : list Z) (ctx : muggle_tdes_context) : muggle_tdes_context :=
  (muggle_tdes_set_key o m k1 k2 k3 ctx).2.

(** In ECB and CBC mode, for whole blocks, decrypting what encryption
    produced, with the same keys and vector, gives the plaintext. *)
Theorem tdes_block_modes_roundtrip k1 k2 k3 iv input n out out2 c0 :
  is_vector MUGGLE_DES_BLOCK_SIZE iv -> is_bytes input -> 0 <= n < 2 ^ 32 -> n mod 8 = 0 ->
  n <= zlen input -> n <= zlen out -> n <= zlen out2 ->
  (exists out',
    muggle_tdes_ecb (tdes_ctx MUGGLE_ENCRYPT MUGGLE_BLOCK_CIPHER_MODE_ECB k1 k2 k3 c0) input n out
      = Done (0, out') /\
    muggle_tdes_ecb (tdes_ctx MUGGLE_DECRYPT MUGGLE_BLOCK_CIPHER_MODE_ECB k1 k2 k3 c0) (seg 0 n out') n out2
      = Done (0, overwrite 0 (seg 0 n input) out2)) /\
  (exists out' iv',
    muggle_tdes_cbc (tdes_ctx MUGGLE_ENCRYPT MUGGLE_BLOCK_CIPHER_MODE_CBC k1 k2 k3 c0) input n iv out
      = Done (0, iv', out') /\
    muggle_tdes_cbc (tdes_ctx MUGGLE_DECRYPT MUGGLE_BLOCK_CIPHER_MODE_CBC k1 k2 k3 c0) (seg 0 n out') n iv out2
      = Done (0, iv', overwrite 0 (seg 0 n input) out2)).
Proof.
  intros Hiv Hin Hn Hm Hi Ho Ho2. destruct (whole_blocks n Hn Hm) as [Hr Hd].
  assert (0 <= n / 8) by (apply Z.div_pos; lia). split.
  - destruct (ecb_loop_roundtrip 8 3 eq_refl ltac:(done) _ _ (BlockCipher0 := tdes_cipher k1 k2 k3)
      (n / 8) input out) as (out' & E1 & _ & E2); [lia|lia|lia|done|]. rewrite Hd in E2.
    exists out'. unfold muggle_tdes_ecb. simpl mode. rewrite Hr. simpl.
    change MUGGLE_DES_BLOCK_SIZE with 8 in *. unfold tdes_enc, tdes_dec in *.
    unfold ctx_crypt. simpl. rewrite E1, E2 by done. done.
  - destruct (cbc_loop_roundtrip 8 3 eq_refl ltac:(done) _ _ (BlockCipher0 := tdes_cipher k1 k2 k3)
      (n / 8) iv input out) as (iv' & out' & E1 & _ & E2); [lia|done|lia|lia|done|]. rewrite Hd in E2.
    exists out', iv'. unfold muggle_tdes_cbc. simpl mode. rewrite Hr. simpl.
    change MUGGLE_DES_BLOCK_SIZE with 8 in *. unfold tdes_enc, tdes_dec in *.
    unfold ctx_crypt. simpl. rewrite E1, E2 by done. done.
Qed.

(** In CFB, OFB and CTR mode, for any number of bytes and any position in
    the vector, decrypting what encryption produced from the same state gives
    the plaintext. *)
Theorem tdes_stream_modes_roundtrip k1 k2 k3 iv off nonce input n out out2 c0 :
  is_vector MUGGLE_DES_BLOCK_SIZE iv -> 0 <= off < 8 -> is_word 64 nonce ->
  is_bytes input -> 0 <= n <= zlen input -> n <= zlen out -> n <= zlen out2 ->
  (exists out' iv' off',
    muggle_tdes_cfb64 (tdes_ctx MUGGLE_ENCRYPT MUGGLE_BLOCK_CIPHER_MODE_CFB k1 k2 k3 c0) input n iv off out
      = Done (0, iv', off', out') /\
    muggle_tdes_cfb64 (tdes_ctx MUGGLE_DECRYPT MUGGLE_BLOCK_CIPHER_MODE_CFB k1 k2 k3 c0) (seg 0 n out') n iv off out2
      = Done (0, iv', off', overwrite 0 (seg 0 n input) out2)) /\
  (exists out' iv' off',
    muggle_tdes_ofb64 (tdes_ctx MUGGLE_ENCRYPT MUGGLE_BLOCK_CIPHER_MODE_OFB k1 k2 k3 c0) input n iv off out
      = Done (0, iv', off', out') /\
    muggle_tdes_ofb64 (tdes_ctx MUGGLE_DECRYPT MUGGLE_BLOCK_CIPHER_MODE_OFB k1 k2 k3 c0) (seg 0 n out') n iv off out2
      = Done (0, iv', off', overwrite 0 (seg 0 n input) out2)) /\
  (exists out' nonce' sb' off',
    muggle_tdes_ctr (tdes_ctx MUGGLE_ENCRYPT MUGGLE_BLOCK_CIPHER_MODE_CTR k1 k2 k3 c0) input n nonce off iv out
      = Done (0, nonce', sb', off', out') /\
    muggle_tdes_ctr (tdes_ctx MUGGLE_DECRYPT MUGGLE_BLOCK_CIPHER_MODE_CTR k1 k2 k3 c0) (seg 0 n out') n nonce off iv out2
      = Done (0, nonce', sb', off', overwrite 0 (seg 0 n input) out2)).
Proof.
  intros Hiv Hoff Hnon Hin Hn Ho Ho2. pose proof (tdes_cipher k1 k2 k3) as Hc.
  assert ((off <? MUGGLE_DES_BLOCK_SIZE) = true) as Hlt by (apply Z.ltb_lt; unfold MUGGLE_DES_BLOCK_SIZE; lia).
  split; [|split].
  - destruct (cfb_loop_roundtrip 8 3 eq_refl ltac:(done) _ _ (BlockCipher0 := Hc)
      n (iv, off) input out) as ([iv' off'] & out' & E1 & _ & E2); [lia|done|lia|lia|done|].
    exists out', iv', off'. unfold muggle_tdes_cfb64. simpl mode. rewrite Hlt. simpl.
    change MUGGLE_DES_BLOCK_SIZE with 8 in *. unfold tdes_enc in *.
    unfold ctx_crypt. simpl. rewrite E1, E2 by done. done.
  - destruct (ofb_loop_roundtrip 8 3 eq_refl ltac:(done) _ _ (BlockCipher0 := Hc)
      n (iv, off) input out) as ([iv' off'] & out' & E1 & _ & E2); [lia|done|lia|lia|done|].
    exists out', iv', off'. unfold muggle_tdes_ofb64. simpl mode. rewrite Hlt. simpl.
    change MUGGLE_DES_BLOCK_SIZE with 8 in *. unfold tdes_enc in *.
    unfold ctx_crypt. simpl. rewrite E1, E2 by done. done.
  - destruct (ctr_loop_roundtrip 8 3 eq_refl ltac:(done) _ _ (BlockCipher0 := Hc)
      nonce_next nonce_bytes (is_word 64) nonce_next_word nonce_bytes_vector
      n (nonce, iv, off) input out) as ([[nonce' sb'] off'] & out' & E1 & _ & E2); [lia|done|lia|lia|done|].
    exists out', nonce', sb', off'. unfold muggle_tdes_ctr. simpl mode. rewrite Hlt. simpl.
    change MUGGLE_DES_BLOCK_SIZE with 8 in *. unfold tdes_enc in *.
    unfold ctx_crypt. simpl. rewrite E1, E2 by done. done.
Qed.

(** ** Witnesses *)
Definition tsample_ctx : muggle_tdes_context := mktctx 0 0 sample_ctx sample_ctx sample_ctx.

Lemma tdes_block_modes_roundtrip_witness :
  exists out',
    muggle_tdes_ecb (tdes_ctx 1 0 sample_iv sample_iv sample_iv tsample_ctx) sample_in 16 sample_in
      = Done (0, out') /\
    muggle_tdes_ecb (tdes_ctx 0 0 sample_iv sample_iv sample_iv tsample_ctx) (seg 0 16 out') 16 sample_in
      = Done (0, overwrite 0 (seg 0 16 sample_in) sample_in).
Proof.
  apply (tdes_block_modes_roundtrip sample_iv sample_iv sample_iv sample_iv sample_in 16 sample_in
    sample_in tsample_ctx); try done; [apply sample_iv_vector|apply sample_in_bytes].
Defined.

Lemma tdes_stream_modes_roundtrip_witness :
  exists out' iv' off',
    muggle_tdes_cfb64 (tdes_ctx 1 2 sample_iv sample_iv sample_iv tsample_ctx) sample_in 11 sample_iv 5 sample_in
      = Done (0, iv', off', out') /\
    muggle_tdes_cfb64 (tdes_ctx 0 2 sample_iv sample_iv sample_iv tsample_ctx) (seg 0 11 out') 11 sample_iv 5 sample_in
      = Done (0, iv', off', overwrite 0 (seg 0 11 sample_in) sample_in).
Proof.
  apply (tdes_stream_modes_roundtrip sample_iv sample_iv sample_iv sample_iv 5 42 sample_in 11 sample_in
    sample_in tsample_ctx); try done; [apply sample_iv_vector|apply sample_in_bytes].
Defined.

End Tdes.
