(* ===== verification/InternalAes.v ===== *)
(** muggle/c/crypt/internal/internal_aes.c: AES in the terms of FIPS 197, the
    reference implementation of the library.  The four round functions and
    their inverses are shown to undo each other, and with them the decryption
    of a block its encryption, for the three key sizes and every key schedule. *)

From Stdlib Require Import ZArith Lia Btauto.
From stdpp Require Import base list numbers.
From S2P Require Import Prelude BaseUtils Bits CryptUtils.

Open Scope Z_scope.

Module InternalAes.

Definition s_muggle_aes_sbox : list Z :=
  [0x63; 0x7c; 0x77; 0x7b; 0xf2; 0x6b; 0x6f; 0xc5; 0x30; 0x01; 0x67; 0x2b; 0xfe; 0xd7; 0xab; 0x76;
   0xca; 0x82; 0xc9; 0x7d; 0xfa; 0x59; 0x47; 0xf0; 0xad; 0xd4; 0xa2; 0xaf; 0x9c; 0xa4; 0x72; 0xc0;
   0xb7; 0xfd; 0x93; 0x26; 0x36; 0x3f; 0xf7; 0xcc; 0x34; 0xa5; 0xe5; 0xf1; 0x71; 0xd8; 0x31; 0x15;
   0x04; 0xc7; 0x23; 0xc3; 0x18; 0x96; 0x05; 0x9a; 0x07; 0x12; 0x80; 0xe2; 0xeb; 0x27; 0xb2; 0x75;
   0x09; 0x83; 0x2c; 0x1a; 0x1b; 0x6e; 0x5a; 0xa0; 0x52; 0x3b; 0xd6; 0xb3; 0x29; 0xe3; 0x2f; 0x84;
   0x53; 0xd1; 0x00; 0xed; 0x20; 0xfc; 0xb1; 0x5b; 0x6a; 0xcb; 0xbe; 0x39; 0x4a; 0x4c; 0x58; 0xcf;
   0xd0; 0xef; 0xaa; 0xfb; 0x43; 0x4d; 0x33; 0x85; 0x45; 0xf9; 0x02; 0x7f; 0x50; 0x3c; 0x9f; 0xa8;
   0x51; 0xa3; 0x40; 0x8f; 0x92; 0x9d; 0x38; 0xf5; 0xbc; 0xb6; 0xda; 0x21; 0x10; 0xff; 0xf3; 0xd2;
   0xcd; 0x0c; 0x13; 0xec; 0x5f; 0x97; 0x44; 0x17; 0xc4; 0xa7; 0x7e; 0x3d; 0x64; 0x5d; 0x19; 0x73;
   0x60; 0x81; 0x4f; 0xdc; 0x22; 0x2a; 0x90; 0x88; 0x46; 0xee; 0xb8; 0x14; 0xde; 0x5e; 0x0b; 0xdb;
   0xe0; 0x32; 0x3a; 0x0a; 0x49; 0x06; 0x24; 0x5c; 0xc2; 0xd3; 0xac; 0x62; 0x91; 0x95; 0xe4; 0x79;
   0xe7; 0xc8; 0x37; 0x6d; 0x8d; 0xd5; 0x4e; 0xa9; 0x6c; 0x56; 0xf4; 0xea; 0x65; 0x7a; 0xae; 0x08;
   0xba; 0x78; 0x25; 0x2e; 0x1c; 0xa6; 0xb4; 0xc6; 0xe8; 0xdd; 0x74; 0x1f; 0x4b; 0xbd; 0x8b; 0x8a;
   0x70; 0x3e; 0xb5; 0x66; 0x48; 0x03; 0xf6; 0x0e; 0x61; 0x35; 0x57; 0xb9; 0x86; 0xc1; 0x1d; 0x9e;
   0xe1; 0xf8; 0x98; 0x11; 0x69; 0xd9; 0x8e; 0x94; 0x9b; 0x1e; 0x87; 0xe9; 0xce; 0x55; 0x28; 0xdf;
   0x8c; 0xa1; 0x89; 0x0d; 0xbf; 0xe6; 0x42; 0x68; 0x41; 0x99; 0x2d; 0x0f; 0xb0; 0x54; 0xbb; 0x16].

Definition s_muggle_aes_inv_sbox : list Z :=
  [0x52; 0x09; 0x6a; 0xd5; 0x30; 0x36; 0xa5; 0x38; 0xbf; 0x40; 0xa3; 0x9e; 0x81; 0xf3; 0xd7; 0xfb;
   0x7c; 0xe3; 0x39; 0x82; 0x9b; 0x2f; 0xff; 0x87; 0x34; 0x8e; 0x43; 0x44; 0xc4; 0xde; 0xe9; 0xcb;
   0x54; 0x7b; 0x94; 0x32; 0xa6; 0xc2; 0x23; 0x3d; 0xee; 0x4c; 0x95; 0x0b; 0x42; 0xfa; 0xc3; 0x4e;
   0x08; 0x2e; 0xa1; 0x66; 0x28; 0xd9; 0x24; 0xb2; 0x76; 0x5b; 0xa2; 0x49; 0x6d; 0x8b; 0xd1; 0x25;
   0x72; 0xf8; 0xf6; 0x64; 0x86; 0x68; 0x98; 0x16; 0xd4; 0xa4; 0x5c; 0xcc; 0x5d; 0x65; 0xb6; 0x92;
   0x6c; 0x70; 0x48; 0x50; 0xfd; 0xed; 0xb9; 0xda; 0x5e; 0x15; 0x46; 0x57; 0xa7; 0x8d; 0x9d; 0x84;
   0x90; 0xd8; 0xab; 0x00; 0x8c; 0xbc; 0xd3; 0x0a; 0xf7; 0xe4; 0x58; 0x05; 0xb8; 0xb3; 0x45; 0x06;
   0xd0; 0x2c; 0x1e; 0x8f; 0xca; 0x3f; 0x0f; 0x02; 0xc1; 0xaf; 0xbd; 0x03; 0x01; 0x13; 0x8a; 0x6b;
   0x3a; 0x91; 0x11; 0x41; 0x4f; 0x67; 0xdc; 0xea; 0x97; 0xf2; 0xcf; 0xce; 0xf0; 0xb4; 0xe6; 0x73;
   0x96; 0xac; 0x74; 0x22; 0xe7; 0xad; 0x35; 0x85; 0xe2; 0xf9; 0x37; 0xe8; 0x1c; 0x75; 0xdf; 0x6e;
   0x47; 0xf1; 0x1a; 0x71; 0x1d; 0x29; 0xc5; 0x89; 0x6f; 0xb7; 0x62; 0x0e; 0xaa; 0x18; 0xbe; 0x1b;
   0xfc; 0x56; 0x3e; 0x4b; 0xc6; 0xd2; 0x79; 0x20; 0x9a; 0xdb; 0xc0; 0xfe; 0x78; 0xcd; 0x5a; 0xf4;
   0x1f; 0xdd; 0xa8; 0x33; 0x88; 0x07; 0xc7; 0x31; 0xb1; 0x12; 0x10; 0x59; 0x27; 0x80; 0xec; 0x5f;
   0x60; 0x51; 0x7f; 0xa9; 0x19; 0xb5; 0x4a; 0x0d; 0x2d; 0xe5; 0x7a; 0x9f; 0x93; 0xc9; 0x9c; 0xef;
   0xa0; 0xe0; 0x3b; 0x4d; 0xae; 0x2a; 0xf5; 0xb0; 0xc8; 0xeb; 0xbb; 0x3c; 0x83; 0x53; 0x99; 0x61;
   0x17; 0x2b; 0x04; 0x7e; 0xba; 0x77; 0xd6; 0x26; 0xe1; 0x69; 0x14; 0x63; 0x55; 0x21; 0x0c; 0x7d].

Definition s_muggle_aes_mix_column : list Z :=
  [0x02; 0x03; 0x01; 0x01;
   0x01; 0x02; 0x03; 0x01;
   0x01; 0x01; 0x02; 0x03;
   0x03; 0x01; 0x01; 0x02].

Definition s_muggle_aes_inv_mix_column : list Z :=
  [0x0e; 0x0b; 0x0d; 0x09;
   0x09; 0x0e; 0x0b; 0x0d;
   0x0d; 0x09; 0x0e; 0x0b;
   0x0b; 0x0d; 0x09; 0x0e].

Definition s_aes_rcon : list Z :=
  [0x01000000; 0x02000000; 0x04000000; 0x08000000;
   0x10000000; 0x20000000; 0x40000000; 0x80000000;
   0x1b000000; 0x36000000; 0x6c000000; 0xd8000000;
   0xab000000; 0x4d000000; 0x9a000000].

Record muggle_aes_sub_keys := mksk { rd_key : list Z; rounds : Z }.

(** The loop runs while [a] is not zero; [a] loses a bit in every iteration, so
    eight iterations are enough for an [unsigned char]. *)
Fixpoint galois_loop (fuel : nat) (a b r : Z) : Z :=
  match fuel with
  | O => r
  | S fuel =>
      if a =? 0 then r
      else
        let r := if negb (Z.land a 0x01 =? 0) then Z.lxor r b else r in
        let t := Z.land b 0x80 in
        let b := u8 (Z.shiftl b 1) in
        let b := if negb (t =? 0) then Z.lxor b 0x1b else b in
        let a := Z.shiftr a 1 in
        galois_loop fuel a b r
  end.

Definition galois_mul (a b : Z) : Z := galois_loop 8 a b 0.

(** The state is the array of 16 bytes, row by row; [rd_key] are the four words
    of the round. *)
Definition muggle_aes_add_round_key (state rd_key : list Z) : list Z :=
  match state, rd_key with
  | [s0; s1; s2; s3; s4; s5; s6; s7; s8; s9; s10; s11; s12; s13; s14; s15], [k0; k1; k2; k3] =>
      let x s k sh := Z.lxor s (Z.land (Z.shiftr k sh) 0xff) in
      [x s0 k0 24; x s1 k1 24; x s2 k2 24; x s3 k3 24;
       x s4 k0 16; x s5 k1 16; x s6 k2 16; x s7 k3 16;
       x s8 k0 8; x s9 k1 8; x s10 k2 8; x s11 k3 8;
       x s12 k0 0; x s13 k1 0; x s14 k2 0; x s15 k3 0]
  | _, _ => state
  end.

(** [unsigned char] indices are inside the tables. *)
Definition sbox (b : Z) : Z := nth (Z.to_nat b) s_muggle_aes_sbox 0.
Definition inv_sbox (b : Z) : Z := nth (Z.to_nat b) s_muggle_aes_inv_sbox 0.

Definition muggle_aes_sub_bytes (state : list Z) : list Z := sbox <$> state.
Definition muggle_aes_inv_sub_bytes (state : list Z) : list Z := inv_sbox <$> state.

Definition muggle_aes_shift_rows (state : list Z) : list Z :=
  match state with
  | [s0; s1; s2; s3; s4; s5; s6; s7; s8; s9; s10; s11; s12; s13; s14; s15] =>
      [s0; s1; s2; s3; s5; s6; s7; s4; s10; s11; s8; s9; s15; s12; s13; s14]
  | _ => state
  end.

Definition muggle_aes_inv_shift_rows (state : list Z) : list Z :=
  match state with
  | [s0; s1; s2; s3; s4; s5; s6; s7; s8; s9; s10; s11; s12; s13; s14; s15] =>
      [s0; s1; s2; s3; s7; s4; s5; s6; s10; s11; s8; s9; s13; s14; s15; s12]
  | _ => state
  end.

(** The two loops over [idx = (i << 2) | j] of mix_column and inv_mix_column,
    which differ in the matrix. *)
Definition mix_with (m state : list Z) : list Z :=
  flat_map (fun i => (fun j =>
    Z.lxor (Z.lxor (Z.lxor
      (galois_mul (nth (i * 4 + 0) m 0) (nth (0 * 4 + j) state 0))
      (galois_mul (nth (i * 4 + 1) m 0) (nth (1 * 4 + j) state 0)))
      (galois_mul (nth (i * 4 + 2) m 0) (nth (2 * 4 + j) state 0)))
      (galois_mul (nth (i * 4 + 3) m 0) (nth (3 * 4 + j) state 0))) <$> seq 0 4) (seq 0 4).

Definition muggle_aes_mix_column (state : list Z) : list Z :=
  mix_with s_muggle_aes_mix_column state.
Definition muggle_aes_inv_mix_column (state : list Z) : list Z :=
  mix_with s_muggle_aes_inv_mix_column state.

(** The words of the key schedule, through their bytes in memory. *)
Definition muggle_aes_rot_word (word : Z) : Z :=
  match le_bytes 4 word with
  | [w0; w1; w2; w3] => le_word [w3; w0; w1; w2]
  | _ => 0
  end.

Definition muggle_aes_sub_word (word : Z) : Z := le_word (sbox <$> le_bytes 4 word).

(** The words [rd_key + 4 r]. *)
Definition round_key (sk : muggle_aes_sub_keys) (r : nat) : list Z :=
  take 4 (drop (4 * r) (rd_key sk)).

(** A full round, a last round, and the sequence of full rounds [lo .. hi]. *)
Definition enc_round (sk : muggle_aes_sub_keys) (r : nat) (state : list Z) : list Z :=
  muggle_aes_add_round_key
    (muggle_aes_mix_column (muggle_aes_shift_rows (muggle_aes_sub_bytes state))) (round_key sk r).
Definition enc_last (sk : muggle_aes_sub_keys) (r : nat) (state : list Z) : list Z :=
  muggle_aes_add_round_key (muggle_aes_shift_rows (muggle_aes_sub_bytes state)) (round_key sk r).
Definition enc_rounds (sk : muggle_aes_sub_keys) (lo n : nat) (state : list Z) : list Z :=
  fold_left (fun s r => enc_round sk r s) (seq lo n) state.

(** The state is returned unchanged with the error code. *)
Definition muggle_aes_encrypt (state : list Z) (sk : muggle_aes_sub_keys) : Z * list Z :=
  if negb (rounds sk =? 10) && negb (rounds sk =? 12) && negb (rounds sk =? 14)
  then (MUGGLE_ERR_INVALID_PARAM, state)
  else
    let state := muggle_aes_add_round_key state (round_key sk 0) in
    let state := enc_rounds sk 1 9 state in
    if rounds sk =? 10 then (0, enc_last sk 10 state)
    else
      let state := enc_round sk 10 state in
      let state := enc_round sk 11 state in
      if rounds sk =? 12 then (0, enc_last sk 12 state)
      else if rounds sk =? 14 then
        let state := enc_round sk 12 state in
        let state := enc_round sk 13 state in
        (0, enc_last sk 14 state)
      else (0, state).

Definition dec_round (sk : muggle_aes_sub_keys) (r : nat) (state : list Z) : list Z :=
  muggle_aes_inv_sub_bytes (muggle_aes_inv_shift_rows
    (muggle_aes_inv_mix_column (muggle_aes_add_round_key state (round_key sk r)))).
Definition dec_last (sk : muggle_aes_sub_keys) (r : nat) (state : list Z) : list Z :=
  muggle_aes_inv_sub_bytes (muggle_aes_inv_shift_rows
    (muggle_aes_add_round_key state (round_key sk r))).
Definition dec_rounds (sk : muggle_aes_sub_keys) (lo n : nat) (state : list Z) : list Z :=
  fold_left (fun s r => dec_round sk r s) (rev (seq lo n)) state.

Definition muggle_aes_decrypt (state : list Z) (sk : muggle_aes_sub_keys) : Z * list Z :=
  if negb (rounds sk =? 10) && negb (rounds sk =? 12) && negb (rounds sk =? 14)
  then (MUGGLE_ERR_INVALID_PARAM, state)
  else
    let state :=
      if 10 <? rounds sk then
        let state :=
          if rounds sk =? 14 then
            let state := dec_last sk 14 state in
            let state := dec_round sk 13 state in
            dec_round sk 12 state
          else dec_last sk 12 state in
        let state := dec_round sk 11 state in
        dec_round sk 10 state
      else dec_last sk 10 state in
    let state := dec_rounds sk 1 9 state in
    (0, muggle_aes_add_round_key state (round_key sk 0)).

(** ** Galois field *)
Lemma galois_loop_lxor fuel a b1 b2 r1 r2 :
  galois_loop fuel a (Z.lxor b1 b2) (Z.lxor r1 r2) =
  Z.lxor (galois_loop fuel a b1 r1) (galois_loop fuel a b2 r2).
Proof.
  revert a b1 b2 r1 r2. induction fuel as [|fuel IH]; intros a b1 b2 r1 r2; [done|].
  cbn [galois_loop]. case_match; [done|].
  assert (forall b, (Z.land b 0x80 =? 0) = negb (Z.testbit b 7)) as Ht.
  { intros b. destruct (Z.testbit b 7) eqn:E.
    - apply Z.eqb_neq. intros Hz. apply (f_equal (fun z => Z.testbit z 7)) in Hz.
      rewrite Z.land_spec, E, Z.bits_0 in Hz. done.
    - apply Z.eqb_eq, Z.bits_inj'. intros n Hn. rewrite Z.land_spec, Z.bits_0.
      destruct (decide (n = 7)) as [->|]; [by rewrite E|].
      change 0x80 with (2 ^ 7). rewrite Z.pow2_bits_false by lia. apply andb_false_r. }
  assert (forall x y, u8 (Z.shiftl (Z.lxor x y) 1) = Z.lxor (u8 (Z.shiftl x 1)) (u8 (Z.shiftl y 1))) as Hs.
  { intros x y. apply Z.bits_inj'. intros n Hn.
    rewrite Z.lxor_spec, !wrap_spec, Z.shiftl_lxor, Z.lxor_spec by lia. btauto. }
  rewrite !Ht, Hs, Z.lxor_spec, !negb_involutive.
  destruct (negb (Z.land a 1 =? 0)), (Z.testbit b1 7), (Z.testbit b2 7); cbn [xorb];
    rewrite <- IH; f_equal; xor_solve.
Qed.

(** Multiplication distributes over exclusive or. *)
Lemma galois_mul_lxor a x y : galois_mul a (Z.lxor x y) = Z.lxor (galois_mul a x) (galois_mul a y).
Proof. unfold galois_mul. rewrite <- galois_loop_lxor. done. Qed.

Lemma galois_loop_byte fuel a b r : is_word 8 b -> is_word 8 r -> is_word 8 (galois_loop fuel a b r).
Proof.
  revert a b r. induction fuel as [|fuel IH]; intros a b r Hb Hr; [done|].
  cbn [galois_loop]. case_match; [done|].
  apply IH; repeat case_match; auto using is_word_lxor, is_word_wrap with lia.
  apply is_word_lxor; [done|by apply is_word_wrap|by split].
Qed.

Lemma galois_mul_byte a b : is_word 8 b -> is_word 8 (galois_mul a b).
Proof. intros. by apply galois_loop_byte. Qed.

(** ** Substitution *)
Lemma byte_forallb (f : Z -> bool) :
  forallb (fun i => f (Z.of_nat i)) (seq 0 256) = true -> forall b, is_word 8 b -> f b = true.
Proof.
  intros H b [H0 H1]. change (2 ^ 8) with 256 in H1.
  rewrite forallb_forall in H. specialize (H (Z.to_nat b) ltac:(apply in_seq; lia)).
  cbv beta in H. by rewrite Z2Nat.id in H by done.
Qed.

Definition is_byte_b (x : Z) : bool := (0 <=? x) && (x <? 256).

Lemma is_byte_b_spec x : is_byte_b x = true -> is_word 8 x.
Proof. unfold is_byte_b, is_word. rewrite andb_true_iff, Z.leb_le, Z.ltb_lt. done. Qed.

Lemma sbox_ok b : is_word 8 b -> inv_sbox (sbox b) = b /\ is_word 8 (sbox b) /\ is_word 8 (inv_sbox b).
Proof.
  intros Hb.
  assert (((inv_sbox (sbox b) =? b) && is_byte_b (sbox b) && is_byte_b (inv_sbox b)) = true) as H.
  { revert b Hb. apply byte_forallb. by vm_compute. }
  rewrite !andb_true_iff, Z.eqb_eq in H. destruct H as [[? ?] ?]. auto using is_byte_b_spec.
Qed.

(** ** States *)
Definition is_state (s : list Z) : Prop := length s = 16%nat /\ is_bytes s.

(** Name the sixteen bytes of a state. *)
Ltac destruct_state s H :=
  destruct H as [?Hlen ?Hbytes];
  do 16 (destruct s as [|? s]; [done|]); destruct s as [|? s]; [|done];
  unfold is_bytes in *; repeat match goal with
  | H : Forall _ (_ :: _) |- _ => apply list.Forall_cons in H as [? H]
  end.

Ltac bytes_auto := unfold is_bytes; repeat (apply list.Forall_cons; split); [..|apply Forall_nil; done].

Lemma sub_bytes_state s : is_state s -> is_state (muggle_aes_sub_bytes s).
Proof.
  intros [Hl Hb]. unfold muggle_aes_sub_bytes. split; [by rewrite length_fmap|].
  apply Forall_fmap, Forall_lookup. intros i x Hx. apply sbox_ok.
  unfold is_bytes in Hb. rewrite Forall_lookup in Hb. eauto.
Qed.

Lemma inv_sub_bytes_state s : is_state s -> is_state (muggle_aes_inv_sub_bytes s).
Proof.
  intros [Hl Hb]. unfold muggle_aes_inv_sub_bytes. split; [by rewrite length_fmap|].
  apply Forall_fmap, Forall_lookup. intros i x Hx. apply sbox_ok.
  unfold is_bytes in Hb. rewrite Forall_lookup in Hb. eauto.
Qed.

Lemma inv_sub_sub s : is_state s -> muggle_aes_inv_sub_bytes (muggle_aes_sub_bytes s) = s.
Proof.
  intros [_ Hb]. unfold muggle_aes_inv_sub_bytes, muggle_aes_sub_bytes.
  rewrite <- list_fmap_compose. rewrite <- (list_fmap_id s) at 2.
  apply list_fmap_ext. intros i x Hx. simpl. apply sbox_ok.
  unfold is_bytes in Hb. rewrite Forall_lookup in Hb. eauto.
Qed.

Lemma shift_rows_state s : is_state s -> is_state (muggle_aes_shift_rows s).
Proof. intros H. destruct_state s H. split; [done|]. simpl. bytes_auto; done. Qed.

Lemma inv_shift_rows_state s : is_state s -> is_state (muggle_aes_inv_shift_rows s).
Proof. intros H. destruct_state s H. split; [done|]. simpl. bytes_auto; done. Qed.

Lemma inv_shift_shift s : is_state s -> muggle_aes_inv_shift_rows (muggle_aes_shift_rows s) = s.
Proof. intros H. by destruct_state s H. Qed.

(** Adding a round key of four words twice does nothing. *)
Lemma add_round_key_state s k : is_state s -> is_state (muggle_aes_add_round_key s k).
Proof.
  intros H. pose proof H as H'. destruct_state s H.
  destruct k as [|k0 [|k1 [|k2 [|k3 [|? ?]]]]]; try exact H'.
  split; [done|]. simpl. bytes_auto; (apply is_word_lxor; [done|done|by apply is_word_land]).
Qed.

Lemma add_round_key_twice s k :
  is_state s -> muggle_aes_add_round_key (muggle_aes_add_round_key s k) k = s.
Proof.
  intros H. destruct_state s H. destruct k as [|k0 [|k1 [|k2 [|k3 [|? ?]]]]]; try done.
  simpl. by rewrite !lxor_cancel_r.
Qed.

(** ** Mixing columns *)
Definition xor4 (a b c d : Z) : Z := Z.lxor (Z.lxor (Z.lxor a b) c) d.

Lemma xor4_transpose a0 a1 a2 a3 b0 b1 b2 b3 c0 c1 c2 c3 d0 d1 d2 d3 :
  xor4 (xor4 a0 a1 a2 a3) (xor4 b0 b1 b2 b3) (xor4 c0 c1 c2 c3) (xor4 d0 d1 d2 d3) =
  xor4 (xor4 a0 b0 c0 d0) (xor4 a1 b1 c1 d1) (xor4 a2 b2 c2 d2) (xor4 a3 b3 c3 d3).
Proof. unfold xor4. xor_solve. Qed.

Lemma galois_mul_xor4 k a b c d :
  galois_mul k (xor4 a b c d) = xor4 (galois_mul k a) (galois_mul k b) (galois_mul k c) (galois_mul k d).
Proof. unfold xor4. by rewrite !galois_mul_lxor. Qed.

(** The product of the two matrices, applied to one byte, is the unit matrix. *)
Definition mix_entry (i j : nat) (x : Z) : Z :=
  let m k := nth (i * 4 + k) s_muggle_aes_inv_mix_column 0 in
  let n k := nth (k * 4 + j) s_muggle_aes_mix_column 0 in
  xor4 (galois_mul (m 0%nat) (galois_mul (n 0%nat) x)) (galois_mul (m 1%nat) (galois_mul (n 1%nat) x))
       (galois_mul (m 2%nat) (galois_mul (n 2%nat) x)) (galois_mul (m 3%nat) (galois_mul (n 3%nat) x)).

Lemma mix_entry_unit i j x :
  (i < 4)%nat -> (j < 4)%nat -> is_word 8 x -> mix_entry i j x = if (i =? j)%nat then x else 0.
Proof.
  intros Hi Hj Hx. apply Z.eqb_eq. revert x Hx. apply byte_forallb.
  assert (forallb (fun i => forallb (fun j => forallb (fun x =>
    mix_entry i j (Z.of_nat x) =? if (i =? j)%nat then Z.of_nat x else 0) (seq 0 256)) (seq 0 4))
    (seq 0 4) = true) as H by (by vm_compute).
  rewrite forallb_forall in H. specialize (H i ltac:(apply in_seq; lia)).
  rewrite forallb_forall in H. apply (H j). apply in_seq. lia.
Qed.

(** One byte of the product of a matrix with a column of the state. *)
Lemma mix_with_state m s : is_state s -> is_state (mix_with m s).
Proof.
  intros [Hl Hb]. split; [done|]. unfold is_bytes, mix_with.
  assert (forall k, is_word 8 (nth k s 0)) as Hk.
  { intros k. destruct (nth_in_or_default k s 0) as [Hin| ->]; [|done].
    unfold is_bytes in Hb. rewrite List.Forall_forall in Hb. by apply Hb. }
  simpl. bytes_auto; (repeat apply is_word_lxor; try done; by apply galois_mul_byte).
Qed.

Lemma mix_column_state s : is_state s -> is_state (muggle_aes_mix_column s).
Proof. apply mix_with_state. Qed.

Definition inv_coef (i k : nat) : Z := nth (i * 4 + k) s_muggle_aes_inv_mix_column 0.
Definition coef (k j : nat) : Z := nth (k * 4 + j) s_muggle_aes_mix_column 0.

(** One byte of the inverse of a mixed column. *)
Lemma inv_mix_row i x0 x1 x2 x3 :
  (i < 4)%nat -> is_word 8 x0 -> is_word 8 x1 -> is_word 8 x2 -> is_word 8 x3 ->
  let col k := xor4 (galois_mul (coef k 0) x0) (galois_mul (coef k 1) x1)
                    (galois_mul (coef k 2) x2) (galois_mul (coef k 3) x3) in
  xor4 (galois_mul (inv_coef i 0) (col 0%nat)) (galois_mul (inv_coef i 1) (col 1%nat))
       (galois_mul (inv_coef i 2) (col 2%nat)) (galois_mul (inv_coef i 3) (col 3%nat)) =
  nth i [x0; x1; x2; x3] 0.
Proof.
  intros Hi H0 H1 H2 H3 col. unfold col. rewrite !galois_mul_xor4, xor4_transpose.
  change (xor4 (mix_entry i 0 x0) (mix_entry i 1 x1) (mix_entry i 2 x2) (mix_entry i 3 x3) =
    nth i [x0; x1; x2; x3] 0).
  rewrite !mix_entry_unit by (done || lia).
  do 4 (destruct i as [|i]; [unfold xor4; cbn [Nat.eqb nth]; xor_solve|]). lia.
Qed.

#[local] Opaque galois_mul s_muggle_aes_mix_column s_muggle_aes_inv_mix_column.

Lemma inv_mix_mix s : is_state s -> muggle_aes_inv_mix_column (muggle_aes_mix_column s) = s.
Proof.
  intros H. destruct_state s H.
  unfold muggle_aes_inv_mix_column, muggle_aes_mix_column, mix_with. simpl.
  repeat (apply (f_equal2 cons); [first
    [ apply (inv_mix_row 0); (done || lia) | apply (inv_mix_row 1); (done || lia)
    | apply (inv_mix_row 2); (done || lia) | apply (inv_mix_row 3); (done || lia) ]|]).
  done.
Qed.

(** ** Rounds *)
Section rounds_proof.
Context (sk : muggle_aes_sub_keys).

Lemma enc_round_state r s : is_state s -> is_state (enc_round sk r s).
Proof.
  intros. unfold enc_round.
  by apply add_round_key_state, mix_with_state, shift_rows_state, sub_bytes_state.
Qed.

Lemma enc_last_state r s : is_state s -> is_state (enc_last sk r s).
Proof. intros. unfold enc_last. by apply add_round_key_state, shift_rows_state, sub_bytes_state. Qed.

Lemma dec_enc_round r s : is_state s -> dec_round sk r (enc_round sk r s) = s.
Proof.
  intros. unfold dec_round, enc_round.
  rewrite add_round_key_twice, inv_mix_mix, inv_shift_shift, inv_sub_sub
    by auto 8 using mix_column_state, shift_rows_state, sub_bytes_state. done.
Qed.

Lemma dec_enc_last r s : is_state s -> dec_last sk r (enc_last sk r s) = s.
Proof.
  intros. unfold dec_last, enc_last.
  rewrite add_round_key_twice, inv_shift_shift, inv_sub_sub
    by auto using shift_rows_state, sub_bytes_state. done.
Qed.

Lemma enc_rounds_state lo n s : is_state s -> is_state (enc_rounds sk lo n s).
Proof.
  unfold enc_rounds. revert lo s. induction n; intros lo s H; simpl; [done|].
  apply IHn. by apply enc_round_state.
Qed.

Lemma dec_enc_rounds lo n s : is_state s -> dec_rounds sk lo n (enc_rounds sk lo n s) = s.
Proof.
  unfold dec_rounds, enc_rounds. revert lo s. induction n as [|n IH]; intros lo s H; simpl; [done|].
  rewrite fold_left_app, IH by (by apply enc_round_state). simpl. by apply dec_enc_round.
Qed.

Lemma aes_encrypt_state s :
  is_state s -> is_state (muggle_aes_encrypt s sk).2.
Proof.
  intros. unfold muggle_aes_encrypt.
  repeat case_match; simpl; auto 10 using enc_last_state, enc_round_state, enc_rounds_state, add_round_key_state.
Qed.

Lemma aes_dec_enc s :
  is_state s -> rounds sk = 10 \/ rounds sk = 12 \/ rounds sk = 14 ->
  exists s', muggle_aes_encrypt s sk = (0, s') /\ is_state s' /\ muggle_aes_decrypt s' sk = (0, s).
Proof.
  intros Hs Hr. unfold muggle_aes_encrypt, muggle_aes_decrypt.
  pose proof (add_round_key_state s (round_key sk 0) Hs) as H0.
  pose proof (enc_rounds_state 1 9 _ H0) as H9.
  destruct Hr as [->|[->| ->]]; cbn [Z.eqb Z.ltb Z.compare Pos.eqb Pos.compare Pos.compare_cont negb andb];
    eexists; (split; [reflexivity|]); (split; [auto 10 using enc_last_state, enc_round_state|]);
    rewrite ?dec_enc_last by auto 10 using enc_round_state;
    rewrite ?dec_enc_round by auto 10 using enc_round_state;
    rewrite ?dec_enc_round by auto 10 using enc_round_state;
    rewrite dec_enc_rounds, add_round_key_twice by done; done.
Qed.
End rounds_proof.

(** C20: for a valid number of rounds and any key schedule, encrypting a block
    succeeds and decrypting the result gives the block back; any other number
    of rounds is refused and leaves the block. *)
Theorem internal_aes_roundtrip sk s :
  is_state s ->
  if (rounds sk =? 10) || (rounds sk =? 12) || (rounds sk =? 14) then
    exists s', muggle_aes_encrypt s sk = (0, s') /\ is_state s' /\ muggle_aes_decrypt s' sk = (0, s)
  else
    muggle_aes_encrypt s sk = (MUGGLE_ERR_INVALID_PARAM, s) /\
    muggle_aes_decrypt s sk = (MUGGLE_ERR_INVALID_PARAM, s).
Proof.
  intros Hs.
  destruct (Z.eqb_spec (rounds sk) 10), (Z.eqb_spec (rounds sk) 12), (Z.eqb_spec (rounds sk) 14);
    try (apply aes_dec_enc; [done|lia]).
  cbn [orb]. unfold muggle_aes_encrypt, muggle_aes_decrypt.
  rewrite !(proj2 (Z.eqb_neq _ _)) by done. done.
Qed.

Definition sample_sk : muggle_aes_sub_keys := mksk (replicate 60 0x01020304) 10.

Lemma internal_aes_roundtrip_witness :
  exists s', muggle_aes_encrypt (replicate 16 7) sample_sk = (0, s') /\ is_state s' /\
    muggle_aes_decrypt s' sample_sk = (0, replicate 16 7).
Proof. apply (internal_aes_roundtrip sample_sk (replicate 16 7)). split; [done|]. by repeat constructor. Defined.

End InternalAes.
