(* ===== verification/OpensslAesSub.v ===== *)
(** muggle/c/crypt/openssl/openssl_aes.c, the constant-time substitutions
    openssl_sub_u32, openssl_sub_u64 and openssl_inv_sub_u64.

    The routines compute the S-box of every byte of a word at once, as an
    inversion in a tower of fields, with nothing but bitwise operations and
    shifts by constants.  They are written here over an interface [WordOps] of
    these operations, statement by statement as in the source.  The machine
    instance [uint_ops] gives the functions of the program; the instance
    [tri_ops] follows one byte of the word through the same statements, with the
    bits that a shift may bring in from the neighbouring bytes marked unknown.  The
    second is sound for the first ([sub_u64_sound] and its companions), it ends
    with no unknown bit for each of the 256 bytes, and its result is the entry
    of the S-box of internal_aes.c. *)

From Stdlib Require Import ZArith Lia.
From stdpp Require Import base list numbers.
From S2P Require Import Prelude Bits InternalAes.
Import InternalAes.

Open Scope Z_scope.

Module OpensslAesSub.

(** The operations of the routines on a word type; [wc] is a constant. *)
Class WordOps (W : Type) := {
  wc : Z -> W;
  wand : W -> W -> W;
  wor : W -> W -> W;
  wxor : W -> W -> W;
  wshl : W -> Z -> W;
  wshr : W -> Z -> W
}.

(** A statement [x = e;] followed by the rest of the routine. *)
Definition assign {W} (e : W) (rest : W -> W) : W := rest e.

Declare Scope word_scope.
Delimit Scope word_scope with word.
Notation "# c" := (wc c) (at level 8, c at level 1, format "# c") : word_scope.
Notation "x <<: n" := (wshl x n) (at level 32, left associativity) : word_scope.
Notation "x >>: n" := (wshr x n) (at level 32, left associativity) : word_scope.
Notation "x &: y" := (wand x y) (at level 40, left associativity) : word_scope.
Notation "x ^: y" := (wxor x y) (at level 43, left associativity) : word_scope.
Notation "'var' x := e ; b" := (assign e (fun x => b))
  (at level 10, x name, e at level 99, b at level 200, format "'var'  x  :=  e ; '//' b") : word_scope.
Notation "x |: y" := (wor x y) (at level 46, left associativity) : word_scope.

(** Unsigned words of [w] bits. *)
Definition uint_ops (w : Z) : WordOps Z := {|
  wc c := c;
  wand := Z.land;
  wor := Z.lor;
  wxor := Z.lxor;
  wshl x n := wrap w (Z.shiftl x n);
  wshr x n := Z.shiftr x n
|}.

Section routines.
#[local] Open Scope word_scope.

Definition openssl_sub_u32 {W} {O : WordOps W} (w : W) : W :=
  var x := w;
  var y := ((x &: #0xFEFEFEFE) >>: 1) |: ((x &: #0x01010101) <<: 7);
  var x := x &: #0xDDDDDDDD;
  var x := x ^: (y &: #0x57575757);
  var y := ((y &: #0xFEFEFEFE) >>: 1) |: ((y &: #0x01010101) <<: 7);
  var x := x ^: (y &: #0x1C1C1C1C);
  var y := ((y &: #0xFEFEFEFE) >>: 1) |: ((y &: #0x01010101) <<: 7);
  var x := x ^: (y &: #0x4A4A4A4A);
  var y := ((y &: #0xFEFEFEFE) >>: 1) |: ((y &: #0x01010101) <<: 7);
  var x := x ^: (y &: #0x42424242);
  var y := ((y &: #0xFEFEFEFE) >>: 1) |: ((y &: #0x01010101) <<: 7);
  var x := x ^: (y &: #0x64646464);
  var y := ((y &: #0xFEFEFEFE) >>: 1) |: ((y &: #0x01010101) <<: 7);
  var x := x ^: (y &: #0xE0E0E0E0);
  var a1 := x;
  var a1 := a1 ^: ((x &: #0xF0F0F0F0) >>: 4);
  var a2 := ((x &: #0xCCCCCCCC) >>: 2) |: ((x &: #0x33333333) <<: 2);
  var a3 := x &: a1;
  var a3 := a3 ^: ((a3 &: #0xAAAAAAAA) >>: 1);
  var a3 := a3 ^: ((((x <<: 1) &: a1) ^: ((a1 <<: 1) &: x)) &: #0xAAAAAAAA);
  var a4 := a2 &: a1;
  var a4 := a4 ^: ((a4 &: #0xAAAAAAAA) >>: 1);
  var a4 := a4 ^: ((((a2 <<: 1) &: a1) ^: ((a1 <<: 1) &: a2)) &: #0xAAAAAAAA);
  var a5 := (a3 &: #0xCCCCCCCC) >>: 2;
  var a3 := a3 ^: (((a4 <<: 2) ^: a4) &: #0xCCCCCCCC);
  var a4 := a5 &: #0x22222222;
  var a4 := a4 |: (a4 >>: 1);
  var a4 := a4 ^: ((a5 <<: 1) &: #0x22222222);
  var a3 := a3 ^: a4;
  var a5 := a3 &: #0xA0A0A0A0;
  var a5 := a5 |: (a5 >>: 1);
  var a5 := a5 ^: ((a3 <<: 1) &: #0xA0A0A0A0);
  var a4 := a5 &: #0xC0C0C0C0;
  var a6 := a4 >>: 2;
  var a4 := a4 ^: ((a5 <<: 2) &: #0xC0C0C0C0);
  var a5 := a6 &: #0x20202020;
  var a5 := a5 |: (a5 >>: 1);
  var a5 := a5 ^: ((a6 <<: 1) &: #0x20202020);
  var a4 := a4 |: a5;
  var a3 := a3 ^: (a4 >>: 4);
  var a3 := a3 &: #0x0F0F0F0F;
  var a2 := a3;
  var a2 := a2 ^: ((a3 &: #0x0C0C0C0C) >>: 2);
  var a4 := a3 &: a2;
  var a4 := a4 ^: ((a4 &: #0x0A0A0A0A0A) >>: 1);
  var a4 := a4 ^: ((((a3 <<: 1) &: a2) ^: ((a2 <<: 1) &: a3)) &: #0x0A0A0A0A);
  var a5 := a4 &: #0x08080808;
  var a5 := a5 |: (a5 >>: 1);
  var a5 := a5 ^: ((a4 <<: 1) &: #0x08080808);
  var a4 := a4 ^: (a5 >>: 2);
  var a4 := a4 &: #0x03030303;
  var a4 := a4 ^: ((a4 &: #0x02020202) >>: 1);
  var a4 := a4 |: (a4 <<: 2);
  var a3 := a2 &: a4;
  var a3 := a3 ^: ((a3 &: #0x0A0A0A0A) >>: 1);
  var a3 := a3 ^: ((((a2 <<: 1) &: a4) ^: ((a4 <<: 1) &: a2)) &: #0x0A0A0A0A);
  var a3 := a3 |: (a3 <<: 4);
  var a2 := ((a1 &: #0xCCCCCCCC) >>: 2) |: ((a1 &: #0x33333333) <<: 2);
  var x := a1 &: a3;
  var x := x ^: ((x &: #0xAAAAAAAA) >>: 1);
  var x := x ^: ((((a1 <<: 1) &: a3) ^: ((a3 <<: 1) &: a1)) &: #0xAAAAAAAA);
  var a4 := a2 &: a3;
  var a4 := a4 ^: ((a4 &: #0xAAAAAAAA) >>: 1);
  var a4 := a4 ^: ((((a2 <<: 1) &: a3) ^: ((a3 <<: 1) &: a2)) &: #0xAAAAAAAA);
  var a5 := (x &: #0xCCCCCCCC) >>: 2;
  var x := x ^: (((a4 <<: 2) ^: a4) &: #0xCCCCCCCC);
  var a4 := a5 &: #0x22222222;
  var a4 := a4 |: (a4 >>: 1);
  var a4 := a4 ^: ((a5 <<: 1) &: #0x22222222);
  var x := x ^: a4;
  var y := ((x &: #0xFEFEFEFE) >>: 1) |: ((x &: #0x01010101) <<: 7);
  var x := x &: #0x39393939;
  var x := x ^: (y &: #0x3F3F3F3F);
  var y := ((y &: #0xFCFCFCFC) >>: 2) |: ((y &: #0x03030303) <<: 6);
  var x := x ^: (y &: #0x97979797);
  var y := ((y &: #0xFEFEFEFE) >>: 1) |: ((y &: #0x01010101) <<: 7);
  var x := x ^: (y &: #0x9B9B9B9B);
  var y := ((y &: #0xFEFEFEFE) >>: 1) |: ((y &: #0x01010101) <<: 7);
  var x := x ^: (y &: #0x3C3C3C3C);
  var y := ((y &: #0xFEFEFEFE) >>: 1) |: ((y &: #0x01010101) <<: 7);
  var x := x ^: (y &: #0xDDDDDDDD);
  var y := ((y &: #0xFEFEFEFE) >>: 1) |: ((y &: #0x01010101) <<: 7);
  var x := x ^: (y &: #0x72727272);
  var x := x ^: #0x63636363;
  x.

Definition openssl_sub_u64 {W} {O : WordOps W} (w : W) : W :=
  var x := w;
  var y := ((x &: #0xFEFEFEFEFEFEFEFE) >>: 1) |: ((x &: #0x0101010101010101) <<: 7);
  var x := x &: #0xDDDDDDDDDDDDDDDD;
  var x := x ^: (y &: #0x5757575757575757);
  var y := ((y &: #0xFEFEFEFEFEFEFEFE) >>: 1) |: ((y &: #0x0101010101010101) <<: 7);
  var x := x ^: (y &: #0x1C1C1C1C1C1C1C1C);
  var y := ((y &: #0xFEFEFEFEFEFEFEFE) >>: 1) |: ((y &: #0x0101010101010101) <<: 7);
  var x := x ^: (y &: #0x4A4A4A4A4A4A4A4A);
  var y := ((y &: #0xFEFEFEFEFEFEFEFE) >>: 1) |: ((y &: #0x0101010101010101) <<: 7);
  var x := x ^: (y &: #0x4242424242424242);
  var y := ((y &: #0xFEFEFEFEFEFEFEFE) >>: 1) |: ((y &: #0x0101010101010101) <<: 7);
  var x := x ^: (y &: #0x6464646464646464);
  var y := ((y &: #0xFEFEFEFEFEFEFEFE) >>: 1) |: ((y &: #0x0101010101010101) <<: 7);
  var x := x ^: (y &: #0xE0E0E0E0E0E0E0E0);
  var a1 := x;
  var a1 := a1 ^: ((x &: #0xF0F0F0F0F0F0F0F0) >>: 4);
  var a2 := ((x &: #0xCCCCCCCCCCCCCCCC) >>: 2) |: ((x &: #0x3333333333333333) <<: 2);
  var a3 := x &: a1;
  var a3 := a3 ^: ((a3 &: #0xAAAAAAAAAAAAAAAA) >>: 1);
  var a3 := a3 ^: ((((x <<: 1) &: a1) ^: ((a1 <<: 1) &: x)) &: #0xAAAAAAAAAAAAAAAA);
  var a4 := a2 &: a1;
  var a4 := a4 ^: ((a4 &: #0xAAAAAAAAAAAAAAAA) >>: 1);
  var a4 := a4 ^: ((((a2 <<: 1) &: a1) ^: ((a1 <<: 1) &: a2)) &: #0xAAAAAAAAAAAAAAAA);
  var a5 := (a3 &: #0xCCCCCCCCCCCCCCCC) >>: 2;
  var a3 := a3 ^: (((a4 <<: 2) ^: a4) &: #0xCCCCCCCCCCCCCCCC);
  var a4 := a5 &: #0x2222222222222222;
  var a4 := a4 |: (a4 >>: 1);
  var a4 := a4 ^: ((a5 <<: 1) &: #0x2222222222222222);
  var a3 := a3 ^: a4;
  var a5 := a3 &: #0xA0A0A0A0A0A0A0A0;
  var a5 := a5 |: (a5 >>: 1);
  var a5 := a5 ^: ((a3 <<: 1) &: #0xA0A0A0A0A0A0A0A0);
  var a4 := a5 &: #0xC0C0C0C0C0C0C0C0;
  var a6 := a4 >>: 2;
  var a4 := a4 ^: ((a5 <<: 2) &: #0xC0C0C0C0C0C0C0C0);
  var a5 := a6 &: #0x2020202020202020;
  var a5 := a5 |: (a5 >>: 1);
  var a5 := a5 ^: ((a6 <<: 1) &: #0x2020202020202020);
  var a4 := a4 |: a5;
  var a3 := a3 ^: (a4 >>: 4);
  var a3 := a3 &: #0x0F0F0F0F0F0F0F0F;
  var a2 := a3;
  var a2 := a2 ^: ((a3 &: #0x0C0C0C0C0C0C0C0C) >>: 2);
  var a4 := a3 &: a2;
  var a4 := a4 ^: ((a4 &: #0x0A0A0A0A0A0A0A0A) >>: 1);
  var a4 := a4 ^: ((((a3 <<: 1) &: a2) ^: ((a2 <<: 1) &: a3)) &: #0x0A0A0A0A0A0A0A0A);
  var a5 := a4 &: #0x0808080808080808;
  var a5 := a5 |: (a5 >>: 1);
  var a5 := a5 ^: ((a4 <<: 1) &: #0x0808080808080808);
  var a4 := a4 ^: (a5 >>: 2);
  var a4 := a4 &: #0x0303030303030303;
  var a4 := a4 ^: ((a4 &: #0x0202020202020202) >>: 1);
  var a4 := a4 |: (a4 <<: 2);
  var a3 := a2 &: a4;
  var a3 := a3 ^: ((a3 &: #0x0A0A0A0A0A0A0A0A) >>: 1);
  var a3 := a3 ^: ((((a2 <<: 1) &: a4) ^: ((a4 <<: 1) &: a2)) &: #0x0A0A0A0A0A0A0A0A);
  var a3 := a3 |: (a3 <<: 4);
  var a2 := ((a1 &: #0xCCCCCCCCCCCCCCCC) >>: 2) |: ((a1 &: #0x3333333333333333) <<: 2);
  var x := a1 &: a3;
  var x := x ^: ((x &: #0xAAAAAAAAAAAAAAAA) >>: 1);
  var x := x ^: ((((a1 <<: 1) &: a3) ^: ((a3 <<: 1) &: a1)) &: #0xAAAAAAAAAAAAAAAA);
  var a4 := a2 &: a3;
  var a4 := a4 ^: ((a4 &: #0xAAAAAAAAAAAAAAAA) >>: 1);
  var a4 := a4 ^: ((((a2 <<: 1) &: a3) ^: ((a3 <<: 1) &: a2)) &: #0xAAAAAAAAAAAAAAAA);
  var a5 := (x &: #0xCCCCCCCCCCCCCCCC) >>: 2;
  var x := x ^: (((a4 <<: 2) ^: a4) &: #0xCCCCCCCCCCCCCCCC);
  var a4 := a5 &: #0x2222222222222222;
  var a4 := a4 |: (a4 >>: 1);
  var a4 := a4 ^: ((a5 <<: 1) &: #0x2222222222222222);
  var x := x ^: a4;
  var y := ((x &: #0xFEFEFEFEFEFEFEFE) >>: 1) |: ((x &: #0x0101010101010101) <<: 7);
  var x := x &: #0x3939393939393939;
  var x := x ^: (y &: #0x3F3F3F3F3F3F3F3F);
  var y := ((y &: #0xFCFCFCFCFCFCFCFC) >>: 2) |: ((y &: #0x0303030303030303) <<: 6);
  var x := x ^: (y &: #0x9797979797979797);
  var y := ((y &: #0xFEFEFEFEFEFEFEFE) >>: 1) |: ((y &: #0x0101010101010101) <<: 7);
  var x := x ^: (y &: #0x9B9B9B9B9B9B9B9B);
  var y := ((y &: #0xFEFEFEFEFEFEFEFE) >>: 1) |: ((y &: #0x0101010101010101) <<: 7);
  var x := x ^: (y &: #0x3C3C3C3C3C3C3C3C);
  var y := ((y &: #0xFEFEFEFEFEFEFEFE) >>: 1) |: ((y &: #0x0101010101010101) <<: 7);
  var x := x ^: (y &: #0xDDDDDDDDDDDDDDDD);
  var y := ((y &: #0xFEFEFEFEFEFEFEFE) >>: 1) |: ((y &: #0x0101010101010101) <<: 7);
  var x := x ^: (y &: #0x7272727272727272);
  var x := x ^: #0x6363636363636363;
  x.

Definition openssl_inv_sub_u64 {W} {O : WordOps W} (w : W) : W :=
  var x := w;
  var x := x ^: #0x6363636363636363;
  var y := ((x &: #0xFEFEFEFEFEFEFEFE) >>: 1) |: ((x &: #0x0101010101010101) <<: 7);
  var x := x &: #0xFDFDFDFDFDFDFDFD;
  var x := x ^: (y &: #0x5E5E5E5E5E5E5E5E);
  var y := ((y &: #0xFEFEFEFEFEFEFEFE) >>: 1) |: ((y &: #0x0101010101010101) <<: 7);
  var x := x ^: (y &: #0xF3F3F3F3F3F3F3F3);
  var y := ((y &: #0xFEFEFEFEFEFEFEFE) >>: 1) |: ((y &: #0x0101010101010101) <<: 7);
  var x := x ^: (y &: #0xF5F5F5F5F5F5F5F5);
  var y := ((y &: #0xFEFEFEFEFEFEFEFE) >>: 1) |: ((y &: #0x0101010101010101) <<: 7);
  var x := x ^: (y &: #0x7878787878787878);
  var y := ((y &: #0xFEFEFEFEFEFEFEFE) >>: 1) |: ((y &: #0x0101010101010101) <<: 7);
  var x := x ^: (y &: #0x7777777777777777);
  var y := ((y &: #0xFEFEFEFEFEFEFEFE) >>: 1) |: ((y &: #0x0101010101010101) <<: 7);
  var x := x ^: (y &: #0x1515151515151515);
  var y := ((y &: #0xFEFEFEFEFEFEFEFE) >>: 1) |: ((y &: #0x0101010101010101) <<: 7);
  var x := x ^: (y &: #0xA5A5A5A5A5A5A5A5);
  var a1 := x;
  var a1 := a1 ^: ((x &: #0xF0F0F0F0F0F0F0F0) >>: 4);
  var a2 := ((x &: #0xCCCCCCCCCCCCCCCC) >>: 2) |: ((x &: #0x3333333333333333) <<: 2);
  var a3 := x &: a1;
  var a3 := a3 ^: ((a3 &: #0xAAAAAAAAAAAAAAAA) >>: 1);
  var a3 := a3 ^: ((((x <<: 1) &: a1) ^: ((a1 <<: 1) &: x)) &: #0xAAAAAAAAAAAAAAAA);
  var a4 := a2 &: a1;
  var a4 := a4 ^: ((a4 &: #0xAAAAAAAAAAAAAAAA) >>: 1);
  var a4 := a4 ^: ((((a2 <<: 1) &: a1) ^: ((a1 <<: 1) &: a2)) &: #0xAAAAAAAAAAAAAAAA);
  var a5 := (a3 &: #0xCCCCCCCCCCCCCCCC) >>: 2;
  var a3 := a3 ^: (((a4 <<: 2) ^: a4) &: #0xCCCCCCCCCCCCCCCC);
  var a4 := a5 &: #0x2222222222222222;
  var a4 := a4 |: (a4 >>: 1);
  var a4 := a4 ^: ((a5 <<: 1) &: #0x2222222222222222);
  var a3 := a3 ^: a4;
  var a5 := a3 &: #0xA0A0A0A0A0A0A0A0;
  var a5 := a5 |: (a5 >>: 1);
  var a5 := a5 ^: ((a3 <<: 1) &: #0xA0A0A0A0A0A0A0A0);
  var a4 := a5 &: #0xC0C0C0C0C0C0C0C0;
  var a6 := a4 >>: 2;
  var a4 := a4 ^: ((a5 <<: 2) &: #0xC0C0C0C0C0C0C0C0);
  var a5 := a6 &: #0x2020202020202020;
  var a5 := a5 |: (a5 >>: 1);
  var a5 := a5 ^: ((a6 <<: 1) &: #0x2020202020202020);
  var a4 := a4 |: a5;
  var a3 := a3 ^: (a4 >>: 4);
  var a3 := a3 &: #0x0F0F0F0F0F0F0F0F;
  var a2 := a3;
  var a2 := a2 ^: ((a3 &: #0x0C0C0C0C0C0C0C0C) >>: 2);
  var a4 := a3 &: a2;
  var a4 := a4 ^: ((a4 &: #0x0A0A0A0A0A0A0A0A) >>: 1);
  var a4 := a4 ^: ((((a3 <<: 1) &: a2) ^: ((a2 <<: 1) &: a3)) &: #0x0A0A0A0A0A0A0A0A);
  var a5 := a4 &: #0x0808080808080808;
  var a5 := a5 |: (a5 >>: 1);
  var a5 := a5 ^: ((a4 <<: 1) &: #0x0808080808080808);
  var a4 := a4 ^: (a5 >>: 2);
  var a4 := a4 &: #0x0303030303030303;
  var a4 := a4 ^: ((a4 &: #0x0202020202020202) >>: 1);
  var a4 := a4 |: (a4 <<: 2);
  var a3 := a2 &: a4;
  var a3 := a3 ^: ((a3 &: #0x0A0A0A0A0A0A0A0A) >>: 1);
  var a3 := a3 ^: ((((a2 <<: 1) &: a4) ^: ((a4 <<: 1) &: a2)) &: #0x0A0A0A0A0A0A0A0A);
  var a3 := a3 |: (a3 <<: 4);
  var a2 := ((a1 &: #0xCCCCCCCCCCCCCCCC) >>: 2) |: ((a1 &: #0x3333333333333333) <<: 2);
  var x := a1 &: a3;
  var x := x ^: ((x &: #0xAAAAAAAAAAAAAAAA) >>: 1);
  var x := x ^: ((((a1 <<: 1) &: a3) ^: ((a3 <<: 1) &: a1)) &: #0xAAAAAAAAAAAAAAAA);
  var a4 := a2 &: a3;
  var a4 := a4 ^: ((a4 &: #0xAAAAAAAAAAAAAAAA) >>: 1);
  var a4 := a4 ^: ((((a2 <<: 1) &: a3) ^: ((a3 <<: 1) &: a2)) &: #0xAAAAAAAAAAAAAAAA);
  var a5 := (x &: #0xCCCCCCCCCCCCCCCC) >>: 2;
  var x := x ^: (((a4 <<: 2) ^: a4) &: #0xCCCCCCCCCCCCCCCC);
  var a4 := a5 &: #0x2222222222222222;
  var a4 := a4 |: (a4 >>: 1);
  var a4 := a4 ^: ((a5 <<: 1) &: #0x2222222222222222);
  var x := x ^: a4;
  var y := ((x &: #0xFEFEFEFEFEFEFEFE) >>: 1) |: ((x &: #0x0101010101010101) <<: 7);
  var x := x &: #0xB5B5B5B5B5B5B5B5;
  var x := x ^: (y &: #0x4040404040404040);
  var y := ((y &: #0xFEFEFEFEFEFEFEFE) >>: 1) |: ((y &: #0x0101010101010101) <<: 7);
  var x := x ^: (y &: #0x8080808080808080);
  var y := ((y &: #0xFEFEFEFEFEFEFEFE) >>: 1) |: ((y &: #0x0101010101010101) <<: 7);
  var x := x ^: (y &: #0x1616161616161616);
  var y := ((y &: #0xFEFEFEFEFEFEFEFE) >>: 1) |: ((y &: #0x0101010101010101) <<: 7);
  var x := x ^: (y &: #0xEBEBEBEBEBEBEBEB);
  var y := ((y &: #0xFEFEFEFEFEFEFEFE) >>: 1) |: ((y &: #0x0101010101010101) <<: 7);
  var x := x ^: (y &: #0x9797979797979797);
  var y := ((y &: #0xFEFEFEFEFEFEFEFE) >>: 1) |: ((y &: #0x0101010101010101) <<: 7);
  var x := x ^: (y &: #0xFBFBFBFBFBFBFBFB);
  var y := ((y &: #0xFEFEFEFEFEFEFEFE) >>: 1) |: ((y &: #0x0101010101010101) <<: 7);
  var x := x ^: (y &: #0x7D7D7D7D7D7D7D7D);
  x.

End routines.

(** The functions of the program. *)
Definition sub_u32 (w : Z) : Z := openssl_sub_u32 (O := uint_ops 32) w.
Definition sub_u64 (w : Z) : Z := openssl_sub_u64 (O := uint_ops 64) w.
Definition inv_sub_u64 (w : Z) : Z := openssl_inv_sub_u64 (O := uint_ops 64) w.

(** ** Following one byte *)

(** A byte, the mask of its unknown bits, and the mask of the positions that are
    zero in every byte of the word: a shift brings in unknown bits only from
    positions that are not in the last mask. *)
Record tri := mktri { tv : Z; td : Z; tz : Z }.

Definition tri_ops : WordOps tri := {|
  wc c := mktri (wrap 8 c) 0 (Z.ldiff 255 c);
  wand x y := mktri (Z.land (tv x) (tv y))
    (Z.land (Z.land (Z.lor (td x) (td y)) (Z.lor (td x) (tv x))) (Z.lor (td y) (tv y)))
    (Z.lor (tz x) (tz y));
  wor x y := mktri (Z.lor (tv x) (tv y))
    (Z.ldiff (Z.ldiff (Z.lor (td x) (td y)) (Z.ldiff (tv x) (td x))) (Z.ldiff (tv y) (td y)))
    (Z.land (tz x) (tz y));
  wxor x y := mktri (Z.lxor (tv x) (tv y)) (Z.lor (td x) (td y)) (Z.land (tz x) (tz y));
  wshl x n := mktri (wrap 8 (Z.shiftl (tv x) n))
    (Z.lor (wrap 8 (Z.shiftl (td x) n)) (Z.ldiff (Z.ones n) (Z.shiftr (tz x) (8 - n))))
    (Z.lor (wrap 8 (Z.shiftl (tz x) n)) (Z.shiftr (tz x) (8 - n)));
  wshr x n := mktri (Z.shiftr (tv x) n)
    (Z.lor (Z.shiftr (td x) n)
       (Z.ldiff (wrap 8 (Z.shiftl (Z.ones n) (8 - n))) (wrap 8 (Z.shiftl (tz x) (8 - n)))))
    (Z.lor (Z.shiftr (tz x) n) (wrap 8 (Z.shiftl (tz x) (8 - n))))
|}.

(** ** Soundness *)

(** The positions of [z], below 8, are zero in every byte of [x]. *)
Definition zeros (z x : Z) : Prop :=
  is_word 8 z /\
  forall k i, 0 <= k -> 0 <= i < 8 -> Z.testbit z i = true -> Z.testbit x (8 * k + i) = false.

Section sound.
Context (w k : Z) (Hk : 0 <= k) (Hw : 8 * k + 8 <= w).

(** The known bits of [a] are those of byte [k] of [x], and no bit of its value
    is outside the byte. *)
Definition tracks (x : Z) (a : tri) : Prop :=
  zeros (tz a) x /\ is_word 8 (tv a) /\
  forall i, 0 <= i < 8 -> Z.testbit (td a) i = false -> Z.testbit x (8 * k + i) = Z.testbit (tv a) i.

Lemma tracks_assign x a f g :
  tracks x a -> (forall x a, tracks x a -> tracks (f x) (g a)) ->
  tracks (assign x f) (assign a g).
Proof. intros Hx Hf. by apply Hf. Qed.

Lemma tracks_and x a y b :
  tracks x a -> tracks y b -> tracks (wand (WordOps := uint_ops w) x y) (wand (WordOps := tri_ops) a b).
Proof.
  intros ([Zx' Zx] & Bx & Hx) ([Zy' Zy] & By & Hy). split_and!; [split|..]; simpl.
  - by apply is_word_lor.
  - intros j i Hj Hi. rewrite Z.lor_spec, Z.land_spec. intros [Hz|Hz]%orb_true_iff.
    + by rewrite Zx.
    + rewrite Zy by done. apply andb_false_r.
  - by apply is_word_land.
  - intros i Hi. specialize (Hx i Hi). specialize (Hy i Hi). rewrite !Z.land_spec, !Z.lor_spec.
    destruct (Z.testbit (td a) i), (Z.testbit (td b) i), (Z.testbit (tv a) i), (Z.testbit (tv b) i);
      simpl; intros; try done; rewrite ?Hx, ?Hy by done; rewrite ?andb_false_r; done.
Qed.

Lemma zeros_both (f : bool -> bool -> bool) (g : Z -> Z -> Z) z1 z2 x y :
  f false false = false -> (forall a b n, Z.testbit (g a b) n = f (Z.testbit a n) (Z.testbit b n)) ->
  zeros z1 x -> zeros z2 y -> zeros (Z.land z1 z2) (g x y).
Proof.
  intros Hf Hg [Z1' Z1] [Z2' Z2]. split; [by apply is_word_land|].
  intros j i Hj Hi. rewrite Z.land_spec, Hg. intros [? ?]%andb_true_iff. by rewrite Z1, Z2.
Qed.

Lemma tracks_or x a y b :
  tracks x a -> tracks y b -> tracks (wor (WordOps := uint_ops w) x y) (wor (WordOps := tri_ops) a b).
Proof.
  intros (Zx & Bx & Hx) (Zy & By & Hy). split_and!; simpl.
  - by apply (zeros_both orb Z.lor); [|apply Z.lor_spec|..].
  - by apply is_word_lor.
  - intros i Hi. specialize (Hx i Hi). specialize (Hy i Hi). rewrite !Z.ldiff_spec, !Z.lor_spec.
    destruct (Z.testbit (td a) i), (Z.testbit (td b) i), (Z.testbit (tv a) i), (Z.testbit (tv b) i);
      simpl; intros; try done; rewrite ?Hx, ?Hy by done; rewrite ?orb_true_r; done.
Qed.

Lemma tracks_xor x a y b :
  tracks x a -> tracks y b -> tracks (wxor (WordOps := uint_ops w) x y) (wxor (WordOps := tri_ops) a b).
Proof.
  intros (Zx & Bx & Hx) (Zy & By & Hy). split_and!; simpl.
  - by apply (zeros_both xorb Z.lxor); [|apply Z.lxor_spec|..].
  - by apply is_word_lxor.
  - intros i Hi. rewrite !Z.lxor_spec, Z.lor_spec. intros [? ?]%orb_false_iff. by rewrite Hx, Hy.
Qed.

(** The bit that a left or right shift by [n] moves to position [i] of byte [j]. *)
Lemma shl_bit x n j i :
  0 <= n <= 8 -> 0 <= j -> 0 <= i < 8 ->
  Z.testbit (wrap w (Z.shiftl x n)) (8 * j + i) =
    (8 * j + i <? w) && Z.testbit x (if decide (n <= i) then 8 * j + (i - n) else 8 * (j - 1) + (i - n + 8)).
Proof.
  intros. rewrite wrap_spec, Z.shiftl_spec by lia. f_equal. case_decide; f_equal; lia.
Qed.

Lemma shr_bit x n j i :
  0 <= n <= 8 -> 0 <= j -> 0 <= i < 8 ->
  Z.testbit (Z.shiftr x n) (8 * j + i) =
    Z.testbit x (if decide (i + n < 8) then 8 * j + (i + n) else 8 * (j + 1) + (i + n - 8)).
Proof. intros. rewrite Z.shiftr_spec by lia. case_decide; f_equal; lia. Qed.

(** Bits of a byte shifted in either direction. *)
Lemma byte_shl z n i :
  0 <= n -> 0 <= i < 8 -> Z.testbit (wrap 8 (Z.shiftl z n)) i = Z.testbit z (i - n).
Proof.
  intros. rewrite wrap_spec, Z.shiftl_spec by lia. by rewrite (proj2 (Z.ltb_lt i 8)) by lia.
Qed.

Lemma is_word_high z i : is_word 8 z -> 8 <= i -> Z.testbit z i = false.
Proof. rewrite is_word_bits by lia. naive_solver. Qed.

Lemma tracks_shl x a n :
  (0 <=? n) && (n <=? 8) = true -> tracks x a ->
  tracks (wshl (WordOps := uint_ops w) x n) (wshl (WordOps := tri_ops) a n).
Proof.
  intros [?%Z.leb_le ?%Z.leb_le]%andb_true_iff ([Zx' Zx] & Bx & Hx). split_and!; [split|..]; simpl.
  - apply is_word_lor; [done|by apply is_word_wrap|apply is_word_shiftr; [lia..|done]].
  - intros j i Hj Hi. rewrite Z.lor_spec, byte_shl, Z.shiftr_spec, shl_bit by lia.
    intros [Hz|Hz]%orb_true_iff; apply andb_false_iff; case_decide.
    + right. apply Zx; [done|lia|done].
    + rewrite Z.testbit_neg_r in Hz by lia. done.
    + rewrite is_word_high in Hz by (done || lia). done.
    + right. destruct (decide (j = 0)) as [->|]; [rewrite Z.testbit_neg_r by lia; done|].
      apply Zx; [lia..|]. rewrite <- Hz. f_equal. lia.
  - by apply is_word_wrap.
  - intros i Hi. rewrite Z.lor_spec, Z.ldiff_spec, !byte_shl, Z.shiftr_spec, shl_bit by lia.
    rewrite (proj2 (Z.ltb_lt (8 * k + i) w)), Z.testbit_ones_nonneg by lia.
    intros [Hd Ho]%orb_false_iff. simpl. case_decide; [by apply Hx; [lia|]|].
    rewrite (proj2 (Z.ltb_lt i n)) in Ho by lia. simpl in Ho. apply negb_false_iff in Ho.
    rewrite (Z.testbit_neg_r (tv a)) by lia.
    destruct (decide (k = 0)) as [->|]; [apply Z.testbit_neg_r; lia|].
    apply Zx; [lia..|]. rewrite <- Ho. f_equal. lia.
Qed.

Lemma tracks_shr x a n :
  (0 <=? n) && (n <=? 8) = true -> tracks x a ->
  tracks (wshr (WordOps := uint_ops w) x n) (wshr (WordOps := tri_ops) a n).
Proof.
  intros [?%Z.leb_le ?%Z.leb_le]%andb_true_iff ([Zx' Zx] & Bx & Hx). split_and!; [split|..]; simpl.
  - apply is_word_lor; [done|by apply is_word_shiftr|by apply is_word_wrap].
  - intros j i Hj Hi. rewrite shr_bit, Z.lor_spec, byte_shl, Z.shiftr_spec by lia.
    intros [Hz|Hz]%orb_true_iff; case_decide.
    + apply Zx; [done|lia|done].
    + rewrite is_word_high in Hz by (done || lia). done.
    + rewrite Z.testbit_neg_r in Hz by lia. done.
    + apply Zx; [lia..|]. rewrite <- Hz. f_equal. lia.
  - by apply is_word_shiftr.
  - intros i Hi. rewrite shr_bit, Z.lor_spec, Z.ldiff_spec, !byte_shl, !Z.shiftr_spec by lia.
    intros [Hd Ho]%orb_false_iff. case_decide; [by apply Hx; [lia|]|].
    rewrite Z.testbit_ones_nonneg, (proj2 (Z.ltb_lt _ n)) in Ho by lia.
    simpl in Ho. apply negb_false_iff in Ho. rewrite (is_word_high (tv a)) by (done || lia).
    apply Zx; [lia..|]. rewrite <- Ho. f_equal. lia.
Qed.

(** The constants of the routines repeat one byte, up to their last byte. *)
Definition repeats (ks : list Z) (c : Z) : bool :=
  (0 <=? c) && (c <? 2 ^ 64) && forallb (fun k => byte k c =? wrap 8 c) ks &&
  forallb (fun k => (byte k c =? wrap 8 c) || (byte k c =? 0)) [0; 1; 2; 3; 4; 5; 6; 7].

Lemma tracks_const ks c :
  In k ks -> repeats ks c = true ->
  tracks (wc (WordOps := uint_ops w) c) (wc (WordOps := tri_ops) c).
Proof.
  intros Hin Hc. unfold repeats in Hc. rewrite !andb_true_iff, !forallb_forall in Hc.
  destruct Hc as [[[Hc0%Z.leb_le Hc1%Z.ltb_lt] Hsame] Hall].
  split_and!; [split|..]; cbn [tz tv td wc tri_ops uint_ops].
  - apply (is_word_bits 8); [done|]. split; [apply Z.ldiff_nonneg; by left|].
    intros n Hn. rewrite Z.ldiff_spec, (is_word_high 255) by (done || lia). done.
  - intros j i Hj Hi. rewrite Z.ldiff_spec. intros [_ Hz%negb_true_iff]%andb_true_iff.
    rewrite <- byte_spec by done. destruct (decide (j < 8)).
    + assert (In j [0; 1; 2; 3; 4; 5; 6; 7]) as Hj' by (simpl; lia).
      specialize (Hall j Hj'). apply orb_true_iff in Hall as [E%Z.eqb_eq|E%Z.eqb_eq]; rewrite E.
      * rewrite wrap_spec by lia. rewrite Hz. apply andb_false_r.
      * apply Z.bits_0.
    + rewrite byte_spec by done. assert (is_word 64 c) as Hcw by done.
      apply is_word_bits in Hcw; [|done]. apply Hcw. lia.
  - by apply is_word_wrap.
  - intros i Hi _. specialize (Hsame k Hin). apply Z.eqb_eq in Hsame.
    by rewrite <- Hsame, byte_spec.
Qed.

Lemma tracks_byte x : tracks x (mktri (byte k x) 0 0).
Proof.
  split_and!; [split; [done|]|apply is_word_byte|]; simpl.
  - intros ? ? _ _. by rewrite Z.bits_0.
  - intros i Hi _. by rewrite byte_spec.
Qed.

(** A result without unknown bits is the byte. *)
Lemma tracks_result x a : tracks x a -> td a = 0 -> byte k x = tv a.
Proof.
  intros (_ & Ha & Hx) Hd. apply byte_ext; [done..|]. intros i Hi. apply Hx; [done|].
  by rewrite Hd, Z.bits_0.
Qed.
End sound.

(** Walk through the statements of a routine on both sides; the side conditions
    on shifts and constants are booleans, decided by evaluation. *)
Ltac track_expr :=
  lazymatch goal with
  | |- tracks _ (wand _ _) _ => apply tracks_and; track_expr
  | |- tracks _ (wor _ _) _ => apply tracks_or; track_expr
  | |- tracks _ (wxor _ _) _ => apply tracks_xor; track_expr
  | |- tracks _ (wshl _ _) _ => apply tracks_shl; [eassumption|eassumption|reflexivity|track_expr]
  | |- tracks _ (wshr _ _) _ => apply tracks_shr; [eassumption|reflexivity|track_expr]
  | |- tracks _ (wc _) _ => eapply tracks_const; [eassumption|eassumption|reflexivity]
  | _ => assumption
  end.
Ltac track_step :=
  lazymatch goal with
  | |- tracks _ (assign _ _) (assign _ _) => apply tracks_assign; [track_expr|cbv beta; intros ? ? ?]
  end.

#[local] Opaque uint_ops tri_ops assign.

Lemma sub_u32_sound k x a :
  In k [0; 1; 2; 3] -> tracks k x a -> tracks k (sub_u32 x) (openssl_sub_u32 (O := tri_ops) a).
Proof.
  intros Hk Hx. assert (0 <= k /\ 8 * k + 8 <= 32) as [? ?] by (simpl in Hk; lia).
  unfold sub_u32, openssl_sub_u32. repeat track_step. assumption.
Qed.

Lemma sub_u64_sound k x a :
  In k [0; 1; 2; 3; 4; 5; 6; 7] -> tracks k x a ->
  tracks k (sub_u64 x) (openssl_sub_u64 (O := tri_ops) a).
Proof.
  intros Hk Hx. assert (0 <= k /\ 8 * k + 8 <= 64) as [? ?] by (simpl in Hk; lia).
  unfold sub_u64, openssl_sub_u64. repeat track_step. assumption.
Qed.

Lemma inv_sub_u64_sound k x a :
  In k [0; 1; 2; 3; 4; 5; 6; 7] -> tracks k x a ->
  tracks k (inv_sub_u64 x) (openssl_inv_sub_u64 (O := tri_ops) a).
Proof.
  intros Hk Hx. assert (0 <= k /\ 8 * k + 8 <= 64) as [? ?] by (simpl in Hk; lia).
  unfold inv_sub_u64, openssl_inv_sub_u64. repeat track_step. assumption.
Qed.
#[local] Transparent uint_ops tri_ops assign.

(** ** The results are words *)
Lemma assign_word w x (f : Z -> Z) :
  is_word w x -> (forall x, is_word w x -> is_word w (f x)) -> is_word w (assign x f).
Proof. intros Hx Hf. by apply Hf. Qed.

Lemma is_word_land_l w x y : 0 <= w -> is_word w x -> is_word w (Z.land x y).
Proof. intros. rewrite Z.land_comm. by apply is_word_land. Qed.

#[local] Opaque assign.
Lemma sub_u32_word x : is_word 32 x -> is_word 32 (sub_u32 x).
Proof.
  intros Hx. unfold sub_u32, openssl_sub_u32, uint_ops.
  cbn [wc wand wor wxor wshl wshr].
  repeat (apply assign_word;
    [ repeat first [ assumption | apply is_word_lxor | apply is_word_lor | apply is_word_land_l
                   | apply is_word_wrap | apply is_word_shiftr | discriminate | by split ]
    | cbv beta; intros ? ? ]).
  assumption.
Qed.
#[local] Transparent assign.

(** ** The routines are the S-boxes *)

(** [f] computes [t] on a byte, without unknown bits. *)
Definition computes (f : tri -> tri) (t : Z -> Z) (b : Z) : bool :=
  let r := f (mktri b 0 0) in (tv r =? t b) && (td r =? 0).

Lemma computes_byte (f : tri -> tri) t g k x :
  0 <= k -> (forall b, is_word 8 b -> computes f t b = true) ->
  (forall a, tracks k x a -> tracks k (g x) (f a)) -> byte k (g x) = t (byte k x).
Proof.
  intros Hk Hf Hg. specialize (Hf (byte k x) (is_word_byte k x)). unfold computes in Hf.
  apply andb_true_iff in Hf as [Ht%Z.eqb_eq Hd%Z.eqb_eq].
  rewrite <- Ht. apply tracks_result; [done| |done]. by apply Hg, tracks_byte.
Qed.

Lemma sub_u32_computes b : is_word 8 b -> computes (openssl_sub_u32 (O := tri_ops)) sbox b = true.
Proof. apply byte_forallb. by vm_compute. Qed.

Lemma sub_u64_computes b : is_word 8 b -> computes (openssl_sub_u64 (O := tri_ops)) sbox b = true.
Proof. apply byte_forallb. by vm_compute. Qed.

Lemma inv_sub_u64_computes b :
  is_word 8 b -> computes (openssl_inv_sub_u64 (O := tri_ops)) inv_sbox b = true.
Proof. apply byte_forallb. by vm_compute. Qed.

#[local] Opaque openssl_sub_u32 openssl_sub_u64 openssl_inv_sub_u64 sbox inv_sbox.
#[local] Opaque sub_u32 sub_u64 inv_sub_u64.

Lemma in_seq_Z k n : (k < n)%nat -> In (Z.of_nat k) (Z.of_nat <$> seq 0 n).
Proof. intros Hk. apply in_map, in_seq. lia. Qed.

Lemma sub_u32_bytes x : le_bytes 4 (sub_u32 x) = sbox <$> le_bytes 4 x.
Proof.
  rewrite !le_bytes_byte, <- list_fmap_compose. apply list_fmap_ext. intros i k Hk. simpl.
  apply lookup_seq in Hk as [-> Hi]. simpl.
  apply (computes_byte (openssl_sub_u32 (O := tri_ops))); [lia|apply sub_u32_computes|].
  intros a. apply sub_u32_sound, (in_seq_Z i 4), Hi.
Qed.

Lemma sub_u64_bytes x : le_bytes 8 (sub_u64 x) = sbox <$> le_bytes 8 x.
Proof.
  rewrite !le_bytes_byte, <- list_fmap_compose. apply list_fmap_ext. intros i k Hk. simpl.
  apply lookup_seq in Hk as [-> Hi]. simpl.
  apply (computes_byte (openssl_sub_u64 (O := tri_ops))); [lia|apply sub_u64_computes|].
  intros a. apply sub_u64_sound, (in_seq_Z i 8), Hi.
Qed.

Lemma inv_sub_u64_bytes x : le_bytes 8 (inv_sub_u64 x) = inv_sbox <$> le_bytes 8 x.
Proof.
  rewrite !le_bytes_byte, <- list_fmap_compose. apply list_fmap_ext. intros i k Hk. simpl.
  apply lookup_seq in Hk as [-> Hi]. simpl.
  apply (computes_byte (openssl_inv_sub_u64 (O := tri_ops))); [lia|apply inv_sub_u64_computes|].
  intros a. apply inv_sub_u64_sound, (in_seq_Z i 8), Hi.
Qed.

End OpensslAesSub.
