(* ===== verification/OpensslAes.v ===== *)
(** muggle/c/crypt/openssl/openssl_aes.c: the AES the library is built with, a
    constant-time implementation on 64-bit words.  The file models every function
    of the source (the substitutions are in OpensslAesSub.v) and shows that the
    cipher and the inverse cipher compute the same function as internal_aes.c,
    the implementation in the terms of FIPS 197.

    A block is 16 bytes in memory, and [uint64_t state[2]] a view of them on a
    little-endian machine.  The state of internal_aes.c is the transposed block
    ([transpose]), and its key words are the big-endian readings of the same
    bytes ([bswap]). *)

From Stdlib Require Import ZArith Lia.
From stdpp Require Import base list numbers.
From S2P Require Import Prelude BaseUtils Bits CryptUtils InternalAes OpensslAesSub.
Import InternalAes OpensslAesSub.

Open Scope Z_scope.

Module OpensslAes.

(** ** The round functions *)
Definition openssl_xtime_u32 (w : Z) : Z :=
  let a := w in
  let b := Z.land a 0x80808080 in
  let a := Z.lxor a b in
  let b := u32 (b - Z.shiftr b 7) in
  let b := Z.land b 0x1B1B1B1B in
  Z.lxor b (u32 (Z.shiftl a 1)).

Definition openssl_xtime_u64 (w : Z) : Z :=
  let a := w in
  let b := Z.land a 0x8080808080808080 in
  let a := Z.lxor a b in
  let b := u64 (b - Z.shiftr b 7) in
  let b := Z.land b 0x1B1B1B1B1B1B1B1B in
  Z.lxor b (u64 (Z.shiftl a 1)).

(** [uint64_t state[2]] and its bytes. *)
Definition state_t : Type := Z * Z.

Definition state_bytes (state : state_t) : list Z := le_bytes 8 state.1 ++ le_bytes 8 state.2.
Definition state_of_bytes (bs : list Z) : state_t :=
  (le_word (take 8 bs), le_word (take 8 (drop 8 bs))).

Definition shift_row_step (s0 : list Z) (r : nat) : list Z :=
  let s := [nth (0 * 4 + r) s0 0; nth (1 * 4 + r) s0 0; nth (2 * 4 + r) s0 0; nth (3 * 4 + r) s0 0] in
  let s0 := <[(0 * 4 + r)%nat := nth ((r + 0) mod 4) s 0]> s0 in
  let s0 := <[(1 * 4 + r)%nat := nth ((r + 1) mod 4) s 0]> s0 in
  let s0 := <[(2 * 4 + r)%nat := nth ((r + 2) mod 4) s 0]> s0 in
  <[(3 * 4 + r)%nat := nth ((r + 3) mod 4) s 0]> s0.

Definition openssl_shift_row (state : state_t) : state_t :=
  state_of_bytes (fold_left shift_row_step (seq 0 4) (state_bytes state)).

Definition inv_shift_row_step (s0 : list Z) (r : nat) : list Z :=
  let s := [nth (0 * 4 + r) s0 0; nth (1 * 4 + r) s0 0; nth (2 * 4 + r) s0 0; nth (3 * 4 + r) s0 0] in
  let s0 := <[(0 * 4 + r)%nat := nth ((4 - r) mod 4) s 0]> s0 in
  let s0 := <[(1 * 4 + r)%nat := nth ((5 - r) mod 4) s 0]> s0 in
  let s0 := <[(2 * 4 + r)%nat := nth ((6 - r) mod 4) s 0]> s0 in
  <[(3 * 4 + r)%nat := nth ((7 - r) mod 4) s 0]> s0.

Definition openssl_inv_shift_row (state : state_t) : state_t :=
  state_of_bytes (fold_left inv_shift_row_step (seq 0 4) (state_bytes state)).

(** The two half-word exchanges of the column functions. *)
Definition swap16 (d : Z) : Z :=
  Z.lor (Z.shiftr (Z.land d 0xFFFF0000FFFF0000) 16) (u64 (Z.shiftl (Z.land d 0x0000FFFF0000FFFF) 16)).
Definition swap8 (d : Z) : Z :=
  Z.lor (Z.shiftr (Z.land d 0xFF00FF00FF00FF00) 8) (u64 (Z.shiftl (Z.land d 0x00FF00FF00FF00FF) 8)).

(** [s.b[i] ^= s1.b[next of i]], next in the column of four bytes. *)
Definition xor_next (s s1 : Z) : Z :=
  let b := le_bytes 8 s1 in
  let x i j := Z.lxor (nth i (le_bytes 8 s) 0) (nth j b 0) in
  le_word [x 0 1; x 1 2; x 2 3; x 3 0; x 4 5; x 5 6; x 6 7; x 7 4]%nat.

(** One iteration of the loop of mix_columns. *)
Definition mix_columns_word (d : Z) : Z :=
  let s1 := d in
  let s := s1 in
  let s := Z.lxor s (swap16 s) in
  let s := Z.lxor s (swap8 s) in
  let s := Z.lxor s s1 in
  let s1 := openssl_xtime_u64 s1 in
  let s := Z.lxor s s1 in
  xor_next s s1.

Definition openssl_mix_columns (state : state_t) : state_t :=
  (mix_columns_word state.1, mix_columns_word state.2).

Definition inv_mix_columns_word (d : Z) : Z :=
  let s1 := d in
  let s := s1 in
  let s := Z.lxor s (swap16 s) in
  let s := Z.lxor s (swap8 s) in
  let s := Z.lxor s s1 in
  let s1 := openssl_xtime_u64 s1 in
  let s := Z.lxor s s1 in
  let s := xor_next s s1 in
  let s1 := openssl_xtime_u64 s1 in
  let s1 := Z.lxor s1 (swap16 s1) in
  let s := Z.lxor s s1 in
  let s1 := openssl_xtime_u64 s1 in
  let s1 := Z.lxor s1 (swap8 s1) in
  Z.lxor s s1.

Definition openssl_inv_mix_columns (state : state_t) : state_t :=
  (inv_mix_columns_word state.1, inv_mix_columns_word state.2).

Definition openssl_add_round_key (state : state_t) (w : list Z) : state_t :=
  (Z.lxor state.1 (nth 0 w 0), Z.lxor state.2 (nth 1 w 0)).

(** ** The cipher

    [w] are the 64-bit words of the key schedule; [w + i*2] stays inside it for
    the numbers of rounds of a schedule. *)
Definition sub_state (state : state_t) : state_t := (sub_u64 state.1, sub_u64 state.2).
Definition inv_sub_state (state : state_t) : state_t := (inv_sub_u64 state.1, inv_sub_u64 state.2).

Definition cipher_round (w : list Z) (state : state_t) (i : nat) : state_t :=
  let state := sub_state state in
  let state := openssl_shift_row state in
  let state := openssl_mix_columns state in
  openssl_add_round_key state (drop (i * 2) w).

Definition openssl_cipher (inp : list Z) (w : list Z) (nr : Z) : list Z :=
  let state := state_of_bytes inp in
  let state := openssl_add_round_key state w in
  let state := fold_left (cipher_round w) (seq 1 (Z.to_nat (nr - 1))) state in
  let state := sub_state state in
  let state := openssl_shift_row state in
  let state := openssl_add_round_key state (drop (Z.to_nat nr * 2) w) in
  state_bytes state.

Definition inv_cipher_round (w : list Z) (state : state_t) (i : nat) : state_t :=
  let state := openssl_inv_shift_row state in
  let state := inv_sub_state state in
  let state := openssl_add_round_key state (drop (i * 2) w) in
  openssl_inv_mix_columns state.

Definition openssl_inv_cipher (inp : list Z) (w : list Z) (nr : Z) : list Z :=
  let state := state_of_bytes inp in
  let state := openssl_add_round_key state (drop (Z.to_nat nr * 2) w) in
  let state := fold_left (inv_cipher_round w) (rev (seq 1 (Z.to_nat (nr - 1)))) state in
  let state := openssl_inv_shift_row state in
  let state := inv_sub_state state in
  let state := openssl_add_round_key state w in
  state_bytes state.

(** ** The key schedule *)
Definition openssl_rot_word (x : Z) : Z :=
  match le_bytes 4 x with
  | [w0; w1; w2; w3] => le_word [w1; w2; w3; w0]
  | _ => 0
  end.

(** The halves of [openssl_uni]. *)
Definition uni_w0 (d : Z) : Z := d mod 2 ^ 32.
Definition uni_w1 (d : Z) : Z := d / 2 ^ 32.
Definition uni_of (w0 w1 : Z) : Z := w0 + 2 ^ 32 * w1.

(** One iteration; the state is the schedule, [prev] and [rcon]. *)
Definition key_expansion_step (nk n : nat) (st : list Z * Z * Z) (i : nat) : list Z * Z * Z :=
  let '(w, prev, rcon) := st in
  let temp := uni_w1 prev in
  let '(temp, rcon) :=
    if (i mod n =? 0)%nat then
      let temp := openssl_rot_word temp in
      let temp := sub_u32 temp in
      let temp := Z.lxor temp rcon in
      (temp, openssl_xtime_u32 rcon)
    else if (6 <? nk)%nat && (i mod n =? 2)%nat then (sub_u32 temp, rcon)
    else (temp, rcon) in
  let prev := nth (i - n) w 0 in
  let prev := uni_of (Z.lxor (uni_w0 prev) temp) (uni_w1 prev) in
  let prev := uni_of (uni_w0 prev) (Z.lxor (uni_w1 prev) (uni_w0 prev)) in
  (<[i := prev]> w, prev, rcon).

(** The first [n] words of the schedule are the bytes of the key. *)
Fixpoint key_words (n : nat) (key : list Z) : list Z :=
  match n with
  | O => []
  | S n => le_word (take 8 key) :: key_words n (drop 8 key)
  end.

Definition openssl_key_expansion (key : list Z) (w : list Z) (nr nk : nat) : list Z :=
  let n := (nk / 2)%nat in
  let w := overwrite 0 (key_words n key) w in
  let prev := nth (n - 1) w 0 in
  let '(w, _, _) := fold_left (key_expansion_step nk n) (seq n ((nr + 1) * 2 - n)) (w, prev, 1) in
  w.

(** [(uint64_t* )sk->rd_key] and back. *)
Fixpoint u64_view (l : list Z) : list Z :=
  match l with
  | a :: b :: l => uni_of a b :: u64_view l
  | _ => []
  end.
Definition u32_view (l : list Z) : list Z := l ≫= (fun d => [uni_w0 d; uni_w1 d]).

Definition muggle_openssl_aes_set_key (key : list Z) (bits : Z) (sk : muggle_aes_sub_keys)
  : Z * muggle_aes_sub_keys :=
  let expand rounds nk :=
    (0, mksk (u32_view (openssl_key_expansion key (u64_view (rd_key sk)) (Z.to_nat rounds) nk)) rounds) in
  if bits =? 128 then expand 10 (Z.to_nat (bits / 32))
  else if bits =? 192 then expand 12 (Z.to_nat (bits / 32))
  else if bits =? 256 then expand 14 (Z.to_nat (bits / 32))
  else (MUGGLE_ERR_CRYPT_KEY_SIZE, sk).

Definition muggle_openssl_aes_encrypt (inp : list Z) (sk : muggle_aes_sub_keys) : list Z :=
  openssl_cipher inp (u64_view (rd_key sk)) (rounds sk).
Definition muggle_openssl_aes_decrypt (inp : list Z) (sk : muggle_aes_sub_keys) : list Z :=
  openssl_inv_cipher inp (u64_view (rd_key sk)) (rounds sk).

(** FIPS 197, appendix B. *)
Example openssl_aes_vector :
  let key := [0x2b; 0x7e; 0x15; 0x16; 0x28; 0xae; 0xd2; 0xa6; 0xab; 0xf7; 0x15; 0x88; 0x09; 0xcf; 0x4f; 0x3c] in
  let plain := [0x32; 0x43; 0xf6; 0xa8; 0x88; 0x5a; 0x30; 0x8d; 0x31; 0x31; 0x98; 0xa2; 0xe0; 0x37; 0x07; 0x34] in
  let (r, sk) := muggle_openssl_aes_set_key key 128 (mksk (replicate 60 0) 0) in
  let c := muggle_openssl_aes_encrypt plain sk in
  r = 0 /\
  c = [0x39; 0x25; 0x84; 0x1d; 0x02; 0xdc; 0x09; 0xfb; 0xdc; 0x11; 0x85; 0x97; 0x19; 0x6a; 0x0b; 0x32] /\
  muggle_openssl_aes_decrypt c sk = plain.
Proof. vm_compute. done. Qed.

(** ** The bytes of a word *)
Lemma le_bytes_8 d :
  le_bytes 8 d = [byte 0 d; byte 1 d; byte 2 d; byte 3 d; byte 4 d; byte 5 d; byte 6 d; byte 7 d].
Proof. rewrite le_bytes_byte. done. Qed.

Lemma byte_land k x y : 0 <= k -> byte k (Z.land x y) = Z.land (byte k x) (byte k y).
Proof.
  intros Hk. apply byte_ext; [done|apply is_word_land; auto using is_word_byte; done|].
  intros i Hi. by rewrite !Z.land_spec, !byte_spec by done.
Qed.

Lemma byte_lor k x y : 0 <= k -> byte k (Z.lor x y) = Z.lor (byte k x) (byte k y).
Proof.
  intros Hk. apply byte_ext; [done|apply is_word_lor; auto using is_word_byte; done|].
  intros i Hi. by rewrite !Z.lor_spec, !byte_spec by done.
Qed.

Lemma byte_wrap k w x : 0 <= k -> 8 * k + 8 <= w -> byte k (wrap w x) = byte k x.
Proof.
  intros Hk Hw. apply byte_ext; [done|apply is_word_byte|]. intros i Hi.
  rewrite wrap_spec, byte_spec by lia. by rewrite (proj2 (Z.ltb_lt (8 * k + i) w)) by lia.
Qed.

(** Shifts by whole bytes. *)
Lemma byte_shiftr k m x : 0 <= k -> 0 <= m -> byte k (Z.shiftr x (8 * m)) = byte (k + m) x.
Proof.
  intros Hk Hm. apply byte_ext; [done|apply is_word_byte|]. intros i Hi.
  rewrite Z.shiftr_spec, byte_spec by lia. f_equal. lia.
Qed.

Lemma byte_shiftl k m x : 0 <= k -> m <= k -> 0 <= m -> byte k (Z.shiftl x (8 * m)) = byte (k - m) x.
Proof.
  intros Hk Hkm Hm. apply byte_ext; [done|apply is_word_byte|]. intros i Hi.
  rewrite Z.shiftl_spec, byte_spec by lia. f_equal. lia.
Qed.

Lemma byte_shiftl_low k m x : 0 <= k < m -> byte k (Z.shiftl x (8 * m)) = 0.
Proof.
  intros Hk. apply byte_ext; [lia|done|]. intros i Hi.
  rewrite Z.shiftl_spec, Z.bits_0 by lia. apply Z.testbit_neg_r. lia.
Qed.

Lemma byte_le_word bs k x : is_bytes bs -> bs !! k = Some x -> byte (Z.of_nat k) (le_word bs) = x.
Proof.
  intros Hb Hx. pose proof (le_bytes_word _ bs eq_refl Hb) as E. rewrite le_bytes_byte in E.
  pose proof (lookup_lt_Some _ _ _ Hx) as Hk. rewrite <- E, list_lookup_fmap, lookup_seq_lt in Hx by done.
  simpl in Hx. congruence.
Qed.

(** Words are equal when their bytes are. *)
Lemma word_byte_ext n x y :
  is_word (8 * Z.of_nat n) x -> is_word (8 * Z.of_nat n) y ->
  (forall k, (k < n)%nat -> byte (Z.of_nat k) x = byte (Z.of_nat k) y) -> x = y.
Proof.
  unfold is_word. rewrite (Z.pow_mul_r 2 8) by lia. change (2 ^ 8) with 256. intros Hx Hy H.
  rewrite <- (le_word_bytes n x), <- (le_word_bytes n y), !le_bytes_byte by done. f_equal.
  apply list_fmap_ext. intros i k [-> Hi]%lookup_seq. by apply H.
Qed.

(** A shift by one bit that nothing enters from the byte below. *)
Lemma byte_double k y :
  0 <= k -> (k <> 0 -> Z.testbit (byte (k - 1) y) 7 = false) ->
  byte k (Z.shiftl y 1) = u8 (Z.shiftl (byte k y) 1).
Proof.
  intros Hk Htop. apply byte_ext; [done|by apply is_word_wrap|]. intros i Hi.
  rewrite wrap_spec, !Z.shiftl_spec by lia. rewrite (proj2 (Z.ltb_lt i 8)) by lia. cbn [andb].
  destruct (decide (i = 0)) as [->|].
  - rewrite (Z.testbit_neg_r (byte k y)) by lia. destruct (decide (k = 0)) as [->|].
    + apply Z.testbit_neg_r. lia.
    + rewrite <- (Htop ltac:(done)), byte_spec by lia. f_equal. lia.
  - rewrite byte_spec by lia. f_equal. lia.
Qed.

(** ** Doubling every byte *)

(** A byte without its top bit, as the source clears it. *)
Definition clear_top (b : Z) : Z := Z.lxor b (128 * (b / 128)).

Section xtime.
Context (n : nat) (a : Z).

(** The top bits of the bytes. *)
Definition top_bits : list Z := (fun k => byte (Z.of_nat k) a / 128) <$> seq 0 n.

Lemma le_word_mul m cs : m * le_word cs = le_word (Z.mul m <$> cs).
Proof. induction cs as [|c cs IH]; csimpl; [lia|]. rewrite <- IH. lia. Qed.

Lemma top_bits_bytes m : 0 <= m < 256 -> is_bytes (Z.mul m <$> top_bits).
Proof.
  intros Hm. unfold top_bits. rewrite <- list_fmap_compose. apply Forall_fmap, Forall_lookup.
  intros i j _. simpl. pose proof (is_word_byte (Z.of_nat j) a) as [? ?]. change (2 ^ 8) with 256 in *.
  assert (0 <= byte (Z.of_nat j) a / 128 <= 1).
  { split; [apply Z.div_pos; lia|]. apply Z.lt_succ_r, Z.div_lt_upper_bound; lia. }
  unfold is_word. change (2 ^ 8) with 256. nia.
Qed.

Lemma byte_top m k :
  0 <= m < 256 -> (k < n)%nat -> byte (Z.of_nat k) (m * le_word top_bits) = m * (byte (Z.of_nat k) a / 128).
Proof.
  intros Hm Hk. rewrite le_word_mul. apply byte_le_word; [by apply top_bits_bytes|].
  unfold top_bits. rewrite !list_lookup_fmap, lookup_seq_lt by done. done.
Qed.

Lemma top_word m : 0 <= m < 256 -> is_word (8 * Z.of_nat n) (m * le_word top_bits).
Proof.
  intros Hm. pose proof (le_word_range _ (top_bits_bytes m Hm)) as Hr.
  unfold is_word. rewrite (Z.pow_mul_r 2 8), le_word_mul by lia.
  unfold zlen, top_bits in *. by rewrite !length_fmap, length_seq in Hr.
Qed.

(** [m80] and [m1b] repeat the bytes 0x80 and 0x1b. *)
Context (m80 m1b : Z).
Context (H80 : forall k, (k < n)%nat -> byte (Z.of_nat k) m80 = 0x80).
Context (H1b : forall k, (k < n)%nat -> byte (Z.of_nat k) m1b = 0x1b).
Context (Hw80 : is_word (8 * Z.of_nat n) m80).

Lemma land_top : Z.land a m80 = 128 * le_word top_bits.
Proof.
  apply (word_byte_ext n); [apply is_word_land; [lia|done]|by apply top_word|].
  intros k Hk. rewrite byte_land, H80, byte_top by (done || lia). apply Z.eqb_eq.
  generalize (byte (Z.of_nat k) a), (is_word_byte (Z.of_nat k) a). apply byte_forallb. by vm_compute.
Qed.

(** The statements of [openssl_xtime_u32] and [openssl_xtime_u64]. *)
Lemma xtime_bytes k :
  (k < n)%nat ->
  byte (Z.of_nat k)
    (let b := Z.land a m80 in
     let a := Z.lxor a b in
     let b := wrap (8 * Z.of_nat n) (b - Z.shiftr b 7) in
     let b := Z.land b m1b in
     Z.lxor b (wrap (8 * Z.of_nat n) (Z.shiftl a 1))) = galois_mul 2 (byte (Z.of_nat k) a).
Proof.
  intros Hk. cbv zeta. rewrite land_top.
  assert (Z.shiftr (128 * le_word top_bits) 7 = le_word top_bits) as ->.
  { rewrite Z.shiftr_div_pow2, Z.mul_comm by lia. by apply Z.div_mul. }
  replace (128 * le_word top_bits - le_word top_bits) with (127 * le_word top_bits) by lia.
  rewrite byte_lxor, byte_land, !byte_wrap, H1b, byte_top by (done || lia).
  assert (forall j, (j < n)%nat ->
    byte (Z.of_nat j) (Z.lxor a (128 * le_word top_bits)) = clear_top (byte (Z.of_nat j) a)) as Hc.
  { intros j Hj. unfold clear_top. by rewrite byte_lxor, byte_top by (done || lia). }
  rewrite byte_double, Hc; [|done|lia|].
  - apply Z.eqb_eq. generalize (byte (Z.of_nat k) a), (is_word_byte (Z.of_nat k) a).
    apply byte_forallb. by vm_compute.
  - intros Hk0. replace (Z.of_nat k - 1) with (Z.of_nat (k - 1)) by lia. rewrite Hc by lia.
    apply negb_true_iff. generalize (byte (Z.of_nat (k - 1)) a), (is_word_byte (Z.of_nat (k - 1)) a).
    apply byte_forallb. by vm_compute.
Qed.
End xtime.

Lemma in_range_bytes (n : nat) (f : Z -> bool) :
  forallb f (Z.of_nat <$> seq 0 n) = true -> forall k, 0 <= k < Z.of_nat n -> f k = true.
Proof.
  intros H k Hk. rewrite forallb_forall in H. apply H.
  rewrite <- (Z2Nat.id k) by lia. apply in_seq_Z. lia.
Qed.

Lemma xtime_u64_byte k x : 0 <= k < 8 -> byte k (openssl_xtime_u64 x) = galois_mul 2 (byte k x).
Proof.
  intros Hk. rewrite <- (Z2Nat.id k) by lia.
  apply (xtime_bytes 8 x 0x8080808080808080 0x1B1B1B1B1B1B1B1B); [..|done|lia];
    intros j Hj; apply Z.eqb_eq; revert j Hj;
    (enough (forall j, 0 <= j < Z.of_nat 8 -> (byte j _ =? _) = true) as H by (intros j Hj; apply H; lia));
    by apply in_range_bytes.
Qed.

Lemma xtime_u32_byte k x : 0 <= k < 4 -> byte k (openssl_xtime_u32 x) = galois_mul 2 (byte k x).
Proof.
  intros Hk. rewrite <- (Z2Nat.id k) by lia.
  apply (xtime_bytes 4 x 0x80808080 0x1B1B1B1B); [..|done|lia];
    intros j Hj; apply Z.eqb_eq; revert j Hj;
    (enough (forall j, 0 <= j < Z.of_nat 4 -> (byte j _ =? _) = true) as H by (intros j Hj; apply H; lia));
    by apply in_range_bytes.
Qed.

(** ** Exchanging bytes *)

(** Cases of a byte position. *)
Ltac byte_cases k H :=
  let E := fresh in
  assert (k = 0 \/ k = 1 \/ k = 2 \/ k = 3 \/ k = 4 \/ k = 5 \/ k = 6 \/ k = 7) as E by lia;
  clear H; destruct E as [->|[->|[->|[->|[->|[->|[->| ->]]]]]]].

(** [(d & hi) >> (8 * m) | (d & lo) << (8 * m)], where [lo] selects the bytes
    that move up and [hi] those that move down. *)
Lemma swap_bytes hi lo m d k :
  0 <= k -> 0 <= m -> 8 * k + 8 <= 64 ->
  byte k (Z.lor (Z.shiftr (Z.land d hi) (8 * m)) (u64 (Z.shiftl (Z.land d lo) (8 * m)))) =
  Z.lor (Z.land (byte (k + m) d) (byte (k + m) hi))
        (if decide (m <= k) then Z.land (byte (k - m) d) (byte (k - m) lo) else 0).
Proof.
  intros. rewrite byte_lor, byte_wrap, byte_shiftr, byte_land by lia. f_equal.
  case_decide; [rewrite byte_shiftl, byte_land by lia; done|]. apply byte_shiftl_low. lia.
Qed.

Lemma land_ff b : is_word 8 b -> Z.land b 255 = b.
Proof. intros [? ?]. change 255 with (Z.ones 8). rewrite Z.land_ones by lia. by apply Z.mod_small. Qed.

(** One byte after another: the bytes of the masks are 0 or 255. *)
Ltac swap_cases k Hk :=
  byte_cases k Hk;
  repeat match goal with |- context [byte ?j ?c] =>
    lazymatch c with Z.pos _ => let v := eval vm_compute in (byte j c) in change (byte j c) with v end end;
  destruct (decide _); try lia; rewrite ?Z.land_0_r, ?Z.lor_0_r, ?Z.lor_0_l;
  apply land_ff, is_word_byte.

Lemma byte_swap16 k d : 0 <= k < 8 -> byte k (swap16 d) = byte (Z.lxor k 2) d.
Proof.
  intros Hk. unfold swap16. change 16 with (8 * 2). rewrite swap_bytes by lia.
  swap_cases k Hk.
Qed.

Lemma byte_swap8 k d : 0 <= k < 8 -> byte k (swap8 d) = byte (Z.lxor k 1) d.
Proof.
  intros Hk. unfold swap8. change (Z.shiftr ?x 8) with (Z.shiftr x (8 * 1)).
  change (Z.shiftl ?x 8) with (Z.shiftl x (8 * 1)). rewrite swap_bytes by lia.
  swap_cases k Hk.
Qed.

(** The next byte of a column. *)
Definition next (k : Z) : Z := if k mod 4 =? 3 then k - 3 else k + 1.

Lemma byte_xor_next k s s1 :
  0 <= k < 8 -> byte k (xor_next s s1) = Z.lxor (byte k s) (byte (next k) s1).
Proof.
  intros Hk. unfold xor_next. rewrite !le_bytes_8. cbn [nth].
  assert (is_bytes [Z.lxor (byte 0 s) (byte 1 s1); Z.lxor (byte 1 s) (byte 2 s1);
    Z.lxor (byte 2 s) (byte 3 s1); Z.lxor (byte 3 s) (byte 0 s1); Z.lxor (byte 4 s) (byte 5 s1);
    Z.lxor (byte 5 s) (byte 6 s1); Z.lxor (byte 6 s) (byte 7 s1); Z.lxor (byte 7 s) (byte 4 s1)]) as Hb
    by (bytes_auto; apply is_word_lxor; auto using is_word_byte; done).
  rewrite <- (Z2Nat.id k) at 1 by lia.
  apply byte_le_word; [done|]. byte_cases k Hk; done.
Qed.

(** ** Columns *)
Lemma galois_mul_small b :
  is_word 8 b -> galois_mul 1 b = b /\ galois_mul 3 b = Z.lxor (galois_mul 2 b) b.
Proof.
  intros Hb. split; apply Z.eqb_eq; revert b Hb; apply byte_forallb; by vm_compute.
Qed.

(** The coefficients of the inverse matrix through doubling. *)
Lemma galois_mul_inv b :
  is_word 8 b ->
  let x2 := galois_mul 2 b in let x4 := galois_mul 2 x2 in let x8 := galois_mul 2 x4 in
  galois_mul 9 b = Z.lxor x8 b /\ galois_mul 11 b = Z.lxor (Z.lxor x8 x2) b /\
  galois_mul 13 b = Z.lxor (Z.lxor x8 x4) b /\ galois_mul 14 b = Z.lxor (Z.lxor x8 x4) x2.
Proof.
  intros Hb. split_and!; apply Z.eqb_eq; revert b Hb; apply byte_forallb; by vm_compute.
Qed.

#[local] Opaque galois_mul byte swap16 swap8 xor_next openssl_xtime_u64.

(** Evaluate the positions of bytes. *)
Ltac eval_positions :=
  repeat match goal with
  | |- context [byte ?k _] =>
      lazymatch k with
      | Z.lxor _ _ => let v := eval vm_compute in k in change k with v
      | next _ => let v := eval vm_compute in k in change k with v
      end
  end.

Lemma mix_columns_byte k d :
  0 <= k < 8 ->
  let a := byte k d in let b := byte (next k) d in
  let c := byte (next (next k)) d in let e := byte (next (next (next k))) d in
  byte k (mix_columns_word d) =
    xor4 (galois_mul 2 a) (galois_mul 3 b) (galois_mul 1 c) (galois_mul 1 e).
Proof.
  intros Hk. cbv zeta.
  rewrite (proj2 (galois_mul_small (byte (next k) d) (is_word_byte _ _))),
    !(proj1 (galois_mul_small (byte _ d) (is_word_byte _ _))).
  unfold mix_columns_word. cbv zeta. byte_cases k Hk;
    rewrite byte_xor_next by lia; eval_positions;
    rewrite !byte_lxor, !byte_swap8, !byte_lxor, !byte_swap16, !xtime_u64_byte by (done || lia);
    eval_positions; unfold xor4; xor_solve.
Qed.

Lemma inv_mix_columns_byte k d :
  0 <= k < 8 ->
  let a := byte k d in let b := byte (next k) d in
  let c := byte (next (next k)) d in let e := byte (next (next (next k))) d in
  byte k (inv_mix_columns_word d) =
    xor4 (galois_mul 14 a) (galois_mul 11 b) (galois_mul 13 c) (galois_mul 9 e).
Proof.
  intros Hk. cbv zeta.
  pose proof (fun j => galois_mul_inv (byte j d) (is_word_byte _ _)) as Hinv. cbv zeta in Hinv.
  destruct (Hinv k) as (_ & _ & _ & ->), (Hinv (next k)) as (_ & -> & _ & _),
    (Hinv (next (next k))) as (_ & _ & -> & _), (Hinv (next (next (next k)))) as (-> & _ & _ & _).
  clear Hinv. unfold inv_mix_columns_word. cbv zeta. byte_cases k Hk;
    repeat first [ rewrite byte_lxor by lia | rewrite byte_swap8 by (done || lia); eval_positions
      | rewrite byte_swap16 by (done || lia); eval_positions | rewrite xtime_u64_byte by (done || lia)
      | rewrite byte_xor_next by lia; eval_positions ];
    rewrite !galois_mul_lxor; eval_positions; unfold xor4; xor_solve.
Qed.

(** ** States and blocks *)

(** The state of internal_aes.c that holds a block, and back. *)
Definition transpose (b : list Z) : list Z :=
  match b with
  | [b0; b1; b2; b3; b4; b5; b6; b7; b8; b9; b10; b11; b12; b13; b14; b15] =>
      [b0; b4; b8; b12; b1; b5; b9; b13; b2; b6; b10; b14; b3; b7; b11; b15]
  | _ => b
  end.

Lemma transpose_state b : is_state b -> is_state (transpose b).
Proof. intros H. destruct_state b H. split; [done|]. simpl. bytes_auto; done. Qed.

Lemma transpose_twice b : is_state b -> transpose (transpose b) = b.
Proof. intros H. by destruct_state b H. Qed.

(** A key word read big-endian. *)
Definition bswap (x : Z) : Z := le_word (rev (le_bytes 4 x)).

Lemma state_bytes_state s : is_state (state_bytes s).
Proof.
  split; [unfold state_bytes; by rewrite length_app, !le_bytes_length|].
  apply Forall_app. split; apply le_bytes_is_bytes.
Qed.

Lemma state_bytes_of_bytes bs : is_state bs -> state_bytes (state_of_bytes bs) = bs.
Proof.
  intros [Hl Hb]. unfold state_bytes, state_of_bytes. cbn [fst snd].
  rewrite !le_bytes_word.
  - rewrite (take_ge (drop 8 bs)) by (rewrite length_drop, Hl; done). apply take_drop.
  - rewrite length_take, length_drop, Hl. done.
  - apply Forall_take, Forall_drop, Hb.
  - rewrite length_take, Hl. done.
  - apply Forall_take, Hb.
Qed.

(** A state holds a block: its transposed bytes are a state of internal_aes.c. *)
Definition repr (s : state_t) : list Z := transpose (state_bytes s).

Lemma repr_state s : is_state (repr s).
Proof. apply transpose_state, state_bytes_state. Qed.

Lemma repr_of_bytes b : is_state b -> repr (state_of_bytes b) = transpose b.
Proof. intros. unfold repr. by rewrite state_bytes_of_bytes. Qed.

Lemma state_bytes_repr s : state_bytes s = transpose (repr s).
Proof. unfold repr. rewrite transpose_twice; [done|apply state_bytes_state]. Qed.

Lemma transpose_fmap (f : Z -> Z) b : length b = 16%nat -> transpose (f <$> b) = f <$> transpose b.
Proof. intros H. do 16 (destruct b as [|? b]; [done|]). by destruct b. Qed.

Lemma repr_sub s : repr (sub_state s) = muggle_aes_sub_bytes (repr s).
Proof.
  unfold repr, muggle_aes_sub_bytes. rewrite <- transpose_fmap by apply state_bytes_state. f_equal.
  unfold state_bytes, sub_state. cbn [fst snd]. by rewrite !sub_u64_bytes, fmap_app.
Qed.

Lemma repr_inv_sub s : repr (inv_sub_state s) = muggle_aes_inv_sub_bytes (repr s).
Proof.
  unfold repr, muggle_aes_inv_sub_bytes. rewrite <- transpose_fmap by apply state_bytes_state. f_equal.
  unfold state_bytes, inv_sub_state. cbn [fst snd]. by rewrite !inv_sub_u64_bytes, fmap_app.
Qed.

Lemma shift_row_bytes b :
  is_state b ->
  is_state (fold_left shift_row_step (seq 0 4) b) /\
  transpose (fold_left shift_row_step (seq 0 4) b) = muggle_aes_shift_rows (transpose b).
Proof.
  intros H. destruct_state b H. split; [|done]. split; [done|].
  cbv [fold_left seq shift_row_step insert list_insert nth Nat.add Nat.mul Nat.modulo Nat.divmod fst snd Nat.sub].
  bytes_auto; done.
Qed.

Lemma inv_shift_row_bytes b :
  is_state b ->
  is_state (fold_left inv_shift_row_step (seq 0 4) b) /\
  transpose (fold_left inv_shift_row_step (seq 0 4) b) = muggle_aes_inv_shift_rows (transpose b).
Proof.
  intros H. destruct_state b H. split; [|done]. split; [done|].
  cbv [fold_left seq inv_shift_row_step insert list_insert nth Nat.add Nat.mul Nat.modulo Nat.divmod fst snd Nat.sub].
  bytes_auto; done.
Qed.

Lemma repr_shift s : repr (openssl_shift_row s) = muggle_aes_shift_rows (repr s).
Proof.
  destruct (shift_row_bytes (state_bytes s)) as [Hs E]; [apply state_bytes_state|].
  unfold openssl_shift_row. by rewrite repr_of_bytes, E.
Qed.

Lemma repr_inv_shift s : repr (openssl_inv_shift_row s) = muggle_aes_inv_shift_rows (repr s).
Proof.
  destruct (inv_shift_row_bytes (state_bytes s)) as [Hs E]; [apply state_bytes_state|].
  unfold openssl_inv_shift_row. by rewrite repr_of_bytes, E.
Qed.

#[local] Opaque mix_columns_word inv_mix_columns_word.

(** Compare two states byte by byte, each an exclusive or of products. *)
Ltac columns_eq :=
  cbv -[galois_mul byte Z.lxor];
  repeat (apply (f_equal2 cons); [xor_solve|]); reflexivity.

Lemma repr_mix s : repr (openssl_mix_columns s) = muggle_aes_mix_column (repr s).
Proof.
  destruct s as [s1 s2]. unfold repr, openssl_mix_columns, state_bytes. cbn [fst snd]. rewrite !le_bytes_8.
  rewrite !mix_columns_byte by lia. eval_positions. columns_eq.
Qed.

Lemma repr_inv_mix s : repr (openssl_inv_mix_columns s) = muggle_aes_inv_mix_column (repr s).
Proof.
  destruct s as [s1 s2]. unfold repr, openssl_inv_mix_columns, state_bytes. cbn [fst snd].
  rewrite !le_bytes_8. rewrite !inv_mix_columns_byte by lia. eval_positions. columns_eq.
Qed.

(** ** Round keys *)
Lemma le_bytes_4 d : le_bytes 4 d = [byte 0 d; byte 1 d; byte 2 d; byte 3 d].
Proof. rewrite le_bytes_byte. done. Qed.

Lemma bswap_byte k x : 0 <= k < 4 -> Z.land (Z.shiftr (bswap x) (8 * k)) 0xff = byte (3 - k) x.
Proof.
  intros Hk. change 0xff with (Z.ones 8). rewrite Z.land_ones by lia.
  change (byte k (bswap x) = byte (3 - k) x). unfold bswap. rewrite le_bytes_4.
  assert (is_bytes (rev [byte 0 x; byte 1 x; byte 2 x; byte 3 x])) as Hb
    by (simpl; bytes_auto; apply is_word_byte).
  rewrite <- (Z2Nat.id k) at 1 by lia. apply byte_le_word; [done|].
  assert (k = 0 \/ k = 1 \/ k = 2 \/ k = 3) as [->|[->|[->| ->]]] by lia; done.
Qed.

Lemma uni_of_bytes a b :
  is_word 32 a -> le_bytes 8 (uni_of a b) = le_bytes 4 a ++ le_bytes 4 b.
Proof.
  intros [Ha Ha']. unfold uni_of.
  assert (forall n m x y, 0 <= x < 256 ^ Z.of_nat n ->
    le_bytes (n + m) (x + 256 ^ Z.of_nat n * y) = le_bytes n x ++ le_bytes m y) as H.
  { clear. induction n as [|n IH]; intros m x y Hx.
    - simpl in *. f_equal. lia.
    - rewrite Nat2Z.inj_succ, Z.pow_succ_r in * by lia. simpl.
      replace (x + 256 * 256 ^ Z.of_nat n * y) with (x + 256 ^ Z.of_nat n * y * 256) by lia.
      rewrite Z.mod_add, Z.div_add by lia. f_equal. apply IH. split; [apply Z.div_pos; lia|].
      apply Z.div_lt_upper_bound; lia. }
  apply (H 4%nat 4%nat). by split.
Qed.

Lemma repr_add_key s k0 k1 k2 k3 w :
  is_word 32 k0 -> is_word 32 k2 ->
  repr (openssl_add_round_key s (uni_of k0 k1 :: uni_of k2 k3 :: w)) =
  muggle_aes_add_round_key (repr s) [bswap k0; bswap k1; bswap k2; bswap k3].
Proof.
  intros H0 H2. destruct s as [s1 s2]. unfold repr, openssl_add_round_key, state_bytes. cbn [fst snd nth].
  rewrite !le_bytes_8, !byte_lxor by lia.
  pose proof (uni_of_bytes k0 k1 H0) as E0. pose proof (uni_of_bytes k2 k3 H2) as E2.
  rewrite le_bytes_8, !le_bytes_4 in E0, E2. injection E0 as -> -> -> -> -> -> -> ->.
  injection E2 as -> -> -> -> -> -> -> ->. cbn [transpose app muggle_aes_add_round_key].
  pose proof (fun j x => bswap_byte j x) as Hb.
  rewrite !(Hb 3), !(Hb 2), !(Hb 1), !(Hb 0) by lia. reflexivity.
Qed.

(** A key schedule in memory, and its words read big-endian. *)
Definition is_schedule (sk : muggle_aes_sub_keys) : Prop :=
  length (rd_key sk) = 60%nat /\ Forall (is_word 32) (rd_key sk) /\
  (rounds sk = 10 \/ rounds sk = 12 \/ rounds sk = 14).

Definition be_keys (sk : muggle_aes_sub_keys) : muggle_aes_sub_keys :=
  mksk (bswap <$> rd_key sk) (rounds sk).

Lemma u64_view_drop r l : drop (r * 2) (u64_view l) = u64_view (drop (4 * r) l).
Proof.
  assert (forall n l, drop n (u64_view l) = u64_view (drop (2 * n) l)) as H.
  { clear. induction n as [|n IH]; intros l; [done|]. replace (2 * S n)%nat with (S (S (2 * n))) by lia.
    destruct l as [|a [|b l]]; [done|done|apply IH]. }
  rewrite H. f_equal. f_equal. lia.
Qed.

Lemma repr_round_key sk s r :
  is_schedule sk -> (r <= 14)%nat ->
  repr (openssl_add_round_key s (drop (r * 2) (u64_view (rd_key sk)))) =
  muggle_aes_add_round_key (repr s) (round_key (be_keys sk) r).
Proof.
  intros (Hl & Hw & _) Hr. rewrite u64_view_drop. unfold round_key, be_keys. cbn [rd_key].
  rewrite <- fmap_drop, <- fmap_take.
  assert (4 <= length (drop (4 * r) (rd_key sk)))%nat as Hl' by (rewrite length_drop; lia).
  pose proof (Forall_drop _ (4 * r) _ Hw) as Hw'.
  destruct (drop (4 * r) (rd_key sk)) as [|k0 [|k1 [|k2 [|k3 l]]]]; simpl in Hl'; try lia.
  rewrite !list.Forall_cons in Hw'. destruct Hw' as (? & _ & ? & _). by apply repr_add_key.
Qed.

Lemma repr_cipher_round sk s i :
  is_schedule sk -> (i <= 14)%nat ->
  repr (cipher_round (u64_view (rd_key sk)) s i) = enc_round (be_keys sk) i (repr s).
Proof.
  intros Hs Hi. unfold cipher_round, enc_round.
  by rewrite repr_round_key, repr_mix, repr_shift, repr_sub.
Qed.

Lemma repr_cipher_rounds sk n lo s :
  is_schedule sk -> (lo + n <= 15)%nat ->
  repr (fold_left (cipher_round (u64_view (rd_key sk))) (seq lo n) s) =
  enc_rounds (be_keys sk) lo n (repr s).
Proof.
  intros Hs. unfold enc_rounds. revert lo s. induction n as [|n IH]; intros lo s Hn; [done|].
  cbn [seq fold_left]. rewrite IH, repr_cipher_round by (done || lia). done.
Qed.

Lemma repr_inv_cipher_round sk s i :
  is_schedule sk -> (i <= 14)%nat ->
  repr (inv_cipher_round (u64_view (rd_key sk)) s i) =
  muggle_aes_inv_mix_column (muggle_aes_add_round_key
    (muggle_aes_inv_sub_bytes (muggle_aes_inv_shift_rows (repr s))) (round_key (be_keys sk) i)).
Proof.
  intros Hs Hi. unfold inv_cipher_round.
  by rewrite repr_inv_mix, repr_round_key, repr_inv_sub, repr_inv_shift.
Qed.

Lemma fold_left_cons {A B} (f : A -> B -> A) x l s : fold_left f (x :: l) s = fold_left f l (f s x).
Proof. done. Qed.

(** The rounds of the inverse cipher, grouped as internal_aes.c groups them. *)
Lemma repr_inv_rounds sk l s :
  is_schedule sk -> Forall (fun i => (i <= 14)%nat) l ->
  muggle_aes_inv_sub_bytes (muggle_aes_inv_shift_rows
    (repr (fold_left (inv_cipher_round (u64_view (rd_key sk))) l s))) =
  fold_left (fun s r => dec_round (be_keys sk) r s) l
    (muggle_aes_inv_sub_bytes (muggle_aes_inv_shift_rows (repr s))).
Proof.
  intros Hs. revert s. induction l as [|i l IH]; intros s Hl; [reflexivity|].
  apply list.Forall_cons in Hl as [Hi Hl]. rewrite !fold_left_cons, IH by done.
  apply (f_equal (fold_left _ l)). unfold dec_round. by rewrite repr_inv_cipher_round.
Qed.

(** The decryption of internal_aes.c as one sequence of rounds. *)
Lemma decrypt_chain sk s :
  rounds sk = 10 \/ rounds sk = 12 \/ rounds sk = 14 ->
  muggle_aes_decrypt s sk = (0, muggle_aes_add_round_key
    (fold_left (fun s r => dec_round sk r s) (rev (seq 1 (Z.to_nat (rounds sk - 1))))
       (dec_last sk (Z.to_nat (rounds sk)) s)) (round_key sk 0)).
Proof.
  assert (rev (seq 1 11) = [11; 10]%nat ++ rev (seq 1 9)) as E11 by done.
  assert (rev (seq 1 13) = [13; 12; 11; 10]%nat ++ rev (seq 1 9)) as E13 by done.
  intros Hr. unfold muggle_aes_decrypt, dec_rounds. destruct Hr as [E|[E|E]]; rewrite E.
  - reflexivity.
  - change (Z.to_nat (12 - 1)) with 11%nat. rewrite E11, fold_left_app. reflexivity.
  - change (Z.to_nat (14 - 1)) with 13%nat. rewrite E13, fold_left_app. reflexivity.
Qed.

Lemma repr_first_key sk s :
  is_schedule sk ->
  repr (openssl_add_round_key s (u64_view (rd_key sk))) =
  muggle_aes_add_round_key (repr s) (round_key (be_keys sk) 0).
Proof. intros Hs. apply (repr_round_key sk s 0 Hs). lia. Qed.

Lemma openssl_encrypt_wp sk b :
  is_schedule sk -> is_state b ->
  muggle_aes_encrypt (transpose b) (be_keys sk) = (0, transpose (muggle_openssl_aes_encrypt b sk)).
Proof.
  intros Hs Hb. pose proof Hs as (_ & _ & Hr). unfold muggle_openssl_aes_encrypt, openssl_cipher.
  cbv zeta. change (transpose (state_bytes ?x)) with (repr x).
  rewrite repr_round_key, repr_shift, repr_sub, repr_cipher_rounds, repr_first_key, repr_of_bytes
    by (done || lia).
  unfold muggle_aes_encrypt. cbn [rounds be_keys]. destruct Hr as [E|[E|E]]; rewrite E; done.
Qed.

Lemma openssl_decrypt_wp sk b :
  is_schedule sk -> is_state b ->
  muggle_aes_decrypt (transpose b) (be_keys sk) = (0, transpose (muggle_openssl_aes_decrypt b sk)).
Proof.
  intros Hs Hb. pose proof Hs as (_ & _ & Hr). unfold muggle_openssl_aes_decrypt, openssl_inv_cipher.
  cbv zeta. change (transpose (state_bytes ?x)) with (repr x).
  assert (Forall (fun i => (i <= 14)%nat) (rev (seq 1 (Z.to_nat (rounds sk - 1)))))
    by (apply Forall_rev, Forall_seq; lia).
  rewrite repr_first_key, repr_inv_sub, repr_inv_shift, repr_inv_rounds, repr_round_key, repr_of_bytes
    by (done || lia).
  rewrite decrypt_chain by done. unfold dec_last. reflexivity.
Qed.

Lemma openssl_encrypt_state sk b : is_state (muggle_openssl_aes_encrypt b sk).
Proof. unfold muggle_openssl_aes_encrypt, openssl_cipher. cbv zeta. apply state_bytes_state. Qed.

Lemma openssl_decrypt_state sk b : is_state (muggle_openssl_aes_decrypt b sk).
Proof. unfold muggle_openssl_aes_decrypt, openssl_inv_cipher. cbv zeta. apply state_bytes_state. Qed.

#[local] Opaque muggle_openssl_aes_encrypt muggle_openssl_aes_decrypt muggle_aes_encrypt muggle_aes_decrypt.

Lemma openssl_aes_block sk b :
  is_schedule sk -> is_state b ->
  is_state (muggle_openssl_aes_encrypt b sk) /\ is_state (muggle_openssl_aes_decrypt b sk) /\
  muggle_openssl_aes_decrypt (muggle_openssl_aes_encrypt b sk) sk = b.
Proof.
  intros Hs Hb.
  pose proof (openssl_encrypt_state sk) as He. pose proof (openssl_decrypt_state sk) as Hd.
  split_and!; [done..|].
  destruct (aes_dec_enc (be_keys sk) (transpose b)) as (s' & E1 & _ & E2);
    [by apply transpose_state|apply Hs|].
  rewrite openssl_encrypt_wp in E1 by done. apply (f_equal snd) in E1. cbn [snd] in E1. subst s'.
  rewrite openssl_decrypt_wp in E2 by done. apply (f_equal snd) in E2. cbn [snd] in E2.
  apply (f_equal transpose) in E2. by rewrite !transpose_twice in E2 by done.
Qed.

(** C1: for every key schedule and every block, the constant-time cipher and
    inverse cipher that the library is built with compute what the reference
    implementation of internal_aes.c computes on the same block and the same
    schedule. *)
Theorem openssl_aes_refines_internal sk b :
  is_schedule sk -> is_state b ->
  muggle_aes_encrypt (transpose b) (be_keys sk) = (0, transpose (muggle_openssl_aes_encrypt b sk)) /\
  muggle_aes_decrypt (transpose b) (be_keys sk) = (0, transpose (muggle_openssl_aes_decrypt b sk)).
Proof. intros. split; [by apply openssl_encrypt_wp|by apply openssl_decrypt_wp]. Qed.

Definition sample_sk : muggle_aes_sub_keys := mksk (replicate 60 0x01020304) 12.

Lemma sample_sk_schedule : is_schedule sample_sk.
Proof. split_and!; [done| |by right; left]. by apply Forall_replicate. Qed.

Lemma openssl_aes_refines_internal_witness :
  muggle_aes_encrypt (transpose (seqZ 1 16)) (be_keys sample_sk) =
    (0, transpose (muggle_openssl_aes_encrypt (seqZ 1 16) sample_sk)) /\
  muggle_aes_decrypt (transpose (seqZ 1 16)) (be_keys sample_sk) =
    (0, transpose (muggle_openssl_aes_decrypt (seqZ 1 16) sample_sk)).
Proof.
  apply (openssl_aes_refines_internal sample_sk (seqZ 1 16)); [apply sample_sk_schedule|].
  split; [done|]. by repeat constructor.
Defined.

End OpensslAes.
