(* ===== verification/Aes.v ===== *)
(** muggle/c/crypt/aes.{h,c}: the AES context, its key setup and the five block
    modes.  The source has two builds, chosen by MUGGLE_CRYPT_OPTIMIZATION: the
    constant-time code of [OpensslAes], which CMakeLists.txt selects, and the
    code of [InternalAes].  Both are modelled, with the build as a parameter; they
    are shown to compute the same key schedules and the same ciphertexts, and
    every mode of the selected build to be undone by its decryption. *)

From Stdlib Require Import ZArith Lia.
From stdpp Require Import base list numbers.
From S2P Require Import Prelude BaseUtils Bits CryptUtils BlockModes InternalAes OpensslAesSub OpensslAes.
Import CryptUtils BlockModes InternalAes OpensslAesSub OpensslAes.

Open Scope Z_scope.

Module Aes.

Definition MUGGLE_AES_BLOCK_SIZE : Z := 16.

Record muggle_aes_context := mkctx {
  op : Z;
  mode : Z;
  sk : muggle_aes_sub_keys
}.

(** The loops of the key setup of the second build.  [Nb] is 4. *)
Definition load_key_word (key : list Z) (rd : list Z) (i : nat) : list Z :=
  let k j := nth (4 * i + j) key 0 in
  <[i := Z.lor (Z.lor (Z.lor (u32 (Z.shiftl (k 0%nat) 24)) (Z.shiftl (k 1%nat) 16))
          (Z.shiftl (k 2%nat) 8)) (k 3%nat)]> rd.

Definition expand_key_word (Nk : nat) (rd : list Z) (i : nat) : list Z :=
  let temp := nth (i - 1) rd 0 in
  let temp :=
    if (i mod Nk =? 0)%nat then
      let temp := muggle_aes_rot_word temp in
      let temp := muggle_aes_sub_word temp in
      Z.lxor temp (nth ((i - 1) / Nk) s_aes_rcon 0)
    else if (6 <? Nk)%nat && (i mod Nk =? 4)%nat then muggle_aes_sub_word temp
    else temp in
  <[i := Z.lxor (nth (i - Nk) rd 0) temp]> rd.

Definition internal_set_key (key : list Z) (bits : Z) (sk : muggle_aes_sub_keys)
  : Z * muggle_aes_sub_keys :=
  let expand (Nr : Z) (Nk : nat) :=
    let rd := fold_left (load_key_word key) (seq 0 Nk) (rd_key sk) in
    let rd := fold_left (expand_key_word Nk) (seq Nk (4 * (Z.to_nat Nr + 1) - Nk)) rd in
    (0, mksk rd Nr) in
  if bits =? 128 then expand 10 4%nat
  else if bits =? 192 then expand 12 6%nat
  else if bits =? 256 then expand 14 8%nat
  else (MUGGLE_ERR_CRYPT_KEY_SIZE, sk).

(** The 128-bit nonce is two 64-bit words, the first the low one. *)
Definition nonce_next (nonce : Z * Z) : Z * Z :=
  let n0 := u64 (nonce.1 + 1) in
  if n0 =? 0 then (n0, u64 (nonce.2 + 1)) else (n0, nonce.2).
Definition nonce_bytes (nonce : Z * Z) : list Z := le_bytes 8 nonce.1 ++ le_bytes 8 nonce.2.

Section build.
Context (MUGGLE_CRYPT_OPTIMIZATION : bool).

(** The return value and the block stored in [output], if any. *)
Definition muggle_aes_crypt (op : Z) (input : list Z) (sk : muggle_aes_sub_keys)
  : Z * option (list Z) :=
  if MUGGLE_CRYPT_OPTIMIZATION then
    if negb ((op =? MUGGLE_ENCRYPT) || (op =? MUGGLE_DECRYPT)) then (MUGGLE_ERR_INVALID_PARAM, None)
    else if op =? MUGGLE_ENCRYPT then (0, Some (muggle_openssl_aes_encrypt input sk))
    else (0, Some (muggle_openssl_aes_decrypt input sk))
  else
    let state := transpose input in
    let '(ret, state) :=
      if op =? MUGGLE_ENCRYPT then muggle_aes_encrypt state sk
      else if op =? MUGGLE_DECRYPT then muggle_aes_decrypt state sk
      else (MUGGLE_ERR_INVALID_PARAM, state) in
    (ret, Some (transpose state)).

(** The block in [output] after a call, which the modes make with a valid [op]. *)
Definition crypt_block (op : Z) (sk : muggle_aes_sub_keys) (input : list Z) : list Z :=
  match (muggle_aes_crypt op input sk).2 with
  | Some output => output
  | None => input
  end.

(** Pointer arguments are valid: the NULL checks of the functions are passed. *)
Definition muggle_aes_set_key (o m : Z) (key : list Z) (bits : Z) (ctx : muggle_aes_context)
  : Z * muggle_aes_context :=
  if negb ((o =? MUGGLE_ENCRYPT) || (o =? MUGGLE_DECRYPT)) then (MUGGLE_ERR_INVALID_PARAM, ctx)
  else if negb ((MUGGLE_BLOCK_CIPHER_MODE_ECB <=? m) && (m <? MAX_MUGGLE_BLOCK_CIPHER_MODE)) then
    (MUGGLE_ERR_INVALID_PARAM, ctx)
  else
    let '(ret, sk) :=
      if MUGGLE_CRYPT_OPTIMIZATION then muggle_openssl_aes_set_key key bits (sk ctx)
      else internal_set_key key bits (sk ctx) in
    (ret, mkctx o m sk).

(** The return value of [muggle_aes_crypt] is ignored. *)
Definition muggle_aes_ecb (ctx : muggle_aes_context) (input : list Z) (num_bytes : Z)
    (output : list Z) : outcome (Z * list Z) :=
  if negb (mode ctx =? MUGGLE_BLOCK_CIPHER_MODE_ECB) then mret (MUGGLE_ERR_INVALID_PARAM, output)
  else if negb (ROUND_UP_POW_OF_2_MUL num_bytes MUGGLE_AES_BLOCK_SIZE =? num_bytes) then
    mret (MUGGLE_ERR_INVALID_PARAM, output)
  else
    let len := num_bytes / MUGGLE_AES_BLOCK_SIZE in
    output ← for_up 0 len (fun i output =>
      input_block ← mem_read input (i * MUGGLE_AES_BLOCK_SIZE) MUGGLE_AES_BLOCK_SIZE;
      match (muggle_aes_crypt (op ctx) input_block (sk ctx)).2 with
      | Some block => mem_write output (i * MUGGLE_AES_BLOCK_SIZE) block
      | None => mret output
      end) output;
    mret (0, output).

Definition muggle_aes_cbc (ctx : muggle_aes_context) (input : list Z) (num_bytes : Z)
    (iv output : list Z) : outcome (Z * list Z * list Z) :=
  if negb (mode ctx =? MUGGLE_BLOCK_CIPHER_MODE_CBC) then mret (MUGGLE_ERR_INVALID_PARAM, iv, output)
  else if negb (ROUND_UP_POW_OF_2_MUL num_bytes MUGGLE_AES_BLOCK_SIZE =? num_bytes) then
    mret (MUGGLE_ERR_INVALID_PARAM, iv, output)
  else if negb ((op ctx =? MUGGLE_ENCRYPT) || (op ctx =? MUGGLE_DECRYPT)) then
    mret (MUGGLE_ERR_INVALID_PARAM, iv, output)
  else
    let len := num_bytes / MUGGLE_AES_BLOCK_SIZE in
    r ← chunk_loop MUGGLE_AES_BLOCK_SIZE len (cbc_step (op ctx) (crypt_block (op ctx) (sk ctx)))
          iv input output;
    let '(iv, output) := (r : list Z * list Z) in
    mret (0, iv, output).

(** Results: the return value, the vector, its offset and the output. *)
Definition muggle_aes_cfb128 (ctx : muggle_aes_context) (input : list Z) (num_bytes : Z)
    (iv : list Z) (iv_offset : Z) (output : list Z) : outcome (Z * list Z * Z * list Z) :=
  if negb (mode ctx =? MUGGLE_BLOCK_CIPHER_MODE_CFB) then
    mret (MUGGLE_ERR_INVALID_PARAM, iv, iv_offset, output)
  else if negb (iv_offset <? MUGGLE_AES_BLOCK_SIZE) then
    mret (MUGGLE_ERR_INVALID_PARAM, iv, iv_offset, output)
  else if negb ((op ctx =? MUGGLE_ENCRYPT) || (op ctx =? MUGGLE_DECRYPT)) then
    mret (MUGGLE_ERR_INVALID_PARAM, iv, iv_offset, output)
  else
    r ← chunk_loop 1 num_bytes
          (cfb_step MUGGLE_AES_BLOCK_SIZE (op ctx) (crypt_block MUGGLE_ENCRYPT (sk ctx)))
          (iv, iv_offset) input output;
    let '((iv, offset), output) := (r : (list Z * Z) * list Z) in
    mret (0, iv, offset, output).

Definition muggle_aes_ofb128 (ctx : muggle_aes_context) (input : list Z) (num_bytes : Z)
    (iv : list Z) (iv_offset : Z) (output : list Z) : outcome (Z * list Z * Z * list Z) :=
  if negb (mode ctx =? MUGGLE_BLOCK_CIPHER_MODE_OFB) then
    mret (MUGGLE_ERR_INVALID_PARAM, iv, iv_offset, output)
  else if negb (iv_offset <? MUGGLE_AES_BLOCK_SIZE) then
    mret (MUGGLE_ERR_INVALID_PARAM, iv, iv_offset, output)
  else if negb ((op ctx =? MUGGLE_ENCRYPT) || (op ctx =? MUGGLE_DECRYPT)) then
    mret (MUGGLE_ERR_INVALID_PARAM, iv, iv_offset, output)
  else
    r ← chunk_loop 1 num_bytes
          (ofb_step MUGGLE_AES_BLOCK_SIZE (crypt_block MUGGLE_ENCRYPT (sk ctx)))
          (iv, iv_offset) input output;
    let '((iv, offset), output) := (r : (list Z * Z) * list Z) in
    mret (0, iv, offset, output).

(** Results: the return value, nonce, stream block, offset and output. *)
Definition muggle_aes_ctr (ctx : muggle_aes_context) (input : list Z) (num_bytes : Z)
    (nonce : Z * Z) (nonce_offset : Z) (stream_block output : list Z)
  : outcome (Z * (Z * Z) * list Z * Z * list Z) :=
  if negb (mode ctx =? MUGGLE_BLOCK_CIPHER_MODE_CTR) then
    mret (MUGGLE_ERR_INVALID_PARAM, nonce, stream_block, nonce_offset, output)
  else if negb (nonce_offset <? MUGGLE_AES_BLOCK_SIZE) then
    mret (MUGGLE_ERR_INVALID_PARAM, nonce, stream_block, nonce_offset, output)
  else if negb ((op ctx =? MUGGLE_ENCRYPT) || (op ctx =? MUGGLE_DECRYPT)) then
    mret (MUGGLE_ERR_INVALID_PARAM, nonce, stream_block, nonce_offset, output)
  else
    r ← chunk_loop 1 num_bytes
          (ctr_step MUGGLE_AES_BLOCK_SIZE nonce_next nonce_bytes (crypt_block MUGGLE_ENCRYPT (sk ctx)))
          (nonce, stream_block, nonce_offset) input output;
    let '((nonce, stream_block, offset), output) := (r : ((Z * Z) * list Z * Z) * list Z) in
    mret (0, nonce, stream_block, offset, output).
End build.

(** ** Key schedules *)
Lemma uni_w0_of a b : is_word 32 a -> uni_w0 (uni_of a b) = a.
Proof.
  intros Ha. unfold uni_w0, uni_of. rewrite Z.mul_comm, Z.mod_add by lia. by apply Z.mod_small.
Qed.

Lemma uni_w1_of a b : is_word 32 a -> uni_w1 (uni_of a b) = b.
Proof.
  intros Ha. unfold uni_w1, uni_of. rewrite Z.mul_comm, Z.div_add by lia.
  by rewrite Z.div_small by apply Ha.
Qed.

Lemma uni_w0_word d : is_word 32 (uni_w0 d).
Proof. apply Z.mod_pos_bound. lia. Qed.

Lemma uni_w1_word d : is_word 64 d -> is_word 32 (uni_w1 d).
Proof.
  intros [H0 H1]. split; [apply Z.div_pos; lia|].
  apply Z.div_lt_upper_bound; [lia|]. change (2 ^ 32 * 2 ^ 32) with (2 ^ 64). lia.
Qed.

Lemma uni_of_word a b : is_word 32 a -> is_word 32 b -> is_word 64 (uni_of a b).
Proof. unfold is_word, uni_of. change (2 ^ 64) with (2 ^ 32 * 2 ^ 32). lia. Qed.

(** *** Reading words big-endian commutes with the operations *)
Lemma le_bytes_bswap x : le_bytes 4 (bswap x) = rev (le_bytes 4 x).
Proof.
  apply le_bytes_word; [by rewrite length_rev, le_bytes_length|].
  apply Forall_rev, le_bytes_is_bytes.
Qed.

Lemma bswap_word x : is_word 32 (bswap x).
Proof.
  pose proof (le_word_range (rev (le_bytes 4 x)) (Forall_rev (le_bytes_is_bytes 4 x))) as H.
  unfold zlen in H. by rewrite length_rev, le_bytes_length in H.
Qed.

(** Two 32-bit words with the same bytes. *)
Lemma le_bytes_inj_32 x y : is_word 32 x -> is_word 32 y -> le_bytes 4 x = le_bytes 4 y -> x = y.
Proof. intros Hx Hy E. rewrite <- (le_word_bytes 4 x), <- (le_word_bytes 4 y), E by done. done. Qed.

Lemma bswap_lxor x y : bswap (Z.lxor x y) = Z.lxor (bswap x) (bswap y).
Proof.
  apply le_bytes_inj_32; [apply bswap_word|apply is_word_lxor; auto using bswap_word; done|].
  rewrite le_bytes_bswap, !le_bytes_4, !byte_lxor by lia.
  pose proof (le_bytes_bswap x) as Hx. pose proof (le_bytes_bswap y) as Hy.
  rewrite !le_bytes_4 in Hx, Hy. injection Hx as -> -> -> ->. injection Hy as -> -> -> ->. done.
Qed.

Lemma bswap_rot x : bswap (openssl_rot_word x) = muggle_aes_rot_word (bswap x).
Proof.
  unfold muggle_aes_rot_word. rewrite le_bytes_bswap. unfold bswap, openssl_rot_word.
  rewrite (le_bytes_4 x). cbn [rev app].
  rewrite le_bytes_word; [done|done|]. bytes_auto; apply is_word_byte.
Qed.

Lemma bswap_sub x : bswap (sub_u32 x) = muggle_aes_sub_word (bswap x).
Proof.
  unfold muggle_aes_sub_word. rewrite le_bytes_bswap. unfold bswap. rewrite sub_u32_bytes.
  by rewrite !le_bytes_4.
Qed.


(** *** Schedules as arrays of 64-bit words and of big-endian 32-bit words *)
Definition view (w : list Z) : list Z := bswap <$> u32_view w.

Lemma view_cons d w : view (d :: w) = bswap (uni_w0 d) :: bswap (uni_w1 d) :: view w.
Proof. done. Qed.

Lemma nth_view j w :
  (j < length w)%nat ->
  nth (2 * j) (view w) 0 = bswap (uni_w0 (nth j w 0)) /\
  nth (2 * j + 1) (view w) 0 = bswap (uni_w1 (nth j w 0)).
Proof.
  revert j. induction w as [|d w IH]; intros j Hj; [simpl in Hj; lia|]. rewrite view_cons.
  destruct j as [|j]; [done|]. replace (2 * S j)%nat with (S (S (2 * j))) by lia.
  apply IH. simpl in Hj. lia.
Qed.

Lemma insert_view i a b w :
  is_word 32 a ->
  <[(2 * i + 1)%nat := bswap b]> (<[(2 * i)%nat := bswap a]> (view w)) = view (<[i := uni_of a b]> w).
Proof.
  intros Ha. revert i. induction w as [|d w IH]; intros i; [done|]. rewrite view_cons.
  destruct i as [|i]; cbn [insert list_insert].
  - rewrite view_cons, uni_w0_of, uni_w1_of by done. done.
  - replace (2 * S i)%nat with (S (S (2 * i))) by lia. cbn [Nat.add list_insert].
    rewrite view_cons. by rewrite <- IH.
Qed.

Lemma length_view w : length (view w) = (2 * length w)%nat.
Proof.
  induction w as [|d w IH]; [done|]. rewrite view_cons. cbn [length]. rewrite IH. lia.
Qed.

Lemma nth_insert_eq (l : list Z) i x : (i < length l)%nat -> nth i (<[i := x]> l) 0 = x.
Proof. intros Hi. by apply nth_lookup_Some, list_lookup_insert_eq. Qed.

Lemma nth_insert_ne (l : list Z) i j x : i <> j -> nth j (<[i := x]> l) 0 = nth j l 0.
Proof. intros Hij. by rewrite !nth_lookup, list_lookup_insert_ne. Qed.

(** The round constants. *)
Definition rcon_at (j : nat) : Z := Nat.iter j openssl_xtime_u32 1.

Lemma rcon_at_ok j : (j < 15)%nat -> bswap (rcon_at j) = nth j s_aes_rcon 0 /\ is_word 32 (rcon_at j).
Proof.
  intros Hj. assert (forallb (fun j => (bswap (rcon_at j) =? nth j s_aes_rcon 0) &&
    (0 <=? rcon_at j) && (rcon_at j <? 2 ^ 32)) (seq 0 15) = true) as H by (by vm_compute).
  rewrite forallb_forall in H. specialize (H j ltac:(apply in_seq; lia)).
  rewrite !andb_true_iff, Z.eqb_eq, Z.leb_le, Z.ltb_lt in H. unfold is_word. tauto.
Qed.

Section expansion.
Context (n : nat) (Hn : (0 < n)%nat).

(** The round constant before word [i]. *)
Definition rcon_index (i : nat) : nat := ((i + n - 1) / n - 1)%nat.

Lemma rcon_index_mult i :
  (n <= i)%nat -> (i mod n = 0)%nat ->
  ((2 * i - 1) / (2 * n))%nat = rcon_index i /\ rcon_index (i + 1) = S (rcon_index i).
Proof.
  intros Hi Hm. pose proof (Nat.div_mod_eq i n) as E. set (q := (i / n)%nat) in *. clearbody q.
  assert (1 <= q)%nat by nia. unfold rcon_index.
  assert ((i + n - 1) / n = q)%nat as ->.
  { symmetry. apply (Nat.div_unique _ _ _ (n - 1)); nia. }
  assert ((i + 1 + n - 1) / n = S q)%nat as ->.
  { symmetry. apply (Nat.div_unique _ _ _ 0); nia. }
  split; [|lia]. symmetry. apply (Nat.div_unique _ _ _ (2 * n - 1)); nia.
Qed.

Lemma rcon_index_other i :
  (i mod n <> 0)%nat -> rcon_index (i + 1) = rcon_index i.
Proof.
  intros Hm. pose proof (Nat.div_mod_eq i n) as E. pose proof (Nat.mod_upper_bound i n ltac:(lia)).
  set (q := (i / n)%nat) in *. set (r := (i mod n)%nat) in *. clearbody q r. unfold rcon_index. f_equal.
  transitivity (S q); [symmetry; apply (Nat.div_unique _ _ _ r); nia|].
  apply (Nat.div_unique _ _ _ (r - 1)); nia.
Qed.

(** The invariant of the two loops before word [i]. *)
Definition expanded (i : nat) (st : list Z * Z * Z) : Prop :=
  let '(w, prev, rcon) := st in
  length w = 30%nat /\ Forall (is_word 64) w /\ prev = nth (i - 1) w 0 /\ rcon = rcon_at (rcon_index i).

Lemma nth_word64 w j : Forall (is_word 64) w -> is_word 64 (nth j w 0).
Proof.
  intros Hw. destruct (nth_in_or_default j w 0) as [Hin| ->]; [|done].
  rewrite List.Forall_forall in Hw. auto.
Qed.

Lemma rot_word_word x : is_word 32 (openssl_rot_word x).
Proof.
  unfold openssl_rot_word. rewrite le_bytes_4. apply (le_word_range [_; _; _; _]).
  bytes_auto; apply is_word_byte.
Qed.

(** The value of [temp] in both loops. *)
Definition temp_of (i : nat) (prev rcon : Z) : Z :=
  if (i mod n =? 0)%nat then Z.lxor (sub_u32 (openssl_rot_word (uni_w1 prev))) rcon
  else if (6 <? 2 * n)%nat && (i mod n =? 2)%nat then sub_u32 (uni_w1 prev) else uni_w1 prev.

Lemma temp_of_word i prev rcon :
  is_word 64 prev -> is_word 32 rcon -> is_word 32 (temp_of i prev rcon).
Proof.
  intros Hp Hr. unfold temp_of. repeat case_match;
    auto using is_word_lxor, sub_u32_word, rot_word_word, uni_w1_word with lia.
Qed.

Lemma key_expansion_step_eq i w prev rcon :
  is_word 64 prev -> is_word 32 rcon -> Forall (is_word 64) w ->
  let q := nth (i - n) w 0 in
  let a := Z.lxor (uni_w0 q) (temp_of i prev rcon) in
  let d := uni_of a (Z.lxor (uni_w1 q) a) in
  key_expansion_step (2 * n) n (w, prev, rcon) i =
    (<[i := d]> w, d, if (i mod n =? 0)%nat then openssl_xtime_u32 rcon else rcon).
Proof.
  intros Hp Hr Hw q a d.
  assert (is_word 32 a) as Ha
    by (apply is_word_lxor; [lia|apply uni_w0_word|by apply temp_of_word]).
  assert (forall t, t = temp_of i prev rcon -> uni_of (uni_w0 (uni_of (Z.lxor (uni_w0 q) t) (uni_w1 q)))
    (Z.lxor (uni_w1 (uni_of (Z.lxor (uni_w0 q) t) (uni_w1 q)))
            (uni_w0 (uni_of (Z.lxor (uni_w0 q) t) (uni_w1 q)))) = d) as Hd.
  { intros t ->. fold a. by rewrite uni_w0_of, uni_w1_of. }
  unfold key_expansion_step. unfold temp_of in Hd. fold q.
  destruct (i mod n =? 0)%nat; [by rewrite (Hd _ eq_refl)|].
  destruct ((6 <? 2 * n)%nat && (i mod n =? 2)%nat); by rewrite (Hd _ eq_refl).
Qed.

(** Word [2 i] of the other loop uses the same [temp], read big-endian. *)
Lemma expand_temp i prev rcon :
  (n <= i)%nat -> (rcon_index i < 15)%nat -> rcon = rcon_at (rcon_index i) ->
  bswap (temp_of i prev rcon) =
    (if ((2 * i) mod (2 * n) =? 0)%nat then
       Z.lxor (muggle_aes_sub_word (muggle_aes_rot_word (bswap (uni_w1 prev))))
              (nth ((2 * i - 1) / (2 * n)) s_aes_rcon 0)
     else if (6 <? 2 * n)%nat && ((2 * i) mod (2 * n) =? 4)%nat
          then muggle_aes_sub_word (bswap (uni_w1 prev)) else bswap (uni_w1 prev)).
Proof.
  intros Hi Hr ->. unfold temp_of. rewrite Nat.Div0.mul_mod_distr_l.
  destruct (Nat.eqb_spec (i mod n) 0) as [E|E], (Nat.eqb_spec (2 * (i mod n)) 0) as [E'|E']; try lia.
  - destruct (rcon_index_mult i Hi E) as [-> _]. rewrite bswap_lxor, bswap_sub, bswap_rot.
    by rewrite (proj1 (rcon_at_ok _ Hr)).
  - replace (2 * (i mod n) =? 4)%nat with (i mod n =? 2)%nat
      by (destruct (Nat.eqb_spec (i mod n) 2), (Nat.eqb_spec (2 * (i mod n)) 4); done || lia).
    case_match; [apply bswap_sub|done].
Qed.

Lemma odd_mod i : ((2 * i + 1) mod (2 * n) = 2 * (i mod n) + 1)%nat.
Proof.
  pose proof (Nat.div_mod_eq i n). pose proof (Nat.mod_upper_bound i n ltac:(lia)).
  symmetry. apply (Nat.mod_unique _ _ (i / n)); nia.
Qed.

(** Two iterations of one loop are one of the other. *)
Lemma expand_two i w prev rcon :
  (n <= i < 30)%nat -> (rcon_index i < 15)%nat -> expanded i (w, prev, rcon) ->
  let st := key_expansion_step (2 * n) n (w, prev, rcon) i in
  expanded (i + 1) st /\
  expand_key_word (2 * n) (expand_key_word (2 * n) (view w) (2 * i)) (2 * i + 1) = view st.1.1.
Proof.
  intros Hi Hr (Hl & Hw & Hp & Hc). cbv zeta.
  assert (is_word 64 prev) as Hpw by (subst; by apply nth_word64).
  assert (is_word 32 rcon) as Hrw by (subst; by apply rcon_at_ok).
  rewrite key_expansion_step_eq by done.
  set (q := nth (i - n) w 0). set (t := temp_of i prev rcon). set (a := Z.lxor (uni_w0 q) t).
  assert (is_word 64 q) as Hq by (by apply nth_word64).
  assert (is_word 32 a) as Ha by (apply is_word_lxor; [lia|apply uni_w0_word|by apply temp_of_word]).
  assert (is_word 32 (Z.lxor (uni_w1 q) a)) as Hb by (apply is_word_lxor; [lia|by apply uni_w1_word|done]).
  split.
  - split_and!; [by rewrite length_insert| | |].
    + apply Forall_insert; [done|]. by apply uni_of_word.
    + replace (i + 1 - 1)%nat with i by lia. symmetry. apply nth_insert_eq. lia.
    + rewrite Hc. destruct (Nat.eqb_spec (i mod n) 0) as [E|E].
      * by rewrite (proj2 (rcon_index_mult i (proj1 Hi) E)).
      * by rewrite rcon_index_other.
  - cbn [fst]. rewrite <- insert_view by done.
    assert (expand_key_word (2 * n) (view w) (2 * i) = <[(2 * i)%nat := bswap a]> (view w)) as ->.
    { unfold expand_key_word. replace (2 * i - 1)%nat with (2 * (i - 1) + 1)%nat by lia.
      replace (2 * i - 2 * n)%nat with (2 * (i - n))%nat by lia.
      rewrite (proj2 (nth_view (i - 1) w ltac:(lia))), (proj1 (nth_view (i - n) w ltac:(lia))).
      rewrite <- Hp. unfold a. rewrite bswap_lxor. unfold t. rewrite expand_temp by (done || lia).
      replace (2 * (i - 1) + 1)%nat with (2 * i - 1)%nat by lia. done. }
    unfold expand_key_word. replace (2 * i + 1 - 1)%nat with (2 * i)%nat by lia.
    replace (2 * i + 1 - 2 * n)%nat with (2 * (i - n) + 1)%nat by lia.
    rewrite nth_insert_eq, nth_insert_ne, odd_mod by (rewrite ?length_view; lia).
    rewrite (proj2 (nth_view (i - n) w ltac:(lia))), bswap_lxor.
    destruct (Nat.eqb_spec (2 * (i mod n) + 1) 0), (Nat.eqb_spec (2 * (i mod n) + 1) 4); try lia.
    by rewrite andb_false_r.
Qed.

(** The whole loops. *)
Lemma expand_loops m i st :
  (n <= i)%nat -> (i + m <= 30)%nat -> (rcon_index (i + m) < 15)%nat -> expanded i st ->
  let st' := fold_left (key_expansion_step (2 * n) n) (seq i m) st in
  expanded (i + m) st' /\
  fold_left (expand_key_word (2 * n)) (seq (2 * i) (2 * m)) (view st.1.1) = view st'.1.1.
Proof.
  revert i st. induction m as [|m IH]; intros i st Hi Hm Hr Hst; cbv zeta.
  { rewrite Nat.add_0_r. done. }
  replace (2 * S m)%nat with (S (S (2 * m))) by lia. cbn [seq]. rewrite !fold_left_cons.
  destruct st as [[w prev] rcon]. destruct (expand_two i w prev rcon) as [Hst' E]; [lia| |done|].
  { eapply Nat.le_lt_trans; [|exact Hr]. apply Nat.sub_le_mono_r, Nat.Div0.div_le_mono. lia. }
  destruct (IH (i + 1)%nat _ ltac:(lia) ltac:(lia)
    ltac:(by replace (i + 1 + m)%nat with (i + S m)%nat by lia) Hst') as [H1 H2].
  replace (i + 1 + m)%nat with (i + S m)%nat in H1 by lia.
  replace (i + 1)%nat with (S i) in H1, H2 by lia. split; [done|].
  rewrite <- H2, <- E. cbn [fst]. by replace (S (2 * i)) with (2 * i + 1)%nat by lia;
    replace (S (2 * i + 1)) with (2 * S i)%nat by lia.
Qed.
End expansion.

(** *** The words of the key *)
Lemma byte_small b k : is_word 8 b -> 0 <= k -> byte k b = if decide (k = 0) then b else 0.
Proof.
  intros Hb Hk. apply byte_ext; [done|by case_decide|]. intros i Hi. case_decide.
  - f_equal. lia.
  - rewrite Z.bits_0. apply is_word_bits in Hb as [_ Hb]; [|done]. apply Hb. lia.
Qed.

Lemma key_word_be b0 b1 b2 b3 :
  is_bytes [b0; b1; b2; b3] ->
  Z.lor (Z.lor (Z.lor (u32 (Z.shiftl b0 24)) (Z.shiftl b1 16)) (Z.shiftl b2 8)) b3 =
  bswap (le_word [b0; b1; b2; b3]).
Proof.
  intros Hb. unfold bswap. rewrite le_bytes_word by done. cbn [rev app].
  unfold is_bytes in Hb. rewrite !list.Forall_cons in Hb. destruct Hb as (H0 & H1 & H2 & H3 & _).
  assert (forall b m, is_word 8 b -> 0 <= m <= 2 -> is_word 32 (Z.shiftl b (8 * m))) as Hs.
  { intros b m [? ?] Hm. rewrite Z.shiftl_mul_pow2 by lia. split; [nia|].
    change (2 ^ 32) with (2 ^ 8 * 2 ^ (8 * 2) * 2 ^ 8).
    pose proof (Z.pow_le_mono_r 2 (8 * m) (8 * 2) ltac:(lia) ltac:(lia)). nia. }
  assert (is_bytes [b3; b2; b1; b0]) as Hr by (bytes_auto; done).
  apply (word_byte_ext 4).
  - repeat apply is_word_lor; try done; [by apply is_word_wrap|by apply (Hs b1 2)|by apply (Hs b2 1)|].
    by apply (Hs b3 0).
  - apply (le_word_range _ Hr).
  - intros k Hk. transitivity (nth k [b3; b2; b1; b0] 0).
    + change 24 with (8 * 3). change 16 with (8 * 2). change (Z.shiftl b2 8) with (Z.shiftl b2 (8 * 1)).
      rewrite !byte_lor, byte_wrap by lia.
      do 4 (destruct k as [|k]; [
        repeat first [ rewrite byte_shiftl_low by lia | rewrite byte_shiftl by lia
                     | rewrite byte_small by (done || lia) ];
        repeat case_decide; try lia; cbn [nth]; rewrite ?Z.lor_0_r, ?Z.lor_0_l; done|]). lia.
    + symmetry. apply byte_le_word; [done|]. by do 4 (destruct k as [|k]; [done|]); lia.
Qed.

Definition key_word64 (key : list Z) (i : nat) : Z := le_word (take 8 (drop (8 * i) key)).

Lemma key_word64_word key i : is_bytes key -> (8 * i + 8 <= length key)%nat -> is_word 64 (key_word64 key i).
Proof.
  intros Hb Hl. unfold key_word64.
  pose proof (le_word_range (take 8 (drop (8 * i) key)) (Forall_take _ _ _ (Forall_drop _ _ _ Hb))) as H.
  unfold zlen in H. rewrite length_take, length_drop in H.
  by replace (8 `min` (length key - 8 * i))%nat with 8%nat in H by lia.
Qed.

Lemma load_two key i w :
  is_bytes key -> (8 * i + 8 <= length key)%nat ->
  load_key_word key (load_key_word key (view w) (2 * i)) (2 * i + 1) = view (<[i := key_word64 key i]> w).
Proof.
  intros Hb Hl. unfold load_key_word, key_word64.
  assert (forall j, nth (8 * i + j) key 0 = nth j (drop (8 * i) key) 0) as Hnth.
  { intros j. rewrite !nth_lookup, lookup_drop. done. }
  replace (4 * (2 * i))%nat with (8 * i)%nat by lia.
  replace (4 * (2 * i + 1))%nat with (8 * i + 4)%nat by lia.
  rewrite <- !Nat.add_assoc, !Hnth.
  assert (8 <= length (drop (8 * i) key))%nat as Hl' by (rewrite length_drop; lia).
  pose proof (Forall_drop _ (8 * i) _ Hb) as Hb'.
  destruct (drop (8 * i) key) as [|b0 [|b1 [|b2 [|b3 [|b4 [|b5 [|b6 [|b7 l]]]]]]]]; simpl in Hl'; try lia.
  rewrite !list.Forall_cons in Hb'. destruct Hb' as (? & ? & ? & ? & ? & ? & ? & ? & _).
  cbn [nth Nat.add take].
  rewrite !key_word_be by (bytes_auto; done).
  rewrite insert_view by (apply (le_word_range [_; _; _; _]); bytes_auto; done).
  do 3 f_equal. unfold uni_of. cbn [le_word take]. rewrite take_0. cbn [le_word]. lia.
Qed.

Lemma load_loop key n w :
  is_bytes key -> (8 * n <= length key)%nat ->
  fold_left (load_key_word key) (seq 0 (2 * n)) (view w) =
  view (fold_left (fun w i => <[i := key_word64 key i]> w) (seq 0 n) w).
Proof.
  intros Hb. induction n as [|n IH]; intros Hl; [done|].
  replace (2 * S n)%nat with (2 * n + 1 + 1)%nat by lia.
  rewrite !seq_app, !fold_left_app, IH by lia. replace (S n) with (n + 1)%nat by lia.
  rewrite seq_app, fold_left_app. cbn [seq fold_left]. rewrite !Nat.add_0_l. apply load_two; [done|lia].
Qed.

(** *** The key setups of the two builds *)
Lemma be_keys_view l :
  Nat.Even (length l) -> Forall (is_word 32) l -> bswap <$> l = view (u64_view l).
Proof.
  intros [m Hm]. revert l Hm. induction m as [|m IH]; intros l Hm Hw.
  { by destruct l. }
  destruct l as [|a [|b l]]; simpl in Hm; try lia. rewrite !list.Forall_cons in Hw. destruct Hw as (Ha & Hb & Hw).
  cbn [u64_view]. rewrite view_cons, uni_w0_of, uni_w1_of, <- IH by (done || lia). done.
Qed.

Lemma u64_view_length l m : length l = (2 * m)%nat -> length (u64_view l) = m.
Proof.
  revert l. induction m as [|m IH]; intros l Hl; [by destruct l|].
  destruct l as [|a [|b l]]; simpl in Hl; try lia. cbn [u64_view length]. f_equal. apply IH. lia.
Qed.

Lemma u64_view_words l : Forall (is_word 32) l -> Forall (is_word 64) (u64_view l).
Proof.
  remember (length l) as m eqn:Hm. revert l Hm. induction m as [m IH] using lt_wf_ind.
  intros l -> Hw. destruct l as [|a [|b l]]; [done..|].
  rewrite !list.Forall_cons in Hw. destruct Hw as (Ha & Hb & Hw). cbn [u64_view].
  apply list.Forall_cons. split; [by apply uni_of_word|]. apply (IH (length l)); [simpl; lia|done|done].
Qed.

Lemma u32_view_words w : Forall (is_word 64) w -> Forall (is_word 32) (u32_view w).
Proof.
  induction 1 as [|d w Hd _ IH]; [done|]. unfold u32_view. cbn [mbind list_bind app].
  apply list.Forall_cons; split; [apply uni_w0_word|]. apply list.Forall_cons; split; [by apply uni_w1_word|done].
Qed.

Lemma u32_view_length w : length (u32_view w) = (2 * length w)%nat.
Proof. pose proof (length_view w) as H. unfold view in H. by rewrite length_fmap in H. Qed.

Lemma key_words_overwrite n key w :
  In n [2; 3; 4]%nat -> length w = 30%nat ->
  overwrite 0 (key_words n key) w = fold_left (fun w i => <[i := key_word64 key i]> w) (seq 0 n) w.
Proof.
  intros Hn Hl. do 5 (destruct w as [|? w]; [done|]). unfold overwrite, key_word64.
  destruct Hn as [<-|[<-|[<-|[]]]]; cbn [key_words seq fold_left]; rewrite ?drop_drop; done.
Qed.

Lemma key_words_loaded n key w :
  is_bytes key -> (8 * n <= length key)%nat -> Forall (is_word 64) w ->
  let w' := fold_left (fun w i => <[i := key_word64 key i]> w) (seq 0 n) w in
  Forall (is_word 64) w' /\ length w' = length w.
Proof.
  intros Hb Hl Hw. induction n as [|n IH]; [done|]. cbv zeta in *.
  replace (S n) with (n + 1)%nat by lia. rewrite seq_app, fold_left_app. cbn [seq fold_left].
  destruct IH as [IH1 IH2]; [lia|]. rewrite length_insert, IH2. split; [|done].
  apply Forall_insert; [done|]. apply key_word64_word; [done|lia].
Qed.

(** The expansion of a key of [8 n] bytes to [m] words of 64 bits. *)
Lemma expansion_agrees n nr key rd :
  In n [2; 3; 4]%nat -> (2 * n + 6 = nr)%nat -> length key = (8 * n)%nat -> is_bytes key ->
  length rd = 60%nat -> Forall (is_word 32) rd ->
  let w := openssl_key_expansion key (u64_view rd) nr (2 * n) in
  length w = 30%nat /\ Forall (is_word 64) w /\
  fold_left (expand_key_word (2 * n)) (seq (2 * n) (4 * (nr + 1) - 2 * n))
    (fold_left (load_key_word key) (seq 0 (2 * n)) (bswap <$> rd)) = view w.
Proof.
  intros Hin Hnr Hlk Hbk Hl Hw. cbv zeta. assert (2 <= n <= 4)%nat as Hn by (simpl in Hin; lia).
  rewrite be_keys_view by (done || (rewrite Hl; by exists 30%nat)).
  rewrite load_loop by (done || lia). unfold openssl_key_expansion. cbv zeta.
  replace ((2 * n) / 2)%nat with n by (by rewrite Nat.mul_comm, Nat.div_mul).
  rewrite key_words_overwrite by (done || by apply u64_view_length).
  destruct (key_words_loaded n key (u64_view rd)) as [Hw' Hl'];
    [done|lia|by apply u64_view_words|]. rewrite (u64_view_length rd 30 Hl) in Hl'.
  set (w0 := fold_left _ (seq 0 n) (u64_view rd)) in *.
  destruct (expand_loops n ltac:(lia) ((nr + 1) * 2 - n) n (w0, nth (n - 1) w0 0, 1)) as [He Hv].
  - lia.
  - lia.
  - unfold rcon_index. subst nr. simpl in Hin. destruct Hin as [<-|[<-|[<-|[]]]]; vm_compute; lia.
  - split_and!; try done. unfold rcon_index.
    replace ((n + n - 1) / n)%nat with 1%nat; [done|]. apply (Nat.div_unique _ _ _ (n - 1)); lia.
  - cbn [fst] in Hv. replace (4 * (nr + 1) - 2 * n)%nat with (2 * ((nr + 1) * 2 - n))%nat by lia.
    destruct (fold_left (key_expansion_step _ _) _ _) as [[w prev] rcon] eqn:E.
    destruct He as (? & ? & _). done.
Qed.

#[local] Opaque openssl_key_expansion expand_key_word load_key_word u32_view u64_view.

Lemma set_key_agrees key bits c :
  length (rd_key c) = 60%nat -> Forall (is_word 32) (rd_key c) -> is_bytes key ->
  (bits = 128 \/ bits = 192 \/ bits = 256 -> 8 * zlen key = bits) ->
  let (r, c') := muggle_openssl_aes_set_key key bits c in
  internal_set_key key bits (be_keys c) = (r, be_keys c') /\
  length (rd_key c') = 60%nat /\ Forall (is_word 32) (rd_key c') /\ (r = 0 -> is_schedule c').
Proof.
  intros Hl Hw Hk Hkl. unfold muggle_openssl_aes_set_key, internal_set_key, is_schedule.
  assert (forall n nr, In n [2; 3; 4]%nat -> (2 * n + 6 = nr)%nat -> length key = (8 * n)%nat ->
    let w := u32_view (openssl_key_expansion key (u64_view (rd_key c)) nr (2 * n)) in
    fold_left (expand_key_word (2 * n)) (seq (2 * n) (4 * (nr + 1) - 2 * n))
      (fold_left (load_key_word key) (seq 0 (2 * n)) (rd_key (be_keys c))) = bswap <$> w /\
    length w = 60%nat /\ Forall (is_word 32) w) as H.
  { intros n nr Hin Hnr Hlk. destruct (expansion_agrees n nr key (rd_key c)) as (H1 & H2 & H3); [done..|].
    cbv zeta. rewrite u32_view_length, H1. split_and!; [done|done|by apply u32_view_words]. }
  assert (forall n nr (Nr : Z), In n [2; 3; 4]%nat -> (2 * n + 6 = nr)%nat -> length key = (8 * n)%nat ->
    Nr = 10 \/ Nr = 12 \/ Nr = 14 ->
    let c' := mksk (u32_view (openssl_key_expansion key (u64_view (rd_key c)) nr (2 * n))) Nr in
    (0, mksk (fold_left (expand_key_word (2 * n)) (seq (2 * n) (4 * (nr + 1) - 2 * n))
      (fold_left (load_key_word key) (seq 0 (2 * n)) (rd_key (be_keys c)))) Nr) = (0, be_keys c') /\
    length (rd_key c') = 60%nat /\ Forall (is_word 32) (rd_key c') /\ (0 = 0 -> is_schedule c')) as H'.
  { intros n nr Nr Hin Hnr Hlk HNr. destruct (H n nr Hin Hnr Hlk) as (H1 & H2 & H3). cbv zeta.
    unfold be_keys, is_schedule in *. cbn [rd_key rounds] in *. by rewrite H1. }
  clear H. destruct (Z.eqb_spec bits 128) as [->|]; [|destruct (Z.eqb_spec bits 192) as [->|];
    [|destruct (Z.eqb_spec bits 256) as [->|]; [|done]]].
  - apply (H' 2%nat 10%nat 10); [by left|done| |by left]. specialize (Hkl ltac:(lia)). unfold zlen in Hkl. lia.
  - apply (H' 3%nat 12%nat 12); [by right; left|done| |by right; left].
    specialize (Hkl ltac:(lia)). unfold zlen in Hkl. lia.
  - apply (H' 4%nat 14%nat 14); [by right; right; left|done| |by right; right].
    specialize (Hkl ltac:(lia)). unfold zlen in Hkl. lia.
Qed.

(** ** The builds agree *)

(** A context whose schedule is an array of 32-bit words, and the same context
    with the words read big-endian. *)
Definition is_context (c : muggle_aes_context) : Prop :=
  length (rd_key (sk c)) = 60%nat /\ Forall (is_word 32) (rd_key (sk c)).
Definition be_context (c : muggle_aes_context) : muggle_aes_context :=
  mkctx (op c) (mode c) (be_keys (sk c)).

(** A key of a size that AES has. *)
Definition is_key (key : list Z) (bits : Z) : Prop :=
  is_bytes key /\ (bits = 128 \/ bits = 192 \/ bits = 256 -> 8 * zlen key = bits).

#[local] Opaque muggle_openssl_aes_encrypt muggle_openssl_aes_decrypt muggle_aes_encrypt muggle_aes_decrypt.
#[local] Opaque muggle_openssl_aes_set_key internal_set_key.

Lemma crypt_agrees o sk b :
  is_schedule sk -> is_state b ->
  crypt_block true o sk b = b /\ o <> MUGGLE_ENCRYPT /\ o <> MUGGLE_DECRYPT \/
  crypt_block true o sk b = crypt_block false o (be_keys sk) b.
Proof.
  intros Hs Hb. unfold crypt_block, muggle_aes_crypt.
  destruct (Z.eqb_spec o MUGGLE_ENCRYPT), (Z.eqb_spec o MUGGLE_DECRYPT); simpl.
  - right. by rewrite openssl_encrypt_wp, transpose_twice by auto using openssl_encrypt_state.
  - right. by rewrite openssl_encrypt_wp, transpose_twice by auto using openssl_encrypt_state.
  - right. by rewrite openssl_decrypt_wp, transpose_twice by auto using openssl_decrypt_state.
  - by left.
Qed.

Lemma set_key_context o m key bits c :
  is_context c -> is_key key bits ->
  let (r, c1) := muggle_aes_set_key true o m key bits c in
  muggle_aes_set_key false o m key bits (be_context c) = (r, be_context c1) /\
  is_context c1 /\ (r = 0 -> is_schedule (sk c1)).
Proof.
  intros [Hl Hw] [Hb Hk]. unfold muggle_aes_set_key.
  destruct (negb ((o =? MUGGLE_ENCRYPT) || (o =? MUGGLE_DECRYPT))); [done|].
  destruct (negb ((MUGGLE_BLOCK_CIPHER_MODE_ECB <=? m) && (m <? MAX_MUGGLE_BLOCK_CIPHER_MODE))); [done|].
  pose proof (set_key_agrees key bits (sk c) Hl Hw Hb Hk) as H1. cbn [sk be_context].
  destruct (muggle_openssl_aes_set_key key bits (sk c)) as [r s']. destruct H1 as (-> & H2 & H3 & H4).
  done.
Qed.

(** C10: for every key and every mode, the key setups of the two builds of the
    library succeed or fail alike and leave the same schedule, up to the byte
    order of its words, and with it the two block functions agree on every
    block. *)
Theorem aes_builds_agree o m key bits c :
  is_context c -> is_key key bits ->
  let (r, c1) := muggle_aes_set_key true o m key bits c in
  muggle_aes_set_key false o m key bits (be_context c) = (r, be_context c1) /\
  (r = 0 -> forall b, is_state b ->
     crypt_block true o (sk c1) b = crypt_block false o (sk (be_context c1)) b).
Proof.
  intros Hc Hk. pose proof (set_key_context o m key bits c Hc Hk) as H.
  destruct (muggle_aes_set_key true o m key bits c) as [r c1] eqn:E. destruct H as (-> & _ & Hs).
  split; [done|]. intros Hr b Hb. destruct (crypt_agrees o (sk c1) b (Hs Hr) Hb) as [(_ & H1 & H2)|H]; [|done].
  unfold muggle_aes_set_key in E.
  rewrite (proj2 (Z.eqb_neq o _) H1), (proj2 (Z.eqb_neq o _) H2) in E. injection E as <- _. done.
Qed.

(** ** The modes of the selected build *)
Lemma zlen_state b : zlen b = MUGGLE_AES_BLOCK_SIZE -> is_bytes b -> is_state b.
Proof. intros Hl Hb. split; [unfold zlen, MUGGLE_AES_BLOCK_SIZE in Hl; lia|done]. Qed.

Lemma aes_cipher sk :
  is_schedule sk ->
  BlockCipher MUGGLE_AES_BLOCK_SIZE (crypt_block true MUGGLE_ENCRYPT sk) (crypt_block true MUGGLE_DECRYPT sk).
Proof.
  intros Hs. unfold crypt_block, muggle_aes_crypt. simpl.
  assert (forall x, is_state x -> zlen x = MUGGLE_AES_BLOCK_SIZE /\ is_bytes x) as Hz.
  { intros x [Hx Hb]. unfold zlen. by rewrite Hx. }
  split; intros b Hl Hb; auto using openssl_encrypt_state, openssl_decrypt_state.
  apply openssl_aes_block; auto using zlen_state.
Qed.

Lemma aes_nonce_next_word x :
  is_word 64 x.1 /\ is_word 64 x.2 -> is_word 64 (nonce_next x).1 /\ is_word 64 (nonce_next x).2.
Proof. intros [? ?]. unfold nonce_next. case_match; simpl; auto using is_word_wrap with lia. Qed.

Lemma aes_nonce_bytes_vector x :
  is_word 64 x.1 /\ is_word 64 x.2 -> is_vector MUGGLE_AES_BLOCK_SIZE (nonce_bytes x).
Proof.
  intros _. unfold nonce_bytes. split.
  - unfold zlen. by rewrite length_app, !le_bytes_length.
  - apply Forall_app. split; apply le_bytes_is_bytes.
Qed.

(** The context that the key setup leaves. *)
Definition aes_ctx (o m : Z) (key : list Z) (bits : Z) (c0 : muggle_aes_context) : muggle_aes_context :=
  (muggle_aes_set_key true o m key bits c0).2.

(** A key setup that succeeds. *)
Definition valid_key (key : list Z) (bits : Z) : Prop :=
  (bits = 128 \/ bits = 192 \/ bits = 256) /\ 8 * zlen key = bits /\ is_bytes key.

#[local] Transparent muggle_openssl_aes_set_key.
Lemma openssl_set_key_ok key bits c : bits = 128 \/ bits = 192 \/ bits = 256 ->
  (muggle_openssl_aes_set_key key bits c).1 = 0.
Proof. intros [->|[->| ->]]; done. Qed.
#[local] Opaque muggle_openssl_aes_set_key.

Lemma aes_ctx_eq key bits c0 :
  is_context c0 -> valid_key key bits -> exists s,
  is_schedule s /\
  forall m, 0 <= m < 5 ->
    aes_ctx MUGGLE_ENCRYPT m key bits c0 = mkctx MUGGLE_ENCRYPT m s /\
    aes_ctx MUGGLE_DECRYPT m key bits c0 = mkctx MUGGLE_DECRYPT m s.
Proof.
  intros Hc (Hbits & Hlen & Hb). exists (muggle_openssl_aes_set_key key bits (sk c0)).2. split.
  - pose proof (set_key_agrees key bits (sk c0) (proj1 Hc) (proj2 Hc) Hb ltac:(done)) as H.
    pose proof (openssl_set_key_ok key bits (sk c0) Hbits).
    destruct (muggle_openssl_aes_set_key key bits (sk c0)). by apply H.
  - intros m Hm. unfold aes_ctx, muggle_aes_set_key.
    rewrite (proj2 (Z.leb_le _ m)), (proj2 (Z.ltb_lt m _)) by (apply Hm).
    by destruct (muggle_openssl_aes_set_key key bits (sk c0)).
Qed.

Lemma aes_whole_blocks n : 0 <= n < 2 ^ 32 -> n mod 16 = 0 ->
  (ROUND_UP_POW_OF_2_MUL n MUGGLE_AES_BLOCK_SIZE =? n) = true /\ n / 16 * 16 = n.
Proof.
  intros Hn Hm. split; [|pose proof (Z.div_mod n 16); lia].
  apply Z.eqb_eq. change MUGGLE_AES_BLOCK_SIZE with (2 ^ 4). by apply round_up_multiple.
Qed.

(** A loop whose state has a trivial part. *)
Lemma for_up_unit {A} (f : Z -> A -> outcome A) (g : Z -> unit * A -> outcome (unit * A)) lo hi a :
  (forall i a, g i (tt, a) = (o ← f i a; mret (tt, o))) ->
  for_up lo hi g (tt, a) = (o ← for_up lo hi f a; mret (tt, o)).
Proof.
  intros H. unfold for_up. generalize (Z.to_nat (hi - lo)) as k. intros k. revert lo a.
  induction k as [|k IH]; intros lo a; [done|]. cbn [for_up_iter]. rewrite H.
  destruct (f lo a) as [a'| |]; [|done..]. mcompute. apply IH.
Qed.

(** With a valid direction the loop of ECB is the shared one. *)
Lemma ecb_chunks o s input n output :
  o = MUGGLE_ENCRYPT \/ o = MUGGLE_DECRYPT -> 0 <= n < 2 ^ 32 -> n mod 16 = 0 ->
  muggle_aes_ecb true (mkctx o MUGGLE_BLOCK_CIPHER_MODE_ECB s) input n output =
  (r ← chunk_loop 16 (n / 16) (ecb_step (crypt_block true o s)) tt input output;
   mret (0, snd (r : unit * list Z))).
Proof.
  intros Ho Hn Hm. destruct (aes_whole_blocks n Hn Hm) as [Hr _].
  unfold muggle_aes_ecb. cbn [mode op sk]. rewrite Hr. cbn [negb Z.eqb MUGGLE_BLOCK_CIPHER_MODE_ECB].
  unfold chunk_loop. change MUGGLE_AES_BLOCK_SIZE with 16.
  rewrite (for_up_unit (fun i output =>
      input_block ← mem_read input (i * 16) 16;
      match (muggle_aes_crypt true o input_block s).2 with
      | Some block => mem_write output (i * 16) block
      | None => mret output
      end)).
  - destruct (for_up _ _ _ output); done.
  - intros i a. destruct (mem_read input (i * 16) 16) as [x| |]; [|done..].
    unfold ecb_step, crypt_block, muggle_aes_crypt. destruct Ho as [-> | ->]; reflexivity.
Qed.

(** Pass the checks of a mode on a context with a valid direction. *)
Ltac mode_compute f Hchk :=
  unfold f; cbn [mode op sk]; change MUGGLE_AES_BLOCK_SIZE with 16; rewrite Hchk;
  cbn [negb orb Z.eqb Pos.eqb MUGGLE_BLOCK_CIPHER_MODE_CBC MUGGLE_BLOCK_CIPHER_MODE_CFB
       MUGGLE_BLOCK_CIPHER_MODE_OFB MUGGLE_BLOCK_CIPHER_MODE_CTR MUGGLE_ENCRYPT MUGGLE_DECRYPT];
  fold MUGGLE_ENCRYPT MUGGLE_DECRYPT in *.

(** C18: in ECB and CBC mode, for the three key sizes and whole blocks, decrypting
    what encryption produced, with the same key and vector, gives the plaintext;
    both calls return 0 and leave the same vector. *)
Theorem aes_block_modes_roundtrip key bits iv input n out out2 c0 :
  is_context c0 -> valid_key key bits ->
  is_vector MUGGLE_AES_BLOCK_SIZE iv -> is_bytes input -> 0 <= n < 2 ^ 32 -> n mod 16 = 0 ->
  n <= zlen input -> n <= zlen out -> n <= zlen out2 ->
  (exists out',
    muggle_aes_ecb true (aes_ctx MUGGLE_ENCRYPT MUGGLE_BLOCK_CIPHER_MODE_ECB key bits c0) input n out
      = Done (0, out') /\
    muggle_aes_ecb true (aes_ctx MUGGLE_DECRYPT MUGGLE_BLOCK_CIPHER_MODE_ECB key bits c0)
      (seg 0 n out') n out2 = Done (0, overwrite 0 (seg 0 n input) out2)) /\
  (exists out' iv',
    muggle_aes_cbc true (aes_ctx MUGGLE_ENCRYPT MUGGLE_BLOCK_CIPHER_MODE_CBC key bits c0) input n iv out
      = Done (0, iv', out') /\
    muggle_aes_cbc true (aes_ctx MUGGLE_DECRYPT MUGGLE_BLOCK_CIPHER_MODE_CBC key bits c0)
      (seg 0 n out') n iv out2 = Done (0, iv', overwrite 0 (seg 0 n input) out2)).
Proof.
  intros Hc Hk Hiv Hin Hn Hm Hi Ho Ho2. destruct (aes_whole_blocks n Hn Hm) as [Hr Hd].
  change MUGGLE_AES_BLOCK_SIZE with 16 in *.
  assert (0 <= n / 16) by (apply Z.div_pos; lia).
  destruct (aes_ctx_eq key bits c0 Hc Hk) as (s & Hs & Hctx). pose proof (aes_cipher s Hs) as Hcip.
  split.
  - destruct (Hctx MUGGLE_BLOCK_CIPHER_MODE_ECB ltac:(done)) as [-> ->].
    destruct (ecb_loop_roundtrip 16 4 eq_refl ltac:(done) _ _ (BlockCipher0 := Hcip)
      (n / 16) input out) as (out' & E1 & _ & E2); [lia|lia|lia|done|]. rewrite Hd in E2.
    exists out'. rewrite !ecb_chunks by auto. rewrite E1, E2 by done. done.
  - destruct (Hctx MUGGLE_BLOCK_CIPHER_MODE_CBC ltac:(done)) as [-> ->].
    destruct (cbc_loop_roundtrip 16 4 eq_refl ltac:(done) _ _ (BlockCipher0 := Hcip)
      (n / 16) iv input out) as (iv' & out' & E1 & _ & E2); [lia|done|lia|lia|done|]. rewrite Hd in E2.
    exists out', iv'. mode_compute muggle_aes_cbc Hr.
    rewrite E1, E2 by done. done.
Qed.

(** C19: in CFB, OFB and CTR mode, for any number of bytes and any position in
    the vector, decrypting what encryption produced from the same state gives the
    plaintext, and both calls leave the same state. *)
Theorem aes_stream_modes_roundtrip key bits iv off nonce input n out out2 c0 :
  is_context c0 -> valid_key key bits ->
  is_vector MUGGLE_AES_BLOCK_SIZE iv -> 0 <= off < 16 -> is_word 64 nonce.1 /\ is_word 64 nonce.2 ->
  is_bytes input -> 0 <= n <= zlen input -> n <= zlen out -> n <= zlen out2 ->
  (exists out' iv' off',
    muggle_aes_cfb128 true (aes_ctx MUGGLE_ENCRYPT MUGGLE_BLOCK_CIPHER_MODE_CFB key bits c0)
      input n iv off out = Done (0, iv', off', out') /\
    muggle_aes_cfb128 true (aes_ctx MUGGLE_DECRYPT MUGGLE_BLOCK_CIPHER_MODE_CFB key bits c0)
      (seg 0 n out') n iv off out2 = Done (0, iv', off', overwrite 0 (seg 0 n input) out2)) /\
  (exists out' iv' off',
    muggle_aes_ofb128 true (aes_ctx MUGGLE_ENCRYPT MUGGLE_BLOCK_CIPHER_MODE_OFB key bits c0)
      input n iv off out = Done (0, iv', off', out') /\
    muggle_aes_ofb128 true (aes_ctx MUGGLE_DECRYPT MUGGLE_BLOCK_CIPHER_MODE_OFB key bits c0)
      (seg 0 n out') n iv off out2 = Done (0, iv', off', overwrite 0 (seg 0 n input) out2)) /\
  (exists out' nonce' sb' off',
    muggle_aes_ctr true (aes_ctx MUGGLE_ENCRYPT MUGGLE_BLOCK_CIPHER_MODE_CTR key bits c0)
      input n nonce off iv out = Done (0, nonce', sb', off', out') /\
    muggle_aes_ctr true (aes_ctx MUGGLE_DECRYPT MUGGLE_BLOCK_CIPHER_MODE_CTR key bits c0)
      (seg 0 n out') n nonce off iv out2 = Done (0, nonce', sb', off', overwrite 0 (seg 0 n input) out2)).
Proof.
  intros Hc Hk Hiv Hoff Hnon Hin Hn Ho Ho2.
  destruct (aes_ctx_eq key bits c0 Hc Hk) as (s & Hs & Hctx). pose proof (aes_cipher s Hs) as Hcip.
  assert ((off <? 16) = true) as Hlt by (apply Z.ltb_lt; lia).
  change MUGGLE_AES_BLOCK_SIZE with 16 in *.
  split; [|split].
  - destruct (Hctx MUGGLE_BLOCK_CIPHER_MODE_CFB ltac:(done)) as [-> ->].
    destruct (cfb_loop_roundtrip 16 4 eq_refl ltac:(done) _ _ (BlockCipher0 := Hcip)
      n (iv, off) input out) as ([iv' off'] & out' & E1 & _ & E2); [lia|done|lia|lia|done|].
    exists out', iv', off'. mode_compute muggle_aes_cfb128 Hlt. rewrite E1, E2 by done. done.
  - destruct (Hctx MUGGLE_BLOCK_CIPHER_MODE_OFB ltac:(done)) as [-> ->].
    destruct (ofb_loop_roundtrip 16 4 eq_refl ltac:(done) _ _ (BlockCipher0 := Hcip)
      n (iv, off) input out) as ([iv' off'] & out' & E1 & _ & E2); [lia|done|lia|lia|done|].
    exists out', iv', off'. mode_compute muggle_aes_ofb128 Hlt. rewrite E1, E2 by done. done.
  - destruct (Hctx MUGGLE_BLOCK_CIPHER_MODE_CTR ltac:(done)) as [-> ->].
    destruct (ctr_loop_roundtrip 16 4 eq_refl ltac:(done) _ _ (BlockCipher0 := Hcip)
      nonce_next nonce_bytes (fun x => is_word 64 x.1 /\ is_word 64 x.2) aes_nonce_next_word aes_nonce_bytes_vector
      n (nonce, iv, off) input out) as ([[nonce' sb'] off'] & out' & E1 & _ & E2); [lia|done|lia|lia|done|].
    exists out', nonce', sb', off'. mode_compute muggle_aes_ctr Hlt. rewrite E1, E2 by done. done.
Qed.

(** ** Witnesses *)
Definition sample_context : muggle_aes_context := mkctx 0 0 (mksk (replicate 60 0) 0).
Definition sample_key : list Z := seqZ 1 24.
Definition sample_iv : list Z := seqZ 3 16.
Definition sample_in : list Z := seqZ 5 32.

Lemma sample_context_ok : is_context sample_context.
Proof. split; [done|]. by apply Forall_replicate. Qed.

Lemma sample_key_ok : valid_key sample_key 192.
Proof. split_and!; [by right; left|done|]. by repeat constructor. Qed.

Lemma sample_iv_ok : is_vector MUGGLE_AES_BLOCK_SIZE sample_iv.
Proof. split; [done|]. by repeat constructor. Qed.

Lemma sample_in_ok : is_bytes sample_in.
Proof. by repeat constructor. Qed.

Lemma aes_builds_agree_witness :
  let (r, c1) := muggle_aes_set_key true 1 0 sample_key 192 sample_context in
  muggle_aes_set_key false 1 0 sample_key 192 (be_context sample_context) = (r, be_context c1) /\
  (r = 0 -> forall b, is_state b ->
     crypt_block true 1 (sk c1) b = crypt_block false 1 (sk (be_context c1)) b).
Proof.
  apply (aes_builds_agree 1 0 sample_key 192 sample_context); [apply sample_context_ok|].
  split; [apply sample_key_ok|]. intros _. reflexivity.
Defined.

Lemma aes_block_modes_roundtrip_witness :
  (exists out',
    muggle_aes_ecb true (aes_ctx 1 0 sample_key 192 sample_context) sample_in 32 sample_in
      = Done (0, out') /\
    muggle_aes_ecb true (aes_ctx 0 0 sample_key 192 sample_context) (seg 0 32 out') 32 sample_in
      = Done (0, overwrite 0 (seg 0 32 sample_in) sample_in)) /\
  (exists out' iv',
    muggle_aes_cbc true (aes_ctx 1 1 sample_key 192 sample_context) sample_in 32 sample_iv sample_in
      = Done (0, iv', out') /\
    muggle_aes_cbc true (aes_ctx 0 1 sample_key 192 sample_context) (seg 0 32 out') 32 sample_iv sample_in
      = Done (0, iv', overwrite 0 (seg 0 32 sample_in) sample_in)).
Proof.
  apply (aes_block_modes_roundtrip sample_key 192 sample_iv sample_in 32 sample_in sample_in sample_context);
    [apply sample_context_ok|apply sample_key_ok|apply sample_iv_ok|apply sample_in_ok|done..].
Defined.

Lemma aes_stream_modes_roundtrip_witness :
  (exists out' iv' off',
    muggle_aes_cfb128 true (aes_ctx 1 2 sample_key 192 sample_context) sample_in 21 sample_iv 5 sample_in
      = Done (0, iv', off', out') /\
    muggle_aes_cfb128 true (aes_ctx 0 2 sample_key 192 sample_context) (seg 0 21 out') 21 sample_iv 5 sample_in
      = Done (0, iv', off', overwrite 0 (seg 0 21 sample_in) sample_in)) /\
  (exists out' iv' off',
    muggle_aes_ofb128 true (aes_ctx 1 3 sample_key 192 sample_context) sample_in 21 sample_iv 5 sample_in
      = Done (0, iv', off', out') /\
    muggle_aes_ofb128 true (aes_ctx 0 3 sample_key 192 sample_context) (seg 0 21 out') 21 sample_iv 5 sample_in
      = Done (0, iv', off', overwrite 0 (seg 0 21 sample_in) sample_in)) /\
  (exists out' nonce' sb' off',
    muggle_aes_ctr true (aes_ctx 1 4 sample_key 192 sample_context) sample_in 21 (7, 8) 5 sample_iv sample_in
      = Done (0, nonce', sb', off', out') /\
    muggle_aes_ctr true (aes_ctx 0 4 sample_key 192 sample_context) (seg 0 21 out') 21 (7, 8) 5 sample_iv sample_in
      = Done (0, nonce', sb', off', overwrite 0 (seg 0 21 sample_in) sample_in)).
Proof.
  apply (aes_stream_modes_roundtrip sample_key 192 sample_iv 5 (7, 8) sample_in 21 sample_in sample_in
    sample_context);
    [apply sample_context_ok|apply sample_key_ok|apply sample_iv_ok|done|by split|apply sample_in_ok|done..].
Defined.

End Aes.
